(* ===== verification/_CoqProject ===== *)
-Q . S2P
Prelude.v
Float64.v
CuckooIndex.v
Recovery.v
SpiralArith.v
NttTable.v
SpiralUtil.v
SpiralParams.v
Ntt.v
NttConv.v
PolyMatrix.v
PolyMatrixProofs.v
Gadget.v
PirDb.v
SimplePir.v
Pps.v
PpsPir.v
Piano.v
EcStore.v
UbPsiStore.v
EcdhPsi.v
UbPsiCache.v
EcdhOprf.v
UbPsi.v
UbPsiProofs.v
UbPsiOnline.v
UbPsiRun.v
Galois.v
PaxosHash.v
WeightData.v
DenseMtx.v
Combination.v
Paxos.v
PaxosInput.v
PaxosEncode.v
PaxosSolve.v
PaxosDense.v
PaxosBackfill.v
PaxosDecode.v
PaxosReuse.v
Baxos.v
BaxosSolve.v
BaxosBins.v
BaxosDecode.v
Rr22Oprf.v
Rr22OprfProofs.v
Rr22Psi.v
Rr22PsiProofs.v
Rr22Runner.v
Kkrt.v
KkrtProofs.v
KkrtRun.v
Nty.v
NtyProofs.v
NtyRun.v
Ecdh3pc.v
Ecdh3pcProofs.v
Ecdh3pcRun.v
Collective.v
Nparty.v
NpartyProofs.v
NpartyRun.v
