(* ===== verification/Prelude.v ===== *)
(** * A verification development for the SecretFlow PSI library

    The repository implements private set intersection and private information
    retrieval in C++ under src/psi, with experimental protocols under
    src/experiment.  This library models its algorithms as executable functions
    and step relations and proves them correct.  Names of definitions are those
    of the source.

    ** How a program is modelled

    - A fallible or partial operation returns [res]: [Ok], [Throw] for an
      exception ([YACL_ENFORCE], [YACL_THROW], [abort]), [UB] for what the C++
      standard leaves undefined (an access out of bounds, a null pointer, signed
      overflow).  A theorem that an operation returns therefore also shows that no
      access leaves its vector.
    - Machine integers are [Z] with every wrap written where the source wraps.
      A [double] is the binary64 of [Float64].
    - A loop with a counter is [for_], a range loop [for_each]; a [while] loop is
      a recursion with fuel that answers [UB] when the fuel is spent, and the
      theorem about it shows that the fuel given by its caller is enough.
    - An object is a record; a method takes it and returns it.  Where the code
      relies on aliasing (a shared matrix, a buffer reused from turn to turn) the
      model returns the shared object or threads the buffer.
    - Threads are step relations or an arbitrary order of jobs, links between
      parties are queues or streams with one history, collective operations meet
      once all their members have called them, files are values that a crash cuts short.
    - Third-party code (yacl, SEAL, protobuf, abseil, libdivide, sodium, Arrow) is
      a class of operations with named laws, instantiated in the witnesses.

    ** The files

    Prelude: [res] and its weakest preconditions [wp] and [safe], loops and their
    invariant rules, vectors, machine words, bytes.  Float64: doubles.

    Hash tables and stores (src/psi/utils).  CuckooIndex: the cuckoo hash table of
    KKRT, its invariant and termination.  EcStore: batch providers, the stores of
    the masked items of ECDH-PSI and the intersection computed from them.
    UbPsiStore: the client's caches of the unbalanced PSI.  Recovery
    (src/psi/checkpoint): the recovery manager, its checkpoint file and crashes.

    Two-party PSI (src/psi/algorithm/ecdh).  EcdhPsi: the three loops of either
    party, their interleavings, termination and the intersection both compute.
    Three parties (ecdh_3pc_psi): Ecdh3pc (each party as a function of what its links
    bring), Ecdh3pcProofs (the streams of batches), Ecdh3pcRun (a whole run).
    The unbalanced PSI (ub_psi): UbPsiCache (the provider that shuffles, the
    server's cache), EcdhOprf (the oblivious PRF over OpenSSL and over FourQ, and
    the interface [IEcdhOprf] it keeps), UbPsi (server and client, both phases);
    UbPsiProofs (offline), UbPsiOnline (the messages), UbPsiRun (a whole run).
    N parties (src/psi/legacy): Collective (parties that meet in collective
    operations, where the order does not matter), Nparty (memory_psi, nparty_psi,
    sync), NpartyProofs (level by level), NpartyRun (over ECDH-PSI).
    KKRT (src/psi/algorithm/kkrt): Kkrt (both parties over the OT extension),
    KkrtProofs, KkrtRun (the receiver's result).
    Multi-party PSI (src/psi/algorithm/nty): Nty (all parties over an
    interface of key-value stores), NtyProofs, NtyRun (a Baxos keeps the interface;
    a whole run).

    Oblivious key-value stores (src/psi/algorithm/rr22/okvs).  Galois: GF(2^128)
    (galois128).  PaxosHash: the rows of keys (aes_crhash, paxos_hash).
    WeightData: columns by weight (paxos_utils.h).  DenseMtx: binary matrices
    (dense_mtx).  Combination: the choices of gap columns; Paxos: the matrix and
    its triangulation; PaxosEncode: encoding and decoding, definitions (paxos).
    Then the proofs: PaxosInput (the matrix of some keys), PaxosSolve (F C^-1 and
    back substitution), PaxosDense (the gap equations), PaxosBackfill (the vector
    solves every row), PaxosDecode (decoding multiplies with the rows; the round
    trip), PaxosReuse (an object that is used again).  Baxos: the store in bins, with
    threads (baxos); BaxosSolve (hashing and merging), BaxosBins (the bins are
    solved), BaxosDecode (batches of keys; the round trip).

    RR22 (src/psi/algorithm/rr22).  Rr22Oprf: the oblivious PRF over a vector OLE
    and a Baxos (rr22_oprf, davis_meyer_hash); Rr22OprfProofs: the parties agree.
    Rr22Psi: a bucket from its items to the intersection (rr22_psi.cc, rr22_utils);
    Rr22PsiProofs: both parties get it.  Rr22Runner: the pipeline of the buckets
    (rr22_psi.h).

    Private information retrieval.  PirDb: the raw database
    (src/psi/algorithm/pir_interface).  SpiralPIR (src/psi/algorithm/spiral):
    SpiralArith (modular arithmetic), NttTable and Ntt (number theoretic
    transforms), SpiralUtil (packing bytes into coefficients), SpiralParams (the
    parameter sets, CRT), NttConv (a transform turns products of polynomials into
    pointwise ones), PolyMatrix (matrices of polynomials, poly_matrix and gadget),
    PolyMatrixProofs and Gadget (their products and the gadget).  SimplePir, Pps with PpsPir, and Piano: the three
    schemes of src/experiment/pir.

    ** What the theorems show

    - Protocols end to end: two parties of ECDH-PSI compute the intersection
      whatever the schedule, and N parties over it whatever theirs; two parties of RR22 in the fast mode the intersection of a bucket
      whatever the threads, and where a loop over the buckets raises nothing its pipeline
      does what the loop does; the receiver of
      KKRT gets the common items, the receiver of NTY those of all parties, the
      master of the three-party ECDH-PSI those of the other two; a party of the unbalanced PSI that is
      to learn the result gets its rows; SimplePIR, the puncturable-set schemes and Piano return
      the queried entry, and the state left behind allows the next query.
    - Data structures against their specifications: the cuckoo table, the weight
      lists (a refinement of a finite map), dense matrices, PaXoS and Baxos as
      key-value stores, ciphertext stores and caches, the checkpoint file across crashes (each one but the
      one that cuts the file itself short).
    - Arithmetic: Barrett reduction, NTT, CRT, rescaling, matrices of polynomials
      and gadgets, GF(2^128), with the vectorized bodies equal to the scalar ones.
    - Encodings that read back what they wrote.

    ** Bounds and fuel

    The eviction loop of the cuckoo table gets a fuel that the bound on its
    candidates makes sufficient; the cancellation loop of a gap row gets one turn
    for each main row, as each turn removes the largest column; the search for gap
    columns gets one turn for each choice.  PaXoS theorems ask for sparse sizes
    below the largest index and column weights below 200, the reservation of
    WeightData, and for decoding for fewer keys than a group of 32 with a binary dense
    part or one gap row with a GF(2^128) one, as the code fails beyond; those on Baxos and RR22 ask that the keys spread ([spread]): no bin
    and no thread gets more than its share and no bin has two gap rows.

    ** Not modelled

    Sockets, files, CSV and Arrow reading, progress reports, launchers, bindings
    and command lines have no logic of their own to verify.  The manifest lists
    every part of the repository with the reason when it is left out. *)
From stdpp Require Export base tactics list list_numbers gmap sets strings sorting.
From Stdlib Require Export ZArith Lia.

#[global] Open Scope Z_scope.

(** ** Machine integers

    A [uintN_t] value is a [Z] in [0, 2^N); every operation that can leave the
    range is wrapped explicitly where the source computes at that width. *)

Definition wrap (w z : Z) : Z := z mod 2 ^ w.
Definition u64 (z : Z) : Z := wrap 64 z.
Definition u32 (z : Z) : Z := wrap 32 z.
Definition u8 (z : Z) : Z := wrap 8 z.
Definition u128 (z : Z) : Z := wrap 128 z.

(** Two's complement reading of a word, as [static_cast<int64_t>] does. *)
Definition to_signed (w z : Z) : Z :=
  let r := wrap w z in if r <? 2 ^ (w - 1) then r else r - 2 ^ w.
Definition i64 (z : Z) : Z := to_signed 64 z.
Definition i32 (z : Z) : Z := to_signed 32 z.

(** [static_cast<uintN_t>(bool)]. *)
Definition b2z (b : bool) : Z := if b then 1 else 0.

Definition in_u (w z : Z) : Prop := 0 <= z < 2 ^ w.

Lemma wrap_range w z : 0 <= w -> in_u w (wrap w z).
Proof. intros; unfold wrap, in_u. apply Z.mod_pos_bound. lia. Qed.

Lemma wrap_small w z : in_u w z -> wrap w z = z.
Proof. intros; unfold wrap. apply Z.mod_small. exact H. Qed.

Lemma wrap_wrap w z : 0 <= w -> wrap w (wrap w z) = wrap w z.
Proof. intros. apply wrap_small, wrap_range; done. Qed.

Lemma u64_small z : 0 <= z < 2 ^ 64 -> u64 z = z.
Proof. apply wrap_small. Qed.
Lemma u64_range z : 0 <= u64 z < 2 ^ 64.
Proof. apply (wrap_range 64). lia. Qed.
Lemma u32_small z : 0 <= z < 2 ^ 32 -> u32 z = z.
Proof. apply wrap_small. Qed.
Lemma u32_range z : 0 <= u32 z < 2 ^ 32.
Proof. apply (wrap_range 32). lia. Qed.
Lemma u8_range z : 0 <= u8 z < 2 ^ 8.
Proof. apply (wrap_range 8). lia. Qed.

(** Arithmetic under [wrap] may be done before or after wrapping. *)
Lemma wrap_add_l w a b : wrap w (wrap w a + b) = wrap w (a + b).
Proof. unfold wrap. apply Zplus_mod_idemp_l. Qed.
Lemma wrap_add_r w a b : wrap w (a + wrap w b) = wrap w (a + b).
Proof. unfold wrap. apply Zplus_mod_idemp_r. Qed.
Lemma wrap_sub_l w a b : wrap w (wrap w a - b) = wrap w (a - b).
Proof. unfold wrap. apply Zminus_mod_idemp_l. Qed.
Lemma wrap_sub_r w a b : wrap w (a - wrap w b) = wrap w (a - b).
Proof. unfold wrap. apply Zminus_mod_idemp_r. Qed.
Lemma wrap_mul_l w a b : wrap w (wrap w a * b) = wrap w (a * b).
Proof. unfold wrap. apply Zmult_mod_idemp_l. Qed.
Lemma wrap_mul_r w a b : wrap w (a * wrap w b) = wrap w (a * b).
Proof. unfold wrap. apply Zmult_mod_idemp_r. Qed.

(** A word and its unwrapped value differ by a multiple of the word size. *)
Lemma wrap_sub_div w z : 0 <= w -> wrap w z = z - 2 ^ w * (z / 2 ^ w).
Proof. intros. unfold wrap. apply Z.mod_eq. lia. Qed.
Lemma wrap_congr w a b k : 0 <= w -> a = b + k * 2 ^ w -> wrap w a = wrap w b.
Proof. intros Hw ->. unfold wrap. apply Z.mod_add. lia. Qed.

Lemma div_mul_bounds a b : 0 <= a -> 0 < b -> 0 <= a / b * b <= a /\ a - b < a / b * b.
Proof. intros. pose proof (Z.div_mod a b ltac:(lia)). pose proof (Z.mod_pos_bound a b ltac:(lia)).
  pose proof (Z.div_pos a b ltac:(lia) ltac:(lia)). nia. Qed.

Create Rewrite HintDb wrap.
#[export] Hint Rewrite wrap_add_l wrap_add_r wrap_sub_l wrap_sub_r wrap_mul_l
  wrap_mul_r : wrap.

(** Bits of a wrapped word. *)
Lemma wrap_land w z : 0 <= w -> wrap w z = Z.land z (Z.ones w).
Proof. intros. unfold wrap. rewrite Z.land_ones; done. Qed.

Lemma wrap_testbit w z i :
  0 <= w -> 0 <= i -> Z.testbit (wrap w z) i = (i <? w) && Z.testbit z i.
Proof.
  intros. rewrite wrap_land, Z.land_spec, Z.testbit_ones by done.
  destruct (0 <=? i) eqn:E; [|lia]. simpl. apply andb_comm.
Qed.

Lemma testbit_high z w i : 0 <= z < 2 ^ w -> 0 <= w <= i -> Z.testbit z i = false.
Proof.
  intros Hz Hi. rewrite <- (Z.mod_small z (2 ^ w)) by lia. apply Z.mod_pow2_bits_high. lia.
Qed.

(** Disjoint bit fields may be read as a sum. *)
Lemma lor_shiftl_add a b n :
  0 <= n -> 0 <= a < 2 ^ n -> Z.lor a (Z.shiftl b n) = a + b * 2 ^ n.
Proof.
  intros Hn Ha. rewrite <- Z.shiftl_mul_pow2 by done.
  rewrite <- Z.add_lor_land.
  replace (Z.land a (Z.shiftl b n)) with 0; [lia|].
  symmetry. apply Z.bits_inj'. intros i Hi.
  rewrite Z.land_spec, Z.bits_0, Z.shiftl_spec by done.
  destruct (decide (i < n)) as [Hlt|Hge].
  - rewrite (Z.testbit_neg_r b) by lia. apply andb_false_r.
  - assert (Z.testbit a i = false) as ->; [|done].
    destruct (decide (a = 0)) as [->|]; [apply Z.bits_0|].
    apply Z.bits_above_log2; [lia|].
    apply Z.log2_lt_pow2; [lia|]. apply Z.lt_le_trans with (2 ^ n); [lia|].
    apply Z.pow_le_mono_r; lia.
Qed.

(** ** Outcomes

    [Ok] is a normal return, [Throw] an exception raised by [YACL_ENFORCE] or
    [YACL_THROW], [UB] what the C++ standard leaves undefined (an access out of
    range, a division by zero). *)

Inductive res (A : Type) : Type :=
| Ok (a : A)
| Throw
| UB.
Arguments Ok {A} a.
Arguments Throw {A}.
Arguments UB {A}.

#[export] Instance res_ret : MRet res := fun A a => Ok a.
#[export] Instance res_bind : MBind res := fun A B f m =>
  match m with Ok a => f a | Throw => Throw | UB => UB end.
#[export] Instance res_fmap : FMap res := fun A B f m =>
  match m with Ok a => Ok (f a) | Throw => Throw | UB => UB end.

Definition is_ok {A} (m : res A) : bool := match m with Ok _ => true | _ => false end.

(** [YACL_ENFORCE(b)]. *)
Definition enforce (b : bool) : res unit := if b then Ok tt else Throw.

(** An operation whose precondition [b] is the programmer's duty. *)
Definition defined (b : bool) : res unit := if b then Ok tt else UB.

(** [v[i]] on a [std::vector] or span, read and written. *)
Definition vget {A} (v : list A) (i : nat) : res A :=
  match v !! i with Some x => Ok x | None => UB end.
Definition vset {A} (v : list A) (i : nat) (x : A) : res (list A) :=
  if bool_decide (i < length v)%nat then Ok (<[i := x]> v) else UB.

(** The same at an unsigned index word, compared to the length first. *)
Definition vgetz {A} (v : list A) (i : Z) : res A :=
  if (0 <=? i) && (i <? Z.of_nat (length v)) then vget v (Z.to_nat i) else UB.
Definition vsetz {A} (v : list A) (i : Z) (x : A) : res (list A) :=
  if (0 <=? i) && (i <? Z.of_nat (length v)) then vset v (Z.to_nat i) x else UB.

(** [for (i = k; i < k + n; ++i) s = f(i, s)]. *)
Fixpoint for_from {S} (n k : nat) (f : nat -> S -> res S) (s : S) : res S :=
  match n with
  | O => Ok s
  | Datatypes.S n' => s' ← f k s; for_from n' (Datatypes.S k) f s'
  end.
Definition for_ {S} (n : nat) (f : nat -> S -> res S) (s : S) : res S :=
  for_from n 0 f s.

(** The same loop with a body that always returns. *)
Fixpoint loop_from {S} (n k : nat) (f : nat -> S -> S) (s : S) : S :=
  match n with
  | O => s
  | Datatypes.S n' => loop_from n' (Datatypes.S k) f (f k s)
  end.
Definition loop {S} (n : nat) (f : nat -> S -> S) (s : S) : S := loop_from n 0 f s.

(** [for (x : l)]. *)
Fixpoint for_each {A S} (l : list A) (f : A -> S -> res S) (s : S) : res S :=
  match l with
  | [] => Ok s
  | x :: l' => s' ← f x s; for_each l' f s'
  end.

(** ** A weakest precondition for outcomes: the computation returns and its
    value satisfies [Q]. *)
Definition wp {A} (m : res A) (Q : A -> Prop) : Prop :=
  match m with Ok a => Q a | Throw | UB => False end.

(** Weaker: it may throw, but never reaches undefined behaviour. *)
Definition safe {A} (m : res A) (Q : A -> Prop) : Prop :=
  match m with Ok a => Q a | Throw => True | UB => False end.

Section wp_rules.
Context {A B : Type}.
Implicit Types (m : res A) (Q : A -> Prop).

Lemma wp_iff m Q : wp m Q <-> exists a, m = Ok a /\ Q a.
Proof.
  destruct m; simpl; split; intros; try done; eauto.
  - destruct H as (?&[= ->]&?); done.
  - by destruct H as (?&?&?).
  - by destruct H as (?&?&?).
Qed.

Lemma wp_bind m (k : A -> res B) (Q : B -> Prop) :
  wp m (fun a => wp (k a) Q) -> wp (m ≫= k) Q.
Proof. by destruct m. Qed.

Lemma wp_mono m Q Q' : wp m Q -> (forall a, Q a -> Q' a) -> wp m Q'.
Proof. destruct m; simpl; eauto. Qed.

Lemma wp_ok m Q a : m = Ok a -> Q a -> wp m Q.
Proof. by intros ->. Qed.

Lemma wp_enforce b (k : unit -> res B) (Q : B -> Prop) :
  b = true -> wp (k tt) Q -> wp (enforce b ≫= k) Q.
Proof. by intros ->. Qed.

Lemma wp_defined b (k : unit -> res B) (Q : B -> Prop) :
  b = true -> wp (k tt) Q -> wp (defined b ≫= k) Q.
Proof. by intros ->. Qed.

Lemma safe_bind m (k : A -> res B) (Q : B -> Prop) :
  safe m (fun a => safe (k a) Q) -> safe (m ≫= k) Q.
Proof. by destruct m. Qed.

Lemma safe_mono m Q Q' : safe m Q -> (forall a, Q a -> Q' a) -> safe m Q'.
Proof. destruct m; simpl; eauto. Qed.

Lemma safe_ok m Q a : safe m Q -> m = Ok a -> Q a.
Proof. by intros ? ->. Qed.

Lemma bind_ok m (k : A -> res B) b :
  m ≫= k = Ok b <-> exists a, m = Ok a /\ k a = Ok b.
Proof.
  destruct m; simpl; split; try done; eauto.
  - intros (?&[= ->]&?); done.
  - by intros (?&?&?).
  - by intros (?&?&?).
Qed.
End wp_rules.

Lemma enforce_ok b (u : unit) : enforce b = Ok u <-> b = true.
Proof. by destruct u, b. Qed.

Lemma safe_enforce {B} b (k : unit -> res B) (Q : B -> Prop) :
  (b = true -> safe (k tt) Q) -> safe (enforce b ≫= k) Q.
Proof. destruct b; simpl; auto. Qed.

Lemma vget_ok {A} (v : list A) i x : vget v i = Ok x <-> v !! i = Some x.
Proof. unfold vget. destruct (v !! i); naive_solver. Qed.

Lemma vset_ok {A} (v : list A) i x v' :
  vset v i x = Ok v' <-> (i < length v)%nat /\ v' = <[i := x]> v.
Proof. unfold vset. case_bool_decide; naive_solver. Qed.

Lemma vgetz_vget {A} (v : list A) i : 0 <= i -> vgetz v i = vget v (Z.to_nat i).
Proof.
  intros Hi. unfold vgetz. destruct (_ && _) eqn:E; [done|].
  unfold vget. by rewrite lookup_ge_None_2 by lia.
Qed.

Lemma vsetz_vset {A} (v : list A) i (x : A) :
  0 <= i -> vsetz v i x = vset v (Z.to_nat i) x.
Proof.
  intros Hi. unfold vsetz. destruct (_ && _) eqn:E; [done|].
  unfold vset. by rewrite bool_decide_false by lia.
Qed.

Lemma wp_vget {A B} (v : list A) i (k : A -> res B) Q :
  (i < length v)%nat ->
  (forall x, v !! i = Some x -> wp (k x) Q) -> wp (vget v i ≫= k) Q.
Proof.
  intros Hi Hk. unfold vget.
  destruct (lookup_lt_is_Some_2 v i Hi) as [x Hx]. rewrite Hx. simpl. auto.
Qed.

Lemma wp_vset {A B} (v : list A) i x (k : list A -> res B) Q :
  (i < length v)%nat -> wp (k (<[i := x]> v)) Q -> wp (vset v i x ≫= k) Q.
Proof. intros Hi Hk. unfold vset. by rewrite bool_decide_true. Qed.

(** Invariant rules for the loops. *)
Section loop_rules.
Context {S : Type}.
Implicit Types (f : nat -> S -> res S) (I : nat -> S -> Prop).

Lemma wp_for_from n k f I s :
  I k s ->
  (forall i s, (k <= i < k + n)%nat -> I i s -> wp (f i s) (I (Datatypes.S i))) ->
  wp (for_from n k f s) (I (k + n)%nat).
Proof.
  revert k s. induction n as [|n IH]; intros k s H0 Hs; simpl.
  - by rewrite Nat.add_0_r.
  - apply wp_bind. eapply wp_mono; [apply Hs; [lia | done]|].
    intros s' Hs'. replace (k + Datatypes.S n)%nat with (Datatypes.S k + n)%nat by lia.
    apply IH; [done|]. intros; apply Hs; [lia | done].
Qed.

Lemma wp_for n f I s (Q : S -> Prop) :
  I 0%nat s ->
  (forall i s, (i < n)%nat -> I i s -> wp (f i s) (I (Datatypes.S i))) ->
  (forall s, I n s -> Q s) ->
  wp (for_ n f s) Q.
Proof.
  intros H0 Hs HQ. eapply wp_mono; [|exact HQ].
  apply (wp_for_from n 0 f I s H0). intros; apply Hs; [lia | done].
Qed.

Lemma safe_for_from n k f I s :
  I k s ->
  (forall i s, (k <= i < k + n)%nat -> I i s -> safe (f i s) (I (Datatypes.S i))) ->
  safe (for_from n k f s) (I (k + n)%nat).
Proof.
  revert k s. induction n as [|n IH]; intros k s H0 Hs; simpl.
  - by rewrite Nat.add_0_r.
  - apply safe_bind. eapply safe_mono; [apply Hs; [lia | done]|].
    intros s' Hs'. replace (k + Datatypes.S n)%nat with (Datatypes.S k + n)%nat by lia.
    apply IH; [done|]. intros; apply Hs; [lia | done].
Qed.

Lemma safe_for n f I s (Q : S -> Prop) :
  I 0%nat s ->
  (forall i s, (i < n)%nat -> I i s -> safe (f i s) (I (Datatypes.S i))) ->
  (forall s, I n s -> Q s) ->
  safe (for_ n f s) Q.
Proof.
  intros H0 Hs HQ. eapply safe_mono; [|exact HQ].
  apply (safe_for_from n 0 f I s H0). intros; apply Hs; [lia | done].
Qed.

Lemma loop_from_inv n k (f : nat -> S -> S) I s :
  I k s ->
  (forall i s, (k <= i < k + n)%nat -> I i s -> I (Datatypes.S i) (f i s)) ->
  I (k + n)%nat (loop_from n k f s).
Proof.
  revert k s. induction n as [|n IH]; intros k s H0 Hs; simpl.
  - by rewrite Nat.add_0_r.
  - replace (k + Datatypes.S n)%nat with (Datatypes.S k + n)%nat by lia.
    apply IH; [apply Hs; [lia | done]|]. intros; apply Hs; [lia | done].
Qed.

Lemma loop_inv n (f : nat -> S -> S) I s :
  I 0%nat s ->
  (forall i s, (i < n)%nat -> I i s -> I (Datatypes.S i) (f i s)) ->
  I n (loop n f s).
Proof.
  intros H0 Hs. apply (loop_from_inv n 0 f I s H0).
  intros; apply Hs; [lia | done].
Qed.

Lemma for_from_S n k f s :
  for_from (Datatypes.S n) k f s = for_from n k f s ≫= f (k + n)%nat.
Proof.
  revert k s. induction n as [|n IH]; intros k s.
  - simpl. rewrite Nat.add_0_r. by destruct (f k s).
  - change (for_from (Datatypes.S (Datatypes.S n)) k f s) with
      (f k s ≫= fun s' => for_from (Datatypes.S n) (Datatypes.S k) f s').
    change (for_from (Datatypes.S n) k f s) with
      (f k s ≫= fun s' => for_from n (Datatypes.S k) f s').
    destruct (f k s) as [s'| |]; [|done|done]. cbn [mbind res_bind].
    rewrite IH. by replace (Datatypes.S k + n)%nat with (k + Datatypes.S n)%nat by lia.
Qed.

Lemma for_S n f s : for_ (Datatypes.S n) f s = for_ n f s ≫= f n.
Proof. apply (for_from_S n 0). Qed.

(** Loops with equal bodies are equal. *)
Lemma for_ext n f g s : (forall i s, (i < n)%nat -> f i s = g i s) -> for_ n f s = for_ n g s.
Proof.
  intros H. induction n as [|n IH]; [done|]. rewrite !for_S, IH by auto with lia.
  destruct (for_ n g s); cbn [mbind res_bind]; auto with lia.
Qed.

(** Partial correctness: what holds of a loop that returned. *)
Lemma for_ok n f I s s' :
  for_ n f s = Ok s' -> I 0%nat s ->
  (forall i s s', (i < n)%nat -> I i s -> f i s = Ok s' -> I (Datatypes.S i) s') -> I n s'.
Proof.
  revert s'. induction n as [|n IH]; intros s' H H0 Hs; [by injection H as <-|].
  rewrite for_S in H. destruct (for_ n f s) as [s1| |] eqn:E; [|done..].
  apply (Hs n s1); [lia| |done]. apply IH; [done|done|].
  intros i s2 s3 Hi HI Hf. apply (Hs i s2); [lia|done|done].
Qed.

Lemma loop_from_S n k (f : nat -> S -> S) s :
  loop_from (Datatypes.S n) k f s = f (k + n)%nat (loop_from n k f s).
Proof.
  revert k s. induction n as [|n IH]; intros k s.
  - simpl. by rewrite Nat.add_0_r.
  - change (loop_from (Datatypes.S (Datatypes.S n)) k f s) with
      (loop_from (Datatypes.S n) (Datatypes.S k) f (f k s)).
    rewrite IH. simpl. by replace (k + Datatypes.S n)%nat with (Datatypes.S (k + n)) by lia.
Qed.

Lemma loop_S n (f : nat -> S -> S) s : loop (Datatypes.S n) f s = f n (loop n f s).
Proof. apply (loop_from_S n 0). Qed.
End loop_rules.

(** Invariant rule for [for (x : l)], over the prefix already visited. *)
Lemma wp_for_each {A S} (l : list A) (f : A -> S -> res S) (I : list A -> S -> Prop) s :
  I [] s ->
  (forall l1 x l2 s, l = l1 ++ x :: l2 -> I l1 s -> wp (f x s) (I (l1 ++ [x]))) ->
  wp (for_each l f s) (I l).
Proof.
  intros H0 Hs.
  cut (forall l2 l1 s, l = l1 ++ l2 -> I l1 s -> wp (for_each l2 f s) (I l)).
  { intros Hc. exact (Hc l [] s eq_refl H0). }
  induction l2 as [|x l2 IH]; intros l1 s' Hl HI; simpl.
  - by rewrite app_nil_r in Hl; subst.
  - apply wp_bind. eapply wp_mono; [by eapply Hs|].
    intros s2 H2. apply (IH (l1 ++ [x])); [|done]. by rewrite <- app_assoc.
Qed.

Lemma safe_for_each {A S} (l : list A) (f : A -> S -> res S) (I : list A -> S -> Prop) s :
  I [] s ->
  (forall l1 x l2 s, l = l1 ++ x :: l2 -> I l1 s -> safe (f x s) (I (l1 ++ [x]))) ->
  safe (for_each l f s) (I l).
Proof.
  intros H0 Hs.
  cut (forall l2 l1 s, l = l1 ++ l2 -> I l1 s -> safe (for_each l2 f s) (I l)).
  { intros Hc. exact (Hc l [] s eq_refl H0). }
  induction l2 as [|x l2 IH]; intros l1 s' Hl HI; simpl.
  - by rewrite app_nil_r in Hl; subst.
  - apply safe_bind. eapply safe_mono; [by eapply Hs|].
    intros s2 H2. apply (IH (l1 ++ [x])); [|done]. by rewrite <- app_assoc.
Qed.

Lemma for_each_app {A S} (l1 l2 : list A) (f : A -> S -> res S) s :
  for_each (l1 ++ l2) f s = for_each l1 f s ≫= for_each l2 f.
Proof.
  revert s. induction l1 as [|x l1 IH]; intros s; [done|]. cbn [app for_each].
  destruct (f x s); cbn [mbind res_bind]; [apply IH|done..].
Qed.

(** A loop that appends one result per element. *)
Lemma for_each_push {A B} (g : A -> res B) (l : list A) acc r :
  for_each l (fun x acc => y ← g x; Ok (acc ++ [y])) acc = Ok r ->
  exists ys, r = acc ++ ys /\ Forall2 (fun x y => g x = Ok y) l ys.
Proof.
  revert acc. induction l as [|x l IH]; intros acc; cbn [for_each].
  - intros [= <-]. exists []. by rewrite app_nil_r.
  - intros (acc' & (y & Hy & [= <-])%bind_ok & (ys & -> & HF)%IH)%bind_ok.
    exists (y :: ys). by rewrite <- app_assoc; auto.
Qed.

(** Reads and writes in range, with total lookup. *)
Lemma vget_total {A} `{!Inhabited A} (v : list A) i :
  (i < length v)%nat -> vget v i = Ok (v !!! i).
Proof.
  intros Hi. unfold vget. destruct (lookup_lt_is_Some_2 v i Hi) as [x Hx].
  rewrite Hx. by rewrite (list_lookup_total_correct _ _ _ Hx).
Qed.

Lemma vgetz_total {A} `{!Inhabited A} (v : list A) i :
  0 <= i < Z.of_nat (length v) -> vgetz v i = Ok (v !!! Z.to_nat i).
Proof. intros Hi. rewrite vgetz_vget by lia. apply vget_total. lia. Qed.

Lemma vsetz_total {A} (v : list A) i x :
  0 <= i < Z.of_nat (length v) -> vsetz v i x = Ok (<[Z.to_nat i := x]> v).
Proof. intros Hi. rewrite vsetz_vset by lia. unfold vset. by rewrite bool_decide_true by lia. Qed.

Lemma lookup_map {A B} (f : A -> B) l i : map f l !! i = f <$> l !! i.
Proof. apply list_lookup_fmap. Qed.

Lemma vset_total {A} (v : list A) i x :
  (i < length v)%nat -> vset v i x = Ok (<[i := x]> v).
Proof. intros. unfold vset. by rewrite bool_decide_true. Qed.

Lemma lookup_total_replicate_lt {A} `{!Inhabited A} n (x : A) i :
  (i < n)%nat -> replicate n x !!! i = x.
Proof. intros. by rewrite lookup_total_replicate_2. Qed.

(** Lists of the same length with the same elements are equal. *)
Lemma list_eq_total {A} `{!Inhabited A} (l1 l2 : list A) :
  length l1 = length l2 -> (forall i, (i < length l1)%nat -> l1 !!! i = l2 !!! i) -> l1 = l2.
Proof.
  intros Hl H. eapply list_eq_same_length; [symmetry; exact Hl|done|].
  intros i x y Hi H1 H2. specialize (H i ltac:(lia)).
  apply list_lookup_total_correct in H1, H2. congruence.
Qed.

(** A loop whose [i]-th turn overwrites slot [i]. *)
Lemma wp_for_fill {A} `{!Inhabited A} n (f : nat -> list A -> res (list A)) h s0 Q :
  (n <= length s0)%nat ->
  (forall i s, (i < n)%nat -> length s = length s0 ->
     s !!! i = s0 !!! i -> f i s = Ok (<[i := h i]> s)) ->
  (forall s, length s = length s0 -> (forall j, (j < n)%nat -> s !!! j = h j) ->
     (forall j, (n <= j)%nat -> s !!! j = s0 !!! j) -> Q s) ->
  wp (for_ n f s0) Q.
Proof.
  intros Hn Hf HQ.
  apply (wp_for _ _ (fun i s => length s = length s0 /\
    (forall j, (j < i)%nat -> s !!! j = h j) /\ (forall j, (i <= j)%nat -> s !!! j = s0 !!! j))).
  - split_and!; [done| |done]. intros; lia.
  - intros i s Hi (Hl & H1 & H2). rewrite Hf by auto. cbn [wp].
    split; [by rewrite length_insert|]. split; intros j Hj.
    + destruct (decide (j = i)) as [->|].
      * apply list_lookup_total_insert_eq. lia.
      * rewrite list_lookup_total_insert_ne by done. apply H1. lia.
    + rewrite list_lookup_total_insert_ne by lia. apply H2. lia.
  - intros s (?&?&?). auto.
Qed.

(** ** Finite sums *)
Fixpoint zsum (n : nat) (f : nat -> Z) : Z :=
  match n with O => 0 | S n' => zsum n' f + f n' end.

Lemma zsum_ext n f g : (forall i, (i < n)%nat -> f i = g i) -> zsum n f = zsum n g.
Proof. induction n as [|n IH]; intros H; cbn; [done|]. rewrite IH, H by auto with lia. done. Qed.

Lemma zsum_add n f g : zsum n (fun i => f i + g i) = zsum n f + zsum n g.
Proof. induction n as [|n IH]; cbn; [done|]. rewrite IH. ring. Qed.

Lemma zsum_scale n c f : zsum n (fun i => c * f i) = c * zsum n f.
Proof. induction n as [|n IH]; cbn; [ring|]. rewrite IH. ring. Qed.

Lemma zsum_swap n m f :
  zsum n (fun i => zsum m (fun j => f i j)) = zsum m (fun j => zsum n (fun i => f i j)).
Proof.
  induction n as [|n IH]; cbn.
  - induction m as [|m IHm]; cbn; [done|]. rewrite <- IHm. done.
  - rewrite IH, <- zsum_add. done.
Qed.

Lemma zsum_delta n k c : (k < n)%nat -> zsum n (fun i => if bool_decide (i = k) then c i else 0) = c k.
Proof.
  induction n as [|n IH]; intros Hk; cbn; [lia|]. destruct (decide (n = k)) as [->|Hne].
  - rewrite bool_decide_true by done.
    rewrite (zsum_ext k _ (fun _ => 0 * 0)) by (intros; rewrite bool_decide_false by lia; done).
    rewrite zsum_scale. lia.
  - rewrite (bool_decide_false (n = k)) by done. rewrite IH by lia. lia.
Qed.

Lemma zsum_abs_le n f b : (forall i, (i < n)%nat -> Z.abs (f i) <= b) -> Z.abs (zsum n f) <= Z.of_nat n * b.
Proof.
  induction n as [|n IH]; intros H; cbn [zsum]; [lia|].
  specialize (IH ltac:(auto with lia)). specialize (H n ltac:(lia)). lia.
Qed.

(** Congruent terms have congruent sums. *)
Lemma zsum_mod n f g q : q <> 0 -> (forall i, (i < n)%nat -> f i mod q = g i mod q) ->
  zsum n f mod q = zsum n g mod q.
Proof.
  intros Hq. induction n as [|n IH]; intros H; cbn; [done|].
  rewrite Z.add_mod, IH, H, <- Z.add_mod by auto with lia. done.
Qed.

(** ** Matrices: vectors of rows *)
Definition mset {A} (m : list (list A)) (i j : nat) (x : A) : res (list (list A)) :=
  row ← vget m i; row' ← vset row j x; vset m i row'.
Definition mget {A} (m : list (list A)) (i j : nat) : res A :=
  row ← vget m i; vget row j.

Definition tabulate {A} (n : nat) (g : nat -> A) : list A := map g (seq 0 n).

Lemma length_tabulate {A} n (g : nat -> A) : length (tabulate n g) = n.
Proof. unfold tabulate. by rewrite length_map, length_seq. Qed.

Lemma tabulate_lookup {A} `{!Inhabited A} n (g : nat -> A) i : (i < n)%nat -> tabulate n g !!! i = g i.
Proof.
  intros Hi. unfold tabulate. apply list_lookup_total_correct.
  rewrite lookup_map, lookup_seq_lt by done. done.
Qed.

Lemma Forall_tabulate {A} n (g : nat -> A) (P : A -> Prop) :
  (forall i, (i < n)%nat -> P (g i)) -> Forall P (tabulate n g).
Proof.
  intros H. unfold tabulate. apply List.Forall_map. apply List.Forall_forall.
  intros i Hi%in_seq. apply H. lia.
Qed.

(** Equal to a tabulation: the right length and entries. *)
Lemma eq_tabulate {A} `{!Inhabited A} n (g : nat -> A) v :
  length v = n -> (forall i, (i < n)%nat -> v !!! i = g i) -> v = tabulate n g.
Proof.
  intros Hl H. apply list_eq_total; [by rewrite length_tabulate|].
  intros i Hi. rewrite tabulate_lookup by lia. apply H. lia.
Qed.

(** A loop that writes every entry of a vector, or of row [i] of a matrix. *)
Lemma for_tabulate {A} `{!Inhabited A} n (f : nat -> res A) g v :
  length v = n -> (forall j, (j < n)%nat -> f j = Ok (g j)) ->
  for_ n (fun j v => x ← f j; vset v j x) v = Ok (tabulate n g).
Proof.
  intros Hl Hf. destruct (proj1 (wp_iff _ _) (wp_for_fill n (fun j v => x ← f j; vset v j x) g v
    (fun s => s = tabulate n g) ltac:(lia)
    ltac:(intros i s Hi Hs _; cbn beta; rewrite Hf by done; cbn [mbind res_bind]; apply vset_total; lia)
    ltac:(intros s Hs H1 _; apply eq_tabulate; [lia|done]))) as (s & -> & ->). done.
Qed.

Lemma for_row {A} `{!Inhabited A} n (f : nat -> res A) g m i :
  (i < length m)%nat -> length (m !!! i) = n ->
  (forall j, (j < n)%nat -> f j = Ok (g j)) ->
  for_ n (fun j m => x ← f j; mset m i j x) m = Ok (<[i := tabulate n g]> m).
Proof.
  intros Hi Hl Hf.
  cut (wp (for_ n (fun j m => x ← f j; mset m i j x) m) (fun s => s = <[i := tabulate n g]> m)).
  { by intros (s & -> & ->)%wp_iff. }
  apply (wp_for _ _ (fun k s => exists r, s = <[i := r]> m /\ length r = n /\
    forall j, (j < k)%nat -> r !!! j = g j)).
  - exists (m !!! i). rewrite list_insert_id by (apply list_lookup_lookup_total_lt; done).
    split_and!; try done. intros; lia.
  - intros k s Hk (r & -> & Hr & Hj). rewrite Hf by done. unfold mset. cbn [mbind res_bind].
    rewrite vget_total by (rewrite length_insert; lia). cbn [mbind res_bind].
    rewrite list_lookup_total_insert_eq by done. rewrite vset_total by lia. cbn [mbind res_bind].
    rewrite vset_total by (rewrite length_insert; lia). cbn [wp].
    exists (<[k := g k]> r). rewrite list_insert_insert_eq, length_insert. split_and!; try done.
    intros j Hjk. destruct (decide (j = k)) as [->|].
    + apply list_lookup_total_insert_eq. lia.
    + rewrite list_lookup_total_insert_ne by done. apply Hj. lia.
  - intros s (r & -> & Hr & Hj). f_equal. apply eq_tabulate; auto.
Qed.

(** A double loop that writes every entry of a matrix. *)
Lemma for_matrix {A} `{!Inhabited A} n k (f : nat -> nat -> res A) g m :
  length m = n -> (forall i, (i < n)%nat -> length (m !!! i) = k) ->
  (forall i j, (i < n)%nat -> (j < k)%nat -> f i j = Ok (g i j)) ->
  for_ n (fun i m => for_ k (fun j m => x ← f i j; mset m i j x) m) m
    = Ok (tabulate n (fun i => tabulate k (g i))).
Proof.
  intros Hl Hr Hf.
  destruct (proj1 (wp_iff _ _) (wp_for_fill n
    (fun i m => for_ k (fun j m => x ← f i j; mset m i j x) m) (fun i => tabulate k (g i)) m
    (fun s => s = tabulate n (fun i => tabulate k (g i))) ltac:(lia)
    ltac:(intros i s Hi Hs Hsi; cbn beta; apply for_row; [lia|rewrite Hsi; auto|auto])
    ltac:(intros s Hs H1 _; apply eq_tabulate; [lia|done]))) as (s & -> & ->). done.
Qed.

Lemma tabulate_S {A} n (g : nat -> A) : tabulate (S n) g = tabulate n g ++ [g n].
Proof. unfold tabulate. rewrite seq_S, map_app. done. Qed.

Lemma insert_tabulate {A} n (g : nat -> A) k x :
  <[k := x]> (tabulate n g) = tabulate n (fun i => if decide (i = k) then x else g i).
Proof.
  apply list_eq. intros i. destruct (decide (i < n)%nat) as [Hi|Hi].
  - unfold tabulate at 2. rewrite lookup_map, lookup_seq_lt by done. cbn.
    destruct (decide (i = k)) as [->|Hne].
    + apply list_lookup_insert_eq. by rewrite length_tabulate.
    + rewrite list_lookup_insert_ne by done. unfold tabulate. by rewrite lookup_map, lookup_seq_lt.
  - rewrite !lookup_ge_None_2; [done|rewrite length_tabulate; lia|rewrite length_insert, length_tabulate; lia].
Qed.

(** Loops that append. *)
Lemma for_push {A} n (f : nat -> res A) g v :
  (forall j, (j < n)%nat -> f j = Ok (g j)) ->
  for_ n (fun j v => x ← f j; Ok (v ++ [x])) v = Ok (v ++ tabulate n g).
Proof.
  intros Hf. induction n as [|n IH]; [by rewrite app_nil_r|].
  rewrite for_S, IH by auto with lia. cbn [mbind res_bind]. rewrite Hf by lia.
  cbn [mbind res_bind]. by rewrite tabulate_S, <- app_assoc.
Qed.

Lemma for_push2 {A} n k (f : nat -> nat -> res A) g v :
  (forall i j, (i < n)%nat -> (j < k)%nat -> f i j = Ok (g i j)) ->
  for_ n (fun i v => for_ k (fun j v => x ← f i j; Ok (v ++ [x])) v) v
    = Ok (v ++ concat (tabulate n (fun i => tabulate k (g i)))).
Proof.
  intros Hf. induction n as [|n IH]; [by rewrite app_nil_r|].
  rewrite for_S, IH by auto with lia. cbn [mbind res_bind].
  rewrite (for_push k _ (g n)) by auto with lia.
  by rewrite tabulate_S, concat_app, <- app_assoc; cbn [concat]; rewrite app_nil_r.
Qed.

Lemma concat_tabulate_length {A} n k (g : nat -> nat -> A) :
  length (concat (tabulate n (fun i => tabulate k (g i)))) = (n * k)%nat.
Proof.
  induction n as [|n IH]; [done|]. rewrite tabulate_S, concat_app, length_app, IH.
  cbn [concat]. rewrite app_nil_r, length_tabulate. lia.
Qed.

Lemma concat_tabulate_lookup {A} `{!Inhabited A} n k (g : nat -> nat -> A) i j :
  (i < n)%nat -> (j < k)%nat ->
  concat (tabulate n (fun i => tabulate k (g i))) !!! (i * k + j)%nat = g i j.
Proof.
  intros Hi Hj. induction n as [|n IH]; [lia|].
  rewrite tabulate_S, concat_app. cbn [concat]. rewrite app_nil_r.
  destruct (decide (i = n)) as [->|].
  - rewrite lookup_total_app_r by (rewrite concat_tabulate_length; lia).
    rewrite concat_tabulate_length. replace (n * k + j - n * k)%nat with j by lia.
    by apply tabulate_lookup.
  - rewrite lookup_total_app_l by (rewrite concat_tabulate_length; nia). apply IH. lia.
Qed.

(** ** Words in memory: little-endian bytes *)
Definition le_bytes (n : nat) (z : Z) : list Z :=
  map (fun i => (Z.shiftr z (8 * Z.of_nat i)) mod 256) (seq 0 n).
Fixpoint le_value (bs : list Z) : Z :=
  match bs with [] => 0 | b :: bs' => b + 256 * le_value bs' end.

(** [memcpy] of [n] bytes at an offset; reading past the buffer is undefined. *)
Definition memcpy_from (buffer : list Z) (off n : nat) : res Z :=
  if bool_decide (off + n <= length buffer)%nat
  then Ok (le_value (take n (drop off buffer))) else UB.

Lemma le_value_bytes n z : le_value (le_bytes n z) = z mod 256 ^ Z.of_nat n.
Proof.
  revert z. induction n as [|n IH]; intros z; [by rewrite Z.mod_1_r|].
  unfold le_bytes. cbn [seq map le_value]. rewrite <- seq_shift, map_map.
  rewrite (map_ext _ (fun i => (Z.shiftr (z / 256) (8 * Z.of_nat i)) mod 256)).
  - fold (le_bytes n (z / 256)). rewrite IH, Z.mul_0_r, Z.shiftr_0_r, Nat2Z.inj_succ, Z.pow_succ_r by lia.
    rewrite Z.rem_mul_r by (try apply Z.pow_pos_nonneg; lia). ring.
  - intros i. f_equal. rewrite Nat2Z.inj_succ. replace (8 * Z.succ (Z.of_nat i)) with (8 + 8 * Z.of_nat i) by lia.
    rewrite <- Z.shiftr_shiftr, (Z.shiftr_div_pow2 z) by lia. done.
Qed.

Lemma length_le_bytes n z : length (le_bytes n z) = n.
Proof. unfold le_bytes. by rewrite length_map, length_seq. Qed.

(** A field of a message is read back whatever precedes and follows it. *)
Lemma memcpy_field pre post off n z :
  length pre = off -> 0 <= z < 256 ^ Z.of_nat n ->
  memcpy_from (pre ++ le_bytes n z ++ post) off n = Ok z.
Proof.
  intros <- Hz. unfold memcpy_from.
  rewrite !length_app, length_le_bytes, bool_decide_true by lia.
  rewrite drop_app_length, take_app_length' by (by rewrite length_le_bytes).
  by rewrite le_value_bytes, Z.mod_small.
Qed.

(** The [i]-th of a run of records of [k] bytes. *)
Lemma length_records {A} (f : A -> list Z) k (l : list A) :
  (forall x, length (f x) = k) -> length (concat (map f l)) = (k * length l)%nat.
Proof.
  intros Hf. induction l as [|x l IH]; [cbn; lia|]. cbn [map concat length].
  rewrite length_app, Hf, IH. lia.
Qed.

Lemma records_split {A} (f : A -> list Z) (l : list A) i x :
  l !! i = Some x ->
  concat (map f l) = concat (map f (take i l)) ++ f x ++ concat (map f (drop (S i) l)).
Proof.
  intros Hx. rewrite <- (take_drop_middle l i x Hx) at 1.
  rewrite map_app, concat_app. done.
Qed.

Lemma memcpy_record {A} (f : A -> list Z) k (l : list A) pre post i x a n z b :
  (forall y, length (f y) = k) -> l !! i = Some x -> f x = a ++ le_bytes n z ++ b ->
  0 <= z < 256 ^ Z.of_nat n ->
  memcpy_from (pre ++ concat (map f l) ++ post) (length pre + k * i + length a) n = Ok z.
Proof.
  intros Hf Hx Hfx Hz. rewrite (records_split f l i x Hx), Hfx.
  pose proof (lookup_lt_Some _ _ _ Hx).
  replace (pre ++ _ ++ post) with
    ((pre ++ concat (map f (take i l)) ++ a) ++ le_bytes n z ++ (b ++ concat (map f (drop (S i) l)) ++ post))
    by (rewrite <- !app_assoc; done).
  apply memcpy_field; [|done].
  rewrite !length_app, (length_records f k) by done. rewrite length_take_le by lia. lia.
Qed.

(** ** Outcomes that may throw for one reason only *)
Definition outcome {A} (E : Prop) (m : res A) (Q : A -> Prop) : Prop :=
  match m with Ok a => Q a | Throw => E | UB => False end.

Lemma outcome_bind {A B} E (m : res A) (k : A -> res B) Q : outcome E m (fun a => outcome E (k a) Q) -> outcome E (m ≫= k) Q.
Proof. by destruct m. Qed.
Lemma outcome_mono {A} E (m : res A) (Q Q' : A -> Prop) : outcome E m Q -> (forall a, Q a -> Q' a) -> outcome E m Q'.
Proof. destruct m; cbn; eauto. Qed.
Lemma outcome_weaken {A} (E E' : Prop) (m : res A) (Q : A -> Prop) : (E -> E') -> outcome E m Q -> outcome E' m Q.
Proof. intros HE. destruct m; cbn; auto. Qed.
Lemma wp_outcome {A} E (m : res A) Q : wp m Q -> outcome E m Q.
Proof. by destruct m. Qed.
Lemma outcome_for_each {A S} E (l : list A) (f : A -> S -> res S) (I : list A -> S -> Prop) s :
  I [] s -> (forall l1 x l2 s, l = l1 ++ x :: l2 -> I l1 s -> outcome E (f x s) (I (l1 ++ [x]))) -> outcome E (for_each l f s) (I l).
Proof.
  intros H0 Hs. enough (forall l2 l1 s, l = l1 ++ l2 -> I l1 s -> outcome E (for_each l2 f s) (I l)) as H by (by apply (H l [])).
  induction l2 as [|x l2 IH]; intros l1 s1 -> HI; [cbn; by rewrite app_nil_r|]. cbn [for_each]. apply outcome_bind.
  eapply outcome_mono; [by apply (Hs l1 x l2)|]. intros s2 H2. apply (IH (l1 ++ [x])); [by rewrite <- app_assoc|done].
Qed.
Lemma outcome_for {S} E n (f : nat -> S -> res S) (I : nat -> S -> Prop) s :
  I 0%nat s -> (forall i s, (i < n)%nat -> I i s -> outcome E (f i s) (I (Datatypes.S i))) -> outcome E (for_ n f s) (I n).
Proof.
  intros H0 Hs. induction n as [|n IH]; [done|]. rewrite for_S. apply outcome_bind. eapply outcome_mono; [apply IH|].
  - intros i s' Hi. apply Hs. lia.
  - intros s' Hs'. apply Hs; [lia|done].
Qed.
Lemma outcome_eq {A} E (m : res A) Q : outcome E m (fun a => m = Ok a -> Q a) -> outcome E m Q.
Proof. destruct m; cbn; auto. Qed.
Lemma wp_eq {A} (m : res A) v : wp m (fun r => r = v) -> m = Ok v.
Proof. intros (r & -> & ->)%wp_iff. done. Qed.

(** ** Lists put together from an index on *)
Lemma elem_of_concat_seq {A} (Q : nat -> list A) k x : x ∈ concat (map Q (seq 0 k)) <-> exists c, (c < k)%nat /\ x ∈ Q c.
Proof.
  induction k as [|k IH]; [split; [intros Hi; by apply not_elem_of_nil in Hi|intros (c & ? & _); lia]|].
  rewrite seq_S, map_app, concat_app, elem_of_app, IH. cbn [map concat]. rewrite app_nil_r, Nat.add_0_l. split.
  - intros [(c & ? & ?)|?]; [exists c; split; [lia|done]|exists k; split; [lia|done]].
  - intros (c & Hc & Hi). destruct (decide (c = k)) as [->|]; [by right|left]. exists c. split; [lia|done].
Qed.
Lemma NoDup_concat_seq {A} (Q : nat -> list A) k : (forall c, (c < k)%nat -> NoDup (Q c)) ->
  (forall c c' x, (c < k)%nat -> (c' < k)%nat -> x ∈ Q c -> x ∈ Q c' -> c = c') -> NoDup (concat (map Q (seq 0 k))).
Proof.
  induction k as [|k IH]; intros Hq Hd; [apply NoDup_nil_2|]. rewrite seq_S, map_app, concat_app. cbn [map concat]. rewrite app_nil_r, Nat.add_0_l.
  apply NoDup_app. split; [apply IH; [intros c Hc; apply Hq; lia|intros c c' x Hc Hc'; apply Hd; lia]|]. split; [|apply Hq; lia].
  intros x (c & Hc & Hx)%elem_of_concat_seq Hk. specialize (Hd c k x ltac:(lia) ltac:(lia) Hx Hk). lia.
Qed.

(** ** [std::set_intersection] of sorted ranges *)
Section set_intersection.
Context {A : Type} (ltb : A -> A -> bool) (irreflexive : forall x, ltb x x = false) (trichotomy : forall x y, ltb x y = false -> ltb y x = false -> x = y).
Fixpoint set_intersection (fuel : nat) (a b : list A) : list A :=
  match fuel with
  | O => []
  | S fuel' =>
      match a, b with
      | x :: a', y :: b' => if ltb x y then set_intersection fuel' a' b else if ltb y x then set_intersection fuel' a b' else x :: set_intersection fuel' a' b'
      | _, _ => []
      end
  end.
Definition sorted_by : list A -> Prop := StronglySorted (fun x y => ltb y x = false).

Lemma set_intersection_sublist fuel a b : sublist (set_intersection fuel a b) a.
Proof.
  revert a b. induction fuel as [|fuel IH]; intros a b; [apply sublist_nil_l|]. cbn [set_intersection].
  destruct a as [|x a]; [done|]. destruct b as [|y b]; [apply sublist_nil_l|].
  destruct (ltb x y); [by apply sublist_cons|]. destruct (ltb y x); [apply IH|by apply sublist_skip].
Qed.
Lemma set_intersection_sound fuel a b x : x ∈ set_intersection fuel a b -> x ∈ a /\ x ∈ b.
Proof using trichotomy.
  revert a b. induction fuel as [|fuel IH]; intros a b Hx; cbn [set_intersection] in Hx; [by inversion Hx|].
  destruct a as [|u a]; [by inversion Hx|]. destruct b as [|v b]; [by inversion Hx|].
  destruct (ltb u v) eqn:E1; [apply IH in Hx as [? ?]; split; [by right|done]|]. destruct (ltb v u) eqn:E2; [apply IH in Hx as [? ?]; split; [done|by right]|].
  rewrite <- (trichotomy u v E1 E2). apply elem_of_cons in Hx as [->|[? ?]%IH]; split; by constructor.
Qed.
Lemma below_head x u v b : sorted_by (v :: b) -> ltb u v = true -> x ∈ v :: b -> x <> u.
Proof using irreflexive.
  intros [_ Hv]%StronglySorted_inv E Hx ->. rewrite Forall_forall in Hv. apply elem_of_cons in Hx as [->|Hx]; [|apply Hv in Hx]; congruence.
Qed.
Lemma set_intersection_complete fuel a b x : sorted_by a -> sorted_by b -> (length a + length b <= fuel)%nat -> x ∈ a -> x ∈ b -> x ∈ set_intersection fuel a b.
Proof using irreflexive trichotomy.
  revert a b. induction fuel as [|fuel IH]; intros a b Ha Hb Hf Hxa Hxb; [destruct a; [by inversion Hxa|cbn in Hf; lia]|].
  destruct a as [|u a]; [by inversion Hxa|]. destruct b as [|v b]; [by inversion Hxb|].
  pose proof Ha as [Hsa _]%StronglySorted_inv. pose proof Hb as [Hsb _]%StronglySorted_inv. cbn in Hf. cbn [set_intersection].
  destruct (ltb u v) eqn:E1.
  - pose proof (below_head x u v b Hb E1 Hxb). apply IH; try done; [cbn; lia|]. by apply elem_of_cons in Hxa as [->|].
  - destruct (ltb v u) eqn:E2.
    + pose proof (below_head x v u a Ha E2 Hxa). apply IH; try done; [cbn; lia|]. by apply elem_of_cons in Hxb as [->|].
    + rewrite <- (trichotomy u v E1 E2) in Hxb. apply elem_of_cons in Hxa as [->|Hxa]; [by left|]. apply elem_of_cons in Hxb as [->|Hxb]; [by left|]. right. apply IH; (done || lia).
Qed.
End set_intersection.

(** ** [std::string] in order *)
(** [std::string::operator<] compares bytes as unsigned numbers. *)
Fixpoint bytes_ltb (a b : list Z) : bool :=
  match a, b with
  | [], [] => false
  | [], _ :: _ => true
  | _ :: _, [] => false
  | x :: a', y :: b' => (x <? y) || ((x =? y) && bytes_ltb a' b')
  end.
Definition bytes_le (a b : list Z) : Prop := bytes_ltb b a = false.
#[export] Instance bytes_le_dec : RelDecision bytes_le.
Proof. intros a b. unfold bytes_le. apply _. Defined.
Definition std_sort (l : list (list Z)) : list (list Z) := merge_sort bytes_le l.

Lemma bytes_ltb_irrefl a : bytes_ltb a a = false.
Proof. induction a as [|x a IH]; [done|]. cbn. by rewrite Z.ltb_irrefl, Z.eqb_refl, IH. Qed.
Lemma bytes_ltb_cons x y a b : bytes_ltb (x :: a) (y :: b) = true <-> x < y \/ x = y /\ bytes_ltb a b = true.
Proof. cbn [bytes_ltb]. rewrite orb_true_iff, andb_true_iff, Z.ltb_lt, Z.eqb_eq. done. Qed.
Lemma bytes_ltb_trichotomy a b : bytes_ltb a b = false -> bytes_ltb b a = false -> a = b.
Proof.
  revert b. induction a as [|x a IH]; intros [|y b] Ha Hb; try done. apply not_true_iff_false in Ha, Hb. rewrite bytes_ltb_cons in Ha, Hb.
  assert (x = y) as -> by lia. f_equal. apply IH; apply not_true_iff_false; naive_solver.
Qed.
Lemma bytes_ltb_trans a b c : bytes_ltb a b = true -> bytes_ltb b c = true -> bytes_ltb a c = true.
Proof.
  revert b c. induction a as [|x a IH]; intros [|y b] [|z c]; try done. rewrite !bytes_ltb_cons.
  intros [|[-> Ha]] [|[-> Hb]]; [left; lia..|]. right. split; [done|]. by eapply IH.
Qed.
#[export] Instance bytes_le_total : Total bytes_le.
Proof.
  intros a b. unfold bytes_le. destruct (bytes_ltb b a) eqn:E1; [|by left]. destruct (bytes_ltb a b) eqn:E2; [|by right].
  pose proof (bytes_ltb_trans _ _ _ E1 E2) as E. by rewrite bytes_ltb_irrefl in E.
Qed.
#[export] Instance bytes_le_trans : Transitive bytes_le.
Proof.
  intros a b c Hab Hbc. unfold bytes_le in *. apply not_true_iff_false. intros Hca. destruct (bytes_ltb a b) eqn:E.
  - pose proof (bytes_ltb_trans _ _ _ Hca E). congruence.
  - rewrite (bytes_ltb_trichotomy a b E Hab) in Hca. congruence.
Qed.
Lemma std_sort_sorted l : sorted_by bytes_ltb (std_sort l).
Proof. apply (StronglySorted_merge_sort bytes_le). Qed.
Lemma std_sort_perm l : std_sort l ≡ₚ l.
Proof. apply merge_sort_Permutation. Qed.
Lemma elem_of_std_sort x l : x ∈ std_sort l <-> x ∈ l.
Proof. by rewrite std_sort_perm. Qed.
Lemma std_sort_length l (P : list Z -> Prop) : Forall P l -> Forall P (std_sort l).
Proof. by rewrite std_sort_perm. Qed.
Lemma sorted_common a b x :
  x ∈ set_intersection bytes_ltb (length (std_sort a) + length (std_sort b)) (std_sort a) (std_sort b) <-> x ∈ a /\ x ∈ b.
Proof.
  rewrite <- (elem_of_std_sort x a), <- (elem_of_std_sort x b). split.
  - apply (set_intersection_sound _ bytes_ltb_trichotomy).
  - intros [Ha Hb]. apply (set_intersection_complete _ bytes_ltb_irrefl bytes_ltb_trichotomy); try done; apply std_sort_sorted.
Qed.

(** ** Tactics of the development *)

(** Splits a chain of monadic binds that is known to return. *)
Ltac inv_ok :=
  repeat match goal with
  | H : (_ ≫= _) = Ok _ |- _ =>
      apply bind_ok in H; destruct H as (? & ? & ?)
  | H : enforce _ = Ok _ |- _ => apply enforce_ok in H
  | H : vget _ _ = Ok _ |- _ => apply vget_ok in H
  | H : vset _ _ _ = Ok _ |- _ => apply vset_ok in H; destruct H as [? ->]
  | H : Ok _ = Ok _ |- _ => injection H as H; subst
  | u : unit |- _ => destruct u
  end.

(** Runs the binds at the head of the goal, leaving arithmetic alone. *)
Ltac run := cbn [mbind res_bind mret res_ret fmap res_fmap enforce defined negb wp safe].

(** Nonlinear arithmetic with [/] and [mod] turned into their equations. *)
Ltac zdm := Z.div_mod_to_equations.
