(* ===== verification/Float64.v ===== *)
(** * binary64 arithmetic, as the C++ [double] the sources compute with

    The Standard Library's executable IEEE-754 model [SpecFloat] at precision 53
    and exponent bound 1024, with the integer conversions the sources use:
    [uint64_t] to [double] (round to nearest even) and [double] to [uint64_t]
    (truncation; undefined when the value does not fit). *)
From Stdlib Require Import SpecFloat.
From S2P Require Import Prelude.

Definition double := spec_float.
Definition f64_of_u64 (n : Z) : double := binary_normalize 53 1024 n 0 false.
Definition f64_mul : double -> double -> double := SFmul 53 1024.
Definition f64_add : double -> double -> double := SFadd 53 1024.
Definition f64_sub : double -> double -> double := SFsub 53 1024.
Definition f64_div : double -> double -> double := SFdiv 53 1024.
Definition f64_sqrt : double -> double := SFsqrt 53 1024.
Definition f64_ltb : double -> double -> bool := SFltb.
Definition f64_opp : double -> double := SFopp.

(** The integer part of [m * 2^e]. *)
Definition trunc_shift (m e : Z) : Z :=
  if 0 <=? e then Z.shiftl m e else Z.shiftr m (- e).

(** [static_cast<uint64_t>(x)]. *)
Definition u64_of_f64 (x : double) : res Z :=
  match x with
  | S754_zero _ => Ok 0
  | S754_finite false m e =>
      let t := trunc_shift (Zpos m) e in
      if t <? 2 ^ 64 then Ok t else UB
  | S754_finite true m e =>
      if trunc_shift (Zpos m) e =? 0 then Ok 0 else UB
  | S754_infinity _ | S754_nan => UB
  end.

Lemma u64_of_f64_range x n : u64_of_f64 x = Ok n -> 0 <= n < 2 ^ 64.
Proof.
  assert (forall m e, 0 <= trunc_shift (Zpos m) e) as Hpos.
  { intros m e. unfold trunc_shift. destruct (0 <=? e).
    - by apply Z.shiftl_nonneg.
    - by apply Z.shiftr_nonneg. }
  unfold u64_of_f64. destruct x as [s|s| |[|] m e]; try done.
  - intros [= <-]. lia.
  - destruct (_ =? 0); [intros [= <-]; lia | done].
  - specialize (Hpos m e).
    destruct (trunc_shift (Z.pos m) e <? 2 ^ 64) eqn:E; [|done].
    intros [= <-]. apply Z.ltb_lt in E. split; [exact Hpos | exact E].
Qed.
