(* ===== verification/CuckooIndex.v ===== *)
(** * The cuckoo hash index of KKRT (psi/utils/cuckoo_index.{h,cc})

    [Bin] is the packed 64-bit bin word, [HashRoom] the 128-bit hash code of one
    input from which every hash function is cut, [Index] the table: bins, stash
    and hash codes.  [Insert] is the eviction loop with its in-place candidate
    vector.  The theorems: a successful [Insert] preserves the table's
    representation invariant (each input stored exactly once, in a bin one of its
    hash functions maps it to, or in the stash), it never reaches undefined
    behaviour, a full table passes [SanityCheck], and [MinCollidingHashIdx]
    finds the least colliding hash function of an occupied bin. *)
From S2P Require Import Prelude Float64.

(** ** The packed bin word *)
Module Bin.

(** [Bin::kEmpty]: [uint64_t(-1)]. *)
Definition kEmpty : Z := 2 ^ 64 - 1.

Definition HashIdx (encoded : Z) : Z := u8 (Z.shiftr encoded 56).
Definition InputIdx (encoded : Z) : Z :=
  Z.land encoded (Z.shiftr (2 ^ 64 - 1) 8).
Definition IsEmpty (encoded : Z) : bool := encoded =? kEmpty.

Definition Encode (input_idx hash_idx : Z) : Z :=
  Z.lor input_idx (u64 (Z.shiftl (u8 hash_idx) 56)).

(** [Swap]: the previous word and the stored one. *)
Definition Swap (prev encoded : Z) : Z * Z := (prev, encoded).

Lemma Encode_add i h :
  0 <= i < 2 ^ 56 -> 0 <= h < 2 ^ 8 -> Encode i h = i + h * 2 ^ 56.
Proof.
  intros Hi Hh. unfold Encode. unfold u8. rewrite wrap_small by done.
  rewrite u64_small by (rewrite Z.shiftl_mul_pow2 by lia; lia).
  by rewrite lor_shiftl_add.
Qed.

Lemma InputIdx_mod e : InputIdx e = e mod 2 ^ 56.
Proof.
  unfold InputIdx. change (Z.shiftr (2 ^ 64 - 1) 8) with (Z.ones 56).
  by rewrite Z.land_ones.
Qed.

Lemma HashIdx_div e : HashIdx e = e / 2 ^ 56 mod 2 ^ 8.
Proof. unfold HashIdx, u8, wrap. by rewrite Z.shiftr_div_pow2. Qed.

Lemma InputIdx_range e : 0 <= InputIdx e < 2 ^ 56.
Proof. rewrite InputIdx_mod. by apply Z.mod_pos_bound. Qed.

Lemma HashIdx_range e : 0 <= HashIdx e < 2 ^ 8.
Proof. rewrite HashIdx_div. by apply Z.mod_pos_bound. Qed.

Lemma InputIdx_Encode i h :
  0 <= i < 2 ^ 56 -> 0 <= h < 2 ^ 8 -> InputIdx (Encode i h) = i.
Proof.
  intros. rewrite Encode_add, InputIdx_mod by done.
  rewrite Z.mod_add by lia. by apply Z.mod_small.
Qed.

Lemma HashIdx_Encode i h :
  0 <= i < 2 ^ 56 -> 0 <= h < 2 ^ 8 -> HashIdx (Encode i h) = h.
Proof.
  intros. rewrite Encode_add, HashIdx_div by done.
  rewrite Z.div_add, (Z.div_small i) by lia. by apply Z.mod_small.
Qed.

Lemma Encode_not_empty i h :
  0 <= i < 2 ^ 56 -> 0 <= h < 255 -> IsEmpty (Encode i h) = false.
Proof.
  intros. unfold IsEmpty, kEmpty. rewrite Encode_add by lia. lia.
Qed.

(** A raw input index is the encoding with hash function 0. *)
Lemma Encode_0 i : 0 <= i < 2 ^ 56 -> Encode i 0 = i.
Proof. intros. rewrite Encode_add; lia. Qed.
End Bin.

(** ** The hash codes of one input *)
Module HashRoom.
Definition kBlockSize : Z := 2.

(** [GetHash]: 8 bytes of the 16-byte code from byte [idx * kBlockSize], read
    little-endian as [memcpy] does on the supported hosts. *)
Definition GetHash (code idx : Z) : res Z :=
  if (0 <=? idx) && (idx * kBlockSize + 8 <=? 16)
  then Ok (u64 (Z.shiftr code (8 * (idx * kBlockSize))))
  else UB.

Lemma GetHash_ok code idx : 0 <= idx <= 4 -> exists h, GetHash code idx = Ok h /\ 0 <= h.
Proof.
  intros. unfold GetHash, kBlockSize.
  replace (_ && _) with true by (symmetry; apply andb_true_iff; lia).
  eexists; split; [done|]. apply u64_range.
Qed.
End HashRoom.

(** ** Options *)
Record Options := {
  num_input : Z;
  num_stash : Z;
  num_hash : Z;
  scale_factor : double;
  max_try_count : Z;
}.

Definition NumBins (o : Options) : res Z :=
  num_bins ← u64_of_f64 (f64_mul (f64_of_u64 (num_input o)) (scale_factor o));
  if (num_stash o =? 0) && (num_input o <? 256)
  then Ok (u64 (num_bins + 8)) else Ok num_bins.

(** [SelectParams]; [std::log2] is the C library's. *)
Definition SelectParams (std_log2 : double -> double)
    (n stash_size hash_num stat_sec_param : Z) : res Options :=
  let h := if negb (hash_num =? 0) then hash_num else 3 in
  if (stash_size =? 0) && (h =? 3) then
    let a := f64_of_u64 240 in
    let b := f64_sub (f64_opp (std_log2 (f64_of_u64 n))) (f64_of_u64 256) in
    let e := f64_div (f64_sub (f64_of_u64 stat_sec_param) b) a in
    Ok {| num_input := n; num_stash := 0; num_hash := h; scale_factor := e;
          max_try_count := 128 |}
  else Throw.

(** ** The table *)
Record Index := {
  options : Options;
  bins : list Z;
  stash : list Z;
  hashes : list Z;
}.

(** The constructor.  [num_hash - 1] is computed in [uint64_t]. *)
Definition CuckooIndex (o : Options) : res Index :=
  nb ← NumBins o;
  _ ← enforce (u64 (u64 (num_hash o - 1) * HashRoom.kBlockSize + 8) <=? 16);
  Ok {| options := o;
        bins := replicate (Z.to_nat nb) Bin.kEmpty;
        stash := replicate (Z.to_nat (num_stash o)) Bin.kEmpty;
        hashes := [] |}.

(** The bin a candidate word goes to. *)
Definition bin_of (num_bins : Z) (hashes : list Z) (candid : Z) : res nat :=
  code ← vgetz hashes (Bin.InputIdx candid);
  h ← HashRoom.GetHash code (Bin.HashIdx candid);
  _ ← defined (negb (num_bins =? 0));
  Ok (Z.to_nat (h mod num_bins)).

(** One iteration of the inner [for]: state is (bins, candidates, write_idx);
    the evicted item overwrites [candidates[write_idx]] in the vector being
    read. *)
Definition evict_step (num_bins nhash : Z) (hs : list Z) (i : nat)
    (s : list Z * list Z * nat) : res (list Z * list Z * nat) :=
  let '(bs, cands, write_idx) := s in
  candid ← vget cands i;
  bin_idx ← bin_of num_bins hs candid;
  old ← vget bs bin_idx;
  let '(evicted, stored) := Bin.Swap old candid in
  bs ← vset bs bin_idx stored;
  if Bin.IsEmpty evicted then Ok (bs, cands, write_idx)
  else
    _ ← defined (negb (nhash =? 0));
    let next_candid := Bin.Encode (Bin.InputIdx evicted)
                         ((Bin.HashIdx evicted + 1) mod nhash) in
    cands ← vset cands write_idx next_candid;
    Ok (bs, cands, S write_idx).

(** The [while] loop; [fuel] is what is left of [max_try_count]. *)
Fixpoint evict_rounds (fuel : nat) (num_bins nhash : Z) (hs : list Z)
    (bs cands : list Z) : res (list Z * list Z) :=
  match fuel, cands with
  | O, _ | _, [] => Ok (bs, cands)
  | S fuel', _ =>
      s ← for_ (length cands) (evict_step num_bins nhash hs) (bs, cands, 0%nat);
      let '(bs, cands, write_idx) := s in
      evict_rounds fuel' num_bins nhash hs bs (take write_idx cands)
  end.

(** [PutToStash]: the first empty slot, or a throw. *)
Fixpoint PutToStash (input_idx : Z) (st : list Z) : res (list Z) :=
  match st with
  | [] => Throw
  | s :: st' =>
      if Bin.IsEmpty s then Ok (input_idx :: st')
      else st'' ← PutToStash input_idx st'; Ok (s :: st'')
  end.

Definition Insert (codes : list Z) (t : Index) : res Index :=
  let input_offset := length (hashes t) in
  nb ← NumBins (options t);
  let hs := hashes t ++ codes in
  _ ← enforce (Z.of_nat (length hs) <=? num_input (options t));
  let candidates := map Z.of_nat (seq input_offset (length codes)) in
  r ← evict_rounds (Z.to_nat (max_try_count (options t))) nb
        (num_hash (options t)) hs (bins t) candidates;
  let '(bs, candidates) := r in
  st ← for_each candidates (fun c st => PutToStash (Bin.InputIdx c) st) (stash t);
  Ok {| options := options t; bins := bs; stash := st; hashes := hs |}.

(** [SanityCheck]: the [std::set] is a [gset], iterated in increasing order. *)
Definition sanity_insert (b : Z) (s : gset Z) : res (gset Z) :=
  if Bin.IsEmpty b then Ok s
  else
    _ ← enforce (negb (bool_decide (Bin.InputIdx b ∈ s)));
    Ok ({[Bin.InputIdx b]} ∪ s).

Definition SanityCheck (t : Index) : res unit :=
  s ← for_each (bins t) sanity_insert ∅;
  s ← for_each (stash t) sanity_insert s;
  _ ← enforce (Z.of_nat (size s) =? num_input (options t));
  _ ← for_each (merge_sort Z.le (elements s))
        (fun i idx => _ ← enforce (idx =? i); Ok (idx + 1)) 0;
  Ok tt.

(** [MinCollidingHashIdx]: the [for] over hash functions, from [i]. *)
Fixpoint min_colliding_from (n : nat) (i num_bins : Z) (hs : list Z)
    (input_idx bin_index : Z) : res Z :=
  match n with
  | O => Throw
  | S n' =>
      code ← vgetz hs input_idx;
      h ← HashRoom.GetHash code i;
      _ ← defined (negb (num_bins =? 0));
      if h mod num_bins =? bin_index then Ok (u8 i)
      else min_colliding_from n' (i + 1) num_bins hs input_idx bin_index
  end.

Definition MinCollidingHashIdx (t : Index) (bin_index : Z) : res Z :=
  b ← vgetz (bins t) bin_index;
  nb ← NumBins (options t);
  min_colliding_from (Z.to_nat (num_hash (options t))) 0 nb (hashes t)
    (Bin.InputIdx b) bin_index.

(** ** The representation invariant *)

(** The inputs held by a row of bin words. *)
Definition occ (bs : list Z) : list Z :=
  Bin.InputIdx <$> filter (fun b => Bin.IsEmpty b = false) bs.

(** A non-empty word naming one of [n] inputs and one of the hash functions. *)
Definition entry (n : nat) (nhash : Z) (b : Z) : Prop :=
  in_u 64 b /\ Bin.IsEmpty b = false /\
  Bin.InputIdx b < Z.of_nat n /\ Bin.HashIdx b < nhash.

(** Every occupied bin holds an input that one of its hash functions sends
    there. *)
Definition placed (nb nhash : Z) (hs : list Z) (bs : list Z) : Prop :=
  forall k b, bs !! k = Some b -> Bin.IsEmpty b = false ->
    entry (length hs) nhash b /\ bin_of nb hs b = Ok k.

Definition options_ok (o : Options) (nb : Z) : Prop :=
  NumBins o = Ok nb /\ 0 < nb /\ 1 <= num_hash o <= 5 /\ num_input o < 2 ^ 56.

Record table_ok (t : Index) (nb : Z) : Prop := {
  ok_options : options_ok (options t) nb;
  ok_bins_length : Z.of_nat (length (bins t)) = nb;
  ok_input : Z.of_nat (length (hashes t)) <= num_input (options t);
  ok_placed : placed nb (num_hash (options t)) (hashes t) (bins t);
  ok_partition : occ (bins t) ++ occ (stash t) ≡ₚ
                 map Z.of_nat (seq 0 (length (hashes t)));
}.

(** ** Lemmas on rows of bins *)

Lemma occ_app l1 l2 : occ (l1 ++ l2) = occ l1 ++ occ l2.
Proof. unfold occ. by rewrite filter_app, fmap_app. Qed.

Lemma occ_cons b l :
  occ (b :: l) = (if Bin.IsEmpty b then [] else [Bin.InputIdx b]) ++ occ l.
Proof.
  unfold occ. rewrite filter_cons. destruct (Bin.IsEmpty b) eqn:E.
  - by rewrite decide_False by done.
  - by rewrite decide_True by done.
Qed.

Lemma occ_empties n : occ (replicate n Bin.kEmpty) = [].
Proof. induction n as [|n IH]; [done|]. simpl. by rewrite occ_cons. Qed.

Lemma occ_insert bs k old c :
  bs !! k = Some old -> Bin.IsEmpty c = false ->
  occ (<[k := c]> bs) ++ (if Bin.IsEmpty old then [] else [Bin.InputIdx old])
  ≡ₚ Bin.InputIdx c :: occ bs.
Proof.
  intros Hk Hc. pose proof (lookup_lt_Some _ _ _ Hk) as Hlt.
  rewrite <- (take_drop_middle bs k old Hk) at 2.
  rewrite insert_take_drop by done.
  rewrite !occ_app, !occ_cons, Hc. destruct (Bin.IsEmpty old); simpl; solve_Permutation.
Qed.

Lemma bin_of_app nb hs hs' b k : bin_of nb hs b = Ok k -> bin_of nb (hs ++ hs') b = Ok k.
Proof.
  unfold bin_of. pose proof (Bin.InputIdx_range b).
  rewrite !vgetz_vget by lia. intros H0. apply bind_ok in H0 as (code & Hc & H0).
  apply vget_ok in Hc. unfold vget.
  rewrite lookup_app_l by (by eapply lookup_lt_Some). by rewrite Hc.
Qed.

Lemma entry_mono n n' nh b : (n <= n')%nat -> entry n nh b -> entry n' nh b.
Proof. unfold entry. intros ? (?&?&?&?). repeat split; try apply H0; try done; lia. Qed.

Lemma placed_app nb nh hs hs' bs :
  placed nb nh hs bs -> placed nb nh (hs ++ hs') bs.
Proof.
  intros H k b Hk Hb. destruct (H k b Hk Hb) as [He Hs]. split.
  - eapply entry_mono; [|done]. rewrite length_app. lia.
  - by apply bin_of_app.
Qed.

(** Every entry has a bin, whatever its hash function. *)
Lemma bin_of_total nb nh hs b :
  0 < nb -> nh <= 5 -> entry (length hs) nh b ->
  exists k, bin_of nb hs b = Ok k /\ (k < Z.to_nat nb)%nat.
Proof.
  intros Hnb Hnh (Hr & _ & Hi & Hh). unfold bin_of.
  pose proof (Bin.InputIdx_range b).
  destruct (lookup_lt_is_Some_2 hs (Z.to_nat (Bin.InputIdx b))) as [code Hcode]; [lia|].
  rewrite vgetz_vget by lia. unfold vget. rewrite Hcode. run.
  pose proof (Bin.HashIdx_range b).
  destruct (HashRoom.GetHash_ok code (Bin.HashIdx b)) as (h & Hg & Hpos); [lia|].
  rewrite Hg. run. replace (nb =? 0) with false by lia. run.
  eexists; split; [done|]. pose proof (Z.mod_pos_bound h nb). lia.
Qed.

(** The word an evicted item is re-encoded to. *)
Lemma entry_next n nh b :
  1 <= nh <= 5 -> entry n nh b ->
  let c := Bin.Encode (Bin.InputIdx b) ((Bin.HashIdx b + 1) mod nh) in
  entry n nh c /\ Bin.InputIdx c = Bin.InputIdx b.
Proof.
  intros Hnh (Hr & He & Hi & Hh) c.
  pose proof (Bin.InputIdx_range b) as Hib.
  pose proof (Z.mod_pos_bound (Bin.HashIdx b + 1) nh) as Hm.
  assert (Bin.InputIdx c = Bin.InputIdx b) as Heq.
  { unfold c. apply Bin.InputIdx_Encode; lia. }
  split; [|done]. repeat split.
  - unfold c. rewrite Bin.Encode_add by lia. lia.
  - unfold c. rewrite Bin.Encode_add by lia. lia.
  - unfold c. apply Bin.Encode_not_empty; lia.
  - by rewrite Heq.
  - unfold c. rewrite Bin.HashIdx_Encode by lia. lia.
Qed.

(** ** The eviction loop *)
Section eviction.
Context (nb nh : Z) (hs : list Z).
Context (Hnb : 0 < nb) (Hnh : 1 <= nh <= 5).

(** The inner [for]: the candidates still to be placed are those already
    written back, [take w], and those not yet read, [drop i]. *)
Record pass_inv (n : nat) (items : list Z) (i : nat) (s : list Z * list Z * nat)
    : Prop := {
  pass_cands : length s.1.2 = n;
  pass_write : (s.2 <= i)%nat;
  pass_bins : Z.of_nat (length s.1.1) = nb;
  pass_placed : placed nb nh hs s.1.1;
  pass_entries : Forall (entry (length hs) nh) (take s.2 s.1.2 ++ drop i s.1.2);
  pass_items : occ s.1.1 ++
               (Bin.InputIdx <$> take s.2 s.1.2 ++ drop i s.1.2) ≡ₚ items;
}.

Lemma placed_insert bs k c :
  placed nb nh hs bs -> entry (length hs) nh c -> bin_of nb hs c = Ok k ->
  placed nb nh hs (<[k := c]> bs).
Proof.
  intros Hp Hc Hk j b Hj Hb. destruct (decide (k = j)) as [->|Hne].
  - pose proof (lookup_lt_Some _ _ _ Hj) as Hlt. rewrite length_insert in Hlt.
    rewrite list_lookup_insert_eq in Hj by done. by injection Hj as <-.
  - rewrite list_lookup_insert_ne in Hj by done. by apply Hp.
Qed.

Lemma evict_step_inv n items i s :
  (i < n)%nat -> pass_inv n items i s ->
  wp (evict_step nb nh hs i s) (pass_inv n items (S i)).
Proof.
  intros Hi [Hlen Hw Hbl Hpl Hen Hit]. destruct s as [[bs cands] w]; simpl in *.
  unfold evict_step. apply wp_vget; [lia|]. intros c Hc.
  assert (drop i cands = c :: drop (S i) cands) as Hd by by apply drop_S.
  rewrite Hd in Hen, Hit. apply Forall_app in Hen as [Hen1 Hen2].
  apply Forall_cons in Hen2 as [Hec Hen2].
  destruct (bin_of_total nb nh hs c) as (k & Hk & Hkb); [lia|lia|done|].
  rewrite Hk. run. apply wp_vget; [lia|]. intros old Hold. unfold Bin.Swap.
  apply wp_vset; [lia|].
  assert (placed nb nh hs (<[k:=c]> bs)) as Hpl' by by apply placed_insert.
  assert (Bin.IsEmpty c = false) as Hce by apply Hec.
  pose proof (occ_insert bs k old c Hold Hce) as Hocc.
  destruct (Bin.IsEmpty old) eqn:Eold.
  - run. constructor; simpl; [done|lia|by rewrite length_insert|done| |].
    + by apply Forall_app.
    + rewrite app_nil_r in Hocc. rewrite Hocc.
      rewrite <- Hit, !fmap_app, fmap_cons. solve_Permutation.
  - destruct (Hpl k old Hold Eold) as [Heo _].
    replace (nh =? 0) with false by lia. run.
    destruct (entry_next _ nh old Hnh Heo) as [Hnext Hidx].
    apply wp_vset; [lia|]. run.
    set (nx := Bin.Encode _ _) in *.
    assert (take (S w) (<[w:=nx]> cands) = take w cands ++ [nx]) as Ht.
    { rewrite take_S_r with (x := nx); [|apply list_lookup_insert_eq; lia].
      by rewrite take_insert_ge. }
    assert (drop (S i) (<[w:=nx]> cands) = drop (S i) cands) as Hdr.
    { apply drop_insert_lt. lia. }
    constructor; simpl;
      [by rewrite length_insert|lia|by rewrite length_insert|done| |].
    + rewrite Ht, Hdr. rewrite !Forall_app, Forall_singleton.
      split_and!; assumption.
    + rewrite Ht, Hdr, !fmap_app, fmap_cons. cbn [fmap list_fmap]. rewrite Hidx.
      rewrite <- Hit, fmap_app, fmap_cons.
      transitivity ((occ (<[k:=c]> bs) ++ [Bin.InputIdx old]) ++
                    ((Bin.InputIdx <$> take w cands) ++ (Bin.InputIdx <$> drop (S i) cands)));
        [solve_Permutation|].
      rewrite Hocc. solve_Permutation.
Qed.

Lemma evict_rounds_inv items fuel bs cands :
  Z.of_nat (length bs) = nb -> placed nb nh hs bs ->
  Forall (entry (length hs) nh) cands ->
  occ bs ++ (Bin.InputIdx <$> cands) ≡ₚ items ->
  wp (evict_rounds fuel nb nh hs bs cands) (fun '(bs', cands') =>
    Z.of_nat (length bs') = nb /\ placed nb nh hs bs' /\
    Forall (entry (length hs) nh) cands' /\
    occ bs' ++ (Bin.InputIdx <$> cands') ≡ₚ items /\
    (length cands' <= length cands)%nat).
Proof using Hnb Hnh.
  revert bs cands. induction fuel as [|fuel IH]; intros bs cands Hl Hp He Hi.
  { by destruct cands. }
  destruct cands as [|c cands]; [done|]. set (cs := c :: cands) in *.
  change (evict_rounds (S fuel) nb nh hs bs cs) with
    (s ← for_ (length cs) (evict_step nb nh hs) (bs, cs, 0%nat);
     let '(bs, cands, w) := s in evict_rounds fuel nb nh hs bs (take w cands)).
  apply wp_bind.
  apply (wp_for _ _ (pass_inv (length cs) items)).
  - by constructor; simpl.
  - intros i s Hlt. by apply evict_step_inv.
  - intros [[bs' cs'] w] [Hlen Hw Hbl Hpl Hen Hit]; simpl in *.
    rewrite drop_ge, app_nil_r in Hen, Hit by lia.
    eapply wp_mono; [by apply IH|]. intros [bs2 cs2] (?&?&?&?&Hlen2).
    rewrite length_take in Hlen2. split_and!; try done. lia.
Qed.
End eviction.

(** ** The stash *)

Definition free (st : list Z) : nat := length (filter (fun b => Bin.IsEmpty b = true) st).

Lemma PutToStash_inv i st :
  0 <= i < 2 ^ 56 ->
  safe (PutToStash i st) (fun st' =>
    occ st' ≡ₚ i :: occ st /\ S (free st') = free st).
Proof.
  intros Hi. assert (Bin.IsEmpty i = false) as Hne by (unfold Bin.IsEmpty, Bin.kEmpty; lia).
  assert (Bin.InputIdx i = i) as Hid by (rewrite Bin.InputIdx_mod; by apply Z.mod_small).
  induction st as [|s st IH]; [done|]. cbn [PutToStash].
  unfold free. rewrite !filter_cons, occ_cons. destruct (Bin.IsEmpty s) eqn:E.
  - run. rewrite occ_cons, Hne, Hid, filter_cons, Hne.
    rewrite decide_False, decide_True by done. done.
  - apply safe_bind. eapply safe_mono; [exact IH|]. intros st' [Hocc Hfree]. run.
    rewrite occ_cons, E, filter_cons, E, !decide_False by done.
    split; [|done]. rewrite Hocc. solve_Permutation.
Qed.

Lemma PutToStash_room i st : (0 < free st)%nat -> PutToStash i st <> Throw.
Proof.
  induction st as [|s st IH]; unfold free; [simpl; lia|]. cbn [PutToStash].
  rewrite filter_cons. destruct (Bin.IsEmpty s) eqn:E; [done|].
  rewrite decide_False by done. intros H. specialize (IH H). by destruct (PutToStash i st).
Qed.

(** Moving the leftover candidates to the stash. *)
Lemma stash_all nh n cands st :
  Forall (entry n nh) cands ->
  safe (for_each cands (fun c st => PutToStash (Bin.InputIdx c) st) st) (fun st' =>
    occ st' ≡ₚ (Bin.InputIdx <$> cands) ++ occ st).
Proof.
  intros He. eapply safe_mono; [apply (safe_for_each _ _ (fun l st' =>
    occ st' ≡ₚ (Bin.InputIdx <$> l) ++ occ st))|]; [done| |done].
  intros l1 c l2 st1 _ Hst1. eapply safe_mono.
  - apply PutToStash_inv, Bin.InputIdx_range.
  - intros st2 [Hst2 _]. rewrite Hst2, Hst1, fmap_app. simpl. solve_Permutation.
Qed.

Lemma stash_room cands st :
  (length cands <= free st)%nat ->
  for_each cands (fun c st => PutToStash (Bin.InputIdx c) st) st <> Throw.
Proof.
  revert st. induction cands as [|c cands IH]; intros st Hf; [done|]. simpl in Hf.
  cbn [for_each]. pose proof (PutToStash_inv (Bin.InputIdx c) st (Bin.InputIdx_range c)) as Hs.
  pose proof (PutToStash_room (Bin.InputIdx c) st ltac:(lia)) as Ht.
  destruct (PutToStash (Bin.InputIdx c) st) as [st'| |]; [|done|done].
  run. apply IH. destruct Hs as [_ Hs]. lia.
Qed.

(** ** [Insert] *)

(** The fresh candidates: raw input indices, first hash function. *)
Lemma fresh_entries n k nh :
  1 <= nh -> Z.of_nat (n + k) < 2 ^ 56 ->
  Forall (entry (n + k) nh) (map Z.of_nat (seq n k)).
Proof.
  intros Hnh Hb. apply Forall_forall. intros x Hx.
  apply list_elem_of_fmap in Hx as (i & -> & Hi). apply elem_of_seq in Hi.
  rewrite <- (Bin.Encode_0 (Z.of_nat i)) by lia. repeat split.
  - rewrite Bin.Encode_add; lia.
  - rewrite Bin.Encode_add; lia.
  - apply Bin.Encode_not_empty; lia.
  - rewrite Bin.InputIdx_Encode; lia.
  - rewrite Bin.HashIdx_Encode; lia.
Qed.

Lemma fresh_inputs n k :
  Z.of_nat (n + k) < 2 ^ 56 ->
  Bin.InputIdx <$> map Z.of_nat (seq n k) = map Z.of_nat (seq n k).
Proof.
  intros Hb. rewrite <- (list_fmap_id (map Z.of_nat (seq n k))) at 2.
  apply list_fmap_ext. intros i x Hx.
  apply list_elem_of_lookup_2, list_elem_of_fmap in Hx as (j & -> & Hj).
  apply elem_of_seq in Hj. rewrite Bin.InputIdx_mod.
  assert (0 <= Z.of_nat j < 2 ^ 56) by lia. by apply Z.mod_small.
Qed.

(** The eviction phase of [Insert], shared by the two theorems below. *)
Lemma Insert_rounds codes t nb :
  table_ok t nb ->
  Z.of_nat (length (hashes t ++ codes)) <= num_input (options t) ->
  wp (evict_rounds (Z.to_nat (max_try_count (options t))) nb (num_hash (options t))
        (hashes t ++ codes) (bins t)
        (map Z.of_nat (seq (length (hashes t)) (length codes))))
    (fun '(bs', cands') =>
      Z.of_nat (length bs') = nb /\
      placed nb (num_hash (options t)) (hashes t ++ codes) bs' /\
      Forall (entry (length (hashes t ++ codes)) (num_hash (options t))) cands' /\
      occ bs' ++ (Bin.InputIdx <$> cands') ≡ₚ
        occ (bins t) ++ map Z.of_nat (seq (length (hashes t)) (length codes)) /\
      (length cands' <= length codes)%nat).
Proof.
  intros [(Hnb & Hpos & Hnh & Hni) Hbl Hin Hpl Hpart] Hcap.
  rewrite length_app in Hcap |- *.
  eapply wp_mono; [apply evict_rounds_inv with (items := occ (bins t) ++
    map Z.of_nat (seq (length (hashes t)) (length codes)))|].
  - done.
  - done.
  - done.
  - by apply placed_app.
  - rewrite length_app. apply fresh_entries; lia.
  - by rewrite fresh_inputs by lia.
  - intros [bs' cands']. rewrite length_app, length_map, length_seq. done.
Qed.

Lemma Insert_ok codes t nb :
  table_ok t nb ->
  safe (Insert codes t) (fun t' =>
    table_ok t' nb /\ hashes t' = hashes t ++ codes /\ options t' = options t).
Proof.
  intros Hok. pose proof Hok as [(Hnb & Hpos & Hnh & Hni) Hbl Hin Hpl Hpart].
  unfold Insert. rewrite Hnb. run. apply safe_enforce. intros Hcap%Z.leb_le.
  pose proof (Insert_rounds codes t nb Hok Hcap) as Hr.
  apply wp_iff in Hr as ([bs' cands'] & -> & Hbl' & Hpl' & He' & Hocc & _). run.
  apply safe_bind. eapply safe_mono; [by eapply stash_all|]. intros st' Hst. run.
  split_and!; [|done|done]. constructor; simpl; [done|done|done|done|].
  rewrite Hst. rewrite (assoc_L (++)), Hocc, length_app, seq_app, map_app, <- Hpart.
  simpl. solve_Permutation.
Qed.

(** C24.  [Insert] keeps the cuckoo table's representation: starting from a
    well-formed table it either throws (the inputs exceed [num_input], or the
    stash is full) or returns a well-formed table that stores every input, old
    and new, exactly once, each occupied bin holding an input that the recorded
    hash function sends to that bin.  It reaches no undefined behaviour. *)
Theorem Insert_preserves codes t nb :
  table_ok t nb ->
  safe (Insert codes t) (fun t' =>
    table_ok t' nb /\ hashes t' = hashes t ++ codes /\ options t' = options t).
Proof. apply Insert_ok. Qed.

(** C40.  [Insert] succeeds whenever the stash could take all new inputs: the
    eviction loop terminates within [max_try_count] rounds and never leaves more
    candidates than inputs were given. *)
Theorem Insert_total codes t nb :
  table_ok t nb ->
  Z.of_nat (length (hashes t ++ codes)) <= num_input (options t) ->
  (length codes <= free (stash t))%nat ->
  exists t', Insert codes t = Ok t'.
Proof.
  intros Hok Hcap Hfree. pose proof Hok as [(Hnb & _) _ _ _ _].
  pose proof (Insert_rounds codes t nb Hok Hcap) as Hr.
  pose proof (Insert_ok codes t nb Hok) as Hsafe.
  assert (Insert codes t <> Throw) as Ht; [|destruct (Insert codes t) as [t'| |]; [by exists t'|done|done]].
  unfold Insert. rewrite Hnb. run. apply Z.leb_le in Hcap. rewrite Hcap. run.
  apply wp_iff in Hr as ([bs' cands'] & -> & _ & _ & He' & _ & Hlen). run.
  pose proof (stash_room cands' (stash t) ltac:(lia)) as Hr.
  destruct (for_each _ _ _); done.
Qed.

(** The constructor establishes the invariant, on options it accepts. *)
Lemma CuckooIndex_ok o t nb :
  NumBins o = Ok nb -> 0 < nb -> 1 <= num_hash o -> 0 <= num_input o < 2 ^ 56 ->
  num_hash o < 2 ^ 62 -> CuckooIndex o = Ok t -> table_ok t nb.
Proof.
  intros Hnb Hpos Hnh Hni Hb H. unfold CuckooIndex in H. rewrite Hnb in H.
  cbn [mbind res_bind] in H. apply bind_ok in H as (u & H & [= <-]).
  apply enforce_ok, Z.leb_le in H.
  assert (num_hash o <= 5).
  { unfold HashRoom.kBlockSize in H. rewrite (u64_small (num_hash o - 1)) in H by lia.
    rewrite u64_small in H; lia. }
  constructor; simpl.
  - split; [done|lia].
  - rewrite length_replicate. lia.
  - lia.
  - intros k b Hk Hbe. apply lookup_replicate in Hk as [-> _]. done.
  - by rewrite !occ_empties.
Qed.

(** ** [SanityCheck] *)

Lemma sanity_row l (s : gset Z) :
  NoDup (occ l) -> (forall x, x ∈ occ l -> x ∉ s) ->
  for_each l sanity_insert s = Ok (list_to_set (occ l) ∪ s).
Proof.
  revert s. induction l as [|b l IH]; intros s Hnd Hdj.
  { cbn. f_equal. set_solver. }
  rewrite occ_cons in Hnd, Hdj |- *. cbn [for_each].
  assert (sanity_insert b s = if Bin.IsEmpty b then Ok s else
    _ ← enforce (negb (bool_decide (Bin.InputIdx b ∈ s))); Ok ({[Bin.InputIdx b]} ∪ s))
    as -> by done.
  destruct (Bin.IsEmpty b) eqn:E; run.
  - by apply IH.
  - simpl in Hnd. apply NoDup_cons in Hnd as [Hnot Hnd].
    rewrite bool_decide_false by (apply Hdj; set_solver). run.
    rewrite IH; [|done|].
    + f_equal. set_solver.
    + intros x Hx. specialize (Hdj x ltac:(set_solver)). set_solver.
Qed.

Lemma NoDup_indices n : NoDup (map Z.of_nat (seq 0 n)).
Proof. apply NoDup_fmap_2; [apply _|]. apply NoDup_seq. Qed.

(** Iterating the set of all indices yields them in order. *)
Lemma sorted_indices n (s : gset Z) :
  s = list_to_set (map Z.of_nat (seq 0 n)) ->
  merge_sort Z.le (elements s) = map Z.of_nat (seq 0 n).
Proof.
  intros ->. apply (Sorted_unique Z.le).
  - apply Sorted_merge_sort, _.
  - generalize 0%nat. induction n as [|n IH]; intros k; simpl; constructor; [apply IH|].
    destruct n; simpl; constructor. lia.
  - rewrite merge_sort_Permutation. apply elements_list_to_set, NoDup_indices.
Qed.

Lemma count_indices k n :
  for_each (map Z.of_nat (seq k n))
    (fun i idx => _ ← enforce (idx =? i); Ok (idx + 1)) (Z.of_nat k)
  = Ok (Z.of_nat (k + n)).
Proof.
  revert k. induction n as [|n IH]; intros k.
  { by rewrite Nat.add_0_r. }
  cbn [seq map for_each]. rewrite Z.eqb_refl. run.
  replace (Z.of_nat k + 1) with (Z.of_nat (S k)) by lia.
  rewrite IH. f_equal. lia.
Qed.

(** Once [num_input] inputs are stored, [SanityCheck] accepts the table:
    every input is found, none twice. *)
Theorem SanityCheck_accepts t nb :
  table_ok t nb -> Z.of_nat (length (hashes t)) = num_input (options t) ->
  SanityCheck t = Ok tt.
Proof.
  intros [_ _ _ _ Hpart] Hfull. set (n := length (hashes t)) in *.
  assert (NoDup (occ (bins t) ++ occ (stash t))) as Hnd
    by (rewrite Hpart; apply NoDup_indices).
  apply NoDup_app in Hnd as (Hnd1 & Hdj & Hnd2). unfold SanityCheck.
  rewrite sanity_row by set_solver. run. rewrite sanity_row by set_solver. run.
  set (s := list_to_set (occ (stash t)) ∪ _).
  assert (s = list_to_set (map Z.of_nat (seq 0 n))) as Hs.
  { rewrite <- Hpart, list_to_set_app_L. unfold s. set_solver. }
  assert (size s = n) as Hsz.
  { rewrite Hs, size_list_to_set by apply NoDup_indices. by rewrite length_map, length_seq. }
  rewrite Hsz, Hfull, Z.eqb_refl. run. rewrite (sorted_indices n s Hs).
  pose proof (count_indices 0 n) as Hc. change (Z.of_nat 0) with 0 in Hc.
  rewrite Hc. done.
Qed.

(** ** [MinCollidingHashIdx] *)

(** Hash function [r] sends input [input_idx] to bin [k]. *)
Definition hashes_to (nb : Z) (hs : list Z) (input_idx r : Z) (k : nat) : Prop :=
  exists code h, vgetz hs input_idx = Ok code /\
    HashRoom.GetHash code r = Ok h /\ h mod nb = Z.of_nat k.

Lemma min_colliding_spec nb hs b k :
  0 < nb -> 0 <= Bin.HashIdx b <= 4 -> hashes_to nb hs (Bin.InputIdx b) (Bin.HashIdx b) k ->
  forall n i, 0 <= i <= Bin.HashIdx b -> Bin.HashIdx b < i + Z.of_nat n ->
  wp (min_colliding_from n i nb hs (Bin.InputIdx b) (Z.of_nat k)) (fun r =>
    i <= r <= Bin.HashIdx b /\ hashes_to nb hs (Bin.InputIdx b) r k /\
    (forall j, i <= j < r -> ~ hashes_to nb hs (Bin.InputIdx b) j k)).
Proof.
  intros Hnb Hh (code & hb & Hcode & Hhb & Hk).
  induction n as [|n IH]; intros i Hi Hn; [lia|]. cbn [min_colliding_from].
  rewrite Hcode. run.
  destruct (HashRoom.GetHash_ok code i) as (h & Hg & _); [lia|]. rewrite Hg. run.
  replace (nb =? 0) with false by lia. run.
  destruct (h mod nb =? Z.of_nat k) eqn:E.
  - run. unfold u8. rewrite wrap_small by (unfold in_u; lia).
    split_and!; [lia|lia| |intros; lia]. exists code, h. split_and!; [done|done|lia].
  - destruct (decide (i = Bin.HashIdx b)) as [Heq|Hne].
    { exfalso. rewrite Heq, Hhb in Hg. injection Hg as <-. lia. }
    eapply wp_mono; [apply IH; lia|]. intros r (Hr & Hex & Hmin).
    split_and!; [lia|lia|done|]. intros j Hj. 
    destruct (decide (j = i)) as [->|]; [|apply Hmin; lia].
    intros (code' & h' & Hc' & Hg' & Hk'). rewrite Hcode in Hc'. injection Hc' as <-.
    rewrite Hg in Hg'. injection Hg' as <-. lia.
Qed.

(** On an occupied bin, [MinCollidingHashIdx] returns (it never reaches its
    throw) the least hash function of the stored input that maps to the bin; it
    is at most the recorded one. *)
Theorem MinCollidingHashIdx_least t nb k b :
  table_ok t nb -> bins t !! k = Some b -> Bin.IsEmpty b = false ->
  wp (MinCollidingHashIdx t (Z.of_nat k)) (fun r =>
    0 <= r <= Bin.HashIdx b /\ hashes_to nb (hashes t) (Bin.InputIdx b) r k /\
    (forall j, 0 <= j < r -> ~ hashes_to nb (hashes t) (Bin.InputIdx b) j k)).
Proof.
  intros [(Hnb & Hpos & Hnh & Hni) Hbl Hin Hpl _] Hk Hb.
  destruct (Hpl k b Hk Hb) as [(_ & _ & Hi & Hh) Hbin].
  pose proof (Bin.HashIdx_range b).
  unfold MinCollidingHashIdx. rewrite vgetz_vget, Nat2Z.id by lia. unfold vget at 1. rewrite Hk. run.
  rewrite Hnb. run. apply min_colliding_spec; try lia.
  unfold bin_of in Hbin.
  apply bind_ok in Hbin as (code & Hcode & Hbin).
  apply bind_ok in Hbin as (hb & Hhb & Hbin).
  apply bind_ok in Hbin as (_ & _ & [= <-]).
  pose proof (Z.mod_pos_bound hb nb Hpos). exists code, hb. split_and!; [done|done|lia].
Qed.

(** ** Witnesses: a table of four bins filled with three inputs *)

Definition sample_options : Options :=
  {| num_input := 3; num_stash := 3; num_hash := 3;
     scale_factor := f64_of_u64 4; max_try_count := 128 |}.
Definition sample_codes : list Z :=
  [3 * 2 ^ 32 + 5 * 2 ^ 16 + 1; 7 * 2 ^ 16 + 1; 2 ^ 40 + 1].
Definition empty_table : Index :=
  {| options := sample_options; bins := replicate 12 Bin.kEmpty;
     stash := replicate 3 Bin.kEmpty; hashes := [] |}.

Lemma empty_table_ok : CuckooIndex sample_options = Ok empty_table /\ table_ok empty_table 12.
Proof.
  split; [by vm_compute|]. apply (CuckooIndex_ok sample_options); try by vm_compute.
Defined.

Lemma Insert_preserves_witness :
  safe (Insert sample_codes empty_table) (fun t' =>
    table_ok t' 12 /\ hashes t' = hashes empty_table ++ sample_codes /\
    options t' = options empty_table).
Proof. exact (Insert_preserves sample_codes empty_table 12 (proj2 empty_table_ok)). Defined.

Lemma Insert_total_witness : exists t', Insert sample_codes empty_table = Ok t'.
Proof.
  apply (Insert_total sample_codes empty_table 12);
    [exact (proj2 empty_table_ok) | by vm_compute | apply Nat.leb_le; by vm_compute].
Defined.

(** The table [Insert] computes from the sample. *)
Definition filled_table : Index :=
  {| options := sample_options;
     bins := [Bin.kEmpty; Bin.kEmpty; Bin.kEmpty; Bin.kEmpty; Bin.kEmpty; 2;
              Bin.kEmpty; Bin.Encode 1 1; Bin.kEmpty; 0; Bin.kEmpty; Bin.kEmpty];
     stash := replicate 3 Bin.kEmpty; hashes := sample_codes |}.

Lemma filled_table_ok :
  Insert sample_codes empty_table = Ok filled_table /\ table_ok filled_table 12.
Proof.
  split; [by vm_compute|]. constructor.
  - by vm_compute.
  - by vm_compute.
  - by vm_compute.
  - intros k b Hk Hb.
    do 12 (destruct k as [|k]; [injection Hk as <-; try (by vm_compute in Hb);
      by vm_compute|]).
    done.
  - replace (_ ++ _) with [2; 1; 0] by (by vm_compute).
    replace (map _ _) with [0; 1; 2] by (by vm_compute). apply (reverse_Permutation [0; 1; 2]).
Qed.

Lemma SanityCheck_accepts_witness : SanityCheck filled_table = Ok tt.
Proof.
  apply (SanityCheck_accepts filled_table 12); [exact (proj2 filled_table_ok) | by vm_compute].
Defined.

Lemma MinCollidingHashIdx_least_witness :
  wp (MinCollidingHashIdx filled_table 7) (fun r =>
    0 <= r <= Bin.HashIdx (Bin.Encode 1 1) /\
    hashes_to 12 (hashes filled_table) (Bin.InputIdx (Bin.Encode 1 1)) r 7 /\
    (forall j, 0 <= j < r ->
       ~ hashes_to 12 (hashes filled_table) (Bin.InputIdx (Bin.Encode 1 1)) j 7)).
Proof.
  apply (MinCollidingHashIdx_least filled_table 12 7 (Bin.Encode 1 1));
    [exact (proj2 filled_table_ok) | by vm_compute | by vm_compute].
Defined.

(** The constructor's width check is computed modulo [2^64], so [num_hash = 0]
    passes it; the first eviction then divides by zero. *)
Definition zero_hash_options : Options :=
  {| num_input := 2; num_stash := 2; num_hash := 0;
     scale_factor := f64_of_u64 1; max_try_count := 4 |}.

Lemma zero_hash_reaches_UB :
  let t := {| options := zero_hash_options; bins := [Bin.kEmpty; Bin.kEmpty];
              stash := [Bin.kEmpty; Bin.kEmpty]; hashes := [] |} in
  CuckooIndex zero_hash_options = Ok t /\ Insert [0; 0] t = UB.
Proof. cbv zeta. split; vm_compute; reflexivity. Qed.
