(* ===== verification/Recovery.v ===== *)
(** * The recovery manager (psi/checkpoint/recovery.{h,cc})

    A [RecoveryManager] keeps a checkpoint record in memory and on disk.  Every
    operation is a function of the manager and the disk that returns the new
    manager and the list of disk writes it performs, in order, so that a crash in
    the middle of an operation is a prefix of that list.  Protobuf's JSON and
    binary codecs and [MessageDifferencer] are the parameters of [ProtoLib].
    The theorems: the checkpoint file always reloads to the checkpoint in memory;
    two parties entering the online stage agree whether it is already finished;
    a crash while the private key is saved never leaves a checkpoint that
    promises a key the disk does not hold, though at one point it leaves a
    checkpoint file that no longer loads. *)
From S2P Require Import Prelude.

(** [RecoveryCheckpoint::Stage]. *)
Inductive Stage : Type :=
| STAGE_UNSPECIFIED
| STAGE_INIT_END
| STAGE_PRE_PROCESS_END
| STAGE_ONLINE_START
| STAGE_ONLINE_END
| STAGE_POST_PROCESS_END.

#[export] Instance Stage_eq_dec : EqDecision Stage.
Proof. solve_decision. Defined.

(** The enum's number, by which the code compares stages. *)
Definition Stage_num (s : Stage) : Z :=
  match s with
  | STAGE_UNSPECIFIED => 0
  | STAGE_INIT_END => 1
  | STAGE_PRE_PROCESS_END => 2
  | STAGE_ONLINE_START => 3
  | STAGE_ONLINE_END => 4
  | STAGE_POST_PROCESS_END => 5
  end.

Definition stage_ltb (a b : Stage) : bool := Stage_num a <? Stage_num b.

(** [message RecoveryCheckpoint], over the type of PSI configurations. *)
Record RecoveryCheckpoint (C : Type) := mkCheckpoint {
  stage : Stage;
  config : C;
  input_hash_digest : list Z;
  ecdh_dual_masked_item_self_count : Z;
  ecdh_dual_masked_item_peer_count : Z;
  parsed_bucket_count : Z
}.
Arguments mkCheckpoint {C}.
Arguments stage {C}.
Arguments config {C}.
Arguments input_hash_digest {C}.
Arguments ecdh_dual_masked_item_self_count {C}.
Arguments ecdh_dual_masked_item_peer_count {C}.
Arguments parsed_bucket_count {C}.

(** [message InternalRecoveryRecord]. *)
Record InternalRecoveryRecord := mkRecord {
  r_stage : Stage;
  r_peer_count : Z;
  r_bucket_count : Z
}.

(** What the manager calls in the protobuf library. *)
Class ProtoLib (C : Type) := {
  default_config : C;
  config_Equals : C -> C -> bool;
  MessageToJsonString : RecoveryCheckpoint C -> option string;
  JsonStringToMessage : string -> option (RecoveryCheckpoint C);
  SerializeToString : InternalRecoveryRecord -> option string;
  ParseFromString : string -> option InternalRecoveryRecord
}.

(** Its documented behaviour the theorems rely on: what is printed parses back. *)
Class ProtoLaws (C : Type) `{!ProtoLib C} := {
  config_Equals_refl : forall c, config_Equals c c = true;
  json_roundtrip : forall c s,
    MessageToJsonString c = Some s -> JsonStringToMessage s = Some c;
  empty_not_json : JsonStringToMessage EmptyString = None;
  record_roundtrip : forall r s,
    SerializeToString r = Some s -> ParseFromString s = Some r
}.

(** The files and directories below [folder_path_]. *)
Record Disk := mkDisk {
  folder_exists : bool;
  self_cache_exists : bool;
  peer_cache_exists : bool;
  bucket_store_exists : bool;
  checkpoint_file : option string;
  private_key_file : option (list Z)
}.

Inductive Write : Type :=
| CreateFolder
| CreateSelfCache
| CreatePeerCache
| CreateBucketStore
| TruncateCheckpoint
| WriteCheckpoint (text : string)
| TruncateKey
| WriteKey (key : list Z).

Definition apply_write (d : Disk) (w : Write) : Disk :=
  let (f, s, p, b, c, k) := d in
  match w with
  | CreateFolder => mkDisk true s p b c k
  | CreateSelfCache => mkDisk f true p b c k
  | CreatePeerCache => mkDisk f s true b c k
  | CreateBucketStore => mkDisk f s p true c k
  | TruncateCheckpoint => mkDisk f s p b (Some EmptyString) k
  | WriteCheckpoint t => mkDisk f s p b (Some t) k
  | TruncateKey => mkDisk f s p b c (Some [])
  | WriteKey key => mkDisk f s p b c (Some key)
  end.
Definition apply_writes (d : Disk) (ws : list Write) : Disk := fold_left apply_write ws d.

Definition kEccKeySize : nat := 32.

(** [IEccCryptor::SetPrivateKey]: the cryptor's new key. *)
Definition SetPrivateKey (key : list Z) : res (list Z) :=
  _ ← enforce (bool_decide (length key = kEccKeySize)); Ok key.

Definition of_option {A} (o : option A) : res A :=
  match o with Some a => Ok a | None => Throw end.

Section recovery.
Context {C : Type} `{PL : !ProtoLib C}.

(** The data members that are not paths. *)
Record RecoveryManager := mkManager {
  checkpoint : RecoveryCheckpoint C;
  ecdh_dual_masked_cnt_from_peer : Z;
  parsed_bucket_count_from_peer : Z
}.

(** The empty message. *)
Definition empty_checkpoint : RecoveryCheckpoint C :=
  mkCheckpoint STAGE_UNSPECIFIED default_config [] 0 0 0.

Definition set_stage (s : Stage) (c : RecoveryCheckpoint C) : RecoveryCheckpoint C :=
  mkCheckpoint s (config c) (input_hash_digest c)
    (ecdh_dual_masked_item_self_count c) (ecdh_dual_masked_item_peer_count c)
    (parsed_bucket_count c).

Definition with_checkpoint (m : RecoveryManager) (c : RecoveryCheckpoint C) : RecoveryManager :=
  mkManager c (ecdh_dual_masked_cnt_from_peer m) (parsed_bucket_count_from_peer m).

Definition LoadRecoveryCheckpointFromFile (file : string) : res (RecoveryCheckpoint C) :=
  of_option (JsonStringToMessage file).

(** The constructor: creates what is missing and loads a previous record. *)
Definition RecoveryManager_new (d : Disk) : res (RecoveryManager * list Write) :=
  let ws :=
    (if negb (folder_exists d) then [CreateFolder] else []) ++
    (if negb (self_cache_exists d) then [CreateSelfCache] else []) ++
    (if negb (peer_cache_exists d) then [CreatePeerCache] else []) ++
    (if negb (bucket_store_exists d) then [CreateBucketStore] else []) in
  match checkpoint_file d with
  | Some text =>
      c ← LoadRecoveryCheckpointFromFile text;
      Ok (mkManager c 0 0, ws)
  | None => Ok (mkManager empty_checkpoint 0 0, ws)
  end.

(** [SaveCheckpointFile]: serializes first, then opens (and so truncates) the
    file and writes it. *)
Definition SaveCheckpointFile (m : RecoveryManager) : res (list Write) :=
  text ← of_option (MessageToJsonString (checkpoint m));
  Ok [TruncateCheckpoint; WriteCheckpoint text].

Definition MarkInitEnd (cfg : C) (digest : list Z) (m : RecoveryManager)
  : res (RecoveryManager * list Write) :=
  let c := checkpoint m in
  if negb (bool_decide (stage c = STAGE_UNSPECIFIED)) then
    _ ← enforce (config_Equals cfg (config c));
    _ ← enforce (bool_decide (digest = input_hash_digest c));
    Ok (m, [])
  else
    let m' := with_checkpoint m
      (mkCheckpoint STAGE_INIT_END cfg digest
        (ecdh_dual_masked_item_self_count c) (ecdh_dual_masked_item_peer_count c)
        (parsed_bucket_count c)) in
    ws ← SaveCheckpointFile m';
    Ok (m', ws).

(** [MarkPreProcessEnd]: the cryptor's private key is saved, or loaded when a
    previous run already saved it.  The result holds the cryptor's key. *)
Definition MarkPreProcessEnd (cryptor : option (list Z)) (m : RecoveryManager) (d : Disk)
  : res (RecoveryManager * option (list Z) * list Write) :=
  match cryptor with
  | None => Ok (m, None, [])
  | Some key =>
      if stage_ltb (stage (checkpoint m)) STAGE_PRE_PROCESS_END then
        let m' := with_checkpoint m (set_stage STAGE_PRE_PROCESS_END (checkpoint m)) in
        let kw := [TruncateKey; WriteKey (take kEccKeySize key)] in
        ws ← SaveCheckpointFile m';
        Ok (m', Some key, kw ++ ws)
      else
        private_key ← SetPrivateKey (default [] (private_key_file d));
        Ok (m, Some private_key, [])
  end.

(** The link context the online stage is started with: [AllGather] maps the
    buffer sent to the buffers of all ranks. *)
Record Lctx := mkLctx {
  WorldSize : Z;
  Rank : Z;
  AllGather : string -> res (list string)
}.

Definition internal_record (c : RecoveryCheckpoint C) : InternalRecoveryRecord :=
  mkRecord (stage c) (ecdh_dual_masked_item_peer_count c) (parsed_bucket_count c).

(** Its tail, once the peer's record is known. *)
Definition finish_online_start (online_stage_finished : bool) (m1 : RecoveryManager)
  : res (bool * RecoveryManager * list Write) :=
  if stage_ltb (stage (checkpoint m1)) STAGE_ONLINE_START then
    let m2 := with_checkpoint m1 (set_stage STAGE_ONLINE_START (checkpoint m1)) in
    ws ← SaveCheckpointFile m2;
    Ok (online_stage_finished, m2, ws)
  else Ok (online_stage_finished, m1, []).

Definition MarkOnlineStart (lctx : option Lctx) (m : RecoveryManager)
  : res (bool * RecoveryManager * list Write) :=
  '(online_stage_finished, m1) ←
    match lctx with
    | None => Ok (false, m)
    | Some l =>
        _ ← enforce (WorldSize l =? 2);
        record_str ← of_option (SerializeToString (internal_record (checkpoint m)));
        record_buffer_list ← AllGather l record_str;
        s0 ← vget record_buffer_list 0;
        s1 ← vget record_buffer_list 1;
        rank0 ← of_option (ParseFromString s0);
        rank1 ← of_option (ParseFromString s1);
        let finished := negb (stage_ltb (r_stage rank0) STAGE_ONLINE_END) &&
                        negb (stage_ltb (r_stage rank1) STAGE_ONLINE_END) in
        let peer := if Rank l =? 0 then rank1 else rank0 in
        Ok (finished, mkManager (checkpoint m) (r_peer_count peer) (r_bucket_count peer))
    end;
  finish_online_start online_stage_finished m1.

Definition save_as (m : RecoveryManager) (c : RecoveryCheckpoint C) : res (RecoveryManager * list Write) :=
  let m' := with_checkpoint m c in
  ws ← SaveCheckpointFile m';
  Ok (m', ws).

Definition UpdateEcdhDualMaskedItemSelfCount (cnt : Z) (m : RecoveryManager) :=
  let c := checkpoint m in
  save_as m (mkCheckpoint STAGE_ONLINE_START (config c) (input_hash_digest c)
    cnt (ecdh_dual_masked_item_peer_count c) (parsed_bucket_count c)).

Definition UpdateEcdhDualMaskedItemPeerCount (cnt : Z) (m : RecoveryManager) :=
  let c := checkpoint m in
  save_as m (mkCheckpoint STAGE_ONLINE_START (config c) (input_hash_digest c)
    (ecdh_dual_masked_item_self_count c) cnt (parsed_bucket_count c)).

Definition UpdateParsedBucketCount (cnt : Z) (m : RecoveryManager) :=
  let c := checkpoint m in
  save_as m (mkCheckpoint STAGE_ONLINE_START (config c) (input_hash_digest c)
    (ecdh_dual_masked_item_self_count c) (ecdh_dual_masked_item_peer_count c) cnt).

Definition mark_at_least (s : Stage) (m : RecoveryManager) : res (RecoveryManager * list Write) :=
  if stage_ltb (stage (checkpoint m)) s
  then save_as m (set_stage s (checkpoint m))
  else Ok (m, []).

Definition MarkOnlineEnd (m : RecoveryManager) := mark_at_least STAGE_ONLINE_END m.

Definition MarkPostProcessEnd (m : RecoveryManager) := mark_at_least STAGE_POST_PROCESS_END m.

(** ** Runs of a manager *)

(** One call of the public interface, as a step of manager and disk. *)
Inductive Call : Type :=
| CInitEnd (cfg : C) (digest : list Z)
| CPreProcessEnd (cryptor : option (list Z))
| COnlineStart (lctx : option Lctx)
| CSelfCount (n : Z)
| CPeerCount (n : Z)
| CBucketCount (n : Z)
| COnlineEnd
| CPostProcessEnd.

Definition call (k : Call) (m : RecoveryManager) (d : Disk)
  : res (RecoveryManager * list Write) :=
  match k with
  | CInitEnd cfg digest => MarkInitEnd cfg digest m
  | CPreProcessEnd cr => '(m', _, ws) ← MarkPreProcessEnd cr m d; Ok (m', ws)
  | COnlineStart l => '(_, m', ws) ← MarkOnlineStart l m; Ok (m', ws)
  | CSelfCount n => UpdateEcdhDualMaskedItemSelfCount n m
  | CPeerCount n => UpdateEcdhDualMaskedItemPeerCount n m
  | CBucketCount n => UpdateParsedBucketCount n m
  | COnlineEnd => MarkOnlineEnd m
  | CPostProcessEnd => MarkPostProcessEnd m
  end.

(** The states a manager reaches over a disk that holds no checkpoint at first:
    construction, calls that return, and restarts of the process. *)
Inductive reachable (d0 : Disk) : RecoveryManager -> Disk -> Prop :=
| reach_new m ws :
    RecoveryManager_new d0 = Ok (m, ws) -> reachable d0 m (apply_writes d0 ws)
| reach_call k m d m' ws :
    reachable d0 m d -> call k m d = Ok (m', ws) ->
    reachable d0 m' (apply_writes d ws)
| reach_restart m d m' ws :
    reachable d0 m d -> RecoveryManager_new d = Ok (m', ws) ->
    reachable d0 m' (apply_writes d ws).

(** The file on disk is the checkpoint in memory. *)
Definition coherent (m : RecoveryManager) (d : Disk) : Prop :=
  (checkpoint_file d = None /\ checkpoint m = empty_checkpoint) \/
  (exists s, checkpoint_file d = Some s /\ JsonStringToMessage s = Some (checkpoint m)).

Definition dirs_exist (d : Disk) : Prop :=
  folder_exists d = true /\ self_cache_exists d = true /\
  peer_cache_exists d = true /\ bucket_store_exists d = true.

(** ** The file always reloads to the checkpoint in memory *)
Context `{LW : !ProtoLaws C}.

Lemma apply_writes_app d ws1 ws2 :
  apply_writes d (ws1 ++ ws2) = apply_writes (apply_writes d ws1) ws2.
Proof. apply fold_left_app. Qed.

Lemma of_option_ok {A} (o : option A) a : of_option o = Ok a <-> o = Some a.
Proof. destruct o; naive_solver. Qed.

Lemma save_coherent m ws d :
  SaveCheckpointFile m = Ok ws -> dirs_exist d ->
  coherent m (apply_writes d ws) /\ dirs_exist (apply_writes d ws) /\
  private_key_file (apply_writes d ws) = private_key_file d.
Proof.
  unfold SaveCheckpointFile. intros (s & Hs & [= <-])%bind_ok Hd.
  apply of_option_ok in Hs. destruct d. split_and!; [|exact Hd|done].
  right. exists s. split; [done|]. by apply json_roundtrip.
Qed.

Lemma new_coherent d m ws :
  RecoveryManager_new d = Ok (m, ws) ->
  coherent m (apply_writes d ws) /\ dirs_exist (apply_writes d ws).
Proof.
  unfold RecoveryManager_new, coherent, dirs_exist.
  destruct d as [[] [] [] [] [s|] k]; simpl; unfold LoadRecoveryCheckpointFromFile;
    try (intros (c & Hc%of_option_ok & [= <- <-])%bind_ok; simpl; split; eauto 10);
    intros [= <- <-]; simpl; split; eauto 10.
Qed.

Lemma save_as_coherent m c m' ws d :
  save_as m c = Ok (m', ws) -> dirs_exist d ->
  checkpoint m' = c /\ coherent m' (apply_writes d ws) /\ dirs_exist (apply_writes d ws).
Proof.
  unfold save_as. intros (ws' & Hs & [= <- <-])%bind_ok Hd.
  destruct (save_coherent _ _ d Hs Hd) as (?&?&?). done.
Qed.

Lemma mark_coherent s m m' ws d :
  mark_at_least s m = Ok (m', ws) -> coherent m d -> dirs_exist d ->
  coherent m' (apply_writes d ws) /\ dirs_exist (apply_writes d ws).
Proof.
  unfold mark_at_least. destruct (stage_ltb _ _).
  - intros H _ Hd. by destruct (save_as_coherent _ _ _ _ d H Hd).
  - intros [= <- <-]. done.
Qed.

(** [MarkOnlineStart] is its exchange with the peer, which leaves checkpoint and
    disk alone, followed by the mark of the stage. *)
Lemma MarkOnlineStart_split l m b m' ws :
  MarkOnlineStart l m = Ok (b, m', ws) ->
  exists m1, checkpoint m1 = checkpoint m /\
    mark_at_least STAGE_ONLINE_START m1 = Ok (m', ws).
Proof.
  unfold MarkOnlineStart. intros ([b1 m1] & H1 & H2)%bind_ok.
  exists m1. split.
  - destruct l as [l|]; [|by injection H1 as _ <-].
    repeat match goal with H : _ ≫= _ = Ok _ |- _ => apply bind_ok in H as (? & _ & H) end.
    by injection H1 as _ <-.
  - unfold finish_online_start in H2. unfold mark_at_least, save_as.
    destruct (stage_ltb _ _).
    + apply bind_ok in H2 as (ws' & Hw & [= _ <- <-]). by rewrite Hw.
    + by injection H2 as _ <- <-.
Qed.

Lemma call_coherent k m d m' ws :
  call k m d = Ok (m', ws) -> coherent m d -> dirs_exist d ->
  coherent m' (apply_writes d ws) /\ dirs_exist (apply_writes d ws).
Proof.
  intros Hk Hc Hd. destruct k; simpl in Hk.
  - unfold MarkInitEnd in Hk. destruct (negb _).
    + by apply bind_ok in Hk as (? & _ & (? & _ & [= <- <-])%bind_ok).
    + apply bind_ok in Hk as (ws' & Hw & [= <- <-]).
      by destruct (save_coherent _ _ d Hw Hd) as (?&?&?).
  - apply bind_ok in Hk as ([[m1 o] ws1] & H1 & [= <- <-]).
    unfold MarkPreProcessEnd in H1. destruct cryptor as [key|]; [|by injection H1 as <- _ <-].
    destruct (stage_ltb _ _).
    + apply bind_ok in H1 as (ws' & Hw & [= <- _ <-]).
      assert (dirs_exist (apply_writes d [TruncateKey; WriteKey (take kEccKeySize key)])) as Hd2
        by (destruct d; exact Hd).
      destruct (save_coherent _ _ _ Hw Hd2) as (H1&H2&_). exact (conj H1 H2).
    + by apply bind_ok in H1 as (? & _ & [= <- _ <-]).
  - apply bind_ok in Hk as ([[b m1] ws1] & H1 & [= <- <-]).
    apply MarkOnlineStart_split in H1 as (m2 & Hm2 & H2).
    eapply mark_coherent; [exact H2| |done]. unfold coherent. by rewrite Hm2.
  - by destruct (save_as_coherent _ _ _ _ d Hk Hd) as (?&?&?).
  - by destruct (save_as_coherent _ _ _ _ d Hk Hd) as (?&?&?).
  - by destruct (save_as_coherent _ _ _ _ d Hk Hd) as (?&?&?).
  - by eapply mark_coherent.
  - by eapply mark_coherent.
Qed.

Lemma reachable_coherent d0 m d :
  reachable d0 m d -> coherent m d /\ dirs_exist d.
Proof.
  induction 1.
  - by eapply new_coherent.
  - destruct IHreachable. by eapply call_coherent.
  - by eapply new_coherent.
Qed.

(** C28.  A process that is stopped between two calls and started again resumes
    with the checkpoint it had: in every reachable state the constructor
    returns, loads exactly the checkpoint in memory, and writes nothing. *)
Theorem restart_resumes d0 m d :
  reachable d0 m d ->
  exists m', RecoveryManager_new d = Ok (m', []) /\ checkpoint m' = checkpoint m.
Proof.
  intros [Hc (H1 & H2 & H3 & H4)]%reachable_coherent.
  unfold RecoveryManager_new, LoadRecoveryCheckpointFromFile. rewrite H1, H2, H3, H4. simpl.
  destruct Hc as [[-> ->]|(s & -> & Hs)]; [by eexists|]. rewrite Hs. by eexists.
Qed.

(** ** Stages *)

Lemma stage_ltb_lt a b : stage_ltb a b = true <-> Stage_num a < Stage_num b.
Proof. unfold stage_ltb. lia. Qed.

Lemma mark_stage s m m' ws :
  mark_at_least s m = Ok (m', ws) ->
  Stage_num (stage (checkpoint m')) = Z.max (Stage_num (stage (checkpoint m))) (Stage_num s).
Proof.
  unfold mark_at_least. destruct (stage_ltb _ _) eqn:E.
  - apply stage_ltb_lt in E. unfold save_as. intros (ws' & _ & [= <- _])%bind_ok. simpl. lia.
  - intros [= <- _]. unfold stage_ltb in E. lia.
Qed.

(** ** Entering the online stage *)

(** The two parties' calls of [MarkOnlineStart] over one link: each one's
    [AllGather] returns the records both sent, in rank order. *)
Definition both_online_start (m0 m1 : RecoveryManager)
  : res ((bool * RecoveryManager * list Write) * (bool * RecoveryManager * list Write)) :=
  s0 ← of_option (SerializeToString (internal_record (checkpoint m0)));
  s1 ← of_option (SerializeToString (internal_record (checkpoint m1)));
  r0 ← MarkOnlineStart (Some (mkLctx 2 0 (fun b => Ok [b; s1]))) m0;
  r1 ← MarkOnlineStart (Some (mkLctx 2 1 (fun b => Ok [s0; b]))) m1;
  Ok (r0, r1).

Definition online_finished (m0 m1 : RecoveryManager) : bool :=
  negb (stage_ltb (stage (checkpoint m0)) STAGE_ONLINE_END) &&
  negb (stage_ltb (stage (checkpoint m1)) STAGE_ONLINE_END).

Definition learns (m m' peer : RecoveryManager) : Prop :=
  ecdh_dual_masked_cnt_from_peer m' = ecdh_dual_masked_item_peer_count (checkpoint peer) /\
  parsed_bucket_count_from_peer m' = parsed_bucket_count (checkpoint peer) /\
  Stage_num (stage (checkpoint m')) =
    Z.max (Stage_num (stage (checkpoint m))) (Stage_num STAGE_ONLINE_START).

Lemma online_tail b m1 b' m' ws :
  finish_online_start b m1 = Ok (b', m', ws) ->
  b' = b /\ ecdh_dual_masked_cnt_from_peer m' = ecdh_dual_masked_cnt_from_peer m1 /\
  parsed_bucket_count_from_peer m' = parsed_bucket_count_from_peer m1 /\
  Stage_num (stage (checkpoint m')) =
    Z.max (Stage_num (stage (checkpoint m1))) (Stage_num STAGE_ONLINE_START).
Proof.
  unfold finish_online_start. destruct (stage_ltb _ _) eqn:E.
  - apply stage_ltb_lt in E. intros (ws' & _ & [= <- <- _])%bind_ok. split_and!; try done.
    simpl in *. lia.
  - intros [= <- <- _]. unfold stage_ltb in E. split_and!; try done. lia.
Qed.

(** When the two parties enter the online stage over a link that delivers
    both records, they get the same answer to whether the stage is finished:
    yes exactly when both had finished it; each learns the counts the other
    has checkpointed, and neither one's stage goes back. *)
Theorem MarkOnlineStart_agree m0 m1 b0 m0' w0 b1 m1' w1 :
  both_online_start m0 m1 = Ok ((b0, m0', w0), (b1, m1', w1)) ->
  b0 = online_finished m0 m1 /\ b1 = b0 /\ learns m0 m0' m1 /\ learns m1 m1' m0.
Proof.
  unfold both_online_start, learns, online_finished.
  intros (s0 & Hs0 & (s1 & Hs1 & (r0 & H0 & (r1 & H1 & [= -> ->])%bind_ok)%bind_ok)%bind_ok)%bind_ok.
  apply of_option_ok in Hs0, Hs1.
  unfold MarkOnlineStart in H0, H1. revert H0 H1. cbn -[finish_online_start].
  rewrite Hs0, Hs1. cbn -[finish_online_start].
  rewrite (record_roundtrip _ _ Hs0), (record_roundtrip _ _ Hs1). cbn -[finish_online_start].
  intros (-> & Ha & Hb & Hc)%online_tail (-> & Hd & He & Hf)%online_tail. done.
Qed.

(** ** A crash while the key is saved *)

(** The disk a crash leaves: only the first [n] writes were done. *)
Definition crash (n : nat) (d : Disk) (ws : list Write) : Disk := apply_writes d (take n ws).

(** C37.  [MarkPreProcessEnd] makes four disk writes: two for the private key,
    then two for the checkpoint that promises it.  When the process dies after
    [n] of them and the manager is constructed again:
    - up to the second write the checkpoint is the old one, and the stage is done
      afresh;
    - after the third the checkpoint file is truncated and not yet written, and
      the constructor throws;
    - after the fourth the checkpoint is the new one, the key on disk is complete,
      and a new cryptor gets back the key the old one had. *)
Theorem MarkPreProcessEnd_crash_safe m d key m1 k1 ws key2 :
  coherent m d -> dirs_exist d -> length key = kEccKeySize ->
  stage_ltb (stage (checkpoint m)) STAGE_PRE_PROCESS_END = true ->
  MarkPreProcessEnd (Some key) m d = Ok (m1, k1, ws) ->
  length ws = 4%nat /\
  (forall n, (n <= 2)%nat ->
    exists m2, RecoveryManager_new (crash n d ws) = Ok (m2, []) /\ checkpoint m2 = checkpoint m) /\
  RecoveryManager_new (crash 3 d ws) = Throw /\
  (forall n, (4 <= n)%nat ->
    exists m2, RecoveryManager_new (crash n d ws) = Ok (m2, []) /\ checkpoint m2 = checkpoint m1 /\
      MarkPreProcessEnd (Some key2) m2 (crash n d ws) = Ok (m2, Some key, [])).
Proof.
  intros Hc (H1 & H2 & H3 & H4) Hlen Hst Hm.
  unfold MarkPreProcessEnd in Hm. rewrite Hst in Hm.
  apply bind_ok in Hm as (ws' & (s & Hs%of_option_ok & [= <-])%bind_ok & [= <- _ <-]).
  assert (take kEccKeySize key = key) as Hk by (apply take_ge; lia).
  rewrite Hk. unfold RecoveryManager_new, crash, LoadRecoveryCheckpointFromFile.
  destruct d as [f sc pc bc cf kf]; simpl in *; subst.
  split_and!; [done| | |].
  - intros n Hn. assert (n = 0 \/ n = 1 \/ n = 2)%nat as [->|[->| ->]] by lia; simpl.
    all: destruct Hc as [[Hc1 Hc2]|(s' & Hc1 & Hs')]; simpl in Hc1; subst cf;
      [by rewrite Hc2; eexists|by rewrite Hs'; eexists].
  - by rewrite empty_not_json.
  - intros n Hn. rewrite take_ge by (simpl; lia). simpl. rewrite (json_roundtrip _ _ Hs). simpl.
    eexists. split_and!; [done..|]. unfold SetPrivateKey. simpl. by rewrite bool_decide_true.
Qed.
End recovery.

(** ** The properties at concrete inputs

    A codec that lays the fields out as characters: the configuration is a
    byte, counts are below 256, the digest has at most one byte. *)
Module Toy.
Definition stage_of_num (n : Z) : Stage :=
  if n =? 1 then STAGE_INIT_END else if n =? 2 then STAGE_PRE_PROCESS_END
  else if n =? 3 then STAGE_ONLINE_START else if n =? 4 then STAGE_ONLINE_END
  else if n =? 5 then STAGE_POST_PROCESS_END else STAGE_UNSPECIFIED.
Definition chr (z : Z) : Ascii.ascii := Ascii.ascii_of_N (Z.to_N z).
Definition ord (a : Ascii.ascii) : Z := Z.of_N (Ascii.N_of_ascii a).
Definition byte_ok (z : Z) : bool := (0 <=? z) && (z <? 256).

Definition encode_zs (zs : list Z) : option string :=
  if forallb byte_ok zs then Some (String.string_of_list_ascii (map chr zs)) else None.
Definition decode_zs (s : string) : list Z := map ord (String.list_ascii_of_string s).

Definition to_text (c : RecoveryCheckpoint Z) : option string :=
  let zs := [Stage_num (stage c); config c; ecdh_dual_masked_item_self_count c;
             ecdh_dual_masked_item_peer_count c; parsed_bucket_count c] ++
            input_hash_digest c in
  encode_zs zs.
Definition of_text (s : string) : option (RecoveryCheckpoint Z) :=
  match decode_zs s with
  | st :: cf :: a :: b :: c :: dg => Some (mkCheckpoint (stage_of_num st) cf dg a b c)
  | _ => None
  end.
Definition rec_to_text (r : InternalRecoveryRecord) : option string :=
  let zs := [Stage_num (r_stage r); r_peer_count r; r_bucket_count r] in
  encode_zs zs.
Definition rec_of_text (s : string) : option InternalRecoveryRecord :=
  match decode_zs s with
  | [st; a; b] => Some (mkRecord (stage_of_num st) a b)
  | _ => None
  end.

#[export] Instance lib : ProtoLib Z := {
  default_config := 0; config_Equals := Z.eqb;
  MessageToJsonString := to_text; JsonStringToMessage := of_text;
  SerializeToString := rec_to_text; ParseFromString := rec_of_text }.

Lemma decode_encode zs s : encode_zs zs = Some s -> decode_zs s = zs.
Proof.
  unfold encode_zs, decode_zs. destruct (forallb _ _) eqn:E; [|done].
  intros H. apply (inj Some) in H as <-. rewrite String.list_ascii_of_string_of_list_ascii.
  induction zs as [|z zs IH]; [done|].
  simpl in *. apply andb_prop in E as [Hz Hs]. rewrite IH by done. f_equal.
  unfold byte_ok in Hz. unfold ord, chr. rewrite Ascii.N_ascii_embedding by lia. lia.
Qed.

Lemma stage_num_inv s : stage_of_num (Stage_num s) = s.
Proof. by destruct s. Qed.

#[export] Instance laws : ProtoLaws Z.
Proof.
  split.
  - intros c. apply Z.eqb_refl.
  - intros c s. simpl. unfold to_text, of_text.
    intros ->%decode_encode. simpl. rewrite stage_num_inv. by destruct c.
  - done.
  - intros r s. simpl. unfold rec_to_text, rec_of_text.
    intros ->%decode_encode. simpl. rewrite stage_num_inv. by destruct r.
Qed.

Definition disk0 : Disk := mkDisk false false false false None None.
Definition disk1 : Disk := mkDisk true true true true None None.
Definition mgr0 : RecoveryManager := mkManager empty_checkpoint 0 0.
Definition key0 : list Z := replicate 32 7.
(** The state after construction and one call. *)
Definition at_stage (s : Stage) (peer bucket : Z) : RecoveryManager :=
  mkManager (mkCheckpoint s 9 [5] 0 peer bucket) 0 0.
Definition after (d : Disk) (r : res (@RecoveryManager Z * list Write)) : Disk :=
  match r with Ok (_, ws) => apply_writes d ws | _ => d end.
Definition mgr_of (r : res (@RecoveryManager Z * list Write)) : @RecoveryManager Z :=
  match r with Ok (m, _) => m | _ => mgr0 end.

Lemma reachable_init :
  reachable disk0 (mgr_of (MarkInitEnd 9 [5] mgr0)) (after disk1 (MarkInitEnd 9 [5] mgr0)).
Proof.
  eapply (reach_call disk0 (CInitEnd 9 [5]) mgr0 disk1); [|vm_compute; reflexivity].
  exact (reach_new disk0 mgr0
    [CreateFolder; CreateSelfCache; CreatePeerCache; CreateBucketStore] eq_refl).
Qed.

Lemma restart_resumes_witness :
  exists m', RecoveryManager_new (after disk1 (MarkInitEnd 9 [5] mgr0)) = Ok (m', []) /\
             checkpoint m' = checkpoint (mgr_of (MarkInitEnd 9 [5] mgr0)).
Proof. exact (restart_resumes disk0 _ _ reachable_init). Defined.

Lemma MarkOnlineStart_agree_witness :
  exists b0 m0' w0 b1 m1' w1,
    both_online_start (at_stage STAGE_ONLINE_END 3 0) (at_stage STAGE_INIT_END 4 1)
      = Ok ((b0, m0', w0), (b1, m1', w1)) /\
    b0 = false /\ b1 = b0 /\
    learns (at_stage STAGE_ONLINE_END 3 0) m0' (at_stage STAGE_INIT_END 4 1) /\
    learns (at_stage STAGE_INIT_END 4 1) m1' (at_stage STAGE_ONLINE_END 3 0).
Proof.
  do 6 eexists. split; [vm_compute; reflexivity|].
  eapply (MarkOnlineStart_agree (at_stage STAGE_ONLINE_END 3 0) (at_stage STAGE_INIT_END 4 1)
    false _ _ false).
  vm_compute. reflexivity.
Defined.

(** Saving the key of the first stage, and dying at each point. *)
Lemma MarkPreProcessEnd_crash_safe_witness :
  let m := at_stage STAGE_INIT_END 0 0 in
  let d := after disk1 (save_as mgr0 (checkpoint m)) in
  exists m1 k1 ws,
    MarkPreProcessEnd (Some key0) m d = Ok (m1, k1, ws) /\
    (length ws = 4%nat /\
     (forall n, (n <= 2)%nat ->
       exists m2, RecoveryManager_new (crash n d ws) = Ok (m2, []) /\ checkpoint m2 = checkpoint m) /\
     RecoveryManager_new (crash 3 d ws) = Throw /\
     (forall n, (4 <= n)%nat ->
       exists m2, RecoveryManager_new (crash n d ws) = Ok (m2, []) /\ checkpoint m2 = checkpoint m1 /\
         MarkPreProcessEnd (Some (replicate 32 1)) m2 (crash n d ws) = Ok (m2, Some key0, []))).
Proof.
  do 3 eexists. split; [vm_compute; reflexivity|].
  refine (MarkPreProcessEnd_crash_safe (at_stage STAGE_INIT_END 0 0)
    (after disk1 (save_as mgr0 (checkpoint (at_stage STAGE_INIT_END 0 0)))) key0 _ _ _ (replicate 32 1)
    _ _ eq_refl eq_refl _).
  3: vm_compute; reflexivity.
  - right. eexists. split; vm_compute; reflexivity.
  - split_and!; reflexivity.
Defined.
End Toy.
