(* ===== verification/SpiralArith.v ===== *)
(** * Modular arithmetic of SpiralPIR (psi/algorithm/spiral/arith)

    [arith.h], [number_theory.h] and the constants they precompute.  The routines
    of SEAL and yacl they call are the operations of the class [Lib], whose laws
    [LibLaws] state what those libraries document; [Ref] at the end is an instance
    of both.  The theorems: the hand-written Barrett reductions of 64-bit and
    128-bit words return the exact residue, and [Recenter], [RecenertMod] and
    [Rescale] compute the centred lift, its re-reduction and the rounded
    rescaling without signed overflow. *)
From S2P Require Import Prelude.

(** Signed [int64_t] / [int128_t] arithmetic: leaving the range is undefined. *)
Definition sint (w z : Z) : res Z :=
  if (- 2 ^ (w - 1) <=? z) && (z <? 2 ^ (w - 1)) then Ok z else UB.
Definition s64 (z : Z) : res Z := sint 64 z.
Definition s128 (z : Z) : res Z := sint 128 z.

Lemma sint_ok w z : - 2 ^ (w - 1) <= z < 2 ^ (w - 1) -> sint w z = Ok z.
Proof. intros. unfold sint. by replace (_ && _) with true by lia. Qed.

(** Runs the signed operation at the head of the goal, its range left to [lia]. *)
Ltac sint_step :=
  match goal with
  | |- context [sint ?w ?z ≫= ?k] =>
      rewrite (sint_ok w z) by (let n := eval compute in (w - 1) in change (w - 1) with n; lia)
  end; run.

(** Division of machine words; a zero divisor is undefined. *)
Definition udiv (a b : Z) : res Z := _ ← defined (negb (b =? 0)); Ok (a / b).
Definition umod (a b : Z) : res Z := _ ← defined (negb (b =? 0)); Ok (a mod b).
Definition squot (a b : Z) : res Z := _ ← defined (negb (b =? 0)); Ok (Z.quot a b).
Definition srem (a b : Z) : res Z := _ ← defined (negb (b =? 0)); Ok (Z.rem a b).

(** ** The libraries *)

Class Lib := {
  (* yacl/base/int128.h, yacl/math/gadget.h *)
  MakeUint128 : Z -> Z -> Z;
  DecomposeUInt128 : Z -> Z * Z;
  MakeInt128 : Z -> Z -> Z;
  DecomposeInt128 : Z -> Z * Z;
  Log2Floor : Z -> Z;
  Log2CeilOf : Z -> Z;
  (* seal/util/uintarith.h: low and high word, sum and carry *)
  multiply_uint64_hw64 : Z -> Z -> Z;
  multiply_uint64 : Z -> Z -> Z * Z;
  add_uint64 : Z -> Z -> Z * Z;
  divide_uint192 : Z * Z * Z -> Z -> Z * Z * Z;
  reverse_bits : Z -> Z -> Z;
  (* seal/modulus.h *)
  Modulus : Type;
  Modulus_make : Z -> res Modulus;
  value : Modulus -> Z;
  const_ratio : Modulus -> Z * Z;
  (* seal/util/uintarithsmallmod.h, seal/util/numth.h *)
  exponentiate_uint_mod : Z -> Z -> Modulus -> Z;
  multiply_uint_mod : Z -> Z -> Modulus -> Z;
  div2_uint_mod : Z -> Modulus -> Z;
  try_primitive_root : Z -> Modulus -> option Z;
  try_minimal_primitive_root : Z -> Modulus -> option Z;
  try_invert_uint_mod : Z -> Modulus -> option Z
}.

(** [root^(degree/2) = -1 (mod m)]. *)
Definition primitive_root (root degree m : Z) : Prop :=
  0 < root < m /\ root ^ (degree / 2) mod m = m - 1.

Class LibLaws `{L : Lib} := {
  MakeUint128_eq h l : 0 <= h < 2 ^ 64 -> 0 <= l < 2 ^ 64 -> MakeUint128 h l = h * 2 ^ 64 + l;
  DecomposeUInt128_eq v : 0 <= v < 2 ^ 128 -> DecomposeUInt128 v = (v / 2 ^ 64, v mod 2 ^ 64);
  MakeInt128_eq l : 0 <= l < 2 ^ 64 -> MakeInt128 0 l = l;
  DecomposeInt128_eq v : 0 <= v < 2 ^ 127 -> (DecomposeInt128 v).2 = v mod 2 ^ 64;
  Log2Floor_eq x : 1 <= x < 2 ^ 64 -> Log2Floor x = Z.log2 x;
  Log2CeilOf_eq x : 1 <= x < 2 ^ 64 -> Log2CeilOf x = Z.log2_up x;
  multiply_uint64_hw64_eq a b :
    0 <= a < 2 ^ 64 -> 0 <= b < 2 ^ 64 -> multiply_uint64_hw64 a b = a * b / 2 ^ 64;
  multiply_uint64_eq a b :
    0 <= a < 2 ^ 64 -> 0 <= b < 2 ^ 64 ->
    multiply_uint64 a b = (a * b mod 2 ^ 64, a * b / 2 ^ 64);
  add_uint64_eq a b :
    0 <= a < 2 ^ 64 -> 0 <= b < 2 ^ 64 ->
    add_uint64 a b = ((a + b) mod 2 ^ 64, (a + b) / 2 ^ 64);
  divide_uint192_eq n0 n1 n2 d q0 q1 q2 :
    0 <= n0 < 2 ^ 64 -> 0 <= n1 < 2 ^ 64 -> 0 <= n2 < 2 ^ 64 ->
    0 < d < 2 ^ 64 -> divide_uint192 (n0, n1, n2) d = (q0, q1, q2) ->
    (0 <= q0 < 2 ^ 64 /\ 0 <= q1 < 2 ^ 64 /\ 0 <= q2 < 2 ^ 64) /\
    q0 + q1 * 2 ^ 64 + q2 * 2 ^ 128 = (n0 + n1 * 2 ^ 64 + n2 * 2 ^ 128) / d;
  reverse_bits_spec x w i :
    0 < w <= 64 -> 0 <= x < 2 ^ w -> 0 <= i < w ->
    0 <= reverse_bits x w < 2 ^ w /\
    Z.testbit (reverse_bits x w) i = Z.testbit x (w - 1 - i);
  Modulus_make_ok v : 2 <= v < 2 ^ 61 -> exists m, Modulus_make v = Ok m;
  Modulus_make_inv v m :
    Modulus_make v = Ok m -> value m = v /\ (v = 0 \/ 2 <= v < 2 ^ 61);
  const_ratio_eq m :
    2 <= value m -> const_ratio m = (2 ^ 128 / value m mod 2 ^ 64, 2 ^ 128 / value m / 2 ^ 64);
  exponentiate_uint_mod_eq a e m :
    2 <= value m -> 0 <= a < value m -> 0 <= e < 2 ^ 64 ->
    exponentiate_uint_mod a e m = a ^ e mod value m;
  multiply_uint_mod_eq a b m :
    2 <= value m -> 0 <= a < 2 ^ 64 -> 0 <= b < 2 ^ 64 ->
    multiply_uint_mod a b m = a * b mod value m;
  div2_uint_mod_spec a m :
    2 <= value m -> Z.odd (value m) = true -> 0 <= a < value m ->
    0 <= div2_uint_mod a m < value m /\ (2 * div2_uint_mod a m) mod value m = a;
  try_primitive_root_spec d m r :
    try_primitive_root d m = Some r -> primitive_root r d (value m);
  try_minimal_primitive_root_spec d m r :
    try_minimal_primitive_root d m = Some r -> primitive_root r d (value m);
  try_invert_uint_mod_spec a m r :
    try_invert_uint_mod a m = Some r ->
    0 <= r < value m /\ (a * r) mod value m = 1 mod value m
}.

Definition of_try {A} (o : option A) : res A :=
  match o with Some a => Ok a | None => Throw end.

Definition kMaxModuli : nat := 4.

Section arith.
Context `{L : Lib}.

(** ** arith.h *)

Definition Log2 (a : Z) : Z := Log2Floor a.
Definition Log2Ceil (a : Z) : Z := Log2CeilOf a.

Definition GetBarrettCrs (modulus : Z) : Z * Z :=
  let '(q0, q1, q2) := divide_uint192 (0, 0, 1) modulus in (q0, q1).

Definition GetBarrett (moduli : list Z) : res (list Z * list Z) :=
  for_ (length moduli) (fun i '(cr0, cr1) =>
    m ← vget moduli i;
    let crs := GetBarrettCrs m in
    cr0' ← vset cr0 i crs.1;
    cr1' ← vset cr1 i crs.2;
    Ok (cr0', cr1')) (replicate kMaxModuli 0, replicate kMaxModuli 0).

Definition ExponentitateUintMod (operand exponent modulus : Z) : res Z :=
  mod_ ← Modulus_make modulus; Ok (exponentiate_uint_mod operand exponent mod_).

Definition ReverseBits (x bit_count : Z) : Z :=
  if bit_count =? 0 then 0 else reverse_bits x bit_count.

Definition Div2UintMod (operand : Z) (mod_ : Modulus) : Z := div2_uint_mod operand mod_.

Definition Recenter (val from_modulus to_modulus : Z) : res Z :=
  _ ← enforce (to_modulus <=? from_modulus);
  let from_i64 := i64 from_modulus in
  let to_i64 := i64 to_modulus in
  a0 ← (if from_modulus / 2 <=? val then s64 (i64 val - from_i64) else Ok (i64 val));
  q ← squot from_i64 to_i64;
  p ← s64 (q * to_i64);
  a1 ← s64 (a0 + p);
  d ← s64 (2 * to_i64);
  a2 ← s64 (a1 + d);
  a3 ← srem a2 to_i64;
  Ok (u64 a3).

Definition BarrettRawU64 (input const_ratio_1 modulus : Z) : Z :=
  let tmp := multiply_uint64_hw64 input const_ratio_1 in
  let res := u64 (input - u64 (tmp * modulus)) in
  if modulus <=? res then u64 (res - modulus) else res.

Definition BarrettRawU128 (val cr0 cr1 modulus : Z) : Z :=
  let '(h64, l64) := DecomposeUInt128 val in
  (* round 1 *)
  let carry := multiply_uint64_hw64 l64 cr0 in
  let '(t20, t21) := multiply_uint64 l64 cr1 in
  let '(tmp1, c1) := add_uint64 t20 carry in
  let tmp3 := u64 (t21 + c1) in
  (* round 2 *)
  let '(t20, t21) := multiply_uint64 h64 cr0 in
  let '(tmp1, c2) := add_uint64 tmp1 t20 in
  let carry := u64 (t21 + c2) in
  let tmp1 := u64 (u64 (u64 (h64 * cr1) + tmp3) + carry) in
  (* reduction *)
  u64 (l64 - u64 (tmp1 * modulus)).

Definition BarrettReductionU128Raw (val cr0 cr1 modulus : Z) : Z :=
  let reduced_val := BarrettRawU128 val cr0 cr1 modulus in
  u64 (reduced_val - modulus * b2z (modulus <=? reduced_val)).

Definition RecenertMod (val small_modulus large_modulus : Z) : res Z :=
  _ ← enforce (val <? small_modulus);
  let small_i64 := i64 small_modulus in
  let large_i64 := i64 large_modulus in
  v1 ← (if Z.quot small_i64 2 <? i64 val then s64 (i64 val - small_i64) else Ok (i64 val));
  v2 ← (if v1 <? 0 then s64 (v1 + large_i64) else Ok v1);
  Ok (u64 v2).

Definition Rescale (a in_mod out_mod : Z) : res Z :=
  let in_mod_i64 := i64 in_mod in
  let in_mod_i128 := MakeInt128 0 in_mod in
  let out_mod_i128 := MakeInt128 0 out_mod in
  a_in ← umod a in_mod;
  let in_val := i64 a_in in
  in_val ← (if Z.quot in_mod_i64 2 <=? in_val then s64 (in_val - in_mod_i64) else Ok in_val);
  let sign := if 0 <=? in_val then 1 else -1 in
  val ← s128 (in_val * out_mod_i128);
  h ← s64 (sign * Z.quot in_mod_i64 2);
  sum ← s128 (val + h);
  result ← squot sum in_mod_i128;
  io ← udiv in_mod out_mod;
  let tmp := MakeInt128 0 (u64 (io * out_mod)) in
  r1 ← s128 (result + tmp);
  d ← s128 (2 * out_mod_i128);
  r2 ← s128 (r1 + d);
  result ← srem r2 out_mod_i128;
  _ ← enforce (0 <=? result);
  r3 ← s128 (result + out_mod_i128);
  result ← srem r3 out_mod_i128;
  Ok ((DecomposeInt128 result).2).

(** The overload over a [uint64_t] modulus, and the one over its Barrett
    constants. *)
Definition MultiplyUintMod (a b modulus : Z) : res Z :=
  mod_ ← Modulus_make modulus; Ok (multiply_uint_mod a b mod_).

Definition MultiplyUintModBarrett (a b modulus barrett_cr0 barrett_cr1 : Z) : Z :=
  let '(z0, z1) := multiply_uint64 a b in
  BarrettReductionU128Raw (MakeUint128 z1 z0) barrett_cr0 barrett_cr1 modulus.

Definition UintNum (len uint_len : Z) : res Z :=
  udiv (u64 (u64 (len + uint_len) - 1)) uint_len.

(** ** number_theory.h *)

Definition IsPrimitiveRoot (root degree modulus : Z) : res bool :=
  if root =? 0 then Ok false
  else e ← ExponentitateUintMod root (Z.shiftr degree 1) modulus;
       Ok (e =? u64 (modulus - 1)).

Definition GetPrimitiveRoot (degree modulus : Z) : res Z :=
  _ ← enforce (1 <? modulus);
  _ ← enforce (2 <=? degree);
  mod_ ← Modulus_make modulus;
  of_try (try_primitive_root degree mod_).

(** The overloads over a [seal::Modulus], then over its value. *)
Definition GetMinimalPrimitiveRoot (degree : Z) (mod_ : Modulus) : res Z :=
  of_try (try_minimal_primitive_root degree mod_).
Definition GetMinimalPrimitiveRoot_u64 (degree modulus : Z) : res Z :=
  mod_ ← Modulus_make modulus; of_try (try_minimal_primitive_root degree mod_).

Definition InvertUintMod (val : Z) (mod_ : Modulus) : res Z :=
  _ ← enforce (0 <? val); of_try (try_invert_uint_mod val mod_).
Definition InvertUintMod_u64 (val modulus : Z) : res Z :=
  _ ← enforce (0 <? val);
  mod_ ← Modulus_make modulus; of_try (try_invert_uint_mod val mod_).
End arith.

(** ** Barrett reduction *)
Section barrett.
Context `{LL : LibLaws}.

(** The two ways of cutting a double-width product agree. *)
Lemma mulhi_split x0 x1 c0 c1 B :
  0 < B ->
  (x1 * B + x0) * (c1 * B + c0) / (B * B) =
  x1 * c1 + (x0 * c1 / B + (x0 * c1 mod B + x0 * c0 / B) / B) +
  (x1 * c0 / B + ((x0 * c1 mod B + x0 * c0 / B) mod B + x1 * c0 mod B) / B).
Proof.
  intros HB. rewrite <- Z.div_div by lia.
  replace ((x1 * B + x0) * (c1 * B + c0))
    with (x0 * c0 + (x1 * c1 * B + x0 * c1 + x1 * c0) * B) by ring.
  rewrite Z.div_add by lia.
  set (A := x0 * c0 / B).
  replace (A + (x1 * c1 * B + x0 * c1 + x1 * c0)) with ((A + x0 * c1 + x1 * c0) + (x1 * c1) * B)
    by ring.
  rewrite Z.div_add by lia.
  set (P := x0 * c1). set (Q := x1 * c0).
  rewrite (Z.div_mod P B) at 1 by lia. rewrite (Z.div_mod Q B) at 1 by lia.
  replace (A + (B * (P / B) + P mod B) + (B * (Q / B) + Q mod B))
    with (((P mod B + A) + Q mod B) + (P / B + Q / B) * B) by ring.
  rewrite Z.div_add by lia.
  rewrite (Z.div_mod (P mod B + A) B) at 1 by lia.
  replace (B * ((P mod B + A) / B) + (P mod B + A) mod B + Q mod B)
    with ((P mod B + A) mod B + Q mod B + ((P mod B + A) / B) * B) by ring.
  rewrite Z.div_add by lia. ring.
Qed.

Lemma BarrettRawU128_quot v cr0 cr1 m :
  0 <= v < 2 ^ 128 -> 0 <= cr0 < 2 ^ 64 -> 0 <= cr1 < 2 ^ 64 ->
  BarrettRawU128 v cr0 cr1 m = u64 (v - v * (cr0 + cr1 * 2 ^ 64) / 2 ^ 128 * m).
Proof.
  intros Hv H0 H1. unfold BarrettRawU128.
  rewrite DecomposeUInt128_eq by done.
  assert (0 <= v / 2 ^ 64 < 2 ^ 64) as Hh by (zdm; lia).
  assert (0 <= v mod 2 ^ 64 < 2 ^ 64) as Hl by (apply Z.mod_pos_bound; lia).
  assert (v = v / 2 ^ 64 * 2 ^ 64 + v mod 2 ^ 64) as Ev by (zdm; lia).
  set (x1 := v / 2 ^ 64) in *. set (x0 := v mod 2 ^ 64) in *. clearbody x1 x0. subst v.
  rewrite multiply_uint64_hw64_eq, !multiply_uint64_eq by done.
  cbn [fst snd].
  assert (0 <= x0 * cr0 / 2 ^ 64 < 2 ^ 64) as HA
    by (split; [apply Z.div_pos; nia|apply Z.div_lt_upper_bound; nia]).
  rewrite add_uint64_eq by (try done; apply Z.mod_pos_bound; lia).
  rewrite add_uint64_eq by (apply Z.mod_pos_bound; lia).
  unfold u64. autorewrite with wrap.
  replace (cr0 + cr1 * 2 ^ 64) with (cr1 * 2 ^ 64 + cr0) by ring.
  change (2 ^ 128) with (2 ^ 64 * 2 ^ 64). rewrite mulhi_split by lia.
  set (s1 := x1 * cr1 + _). set (s2 := x1 * cr0 / _ + _).
  rewrite (wrap_sub_div 64 s1), (wrap_sub_div 64 s2) by lia.
  apply (wrap_congr 64 _ _ ((s1 / 2 ^ 64 + s2 / 2 ^ 64) * m - x1)); [lia|ring].
Qed.

(** The precomputed ratio: the two low words of [2^128 / m]. *)
Lemma GetBarrettCrs_eq m :
  2 <= m < 2 ^ 64 ->
  exists cr0 cr1, GetBarrettCrs m = (cr0, cr1) /\
    0 <= cr0 < 2 ^ 64 /\ 0 <= cr1 < 2 ^ 64 /\
    cr0 + cr1 * 2 ^ 64 = 2 ^ 128 / m /\ cr1 = 2 ^ 64 / m.
Proof.
  intros Hm. unfold GetBarrettCrs.
  destruct (divide_uint192 _ _) as [[q0 q1] q2] eqn:E.
  apply divide_uint192_eq in E as [(H0 & H1 & H2) HE]; [|lia..].
  replace (0 + 0 * 2 ^ 64 + 1 * 2 ^ 128) with (2 ^ 128) in HE by lia.
  assert (2 ^ 128 / m < 2 ^ 128) as Hlt by (apply Z.div_lt; lia).
  assert (q2 = 0) as -> by lia.
  exists q0, q1. split_and!; try lia; try done.
  replace (2 ^ 64) with (2 ^ 128 / 2 ^ 64) at 1 by done.
  rewrite Z.div_div, Z.mul_comm, <- Z.div_div by lia. rewrite <- HE.
  symmetry. replace (q0 + q1 * 2 ^ 64 + 0 * 2 ^ 128) with (q0 + q1 * 2 ^ 64) by ring.
  rewrite Z.div_add, Z.div_small by lia. lia.
Qed.

(** The quotient estimate from a truncated reciprocal is at most one too small. *)
Lemma barrett_estimate v m k :
  0 <= v <= k -> 0 < m -> 0 <= v - v * (k / m) / k * m < 2 * m.
Proof.
  intros Hv Hm. destruct (decide (k = 0)) as [->|Hk].
  { replace v with 0 by lia. rewrite Zdiv_0_l. simpl. lia. }
  set (r := k / m). assert (k - m < r * m <= k) as Hr by (subst r; zdm; nia).
  set (q := v * r / k). assert (q * k <= v * r < q * k + k) as Hq by (subst q; zdm; nia).
  split.
  - assert (q * k * m <= v * r * m) by (apply Z.mul_le_mono_nonneg_r; lia).
    assert (v * (r * m) <= v * k) by (apply Z.mul_le_mono_nonneg_l; lia). nia.
  - assert (v * r * m < (q * k + k) * m) by (apply Z.mul_lt_mono_pos_r; lia).
    assert (v * (k - m) <= v * (r * m)) by (apply Z.mul_le_mono_nonneg_l; lia).
    assert (v * m <= k * m) by (apply Z.mul_le_mono_nonneg_r; lia).
    clearbody r q. assert ((v - q * m) * k < 2 * m * k) by nia. nia.
Qed.

Lemma reduce_once x m r : 0 <= r < 2 * m -> x mod m = r mod m ->
  r - m * b2z (m <=? r) = x mod m.
Proof.
  intros Hr ->. destruct (m <=? r) eqn:E; simpl.
  - rewrite Z.mul_1_r. replace r with (r - m + 1 * m) at 2 by ring.
    rewrite Z.mod_add, Z.mod_small by lia. done.
  - rewrite Z.mul_0_r, Z.sub_0_r, Z.mod_small by lia. done.
Qed.

(** The reduction for any correct pair of constants. *)
Lemma BarrettReductionU128Raw_mod v cr0 cr1 m :
  0 <= v < 2 ^ 128 -> 2 <= m <= 2 ^ 63 -> 0 <= cr0 < 2 ^ 64 -> 0 <= cr1 < 2 ^ 64 ->
  cr0 + cr1 * 2 ^ 64 = 2 ^ 128 / m ->
  BarrettReductionU128Raw v cr0 cr1 m = v mod m /\
  0 <= BarrettRawU128 v cr0 cr1 m < 2 * m.
Proof.
  intros Hv Hm H0 H1 HE.
  unfold BarrettReductionU128Raw. rewrite BarrettRawU128_quot by done. rewrite HE.
  pose proof (barrett_estimate v m (2 ^ 128) ltac:(lia) ltac:(lia)) as Hb.
  set (r := v - v * (2 ^ 128 / m) / 2 ^ 128 * m) in *.
  rewrite (u64_small r) by lia. split; [|exact Hb].
  rewrite (reduce_once v m r Hb).
  - apply u64_small. pose proof (Z.mod_pos_bound v m ltac:(lia)). lia.
  - subst r. rewrite Zminus_mod, Z.mod_mul by lia.
    by rewrite Z.sub_0_r, Z.mod_mod by lia.
Qed.

(** C33.  With the constants [GetBarrettCrs] computes, the 128-bit Barrett
    reduction returns the exact residue of every 128-bit word, for every modulus
    from 2 to 2^63, and the lazy reduction is below twice the modulus. *)
Theorem BarrettReductionU128Raw_correct v m :
  0 <= v < 2 ^ 128 -> 2 <= m <= 2 ^ 63 ->
  let (cr0, cr1) := GetBarrettCrs m in
  BarrettReductionU128Raw v cr0 cr1 m = v mod m /\
  0 <= BarrettRawU128 v cr0 cr1 m < 2 * m.
Proof.
  intros Hv Hm. destruct (GetBarrettCrs_eq m) as (cr0 & cr1 & -> & H0 & H1 & HE & _); [lia|].
  destruct (BarrettReductionU128Raw_mod v cr0 cr1 m Hv Hm H0 H1 HE). done.
Qed.

(** The 64-bit reduction, over the high word of the ratio. *)
Lemma BarrettRawU64_mod x cr1 m :
  0 <= x < 2 ^ 64 -> 2 <= m <= 2 ^ 63 -> cr1 = 2 ^ 64 / m ->
  BarrettRawU64 x cr1 m = x mod m.
Proof.
  intros Hx Hm ->. unfold BarrettRawU64.
  assert (0 <= 2 ^ 64 / m < 2 ^ 64) by (split; [apply Z.div_pos; lia|apply Z.div_lt; lia]).
  rewrite multiply_uint64_hw64_eq by lia.
  pose proof (barrett_estimate x m (2 ^ 64) ltac:(lia) ltac:(lia)) as Hb.
  set (r := x - x * (2 ^ 64 / m) / 2 ^ 64 * m) in *.
  assert (u64 (x - u64 (x * (2 ^ 64 / m) / 2 ^ 64 * m)) = r) as ->
    by (unfold u64; rewrite wrap_sub_r; apply u64_small; lia).
  pose proof (reduce_once x m r Hb) as Hr. rewrite <- Hr.
  - destruct (m <=? r) eqn:E; simpl; [rewrite u64_small by lia|]; lia.
  - subst r. rewrite Zminus_mod, Z.mod_mul by lia.
    by rewrite Z.sub_0_r, Z.mod_mod by lia.
Qed.

(** The 64-bit Barrett reduction returns the exact residue of every 64-bit
    word for every modulus from 2 to 2^63. *)
Theorem BarrettRawU64_correct x m :
  0 <= x < 2 ^ 64 -> 2 <= m <= 2 ^ 63 ->
  let (_, cr1) := GetBarrettCrs m in BarrettRawU64 x cr1 m = x mod m.
Proof.
  intros Hx Hm. destruct (GetBarrettCrs_eq m) as (cr0 & cr1 & -> & _ & _ & _ & HE); [lia|].
  by apply BarrettRawU64_mod.
Qed.

(** The 128-bit product route of [MultiplyUintMod]. *)
Lemma MultiplyUintModBarrett_mod a b m :
  0 <= a < 2 ^ 64 -> 0 <= b < 2 ^ 64 -> 2 <= m <= 2 ^ 63 ->
  let (cr0, cr1) := GetBarrettCrs m in
  MultiplyUintModBarrett a b m cr0 cr1 = a * b mod m.
Proof.
  intros Ha Hb Hm. pose proof (GetBarrettCrs_eq m ltac:(lia)) as (cr0 & cr1 & HG & H0 & H1 & HE & _).
  rewrite HG. unfold MultiplyUintModBarrett. rewrite multiply_uint64_eq by done.
  assert (0 <= a * b < 2 ^ 128) as Hab by (change (2 ^ 128) with (2 ^ 64 * 2 ^ 64); nia).
  rewrite MakeUint128_eq; [|split; [zdm; lia|apply Z.div_lt_upper_bound; nia]|apply Z.mod_pos_bound; lia].
  replace (a * b / 2 ^ 64 * 2 ^ 64 + (a * b) mod 2 ^ 64) with (a * b) by (zdm; lia).
  by apply (BarrettReductionU128Raw_mod (a * b) cr0 cr1 m).
Qed.
End barrett.

(** ** Centred representatives *)

Lemma i64_small z : 0 <= z < 2 ^ 63 -> i64 z = z.
Proof.
  intros. unfold i64, to_signed. rewrite wrap_small by (unfold in_u; lia).
  change (64 - 1) with 63. by replace (z <? 2 ^ 63) with true by lia.
Qed.

(** The representative [Recenter] and [Rescale] choose: [v - q] from [q/2] on. *)
Definition centre (v q : Z) : Z := v - q * b2z (q / 2 <=? v).

Lemma centre_bounds v q : 0 <= v < q -> - (q + 1) <= 2 * centre v q < q.
Proof.
  intros H. unfold centre. destruct (q / 2 <=? v) eqn:E; simpl; zdm; lia.
Qed.

Section centred.
Context `{LL : LibLaws}.

(** [Recenter] returns, reduced modulo the new modulus, the centred
    representative of a residue, and no signed operation overflows, for moduli
    below 2^61. *)
Theorem Recenter_correct v from to :
  0 <= v < from -> 0 < to <= from -> from < 2 ^ 61 ->
  Recenter v from to = Ok (centre v from mod to).
Proof.
  intros Hv Ht Hf. unfold Recenter. replace (to <=? from) with true by lia. run.
  rewrite !i64_small by lia.
  assert ((if from / 2 <=? v then s64 (v - from) else Ok v) = Ok (centre v from)) as ->.
  { unfold centre. destruct (_ <=? _); simpl; [unfold s64; rewrite sint_ok by lia|]; f_equal; lia. }
  pose proof (centre_bounds v from Hv) as Hc. set (c := centre v from) in *.
  destruct (div_mul_bounds from to) as [Hq1 Hq2]; [lia..|].
  run. unfold squot, srem, s64. rewrite !Z.quot_div_nonneg by lia.
  replace (to =? 0) with false by lia. run.
  do 4 (rewrite sint_ok by lia; run).
  rewrite Z.rem_mod_nonneg by lia.
  replace (c + from / to * to + 2 * to) with (c + (from / to + 2) * to) by ring.
  rewrite Z.mod_add by lia. f_equal. apply u64_small.
  pose proof (Z.mod_pos_bound c to ltac:(lia)). lia.
Qed.

(** [RecenertMod] takes a residue of the small modulus to the residue of the
    large one with the same centred representative, and rejects values out of
    range. *)
Theorem RecenertMod_correct v small large :
  0 <= v < 2 ^ 64 -> 0 < small <= large -> large < 2 ^ 63 ->
  RecenertMod v small large =
    if v <? small
    then Ok ((v - small * b2z (small / 2 <? v)) mod large) else Throw.
Proof.
  intros Hv Hs Hl. unfold RecenertMod. destruct (v <? small) eqn:E; [|done]. run.
  rewrite !i64_small by lia. rewrite Z.quot_div_nonneg by lia.
  destruct (small / 2 <? v) eqn:E2; unfold s64; simpl b2z.
  - rewrite sint_ok by lia. run. replace (v - small <? 0) with true by lia.
    rewrite sint_ok by lia. run. f_equal.
    replace (v - small * 1) with (v - small + large + (-1) * large) by ring.
    rewrite Z.mod_add, Z.mod_small, u64_small by lia. done.
  - run. replace (v <? 0) with false by lia. run. f_equal.
    rewrite Z.mul_0_r, Z.sub_0_r, Z.mod_small, u64_small by lia. done.
Qed.

(** Division rounding half away from zero, as the signed quotient computes it. *)
Lemma round_quot x q :
  0 < q -> 2 * Z.abs (Z.quot (x + (if 0 <=? x then 1 else -1) * (q / 2)) q * q - x) <= q.
Proof.
  intros Hq. destruct (0 <=? x) eqn:E.
  - rewrite Z.quot_div_nonneg by (zdm; lia). zdm; nia.
  - replace (x + -1 * (q / 2)) with (- (- x + q / 2)) by ring.
    rewrite Z.quot_opp_l, Z.quot_div_nonneg by (zdm; lia). zdm; nia.
Qed.

(** [Rescale] returns the integer nearest to [(a mod in) * out / in], reduced
    modulo [out]; neither its 64-bit nor its 128-bit signed arithmetic overflows
    and its final check never fails. *)
Theorem Rescale_correct a in_mod out_mod :
  0 <= a < 2 ^ 64 -> 0 < in_mod < 2 ^ 62 -> 0 < out_mod < 2 ^ 62 ->
  exists r, Rescale a in_mod out_mod = Ok (r mod out_mod) /\
    2 * Z.abs (r * in_mod - (a mod in_mod) * out_mod) <= in_mod.
Proof.
  intros Ha Hi Ho. unfold Rescale, umod, udiv.
  replace (in_mod =? 0) with false by lia. replace (out_mod =? 0) with false by lia. run.
  pose proof (Z.mod_pos_bound a in_mod ltac:(lia)) as Hm.
  rewrite !i64_small by lia. rewrite Z.quot_div_nonneg by lia.
  set (v := a mod in_mod) in *.
  assert ((if in_mod / 2 <=? v then s64 (v - in_mod) else Ok v) = Ok (centre v in_mod)) as ->.
  { unfold centre. destruct (_ <=? _); simpl; [unfold s64; rewrite sint_ok by lia|]; f_equal; lia. }
  pose proof (centre_bounds v in_mod Hm) as Hc.
  assert (exists k, v = centre v in_mod + k * in_mod) as [k Hk].
  { exists (b2z (in_mod / 2 <=? v)). unfold centre. ring. }
  set (c := centre v in_mod) in *. clearbody c v. run.
  destruct (div_mul_bounds in_mod out_mod) as [Hio _]; [lia..|].
  rewrite (u64_small (in_mod / out_mod * out_mod)) by lia.
  rewrite !MakeInt128_eq by lia.
  assert (0 <= in_mod / 2 /\ 2 * (in_mod / 2) <= in_mod) as Hh by (zdm; lia).
  assert (- (in_mod + 1) * out_mod <= 2 * (c * out_mod) <= in_mod * out_mod) as Hco by nia.
  assert (in_mod * out_mod < 2 ^ 124) as Hprod by (change (2 ^ 124) with (2 ^ 62 * 2 ^ 62); nia).
  unfold s128, s64, squot, srem.
  replace (in_mod =? 0) with false by lia. replace (out_mod =? 0) with false by lia.
  assert ((0 <=? c) = (0 <=? c * out_mod)) as -> by (destruct (0 <=? c) eqn:E; symmetry; nia).
  pose proof (round_quot (c * out_mod) in_mod ltac:(lia)) as Hr.
  set (sg := if 0 <=? c * out_mod then 1 else -1) in *.
  assert (sg = 1 \/ sg = -1) as Hsg by (subst sg; destruct (_ <=? _); auto). clearbody sg.
  assert (-1 * (in_mod / 2) <= sg * (in_mod / 2) <= in_mod / 2) as Hsh by (destruct Hsg; subst; lia).
  do 3 sint_step. set (r := Z.quot _ in_mod) in *. clearbody r.
  assert (- (2 * out_mod + 1) <= 2 * r <= out_mod + 1) as Hrb by (clear - Hr Hco Hi Ho; nia).
  do 3 sint_step.
  rewrite Z.rem_mod_nonneg by lia.
  replace (r + in_mod / out_mod * out_mod + 2 * out_mod)
    with (r + (in_mod / out_mod + 2) * out_mod) by ring.
  rewrite Z.mod_add by lia. pose proof (Z.mod_pos_bound r out_mod ltac:(lia)) as Hrm.
  replace (0 <=? r mod out_mod) with true by lia. run. sint_step.
  rewrite Z.rem_mod_nonneg by lia.
  replace (r mod out_mod + out_mod) with (r mod out_mod + 1 * out_mod) by ring.
  rewrite Z.mod_add, Z.mod_mod by lia. rewrite DecomposeInt128_eq by lia.
  rewrite (Z.mod_small (r mod out_mod)) by lia.
  exists (r + k * out_mod). rewrite Z.mod_add by lia. split; [done|].
  replace ((r + k * out_mod) * in_mod - v * out_mod) with (r * in_mod - c * out_mod)
    by (rewrite Hk; ring). done.
Qed.
End centred.

(** ** A reference instance of the libraries *)
Module Ref.

Fixpoint rev_bits (n : nat) (x : Z) : Z :=
  match n with
  | O => 0
  | S n' => rev_bits n' (x / 2) + b2z (Z.odd x) * 2 ^ Z.of_nat n'
  end.

Lemma rev_bits_spec n x :
  0 <= rev_bits n x < 2 ^ Z.of_nat n /\
  forall i, 0 <= i < Z.of_nat n ->
    Z.testbit (rev_bits n x) i = Z.testbit x (Z.of_nat n - 1 - i).
Proof.
  revert x. induction n as [|n IH]; intros x; [cbn; split; [lia|intros; lia]|].
  destruct (IH (x / 2)) as [Hr Hb]. cbn [rev_bits].
  rewrite Nat2Z.inj_succ, Z.pow_succ_r by lia. split.
  { unfold b2z. destruct (Z.odd x); lia. }
  intros i Hi. rewrite <- lor_shiftl_add, Z.lor_spec, Z.shiftl_spec by lia.
  destruct (decide (i = Z.of_nat n)) as [->|Hne].
  - replace (Z.succ (Z.of_nat n) - 1 - Z.of_nat n) with 0 by lia.
    rewrite Z.sub_diag, (Z.bit0_odd (b2z _)).
    replace (Z.testbit (rev_bits n (x / 2)) (Z.of_nat n)) with false.
    + rewrite Z.bit0_odd. by destruct (Z.odd x).
    + symmetry. apply (testbit_high _ (Z.of_nat n)); lia.
  - rewrite Hb by lia. rewrite (Z.testbit_neg_r (b2z _)) by lia. rewrite orb_false_r.
    replace (x / 2) with (Z.shiftr x 1) by (by rewrite Z.shiftr_div_pow2).
    rewrite Z.shiftr_spec by lia. f_equal. lia.
Qed.

(** The least [r] in [1, m) that passes a test. *)
Definition search (p : Z -> bool) (m : Z) : option Z :=
  List.find p (seqZ 1 (m - 1)).

Lemma search_spec p m r : search p m = Some r -> 0 < r < m /\ p r = true.
Proof.
  unfold search. intros [Hin%list_elem_of_In Hp]%List.find_some.
  apply elem_of_seqZ in Hin. split; [lia|done].
Qed.

#[export] Instance lib : Lib := {
  MakeUint128 h l := h * 2 ^ 64 + l;
  DecomposeUInt128 v := (v / 2 ^ 64, v mod 2 ^ 64);
  MakeInt128 h l := h * 2 ^ 64 + l;
  DecomposeInt128 v := (v / 2 ^ 64, v mod 2 ^ 64);
  Log2Floor := Z.log2;
  Log2CeilOf := Z.log2_up;
  multiply_uint64_hw64 a b := a * b / 2 ^ 64;
  multiply_uint64 a b := (a * b mod 2 ^ 64, a * b / 2 ^ 64);
  add_uint64 a b := ((a + b) mod 2 ^ 64, (a + b) / 2 ^ 64);
  divide_uint192 n d :=
    let q := (n.1.1 + n.1.2 * 2 ^ 64 + n.2 * 2 ^ 128) / d in
    (q mod 2 ^ 64, q / 2 ^ 64 mod 2 ^ 64, q / 2 ^ 128 mod 2 ^ 64);
  reverse_bits x w := rev_bits (Z.to_nat w) x;
  Modulus := Z;
  Modulus_make v := if (v =? 0) || ((2 <=? v) && (v <? 2 ^ 61)) then Ok v else Throw;
  value m := m;
  const_ratio m := (2 ^ 128 / m mod 2 ^ 64, 2 ^ 128 / m / 2 ^ 64);
  exponentiate_uint_mod a e m := a ^ e mod m;
  multiply_uint_mod a b m := a * b mod m;
  div2_uint_mod a m := if Z.odd a then (a + m) / 2 else a / 2;
  try_primitive_root d m := search (fun r => r ^ (d / 2) mod m =? m - 1) m;
  try_minimal_primitive_root d m := search (fun r => r ^ (d / 2) mod m =? m - 1) m;
  try_invert_uint_mod a m := search (fun r => (a * r) mod m =? 1 mod m) m
}.

Lemma three_words q :
  0 <= q < 2 ^ 192 ->
  q mod 2 ^ 64 + q / 2 ^ 64 mod 2 ^ 64 * 2 ^ 64 + q / 2 ^ 128 mod 2 ^ 64 * 2 ^ 128 = q.
Proof.
  intros Hq. change (2 ^ 128) with (2 ^ 64 * 2 ^ 64). rewrite <- Z.div_div by lia.
  rewrite (Z.mod_small (q / 2 ^ 64 / 2 ^ 64)).
  - pose proof (Z.div_mod q (2 ^ 64) ltac:(lia)).
    pose proof (Z.div_mod (q / 2 ^ 64) (2 ^ 64) ltac:(lia)). lia.
  - split; [apply Z.div_pos; [apply Z.div_pos|]; lia|].
    rewrite Z.div_div by lia. apply Z.div_lt_upper_bound; lia.
Qed.

Lemma half_mod a m : 2 <= m -> Z.odd m = true -> 0 <= a < m ->
  let h := if Z.odd a then (a + m) / 2 else a / 2 in 0 <= h < m /\ (2 * h) mod m = a.
Proof.
  intros Hm Ho Ha. rewrite Zodd_mod in Ho. apply Z.eqb_eq in Ho.
  rewrite Zodd_mod. destruct (Z.eqb_spec (a mod 2) 1) as [E|E]; cbv zeta.
  - assert (2 * ((a + m) / 2) = a + m) as E2 by (zdm; lia).
    split; [zdm; lia|]. rewrite E2. replace (a + m) with (a + 1 * m) by ring.
    rewrite Z.mod_add by lia. by apply Z.mod_small.
  - assert (2 * (a / 2) = a) as E2 by (zdm; lia).
    split; [zdm; lia|]. rewrite E2. by apply Z.mod_small.
Qed.

Lemma search_root d m r :
  search (fun r => r ^ (d / 2) mod m =? m - 1) m = Some r -> primitive_root r d m.
Proof. intros [? ?%Z.eqb_eq]%search_spec. by split. Qed.

#[export] Instance laws : LibLaws.
Proof.
  split; try done.
  - intros n0 n1 n2 d q0 q1 q2 H0 H1 H2 Hd [= <- <- <-]. cbn [fst snd].
    split; [split_and!; apply Z.mod_pos_bound; lia|]. apply three_words.
    split; [apply Z.div_pos; lia|]. apply Z.div_lt_upper_bound; nia.
  - intros x w i Hw Hx Hi. cbn. destruct (rev_bits_spec (Z.to_nat w) x) as [Hr Hb].
    rewrite Z2Nat.id in Hr, Hb by lia. auto.
  - intros v Hv. cbn. replace (_ || _) with true by lia. eauto.
  - intros v m. cbn. destruct (_ || _) eqn:E; [|done]. intros [= <-]. split; [done|lia].
  - intros a m Hm Ho Ha. cbn in *. by apply half_mod.
  - intros d m r. apply search_root.
  - intros d m r. apply search_root.
  - intros a m r [? ?%Z.eqb_eq]%search_spec. cbn in *. split; [lia|done].
Qed.
End Ref.

(** ** The properties at concrete inputs *)
Import Ref.

(** The product of the two moduli of the default parameters, 56 bits. *)
Definition modulus_ex : Z := 268369921 * 249561089.

Lemma BarrettReductionU128Raw_correct_witness :
  let (cr0, cr1) := GetBarrettCrs modulus_ex in
  BarrettReductionU128Raw (2 ^ 128 - 1) cr0 cr1 modulus_ex = (2 ^ 128 - 1) mod modulus_ex /\
  0 <= BarrettRawU128 (2 ^ 128 - 1) cr0 cr1 modulus_ex < 2 * modulus_ex.
Proof. apply (BarrettReductionU128Raw_correct (2 ^ 128 - 1) modulus_ex);
  vm_compute; split; discriminate || reflexivity.
Defined.

Lemma BarrettRawU64_correct_witness :
  let (_, cr1) := GetBarrettCrs 268369921 in
  BarrettRawU64 (2 ^ 64 - 1) cr1 268369921 = (2 ^ 64 - 1) mod 268369921.
Proof. apply (BarrettRawU64_correct (2 ^ 64 - 1) 268369921); lia. Defined.

Lemma Recenter_correct_witness : Recenter 16 17 5 = Ok (centre 16 17 mod 5).
Proof. apply (Recenter_correct 16 17 5); lia. Defined.

Lemma RecenertMod_correct_witness :
  RecenertMod 15 17 100 = if 15 <? 17 then Ok ((15 - 17 * b2z (17 / 2 <? 15)) mod 100) else Throw.
Proof. apply (RecenertMod_correct 15 17 100); lia. Defined.

Lemma Rescale_correct_witness :
  exists r, Rescale (2 ^ 63) modulus_ex 256 = Ok (r mod 256) /\
    2 * Z.abs (r * modulus_ex - (2 ^ 63 mod modulus_ex) * 256) <= modulus_ex.
Proof. apply (Rescale_correct (2 ^ 63) modulus_ex 256);
  vm_compute; split; discriminate || reflexivity.
Defined.
