(* ===== verification/NttTable.v ===== *)
(** * The NTT tables of SpiralPIR (psi/algorithm/spiral/arith/ntt_table.{h,cc})

    [BuildNttTables] makes, for every modulus, four tables of [poly_len] words:
    the powers of a primitive root in bit-reversed order, the halved powers of its
    inverse, and for both Shoup's 32-bit quotients.  The lemmas give each entry;
    [table_ok] is what the transforms need of them. *)
From S2P Require Import Prelude SpiralArith.

(** [1 << k] on [int], converted to [size_t]. *)
Definition int_shl (k : Z) : res Z :=
  if (0 <=? k) && (k <? 31) then Ok (Z.shiftl 1 k)
  else if k =? 31 then Ok (2 ^ 64 - 2 ^ 31) else UB.

Section tables.
Context `{L : Lib}.

(** [scaled_powers[i] = (uint32_t)((in[i] << 32) / modulus)]. *)
Definition ScalePowersU32 (modulus : Z) (poly_len : nat) (inp : list Z) : res (list Z) :=
  for_ poly_len (fun i scaled_powers =>
    x ← vget inp i;
    let wide_val := u64 (Z.shiftl x 32) in
    quotient ← udiv wide_val modulus;
    vset scaled_powers i (u32 quotient)) (replicate poly_len 0).

Definition PowersOfPrimitiveRoot (root : Z) (mod_ : Modulus) (poly_len_log2 : Z)
  : res (list Z) :=
  len ← int_shl poly_len_log2;
  let poly_len := Z.to_nat len in
  root_powers ← vset (replicate poly_len 0) 0 1;
  '(root_powers, _) ← for_ (poly_len - 1) (fun k '(root_powers, power) =>
      let i := S k in
      let idx := ReverseBits (Z.of_nat i) poly_len_log2 in
      root_powers ← vset root_powers (Z.to_nat idx) power;
      Ok (root_powers, multiply_uint_mod power root mod_)) (root_powers, root);
  Ok root_powers.

(** The overload over a [uint64_t] modulus. *)
Definition PowersOfPrimitiveRoot_u64 (root modulus : Z) (poly_len_log2 : Z) : res (list Z) :=
  mod_ ← Modulus_make modulus; PowersOfPrimitiveRoot root mod_ poly_len_log2.

(** The tables of one modulus: root powers, their quotients, halved inverse root
    powers, their quotients. *)
Record NttTables1 := mkTables {
  forward : list Z;
  forward_prime : list Z;
  inverse : list Z;
  inverse_prime : list Z
}.

Definition build_one (poly_len : nat) (poly_len_log2 : Z) (mod_ : Modulus)
  : res NttTables1 :=
  let modulus_u32 := u32 (value mod_) in
  root ← GetMinimalPrimitiveRoot (u64 (2 * Z.of_nat poly_len)) mod_;
  inv_root ← InvertUintMod root mod_;
  root_powers ← PowersOfPrimitiveRoot root mod_ poly_len_log2;
  scaled_root_powers ← ScalePowersU32 modulus_u32 poly_len root_powers;
  inv_root_power ← PowersOfPrimitiveRoot inv_root mod_ poly_len_log2;
  inv_root_power ← for_ poly_len (fun j v =>
    x ← vget v j; vset v j (Div2UintMod x mod_)) inv_root_power;
  scaled_inv_root_powers ← ScalePowersU32 modulus_u32 poly_len inv_root_power;
  Ok (mkTables root_powers scaled_root_powers inv_root_power scaled_inv_root_powers).

Definition BuildNttTables (poly_len : nat) (moduli : list Modulus) : res (list NttTables1) :=
  _ ← enforce (bool_decide (0 < poly_len)%nat);
  _ ← enforce (bool_decide (0 < length moduli)%nat);
  let poly_len_log2 := Log2 (Z.of_nat poly_len) in
  for_each moduli (fun mod_ tables =>
    t ← build_one poly_len poly_len_log2 mod_; Ok (tables ++ [t])) [].

(** The overload over [uint64_t] moduli makes each [seal::Modulus] as it goes. *)
Definition BuildNttTables_u64 (poly_len : nat) (moduli : list Z) : res (list NttTables1) :=
  _ ← enforce (bool_decide (0 < poly_len)%nat);
  _ ← enforce (bool_decide (0 < length moduli)%nat);
  let poly_len_log2 := Log2 (Z.of_nat poly_len) in
  for_each moduli (fun modulus tables =>
    mod_ ← Modulus_make modulus;
    t ← build_one poly_len poly_len_log2 mod_; Ok (tables ++ [t])) [].
End tables.

(** What the transforms rely on. *)
Record table_ok (n : nat) (q : Z) (t : NttTables1) : Prop := {
  tok_len : length (forward t) = n /\ length (inverse t) = n /\
            length (forward_prime t) = n /\ length (inverse_prime t) = n;
  tok_fwd j : (j < n)%nat -> 0 <= forward t !!! j < q;
  tok_inv j : (j < n)%nat -> 0 <= inverse t !!! j < q;
  tok_half j : (j < n)%nat -> (2 * (forward t !!! j * inverse t !!! j)) mod q = 1;
  tok_fwd' j : (j < n)%nat -> forward_prime t !!! j = forward t !!! j * 2 ^ 32 / q;
  tok_inv' j : (j < n)%nat -> inverse_prime t !!! j = inverse t !!! j * 2 ^ 32 / q;
  tok_zero : (0 < n)%nat -> forward t !!! 0%nat = 1;
  tok_even j : (2 * j < n)%nat -> (forward t !!! (2 * j)%nat * forward t !!! (2 * j)%nat) mod q = forward t !!! j mod q;
  tok_odd j : (2 * j + 1 < n)%nat -> (forward t !!! (2 * j + 1)%nat * forward t !!! (2 * j + 1)%nat) mod q = (- forward t !!! j) mod q
}.

Section table_lemmas.
Context `{LL : LibLaws}.

Lemma ReverseBits_range x w : 0 <= w <= 64 -> 0 <= x < 2 ^ w -> 0 <= ReverseBits x w < 2 ^ w.
Proof.
  intros Hw Hx. unfold ReverseBits. destruct (Z.eqb_spec w 0) as [->|]; [lia|].
  apply (reverse_bits_spec x w 0); lia.
Qed.

Lemma ReverseBits_invol x w :
  0 <= w <= 64 -> 0 <= x < 2 ^ w -> ReverseBits (ReverseBits x w) w = x.
Proof.
  intros Hw Hx. unfold ReverseBits. destruct (Z.eqb_spec w 0) as [->|Hne]; [lia|].
  pose proof (reverse_bits_spec x w 0) as [Hr _]; [lia..|].
  pose proof (reverse_bits_spec (reverse_bits x w) w 0) as [Hr2 _]; [lia..|].
  apply Z.bits_inj'. intros i Hi. destruct (decide (i < w)) as [Hlt|Hge].
  - destruct (reverse_bits_spec (reverse_bits x w) w i) as [_ ->]; [lia..|].
    destruct (reverse_bits_spec x w (w - 1 - i)) as [_ ->]; [lia..|].
    f_equal. lia.
  - by rewrite !(testbit_high _ w i) by lia.
Qed.

Lemma ReverseBits_inj x y w :
  0 <= w <= 64 -> 0 <= x < 2 ^ w -> 0 <= y < 2 ^ w ->
  ReverseBits x w = ReverseBits y w -> x = y.
Proof.
  intros Hw Hx Hy H. by rewrite <- (ReverseBits_invol x w), H, ReverseBits_invol.
Qed.

Lemma ReverseBits_0 w : 0 <= w <= 64 -> ReverseBits 0 w = 0.
Proof.
  intros Hw. unfold ReverseBits. destruct (Z.eqb_spec w 0) as [->|Hne]; [done|].
  apply Z.bits_inj'. intros i Hi. rewrite Z.bits_0.
  destruct (reverse_bits_spec 0 w 0) as [Hr _]; [lia..|].
  destruct (decide (i < w)) as [Hlt|Hge].
  - destruct (reverse_bits_spec 0 w i) as [_ ->]; [lia..|]. apply Z.bits_0.
  - apply (testbit_high _ w i); lia.
Qed.

(** Doubling an index halves its reversal. *)
Lemma ReverseBits_bit x w i : 0 <= w <= 64 -> 0 <= x < 2 ^ w -> 0 <= i < w -> Z.testbit (ReverseBits x w) i = Z.testbit x (w - 1 - i).
Proof.
  intros Hw Hx Hi. unfold ReverseBits. destruct (Z.eqb_spec w 0) as [->|]; [lia|]. by apply reverse_bits_spec; lia.
Qed.
Lemma ReverseBits_double x w (b : bool) : 1 <= w <= 64 -> 0 <= 2 * x + b2z b < 2 ^ w ->
  2 * ReverseBits (2 * x + b2z b) w = ReverseBits x w + 2 ^ w * b2z b.
Proof.
  intros Hw Hx. assert (0 <= x < 2 ^ (w - 1)) as Hx'.
  { replace w with (Z.succ (w - 1)) in Hx by lia. rewrite Z.pow_succ_r in Hx by lia. destruct b; cbn in Hx; lia. }
  assert (2 ^ (w - 1) <= 2 ^ w) as Hle by (apply Z.pow_le_mono_r; lia).
  pose proof (ReverseBits_range x w ltac:(lia) ltac:(lia)) as Hr. pose proof (ReverseBits_range (2 * x + b2z b) w ltac:(lia) ltac:(lia)) as Hr2.
  assert (ReverseBits x w + 2 ^ w * b2z b = Z.lor (ReverseBits x w) (Z.shiftl (b2z b) w)) as ->.
  { rewrite Z.shiftl_mul_pow2, (Z.mul_comm (2 ^ w)) by lia. pose proof (Z.add_lor_land (ReverseBits x w) (b2z b * 2 ^ w)) as Ha.
    assert (Z.land (ReverseBits x w) (b2z b * 2 ^ w) = 0) as Hl; [|lia].
    apply Z.bits_inj'. intros i Hi. rewrite Z.land_spec, Z.bits_0. destruct (decide (i < w)).
    - rewrite Z.mul_pow2_bits_low by lia. apply andb_false_r.
    - by rewrite (testbit_high (ReverseBits x w) w) by lia. }
  apply Z.bits_inj'. intros i Hi. rewrite Z.lor_spec, Z.shiftl_spec by lia. destruct (decide (i = 0)) as [->|].
  - rewrite Z.testbit_even_0. rewrite ReverseBits_bit by lia. rewrite (testbit_high x (w - 1)) by lia. by rewrite (Z.testbit_neg_r (b2z b)) by lia.
  - replace i with (Z.succ (i - 1)) at 1 by lia. rewrite Z.testbit_even_succ by lia. destruct (decide (i < w)); [|destruct (decide (i = w)) as [->|]].
    + rewrite !ReverseBits_bit by lia. rewrite (Z.testbit_neg_r (b2z b)), orb_false_r by lia. replace (w - 1 - (i - 1)) with (Z.succ (w - 1 - i)) by lia.
      destruct b; cbn [b2z]; [by rewrite Z.testbit_odd_succ by lia|]. rewrite Z.add_0_r. by rewrite Z.testbit_even_succ by lia.
    + rewrite ReverseBits_bit by lia. replace (w - 1 - (w - 1)) with 0 by lia. rewrite Z.sub_diag. rewrite (testbit_high (ReverseBits x w) w) by lia. rewrite orb_false_l.
      destruct b; cbn [b2z]; [by rewrite Z.testbit_odd_0|]. rewrite Z.add_0_r. by rewrite Z.testbit_even_0.
    + rewrite !(testbit_high (ReverseBits _ _) w) by lia. destruct b; cbn [b2z]; rewrite ?Z.bits_0; [|done]. rewrite (testbit_high 1 1) by lia. done.
Qed.

Lemma int_shl_small k : 0 <= k < 31 -> int_shl k = Ok (2 ^ k).
Proof.
  intros. unfold int_shl. replace (_ && _) with true by lia.
  by rewrite Z.shiftl_1_l.
Qed.

(** Entry [j] of the power table is the power by the reversed index. *)
Lemma PowersOfPrimitiveRoot_spec r m k :
  2 <= value m < 2 ^ 64 -> 0 <= r < value m -> 0 <= k < 31 ->
  wp (PowersOfPrimitiveRoot r m k) (fun v =>
    length v = Z.to_nat (2 ^ k) /\
    forall j, (j < Z.to_nat (2 ^ k))%nat ->
      v !!! j = r ^ ReverseBits (Z.of_nat j) k mod value m).
Proof.
  intros Hm Hr Hk. unfold PowersOfPrimitiveRoot. rewrite int_shl_small by done. run.
  assert (0 < 2 ^ k) as Hp by (apply Z.pow_pos_nonneg; lia).
  rewrite vset_total by (rewrite length_replicate; lia). run. apply wp_bind.
  set (n := Z.to_nat (2 ^ k)). assert (Z.of_nat n = 2 ^ k) as Hn by lia.
  apply (wp_for _ _ (fun i '(v, power) =>
    length v = n /\ power = r ^ (Z.of_nat i + 1) mod value m /\
    forall x, 0 <= x <= Z.of_nat i -> v !!! Z.to_nat (ReverseBits x k) = r ^ x mod value m)).
  - split_and!.
    + by rewrite length_insert, length_replicate.
    + by rewrite Z.pow_1_r, Z.mod_small.
    + intros x Hx. assert (x = 0) as -> by lia. rewrite ReverseBits_0 by lia.
      rewrite list_lookup_total_insert_eq by (rewrite length_replicate; lia).
      by rewrite Z.pow_0_r, Z.mod_small by lia.
  - intros i [v power] Hi (Hl & Hpw & Hv).
    destruct (ReverseBits_range (Z.of_nat (S i)) k) as [Hr1 Hr2]; [lia..|].
    rewrite vset_total by lia. run. split_and!.
    + by rewrite length_insert.
    + rewrite Hpw. rewrite multiply_uint_mod_eq; [|lia| |lia].
      2:{ pose proof (Z.mod_pos_bound (r ^ (Z.of_nat i + 1)) (value m) ltac:(lia)). lia. }
      rewrite Z.mul_mod_idemp_l by lia. rewrite Z.mul_comm, <- Z.pow_succ_r by lia.
      f_equal. f_equal. lia.
    + intros x Hx. destruct (decide (x = Z.of_nat (S i))) as [->|Hne].
      * rewrite list_lookup_total_insert_eq by lia. rewrite Hpw. f_equal. f_equal. lia.
      * rewrite list_lookup_total_insert_ne; [apply Hv; lia|].
        intros Heq. apply Hne. symmetry.
        destruct (ReverseBits_range x k); [lia..|].
        apply (ReverseBits_inj _ _ k); lia.
  - intros [v power] (Hl & _ & Hv). run. split; [done|]. intros j Hj.
    destruct (ReverseBits_range (Z.of_nat j) k) as [Hj1 Hj2]; [lia..|].
    rewrite <- (Hv (ReverseBits (Z.of_nat j) k)) by lia.
    rewrite ReverseBits_invol by lia. by rewrite Nat2Z.id.
Qed.

Lemma ScalePowersU32_spec q n v :
  0 < q < 2 ^ 32 -> (n <= length v)%nat ->
  (forall j, (j < n)%nat -> 0 <= v !!! j < q) ->
  wp (ScalePowersU32 q n v) (fun s =>
    length s = n /\ forall j, (j < n)%nat -> s !!! j = v !!! j * 2 ^ 32 / q).
Proof.
  intros Hq Hn Hv. unfold ScalePowersU32.
  apply (wp_for_fill _ _ (fun i => v !!! i * 2 ^ 32 / q)).
  - by rewrite length_replicate.
  - intros i s Hi Hl _. rewrite length_replicate in Hl. specialize (Hv i Hi).
    rewrite vget_total by lia. run. unfold udiv. replace (q =? 0) with false by lia. run.
    rewrite vset_total by lia. rewrite Z.shiftl_mul_pow2, u64_small by lia.
    rewrite u32_small; [done|]. split; [apply Z.div_pos; lia|apply Z.div_lt_upper_bound; nia].
  - intros s Hl H1 _. rewrite length_replicate in Hl. by split.
Qed.

(** The squares of the powers by reversed indices. *)
Lemma root_power_square root q k n j (b : bool) :
  2 <= q -> 0 <= k < 31 -> n = Z.to_nat (2 ^ k) -> root ^ (2 ^ k) mod q = q - 1 -> (2 * j + Z.to_nat (b2z b) < n)%nat ->
  forall i, i = (2 * j + Z.to_nat (b2z b))%nat -> let x := root ^ ReverseBits (Z.of_nat i) k mod q in
  (x * x) mod q = ((if b then -1 else 1) * root ^ ReverseBits (Z.of_nat j) k) mod q.
Proof.
  intros Hq Hk -> Hr Hj i ->. cbn zeta. rewrite <- Z.mul_mod by lia.
  destruct (decide (k = 0)) as [->|].
  { destruct b; cbn in Hj; [lia|]. assert (j = 0%nat) as -> by lia. cbn [Z.of_nat Nat.mul Nat.add b2z Z.to_nat]. rewrite !ReverseBits_0 by lia. done. }
  assert (0 <= b2z b <= 1) by (destruct b; cbn; lia). assert (2 * Z.of_nat j + b2z b < 2 ^ k) by lia.
  pose proof (ReverseBits_double (Z.of_nat j) k b ltac:(lia) ltac:(lia)) as E.
  replace (Z.of_nat (2 * j + Z.to_nat (b2z b))) with (2 * Z.of_nat j + b2z b) by lia.
  pose proof (ReverseBits_range (2 * Z.of_nat j + b2z b) k ltac:(lia) ltac:(lia)). pose proof (ReverseBits_range (Z.of_nat j) k ltac:(lia) ltac:(lia)).
  rewrite <- Z.pow_add_r by lia. replace (_ + _) with (ReverseBits (Z.of_nat j) k + 2 ^ k * b2z b) by lia.
  rewrite Z.pow_add_r by (destruct b; cbn; lia). destruct b; cbn [b2z]; [|by rewrite Z.mul_0_r, Z.pow_0_r, Z.mul_1_l, Z.mul_1_r].
  rewrite Z.mul_1_r, <- Z.mul_mod_idemp_r, Hr by lia. replace (_ * (q - 1)) with (-1 * root ^ ReverseBits (Z.of_nat j) k + root ^ ReverseBits (Z.of_nat j) k * q) by ring.
  apply Z.mod_add. lia.
Qed.

(** The tables of one modulus. *)
Lemma build_one_ok k m t :
  0 <= k < 31 -> 2 <= value m < 2 ^ 32 -> Z.odd (value m) = true ->
  build_one (Z.to_nat (2 ^ k)) k m = Ok t -> table_ok (Z.to_nat (2 ^ k)) (value m) t.
Proof.
  intros Hk Hm Ho. unfold build_one, GetMinimalPrimitiveRoot, InvertUintMod.
  set (n := Z.to_nat (2 ^ k)). set (q := value m) in *.
  intros H. rewrite bind_ok in H. destruct H as (root & Hroot & H).
  destruct (try_minimal_primitive_root _ m) as [root'|] eqn:Er; [|done].
  injection Hroot as ->. apply try_minimal_primitive_root_spec in Er as [Hroot Hpow]. fold q in Hroot, Hpow.
  assert (2 ^ k < 2 ^ 31) as Hk31 by (apply Z.pow_lt_mono_r; lia). assert (0 < 2 ^ k) as Hk0 by (apply Z.pow_pos_nonneg; lia).
  rewrite u64_small, (Z.mul_comm 2), Z.div_mul in Hpow by lia. replace (Z.of_nat n) with (2 ^ k) in Hpow by lia.
  rewrite bind_ok in H. destruct H as (inv & Hinv & H).
  replace (0 <? root) with true in Hinv by lia. revert Hinv. run. intros Hinv.
  destruct (try_invert_uint_mod root m) as [inv'|] eqn:Ei; [|done].
  injection Hinv as ->. apply try_invert_uint_mod_spec in Ei as [Hi1 Hi2]. fold q in Hi1, Hi2.
  rewrite Z.mod_1_l in Hi2 by lia.
  assert (u32 q = q) as Hu by (apply u32_small; lia). rewrite Hu in H.
  rewrite bind_ok in H. destruct H as (v & Ev & H).
  destruct (proj1 (wp_iff _ _) (PowersOfPrimitiveRoot_spec root m k ltac:(lia) ltac:(lia) Hk))
    as (v' & Ev' & Hvl & Hv). rewrite Ev in Ev'. injection Ev' as <-. fold n q in Hvl, Hv.
  rewrite bind_ok in H. destruct H as (sv & Esv & H).
  assert (forall j, (j < n)%nat -> 0 <= v !!! j < q) as Hvb.
  { intros j Hj. rewrite Hv by done. apply Z.mod_pos_bound. lia. }
  destruct (proj1 (wp_iff _ _) (ScalePowersU32_spec q n v ltac:(lia) ltac:(lia) Hvb))
    as (sv' & Esv' & Hsl & Hs). rewrite Esv in Esv'. injection Esv' as <-.
  rewrite bind_ok in H. destruct H as (w & Ew & H).
  destruct (proj1 (wp_iff _ _) (PowersOfPrimitiveRoot_spec inv m k ltac:(lia) ltac:(lia) Hk))
    as (w' & Ew' & Hwl & Hw). rewrite Ew in Ew'. injection Ew' as <-. fold n q in Hwl, Hw.
  rewrite bind_ok in H. destruct H as (h & Eh & H).
  assert (length h = n /\ forall j, (j < n)%nat ->
    0 <= h !!! j < q /\ (2 * h !!! j) mod q = w !!! j) as [Hhl Hh].
  { cut (wp (Ok h) (fun h => length h = n /\ forall j, (j < n)%nat ->
      0 <= h !!! j < q /\ (2 * h !!! j) mod q = w !!! j)); [done|].
    rewrite <- Eh. apply (wp_for_fill _ _ (fun j => Div2UintMod (w !!! j) m)); [lia| |].
    - intros i s Hi Hl Hsi. rewrite vget_total by lia. run. rewrite Hsi.
      by rewrite vset_total by lia.
    - intros s Hl H1 _. split; [lia|]. intros j Hj. rewrite H1 by done.
      apply div2_uint_mod_spec; [lia|done|].
      rewrite Hw by done. apply Z.mod_pos_bound. lia. }
  rewrite bind_ok in H. destruct H as (sh & Esh & [= <-]).
  destruct (proj1 (wp_iff _ _) (ScalePowersU32_spec q n h ltac:(lia) ltac:(lia)
    (fun j Hj => proj1 (Hh j Hj)))) as (sh' & Esh' & Hshl & Hsh).
  rewrite Esh in Esh'. injection Esh' as <-.
  split; cbn [forward inverse forward_prime inverse_prime]; try done.
  - intros j Hj. by apply Hh.
  - intros j Hj. destruct (Hh j Hj) as [_ H2].
    replace (2 * (v !!! j * h !!! j)) with (v !!! j * (2 * h !!! j)) by ring.
    rewrite Z.mul_mod, H2, Hw, Hv, <- Z.mul_mod by (lia || done).
    rewrite Z.mul_mod_idemp_l by lia.
    destruct (ReverseBits_range (Z.of_nat j) k) as [? _]; [lia..|].
    rewrite <- Z.pow_mul_l. rewrite <- Z.mod_pow_l, Hi2, Z.pow_1_l by lia.
    apply Z.mod_1_l. lia.
  - intros H0. rewrite Hv by done. cbn [Z.of_nat]. rewrite ReverseBits_0 by lia. rewrite Z.pow_0_r. apply Z.mod_1_l. lia.
  - intros j Hj. rewrite !Hv by lia. rewrite Z.mod_mod by lia. rewrite (root_power_square root q k n j false); try (done || (cbn; lia)). by rewrite Z.mul_1_l.
  - intros j Hj. rewrite !Hv by lia. rewrite (root_power_square root q k n j true) by (done || (cbn; lia)).
    rewrite <- !(Z.sub_0_l (_ mod _)), Zminus_mod_idemp_r. f_equal.
Qed.

(** The tables of all moduli. *)
Lemma BuildNttTables_ok k ms ts :
  0 <= k < 31 -> BuildNttTables (Z.to_nat (2 ^ k)) ms = Ok ts ->
  Forall (fun m => 2 <= value m < 2 ^ 32 /\ Z.odd (value m) = true) ms ->
  Forall2 (fun m t => table_ok (Z.to_nat (2 ^ k)) (value m) t) ms ts.
Proof.
  intros Hk. unfold BuildNttTables.
  assert (0 < 2 ^ k) by (apply Z.pow_pos_nonneg; lia).
  assert (2 ^ k < 2 ^ 31) by (apply Z.pow_lt_mono_r; lia).
  intros (_ & _ & (_ & _ & (ts' & -> & HF)%for_each_push)%bind_ok)%bind_ok Hms.
  unfold Log2 in HF. rewrite Z2Nat.id, Log2Floor_eq, Z.log2_pow2 in HF by lia.
  cbn [app]. induction HF as [|m t ms ts Hb _ IH]; [constructor|].
  apply Forall_cons in Hms as [[Hm Ho] Hms]. constructor; [|auto].
  by apply build_one_ok.
Qed.
End table_lemmas.
