(* ===== verification/SpiralUtil.v ===== *)
(** * Packing of bytes into plaintext coefficients (psi/algorithm/spiral/util.cc)

    [ConvertBytesToCoeffs] cuts a byte string into coefficients of [logt] bits,
    most significant bit first, [ConvertCoeffsToBytes] concatenates coefficients
    into bytes.  Both move at most a byte's worth of bits per turn of an inner
    loop.  The invariants speak of single bits of the stream; the theorems give
    every bit of every output word and the round trip. *)
From S2P Require Import Prelude SpiralArith.

(** [x >> s] and [x << s] on [uint64_t]; a shift by 64 or more is undefined. *)
Definition shr64 (x : Z) (s : nat) : res Z :=
  if bool_decide (s < 64)%nat then Ok (Z.shiftr x (Z.of_nat s)) else UB.
Definition shl64 (x : Z) (s : nat) : res Z :=
  if bool_decide (s < 64)%nat then Ok (u64 (Z.shiftl x (Z.of_nat s))) else UB.

(** [CalcIndex]: the row-major index of a multi-dimensional position. *)
Definition CalcIndex (indices length_ : list Z) : res Z :=
  let n := length indices in
  '(idx, _) ← for_ n (fun k '(idx, prod) =>
    let i := (n - 1 - k)%nat in
    x ← vget indices i;
    l ← vget length_ i;
    Ok (u64 (idx + u64 (x * prod)), u64 (prod * l))) (0, 1);
  Ok idx.

(** ** Coefficients to bytes *)

(** The output, the byte being filled and its free bits. *)
Record Packer := mkPacker { bytes : list Z; at_byte : nat; room : nat }.

(** [while (rest != 0 && j < bytes.size())]; each turn takes at least one bit. *)
Fixpoint put_coeff (fuel logt : nat) (src : Z) (rest : nat) (s : Packer) : res Packer :=
  match fuel with
  | O => UB
  | S fuel' =>
      if bool_decide (rest <> 0 /\ at_byte s < length (bytes s))%nat then
        let shift := Nat.min (room s) rest in
        b ← vget (bytes s) (at_byte s);
        let b := u8 (Z.shiftl b (Z.of_nat shift)) in
        top ← shr64 src (logt - shift);
        let b := u8 (Z.lor b top) in
        bs ← vset (bytes s) (at_byte s) b;
        src ← shl64 src shift;
        let room' := (room s - shift)%nat in
        let rest := (rest - shift)%nat in
        let s' := if bool_decide (room' = 0)%nat then mkPacker bs (S (at_byte s)) 8
                  else mkPacker bs (at_byte s) room' in
        put_coeff fuel' logt src rest s'
      else Ok s
  end.

Definition ConvertCoeffsToBytes (coeff_array : list Z) (logt : nat) : res (list Z) :=
  len ← UintNum (u64 (Z.of_nat (length coeff_array) * Z.of_nat logt)) 8;
  s ← for_each coeff_array (fun l s => put_coeff (S logt) logt l logt s)
        (mkPacker (replicate (Z.to_nat len) 0) 0 8);
  Ok (bytes s).

(** ** Bytes to coefficients *)

Record Unpacker := mkUnpacker { coeffs : list Z; flag : nat; c_room : nat }.

(** [while (rest != 0)]. *)
Fixpoint take_byte (fuel logt : nat) (src : Z) (rest : nat) (s : Unpacker) : res Unpacker :=
  match fuel with
  | O => UB
  | S fuel' =>
      if bool_decide (rest <> 0)%nat then
        let s := if bool_decide (c_room s = 0)%nat
                 then mkUnpacker (coeffs s) (S (flag s)) logt else s in
        let shift := Nat.min (c_room s) rest in
        c ← vget (coeffs s) (flag s);
        temp ← shl64 c shift;
        let c := Z.lor temp (Z.shiftr src (Z.of_nat (8 - shift))) in
        cs ← vset (coeffs s) (flag s) c;
        let remain := Z.shiftl 1 (Z.of_nat (8 - shift)) - 1 in
        let src := u32 (Z.shiftl (Z.land src remain) (Z.of_nat shift)) in
        take_byte fuel' logt src (rest - shift)
          (mkUnpacker cs (flag s) (c_room s - shift))
      else Ok s
  end.

Definition ConvertBytesToCoeffs (logt offset size : nat) (byte_array : list Z) : res (list Z) :=
  n ← UintNum (u64 (8 * Z.of_nat size)) (Z.of_nat logt);
  s ← for_ size (fun i s =>
        b ← vget byte_array (i + offset);
        take_byte 9 logt (u32 b) 8 s)
      (mkUnpacker (replicate (Z.to_nat n) 0) 0 logt);
  c ← vget (coeffs s) (flag s);
  c ← shl64 c (c_room s);
  vset (coeffs s) (flag s) c.

(** The variant over [uint8_t] coefficients, each stored word cut to a byte. *)
Fixpoint take_byte_u8 (fuel logt : nat) (src : Z) (rest : nat) (s : Unpacker) : res Unpacker :=
  match fuel with
  | O => UB
  | S fuel' =>
      if bool_decide (rest <> 0)%nat then
        let s := if bool_decide (c_room s = 0)%nat
                 then mkUnpacker (coeffs s) (S (flag s)) logt else s in
        let shift := Nat.min (c_room s) rest in
        c ← vget (coeffs s) (flag s);
        let temp := Z.shiftl c (Z.of_nat shift) in
        let c := u8 (Z.lor temp (Z.shiftr src (Z.of_nat (8 - shift)))) in
        cs ← vset (coeffs s) (flag s) c;
        let remain := Z.shiftl 1 (Z.of_nat (8 - shift)) - 1 in
        let src := u32 (Z.shiftl (Z.land src remain) (Z.of_nat shift)) in
        take_byte_u8 fuel' logt src (rest - shift)
          (mkUnpacker cs (flag s) (c_room s - shift))
      else Ok s
  end.

Definition ConvertBytesToU8Coeffs (logt offset size : nat) (byte_array : list Z) : res (list Z) :=
  n ← UintNum (u64 (8 * Z.of_nat size)) (Z.of_nat logt);
  s ← for_ size (fun i s =>
        b ← vget byte_array (i + offset);
        take_byte_u8 9 logt (u32 b) 8 s)
      (mkUnpacker (replicate (Z.to_nat n) 0) 0 logt);
  c ← vget (coeffs s) (flag s);
  vset (coeffs s) (flag s) (u8 (Z.shiftl c (Z.of_nat (c_room s)))).

(** ** The stream of bits of a list of [w]-bit words, most significant first *)
Definition sbit (w : nat) (v : list Z) (k : nat) : bool :=
  Z.testbit (v !!! (k / w)%nat) (Z.of_nat (w - 1 - k mod w)).

Lemma sbit_at w v j r : (r < w)%nat -> sbit w v (j * w + r) = Z.testbit (v !!! j) (Z.of_nat (w - 1 - r)).
Proof.
  intros Hr. unfold sbit.
  rewrite Nat.div_add_l, Nat.div_small, Nat.add_0_r by lia.
  by rewrite Nat.add_comm, Nat.Div0.mod_add, Nat.mod_small by lia.
Qed.

(** Reading bit [i] of word [j] as a stream position. *)
Lemma word_bit w v j i : (i < w)%nat -> Z.testbit (v !!! j) (Z.of_nat i) = sbit w v (j * w + (w - 1 - i)).
Proof. intros Hi. rewrite sbit_at by lia. f_equal. lia. Qed.

(** ** [ConvertCoeffsToBytes] *)
Section pack.
Variables (logt : nat) (cs : list Z).
Hypotheses (Hlogt : (1 <= logt <= 64)%nat)
  (Hcs : forall c, (c < length cs)%nat -> 0 <= cs !!! c < 2 ^ Z.of_nat logt).

(** The first [p] bits of the stream are in place. *)
Definition packed (p : nat) (s : Packer) : Prop :=
  (1 <= room s <= 8)%nat /\ (p = 8 * at_byte s + (8 - room s))%nat /\
  (forall j : nat, 0 <= bytes s !!! j < 256) /\
  (forall j i, (j < at_byte s)%nat -> (j < length (bytes s))%nat -> (i < 8)%nat ->
     Z.testbit (bytes s !!! j) (Z.of_nat i) = sbit logt cs (8 * j + (7 - i))) /\
  ((at_byte s < length (bytes s))%nat -> forall i, (i < 8 - room s)%nat ->
     Z.testbit (bytes s !!! at_byte s) (Z.of_nat i) = sbit logt cs (p - 1 - i)).

(** What is left of coefficient [c] when [rest] of its bits are still to go. *)
Definition src_ok (c rest : nat) (src : Z) : Prop :=
  0 <= src < 2 ^ 64 /\ forall i, (i < 64)%nat -> Z.testbit src (Z.of_nat i) =
    (bool_decide (logt - rest <= i)%nat && Z.testbit (cs !!! c) (Z.of_nat (i - (logt - rest)))).

Lemma u8_bit z i : (i < 8)%nat -> Z.testbit (u8 z) (Z.of_nat i) = Z.testbit z (Z.of_nat i).
Proof.
  intros Hi. unfold u8. rewrite wrap_testbit by lia.
  by replace (Z.of_nat i <? 8) with true by lia.
Qed.

(** One turn of the loop moves [shift] bits. *)
Lemma pack_step p c rest src s shift b src' top :
  packed p s -> src_ok c rest src -> (p = c * logt + (logt - rest))%nat ->
  (1 <= rest <= logt)%nat -> (c < length cs)%nat -> (at_byte s < length (bytes s))%nat ->
  shift = Nat.min (room s) rest ->
  bytes s !!! at_byte s = b -> shr64 src (logt - shift) = Ok top -> shl64 src shift = Ok src' ->
  let bs := <[at_byte s := u8 (Z.lor (u8 (Z.shiftl b (Z.of_nat shift))) top)]> (bytes s) in
  let room' := (room s - shift)%nat in
  packed (p + shift) (if bool_decide (room' = 0)%nat then mkPacker bs (S (at_byte s)) 8
                      else mkPacker bs (at_byte s) room') /\
  src_ok c (rest - shift) src'.
Proof.
  intros (Hr & Hp & Hrange & Hdone & Hcur) [Hs64 Hsrc] Hpc Hrest Hc Hj Hsh Hb Htop Hsrc'.
  unfold shr64 in Htop. case_bool_decide as Hs1; [|done]. injection Htop as <-.
  unfold shl64 in Hsrc'. case_bool_decide as Hs2; [|done]. injection Hsrc' as <-.
  intros bs room'.
  assert (forall i, (i < 8 - room')%nat ->
    Z.testbit (bs !!! at_byte s) (Z.of_nat i) = sbit logt cs (p + shift - 1 - i)) as Hnew.
  { intros i Hi. subst bs. rewrite list_lookup_total_insert_eq by done.
    rewrite u8_bit, Z.lor_spec, u8_bit, Z.shiftl_spec, Z.shiftr_spec by lia.
    rewrite <- Nat2Z.inj_add.
    assert ((i < shift)%nat \/ (shift <= i)%nat) as [Hlt|Hge] by lia.
    - rewrite (Z.testbit_neg_r b) by lia. cbn [orb].
      rewrite Hsrc by lia. rewrite bool_decide_true by lia. cbn [andb].
      rewrite word_bit with (w := logt) by lia. f_equal. lia.
    - replace (Z.of_nat i - Z.of_nat shift) with (Z.of_nat (i - shift)) by lia.
      rewrite <- Hb, Hcur by lia. replace (p - 1 - (i - shift))%nat with (p + shift - 1 - i)%nat by lia.
      destruct (decide (i + (logt - shift) < 64)%nat).
      + rewrite Hsrc by done. rewrite bool_decide_true by lia. cbn [andb].
        destruct (decide (i + (logt - shift) - (logt - rest) < logt)%nat).
        * rewrite (word_bit logt cs) by lia.
          replace (c * logt + (logt - 1 - (i + (logt - shift) - (logt - rest))))%nat
            with (p + shift - 1 - i)%nat by lia. by rewrite orb_diag.
        * rewrite (testbit_high _ (Z.of_nat logt)), orb_false_r; [done|apply Hcs; lia|lia].
      + rewrite (testbit_high src 64), orb_false_r by lia. done. }
  split.
  - assert (forall j : nat, 0 <= bs !!! j < 256) as Hbsr.
    { intros j. subst bs. destruct (decide (j = at_byte s)) as [->|].
      - rewrite list_lookup_total_insert_eq by done. apply (u8_range _).
      - rewrite list_lookup_total_insert_ne by done. apply Hrange. }
    assert (length bs = length (bytes s)) as Hbl by (subst bs; by rewrite length_insert).
    assert (forall j i, (j < at_byte s)%nat -> (j < length bs)%nat -> (i < 8)%nat ->
      Z.testbit (bs !!! j) (Z.of_nat i) = sbit logt cs (8 * j + (7 - i))) as Hold.
    { intros j i Hja Hjl Hi. subst bs. rewrite list_lookup_total_insert_ne by lia.
      apply Hdone; lia. }
    destruct (bool_decide_reflect (room' = 0)%nat) as [H0|H0]; unfold packed; cbn [bytes at_byte room].
    + split_and!; try done; try lia. intros j i Hja Hjl Hi.
      destruct (decide (j = at_byte s)) as [->|]; [|apply Hold; lia].
      rewrite Hnew by lia. f_equal. lia.
    + split_and!; try done; try lia.
  - split; [apply u64_range|]. intros i Hi. unfold u64. rewrite wrap_testbit by lia.
    replace (Z.of_nat i <? 64) with true by lia. cbn [andb]. rewrite Z.shiftl_spec by lia.
    destruct (decide (i < shift)%nat).
    + rewrite Z.testbit_neg_r by lia. by rewrite bool_decide_false by lia.
    + replace (Z.of_nat i - Z.of_nat shift) with (Z.of_nat (i - shift)) by lia.
      rewrite Hsrc by lia. f_equal; [apply bool_decide_ext; lia|]. do 2 f_equal. lia.
Qed.

(** The inner loop: all of a coefficient goes in, unless the output is full. *)
Lemma put_coeff_ok fuel p c rest src s :
  (rest < fuel)%nat -> packed p s -> src_ok c rest src ->
  (p = c * logt + (logt - rest))%nat -> (rest <= logt)%nat -> (c < length cs)%nat ->
  (c * logt + logt <= 8 * length (bytes s))%nat ->
  wp (put_coeff fuel logt src rest s) (fun s' =>
    length (bytes s') = length (bytes s) /\ packed (c * logt + logt) s').
Proof.
  revert p rest src s. induction fuel as [|fuel IH]; intros p rest src s Hf Hp Hs Hpc Hr Hc Hroom; [lia|].
  cbn [put_coeff]. destruct (decide (rest = 0)%nat) as [->|Hne].
  { rewrite bool_decide_false by lia. cbn [wp]. split; [done|].
    by replace (c * logt + logt)%nat with p by lia. }
  assert (at_byte s < length (bytes s))%nat as Hj by (destruct Hp as (? & ? & _); lia).
  rewrite bool_decide_true by done. rewrite vget_total by done. run.
  set (shift := Nat.min (room s) rest).
  assert (1 <= shift <= 8)%nat as Hsh by (destruct Hp as (? & _); lia).
  destruct (shr64 src (logt - shift)) as [top| |] eqn:Et;
    [|unfold shr64 in Et; case_bool_decide; (done || lia)..].
  run. rewrite vset_total by done. run.
  destruct (shl64 src shift) as [src'| |] eqn:El;
    [|unfold shl64 in El; case_bool_decide; (done || lia)..].
  run. destruct (pack_step p c rest src s shift _ src' top Hp Hs Hpc ltac:(lia) Hc Hj eq_refl eq_refl Et El)
    as [Hp' Hs'].
  eapply wp_mono.
  - apply (IH (p + shift)%nat (rest - shift)%nat); try done; try lia.
    case_bool_decide; cbn [bytes]; rewrite length_insert; lia.
  - cbn beta. intros s' [Hl Hp2]. split; [|done]. rewrite Hl.
    case_bool_decide; cbn [bytes]; by rewrite length_insert.
Qed.

(** Every bit of the output is the stream's. *)
Lemma ConvertCoeffsToBytes_bits :
  Z.of_nat (length cs) * 64 < 2 ^ 60 ->
  wp (ConvertCoeffsToBytes cs logt) (fun out =>
    Z.of_nat (length out) = (Z.of_nat (length cs * logt) + 7) / 8 /\
    (forall j : nat, 0 <= out !!! j < 256) /\
    forall k, (k < 8 * (length cs * logt / 8))%nat -> sbit 8 out k = sbit logt cs k).
Proof.
  intros Hbig. unfold ConvertCoeffsToBytes. set (T := (length cs * logt)%nat).
  assert (Z.of_nat (length cs) * Z.of_nat logt = Z.of_nat T) as -> by (subst T; lia).
  assert (Z.of_nat T < 2 ^ 60) as HT by (subst T; nia).
  rewrite u64_small by lia. unfold UintNum, udiv. rewrite u64_small, u64_small by (rewrite ?u64_small; lia).
  change (8 =? 0) with false. run. replace (Z.of_nat T + 8 - 1) with (Z.of_nat T + 7) by lia.
  set (n := (Z.of_nat T + 7) / 8).
  assert (0 <= n /\ Z.of_nat T <= 8 * n) as [Hn0 Hn] by (subst n; zdm; lia).
  apply wp_bind.
  eapply wp_mono; [apply (wp_for_each cs _ (fun l1 s =>
    length (bytes s) = Z.to_nat n /\ packed (length l1 * logt) s))|].
  - cbn [bytes]. split; [apply length_replicate|].
    unfold packed. cbn [bytes room at_byte length].
    split_and!; try lia.
    + intros j. destruct (decide (j < Z.to_nat n)%nat).
      * rewrite lookup_total_replicate_lt by done. lia.
      * rewrite list_lookup_total_alt, lookup_ge_None_2 by (rewrite length_replicate; lia). cbn. lia.
  - intros l1 x l2 s Hsplit [Hl Hp].
    assert (length l1 < length cs)%nat as Hlt by (rewrite Hsplit, length_app; cbn; lia).
    assert (cs !!! length l1 = x) as Hx by (rewrite Hsplit; by apply list_lookup_total_middle).
    eapply wp_mono; [apply (put_coeff_ok (S logt) (length l1 * logt) (length l1) logt x s)|].
    all: try lia; try done.
    + subst x. split; [specialize (Hcs _ Hlt); split; [lia|]|].
      * eapply Z.lt_le_trans; [apply Hcs|]. apply Z.pow_le_mono_r; lia.
      * intros i Hi. rewrite Nat.sub_diag, Nat.sub_0_r. done.
    + rewrite Hl. subst T. nia.
    + cbn beta. intros s' [Hl' Hp']. rewrite length_app. cbn [length].
      split; [congruence|]. by replace ((length l1 + 1) * logt)%nat with (length l1 * logt + logt)%nat by lia.
  - cbn beta. intros s [Hl (Hr & Hpos & Hrange & Hdone & _)]. run.
    split; [rewrite Hl, Z2Nat.id by lia; done|]. split; [done|].
    intros k Hk. fold T in Hk, Hpos.
    pose proof (Nat.div_mod k 8 ltac:(lia)) as Ek. pose proof (Nat.mod_upper_bound k 8 ltac:(lia)).
    pose proof (Nat.div_mod T 8 ltac:(lia)) as ET. pose proof (Nat.mod_upper_bound T 8 ltac:(lia)).
    unfold sbit at 1. replace (8 - 1 - k mod 8)%nat with (7 - k mod 8)%nat by lia.
    rewrite Hdone by lia. f_equal. lia.
Qed.
End pack.

(** ** [ConvertBytesToCoeffs] *)
Section unpack.
Variables (logt offset size : nat) (byte_array : list Z).
Hypotheses (Hlogt : (1 <= logt <= 64)%nat) (Hlen : (offset + size <= length byte_array)%nat)
  (Hbytes : forall i, 0 <= byte_array !!! i < 256).

Definition src_bytes : list Z := drop offset byte_array.

Lemma src_byte i : src_bytes !!! i = byte_array !!! (i + offset)%nat.
Proof. unfold src_bytes. rewrite !list_lookup_total_alt, lookup_drop. by rewrite Nat.add_comm. Qed.

(** The first [p] bits of the stream are in place, and nothing after them. *)
Definition unpacked (n p : nat) (s : Unpacker) : Prop :=
  length (coeffs s) = n /\ (c_room s <= logt)%nat /\ (p = 0 \/ c_room s < logt)%nat /\
  (p = flag s * logt + (logt - c_room s))%nat /\ (flag s < n)%nat /\
  (forall f : nat, 0 <= coeffs s !!! f < 2 ^ Z.of_nat logt) /\
  coeffs s !!! flag s < 2 ^ Z.of_nat (logt - c_room s) /\
  (forall f i, (f < flag s)%nat -> (i < logt)%nat ->
     Z.testbit (coeffs s !!! f) (Z.of_nat i) = sbit 8 src_bytes (f * logt + (logt - 1 - i))) /\
  (forall i, (i < logt - c_room s)%nat ->
     Z.testbit (coeffs s !!! flag s) (Z.of_nat i) = sbit 8 src_bytes (p - 1 - i)) /\
  (forall f, (flag s < f < n)%nat -> coeffs s !!! f = 0).

(** What is left of byte [k] when [rest] of its bits are still to go. *)
Definition byte_ok (k rest : nat) (src : Z) : Prop :=
  0 <= src < 256 /\ forall i, (i < 8)%nat -> Z.testbit src (Z.of_nat i) =
    (bool_decide (8 - rest <= i)%nat && Z.testbit (src_bytes !!! k) (Z.of_nat (i - (8 - rest)))).

(** Moving to the next coefficient keeps the invariant when the current is full. *)
Lemma unpacked_next n p s :
  (p < n * logt)%nat -> unpacked n p s ->
  let s' := if bool_decide (c_room s = 0)%nat
            then mkUnpacker (coeffs s) (S (flag s)) logt else s in
  length (coeffs s') = n /\ (1 <= c_room s' <= logt)%nat /\
  (p = flag s' * logt + (logt - c_room s'))%nat /\ (flag s' < n)%nat /\
  (forall f : nat, 0 <= coeffs s' !!! f < 2 ^ Z.of_nat logt) /\
  coeffs s' !!! flag s' < 2 ^ Z.of_nat (logt - c_room s') /\
  (forall f i, (f < flag s')%nat -> (i < logt)%nat ->
     Z.testbit (coeffs s' !!! f) (Z.of_nat i) = sbit 8 src_bytes (f * logt + (logt - 1 - i))) /\
  (forall i, (i < logt - c_room s')%nat ->
     Z.testbit (coeffs s' !!! flag s') (Z.of_nat i) = sbit 8 src_bytes (p - 1 - i)) /\
  (forall f, (flag s' < f < n)%nat -> coeffs s' !!! f = 0).
Proof.
  intros Hp (Hl & Hr & _ & Hpos & Hf & Hrange & Hcur & Hdone & Hbits & Hzero).
  destruct (bool_decide_reflect (c_room s = 0)%nat) as [H0|H0]; cbn [coeffs flag c_room].
  - assert (S (flag s) < n)%nat as HSn by nia. split_and!; try done; try lia.
    + rewrite Hzero, Nat.sub_diag by lia. done.
    + intros f i Hff Hi. destruct (decide (f = flag s)) as [->|]; [|apply Hdone; lia].
      rewrite Hbits by lia. f_equal. lia.
    + intros f Hff. apply Hzero. lia.
  - split_and!; try done; lia.
Qed.

Lemma byte_step k rest src shift :
  byte_ok k rest src -> (1 <= shift <= rest)%nat -> (rest <= 8)%nat ->
  byte_ok k (rest - shift)
    (u32 (Z.shiftl (Z.land src (Z.shiftl 1 (Z.of_nat (8 - shift)) - 1)) (Z.of_nat shift))) /\
  0 <= Z.shiftr src (Z.of_nat (8 - shift)) < 2 ^ Z.of_nat shift.
Proof.
  intros [Hs Hb] Hsh Hrest.
  assert (Z.shiftl 1 (Z.of_nat (8 - shift)) - 1 = Z.ones (Z.of_nat (8 - shift))) as ->
    by (unfold Z.ones; lia).
  rewrite Z.land_ones, Z.shiftl_mul_pow2, Z.shiftr_div_pow2 by lia.
  pose proof (Z.mod_pos_bound src (2 ^ Z.of_nat (8 - shift)) ltac:(apply Z.pow_pos_nonneg; lia)) as Hm.
  assert (2 ^ Z.of_nat (8 - shift) * 2 ^ Z.of_nat shift = 256) as E.
  { rewrite <- Z.pow_add_r by lia. replace (Z.of_nat (8 - shift) + Z.of_nat shift) with 8 by lia. done. }
  assert (0 < 2 ^ Z.of_nat shift) by (apply Z.pow_pos_nonneg; lia).
  rewrite u32_small by nia. split; [split; [nia|]|].
  - intros i Hi. rewrite <- Z.shiftl_mul_pow2, Z.shiftl_spec by lia.
    destruct (decide (i < shift)%nat).
    + rewrite Z.testbit_neg_r by lia. by rewrite bool_decide_false by lia.
    + rewrite Z.mod_pow2_bits_low by lia.
      replace (Z.of_nat i - Z.of_nat shift) with (Z.of_nat (i - shift)) by lia.
      rewrite Hb by lia. f_equal; [apply bool_decide_ext; lia|]. do 2 f_equal. lia.
  - split; [apply Z.div_pos; lia|]. apply Z.div_lt_upper_bound; lia.
Qed.

Lemma take_byte_ok fuel n p k rest src s :
  (rest < fuel)%nat -> unpacked n p s -> byte_ok k rest src ->
  (p = 8 * k + (8 - rest))%nat -> (rest <= 8)%nat -> (8 * k + 8 <= n * logt)%nat ->
  wp (take_byte fuel logt src rest s) (unpacked n (8 * k + 8)).
Proof.
  revert p rest src s. induction fuel as [|fuel IH]; intros p rest src s Hf Hu Hb Hp Hr Hn; [lia|].
  cbn [take_byte]. destruct (decide (rest = 0)%nat) as [->|Hne].
  { rewrite bool_decide_false by lia. cbn [wp]. by replace (8 * k + 8)%nat with p by lia. }
  rewrite bool_decide_true by done.
  pose proof (unpacked_next n p s ltac:(lia) Hu) as Hnext. cbv zeta in Hnext.
  set (s' := if bool_decide (c_room s = 0)%nat then _ else s) in *. clearbody s'. clear Hu.
  destruct Hnext as (Hl & Hr' & Hpos & Hfl & Hrange & Hcur & Hdone & Hbits & Hzero).
  set (shift := Nat.min (c_room s') rest).
  destruct (byte_step k rest src shift Hb ltac:(lia) Hr) as [Hb' Htop].
  rewrite vget_total by lia. run. set (c := coeffs s' !!! flag s') in *.
  assert (0 <= c) as Hc0 by apply Hrange.
  assert (c * 2 ^ Z.of_nat shift < 2 ^ Z.of_nat (logt - (c_room s' - shift))) as Hcs.
  { replace (Z.of_nat (logt - (c_room s' - shift)))
      with (Z.of_nat (logt - c_room s') + Z.of_nat shift) by lia.
    rewrite Z.pow_add_r by lia. apply Z.mul_lt_mono_pos_r; [apply Z.pow_pos_nonneg; lia|done]. }
  assert (2 ^ Z.of_nat (logt - (c_room s' - shift)) <= 2 ^ 64) as Hc64 by (apply Z.pow_le_mono_r; lia).
  assert (2 ^ Z.of_nat (logt - (c_room s' - shift)) <= 2 ^ Z.of_nat logt) as Hclt
    by (apply Z.pow_le_mono_r; lia).
  unfold shl64. rewrite bool_decide_true by lia. run.
  assert (0 <= c * 2 ^ Z.of_nat shift) as Hcs0
    by (apply Z.mul_nonneg_nonneg; [done|apply Z.pow_nonneg; lia]).
  rewrite (Z.shiftl_mul_pow2 c), u64_small by lia.
  rewrite vset_total by lia. run.
  assert (Z.lor (c * 2 ^ Z.of_nat shift) (Z.shiftr src (Z.of_nat (8 - shift)))
    = Z.shiftr src (Z.of_nat (8 - shift)) + c * 2 ^ Z.of_nat shift) as Hlor.
  { rewrite Z.lor_comm, <- Z.shiftl_mul_pow2 by lia. rewrite lor_shiftl_add by lia. by rewrite Z.shiftl_mul_pow2 by lia. }
  assert (0 <= Z.lor (c * 2 ^ Z.of_nat shift) (Z.shiftr src (Z.of_nat (8 - shift)))
    < 2 ^ Z.of_nat (logt - (c_room s' - shift))) as Hnew.
  { rewrite Hlor. replace (Z.of_nat (logt - (c_room s' - shift)))
      with (Z.of_nat (logt - c_room s') + Z.of_nat shift) by lia.
    rewrite Z.pow_add_r by lia. nia. }
  apply (IH (p + shift)%nat); try done; try lia.
  unfold unpacked. cbn [coeffs flag c_room].
  rewrite list_lookup_total_insert_eq by lia. split_and!; try lia.
  - by rewrite length_insert.
  - intros f. destruct (decide (f = flag s')) as [->|].
    + rewrite list_lookup_total_insert_eq by lia. lia.
    + rewrite list_lookup_total_insert_ne by done. apply Hrange.
  - intros f i Hff Hi. rewrite list_lookup_total_insert_ne by lia. by apply Hdone.
  - intros i Hi. rewrite Z.lor_spec, Z.shiftr_spec, <- Z.shiftl_mul_pow2, Z.shiftl_spec by lia.
    destruct Hb as [Hs256 Hb]. destruct (decide (i < shift)%nat).
    + rewrite (Z.testbit_neg_r c) by lia. cbn [orb]. rewrite <- Nat2Z.inj_add.
      rewrite Hb by lia. rewrite bool_decide_true by lia. cbn [andb].
      rewrite (word_bit 8) by lia. f_equal. lia.
    + rewrite (testbit_high src 8), orb_false_r by lia.
      replace (Z.of_nat i - Z.of_nat shift) with (Z.of_nat (i - shift)) by lia.
      rewrite Hbits by lia. f_equal. lia.
  - intros f Hff. rewrite list_lookup_total_insert_ne by lia. by apply Hzero.
Qed.

(** Every bit of the output is the stream's, then zeros. *)
Lemma ConvertBytesToCoeffs_bits :
  (1 <= size)%nat -> Z.of_nat size < 2 ^ 56 ->
  wp (ConvertBytesToCoeffs logt offset size byte_array) (fun out =>
    Z.of_nat (length out) = (8 * Z.of_nat size + Z.of_nat logt - 1) / Z.of_nat logt /\
    (forall c : nat, 0 <= out !!! c < 2 ^ Z.of_nat logt) /\
    forall k, (k < length out * logt)%nat ->
      sbit logt out k = bool_decide (k < 8 * size)%nat && sbit 8 src_bytes k).
Proof.
  intros Hs Hbig. unfold ConvertBytesToCoeffs, UintNum, udiv.
  rewrite (u64_small (8 * _)) by lia. rewrite (u64_small (_ + _)), u64_small by (rewrite ?u64_small; lia).
  replace (Z.of_nat logt =? 0) with false by lia. run.
  set (nz := (8 * Z.of_nat size + Z.of_nat logt - 1) / Z.of_nat logt).
  destruct (div_mul_bounds (8 * Z.of_nat size + Z.of_nat logt - 1) (Z.of_nat logt)) as [Hd1 Hd2]; [lia..|].
  fold nz in Hd1, Hd2. assert (1 <= nz) by nia.
  set (n := Z.to_nat nz). assert (Z.of_nat n = nz) as Hn by lia.
  assert (8 * size <= n * logt)%nat as HnT by nia.
  assert (n * logt < 8 * size + logt)%nat as HnU by nia.
  apply wp_bind. eapply wp_mono.
  { apply (wp_for _ _ (fun i s => unpacked n (8 * i) s)) with (Q := unpacked n (8 * size)).
    - unfold unpacked. cbn [coeffs flag c_room]. split_and!; try lia.
      + apply length_replicate.
      + intros f. destruct (decide (f < n)%nat).
        * rewrite lookup_total_replicate_lt by done. split; [lia|apply Z.pow_pos_nonneg; lia].
        * rewrite list_lookup_total_alt, lookup_ge_None_2 by (rewrite length_replicate; lia). cbn.
          split; [lia|apply Z.pow_gt_1; lia].
      + rewrite lookup_total_replicate_lt by lia. apply Z.pow_pos_nonneg; lia.
      + intros f Hf. by rewrite lookup_total_replicate_lt by lia.
    - intros i s Hi Hu. rewrite vget_total by lia. run.
      replace (8 * S i)%nat with (8 * i + 8)%nat by lia.
      specialize (Hbytes (i + offset)%nat). rewrite u32_small by lia.
      apply (take_byte_ok 9 n (8 * i) i 8); try done; try lia.
      split; [done|]. intros r Hr. rewrite src_byte, Nat.sub_diag, Nat.sub_0_r. done.
    - done. }
  cbn beta. intros s (Hl & Hr & Hr1 & Hpos & Hf & Hrange & Hcur & Hdone & Hbits & Hzero).
  assert (S (flag s) = n) as HSf by nia.
  rewrite vget_total by lia. run. set (c := coeffs s !!! flag s) in *.
  unfold shl64. rewrite bool_decide_true by lia. run. rewrite vset_total by lia. cbn [wp].
  assert (0 <= c) as Hc0 by apply Hrange.
  assert (0 <= c * 2 ^ Z.of_nat (c_room s) < 2 ^ Z.of_nat logt) as Hcl.
  { split; [apply Z.mul_nonneg_nonneg; [done|apply Z.pow_nonneg; lia]|].
    replace (Z.of_nat logt) with (Z.of_nat (logt - c_room s) + Z.of_nat (c_room s)) by lia.
    rewrite Z.pow_add_r by lia. apply Z.mul_lt_mono_pos_r; [apply Z.pow_pos_nonneg; lia|done]. }
  assert (2 ^ Z.of_nat logt <= 2 ^ 64) by (apply Z.pow_le_mono_r; lia).
  rewrite Z.shiftl_mul_pow2, u64_small by lia.
  rewrite length_insert. split; [lia|]. split.
  { intros f. destruct (decide (f = flag s)) as [->|].
    - rewrite list_lookup_total_insert_eq by lia. done.
    - rewrite list_lookup_total_insert_ne by done. apply Hrange. }
  intros k Hk. rewrite Hl in Hk.
  pose proof (Nat.div_mod k logt ltac:(lia)) as Ek.
  pose proof (Nat.mod_upper_bound k logt ltac:(lia)) as Hkr.
  assert (k / logt < n)%nat by (apply Nat.Div0.div_lt_upper_bound; lia).
  unfold sbit at 1. destruct (decide (k / logt = flag s)%nat) as [Hkf|Hkf].
  - rewrite Hkf, list_lookup_total_insert_eq by lia.
    rewrite <- Z.shiftl_mul_pow2, Z.shiftl_spec by lia. rewrite Hkf in Ek.
    destruct (decide (k < 8 * size)%nat) as [Hin|Hin].
    + rewrite bool_decide_true by done. cbn [andb].
      replace (Z.of_nat (logt - 1 - k mod logt) - Z.of_nat (c_room s))
        with (Z.of_nat (logt - 1 - k mod logt - c_room s)) by nia.
      rewrite Hbits by nia. f_equal. nia.
    + rewrite bool_decide_false by done. cbn [andb]. apply Z.testbit_neg_r. nia.
  - rewrite list_lookup_total_insert_ne by done. rewrite Hdone by lia.
    rewrite bool_decide_true by nia. cbn [andb]. f_equal. nia.
Qed.
End unpack.

(** ** The round trip *)

(** Equal bits make equal bytes. *)
Lemma bytes_eq (a b : Z) :
  0 <= a < 256 -> 0 <= b < 256 ->
  (forall i, (i < 8)%nat -> Z.testbit a (Z.of_nat i) = Z.testbit b (Z.of_nat i)) -> a = b.
Proof.
  intros Ha Hb H. apply Z.bits_inj'. intros i Hi. destruct (decide (i < 8)).
  - rewrite <- (Z2Nat.id i) by lia. apply H. lia.
  - by rewrite !(testbit_high _ 8) by lia.
Qed.

(** C34.  Packing [size] bytes into coefficients of [logt] bits (1 to 64) and
    turning the coefficients back into bytes returns the bytes, with at most
    zero padding behind them; neither loop leaves its arrays. *)
Theorem Convert_roundtrip logt offset size byte_array :
  (1 <= logt <= 64)%nat -> (1 <= size)%nat -> Z.of_nat size < 2 ^ 50 ->
  (offset + size <= length byte_array)%nat -> (forall i : nat, 0 <= byte_array !!! i < 256) ->
  exists cs out, ConvertBytesToCoeffs logt offset size byte_array = Ok cs /\
    (forall c : nat, 0 <= cs !!! c < 2 ^ Z.of_nat logt) /\
    ConvertCoeffsToBytes cs logt = Ok out /\
    take size out = take size (drop offset byte_array).
Proof.
  intros Hl Hs Hbig Hlen Hb.
  destruct (proj1 (wp_iff _ _) (ConvertBytesToCoeffs_bits logt offset size byte_array
    Hl Hlen Hb Hs ltac:(lia))) as (cs & Hcs & Hcl & Hcr & Hcb).
  destruct (div_mul_bounds (8 * Z.of_nat size + Z.of_nat logt - 1) (Z.of_nat logt)) as [Hd1 Hd2]; [lia..|].
  rewrite <- Hcl in Hd1, Hd2.
  assert (8 * size <= length cs * logt)%nat as HT by nia.
  assert (length cs <= 8 * size)%nat as Hcn by nia.
  destruct (proj1 (wp_iff _ _) (ConvertCoeffsToBytes_bits logt cs Hl (fun c _ => Hcr c)
    ltac:(lia))) as (out & Hout & Hol & Hor & Hob).
  assert (size <= length out)%nat as Hos by (revert Hol; zdm; lia).
  exists cs, out. split_and!; try done.
  apply list_eq_total.
  - rewrite !length_take, length_drop. lia.
  - rewrite length_take. intros j Hj.
    rewrite !list_lookup_total_alt, !lookup_take_lt, <- !list_lookup_total_alt by lia.
    fold (src_bytes offset byte_array). apply bytes_eq; [apply Hor|rewrite src_byte; apply Hb|].
    intros i Hi. rewrite (word_bit 8 out), (word_bit 8 (src_bytes _ _)) by done.
    assert (8 * size <= 8 * (length cs * logt / 8))%nat.
    { apply Nat.mul_le_mono_l. apply Nat.div_le_lower_bound; lia. }
    rewrite Hob by lia. rewrite Hcb by lia. rewrite bool_decide_true by lia. done.
Qed.

Lemma Convert_roundtrip_witness :
  exists cs out, ConvertBytesToCoeffs 5 1 3 [9; 255; 128; 7] = Ok cs /\
    (forall c : nat, 0 <= cs !!! c < 2 ^ Z.of_nat 5) /\
    ConvertCoeffsToBytes cs 5 = Ok out /\
    take 3 out = take 3 (drop 1 [9; 255; 128; 7]).
Proof.
  apply (Convert_roundtrip 5 1 3 [9; 255; 128; 7]); [lia|lia|lia|cbn; lia|].
  intros i. do 4 (destruct i as [|i]; [split; by vm_compute|]). split; by vm_compute.
Defined.

(** A last byte that is not full holds its bits at the bottom: five 5-bit
    coefficients fill three bytes and one bit of the fourth. *)
Example partial_byte_at_bottom : ConvertCoeffsToBytes [31; 31; 31; 31; 31] 5 = Ok [255; 255; 255; 31].
Proof. vm_compute. reflexivity. Qed.
