(* ===== verification/SpiralParams.v ===== *)
(** * The parameters of SpiralPIR (psi/algorithm/spiral/params.{h,cc}, util.cc)

    [Params] and its parts, their accessors, the constructor that builds the NTT
    tables and the CRT constants, [UpdateByDatabaseInfo] that picks the database
    shape, and CRT composition.  The theorems: composition inverts taking
    residues for every parameter set the constructor accepts, and a shape that
    [UpdateByDatabaseInfo] returns holds the whole database and passes every
    check. *)
From S2P Require Import Prelude Float64 SpiralArith NttTable.
From stdpp Require Import pretty.
#[local] Open Scope Z_scope.

(** ** Constants of common.h *)
Definition kMinQ2Bits : Z := 14.
Definition kMaxDbDim : Z := 11.
Definition kQ2Values : list Z :=
  [0; 0; 0; 0; 0; 0; 0; 0; 0; 0; 0; 0; 0; 0; 12289; 12289; 61441; 65537; 65537; 520193;
   786433; 786433; 3604481; 7340033; 16515073; 33292289; 67043329; 132120577; 268369921;
   469762049; 1073479681; 2013265921; 4293918721; 8588886017; 17175674881; 34359214081;
   68718428161].

(** [size_t(1) << k] and [1u << k]. *)
Definition size_shl (k : Z) : res Z := if (0 <=? k) && (k <? 64) then Ok (Z.shiftl 1 k) else UB.
Definition uint_shl (k : Z) : res Z := if (0 <=? k) && (k <? 32) then Ok (Z.shiftl 1 k) else UB.

Record DatabaseMetaInfo := mkDatabaseMetaInfo {
  rows_ : Z;
  byte_size_per_row_ : Z
}.

Record PolyMatrixParams := mkPolyMatrixParams {
  n_ : Z;
  pt_modulus_ : Z;
  q2_bits_ : Z;
  t_conv_ : Z;
  t_exp_left_ : Z;
  t_exp_right_ : Z;
  t_gsw_ : Z
}.

Record QueryParams := mkQueryParams {
  db_dim1_ : Z;
  db_dim2_ : Z;
  instances_ : Z;
  query_seed_compressed_ : bool
}.

Section params.
Context `{L : Lib}.

Record CrtParams := mkCrtParams {
  crt_count_ : Z;
  mod0_inv_mod1_ : Z;
  mod1_inv_mod0_ : Z;
  moduli_ : list Modulus;
  modulus_ : Modulus;
  modulus_log2_ : Z
}.

Record Params := mkParams {
  poly_len_ : Z;
  poly_len_log2_ : Z;
  ntt_tables_ : list NttTables1;
  crt_params_ : CrtParams;
  noise_width_ : double;
  poly_matrix_params_ : PolyMatrixParams;
  query_params_ : QueryParams;
  id_ : Z
}.

(** ** Accessors *)
Section accessors.
Variable p : Params.

Definition GetNttForwardTable (i : nat) : res (list Z) :=
  t ← vget (ntt_tables_ p) i; Ok (forward t).
Definition GetNttForwardPrimeTable (i : nat) : res (list Z) :=
  t ← vget (ntt_tables_ p) i; Ok (forward_prime t).
Definition GetNttInverseTable (i : nat) : res (list Z) :=
  t ← vget (ntt_tables_ p) i; Ok (inverse t).
Definition GetNttInversePrimeTable (i : nat) : res (list Z) :=
  t ← vget (ntt_tables_ p) i; Ok (inverse_prime t).

Definition GetSkGswDims : Z * Z := (n_ (poly_matrix_params_ p), 1).
Definition GetSkRegDims : Z * Z := (1, 1).
Definition Moduli (c : nat) : res Z := m ← vget (moduli_ (crt_params_ p)) c; Ok (value m).
Definition NumExpanded : res Z := size_shl (db_dim1_ (query_params_ p)).
Definition NumItems : res Z :=
  a ← size_shl (db_dim1_ (query_params_ p));
  b ← size_shl (db_dim2_ (query_params_ p)); Ok (u64 (a * b)).
Definition PtModulusBitLen : Z := Log2 (pt_modulus_ (poly_matrix_params_ p)).
Definition ItemSize : Z :=
  let log_p := Log2 (pt_modulus_ (poly_matrix_params_ p)) in
  u64 (instances_ (query_params_ p) * n_ (poly_matrix_params_ p) *
       n_ (poly_matrix_params_ p) * poly_len_ p * log_p) / 8.
Definition G : res Z :=
  e ← NumExpanded;
  let num_bits_to_gen :=
    u64 (t_gsw_ (poly_matrix_params_ p) * db_dim2_ (query_params_ p) + e) in
  Ok (Log2Ceil num_bits_to_gen).
Definition StopRound : Z :=
  Log2Ceil (u64 (t_gsw_ (poly_matrix_params_ p) * db_dim2_ (query_params_ p))).
Definition ScaleK : res Z :=
  udiv (value (modulus_ (crt_params_ p))) (pt_modulus_ (poly_matrix_params_ p)).
Definition PtCoeffs : Z :=
  u64 (n_ (poly_matrix_params_ p) * n_ (poly_matrix_params_ p) * poly_len_ p).
Definition N : Z := n_ (poly_matrix_params_ p).
Definition Q2Bits : Z := q2_bits_ (poly_matrix_params_ p).
Definition Instances : Z := instances_ (query_params_ p).
Definition TConv : Z := t_conv_ (poly_matrix_params_ p).
Definition TGsw : Z := t_gsw_ (poly_matrix_params_ p).
Definition TExpLeft : Z := t_exp_left_ (poly_matrix_params_ p).
Definition TExpRight : Z := t_exp_right_ (poly_matrix_params_ p).
Definition CrtCount : Z := crt_count_ (crt_params_ p).
Definition DbDim1 : Z := db_dim1_ (query_params_ p).
Definition DbDim2 : Z := db_dim2_ (query_params_ p).
Definition PModulus : Z := value (modulus_ (crt_params_ p)).
Definition PtModulus : Z := pt_modulus_ (poly_matrix_params_ p).
Definition FactorOnFirstDim : Z := if db_dim2_ (query_params_ p) =? 0 then 1 else 2.
Definition MaxByteLenOfPt : Z := u64 (poly_len_ p * N * N * PtModulusBitLen) / 8.
Definition MaxBitLenOfPt : Z := u64 (poly_len_ p * N * N * PtModulusBitLen).
Definition PolyLen : Z := poly_len_ p.
Definition PolyLenLog2 : Z := poly_len_log2_ p.
Definition ModulusLog2 : Z := modulus_log2_ (crt_params_ p).
Definition BarrettCr1Modulus : Z := (const_ratio (modulus_ (crt_params_ p))).2.
Definition BarrettCr0Modulus : Z := (const_ratio (modulus_ (crt_params_ p))).1.
Definition BarrettCr1 (i : nat) : res Z :=
  m ← vget (moduli_ (crt_params_ p)) i; Ok (const_ratio m).2.
Definition BarrettCr0 (i : nat) : res Z :=
  m ← vget (moduli_ (crt_params_ p)) i; Ok (const_ratio m).1.

Definition ValidCheck : res unit :=
  _ ← enforce (DbDim1 <=? kMaxDbDim);
  _ ← enforce (DbDim2 <=? kMaxDbDim);
  g ← G;
  _ ← enforce (g <=? poly_len_log2_ p);
  g_half ← uint_shl (u64 (g - 1));
  d1 ← uint_shl DbDim1;
  _ ← enforce (d1 <=? g_half);
  enforce (u64 (DbDim2 * TGsw) <=? g_half).

Definition CrtCompose1 (x : Z) : res Z := _ ← enforce (CrtCount =? 1); Ok x.

Definition CrtCompose2 (x y : Z) : res Z :=
  _ ← enforce (CrtCount =? 2);
  let x_128 := MakeUint128 0 x in
  let y_128 := MakeUint128 0 y in
  let val := u128 (x_128 * MakeUint128 0 (mod1_inv_mod0_ (crt_params_ p))) in
  let val := u128 (val + u128 (y_128 * MakeUint128 0 (mod0_inv_mod1_ (crt_params_ p)))) in
  Ok (BarrettReductionU128Raw val BarrettCr0Modulus BarrettCr1Modulus PModulus).

Definition CrtCompose (a : list Z) (idx : Z) : res Z :=
  if CrtCount =? 1 then x ← vgetz a idx; CrtCompose1 x
  else x ← vgetz a idx; y ← vgetz a (u64 (idx + poly_len_ p)); CrtCompose2 x y.

(** The member and the static function of the same name. *)
Definition ElementSizeOfPt (element_byte_len : Z) : res Z :=
  coeff_size_of_element ← UintNum (u64 (8 * element_byte_len)) PtModulusBitLen;
  element_size_of_pt ← udiv PtCoeffs coeff_size_of_element;
  Ok (Z.max element_size_of_pt 1).

(** The text the id is hashed from. *)
Definition newline : string := String (Ascii.ascii_of_nat 10) EmptyString.
Definition comma_list (zs : list Z) : string :=
  String.concat ", " (map pretty zs).
Definition ToString : string :=
  ("poly_len: " +:+ pretty (poly_len_ p) +:+ ", Pt dimension: " +:+ pretty N
   +:+ ", pt modulus: " +:+ pretty PtModulus +:+ newline
   +:+ "modulus: " +:+ pretty PModulus +:+ ", moduli: {"
   +:+ comma_list (map value (take (Z.to_nat CrtCount) (moduli_ (crt_params_ p))))
   +:+ "}" +:+ newline
   +:+ "t_conv: " +:+ pretty TConv +:+ ", t_exp_left: " +:+ pretty TExpLeft
   +:+ ", t_exp_right: " +:+ pretty TExpRight +:+ ", t_gsw: " +:+ pretty TGsw +:+ newline
   +:+ "v1: " +:+ pretty DbDim1 +:+ ", v2: " +:+ pretty DbDim2)%string.
End accessors.

(** The static [ElementSizeOfPt] rejects what the member rounds up to one. *)
Definition ElementSizeOfPt_static (element_byte_len pt_modulus_bit_len pt_coeffs : Z) : res Z :=
  coeff_size_of_element ← UintNum (u64 (8 * element_byte_len)) pt_modulus_bit_len;
  element_size_of_pt ← udiv pt_coeffs coeff_size_of_element;
  _ ← enforce (0 <? element_size_of_pt);
  Ok element_size_of_pt.

(** [hash_id] is the first word of a text's Blake3 digest. *)
Variable hash_id : string -> Z.

Definition ComputeId (p : Params) : Params :=
  mkParams (poly_len_ p) (poly_len_log2_ p) (ntt_tables_ p) (crt_params_ p)
    (noise_width_ p) (poly_matrix_params_ p) (query_params_ p) (hash_id (ToString p)).

Definition make_moduli (moduli : list Z) : res (list Modulus) :=
  for_each moduli (fun v acc => m ← Modulus_make v; Ok (acc ++ [m])) [].

Definition Params_new (poly_len : Z) (moduli : list Z) (noise_width : double)
    (pm : PolyMatrixParams) (qp : QueryParams) : res Params :=
  _ ← enforce (kMinQ2Bits <=? q2_bits_ pm);
  let poly_len_log2 := Log2 poly_len in
  let crt_count := length moduli in
  _ ← enforce (bool_decide (crt_count <= kMaxModuli)%nat);
  moduli_seal ← make_moduli moduli;
  ntt_tables ← BuildNttTables (Z.to_nat poly_len) moduli_seal;
  let modulus := foldl (fun acc m => u64 (acc * m)) 1 moduli in
  modulus_seal ← Modulus_make modulus;
  let modulus_log2 := Log2Ceil modulus in
  '(mod0_inv_mod1, mod1_inv_mod0) ←
    (if bool_decide (crt_count = 2%nat) then
       m0 ← vget moduli 0;
       m1 ← vget moduli 1;
       i0 ← InvertUintMod_u64 m0 m1;
       i1 ← InvertUintMod_u64 m1 m0;
       Ok (u64 (m0 * i0), u64 (m1 * i1))
     else Ok (0, 0));
  let crt := mkCrtParams (Z.of_nat crt_count) mod0_inv_mod1 mod1_inv_mod0
               moduli_seal modulus_seal modulus_log2 in
  Ok (ComputeId (mkParams poly_len poly_len_log2 ntt_tables crt noise_width pm qp 0)).

Definition ParamsWithModuli (p : Params) (moduli : list Z) : res Params :=
  Params_new (PolyLen p) moduli (noise_width_ p) (poly_matrix_params_ p) (query_params_ p).

(** The literals 0.6 and 0.4. *)
Definition f64_0_6 : double := SpecFloat.S754_finite false 5404319552844595 (-53).
Definition f64_0_4 : double := SpecFloat.S754_finite false 7205759403792794 (-54).

(** [while ((size_t)(1 << (v1 + v2)) < plaintext_size) v2 += 1], with the number
    of turns left. *)
Fixpoint grow_v2 (fuel : nat) (v1 v2 plaintext_size : Z) : res Z :=
  match fuel with
  | O => UB
  | S fuel' =>
      s ← int_shl (v1 + v2);
      if s <? plaintext_size then grow_v2 fuel' v1 (v2 + 1) plaintext_size else Ok v2
  end.

Definition set_t_gsw (t : Z) (pm : PolyMatrixParams) : PolyMatrixParams :=
  mkPolyMatrixParams (n_ pm) (pt_modulus_ pm) (q2_bits_ pm) (t_conv_ pm)
    (t_exp_left_ pm) (t_exp_right_ pm) t.

Definition set_dims (v1 v2 : Z) (pm : PolyMatrixParams) (p : Params) : Params :=
  mkParams (poly_len_ p) (poly_len_log2_ p) (ntt_tables_ p) (crt_params_ p)
    (noise_width_ p) pm
    (mkQueryParams v1 v2 (instances_ (query_params_ p))
       (query_seed_compressed_ (query_params_ p))) (id_ p).

(** [v1], [v2] and [t_gsw_] for a number of plaintexts. *)
Definition choose_dims (p : Params) (plaintext_size : Z) : res (Z * Z * PolyMatrixParams) :=
  let pm := poly_matrix_params_ p in
  if plaintext_size <=? 4 then Ok (2, 1, set_t_gsw 4 pm)
  else
    let log2 := Log2Ceil plaintext_size in
    v1 ← u64_of_f64 (f64_mul (f64_of_u64 log2) f64_0_6);
    v2 ← u64_of_f64 (f64_mul (f64_of_u64 log2) f64_0_4);
    v2 ← grow_v2 64 v1 v2 plaintext_size;
    Ok (v1, v2, pm).

(** The updated parameters and the number of plaintexts. *)
Definition UpdateByDatabaseInfo (info : DatabaseMetaInfo) (p : Params) : res (Params * Z) :=
  let element_byte_len := Z.min (byte_size_per_row_ info) (MaxByteLenOfPt p) in
  element_size_of_pt ← ElementSizeOfPt p element_byte_len;
  plaintext_size ← UintNum (rows_ info) element_size_of_pt;
  '(v1, v2, pm) ← choose_dims p plaintext_size;
  let p' := set_dims v1 v2 pm p in
  _ ← ValidCheck p';
  Ok (ComputeId p', plaintext_size).
End params.

(** ** arith_params.h: arithmetic modulo a parameter set's moduli *)
Section arith_params.
Context `{L : Lib}.
Variable p : Params.

Definition BarrettU64 (val : Z) : Z := BarrettRawU64 val (BarrettCr1Modulus p) (PModulus p).
Definition BarrettCoeffU64 (val : Z) (moduli_idx : nat) : res Z :=
  cr1 ← BarrettCr1 p moduli_idx;
  modulus ← Moduli p moduli_idx;
  Ok (BarrettRawU64 val cr1 modulus).
Definition BarrettReductionU128 (val : Z) : Z :=
  BarrettReductionU128Raw val (BarrettCr0Modulus p) (BarrettCr1Modulus p) (PModulus p).
Definition MultiplyModular (a b : Z) (moduli_idx : nat) : res Z :=
  BarrettCoeffU64 (u64 (a * b)) moduli_idx.
Definition MultiplyAddModular (a b x : Z) (moduli_idx : nat) : res Z :=
  BarrettCoeffU64 (u64 (u64 (a * b) + x)) moduli_idx.
Definition AddModular (a b : Z) (moduli_idx : nat) : res Z :=
  BarrettCoeffU64 (u64 (a + b)) moduli_idx.
Definition InvertModular (a : Z) (moduli_idx : nat) : res Z :=
  modulus ← Moduli p moduli_idx; Ok (u64 (modulus - a)).
Definition ModularReduce (a : Z) (moduli_idx : nat) : res Z := BarrettCoeffU64 a moduli_idx.
End arith_params.

(** ** The parameter sets of util.cc; 6.4 is the default noise width *)
Section param_sets.
Context `{L : Lib} (hash_id : string -> Z).
Definition f64_6_4 : double := SpecFloat.S754_finite false 7205759403792794 (-50).
Definition spiral_moduli : list Z := [268369921; 249561089].

Definition GetLargerParam : res Params :=
  Params_new hash_id 2048 spiral_moduli f64_6_4
    (mkPolyMatrixParams 2 256 22 3 5 5 7) (mkQueryParams 9 6 4 true).
Definition GetTestParam : res Params :=
  Params_new hash_id 2048 spiral_moduli f64_6_4
    (mkPolyMatrixParams 2 256 20 4 8 56 8) (mkQueryParams 9 6 1 true).
Definition GetDefaultParam : res Params :=
  Params_new hash_id 2048 spiral_moduli f64_6_4
    (mkPolyMatrixParams 2 256 21 4 8 8 6) (mkQueryParams 9 6 1 true).
Definition GetFastParam : res Params :=
  Params_new hash_id 2048 spiral_moduli f64_6_4
    (mkPolyMatrixParams 2 256 21 4 8 8 4) (mkQueryParams 9 6 1 true).
Definition GetFastExpansionTestingParam : res Params :=
  Params_new hash_id 2048 spiral_moduli f64_6_4
    (mkPolyMatrixParams 2 256 20 4 8 8 4) (mkQueryParams 6 2 1 true).
End param_sets.

Section crt.
Context `{LL : LibLaws} (hash_id : string -> Z).

Lemma const_ratio_words m :
  2 <= value m < 2 ^ 64 ->
  0 <= (const_ratio m).1 < 2 ^ 64 /\ 0 <= (const_ratio m).2 < 2 ^ 64 /\
  (const_ratio m).1 + (const_ratio m).2 * 2 ^ 64 = 2 ^ 128 / value m /\
  (const_ratio m).2 = 2 ^ 64 / value m.
Proof.
  intros Hm. rewrite const_ratio_eq by lia. cbn [fst snd].
  assert (0 <= 2 ^ 128 / value m < 2 ^ 128)
    by (split; [apply Z.div_pos; lia|apply Z.div_lt; lia]).
  split; [apply Z.mod_pos_bound; lia|]. split.
  { split; [apply Z.div_pos; lia|apply Z.div_lt_upper_bound; lia]. }
  split; [rewrite (Z.div_mod (2 ^ 128 / value m) (2 ^ 64)) at 3 by lia; ring|].
  rewrite Z.div_div, Z.mul_comm, <- Z.div_div by lia. done.
Qed.

(** Reduction modulo one of the moduli. *)
Lemma BarrettCoeffU64_mod p v i m :
  0 <= v < 2 ^ 64 -> moduli_ (crt_params_ p) !! i = Some m -> 2 <= value m <= 2 ^ 63 ->
  BarrettCoeffU64 p v i = Ok (v mod value m).
Proof.
  intros Hv Hi Hm. unfold BarrettCoeffU64, BarrettCr1, Moduli, vget. rewrite Hi. run.
  destruct (const_ratio_words m) as (_ & _ & _ & E); [lia|].
  by rewrite BarrettRawU64_mod by done.
Qed.

(** Two residues determine a number below the product. *)
Lemma crt_unique q0 q1 i d :
  1 < q1 -> (q0 * i) mod q1 = 1 -> d mod q0 = 0 -> d mod q1 = 0 -> 0 < q0 ->
  d mod (q0 * q1) = 0.
Proof.
  intros H1 Hi Hd0 Hd1 H0.
  apply Z.mod_divide in Hd0 as [k Hk]; [|lia]. apply Z.mod_divide in Hd1 as [l Hl]; [|lia].
  assert (q0 * i = 1 + q1 * (q0 * i / q1)) as Hb by (pose proof (Z.div_mod (q0 * i) q1); lia).
  set (a := q0 * i / q1) in *. apply Z.mod_divide; [lia|].
  exists (l * i - a * k).
  transitivity (d * (q0 * i - q1 * a)); [rewrite Hb; ring|].
  rewrite Z.mul_sub_distr_l. rewrite Hl at 1. rewrite Hk. ring.
Qed.

Lemma crt_combine q0 q1 i0 i1 v :
  1 < q0 -> 1 < q1 -> (q0 * i0) mod q1 = 1 -> (q1 * i1) mod q0 = 1 -> 0 <= v < q0 * q1 ->
  (v mod q0 * (q1 * i1) + v mod q1 * (q0 * i0)) mod (q0 * q1) = v.
Proof.
  intros H0 H1 Hi0 Hi1 Hv.
  set (w := _ + _). rewrite <- (Z.mod_small v (q0 * q1)) at 1 by done.
  assert ((w - v) mod (q0 * q1) = 0) as Hd.
  { apply (crt_unique q0 q1 i0); try lia; subst w.
    - replace (v mod q0 * (q1 * i1) + v mod q1 * (q0 * i0) - v)
        with (v mod q0 * (q1 * i1) - v + (v mod q1 * i0) * q0) by ring.
      rewrite Z.mod_add by lia. rewrite Zminus_mod, Z.mul_mod, Hi1 by lia.
      by rewrite Z.mul_1_r, !Z.mod_mod, Z.sub_diag by lia.
    - replace (v mod q0 * (q1 * i1) + v mod q1 * (q0 * i0) - v)
        with (v mod q1 * (q0 * i0) - v + (v mod q0 * i1) * q1) by ring.
      rewrite Z.mod_add by lia. rewrite Zminus_mod, Z.mul_mod, Hi0 by lia.
      by rewrite Z.mul_1_r, !Z.mod_mod, Z.sub_diag by lia. }
  apply Z.mod_divide in Hd as [k Hk]; [|nia].
  replace w with (v + k * (q0 * q1)) by lia. rewrite Z.mod_add by nia. done.
Qed.

Lemma make_moduli_values vs ms :
  make_moduli vs = Ok ms -> map value ms = vs.
Proof.
  intros (ms' & -> & HF)%for_each_push. cbn [app]. induction HF as [|v m vs ms Hm _ IH]; [done|].
  cbn [map]. apply Modulus_make_inv in Hm as [-> _]. by rewrite IH.
Qed.

Lemma InvertUintMod_u64_spec a q r :
  1 < q -> InvertUintMod_u64 a q = Ok r -> 0 <= r < q /\ (a * r) mod q = 1.
Proof.
  intros Hq. unfold InvertUintMod_u64.
  intros (_ & _ & (m & [Hm _]%Modulus_make_inv & H)%bind_ok)%bind_ok.
  destruct (try_invert_uint_mod a m) as [r'|] eqn:E; [|done]. injection H as ->.
  apply try_invert_uint_mod_spec in E. rewrite Hm, Z.mod_1_l in E by lia. done.
Qed.

(** What the constructor establishes. *)
Lemma Params_new_inv poly_len vs noise pm qp p :
  Params_new hash_id poly_len vs noise pm qp = Ok p ->
  CrtCount p = Z.of_nat (length vs) /\ PolyLen p = poly_len /\ PolyLenLog2 p = Log2 poly_len /\
  map value (moduli_ (crt_params_ p)) = vs /\
  BuildNttTables (Z.to_nat poly_len) (moduli_ (crt_params_ p)) = Ok (ntt_tables_ p).
Proof.
  unfold Params_new. intros Hp.
  do 2 apply bind_ok in Hp as (? & _ & Hp). apply bind_ok in Hp as (ms & Hms & Hp).
  apply bind_ok in Hp as (tb & Htb & Hp). apply bind_ok in Hp as (mo & _ & Hp).
  apply bind_ok in Hp as ([c01 c10] & _ & [= <-]).
  split_and!; try done. cbn. by apply make_moduli_values.
Qed.

Lemma CrtCompose2_ok poly_len q0 q1 noise pm qp p v :
  1 < q0 -> 1 < q1 -> q0 * q1 < 2 ^ 61 ->
  Params_new hash_id poly_len [q0; q1] noise pm qp = Ok p ->
  0 <= v < q0 * q1 ->
  CrtCompose2 p (v mod q0) (v mod q1) = Ok v.
Proof.
  intros Hq0 Hq1 Hq Hp Hv. unfold Params_new in Hp.
  do 2 apply bind_ok in Hp as (? & _ & Hp). apply bind_ok in Hp as (ms & _ & Hp).
  apply bind_ok in Hp as (tb & _ & Hp). apply bind_ok in Hp as (mo & Hmo & Hp).
  cbn [foldl] in Hmo. rewrite Z.mul_1_l in Hmo.
  rewrite (u64_small q0), (u64_small (q0 * q1)) in Hmo by nia.
  apply Modulus_make_inv in Hmo as [Hmo _].
  apply bind_ok in Hp as ([c01 c10] & Hc & [= <-]).
  rewrite bool_decide_true in Hc by done. revert Hc. run. unfold vget. cbn [lookup]. simpl. intros Hc.
  apply bind_ok in Hc as (i0 & Hi0 & (i1 & Hi1 & [= <- <-])%bind_ok).
  apply InvertUintMod_u64_spec in Hi0 as [Hr0 Hi0]; [|done].
  apply InvertUintMod_u64_spec in Hi1 as [Hr1 Hi1]; [|done].
  assert (0 <= q0 * i0 < q0 * q1) by nia. assert (0 <= q1 * i1 < q0 * q1) by nia.
  unfold CrtCompose2, CrtCount, PModulus, BarrettCr0Modulus, BarrettCr1Modulus, ComputeId.
  cbn [crt_params_ crt_count_ mod0_inv_mod1_ mod1_inv_mod0_ modulus_]. simpl length. run.
  pose proof (Z.mod_pos_bound v q0 ltac:(lia)). pose proof (Z.mod_pos_bound v q1 ltac:(lia)).
  assert (q0 < 2 ^ 61 /\ q1 < 2 ^ 61) as [Hb0 Hb1] by nia.
  rewrite (u64_small (q0 * i0)), (u64_small (q1 * i1)) by lia.
  rewrite !MakeUint128_eq by lia. cbn [Z.mul]. rewrite !Z.add_0_l.
  assert (0 <= v mod q0 * (q1 * i1) < 2 ^ 122) by (change (2 ^ 122) with (2 ^ 61 * 2 ^ 61); nia).
  assert (0 <= v mod q1 * (q0 * i0) < 2 ^ 122) by (change (2 ^ 122) with (2 ^ 61 * 2 ^ 61); nia).
  unfold u128. autorewrite with wrap. rewrite (wrap_small 128) by (unfold in_u; lia).
  change (Z.of_nat 2 =? 2) with true. run.
  destruct (const_ratio_words mo) as (Hc0 & Hc1 & HE & _); [rewrite Hmo; nia|].
  destruct (BarrettReductionU128Raw_mod
    (v mod q0 * (q1 * i1) + v mod q1 * (q0 * i0)) _ _ (value mo)
    ltac:(lia) ltac:(rewrite Hmo; nia) Hc0 Hc1 HE) as [-> _].
  rewrite Hmo. f_equal. by apply crt_combine.
Qed.

(** The modulus over two moduli. *)
Lemma Params_new_modulus poly_len q0 q1 noise pm qp p :
  1 < q0 -> 1 < q1 -> q0 * q1 < 2 ^ 61 -> Params_new hash_id poly_len [q0; q1] noise pm qp = Ok p ->
  PModulus p = q0 * q1 /\ ModulusLog2 p = Log2Ceil (q0 * q1).
Proof.
  intros Hq0 Hq1 Hq Hp. unfold Params_new in Hp.
  do 2 apply bind_ok in Hp as (? & _ & Hp). apply bind_ok in Hp as (ms & _ & Hp).
  apply bind_ok in Hp as (tb & _ & Hp). apply bind_ok in Hp as (mo & Hmo & Hp).
  cbn [foldl] in Hmo, Hp. rewrite Z.mul_1_l in Hmo, Hp. rewrite (u64_small q0), (u64_small (q0 * q1)) in Hmo, Hp by nia.
  apply Modulus_make_inv in Hmo as [Hmo _]. apply bind_ok in Hp as ([c01 c10] & _ & [= <-]). by split.
Qed.

(** CRT composition inverts taking residues: for every parameter set over two
    moduli that the constructor builds, composing the residues of [v] gives back
    [v] for every [v] below the product of the moduli. *)
Theorem CrtCompose2_residues poly_len q0 q1 noise pm qp p v :
  1 < q0 -> 1 < q1 -> q0 * q1 < 2 ^ 61 ->
  Params_new hash_id poly_len [q0; q1] noise pm qp = Ok p ->
  0 <= v < q0 * q1 ->
  CrtCompose2 p (v mod q0) (v mod q1) = Ok v.
Proof. apply CrtCompose2_ok. Qed.

(** ** The database shape *)

Lemma grow_v2_ok fuel v1 v2 n :
  0 <= v1 -> 0 <= v2 -> v1 + v2 <= 30 -> 1 <= n <= 2 ^ 30 ->
  30 - (v1 + v2) < Z.of_nat fuel ->
  wp (grow_v2 fuel v1 v2 n) (fun v => v2 <= v /\ n <= 2 ^ (v1 + v)).
Proof.
  revert v2. induction fuel as [|fuel IH]; intros v2 H1 H2 Hs Hn Hf; [lia|].
  cbn [grow_v2]. rewrite int_shl_small by lia. run.
  destruct (_ <? n) eqn:E; [|cbn [wp]; split; lia].
  assert (v1 + v2 <> 30) by (intros Heq; rewrite Heq in E; lia).
  eapply wp_mono; [apply IH; lia|]. cbn beta. intros v [??]. split; lia.
Qed.

(** The doubles [0.6 * log2] and [0.4 * log2], truncated, for every logarithm. *)
Definition split_log (l : Z) : bool :=
  match u64_of_f64 (f64_mul (f64_of_u64 l) f64_0_6),
        u64_of_f64 (f64_mul (f64_of_u64 l) f64_0_4) with
  | Ok v1, Ok v2 => (1 <=? v1) && (0 <=? v2) && (v1 + v2 <=? l)
  | _, _ => false
  end.

Lemma split_log_ok : forallb split_log (seqZ 3 28) = true.
Proof. vm_compute. reflexivity. Qed.

Lemma choose_dims_ok p n :
  0 <= n <= 2 ^ 30 ->
  wp (choose_dims p n) (fun '(v1, v2, pm) =>
    1 <= v1 <= 30 /\ 0 <= v2 /\ n <= 2 ^ (v1 + v2) /\
    pm = set_t_gsw (if n <=? 4 then 4 else TGsw p) (poly_matrix_params_ p)).
Proof.
  intros Hn. unfold choose_dims. destruct (n <=? 4) eqn:E.
  { cbn [wp]. split_and!; try lia. done. }
  unfold Log2Ceil. rewrite Log2CeilOf_eq by lia.
  assert (3 <= Z.log2_up n <= 30) as Hl.
  { split; [change 3 with (Z.log2_up 5); apply Z.log2_up_le_mono; lia|]. apply Z.log2_up_le_pow2; lia. }
  pose proof split_log_ok as Hs. rewrite forallb_forall in Hs.
  specialize (Hs (Z.log2_up n) ltac:(apply list_elem_of_In, elem_of_seqZ; lia)).
  unfold split_log in Hs.
  destruct (u64_of_f64 (f64_mul _ f64_0_6)) as [v1| |]; [|done..].
  destruct (u64_of_f64 (f64_mul _ f64_0_4)) as [v2| |]; [|done..].
  run. apply wp_bind. eapply wp_mono; [apply (grow_v2_ok 64 v1 v2 n); lia|].
  cbn beta. intros v [Hv Hnv]. cbn [wp]. split_and!; try lia.
  unfold set_t_gsw, TGsw. by destruct (poly_matrix_params_ p).
Qed.

(** What a parameter set must satisfy for its sizes to be computed without
    wrapping. *)
Record params_sane (p : Params) : Prop := {
  ps_pt : 2 <= PtModulus p < 2 ^ 64;
  ps_n : 1 <= N p;
  ps_len : 1 <= poly_len_ p;
  ps_bits : 8 <= poly_len_ p * N p * N p * PtModulusBitLen p < 2 ^ 60;
  ps_gsw : 0 <= TGsw p < 2 ^ 32;
  ps_log : poly_len_log2_ p <= 32
}.

Definition ceil_div (a b : Z) : Z := (a + b - 1) / b.

Lemma ceil_div_spec a b : 0 <= a -> 0 < b -> a <= ceil_div a b * b /\ (ceil_div a b - 1) * b < Z.max a 1.
Proof.
  intros Ha Hb. unfold ceil_div. destruct (div_mul_bounds (a + b - 1) b) as [? ?]; lia.
Qed.

Lemma UintNum_eq a b : 0 <= a -> 0 < b -> a + b < 2 ^ 64 -> UintNum a b = Ok (ceil_div a b).
Proof.
  intros. unfold UintNum, udiv, ceil_div. replace (b =? 0) with false by lia. run.
  by rewrite (u64_small (a + b)), u64_small by lia.
Qed.

Lemma bitlen_bounds p : params_sane p -> 1 <= PtModulusBitLen p <= 63.
Proof.
  intros [Hpt _ _ _ _ _]. unfold PtModulusBitLen, Log2, PtModulus in *.
  rewrite Log2Floor_eq by lia. split.
  - apply Z.log2_le_pow2; lia.
  - apply Z.lt_succ_r. apply Z.log2_lt_pow2; lia.
Qed.

Lemma coeffs_bounds p : params_sane p ->
  1 <= poly_len_ p * N p * N p < 2 ^ 60 /\ PtCoeffs p = poly_len_ p * N p * N p.
Proof.
  intros Hp. pose proof (bitlen_bounds p Hp). destruct Hp as [_ Hn Hl Hb _ _].
  assert (1 <= poly_len_ p * N p) by nia.
  assert (1 <= poly_len_ p * N p * N p) by nia.
  assert (poly_len_ p * N p * N p < 2 ^ 60) by nia.
  split; [lia|]. unfold PtCoeffs. fold (N p). rewrite u64_small; [ring|].
  replace (N p * N p * poly_len_ p) with (poly_len_ p * N p * N p) by ring. lia.
Qed.

(** One plaintext holds [e >= 1] rows of [len] bytes, all within its coefficients. *)
Lemma ElementSizeOfPt_fits p len :
  params_sane p -> 1 <= len <= MaxByteLenOfPt p ->
  exists e, ElementSizeOfPt p len = Ok e /\ 1 <= e < 2 ^ 60 /\
    e * ceil_div (8 * len) (PtModulusBitLen p) <= PtCoeffs p.
Proof.
  intros Hp Hlen. pose proof (bitlen_bounds p Hp) as Hb.
  destruct (coeffs_bounds p Hp) as [Hc Hce]. pose proof (ps_bits p Hp) as Hbits.
  unfold MaxByteLenOfPt in Hlen. rewrite u64_small in Hlen by lia.
  set (C := poly_len_ p * N p * N p) in *. set (b := PtModulusBitLen p) in *.
  assert (8 * len <= C * b) as Hfit.
  { destruct (div_mul_bounds (C * b) 8); [lia..|]. lia. }
  unfold ElementSizeOfPt. rewrite (u64_small (8 * len)) by lia.
  fold b. rewrite UintNum_eq by lia. run. rewrite Hce.
  destruct (ceil_div_spec (8 * len) b) as [H1 H2]; [lia..|].
  set (k := ceil_div (8 * len) b) in *. assert (1 <= k) by nia.
  assert (k <= C) by nia.
  unfold udiv. replace (k =? 0) with false by lia. run.
  assert (1 <= C / k) by (apply Z.div_le_lower_bound; lia).
  assert (C / k <= C) by (apply Z.div_le_upper_bound; nia).
  exists (C / k). split; [f_equal; lia|]. split; [lia|].
  destruct (div_mul_bounds C k); lia.
Qed.

Lemma ValidCheck_safe p :
  1 <= DbDim1 p <= 30 -> 0 <= DbDim2 p -> 0 <= TGsw p < 2 ^ 32 -> poly_len_log2_ p <= 32 ->
  safe (ValidCheck p) (fun _ => DbDim1 p <= 11 /\ DbDim2 p <= 11 /\
    2 ^ DbDim1 p + DbDim2 p * TGsw p <= 2 ^ poly_len_log2_ p).
Proof.
  intros H1 H2 Ht H32. unfold ValidCheck, kMaxDbDim.
  apply safe_enforce. intros Hd1%Z.leb_le. apply safe_enforce. intros Hd2%Z.leb_le.
  assert (2 ^ DbDim1 p <= 2 ^ 11) as Hp1 by (apply Z.pow_le_mono_r; lia).
  assert (1 <= 2 ^ DbDim1 p) as Hp2 by (apply (Z.pow_le_mono_r 2 0); lia).
  unfold G, NumExpanded. fold (DbDim1 p). unfold size_shl.
  replace (_ && _) with true by lia. run. rewrite Z.shiftl_1_l.
  fold (TGsw p) (DbDim2 p). assert (0 <= TGsw p * DbDim2 p <= 2 ^ 32 * 11) by nia.
  rewrite (u64_small (TGsw p * DbDim2 p + 2 ^ DbDim1 p)) by lia.
  unfold Log2Ceil. rewrite Log2CeilOf_eq by lia.
  set (nb := TGsw p * DbDim2 p + 2 ^ DbDim1 p) in *.
  apply safe_enforce. intros Hg%Z.leb_le.
  assert (nb <= 2 ^ Z.log2_up nb) as Hlog by (apply Z.log2_log2_up_spec; lia).
  assert (2 ^ Z.log2_up nb <= 2 ^ poly_len_log2_ p) as Hpow.
  { apply Z.pow_le_mono_r; lia. }
  assert (1 <= Z.log2_up nb) as Hg1.
  { rewrite <- (Z.log2_up_pow2 1) by lia. apply Z.log2_up_le_mono.
    assert (2 ^ 1 <= 2 ^ DbDim1 p) by (apply Z.pow_le_mono_r; lia). nia. }
  rewrite (u64_small (_ - 1)) by lia. unfold uint_shl.
  replace (_ && _) with true by lia. run. replace (_ && _) with true by lia. run.
  apply safe_enforce. intros _. unfold enforce. destruct (_ <=? _); [|done].
  cbn [safe]. split_and!; try lia.
Qed.

(** For a database of up to 2^30 rows [UpdateByDatabaseInfo] rejects the
    parameters or returns a shape that holds the database: a plaintext takes
    [e >= 1] rows within its coefficients, [n] plaintexts take every row, the
    hypercube 2^(v1 + v2) has a place for each, and the expanded query of
    2^v1 + v2 t_gsw values fits a polynomial.  It never reaches undefined
    behaviour. *)
Theorem UpdateByDatabaseInfo_shape info p :
  params_sane p -> 0 <= rows_ info <= 2 ^ 30 -> 1 <= byte_size_per_row_ info < 2 ^ 64 ->
  let len := Z.min (byte_size_per_row_ info) (MaxByteLenOfPt p) in
  safe (UpdateByDatabaseInfo hash_id info p) (fun '(p', n) =>
    (exists e, 1 <= e /\ e * ceil_div (8 * len) (PtModulusBitLen p) <= PtCoeffs p' /\
       rows_ info <= n * e) /\
    n <= 2 ^ (DbDim1 p' + DbDim2 p') /\
    DbDim1 p' <= kMaxDbDim /\ DbDim2 p' <= kMaxDbDim /\
    2 ^ DbDim1 p' + DbDim2 p' * TGsw p' <= 2 ^ PolyLenLog2 p').
Proof.
  intros Hp Hr Hby len. unfold UpdateByDatabaseInfo. fold len.
  pose proof (bitlen_bounds p Hp) as Hb. pose proof (coeffs_bounds p Hp) as [Hc _].
  assert (1 <= MaxByteLenOfPt p) as Hmax.
  { unfold MaxByteLenOfPt. pose proof (ps_bits p Hp). rewrite u64_small by lia.
    apply Z.div_le_lower_bound; lia. }
  destruct (ElementSizeOfPt_fits p len Hp ltac:(lia)) as (e & -> & He & Hfit). run.
  rewrite UintNum_eq by lia. run.
  destruct (ceil_div_spec (rows_ info) e) as [Hn1 Hn2]; [lia..|].
  set (n := ceil_div (rows_ info) e) in *.
  assert (0 <= n) by (apply Z.div_pos; lia).
  assert (n <= 2 ^ 30) by nia.
  destruct (proj1 (wp_iff _ _) (choose_dims_ok p n ltac:(lia))) as ([[v1 v2] pm] & -> & Hv). run.
  destruct Hv as (Hv1 & Hv2 & Hnv & ->).
  apply safe_bind. eapply safe_mono.
  { apply ValidCheck_safe; cbn [set_dims DbDim1 DbDim2 TGsw query_params_ db_dim1_ db_dim2_
      poly_matrix_params_ set_t_gsw t_gsw_ poly_len_log2_]; try lia.
    - destruct (n <=? 4); [lia|]. apply (ps_gsw p Hp).
    - apply (ps_log p Hp). }
  cbn beta. intros _ (H1 & H2 & H3). cbn [safe]. split.
  { exists e. split; [lia|]. split; [exact Hfit|lia]. }
  split_and!; try done.
Qed.

End crt.

(** ** The properties at concrete inputs *)
Import Ref.

Definition toy_params : res Params :=
  Params_new (fun _ => 0) 4 [17; 41] f64_6_4
    (mkPolyMatrixParams 1 2 14 3 4 4 4) (mkQueryParams 1 1 1 true).

(** The sizes of the default parameters. *)
Definition sizes_params : Params :=
  mkParams 2048 11 [] (mkCrtParams 2 0 0 [] 0 56) f64_6_4
    (mkPolyMatrixParams 2 256 21 4 8 8 6) (mkQueryParams 9 6 1 true) 0.

Lemma sizes_params_sane : params_sane sizes_params.
Proof.
  assert (PtModulusBitLen sizes_params = 8) as Hb by reflexivity.
  split; try (rewrite Hb); cbn -[Z.pow]; lia.
Qed.

Definition toy : Params := match toy_params with Ok p => p | _ => sizes_params end.

Lemma toy_params_ok : toy_params = Ok toy.
Proof.
  assert (is_ok toy_params = true) as H by (vm_compute; reflexivity).
  unfold toy. by destruct toy_params.
Qed.

Lemma CrtCompose2_residues_witness :
  CrtCompose2 toy (500 mod 17) (500 mod 41) = Ok 500.
Proof.
  apply (CrtCompose2_residues (fun _ => 0) 4 17 41 f64_6_4
    (mkPolyMatrixParams 1 2 14 3 4 4 4) (mkQueryParams 1 1 1 true) toy 500); try lia.
  exact toy_params_ok.
Defined.

Lemma UpdateByDatabaseInfo_shape_witness :
  is_ok (UpdateByDatabaseInfo (fun _ => 0) (mkDatabaseMetaInfo 100000 256) sizes_params) = true /\
  safe (UpdateByDatabaseInfo (fun _ => 0) (mkDatabaseMetaInfo 100000 256) sizes_params)
   (fun '(p', n) =>
    (exists e, 1 <= e /\
       e * ceil_div (8 * Z.min 256 (MaxByteLenOfPt sizes_params)) (PtModulusBitLen sizes_params)
         <= PtCoeffs p' /\ 100000 <= n * e) /\
    n <= 2 ^ (DbDim1 p' + DbDim2 p') /\
    DbDim1 p' <= kMaxDbDim /\ DbDim2 p' <= kMaxDbDim /\
    2 ^ DbDim1 p' + DbDim2 p' * TGsw p' <= 2 ^ PolyLenLog2 p').
Proof.
  split; [vm_compute; reflexivity|].
  exact (UpdateByDatabaseInfo_shape (fun _ => 0) (mkDatabaseMetaInfo 100000 256) sizes_params
    sizes_params_sane ltac:(cbn; lia) ltac:(cbn; lia)).
Defined.
