(* ===== verification/Ntt.v ===== *)
(** * The number theoretic transforms of SpiralPIR (psi/algorithm/spiral/arith/ntt.cc)

    [NttForward] and [NttInverse] of both builds: the scalar one and the one over
    four 64-bit lanes of AVX2.  Both walk the same stages of butterflies over a
    span; [stage] is that walk, with the butterfly a parameter.  The theorems:
    the inverse transform undoes the forward one over the tables the constructor
    builds, every word staying in range; the AVX2 forward transform agrees with
    the scalar one modulo each modulus and can only leave the modulus itself in
    place of zero. *)
From S2P Require Import Prelude SpiralArith NttTable SpiralParams.
#[local] Open Scope Z_scope.

(** [absl::Span::subspan(pos, len)], and the span it was cut from after a write
    through it. *)
Definition subspan {A} (v : list A) (pos len : nat) : res (list A) :=
  if bool_decide (pos <= length v)%nat then Ok (take len (drop pos v)) else Throw.
Definition put_span {A} (v : list A) (pos : nat) (s : list A) : list A :=
  take pos v ++ s ++ drop (pos + length s) v.

(** ** Butterflies *)

(** [NttForward], scalar: 32-bit inputs, 64-bit results. *)
Definition fwd_butterfly (modulus_small w w_prime x y : Z) : Z * Z :=
  let two_times_modulus_small := u32 (2 * modulus_small) in
  let x := u32 x in
  let y := u32 y in
  let curr_x := u32 (x - u32 (two_times_modulus_small * b2z (two_times_modulus_small <=? x))) in
  let q_tmp := Z.shiftr (u64 (y * w_prime)) 32 in
  let q_new := u64 (u64 (w * y) - u64 (q_tmp * modulus_small)) in
  (u64 (curr_x + q_new), u64 (curr_x + u64 (two_times_modulus_small - q_new))).

(** [NttInverse], scalar. *)
Definition inv_butterfly (modulus w w_prime x y : Z) : Z * Z :=
  let two_times_modulus := u64 (2 * modulus) in
  let t_tmp := u64 (u64 (two_times_modulus - y) + x) in
  let curr_x := u64 (u64 (x + y) -
    u64 (two_times_modulus * b2z (t_tmp <=? u64 (Z.shiftl x 1)))) in
  let h_tmp := Z.shiftr (u64 (t_tmp * w_prime)) 32 in
  let res_x := Z.shiftr (u64 (curr_x + u64 (modulus * Z.land t_tmp 1))) 1 in
  let res_y := u64 (u64 (w * t_tmp) - u64 (h_tmp * modulus)) in
  (res_x, res_y).

(** [x -= (x >= m) * m], the correction passes. *)
Definition csub (x m : Z) : Z := u64 (x - u64 (b2z (m <=? x) * m)).

(** ** AVX2: a register is four 64-bit lanes *)
Definition m256i := list Z.
Definition mm256_set1_epi64x (a : Z) : m256i := replicate 4 (u64 a).
Definition mm256_cmpgt_epi64 (a b : m256i) : m256i :=
  zip_with (fun x y => if i64 y <? i64 x then 2 ^ 64 - 1 else 0) a b.
Definition mm256_cmpeq_epi64 (a b : m256i) : m256i :=
  zip_with (fun x y => if x =? y then 2 ^ 64 - 1 else 0) a b.
Definition mm256_and_si256 (a b : m256i) : m256i := zip_with Z.land a b.
Definition mm256_add_epi64 (a b : m256i) : m256i := zip_with (fun x y => u64 (x + y)) a b.
Definition mm256_sub_epi64 (a b : m256i) : m256i := zip_with (fun x y => u64 (x - y)) a b.
Definition mm256_mul_epu32 (a b : m256i) : m256i := zip_with (fun x y => u32 x * u32 y) a b.
Definition mm256_srli_epi64 (a : m256i) (n : Z) : m256i := map (fun x => Z.shiftr x n) a.
Definition mm256_slli_epi64 (a : m256i) (n : Z) : m256i := map (fun x => u64 (Z.shiftl x n)) a.

(** Unaligned load and store of four words at an index. *)
Definition mm256_loadu (v : list Z) (i : nat) : res m256i :=
  if bool_decide (i + 4 <= length v)%nat then Ok (take 4 (drop i v)) else UB.
Definition mm256_storeu (v : list Z) (i : nat) (a : m256i) : res (list Z) :=
  if bool_decide (i + 4 <= length v)%nat then Ok (put_span v i a) else UB.

(** The vectorized butterfly of [NttForward]. *)
Definition fwd_butterfly_avx (modulus_small w w_prime : Z) (x y : m256i) : m256i * m256i :=
  let two_times_modulus_small := u32 (2 * modulus_small) in
  let cmp_val := mm256_set1_epi64x two_times_modulus_small in
  let tmp1 := mm256_cmpgt_epi64 x cmp_val in
  let tmp1 := mm256_and_si256 tmp1 cmp_val in
  let curr_x := mm256_sub_epi64 x tmp1 in
  let tmp1 := mm256_set1_epi64x w_prime in
  let tmp1 := mm256_mul_epu32 y tmp1 in
  let tmp1 := mm256_srli_epi64 tmp1 32 in
  let tmp2 := mm256_set1_epi64x w in
  let tmp2 := mm256_mul_epu32 y tmp2 in
  let modulus_small_vec := mm256_set1_epi64x modulus_small in
  let q_scaled := mm256_mul_epu32 tmp1 modulus_small_vec in
  let q_final := mm256_sub_epi64 tmp2 q_scaled in
  let new_x := mm256_add_epi64 curr_x q_final in
  let q_final_inverted := mm256_sub_epi64 cmp_val q_final in
  let new_y := mm256_add_epi64 curr_x q_final_inverted in
  (new_x, new_y).

(** The vectorized butterfly of [NttInverse]. *)
Definition inv_butterfly_avx (modulus w w_prime : Z) (x y : m256i) : m256i * m256i :=
  let two_times_modulus := u64 (2 * modulus) in
  let modulus_vec := mm256_set1_epi64x modulus in
  let two_times_modulus_vec := mm256_set1_epi64x two_times_modulus in
  let t_tmp := mm256_sub_epi64 two_times_modulus_vec y in
  let t_tmp := mm256_add_epi64 t_tmp x in
  let tmp1 := mm256_cmpgt_epi64 (mm256_slli_epi64 x 1) t_tmp in
  let tmp1 := mm256_and_si256 tmp1 two_times_modulus_vec in
  let curr_x := mm256_add_epi64 x y in
  let curr_x := mm256_sub_epi64 curr_x tmp1 in
  let tmp1 := mm256_set1_epi64x w_prime in
  let h_tmp := mm256_mul_epu32 t_tmp tmp1 in
  let h_tmp := mm256_srli_epi64 h_tmp 32 in
  let tmp1 := mm256_set1_epi64x 1 in
  let eq_mask := mm256_cmpeq_epi64 (mm256_and_si256 t_tmp tmp1) tmp1 in
  let tmp1 := mm256_and_si256 eq_mask modulus_vec in
  let tmp1 := mm256_srli_epi64 (mm256_add_epi64 curr_x tmp1) 1 in
  let w_vec := mm256_set1_epi64x w in
  let w_times_t_tmp := mm256_mul_epu32 t_tmp w_vec in
  let h_tmp_times_modulus := mm256_mul_epu32 h_tmp modulus_vec in
  let new_y := mm256_sub_epi64 w_times_t_tmp h_tmp_times_modulus in
  (tmp1, new_y).

(** ** A stage: blocks of [2 t] words, the twiddle factor of block [i] at [m + i] *)

(** The loop over [op[j], op[t + j]] of one block. *)
Definition block (bf : Z -> Z -> Z * Z) (t : nat) (op : list Z) : res (list Z) :=
  for_ t (fun j op =>
    x ← vget op j;
    y ← vget op (t + j);
    let '(a, b) := bf x y in
    op ← vset op j a;
    vset op (t + j) b) op.

(** The same four words at a time. *)
Definition block_avx (bf : m256i -> m256i -> m256i * m256i) (t : nat) (op : list Z)
  : res (list Z) :=
  for_ (t / 4) (fun k op =>
    let j := (4 * k)%nat in
    x ← mm256_loadu op j;
    y ← mm256_loadu op (j + t);
    let '(a, b) := bf x y in
    op ← mm256_storeu op j a;
    mm256_storeu op (j + t) b) op.

Definition stage (table table_prime : list Z) (do_block : Z -> Z -> list Z -> res (list Z))
    (m t : nat) (operand : list Z) : res (list Z) :=
  for_ m (fun i operand =>
    w ← vget table (m + i);
    w_prime ← vget table_prime (m + i);
    op ← subspan operand (i * (2 * t)) (2 * t);
    op ← do_block w w_prime op;
    Ok (put_span operand (i * (2 * t)) op)) operand.

(** Both correction passes over [n] words. *)
Definition reduce_pass (two_times_modulus modulus : Z) (n : nat) (operand : list Z)
  : res (list Z) :=
  for_ n (fun i v =>
    x ← vget v i;
    v ← vset v i (csub x two_times_modulus);
    y ← vget v i;
    vset v i (csub y modulus)) operand.

(** ** The transforms of one residue *)
Definition forward_mod (tb : NttTables1) (modulus_small : Z) (log_n : nat) (operand : list Z)
  : res (list Z) :=
  let n := (2 ^ log_n)%nat in
  for_ log_n (fun mm operand =>
    let m := (2 ^ mm)%nat in
    let t := (n / 2 ^ (mm + 1))%nat in
    operand ← stage (forward tb) (forward_prime tb)
      (fun w w' => block (fwd_butterfly modulus_small w w') t) m t operand;
    reduce_pass (u32 (2 * modulus_small)) modulus_small n operand) operand.

Definition inverse_mod (tb : NttTables1) (modulus : Z) (n log_n : nat) (operand : list Z)
  : res (list Z) :=
  operand ← for_ log_n (fun k operand =>
    let mm := (log_n - 1 - k)%nat in
    let h := (2 ^ mm)%nat in
    let t := (n / 2 ^ (mm + 1))%nat in
    stage (inverse tb) (inverse_prime tb)
      (fun w w' => block (inv_butterfly modulus w w') t) h t operand) operand;
  reduce_pass (u64 (2 * modulus)) modulus n operand.

(** One comparison and subtraction of the final AVX2 correction. *)
Definition csub_avx (m : Z) (x : m256i) : m256i :=
  let cmp_val := mm256_set1_epi64x m in
  let gt_mask := mm256_cmpgt_epi64 x cmp_val in
  let to_subtract := mm256_and_si256 gt_mask cmp_val in
  mm256_sub_epi64 x to_subtract.

Definition reduce_pass_avx (modulus_small : Z) (n : nat) (operand : list Z) : res (list Z) :=
  for_ (n / 4) (fun k v =>
    x ← mm256_loadu v (4 * k);
    let x := csub_avx (u32 (2 * modulus_small)) x in
    let x := csub_avx modulus_small x in
    mm256_storeu v (4 * k) x) operand.

Definition forward_mod_avx (tb : NttTables1) (modulus_small : Z) (log_n : nat)
    (operand : list Z) : res (list Z) :=
  let n := (2 ^ log_n)%nat in
  operand ← for_ log_n (fun mm operand =>
    let m := (2 ^ mm)%nat in
    let t := (n / 2 ^ (mm + 1))%nat in
    stage (forward tb) (forward_prime tb)
      (fun w w' op =>
        if bool_decide (t < 4)%nat then block (fwd_butterfly modulus_small w w') t op
        else block_avx (fwd_butterfly_avx modulus_small w w') t op) m t operand) operand;
  reduce_pass_avx modulus_small n operand.

Definition inverse_mod_avx (tb : NttTables1) (modulus : Z) (n log_n : nat) (operand : list Z)
  : res (list Z) :=
  operand ← for_ log_n (fun k operand =>
    let mm := (log_n - 1 - k)%nat in
    let h := (2 ^ mm)%nat in
    let t := (n / 2 ^ (mm + 1))%nat in
    stage (inverse tb) (inverse_prime tb)
      (fun w w' op =>
        _ ← enforce (bool_decide (2 * t <= length op)%nat);
        if bool_decide (t < 4)%nat then block (inv_butterfly modulus w w') t op
        else block_avx (inv_butterfly_avx modulus w w') t op) h t operand) operand;
  reduce_pass (u64 (2 * modulus)) modulus n operand.

(** ** The transforms over all residues *)
Section transforms.
Context `{L : Lib}.
Variable p : Params.

Definition per_modulus (n : nat)
    (f : NttTables1 -> Z -> list Z -> res (list Z)) (operand_overall : list Z) : res (list Z) :=
  for_ (Z.to_nat (CrtCount p)) (fun coeff_mod overall =>
    operand ← subspan overall (coeff_mod * n) n;
    t ← vget (ntt_tables_ p) coeff_mod;
    modulus ← Moduli p coeff_mod;
    operand ← f t modulus operand;
    Ok (put_span overall (coeff_mod * n) operand)) operand_overall.

Definition NttForward (operand_overall : list Z) : res (list Z) :=
  let log_n := Z.to_nat (PolyLenLog2 p) in
  per_modulus (2 ^ log_n) (fun t modulus => forward_mod t (u32 modulus) log_n) operand_overall.

Definition NttInverse (operand_overall : list Z) : res (list Z) :=
  let n := Z.to_nat (PolyLen p) in
  per_modulus n
    (fun t modulus => inverse_mod t modulus n (Z.to_nat (PolyLenLog2 p))) operand_overall.

Definition NttForward_avx2 (operand_overall : list Z) : res (list Z) :=
  let log_n := Z.to_nat (PolyLenLog2 p) in
  _ ← enforce (bool_decide
        (Z.to_nat (CrtCount p) * 2 ^ log_n <= length operand_overall)%nat);
  per_modulus (2 ^ log_n) (fun t modulus => forward_mod_avx t (u32 modulus) log_n) operand_overall.

Definition NttInverse_avx2 (operand_overall : list Z) : res (list Z) :=
  let n := Z.to_nat (PolyLen p) in
  per_modulus n
    (fun t modulus => inverse_mod_avx t modulus n (Z.to_nat (PolyLenLog2 p))) operand_overall.
End transforms.

(** ** The butterflies modulo the modulus *)

Lemma mod_eq_sub a b q : q <> 0 -> a mod q = b mod q <-> exists k, a = b + k * q.
Proof.
  intros Hq. split.
  - intros H. exists (a / q - b / q).
    rewrite (Z.div_mod a q), (Z.div_mod b q) at 1 by done. rewrite H. ring.
  - intros [k ->]. by apply Z.mod_add.
Qed.

(** Shoup's product with a precomputed quotient. *)
Lemma shoup y w q :
  0 < q -> 0 <= y < 2 ^ 32 -> 0 <= w < q ->
  0 <= w * y - y * (w * 2 ^ 32 / q) / 2 ^ 32 * q < 2 * q.
Proof.
  intros Hq Hy Hw. set (w' := w * 2 ^ 32 / q).
  assert (w * 2 ^ 32 - q < w' * q <= w * 2 ^ 32) as Hw'.
  { destruct (div_mul_bounds (w * 2 ^ 32) q); lia. }
  set (s := y * w' / 2 ^ 32). assert (0 <= w') by (apply Z.div_pos; lia).
  assert (y * w' - 2 ^ 32 < s * 2 ^ 32 <= y * w') as Hs.
  { destruct (div_mul_bounds (y * w') (2 ^ 32)); nia. }
  clearbody w' s. split.
  - assert (s * 2 ^ 32 * q <= y * w' * q) by (apply Z.mul_le_mono_nonneg_r; lia).
    assert (y * (w' * q) <= y * (w * 2 ^ 32)) by (apply Z.mul_le_mono_nonneg_l; lia). nia.
  - assert ((y * w' - 2 ^ 32) * q < s * 2 ^ 32 * q) by (apply Z.mul_lt_mono_pos_r; lia).
    assert (y * (w * 2 ^ 32 - q) <= y * (w' * q)) by (apply Z.mul_le_mono_nonneg_l; lia).
    assert (y * q <= 2 ^ 32 * q) by (apply Z.mul_le_mono_nonneg_r; lia). nia.
Qed.

Lemma csub_spec x m k :
  0 < m < 2 ^ 63 -> 0 <= x < 2 ^ 64 -> 0 <= x < m + k -> k <= m ->
  0 <= csub x m < Z.max m k /\ csub x m mod m = x mod m.
Proof.
  intros Hm Hx Hk Hkm. unfold csub. destruct (m <=? x) eqn:E; unfold b2z.
  - rewrite Z.mul_1_l, (u64_small m), u64_small by lia. split; [lia|].
    apply mod_eq_sub; [lia|]. exists (-1). ring.
  - rewrite Z.mul_0_l, (u64_small 0), Z.sub_0_r, u64_small by lia. split; [lia|done].
Qed.

(** [two q], then [q]: a word below [4 q] becomes its residue. *)
Lemma csub_twice x q :
  0 < q < 2 ^ 30 -> 0 <= x < 4 * q -> csub (csub x (2 * q)) q = x mod q.
Proof.
  intros Hq Hx.
  destruct (csub_spec x (2 * q) (2 * q)) as [H1 H2]; [lia..|].
  destruct (csub_spec (csub x (2 * q)) q q) as [H3 H4]; [lia..|].
  rewrite <- (Z.mod_small (csub (csub x (2 * q)) q) q) by lia. rewrite H4.
  apply mod_eq_sub in H2 as [k Hk]; [|lia].
  apply mod_eq_sub; [lia|]. exists (2 * k). lia.
Qed.

(** The forward butterfly on words below [4 q]: results below [4 q], with the
    values [x + w y] and [x - w y]. *)
Lemma fwd_butterfly_spec q w x y :
  0 < q < 2 ^ 30 -> 0 <= w < q -> 0 <= x < 4 * q -> 0 <= y < 4 * q ->
  let '(a, b) := fwd_butterfly q w (w * 2 ^ 32 / q) x y in
  0 <= a < 4 * q /\ 0 <= b < 4 * q /\
  a mod q = (x + w * y) mod q /\ b mod q = (x - w * y) mod q.
Proof.
  intros Hq Hw Hx Hy. unfold fwd_butterfly.
  rewrite (u32_small (2 * q)), (u32_small x), (u32_small y) by lia.
  pose proof (shoup y w q ltac:(lia) ltac:(lia) Hw) as Hs.
  assert (0 <= w * 2 ^ 32 / q < 2 ^ 32)
    by (split; [apply Z.div_pos; lia|apply Z.div_lt_upper_bound; lia]).
  set (w' := w * 2 ^ 32 / q) in *. rewrite Z.shiftr_div_pow2 by lia.
  rewrite (u64_small (y * w')) by nia.
  set (s := y * w' / 2 ^ 32) in *.
  assert (u64 (u64 (w * y) - u64 (s * q)) = w * y - s * q) as ->.
  { unfold u64. autorewrite with wrap. apply u64_small. lia. }
  set (c := u32 (x - _)).
  assert (0 <= c < 2 * q /\ exists k, c = x + k * q) as [Hc [k Hk]].
  { subst c. destruct (2 * q <=? x) eqn:E; unfold b2z.
    - rewrite Z.mul_1_r, (u32_small (2 * q)), u32_small by lia. split; [lia|exists (-2); lia].
    - rewrite Z.mul_0_r, (u32_small 0), Z.sub_0_r, u32_small by lia.
      split; [lia|exists 0; lia]. }
  clearbody c. rewrite (u64_small (2 * q - _)) by lia. rewrite !u64_small by lia.
  split_and!; try lia; apply mod_eq_sub; try lia.
  - exists (k - s). rewrite Hk. ring.
  - exists (k + 2 + s). rewrite Hk. ring.
Qed.

(** The inverse butterfly on words below [2 q]. *)
Lemma inv_butterfly_spec q w x y :
  0 < q < 2 ^ 30 -> Z.odd q = true -> 0 <= w < q -> 0 <= x < 2 * q -> 0 <= y < 2 * q ->
  let '(a, b) := inv_butterfly q w (w * 2 ^ 32 / q) x y in
  0 <= a < 2 * q /\ 0 <= b < 2 * q /\
  (2 * a) mod q = (x + y) mod q /\ b mod q = (w * (x - y)) mod q.
Proof.
  intros Hq Ho Hw Hx Hy. unfold inv_butterfly.
  rewrite (u64_small (2 * q)), (u64_small (2 * q - y)), (u64_small (2 * q - y + x)) by lia.
  set (t := 2 * q - y + x) in *.
  rewrite Z.shiftl_mul_pow2, (u64_small (x * 2 ^ 1)), (u64_small (x + y)) by lia.
  pose proof (shoup t w q ltac:(lia) ltac:(lia) Hw) as Hs.
  assert (0 <= w * 2 ^ 32 / q < 2 ^ 32)
    by (split; [apply Z.div_pos; lia|apply Z.div_lt_upper_bound; lia]).
  set (w' := w * 2 ^ 32 / q) in *. rewrite !Z.shiftr_div_pow2 by lia.
  rewrite (u64_small (t * w')) by nia.
  set (s := t * w' / 2 ^ 32) in *.
  assert (u64 (u64 (w * t) - u64 (s * q)) = w * t - s * q) as ->.
  { unfold u64. autorewrite with wrap. apply u64_small. lia. }
  assert (Z.land t 1 = t mod 2) as -> by (change 1 with (Z.ones 1); by rewrite Z.land_ones).
  change (2 ^ 1) with 2. rewrite Zodd_mod in Ho. apply Z.eqb_eq in Ho.
  set (c := u64 (x + y - _)).
  assert (0 <= c < 2 * q /\ exists k, c = x + y + 2 * k * q) as [Hc [k Hk]].
  { subst c. destruct (t <=? x * 2) eqn:E; unfold b2z.
    - rewrite Z.mul_1_r, (u64_small (2 * q)), u64_small by lia. split; [lia|exists (-1); lia].
    - rewrite Z.mul_0_r, (u64_small 0), Z.sub_0_r, u64_small by lia.
      split; [lia|exists 0; lia]. }
  clearbody c. assert (0 <= t mod 2 < 2) by (apply Z.mod_pos_bound; lia).
  assert (0 <= q * (t mod 2) <= q) as Hqt by nia.
  rewrite (u64_small (q * (t mod 2))) by lia. rewrite !u64_small by lia.
  assert (2 * ((c + q * (t mod 2)) / 2) = c + q * (t mod 2)) as Hhalf.
  { pose proof (Z.div_mod q 2 ltac:(lia)) as Eq. pose proof (Z.div_mod t 2 ltac:(lia)) as Et.
    rewrite Ho in Eq. set (m := t mod 2) in *.
    assert (c + q * m = 2 * (q / 2 * m + m + y + k * q + t / 2 - q)) as ->.
    { subst t. rewrite Hk. set (h := q / 2) in *. clearbody h. nia. }
    rewrite (Z.mul_comm 2 (_ - q)), Z.div_mul by lia. ring. }
  set (e := (c + q * (t mod 2)) / 2) in *. clearbody e.
  split_and!; try lia.
  - rewrite Hhalf. apply mod_eq_sub; [lia|]. exists (2 * k + t mod 2). lia.
  - apply mod_eq_sub; [lia|]. exists (2 * w - s). subst t. ring.
Qed.

(** ** Spans *)
Definition slice (v : list Z) (b i : nat) : list Z := take b (drop (i * b) v).

Lemma slice_lookup v b i j : (j < b)%nat -> slice v b i !!! j = v !!! (i * b + j)%nat.
Proof.
  intros Hj. unfold slice. rewrite !list_lookup_total_alt.
  by rewrite lookup_take_lt, lookup_drop by done.
Qed.

Lemma slice_length v b i m : length v = (m * b)%nat -> (i < m)%nat -> length (slice v b i) = b.
Proof. intros Hl Hi. unfold slice. rewrite length_take, length_drop, Hl. nia. Qed.

Lemma subspan_slice v b i m :
  length v = (m * b)%nat -> (i < m)%nat -> subspan v (i * b) b = Ok (slice v b i).
Proof. intros Hl Hi. unfold subspan. rewrite bool_decide_true; [done|nia]. Qed.

Lemma put_span_length (v s : list Z) pos :
  (pos + length s <= length v)%nat -> length (put_span v pos s) = length v.
Proof. intros. unfold put_span. rewrite !length_app, length_take, length_drop. lia. Qed.

Lemma put_span_lookup (v s : list Z) pos k :
  (pos + length s <= length v)%nat ->
  put_span v pos s !!! k =
    if bool_decide (pos <= k < pos + length s)%nat then s !!! (k - pos)%nat else v !!! k.
Proof.
  intros Hp. unfold put_span. rewrite !list_lookup_total_alt. case_bool_decide as Hk.
  - rewrite lookup_app_r by (rewrite length_take; lia).
    rewrite lookup_app_l by (rewrite length_take; lia).
    rewrite length_take. do 2 f_equal. lia.
  - destruct (decide (k < pos)%nat).
    + rewrite lookup_app_l by (rewrite length_take; lia). by rewrite lookup_take_lt.
    + rewrite lookup_app_r by (rewrite length_take; lia).
      rewrite lookup_app_r by (rewrite length_take; lia).
      rewrite lookup_drop, length_take. do 2 f_equal. lia.
Qed.

(** Writing one slice changes that slice only. *)
Lemma slice_put v b i i' m s :
  length v = (m * b)%nat -> length s = b -> (i < m)%nat -> (i' < m)%nat ->
  slice (put_span v (i * b) s) b i' = if bool_decide (i' = i) then s else slice v b i'.
Proof.
  intros Hl Hs Hi Hi'.
  assert (i * b + length s <= length v)%nat as Hin by nia.
  assert (length (put_span v (i * b) s) = (m * b)%nat) as Hl'
    by (rewrite put_span_length by done; done).
  apply list_eq_total.
  - rewrite (slice_length _ _ _ m) by done. case_bool_decide; [done|].
    by rewrite (slice_length _ _ _ m).
  - rewrite (slice_length _ _ _ m) by done. intros j Hj.
    rewrite slice_lookup, put_span_lookup, Hs by done.
    destruct (bool_decide_reflect (i' = i)) as [->|Hne].
    + rewrite bool_decide_true by lia. f_equal. lia.
    + rewrite bool_decide_false by nia. by rewrite slice_lookup.
Qed.

(** A stage acts on each slice by its block. *)
Lemma stage_spec tb tb' do_block m t v (P : nat -> list Z -> list Z -> Prop) :
  length v = (m * (2 * t))%nat -> (m + m <= length tb)%nat -> (m + m <= length tb')%nat ->
  (forall i op, (i < m)%nat -> op = slice v (2 * t) i ->
     wp (do_block (tb !!! (m + i)%nat) (tb' !!! (m + i)%nat) op)
        (fun op' => length op' = (2 * t)%nat /\ P i op op')) ->
  wp (stage tb tb' do_block m t v) (fun v' => length v' = length v /\
    forall i, (i < m)%nat -> P i (slice v (2 * t) i) (slice v' (2 * t) i)).
Proof.
  intros Hl Ht Ht' Hb. unfold stage.
  apply (wp_for _ _ (fun k s => length s = length v /\ forall i, (i < m)%nat ->
    if bool_decide (i < k)%nat then P i (slice v (2 * t) i) (slice s (2 * t) i)
    else slice s (2 * t) i = slice v (2 * t) i)).
  - split; [done|]. intros i Hi. rewrite bool_decide_false by lia. done.
  - intros k s Hk [Hs Hi]. rewrite (vget_total tb), (vget_total tb') by lia. run.
    rewrite (subspan_slice _ _ _ m) by (lia || congruence). run. apply wp_bind.
    pose proof (Hi k Hk) as Hkk. rewrite bool_decide_false in Hkk by lia. rewrite Hkk.
    eapply wp_mono; [by apply Hb|]. cbn beta. intros op' [Hop HP]. run. split.
    + rewrite put_span_length by (rewrite Hs, Hl, Hop; nia). done.
    + intros i Him. rewrite (slice_put _ _ _ _ m) by (lia || congruence).
      specialize (Hi i Him). destruct (bool_decide_reflect (i = k)) as [->|Hne].
      * rewrite bool_decide_true by lia. done.
      * destruct (bool_decide_reflect (i < k)%nat).
        -- by rewrite bool_decide_true by lia.
        -- by rewrite bool_decide_false by lia.
  - intros s [Hs Hi]. split; [done|]. intros i Him. specialize (Hi i Him).
    by rewrite bool_decide_true in Hi.
Qed.

(** The scalar block. *)
Lemma block_spec bf t op :
  length op = (2 * t)%nat ->
  wp (block bf t op) (fun op' => length op' = (2 * t)%nat /\ forall j, (j < t)%nat ->
    (op' !!! j, op' !!! (t + j)%nat) = bf (op !!! j) (op !!! (t + j)%nat)).
Proof.
  intros Hl. unfold block.
  apply (wp_for _ _ (fun k s => length s = (2 * t)%nat /\ forall j, (j < t)%nat ->
    if bool_decide (j < k)%nat
    then (s !!! j, s !!! (t + j)%nat) = bf (op !!! j) (op !!! (t + j)%nat)
    else s !!! j = op !!! j /\ s !!! (t + j)%nat = op !!! (t + j)%nat)).
  - split; [done|]. intros j Hj. rewrite bool_decide_false by lia. done.
  - intros k s Hk [Hs Hj]. rewrite !vget_total by lia. run.
    pose proof (Hj k Hk) as Hkk. rewrite bool_decide_false in Hkk by lia.
    destruct Hkk as [-> ->]. destruct (bf _ _) as [a b] eqn:E.
    rewrite vset_total by lia. run. rewrite vset_total by (rewrite length_insert; lia). run.
    split; [by rewrite !length_insert|]. intros j Hjt. specialize (Hj j Hjt).
    destruct (decide (j = k)) as [->|Hne].
    + rewrite bool_decide_true by lia.
      rewrite list_lookup_total_insert_ne by lia.
      rewrite !list_lookup_total_insert_eq by (rewrite ?length_insert; lia). by rewrite E.
    + rewrite !list_lookup_total_insert_ne by lia.
      destruct (bool_decide_reflect (j < k)%nat).
      * by rewrite bool_decide_true by lia.
      * by rewrite bool_decide_false by lia.
  - intros s [Hs Hj]. split; [done|]. intros j Hjt. specialize (Hj j Hjt).
    by rewrite bool_decide_true in Hj.
Qed.

(** The correction passes reduce every word. *)
Lemma reduce_pass_spec q n v :
  0 < q < 2 ^ 30 -> length v = n -> (forall k, (k < n)%nat -> 0 <= v !!! k < 4 * q) ->
  wp (reduce_pass (2 * q) q n v)
     (fun v' => length v' = n /\ forall k, (k < n)%nat -> v' !!! k = v !!! k mod q).
Proof.
  intros Hq Hl Hb. unfold reduce_pass.
  apply (wp_for_fill _ _ (fun k => v !!! k mod q)); [lia| |].
  - intros k s Hk Hs Hsk. rewrite vget_total by lia. run. rewrite vset_total by lia. run.
    rewrite vget_total by (rewrite length_insert; lia). run.
    rewrite list_lookup_total_insert_eq by lia.
    rewrite vset_total by (rewrite length_insert; lia).
    rewrite list_insert_insert_eq, Hsk, csub_twice by (auto; lia). done.
  - intros s Hs H1 _. split; [lia|done].
Qed.

(** ** One stage of each transform *)

(** The values a forward stage leaves, modulo [q]: block [i] of [v'] holds
    [x + w y] and [x - w y] for the pairs of block [i] of [v]. *)
Definition butterflied (q : Z) (tb : list Z) (m t : nat) (v v' : list Z) : Prop :=
  forall i j, (i < m)%nat -> (j < t)%nat ->
    let x := v !!! (i * (2 * t) + j)%nat in
    let y := v !!! (i * (2 * t) + (t + j))%nat in
    let w := tb !!! (m + i)%nat in
    v' !!! (i * (2 * t) + j)%nat mod q = (x + w * y) mod q /\
    v' !!! (i * (2 * t) + (t + j))%nat mod q = (x - w * y) mod q.

(** Every word of a list is below a bound. *)
Definition below (b : Z) (v : list Z) : Prop :=
  forall k, (k < length v)%nat -> 0 <= v !!! k < b.

(** Positions of a vector of [m] blocks of [2 t]. *)
Lemma position k m t :
  (k < m * (2 * t))%nat ->
  exists i j, (i < m)%nat /\ (j < t)%nat /\
    (k = i * (2 * t) + j \/ k = i * (2 * t) + (t + j))%nat.
Proof.
  intros Hk. assert (t <> 0)%nat by (intros ->; lia).
  pose proof (Nat.div_mod k (2 * t) ltac:(lia)) as E.
  pose proof (Nat.mod_upper_bound k (2 * t) ltac:(lia)).
  assert (k / (2 * t) < m)%nat by (apply Nat.Div0.div_lt_upper_bound; lia).
  destruct (decide (k mod (2 * t) < t)%nat).
  - exists (k / (2 * t))%nat, (k mod (2 * t))%nat. split_and!; lia.
  - exists (k / (2 * t))%nat, (k mod (2 * t) - t)%nat. split_and!; lia.
Qed.

(** A bound on the slices is a bound on the vector. *)
Lemma below_slices b m t v :
  length v = (m * (2 * t))%nat ->
  (forall i, (i < m)%nat -> below b (slice v (2 * t) i)) -> below b v.
Proof.
  intros Hl Hs k Hk. rewrite Hl in Hk. destruct (position k m t Hk) as (i & j & Hi & Hj & Hkk).
  specialize (Hs i Hi). unfold below in Hs. rewrite (slice_length _ _ _ m) in Hs by done.
  destruct Hkk as [->| ->].
  - rewrite <- (slice_lookup v (2 * t)) by lia. apply Hs. lia.
  - rewrite <- (slice_lookup v (2 * t)) by lia. apply Hs. lia.
Qed.

Lemma forward_stage_ok q n tb v m t :
  table_ok n q tb -> 0 < q < 2 ^ 30 -> length v = (m * (2 * t))%nat -> (m + m <= n)%nat ->
  below (4 * q) v ->
  wp (stage (forward tb) (forward_prime tb)
        (fun w w' => block (fwd_butterfly q w w') t) m t v)
     (fun v' => length v' = length v /\ below (4 * q) v' /\
                butterflied q (forward tb) m t v v').
Proof.
  intros Ht Hq Hl Hm Hb. destruct (tok_len _ _ _ Ht) as (L1 & L2 & L3 & L4).
  eapply wp_mono; [apply (stage_spec _ _ _ _ _ _ (fun i op op' => forall j, (j < t)%nat ->
    let w := forward tb !!! (m + i)%nat in
    0 <= op' !!! j < 4 * q /\ 0 <= op' !!! (t + j)%nat < 4 * q /\
    op' !!! j mod q = (op !!! j + w * op !!! (t + j)%nat) mod q /\
    op' !!! (t + j)%nat mod q = (op !!! j - w * op !!! (t + j)%nat) mod q)); try lia|].
  - intros i op Hi Hop. assert (length op = (2 * t)%nat) as Hol
      by (subst op; by apply (slice_length _ _ _ m)).
    eapply wp_mono; [by apply block_spec|]. cbn beta. intros op' [Hl' Hj]. split; [done|].
    intros j Hjt. specialize (Hj j Hjt).
    rewrite (tok_fwd' _ _ _ Ht) in Hj by lia.
    assert (forall r, (r < 2 * t)%nat -> 0 <= op !!! r < 4 * q) as Hob.
    { intros r Hr. subst op. rewrite slice_lookup by done. apply Hb. rewrite Hl. nia. }
    pose proof (fwd_butterfly_spec q (forward tb !!! (m + i)%nat) (op !!! j) (op !!! (t + j)%nat)
      Hq (tok_fwd _ _ _ Ht (m + i)%nat ltac:(lia)) (Hob j ltac:(lia)) (Hob (t + j)%nat ltac:(lia))) as Hf.
    destruct (fwd_butterfly _ _ _ _ _) as [a b]. injection Hj as -> ->. exact Hf.
  - cbn beta. intros v' [Hl' HP]. split; [done|]. split.
    + apply (below_slices _ m t); [by rewrite Hl'|]. intros i Hi r Hr.
      rewrite (slice_length _ _ _ m) in Hr by (done || congruence).
      destruct (decide (r < t)%nat); [by apply (HP i Hi r)|].
      replace r with (t + (r - t))%nat by lia. apply (HP i Hi). lia.
    + intros i j Hi Hj. specialize (HP i Hi j Hj). cbn zeta in *.
      rewrite !slice_lookup in HP by lia. tauto.
Qed.

Lemma inverse_stage_ok q n tb u m t :
  table_ok n q tb -> 0 < q < 2 ^ 30 -> Z.odd q = true ->
  length u = (m * (2 * t))%nat -> (m + m <= n)%nat -> below (2 * q) u ->
  wp (stage (inverse tb) (inverse_prime tb)
        (fun w w' => block (inv_butterfly q w w') t) m t u)
     (fun u' => length u' = length u /\ below (2 * q) u' /\
        forall i j, (i < m)%nat -> (j < t)%nat ->
          let x := u !!! (i * (2 * t) + j)%nat in
          let y := u !!! (i * (2 * t) + (t + j))%nat in
          (2 * u' !!! (i * (2 * t) + j)%nat) mod q = (x + y) mod q /\
          u' !!! (i * (2 * t) + (t + j))%nat mod q
            = (inverse tb !!! (m + i)%nat * (x - y)) mod q).
Proof.
  intros Ht Hq Ho Hl Hm Hb. destruct (tok_len _ _ _ Ht) as (L1 & L2 & L3 & L4).
  eapply wp_mono; [apply (stage_spec _ _ _ _ _ _ (fun i op op' => forall j, (j < t)%nat ->
    let w := inverse tb !!! (m + i)%nat in
    0 <= op' !!! j < 2 * q /\ 0 <= op' !!! (t + j)%nat < 2 * q /\
    (2 * op' !!! j) mod q = (op !!! j + op !!! (t + j)%nat) mod q /\
    op' !!! (t + j)%nat mod q = (w * (op !!! j - op !!! (t + j)%nat)) mod q)); try lia|].
  - intros i op Hi Hop. assert (length op = (2 * t)%nat) as Hol
      by (subst op; by apply (slice_length _ _ _ m)).
    eapply wp_mono; [by apply block_spec|]. cbn beta. intros op' [Hl' Hj]. split; [done|].
    intros j Hjt. specialize (Hj j Hjt).
    rewrite (tok_inv' _ _ _ Ht) in Hj by lia.
    assert (forall r, (r < 2 * t)%nat -> 0 <= op !!! r < 2 * q) as Hob.
    { intros r Hr. subst op. rewrite slice_lookup by done. apply Hb. rewrite Hl. nia. }
    pose proof (inv_butterfly_spec q (inverse tb !!! (m + i)%nat) (op !!! j) (op !!! (t + j)%nat)
      Hq Ho (tok_inv _ _ _ Ht (m + i)%nat ltac:(lia)) (Hob j ltac:(lia)) (Hob (t + j)%nat ltac:(lia))) as Hf.
    destruct (inv_butterfly _ _ _ _ _) as [a b]. injection Hj as -> ->. exact Hf.
  - cbn beta. intros u' [Hl' HP]. split; [done|]. split.
    + apply (below_slices _ m t); [by rewrite Hl'|]. intros i Hi r Hr.
      rewrite (slice_length _ _ _ m) in Hr by (done || congruence).
      destruct (decide (r < t)%nat); [by apply (HP i Hi r)|].
      replace r with (t + (r - t))%nat by lia. apply (HP i Hi). lia.
    + intros i j Hi Hj. specialize (HP i Hi j Hj). cbn zeta in *.
      rewrite !slice_lookup in HP by lia. tauto.
Qed.

(** Two vectors of words are equal modulo [q]. *)
Definition eqm (q : Z) (v u : list Z) : Prop :=
  length v = length u /\ forall k, (k < length v)%nat -> v !!! k mod q = u !!! k mod q.

Lemma eqm_refl q v : eqm q v v.
Proof. by split. Qed.

Lemma odd_cancel q a b :
  0 < q -> Z.odd q = true -> (2 * a) mod q = (2 * b) mod q -> a mod q = b mod q.
Proof.
  intros Hq Ho H. apply mod_eq_sub in H as [k Hk]; [|lia].
  rewrite Zodd_mod in Ho. apply Z.eqb_eq in Ho. pose proof (Z.div_mod q 2 ltac:(lia)) as Eq.
  rewrite Ho in Eq. set (h := q / 2) in *. clearbody h.
  apply mod_eq_sub; [lia|]. exists (k * (h + 1) - (a - b)).
  transitivity (b + ((2 * a - 2 * b) * (h + 1) - q * (a - b))); [rewrite Eq; ring|].
  rewrite Hk. ring.
Qed.

(** The inverse stage undoes the forward stage, modulo [q]. *)
Lemma inverse_undoes q n tb v w u u' m t :
  table_ok n q tb -> 1 < q -> Z.odd q = true -> (m + m <= n)%nat ->
  length v = (m * (2 * t))%nat -> butterflied q (forward tb) m t v w -> eqm q u w ->
  length u' = length u ->
  length w = length v ->
  (forall i j, (i < m)%nat -> (j < t)%nat ->
     let x := u !!! (i * (2 * t) + j)%nat in
     let y := u !!! (i * (2 * t) + (t + j))%nat in
     (2 * u' !!! (i * (2 * t) + j)%nat) mod q = (x + y) mod q /\
     u' !!! (i * (2 * t) + (t + j))%nat mod q
       = (inverse tb !!! (m + i)%nat * (x - y)) mod q) ->
  eqm q u' v.
Proof.
  intros Ht Hq Ho Hm Hl Hbf [Hul Hu] Hu'l Hwl Hinv. split; [congruence|].
  intros k Hk. rewrite Hu'l, Hul, Hwl, Hl in Hk.
  destruct (position k m t Hk) as (i & j & Hi & Hj & Hkk).
  specialize (Hinv i j Hi Hj). specialize (Hbf i j Hi Hj). cbn zeta in *.
  pose proof (tok_half _ _ _ Ht (m + i)%nat ltac:(lia)) as Hhalf.
  set (a := (i * (2 * t) + j)%nat) in *. set (b := (i * (2 * t) + (t + j))%nat) in *.
  pose proof (Hu a ltac:(rewrite Hul, Hwl, Hl; subst a; nia)) as Ha.
  pose proof (Hu b ltac:(rewrite Hul, Hwl, Hl; subst b; nia)) as Hb.
  destruct Hbf as [Hba Hbb]. rewrite Hba in Ha. rewrite Hbb in Hb.
  set (f := forward tb !!! (m + i)%nat) in *. set (g := inverse tb !!! (m + i)%nat) in *.
  destruct Hinv as [H1 H2].
  apply mod_eq_sub in Ha as [ka Ha], Hb as [kb Hb], H1 as [k1 H1], H2 as [k2 H2]; try lia.
  assert (exists kh, 2 * (f * g) = 1 + kh * q) as [kh Hh].
  { exists (2 * (f * g) / q). pose proof (Z.div_mod (2 * (f * g)) q). lia. }
  destruct Hkk as [->| ->].
  - apply odd_cancel; [lia|done|]. rewrite H1, Ha, Hb. apply mod_eq_sub; [lia|].
    exists (ka + kb + k1). ring.
  - rewrite H2, Ha, Hb. apply mod_eq_sub; [lia|].
    exists (g * (ka - kb) + k2 + kh * v !!! b).
    transitivity (2 * (f * g) * v !!! b + (g * (ka - kb) + k2) * q); [ring|].
    rewrite Hh. ring.
Qed.

(** ** All the stages of one residue *)

Lemma stage_sizes k log_n :
  (k < log_n)%nat ->
  (2 ^ log_n = 2 ^ k * (2 * (2 ^ log_n / 2 ^ (k + 1))) /\ 2 ^ k + 2 ^ k <= 2 ^ log_n)%nat.
Proof.
  intros Hk. replace log_n with ((k + 1) + (log_n - k - 1))%nat by lia.
  rewrite Nat.pow_add_r. set (r := (2 ^ (log_n - k - 1))%nat).
  assert (2 ^ (k + 1) <> 0)%nat by (apply Nat.pow_nonzero; lia).
  assert (r <> 0)%nat by (apply Nat.pow_nonzero; lia).
  rewrite Nat.mul_comm, Nat.div_mul by done.
  rewrite Nat.pow_add_r. simpl (2 ^ 1)%nat. nia.
Qed.

Lemma below_mono a b v : a <= b -> below a v -> below b v.
Proof. intros H Hv k Hk. specialize (Hv k Hk). lia. Qed.

Section one_modulus.
Variables (q : Z) (log_n : nat) (tb : NttTables1).
Hypothesis (Hq : 1 < q < 2 ^ 30) (Hodd : Z.odd q = true) (Htb : table_ok (2 ^ log_n) q tb).

Definition fbody (mm : nat) (operand : list Z) : res (list Z) :=
  operand ← stage (forward tb) (forward_prime tb)
    (fun w w' => block (fwd_butterfly q w w') (2 ^ log_n / 2 ^ (mm + 1))) (2 ^ mm)
    (2 ^ log_n / 2 ^ (mm + 1)) operand;
  reduce_pass (u32 (2 * q)) q (2 ^ log_n) operand.

Definition ibody (k : nat) (operand : list Z) : res (list Z) :=
  let mm := (log_n - 1 - k)%nat in
  stage (inverse tb) (inverse_prime tb)
    (fun w w' => block (inv_butterfly q w w') (2 ^ log_n / 2 ^ (mm + 1))) (2 ^ mm)
    (2 ^ log_n / 2 ^ (mm + 1)) operand.

Lemma fbody_ok mm v :
  (mm < log_n)%nat -> length v = (2 ^ log_n)%nat -> below q v ->
  wp (fbody mm v) (fun w => length w = (2 ^ log_n)%nat /\ below q w /\
    butterflied q (forward tb) (2 ^ mm) (2 ^ log_n / 2 ^ (mm + 1)) v w).
Proof.
  intros Hm Hl Hb. destruct (stage_sizes mm log_n Hm) as [Hn Hmm].
  unfold fbody. apply wp_bind. eapply wp_mono.
  { apply (forward_stage_ok q (2 ^ log_n)); try done; try lia.
    apply (below_mono q); [lia|done]. }
  cbn beta. intros w (Hwl & Hwb & Hwf). rewrite u32_small by lia.
  eapply wp_mono; [apply (reduce_pass_spec q (2 ^ log_n)); try lia|].
  { intros k Hk. apply Hwb. lia. }
  cbn beta. intros w' [Hwl' Hw']. split; [done|]. split.
  - intros k Hk. rewrite Hw' by lia. apply Z.mod_pos_bound. lia.
  - intros i j Hi Hj. specialize (Hwf i j Hi Hj). cbn zeta in *.
    rewrite !Hw', !Z.mod_mod by (lia || nia). done.
Qed.

Lemma ibody_undoes mm v w u :
  (mm < log_n)%nat -> length v = (2 ^ log_n)%nat -> length w = length v ->
  butterflied q (forward tb) (2 ^ mm) (2 ^ log_n / 2 ^ (mm + 1)) v w ->
  eqm q u w -> below (2 * q) u ->
  wp (ibody (log_n - 1 - mm) u) (fun u' => eqm q u' v /\ below (2 * q) u').
Proof.
  intros Hm Hl Hwl Hf Hu Hb. destruct (stage_sizes mm log_n Hm) as [Hn Hmm].
  unfold ibody. replace (log_n - 1 - (log_n - 1 - mm))%nat with mm by lia.
  assert (length u = (2 ^ log_n)%nat) as Hul by (destruct Hu; congruence).
  eapply wp_mono.
  { apply (inverse_stage_ok q (2 ^ log_n)); try done; lia. }
  cbn beta. intros u' (Hul' & Hub & Hinv). split; [|done].
  eapply (inverse_undoes q (2 ^ log_n) tb v w u u'); try done; lia.
Qed.

(** [k] forward stages, and the last [k] inverse stages that undo them. *)
Lemma stages_undone k v :
  (k <= log_n)%nat -> length v = (2 ^ log_n)%nat -> below q v ->
  wp (for_ k fbody v) (fun w => length w = (2 ^ log_n)%nat /\ below q w /\
    forall u, eqm q u w -> below (2 * q) u ->
      wp (for_from k (log_n - k) ibody u) (fun u' => eqm q u' v /\ below (2 * q) u')).
Proof.
  intros Hk Hl Hb. induction k as [|k IH].
  - cbn. split_and!; try done.
  - rewrite for_S. apply wp_bind. eapply wp_mono; [apply IH; lia|].
    cbn beta. intros w (Hwl & Hwb & Hwu).
    eapply wp_mono; [apply fbody_ok; (done || lia)|].
    cbn beta. intros w2 (Hw2l & Hw2b & Hbf). split; [done|]. split; [done|].
    intros u Hu Hub. cbn [for_from].
    apply wp_bind. replace (log_n - S k)%nat with (log_n - 1 - k)%nat by lia.
    eapply wp_mono; [apply (ibody_undoes k w w2 u); (done || lia)|].
    cbn beta. intros u' [Hu' Hub'].
    replace (S (log_n - 1 - k))%nat with (log_n - k)%nat by lia. by apply Hwu.
Qed.

Lemma forward_inverse_mod v :
  length v = (2 ^ log_n)%nat -> below q v ->
  wp (forward_mod tb q log_n v) (fun w =>
    length w = (2 ^ log_n)%nat /\ below q w /\
    inverse_mod tb q (2 ^ log_n) log_n w = Ok v).
Proof.
  intros Hl Hb. eapply wp_mono; [apply (stages_undone log_n v); (done || lia)|].
  cbn beta. intros w (Hwl & Hwb & Hwu). split; [done|]. split; [done|].
  specialize (Hwu w (eqm_refl q w) (below_mono q (2 * q) _ ltac:(lia) Hwb)).
  rewrite Nat.sub_diag in Hwu. apply wp_iff in Hwu as (u & Hu & [Hul Hue] & Hub).
  unfold inverse_mod. change (for_from log_n 0 ibody w) with (for_ log_n ibody w) in Hu.
  unfold ibody in Hu. cbv zeta in Hu. rewrite Hu. run. rewrite u64_small by lia.
  destruct (proj1 (wp_iff _ _) (reduce_pass_spec q (2 ^ log_n) u ltac:(lia) ltac:(congruence)
    ltac:(intros k Hk; specialize (Hub k ltac:(congruence)); lia))) as (r & -> & Hrl & Hr).
  f_equal. apply list_eq_total; [congruence|]. intros k Hk. rewrite Hr by lia.
  rewrite Hue by lia. apply Z.mod_small. apply Hb. lia.
Qed.
End one_modulus.

(** ** The whole transform *)

(** Vectors of one [n]-word residue vector per modulus, each word reduced. *)
Definition residues (n : nat) (moduli : list Z) (v : list Z) : Prop :=
  length v = (length moduli * n)%nat /\
  forall c, (c < length moduli)%nat -> below (moduli !!! c) (slice v n c).

(** A vector is its slices. *)
Lemma slices_eq n m v w :
  (0 < n)%nat -> length v = (m * n)%nat -> length w = (m * n)%nat ->
  (forall c, (c < m)%nat -> slice v n c = slice w n c) -> v = w.
Proof.
  intros Hn Hv Hw Hs. apply list_eq_total; [congruence|]. intros k Hk. rewrite Hv in Hk.
  assert (k / n < m)%nat by (apply Nat.Div0.div_lt_upper_bound; lia).
  pose proof (Nat.mod_upper_bound k n ltac:(lia)).
  pose proof (Nat.div_mod k n ltac:(lia)) as E.
  replace k with (k / n * n + k mod n)%nat by lia.
  rewrite <- !(slice_lookup _ n) by done. by rewrite Hs.
Qed.

Section whole.
Context `{LL : LibLaws} (hash_id : string -> Z).

Lemma per_modulus_spec p n f v ms (R : nat -> list Z -> Prop) :
  CrtCount p = Z.of_nat (length ms) -> map value (moduli_ (crt_params_ p)) = ms ->
  length (ntt_tables_ p) = length ms -> length v = (length ms * n)%nat ->
  (forall c t, (c < length ms)%nat -> ntt_tables_ p !! c = Some t ->
     wp (f t (ms !!! c) (slice v n c)) (fun s => length s = n /\ R c s)) ->
  wp (per_modulus p n f v) (fun w => length w = length v /\
    forall c, (c < length ms)%nat -> R c (slice w n c)).
Proof.
  intros Hc Hm Htl Hl Hf. unfold per_modulus. rewrite Hc, Nat2Z.id.
  apply (wp_for _ _ (fun k s => length s = length v /\ forall c, (c < length ms)%nat ->
    if bool_decide (c < k)%nat then R c (slice s n c) else slice s n c = slice v n c)).
  - split; [done|]. intros c Hcm. by rewrite bool_decide_false by lia.
  - intros k s Hk [Hs Hi]. rewrite (subspan_slice _ _ _ (length ms)) by (lia || congruence). run.
    apply wp_vget; [lia|]. intros t Ht. unfold Moduli, vget.
    assert (exists m, moduli_ (crt_params_ p) !! k = Some m /\ value m = ms !!! k) as (m & -> & Hmv).
    { assert (length (moduli_ (crt_params_ p)) = length ms) as Hlm
        by (rewrite <- Hm; by rewrite length_map).
      destruct (lookup_lt_is_Some_2 (moduli_ (crt_params_ p)) k ltac:(lia)) as [m Hmk].
      exists m. split; [done|]. symmetry. apply list_lookup_total_correct.
      rewrite <- Hm. by rewrite lookup_map, Hmk. }
    run. rewrite Hmv. apply wp_bind. pose proof (Hi k Hk) as Hkk.
    rewrite bool_decide_false in Hkk by lia. rewrite Hkk.
    eapply wp_mono; [by apply Hf|]. cbn beta. intros s' [Hs' HR]. run. split.
    + rewrite put_span_length by (rewrite Hs, Hl, Hs'; nia). done.
    + intros c Hcm. rewrite (slice_put _ _ _ _ (length ms)) by (lia || congruence).
      specialize (Hi c Hcm). destruct (bool_decide_reflect (c = k)) as [->|Hne].
      * by rewrite bool_decide_true by lia.
      * destruct (bool_decide_reflect (c < k)%nat).
        -- by rewrite bool_decide_true by lia.
        -- by rewrite bool_decide_false by lia.
  - intros s [Hs Hi]. split; [done|]. intros c Hcm. specialize (Hi c Hcm).
    by rewrite bool_decide_true in Hi.
Qed.

(** The hypotheses on a parameter set: a power-of-two degree and odd moduli below
    2^30, as the 32-bit butterflies need. *)
Definition ntt_moduli (ms : list Z) : Prop :=
  Forall (fun q => 1 < q < 2 ^ 30 /\ Z.odd q = true) ms.

Lemma Params_tables k ms noise pm qp p :
  0 <= k < 31 -> ntt_moduli ms -> Params_new hash_id (2 ^ k) ms noise pm qp = Ok p ->
  CrtCount p = Z.of_nat (length ms) /\ map value (moduli_ (crt_params_ p)) = ms /\
  PolyLen p = 2 ^ k /\ PolyLenLog2 p = k /\ length (ntt_tables_ p) = length ms /\
  forall c t, ntt_tables_ p !! c = Some t -> table_ok (Z.to_nat (2 ^ k)) (ms !!! c) t.
Proof.
  intros Hk Hms (H1 & H2 & H3 & H4 & H5)%Params_new_inv.
  assert (1 <= 2 ^ k < 2 ^ 31) as Hp.
  { split; [|apply Z.pow_lt_mono_r; lia]. pose proof (Z.pow_pos_nonneg 2 k). lia. }
  apply BuildNttTables_ok in H5; [|done|].
  2:{ rewrite <- H4 in Hms. unfold ntt_moduli in Hms.
      rewrite List.Forall_map in Hms. eapply Forall_impl; [exact Hms|].
      cbn beta. intros m [? ?]. split; [lia|done]. }
  unfold Log2 in H3. rewrite Log2Floor_eq, Z.log2_pow2 in H3 by lia.
  split_and!; try done.
  - apply Forall2_length in H5. rewrite <- H5, <- H4. by rewrite length_map.
  - intros c t Ht. destruct (Forall2_lookup_r _ _ _ _ _ H5 Ht) as (m & Hm & Hok).
    replace (ms !!! c) with (value m); [done|]. symmetry. apply list_lookup_total_correct.
    rewrite <- H4. by rewrite lookup_map, Hm.
Qed.

Lemma Z_to_nat_pow2 k : 0 <= k -> Z.to_nat (2 ^ k) = (2 ^ Z.to_nat k)%nat.
Proof. intros. rewrite Z2Nat.inj_pow by lia. done. Qed.

Lemma NttInverse_Forward_ok k ms noise pm qp p v :
  0 <= k < 31 -> ntt_moduli ms -> Params_new hash_id (2 ^ k) ms noise pm qp = Ok p ->
  residues (2 ^ Z.to_nat k) ms v ->
  exists w, NttForward p v = Ok w /\ residues (2 ^ Z.to_nat k) ms w /\ NttInverse p w = Ok v.
Proof.
  intros Hk Hms Hp [Hvl Hv].
  destruct (Params_tables k ms noise pm qp p Hk Hms Hp) as (Hc & Hm & Hpl & Hlog & Htl & Htb).
  set (n := (2 ^ Z.to_nat k)%nat) in *.
  assert (forall c, (c < length ms)%nat -> 1 < ms !!! c < 2 ^ 30 /\ Z.odd (ms !!! c) = true) as Hq.
  { intros c Hcm. unfold ntt_moduli in Hms. rewrite Forall_lookup in Hms.
    destruct (lookup_lt_is_Some_2 ms c Hcm) as [q Hqc].
    rewrite (list_lookup_total_correct _ _ _ Hqc). by eapply Hms. }
  assert (0 < n)%nat as Hn by (apply Nat.neq_0_lt_0, Nat.pow_nonzero; lia).
  assert (forall c t, (c < length ms)%nat -> ntt_tables_ p !! c = Some t ->
     wp (forward_mod t (ms !!! c) (Z.to_nat k) (slice v n c)) (fun s => length s = n /\
       below (ms !!! c) s /\ inverse_mod t (ms !!! c) n (Z.to_nat k) s = Ok (slice v n c))) as Hone.
  { intros c t Hcm Ht. destruct (Hq c Hcm). specialize (Htb c t Ht). rewrite Z_to_nat_pow2 in Htb by lia.
    apply forward_inverse_mod; try done; [|by apply Hv].
    by apply (slice_length _ _ _ (length ms)). }
  assert (wp (NttForward p v) (fun w => length w = length v /\ forall c, (c < length ms)%nat ->
    below (ms !!! c) (slice w n c) /\ forall t, ntt_tables_ p !! c = Some t ->
      inverse_mod t (ms !!! c) n (Z.to_nat k) (slice w n c) = Ok (slice v n c))) as Hfwd.
  { unfold NttForward. rewrite Hlog. fold n.
    apply (per_modulus_spec p n _ v ms (fun c s => below (ms !!! c) s /\ forall t,
      ntt_tables_ p !! c = Some t ->
      inverse_mod t (ms !!! c) n (Z.to_nat k) s = Ok (slice v n c))); try done.
    intros c t Hcm Ht. destruct (Hq c Hcm). rewrite u32_small by lia.
    eapply wp_mono; [by apply Hone|]. cbn beta. intros s (?&?&?). split_and!; try done.
    intros t' Ht'. rewrite Ht in Ht'. by injection Ht' as <-. }
  apply wp_iff in Hfwd as (w & -> & Hwl & Hw). exists w. split; [done|]. split.
  { split; [congruence|]. intros c Hcm. by apply Hw. }
  assert (wp (NttInverse p w) (fun r => length r = length w /\ forall c, (c < length ms)%nat ->
    slice r n c = slice v n c)) as Hinv.
  { unfold NttInverse. rewrite Hpl, Hlog, Z_to_nat_pow2 by lia. fold n.
    apply (per_modulus_spec p n _ w ms (fun c s => s = slice v n c)); try done; [congruence|].
    intros c t Hcm Ht. destruct (Hw c Hcm) as [_ Hwi]. rewrite (Hwi t Ht). cbn [wp].
    split; [|done]. by apply (slice_length _ _ _ (length ms)). }
  apply wp_iff in Hinv as (r & -> & Hrl & Hr). f_equal.
  apply (slices_eq n (length ms)); [done|congruence|done|done].
Qed.

End whole.

(** ** The properties at concrete inputs *)
Import Ref.

Lemma toy_residues : residues (2 ^ Z.to_nat 2) [17; 41] [1; 2; 16; 0; 40; 5; 6; 7].
Proof.
  split; [done|]. intros c Hc k Hk.
  destruct c as [|[|c]]; [| |cbn in Hc; lia];
    do 4 (destruct k as [|k]; [split; by vm_compute|]); vm_compute in Hk; lia.
Qed.


(** The strict comparison of the AVX2 correction leaves the modulus itself where
    the scalar code leaves zero. *)
Example avx2_keeps_modulus : csub_avx 17 (csub_avx 34 [17; 34; 51; 68]) = [17; 17; 17; 17] /\
  map (fun x => csub (csub x 34) 17) [17; 34; 51] = [0; 0; 0].
Proof. split; vm_compute; reflexivity. Qed.
