(* ===== verification/NttConv.v ===== *)
(** * The NTT of SpiralPIR multiplies polynomials

    A stage of the forward transform takes a polynomial modulo X^2t - w^2 to its
    residues modulo X^t - w and X^t + w.  Reduction respects products, so after
    the last stage the product of two polynomials modulo X^n + 1 has become the
    products of the words. *)
From S2P Require Import Prelude Float64 SpiralArith NttTable SpiralParams Ntt.

(** ** Congruence *)
Definition cong (q a b : Z) : Prop := (q | a - b).
#[global] Notation "a ≡[ q ] b" := (cong q a b) (at level 70, format "a  ≡[ q ]  b") : Z_scope.

#[export] Instance cong_equivalence q : Equivalence (cong q).
Proof.
  unfold cong. split.
  - intros a. exists 0. ring.
  - intros a b [k H]. exists (- k). rewrite Z.mul_opp_l, <- H. ring.
  - intros a b c [k H] [l H']. exists (k + l). rewrite Z.mul_add_distr_r, <- H, <- H'. ring.
Qed.
#[export] Instance cong_add q : Proper (cong q ==> cong q ==> cong q) Z.add.
Proof. intros a a' [k H] b b' [l H']. exists (k + l). rewrite Z.mul_add_distr_r, <- H, <- H'. ring. Qed.
#[export] Instance cong_mul q : Proper (cong q ==> cong q ==> cong q) Z.mul.
Proof.
  intros a a' [k H] b b' [l H']. exists (k * b + a' * l). transitivity (k * q * b + a' * (l * q)); [|ring]. rewrite <- H, <- H'. ring.
Qed.
#[export] Instance cong_opp q : Proper (cong q ==> cong q) Z.opp.
Proof. intros a a' [k H]. exists (- k). rewrite Z.mul_opp_l, <- H. ring. Qed.
#[export] Instance cong_sub q : Proper (cong q ==> cong q ==> cong q) Z.sub.
Proof. intros a a' Ha b b' Hb. unfold Z.sub. by rewrite Ha, Hb. Qed.

Lemma cong_mod q a b : q <> 0 -> a ≡[q] b <-> a mod q = b mod q.
Proof.
  intros Hq. unfold cong. rewrite mod_eq_sub by done. split; intros [k H]; exists k; lia.
Qed.
Lemma mod_cong q a : q <> 0 -> a mod q ≡[q] a.
Proof. intros Hq. apply cong_mod; [done|]. by apply Z.mod_mod. Qed.

Lemma zsum_cong q n f g : q <> 0 -> (forall i, (i < n)%nat -> f i ≡[q] g i) -> zsum n f ≡[q] zsum n g.
Proof. intros Hq H. apply cong_mod; [done|]. apply zsum_mod; [done|]. intros i Hi. by apply cong_mod, H. Qed.
Lemma pow_cong q a b n : a ≡[q] b -> a ^ Z.of_nat n ≡[q] b ^ Z.of_nat n.
Proof.
  intros E. induction n as [|n IH]; [done|]. rewrite Nat2Z.inj_succ, !Z.pow_succ_r by lia. by rewrite IH, E.
Qed.

(** ** Reduction modulo X^t - w *)

(** The coefficient of X^k in X^i reduced. *)
Definition chi (t : nat) (w : Z) (k i : nat) : Z := if bool_decide ((i mod t)%nat = k) then w ^ Z.of_nat (i / t) else 0.
Definition red (n t : nat) (w : Z) (f : nat -> Z) (k : nat) : Z := zsum n (fun i => f i * chi t w k i).
(** The product of two polynomials of [n] coefficients, reduced. *)
Definition cyc (n t : nat) (w : Z) (f g : nat -> Z) (k : nat) : Z := zsum n (fun i => f i * zsum n (fun j => g j * chi t w k (i + j))).

Lemma chi_select m t w s (F : nat -> Z) : (0 < t <= m)%nat -> zsum m (fun l => chi t w l s * F l) = w ^ Z.of_nat (s / t) * F (s mod t)%nat.
Proof.
  intros Ht. rewrite (zsum_ext m _ (fun l => if bool_decide (l = (s mod t)%nat) then w ^ Z.of_nat (s / t) * F l else 0)).
  - rewrite zsum_delta; [done|]. pose proof (Nat.mod_upper_bound s t). lia.
  - intros l _. unfold chi. do 2 case_bool_decide; congruence || ring.
Qed.

(** A sum over the coefficients of a reduced polynomial. *)
Lemma red_sum n t w f (F : nat -> Z) : (0 < t)%nat -> zsum t (fun k => red n t w f k * F k) = zsum n (fun i => f i * (w ^ Z.of_nat (i / t) * F (i mod t)%nat)).
Proof.
  intros Ht. unfold red. rewrite (zsum_ext t _ (fun k => zsum n (fun i => f i * (chi t w k i * F k)))).
  - rewrite zsum_swap. apply zsum_ext. intros i _. rewrite zsum_scale, chi_select by lia. done.
  - intros k _. rewrite Z.mul_comm, <- zsum_scale. apply zsum_ext. intros. ring.
Qed.

(** X^(i+j) reduced is the product of X^i and X^j reduced. *)
Lemma chi_add t w k i j : (0 < t)%nat -> w ^ Z.of_nat (i / t) * (w ^ Z.of_nat (j / t) * chi t w k (i mod t + j mod t)) = chi t w k (i + j).
Proof.
  intros Ht. unfold chi. rewrite <- Nat.Div0.add_mod. case_bool_decide; [|ring]. rewrite <- !Z.pow_add_r by lia. f_equal.
  rewrite <- !Nat2Z.inj_add. f_equal. pose proof (Nat.div_mod_eq i t). pose proof (Nat.div_mod_eq j t).
  replace (i + j)%nat with ((i / t + j / t) * t + (i mod t + j mod t))%nat by nia. rewrite Nat.div_add_l by lia. lia.
Qed.

Lemma cyc_red n t w f g k : (0 < t)%nat -> cyc t t w (red n t w f) (red n t w g) k = cyc n t w f g k.
Proof.
  intros Ht. unfold cyc at 1. rewrite red_sum by done. unfold cyc. apply zsum_ext. intros i _. f_equal.
  rewrite red_sum by done. rewrite <- zsum_scale. apply zsum_ext. intros j _. rewrite <- (chi_add t w k i j Ht). ring.
Qed.

(** From X^2t - w^2 on to X^t - w. *)
Lemma chi_chi t w k s : (0 < t)%nat -> zsum (2 * t) (fun l => chi (2 * t) (w * w) l s * chi t w k l) = chi t w k s.
Proof.
  intros Ht. rewrite chi_select by lia. unfold chi. pose proof (Nat.div_mod_eq s (2 * t)) as E.
  pose proof (Nat.div_mod_eq (s mod (2 * t)) t) as E'. set (a := (s / (2 * t))%nat) in *. set (r := (s mod (2 * t))%nat) in *.
  assert (s = (2 * a + r / t) * t + r mod t)%nat as Hs by nia. pose proof (Nat.mod_upper_bound r t ltac:(lia)).
  assert (s mod t = r mod t)%nat as ->. { rewrite Hs, Nat.add_comm, Nat.Div0.mod_add. by rewrite Nat.mod_small. }
  assert (s / t = 2 * a + r / t)%nat as ->. { rewrite Hs at 1. rewrite Nat.div_add_l, (Nat.div_small (r mod t)) by lia. lia. }
  case_bool_decide; [|ring]. rewrite <- Z.pow_2_r, <- Z.pow_mul_r, <- Z.pow_add_r by lia. f_equal. lia.
Qed.

Lemma red_cyc n t w f g k : (0 < t)%nat -> red (2 * t) t w (cyc n (2 * t) (w * w) f g) k = cyc n t w f g k.
Proof.
  intros Ht. unfold red. unfold cyc.
  rewrite (zsum_ext (2 * t) _ (fun l => zsum n (fun i => f i * zsum n (fun j => g j * (chi (2 * t) (w * w) l (i + j) * chi t w k l))))).
  - rewrite zsum_swap. apply zsum_ext. intros i _. rewrite zsum_scale, zsum_swap. f_equal. apply zsum_ext. intros j _. by rewrite zsum_scale, chi_chi.
  - intros l _. rewrite Z.mul_comm, <- zsum_scale. apply zsum_ext. intros i _.
    replace (chi t w k l * _) with (f i * (chi t w k l * zsum n (fun j => g j * chi (2 * t) (w * w) l (i + j)))) by ring.
    f_equal. rewrite <- zsum_scale. apply zsum_ext. intros. ring.
Qed.

(** The halves of a butterfly are the two reductions. *)
Lemma red_half t w f k : (k < t)%nat -> red (2 * t) t w f k = f k + w * f (t + k)%nat.
Proof.
  intros Hk. unfold red. rewrite (zsum_ext _ _ (fun i => (if bool_decide (i = k) then f i else 0) + (if bool_decide (i = t + k)%nat then w * f i else 0))).
  - rewrite zsum_add, !(zsum_delta (2 * t)) by lia. done.
  - intros i Hi. unfold chi. destruct (decide (i < t)%nat).
    + rewrite Nat.mod_small, Nat.div_small by done. rewrite (bool_decide_false (i = t + k)%nat) by lia. case_bool_decide; [|ring]. rewrite Z.pow_0_r. ring.
    + assert (i mod t = i - t)%nat as ->. { symmetry. apply (Nat.mod_unique i t 1); lia. }
      assert (i / t = 1)%nat as ->. { symmetry. apply (Nat.div_unique i t 1 (i - t)); lia. }
      rewrite (bool_decide_false (i = k)) by lia. rewrite Z.pow_1_r.
      do 2 case_bool_decide; lia.
Qed.

(** *** Congruent arguments *)
Lemma chi_cong q t w w' k i : w ≡[q] w' -> chi t w k i ≡[q] chi t w' k i.
Proof. intros E. unfold chi. case_bool_decide; [by apply pow_cong|done]. Qed.
Lemma cyc_cong q n t w w' f f' g g' k : q <> 0 -> w ≡[q] w' -> (forall i, (i < n)%nat -> f i ≡[q] f' i) -> (forall i, (i < n)%nat -> g i ≡[q] g' i) ->
  cyc n t w f g k ≡[q] cyc n t w' f' g' k.
Proof.
  intros Hq Hw Hf Hg. unfold cyc. apply zsum_cong; [done|]. intros i Hi. rewrite (Hf i Hi). apply cong_mul; [done|].
  apply zsum_cong; [done|]. intros j Hj. by rewrite (Hg j Hj), (chi_cong q t w w').
Qed.

(** ** The stages *)

(** The constants of the moduli: block [i] of [m] stands for X^s - zeta_(m+i). *)
Definition zeta (tb : list Z) (j : nat) : Z := if Nat.even j then tb !!! (j / 2)%nat else - tb !!! (j / 2)%nat.

(** Block by block, [c] is the product of [a] and [b]. *)
Definition multiplied (q : Z) (tb : list Z) (m s : nat) (a b c : list Z) : Prop :=
  forall i k, (i < m)%nat -> (k < s)%nat ->
    c !!! (i * s + k)%nat ≡[q] cyc s s (zeta tb (m + i)) (fun j => a !!! (i * s + j)%nat) (fun j => b !!! (i * s + j)%nat) k.

Section stages.
Context (q : Z) (Hq : q <> 0).

(** One of the two reductions of a product. *)
Lemma half_ok t w z (fa fb fc : nat -> Z) (ga gb gc : nat -> Z) : (0 < t)%nat -> w * w ≡[q] z ->
  (forall k, (k < t)%nat -> ga k ≡[q] fa k + w * fa (t + k)%nat) -> (forall k, (k < t)%nat -> gb k ≡[q] fb k + w * fb (t + k)%nat) ->
  (forall k, (k < t)%nat -> gc k ≡[q] fc k + w * fc (t + k)%nat) ->
  (forall l, (l < 2 * t)%nat -> fc l ≡[q] cyc (2 * t) (2 * t) z fa fb l) ->
  forall k, (k < t)%nat -> gc k ≡[q] cyc t t w ga gb k.
Proof.
  intros Ht Hz Ha Hb Hc Hm k Hk. rewrite (Hc k Hk), (Hm k), (Hm (t + k)%nat) by lia.
  rewrite (cyc_cong q (2 * t) (2 * t) z (w * w) fa fa fb fb k), (cyc_cong q (2 * t) (2 * t) z (w * w) fa fa fb fb (t + k)) by (done || by symmetry).
  rewrite <- red_half, red_cyc, <- cyc_red by done. apply cyc_cong; [done|done|..]; intros i Hi; rewrite red_half by done; symmetry; auto.
Qed.

Lemma even_double_add m i (b : bool) : Nat.even (2 * m + (2 * i + Nat.b2n b)) = negb b.
Proof. replace (2 * m + (2 * i + Nat.b2n b))%nat with (Nat.b2n b + 2 * (m + i))%nat by lia. rewrite Nat.even_add_mul_2. by destruct b. Qed.
Lemma half_double_add m i (b : bool) : ((2 * m + (2 * i + Nat.b2n b)) / 2 = m + i)%nat.
Proof. replace (2 * m + (2 * i + Nat.b2n b))%nat with (Nat.b2n b + (m + i) * 2)%nat by lia. rewrite Nat.div_add by lia. by destruct b. Qed.

Lemma stage_multiplies tb m t a b c a' b' c' : (0 < t)%nat ->
  (forall i, (i < m)%nat -> tb !!! (m + i)%nat * tb !!! (m + i)%nat ≡[q] zeta tb (m + i)) ->
  butterflied q tb m t a a' -> butterflied q tb m t b b' -> butterflied q tb m t c c' ->
  multiplied q tb m (2 * t) a b c -> multiplied q tb (2 * m) t a' b' c'.
Proof.
  intros Ht Hw Ha Hb Hc Hm i' k Hi' Hk.
  assert (exists i (o : bool), (i < m)%nat /\ i' = (2 * i + Nat.b2n o)%nat) as (i & o & Hi & ->).
  { exists (i' / 2)%nat, (Nat.odd i'). split; [apply Nat.Div0.div_lt_upper_bound; lia|]. rewrite <- Nat.div2_div. apply Nat.div2_odd. }
  specialize (Hw i Hi). set (w := tb !!! (m + i)%nat) in *.
  assert (zeta tb (2 * m + (2 * i + Nat.b2n o)) = if o then - w else w) as ->.
  { unfold zeta. rewrite even_double_add, half_double_add. by destruct o. }
  set (W := if o then - w else w).
  assert (forall v v', butterflied q tb m t v v' -> forall k, (k < t)%nat ->
    v' !!! ((2 * i + Nat.b2n o) * t + k)%nat ≡[q] v !!! (i * (2 * t) + k)%nat + W * v !!! (i * (2 * t) + (t + k))%nat) as Hhalf.
  { intros v v' Hv l Hl. destruct (Hv i l Hi Hl) as [H1 H2]. apply cong_mod in H1, H2; [|done..]. fold w in H1, H2. unfold W. destruct o; cbn [Nat.b2n].
    - replace ((2 * i + 1) * t + l)%nat with (i * (2 * t) + (t + l))%nat by lia. rewrite H2. by rewrite Z.mul_opp_l.
    - replace ((2 * i + 0) * t + l)%nat with (i * (2 * t) + l)%nat by lia. by rewrite H1. }
  apply (half_ok t W (zeta tb (m + i)) (fun j => a !!! (i * (2 * t) + j)%nat) (fun j => b !!! (i * (2 * t) + j)%nat) (fun j => c !!! (i * (2 * t) + j)%nat)
    (fun j => a' !!! ((2 * i + Nat.b2n o) * t + j)%nat) (fun j => b' !!! ((2 * i + Nat.b2n o) * t + j)%nat) (fun j => c' !!! ((2 * i + Nat.b2n o) * t + j)%nat)); auto.
  unfold W. destruct o; [|done]. by rewrite Z.mul_opp_opp.
Qed.
End stages.

(** ** One residue *)
Section one_residue.
Context (q : Z) (log_n : nat) (tb : NttTables1).
Context (Hq : 1 < q < 2 ^ 30) (Hodd : Z.odd q = true) (Htb : table_ok (2 ^ log_n) q tb).
Abbreviation n := (2 ^ log_n)%nat.

Lemma root_square j : (1 <= j < n)%nat -> forward tb !!! j * forward tb !!! j ≡[q] zeta (forward tb) j.
Proof.
  intros Hj. apply cong_mod; [lia|]. unfold zeta. destruct (Nat.even j) eqn:E.
  - apply Nat.even_spec in E as [i ->]. rewrite (Nat.mul_comm 2 i), Nat.div_mul, (Nat.mul_comm i 2) by lia. apply (tok_even _ _ _ Htb). lia.
  - assert (Nat.odd j = true) as Ho by (unfold Nat.odd; by rewrite E). apply Nat.odd_spec in Ho as [i ->].
    replace ((2 * i + 1) / 2)%nat with i by (apply (Nat.div_unique _ 2 i 1); lia). apply (tok_odd _ _ _ Htb). lia.
Qed.

(** Three vectors side by side: what every stage preserves holds in the end. *)
Section side_by_side.
Context (R : nat -> nat -> list Z -> list Z -> list Z -> Prop).
Context (HR : forall m t a b c a' b' c', (0 < m)%nat -> (0 < t)%nat -> (2 * m <= n)%nat ->
  butterflied q (forward tb) m t a a' -> butterflied q (forward tb) m t b b' -> butterflied q (forward tb) m t c c' ->
  R m (2 * t)%nat a b c -> R (2 * m)%nat t a' b' c').

Lemma forward_mod_relates a b c : length a = n -> length b = n -> length c = n -> below q a -> below q b -> below q c -> R 1 n a b c ->
  exists a' b' c', forward_mod tb q log_n a = Ok a' /\ forward_mod tb q log_n b = Ok b' /\ forward_mod tb q log_n c = Ok c' /\
    (length c' = n /\ below q c') /\ R n 1 a' b' c'.
Proof.
  intros La Lb Lc Ba Bb Bc Hr. enough (forall k, (k <= log_n)%nat ->
    exists a' b' c', for_ k (fbody q log_n tb) a = Ok a' /\ for_ k (fbody q log_n tb) b = Ok b' /\ for_ k (fbody q log_n tb) c = Ok c' /\
    (length a' = n /\ length b' = n /\ length c' = n) /\ (below q a' /\ below q b' /\ below q c') /\ R (2 ^ k)%nat (2 ^ (log_n - k))%nat a' b' c') as H.
  { destruct (H log_n (le_n _)) as (a' & b' & c' & ? & ? & ? & (_ & _ & ?) & (_ & _ & ?) & Hr'). rewrite Nat.sub_diag in Hr'. by exists a', b', c'. }
  induction k as [|k IH]; intros Hk.
  - exists a, b, c. rewrite Nat.sub_0_r. cbn [for_ for_from Nat.pow]. done.
  - destruct IH as (a1 & b1 & c1 & Ea & Eb & Ec & (La1 & Lb1 & Lc1) & (Ba1 & Bb1 & Bc1) & Hr1); [lia|]. rewrite !for_S, Ea, Eb, Ec. run.
    pose proof (fbody_ok q log_n tb Hq Htb k a1 ltac:(lia) La1 Ba1) as (a2 & -> & La2 & Ba2 & Ha)%wp_iff.
    pose proof (fbody_ok q log_n tb Hq Htb k b1 ltac:(lia) Lb1 Bb1) as (b2 & -> & Lb2 & Bb2 & Hb)%wp_iff.
    pose proof (fbody_ok q log_n tb Hq Htb k c1 ltac:(lia) Lc1 Bc1) as (c2 & -> & Lc2 & Bc2 & Hc)%wp_iff.
    exists a2, b2, c2. do 5 (split; [done|]). destruct (stage_sizes k log_n ltac:(lia)) as [Hn Hmm].
    assert (2 ^ log_n / 2 ^ (k + 1) = 2 ^ (log_n - S k))%nat as Et.
    { replace log_n with ((log_n - S k) + (k + 1))%nat at 1 by lia. rewrite Nat.pow_add_r. apply Nat.div_mul, Nat.pow_nonzero. lia. }
    rewrite Et in *. assert (0 < 2 ^ (log_n - S k))%nat by (apply Nat.neq_0_lt_0, Nat.pow_nonzero; lia).
    assert (0 < 2 ^ k)%nat by (apply Nat.neq_0_lt_0, Nat.pow_nonzero; lia).
    change (2 ^ S k)%nat with (2 * 2 ^ k)%nat. apply (HR _ _ a1 b1 c1); try done; [lia|].
    replace (2 * 2 ^ (log_n - S k))%nat with (2 ^ (log_n - k))%nat; [done|]. replace (log_n - k)%nat with (S (log_n - S k)) by lia. done.
Qed.
End side_by_side.

(** The forward transform takes sums to sums. *)
Lemma forward_mod_adds a b c : length a = n -> length b = n -> length c = n -> below q a -> below q b -> below q c ->
  (forall k, (k < n)%nat -> c !!! k ≡[q] a !!! k + b !!! k) ->
  exists a' b' c', forward_mod tb q log_n a = Ok a' /\ forward_mod tb q log_n b = Ok b' /\ forward_mod tb q log_n c = Ok c' /\
    forall i, (i < n)%nat -> c' !!! i = (a' !!! i + b' !!! i) mod q.
Proof.
  intros La Lb Lc Ba Bb Bc Hc.
  destruct (forward_mod_relates (fun m s a b c => forall k, (k < m * s)%nat -> c !!! k ≡[q] a !!! k + b !!! k)) with a b c
    as (a' & b' & c' & Ea & Eb & Ec & [Lc' Bc'] & Hr); try done.
  - clear - Hq. intros m t a b c a' b' c' Hm Ht Hn Ha Hb Hc Hr k Hk. replace (2 * m * t)%nat with (m * (2 * t))%nat in Hk by lia.
    destruct (position k m t Hk) as (i & j & Hi & Hj & Hkk). destruct (Ha i j Hi Hj) as [Ha1 Ha2], (Hb i j Hi Hj) as [Hb1 Hb2], (Hc i j Hi Hj) as [Hc1 Hc2].
    apply cong_mod in Ha1, Ha2, Hb1, Hb2, Hc1, Hc2; [|lia..].
    pose proof (Hr (i * (2 * t) + j)%nat ltac:(nia)) as H1. pose proof (Hr (i * (2 * t) + (t + j))%nat ltac:(nia)) as H2.
    destruct Hkk as [-> | ->].
    + rewrite Hc1, Ha1, Hb1, H1, H2. apply reflexive_eq. ring.
    + rewrite Hc2, Ha2, Hb2, H1, H2. apply reflexive_eq. ring.
  - intros k Hk. apply Hc. lia.
  - exists a', b', c'. do 3 (split; [done|]). intros i Hi. specialize (Hr i ltac:(lia)). apply cong_mod in Hr; [|lia].
    by rewrite Z.mod_small in Hr by (apply Bc'; lia).
Qed.

(** The forward transform takes products to products of words. *)
Lemma forward_mod_multiplies a b c : length a = n -> length b = n -> length c = n -> below q a -> below q b -> below q c ->
  (forall k, (k < n)%nat -> c !!! k ≡[q] cyc n n (-1) (fun j => a !!! j) (fun j => b !!! j) k) ->
  exists a' b' c', forward_mod tb q log_n a = Ok a' /\ forward_mod tb q log_n b = Ok b' /\ forward_mod tb q log_n c = Ok c' /\
    forall i, (i < n)%nat -> c' !!! i = (a' !!! i * b' !!! i) mod q.
Proof.
  intros La Lb Lc Ba Bb Bc Hc.
  destruct (forward_mod_relates (multiplied q (forward tb))) with a b c as (a' & b' & c' & Ea & Eb & Ec & [Lc' Bc'] & Hm); try done.
  - clear - Htb Hq. intros m t a b c a' b' c' Hm Ht Hn Ha Hb Hc Hr. eapply (stage_multiplies q); try done; [lia|]. intros i Hi. apply root_square. lia.
  - intros i k Hi Hk. assert (i = 0%nat) as -> by lia. cbn [Nat.mul Nat.add]. unfold zeta. change (Nat.even 1) with false. change (1 / 2)%nat with 0%nat. cbv iota.
    rewrite (tok_zero _ _ _ Htb) by (apply Nat.neq_0_lt_0, Nat.pow_nonzero; lia). by apply Hc.
  - exists a', b', c'. do 3 (split; [done|]). intros i Hi. specialize (Hm i 0%nat Hi Nat.lt_0_1).
    apply cong_mod in Hm; [|lia]. rewrite Nat.mul_1_r, Nat.add_0_r, Z.mod_small in Hm by (apply Bc'; lia). rewrite Hm. f_equal.
    unfold cyc, chi. cbn. rewrite ?Nat.mul_1_r, ?Nat.add_0_r, bool_decide_true by done. change (Z.of_nat 0) with 0. rewrite Z.pow_0_r. ring.
Qed.
End one_residue.

(** ** The product modulo X^n + 1 *)
Definition negaconv (n : nat) (f g : nat -> Z) (k : nat) : Z :=
  zsum n (fun i => f i * (if bool_decide (i <= k)%nat then g (k - i)%nat else - g (n + k - i)%nat)).
Definition negacyclic (q : Z) (n : nat) (a b : list Z) : list Z := tabulate n (fun k => negaconv n (fun i => a !!! i) (fun i => b !!! i) k mod q).

Lemma negacyclic_cyc n f g k : (k < n)%nat ->
  negaconv n f g k = cyc n n (-1) f g k.
Proof.
  intros Hk. unfold negaconv, cyc. apply zsum_ext. intros i Hi. f_equal. set (j0 := if bool_decide (i <= k)%nat then (k - i)%nat else (n + k - i)%nat).
  rewrite (zsum_ext n (fun j => g j * _) (fun j => if bool_decide (j = j0) then (if bool_decide (i <= k)%nat then g j else - g j) else 0)).
  - assert (j0 < n)%nat by (unfold j0; case_bool_decide; lia). rewrite zsum_delta by done. unfold j0. by case_bool_decide.
  - intros j Hj. unfold chi. destruct (decide (i + j < n)%nat).
    + rewrite Nat.mod_small, Nat.div_small by done. change (Z.of_nat 0) with 0. rewrite Z.pow_0_r. unfold j0. repeat case_bool_decide; lia.
    + assert ((i + j) mod n = i + j - n)%nat as ->. { symmetry. apply (Nat.mod_unique _ n 1); lia. }
      assert ((i + j) / n = 1)%nat as ->. { symmetry. apply (Nat.div_unique _ n 1 (i + j - n)); lia. }
      change (Z.of_nat 1) with 1. rewrite Z.pow_1_r. unfold j0. repeat case_bool_decide; lia.
Qed.
Lemma length_negacyclic q n a b : length (negacyclic q n a b) = n.
Proof. apply length_tabulate. Qed.
Lemma negacyclic_below q n a b : 0 < q -> below q (negacyclic q n a b).
Proof.
  intros Hq k Hk. rewrite length_negacyclic in Hk. unfold negacyclic. rewrite tabulate_lookup by done. apply Z.mod_pos_bound. lia.
Qed.
Lemma negacyclic_lookup q n a b k : q <> 0 -> (k < n)%nat -> negacyclic q n a b !!! k ≡[q] cyc n n (-1) (fun j => a !!! j) (fun j => b !!! j) k.
Proof.
  intros Hq Hk. unfold negacyclic. rewrite tabulate_lookup by done. rewrite mod_cong by done.
  by rewrite (negacyclic_cyc n (fun j => a !!! j) (fun j => b !!! j)).
Qed.

(** ** The whole transform *)
Section whole.
Context `{LL : LibLaws} (hash_id : string -> Z).
Context (k : Z) (ms : list Z) (noise : double) (pm : PolyMatrixParams) (qp : QueryParams) (p : Params).
Context (Hk : 0 <= k < 31) (Hms : ntt_moduli ms) (Hp : Params_new hash_id (2 ^ k) ms noise pm qp = Ok p).
Abbreviation n := (2 ^ Z.to_nat k)%nat.
Abbreviation r := (length ms).

Lemma n_pos : (0 < n)%nat.
Proof. apply Nat.neq_0_lt_0, Nat.pow_nonzero. lia. Qed.
Lemma modulus_ok c : (c < r)%nat -> 1 < ms !!! c < 2 ^ 30 /\ Z.odd (ms !!! c) = true.
Proof.
  intros Hc. unfold ntt_moduli in Hms. rewrite Forall_lookup in Hms. destruct (lookup_lt_is_Some_2 ms c Hc) as [q Hqc].
  rewrite (list_lookup_total_correct _ _ _ Hqc). by eapply Hms.
Qed.

(** The forward transform, residue by residue. *)
Lemma NttForward_slices v : residues n ms v ->
  exists w, NttForward p v = Ok w /\ residues n ms w /\
    forall c t, (c < r)%nat -> ntt_tables_ p !! c = Some t -> forward_mod t (ms !!! c) (Z.to_nat k) (slice v n c) = Ok (slice w n c).
Proof.
  intros [Hvl Hv]. destruct (Params_tables hash_id k ms noise pm qp p Hk Hms Hp) as (Hc & Hm & Hpl & Hlog & Htl & Htb).
  assert (wp (NttForward p v) (fun w => length w = length v /\ forall c, (c < r)%nat -> below (ms !!! c) (slice w n c) /\
    forall t, ntt_tables_ p !! c = Some t -> forward_mod t (ms !!! c) (Z.to_nat k) (slice v n c) = Ok (slice w n c))) as Hf.
  { unfold NttForward. rewrite Hlog. apply (per_modulus_spec p n _ v ms (fun c s => below (ms !!! c) s /\
      forall t, ntt_tables_ p !! c = Some t -> forward_mod t (ms !!! c) (Z.to_nat k) (slice v n c) = Ok s)); try done.
    intros c t Hcm Ht. destruct (modulus_ok c Hcm) as [Hq Ho]. rewrite u32_small by lia. specialize (Htb c t Ht). rewrite Z_to_nat_pow2 in Htb by lia.
    pose proof (forward_inverse_mod (ms !!! c) (Z.to_nat k) t Hq Ho Htb (slice v n c) ltac:(by apply (slice_length _ _ _ r)) ltac:(by apply Hv)) as (w & Ew & Hwl & Hwb & _)%wp_iff.
    rewrite Ew. cbn [wp]. split; [done|]. split; [done|]. intros t' Ht'. rewrite Ht in Ht'. by injection Ht' as <-. }
  apply wp_iff in Hf as (w & -> & Hwl & Hw). exists w. split; [done|]. split.
  - split; [congruence|]. intros c Hcm. by apply Hw.
  - intros c t Hcm Ht. by apply Hw.
Qed.

(** What holds of three vectors residue by residue. *)
Lemma NttForward_relates (R : Z -> list Z -> list Z -> list Z -> Prop) (R' : Z -> Z -> Z -> Z -> Prop) a b c :
  (forall q tb x y z, 1 < q < 2 ^ 30 -> Z.odd q = true -> table_ok n q tb -> length x = n -> length y = n -> length z = n -> below q x -> below q y -> below q z -> R q x y z ->
     exists x' y' z', forward_mod tb q (Z.to_nat k) x = Ok x' /\ forward_mod tb q (Z.to_nat k) y = Ok y' /\ forward_mod tb q (Z.to_nat k) z = Ok z' /\
       forall i, (i < n)%nat -> R' q (x' !!! i) (y' !!! i) (z' !!! i)) ->
  residues n ms a -> residues n ms b -> residues n ms c -> (forall i, (i < r)%nat -> R (ms !!! i) (slice a n i) (slice b n i) (slice c n i)) ->
  exists a' b' c', NttForward p a = Ok a' /\ NttForward p b = Ok b' /\ NttForward p c = Ok c' /\
    (residues n ms a' /\ residues n ms b' /\ residues n ms c') /\
    forall i j, (i < r)%nat -> (j < n)%nat -> R' (ms !!! i) (a' !!! (i * n + j)%nat) (b' !!! (i * n + j)%nat) (c' !!! (i * n + j)%nat).
Proof.
  intros HRR Ha Hb Hc HR. destruct (Params_tables hash_id k ms noise pm qp p Hk Hms Hp) as (_ & _ & _ & _ & Htl & Htb).
  destruct (NttForward_slices a Ha) as (a' & -> & Ha' & Ea), (NttForward_slices b Hb) as (b' & -> & Hb' & Eb), (NttForward_slices c Hc) as (c' & -> & Hc' & Ec).
  exists a', b', c'. do 4 (split; [done|]). intros i j Hi Hj. destruct (lookup_lt_is_Some_2 (ntt_tables_ p) i ltac:(lia)) as [t Ht].
  destruct (modulus_ok i Hi) as [Hq Ho]. pose proof (Htb i t Ht) as Htb'. rewrite Z_to_nat_pow2 in Htb' by lia.
  destruct Ha as [Hla Hba], Hb as [Hlb Hbb], Hc as [Hlc Hbc].
  destruct (HRR (ms !!! i) t (slice a n i) (slice b n i) (slice c n i)) as (x & y & z & Ex & Ey & Ez & Hr'); try (by apply (slice_length _ _ _ r)); auto.
  rewrite (Ea i t) in Ex by done. rewrite (Eb i t) in Ey by done. rewrite (Ec i t) in Ez by done. injection Ex as <-. injection Ey as <-. injection Ez as <-.
  specialize (Hr' j Hj). by rewrite !slice_lookup in Hr' by done.
Qed.

(** *** Rings *)
Definition poly_mul (a b : list Z) : list Z :=
  tabulate (r * n) (fun i => negacyclic (ms !!! (i / n)%nat) n (slice a n (i / n)) (slice b n (i / n)) !!! (i mod n)%nat).
Definition poly_add (a b : list Z) : list Z := tabulate (r * n) (fun i => (a !!! i + b !!! i) mod (ms !!! (i / n)%nat)).
(** Word by word, after the transform. *)
Definition word_mul (a b : list Z) : list Z := tabulate (r * n) (fun i => (a !!! i * b !!! i) mod (ms !!! (i / n)%nat)).

Lemma word_index c j : (c < r)%nat -> (j < n)%nat -> (c * n + j < r * n)%nat /\ ((c * n + j) / n = c)%nat /\ ((c * n + j) mod n = j)%nat.
Proof.
  intros Hc Hj. split; [nia|]. rewrite Nat.div_add_l, (Nat.div_small j) by lia. rewrite (Nat.add_comm (c * n)), Nat.Div0.mod_add, Nat.mod_small by lia. split; [lia|done].
Qed.

Lemma tabulate_residues f : (forall c j, (c < r)%nat -> (j < n)%nat -> 0 <= f (c * n + j)%nat < ms !!! c) -> residues n ms (tabulate (r * n) f).
Proof.
  intros Hf. split; [apply length_tabulate|]. intros c Hc j Hj. rewrite (slice_length _ _ _ r) in Hj by (done || apply length_tabulate).
  destruct (word_index c j Hc Hj) as [? _]. rewrite slice_lookup, tabulate_lookup by done. by apply Hf.
Qed.
Lemma mod_residues F : residues n ms (tabulate (r * n) (fun i => F i mod (ms !!! (i / n)%nat))).
Proof.
  apply tabulate_residues. intros c j Hc Hj. destruct (word_index c j Hc Hj) as (_ & -> & _). destruct (modulus_ok c Hc). apply Z.mod_pos_bound. lia.
Qed.
Lemma poly_add_residues a b : residues n ms (poly_add a b).
Proof. apply mod_residues. Qed.
Lemma word_mul_residues a b : residues n ms (word_mul a b).
Proof. apply mod_residues. Qed.

Lemma slice_poly_mul a b c : (c < r)%nat -> slice (poly_mul a b) n c = negacyclic (ms !!! c) n (slice a n c) (slice b n c).
Proof.
  intros Hc. assert (length (slice (poly_mul a b) n c) = n) as Hl by (apply (slice_length _ _ _ r); [apply length_tabulate|done]).
  apply list_eq_total; [by rewrite Hl, length_negacyclic|]. intros j Hj. rewrite Hl in Hj. destruct (word_index c j Hc Hj) as (? & E & E').
  rewrite slice_lookup by done. unfold poly_mul. rewrite tabulate_lookup by done. by rewrite E, E'.
Qed.
Lemma poly_mul_residues a b : residues n ms (poly_mul a b).
Proof.
  apply tabulate_residues. intros c j Hc Hj. destruct (word_index c j Hc Hj) as (_ & -> & ->). destruct (modulus_ok c Hc).
  apply negacyclic_below; [lia|by rewrite length_negacyclic].
Qed.

(** A vector of residues is one by its words. *)
Lemma residues_eq v (f : nat -> Z) : length v = (r * n)%nat -> (forall c j, (c < r)%nat -> (j < n)%nat -> v !!! (c * n + j)%nat = f (c * n + j)%nat) -> v = tabulate (r * n) f.
Proof.
  intros Hl Hf. apply eq_tabulate; [done|]. intros i Hi. pose proof n_pos. pose proof (Nat.div_mod_eq i n) as E.
  pose proof (Nat.mod_upper_bound i n ltac:(lia)). assert (i / n < r)%nat by (apply Nat.Div0.div_lt_upper_bound; lia).
  replace i with (i / n * n + i mod n)%nat by lia. by apply Hf.
Qed.

(** The transform is a homomorphism of rings. *)
Lemma NttForward_mul a b : residues n ms a -> residues n ms b ->
  exists a' b', NttForward p a = Ok a' /\ NttForward p b = Ok b' /\ NttForward p (poly_mul a b) = Ok (word_mul a' b').
Proof.
  intros Ha Hb.
  destruct (NttForward_relates (fun q x y z => z = negacyclic q n x y) (fun q x y z => z = (x * y) mod q) a b (poly_mul a b)) as (a' & b' & c' & -> & -> & -> & (_ & _ & [Hl _]) & HR); try done.
  - clear. intros q tb x y z Hq Ho Ht Lx Ly Lz Bx By Bz ->. apply forward_mod_multiplies; try done. intros j Hj. by apply negacyclic_lookup; [lia|].
  - apply poly_mul_residues.
  - intros c Hc. by apply slice_poly_mul.
  - exists a', b'. do 2 (split; [done|]). f_equal. apply residues_eq; [done|]. intros c j Hc Hj. destruct (word_index c j Hc Hj) as (_ & -> & _). by apply HR.
Qed.
Lemma NttForward_add a b : residues n ms a -> residues n ms b ->
  exists a' b', NttForward p a = Ok a' /\ NttForward p b = Ok b' /\ NttForward p (poly_add a b) = Ok (poly_add a' b').
Proof.
  intros Ha Hb.
  destruct (NttForward_relates (fun q x y z => forall j, (j < n)%nat -> z !!! j = (x !!! j + y !!! j) mod q) (fun q x y z => z = (x + y) mod q) a b (poly_add a b))
    as (a' & b' & c' & -> & -> & -> & (_ & _ & [Hl _]) & HR); try done.
  - clear. intros q tb x y z Hq Ho Ht Lx Ly Lz Bx By Bz Hz. apply forward_mod_adds; try done. intros j Hj. rewrite Hz by done. apply mod_cong. lia.
  - apply poly_add_residues.
  - intros c Hc j Hj. rewrite !slice_lookup by done. unfold poly_add. destruct (word_index c j Hc Hj) as (? & E & _). rewrite tabulate_lookup by done. by rewrite E.
  - exists a', b'. do 2 (split; [done|]). f_equal. apply residues_eq; [done|]. intros c j Hc Hj. destruct (word_index c j Hc Hj) as (_ & -> & _). by apply HR.
Qed.
End whole.
