(* ===== verification/PolyMatrix.v ===== *)
(** * The polynomial matrices of SpiralPIR (psi/algorithm/spiral/poly_matrix,
    poly_matrix_utils, gadget)

    A matrix keeps its polynomials one after another in a vector: a
    [PolyMatrixRaw] the coefficients modulo the product of the moduli, a
    [PolyMatrixNtt] the words of the transform for each modulus.  The two classes
    have the same methods; [PolyMatrix] is what they share.

    [WEAK_ENFORCE] is yacl's: a build has the checks or not, [weak]. *)
From S2P Require Import Prelude SpiralArith NttTable SpiralParams Ntt.

Class PolyMatrix (M : Type) := {
  Rows : M -> nat;
  Cols : M -> nat;
  NumWords : M -> nat;
  Data : M -> list Z;
  with_data : list Z -> M -> M;
  zero_like : M -> nat -> nat -> M
}.
Class PolyMatrixLaws (M : Type) `{PolyMatrix M} : Prop := {
  data_with d (m : M) : Data (with_data d m) = d;
  rows_with d (m : M) : Rows (with_data d m) = Rows m;
  cols_with d (m : M) : Cols (with_data d m) = Cols m;
  words_with d (m : M) : NumWords (with_data d m) = NumWords m;
  with_with d d' (m : M) : with_data d (with_data d' m) = with_data d m;
  zero_like_shape (m : M) r c : Rows (zero_like m r c) = r /\ Cols (zero_like m r c) = c /\ NumWords (zero_like m r c) = NumWords m /\
    Data (zero_like m r c) = replicate (r * c * NumWords m) 0
}.

Record PolyMatrixRaw := mkRaw { raw_poly_len_ : nat; raw_rows_ : nat; raw_cols_ : nat; raw_data_ : list Z }.
Definition raw_Zero (poly_len rows cols : nat) : PolyMatrixRaw := mkRaw poly_len rows cols (replicate (rows * cols * poly_len) 0).
Definition raw_NumWords (m : PolyMatrixRaw) : nat := raw_poly_len_ m.
#[export] Instance raw_matrix : PolyMatrix PolyMatrixRaw := {|
  Rows := raw_rows_; Cols := raw_cols_; NumWords := raw_NumWords; Data := raw_data_;
  with_data d m := mkRaw (raw_poly_len_ m) (raw_rows_ m) (raw_cols_ m) d; zero_like m := raw_Zero (raw_poly_len_ m) |}.
#[export] Instance raw_matrix_laws : PolyMatrixLaws PolyMatrixRaw.
Proof. by split. Qed.

Record PolyMatrixNtt := mkNtt { ntt_crt_count_ : nat; ntt_poly_len_ : nat; ntt_rows_ : nat; ntt_cols_ : nat; ntt_data_ : list Z }.
Definition ntt_Zero (crt_count poly_len rows cols : nat) : PolyMatrixNtt := mkNtt crt_count poly_len rows cols (replicate (rows * cols * poly_len * crt_count) 0).
Definition ntt_NumWords (m : PolyMatrixNtt) : nat := (ntt_crt_count_ m * ntt_poly_len_ m)%nat.
#[export] Instance ntt_matrix : PolyMatrix PolyMatrixNtt := {|
  Rows := ntt_rows_; Cols := ntt_cols_; NumWords := ntt_NumWords; Data := ntt_data_;
  with_data d m := mkNtt (ntt_crt_count_ m) (ntt_poly_len_ m) (ntt_rows_ m) (ntt_cols_ m) d; zero_like m := ntt_Zero (ntt_crt_count_ m) (ntt_poly_len_ m) |}.
#[export] Instance ntt_matrix_laws : PolyMatrixLaws PolyMatrixNtt.
Proof. split; try done. intros m r c. cbn. unfold ntt_NumWords. split_and!; try done. f_equal. lia. Qed.

#[export] Instance raw_eq_dec : EqDecision PolyMatrixRaw.
Proof. solve_decision. Defined.
#[export] Instance ntt_eq_dec : EqDecision PolyMatrixNtt.
Proof. solve_decision. Defined.

Definition raw_new (poly_len rows cols : nat) (data : list Z) : res PolyMatrixRaw :=
  _ ← enforce (bool_decide (poly_len * rows * cols <= length data)%nat);
  Ok (mkRaw poly_len rows cols data).

(** ** Methods of both *)
Section matrix.
Context (weak : bool) {M : Type} `{PolyMatrix M}.
Definition weak_enforce (b : bool) : res unit := enforce (negb weak || b).

Definition PolyStartIndex (m : M) (row col : nat) : nat := ((row * Cols m + col) * NumWords m)%nat.
Definition Poly (m : M) (r c : nat) : res (list Z) :=
  let start_idx := PolyStartIndex m r c in
  _ ← defined (bool_decide (start_idx + NumWords m <= length (Data m))%nat);
  Ok (take (NumWords m) (drop start_idx (Data m))).
(** A matrix after a write through the span of a polynomial. *)
Definition set_poly (m : M) (r c : nat) (s : list Z) : M := with_data (put_span (Data m) (PolyStartIndex m r c) s) m.
(** [f] on the polynomials of a range of rows and columns. *)
Definition each_poly (rows cols : nat) (f : nat -> nat -> list Z -> res (list Z)) (m : M) : res M :=
  for_ rows (fun r => for_ cols (fun c m => s ← Poly m r c; s ← f r c s; Ok (set_poly m r c s))) m.

Definition copy_poly (src dest : M) (r c r' c' : nat) : res M :=
  s ← Poly src r c; _ ← Poly dest r' c'; Ok (set_poly dest r' c' s).
Definition CopyInto (m p : M) (target_row target_col : nat) : res M :=
  _ ← weak_enforce (bool_decide (target_row < Rows m)%nat);
  _ ← weak_enforce (bool_decide (target_col < Cols m)%nat);
  _ ← weak_enforce (bool_decide (target_row + Rows p <= Rows m)%nat);
  _ ← weak_enforce (bool_decide (target_col + Cols p <= Cols m)%nat);
  _ ← weak_enforce (bool_decide (NumWords p = NumWords m));
  for_ (Rows p) (fun r => for_ (Cols p) (fun c m => copy_poly p m r c (target_row + r) (target_col + c))) m.
Definition SubMatrix (m : M) (target_row target_col rows cols : nat) : res M :=
  _ ← weak_enforce (bool_decide (target_row < Rows m)%nat);
  _ ← weak_enforce (bool_decide (target_col < Cols m)%nat);
  _ ← weak_enforce (bool_decide (target_row + rows <= Rows m)%nat);
  _ ← weak_enforce (bool_decide (target_col + cols <= Cols m)%nat);
  for_ rows (fun r => for_ cols (fun c sub => copy_poly m sub (target_row + r) (target_col + c) r c)) (zero_like m rows cols).
Definition PadTop (m : M) (pad_rows : nat) : res M := CopyInto (zero_like m (Rows m + pad_rows) (Cols m)) m pad_rows 0.
Definition SetData (m : M) (data : list Z) : res M :=
  _ ← enforce (bool_decide (Rows m * Cols m * NumWords m = length data)%nat);
  _ ← defined (bool_decide (length data <= length (Data m))%nat);
  Ok (with_data (put_span (Data m) 0 data) m).

(** One over the other. *)
Definition Stack (a b : M) : res M :=
  _ ← weak_enforce (bool_decide (Cols a = Cols b));
  c ← CopyInto (zero_like a (Rows a + Rows b) (Cols a)) a 0 0;
  CopyInto c b (Rows a) 0.
Definition ShiftRowsByOne (inp : M) : res M :=
  if bool_decide (Rows inp = 1%nat) then Ok inp
  else
    sub_rows ← SubMatrix inp 0 0 (Rows inp - 1) (Cols inp);
    last_row ← SubMatrix inp (Rows inp - 1) 0 1 (Cols inp);
    Stack last_row sub_rows.
End matrix.

(** ** Methods of [PolyMatrixRaw] *)
Section raw.
Context `{L : Lib} (weak : bool).

Definition each_coeff (f : Z -> res Z) (s : list Z) : res (list Z) :=
  for_ (length s) (fun z s => x ← vget s z; x ← f x; vset s z x) s.
Definition ReduceMod (m : PolyMatrixRaw) (modulus : Z) : res PolyMatrixRaw :=
  _ ← weak_enforce weak (0 <? modulus);
  each_poly (Rows m) (Cols m) (fun _ _ => each_coeff (fun x => umod x modulus)) m.
Definition ReduceMod_seal (m : PolyMatrixRaw) (modulus : Modulus) : res PolyMatrixRaw :=
  each_poly (Rows m) (Cols m) (fun _ _ => each_coeff (fun x => Ok (BarrettRawU64 x (const_ratio modulus).2 (value modulus)))) m.
Definition Rescale_rows (m : PolyMatrixRaw) (start_row end_row : nat) (in_modulus out_modulus : Z) : res PolyMatrixRaw :=
  _ ← weak_enforce weak (bool_decide (start_row < end_row)%nat);
  _ ← weak_enforce weak (bool_decide (end_row <= Rows m)%nat);
  for_ (end_row - start_row) (fun k => for_ (Cols m) (fun c m =>
    s ← Poly m (start_row + k) c; s ← each_coeff (fun x => Rescale x in_modulus out_modulus) s; Ok (set_poly m (start_row + k) c s))) m.
Definition Reset (m : PolyMatrixRaw) (poly_len rows cols : nat) : PolyMatrixRaw := mkRaw poly_len rows cols (replicate (poly_len * rows * cols) 0).
Definition Identity (poly_len rows cols : nat) : res PolyMatrixRaw :=
  _ ← weak_enforce weak (bool_decide (rows = cols));
  data ← for_ rows (fun r data => vset data (r * cols * poly_len + r * poly_len) 1) (replicate (rows * cols * poly_len) 0);
  raw_new poly_len rows cols data.
Definition SingleValue (poly_len : nat) (value : Z) : res PolyMatrixRaw :=
  data ← vset (raw_data_ (raw_Zero poly_len 1 1)) 0 value;
  Ok (mkRaw poly_len 1 1 data).
(** [words] is what the generator fills in. *)
Definition raw_RandomPrg (p : Params) (rows cols : nat) (words : list Z) : res PolyMatrixRaw :=
  let out := raw_Zero (Z.to_nat (PolyLen p)) rows cols in
  _ ← defined (bool_decide (length words = length (Data out)));
  ReduceMod_seal (with_data words out) (modulus_ (crt_params_ p)).
Definition MatrixWithIdentity (p : PolyMatrixRaw) : res PolyMatrixRaw :=
  _ ← weak_enforce weak (bool_decide (Cols p = 1%nat));
  r ← CopyInto weak (raw_Zero (raw_poly_len_ p) (Rows p) (Rows p + 1)) p 0 0;
  identity ← Identity (raw_poly_len_ p) (Rows p) (Rows p);
  CopyInto weak r identity 0 1.

(** *** Messages; the first row of a random matrix is not sent *)
Record PolyMatrixProto := mkProto { proto_rows : Z; proto_cols : Z; proto_data : list Z }.
Definition ToProto (m : PolyMatrixRaw) : PolyMatrixProto := mkProto (Z.of_nat (raw_rows_ m)) (Z.of_nat (raw_cols_ m)) (raw_data_ m).
Definition ToProtoRng (m : PolyMatrixRaw) : res PolyMatrixProto :=
  _ ← weak_enforce weak (bool_decide (1 < raw_rows_ m)%nat);
  let offset := (raw_cols_ m * raw_poly_len_ m)%nat in
  _ ← defined (bool_decide (offset <= length (raw_data_ m))%nat);
  Ok (mkProto (u64 (Z.of_nat (raw_rows_ m) - 1)) (Z.of_nat (raw_cols_ m)) (drop offset (raw_data_ m))).
Definition FromProto (proto : PolyMatrixProto) (p : Params) : res PolyMatrixRaw :=
  let rows := Z.to_nat (proto_rows proto) in let cols := Z.to_nat (proto_cols proto) in
  _ ← enforce (u64 (u64 (proto_rows proto * proto_cols proto) * PolyLen p) =? Z.of_nat (length (proto_data proto)));
  raw_new (Z.to_nat (PolyLen p)) rows cols (proto_data proto).
(** [rng] gives the numbers drawn. *)
Definition FromProtoRng (proto : PolyMatrixProto) (p : Params) (rng : nat -> Z) : res PolyMatrixRaw :=
  let rows := Z.to_nat (proto_rows proto) in let cols := Z.to_nat (proto_cols proto) in
  _ ← enforce (u64 (u64 (proto_rows proto * proto_cols proto) * PolyLen p) =? Z.of_nat (length (proto_data proto)));
  let first_row_coeffs := (cols * Z.to_nat (PolyLen p))%nat in
  data ← for_ first_row_coeffs (fun i data => x ← umod (rng i) (PModulus p); Ok (data ++ [u64 (PModulus p - x)])) [];
  raw_new (Z.to_nat (PolyLen p)) (rows + 1) cols (data ++ proto_data proto).
End raw.

(** ** Operations on polynomials *)
Section poly.
Context `{L : Lib} (weak : bool) (p : Params).
Abbreviation crt := (Z.to_nat (CrtCount p)).
Abbreviation len := (Z.to_nat (PolyLen p)).

(** Word by word, for each modulus. *)
Definition each_word (f : nat -> nat -> list Z -> res Z) (dst : list Z) : res (list Z) :=
  for_ crt (fun c => for_ len (fun i dst => let idx := (c * len + i)%nat in x ← f c idx dst; vset dst idx x)) dst.

Definition MultiplyPoly (dst a b : list Z) : res (list Z) :=
  each_word (fun c idx _ => x ← vget a idx; y ← vget b idx; MultiplyModular p x y c) dst.
Definition MultiplyAddPoly (dst a b : list Z) : res (list Z) :=
  _ ← weak_enforce weak (bool_decide (length dst = length a));
  _ ← weak_enforce weak (bool_decide (length dst = length b));
  _ ← weak_enforce weak (bool_decide (length dst = crt * len)%nat);
  each_word (fun c idx dst => x ← vget a idx; y ← vget b idx; z ← vget dst idx; MultiplyAddModular p x y z c) dst.
Definition ReducePoly (dst : list Z) : res (list Z) :=
  _ ← weak_enforce weak (bool_decide (length dst = crt * len)%nat);
  each_word (fun c idx dst => x ← vget dst idx; BarrettCoeffU64 p x c) dst.
Definition MultiplyAddPolyAvx2 (dst a b : list Z) : res (list Z) :=
  _ ← weak_enforce weak (bool_decide (length dst = length a));
  _ ← weak_enforce weak (bool_decide (length dst = length b));
  _ ← weak_enforce weak (bool_decide (length dst = crt * len)%nat);
  for_ crt (fun c => for_ ((len + 3) / 4) (fun i dst =>
    let idx := (c * len + 4 * i)%nat in
    x ← mm256_loadu a idx; y ← mm256_loadu b idx; z ← mm256_loadu dst idx;
    mm256_storeu dst idx (mm256_add_epi64 z (mm256_mul_epu32 x y)))) dst.
Definition MultiplyAddPoly_avx2 (dst a b : list Z) : res (list Z) :=
  dst ← MultiplyAddPolyAvx2 dst a b; ReducePoly dst.
Definition AddPoly (dst a b : list Z) : res (list Z) :=
  each_word (fun c idx _ => x ← vget a idx; y ← vget b idx; AddModular p x y c) dst.
Definition AddPolyInto (dst a : list Z) : res (list Z) :=
  each_word (fun c idx dst => x ← vget a idx; y ← vget dst idx; AddModular p x y c) dst.
Definition InvertPoly (dst a : list Z) : res (list Z) :=
  for_ len (fun i dst => x ← vget a i; vset dst i (u64 (PModulus p - x))) dst.
Definition AutomotphPoly (dst a : list Z) (t : Z) : res (list Z) :=
  for_ len (fun i dst =>
    let num := u64 (Z.of_nat i * t) / PolyLen p in
    let rem := u64 (Z.of_nat i * t) mod PolyLen p in
    x ← vget a i;
    vsetz dst rem (if num mod 2 =? 0 then x else u64 (PModulus p - x))) dst.
Definition ReduceCopy (dst inp : list Z) : res (list Z) :=
  for_ crt (fun i => for_ len (fun j dst => x ← vget inp j; x ← BarrettCoeffU64 p x i; vset dst (i * len + j) x)) dst.

(** [words] is what the generator fills in. *)
Definition ntt_RandomPrg (rows cols : nat) (words : list Z) : res PolyMatrixNtt :=
  let out := ntt_Zero crt len rows cols in
  _ ← defined (bool_decide (length words = length (Data out)));
  each_poly rows cols (fun _ _ => each_word (fun c idx dst => x ← vget dst idx; BarrettCoeffU64 p x c)) (with_data words out).
(** [shuffle] is [std::shuffle] for the entry with a generator that goes on. *)
Definition GenTernaryMatrix (mat : PolyMatrixRaw) (hamming : nat) (shuffle : nat -> nat -> list Z -> list Z) : res PolyMatrixRaw :=
  each_poly (Rows mat) (Cols mat) (fun i j poly =>
    poly ← for_ hamming (fun k poly => poly ← vset poly k 1; vset poly (k + hamming) (u64 (PModulus p - 1))) poly;
    Ok (shuffle i j poly)) mat.

(** ** Operations on matrices *)
Definition ScalarMultiply_into (dst a b : PolyMatrixNtt) : res PolyMatrixNtt :=
  _ ← weak_enforce weak (bool_decide (Rows a = 1%nat) && bool_decide (Cols a = 1%nat));
  poly_a ← Poly a 0 0;
  each_poly (Rows b) (Cols b) (fun i j s => poly_b ← Poly b i j; MultiplyPoly s poly_a poly_b) dst.
Definition ScalarMultiply (a b : PolyMatrixNtt) : res PolyMatrixNtt := ScalarMultiply_into (zero_like b (Rows b) (Cols b)) a b.
Definition Automorphism_into (dst a : PolyMatrixRaw) (t : Z) : res PolyMatrixRaw :=
  _ ← weak_enforce weak (bool_decide (Rows dst = Rows a));
  _ ← weak_enforce weak (bool_decide (Cols dst = Cols a));
  each_poly (Rows a) (Cols a) (fun i j s => poly_a ← Poly a i j; AutomotphPoly s poly_a t) dst.
Definition Automorphism (a : PolyMatrixRaw) (t : Z) : res PolyMatrixRaw := Automorphism_into (zero_like a (Rows a) (Cols a)) a t.
Definition Add_into (dst a b : PolyMatrixNtt) : res PolyMatrixNtt :=
  _ ← weak_enforce weak (bool_decide (Rows dst = Rows a));
  _ ← weak_enforce weak (bool_decide (Cols dst = Cols a));
  _ ← weak_enforce weak (bool_decide (Rows a = Rows b));
  _ ← weak_enforce weak (bool_decide (Cols a = Cols b));
  each_poly (Rows a) (Cols a) (fun i j s => a_poly ← Poly a i j; b_poly ← Poly b i j; AddPoly s a_poly b_poly) dst.
Definition Add (a b : PolyMatrixNtt) : res PolyMatrixNtt :=
  _ ← weak_enforce weak (bool_decide (Rows a = Rows b));
  _ ← weak_enforce weak (bool_decide (Cols a = Cols b));
  each_poly (Rows a) (Cols a) (fun i j s => a_poly ← Poly a i j; b_poly ← Poly b i j; AddPoly s a_poly b_poly) a.
Definition AddInto (dst a : PolyMatrixNtt) : res PolyMatrixNtt :=
  _ ← weak_enforce weak (bool_decide (Rows dst = Rows a));
  _ ← weak_enforce weak (bool_decide (Cols dst = Cols a));
  each_poly (Rows a) (Cols a) (fun i j s => a_poly ← Poly a i j; AddPolyInto s a_poly) dst.
Definition AddIntoAt (dst a : PolyMatrixNtt) (t_row t_col : nat) : res PolyMatrixNtt :=
  for_ (Rows a) (fun i => for_ (Cols a) (fun j dst =>
    s ← Poly dst (t_row + i) (t_col + j); a_poly ← Poly a i j; s ← AddPolyInto s a_poly; Ok (set_poly dst (t_row + i) (t_col + j) s))) dst.
Definition Invert_into (dst a : PolyMatrixRaw) : res PolyMatrixRaw :=
  _ ← weak_enforce weak (bool_decide (Rows dst = Rows a));
  _ ← weak_enforce weak (bool_decide (Cols dst = Cols a));
  each_poly (Rows a) (Cols a) (fun i j s => a_poly ← Poly a i j; InvertPoly s a_poly) dst.
Definition Invert (a : PolyMatrixRaw) : res PolyMatrixRaw :=
  each_poly (Rows a) (Cols a) (fun i j s => a_poly ← Poly a i j; InvertPoly s a_poly) (raw_Zero len (Rows a) (Cols a)).

(** From the transform back, and to it. *)
Definition compose_poly (temp s : list Z) : res (list Z) :=
  for_ len (fun i s => x ← CrtCompose p temp (Z.of_nat i); vset s i x) s.
Definition FromNtt_into (out : PolyMatrixRaw) (inp : PolyMatrixNtt) : res PolyMatrixRaw :=
  _ ← weak_enforce weak (bool_decide (Rows out = Rows inp));
  _ ← weak_enforce weak (bool_decide (Cols out = Cols inp));
  each_poly (Rows out) (Cols out) (fun r c s => temp ← Poly inp r c; temp ← NttInverse p temp; compose_poly temp s) out.
Definition FromNtt (inp : PolyMatrixNtt) : res PolyMatrixRaw := FromNtt_into (raw_Zero len (Rows inp) (Cols inp)) inp.
Definition ToNtt_into (out : PolyMatrixNtt) (inp : PolyMatrixRaw) : res PolyMatrixNtt :=
  each_poly (Rows out) (Cols out) (fun r c s => in_poly ← Poly inp r c; s ← ReduceCopy s in_poly; NttForward p s) out.
Definition ToNtt (inp : PolyMatrixRaw) : res PolyMatrixNtt := ToNtt_into (ntt_Zero crt len (Rows inp) (Cols inp)) inp.
Definition ToNttNoReduce (out : PolyMatrixNtt) (inp : PolyMatrixRaw) : res PolyMatrixNtt :=
  each_poly (Rows out) (Cols out) (fun r c s =>
    in_poly ← Poly inp r c;
    _ ← defined (bool_decide (2 * length in_poly <= length s)%nat);
    NttForward p (put_span (put_span s 0 in_poly) (length in_poly) in_poly)) out.

(** The product, a row by a column at a time. *)
Definition row_by_column (a b : PolyMatrixNtt) (i j : nat) (s : list Z) : res (list Z) :=
  for_ (Cols a) (fun k s => a_poly ← Poly a i k; b_poly ← Poly b k j; MultiplyAddPoly s a_poly b_poly) (replicate (length s) 0).
Definition Multiply_into (dst a b : PolyMatrixNtt) : res PolyMatrixNtt :=
  _ ← weak_enforce weak (bool_decide (Rows dst = Rows a));
  _ ← weak_enforce weak (bool_decide (Cols dst = Cols b));
  _ ← weak_enforce weak (bool_decide (Cols a = Rows b));
  _ ← weak_enforce weak (bool_decide (NumWords dst = NumWords a));
  _ ← weak_enforce weak (bool_decide (NumWords a = NumWords b));
  each_poly (Rows a) (Cols b) (row_by_column a b) dst.
Definition Multiply (a b : PolyMatrixNtt) : res PolyMatrixNtt :=
  _ ← weak_enforce weak (bool_decide (Cols a = Rows b));
  _ ← weak_enforce weak (bool_decide (NumWords a = NumWords b));
  each_poly (Rows a) (Cols b) (row_by_column a b) (zero_like a (Rows a) (Cols b)).

(** ** Gadget matrices *)
Definition GetBitsPer (dim : Z) : res Z :=
  if dim =? ModulusLog2 p then Ok 1 else d ← udiv (ModulusLog2 p) dim; Ok (u64 (d + 1)).
Definition BuildGadget (rows cols : nat) : res PolyMatrixRaw :=
  let g := raw_Zero len rows cols in
  m_mod_nx ← umod (Z.of_nat cols) (Z.of_nat rows);
  _ ← weak_enforce weak (m_mod_nx =? 0);
  num_elements ← udiv (Z.of_nat cols) (Z.of_nat rows);
  bits_per ← GetBitsPer num_elements;
  for_ rows (fun i => for_ (Z.to_nat num_elements) (fun j g =>
    if 64 <=? u64 (bits_per * Z.of_nat j) then Ok g
    else
      data ← vset (raw_data_ g) (PolyStartIndex g i (i + j * rows)) (2 ^ u64 (bits_per * Z.of_nat j));
      Ok (with_data data g))) g.

(** The digits of a value; [poly] is read at [(i, j)]. *)
Definition piece (bits_per : Z) (val : Z) (k : nat) : Z :=
  let bit_offs := Z.min (u64 (Z.of_nat k * bits_per)) 64 in
  if 64 <=? bit_offs then 0 else Z.land (Z.shiftr val bit_offs) (u64 (Z.shiftl 1 bits_per - 1)).
Definition GadgetInvertRdim (out inp : PolyMatrixRaw) (rdim : nat) : res PolyMatrixRaw :=
  _ ← weak_enforce weak (bool_decide (Cols out = Cols inp));
  num_elements ← udiv (Z.of_nat (Rows out)) (Z.of_nat rdim);
  bits_per ← GetBitsPer num_elements;
  _ ← defined (bits_per <? 64);
  for_ (Cols inp) (fun i => for_ rdim (fun j out =>
    poly ← Poly inp i j;
    for_ len (fun z out =>
      val ← vget poly z;
      for_ (Z.to_nat num_elements) (fun k out =>
        s ← Poly out (j + k * rdim) i;
        s ← vset s z (piece bits_per val k);
        Ok (set_poly out (j + k * rdim) i s)) out) out)) out.
Definition GadgetInvert (out inp : PolyMatrixRaw) : res PolyMatrixRaw := GadgetInvertRdim out inp (Rows inp).
End poly.
