(* ===== verification/PolyMatrixProofs.v ===== *)
(** * The polynomial matrices of SpiralPIR: ring operations

    A matrix in the transform [represents] a matrix of integer polynomials when its
    words are the transform of their residues.  Each operation on matrices does on
    what they represent the operation of the ring Z[X]/(X^n + 1); [ToNtt] and
    [FromNtt] lead there and back modulo the product of the moduli. *)
From S2P Require Import Prelude Float64 SpiralArith NttTable SpiralParams Ntt NttConv PolyMatrix.

(** ** A matrix is its polynomials *)
Section matrix.
Context {M : Type} `{PolyMatrixLaws M} (weak : bool).
Definition well_formed (m : M) : Prop := length (Data m) = (Rows m * Cols m * NumWords m)%nat.
Definition poly (m : M) (r c : nat) : list Z := slice (Data m) (NumWords m) (r * Cols m + c).
(** Equal but for the data. *)
Definition same_shape (m m' : M) : Prop := (Rows m' = Rows m /\ Cols m' = Cols m /\ NumWords m' = NumWords m) /\ with_data [] m' = with_data [] m.
Lemma same_shape_trans m m' m'' : same_shape m m' -> same_shape m' m'' -> same_shape m m''.
Proof. intros [(? & ? & ?) ?] [(? & ? & ?) ?]. split; [split_and!|]; congruence. Qed.

Lemma poly_index (m : M) r c : (r < Rows m)%nat -> (c < Cols m)%nat -> (r * Cols m + c < Rows m * Cols m)%nat.
Proof. intros. nia. Qed.
Lemma poly_room (m : M) r c : well_formed m -> (r < Rows m)%nat -> (c < Cols m)%nat -> ((r * Cols m + c) * NumWords m + NumWords m <= length (Data m))%nat.
Proof.
  intros Hw Hr Hc. rewrite Hw. transitivity ((r * Cols m + c + 1) * NumWords m)%nat; [lia|]. apply Nat.mul_le_mono_r. pose proof (poly_index m r c Hr Hc). lia.
Qed.
Lemma length_poly (m : M) r c : well_formed m -> (r < Rows m)%nat -> (c < Cols m)%nat -> length (poly m r c) = NumWords m.
Proof. intros Hw Hr Hc. apply (slice_length _ _ _ (Rows m * Cols m)); [done|]. by apply poly_index. Qed.
Lemma Poly_ok (m : M) r c : well_formed m -> (r < Rows m)%nat -> (c < Cols m)%nat -> Poly m r c = Ok (poly m r c).
Proof.
  intros Hw Hr Hc. unfold Poly, PolyStartIndex. rewrite bool_decide_true; [done|]. by apply poly_room.
Qed.
Lemma set_poly_ok (m : M) r c s : well_formed m -> (r < Rows m)%nat -> (c < Cols m)%nat -> length s = NumWords m ->
  well_formed (set_poly m r c s) /\ same_shape m (set_poly m r c s) /\
  forall r' c', (r' < Rows m)%nat -> (c' < Cols m)%nat -> poly (set_poly m r c s) r' c' = if bool_decide (r' = r /\ c' = c) then s else poly m r' c'.
Proof.
  intros Hw Hr Hc Hs. pose proof (poly_index m r c Hr Hc) as Hi. unfold set_poly, well_formed, same_shape, poly, PolyStartIndex.
  rewrite data_with, rows_with, cols_with, words_with, with_with. split; [|split; [done|]].
  - rewrite put_span_length; [done|]. rewrite Hs. by apply poly_room.
  - intros r' c' Hr' Hc'. rewrite (slice_put _ _ _ _ (Rows m * Cols m)) by (done || by apply poly_index).
    assert (r' * Cols m + c' = r * Cols m + c <-> r' = r /\ c' = c)%nat as E; [|by rewrite (bool_decide_ext _ _ E)].
    split; [|intros [-> ->]; done]. intros Heq. by apply (Nat.mul_split_l (Cols m) r' c' r c).
Qed.
Lemma zero_like_ok (m : M) r c : well_formed (zero_like m r c) /\ forall i j, (i < r)%nat -> (j < c)%nat -> poly (zero_like m r c) i j = replicate (NumWords m) 0.
Proof.
  destruct (zero_like_shape m r c) as (Hr & Hc & Hn & Hd). unfold well_formed, poly. rewrite Hr, Hc, Hn, Hd. split; [apply length_replicate|].
  intros i j Hi Hj. unfold slice. rewrite drop_replicate, take_replicate. f_equal. apply Nat.min_l.
  transitivity ((i * c + j + 1) * NumWords m - (i * c + j) * NumWords m)%nat; [lia|]. apply Nat.sub_le_mono_r, Nat.mul_le_mono_r. nia.
Qed.

(** Writing the polynomials of a block one after the other. *)
Lemma write_block rows cols r0 c0 (step : nat -> nat -> M -> res M) (Q : nat -> nat -> list Z -> Prop) (m : M) :
  well_formed m -> (r0 + rows <= Rows m)%nat -> (c0 + cols <= Cols m)%nat ->
  (forall r c m', (r < rows)%nat -> (c < cols)%nat -> well_formed m' -> same_shape m m' -> poly m' (r0 + r) (c0 + c) = poly m (r0 + r) (c0 + c) ->
     wp (step r c m') (fun m'' => exists s, m'' = set_poly m' (r0 + r) (c0 + c) s /\ length s = NumWords m /\ Q r c s)) ->
  wp (for_ rows (fun r => for_ cols (step r)) m) (fun m' => well_formed m' /\ same_shape m m' /\
    (forall r c, (r < rows)%nat -> (c < cols)%nat -> Q r c (poly m' (r0 + r) (c0 + c))) /\
    forall r c, (r < Rows m)%nat -> (c < Cols m)%nat -> ~ (r0 <= r < r0 + rows /\ c0 <= c < c0 + cols)%nat -> poly m' r c = poly m r c).
Proof.
  intros Hw Hr Hc Hs.
  set (done_ := fun (t u r c : nat) => ((r < r0 + t \/ (r = r0 + t /\ c < c0 + u)) /\ r0 <= r /\ c0 <= c < c0 + cols)%nat).
  set (I := fun t u m' => well_formed m' /\ same_shape m m' /\
    (forall r c, (r < rows)%nat -> (c < cols)%nat -> done_ t u (r0 + r)%nat (c0 + c)%nat -> Q r c (poly m' (r0 + r) (c0 + c))) /\
    forall r c, (r < Rows m)%nat -> (c < Cols m)%nat -> ~ done_ t u r c -> poly m' r c = poly m r c).
  apply (wp_for _ _ (fun t => I t 0%nat)).
  - split; [done|]. split; [done|]. split; [|done]. intros r c _ _ [[?|[? ?]] ?]; lia.
  - intros t m1 Ht Hm1. apply (wp_for _ _ (I t)).
    + done.
    + intros u m2 Hu (Hw2 & Hsh2 & Hq2 & Ho2). pose proof Hsh2 as [(Er & Ec & En) _].
      assert (poly m2 (r0 + t) (c0 + u) = poly m (r0 + t) (c0 + u)) as Ep by (apply Ho2; [lia|lia|]; unfold done_; lia).
      eapply wp_mono; [by apply Hs|]. intros m3 (s & -> & Hl & Hq). destruct (set_poly_ok m2 (r0 + t) (c0 + u) s) as (Hw3 & Hsh3 & Hp3); [done|lia|lia|lia|].
      split; [done|]. split; [by eapply same_shape_trans|]. split.
      * intros r c Hr' Hc' Hd. rewrite Hp3 by lia. destruct (bool_decide_reflect ((r0 + r)%nat = (r0 + t)%nat /\ (c0 + c)%nat = (c0 + u)%nat)) as [[E1 E2]|Hne].
        -- assert (r = t) as -> by lia. assert (c = u) as -> by lia. done.
        -- apply Hq2; [done|done|]. unfold done_ in *. lia.
      * intros r c Hr' Hc' Hd. rewrite Hp3 by lia. rewrite bool_decide_false by (unfold done_ in Hd; lia). apply Ho2; [done|done|]. unfold done_ in *. lia.
    + intros m2 (Hw2 & Hsh2 & Hq2 & Ho2). split; [done|]. split; [done|]. split.
      * intros r c Hr' Hc' Hd. apply Hq2; [done|done|]. unfold done_ in *. lia.
      * intros r c Hr' Hc' Hd. apply Ho2; [done|done|]. unfold done_ in *. lia.
  - intros m' (Hw' & Hsh' & Hq' & Ho'). split; [done|]. split; [done|]. split.
    + intros r c Hr' Hc'. apply Hq'; [done|done|]. unfold done_. lia.
    + intros r c Hr' Hc' Hd. apply Ho'; [done|done|]. unfold done_. lia.
Qed.

Lemma each_poly_ok rows cols f (Q : nat -> nat -> list Z -> Prop) (m : M) : well_formed m -> rows = Rows m -> cols = Cols m ->
  (forall r c s, (r < rows)%nat -> (c < cols)%nat -> s = poly m r c -> wp (f r c s) (fun s' => length s' = NumWords m /\ Q r c s')) ->
  wp (each_poly rows cols f m) (fun m' => well_formed m' /\ same_shape m m' /\ forall r c, (r < Rows m)%nat -> (c < Cols m)%nat -> Q r c (poly m' r c)).
Proof.
  intros Hw -> -> Hf. unfold each_poly. eapply wp_mono; [apply (write_block _ _ 0 0 _ Q); [done|lia|lia|]|].
  - intros r c m' Hr Hc Hw' [(Er & Ec & En) _] Ep. cbn [Nat.add] in *. rewrite Poly_ok by (done || congruence). run. rewrite Ep.
    apply wp_bind. eapply wp_mono; [by apply Hf|]. intros s' [Hl HQ]. run. by exists s'.
  - intros m' (Hw' & Hsh & HQ & _). done.
Qed.
Lemma each_poly_values rows cols f (P : nat -> nat -> list Z) (m : M) : well_formed m -> rows = Rows m -> cols = Cols m ->
  (forall r c s, (r < rows)%nat -> (c < cols)%nat -> s = poly m r c -> f r c s = Ok (P r c) /\ length (P r c) = NumWords m) ->
  exists m', each_poly rows cols f m = Ok m' /\ well_formed m' /\ same_shape m m' /\ forall r c, (r < Rows m)%nat -> (c < Cols m)%nat -> poly m' r c = P r c.
Proof.
  intros Hw Hr Hc Hf. apply wp_iff. apply (each_poly_ok rows cols f (fun r c s => s = P r c)); [done..|]. intros r c s Hr' Hc' Hs. by destruct (Hf r c s Hr' Hc' Hs) as [-> ?].
Qed.

Lemma copy_poly_ok (src dest : M) r c r' c' : well_formed src -> (r < Rows src)%nat -> (c < Cols src)%nat ->
  well_formed dest -> (r' < Rows dest)%nat -> (c' < Cols dest)%nat -> copy_poly src dest r c r' c' = Ok (set_poly dest r' c' (poly src r c)).
Proof. intros. unfold copy_poly. rewrite !Poly_ok by done. done. Qed.

Lemma weak_enforce_ok b : b = true -> weak_enforce weak b = Ok tt.
Proof. intros ->. unfold weak_enforce. by rewrite orb_true_r. Qed.

Lemma CopyInto_ok (m p : M) r0 c0 : well_formed m -> well_formed p -> NumWords p = NumWords m -> (0 < Rows p)%nat -> (0 < Cols p)%nat ->
  (r0 + Rows p <= Rows m)%nat -> (c0 + Cols p <= Cols m)%nat ->
  wp (CopyInto weak m p r0 c0) (fun m' => well_formed m' /\ same_shape m m' /\
    (forall r c, (r < Rows p)%nat -> (c < Cols p)%nat -> poly m' (r0 + r) (c0 + c) = poly p r c) /\
    forall r c, (r < Rows m)%nat -> (c < Cols m)%nat -> ~ (r0 <= r < r0 + Rows p /\ c0 <= c < c0 + Cols p)%nat -> poly m' r c = poly m r c).
Proof.
  intros Hw Hwp Hn Hr Hc Hr0 Hc0. unfold CopyInto. rewrite !weak_enforce_ok by (apply bool_decide_true; lia). run.
  apply (write_block _ _ r0 c0 _ (fun r c s => s = poly p r c)); try done.
  intros r c m' Hr' Hc' Hw' [(Er & Ec & En) _] _. rewrite copy_poly_ok by (done || lia). cbn [wp]. eexists. split; [done|]. split; [|done]. rewrite length_poly by done. lia.
Qed.
End matrix.

(** ** Polynomials *)
Section polys.
Context `{LL : LibLaws} (hash_id : string -> Z) (weak : bool).
Context (k : Z) (ms : list Z) (noise : double) (pm : PolyMatrixParams) (qp : QueryParams) (p : Params).
Context (Hk : 0 <= k < 31) (Hms : ntt_moduli ms) (Hp : Params_new hash_id (2 ^ k) ms noise pm qp = Ok p).
Abbreviation n := (2 ^ Z.to_nat k)%nat.
Abbreviation r := (length ms).

Lemma sizes : Z.to_nat (CrtCount p) = r /\ Z.to_nat (PolyLen p) = n.
Proof.
  destruct (Params_tables hash_id k ms noise pm qp p Hk Hms Hp) as (Hc & _ & Hl & _). rewrite Hc, Hl, Nat2Z.id. by rewrite Z_to_nat_pow2 by lia.
Qed.
Lemma Barrett_ok v c : (c < r)%nat -> 0 <= v < 2 ^ 64 -> BarrettCoeffU64 p v c = Ok (v mod (ms !!! c)).
Proof.
  intros Hc Hv. destruct (Params_tables hash_id k ms noise pm qp p Hk Hms Hp) as (_ & Hm & _). destruct (modulus_ok ms Hms c Hc) as [Hq _].
  assert (is_Some (moduli_ (crt_params_ p) !! c)) as [m E].
  { apply lookup_lt_is_Some_2. rewrite <- (length_map value), Hm. done. }
  assert (value m = ms !!! c) as Em. { symmetry. apply list_lookup_total_correct. rewrite <- Hm, lookup_map, E. done. }
  rewrite <- Em in *. apply BarrettCoeffU64_mod; [done|done|lia].
Qed.

(** Writing every word. *)
Lemma each_word_ok f (g : nat -> nat -> Z) dst : length dst = (r * n)%nat ->
  (forall c j dst', (c < r)%nat -> (j < n)%nat -> length dst' = (r * n)%nat -> dst' !!! (c * n + j)%nat = dst !!! (c * n + j)%nat ->
     f c (c * n + j)%nat dst' = Ok (g c (c * n + j)%nat)) ->
  each_word p f dst = Ok (tabulate (r * n) (fun i => g (i / n)%nat i)).
Proof.
  intros Hl Hf. unfold each_word. destruct sizes as [-> ->]. apply wp_eq. pose proof (n_pos k) as Hn.
  set (I := fun t u (s : list Z) => length s = (r * n)%nat /\ forall i, (i < r * n)%nat -> s !!! i = if bool_decide (i < t * n + u)%nat then g (i / n)%nat i else dst !!! i).
  apply (wp_for _ _ (fun t => I t 0%nat)).
  - split; [done|]. intros i Hi. by rewrite bool_decide_false by lia.
  - intros t s Ht Hs. apply (wp_for _ _ (I t)); [done| |].
    + intros u s1 Hu [Hl1 Hs1]. destruct (word_index k ms Hk t u Ht Hu) as (Hlt & Hdiv & _).
      rewrite (Hf t u s1); [|done|done|done|by rewrite Hs1, bool_decide_false by lia]. run. rewrite vset_total by lia. cbn [wp]. split; [by rewrite length_insert|].
      intros i Hi. destruct (decide (i = t * n + u)%nat) as [->|Hne].
      * rewrite list_lookup_total_insert_eq by lia. rewrite bool_decide_true by lia. by rewrite Hdiv.
      * rewrite list_lookup_total_insert_ne by done. rewrite Hs1 by done. rewrite (bool_decide_ext (i < t * n + u)%nat (i < t * n + S u)%nat) by lia. done.
    + intros s1 [Hl1 Hs1]. split; [done|]. intros i Hi. rewrite Hs1 by done. rewrite (bool_decide_ext (i < t * n + n)%nat (i < S t * n + 0)%nat) by lia. done.
  - intros s [Hl1 Hs1]. apply eq_tabulate; [done|]. intros i Hi. rewrite Hs1 by done. by rewrite bool_decide_true by lia.
Qed.

(** *** Residues of integer polynomials *)
Definition crt (f : nat -> Z) : list Z := tabulate (r * n) (fun i => f (i mod n)%nat mod (ms !!! (i / n)%nat)).
Lemma crt_residues f : residues n ms (crt f).
Proof. apply (mod_residues k ms Hk Hms). Qed.
Lemma crt_lookup f c j : (c < r)%nat -> (j < n)%nat -> crt f !!! (c * n + j)%nat = f j mod (ms !!! c).
Proof. intros Hc Hj. destruct (word_index k ms Hk c j Hc Hj) as (? & E & E'). unfold crt. rewrite tabulate_lookup by done. by rewrite E, E'. Qed.
Lemma crt_ext f g : (forall j, (j < n)%nat -> f j = g j) -> crt f = crt g.
Proof.
  intros H. unfold crt, tabulate. apply map_ext_in. intros i Hi. rewrite H; [done|]. apply Nat.mod_upper_bound. pose proof (n_pos k). lia.
Qed.
Lemma crt_words f v : length v = (r * n)%nat -> (forall c j, (c < r)%nat -> (j < n)%nat -> v !!! (c * n + j)%nat = f j mod (ms !!! c)) -> v = crt f.
Proof.
  intros Hl Hv. apply (residues_eq k ms Hk); [done|]. intros c j Hc Hj. destruct (word_index k ms Hk c j Hc Hj) as (_ & -> & ->). by apply Hv.
Qed.

Lemma crt_add f g : poly_add k ms (crt f) (crt g) = crt (fun j => f j + g j).
Proof.
  apply crt_words; [apply length_tabulate|]. intros c j Hc Hj. destruct (word_index k ms Hk c j Hc Hj) as (? & E & _).
  unfold poly_add. rewrite tabulate_lookup by done. rewrite E, !crt_lookup by done. symmetry. apply Z.add_mod. destruct (modulus_ok ms Hms c Hc). lia.
Qed.
Lemma negaconv_cong q f g f' g' j : (j < n)%nat -> (forall i, (i < n)%nat -> f i ≡[q] f' i) -> (forall i, (i < n)%nat -> g i ≡[q] g' i) -> q <> 0 ->
  negaconv n f g j ≡[q] negaconv n f' g' j.
Proof. intros Hj Hf Hg Hq. rewrite !negacyclic_cyc by done. by apply cyc_cong. Qed.
Lemma crt_mul f g : poly_mul k ms (crt f) (crt g) = crt (negaconv n f g).
Proof.
  apply crt_words; [apply length_tabulate|]. intros c j Hc Hj. destruct (modulus_ok ms Hms c Hc) as [Hq _].
  destruct (word_index k ms Hk c j Hc Hj) as (? & E & E'). unfold poly_mul. rewrite tabulate_lookup by done. rewrite E, E'.
  unfold negacyclic. rewrite tabulate_lookup by done. apply cong_mod; [lia|]. apply negaconv_cong; [done| | |lia]; intros i Hi; rewrite slice_lookup, crt_lookup by done; apply mod_cong; lia.
Qed.

Lemma ReduceCopy_ok dst a : length dst = (r * n)%nat -> length a = n -> (forall j, (j < n)%nat -> 0 <= a !!! j < 2 ^ 64) ->
  ReduceCopy p dst a = Ok (crt (fun j => a !!! j)).
Proof.
  intros Hd Ha Hb. unfold ReduceCopy.
  transitivity (each_word p (fun c idx _ => x ← vget a (idx mod n); BarrettCoeffU64 p x c) dst).
  - unfold each_word. destruct sizes as [-> ->]. pose proof (n_pos k). apply for_ext. intros c dst' Hc. apply for_ext. intros j dst2 Hj.
    rewrite (Nat.add_comm (c * n) j), Nat.Div0.mod_add, Nat.mod_small by done. by destruct (vget a j).
  - apply (each_word_ok _ (fun c i => (a !!! (i mod n)%nat) mod (ms !!! c))); [done|]. intros c j dst' Hc Hj _ _.
    destruct (word_index k ms Hk c j Hc Hj) as (_ & _ & E'). rewrite E', vget_total by lia. run. apply Barrett_ok; [done|by apply Hb].
Qed.

(** *** The transform of a vector of residues *)
Definition F (v : list Z) : list Z := match NttForward p v with Ok w => w | _ => [] end.
Lemma F_ok v : residues n ms v -> NttForward p v = Ok (F v) /\ residues n ms (F v).
Proof.
  intros Hv. destruct (NttForward_slices hash_id k ms noise pm qp p Hk Hms Hp v Hv) as (w & E & Hw & _). unfold F. by rewrite E.
Qed.
Lemma F_inverse v : residues n ms v -> NttInverse p (F v) = Ok v.
Proof.
  intros Hv. destruct (NttInverse_Forward_ok hash_id k ms noise pm qp p v Hk Hms Hp Hv) as (w & E & _ & E'). unfold F. by rewrite E.
Qed.
Lemma F_length f : length (F (crt f)) = (r * n)%nat.
Proof. apply F_ok, crt_residues. Qed.
Lemma F_word f c j : (c < r)%nat -> (j < n)%nat -> 0 <= F (crt f) !!! (c * n + j)%nat < ms !!! c.
Proof.
  intros Hc Hj. destruct (F_ok (crt f) (crt_residues f)) as [_ [Hl Hb]]. specialize (Hb c Hc j). rewrite (slice_length _ _ _ r), slice_lookup in Hb by done. by apply Hb.
Qed.
Lemma F_mul f g : F (crt (negaconv n f g)) = word_mul k ms (F (crt f)) (F (crt g)).
Proof.
  destruct (NttForward_mul hash_id k ms noise pm qp p Hk Hms Hp (crt f) (crt g) (crt_residues f) (crt_residues g)) as (a & b & Ea & Eb & E).
  rewrite crt_mul in E. unfold F. by rewrite Ea, Eb, E.
Qed.
Lemma F_add f g : F (crt (fun j => f j + g j)) = poly_add k ms (F (crt f)) (F (crt g)).
Proof.
  destruct (NttForward_add hash_id k ms noise pm qp p Hk Hms Hp (crt f) (crt g) (crt_residues f) (crt_residues g)) as (a & b & Ea & Eb & E).
  rewrite crt_add in E. unfold F. by rewrite Ea, Eb, E.
Qed.
Lemma word_eq (v w : list Z) : length v = (r * n)%nat -> length w = (r * n)%nat -> (forall c j, (c < r)%nat -> (j < n)%nat -> v !!! (c * n + j)%nat = w !!! (c * n + j)%nat) -> v = w.
Proof.
  intros Hv Hw H. transitivity (tabulate (r * n) (fun i => w !!! i)); [by apply (residues_eq k ms Hk)|]. symmetry. by apply eq_tabulate.
Qed.
Lemma F_zero : F (crt (fun _ => 0)) = replicate (r * n) 0.
Proof.
  pose proof (F_add (fun _ => 0) (fun _ => 0)) as E. cbn beta in E. apply word_eq; [apply F_length|apply length_replicate|]. intros c j Hc Hj.
  destruct (word_index k ms Hk c j Hc Hj) as (Hlt & Hd & _). rewrite lookup_total_replicate_2 by done.
  apply (f_equal (fun l => l !!! (c * n + j)%nat)) in E. unfold poly_add in E. rewrite tabulate_lookup, Hd in E by done. change (0 + 0) with 0 in E.
  pose proof (F_word (fun _ => 0) c j Hc Hj) as Hb. set (x := F (crt (fun _ => 0)) !!! (c * n + j)%nat) in *.
  destruct (decide (x + x < ms !!! c)); [rewrite Z.mod_small in E by lia; lia|].
  rewrite <- (Z.mod_unique (x + x) (ms !!! c) 1 (x + x - ms !!! c)) in E by lia. lia.
Qed.

(** Products and sums, word by word. *)
Lemma word_fits f g c j : (c < r)%nat -> (j < n)%nat -> 0 <= F (crt f) !!! (c * n + j)%nat * F (crt g) !!! (c * n + j)%nat < 2 ^ 60.
Proof.
  intros Hc Hj. pose proof (F_word f c j Hc Hj). pose proof (F_word g c j Hc Hj). destruct (modulus_ok ms Hms c Hc). change (2 ^ 60) with (2 ^ 30 * 2 ^ 30). nia.
Qed.
Lemma MultiplyPoly_ok dst f g : length dst = (r * n)%nat -> MultiplyPoly p dst (F (crt f)) (F (crt g)) = Ok (F (crt (negaconv n f g))).
Proof.
  intros Hd. rewrite F_mul. apply (each_word_ok _ (fun c i => (F (crt f) !!! i * F (crt g) !!! i) mod (ms !!! c))); [done|]. intros c j dst' Hc Hj _ _.
  destruct (word_index k ms Hk c j Hc Hj) as (? & _). rewrite !vget_total by (by rewrite F_length). run. unfold MultiplyModular.
  pose proof (word_fits f g c j Hc Hj). rewrite u64_small by lia. apply Barrett_ok; [done|lia].
Qed.
Lemma AddPoly_ok dst f g : length dst = (r * n)%nat -> AddPoly p dst (F (crt f)) (F (crt g)) = Ok (F (crt (fun j => f j + g j))).
Proof.
  intros Hd. rewrite F_add. apply (each_word_ok _ (fun c i => (F (crt f) !!! i + F (crt g) !!! i) mod (ms !!! c))); [done|]. intros c j dst' Hc Hj _ _.
  destruct (word_index k ms Hk c j Hc Hj) as (? & _). rewrite !vget_total by (by rewrite F_length). run. unfold AddModular.
  pose proof (F_word f c j Hc Hj). pose proof (F_word g c j Hc Hj). destruct (modulus_ok ms Hms c Hc). rewrite u64_small by lia. apply Barrett_ok; [done|lia].
Qed.
Lemma MultiplyAddPoly_ok f g h : MultiplyAddPoly weak p (F (crt h)) (F (crt f)) (F (crt g)) = Ok (F (crt (fun j => h j + negaconv n f g j))).
Proof.
  unfold MultiplyAddPoly. destruct sizes as [Ec En]. rewrite Ec, En, !F_length, !weak_enforce_ok by (by apply bool_decide_true). run.
  rewrite F_add, F_mul. unfold poly_add.
  rewrite (each_word_ok _ (fun c i => (F (crt h) !!! i + word_mul k ms (F (crt f)) (F (crt g)) !!! i) mod (ms !!! c))); [done|apply F_length|]. intros c j dst Hc Hj Hl Hd.
  destruct (word_index k ms Hk c j Hc Hj) as (? & E & _). rewrite !(vget_total (F _)) by (by rewrite F_length). run. rewrite vget_total by lia. run. rewrite Hd. unfold MultiplyAddModular.
  pose proof (word_fits f g c j Hc Hj). pose proof (F_word h c j Hc Hj). destruct (modulus_ok ms Hms c Hc). rewrite (u64_small (_ * _)), u64_small by lia. rewrite Barrett_ok by (done || lia).
  unfold word_mul. rewrite tabulate_lookup, E by done. rewrite Z.add_mod_idemp_r by lia. by rewrite Z.add_comm.
Qed.

(** ** Matrices of integer polynomials *)
Record represents (m : PolyMatrixNtt) (rows cols : nat) (P : nat -> nat -> nat -> Z) : Prop := {
  rp_words : ntt_crt_count_ m = r /\ ntt_poly_len_ m = n;
  rp_shape : Rows m = rows /\ Cols m = cols;
  rp_wf : well_formed m;
  rp_poly i j : (i < rows)%nat -> (j < cols)%nat -> poly m i j = F (crt (P i j))
}.
Lemma rp_num_words m rows cols P : represents m rows cols P -> NumWords m = (r * n)%nat.
Proof. intros [[Hc Hl] _ _ _]. cbn. unfold ntt_NumWords. by rewrite Hc, Hl. Qed.
Lemma represents_ext m rows cols P Q : (forall i j z, (i < rows)%nat -> (j < cols)%nat -> (z < n)%nat -> P i j z = Q i j z) -> represents m rows cols P -> represents m rows cols Q.
Proof.
  intros H [Hw Hs Hf Hp']. constructor; [done|done|done|]. intros i j Hi Hj. rewrite Hp' by done. f_equal. apply crt_ext. auto.
Qed.

(** A matrix whose polynomials are written one by one. *)
Lemma represents_written m rows cols f P : ntt_crt_count_ m = r -> ntt_poly_len_ m = n -> well_formed m -> Rows m = rows -> Cols m = cols ->
  (forall i j s, (i < rows)%nat -> (j < cols)%nat -> s = poly m i j -> length s = (r * n)%nat -> f i j s = Ok (F (crt (P i j)))) ->
  exists m', each_poly rows cols f m = Ok m' /\ represents m' rows cols P.
Proof.
  intros Hc Hl Hw Hr Hcc Hf. assert (NumWords m = (r * n)%nat) as Hn by (cbn; unfold ntt_NumWords; by rewrite Hc, Hl).
  destruct (each_poly_values rows cols f (fun i j => F (crt (P i j))) m) as (m' & E & Hw' & [(Er & Ecc & _) Ek] & Hp'); [done|done|done| |].
  - intros i j s Hi Hj Hs. rewrite F_length, Hn. split; [|done]. apply Hf; [done|done|done|]. rewrite Hs, length_poly by (done || congruence). done.
  - exists m'. split; [done|]. cbn in Ek. injection Ek as Ek1 Ek2 _ _. constructor; [split; congruence|split; congruence|done|]. intros i j Hi Hj. apply Hp'; congruence.
Qed.

Lemma zero_represents (m : PolyMatrixNtt) rows cols : ntt_crt_count_ m = r -> ntt_poly_len_ m = n ->
  let z := zero_like m rows cols in ntt_crt_count_ z = r /\ ntt_poly_len_ z = n /\ well_formed z /\ Rows z = rows /\ Cols z = cols.
Proof. intros Hc Hl z. split_and!; try done. apply zero_like_ok. Qed.
Lemma represents_Poly m rows cols P i j : represents m rows cols P -> (i < rows)%nat -> (j < cols)%nat -> Poly m i j = Ok (F (crt (P i j))).
Proof. intros [_ [Hr Hc] Hw Hp'] Hi Hj. rewrite Poly_ok by (done || lia). by rewrite Hp'. Qed.

(** *** The product *)
Definition mat_mul (K : nat) (P Q : nat -> nat -> nat -> Z) (i j z : nat) : Z := zsum K (fun l => negaconv n (P i l) (Q l j) z).

Lemma row_by_column_ok a b rows K cols P Q i j s : represents a rows K P -> represents b K cols Q -> (i < rows)%nat -> (j < cols)%nat -> length s = (r * n)%nat ->
  row_by_column weak p a b i j s = Ok (F (crt (mat_mul K P Q i j))).
Proof.
  intros Ha Hb Hi Hj Hs. unfold row_by_column. destruct (rp_shape _ _ _ _ Ha) as [_ ->]. apply wp_eq.
  apply (wp_for _ _ (fun t s => s = F (crt (mat_mul t P Q i j)))).
  - unfold mat_mul. cbn [zsum]. by rewrite F_zero, Hs.
  - intros t s' Ht ->. rewrite (represents_Poly a rows K P i t Ha), (represents_Poly b K cols Q t j Hb) by done. run. rewrite MultiplyAddPoly_ok. done.
  - by intros s' ->.
Qed.
Lemma Multiply_represents a b rows K cols P Q : represents a rows K P -> represents b K cols Q ->
  exists c, Multiply weak p a b = Ok c /\ represents c rows cols (mat_mul K P Q).
Proof.
  intros Ha Hb. pose proof (rp_num_words _ _ _ _ Ha) as Hna. pose proof (rp_num_words _ _ _ _ Hb) as Hnb.
  pose proof (rp_words _ _ _ _ Ha) as [Hc Hl]. pose proof (rp_shape _ _ _ _ Ha) as [Hra Hca]. pose proof (rp_shape _ _ _ _ Hb) as [Hrb Hcb].
  unfold Multiply. rewrite !weak_enforce_ok by (apply bool_decide_true; congruence). run. rewrite Hra, Hcb.
  destruct (zero_represents a rows cols Hc Hl) as (? & ? & ? & ? & ?). apply represents_written; try done.
  intros i j s Hi Hj _ Hs. by apply (row_by_column_ok a b rows K cols P Q).
Qed.

(** *** The sum and the product by a polynomial *)
Lemma Add_represents a b rows cols P Q : represents a rows cols P -> represents b rows cols Q ->
  exists c, Add weak p a b = Ok c /\ represents c rows cols (fun i j z => P i j z + Q i j z).
Proof.
  intros Ha Hb. pose proof (rp_words _ _ _ _ Ha) as [Hc Hl]. pose proof (rp_shape _ _ _ _ Ha) as [Hra Hca]. pose proof (rp_shape _ _ _ _ Hb) as [Hrb Hcb].
  unfold Add. rewrite !weak_enforce_ok by (apply bool_decide_true; congruence). run. rewrite Hra, Hca. apply represents_written; try done; [apply Ha|].
  intros i j s Hi Hj _ Hs. rewrite (represents_Poly a rows cols P i j Ha), (represents_Poly b rows cols Q i j Hb) by done. run. by apply AddPoly_ok.
Qed.
Lemma ScalarMultiply_represents a b rows cols P Q : represents a 1 1 P -> represents b rows cols Q ->
  exists c, ScalarMultiply weak p a b = Ok c /\ represents c rows cols (fun i j => negaconv n (P 0%nat 0%nat) (Q i j)).
Proof.
  intros Ha Hb. pose proof (rp_words _ _ _ _ Hb) as [Hc Hl]. pose proof (rp_shape _ _ _ _ Ha) as [Hra Hca]. pose proof (rp_shape _ _ _ _ Hb) as [Hrb Hcb].
  unfold ScalarMultiply, ScalarMultiply_into. rewrite weak_enforce_ok by (rewrite Hra, Hca; done). run. rewrite (represents_Poly a 1 1 P 0 0 Ha) by lia. run. rewrite Hrb, Hcb.
  destruct (zero_represents b rows cols Hc Hl) as (? & ? & ? & ? & ?). apply represents_written; try done.
  intros i j s Hi Hj _ Hs. rewrite (represents_Poly b rows cols Q i j Hb) by done. run. by apply MultiplyPoly_ok.
Qed.

(** *** To the transform *)
Definition coeff (m : PolyMatrixRaw) (i j z : nat) : Z := poly m i j !!! z.
Record raw_ok (m : PolyMatrixRaw) : Prop := {
  ro_len : raw_poly_len_ m = n;
  ro_wf : well_formed m;
  ro_words i j z : (i < Rows m)%nat -> (j < Cols m)%nat -> (z < n)%nat -> 0 <= coeff m i j z < 2 ^ 64
}.

Lemma ToNtt_represents m : raw_ok m -> exists a, ToNtt p m = Ok a /\ represents a (Rows m) (Cols m) (coeff m).
Proof.
  intros [Hl Hw Hb]. unfold ToNtt, ToNtt_into. destruct sizes as [Ec En]. rewrite Ec, En.
  pose proof (zero_like_ok (mkNtt r n 0 0 []) (Rows m) (Cols m)) as [Hzw _]. apply (represents_written (ntt_Zero r n (Rows m) (Cols m))); try done.
  intros i j s Hi Hj Hs Hls. rewrite (Poly_ok m) by done. run. assert (length (poly m i j) = n) as Hlp by (rewrite length_poly by done; exact Hl).
  rewrite ReduceCopy_ok; [run; by apply F_ok, crt_residues|done|done|]. intros z Hz. by apply Hb.
Qed.

(** *** And back *)
Section two_moduli.
Context (q0 q1 : Z) (Hms2 : ms = [q0; q1]).
Abbreviation Q := (q0 * q1).

Lemma moduli_sizes : 1 < q0 < 2 ^ 30 /\ 1 < q1 < 2 ^ 30 /\ Q < 2 ^ 60.
Proof.
  unfold ntt_moduli in Hms. rewrite Hms2, !Forall_cons in Hms. destruct Hms as ([H0 _] & [H1 _] & _). split_and!; try lia. change (2 ^ 60) with (2 ^ 30 * 2 ^ 30). nia.
Qed.
Lemma CrtCompose_ok f z : (z < n)%nat -> CrtCompose p (crt f) (Z.of_nat z) = Ok (f z mod Q).
Proof.
  intros Hz. destruct moduli_sizes as (H0 & H1 & HQ). destruct (Params_tables hash_id k ms noise pm qp p Hk Hms Hp) as (Hc & _ & Hl & _).
  unfold CrtCompose. rewrite Hc. assert (r = 2%nat) as Hr2 by (by rewrite Hms2). rewrite Hr2. change (Z.of_nat 2 =? 1) with false. cbv iota.
  assert (Z.of_nat n = 2 ^ k) as Hn by (rewrite Nat2Z.inj_pow, Z2Nat.id by lia; done). assert (2 ^ k < 2 ^ 31) by (apply Z.pow_lt_mono_r; lia).
  change (poly_len_ p) with (PolyLen p). rewrite Hl, u64_small by lia. rewrite !vgetz_vget by lia. rewrite Nat2Z.id.
  assert (length (crt f) = (r * n)%nat) as Hlc by apply crt_residues. rewrite !vget_total by (rewrite Hlc, Hr2; lia). run.
  replace (Z.to_nat (Z.of_nat z + 2 ^ k)) with (1 * n + z)%nat by lia. replace z with (0 * n + z)%nat at 1 by lia. rewrite !crt_lookup by lia.
  rewrite Hms2. change ([q0; q1] !!! 0%nat) with q0. change ([q0; q1] !!! 1%nat) with q1.
  assert (f z mod q0 = (f z mod Q) mod q0) as -> by (symmetry; apply Z.mod_mod_divide, Z.divide_factor_l).
  assert (f z mod q1 = (f z mod Q) mod q1) as -> by (symmetry; apply Z.mod_mod_divide, Z.divide_factor_r).
  pose proof Hp as Hp2. rewrite Hms2 in Hp2. apply (CrtCompose2_ok hash_id (2 ^ k) q0 q1 noise pm qp p); [lia|lia|nia|exact Hp2|apply Z.mod_pos_bound; nia].
Qed.
Lemma compose_poly_ok f s : length s = n -> compose_poly p (crt f) s = Ok (tabulate n (fun z => f z mod Q)).
Proof.
  intros Hs. unfold compose_poly. destruct sizes as [_ ->]. apply wp_eq.
  apply (wp_for_fill _ _ (fun z => f z mod Q)); [lia| |].
  - intros z s' Hz Hs' _. rewrite CrtCompose_ok by done. run. by rewrite vset_total by lia.
  - intros s' Hs' H1 _. apply eq_tabulate; [lia|done].
Qed.

Lemma FromNtt_represents a rows cols P : represents a rows cols P ->
  exists m, FromNtt weak p a = Ok m /\ raw_ok m /\ (Rows m = rows /\ Cols m = cols) /\
    forall i j z, (i < rows)%nat -> (j < cols)%nat -> (z < n)%nat -> coeff m i j z = P i j z mod Q.
Proof.
  intros Ha. pose proof (rp_shape _ _ _ _ Ha) as [Hra Hca]. destruct moduli_sizes as (H0 & H1 & HQ). unfold FromNtt, FromNtt_into. destruct sizes as [_ ->].
  rewrite Hra, Hca, !weak_enforce_ok by (by apply bool_decide_true). run.
  destruct (zero_like_ok (mkRaw n 0 0 []) rows cols) as [Hzw _]. change (zero_like (mkRaw n 0 0 []) rows cols) with (raw_Zero n rows cols) in Hzw.
  destruct (each_poly_values rows cols (fun r c s => temp ← Poly a r c; temp ← NttInverse p temp; compose_poly p temp s) (fun i j => tabulate n (fun z => P i j z mod Q)) (raw_Zero n rows cols))
    as (m & E & Hw & [(Hr & Hc & _) Hk'] & Hpo); [done|done|done| |].
  - intros i j s Hi Hj ->. split; [|apply length_tabulate]. rewrite (represents_Poly a rows cols P i j Ha Hi Hj). run. rewrite F_inverse by apply crt_residues. run.
    apply compose_poly_ok. by rewrite length_poly.
  - exists m. split; [done|]. change (Rows m = rows) in Hr. change (Cols m = cols) in Hc. cbn in Hk'. injection Hk' as Hn _ _. assert (forall i j z, (i < rows)%nat -> (j < cols)%nat -> (z < n)%nat -> coeff m i j z = P i j z mod Q) as Hco.
    { intros i j z Hi Hj Hz. unfold coeff. rewrite Hpo by done. by rewrite tabulate_lookup. }
    split; [|split; [done|done]]. constructor; [done|done|]. intros i j z Hi Hj Hz. rewrite Hr in Hi. rewrite Hc in Hj. rewrite Hco by done. pose proof (Z.mod_pos_bound (P i j z) Q ltac:(nia)). lia.
Qed.
End two_moduli.
End polys.
