(* ===== verification/Gadget.v ===== *)
(** * The gadget of SpiralPIR

    [GadgetInvert] cuts coefficients into digits and the matrix of [BuildGadget]
    puts them together again.  With this, what the operations on matrices do from
    [ToNtt] to [FromNtt]. *)
From S2P Require Import Prelude Float64 SpiralArith NttTable SpiralParams Ntt NttConv PolyMatrix PolyMatrixProofs.

(** ** Digits *)
Lemma zsum_plus a b f : zsum (a + b) f = zsum a f + zsum b (fun i => f (a + i)%nat).
Proof. induction b as [|b IH]; [rewrite Nat.add_0_r; cbn; lia|]. rewrite Nat.add_succ_r. cbn [zsum]. rewrite IH. ring. Qed.
Lemma zsum_zero n f : (forall i, (i < n)%nat -> f i = 0) -> zsum n f = 0.
Proof. intros H. rewrite (zsum_ext n f (fun _ => 0 * 0)) by (intros; by apply H). by rewrite zsum_scale. Qed.

Lemma digits_sum b m v : 0 <= b -> zsum m (fun j => 2 ^ (b * Z.of_nat j) * (v / 2 ^ (b * Z.of_nat j) mod 2 ^ b)) = v mod 2 ^ (b * Z.of_nat m).
Proof.
  intros Hb. induction m as [|m IH]; [cbn [zsum]; rewrite Z.mul_0_r, Z.pow_0_r; by rewrite Z.mod_1_r|]. cbn [zsum]. rewrite IH.
  replace (b * Z.of_nat (S m)) with (b * Z.of_nat m + b) by lia. rewrite Z.pow_add_r, Z.rem_mul_r by (lia || (apply Z.pow_nonzero; lia) || (apply Z.pow_pos_nonneg; lia)). ring.
Qed.

(** Every [nx]-th term. *)
Lemma zsum_stride nx num i F : (i < nx)%nat -> zsum (nx * num) (fun l => if bool_decide (l mod nx = i)%nat then F (l / nx)%nat else 0) = zsum num F.
Proof.
  intros Hi. induction num as [|num IH]; [by rewrite Nat.mul_0_r|]. rewrite Nat.mul_succ_r, zsum_plus, IH. cbn [zsum]. f_equal.
  rewrite (zsum_ext nx _ (fun l => if bool_decide (l = i) then F num else 0)); [by rewrite zsum_delta|]. intros l Hl.
  assert ((nx * num + l) mod nx = l)%nat as ->. { symmetry. apply (Nat.mod_unique _ nx num); lia. }
  assert ((nx * num + l) / nx = num)%nat as ->. { symmetry. apply (Nat.div_unique _ nx num l); lia. } done.
Qed.

Lemma piece_digit bits v k : 1 <= bits < 64 -> 0 <= v < 2 ^ 64 -> Z.of_nat k * bits < 2 ^ 64 -> piece bits v k = v / 2 ^ (bits * Z.of_nat k) mod 2 ^ bits.
Proof.
  intros Hb Hv Hk. unfold piece. rewrite (u64_small (_ * bits)) by lia. rewrite (Z.mul_comm bits). rewrite Z.shiftl_1_l.
  assert (1 <= 2 ^ bits) by (pose proof (Z.pow_pos_nonneg 2 bits); lia). assert (2 ^ bits < 2 ^ 64) by (apply Z.pow_lt_mono_r; lia).
  rewrite u64_small by lia. destruct (Z.leb_spec 64 (Z.min (Z.of_nat k * bits) 64)).
  - assert (2 ^ 64 <= 2 ^ (Z.of_nat k * bits)) by (apply Z.pow_le_mono_r; lia). rewrite Z.div_small, Z.mod_0_l by lia. done.
  - rewrite Z.min_l by lia. replace (2 ^ bits - 1) with (Z.ones bits) by (rewrite Z.ones_equiv; lia).
    rewrite Z.land_ones, Z.shiftr_div_pow2 by lia. done.
Qed.

(** ** Matrices of coefficients *)
Section coefficients.
Definition cidx (m : PolyMatrixRaw) (i j z : nat) : nat := (PolyStartIndex m i j + z)%nat.
Lemma coeff_data (m : PolyMatrixRaw) i j z : (z < NumWords m)%nat -> coeff m i j z = Data m !!! cidx m i j z.
Proof. intros Hz. unfold coeff, poly. by rewrite slice_lookup. Qed.

(** Equal coefficients, equal matrices. *)
Lemma raw_ext (m m' : PolyMatrixRaw) : (0 < NumWords m)%nat -> raw_poly_len_ m' = raw_poly_len_ m -> Rows m' = Rows m -> Cols m' = Cols m -> well_formed m -> well_formed m' ->
  (forall i j z, (i < Rows m)%nat -> (j < Cols m)%nat -> (z < NumWords m)%nat -> coeff m' i j z = coeff m i j z) -> m' = m.
Proof.
  intros Hn Hl Hr Hc Hw Hw' Hco. destruct m as [len rows cols data], m' as [len' rows' cols' data']. cbn in *. unfold raw_NumWords in *. cbn in *. subst len' rows' cols'. f_equal.
  unfold well_formed in Hw, Hw'. cbn in Hw, Hw'. unfold raw_NumWords in Hw, Hw'. cbn in Hw, Hw'.
  apply (slices_eq len (rows * cols)); [done|done|done|]. intros c Hcc.
  assert (cols <> 0)%nat by nia. pose proof (Nat.div_mod_eq c cols) as E. pose proof (Nat.mod_upper_bound c cols ltac:(lia)).
  assert (c / cols < rows)%nat by (apply Nat.Div0.div_lt_upper_bound; lia). apply list_eq_total; [by rewrite !(slice_length _ _ _ (rows * cols))|].
  intros z Hz. rewrite (slice_length _ _ _ (rows * cols)) in Hz by done. specialize (Hco (c / cols)%nat (c mod cols)%nat z ltac:(lia) ltac:(lia) Hz).
  unfold coeff, poly in Hco. cbn in Hco. unfold raw_NumWords in Hco. cbn in Hco. by replace (c / cols * cols + c mod cols)%nat with c in Hco by lia.
Qed.
End coefficients.

(** Writing one coefficient. *)
Definition with_coeff (P : nat -> nat -> nat -> Z) (i j z : nat) (v : Z) : nat -> nat -> nat -> Z :=
  fun i' j' z' => if bool_decide (i' = i /\ j' = j /\ z' = z) then v else P i' j' z'.
Record filled (len rows cols : nat) (P : nat -> nat -> nat -> Z) (m : PolyMatrixRaw) : Prop := {
  fi_shape : raw_poly_len_ m = len /\ Rows m = rows /\ Cols m = cols;
  fi_wf : well_formed m;
  fi_coeff i j z : (i < rows)%nat -> (j < cols)%nat -> (z < len)%nat -> coeff m i j z = P i j z
}.
Lemma matrix_filled_ext len rows cols P Q m : (forall i j z, (i < rows)%nat -> (j < cols)%nat -> (z < len)%nat -> P i j z = Q i j z) -> filled len rows cols P m -> filled len rows cols Q m.
Proof. intros H [Hs Hw Hc]. split; [done|done|]. intros i j z Hi Hj Hz. rewrite Hc by done. auto. Qed.
Lemma filled_zero len rows cols : filled len rows cols (fun _ _ _ => 0) (raw_Zero len rows cols).
Proof.
  destruct (zero_like_ok (mkRaw len 0 0 []) rows cols) as [Hw Hp]. split; [done|done|]. intros i j z Hi Hj Hz. unfold coeff.
  change (raw_Zero len rows cols) with (zero_like (mkRaw len 0 0 []) rows cols). rewrite Hp by done. by apply lookup_total_replicate_2.
Qed.
Lemma filled_index len rows cols P m i j z : filled len rows cols P m -> (i < rows)%nat -> (j < cols)%nat -> (z < len)%nat ->
  cidx m i j z = ((i * cols + j) * len + z)%nat /\ (cidx m i j z < length (Data m))%nat.
Proof.
  intros [(Hl & Hr & Hc) Hw _] Hi Hj Hz. unfold cidx, PolyStartIndex. change (NumWords m) with (raw_poly_len_ m). rewrite Hl, Hc. split; [done|].
  rewrite Hw, Hr, Hc. change (NumWords m) with (raw_poly_len_ m). rewrite Hl. assert (i * cols + j < rows * cols)%nat by nia. nia.
Qed.
Lemma filled_write len rows cols P m i j z v : filled len rows cols P m -> (i < rows)%nat -> (j < cols)%nat -> (z < len)%nat ->
  filled len rows cols (with_coeff P i j z v) (with_data (<[cidx m i j z := v]> (Data m)) m).
Proof.
  intros Hf Hi Hj Hz. pose proof Hf as [(Hl & Hr & Hc) Hw Hco]. set (m' := with_data _ m).
  assert (filled len rows cols (fun i j z => coeff m' i j z) m') as Hf'. { split; [done| |done]. unfold well_formed, m'. rewrite data_with, length_insert. done. }
  split; [done|apply Hf'|]. intros i' j' z' Hi' Hj' Hz'. rewrite coeff_data by (change (NumWords m') with (raw_poly_len_ m); lia).
  change (cidx m' i' j' z') with (cidx m i' j' z'). destruct (filled_index _ _ _ _ _ i j z Hf Hi Hj Hz) as [E Hb]. destruct (filled_index _ _ _ _ _ i' j' z' Hf Hi' Hj' Hz') as [E' Hb'].
  unfold m'. rewrite data_with. unfold with_coeff. case_bool_decide as Hd.
  - destruct Hd as (-> & -> & ->). by rewrite list_lookup_total_insert_eq.
  - rewrite list_lookup_total_insert_ne. { rewrite <- coeff_data by (change (NumWords m) with (raw_poly_len_ m); lia). by apply Hco. }
    rewrite E, E'. intros Heq. apply Nat.mul_split_l in Heq as [Heq Ez]; [|done|done]. apply Nat.mul_split_l in Heq as [Ei Ej]; [|done|done]. apply Hd. by subst.
Qed.
(** Through the span of a polynomial. *)
Lemma filled_span len rows cols P m i j z v : filled len rows cols P m -> (i < rows)%nat -> (j < cols)%nat -> (z < len)%nat ->
  wp (s ← Poly m i j; s ← vset s z v; Ok (set_poly m i j s)) (filled len rows cols (with_coeff P i j z v)).
Proof.
  intros Hf Hi Hj Hz. pose proof Hf as [(Hl & Hr & Hc) Hw Hco]. rewrite Poly_ok by (done || lia). run.
  assert (length (poly m i j) = len) as Hlp by (rewrite length_poly by (done || lia); done). rewrite vset_total by lia. run.
  destruct (set_poly_ok m i j (<[z:=v]> (poly m i j))) as (Hw' & [(Hr' & Hc' & _) Hk] & Hp); [done|lia|lia|by rewrite length_insert, Hlp|].
  clear Hk. split; [split_and!; [done|congruence|congruence]|done|]. intros i' j' z' Hi' Hj' Hz'. unfold coeff, with_coeff. rewrite Hp by lia.
  specialize (Hco i' j' z' Hi' Hj' Hz'). unfold coeff in Hco. destruct (bool_decide_reflect (i' = i /\ j' = j)) as [[-> ->]|Hne].
  - destruct (decide (z' = z)) as [->|Hne]; [rewrite bool_decide_true by done; by rewrite list_lookup_total_insert_eq by lia|].
    rewrite bool_decide_false by (by intros (_ & _ & ?)). by rewrite list_lookup_total_insert_ne.
  - rewrite bool_decide_false by (intros (? & ? & _); by apply Hne). done.
Qed.

(** *** The gadget matrix and the digits *)
Section gadget.
Context `{LL : LibLaws} (hash_id : string -> Z) (weak : bool).
Context (k : Z) (q0 q1 : Z) (noise : double) (pm : PolyMatrixParams) (qp : QueryParams) (p : Params).
Context (Hk : 0 <= k < 31) (Hms : ntt_moduli [q0; q1]) (Hp : Params_new hash_id (2 ^ k) [q0; q1] noise pm qp = Ok p).
Abbreviation n := (2 ^ Z.to_nat k)%nat.
Abbreviation Q := (q0 * q1).

Lemma modulus_sizes : 1 < Q < 2 ^ 60 /\ PModulus p = Q /\ 1 <= ModulusLog2 p <= 60 /\ Q <= 2 ^ ModulusLog2 p.
Proof.
  destruct (moduli_sizes k [q0; q1] Hk Hms q0 q1 eq_refl) as (H0 & H1 & HQ). destruct (Params_new_modulus hash_id (2 ^ k) q0 q1 noise pm qp p) as [Em El]; [lia|lia|lia|done|].
  unfold Log2Ceil in El. rewrite El, Log2CeilOf_eq by nia. split; [nia|]. split; [done|].
  assert (1 < Q) by nia. pose proof (Z.log2_up_spec Q ltac:(lia)). pose proof (Z.log2_up_pos Q ltac:(lia)).
  split; [|lia]. split; [lia|]. transitivity (Z.log2_up (2 ^ 60)); [apply Z.log2_up_le_mono; lia|]. by rewrite Z.log2_up_pow2.
Qed.

Definition bits_of (num : nat) : Z := if Z.of_nat num =? ModulusLog2 p then 1 else ModulusLog2 p / Z.of_nat num + 1.
Lemma GetBitsPer_ok num : (0 < num)%nat -> GetBitsPer p (Z.of_nat num) = Ok (bits_of num) /\ 1 <= bits_of num < 64 /\ ModulusLog2 p <= bits_of num * Z.of_nat num <= ModulusLog2 p + Z.of_nat num.
Proof.
  intros Hn. destruct modulus_sizes as (_ & _ & HL & _). unfold GetBitsPer, bits_of. set (lg := ModulusLog2 p) in *. clearbody lg. destruct (Z.eqb_spec (Z.of_nat num) lg) as [<-|Hne]; [split; [done|lia]|].
  unfold udiv. rewrite (proj2 (Z.eqb_neq (Z.of_nat num) 0)) by lia. run.
  pose proof (Z.div_mod lg (Z.of_nat num) ltac:(lia)). pose proof (Z.mod_pos_bound lg (Z.of_nat num) ltac:(lia)). assert (0 <= lg / Z.of_nat num <= lg) by (split; [apply Z.div_pos; lia|apply Z.div_le_upper_bound; nia]).
  rewrite u64_small by lia. split; [done|]. split; [lia|]. nia.
Qed.

(** There and back. *)
Lemma FromNtt_ToNtt_ok A : raw_ok k A -> exists a B, ToNtt p A = Ok a /\ FromNtt weak p a = Ok B /\ raw_ok k B /\ (Rows B = Rows A /\ Cols B = Cols A) /\
  forall i j z, (i < Rows A)%nat -> (j < Cols A)%nat -> (z < n)%nat -> coeff B i j z = coeff A i j z mod Q.
Proof.
  intros HA. destruct (ToNtt_represents hash_id k [q0; q1] noise pm qp p Hk Hms Hp A HA) as (a & E & Ha).
  destruct (FromNtt_represents hash_id weak k [q0; q1] noise pm qp p Hk Hms Hp q0 q1 eq_refl a _ _ _ Ha) as (B & E' & HB & Hs & Hc). by exists a, B.
Qed.
Lemma Multiply_ok A B : raw_ok k A -> raw_ok k B -> Cols A = Rows B ->
  exists D, (a ← ToNtt p A; b ← ToNtt p B; c ← Multiply weak p a b; FromNtt weak p c) = Ok D /\ raw_ok k D /\ (Rows D = Rows A /\ Cols D = Cols B) /\
    forall i j z, (i < Rows A)%nat -> (j < Cols B)%nat -> (z < n)%nat -> coeff D i j z = mat_mul k (Cols A) (coeff A) (coeff B) i j z mod Q.
Proof.
  intros HA HB Hs. destruct (ToNtt_represents hash_id k [q0; q1] noise pm qp p Hk Hms Hp A HA) as (a & -> & Ha).
  destruct (ToNtt_represents hash_id k [q0; q1] noise pm qp p Hk Hms Hp B HB) as (b & -> & Hb). rewrite <- Hs in Hb. run.
  destruct (Multiply_represents hash_id weak k [q0; q1] noise pm qp p Hk Hms Hp a b _ _ _ _ _ Ha Hb) as (c & -> & Hc). run.
  by apply (FromNtt_represents hash_id weak k [q0; q1] noise pm qp p Hk Hms Hp q0 q1 eq_refl c).
Qed.

(** [BuildGadget]: column [i + j * rows] has a power of two in row [i]. *)
Definition gadget_upto (rows : nat) (bits : Z) (i t i' l z : nat) : Z :=
  if bool_decide (z = 0 /\ l mod rows = i' /\ (i' < i \/ (i' = i /\ l / rows < t)))%nat && (bits * Z.of_nat (l / rows) <? 64)
  then 2 ^ (bits * Z.of_nat (l / rows)) else 0.
Definition gadget_coeff (rows : nat) (bits : Z) (i l z : nat) : Z :=
  if bool_decide (z = 0 /\ l mod rows = i)%nat && (bits * Z.of_nat (l / rows) <? 64) then 2 ^ (bits * Z.of_nat (l / rows)) else 0.

Lemma when_ext {T} (P1 P2 : Prop) `{!Decision P1, !Decision P2} (c : bool) (x y : T) : (P1 <-> P2) -> (if bool_decide P1 && c then x else y) = (if bool_decide P2 && c then x else y).
Proof. intros H. by rewrite (bool_decide_ext _ _ H). Qed.
Lemma gadget_column rows num l i j : (i < rows)%nat -> (j < num)%nat -> (i + j * rows < rows * num)%nat /\ ((l mod rows = i /\ l / rows = j) <-> l = i + j * rows)%nat.
Proof.
  intros Hi Hj. split; [nia|]. split.
  - intros [<- <-]. pose proof (Nat.div_mod_eq l rows). lia.
  - intros ->. split; [rewrite Nat.Div0.mod_add; by apply Nat.mod_small|rewrite Nat.div_add, Nat.div_small by lia; done].
Qed.
Lemma gadget_upto_step rows num bits i t i' l z : (i < rows)%nat -> (t < num)%nat ->
  gadget_upto rows bits i (S t) i' l z = if bits * Z.of_nat t <? 64 then with_coeff (gadget_upto rows bits i t) i (i + t * rows) 0 (2 ^ (bits * Z.of_nat t)) i' l z else gadget_upto rows bits i t i' l z.
Proof.
  intros Hi Ht. destruct (gadget_column rows num l i t Hi Ht) as [_ Hl]. unfold gadget_upto, with_coeff.
  destruct (decide (z = 0 /\ i' = i /\ l = (i + t * rows)%nat)%nat) as [(-> & -> & Hlt)|Hne].
  - pose proof (proj2 Hl Hlt) as [El Ed]. rewrite El, Ed, Hlt. rewrite (bool_decide_true (0 = 0 /\ i = i /\ _)%nat) by lia.
    rewrite (bool_decide_false (0 = 0 /\ i = i /\ (_ \/ _ /\ (t < t)))%nat) by lia. rewrite bool_decide_true by done. cbn [andb]. done.
  - rewrite (bool_decide_false (i' = i /\ _ /\ _)) by naive_solver.
    assert ((z = 0 /\ l mod rows = i' /\ (i' < i \/ (i' = i /\ l / rows < S t))) <-> (z = 0 /\ l mod rows = i' /\ (i' < i \/ (i' = i /\ l / rows < t))))%nat as E.
    { split; [|lia]. intros (-> & El & [Hlt|[-> Hlt]]); [lia|]. assert (l / rows <> t)%nat by (intros Ed; apply Hne; split_and!; [done|done|by apply Hl]). lia. }
    rewrite (bool_decide_ext _ _ E). by destruct (bits * Z.of_nat t <? 64).
Qed.
Lemma BuildGadget_ok rows num : (0 < rows)%nat -> (0 < num)%nat -> Z.of_nat num < 2 ^ 32 ->
  wp (BuildGadget weak p rows (rows * num)) (filled n rows (rows * num) (gadget_coeff rows (bits_of num))).
Proof.
  intros Hr Hn Hn2. destruct (GetBitsPer_ok num Hn) as (Eb & Hb & Hbn). destruct modulus_sizes as (_ & _ & HL & _). unfold BuildGadget.
  destruct (sizes hash_id k [q0; q1] noise pm qp p Hk Hms Hp) as [_ ->]. unfold umod, udiv. rewrite (proj2 (Z.eqb_neq (Z.of_nat rows) 0)) by lia. run.
  rewrite Nat2Z.inj_mul, Z.mul_comm, Z.mod_mul, Z.div_mul by lia. rewrite weak_enforce_ok by done. run. rewrite Eb. run. rewrite Nat2Z.id.
  set (bits := bits_of num) in *. clearbody bits.
  apply (wp_for _ _ (fun i => filled n rows (rows * num) (gadget_upto rows bits i 0))).
  - eapply matrix_filled_ext; [|apply filled_zero]. intros i l z _ _ _. unfold gadget_upto. cbn beta. rewrite bool_decide_false by lia. done.
  - intros i g Hi Hg. apply (wp_for _ _ (fun t => filled n rows (rows * num) (gadget_upto rows bits i t))); [done| |].
    + intros t g' Ht Hg'. rewrite u64_small by nia. destruct (gadget_column rows num 0 i t Hi Ht) as [Hcol _]. pose proof (n_pos k) as Hn0.
      destruct (Z.leb_spec 64 (bits * Z.of_nat t)) as [Hge|Hlt].
      * cbn [wp]. eapply matrix_filled_ext; [|exact Hg']. intros i' l z _ _ _. rewrite (gadget_upto_step rows num) by done. by rewrite (proj2 (Z.ltb_ge _ _)).
      * destruct (filled_index _ _ _ _ _ i (i + t * rows) 0 Hg' Hi Hcol Hn0) as [_ Hidx]. unfold cidx in Hidx. rewrite Nat.add_0_r in Hidx.
        rewrite vset_total by exact Hidx. run.
        eapply matrix_filled_ext; [|pose proof (filled_write _ _ _ _ _ i (i + t * rows) 0 (2 ^ (bits * Z.of_nat t)) Hg' Hi Hcol Hn0) as Hx; unfold cidx in Hx; rewrite Nat.add_0_r in Hx; exact Hx].
        intros i' l z _ _ _. rewrite (gadget_upto_step rows num) by done. by rewrite (proj2 (Z.ltb_lt _ _)).
    + intros g' Hg'. eapply matrix_filled_ext; [|exact Hg']. intros i' l z _ Hl _. unfold gadget_upto. apply when_ext.
      assert (l / rows < num)%nat by (apply Nat.Div0.div_lt_upper_bound; lia). lia.
  - intros g Hg. eapply matrix_filled_ext; [|exact Hg]. intros i l z Hi _ _. unfold gadget_upto, gadget_coeff. apply when_ext. lia.
Qed.

(** [GadgetInvert] of a column. *)
Definition digits_upto (inp : PolyMatrixRaw) (rdim : nat) (bits : Z) (P0 : nat -> nat -> nat -> Z) (j t u l c z : nat) : Z :=
  if bool_decide (l mod rdim < j \/ (l mod rdim = j /\ (z < t \/ (z = t /\ l / rdim < u))))%nat && true
  then piece bits (coeff inp (l mod rdim) 0 z) (l / rdim) else P0 l c z.
Lemma digits_upto_step inp rdim num bits P0 j t u l c z : (j < rdim)%nat -> (u < num)%nat -> c = 0%nat ->
  digits_upto inp rdim bits P0 j t (S u) l c z = with_coeff (digits_upto inp rdim bits P0 j t u) (j + u * rdim) 0 t (piece bits (coeff inp j 0 t) u) l c z.
Proof.
  intros Hj Hu ->. destruct (gadget_column rdim num l j u Hj Hu) as [_ Hl]. unfold digits_upto, with_coeff.
  destruct (decide (l = (j + u * rdim)%nat /\ z = t)) as [(Hlt & ->)|Hne].
  - pose proof (proj2 Hl Hlt) as [El Ed]. rewrite El, Ed, bool_decide_true by lia. by rewrite bool_decide_true.
  - rewrite (bool_decide_false (l = _ /\ _ /\ _)) by naive_solver. apply when_ext. split; [|lia].
    intros [?|(El & [?|[-> ?]])]; [lia|lia|]. assert (l / rdim <> u)%nat by (intros Ed; apply Hne; split; [by apply Hl|done]). lia.
Qed.
Lemma Poly_column inp j : Cols inp = 1%nat -> Poly inp 0 j = Poly (M := PolyMatrixRaw) inp j 0.
Proof. intros Hc. unfold Poly, PolyStartIndex. rewrite Hc. by replace (j * 1 + 0)%nat with (0 * 1 + j)%nat by lia. Qed.

Lemma GadgetInvert_ok out inp num P0 : raw_ok k inp -> (0 < Rows inp)%nat -> Cols inp = 1%nat -> (0 < num)%nat ->
  filled n (Rows inp * num) 1 P0 out ->
  wp (GadgetInvert weak p out inp) (filled n (Rows inp * num) 1 (fun l _ z => piece (bits_of num) (coeff inp (l mod Rows inp) 0 z) (l / Rows inp))).
Proof.
  intros [Hl Hw Hb] Hr Hc Hn Hout. destruct (GetBitsPer_ok num Hn) as (Eb & Hbits & _). unfold GadgetInvert, GadgetInvertRdim. set (rdim := Rows inp) in *.
  destruct (fi_shape _ _ _ _ _ Hout) as (_ & Hro & Hco). destruct (sizes hash_id k [q0; q1] noise pm qp p Hk Hms Hp) as [_ ->].
  rewrite weak_enforce_ok by (apply bool_decide_true; congruence). run. rewrite Hro, Nat2Z.inj_mul, Z.mul_comm. unfold udiv.
  rewrite (proj2 (Z.eqb_neq (Z.of_nat rdim) 0)), Z.div_mul by lia. run. rewrite Eb. run. rewrite Nat2Z.id, (proj2 (Z.ltb_lt _ _)), Hc by lia. run.
  change (for_ 1 ?f ?s) with (f 0%nat s ≫= Ok). apply wp_bind.
  set (I := fun j t u => filled n (rdim * num) 1 (digits_upto inp rdim (bits_of num) P0 j t u)).
  apply (wp_for _ _ (fun j => I j 0 0)%nat).
  - eapply matrix_filled_ext; [|exact Hout]. intros l c z _ _ _. unfold digits_upto. rewrite bool_decide_false by lia. done.
  - intros j o Hj Ho. rewrite Poly_column, Poly_ok by (done || lia). run. apply (wp_for _ _ (fun t => I j t 0)%nat); [done| |].
    + intros t o' Ht Ho'. assert (length (poly inp j 0) = n) as Hlp by (rewrite length_poly by (done || lia); exact Hl). rewrite vget_total by lia. run.
      apply (wp_for _ _ (fun u => I j t u)); [done| |].
      * intros u o2 Hu Ho2. destruct (gadget_column rdim num 0 j u Hj Hu) as [Hlt _]. eapply wp_mono; [apply (filled_span _ _ _ _ _ _ 0 t (piece (bits_of num) (poly inp j 0 !!! t) u) Ho2); [done|lia|done]|].
        intros o3 Ho3. eapply matrix_filled_ext; [|exact Ho3]. intros l c z _ Hcc _. rewrite (digits_upto_step inp rdim num) by (done || lia). done.
      * intros o2 Ho2. eapply matrix_filled_ext; [|exact Ho2]. intros l c z Hll _ _. unfold digits_upto. apply when_ext.
        assert (l / rdim < num)%nat by (apply Nat.Div0.div_lt_upper_bound; lia). lia.
    + intros o' Ho'. eapply matrix_filled_ext; [|exact Ho']. intros l c z _ _ Hz. unfold digits_upto. apply when_ext. lia.
  - intros o Ho. cbn [wp]. eapply matrix_filled_ext; [|exact Ho]. intros l c z _ _ _. unfold digits_upto. pose proof (Nat.mod_upper_bound l rdim ltac:(lia)). by rewrite bool_decide_true by lia.
Qed.

(** A constant polynomial times another. *)
Lemma negaconv_constant f g z : (z < n)%nat -> (forall i, (0 < i < n)%nat -> f i = 0) -> negaconv n f g z = f 0%nat * g z.
Proof.
  intros Hz Hf. unfold negaconv. rewrite (zsum_ext n _ (fun i => if bool_decide (i = 0%nat) then f 0%nat * g z else 0)); [rewrite zsum_delta by lia; done|].
  intros [|i] Hi; [rewrite !bool_decide_true by lia; by rewrite Nat.sub_0_r|]. rewrite Hf by lia. rewrite (bool_decide_false (S i = 0%nat)) by done. done.
Qed.
Lemma filled_raw rows cols P m : filled n rows cols P m -> (forall i j z, (i < rows)%nat -> (j < cols)%nat -> (z < n)%nat -> 0 <= P i j z < 2 ^ 64) -> raw_ok k m.
Proof. intros [(Hl & Hr & Hc) Hw Hco] Hb. split; [done|done|]. intros i j z Hi Hj Hz. rewrite Hr in Hi. rewrite Hc in Hj. rewrite Hco by done. auto. Qed.

Lemma piece_bound bits v j : 1 <= bits < 64 -> 0 <= v < 2 ^ 64 -> Z.of_nat j * bits < 2 ^ 64 -> 0 <= piece bits v j < 2 ^ 64.
Proof.
  intros Hb Hv Hj. rewrite piece_digit by done. pose proof (Z.mod_pos_bound (v / 2 ^ (bits * Z.of_nat j)) (2 ^ bits) ltac:(apply Z.pow_pos_nonneg; lia)).
  assert (2 ^ bits < 2 ^ 64) by (apply Z.pow_lt_mono_r; lia). lia.
Qed.
Lemma gadget_digits rows num bits i (v : nat -> Z) : (i < rows)%nat -> 1 <= bits < 64 -> bits * Z.of_nat num < 2 ^ 64 -> 0 <= v i < 2 ^ 64 ->
  zsum (rows * num) (fun l => gadget_coeff rows bits i l 0 * piece bits (v (l mod rows)%nat) (l / rows)) = v i mod 2 ^ (bits * Z.of_nat num).
Proof.
  intros Hi Hb Hn Hv. rewrite <- digits_sum by lia.
  rewrite (zsum_ext (rows * num) _ (fun l => if bool_decide (l mod rows = i)%nat then 2 ^ (bits * Z.of_nat (l / rows)) * (v i / 2 ^ (bits * Z.of_nat (l / rows)) mod 2 ^ bits) else 0)).
  { apply (zsum_stride rows num i (fun j => 2 ^ (bits * Z.of_nat j) * (v i / 2 ^ (bits * Z.of_nat j) mod 2 ^ bits)) Hi). }
  intros l Hl. assert (l / rows < num)%nat as Hd by (apply Nat.Div0.div_lt_upper_bound; lia). unfold gadget_coeff.
  destruct (decide (l mod rows = i)%nat) as [Hm|Hm]; [rewrite !bool_decide_true, Hm by done|rewrite !bool_decide_false by naive_solver; done]. cbn [andb].
  destruct (Z.ltb_spec (bits * Z.of_nat (l / rows)) 64); [rewrite piece_digit by nia; done|].
  assert (2 ^ 64 <= 2 ^ (bits * Z.of_nat (l / rows))) by (apply Z.pow_le_mono_r; lia). rewrite (Z.div_small (v i)), Z.mod_0_l by (lia || apply Z.pow_nonzero; lia). lia.
Qed.
Lemma gadget_bound rows bits i l z : 1 <= bits -> 0 <= gadget_coeff rows bits i l z < 2 ^ 64.
Proof.
  intros Hb. unfold gadget_coeff. destruct (bool_decide _); cbn [andb]; [|lia]. destruct (Z.ltb_spec (bits * Z.of_nat (l / rows)) 64); [|lia].
  split; [apply Z.pow_nonneg; lia|]. apply Z.pow_lt_mono_r; lia.
Qed.

Lemma Gadget_ok out inp num P0 : raw_ok k inp -> (0 < Rows inp)%nat -> Cols inp = 1%nat -> (0 < num)%nat -> Z.of_nat num < 2 ^ 32 ->
  filled n (Rows inp * num) 1 P0 out -> (forall i z, (i < Rows inp)%nat -> (z < n)%nat -> coeff inp i 0 z < Q) ->
  (g ← BuildGadget weak p (Rows inp) (Rows inp * num); x ← GadgetInvert weak p out inp;
   a ← ToNtt p g; b ← ToNtt p x; c ← Multiply weak p a b; FromNtt weak p c) = Ok inp.
Proof.
  intros Hinp Hr Hc Hn Hn2 Hout HQ. destruct modulus_sizes as (HQ1 & _ & HL & HL2). destruct (GetBitsPer_ok num Hn) as (_ & Hb & Hbn). set (bits := bits_of num) in *.
  apply wp_eq, wp_bind. eapply wp_mono; [by apply BuildGadget_ok|]. intros g Hg. apply wp_bind. eapply wp_mono; [by eapply GadgetInvert_ok|]. intros x Hx. fold bits in Hg, Hx.
  pose proof (fi_shape _ _ _ _ _ Hg) as (_ & Hgr & Hgc). pose proof (fi_shape _ _ _ _ _ Hx) as (_ & Hxr & Hxc). pose proof Hinp as [Hl Hw Hco].
  assert (forall i z, (i < Rows inp)%nat -> (z < n)%nat -> 0 <= coeff inp i 0 z < 2 ^ 64) as Hv by (intros; apply Hco; lia).
  assert (raw_ok k g) as Hgo by (eapply filled_raw; [exact Hg|intros; apply gadget_bound; lia]).
  assert (raw_ok k x) as Hxo. { eapply filled_raw; [exact Hx|]. intros l j z Hll _ Hz. assert (l / Rows inp < num)%nat by (apply Nat.Div0.div_lt_upper_bound; lia).
    apply piece_bound; [done|apply Hv; [apply Nat.mod_upper_bound; lia|done]|]. nia. }
  destruct (Multiply_ok g x Hgo Hxo) as (D & -> & [Hld Hwd _] & [Hdr Hdc] & HD); [congruence|]. cbn [wp]. rewrite Hgr in Hdr. rewrite Hxc in Hdc.
  pose proof (n_pos k) as Hn0. apply raw_ext; change (NumWords inp) with (raw_poly_len_ inp); rewrite ?Hl; try done; [congruence|].
  intros i j z Hi Hj Hz. assert (j = 0%nat) as -> by lia. rewrite HD by lia. unfold mat_mul. rewrite Hgc.
  rewrite (zsum_ext _ _ (fun l => gadget_coeff (Rows inp) bits i l 0 * piece bits (coeff inp (l mod Rows inp) 0 z) (l / Rows inp))).
  - rewrite (gadget_digits _ _ _ i (fun m => coeff inp m 0 z)) by (done || nia || by apply Hv). specialize (HQ i z Hi Hz). specialize (Hv i z Hi Hz).
    assert (2 ^ ModulusLog2 p <= 2 ^ (bits * Z.of_nat num)) by (apply Z.pow_le_mono_r; lia). rewrite (Z.mod_small _ (2 ^ _)) by lia. apply Z.mod_small. lia.
  - intros l Hll. rewrite negaconv_constant; [|done|].
    + rewrite (fi_coeff _ _ _ _ _ Hg) by done. by rewrite (fi_coeff _ _ _ _ _ Hx) by (done || lia).
    + intros y Hy. rewrite (fi_coeff _ _ _ _ _ Hg) by (done || lia). unfold gadget_coeff. by rewrite bool_decide_false by lia.
Qed.
End gadget.

(** ** Properties *)
Section properties.
Context `{LL : LibLaws} (hash_id : string -> Z) (weak : bool).
Context (k : Z) (q0 q1 : Z) (noise : double) (pm : PolyMatrixParams) (qp : QueryParams) (p : Params).
Context (Hk : 0 <= k < 31) (Hms : ntt_moduli [q0; q1]) (Hp : Params_new hash_id (2 ^ k) [q0; q1] noise pm qp = Ok p).

(** C18.  Matrices multiply through the transform: for every parameter set the
    constructor builds over two moduli, moving two matrices of coefficients to the
    transform, multiplying there and moving back succeeds, with or without yacl's
    checks, and coefficient [z] of entry [(i, j)] is that of the sum over [l] of the
    products of entries [(i, l)] and [(l, j)] modulo X^n + 1 and the product of the
    moduli. *)
Theorem Multiply_correct A B : raw_ok k A -> raw_ok k B -> Cols A = Rows B ->
  exists D, (a ← ToNtt p A; b ← ToNtt p B; c ← Multiply weak p a b; FromNtt weak p c) = Ok D /\ raw_ok k D /\ (Rows D = Rows A /\ Cols D = Cols B) /\
    forall i j z, (i < Rows A)%nat -> (j < Cols B)%nat -> (z < 2 ^ Z.to_nat k)%nat ->
      coeff D i j z = mat_mul k (Cols A) (coeff A) (coeff B) i j z mod (q0 * q1).
Proof. by apply Multiply_ok with hash_id noise pm qp. Qed.

(** [FromNtt] undoes [ToNtt]: a matrix whose coefficients are below the
    product of the two moduli comes back word for word. *)
Theorem FromNtt_ToNtt A : raw_ok k A -> (forall i j z, (i < Rows A)%nat -> (j < Cols A)%nat -> (z < 2 ^ Z.to_nat k)%nat -> coeff A i j z < q0 * q1) ->
  (a ← ToNtt p A; FromNtt weak p a) = Ok A.
Proof.
  intros HA HQ. destruct (FromNtt_ToNtt_ok hash_id weak k q0 q1 noise pm qp p Hk Hms Hp A HA) as (a & B & -> & E & [Hbl Hbw _] & [Hbr Hbc] & Hco). run. rewrite E. f_equal.
  pose proof HA as [Hl Hw Hb]. pose proof (n_pos k). apply raw_ext; change (NumWords A) with (raw_poly_len_ A); rewrite ?Hl; try done.
  intros i j z Hi Hj Hz. rewrite Hco by done. apply Z.mod_small. split; [by apply Hb|by apply HQ].
Qed.

(** C31.  The gadget matrix undoes the gadget's inverse: for a column of
    polynomials below the modulus, cut into any number of digits by [GadgetInvert]
    (into any matrix of the right size), the product with [BuildGadget]'s matrix,
    computed in the transform, is the column. *)
Theorem Gadget_GadgetInvert out inp num :
  raw_ok k inp -> (0 < Rows inp)%nat -> Cols inp = 1%nat -> (forall i z, (i < Rows inp)%nat -> (z < 2 ^ Z.to_nat k)%nat -> coeff inp i 0 z < q0 * q1) ->
  (0 < num)%nat -> Z.of_nat num < 2 ^ 32 ->
  raw_poly_len_ out = (2 ^ Z.to_nat k)%nat -> Rows out = (Rows inp * num)%nat -> Cols out = 1%nat -> well_formed out ->
  (g ← BuildGadget weak p (Rows inp) (Rows inp * num); x ← GadgetInvert weak p out inp;
   a ← ToNtt p g; b ← ToNtt p x; c ← Multiply weak p a b; FromNtt weak p c) = Ok inp.
Proof. intros. by apply (Gadget_ok hash_id weak k q0 q1 noise pm qp p Hk Hms Hp out inp num (coeff out)). Qed.
End properties.

(** ** At concrete inputs *)
Import Ref.
Definition words_ok (k : Z) (m : PolyMatrixRaw) : bool :=
  bool_decide (raw_poly_len_ m = 2 ^ Z.to_nat k)%nat && bool_decide (length (Data m) = Rows m * Cols m * NumWords m)%nat && forallb (fun x => (0 <=? x) && (x <? 2 ^ 9)) (Data m).
Lemma words_ok_raw k m : words_ok k m = true -> raw_ok k m /\ forall i j z, (i < Rows m)%nat -> (j < Cols m)%nat -> (z < 2 ^ Z.to_nat k)%nat -> coeff m i j z < 2 ^ 9.
Proof.
  unfold words_ok. intros [[Hl Hw]%andb_true_iff Hd]%andb_true_iff. apply bool_decide_eq_true in Hl, Hw. rewrite forallb_forall in Hd.
  assert (forall i j z, (i < Rows m)%nat -> (j < Cols m)%nat -> (z < 2 ^ Z.to_nat k)%nat -> 0 <= coeff m i j z < 2 ^ 9) as Hc.
  { intros i j z Hi Hj Hz. rewrite coeff_data by (change (NumWords m) with (raw_poly_len_ m); lia).
    assert (cidx m i j z < length (Data m))%nat as Hb by (apply (filled_index (2 ^ Z.to_nat k) (Rows m) (Cols m) (coeff m)); done).
    apply list_lookup_lookup_total_lt in Hb. apply list_elem_of_lookup_2 in Hb. apply list_elem_of_In in Hb. apply Hd in Hb. lia. }
  split; [split; [done|done|]|]; intros i j z Hi Hj Hz; specialize (Hc i j z Hi Hj Hz); lia.
Qed.

Definition row2 : PolyMatrixRaw := mkRaw 4 1 2 [1; 2; 3; 4; 5; 6; 7; 8].
Definition column2 : PolyMatrixRaw := mkRaw 4 2 1 [500; 0; 1; 16; 40; 41; 17; 3].
Definition toy_out : PolyMatrixRaw := raw_Zero 4 6 1.
Lemma toy_moduli : ntt_moduli [17; 41].
Proof. repeat constructor; lia. Qed.

Lemma Multiply_correct_witness : exists D,
  (a ← ToNtt toy row2; b ← ToNtt toy column2; c ← Multiply true toy a b; FromNtt true toy c) = Ok D /\ coeff D 0 0 2 = mat_mul 2 2 (coeff row2) (coeff column2) 0 0 2 mod (17 * 41).
Proof.
  destruct (Multiply_correct (fun _ => 0) true 2 17 41 f64_6_4 (mkPolyMatrixParams 1 2 14 3 4 4 4) (mkQueryParams 1 1 1 true) toy
    ltac:(lia) toy_moduli toy_params_ok row2 column2) as (D & HD & _ & _ & Hc).
  - by apply words_ok_raw.
  - by apply words_ok_raw.
  - reflexivity.
  - exists D. split; [exact HD|]. apply Hc; vm_compute; lia.
Defined.
Lemma FromNtt_ToNtt_witness : (a ← ToNtt toy column2; FromNtt false toy a) = Ok column2.
Proof.
  apply (FromNtt_ToNtt (fun _ => 0) false 2 17 41 f64_6_4 (mkPolyMatrixParams 1 2 14 3 4 4 4) (mkQueryParams 1 1 1 true) toy ltac:(lia) toy_moduli toy_params_ok column2).
  - by apply words_ok_raw.
  - intros i j z Hi Hj Hz. pose proof (proj2 (words_ok_raw 2 column2 eq_refl) i j z Hi Hj Hz). lia.
Defined.
Lemma Gadget_GadgetInvert_witness :
  (g ← BuildGadget true toy 2 6; x ← GadgetInvert true toy toy_out column2;
   a ← ToNtt toy g; b ← ToNtt toy x; c ← Multiply true toy a b; FromNtt true toy c) = Ok column2.
Proof.
  apply (Gadget_GadgetInvert (fun _ => 0) true 2 17 41 f64_6_4 (mkPolyMatrixParams 1 2 14 3 4 4 4) (mkQueryParams 1 1 1 true) toy
    ltac:(lia) toy_moduli toy_params_ok toy_out column2 3).
  - by apply words_ok_raw.
  - cbn. lia.
  - reflexivity.
  - intros i z Hi Hz. pose proof (proj2 (words_ok_raw 2 column2 eq_refl) i 0%nat z Hi ltac:(cbn; lia) Hz). lia.
  - lia.
  - lia.
  - reflexivity.
  - reflexivity.
  - reflexivity.
  - reflexivity.
Defined.

(** [GadgetInvertRdim] reads entry [(i, j)] for column [i]: two columns come back
    exchanged with the rows. *)
Definition square2 : PolyMatrixRaw := mkRaw 4 2 2 [1; 0; 0; 0; 2; 0; 0; 0; 3; 0; 0; 0; 4; 0; 0; 0].
Example gadget_transposes : (g ← BuildGadget true toy 2 6; x ← GadgetInvert true toy (raw_Zero 4 6 2) square2;
   a ← ToNtt toy g; b ← ToNtt toy x; c ← Multiply true toy a b; FromNtt true toy c) =
  Ok (mkRaw 4 2 2 [1; 0; 0; 0; 3; 0; 0; 0; 2; 0; 0; 0; 4; 0; 0; 0]).
Proof. vm_compute. reflexivity. Qed.
