(* ===== verification/PirDb.v ===== *)
(** * The raw database of index PIR (psi/algorithm/pir_interface/pir_db.{h,cc})

    A database of equally long rows of bytes, cut into sub-databases of fewer
    bytes per row and put together again.  The theorem: combining the partitions
    of a row gives back the row, for every row and partition length. *)
From S2P Require Import Prelude.

(** [class RawDatabase]. *)
Record RawDatabase := mkRaw { rows_ : nat; row_byte_len_ : nat; db_ : list (list Z) }.

(** [ValidateDb]: every row has the length. *)
Definition ValidateDb (db : list (list Z)) (target_len : nat) : res unit :=
  for_each db (fun inner _ => enforce (bool_decide (target_len = length inner))) tt.

(** The two constructors. *)
Definition RawDatabase_of (db : list (list Z)) : res RawDatabase :=
  r0 ← vget db 0;
  _ ← ValidateDb db (length r0);
  Ok (mkRaw (length db) (length r0) db).
Definition RawDatabase_new (rows row_byte_len : nat) (db : list (list Z)) : res RawDatabase :=
  _ ← ValidateDb db row_byte_len;
  Ok (mkRaw rows row_byte_len db).

(** [At]: [std::vector::at] throws out of range. *)
Definition At (d : RawDatabase) (i : nat) : res (list Z) :=
  match db_ d !! i with Some r => Ok r | None => Throw end.

(** [Random]: [fill i] is the generator's output for row [i]. *)
Definition Random (rows row_byte_len : nat) (fill : nat -> list Z) : RawDatabase :=
  mkRaw rows row_byte_len (loop rows (fun i db => db ++ [fill i]) []).

(** [vector(v.begin() + a, v.begin() + b)]; a range outside the vector is
    undefined. *)
Definition sub_range (v : list Z) (a b : nat) : res (list Z) :=
  _ ← defined (bool_decide (a <= b /\ b <= length v)%nat);
  Ok (take (b - a) (drop a v)).

Definition Combine (data : list (list Z)) (row_byte_len : nat) : res (list Z) :=
  d0 ← vget data 0;
  if bool_decide (length data = 1%nat) then
    _ ← enforce (bool_decide (length d0 = row_byte_len));
    Ok d0
  else
    let m := length d0 in
    _ ← ValidateDb data m;
    _ ← enforce (bool_decide (row_byte_len <= length data * m)%nat);
    for_ (length data) (fun i result =>
      d ← vget data i;
      if bool_decide (i < length data - 1)%nat then Ok (result ++ d)
      else
        (* size_t end = row_byte_len - i * m, wrapping below zero *)
        _ ← defined (bool_decide (i * m <= row_byte_len)%nat);
        part ← sub_range d 0 (row_byte_len - i * m);
        Ok (result ++ part)) [].

Definition Partition (d : RawDatabase) (partition_byte_len : nat) : res (list RawDatabase) :=
  if bool_decide (row_byte_len_ d <= partition_byte_len)%nat then
    r ← RawDatabase_new (rows_ d) (row_byte_len_ d) (db_ d);
    Ok [r]
  else
    _ ← defined (negb (bool_decide (partition_byte_len = 0%nat)));
    let partition_num := ((row_byte_len_ d + partition_byte_len - 1) / partition_byte_len)%nat in
    result ← for_ (partition_num - 1) (fun i result =>
      r ← (let start_col := (i * partition_byte_len)%nat in
           let end_col := (start_col + partition_byte_len)%nat in
           sub_db ← for_ (rows_ d) (fun n sub_db =>
             chunk ← (row ← vget (db_ d) n; sub_range row start_col end_col);
             Ok (sub_db ++ [chunk])) [];
           RawDatabase_new (rows_ d) partition_byte_len sub_db);
      Ok (result ++ [r])) [];
    let start_col := ((partition_num - 1) * partition_byte_len)%nat in
    let end_col := Nat.min (start_col + partition_byte_len) (row_byte_len_ d) in
    sub_db ← for_ (rows_ d) (fun n sub_db =>
      chunk ← (row ← vget (db_ d) n;
               part ← sub_range row start_col end_col;
               (* copied over a chunk of zeros *)
               Ok (part ++ drop (length part) (replicate partition_byte_len 0)));
      Ok (sub_db ++ [chunk])) [];
    r ← RawDatabase_new (rows_ d) partition_byte_len sub_db;
    Ok (result ++ [r]).

(** A well-formed database. *)
Definition db_ok (d : RawDatabase) : Prop :=
  length (db_ d) = rows_ d /\ Forall (fun r => length r = row_byte_len_ d) (db_ d).

Lemma ValidateDb_ok db n : ValidateDb db n = Ok tt <-> Forall (fun r => length r = n) db.
Proof.
  unfold ValidateDb. induction db as [|r db IH]; cbn [for_each]; [done|].
  destruct (bool_decide_reflect (n = length r)) as [E|E]; run.
  - rewrite IH. split; [intros; by constructor|intros H; by inversion H].
  - split; [done|]. intros H. inversion H; subst. done.
Qed.

Lemma RawDatabase_of_ok db d : RawDatabase_of db = Ok d -> db_ok d /\ db_ d = db.
Proof.
  unfold RawDatabase_of. intros (r0 & _ & ([] & Hv%ValidateDb_ok & [= <-])%bind_ok)%bind_ok.
  by split.
Qed.

Lemma sub_range_ok v a b : (a <= b <= length v)%nat -> sub_range v a b = Ok (take (b - a) (drop a v)).
Proof. intros. unfold sub_range. by rewrite bool_decide_true by lia. Qed.

Section roundtrip.
Variables (d : RawDatabase) (len : nat).
Hypotheses (Hd : db_ok d) (Hlen : (0 < len)%nat) (Hcut : (len < row_byte_len_ d)%nat).

Let L := row_byte_len_ d.
Let num := ((L + len - 1) / len)%nat.
Let row (n : nat) : list Z := db_ d !!! n.

(** Chunk [i] of row [n], the last one padded with zeros. *)
Definition chunk (i n : nat) : list Z :=
  take len (drop (i * len) (row n) ++ replicate len 0).

Lemma num_bounds : (1 < num /\ (num - 1) * len < L /\ L <= num * len)%nat.
Proof.
  subst num L. pose proof (Nat.div_mod (row_byte_len_ d + len - 1) len ltac:(lia)).
  pose proof (Nat.mod_upper_bound (row_byte_len_ d + len - 1) len ltac:(lia)).
  set (q := ((row_byte_len_ d + len - 1) / len)%nat) in *. nia.
Qed.

Lemma row_length n : (n < rows_ d)%nat -> length (row n) = L.
Proof.
  intros Hn. destruct Hd as [Hl Hr]. rewrite Forall_lookup in Hr.
  destruct (lookup_lt_is_Some_2 (db_ d) n ltac:(lia)) as [r Hrn].
  unfold row. rewrite (list_lookup_total_correct _ _ _ Hrn). by eapply Hr.
Qed.

Lemma chunk_length i n : (i < num)%nat -> (n < rows_ d)%nat -> length (chunk i n) = len.
Proof.
  intros Hi Hn. unfold chunk. rewrite length_take, length_app, length_replicate, length_drop. lia.
Qed.

Lemma chunk_inner i n :
  (i < num - 1)%nat -> (n < rows_ d)%nat -> chunk i n = take len (drop (i * len) (row n)).
Proof.
  intros Hi Hn. unfold chunk. rewrite take_app_le; [done|].
  rewrite length_drop, row_length by done. destruct num_bounds as (?&?&?). nia.
Qed.

(** The chunks up to [k] are a prefix of the row. *)
Lemma chunks_prefix k n :
  (k <= num - 1)%nat -> (n < rows_ d)%nat ->
  concat (tabulate k (fun i => chunk i n)) = take (k * len) (row n).
Proof.
  intros Hk Hn. induction k as [|k IH]; [done|].
  rewrite tabulate_S, concat_app, IH by lia. cbn [concat]. rewrite app_nil_r, chunk_inner by lia.
  replace (S k * len)%nat with (k * len + len)%nat by lia.
  by rewrite take_take_drop.
Qed.

(** What [Partition] returns: the tabulated chunks. *)
Definition part (i : nat) : RawDatabase :=
  mkRaw (rows_ d) len (tabulate (rows_ d) (chunk i)).

Lemma part_ok i : (i < num)%nat -> db_ok (part i).
Proof.
  intros Hi. split; cbn [db_ rows_ row_byte_len_ part]; [apply length_tabulate|].
  apply Forall_tabulate. intros n Hn. by apply chunk_length.
Qed.

Lemma new_part i :
  (i < num)%nat -> RawDatabase_new (rows_ d) len (tabulate (rows_ d) (chunk i)) = Ok (part i).
Proof.
  intros Hi. unfold RawDatabase_new. destruct (part_ok i Hi) as [_ Hf].
  assert (ValidateDb (tabulate (rows_ d) (chunk i)) len = Ok tt) as -> by (by apply ValidateDb_ok).
  done.
Qed.

Lemma Partition_eq : Partition d len = Ok (tabulate num part).
Proof.
  destruct num_bounds as (Hn1 & Hn2 & Hn3).
  unfold Partition. rewrite bool_decide_false by (unfold L in *; lia).
  rewrite bool_decide_false by lia. run. fold L num.
  rewrite (for_push (num - 1) _ part).
  2:{ intros i Hi. cbv zeta. rewrite (for_push _ _ (chunk i)).
      - run. rewrite app_nil_l. apply new_part. lia.
      - intros n Hn. destruct Hd as [Hl _]. rewrite vget_total by lia. run.
        rewrite sub_range_ok by (fold (row n); rewrite row_length by done; nia).
        rewrite chunk_inner by done. fold (row n). do 3 f_equal. lia. }
  run. rewrite (for_push _ _ (chunk (num - 1))).
  2:{ intros n Hn. destruct Hd as [Hl _]. rewrite vget_total by lia. run. fold (row n).
      rewrite Nat.min_r by lia. rewrite sub_range_ok by (rewrite row_length by done; lia). run.
      f_equal. unfold chunk. set (v := drop _ (row n)).
      assert (length v = L - (num - 1) * len)%nat as Hv by (subst v; rewrite length_drop, row_length; lia).
      rewrite (take_ge v) by lia. rewrite take_app_ge by lia.
      rewrite Hv. f_equal. rewrite take_replicate, drop_replicate. f_equal. lia. }
  run. rewrite !app_nil_l, new_part by lia. run. f_equal.
  replace num with (S (num - 1))%nat at 3 by lia. by rewrite tabulate_S.
Qed.

Lemma Combine_parts n :
  (n < rows_ d)%nat -> Combine (tabulate num (fun i => chunk i n)) L = Ok (row n).
Proof.
  intros Hn. destruct num_bounds as (Hn1 & Hn2 & Hn3).
  unfold Combine. rewrite vget_total by (rewrite length_tabulate; lia). run.
  rewrite length_tabulate, bool_decide_false by lia. rewrite tabulate_lookup by lia.
  rewrite chunk_length by lia.
  assert (ValidateDb (tabulate num (fun i => chunk i n)) len = Ok tt) as ->.
  { apply ValidateDb_ok, Forall_tabulate. intros i Hi. by apply chunk_length. }
  run. rewrite bool_decide_true by lia. run.
  cut (wp (for_ num (fun i result =>
      d0 ← vget (tabulate num (fun i => chunk i n)) i;
      if bool_decide (i < num - 1)%nat then Ok (result ++ d0)
      else
        _ ← defined (bool_decide (i * len <= L)%nat);
        p ← sub_range d0 0 (L - i * len); Ok (result ++ p)) []) (fun r => r = row n)).
  { by intros (r & -> & ->)%wp_iff. }
  apply (wp_for _ _ (fun k r => r = if bool_decide (k <= num - 1)%nat
    then concat (tabulate k (fun i => chunk i n)) else row n)).
  - by rewrite bool_decide_true by lia.
  - intros k r Hk Hr. rewrite bool_decide_true in Hr by lia. subst r.
    rewrite vget_total by (rewrite length_tabulate; lia). run. rewrite tabulate_lookup by done.
    destruct (bool_decide_reflect (k < num - 1)%nat) as [Hlt|Hge].
    + cbn [wp]. rewrite bool_decide_true by lia. rewrite tabulate_S, concat_app.
      cbn [concat]. by rewrite app_nil_r.
    + rewrite bool_decide_true by nia. run.
      rewrite sub_range_ok by (rewrite chunk_length by lia; nia). cbn [mbind res_bind wp].
      rewrite bool_decide_false by lia. replace k with (num - 1)%nat by lia.
      rewrite chunks_prefix by lia. rewrite drop_0, Nat.sub_0_r. unfold chunk.
      rewrite take_take, Nat.min_l by nia.
      rewrite take_app_le by (rewrite length_drop, row_length by done; lia).
      rewrite (take_ge (drop _ _)) by (rewrite length_drop, row_length by done; lia).
      apply take_drop.
  - intros r ->. by rewrite bool_decide_false by lia.
Qed.
End roundtrip.

(** C36.  Cutting a well-formed database into sub-databases of [len] bytes per row
    returns well-formed sub-databases, and combining the pieces of any row gives
    back that row; every row range stays inside its row. *)
Theorem Combine_Partition d len :
  db_ok d -> (0 < len)%nat ->
  exists parts, Partition d len = Ok parts /\ Forall db_ok parts /\
    forall n, (n < rows_ d)%nat ->
      Combine (map (fun p => db_ p !!! n) parts) (row_byte_len_ d) = Ok (db_ d !!! n).
Proof.
  intros Hd Hlen. destruct (decide (row_byte_len_ d <= len)%nat) as [Hle|Hgt].
  - exists [mkRaw (rows_ d) (row_byte_len_ d) (db_ d)]. destruct Hd as [Hl Hf].
    unfold Partition. rewrite bool_decide_true by done. unfold RawDatabase_new.
    rewrite (proj2 (ValidateDb_ok _ _) Hf). split; [done|]. split; [by repeat constructor|].
    intros n Hn. unfold Combine. cbn -[bool_decide]. rewrite bool_decide_true by done. run.
    rewrite Forall_lookup in Hf. destruct (lookup_lt_is_Some_2 (db_ d) n ltac:(lia)) as [r Hr].
    rewrite (list_lookup_total_correct _ _ _ Hr). 
    specialize (Hf n r Hr). rewrite (bool_decide_true (length r = _)) by done. done.
  - exists (tabulate ((row_byte_len_ d + len - 1) / len) (part d len)).
    rewrite (Partition_eq d len Hd) by lia. split; [done|]. split.
    + apply Forall_tabulate. intros i Hi. apply (part_ok d len); (done || lia).
    + intros n Hn. rewrite <- (Combine_parts d len Hd Hlen) by lia. f_equal.
      unfold tabulate. rewrite map_map. apply map_ext_in. intros i Hi%in_seq.
      cbn [part db_]. apply tabulate_lookup. done.
Qed.

Lemma Combine_Partition_witness :
  let d := mkRaw 2 5 [[1; 2; 3; 4; 5]; [6; 7; 8; 9; 10]] in
  exists parts, Partition d 2 = Ok parts /\ Forall db_ok parts /\
    forall n, (n < rows_ d)%nat ->
      Combine (map (fun p => db_ p !!! n) parts) (row_byte_len_ d) = Ok (db_ d !!! n).
Proof.
  apply (Combine_Partition (mkRaw 2 5 [[1; 2; 3; 4; 5]; [6; 7; 8; 9; 10]]) 2); [|lia].
  split; [done|]. repeat constructor.
Defined.
