(* ===== verification/SimplePir.v ===== *)
(** * SimplePIR (experiment/pir/simplepir)

    [client.cc], [server.cc], [util.cc] and [network_util.cc]: a single-server
    private information retrieval scheme over LWE.  The database is a square
    matrix of plaintexts; a query hides a column under [A s + e]; the answer is the
    matrix times the query; recovery subtracts the server's hint times [s] and
    rounds.  The AES-CTR generator, the random words and [exp] are parameters.
    The theorems: whatever the random words, retrieval returns the database entry
    when the noise bound fits the scaling factor; wire serialization of vectors
    round-trips. *)
From S2P Require Import Prelude Float64.
#[local] Open Scope Z_scope.

(** ** util.cc *)

(** [rand i] is the [i]-th word [RandU64()] returns (the fast one draws from its
    own generator). *)
Definition GenerateRandomVector (size modulus : Z) (rand : nat -> Z) : res (list Z) :=
  _ ← enforce (0 <? size);
  _ ← enforce (1 <? modulus);
  for_ (Z.to_nat size) (fun i result =>
    x ← Ok (u64 (rand i) mod modulus); vset result i x) (replicate (Z.to_nat size) 0).

Definition InnerProductModq (row col : list Z) (q : Z) : res Z :=
  _ ← enforce (bool_decide (length row = length col));
  _ ← enforce (0 <? q);
  result ← for_ (length row) (fun i result =>
    x ← vget row i;
    y ← vget col i;
    let product := u128 (x * y) in
    Ok (u128 (result + product))) 0;
  Ok (u64 (result mod q)).

(** [static_cast<size_t>(sqrt(N))]. *)
Definition isqrt (n : Z) : res Z := u64_of_f64 (f64_sqrt (f64_of_u64 n)).

(** [v.resize(n, x)]. *)
Definition resize {A} (v : list A) (n : nat) (x : A) : list A :=
  take n v ++ replicate (n - length v) x.

(** ** server.cc *)
Record SimplePirServer := mkServer {
  s_dimension_ : Z;
  s_q_ : Z;
  s_N_ : Z;
  seed_ : Z;
  database_ : list (list Z);
  s_A_ : list (list Z)
}.

(** The checks both constructors make. *)
Definition check_params (dimension q n p : Z) : res unit :=
  _ ← enforce (0 <? n);
  r ← isqrt n;
  _ ← enforce (n =? u64 (r * r));
  _ ← enforce (0 <? dimension);
  _ ← enforce (0 <? q);
  enforce (0 <? p).

Definition SimplePirServer_new (dimension q n p : Z) : res SimplePirServer :=
  _ ← check_params dimension q n p;
  Ok (mkServer dimension q n 0 [] []).

Definition SetDatabase (database : list (list Z)) (s : SimplePirServer) : res SimplePirServer :=
  _ ← enforce (negb (bool_decide (length database = 0%nat)));
  row_num ← isqrt (s_N_ s);
  col_num ← isqrt (s_N_ s);
  _ ← enforce (Z.of_nat (length database) =? row_num);
  r0 ← vget database 0;
  _ ← enforce (Z.of_nat (length r0) =? col_num);
  Ok (mkServer (s_dimension_ s) (s_q_ s) (s_N_ s) (seed_ s) database (s_A_ s)).

Section prg.
(** [PrgAesCtr<uint64_t>(seed, n)]. *)
Variable PrgAesCtr : Z -> Z -> list Z.

Definition GenerateLweMatrix (seed : Z) (s : SimplePirServer) : res SimplePirServer :=
  row_num ← isqrt (s_N_ s);
  let rand_vals := PrgAesCtr seed (u64 (s_dimension_ s * row_num)) in
  let a := resize (s_A_ s) (Z.to_nat (s_dimension_ s)) (replicate (Z.to_nat row_num) 0) in
  a ← for_ (Z.to_nat (s_dimension_ s)) (fun i a =>
        for_ (Z.to_nat row_num) (fun j a =>
          x ← (v ← vget rand_vals (i * Z.to_nat row_num + j); Ok (v mod s_q_ s));
          mset a i j x) a) a;
  Ok (mkServer (s_dimension_ s) (s_q_ s) (s_N_ s) seed (database_ s) a).

Definition GetHint (s : SimplePirServer) : res (list Z) :=
  row_num ← isqrt (s_N_ s);
  for_ (Z.to_nat row_num) (fun i hint =>
    for_ (Z.to_nat (s_dimension_ s)) (fun j hint =>
      prod ← (row ← vget (database_ s) i; a ← vget (s_A_ s) j;
              InnerProductModq row a (s_q_ s));
      Ok (hint ++ [prod])) hint) [].

Definition Answer (s : SimplePirServer) (qu : list Z) : res (list Z) :=
  row_num ← isqrt (s_N_ s);
  for_ (Z.to_nat row_num) (fun i ans =>
    x ← (row ← vget (database_ s) i; InnerProductModq row qu (s_q_ s));
    vset ans i x) (replicate (Z.to_nat row_num) 0).

Definition GetValue (s : SimplePirServer) (idx : Z) : res Z :=
  _ ← enforce (idx <? s_N_ s);
  row_num ← isqrt (s_N_ s);
  _ ← defined (negb (row_num =? 0));
  mget (database_ s) (Z.to_nat (idx / row_num)) (Z.to_nat (idx mod row_num)).

(** ** client.cc *)
Record SimplePirClient := mkClient {
  dimension_ : Z;
  q_ : Z;
  N_ : Z;
  p_ : Z;
  delta_ : Z;
  idx_row_ : Z;
  s_ : list Z;
  hint_ : list (list Z);
  A_ : list (list Z);
  gaussian_distribution_ : list double;
  cumulative_distribution_ : list double
}.

(** libm's [exp]. *)
Variable std_exp : double -> double.

(** [static_cast<int>] of a non-negative double. *)
Definition int_of_f64 (x : double) : res Z :=
  n ← u64_of_f64 x; _ ← defined (n <? 2 ^ 31); Ok n.

(** The distribution and its cumulative sums. *)
Definition PrecomputeDiscreteGaussian (radius : Z) (sigma : double)
  : res (list double * list double) :=
  _ ← enforce ((0 <? radius) && f64_ltb (f64_of_u64 0) sigma);
  let range := f64_mul (f64_of_u64 radius) sigma in
  max_k ← int_of_f64 range;
  let sigma_sq := f64_mul sigma sigma in
  '(gauss, sum) ← for_ (Z.to_nat (2 * max_k + 1)) (fun i '(gauss, sum) =>
    let k := Z.of_nat i - max_k in
    _ ← defined (- 2 ^ 31 <=? - k * k);
    let prob := std_exp (f64_div (f64_of_u64 (- k * k)) (f64_mul (f64_of_u64 2) sigma_sq)) in
    Ok (gauss ++ [prob], f64_add sum prob)) ([], f64_of_u64 0);
  let gauss := map (fun x => f64_div x sum) gauss in
  g0 ← vget gauss 0;
  cumulative ← vset (replicate (length gauss) (f64_of_u64 0)) 0 g0;
  cumulative ← for_ (length gauss - 1) (fun k c =>
    let i := S k in
    a ← vget c (i - 1);
    b ← vget gauss i;
    vset c i (f64_add a b)) cumulative;
  Ok (gauss, cumulative).

Definition SimplePirClient_new (dimension q n p radius : Z) (sigma : double)
  : res SimplePirClient :=
  _ ← check_params dimension q n p;
  delta ← u64_of_f64 (f64_div (f64_of_u64 q) (f64_of_u64 p));
  '(gauss, cumulative) ← PrecomputeDiscreteGaussian radius sigma;
  Ok (mkClient dimension q n p delta 0 [] [] [] gauss cumulative).

Definition Setup (seed : Z) (hint_vec : list Z) (c : SimplePirClient) : res SimplePirClient :=
  row_num ← isqrt (N_ c);
  let rows := Z.to_nat row_num in
  let dim := Z.to_nat (dimension_ c) in
  let rand_vals := PrgAesCtr seed (u64 (dimension_ c * row_num)) in
  let a := resize (A_ c) rows (replicate dim 0) in
  let h := resize (hint_ c) rows (replicate dim 0) in
  a ← for_ rows (fun i a => for_ dim (fun j a =>
        x ← (v ← vget rand_vals (j * rows + i); Ok (v mod q_ c)); mset a i j x) a) a;
  h ← for_ rows (fun i h => for_ dim (fun j h =>
        x ← vget hint_vec (i * dim + j); mset h i j x) h) h;
  Ok (mkClient (dimension_ c) (q_ c) (N_ c) (p_ c) (delta_ c) (idx_row_ c) (s_ c) h a
        (gaussian_distribution_ c) (cumulative_distribution_ c)).

(** [std::upper_bound]: the first element above [u]. *)
Fixpoint upper_bound (l : list double) (u : double) : nat :=
  match l with
  | [] => 0
  | x :: l' => if f64_ltb u x then 0 else S (upper_bound l' u)
  end.

(** [1.0 / (1ULL << 53)]. *)
Definition f64_2m53 : double := SpecFloat.S754_finite false 4503599627370496 (-105).

Definition SampleGaussian (c : SimplePirClient) (num_samples : nat) (rand : nat -> Z)
  : res (list Z) :=
  let max_k := (Z.of_nat (length (gaussian_distribution_ c)) - 1) / 2 in
  for_ num_samples (fun i samples =>
    x ← (let u := f64_mul (f64_of_u64 (Z.shiftr (u64 (rand i)) 11)) f64_2m53 in
         let bin_index := upper_bound (cumulative_distribution_ c) u in
         Ok (Z.of_nat bin_index - max_k));
    vset samples i x) (replicate num_samples 0).

(** The query, and the client that remembers its secret.  The noise draws the
    first random words, the secret the words after them. *)
Definition Query (idx : Z) (rand : nat -> Z) (c : SimplePirClient)
  : res (SimplePirClient * list Z) :=
  _ ← enforce (idx <? N_ c);
  row_num ← isqrt (N_ c);
  _ ← defined (negb (row_num =? 0));
  let rows := Z.to_nat row_num in
  let idx_row := idx / row_num in
  let idx_col := idx mod row_num in
  u_i_col ← vset (replicate rows 0) (Z.to_nat idx_col) (delta_ c);
  error_vec ← SampleGaussian c rows rand;
  s ← GenerateRandomVector (dimension_ c) (q_ c) (fun i => rand (rows + i)%nat);
  qu ← for_ rows (fun i qu =>
    x ← (a ← vget (A_ c) i;
         ip ← InnerProductModq a s (q_ c);
         u ← vget u_i_col i;
         e ← vget error_vec i;
         Ok (u64 (u64 (ip + u) + u64 e) mod q_ c));
    vset qu i x) (replicate rows 0);
  Ok (mkClient (dimension_ c) (q_ c) (N_ c) (p_ c) (delta_ c) idx_row s (hint_ c) (A_ c)
        (gaussian_distribution_ c) (cumulative_distribution_ c), qu).

Definition Recover (c : SimplePirClient) (ans : list Z) : res Z :=
  a ← vget ans (Z.to_nat (idx_row_ c));
  h ← vget (hint_ c) (Z.to_nat (idx_row_ c));
  ip ← InnerProductModq h (s_ c) (q_ c);
  let phase := u64 (a - ip) in
  _ ← defined (negb (delta_ c =? 0));
  let d := if delta_ c / 2 <=? phase mod delta_ c
           then u64 (phase / delta_ c + 1) else phase / delta_ c in
  Ok (d mod p_ c).

(** ** A whole retrieval: set-up, query, answer, recovery *)
Definition retrieve (db : list (list Z)) (seed idx : Z) (rand : nat -> Z)
    (c : SimplePirClient) (s : SimplePirServer) : res Z :=
  s ← SetDatabase db s;
  s ← GenerateLweMatrix seed s;
  hint ← GetHint s;
  c ← Setup (seed_ s) hint c;
  '(c, qu) ← Query idx rand c;
  ans ← Answer s qu;
  Recover c ans.
End prg.

(** ** network_util.cc: little-endian words behind a word count *)
Definition SerializeVector (data : list Z) : list Z :=
  foldl (fun buffer element => buffer ++ le_bytes 8 element)
    (le_bytes 8 (Z.of_nat (length data))) data.
Definition SerializeUint128 (v : Z) : list Z := le_bytes 16 v.

Definition DeserializeVector (buffer : list Z) : res (list Z) :=
  data_size ← memcpy_from buffer 0 8;
  for_ (Z.to_nat data_size) (fun i data =>
    element ← memcpy_from buffer (8 + 8 * i) 8;
    vset data i element) (replicate (Z.to_nat data_size) 0).
Definition DeserializeUint128 (buffer : list Z) : res Z := memcpy_from buffer 0 16.

(** ** Correctness of retrieval *)

Lemma wrap_mod_divide w z q : 0 <= w -> 0 < q -> (q | 2 ^ w) -> wrap w z mod q = z mod q.
Proof.
  intros Hw Hq [c Hc]. rewrite wrap_sub_div, Hc by done.
  replace (z - c * q * (z / (c * q))) with (z + (- c * (z / (c * q))) * q) by ring.
  apply Z.mod_add. lia.
Qed.

Definition dot (n : nat) (a b : nat -> Z) : Z := zsum n (fun i => a i * b i).

(** The 128-bit accumulator may wrap: a modulus that divides its range does not
    see it. *)
Lemma InnerProductModq_eq row col q n :
  length row = n -> length col = n -> 0 < q <= 2 ^ 64 -> (q | 2 ^ 64) ->
  InnerProductModq row col q = Ok (dot n (fun i => row !!! i) (fun i => col !!! i) mod q).
Proof.
  intros Hr Hc Hq Hdiv. unfold InnerProductModq. rewrite bool_decide_true by congruence.
  replace (0 <? q) with true by lia. run.
  cut (wp (for_ (length row) (fun i result => x ← vget row i; y ← vget col i;
    Ok (u128 (result + u128 (x * y)))) 0)
    (fun r => r mod 2 ^ 128 = dot n (fun i => row !!! i) (fun i => col !!! i) mod 2 ^ 128)).
  { intros (r & -> & Hr')%wp_iff. run. f_equal.
    rewrite u64_small by (pose proof (Z.mod_pos_bound r q); lia).
    assert (q | 2 ^ 128) as Hdiv2.
    { destruct Hdiv as [c Hd]. exists (c * 2 ^ 64). change (2 ^ 128) with (2 ^ 64 * 2 ^ 64).
      rewrite Hd at 1. ring. }
    rewrite <- (wrap_mod_divide 128 r), <- (wrap_mod_divide 128 (dot _ _ _)) by (lia || done).
    unfold wrap. by rewrite Hr'. }
  rewrite Hr. apply (wp_for _ _ (fun i r =>
    r mod 2 ^ 128 = dot i (fun i => row !!! i) (fun i => col !!! i) mod 2 ^ 128)); [done| |done].
  intros i r Hi IH. rewrite !vget_total by lia. cbn [mbind res_bind wp].
  unfold u128. rewrite wrap_add_r. unfold wrap. rewrite Z.mod_mod by lia. unfold dot in *. cbn [zsum].
  rewrite Z.add_mod, IH, <- Z.add_mod by lia. done.
Qed.

Lemma resize_nil {A} n (x : A) : resize [] n x = replicate n x.
Proof. unfold resize. rewrite take_nil. cbn. by rewrite Nat.sub_0_r. Qed.

(** Rounding removes noise below half the scaling factor. *)
Lemma round_recover phase delta p m noise q :
  q = delta * p -> (q | 2 ^ 64) -> 0 <= phase < 2 ^ 64 -> 0 <= m < p ->
  Z.abs noise < delta / 2 -> phase mod q = (delta * m + noise) mod q ->
  (if delta / 2 <=? phase mod delta then u64 (phase / delta + 1) else phase / delta) mod p = m.
Proof.
  intros -> Hdiv Hph Hm Hn Heq.
  assert (1 < delta) as Hd by (destruct (decide (delta <= 1)); [|lia]; zdm; nia).
  assert (exists k, phase = delta * (m + k * p) + noise) as [k Hk].
  { exists (phase / (delta * p) - (delta * m + noise) / (delta * p)).
    rewrite (Z.div_mod phase (delta * p)) at 1 by nia. rewrite Heq.
    rewrite (Z.mod_eq (delta * m + noise)) by nia. ring. }
  assert (delta / 2 * 2 <= delta) as Hhalf by (zdm; lia).
  destruct (decide (0 <= noise)) as [Hpos|Hneg].
  - assert (phase / delta = m + k * p /\ phase mod delta = noise) as [E1 E2].
    { rewrite Hk, (Z.mul_comm delta). split.
      - rewrite Z.add_comm, Z.div_add, Z.div_small by lia. lia.
      - rewrite Z.add_comm, Z.mod_add, Z.mod_small by lia. lia. }
    rewrite E2. replace (delta / 2 <=? noise) with false by lia.
    rewrite E1, Z.mod_add, Z.mod_small by lia. done.
  - assert (phase / delta = m + k * p - 1 /\ phase mod delta = delta + noise) as [E1 E2].
    { replace phase with (delta + noise + (m + k * p - 1) * delta) by (rewrite Hk; ring). split.
      - rewrite Z.div_add, Z.div_small by lia. lia.
      - rewrite Z.mod_add, Z.mod_small by lia. lia. }
    rewrite E2. replace (delta / 2 <=? delta + noise) with true by lia.
    assert (phase / delta < 2 ^ 63) by (apply Z.div_lt_upper_bound; lia).
    assert (0 <= phase / delta) by (apply Z.div_pos; lia).
    rewrite u64_small, E1 by lia. replace (m + k * p - 1 + 1) with (m + k * p) by ring.
    by rewrite Z.mod_add, Z.mod_small by lia.
Qed.

(** The largest error magnitude the sampler can return. *)
Definition noise_bound (c : SimplePirClient) : Z :=
  Z.of_nat (length (gaussian_distribution_ c)) -
  (Z.of_nat (length (gaussian_distribution_ c)) - 1) / 2.

Lemma upper_bound_le l u : (upper_bound l u <= length l)%nat.
Proof. induction l as [|x l IH]; cbn; [lia|]. destruct (f64_ltb u x); lia. Qed.

Lemma SampleGaussian_bounded c n rand :
  length (cumulative_distribution_ c) = length (gaussian_distribution_ c) ->
  exists e, SampleGaussian c n rand = Ok e /\ length e = n /\
    forall i, (i < n)%nat -> Z.abs (e !!! i) <= noise_bound c.
Proof.
  intros Hl. unfold SampleGaussian. set (g := Z.of_nat (length (gaussian_distribution_ c))).
  eexists. split; [apply for_tabulate; [apply length_replicate|intros j _; reflexivity]|].
  rewrite length_tabulate. split; [done|]. intros i Hi. rewrite tabulate_lookup by done.
  unfold noise_bound. fold g.
  pose proof (upper_bound_le (cumulative_distribution_ c)
    (f64_mul (f64_of_u64 (Z.shiftr (u64 (rand i)) 11)) f64_2m53)) as Hu.
  set (u := upper_bound _ _) in *. assert (0 <= Z.of_nat u <= g) by lia. clearbody u.
  assert (0 <= g) by lia. zdm; lia.
Qed.

Section correctness.
Variables (PrgAesCtr : Z -> Z -> list Z) (std_exp : double -> double).
(** The generator returns as many 64-bit words as asked for. *)
Hypothesis Prg_length : forall seed n, 0 <= n -> length (PrgAesCtr seed n) = Z.to_nat n.

Lemma check_params_inv dimension q n p :
  check_params dimension q n p = Ok tt ->
  exists r, isqrt n = Ok r /\ 0 < n /\ n = u64 (r * r) /\ 0 < dimension /\ 0 < q /\ 0 < p /\ 0 <= r.
Proof.
  unfold check_params. intros (? & Hn%enforce_ok & (r & Hr & H)%bind_ok)%bind_ok.
  repeat (apply bind_ok in H as (? & ?%enforce_ok & H)). apply enforce_ok in H.
  exists r. pose proof (u64_of_f64_range _ _ Hr). split_and!; (done || lia).
Qed.

(** The matrix both sides derive from the seed. *)
Definition lwe (q : Z) (rows : nat) (rand_vals : list Z) (j k : nat) : Z :=
  rand_vals !!! (j * rows + k)%nat mod q.

Lemma GenerateLweMatrix_eq seed s rows :
  isqrt (s_N_ s) = Ok (Z.of_nat rows) -> s_A_ s = [] -> 0 <= s_dimension_ s ->
  s_dimension_ s * Z.of_nat rows < 2 ^ 64 ->
  GenerateLweMatrix PrgAesCtr seed s = Ok (mkServer (s_dimension_ s) (s_q_ s) (s_N_ s) seed
    (database_ s) (tabulate (Z.to_nat (s_dimension_ s)) (fun j => tabulate rows
      (lwe (s_q_ s) rows (PrgAesCtr seed (s_dimension_ s * Z.of_nat rows)) j)))).
Proof.
  intros Hr HA Hd Hb. unfold GenerateLweMatrix. rewrite Hr. run. rewrite HA, resize_nil, Nat2Z.id.
  rewrite u64_small by lia.
  rewrite (for_matrix _ _ _ (lwe (s_q_ s) rows (PrgAesCtr seed (s_dimension_ s * Z.of_nat rows)))).
  - done.
  - apply length_replicate.
  - intros i Hi. rewrite lookup_total_replicate_lt by done. apply length_replicate.
  - intros i j Hi Hj.
    assert (Z.to_nat (s_dimension_ s * Z.of_nat rows) = Z.to_nat (s_dimension_ s) * rows)%nat as E
      by (rewrite Z2Nat.inj_mul, Nat2Z.id; lia).
    rewrite vget_total; [done|]. rewrite Prg_length, E by lia. nia.
Qed.

Lemma GetHint_eq s rows dim db a :
  isqrt (s_N_ s) = Ok (Z.of_nat rows) -> s_dimension_ s = Z.of_nat dim ->
  0 < s_q_ s <= 2 ^ 64 -> Z.divide (s_q_ s) (2 ^ 64) ->
  database_ s = db -> length db = rows -> (forall i, (i < rows)%nat -> length (db !!! i) = rows) ->
  s_A_ s = tabulate dim (fun j => tabulate rows (a j)) ->
  GetHint s = Ok (concat (tabulate rows (fun i => tabulate dim (fun j =>
    dot rows (fun k => (db !!! i) !!! k) (a j) mod s_q_ s)))).
Proof.
  intros Hr Hdim Hq Hdiv Hdb Hl Hrow HA. unfold GetHint. rewrite Hr, Hdim, Hdb, HA. run.
  rewrite !Nat2Z.id. rewrite (for_push2 _ _ _ (fun i j =>
    dot rows (fun k => (db !!! i) !!! k) (a j) mod s_q_ s)); [done|].
  intros i j Hi Hj. rewrite (vget_total db) by lia. run.
  rewrite vget_total by (rewrite length_tabulate; lia). run.
  rewrite tabulate_lookup by done.
  rewrite (InnerProductModq_eq _ _ _ rows); [|auto|apply length_tabulate|done|done].
  f_equal. f_equal. apply zsum_ext. intros k Hk. by rewrite tabulate_lookup.
Qed.

Lemma Answer_product s rows db qu :
  isqrt (s_N_ s) = Ok (Z.of_nat rows) -> 0 < s_q_ s <= 2 ^ 64 -> Z.divide (s_q_ s) (2 ^ 64) ->
  database_ s = db -> length db = rows -> (forall i, (i < rows)%nat -> length (db !!! i) = rows) ->
  length qu = rows ->
  Answer s qu = Ok (tabulate rows (fun i =>
    dot rows (fun k => (db !!! i) !!! k) (fun k => qu !!! k) mod s_q_ s)).
Proof.
  intros Hr Hq Hdiv Hdb Hl Hrow Hqu. unfold Answer. rewrite Hr, Hdb. run. rewrite Nat2Z.id.
  apply for_tabulate; [apply length_replicate|]. intros i Hi. rewrite vget_total by lia. run.
  apply InnerProductModq_eq; auto.
Qed.

Lemma Setup_eq seed hint c rows dim h :
  isqrt (N_ c) = Ok (Z.of_nat rows) -> dimension_ c = Z.of_nat dim ->
  Z.of_nat dim * Z.of_nat rows < 2 ^ 64 -> A_ c = [] -> hint_ c = [] ->
  hint = concat (tabulate rows (fun i => tabulate dim (h i))) ->
  Setup PrgAesCtr seed hint c = Ok (mkClient (dimension_ c) (q_ c) (N_ c) (p_ c) (delta_ c)
    (idx_row_ c) (s_ c) (tabulate rows (fun i => tabulate dim (h i)))
    (tabulate rows (fun i => tabulate dim (fun j =>
      lwe (q_ c) rows (PrgAesCtr seed (Z.of_nat dim * Z.of_nat rows)) j i)))
    (gaussian_distribution_ c) (cumulative_distribution_ c)).
Proof.
  intros Hr Hd Hb HA Hh ->. unfold Setup. rewrite Hr, Hd. run. rewrite HA, Hh, !resize_nil, !Nat2Z.id.
  rewrite u64_small by lia. set (rv := PrgAesCtr seed (Z.of_nat dim * Z.of_nat rows)).
  assert (length rv = dim * rows)%nat as Hrv by (subst rv; rewrite Prg_length; lia).
  rewrite (for_matrix rows dim (fun i j => v ← vget rv (j * rows + i); Ok (v mod q_ c))
    (fun i j => lwe (q_ c) rows rv j i)).
  2: apply length_replicate.
  2:{ intros i Hi. rewrite lookup_total_replicate_lt by done. apply length_replicate. }
  2:{ intros i j Hi Hj. rewrite vget_total by (rewrite Hrv; nia). done. }
  run. rewrite (for_matrix _ _ _ h).
  2: apply length_replicate.
  2:{ intros i Hi. rewrite lookup_total_replicate_lt by done. apply length_replicate. }
  2:{ intros i j Hi Hj. rewrite vget_total by (rewrite concat_tabulate_length; nia).
      by rewrite concat_tabulate_lookup. }
  done.
Qed.

Lemma GenerateRandomVector_eq n q rand :
  (0 < n)%nat -> 1 < q ->
  GenerateRandomVector (Z.of_nat n) q rand = Ok (tabulate n (fun i => u64 (rand i) mod q)).
Proof.
  intros Hn Hq. unfold GenerateRandomVector.
  replace (0 <? Z.of_nat n) with true by lia. replace (1 <? q) with true by lia. run. rewrite Nat2Z.id.
  apply (for_tabulate n (fun i => Ok (u64 (rand i) mod q))); [apply length_replicate|done].
Qed.

(** Adding an error as a sign-extended word, then reducing. *)
Lemma query_entry x u e q :
  0 < q <= 2 ^ 64 -> Z.divide q (2 ^ 64) ->
  u64 (u64 (x + u) + u64 e) mod q = (x + u + e) mod q.
Proof.
  intros Hq Hd. unfold u64. rewrite wrap_mod_divide by (lia || done).
  rewrite Z.add_mod, !wrap_mod_divide, <- Z.add_mod by (lia || done). done.
Qed.

Lemma Query_eq idx rand c rows dim a :
  isqrt (N_ c) = Ok (Z.of_nat rows) -> (0 < rows)%nat -> 0 <= idx < N_ c ->
  dimension_ c = Z.of_nat dim -> (0 < dim)%nat -> 1 < q_ c <= 2 ^ 64 -> Z.divide (q_ c) (2 ^ 64) ->
  A_ c = tabulate rows (fun i => tabulate dim (a i)) ->
  length (cumulative_distribution_ c) = length (gaussian_distribution_ c) ->
  exists s e qu, Query idx rand c = Ok (mkClient (dimension_ c) (q_ c) (N_ c) (p_ c) (delta_ c)
      (idx / Z.of_nat rows) s (hint_ c) (A_ c) (gaussian_distribution_ c)
      (cumulative_distribution_ c), qu) /\
    length s = dim /\ length qu = rows /\
    (forall k, (k < rows)%nat -> Z.abs (e k) <= noise_bound c) /\
    forall k, (k < rows)%nat -> qu !!! k mod q_ c =
      (dot dim (a k) (fun j => s !!! j) +
       (if bool_decide (k = Z.to_nat (idx mod Z.of_nat rows)) then delta_ c else 0) + e k) mod q_ c.
Proof.
  intros Hr Hrows Hidx Hd Hdim Hq Hdiv HA Hcd. unfold Query.
  replace (idx <? N_ c) with true by lia. run. rewrite Hr. run.
  replace (Z.of_nat rows =? 0) with false by lia. run. rewrite Nat2Z.id.
  pose proof (Z.mod_pos_bound idx (Z.of_nat rows) ltac:(lia)) as Hcol.
  rewrite vset_total by (rewrite length_replicate; lia). run.
  destruct (SampleGaussian_bounded c rows rand Hcd) as (e & -> & Hel & Heb). run.
  rewrite Hd, (GenerateRandomVector_eq dim) by lia. run.
  set (s := tabulate dim _).
  set (g := fun k => u64 (u64 (dot dim (fun j => tabulate dim (a k) !!! j) (fun j => s !!! j) mod q_ c +
    <[Z.to_nat (idx mod Z.of_nat rows) := delta_ c]> (replicate rows 0) !!! k) + u64 (e !!! k)) mod q_ c).
  rewrite (for_tabulate rows _ g).
  2: apply length_replicate.
  2:{ intros k Hk. rewrite HA, (vget_total (tabulate rows _)) by (rewrite length_tabulate; lia). run.
      rewrite tabulate_lookup by done.
      rewrite (InnerProductModq_eq _ _ _ dim); [|apply length_tabulate|apply length_tabulate|lia|done].
      run. rewrite (vget_total (<[_ := _]> _)) by (rewrite length_insert, length_replicate; lia). run.
      rewrite (vget_total e) by lia. done. }
  run. exists s, (fun k => e !!! k), (tabulate rows g). split; [done|].
  split; [apply length_tabulate|]. split; [apply length_tabulate|]. split; [exact Heb|].
  intros k Hk. rewrite tabulate_lookup by done. subst g. cbn beta.
  rewrite query_entry, Z.mod_mod by (lia || done).
  rewrite <- Z.add_assoc, Zplus_mod_idemp_l, Z.add_assoc. f_equal. f_equal. f_equal.
  - apply zsum_ext. intros j Hj. by rewrite tabulate_lookup.
  - destruct (bool_decide_reflect (k = Z.to_nat (idx mod Z.of_nat rows))) as [->|Hne].
    + rewrite list_lookup_total_insert_eq; [done|]. rewrite length_replicate. lia.
    + rewrite list_lookup_total_insert_ne by done. by apply lookup_total_replicate_lt.
Qed.

(** The answer minus the hint's part is the scaled entry plus noise. *)
Lemma phase_identity q rows dim (db : nat -> Z) (a : nat -> nat -> Z) (s e qu : nat -> Z) delta col :
  0 < q -> (col < rows)%nat ->
  (forall k, (k < rows)%nat ->
     qu k mod q = (dot dim (fun j => a j k) s + (if bool_decide (k = col) then delta else 0) + e k) mod q) ->
  (dot rows db qu - dot dim (fun j => dot rows db (a j) mod q) s) mod q =
  (delta * db col + dot rows db e) mod q.
Proof.
  intros Hq Hcol Hqu.
  assert (dot dim (fun j => dot rows db (a j) mod q) s mod q = zsum dim (fun j => dot rows db (a j) * s j) mod q) as E1.
  { apply zsum_mod; [lia|]. intros j Hj. by rewrite Zmult_mod_idemp_l. }
  assert (dot rows db qu mod q = zsum rows (fun k => db k *
    (dot dim (fun j => a j k) s + (if bool_decide (k = col) then delta else 0) + e k)) mod q) as E2.
  { apply zsum_mod; [lia|]. intros k Hk. rewrite Z.mul_mod, Hqu, <- Z.mul_mod by (lia || done). done. }
  rewrite Zminus_mod, E1, E2, <- Zminus_mod. f_equal.
  rewrite (zsum_ext rows _ (fun k => (zsum dim (fun j => db k * a j k * s j) +
    (if bool_decide (k = col) then (fun k => delta * db k) k else 0)) + db k * e k)).
  2:{ intros k _. unfold dot. rewrite (zsum_ext dim (fun j => db k * a j k * s j) (fun j => db k * (a j k * s j)))
        by (intros; ring). rewrite zsum_scale. case_bool_decide; ring. }
  rewrite !zsum_add, (zsum_delta rows col) by done. rewrite zsum_swap.
  rewrite (zsum_ext dim (fun j => dot rows db (a j) * s j) (fun j => zsum rows (fun k => db k * a j k * s j))).
  - unfold dot. ring.
  - intros j _. unfold dot. rewrite Z.mul_comm, <- zsum_scale. apply zsum_ext. intros; ring.
Qed.

Lemma PrecomputeDiscreteGaussian_lengths radius sigma g cd :
  PrecomputeDiscreteGaussian std_exp radius sigma = Ok (g, cd) -> length cd = length g.
Proof.
  unfold PrecomputeDiscreteGaussian. intros H.
  repeat (apply bind_ok in H as (? & ? & H); cbv zeta in H).
  destruct x1 as [g0 sum]. cbv zeta in H.
  repeat (apply bind_ok in H as (? & ? & H); cbv zeta in H). injection H as <- <-.
  match goal with Hv : vset _ _ _ = Ok _ |- _ => apply vset_ok in Hv as [_ ->] end.
  match goal with Hf : for_ _ _ (<[_ := _]> _) = Ok _ |- _ => rename Hf into Hloop end.
  apply (for_ok _ _ (fun _ c => length c = length (map (fun x => f64_div x sum) g0)) _ _ Hloop).
  - by rewrite length_insert, length_replicate.
  - intros i c c' _ Hc Hbody. repeat (apply bind_ok in Hbody as (? & _ & Hbody)).
    apply vset_ok in Hbody as [_ ->]. by rewrite length_insert.
Qed.

Lemma SimplePirClient_new_inv dim q n p radius sigma c :
  SimplePirClient_new std_exp dim q n p radius sigma = Ok c ->
  check_params dim q n p = Ok tt /\ dimension_ c = dim /\ q_ c = q /\ N_ c = n /\ p_ c = p /\
  A_ c = [] /\ hint_ c = [] /\
  length (cumulative_distribution_ c) = length (gaussian_distribution_ c).
Proof.
  unfold SimplePirClient_new.
  intros ([] & Hc & (d & _ & ([g cd] & Hg & [= <-])%bind_ok)%bind_ok)%bind_ok.
  apply PrecomputeDiscreteGaussian_lengths in Hg. done.
Qed.

(** A database of [rows] by [rows] plaintexts. *)
Definition square_db (rows : nat) (p : Z) (db : list (list Z)) : Prop :=
  length db = rows /\
  forall i, (i < rows)%nat -> length (db !!! i) = rows /\
    forall k, (k < rows)%nat -> 0 <= (db !!! i) !!! k < p.

(** C19.  SimplePIR retrieves the entry asked for.  For every client and server
    built from the same parameters, modulus [q = delta p] a power of two up to
    2^63, square database of plaintexts, seed, index and random words: if the
    largest possible noise is below half the scaling factor, the whole exchange
    returns and recovers the database entry. *)
Theorem retrieve_correct db seed idx rand c s dim q n p radius sigma rows :
  SimplePirClient_new std_exp (Z.of_nat dim) q n p radius sigma = Ok c ->
  SimplePirServer_new (Z.of_nat dim) q n p = Ok s ->
  delta_ c * p = q -> 1 < q < 2 ^ 64 -> Z.divide q (2 ^ 64) ->
  isqrt n = Ok (Z.of_nat rows) -> square_db rows p db ->
  Z.of_nat dim * Z.of_nat rows < 2 ^ 64 ->
  Z.of_nat rows * ((p - 1) * noise_bound c) < delta_ c / 2 ->
  0 <= idx < n ->
  retrieve PrgAesCtr db seed idx rand c s
    = Ok ((db !!! Z.to_nat (idx / Z.of_nat rows)) !!! Z.to_nat (idx mod Z.of_nat rows)).
Proof.
  intros Hc Hs Hdelta Hq Hdiv Hr [Hdl Hdb] Hb Hnoise Hidx.
  apply SimplePirClient_new_inv in Hc as (Hck & Hcd & Hcq & HcN & Hcp & HcA & Hch & Hcl).
  apply check_params_inv in Hck as (r & Hr' & Hn & Hnr & Hdim & _ & Hp & _).
  rewrite Hr in Hr'. injection Hr' as <-.
  unfold SimplePirServer_new in Hs. apply bind_ok in Hs as (_ & _ & [= <-]).
  assert (n <= Z.of_nat rows * Z.of_nat rows) as Hnle.
  { rewrite Hnr. unfold u64, wrap. apply Z.mod_le; lia. }
  assert (0 < rows)%nat as Hrows by nia.
  set (row := Z.to_nat (idx / Z.of_nat rows)). set (col := Z.to_nat (idx mod Z.of_nat rows)).
  assert (row < rows)%nat as Hrow.
  { subst row. assert (idx / Z.of_nat rows < Z.of_nat rows) by (apply Z.div_lt_upper_bound; lia).
    pose proof (Z.div_pos idx (Z.of_nat rows)). lia. }
  assert (col < rows)%nat as Hcol.
  { subst col. pose proof (Z.mod_pos_bound idx (Z.of_nat rows)). lia. }
  unfold retrieve, SetDatabase. cbn [s_N_ s_dimension_ s_q_ seed_ s_A_].
  rewrite bool_decide_false by lia. rewrite Hr, Hdl. run. rewrite Z.eqb_refl. run.
  rewrite vget_total by lia. run. rewrite (proj1 (Hdb 0%nat Hrows)), Z.eqb_refl. run.
  rewrite (GenerateLweMatrix_eq seed _ rows) by (cbn; lia || done).
  cbn [mbind res_bind s_N_ s_dimension_ s_q_ seed_ s_A_ database_]. rewrite Nat2Z.id.
  set (rv := PrgAesCtr seed _).
  rewrite (GetHint_eq _ rows dim db (lwe q rows rv))
    by (cbn [s_N_ s_dimension_ s_q_ seed_ s_A_ database_]; (done || lia || apply Hdb)).
  cbn [mbind res_bind s_N_ s_dimension_ s_q_ seed_ s_A_ database_].
  rewrite (Setup_eq seed _ c rows dim (fun i j => dot rows (fun k => (db !!! i) !!! k) (lwe q rows rv j) mod q))
    by (rewrite ?HcN; done || lia). fold rv. rewrite Hcq. run.
  edestruct (Query_eq idx rand) as (sv & e & qu & HQ & Hsl & Hql & He & Hqu);
    [..|rewrite HQ]; cbn [N_ dimension_ q_ A_ cumulative_distribution_ gaussian_distribution_];
    [by rewrite HcN|done|by rewrite HcN|done|lia|lia|done|reflexivity|done|].
  cbn [N_ dimension_ q_ p_ delta_ A_ hint_ cumulative_distribution_ gaussian_distribution_] in *. run.
  rewrite (Answer_product _ rows db) by (cbn [s_N_ s_q_ database_]; (done || lia || apply Hdb)). run.
  unfold Recover. cbn [idx_row_ hint_ s_ q_ delta_ p_]. fold row.
  rewrite vget_total by (rewrite length_tabulate; lia). run.
  rewrite vget_total by (rewrite length_tabulate; lia). run.
  rewrite !tabulate_lookup by done.
  rewrite (InnerProductModq_eq _ _ _ dim); [|apply length_tabulate|done|lia|done]. run.
  assert (delta_ c <> 0) as Hd0 by (intros E; rewrite E in Hdelta; lia).
  replace (delta_ c =? 0) with false by lia. run. rewrite Hcp. f_equal. fold col in Hqu.
  assert (0 <= noise_bound c) as Hnb by (unfold noise_bound; zdm; lia).
  apply (round_recover _ _ _ _ (dot rows (fun k => (db !!! row) !!! k) e) q);
    [lia|done|apply u64_range|by apply Hdb| |].
  - eapply Z.le_lt_trans; [|exact Hnoise]. apply zsum_abs_le. intros k Hk.
    rewrite Z.abs_mul. specialize (He k Hk). change (Z.abs (e k) <= noise_bound c) in He. destruct (Hdb row Hrow) as [_ Hv]. specialize (Hv k Hk).
    apply Z.mul_le_mono_nonneg; lia.
  - unfold u64. rewrite wrap_mod_divide by (lia || done).
    rewrite Zminus_mod_idemp_l, Zminus_mod_idemp_r.
    etransitivity; [|apply (phase_identity q rows dim (fun k => (db !!! row) !!! k)
      (lwe q rows rv) (fun j => sv !!! j) e (fun k => qu !!! k) (delta_ c) col); [lia|done|]].
    + f_equal. f_equal. apply zsum_ext. intros j Hj. by rewrite tabulate_lookup.
    + intros k Hk. rewrite Hqu by done. done.
Qed.
End correctness.

(** ** Serialization *)

Lemma SerializeVector_app data :
  SerializeVector data = le_bytes 8 (Z.of_nat (length data)) ++ concat (map (le_bytes 8) data).
Proof.
  unfold SerializeVector. generalize (le_bytes 8 (Z.of_nat (length data))) as b.
  induction data as [|x data IH]; intros b; cbn [foldl map concat]; [by rewrite app_nil_r|].
  by rewrite IH, <- app_assoc.
Qed.

(** A vector of 64-bit words survives the wire: deserializing its
    serialization returns it, and reads inside the buffer only. *)
Theorem DeserializeVector_SerializeVector data :
  Z.of_nat (length data) < 2 ^ 64 -> Forall (fun x => 0 <= x < 2 ^ 64) data ->
  DeserializeVector (SerializeVector data) = Ok data.
Proof.
  intros Hl Hd. unfold DeserializeVector. rewrite SerializeVector_app.
  pose proof (memcpy_field [] (concat (map (le_bytes 8) data)) 0 8 (Z.of_nat (length data)) eq_refl) as Hs.
  cbn [app] in Hs. rewrite Hs by (change (256 ^ Z.of_nat 8) with (2 ^ 64); lia).
  run. rewrite Nat2Z.id, (for_tabulate (length data) _ (fun i => data !!! i)).
  - f_equal. symmetry. by apply eq_tabulate.
  - apply length_replicate.
  - intros j Hj. destruct (lookup_lt_is_Some_2 data j Hj) as [x Hx].
    rewrite (list_lookup_total_correct _ _ _ Hx), <- (app_nil_r (concat _)).
    replace (8 + 8 * j)%nat with (length (le_bytes 8 (Z.of_nat (length data))) + 8 * j + length (@nil Z))%nat
      by (rewrite length_le_bytes; cbn; lia).
    apply (memcpy_record (le_bytes 8) 8 data _ _ j x [] 8 x []); [apply length_le_bytes|done| |].
    + by rewrite app_nil_r.
    + rewrite Forall_lookup in Hd. by eapply Hd.
Qed.

Lemma DeserializeVector_SerializeVector_witness :
  DeserializeVector (SerializeVector [1; 2 ^ 64 - 1; 7]) = Ok [1; 2 ^ 64 - 1; 7].
Proof.
  apply (DeserializeVector_SerializeVector [1; 2 ^ 64 - 1; 7]); [cbn; lia|].
  repeat constructor; lia.
Defined.

(** ** A retrieval at concrete inputs: four bits, q = 2^32, p = 2 *)
Definition toy_prg (seed n : Z) : list Z := replicate (Z.to_nat n) (seed + 5).
Definition toy_exp (x : double) : double := f64_of_u64 1.
Definition toy_client : SimplePirClient :=
  match SimplePirClient_new toy_exp 2 (2 ^ 32) 4 2 1 (f64_of_u64 1) with
  | Ok c => c | _ => mkClient 0 0 0 0 0 0 [] [] [] [] [] end.

Lemma simple_prg_length seed n : 0 <= n -> length (toy_prg seed n) = Z.to_nat n.
Proof. intros. apply length_replicate. Qed.

Lemma toy_square_db : square_db 2 2 [[0; 1]; [1; 0]].
Proof.
  split; [done|]. intros i Hi. destruct i as [|[|i]]; [| |cbn in Hi; lia];
    (split; [done|]; intros k Hk; destruct k as [|[|k]]; [| |cbn in Hk; lia]; split; by vm_compute).
Qed.

Lemma retrieve_correct_witness :
  retrieve toy_prg [[0; 1]; [1; 0]] 9 2 (fun i => 3 * 2 ^ 62 + Z.of_nat i) toy_client
    (mkServer 2 (2 ^ 32) 4 0 [] []) = Ok 1.
Proof.
  apply (retrieve_correct toy_prg toy_exp simple_prg_length [[0; 1]; [1; 0]] 9 2
    (fun i => 3 * 2 ^ 62 + Z.of_nat i) toy_client (mkServer 2 (2 ^ 32) 4 0 [] []) 2 (2 ^ 32) 4 2 1
    (f64_of_u64 1) 2).
  - vm_compute. reflexivity.
  - vm_compute. reflexivity.
  - vm_compute. reflexivity.
  - lia.
  - exists (2 ^ 32). reflexivity.
  - vm_compute. reflexivity.
  - exact toy_square_db.
  - lia.
  - vm_compute. reflexivity.
  - lia.
Defined.

(** With a modulus that does not divide 2^64 the recovery, which reduces the
    phase modulo 2^64 only, returns a wrong entry: q = 3 * 2^30, p = 3. *)
Definition bad_client : SimplePirClient :=
  match SimplePirClient_new toy_exp 2 (3 * 2 ^ 30) 4 3 1 (f64_of_u64 1) with
  | Ok c => c | _ => mkClient 0 0 0 0 0 0 [] [] [] [] [] end.

Definition mixing_prg (seed n : Z) : list Z :=
  map (fun k => seed * 1234567 + Z.of_nat k * 998244353) (seq 0 (Z.to_nat n)).

Example other_modulus_wrong :
  retrieve mixing_prg [[0; 1]; [2; 0]] 9 2 (fun i => 3 * 2 ^ 62 + 12345678 * Z.of_nat i)
    bad_client (mkServer 2 (3 * 2 ^ 30) 4 0 [] []) = Ok 0.
Proof. vm_compute. reflexivity. Qed.
