(* ===== verification/Pps.v ===== *)
(** * Puncturable pseudorandom sets (experiment/pir/pps/ggm_pset.{h,cc})

    The GGM tree behind the offline/online PIR: [GGMTree_Gen] expands a key into
    [2^height] leaves in place, level by level; [PPS] reads a pseudorandom set
    off the leaves ([Eval], [EvalMap]), punctures a key at one element ([Punc])
    and expands a punctured key ([Eval_punc]).  [node] is the abstract tree, the
    GGM function itself, that both expansions refine.

    The AES-CTR generator of yacl is the parameter [PrgAesCtr] (seed, number of
    128-bit words).  A [std::set] or [unordered_set] is a [gset], an
    [unordered_map] a [gmap].  [abort()] is [Throw]. *)
From S2P Require Import Prelude.

Definition PIR_OK : Z := 1.
Definition PIR_ABORT : Z := 0xFFFFFFFFFFFFFFFF.

Definition MODULE_ADD (a b m : Z) : Z := if m <=? u64 (a + b) then u64 (a + b - m) else u64 (a + b).
Definition MODULE_SUB (a b m : Z) : Z := if b <=? a then u64 (a - b) else u64 (a + m - b).

(** The two overloads, on 128-bit and on 64-bit words. *)
Definition LemireTrick128 (v m : Z) : Z := u64 (Z.shiftr (u128 (Z.shiftr v 64 * m)) 64).
Definition LemireTrick64 (v m : Z) : Z := u64 (Z.shiftr (u128 (v * m)) 64).

(** [ceil(log2(size))].  The source computes it in [double]; below [2^32] the
    fractional part of the logarithm of a word that is no power of two is far
    above the rounding error, so the value is the exact one.  The logarithm of
    zero is an infinity, whose conversion is undefined. *)
Definition Depth (size : Z) : res nat := _ ← defined (0 <? size); Ok (Z.to_nat (Z.log2_up size)).

Record PIRPuncKey := mkPunc { k_ : list Z; pos_ : Z; delta_ : Z }.
Definition PIRPuncKey_new : PIRPuncKey := mkPunc [] 0 0.
Record PIRKeyUnion := mkUnion { key : Z; shift : Z }.
Definition PIRKeyUnion_new : PIRKeyUnion := mkUnion 0 0.

Record PPS := mkPPS { map_ : gmap Z Z; universe_size_ : Z; set_size_ : Z }.

(** The constructor refuses a set size outside [[sqrt(n/2), sqrt(2n)]]. *)
Definition PPS_new (universe_size set_size : Z) : res PPS :=
  let sq := u64 (set_size * set_size) in
  if (sq <? universe_size / 2) || (u64 (2 * universe_size) <? sq) then Throw
  else Ok (mkPPS ∅ universe_size set_size).

Section ggm.
Context (PrgAesCtr : Z -> nat -> list Z).

Definition AESPRG (seed : Z) : res (Z * Z) :=
  let r := PrgAesCtr seed 2 in
  left ← vget r 0; right ← vget r 1; Ok (left, right).

(** One level of the in-place expansion: the level is copied to [temp], then
    node [i] is replaced by its two children at [2i] and [2i+1]. *)
Definition expand_level (child : Z -> res (Z * Z)) (depth : nat) (leaf_nodes temp : list Z)
    : res (list Z * list Z) :=
  let temp := take (2 ^ depth) leaf_nodes ++ drop (2 ^ depth) temp in
  leaf_nodes ← for_ (2 ^ depth) (fun i leaf_nodes =>
    t ← vget temp i;
    '(l, r) ← child t;
    leaf_nodes ← vset leaf_nodes (2 * i) l;
    vset leaf_nodes (2 * i + 1) r) leaf_nodes;
  Ok (leaf_nodes, temp).

Definition resize {A} (n : nat) (x : A) (v : list A) : list A := take n v ++ replicate (n - length v) x.

Definition GGMTree_Gen (root_ : Z) (height_ : nat) (leaf_nodes : list Z) : res (list Z) :=
  _ ← defined (Z.of_nat height_ <? 31);
  leaf_nodes ← vset (resize (2 ^ height_) 0 leaf_nodes) 0 root_;
  '(leaf_nodes, _) ← for_ height_ (fun depth '(leaf_nodes, temp) =>
    expand_level AESPRG depth leaf_nodes temp) (leaf_nodes, replicate (2 ^ height_) 0);
  Ok leaf_nodes.

Definition EvalMap (k : Z) (p : PPS) : res PPS :=
  height ← Depth (set_size_ p);
  leaf_nodes ← GGMTree_Gen k height [];
  m ← for_ (Z.to_nat (set_size_ p)) (fun i m =>
    leaf ← vget leaf_nodes i;
    let x := LemireTrick128 leaf (universe_size_ p) in
    Ok (match m !! x with Some _ => m | None => <[x := Z.of_nat i]> m end)) ∅;
  Ok (mkPPS m (universe_size_ p) (set_size_ p)).

(** [Gen]: the first of at most [lambda] random keys whose set is full. *)
Fixpoint Gen_from (n cnt : nat) (RandU128 : nat -> Z) (p : PPS) : res (Z * PPS) :=
  match n with
  | O => Throw
  | S n' =>
      let k := RandU128 cnt in
      p ← EvalMap k p;
      if Z.of_nat (size (map_ p)) =? set_size_ p then Ok (k, p) else Gen_from n' (S cnt) RandU128 p
  end.
Definition Gen (lambda : Z) (RandU128 : nat -> Z) (p : PPS) : res (Z * PPS) :=
  Gen_from (Z.to_nat lambda) 0 RandU128 p.

Definition Punc (i k : Z) (sk_punc : PIRPuncKey) (p : PPS) : res PIRPuncKey :=
  match map_ p !! i with
  | Some pos =>
      height ← Depth (set_size_ p);
      '(_, ks) ← for_ height (fun i '(root, ks) =>
        '(left_child, right_child) ← AESPRG root;
        Ok (if Z.testbit pos (Z.of_nat (height - 1 - i))
            then (right_child, ks ++ [left_child])
            else (left_child, ks ++ [right_child]))) (k, k_ sk_punc);
      Ok (mkPunc ks pos (delta_ sk_punc))
  | None => Throw
  end.

(** The two overloads on keys, on [std::set] and on [unordered_set]. *)
Definition Eval (k : Z) (p : PPS) : res (gset Z) :=
  height ← Depth (set_size_ p);
  leaf_nodes ← GGMTree_Gen k height [];
  for_ (Z.to_nat (set_size_ p)) (fun i set =>
    leaf ← vget leaf_nodes i;
    Ok ({[LemireTrick128 leaf (universe_size_ p)]} ∪ set)) ∅.

Definition Eval_unordered (k : Z) (p : PPS) : res (gset Z) :=
  height ← Depth (set_size_ p);
  leaf_nodes ← GGMTree_Gen k height [];
  for_ (Z.to_nat (set_size_ p)) (fun i set =>
    leaf ← vget leaf_nodes i;
    Ok ({[LemireTrick128 leaf (universe_size_ p)]} ∪ set)) ∅.

(** The overload on punctured keys: an unknown seed is a zero word. *)
Definition known_child (t : Z) : res (Z * Z) := if t =? 0 then Ok (0, 0) else AESPRG t.

Definition Eval_punc (sk_punc : PIRPuncKey) (p : PPS) : res (gset Z) :=
  height ← Depth (set_size_ p);
  _ ← defined (Z.of_nat height <? 31);
  leaf_nodes ← vset (replicate (2 ^ height) 0) 0 0;
  '(leaf_nodes, _) ← for_ height (fun depth '(leaf_nodes, temp) =>
    '(leaf_nodes, temp) ← expand_level known_child depth leaf_nodes temp;
    s ← vget (k_ sk_punc) depth;
    leaf_nodes ← vsetz leaf_nodes (Z.lxor (Z.shiftr (pos_ sk_punc) (Z.of_nat (height - 1 - depth))) 1) s;
    Ok (leaf_nodes, temp)) (leaf_nodes, replicate (2 ^ height) 0);
  for_ (Z.to_nat (set_size_ p)) (fun i set =>
    if Z.of_nat i =? pos_ sk_punc then Ok set
    else leaf ← vget leaf_nodes i; Ok ({[LemireTrick128 leaf (universe_size_ p)]} ∪ set)) ∅.

(** ** The tree *)
Definition children (s : Z) : Z * Z := (PrgAesCtr s 2 !!! 0%nat, PrgAesCtr s 2 !!! 1%nat).
Fixpoint node (k : Z) (d : nat) (i : Z) : Z :=
  match d with
  | O => k
  | S d' => let c := children (node k d' (i / 2)) in if Z.odd i then c.2 else c.1
  end.

(** No inner node of the key's tree is the zero word that marks an unknown
    seed. *)
Definition live (h : nat) (k : Z) : bool :=
  forallb (fun d => forallb (fun i => negb (node k d (Z.of_nat i) =? 0)) (seq 0 (2 ^ d))) (seq 0 h).

(** Element [i] of the set of a key. *)
Definition value (p : PPS) (k : Z) (i : nat) : Z :=
  LemireTrick128 (node k (Z.to_nat (Z.log2_up (set_size_ p))) (Z.of_nat i)) (universe_size_ p).
Definition pset (p : PPS) (k : Z) : gset Z := list_to_set (tabulate (Z.to_nat (set_size_ p)) (value p k)).
End ggm.

(** ** Words and sets *)

Lemma MODULE_ADD_mod a b m : 0 <= a < m -> 0 <= b < m -> m <= 2 ^ 63 -> MODULE_ADD a b m = (a + b) mod m.
Proof.
  intros Ha Hb Hm. unfold MODULE_ADD. rewrite (u64_small (a + b)) by lia.
  destruct (Z.leb_spec m (a + b)).
  - rewrite u64_small by lia. rewrite <- (Z.mod_small (a + b - m) m) by lia.
    replace (a + b) with (a + b - m + 1 * m) at 2 by lia. by rewrite Z.mod_add by lia.
  - by rewrite Z.mod_small by lia.
Qed.

Lemma MODULE_SUB_mod a b m : 0 <= a < m -> 0 <= b < m -> m <= 2 ^ 63 -> MODULE_SUB a b m = (a - b) mod m.
Proof.
  intros Ha Hb Hm. unfold MODULE_SUB. destruct (Z.leb_spec b a).
  - by rewrite u64_small, Z.mod_small by lia.
  - rewrite u64_small by lia. rewrite <- (Z.mod_small (a + m - b) m) by lia.
    replace (a + m - b) with (a - b + 1 * m) by lia. by rewrite Z.mod_add by lia.
Qed.

(** Subtracting and adding the shift back is the identity. *)
Lemma add_sub_cancel i d m : 0 <= i < m -> 0 <= d < m -> m <= 2 ^ 63 -> MODULE_ADD (MODULE_SUB i d m) d m = i.
Proof.
  intros. rewrite (MODULE_SUB_mod i d m) by lia.
  rewrite MODULE_ADD_mod by (try apply Z.mod_pos_bound; lia).
  rewrite Zplus_mod_idemp_l. replace (i - d + d) with i by lia. by apply Z.mod_small.
Qed.

Lemma sub_add_cancel i d m : 0 <= i < m -> 0 <= d < m -> m <= 2 ^ 63 -> MODULE_SUB (MODULE_ADD i d m) d m = i.
Proof.
  intros. rewrite (MODULE_ADD_mod i d m) by lia.
  rewrite MODULE_SUB_mod by (try apply Z.mod_pos_bound; lia).
  rewrite Zminus_mod_idemp_l. replace (i + d - d) with i by lia. by apply Z.mod_small.
Qed.

Lemma sub_sub_cancel i x m : 0 <= i < m -> 0 <= x < m -> m <= 2 ^ 63 -> MODULE_SUB i (MODULE_SUB i x m) m = x.
Proof.
  intros. rewrite (MODULE_SUB_mod i x m) by lia.
  rewrite MODULE_SUB_mod by (try apply Z.mod_pos_bound; lia).
  rewrite Zminus_mod_idemp_r. replace (i - (i - x)) with x by lia. by apply Z.mod_small.
Qed.

Lemma MODULE_range op a b m : op = MODULE_ADD \/ op = MODULE_SUB ->
  0 <= a < m -> 0 <= b < m -> m <= 2 ^ 63 -> 0 <= op a b m < m.
Proof.
  intros [-> | ->] ???; [rewrite MODULE_ADD_mod by lia|rewrite MODULE_SUB_mod by lia];
    apply Z.mod_pos_bound; lia.
Qed.

(** Lemire's multiply-shift lands below the bound. *)
Lemma mulshift_range v m : 0 <= v < 2 ^ 64 -> 0 < m < 2 ^ 64 ->
  0 <= u64 (Z.shiftr (u128 (v * m)) 64) < m.
Proof.
  intros Hv Hm. unfold u128. rewrite wrap_small by (unfold in_u; nia).
  rewrite Z.shiftr_div_pow2 by lia.
  assert (v * m / 2 ^ 64 < m) by (apply Z.div_lt_upper_bound; nia).
  assert (0 <= v * m / 2 ^ 64) by (apply Z.div_pos; nia).
  rewrite u64_small by lia. lia.
Qed.

Lemma LemireTrick128_range v m : 0 <= v < 2 ^ 128 -> 0 < m < 2 ^ 64 -> 0 <= LemireTrick128 v m < m.
Proof.
  intros Hv Hm. apply mulshift_range; [|done]. rewrite Z.shiftr_div_pow2 by lia.
  split; [apply Z.div_pos; lia|]. apply Z.div_lt_upper_bound; lia.
Qed.

Lemma LemireTrick64_range v m : 0 <= v < 2 ^ 64 -> 0 < m < 2 ^ 64 -> 0 <= LemireTrick64 v m < m.
Proof. apply mulshift_range. Qed.

Lemma size_list_to_set_le (l : list Z) : (size (list_to_set l : gset Z) <= length l)%nat.
Proof.
  induction l as [|x l IH]; [by rewrite list_to_set_nil, size_empty|].
  rewrite list_to_set_cons. cbn [length].
  pose proof (size_union_alt {[x]} (list_to_set l : gset Z)) as H. rewrite size_singleton in H.
  assert (size ((list_to_set l : gset Z) ∖ {[x]}) <= size (list_to_set l : gset Z))%nat by (apply subseteq_size; set_solver).
  lia.
Qed.

(** A set as large as the list it was built from has no repetition. *)
Lemma NoDup_of_size (l : list Z) : size (list_to_set l : gset Z) = length l -> NoDup l.
Proof.
  induction l as [|x l IH]; intros H; [constructor|].
  rewrite list_to_set_cons in H. cbn [length] in H.
  pose proof (size_list_to_set_le l). constructor.
  - intros Hx. replace ({[x]} ∪ list_to_set l : gset Z) with (list_to_set l : gset Z) in H by set_solver. lia.
  - apply IH. destruct (decide (x ∈ l)) as [Hx|Hx].
    + replace ({[x]} ∪ list_to_set l : gset Z) with (list_to_set l : gset Z) in H by set_solver. lia.
    + rewrite size_union, size_singleton in H by set_solver. lia.
Qed.

Lemma union_absorb (X : gset Z) v : v ∈ X -> X = X ∪ {[v]}.
Proof. set_solver. Qed.

Lemma for_insert n (f : nat -> res Z) g s :
  (forall j, (j < n)%nat -> f j = Ok (g j)) ->
  for_ n (fun j (s : gset Z) => x ← f j; Ok ({[x]} ∪ s)) s = Ok (list_to_set (tabulate n g) ∪ s).
Proof.
  intros Hf. induction n as [|n IH].
  - change (tabulate 0 g) with (@nil Z). rewrite list_to_set_nil. f_equal. set_solver.
  - rewrite for_S, IH by auto with lia. run. rewrite Hf by lia. run.
    rewrite tabulate_S, list_to_set_app_L. f_equal. set_solver.
Qed.

(** The sibling of a node, and the bit that leads to it. *)
Lemma half_odd x : x = 2 * (x / 2) + Z.b2z (Z.odd x).
Proof. rewrite <- Z.div2_div. apply Z.div2_odd. Qed.

Lemma double_odd x b : Z.odd (2 * x + Z.b2z b) = b.
Proof. rewrite Z.odd_add, Z.odd_mul. by destruct b. Qed.

Lemma double_half x b : (2 * x + Z.b2z b) / 2 = x.
Proof. rewrite Z.mul_comm, Z.add_comm, Z.div_add by lia. by destruct b. Qed.

Lemma sibling_eq x : Z.lxor x 1 = 2 * (x / 2) + Z.b2z (negb (Z.odd x)).
Proof.
  rewrite (half_odd x) at 1. generalize (x / 2) as h, (Z.odd x) as b. intros h b.
  rewrite !(Z.add_comm (2 * h)). apply Z.bits_inj'. intros n Hn. rewrite Z.lxor_spec.
  destruct (decide (n = 0)) as [->|]; [by rewrite !Z.add_b2z_double_bit0; destruct b|].
  replace n with (Z.succ (n - 1)) by lia.
  rewrite <- !Z.div2_bits, !Z.add_b2z_double_div2 by lia.
  change (Z.div2 1) with 0. by rewrite Z.bits_0, xorb_false_r.
Qed.

Lemma sibling_half x : Z.lxor x 1 / 2 = x / 2.
Proof. by rewrite sibling_eq, double_half. Qed.

Lemma sibling_parity x : Z.odd (Z.lxor x 1) = negb (Z.odd x).
Proof. by rewrite sibling_eq, double_odd. Qed.

(** Two nodes with one parent are equal or siblings. *)
Lemma same_parent x y : y / 2 = x / 2 -> y <> x -> y = Z.lxor x 1.
Proof.
  intros H Hne. rewrite sibling_eq. pose proof (half_odd x). pose proof (half_odd y).
  destruct (Z.odd x), (Z.odd y); cbn in *; lia.
Qed.

(** ** Expansion of a key *)
Section expansion.
Context (PrgAesCtr : Z -> nat -> list Z).
Hypothesis prg_length : forall s n, length (PrgAesCtr s n) = n.
Hypothesis prg_range : forall s n, Forall (in_u 128) (PrgAesCtr s n).

Abbreviation children := (children PrgAesCtr).
Abbreviation node := (node PrgAesCtr).
Abbreviation live := (live PrgAesCtr).
Abbreviation value := (value PrgAesCtr).
Abbreviation pset := (pset PrgAesCtr).

Lemma AESPRG_eq s : AESPRG PrgAesCtr s = Ok (children s).
Proof.
  unfold AESPRG. pose proof (prg_length s 2).
  rewrite (vget_total _ 0), (vget_total _ 1) by lia. done.
Qed.

Lemma children_range s : in_u 128 (children s).1 /\ in_u 128 (children s).2.
Proof.
  pose proof (prg_length s 2) as Hl. pose proof (prg_range s 2) as Hf.
  rewrite Forall_lookup in Hf. unfold Pps.children. cbn [fst snd].
  split; eapply Hf; apply list_lookup_lookup_total_lt; lia.
Qed.

Lemma node_range k d i : in_u 128 k -> in_u 128 (node k d i).
Proof.
  intros Hk. destruct d as [|d]; [done|]. cbn [Pps.node].
  pose proof (children_range (node k d (i / 2))) as [? ?]. by destruct (Z.odd i).
Qed.

(** One level: position [j] holds child [j mod 2] of the old position [j / 2]. *)
Lemma expand_level_spec child c depth leaf temp :
  (2 * 2 ^ depth <= length leaf)%nat -> (2 ^ depth <= length temp)%nat ->
  (forall i, (i < 2 ^ depth)%nat -> child (leaf !!! i) = Ok (c i)) ->
  wp (expand_level child depth leaf temp) (fun '(leaf', temp') =>
    length leaf' = length leaf /\ length temp' = length temp /\
    forall j, (j < 2 * 2 ^ depth)%nat ->
      leaf' !!! j = if Nat.odd j then (c (j / 2)%nat).2 else (c (j / 2)%nat).1).
Proof.
  intros Hl Ht Hc. unfold expand_level.
  set (tmp := take _ leaf ++ drop _ temp).
  assert (length tmp = length temp) as Htl.
  { subst tmp. rewrite length_app, length_take_le, length_drop by lia. lia. }
  apply wp_bind. eapply (wp_for _ _ (fun i l => length l = length leaf /\
    forall j, (j < 2 * i)%nat -> l !!! j = if Nat.odd j then (c (j / 2)%nat).2 else (c (j / 2)%nat).1)).
  - split; [done|]. lia.
  - intros i l Hi [Hll Hj]. rewrite (vget_total tmp i) by lia. run.
    replace (tmp !!! i) with (leaf !!! i).
    2:{ subst tmp. rewrite lookup_total_app_l by (rewrite length_take_le; lia).
        by rewrite lookup_total_take_lt by lia. }
    rewrite Hc by done. run. destruct (c i) as [x y] eqn:Ec.
    rewrite (vset_total l (2 * i)) by lia. run.
    rewrite (vset_total _ (2 * i + 1)) by (rewrite length_insert; lia). run.
    rewrite !length_insert. split; [done|]. intros j Hjb.
    destruct (decide (j = 2 * i + 1)%nat) as [->|H1].
    + rewrite list_lookup_total_insert_eq by (rewrite length_insert; lia).
      rewrite Nat.odd_add, Nat.odd_mul. cbn [Nat.odd Nat.even xorb negb andb].
      replace ((2 * i + 1) / 2)%nat with i; [by rewrite Ec|].
      apply (Nat.div_unique _ 2 i 1); lia.
    + rewrite list_lookup_total_insert_ne by done.
      destruct (decide (j = 2 * i)%nat) as [->|H2].
      * rewrite list_lookup_total_insert_eq by lia. rewrite Nat.odd_mul. cbn [Nat.odd Nat.even negb andb].
        replace (2 * i / 2)%nat with i; [by rewrite Ec|].
        apply (Nat.div_unique _ 2 i 0); lia.
      * rewrite list_lookup_total_insert_ne by done. apply Hj. lia.
  - intros l [Hll Hj]. run. done.
Qed.

Lemma odd_of_nat j : Z.odd (Z.of_nat j) = Nat.odd j.
Proof.
  destruct (Nat.Even_or_Odd j) as [[x ->]|[x ->]].
  - rewrite Nat.odd_mul, Nat2Z.inj_mul, Z.odd_mul. done.
  - rewrite Nat.odd_add, Nat.odd_mul, Nat2Z.inj_add, Nat2Z.inj_mul, Z.odd_add, Z.odd_mul. done.
Qed.

Lemma node_S k d j :
  node k (S d) (Z.of_nat j) =
    if Nat.odd j then (children (node k d (Z.of_nat (j / 2)))).2
    else (children (node k d (Z.of_nat (j / 2)))).1.
Proof. cbn [Pps.node]. by rewrite odd_of_nat, Nat2Z.inj_div. Qed.

Lemma half_lt j d : (j < 2 * 2 ^ d)%nat -> (j / 2 < 2 ^ d)%nat.
Proof. intros. apply Nat.Div0.div_lt_upper_bound. lia. Qed.

(** The in-place expansion yields the nodes of the last level. *)
Lemma GGMTree_Gen_eq k h :
  (h < 31)%nat ->
  GGMTree_Gen PrgAesCtr k h [] = Ok (tabulate (2 ^ h) (fun i => node k h (Z.of_nat i))).
Proof.
  intros Hh. unfold GGMTree_Gen, defined. rewrite (proj2 (Z.ltb_lt _ _)) by lia. run.
  assert (0 < 2 ^ h)%nat as Hp by (apply Nat.neq_0_lt_0, Nat.pow_nonzero; lia).
  change (resize (2 ^ h) 0 []) with (take (2 ^ h) (@nil Z) ++ replicate (2 ^ h - 0) 0).
  rewrite take_nil, Nat.sub_0_r. cbn [app].
  rewrite (vset_total (replicate (2 ^ h) 0) 0) by (rewrite length_replicate; lia). run.
  cut (wp (for_ h (fun depth '(leaf_nodes, temp) => expand_level (AESPRG PrgAesCtr) depth leaf_nodes temp)
    (<[0%nat:=k]> (replicate (2 ^ h) 0), replicate (2 ^ h) 0))
    (fun '(leaf, _) => leaf = tabulate (2 ^ h) (fun i => node k h (Z.of_nat i)))).
  { intros ([l t] & -> & ->)%wp_iff. done. }
  apply (wp_for _ _ (fun d '(leaf, temp) => length leaf = (2 ^ h)%nat /\ length temp = (2 ^ h)%nat /\
    forall j, (j < 2 ^ d)%nat -> leaf !!! j = node k d (Z.of_nat j))).
  - rewrite length_insert, length_replicate. split_and!; try done.
    intros j Hj. change (2 ^ 0)%nat with 1%nat in Hj. assert (j = 0)%nat as -> by lia.
    rewrite list_lookup_total_insert_eq by (rewrite length_replicate; lia). done.
  - intros d [leaf temp] Hd (H1 & H2 & H3).
    assert (2 * 2 ^ d <= 2 ^ h)%nat as Hpow.
    { change (2 * 2 ^ d)%nat with (2 ^ (S d))%nat. apply Nat.pow_le_mono_r; lia. }
    eapply wp_mono; [apply (expand_level_spec _ (fun i => children (node k d (Z.of_nat i)))); [lia|lia|]|].
    + intros i Hi. by rewrite H3, AESPRG_eq by done.
    + intros [leaf' temp'] (L1 & L2 & L3). split_and!; [lia|lia|].
      intros j Hj. change (2 ^ S d)%nat with (2 * 2 ^ d)%nat in Hj. by rewrite L3, node_S by done.
  - intros [leaf temp] (H1 & _ & H3). apply eq_tabulate; done.
Qed.

(** ** The set of a key *)
Section keyed.
Context (p : PPS).
Let n := universe_size_ p.
Let s := set_size_ p.
Let h := Z.to_nat (Z.log2_up s).
Hypothesis Hn : 0 < n <= 2 ^ 63.
Hypothesis Hs : 0 < s <= 2 ^ 30.

Lemma height_lt : (h < 31)%nat.
Proof.
  unfold h. assert (Z.log2_up s <= 30).
  { change 30 with (Z.log2_up (2 ^ 30)). apply Z.log2_up_le_mono. lia. }
  lia.
Qed.

Lemma set_size_leaves : (Z.to_nat s <= 2 ^ h)%nat.
Proof.
  apply Nat2Z.inj_le. unfold h. rewrite Nat2Z.inj_pow, !Z2Nat.id by (try apply Z.log2_up_nonneg; lia).
  destruct (decide (s = 1)) as [->|]; [done|]. apply (Z.log2_up_spec s). lia.
Qed.

Lemma Depth_eq : Depth s = Ok h.
Proof. unfold Depth, defined. by rewrite (proj2 (Z.ltb_lt 0 s)) by lia. Qed.

Lemma leaf_value k i : (i < Z.to_nat s)%nat ->
  (leaf ← vget (tabulate (2 ^ h) (fun i => node k h (Z.of_nat i))) i; Ok (LemireTrick128 leaf n)) = Ok (value p k i).
Proof.
  intros Hi. pose proof set_size_leaves.
  rewrite (vget_total _ i) by (rewrite length_tabulate; lia).
  by rewrite tabulate_lookup by lia.
Qed.

Lemma value_range k i : in_u 128 k -> 0 <= value p k i < n.
Proof. intros Hk. apply LemireTrick128_range; [by apply node_range|fold n; lia]. Qed.

Lemma pset_range k x : in_u 128 k -> x ∈ pset p k -> 0 <= x < n.
Proof.
  intros Hk. unfold Pps.pset. rewrite elem_of_list_to_set, list_elem_of_In. unfold tabulate.
  intros (i & <- & _)%in_map_iff. by apply value_range.
Qed.

Lemma Eval_eq k : Eval PrgAesCtr k p = Ok (pset p k).
Proof.
  unfold Eval. fold s n. rewrite Depth_eq. run. rewrite GGMTree_Gen_eq by apply height_lt. run.
  pose proof (for_insert (Z.to_nat s) (fun i => leaf ← vget (tabulate (2 ^ h) (fun i => node k h (Z.of_nat i))) i;
    Ok (LemireTrick128 leaf n)) (value p k) ∅ (leaf_value k)) as H.
  rewrite union_empty_r_L in H. unfold Pps.pset. fold s. rewrite <- H.
  apply for_ext. intros i e Hi. by destruct (vget _ i).
Qed.

Lemma Eval_unordered_eq k : Eval_unordered PrgAesCtr k p = Ok (pset p k).
Proof. apply Eval_eq. Qed.

(** The inverse map: every element of the set, with a position that holds it. *)
Definition inverse (k : Z) (m : gmap Z Z) : Prop :=
  dom m = pset p k /\ forall x q, m !! x = Some q -> 0 <= q < s /\ value p k (Z.to_nat q) = x.

Lemma EvalMap_spec k : wp (EvalMap PrgAesCtr k p) (fun p' => exists m, p' = mkPPS m n s /\ inverse k m).
Proof.
  unfold EvalMap. fold s n. rewrite Depth_eq. run. rewrite GGMTree_Gen_eq by apply height_lt. run.
  apply wp_bind. eapply (wp_for _ _ (fun i m => dom m = (list_to_set (tabulate i (value p k)) : gset Z) /\
    forall x q, m !! x = Some q -> 0 <= q < Z.of_nat i /\ value p k (Z.to_nat q) = x)).
  - split; [by rewrite dom_empty_L|]. by intros x q; rewrite lookup_empty.
  - intros i m Hi [Hd Hm]. pose proof set_size_leaves.
    rewrite (vget_total _ i) by (rewrite length_tabulate; lia). rewrite tabulate_lookup by lia. run.
    change (LemireTrick128 (node k h (Z.of_nat i)) n) with (value p k i).
    rewrite tabulate_S, list_to_set_app_L, list_to_set_singleton_L.
    destruct (m !! value p k i) as [q|] eqn:E.
    + split; [|intros x q' Hx; specialize (Hm x q' Hx); split; [lia|apply Hm]].
      rewrite Hd. apply union_absorb. rewrite <- Hd. by eapply elem_of_dom_2.
    + split; [by rewrite dom_insert_L, Hd, union_comm_L|]. intros x q.
      destruct (decide (x = value p k i)) as [->|Hne].
      * rewrite lookup_insert_eq. intros [= <-]. split; [lia|]. by rewrite Nat2Z.id.
      * rewrite lookup_insert_ne by done. intros Hx. specialize (Hm x q Hx). split; [lia|apply Hm].
  - intros m [Hd Hm]. run. eexists. split; [done|]. split; [done|].
    intros x q Hx. specialize (Hm x q Hx). split; [lia|apply Hm].
Qed.

(** A full set has [set_size] distinct elements. *)
Definition full (k : Z) : Prop := Z.of_nat (size (pset p k)) = s.

Lemma full_inj k i j : full k -> (i < Z.to_nat s)%nat -> (j < Z.to_nat s)%nat ->
  value p k i = value p k j -> i = j.
Proof.
  intros Hf Hi Hj He. unfold full, Pps.pset in Hf. fold s in Hf.
  assert (NoDup (tabulate (Z.to_nat s) (value p k))) as Hnd by (apply NoDup_of_size; rewrite length_tabulate; lia).
  eapply NoDup_lookup; [exact Hnd| |]; unfold tabulate; rewrite lookup_map, lookup_seq_lt by done; cbn; [done|by rewrite He].
Qed.

(** ** Puncturing *)
Section punctured.
Context (k pos : Z).
Hypothesis Hpos : 0 <= pos < s.

(** The ancestor of the punctured leaf at level [d], and its sibling. *)
Definition anc (d : nat) : Z := Z.shiftr pos (Z.of_nat (h - d)).
Definition sib (d : nat) : Z := Z.lxor (anc d) 1.

Lemma anc_S d : (d < h)%nat -> anc (S d) / 2 = anc d.
Proof.
  intros Hd. unfold anc. rewrite <- Z.div2_div, Z.div2_spec, Z.shiftr_shiftr by lia. f_equal. lia.
Qed.

Lemma anc_bit d : (d < h)%nat -> Z.testbit pos (Z.of_nat (h - 1 - d)) = Z.odd (anc (S d)).
Proof. intros Hd. unfold anc. rewrite Z.testbit_odd. do 3 f_equal. lia. Qed.

Lemma anc_0 : anc 0 = 0.
Proof.
  unfold anc. rewrite Z.shiftr_div_pow2 by lia. apply Z.div_small. split; [lia|].
  pose proof set_size_leaves as H. apply Nat2Z.inj_le in H.
  rewrite Nat2Z.inj_pow, Z2Nat.id, Nat.sub_0_r in * by lia. change (Z.of_nat 2) with 2 in H. lia.
Qed.

Lemma anc_h : anc h = pos.
Proof. unfold anc. by rewrite Nat.sub_diag, Z.shiftr_0_r. Qed.

Lemma anc_range d : (d <= h)%nat -> 0 <= anc d < 2 ^ Z.of_nat d.
Proof.
  induction d as [|d IH]; intros Hd; [rewrite anc_0; change (2 ^ Z.of_nat 0) with 1; lia|].
  specialize (IH ltac:(lia)). rewrite <- anc_S in IH by lia.
  rewrite Nat2Z.inj_succ, Z.pow_succ_r by lia. pose proof (half_odd (anc (S d))).
  destruct (Z.odd _); cbn in *; lia.
Qed.

Definition punc_keys : list Z := tabulate h (fun d => node k (S d) (sib (S d))).

Lemma Punc_spec x m k0 delta :
  m !! x = Some pos ->
  Punc PrgAesCtr x k (mkPunc k0 0 delta) (mkPPS m n s) = Ok (mkPunc (k0 ++ punc_keys) pos delta).
Proof.
  intros Hx. unfold Punc. cbn [map_ set_size_ k_ delta_]. rewrite Hx, Depth_eq. run.
  cut (wp (for_ h (fun i '(root, ks) =>
        '(left_child, right_child) ← AESPRG PrgAesCtr root;
        Ok (if Z.testbit pos (Z.of_nat (h - 1 - i))
            then (right_child, ks ++ [left_child])
            else (left_child, ks ++ [right_child]))) (k, k0)) (fun '(_, ks) => ks = k0 ++ punc_keys)).
  { intros ([r ks] & -> & ->)%wp_iff. done. }
  apply (wp_for _ _ (fun i '(root, ks) => root = node k i (anc i) /\
    ks = k0 ++ tabulate i (fun d => node k (S d) (sib (S d))))).
  - split; [done|]. by rewrite app_nil_r.
  - intros i [root ks] Hi [-> ->]. rewrite AESPRG_eq. run.
    destruct (children _) as [l r] eqn:Ec. rewrite anc_bit by done.
    assert (node k (S i) (anc (S i)) = if Z.odd (anc (S i)) then r else l) as H1.
    { cbn [Pps.node]. by rewrite anc_S, Ec by done. }
    assert (node k (S i) (sib (S i)) = if Z.odd (anc (S i)) then l else r) as H2.
    { cbn [Pps.node]. unfold sib. rewrite sibling_half, sibling_parity, anc_S, Ec by done.
      by destruct (Z.odd _). }
    rewrite tabulate_S, H1, H2, app_assoc. by destruct (Z.odd _).
  - intros [root ks] [_ ->]. done.
Qed.

Lemma live_node d i : live h k = true -> (d < h)%nat -> (i < 2 ^ d)%nat -> node k d (Z.of_nat i) <> 0.
Proof.
  unfold Pps.live. rewrite forallb_forall. intros H Hd Hi.
  specialize (H d ltac:(apply in_seq; lia)). rewrite forallb_forall in H.
  specialize (H i ltac:(apply in_seq; lia)). apply negb_true_iff, Z.eqb_neq in H. done.
Qed.

(** What the expansion of the punctured key holds at level [d]. *)
Definition hidden (d : nat) (j : nat) : Z := if Z.of_nat j =? anc d then 0 else node k d (Z.of_nat j).

Lemma hidden_children d i : live h k = true -> (d < h)%nat -> (i < 2 ^ d)%nat ->
  known_child PrgAesCtr (hidden d i) = Ok (if Z.of_nat i =? anc d then (0, 0) else children (node k d (Z.of_nat i))).
Proof.
  intros Hl Hd Hi. unfold known_child, hidden. destruct (Z.of_nat i =? anc d); [done|].
  rewrite (proj2 (Z.eqb_neq _ _)) by (by apply live_node). apply AESPRG_eq.
Qed.

Lemma sib_range d : (d < h)%nat -> 0 <= sib (S d) < 2 ^ Z.of_nat (S d).
Proof.
  intros Hd. pose proof (anc_range d ltac:(lia)) as Ha. rewrite <- anc_S in Ha by done.
  unfold sib. rewrite sibling_eq, Nat2Z.inj_succ, Z.pow_succ_r by lia.
  destruct (negb _); cbn; lia.
Qed.

Lemma sib_not_anc d : sib d <> anc d.
Proof.
  intros H. pose proof (sibling_parity (anc d)) as Hp. unfold sib in H. rewrite H in Hp.
  by destruct (Z.odd (anc d)).
Qed.

(** Expanding one level and writing the sibling yields the next level. *)
Lemma hidden_S d j : (d < h)%nat ->
  (if bool_decide (Z.of_nat j = sib (S d)) then node k (S d) (sib (S d))
   else if Nat.odd j
     then (if Z.of_nat (j / 2) =? anc d then (0, 0) else children (node k d (Z.of_nat (j / 2)))).2
     else (if Z.of_nat (j / 2) =? anc d then (0, 0) else children (node k d (Z.of_nat (j / 2)))).1)
  = hidden (S d) j.
Proof.
  intros Hd. unfold hidden. case_bool_decide as Hj.
  - rewrite Hj, (proj2 (Z.eqb_neq _ _)) by apply sib_not_anc. done.
  - rewrite node_S, Nat2Z.inj_div. change (Z.of_nat 2) with 2.
    destruct (Z.eqb_spec (Z.of_nat j) (anc (S d))) as [->|Hne].
    + rewrite anc_S, Z.eqb_refl by done. by destruct (Nat.odd j).
    + rewrite (proj2 (Z.eqb_neq _ _)); [done|]. rewrite <- anc_S by done. intros He.
      apply Hj. by apply same_parent.
Qed.

Lemma hidden_level d leaf temp :
  live h k = true -> (d < h)%nat -> length leaf = (2 ^ h)%nat -> length temp = (2 ^ h)%nat ->
  (forall j, (j < 2 ^ d)%nat -> leaf !!! j = hidden d j) ->
  wp ('(leaf_nodes, temp) ← expand_level (known_child PrgAesCtr) d leaf temp;
      s ← vget punc_keys d;
      leaf_nodes ← vsetz leaf_nodes (Z.lxor (Z.shiftr pos (Z.of_nat (h - 1 - d))) 1) s;
      Ok (leaf_nodes, temp))
     (fun '(leaf, temp) => length leaf = (2 ^ h)%nat /\ length temp = (2 ^ h)%nat /\
        forall j, (j < 2 ^ S d)%nat -> leaf !!! j = hidden (S d) j).
Proof.
  intros Hl Hd H1 H2 H3.
  assert (2 * 2 ^ d <= 2 ^ h)%nat as Hpow.
  { change (2 * 2 ^ d)%nat with (2 ^ (S d))%nat. apply Nat.pow_le_mono_r; lia. }
  apply wp_bind. eapply wp_mono.
  { apply (expand_level_spec _ (fun i => if Z.of_nat i =? anc d then (0, 0) else children (node k d (Z.of_nat i))));
      [lia|lia|]. intros i Hi. rewrite H3 by done. by apply hidden_children. }
  intros [leaf' temp'] (L1 & L2 & L3).
  rewrite (vget_total punc_keys d) by (unfold punc_keys; by rewrite length_tabulate). run.
  unfold punc_keys. rewrite tabulate_lookup by done.
  replace (h - 1 - d)%nat with (h - S d)%nat by lia. fold (anc (S d)) (sib (S d)).
  pose proof (sib_range d Hd) as Hr.
  assert (Z.to_nat (sib (S d)) < 2 * 2 ^ d)%nat as Hlt.
  { apply Nat2Z.inj_lt. change (2 * 2 ^ d)%nat with (2 ^ (S d))%nat.
    rewrite Nat2Z.inj_pow, Z2Nat.id by lia. change (Z.of_nat 2) with 2. lia. }
  rewrite vsetz_vset, vset_total by lia. run. rewrite length_insert.
  split_and!; [lia|lia|]. intros j Hj. rewrite <- hidden_S by done. case_bool_decide as Hs'.
  - replace j with (Z.to_nat (sib (S d))) by lia. apply list_lookup_total_insert_eq. lia.
  - rewrite list_lookup_total_insert_ne by lia. by apply L3.
Qed.

Definition punctured_set : gset Z :=
  foldl (fun e i => if Z.of_nat i =? pos then e else {[value p k i]} ∪ e) ∅ (seq 0 (Z.to_nat s)).

Lemma Eval_punc_eq delta :
  live h k = true -> Eval_punc PrgAesCtr (mkPunc punc_keys pos delta) p = Ok punctured_set.
Proof.
  intros Hl. unfold Eval_punc, defined. cbn [pos_ k_]. fold s n. rewrite Depth_eq. run.
  rewrite (proj2 (Z.ltb_lt _ _)) by (pose proof height_lt; lia). run.
  assert (0 < 2 ^ h)%nat as Hp by (apply Nat.neq_0_lt_0, Nat.pow_nonzero; lia).
  rewrite (vset_total (replicate (2 ^ h) 0) 0) by (rewrite length_replicate; lia). run.
  match goal with |- (for_ h ?f ?st ≫= _) = _ =>
    assert (wp (for_ h f st) (fun '(leaf, temp) => length leaf = (2 ^ h)%nat /\ length temp = (2 ^ h)%nat /\
      forall j, (j < 2 ^ h)%nat -> leaf !!! j = hidden h j)) as Hw end.
  { apply (wp_for _ _ (fun d '(leaf, temp) => length leaf = (2 ^ h)%nat /\ length temp = (2 ^ h)%nat /\
      forall j, (j < 2 ^ d)%nat -> leaf !!! j = hidden d j)); [| |by intros [??]].
    - rewrite length_insert, length_replicate. split_and!; try done.
      intros j Hj. change (2 ^ 0)%nat with 1%nat in Hj. assert (j = 0)%nat as -> by lia.
      rewrite list_lookup_total_insert_eq by (rewrite length_replicate; lia).
      unfold hidden. by rewrite anc_0.
    - intros d [leaf temp] Hd (H1 & H2 & H3). by apply hidden_level. }
  apply wp_iff in Hw as ([leaf temp] & -> & Hlen & _ & Hleaf). run.
  unfold punctured_set. pose proof set_size_leaves as Hsl. revert Hsl.
  induction (Z.to_nat s) as [|m IH]; intros Hm; [done|].
  rewrite for_S, IH, seq_S, foldl_app by lia. run. cbn [foldl Nat.add].
  destruct (Z.of_nat m =? pos) eqn:E; [done|].
  rewrite (vget_total leaf m) by lia. run. rewrite Hleaf by lia. unfold hidden. by rewrite anc_h, E.
Qed.

Lemma punctured_set_eq : full k -> punctured_set = pset p k ∖ {[value p k (Z.to_nat pos)]}.
Proof.
  intros Hf. apply set_eq. intros x.
  cut (forall m, (m <= Z.to_nat s)%nat ->
    x ∈ foldl (fun e i => if Z.of_nat i =? pos then e else {[value p k i]} ∪ e) (∅ : gset Z) (seq 0 m) <->
    exists i, (i < m)%nat /\ Z.of_nat i <> pos /\ x = value p k i).
  { intros Hc. unfold punctured_set. rewrite (Hc _ (le_n _)), elem_of_difference, elem_of_singleton.
    unfold Pps.pset. fold s. rewrite elem_of_list_to_set, list_elem_of_In. unfold tabulate.
    rewrite in_map_iff. split.
    - intros (i & Hi & Hne & ->). split; [exists i; split; [done|apply in_seq; lia]|].
      intros He. apply (full_inj k i) in He; [lia|done|done|lia].
    - intros [(i & <- & Hi%in_seq) Hne]. exists i. split_and!; [lia| |done].
      intros He. apply Hne. f_equal. lia. }
  induction m as [|m IH]; intros Hm.
  - cbn. rewrite elem_of_empty. split; [done|]. intros (i & Hi & _). lia.
  - rewrite seq_S, foldl_app. cbn [foldl Nat.add]. destruct (Z.eqb_spec (Z.of_nat m) pos) as [He|Hne].
    + rewrite IH by lia. split; intros (i & Hi & Hne & ->); exists i; (split_and!; [|done|done]).
      * lia.
      * destruct (decide (i = m)) as [->|]; [done|lia].
    + rewrite elem_of_union, elem_of_singleton, IH by lia. split.
      * intros [->|(i & Hi & ? & ->)]; [exists m; split_and!; [lia|done|done]|exists i; split_and!; [lia|done|done]].
      * intros (i & Hi & ? & ->). destruct (decide (i = m)) as [->|]; [by left|right].
        exists i. split_and!; [lia|done|done].
Qed.
End punctured.

(** A key whose map is full punctures at any of its elements, and the
    punctured key expands to the rest. *)
Lemma Punc_total k m x delta :
  inverse k m -> full k -> live h k = true -> x ∈ pset p k ->
  exists pos, 0 <= pos < s /\ Punc PrgAesCtr x k (mkPunc [] 0 delta) (mkPPS m n s)
      = Ok (mkPunc (punc_keys k pos) pos delta) /\
    forall delta', Eval_punc PrgAesCtr (mkPunc (punc_keys k pos) pos delta') p = Ok (pset p k ∖ {[x]}).
Proof.
  intros [Hd Hm] Hf Hl Hx. rewrite <- Hd in Hx. apply elem_of_dom in Hx as [pos Hx].
  destruct (Hm x pos Hx) as [Hpos Hv]. exists pos. split_and!; [lia|lia| |].
  - rewrite (Punc_spec k pos) by done. done.
  - intros delta'. by rewrite Eval_punc_eq, punctured_set_eq, Hv.
Qed.

Lemma EvalMap_full k p' :
  EvalMap PrgAesCtr k p = Ok p' -> Z.of_nat (size (map_ p')) = s ->
  exists m, p' = mkPPS m n s /\ inverse k m /\ full k.
Proof.
  intros He Hsz. pose proof (EvalMap_spec k) as H. rewrite He in H. destruct H as (m & -> & Hi).
  exists m. split_and!; try done. unfold full. cbn [map_] in Hsz. destruct Hi as [<- _].
  by rewrite size_dom.
Qed.
End keyed.

(** What [Gen] returns: a random key whose set is full, and its map. *)
Lemma Gen_ok p lambda rand k p' :
  0 < universe_size_ p <= 2 ^ 63 -> 0 < set_size_ p <= 2 ^ 30 -> (forall i, in_u 128 (rand i)) ->
  Gen PrgAesCtr lambda rand p = Ok (k, p') ->
  exists m, p' = mkPPS m (universe_size_ p) (set_size_ p) /\ inverse p k m /\ full p k /\ in_u 128 k.
Proof.
  intros Hn Hs Hr. unfold Gen. generalize 0%nat as c. revert Hn Hs.
  cut (forall q, universe_size_ q = universe_size_ p -> set_size_ q = set_size_ p ->
    0 < universe_size_ p <= 2 ^ 63 -> 0 < set_size_ p <= 2 ^ 30 -> forall c,
    Gen_from PrgAesCtr (Z.to_nat lambda) c rand q = Ok (k, p') ->
    exists m, p' = mkPPS m (universe_size_ p) (set_size_ p) /\ inverse p k m /\ full p k /\ in_u 128 k).
  { intros H ???. by apply H. }
  induction (Z.to_nat lambda) as [|l IH]; intros q Hqn Hqs Hn Hs c; cbn [Gen_from]; [done|].
  intros (q' & Hq & H)%bind_ok. rewrite <- Hqn in Hn. rewrite <- Hqs in Hs.
  pose proof (EvalMap_spec q Hs (rand c)) as Hw. rewrite Hq in Hw. destruct Hw as (m & -> & Hi).
  cbn [map_ set_size_] in H. destruct (_ =? _) eqn:E.
  - injection H as <- <-. apply Z.eqb_eq in E.
    destruct (EvalMap_full q Hs (rand c) _ Hq E) as (m' & [= <-] & Hi' & Hf).
    exists m. destruct p as [mp np sp], q as [mq nq sq]. cbn in Hqn, Hqs. subst nq sq.
    split_and!; [done|exact Hi|exact Hf|apply Hr].
  - eapply IH; [| |rewrite <- Hqn; exact Hn|rewrite <- Hqs; exact Hs|exact H]; done.
Qed.

(** C21.  A punctured key expands to its set without the punctured element: for
    every key whose map [EvalMap] is full and whose tree has no zero inner node,
    puncturing at any element [x] of its set succeeds and [Eval] of the
    punctured key returns the set minus [x]. *)
Theorem Eval_Punc p p' k x S :
  0 < set_size_ p <= 2 ^ 30 ->
  EvalMap PrgAesCtr k p = Ok p' -> Z.of_nat (size (map_ p')) = set_size_ p ->
  live (Z.to_nat (Z.log2_up (set_size_ p))) k = true ->
  Eval PrgAesCtr k p' = Ok S -> x ∈ S ->
  (sk_punc ← Punc PrgAesCtr x k PIRPuncKey_new p'; Eval_punc PrgAesCtr sk_punc p') = Ok (S ∖ {[x]}).
Proof.
  intros Hs He Hsz Hl HS Hx.
  destruct (EvalMap_full p Hs k p' He Hsz) as (m & -> & Hi & Hf).
  rewrite Eval_eq in HS by done. injection HS as <-. change (pset (mkPPS _ _ _) k) with (pset p k) in *.
  destruct (Punc_total p Hs k m x 0 Hi Hf Hl Hx) as (pos & Hpos & Hp & Hev).
  unfold PIRPuncKey_new. rewrite Hp. run. apply (Hev 0).
Qed.
End expansion.

(** A multiplicative generator to run the definitions on. *)
Definition toy_prg (seed : Z) (n : nat) : list Z :=
  tabulate n (fun i => u128 ((seed + Z.of_nat i + 1) * 0x2360ED051FC65DA44385DF649FCCF645)).

Lemma toy_prg_length s n : length (toy_prg s n) = n.
Proof. apply length_tabulate. Qed.
Lemma toy_prg_range s n : Forall (in_u 128) (toy_prg s n).
Proof. apply Forall_tabulate. intros i _. by apply wrap_range. Qed.

Definition toy_pps : PPS := mkPPS ∅ 16 4.

Lemma Eval_Punc_witness :
  exists p' S, EvalMap toy_prg 11 toy_pps = Ok p' /\ Eval toy_prg 11 p' = Ok S /\ 4 ∈ S /\
  (sk_punc ← Punc toy_prg 4 11 PIRPuncKey_new p'; Eval_punc toy_prg sk_punc p') = Ok (S ∖ {[4]}).
Proof.
  eexists _, _. split; [vm_compute; reflexivity|]. split; [vm_compute; reflexivity|].
  split; [by vm_compute|].
  apply (Eval_Punc toy_prg toy_prg_length toy_pps _ 11); try by vm_compute.
Defined.
