(* ===== verification/PpsPir.v ===== *)
(** * Offline/online PIR from puncturable pseudorandom sets
    (experiment/pir/pps/{client,server,sender,receiver}.{h,cc})

    The single-query scheme: the client sends a key and shifts, the offline
    server answers with the parities of the shifted sets ([Hint]), the online
    server with the parity of one punctured set ([Answer]), and [Reconstruct]
    xors the two.  The multi-query scheme keeps one key and shift per hint and
    replaces the key each query spends.

    Random words are arguments, in the order the code draws them: the stream
    [RandU128] of [Gen], the words behind [GetRandomU64Less], the bit of
    [Bernoulli].  The order in which an [unordered_map] is walked is the
    parameter [map_order]; a [std::set] is walked in increasing order; a
    [dynamic_bitset] is a list of booleans. *)
From S2P Require Import Prelude Pps.

#[export] Instance PIRKeyUnion_inhabited : Inhabited PIRKeyUnion := populate PIRKeyUnion_new.

Record PIRQueryParam := mkParam { j_ : Z; b_ : bool }.
Record PpsPirClient := mkClient { pps_ : PPS; lambda_ : Z; cl_universe : Z; cl_set : Z }.
Record PpsPirServer := mkServer { sv_pps : PPS; sv_universe : Z }.

Definition PpsPirClient_new (lambda universe_size set_size : Z) : res PpsPirClient :=
  pps ← PPS_new universe_size set_size; Ok (mkClient pps lambda universe_size set_size).
Definition PpsPirServer_new (universe_size set_size : Z) : res PpsPirServer :=
  pps ← PPS_new universe_size set_size; Ok (mkServer pps universe_size).

(** [ceil(log(n))] of the natural logarithm, computed in [double] by the
    source: the number of powers [e^0, e^1, ...] strictly below [n], each given
    by its integer part.  [log 0] is an infinity, whose conversion is undefined. *)
Definition exp_floors : list Z :=
  [1; 2; 7; 20; 54; 148; 403; 1096; 2980; 8103; 22026; 59874; 162754; 442413; 1202604; 3269017;
   8886110; 24154952; 65659969; 178482300; 485165195; 1318815734; 3584912846; 9744803446;
   26489122129; 72004899337; 195729609428; 532048240601; 1446257064291; 3931334297144;
   10686474581524; 29048849665247; 78962960182680; 214643579785916; 583461742527454;
   1586013452313430; 4311231547115195; 11719142372802611; 31855931757113756;
   86593400423993746; 235385266837019985; 639843493530054949; 1739274941520501047;
   4727839468229346561; 12851600114359308275].
Definition ceil_log (n : Z) : res Z :=
  _ ← defined (0 <? n);
  Ok (Z.of_nat (length (filter (fun e => e < n) exp_floors))).

Definition M (c : PpsPirClient) : res Z :=
  _ ← defined (negb (cl_set c =? 0));
  let q := cl_universe c / cl_set c in
  let r := cl_universe c mod cl_set c in
  let q := if r =? 0 then q else u64 (q + 1) in
  l ← ceil_log (cl_universe c);
  Ok (u64 (q * l)).
Definition MM (c : PpsPirClient) : res Z :=
  _ ← defined (negb (cl_set c =? 0));
  let n2 := u64 (2 * cl_universe c) in
  let q := n2 / cl_set c in
  let r := n2 mod cl_set c in
  let q := if r =? 0 then q else u64 (q + 1) in
  l ← ceil_log (cl_universe c);
  Ok (u64 (q * l)).

Definition GetRandomU64Less (c : PpsPirClient) (RandU64 : Z) : Z := LemireTrick64 RandU64 (cl_set c).

(** [for (x : set)] on a [std::set]. *)
Definition set_order (s : gset Z) : list Z := merge_sort Z.le (elements s).

Section pir.
Context (PrgAesCtr : Z -> nat -> list Z).
Context (map_order : gmap Z Z -> list (Z * Z)).

(** The loop that collects distinct shifts; at most [max_try_count] turns. *)
Fixpoint pick_deltas (fuel : nat) (m universe i count : Z) (RandU64 : nat -> Z) (deltas : gset Z)
    : Z * gset Z :=
  match fuel with
  | O => (count, deltas)
  | S fuel' =>
      if i <? m then
        let r := LemireTrick64 (RandU64 (Z.to_nat count)) universe in
        if bool_decide (r ∈ deltas) then pick_deltas fuel' m universe i (count + 1) RandU64 deltas
        else pick_deltas fuel' m universe (i + 1) (count + 1) RandU64 ({[r]} ∪ deltas)
      else (count, deltas)
  end.

Definition Setup (c : PpsPirClient) (RandU128 RandU64 : nat -> Z) (deltas : gset Z)
    : res (PpsPirClient * Z * gset Z) :=
  '(sk, pps) ← Gen PrgAesCtr (lambda_ c) RandU128 (pps_ c);
  m ← M c;
  let max_try_count := u64 (10 * m) in
  let '(count, deltas) := pick_deltas (Z.to_nat max_try_count) m (cl_universe c) 0 0 RandU64 deltas in
  _ ← enforce (count <? max_try_count);
  Ok (mkClient pps (lambda_ c) (cl_universe c) (cl_set c), sk, deltas).

(** The first shift that moves [i] into the set, and its index. *)
Fixpoint find_delta (i universe : Z) (map : gmap Z Z) (deltas : list Z) (j : Z) : option (Z * Z) :=
  match deltas with
  | [] => None
  | d :: deltas' =>
      match map !! MODULE_SUB i d universe with
      | Some _ => Some (j, d)
      | None => find_delta i universe map deltas' (j + 1)
      end
  end.

(** [std::next(map.begin(), k)->first]; past the end is undefined. *)
Definition map_next (map : gmap Z Z) (k : Z) : res Z := it ← vgetz (map_order map) k; Ok it.1.

Definition Query (c : PpsPirClient) (i sk : Z) (deltas : gset Z) (sk_punc : PIRPuncKey)
    (r1 : Z) (bern : bool) (r2 : Z) : res (PIRQueryParam * PIRPuncKey) :=
  let map := map_ (pps_ c) in
  '(j, delta) ← match find_delta i (cl_universe c) map (set_order deltas) 0 with
                | Some jd => Ok jd
                | None =>
                    first ← map_next map (GetRandomU64Less c r1);
                    Ok (PIR_ABORT, MODULE_SUB i first (cl_universe c))
                end;
  i_punc ← (if bern then map_next map (GetRandomU64Less c r2)
            else Ok (MODULE_SUB i delta (cl_universe c)));
  sk_punc ← Punc PrgAesCtr i_punc sk (mkPunc (k_ sk_punc) (pos_ sk_punc) delta) (pps_ c);
  Ok (mkParam j bern, sk_punc).

(** The returned word, and the bit [r] the caller passes in. *)
Definition Reconstruct (param : PIRQueryParam) (h : list bool) (a r : bool) : res (Z * bool) :=
  if b_ param || (j_ param =? PIR_ABORT) then Ok (PIR_ABORT, r)
  else hj ← vgetz h (j_ param); Ok (PIR_OK, xorb a hj).

(** *** The server *)

(** [h[j] ^= bits[(value + delta) mod n]] for every value of the set. *)
Definition flip_hint (universe : Z) (bits : list bool) (j : nat) (delta : Z) (set : gset Z) (h : list bool)
    : res (list bool) :=
  for_each (set_order set) (fun value h =>
    x ← vgetz bits (MODULE_ADD value delta universe);
    hj ← vget h j;
    vset h j (xorb hj x)) h.

Definition Hint (sv : PpsPirServer) (k : Z) (deltas : gset Z) (bits : list bool) : res (list bool) :=
  set ← Eval PrgAesCtr k (sv_pps sv);
  '(_, h) ← for_each (set_order deltas) (fun delta '(j, h) =>
    h ← flip_hint (sv_universe sv) bits j delta set h; Ok (S j, h))
    (0%nat, replicate (size deltas) false);
  Ok h.

Definition Answer (sv : PpsPirServer) (sk_punc : PIRPuncKey) (bits : list bool) : res bool :=
  set ← Eval_punc PrgAesCtr sk_punc (sv_pps sv);
  for_each (set_order set) (fun value r =>
    x ← vgetz bits (MODULE_ADD value (delta_ sk_punc) (sv_universe sv)); Ok (xorb r x)) false.

(** *** Multi-query *)
Definition Hint_multi (sv : PpsPirServer) (ck : list PIRKeyUnion) (bits : list bool) : res (list bool) :=
  for_ (length ck) (fun j h =>
    u ← vget ck j;
    set ← Eval PrgAesCtr (key u) (sv_pps sv);
    flip_hint (sv_universe sv) bits j (shift u) set h) (replicate (length ck) false).

Definition AnswerMulti (sv : PpsPirServer) (punc_l punc_r : PIRPuncKey) (bits : list bool) : res (bool * bool) :=
  a_left ← Answer sv punc_l bits;
  same ← (if pos_ punc_l =? pos_ punc_r
          then x ← vget (k_ punc_l) 0; y ← vget (k_ punc_r) 0; Ok (x =? y) else Ok false);
  if (same : bool) then Ok (a_left, a_left)
  else a_right ← Answer sv punc_r bits; Ok (a_left, a_right).

(** The loop that collects keys with full sets; slot [i] is evaluated in place
    and cleared when its set is not full. *)
Fixpoint pick_keys (fuel : nat) (mm i count : Z) (RandU128 : nat -> Z) (pps : PPS)
    (ck : list PIRKeyUnion) (v : list (gset Z)) : res (Z * list PIRKeyUnion * list (gset Z)) :=
  match fuel with
  | O => Ok (count, ck, v)
  | S fuel' =>
      if i <? mm then
        let rand := RandU128 (Z.to_nat count) in
        set ← Eval_unordered PrgAesCtr rand pps;
        if Z.of_nat (size set) =? set_size_ pps
        then v ← vsetz v i set; ck ← vsetz ck i (mkUnion rand 0);
             pick_keys fuel' mm (i + 1) (count + 1) RandU128 pps ck v
        else v ← vsetz v i ∅; pick_keys fuel' mm i (count + 1) RandU128 pps ck v
      else Ok (count, ck, v)
  end.

Definition Setup_multi (c : PpsPirClient) (RandU128 : nat -> Z) (ck : list PIRKeyUnion) (v : list (gset Z))
    : res (list PIRKeyUnion * list (gset Z)) :=
  mm ← MM c;
  let ck := resize (Z.to_nat mm) PIRKeyUnion_new ck in
  let v := resize (Z.to_nat mm) ∅ v in
  let max_try_count := u64 (10 * mm) in
  '(count, ck, v) ← pick_keys (Z.to_nat max_try_count) mm 0 0 RandU128 (pps_ c) ck v;
  _ ← enforce (count <? max_try_count);
  Ok (ck, v).

(** The first hint whose shifted set holds [i]. *)
Fixpoint find_key (i universe : Z) (ck : list PIRKeyUnion) (v : list (gset Z)) (j : nat) : res (option nat) :=
  match ck with
  | [] => Ok None
  | u :: ck' =>
      match v with
      | [] => UB
      | s :: v' =>
          if bool_decide (MODULE_SUB i (shift u) universe ∈ s) then Ok (Some j)
          else find_key i universe ck' v' (S j)
      end
  end.

(** [Query] of the multi-query scheme; the client keeps the last map it
    evaluated. *)
Definition Query_multi (c : PpsPirClient) (i : Z) (ck : list PIRKeyUnion) (v : list (gset Z))
    (punc_l punc_r : PIRPuncKey) (RandU128 : nat -> Z) (r1 : Z) (bern : bool) (r2 : Z)
    : res (PpsPirClient * list PIRKeyUnion * list (gset Z) * PIRQueryParam * PIRPuncKey * PIRPuncKey) :=
  let universe := cl_universe c in
  '(k_new, pps) ← Gen PrgAesCtr (lambda_ c) RandU128 (pps_ c);
  rand_i ← map_next (map_ pps) (GetRandomU64Less c r1);
  let delta_l := MODULE_SUB i rand_i universe in
  '(j, i_punc, k_right, ck, v) ←
    (if bern then
       rand_i ← map_next (map_ pps) (GetRandomU64Less c r2);
       Ok (PIR_ABORT, MODULE_ADD rand_i delta_l universe, PIRKeyUnion_new, ck, v)
     else found ← find_key i universe ck v 0; match found with
       | Some j =>
           k_right ← vget ck j;
           ck ← vset ck j (mkUnion k_new delta_l);
           set ← Eval_unordered PrgAesCtr k_new pps;
           v ← vset v j set;
           Ok (Z.of_nat j, i, k_right, ck, v)
       | None => Ok (PIR_ABORT, i, PIRKeyUnion_new, ck, v)
       end);
  punc_l ← Punc PrgAesCtr (MODULE_SUB i_punc delta_l universe) k_new
             (mkPunc (k_ punc_l) (pos_ punc_l) delta_l) pps;
  '(pps, punc_r) ←
    (if j =? PIR_ABORT then Ok (pps, punc_l)
     else
       pps ← EvalMap PrgAesCtr (key k_right) pps;
       punc_r ← Punc PrgAesCtr (MODULE_SUB i_punc (shift k_right) universe) (key k_right) punc_r pps;
       Ok (pps, mkPunc (k_ punc_r) (pos_ punc_r) (shift k_right)));
  Ok (mkClient pps (lambda_ c) (cl_universe c) (cl_set c), ck, v, mkParam j bern, punc_l, punc_r).

Definition Reconstruct_multi (param : PIRQueryParam) (h : list bool) (a_left a_right r : bool)
    : res (Z * list bool * bool) :=
  if j_ param =? PIR_ABORT then Ok (PIR_ABORT, h, r)
  else
    hj ← vgetz h (j_ param);
    let r := xorb a_right hj in
    h ← vsetz h (j_ param) (xorb a_left r);
    Ok (PIR_OK, h, r).
End pir.

(** ** Messages (sender.cc, receiver.cc) *)
Definition Uint128_to_bytes (sk : Z) : list Z :=
  le_bytes 8 (u64 (Z.shiftr sk 64)) ++ le_bytes 8 (Z.land sk 0xFFFFFFFFFFFFFFFF).
Definition Bytes_to_uint128 (bytes : list Z) : res Z :=
  high ← memcpy_from bytes 0 8;
  low ← memcpy_from bytes 8 8;
  Ok (Z.lor (u128 (Z.shiftl high 64)) low).

Definition SerializeOfflineMessage (sk : Z) (deltas : gset Z) : list Z :=
  foldl (fun buffer delta => buffer ++ le_bytes 8 delta)
    (Uint128_to_bytes sk ++ le_bytes 8 (Z.of_nat (size deltas))) (set_order deltas).
Definition DeserializeOfflineMessage (buffer : list Z) : res (Z * gset Z) :=
  _ ← defined (bool_decide (16 <= length buffer)%nat);
  sk ← Bytes_to_uint128 (take 16 buffer);
  set_size ← memcpy_from buffer 16 8;
  deltas ← for_ (Z.to_nat set_size) (fun i deltas =>
    delta ← memcpy_from buffer (24 + 8 * i) 8;
    Ok ({[delta]} ∪ deltas)) ∅;
  Ok (sk, deltas).

Definition SerializeOnlineMessage (puncKey : PIRPuncKey) : list Z :=
  le_bytes 8 (Z.of_nat (length (k_ puncKey))) ++ concat (map (le_bytes 16) (k_ puncKey))
    ++ le_bytes 8 (pos_ puncKey) ++ le_bytes 8 (delta_ puncKey).
Definition DeserializeOnlineMessage (buffer : list Z) : res PIRPuncKey :=
  k_size ← memcpy_from buffer 0 8;
  k ← for_ (Z.to_nat k_size) (fun i k =>
    w ← memcpy_from buffer (8 + 16 * i) 16; vset k i w) (replicate (Z.to_nat k_size) 0);
  pos ← memcpy_from buffer (8 + 16 * Z.to_nat k_size) 8;
  delta ← memcpy_from buffer (8 + 16 * Z.to_nat k_size + 8) 8;
  Ok (mkPunc k pos delta).

Definition SerializeOfflineMessage_multi (pirKey : list PIRKeyUnion) : list Z :=
  foldl (fun buffer u => buffer ++ le_bytes 16 (key u) ++ le_bytes 8 (shift u))
    (le_bytes 8 (Z.of_nat (length pirKey))) pirKey.
Definition DeserializeOfflineMessage_multi (buffer : list Z) : res (list PIRKeyUnion) :=
  size ← memcpy_from buffer 0 8;
  for_ (Z.to_nat size) (fun i pirKey =>
    k_val ← memcpy_from buffer (8 + 24 * i) 16;
    delta ← memcpy_from buffer (8 + 24 * i + 16) 8;
    vset pirKey i (mkUnion k_val delta)) (replicate (Z.to_nat size) PIRKeyUnion_new).

(** ** Parities *)
Definition bit_at (n : Z) (bits : list bool) (delta x : Z) : bool := bits !!! Z.to_nat (MODULE_ADD x delta n).
Definition parity (n : Z) (bits : list bool) (delta : Z) (set : gset Z) : bool :=
  foldr xorb false (map (bit_at n bits delta) (elements set)).

Lemma foldr_xor_perm (l1 l2 : list bool) : Permutation l1 l2 -> foldr xorb false l1 = foldr xorb false l2.
Proof.
  induction 1 as [|x l1 l2 _ IH|x y l|l1 l2 l3 _ IH1 _ IH2]; cbn; [done|by rewrite IH| |by rewrite IH1].
  by rewrite <- !xorb_assoc, (xorb_comm y).
Qed.

Lemma foldr_xor_app (l1 l2 : list bool) :
  foldr xorb false (l1 ++ l2) = xorb (foldr xorb false l1) (foldr xorb false l2).
Proof. induction l1 as [|x l1 IH]; cbn; [by destruct (foldr _ _ _)|]. by rewrite IH, xorb_assoc. Qed.

Lemma set_order_perm s : Permutation (set_order s) (elements s).
Proof. apply merge_sort_Permutation. Qed.

Lemma set_order_parity n bits delta s :
  foldr xorb false (map (bit_at n bits delta) (set_order s)) = parity n bits delta s.
Proof. apply foldr_xor_perm, Permutation_map, set_order_perm. Qed.

Lemma elem_of_set_order x s : x ∈ set_order s <-> x ∈ s.
Proof. by rewrite set_order_perm, elem_of_elements. Qed.

(** Removing an element takes its bit out of the parity. *)
Lemma parity_remove n bits delta s x :
  x ∈ s -> parity n bits delta s = xorb (bit_at n bits delta x) (parity n bits delta (s ∖ {[x]})).
Proof.
  intros Hx. unfold parity.
  rewrite (foldr_xor_perm (map _ (elements s)) (map (bit_at n bits delta) (x :: elements (s ∖ {[x]})))); [done|].
  apply Permutation_map. rewrite <- elements_union_singleton by set_solver.
  replace ({[x]} ∪ s ∖ {[x]}) with s; [done|]. apply union_difference_singleton_L. done.
Qed.

(** A loop that xors in one bit per element. *)
Lemma for_each_xor (f : Z -> bool) (l : list Z) (body : Z -> bool -> res bool) r :
  (forall x r, x ∈ l -> body x r = Ok (xorb r (f x))) ->
  for_each l body r = Ok (xorb r (foldr xorb false (map f l))).
Proof.
  revert r. induction l as [|x l IH]; intros r H; cbn [for_each foldr map]; [by rewrite xorb_false_r|].
  rewrite H by set_solver. run. rewrite IH by set_solver. by rewrite xorb_assoc.
Qed.

(** ** Correctness *)
Section correctness.
Context (PrgAesCtr : Z -> nat -> list Z).
Hypothesis prg_length : forall s n, length (PrgAesCtr s n) = n.
Hypothesis prg_range : forall s n, Forall (in_u 128) (PrgAesCtr s n).
Context (map_order : gmap Z Z -> list (Z * Z)).
Hypothesis map_order_perm : forall m, Permutation (map_order m) (map_to_list m).
Context (n s : Z) (bits : list bool).
Hypothesis Hn : 0 < n <= 2 ^ 63.
Hypothesis Hs : 0 < s <= 2 ^ 30.
Hypothesis Hbits : n <= Z.of_nat (length bits).

Let P : PPS := mkPPS ∅ n s.
Let sv : PpsPirServer := mkServer P n.
Let height : nat := Z.to_nat (Z.log2_up s).

Abbreviation pset k := (pset PrgAesCtr P k).
Abbreviation parity := (parity n bits).
Abbreviation full := (full PrgAesCtr P).
Abbreviation inverse := (inverse PrgAesCtr P).
Abbreviation live := (live PrgAesCtr height).

Definition inside (set : gset Z) : Prop := forall x, x ∈ set -> 0 <= x < n.

Lemma pset_inside k : in_u 128 k -> inside (pset k).
Proof. intros Hk x Hx. by apply (pset_range PrgAesCtr prg_length prg_range P Hn k). Qed.

Lemma read_bit delta x : 0 <= x < n -> 0 <= delta < n ->
  vgetz bits (MODULE_ADD x delta n) = Ok (bit_at n bits delta x).
Proof.
  intros Hx Hd. pose proof (MODULE_range MODULE_ADD x delta n (or_introl eq_refl) Hx Hd ltac:(lia)).
  rewrite vgetz_vget by lia. apply vget_total. lia.
Qed.

(** Adding the shift to [i - delta] reads the queried bit. *)
Lemma bit_at_sub i delta : 0 <= i < n -> 0 <= delta < n ->
  bit_at n bits delta (MODULE_SUB i delta n) = bits !!! Z.to_nat i.
Proof. intros. unfold bit_at. by rewrite add_sub_cancel by lia. Qed.

Lemma flip_hint_eq j delta set h :
  (j < length h)%nat -> 0 <= delta < n -> inside set ->
  flip_hint n bits j delta set h = Ok (<[j := xorb (h !!! j) (parity delta set)]> h).
Proof.
  intros Hj Hd Hin. unfold flip_hint.
  rewrite <- set_order_parity.
  assert (Forall (fun x => 0 <= x < n) (set_order set)) as Hl
    by (apply Forall_forall; intros x; rewrite elem_of_set_order; apply Hin).
  revert Hl. generalize (set_order set) as l. intros l. revert h Hj.
  induction l as [|x l IH]; intros h Hj Hl; cbn [for_each map foldr].
  - rewrite xorb_false_r, list_insert_id; [done|]. by apply list_lookup_lookup_total_lt.
  - apply Forall_cons in Hl as [Hx Hl].
    rewrite read_bit by done. run. rewrite (vget_total h j) by done. run.
    rewrite vset_total by done. run. rewrite IH by (rewrite ?length_insert; done).
    rewrite list_insert_insert_eq, list_lookup_total_insert_eq by done. by rewrite xorb_assoc.
Qed.

Definition hints (k : Z) (deltas : list Z) : list bool := map (fun d => parity d (pset k)) deltas.

Lemma Hint_eq k deltas : in_u 128 k -> inside deltas ->
  Hint PrgAesCtr sv k deltas bits = Ok (hints k (set_order deltas)).
Proof.
  intros Hk Hd. unfold Hint. cbn [sv_pps sv_universe sv].
  rewrite (Eval_eq PrgAesCtr prg_length P Hs). run.
  assert (size deltas = length (set_order deltas)) as Hsz by (by rewrite set_order_perm).
  rewrite Hsz. assert (forall x, x ∈ set_order deltas -> 0 <= x < n) as Hl
    by (intros x; rewrite elem_of_set_order; apply Hd). clear Hsz Hd.
  cut (wp (for_each (set_order deltas) (fun delta '(j, h) =>
    h ← flip_hint n bits j delta (pset k) h; Ok (S j, h))
    (0%nat, replicate (length (set_order deltas)) false)) (fun '(_, h) => h = hints k (set_order deltas))).
  { intros ([j h] & He & ->)%wp_iff. change (sv_universe sv) with n. by rewrite He. }
  eapply wp_mono.
  - apply (wp_for_each _ _ (fun l1 '(j, h) => j = length l1 /\
      h = hints k l1 ++ replicate (length (set_order deltas) - length l1) false)); [by rewrite Nat.sub_0_r|].
    intros l1 x l2 [j h] Hsplit [-> ->].
    assert (length (set_order deltas) = length l1 + S (length l2))%nat as Hlen
      by (by rewrite Hsplit, length_app).
    assert (length (hints k l1) = length l1) as Hh by apply length_map.
    rewrite flip_hint_eq; [|rewrite length_app, length_replicate; lia|apply Hl; rewrite Hsplit; set_solver|by apply pset_inside].
    run. rewrite length_app. split; [cbn; lia|].
    replace (length (set_order deltas) - length l1)%nat with (S (length l2)) by lia.
    replace (length (set_order deltas) - _)%nat with (length l2) by (cbn; lia).
    cbn [replicate]. unfold hints at 3. rewrite map_app. cbn [map].
    rewrite <- Hh at 1. rewrite insert_app_r_alt, Nat.sub_diag by lia. cbn [list_insert insert].
    rewrite <- Hh at 1. rewrite list_lookup_total_middle by done. rewrite xorb_false_l.
    by rewrite <- app_assoc.
  - intros [j h] [_ ->]. rewrite Nat.sub_diag. cbn [replicate]. by rewrite app_nil_r.
Qed.

Lemma punc_answer_eq sk set :
  Eval_punc PrgAesCtr sk P = Ok set -> inside set -> 0 <= delta_ sk < n ->
  Answer PrgAesCtr sv sk bits = Ok (parity (delta_ sk) set).
Proof.
  intros He Hin Hd. unfold Answer. cbn [sv_pps sv_universe sv]. fold P. rewrite He. run.
  rewrite (for_each_xor (bit_at n bits (delta_ sk))).
  - by rewrite xorb_false_l, set_order_parity.
  - intros x r Hx%elem_of_set_order. rewrite read_bit by auto. done.
Qed.

Lemma map_next_ok k m r : inverse k m -> full k -> 0 <= r < s ->
  exists x, map_next map_order m r = Ok x /\ x ∈ pset k.
Proof.
  intros [Hd _] Hf Hr. unfold map_next. rewrite vgetz_vget by lia.
  assert (Z.to_nat r < length (map_order m))%nat as Hlt.
  { rewrite map_order_perm, length_map_to_list, <- size_dom, Hd.
    unfold Pps.full in Hf. cbn [set_size_ P] in Hf. lia. }
  destruct (lookup_lt_is_Some_2 _ _ Hlt) as [[x q] Hx]. unfold vget. rewrite Hx. run.
  exists x. split; [done|]. rewrite <- Hd. apply list_elem_of_lookup_2 in Hx.
  rewrite map_order_perm, elem_of_map_to_list in Hx. by eapply elem_of_dom_2.
Qed.

(** *** The single-query scheme *)
Lemma pick_deltas_inside rand fuel m i count deltas :
  (forall j, 0 <= rand j < 2 ^ 64) -> inside deltas ->
  inside (pick_deltas fuel m n i count rand deltas).2.
Proof.
  intros Hr. revert i count deltas. induction fuel as [|fuel IH]; intros i count deltas Hd; cbn [pick_deltas]; [done|].
  destruct (i <? m); [|done]. case_bool_decide; [by apply IH|]. apply IH.
  intros x [->%elem_of_singleton|Hx]%elem_of_union; [|by apply Hd].
  apply LemireTrick64_range; [done|lia].
Qed.

Definition client (m : gmap Z Z) (lambda : Z) : PpsPirClient := mkClient (mkPPS m n s) lambda n s.

Lemma Setup_ok m0 lambda RandU128 RandU64 c sk deltas :
  (forall j, in_u 128 (RandU128 j)) -> (forall j, 0 <= RandU64 j < 2 ^ 64) ->
  Setup PrgAesCtr (client m0 lambda) RandU128 RandU64 ∅ = Ok (c, sk, deltas) ->
  exists m, c = client m lambda /\ inverse sk m /\ full sk /\ in_u 128 sk /\ inside deltas.
Proof.
  intros Hr1 Hr2. unfold Setup. cbn [lambda_ pps_ cl_universe cl_set client].
  intros ([sk' pps] & Hg & H)%bind_ok. apply bind_ok in H as (mm & Hm & H).
  destruct (Gen_ok PrgAesCtr prg_length (mkPPS m0 n s) lambda RandU128 sk' pps Hn Hs Hr1 Hg) as (m & -> & Hi & Hf & Hk).
  pose proof (pick_deltas_inside RandU64 (Z.to_nat (u64 (10 * mm))) mm 0 0 ∅ Hr2 ltac:(intros x; by rewrite elem_of_empty)) as Hd.
  destruct (pick_deltas _ _ _ _ _ _ _) as [count ds]. inv_ok. exists m. done.
Qed.

Lemma find_delta_spec i m l j0 :
  match find_delta i n m l j0 with
  | Some (j, d) => exists k, l !! k = Some d /\ j = j0 + Z.of_nat k /\ MODULE_SUB i d n ∈ dom m
  | None => forall d, d ∈ l -> MODULE_SUB i d n ∉ dom m
  end.
Proof.
  revert j0. induction l as [|d l IH]; intros j0; cbn [find_delta]; [by intros d ?%elem_of_nil|].
  destruct (m !! MODULE_SUB i d n) as [q|] eqn:E.
  - exists 0%nat. split_and!; [done|lia|by eapply elem_of_dom_2].
  - specialize (IH (j0 + 1)). destruct (find_delta _ _ _ _ _) as [[j d']|].
    + destruct IH as (k & ? & -> & ?). exists (S k). split_and!; [done|lia|done].
    + intros d' [->|Hd]%elem_of_cons; [by apply not_elem_of_dom|by apply IH].
Qed.

(** What a query sends: a punctured key at a shift that is either the one of
    hint [j], punctured at the queried index, or a fresh one. *)
Lemma Query_ok i sk deltas m lambda r1 bern r2 :
  0 <= i < n -> inverse sk m -> full sk -> in_u 128 sk -> live sk = true -> inside deltas ->
  0 <= r1 < 2 ^ 64 -> 0 <= r2 < 2 ^ 64 ->
  wp (Query PrgAesCtr map_order (client m lambda) i sk deltas PIRPuncKey_new r1 bern r2) (fun '(param, punc) =>
    b_ param = bern /\ 0 <= delta_ punc < n /\
    exists x, x ∈ pset sk /\ Eval_punc PrgAesCtr punc P = Ok (pset sk ∖ {[x]}) /\
    ((exists k, set_order deltas !! k = Some (delta_ punc) /\ j_ param = Z.of_nat k /\
        (bern = false -> x = MODULE_SUB i (delta_ punc) n)) \/
     (j_ param = PIR_ABORT /\ forall d, d ∈ deltas -> MODULE_SUB i d n ∉ pset sk))).
Proof.
  intros Hi Hinv Hf Hk Hl Hd Hr1 Hr2. unfold Query. cbn [client pps_ map_ cl_universe].
  assert (forall r, 0 <= r < 2 ^ 64 -> 0 <= GetRandomU64Less (client m lambda) r < s) as Hless
    by (intros r Hr; apply LemireTrick64_range; [done|cbn [client cl_set]; lia]).
  assert (forall r, 0 <= r < 2 ^ 64 -> exists x, map_next map_order m (GetRandomU64Less (client m lambda) r) = Ok x
    /\ x ∈ pset sk) as Hnext by (intros r Hr; apply map_next_ok; auto).
  (* the shift *)
  apply wp_bind. eapply wp_mono with (Q := fun '(j, delta) => 0 <= delta < n /\ MODULE_SUB i delta n ∈ pset sk /\
    ((exists k, set_order deltas !! k = Some delta /\ j = Z.of_nat k) \/
     (j = PIR_ABORT /\ forall d, d ∈ deltas -> MODULE_SUB i d n ∉ pset sk))).
  { pose proof (find_delta_spec i m (set_order deltas) 0) as Hfind. pose proof (proj1 Hinv) as Hdom.
    destruct (find_delta _ _ _ _ _) as [[j d]|].
    - destruct Hfind as (k & Hkk & -> & Hdm). cbn [wp]. rewrite Hdom in Hdm. split_and!; [| |done|].
      1,2: apply Hd, elem_of_set_order; by eapply list_elem_of_lookup_2.
      left. eauto.
    - destruct (Hnext r1 Hr1) as (x & Hx & Hin). rewrite Hx. run.
      pose proof (pset_inside sk Hk x Hin) as Hxr. split_and!.
      1,2: apply MODULE_range; [by right|lia|lia|lia].
      + by rewrite sub_sub_cancel by lia.
      + right. split; [done|]. intros d Hdd. rewrite <- Hdom. apply Hfind. by apply elem_of_set_order. }
  intros [j delta] (Hdr & Hsub & Hcase). run.
  (* the puncture *)
  apply wp_bind. eapply wp_mono with (Q := fun x => x ∈ pset sk /\ (bern = false -> x = MODULE_SUB i delta n)).
  { destruct bern; [|done]. destruct (Hnext r2 Hr2) as (x & -> & Hin). done. }
  intros x [Hx Hxi].
  destruct (Punc_total PrgAesCtr prg_length P Hs sk m x delta Hinv Hf Hl Hx) as (pos & Hpos & Hp & Hev).
  cbn [k_ pos_ PIRPuncKey_new]. change (universe_size_ P) with n in Hp. change (set_size_ P) with s in Hp.
  rewrite Hp. run. cbn [b_ j_ delta_]. split_and!; [done|lia|lia|].
  exists x. split_and!; [done|apply Hev|]. destruct Hcase as [(k & ? & ->)|?]; [left; eauto|by right].
Qed.

Lemma inside_size deltas : inside deltas -> Z.of_nat (size deltas) <= n.
Proof.
  intros Hd. assert (deltas ⊆ (list_to_set (seqZ 0 n) : gset Z)) as Hsub%subseteq_size.
  { intros x Hx%Hd. rewrite elem_of_list_to_set, elem_of_seqZ. lia. }
  rewrite size_list_to_set, length_seqZ in Hsub by apply NoDup_seqZ. lia.
Qed.

Lemma set_order_lt deltas k d : inside deltas -> set_order deltas !! k = Some d -> Z.of_nat k < PIR_ABORT.
Proof.
  intros Hd Hk%lookup_lt_Some. rewrite set_order_perm in Hk. change (length (elements deltas)) with (size deltas) in Hk.
  pose proof (inside_size deltas Hd). unfold PIR_ABORT. lia.
Qed.

(** C12.  A single-query exchange returns the queried bit or aborts: after a
    setup that returned a [live] key, for every index, database of at least [n] bits and
    random words, the offline hint, the query, the online answer and the
    reconstruction all return; the result is the queried bit unless the coin
    told the client to hide it or no shift moves the index into the set. *)
Theorem single_query_correct m0 lambda RandU128 RandU64 c sk deltas i r1 bern r2 r0 :
  (forall j, in_u 128 (RandU128 j)) -> (forall j, 0 <= RandU64 j < 2 ^ 64) ->
  Setup PrgAesCtr (client m0 lambda) RandU128 RandU64 ∅ = Ok (c, sk, deltas) ->
  live sk = true -> 0 <= i < n -> 0 <= r1 < 2 ^ 64 -> 0 <= r2 < 2 ^ 64 ->
  wp (h ← Hint PrgAesCtr sv sk deltas bits;
      '(param, punc) ← Query PrgAesCtr map_order c i sk deltas PIRPuncKey_new r1 bern r2;
      a ← Answer PrgAesCtr sv punc bits;
      Reconstruct param h a r0)
     (fun '(ret, r) =>
        (bern = false /\ ret = PIR_OK /\ bits !! Z.to_nat i = Some r) \/
        (ret = PIR_ABORT /\ r = r0 /\
          (bern = true \/ forall d, d ∈ deltas -> MODULE_SUB i d n ∉ pset sk))).
Proof.
  intros HR1 HR2 HS Hl Hi Hr1 Hr2.
  destruct (Setup_ok _ _ _ _ _ _ _ HR1 HR2 HS) as (m & -> & Hinv & Hf & Hk & Hd).
  rewrite Hint_eq by done. run. apply wp_bind.
  eapply wp_mono; [by apply Query_ok|].
  intros [param punc] (Hb & Hdr & x & Hx & Hev & Hcase).
  rewrite (punc_answer_eq punc _ Hev) by (try done; intros y Hy; apply (pset_inside sk Hk); set_solver +Hy).
  run. unfold Reconstruct. rewrite Hb. destruct bern; cbn [orb]; [by right; auto|].
  destruct Hcase as [(k & Hkk & -> & Hxi)|[-> Hno]]; [|rewrite Z.eqb_refl; right; auto].
  pose proof (set_order_lt _ _ _ Hd Hkk). rewrite (proj2 (Z.eqb_neq _ _)) by lia.
  rewrite vgetz_vget, Nat2Z.id by lia. unfold hints, vget. rewrite lookup_map, Hkk. run.
  left. split_and!; try done. rewrite (parity_remove _ _ _ _ x Hx), (Hxi eq_refl), bit_at_sub by lia.
  rewrite xorb_comm, xorb_assoc, xorb_nilpotent, xorb_false_r.
  apply list_lookup_lookup_total_lt. lia.
Qed.

(** *** The multi-query scheme *)

(** Slot [j] of the client's state: a key with a full set, its set, and the
    parity of the database over the set shifted by [shift]. *)
Definition slot_ok (u : PIRKeyUnion) (set : gset Z) (b : bool) : Prop :=
  set = pset (key u) /\ full (key u) /\ in_u 128 (key u) /\ 0 <= shift u < n /\
  b = parity (shift u) (pset (key u)).
Definition hint_ok (ck : list PIRKeyUnion) (v : list (gset Z)) (h : list bool) : Prop :=
  length v = length ck /\ length h = length ck /\
  forall j, (j < length ck)%nat -> slot_ok (ck !!! j) (v !!! j) (h !!! j).

Lemma find_key_spec i ck v j0 :
  length v = length ck ->
  exists r, find_key i n ck v j0 = Ok r /\
  match r with
  | Some j => exists k, j = (j0 + k)%nat /\ (k < length ck)%nat /\ MODULE_SUB i (shift (ck !!! k)) n ∈ v !!! k
  | None => forall k, (k < length ck)%nat -> MODULE_SUB i (shift (ck !!! k)) n ∉ v !!! k
  end.
Proof.
  revert v j0. induction ck as [|u ck IH]; intros v j0 Hl; [exists None; split; [done|cbn; lia]|].
  destruct v as [|set v]; [done|]. cbn [find_key]. case_bool_decide as Hin.
  - exists (Some j0). split; [done|]. exists 0%nat. split_and!; [lia|cbn; lia|done].
  - destruct (IH v (S j0)) as (r & Hr & Hspec); [by injection Hl|]. exists r. split; [done|].
    destruct r as [j|].
    + destruct Hspec as (k & -> & Hk & Hkin). exists (S k). split_and!; [lia|cbn; lia|done].
    + intros [|k] Hk; [done|]. apply Hspec. cbn in Hk. lia.
Qed.

(** Two keys whose first-level seeds differ are told apart by [AnswerMulti]. *)
Definition apart (k1 k2 : Z) : Prop :=
  node PrgAesCtr k1 1 0 <> node PrgAesCtr k2 1 0 /\ node PrgAesCtr k1 1 1 <> node PrgAesCtr k2 1 1.

Lemma height_pos : 2 <= s -> (0 < height)%nat.
Proof. intros H. unfold height. pose proof (Z.log2_up_pos s ltac:(lia)). lia. Qed.

Lemma first_key k pos : 2 <= s ->
  vget (punc_keys PrgAesCtr P k pos) 0 = Ok (node PrgAesCtr k 1 (sib P pos 1)).
Proof.
  intros H%height_pos. unfold punc_keys. change (set_size_ P) with s. fold height.
  rewrite (vget_total _ 0) by (by rewrite length_tabulate). by rewrite tabulate_lookup.
Qed.

Lemma first_key_apart k1 k2 pos : 2 <= s -> 0 <= pos < s -> apart k1 k2 ->
  node PrgAesCtr k1 1 (sib P pos 1) <> node PrgAesCtr k2 1 (sib P pos 1).
Proof.
  intros H Hpos [H0 H1]. pose proof (sib_range P Hs pos Hpos 0 (height_pos H)) as Hr.
  change (2 ^ Z.of_nat 1) with 2 in Hr.
  assert (sib P pos 1 = 0 \/ sib P pos 1 = 1) as [-> | ->] by lia; done.
Qed.

(** Punctures of different keys, and of one key, answered by the server. *)
Lemma AnswerMulti_apart k1 k2 pos1 pos2 d1 d2 set1 set2 :
  2 <= s -> 0 <= pos1 < s -> apart k1 k2 -> 0 <= d1 < n -> 0 <= d2 < n -> inside set1 -> inside set2 ->
  Eval_punc PrgAesCtr (mkPunc (punc_keys PrgAesCtr P k1 pos1) pos1 d1) P = Ok set1 ->
  Eval_punc PrgAesCtr (mkPunc (punc_keys PrgAesCtr P k2 pos2) pos2 d2) P = Ok set2 ->
  AnswerMulti PrgAesCtr sv (mkPunc (punc_keys PrgAesCtr P k1 pos1) pos1 d1)
    (mkPunc (punc_keys PrgAesCtr P k2 pos2) pos2 d2) bits = Ok (parity d1 set1, parity d2 set2).
Proof.
  intros H Hp1 Hap Hd1 Hd2 Hi1 Hi2 E1 E2. unfold AnswerMulti. cbn [pos_ k_].
  rewrite (punc_answer_eq _ set1 E1), (punc_answer_eq _ set2 E2) by done. run. cbn [delta_].
  destruct (Z.eqb_spec pos1 pos2) as [<-|]; [|done].
  rewrite !first_key by done. run. rewrite (proj2 (Z.eqb_neq _ _)) by (by apply first_key_apart). done.
Qed.

Lemma AnswerMulti_same k1 pos1 d1 set1 :
  2 <= s -> 0 <= d1 < n -> inside set1 ->
  Eval_punc PrgAesCtr (mkPunc (punc_keys PrgAesCtr P k1 pos1) pos1 d1) P = Ok set1 ->
  AnswerMulti PrgAesCtr sv (mkPunc (punc_keys PrgAesCtr P k1 pos1) pos1 d1)
    (mkPunc (punc_keys PrgAesCtr P k1 pos1) pos1 d1) bits = Ok (parity d1 set1, parity d1 set1).
Proof.
  intros H Hd1 Hi1 E1. unfold AnswerMulti. cbn [pos_ k_].
  rewrite (punc_answer_eq _ set1 E1) by done. run. cbn [delta_].
  rewrite Z.eqb_refl, !first_key by done. run. by rewrite Z.eqb_refl.
Qed.

(** [Hint] of the multi-query scheme fills every slot. *)
Lemma Hint_multi_eq ck :
  (forall j, (j < length ck)%nat -> in_u 128 (key (ck !!! j)) /\ 0 <= shift (ck !!! j) < n) ->
  Hint_multi PrgAesCtr sv ck bits = Ok (tabulate (length ck) (fun j => parity (shift (ck !!! j)) (pset (key (ck !!! j))))).
Proof.
  intros Hck. unfold Hint_multi. cbn [sv_pps sv_universe sv].
  match goal with |- for_ ?m ?f ?st = _ => cut (wp (for_ m f st) (fun h =>
    h = tabulate (length ck) (fun j => parity (shift (ck !!! j)) (pset (key (ck !!! j)))))) end.
  { by intros (h & -> & ->)%wp_iff. }
  apply (wp_for_fill _ _ (fun j => parity (shift (ck !!! j)) (pset (key (ck !!! j))))).
  - by rewrite length_replicate.
  - intros j h Hj Hl Hh. destruct (Hck j Hj) as [Hk Hd]. rewrite (vget_total ck j) by done. run.
    fold P. rewrite (Eval_eq PrgAesCtr prg_length P Hs). run.
    rewrite length_replicate in Hl. rewrite lookup_total_replicate_lt in Hh by done.
    change (sv_universe (mkServer P n)) with n.
    rewrite flip_hint_eq by (try lia; by apply pset_inside). by rewrite Hh, xorb_false_l.
  - intros h Hl H1 _. rewrite length_replicate in Hl. by apply eq_tabulate.
Qed.

Lemma hint_ok_refresh ck v h j u set b :
  hint_ok ck v h -> (j < length ck)%nat -> slot_ok u set b -> hint_ok (<[j := u]> ck) (<[j := set]> v) (<[j := b]> h).
Proof.
  intros (Hv & Hh & Hall) Hj Hs'. split_and!; [by rewrite !length_insert..|].
  intros j' Hj'. rewrite length_insert in Hj'. destruct (decide (j' = j)) as [->|Hne].
  - by rewrite !list_lookup_total_insert_eq by lia.
  - rewrite !list_lookup_total_insert_ne by done. by apply Hall.
Qed.

Lemma xorb_twice a b : xorb a (xorb a b) = b.
Proof. by destruct a, b. Qed.

(** The two answers recover the bit and the parity of the fresh slot. *)
Lemma unmask i delta set x :
  0 <= i < n -> 0 <= delta < n -> x ∈ set -> x = MODULE_SUB i delta n ->
  xorb (parity delta (set ∖ {[x]})) (bits !!! Z.to_nat i) = parity delta set.
Proof.
  intros Hi Hd Hx ->. rewrite (parity_remove _ _ _ _ _ Hx), bit_at_sub by lia. apply xorb_comm.
Qed.

(** What [Gen] and the draw behind [GetRandomU64Less] give a query. *)
Lemma fresh_shift i x : 0 <= i < n -> 0 <= x < n ->
  0 <= MODULE_SUB i x n < n /\ MODULE_SUB i (MODULE_SUB i x n) n = x.
Proof. intros Hi Hx. split; [apply MODULE_range; [by right|lia..]|by rewrite sub_sub_cancel by lia]. Qed.

(** The reconstruction of a query answered from slot [j] with old key [u]. *)
Lemma Reconstruct_multi_slot ck v h j u k_new d i bern r0 :
  hint_ok ck v h -> (j < length ck)%nat -> Z.of_nat (length ck) < PIR_ABORT -> u = ck !!! j ->
  0 <= i < n -> 0 <= d < n -> full k_new -> in_u 128 k_new ->
  MODULE_SUB i d n ∈ pset k_new -> MODULE_SUB i (shift u) n ∈ pset (key u) ->
  wp (Reconstruct_multi (mkParam (Z.of_nat j) bern) h (parity d (pset k_new ∖ {[MODULE_SUB i d n]}))
        (parity (shift u) (pset (key u) ∖ {[MODULE_SUB i (shift u) n]})) r0)
     (fun '(ret, h', r) => hint_ok (<[j := mkUnion k_new d]> ck) (<[j := pset k_new]> v) h' /\
        ret = PIR_OK /\ bits !! Z.to_nat i = Some r).
Proof.
  intros Hok Hj Hlen -> Hi Hd Hf Hk Hx Hxu. pose proof Hok as (Hv & Hh & Hall).
  destruct (Hall j Hj) as (_ & _ & _ & Hdu & Hb).
  unfold Reconstruct_multi. cbn [j_]. rewrite (proj2 (Z.eqb_neq _ _)) by lia.
  rewrite vgetz_vget, Nat2Z.id, (vget_total h j) by lia. run.
  rewrite vsetz_vset, Nat2Z.id, vset_total by lia. run.
  rewrite Hb, <- (unmask i (shift (ck !!! j)) _ _ Hi Hdu Hxu eq_refl).
  rewrite xorb_twice, (unmask i d _ _ Hi Hd Hx eq_refl).
  split_and!; [|done|apply list_lookup_lookup_total_lt; lia].
  apply hint_ok_refresh; [done|done|]. exact (conj eq_refl (conj Hf (conj Hk (conj Hd eq_refl)))).
Qed.

(** C13.  A multi-query exchange returns the queried bit or aborts, and keeps the
    hints: for sets of two elements or more, from a state in which every slot
    holds the parity of its shifted set, once [Gen] found a fresh key, all keys
    [live] and the fresh one [apart] from the others, the query, the online answers and the
    reconstruction return; the new state again holds the parity of every slot,
    the spent key replaced, and the result is the queried bit unless the coin
    hid it or no slot covers the index, in which case nothing changed. *)
Theorem multi_query_correct m0 lambda ck v h i RandU128 r1 bern r2 r0 k_new pps :
  hint_ok ck v h -> Z.of_nat (length ck) < PIR_ABORT -> 2 <= s ->
  (forall j, in_u 128 (RandU128 j)) -> Gen PrgAesCtr lambda RandU128 (mkPPS m0 n s) = Ok (k_new, pps) ->
  live k_new = true -> (forall j, (j < length ck)%nat -> live (key (ck !!! j)) = true /\ apart k_new (key (ck !!! j))) ->
  0 <= i < n -> 0 <= r1 < 2 ^ 64 -> 0 <= r2 < 2 ^ 64 ->
  wp ('(c', ck', v', param, punc_l, punc_r) ← Query_multi PrgAesCtr map_order (client m0 lambda) i ck v
        PIRPuncKey_new PIRPuncKey_new RandU128 r1 bern r2;
      '(a_left, a_right) ← AnswerMulti PrgAesCtr sv punc_l punc_r bits;
      '(ret, h', r) ← Reconstruct_multi param h a_left a_right r0;
      Ok (ck', v', ret, h', r))
     (fun '(ck', v', ret, h', r) => hint_ok ck' v' h' /\
        ((bern = false /\ ret = PIR_OK /\ bits !! Z.to_nat i = Some r) \/
         (ret = PIR_ABORT /\ r = r0 /\ ck' = ck /\ v' = v /\ h' = h /\
           (bern = true \/ forall j, (j < length ck)%nat -> MODULE_SUB i (shift (ck !!! j)) n ∉ pset (key (ck !!! j)))))).
Proof.
  intros Hok Hlen Hs2 HR HG Hl Hck Hi Hr1 Hr2.
  destruct (Gen_ok PrgAesCtr prg_length (mkPPS m0 n s) lambda RandU128 k_new pps Hn Hs HR HG) as (m & -> & Hinv & Hf & Hk).
  cbn [universe_size_ set_size_] in HG.
  assert (forall r, 0 <= r < 2 ^ 64 -> exists x, map_next map_order m (GetRandomU64Less (client m0 lambda) r) = Ok x
    /\ x ∈ pset k_new /\ 0 <= x < n) as Hnext.
  { intros r Hr. destruct (map_next_ok k_new m (GetRandomU64Less (client m0 lambda) r) Hinv Hf) as (x & ? & Hx);
      [apply LemireTrick64_range; [done|cbn; lia]|]. exists x. split_and!; [done|done|by apply (pset_inside k_new Hk)..]. }
  assert (forall k, in_u 128 k -> forall x, inside (pset k ∖ {[x]})) as Hins
    by (intros k Hk' x y Hy; apply (pset_inside k Hk'); set_solver +Hy).
  unfold Query_multi. cbn [client lambda_ pps_ cl_universe cl_set]. rewrite HG. run. cbn [map_].
  destruct (Hnext r1 Hr1) as (x1 & -> & Hx1 & Hx1r). run.
  destruct (fresh_shift i x1 Hi Hx1r) as [Hd Hdx]. set (d := MODULE_SUB i x1 n) in *.
  (* a query that spends no slot *)
  assert (forall x, x ∈ pset k_new -> exists pos, 0 <= pos < s /\
    Punc PrgAesCtr x k_new (mkPunc [] 0 d) (mkPPS m n s) = Ok (mkPunc (punc_keys PrgAesCtr P k_new pos) pos d) /\
    Eval_punc PrgAesCtr (mkPunc (punc_keys PrgAesCtr P k_new pos) pos d) P = Ok (pset k_new ∖ {[x]})) as Hpl.
  { intros x Hx. destruct (Punc_total PrgAesCtr prg_length P Hs k_new m x d Hinv Hf Hl Hx) as (pos & Hp & Hpp & Hev).
    exists pos. split; [exact Hp|]. split; [exact Hpp|apply Hev]. }
  destruct bern.
  - destruct (Hnext r2 Hr2) as (x2 & -> & Hx2 & Hx2r). run. rewrite sub_add_cancel by lia.
    destruct (Hpl x2 Hx2) as (pos & Hp & Hpp & Hev). cbn [k_ pos_ PIRPuncKey_new]. rewrite Hpp. run. rewrite Z.eqb_refl. run.
    rewrite (AnswerMulti_same _ _ _ _ Hs2 Hd (Hins _ Hk x2) Hev). run. split; [done|]. right. by auto 10.
  - pose proof Hok as (Hv & _ & Hall). destruct (find_key_spec i ck v 0 Hv) as (r & -> & Hfind). run.
    rewrite <- Hdx in Hx1. destruct r as [j|].
    + destruct Hfind as (j' & -> & Hj & Hxu). cbn [Nat.add]. rewrite (vget_total ck j'), vset_total by done. run.
      rewrite (Eval_unordered_eq PrgAesCtr prg_length (mkPPS m n s) Hs). run. rewrite vset_total by lia. run.
      destruct (Hpl _ Hx1) as (pos & Hp & Hpp & Hev). cbn [k_ pos_ PIRPuncKey_new]. rewrite Hpp. run.
      rewrite (proj2 (Z.eqb_neq _ _)) by lia. destruct (Hall j' Hj) as (Hvj & Hfj & Hkj & Hdj & _).
      destruct (Hck j' Hj) as [Hlj Hapj]. rewrite Hvj in Hxu.
      pose proof (EvalMap_spec PrgAesCtr prg_length (mkPPS m n s) Hs (key (ck !!! j'))) as (pps & -> & mj & -> & Hinvj)%wp_iff. run.
      destruct (Punc_total PrgAesCtr prg_length P Hs _ mj _ 0 Hinvj Hfj Hlj Hxu) as (posj & Hpj & Hppj & Hevj).
      change (universe_size_ P) with n in Hppj. change (set_size_ P) with s in Hppj.
      change (universe_size_ (mkPPS m n s)) with n. change (set_size_ (mkPPS m n s)) with s. change PIRPuncKey_new with (mkPunc [] 0 0). rewrite Hppj. run.
      cbn [k_ pos_]. rewrite (AnswerMulti_apart _ _ _ _ _ _ _ _ Hs2 Hp Hapj Hd Hdj (Hins _ Hk _) (Hins _ Hkj _) Hev (Hevj _)). run.
      apply wp_bind. eapply wp_mono; [by apply (Reconstruct_multi_slot ck v h j' _ k_new d i)|].
      intros [[ret h'] r] (Hok' & -> & Hr). run. split; [exact Hok'|]. by left.
    + run. destruct (Hpl _ Hx1) as (pos & Hp & Hpp & Hev). cbn [k_ pos_ PIRPuncKey_new]. rewrite Hpp. run. rewrite Z.eqb_refl. run.
      rewrite (AnswerMulti_same _ _ _ _ Hs2 Hd (Hins _ Hk _) Hev). run. split; [done|]. right.
      split_and!; try done. right. intros j Hj. destruct (Hall j Hj) as (<- & _). by apply Hfind.
Qed.

(** *** The multi-query setup *)
Definition key_slot (u : PIRKeyUnion) (set : gset Z) : Prop :=
  set = pset (key u) /\ full (key u) /\ in_u 128 (key u) /\ shift u = 0.

Lemma pick_keys_ok m0 rand mm fuel i count ck v :
  (forall j, in_u 128 (rand j)) -> 0 <= i <= mm -> length ck = Z.to_nat mm -> length v = Z.to_nat mm ->
  (forall j, (j < Z.to_nat i)%nat -> key_slot (ck !!! j) (v !!! j)) ->
  wp (pick_keys PrgAesCtr fuel mm i count rand (mkPPS m0 n s) ck v) (fun '(count', ck', v') =>
    length ck' = Z.to_nat mm /\ length v' = Z.to_nat mm /\
    (count' < count + Z.of_nat fuel -> forall j, (j < Z.to_nat mm)%nat -> key_slot (ck' !!! j) (v' !!! j))).
Proof.
  intros Hr. revert i count ck v. induction fuel as [|fuel IH]; intros i count ck v Hi Hck Hv Hj; cbn [pick_keys].
  - split_and!; try done. lia.
  - destruct (Z.ltb_spec i mm) as [Hlt|Hge].
    2:{ split_and!; try done. intros _ j Hjm. apply Hj. lia. }
    rewrite (Eval_unordered_eq PrgAesCtr prg_length (mkPPS m0 n s) Hs). run. cbn [set_size_].
    set (k := rand (Z.to_nat count)). change (Pps.pset PrgAesCtr (mkPPS m0 n s) k) with (pset k).
    destruct (_ =? s) eqn:E.
    + rewrite vsetz_vset, vset_total by lia. run. rewrite vsetz_vset, vset_total by lia. run.
      eapply wp_mono; [apply (IH (i + 1)); rewrite ?length_insert; try done; try lia|].
      * intros j Hji. destruct (decide (j = Z.to_nat i)) as [->|].
        -- rewrite !list_lookup_total_insert_eq by lia. split_and!; [done|by apply Z.eqb_eq|apply Hr..|done].
        -- rewrite !list_lookup_total_insert_ne by done. apply Hj. lia.
      * intros [[count' ck'] v'] (? & ? & Hfin). split_and!; try done. intros; apply Hfin; lia.
    + rewrite vsetz_vset, vset_total by lia. run.
      eapply wp_mono; [apply (IH i); rewrite ?length_insert; try done; try lia|].
      * intros j Hji. rewrite !list_lookup_total_insert_ne by lia. by apply Hj.
      * intros [[count' ck'] v'] (? & ? & Hfin). split_and!; try done. intros; apply Hfin; lia.
Qed.

(** The multi-query setup establishes the hints: when [Setup] returned, the
    server's [Hint] on its keys returns, and every slot holds the parity of the
    set of its key, which is full. *)
Theorem multi_setup_correct m0 lambda rand ck v :
  (forall j, in_u 128 (rand j)) ->
  Setup_multi PrgAesCtr (client m0 lambda) rand [] [] = Ok (ck, v) ->
  wp (Hint_multi PrgAesCtr sv ck bits) (hint_ok ck v).
Proof.
  intros Hr H. unfold Setup_multi in H. apply bind_ok in H as (mm & Hmm & H).
  cbv zeta in H. apply bind_ok in H as ([[count ck'] v'] & Hpick & H).
  inv_ok. match goal with H : (_ <? _) = true |- _ => apply Z.ltb_lt in H; rename H into Hlt end.
  assert (0 <= mm) as Hmm0.
  { unfold MM in Hmm. inv_ok. match goal with |- 0 <= u64 ?x => pose proof (u64_range x); lia end. }
  pose proof (pick_keys_ok m0 rand mm (Z.to_nat (u64 (10 * mm))) 0 0
    (resize (Z.to_nat mm) PIRKeyUnion_new []) (resize (Z.to_nat mm) ∅ []) Hr ltac:(lia)) as Hp.
  cbn [client pps_] in Hpick. rewrite Hpick in Hp.
  destruct Hp as (Hlc & Hlv & Hall).
  1,2: unfold resize; rewrite length_app, length_take, length_replicate; cbn; lia.
  1: cbn; lia.
  rewrite Z2Nat.id in Hall by apply u64_range. specialize (Hall ltac:(lia)).
  rewrite Hint_multi_eq; [|intros j Hj; destruct (Hall j ltac:(lia)) as (_ & _ & Hk & ->); split; [done|lia]].
  cbn [wp]. split_and!; [lia|by rewrite length_tabulate|]. intros j Hj.
  destruct (Hall j ltac:(lia)) as (Hset & Hf & Hk & Hsh). rewrite tabulate_lookup by done.
  split_and!; try done; try apply Hk; try lia; by rewrite Hsh; lia.
Qed.
End correctness.

(** ** Messages are read back *)
Lemma foldl_records {A} (f : A -> list Z) (l : list A) b :
  foldl (fun b x => b ++ f x) b l = b ++ concat (map f l).
Proof.
  revert b. induction l as [|x l IH]; intros b; cbn [foldl map concat]; [by rewrite app_nil_r|].
  by rewrite IH, <- app_assoc.
Qed.

Lemma record_u128 {A} (z : A -> Z) (l : list A) j : Forall (fun x => in_u 128 (z x)) l ->
  (j < length l)%nat -> exists x, l !! j = Some x /\ 0 <= z x < 256 ^ Z.of_nat 16.
Proof.
  intros Hf Hj. destruct (lookup_lt_is_Some_2 l j Hj) as [x Hx]. exists x. split; [done|].
  rewrite Forall_lookup in Hf. change (256 ^ Z.of_nat 16) with (2 ^ 128). by eapply (Hf j).
Qed.

(** A punctured key survives the wire, whatever its length. *)
Theorem DeserializeOnlineMessage_SerializeOnlineMessage puncKey :
  Forall (in_u 128) (k_ puncKey) -> Z.of_nat (length (k_ puncKey)) < 2 ^ 64 ->
  0 <= pos_ puncKey < 2 ^ 64 -> 0 <= delta_ puncKey < 2 ^ 64 ->
  DeserializeOnlineMessage (SerializeOnlineMessage puncKey) = Ok puncKey.
Proof.
  destruct puncKey as [k pos delta]. cbn [k_ pos_ delta_]. intros Hk Hl Hp Hd.
  unfold DeserializeOnlineMessage, SerializeOnlineMessage. cbn [k_ pos_ delta_].
  change (2 ^ 64) with (256 ^ Z.of_nat 8) in *.
  set (hd := le_bytes 8 (Z.of_nat (length k))). assert (length hd = 8%nat) as Hh by apply length_le_bytes.
  set (ws := concat (map (le_bytes 16) k)).
  assert (length ws = 16 * length k)%nat as Hw by (apply length_records; intros; apply length_le_bytes).
  assert (memcpy_from (hd ++ ws ++ le_bytes 8 pos ++ le_bytes 8 delta) 0 8 = Ok (Z.of_nat (length k))) as ->
    by (apply (memcpy_field []); [done|lia]).
  run. rewrite Nat2Z.id, (for_tabulate (length k) _ (fun i => k !!! i)).
  - run. rewrite (app_assoc hd ws).
    rewrite (memcpy_field (hd ++ ws) _ (8 + 16 * length k) 8 pos); [|rewrite length_app, Hh, Hw; done|exact Hp]. run.
    rewrite (app_assoc (hd ++ ws)), <- (app_nil_r (le_bytes 8 delta)).
    rewrite (memcpy_field ((hd ++ ws) ++ le_bytes 8 pos) _ _ 8 delta); [|rewrite !length_app, Hh, Hw, length_le_bytes; done|exact Hd]. run.
    do 2 f_equal. symmetry. by apply eq_tabulate.
  - apply length_replicate.
  - intros j Hj. destruct (record_u128 id k j Hk Hj) as (x & Hx & Hr).
    rewrite (list_lookup_total_correct _ _ _ Hx).
    replace (8 + 16 * j)%nat with (length hd + 16 * j + length (@nil Z))%nat by (cbn; lia).
    apply (memcpy_record (le_bytes 16) 16 k hd _ j x [] 16 x []); [intros; apply length_le_bytes|done|by rewrite app_nil_r|exact Hr].
Qed.

(** The keys of the multi-query scheme survive the wire. *)
Theorem DeserializeOfflineMessage_multi_roundtrip pirKey :
  Forall (fun u => in_u 128 (key u) /\ 0 <= shift u < 2 ^ 64) pirKey -> Z.of_nat (length pirKey) < 2 ^ 64 ->
  DeserializeOfflineMessage_multi (SerializeOfflineMessage_multi pirKey) = Ok pirKey.
Proof.
  intros Hk Hl. unfold DeserializeOfflineMessage_multi, SerializeOfflineMessage_multi.
  rewrite (foldl_records (fun u => le_bytes 16 (key u) ++ le_bytes 8 (shift u))).
  set (f := fun u => le_bytes 16 (key u) ++ le_bytes 8 (shift u)).
  assert (forall u, length (f u) = 24%nat) as Hf by (intros u; unfold f; by rewrite length_app, !length_le_bytes).
  set (hd := le_bytes 8 (Z.of_nat (length pirKey))). assert (length hd = 8%nat) as Hh by apply length_le_bytes.
  rewrite <- (app_nil_r (concat _)).
  assert (memcpy_from (hd ++ concat (map f pirKey) ++ []) 0 8 = Ok (Z.of_nat (length pirKey))) as ->
    by (apply (memcpy_field []); [done|change (256 ^ Z.of_nat 8) with (2 ^ 64); lia]).
  run. rewrite Nat2Z.id.
  rewrite (for_ext _ _ (fun i v => x ← (k_val ← memcpy_from (hd ++ concat (map f pirKey) ++ []) (8 + 24 * i) 16;
    delta ← memcpy_from (hd ++ concat (map f pirKey) ++ []) (8 + 24 * i + 16) 8; Ok (mkUnion k_val delta)); vset v i x))
    by (intros i v _; by destruct (memcpy_from _ (8 + 24 * i) 16), (memcpy_from _ (8 + 24 * i + 16) 8)).
  rewrite (for_tabulate (length pirKey) _ (fun i => pirKey !!! i)).
  - f_equal. symmetry. by apply eq_tabulate.
  - apply length_replicate.
  - intros j Hj. destruct (lookup_lt_is_Some_2 pirKey j Hj) as [u Hu].
    rewrite (list_lookup_total_correct _ _ _ Hu). rewrite Forall_lookup in Hk. destruct (Hk j u Hu) as [H1 H2].
    replace (8 + 24 * j)%nat with (length hd + 24 * j + length (@nil Z))%nat by (cbn; lia).
    rewrite (memcpy_record f 24 pirKey hd [] j u [] 16 (key u) (le_bytes 8 (shift u)) Hf Hu eq_refl H1). run.
    replace (length hd + 24 * j + length (@nil Z) + 16)%nat with (length hd + 24 * j + length (le_bytes 16 (key u)))%nat
      by (rewrite length_le_bytes; cbn; lia).
    rewrite (memcpy_record f 24 pirKey hd [] j u (le_bytes 16 (key u)) 8 (shift u) [] Hf Hu); [by destruct u| |exact H2].
    by rewrite app_nil_r.
Qed.

Lemma Bytes_Uint128 sk : in_u 128 sk -> Bytes_to_uint128 (Uint128_to_bytes sk) = Ok sk.
Proof.
  intros Hs. unfold Bytes_to_uint128, Uint128_to_bytes.
  change 0xFFFFFFFFFFFFFFFF with (Z.ones 64). rewrite Z.land_ones, Z.shiftr_div_pow2 by lia.
  pose proof (Z.mod_pos_bound sk (2 ^ 64) ltac:(lia)) as Hlo.
  assert (0 <= sk / 2 ^ 64 < 2 ^ 64) as Hhi.
  { unfold in_u in Hs. split; [apply Z.div_pos; lia|apply Z.div_lt_upper_bound; lia]. }
  rewrite (u64_small (sk / 2 ^ 64)) by done.
  rewrite (memcpy_field [] (le_bytes 8 (sk mod 2 ^ 64)) 0 8 (sk / 2 ^ 64) eq_refl Hhi : memcpy_from (le_bytes 8 (sk / 2 ^ 64) ++ le_bytes 8 (sk mod 2 ^ 64)) 0 8 = _). run.
  rewrite <- (app_nil_r (le_bytes 8 (sk mod 2 ^ 64))).
  rewrite (memcpy_field (le_bytes 8 (sk / 2 ^ 64)) [] 8 8 (sk mod 2 ^ 64) (length_le_bytes _ _) Hlo). run.
  f_equal. rewrite Z.shiftl_mul_pow2 by lia. unfold u128. rewrite wrap_small by (unfold in_u; lia).
  rewrite Z.lor_comm, <- Z.shiftl_mul_pow2, lor_shiftl_add by lia.
  pose proof (Z.div_mod sk (2 ^ 64)). lia.
Qed.

(** The key and shifts of the single-query scheme survive the wire. *)
Theorem DeserializeOfflineMessage_roundtrip sk deltas :
  in_u 128 sk -> (forall d, d ∈ deltas -> 0 <= d < 2 ^ 64) -> Z.of_nat (size deltas) < 2 ^ 64 ->
  DeserializeOfflineMessage (SerializeOfflineMessage sk deltas) = Ok (sk, deltas).
Proof.
  intros Hs Hd Hl. unfold DeserializeOfflineMessage, SerializeOfflineMessage. rewrite foldl_records.
  assert (length (Uint128_to_bytes sk) = 16%nat) as Hk by (unfold Uint128_to_bytes; by rewrite length_app, !length_le_bytes).
  assert (size deltas = length (set_order deltas)) as Hsz by (by rewrite set_order_perm). rewrite Hsz in *.
  set (hd := le_bytes 8 (Z.of_nat (length (set_order deltas)))).
  assert (length hd = 8%nat) as Hh by apply length_le_bytes.
  unfold defined. rewrite bool_decide_true by (rewrite !length_app; lia). run.
  rewrite <- !app_assoc, take_app_length', Bytes_Uint128 by done. run.
  pose proof (memcpy_field (Uint128_to_bytes sk) (concat (map (le_bytes 8) (set_order deltas))) 16 8
    (Z.of_nat (length (set_order deltas))) Hk ltac:(change (256 ^ Z.of_nat 8) with (2 ^ 64); lia)) as Hm.
  fold hd in Hm. rewrite Hm. run.
  rewrite Nat2Z.id, (for_insert (length (set_order deltas)) _ (fun i => set_order deltas !!! i)).
  - run. do 2 f_equal. rewrite union_empty_r_L, <- (eq_tabulate _ _ (set_order deltas) eq_refl) by done.
    apply set_eq. intros x. by rewrite elem_of_list_to_set, elem_of_set_order.
  - intros j Hj. destruct (lookup_lt_is_Some_2 (set_order deltas) j Hj) as [x Hx].
    rewrite (list_lookup_total_correct _ _ _ Hx). rewrite app_assoc, <- (app_nil_r (concat _)).
    replace (24 + 8 * j)%nat with (length (Uint128_to_bytes sk ++ hd) + 8 * j + length (@nil Z))%nat
      by (rewrite length_app; cbn; lia).
    apply (memcpy_record (le_bytes 8) 8 _ _ [] j x [] 8 x []); [intros; apply length_le_bytes|done|by rewrite app_nil_r|].
    apply Hd, elem_of_set_order. by eapply list_elem_of_lookup_2.
Qed.

(** ** Runs *)
Definition toy_order (m : gmap Z Z) : list (Z * Z) := map_to_list m.
Definition toy_u128 (base : Z) (j : nat) : Z := u128 (base + Z.of_nat j).
Definition toy_u64 (j : nat) : Z := u64 (Z.of_nat j * 2 ^ 60).
Definition toy_bits : list bool := tabulate 16 (fun j => Nat.odd (j / 3)).

Lemma toy_order_perm m : Permutation (toy_order m) (map_to_list m).
Proof. done. Qed.
Lemma toy_u128_range base j : in_u 128 (toy_u128 base j).
Proof. by apply wrap_range. Qed.
Lemma toy_u64_range j : 0 <= toy_u64 j < 2 ^ 64.
Proof. apply u64_range. Qed.

Lemma single_query_correct_witness :
  exists c sk deltas,
  Setup toy_prg (client 16 4 ∅ 20) (toy_u128 9) toy_u64 ∅ = Ok (c, sk, deltas) /\
  wp (h ← Hint toy_prg (mkServer (mkPPS ∅ 16 4) 16) sk deltas toy_bits;
      '(param, punc) ← Query toy_prg toy_order c 5 sk deltas PIRPuncKey_new 1 false 2;
      a ← Answer toy_prg (mkServer (mkPPS ∅ 16 4) 16) punc toy_bits;
      Reconstruct param h a false)
     (fun '(ret, r) => ret = PIR_OK /\ toy_bits !! 5%nat = Some r).
Proof.
  eexists _, _, _. split; [vm_compute; reflexivity|].
  eapply wp_mono.
  - eapply (single_query_correct toy_prg toy_prg_length toy_prg_range toy_order toy_order_perm 16 4 toy_bits
      ltac:(lia) ltac:(lia) ltac:(by vm_compute) ∅ 20 (toy_u128 9) toy_u64);
      [apply toy_u128_range|apply toy_u64_range|vm_compute; reflexivity|vm_compute; reflexivity|lia..].
  - intros [ret r] [(_ & ? & ?)|(_ & _ & [?|H])]; [done|done|].
    exfalso. apply (H 1); by vm_compute.
Defined.

Definition toy_ck : list PIRKeyUnion := [mkUnion 11 0; mkUnion 17 3].
Definition toy_v : list (gset Z) := map (fun u => pset toy_prg toy_pps (key u)) toy_ck.
Definition toy_h : list bool := map (fun u => parity 16 toy_bits (shift u) (pset toy_prg toy_pps (key u))) toy_ck.

Lemma toy_hint_ok : hint_ok toy_prg 16 4 toy_bits toy_ck toy_v toy_h.
Proof.
  split_and!; [done|done|]. intros j Hj.
  destruct j as [|[|j]]; [| |cbn in Hj; lia]; unfold slot_ok, in_u; split_and!; try done; by vm_compute.
Qed.

Lemma toy_keys j : (j < length toy_ck)%nat ->
  live toy_prg 2 (key (toy_ck !!! j)) = true /\ apart toy_prg 9 (key (toy_ck !!! j)).
Proof.
  intros Hj. destruct j as [|[|j]]; [| |cbn in Hj; lia]; (split; [by vm_compute|]);
    split; intros H; vm_compute in H; discriminate H.
Qed.

Lemma multi_query_correct_witness :
  wp ('(c', ck', v', param, punc_l, punc_r) ← Query_multi toy_prg toy_order (client 16 4 ∅ 20) 5 toy_ck toy_v
        PIRPuncKey_new PIRPuncKey_new (toy_u128 9) 1 false 2;
      '(a_left, a_right) ← AnswerMulti toy_prg (mkServer (mkPPS ∅ 16 4) 16) punc_l punc_r toy_bits;
      '(ret, h', r) ← Reconstruct_multi param toy_h a_left a_right false;
      Ok (ck', v', ret, h', r))
     (fun '(ck', v', ret, h', r) => hint_ok toy_prg 16 4 toy_bits ck' v' h' /\ ret = PIR_OK /\ toy_bits !! 5%nat = Some r).
Proof.
  eapply wp_mono.
  - eapply (multi_query_correct toy_prg toy_prg_length toy_prg_range toy_order toy_order_perm 16 4 toy_bits
      ltac:(lia) ltac:(lia) ltac:(by vm_compute) ∅ 20 toy_ck toy_v toy_h 5 (toy_u128 9) 1 false 2 false 9);
      [apply toy_hint_ok|by vm_compute|lia|apply toy_u128_range|vm_compute; reflexivity|by vm_compute|apply toy_keys|lia..].
  - intros [[[[ck' v'] ret] h'] r] [Hok [(_ & ? & ?)|(_ & _ & _ & _ & _ & [?|H])]]; [done|done|].
    exfalso. apply (H 0%nat); [cbn; lia|by vm_compute].
Defined.

Lemma multi_setup_correct_witness :
  exists ck v, Setup_multi toy_prg (client 16 4 ∅ 20) (toy_u128 9) [] [] = Ok (ck, v) /\
  wp (Hint_multi toy_prg (mkServer (mkPPS ∅ 16 4) 16) ck toy_bits) (hint_ok toy_prg 16 4 toy_bits ck v).
Proof.
  eexists _, _. split; [vm_compute; reflexivity|].
  eapply (multi_setup_correct toy_prg toy_prg_length toy_prg_range 16 4 toy_bits ltac:(lia) ltac:(lia)
    ltac:(by vm_compute) ∅ 20 (toy_u128 9)); [apply toy_u128_range|vm_compute; reflexivity].
Defined.

Lemma DeserializeOnlineMessage_SerializeOnlineMessage_witness :
  DeserializeOnlineMessage (SerializeOnlineMessage (mkPunc [2 ^ 127; 77] 3 (2 ^ 40))) = Ok (mkPunc [2 ^ 127; 77] 3 (2 ^ 40)).
Proof.
  apply DeserializeOnlineMessage_SerializeOnlineMessage; cbn [k_ pos_ delta_]; [|cbn; lia|lia|lia].
  repeat constructor; unfold in_u; lia.
Defined.

Lemma DeserializeOfflineMessage_multi_roundtrip_witness :
  DeserializeOfflineMessage_multi (SerializeOfflineMessage_multi toy_ck) = Ok toy_ck.
Proof.
  apply DeserializeOfflineMessage_multi_roundtrip; [|cbn; lia].
  repeat constructor; unfold in_u; cbn [key shift]; lia.
Defined.

Lemma DeserializeOfflineMessage_roundtrip_witness :
  DeserializeOfflineMessage (SerializeOfflineMessage (2 ^ 100) ({[5; 9]} : gset Z)) = Ok (2 ^ 100, {[5; 9]}).
Proof.
  apply DeserializeOfflineMessage_roundtrip; [unfold in_u; lia| |by vm_compute].
  intros d [->%elem_of_singleton| ->%elem_of_singleton]%elem_of_union; lia.
Defined.
