(* ===== verification/Piano.v ===== *)
(** * Piano: single-server PIR with preprocessing (experiment/pir/piano)

    util: database entries and their xor, chunk parameters, the PRF and the sets
    it expands.  server: the padded database, its chunks, and the parity of a
    queried index set.  client: the streaming preprocessing of the hint tables
    ([PreprocessDBChunk]), the query that hides an index behind a replacement
    ([GenerateIndexQuery]) and the recovery that refreshes the spent hint
    ([RecoverIndexReply]).

    Parameters: AES on one block ([aes_ecb]), the protobuf runtime ([Protobuf]:
    a message is parsed back from its serialization), and random words, passed
    as arguments.  The worker threads of the preprocessing run their jobs in an
    arbitrary order, an argument too. *)
From S2P Require Import Prelude Float64.

(** ** piano.proto *)
Record DbChunkProto := mkDbChunk { chunk_index : Z; chunks : list Z }.
Record SetParityQueryProto := mkQuery { query_indices : list Z }.
Record SetParityResponseProto := mkResponse { response_parity : list Z }.

(** The generated serializers. *)
Class Protobuf := {
  Buffer : Type;
  ser_chunk : DbChunkProto -> Buffer;
  par_chunk : Buffer -> DbChunkProto;
  ser_query : SetParityQueryProto -> Buffer;
  par_query : Buffer -> SetParityQueryProto;
  ser_response : SetParityResponseProto -> Buffer;
  par_response : Buffer -> SetParityResponseProto
}.
Class ProtobufLaws `{Protobuf} : Prop := {
  chunk_roundtrip m : par_chunk (ser_chunk m) = m;
  query_roundtrip m : par_query (ser_query m) = m;
  response_roundtrip m : par_response (ser_response m) = m
}.

(** ** util.h, util.cc *)
Definition DBEntry : Type := list Z.

Definition XorFromRaw (data_ src : DBEntry) : res DBEntry :=
  _ ← enforce (bool_decide (length data_ = length src));
  for_ (length data_) (fun i d => x ← vget d i; y ← vget src i; vset d i (Z.lxor x y)) data_.
Definition Xor (data_ other : DBEntry) : res DBEntry := XorFromRaw data_ other.
Definition ZeroEntry (entry_size : Z) : DBEntry := replicate (Z.to_nat entry_size) 0.

Definition FNVHash (key : Z) : list Z :=
  let '(hash, _) := loop 8 (fun _ '(hash, key) =>
    let byte := u8 (Z.land key 0xFF) in
    (u64 (Z.lxor hash byte * 1099511628211), Z.shiftr key 8)) (14695981039346656037, key) in
  tabulate 8 (fun i => u8 (Z.land (Z.shiftr hash (Z.of_nat i * 8)) 0xFF)).

Definition GenDBEntry (entry_size key id : Z) (hash_func : Z -> list Z) : DBEntry :=
  let hash := hash_func (Z.lxor key id) in
  tabulate (Z.to_nat entry_size) (fun i => match hash !! i with Some h => h | None => 0 end).

(** The doubling loop of [GenChunkParams].  After 64 doublings the word is zero,
    below the target, and the loop would not end; [UB] stands for that. *)
Fixpoint double_until (fuel : nat) (chunk_size : Z) (target : double) : res Z :=
  match fuel with
  | O => UB
  | S fuel' =>
      if f64_ltb (f64_of_u64 chunk_size) target
      then double_until fuel' (u64 (chunk_size * 2)) target else Ok chunk_size
  end.
Definition GenChunkParams (entry_num : Z) : res (Z * Z) :=
  let target_chunk_size := f64_mul (f64_of_u64 2) (f64_sqrt (f64_of_u64 entry_num)) in
  chunk_size ← double_until 64 1 target_chunk_size;
  let set_size := u64 (u64 (entry_num + chunk_size) - 1) / chunk_size in
  Ok (chunk_size, set_size).

(** Bytes [off, off + n) of a vector, through pointers into it. *)
Definition slice (v : list Z) (off n : Z) : res (list Z) :=
  if off + n <=? Z.of_nat (length v) then Ok (take (Z.to_nat n) (drop (Z.to_nat off) v)) else UB.

(** ** server.h, server.cc *)
Record QueryServiceServer := mkServer {
  db_ : list Z; s_set_size_ : Z; s_chunk_size_ : Z; s_entry_num_ : Z; s_entry_size_ : Z
}.

Definition AlignDBToChunkBoundary (seed : Z) (s : QueryServiceServer) : QueryServiceServer :=
  let total := u64 (s_chunk_size_ s * s_set_size_ s) in
  if s_entry_num_ s <? total then
    let padding_num := u64 (total - s_entry_num_ s) in
    let db := loop (Z.to_nat padding_num) (fun i db =>
      db ++ GenDBEntry (s_entry_size_ s) seed (Z.of_nat i) FNVHash) (db_ s) in
    mkServer db (s_set_size_ s) (s_chunk_size_ s) (u64 (s_entry_num_ s + padding_num)) (s_entry_size_ s)
  else s.

Definition QueryServiceServer_new (db : list Z) (entry_num entry_size seed : Z) : res QueryServiceServer :=
  '(chunk_size, set_size) ← GenChunkParams entry_num;
  Ok (AlignDBToChunkBoundary seed (mkServer db set_size chunk_size entry_num entry_size)).

Definition DBAccess (idx : Z) (s : QueryServiceServer) : res DBEntry :=
  if idx <? s_entry_num_ s then slice (db_ s) (u64 (idx * s_entry_size_ s)) (s_entry_size_ s)
  else Ok (ZeroEntry (s_entry_size_ s)).

(** ** client.h: the hint tables *)
Record LocalSet := mkSet { tag : Z; parity : DBEntry; programmed_point : Z; is_programmed : bool }.
Record LocalBackupSet := mkBackup { backup_tag : Z; parity_after_puncture : DBEntry }.

(** The span [sets] of a group is the part of [local_backup_sets_] that starts
    at [first]; it aliases that vector. *)
Record LocalBackupSetGroup := mkGroup { group_consumed : Z; first : Z }.
Record LocalReplacementGroup := mkRepl { consumed : Z; indices : list Z; values : list DBEntry }.
Record QueryContext := mkCtx { is_mask_query : bool; current_query_index : Z; hit_set_id : Z }.

#[export] Instance LocalSet_inhabited : Inhabited LocalSet := populate (mkSet 0 [] 0 false).
#[export] Instance LocalBackupSet_inhabited : Inhabited LocalBackupSet := populate (mkBackup 0 []).
#[export] Instance Group_inhabited : Inhabited LocalBackupSetGroup := populate (mkGroup 0 0).
#[export] Instance Repl_inhabited : Inhabited LocalReplacementGroup := populate (mkRepl 0 [] []).

(** The parameters [Initialize] fixes, and the state that changes. *)
Record Config := mkConfig {
  total_query_num_ : Z; entry_num_ : Z; thread_num_ : Z; chunk_size_ : Z; set_size_ : Z;
  entry_size_ : Z; primary_set_num_ : Z; backup_set_num_per_chunk_ : Z; total_backup_set_num_ : Z
}.
Record State := mkState {
  ctx_ : QueryContext;
  primary_sets_ : list LocalSet;
  local_backup_sets_ : list LocalBackupSet;
  local_cache_ : gmap Z DBEntry;
  local_miss_elements_ : gmap Z DBEntry;
  local_backup_set_groups_ : list LocalBackupSetGroup;
  local_replacement_groups_ : list LocalReplacementGroup
}.

Definition with_ctx (c : QueryContext) (s : State) : State :=
  mkState c (primary_sets_ s) (local_backup_sets_ s) (local_cache_ s) (local_miss_elements_ s)
    (local_backup_set_groups_ s) (local_replacement_groups_ s).
Definition with_cache (m : gmap Z DBEntry) (s : State) : State :=
  mkState (ctx_ s) (primary_sets_ s) (local_backup_sets_ s) m (local_miss_elements_ s)
    (local_backup_set_groups_ s) (local_replacement_groups_ s).

(** [kStatisticalSecurityLn = log(2) * 40] and its logarithm, as doubles. *)
Definition kStatisticalSecurityLog2 : Z := 40.
Definition log_2 : double := SpecFloat.S754_finite false 6243314768165359 (-53).
Definition kStatisticalSecurityLn : double := f64_mul log_2 (f64_of_u64 kStatisticalSecurityLog2).
Definition log_SecurityLn : double := SpecFloat.S754_finite false 7481304341202073 (-51).

(** [(num + thread_num - 1) / thread_num * thread_num]. *)
Definition round_up (num thread_num : Z) : Z :=
  u64 (u64 (u64 (num + thread_num) - 1) / thread_num * thread_num).

Definition Initialize (entry_num thread_num entry_size : Z) : res Config :=
  total_query_num ← u64_of_f64 (f64_mul (f64_mul (f64_sqrt (f64_of_u64 entry_num)) kStatisticalSecurityLn) log_SecurityLn);
  '(chunk_size, set_size) ← GenChunkParams entry_num;
  let primary_set_num := round_up total_query_num thread_num in
  backup ← u64_of_f64 (f64_mul (f64_mul (f64_of_u64 kStatisticalSecurityLog2) kStatisticalSecurityLn) log_SecurityLn);
  let backup_set_num_per_chunk := round_up backup thread_num in
  Ok (mkConfig total_query_num entry_num thread_num chunk_size set_size entry_size primary_set_num
        backup_set_num_per_chunk (u64 (backup_set_num_per_chunk * set_size))).

Definition InitializeLocalSets (c : Config) : State :=
  let np := Z.to_nat (primary_set_num_ c) in
  let nb := Z.to_nat (total_backup_set_num_ c) in
  let per := backup_set_num_per_chunk_ c in
  mkState (mkCtx false 0 0)
    (tabulate np (fun j => mkSet (u32 (Z.of_nat j)) (ZeroEntry (entry_size_ c)) 0 false))
    (tabulate nb (fun i => mkBackup (u32 (Z.of_nat (np + i))) (ZeroEntry (entry_size_ c))))
    ∅ ∅
    (tabulate (Z.to_nat (set_size_ c)) (fun i => mkGroup 0 (u64 (Z.of_nat i * per))))
    (tabulate (Z.to_nat (set_size_ c)) (fun _ => mkRepl 0 (replicate (Z.to_nat per) 0) (replicate (Z.to_nat per) []))).

Definition QueryServiceClient_new (entry_num thread_num entry_size : Z) : res (Config * State) :=
  c ← Initialize entry_num (if 0 <? thread_num then thread_num else 1) entry_size;
  Ok (c, InitializeLocalSets c).

(** One unit of work of a preprocessing thread: a primary set or a backup set. *)
Inductive job := PrimaryJob (j : nat) | BackupJob (j : nat).

(** The jobs of thread [tid], in its own order, and all of them. *)
Definition thread_jobs (c : Config) (tid : nat) : list job :=
  let per_p := u64 (u64 (primary_set_num_ c + thread_num_ c) - 1) / thread_num_ c in
  let per_b := u64 (u64 (total_backup_set_num_ c + thread_num_ c) - 1) / thread_num_ c in
  let start_index := u64 (Z.of_nat tid * per_p) in
  let end_index := Z.min (u64 (start_index + per_p)) (primary_set_num_ c) in
  let start_index_backup := u64 (Z.of_nat tid * per_b) in
  let end_index_backup := Z.min (u64 (start_index_backup + per_b)) (total_backup_set_num_ c) in
  map PrimaryJob (seq (Z.to_nat start_index) (Z.to_nat (end_index - start_index)))
  ++ map BackupJob (seq (Z.to_nat start_index_backup) (Z.to_nat (end_index_backup - start_index_backup))).
Definition all_jobs (c : Config) : list job :=
  concat (map (thread_jobs c) (seq 0 (Z.to_nat (thread_num_ c)))).

Section piano.
Context (aes_ecb : Z -> Z).
Context `{Protobuf}.

(** The block under the client's long key, low word. *)
Definition PRFEvalWithLongKeyAndTag (tag x : Z) : Z := u64 (aes_ecb (u128 (u128 (Z.shiftl tag 64) + x))).

Definition ExpandWithLongKey (tag set_size chunk_size : Z) : list Z :=
  tabulate (Z.to_nat set_size) (fun i =>
    let tmp := PRFEvalWithLongKeyAndTag tag (Z.of_nat i) in
    let offset := Z.land tmp (u64 (chunk_size - 1)) in
    u64 (u64 (Z.of_nat i * chunk_size) + offset)).

Definition MemberTestWithLongKey (tag chunk_id offset chunk_size : Z) : bool :=
  offset =? Z.land (PRFEvalWithLongKeyAndTag tag chunk_id) (u64 (chunk_size - 1)).

(** *** serialize.h *)
Definition SerializeDBChunk (chunk_index : Z) (chunk : list Z) : Buffer := ser_chunk (mkDbChunk chunk_index chunk).
Definition DeserializeDBChunk (b : Buffer) : Z * list Z := (chunk_index (par_chunk b), chunks (par_chunk b)).
Definition SerializeSetParityQuery (indices : list Z) : Buffer := ser_query (mkQuery indices).
Definition DeserializeSetParityQuery (b : Buffer) : list Z := query_indices (par_query b).
Definition SerializeSetParityResponse (parity : list Z) : Buffer := ser_response (mkResponse parity).
Definition DeserializeSetParityResponse (b : Buffer) : list Z := response_parity (par_response b).

(** *** The server's replies *)
Definition GetDBChunk (s : QueryServiceServer) (chunk_index : Z) : res Buffer :=
  let down := u64 (chunk_index * s_chunk_size_ s) in
  let up := u64 (u64 (chunk_index + 1) * s_chunk_size_ s) in
  let a := u64 (down * s_entry_size_ s) in
  let b := u64 (up * s_entry_size_ s) in
  _ ← defined (a <=? b);
  chunk ← slice (db_ s) a (b - a);
  Ok (SerializeDBChunk chunk_index chunk).

Definition GenerateIndexReply (s : QueryServiceServer) (query_buffer : Buffer) : res Buffer :=
  parity ← for_each (DeserializeSetParityQuery query_buffer) (fun index parity =>
    entry ← DBAccess index s; Xor parity entry) (ZeroEntry (s_entry_size_ s));
  Ok (SerializeSetParityResponse parity).
(** *** Preprocessing *)

(** [&v[i]] and the bytes behind it. *)
Definition element (v : list Z) (i n : Z) : res (list Z) :=
  _ ← defined (i <? Z.of_nat (length v)); slice v i n.

Definition run_job (c : Config) (chunk_index : Z) (db_chunk : list Z) (j : job)
    (st : list bool * list LocalSet * list LocalBackupSet)
    : res (list bool * list LocalSet * list LocalBackupSet) :=
  let '(hit_map, prim, back) := st in
  match j with
  | PrimaryJob j =>
      p ← vget prim j;
      let offset := Z.land (PRFEvalWithLongKeyAndTag (tag p) chunk_index) (u64 (chunk_size_ c - 1)) in
      hit_map ← vsetz hit_map offset true;
      src ← slice db_chunk (u64 (offset * entry_size_ c)) (entry_size_ c);
      x ← XorFromRaw (parity p) src;
      prim ← vset prim j (mkSet (tag p) x (programmed_point p) (is_programmed p));
      Ok (hit_map, prim, back)
  | BackupJob j =>
      if (Z.of_nat j <? u64 (chunk_index * backup_set_num_per_chunk_ c))
         || (u64 (u64 (chunk_index + 1) * backup_set_num_per_chunk_ c) <=? Z.of_nat j)
      then
        b ← vget back j;
        let offset := Z.land (PRFEvalWithLongKeyAndTag (backup_tag b) chunk_index) (u64 (chunk_size_ c - 1)) in
        src ← slice db_chunk (u64 (offset * entry_size_ c)) (entry_size_ c);
        x ← XorFromRaw (parity_after_puncture b) src;
        back ← vset back j (mkBackup (backup_tag b) x);
        Ok (hit_map, prim, back)
      else Ok st
  end.

(** [order] is the order in which the threads happen to run their jobs; [prg]
    the words of the generator behind the replacements. *)
Definition PreprocessDBChunk (c : Config) (order : list job) (prg : nat -> Z) (chunk_buffer : Buffer) (st : State)
    : res State :=
  let '(chunk_index, db_chunk) := DeserializeDBChunk chunk_buffer in
  '(hit_map, prim, back) ← for_each order (run_job c chunk_index db_chunk)
    (replicate (Z.to_nat (chunk_size_ c)) false, primary_sets_ st, local_backup_sets_ st);
  miss ← for_ (Z.to_nat (chunk_size_ c)) (fun j miss =>
    hit ← vget hit_map j;
    if (hit : bool) then Ok miss
    else
      entry ← element db_chunk (u64 (Z.of_nat j * entry_size_ c)) (entry_size_ c);
      Ok (<[u64 (Z.of_nat j + u64 (chunk_index * chunk_size_ c)) := entry]> miss)) (local_miss_elements_ st);
  groups ← for_ (Z.to_nat (backup_set_num_per_chunk_ c)) (fun k groups =>
    let offset := Z.land (prg k) (u64 (chunk_size_ c - 1)) in
    g ← vgetz groups chunk_index;
    idx ← vset (indices g) k (u64 (offset + u64 (chunk_index * chunk_size_ c)));
    entry ← element db_chunk (u64 (offset * entry_size_ c)) (entry_size_ c);
    vals ← vset (values g) k entry;
    vsetz groups chunk_index (mkRepl (consumed g) idx vals)) (local_replacement_groups_ st);
  Ok (mkState (ctx_ st) prim back (local_cache_ st) miss (local_backup_set_groups_ st) groups).

(** *** Queries *)
Definition GenerateMaskQuery (c : Config) (prg : nat -> Z) : res Buffer :=
  _ ← defined (negb (chunk_size_ c =? 0));
  Ok (SerializeSetParityQuery (tabulate (Z.to_nat (set_size_ c)) (fun i =>
    u64 (prg i mod chunk_size_ c + u64 (Z.of_nat i * chunk_size_ c))))).

(** The first primary set that holds the index, unless its element of that
    chunk was programmed away. *)
Fixpoint find_hit (c : Config) (n i : nat) (prim : list LocalSet) (chunk_id query_offset : Z) : res (option nat) :=
  match n with
  | O => Ok None
  | S n' =>
      set ← vget prim i;
      let is_programmed_match := is_programmed set && (chunk_id =? programmed_point set / chunk_size_ c) in
      if negb is_programmed_match && MemberTestWithLongKey (tag set) chunk_id query_offset (chunk_size_ c)
      then Ok (Some i) else find_hit c n' (S i) prim chunk_id query_offset
  end.

Definition mask_query (c : Config) (prg : nat -> Z) (query_index : Z) (st : State) : res (State * Buffer) :=
  b ← GenerateMaskQuery c prg;
  Ok (with_ctx (mkCtx true query_index (hit_set_id (ctx_ st))) st, b).

Definition GenerateIndexQuery (c : Config) (query_index : Z) (prg : nat -> Z) (st : State) : res (State * Buffer) :=
  match local_cache_ st !! query_index with
  | Some _ => mask_query c prg query_index st
  | None =>
      _ ← defined (negb (chunk_size_ c =? 0));
      let query_offset := query_index mod chunk_size_ c in
      let chunk_id := query_index / chunk_size_ c in
      hit ← find_hit c (Z.to_nat (primary_set_num_ c)) 0 (primary_sets_ st) chunk_id query_offset;
      match hit with
      | None =>
          match local_miss_elements_ st !! query_index with
          | None => mask_query c prg query_index st
          | Some e => mask_query c prg query_index (with_cache (<[query_index := e]> (local_cache_ st)) st)
          end
      | Some j =>
          set ← vget (primary_sets_ st) j;
          let expanded_set := ExpandWithLongKey (tag set) (set_size_ c) (chunk_size_ c) in
          expanded_set ← (if is_programmed set
            then vsetz expanded_set (programmed_point set / chunk_size_ c) (programmed_point set)
            else Ok expanded_set);
          g ← vgetz (local_replacement_groups_ st) chunk_id;
          let next_available := consumed g in
          if next_available =? backup_set_num_per_chunk_ c then mask_query c prg query_index st
          else
            replace_index ← vgetz (indices g) next_available;
            expanded_set ← vsetz expanded_set chunk_id replace_index;
            Ok (with_ctx (mkCtx (is_mask_query (ctx_ st)) query_index (Z.of_nat j)) st,
                SerializeSetParityQuery expanded_set)
      end
  end.

Definition RecoverIndexReply (c : Config) (reply_buffer : Buffer) (st : State) : res (State * DBEntry) :=
  let ctx := ctx_ st in
  let query_index := current_query_index ctx in
  if is_mask_query ctx then
    let st := with_ctx (mkCtx false query_index (hit_set_id ctx)) st in
    Ok (st, match local_cache_ st !! query_index with Some e => e | None => ZeroEntry (entry_size_ c) end)
  else
    let hit := hit_set_id ctx in
    _ ← defined (negb (chunk_size_ c =? 0));
    let chunk_id := query_index / chunk_size_ c in
    g ← vgetz (local_replacement_groups_ st) chunk_id;
    replace_value ← vgetz (values g) (consumed g);
    repl ← vsetz (local_replacement_groups_ st) chunk_id (mkRepl (u64 (consumed g + 1)) (indices g) (values g));
    let par := DeserializeSetParityResponse reply_buffer in
    set ← vgetz (primary_sets_ st) hit;
    val ← XorFromRaw (parity set) par;
    val ← Xor val replace_value;
    let cache := <[query_index := val]> (local_cache_ st) in
    bg ← vgetz (local_backup_set_groups_ st) chunk_id;
    if group_consumed bg =? backup_set_num_per_chunk_ c then
      Ok (mkState ctx (primary_sets_ st) (local_backup_sets_ st) cache (local_miss_elements_ st)
            (local_backup_set_groups_ st) repl, val)
    else
      b ← vgetz (local_backup_sets_ st) (first bg + group_consumed bg);
      x ← Xor val (parity_after_puncture b);
      prim ← vsetz (primary_sets_ st) hit (mkSet (backup_tag b) x query_index true);
      groups ← vsetz (local_backup_set_groups_ st) chunk_id (mkGroup (u64 (group_consumed bg + 1)) (first bg));
      Ok (mkState ctx prim (local_backup_sets_ st) cache (local_miss_elements_ st) groups repl, val).
End piano.

(** ** Entries under xor *)
Definition exor (a b : DBEntry) : DBEntry := zip_with Z.lxor a b.

Lemma length_exor n a b : length a = n -> length b = n -> length (exor a b) = n.
Proof. intros. unfold exor. rewrite length_zip_with. lia. Qed.

Lemma exor_comm a b : exor a b = exor b a.
Proof. revert b. induction a as [|x a IH]; intros [|y b]; try done. cbn. by rewrite Z.lxor_comm, <- IH. Qed.

Lemma exor_assoc a b c : exor a (exor b c) = exor (exor a b) c.
Proof. revert b c. induction a as [|x a IH]; intros [|y b] [|z c]; try done. cbn. by rewrite Z.lxor_assoc, <- IH. Qed.

Lemma exor_self a : exor a a = replicate (length a) 0.
Proof. induction a as [|x a IH]; [done|]. cbn. by rewrite Z.lxor_nilpotent, <- IH. Qed.

Lemma exor_zero_r n a : length a = n -> exor a (replicate n 0) = a.
Proof. intros <-. induction a as [|x a IH]; [done|]. cbn. f_equal; [apply Z.lxor_0_r|exact IH]. Qed.

Lemma exor_zero_l n a : length a = n -> exor (replicate n 0) a = a.
Proof. intros. rewrite exor_comm. by apply exor_zero_r. Qed.

Lemma exor_cancel a b : length a = length b -> exor (exor a b) b = a.
Proof. intros H. rewrite <- exor_assoc, exor_self. by apply exor_zero_r. Qed.

Lemma exor_lookup a b i : (i < length a)%nat -> (i < length b)%nat -> exor a b !!! i = Z.lxor (a !!! i) (b !!! i).
Proof.
  intros Ha Hb. unfold exor. apply list_lookup_total_correct. rewrite lookup_zip_with.
  by rewrite !list_lookup_lookup_total_lt by done.
Qed.

Lemma XorFromRaw_eq a b : length a = length b -> XorFromRaw a b = Ok (exor a b).
Proof.
  intros Hl. unfold XorFromRaw. rewrite bool_decide_true by done. run.
  cut (wp (for_ (length a) (fun i d => x ← vget d i; y ← vget b i; vset d i (Z.lxor x y)) a) (fun d => d = exor a b)).
  { by intros (d & -> & ->)%wp_iff. }
  apply (wp_for_fill _ _ (fun i => Z.lxor (a !!! i) (b !!! i))); [lia| |].
  - intros i d Hi Hd Hdi. rewrite (vget_total d i) by lia. run. rewrite (vget_total b i) by lia. run.
    by rewrite Hdi, vset_total by lia.
  - intros d Hd H1 _. apply list_eq_total; [rewrite (length_exor (length a)) by done; lia|].
    intros i Hi. rewrite H1 by lia. symmetry. apply exor_lookup; lia.
Qed.

(** The xor of a family of entries, and of all but one of them. *)
Fixpoint xsum (es n : nat) (f : nat -> DBEntry) : DBEntry :=
  match n with O => replicate es 0 | S n' => exor (xsum es n' f) (f n') end.
Definition but (es k : nat) (f : nat -> DBEntry) (i : nat) : DBEntry :=
  if decide (i = k) then replicate es 0 else f i.

Lemma length_xsum es n f : (forall i, (i < n)%nat -> length (f i) = es) -> length (xsum es n f) = es.
Proof.
  induction n as [|n IH]; intros H; cbn [xsum]; [by rewrite length_replicate|].
  apply length_exor; [apply IH; auto with lia|apply H; lia].
Qed.

Lemma xsum_ext es n f g : (forall i, (i < n)%nat -> f i = g i) -> xsum es n f = xsum es n g.
Proof. induction n as [|n IH]; intros H; cbn [xsum]; [done|]. rewrite IH, H by auto with lia. done. Qed.

Lemma length_but es k f i : (i <> k -> length (f i) = es) -> length (but es k f i) = es.
Proof. intros H. unfold but. case_decide; [by rewrite length_replicate|auto]. Qed.

Lemma xsum_pick es n f k : (forall i, (i < n)%nat -> length (f i) = es) -> (k < n)%nat ->
  xsum es n f = exor (xsum es n (but es k f)) (f k).
Proof.
  induction n as [|n IH]; intros H Hk; [lia|]. cbn [xsum].
  assert (length (xsum es n (but es k f)) = es) as Hl by (apply length_xsum; intros; apply length_but; auto with lia).
  unfold but at 2. case_decide as Hnk.
  - subst k. rewrite (exor_zero_r es) by done. f_equal. apply xsum_ext. intros i Hi. unfold but.
    by rewrite decide_False by lia.
  - rewrite (IH ltac:(auto with lia)) by lia. rewrite <- !exor_assoc. f_equal. apply exor_comm.
Qed.

(** ** The online phase *)

(** The sizes of a client fit the database and the machine words. *)
Record geometry (c : Config) (lc : Z) (db : list Z) : Prop := {
  geo_lc : 0 <= lc < 64;
  geo_chunk : chunk_size_ c = 2 ^ lc;
  geo_set : 0 < set_size_ c;
  geo_es : 0 < entry_size_ c;
  geo_db : Z.of_nat (length db) = 2 ^ lc * set_size_ c * entry_size_ c;
  geo_fit : 2 ^ lc * set_size_ c * entry_size_ c < 2 ^ 64;
  geo_primary : 0 <= primary_set_num_ c < 2 ^ 64;
  geo_per : 0 <= backup_set_num_per_chunk_ c < 2 ^ 64;
  geo_total : total_backup_set_num_ c = backup_set_num_per_chunk_ c * set_size_ c;
  geo_total_fit : total_backup_set_num_ c < 2 ^ 64
}.

Section online.
Context (aes_ecb : Z -> Z).
Context `{ProtobufLaws}.
Context (c : Config) (lc : Z) (db : list Z).
Hypothesis G : geometry c lc db.

Abbreviation chunk := (2 ^ lc).
Abbreviation sets := (set_size_ c).
Abbreviation es := (Z.to_nat (entry_size_ c)).
Abbreviation per := (backup_set_num_per_chunk_ c).
Abbreviation sv := (mkServer db sets chunk (chunk * sets) (entry_size_ c)).

Definition offset (tg i : Z) : Z := PRFEvalWithLongKeyAndTag aes_ecb tg i mod chunk.
Definition elem (tg i : Z) : Z := i * chunk + offset tg i.
Definition entry (q : Z) : DBEntry := take es (drop (Z.to_nat (q * entry_size_ c)) db).

(** Element [i] of a primary set: the programmed point in its chunk. *)
Definition member (p : LocalSet) (i : Z) : Z :=
  if is_programmed p && (i =? programmed_point p / chunk) then programmed_point p else elem (tag p) i.

Lemma chunk_pos : 0 < chunk.
Proof. pose proof (geo_lc _ _ _ G). apply Z.pow_pos_nonneg; lia. Qed.

Lemma chunk_sets_fit : chunk * sets < 2 ^ 64 /\ chunk < 2 ^ 64 /\ sets < 2 ^ 64 /\ entry_size_ c < 2 ^ 64.
Proof.
  pose proof (geo_fit _ _ _ G). pose proof (geo_es _ _ _ G). pose proof (geo_set _ _ _ G).
  pose proof chunk_pos. nia.
Qed.

Lemma mask_offset x : Z.land x (u64 (chunk_size_ c - 1)) = x mod chunk.
Proof.
  pose proof chunk_sets_fit. pose proof chunk_pos. rewrite (geo_chunk _ _ _ G).
  rewrite u64_small by lia. rewrite Z.sub_1_r, <- Z.ones_equiv, Z.land_ones; [done|].
  pose proof (geo_lc _ _ _ G). lia.
Qed.

Lemma offset_range tg i : 0 <= offset tg i < chunk.
Proof. apply Z.mod_pos_bound, chunk_pos. Qed.

(** An index of a chunk is in the database. *)
Lemma index_range i o : 0 <= i < sets -> 0 <= o < chunk -> 0 <= i * chunk + o < chunk * sets.
Proof. nia. Qed.

Lemma split_index q : 0 <= q < chunk * sets -> 0 <= q / chunk < sets /\ 0 <= q mod chunk < chunk /\ q = q / chunk * chunk + q mod chunk.
Proof.
  intros Hq. pose proof chunk_pos. split_and!.
  - apply Z.div_pos; lia.
  - apply Z.div_lt_upper_bound; lia.
  - apply Z.mod_pos_bound; lia.
  - apply Z.mod_pos_bound; lia.
  - pose proof (Z.div_mod q chunk). lia.
Qed.

Lemma elem_range tg i : 0 <= i < sets -> 0 <= elem tg i < chunk * sets.
Proof. intros. apply index_range; [done|apply offset_range]. Qed.

Lemma slice_entry q : 0 <= q < chunk * sets ->
  slice db (u64 (q * entry_size_ c)) (entry_size_ c) = Ok (entry q) /\ length (entry q) = es.
Proof.
  intros Hq. pose proof (geo_fit _ _ _ G). pose proof (geo_es _ _ _ G). pose proof (geo_db _ _ _ G).
 unfold slice. rewrite u64_small by nia.
  rewrite (proj2 (Z.leb_le _ _)) by nia. split; [done|].
  unfold entry. rewrite length_take_le; [done|]. rewrite length_drop. nia.
Qed.

Lemma length_entry q : 0 <= q < chunk * sets -> length (entry q) = es.
Proof. intros. by apply slice_entry. Qed.

Lemma DBAccess_eq q : 0 <= q < chunk * sets -> DBAccess q sv = Ok (entry q).
Proof.
  intros Hq. unfold DBAccess. cbn [s_entry_num_ s_entry_size_ db_].
  rewrite (proj2 (Z.ltb_lt q _)) by lia. by apply slice_entry.
Qed.

Lemma GenerateIndexReply_eq idx :
  (forall i, (i < Z.to_nat sets)%nat -> 0 <= idx i < chunk * sets) ->
  GenerateIndexReply sv (SerializeSetParityQuery (tabulate (Z.to_nat sets) idx))
    = Ok (SerializeSetParityResponse (xsum es (Z.to_nat sets) (fun i => entry (idx i)))).
Proof.
  intros Hidx. unfold GenerateIndexReply, DeserializeSetParityQuery, SerializeSetParityQuery.
  rewrite query_roundtrip. cbn [query_indices].
  cut (for_each (tabulate (Z.to_nat sets) idx) (fun index parity => entry ← DBAccess index sv; Xor parity entry)
    (ZeroEntry (s_entry_size_ sv)) = Ok (xsum es (Z.to_nat sets) (fun i => entry (idx i)))); [by intros ->|].
  revert Hidx. induction (Z.to_nat sets) as [|n IH]; intros Hidx; [done|].
  rewrite tabulate_S, for_each_app, IH by auto with lia. run. cbn [for_each].
  rewrite DBAccess_eq by (apply Hidx; lia). run. unfold Xor. rewrite XorFromRaw_eq; [done|].
  rewrite length_xsum, length_entry; [done|apply Hidx; lia|]. intros i Hi. apply length_entry, Hidx. lia.
Qed.

Lemma Expand_eq tg : ExpandWithLongKey aes_ecb tg (set_size_ c) (chunk_size_ c)
  = tabulate (Z.to_nat sets) (fun i => elem tg (Z.of_nat i)).
Proof.
  unfold ExpandWithLongKey. apply map_ext_in. intros i Hi%in_seq.
  rewrite mask_offset, (geo_chunk _ _ _ G).
  pose proof (elem_range tg (Z.of_nat i) ltac:(lia)) as He.
  pose proof (offset_range tg (Z.of_nat i)). pose proof chunk_sets_fit. unfold elem in He.
  fold (offset tg (Z.of_nat i)). rewrite (u64_small (_ * chunk)) by nia. rewrite u64_small by nia. done.
Qed.

Lemma programmed_eq p : (is_programmed p = true -> 0 <= programmed_point p < chunk * sets) ->
  (if is_programmed p
   then vsetz (tabulate (Z.to_nat sets) (fun i => elem (tag p) (Z.of_nat i))) (programmed_point p / chunk_size_ c) (programmed_point p)
   else Ok (tabulate (Z.to_nat sets) (fun i => elem (tag p) (Z.of_nat i))))
  = Ok (tabulate (Z.to_nat sets) (fun i => member p (Z.of_nat i))).
Proof.
  intros Hp. unfold member. destruct (is_programmed p); [|done].
  rewrite (geo_chunk _ _ _ G). destruct (split_index _ (Hp eq_refl)) as (Hr & _ & _).
  rewrite vsetz_vset, vset_total by (rewrite ?length_tabulate; lia). rewrite insert_tabulate.
  f_equal. apply map_ext. intros i. cbn [andb].
  destruct (Z.eqb_spec (Z.of_nat i) (programmed_point p / chunk)), (decide (i = _)); try done; lia.
Qed.

Lemma member_range p i : (is_programmed p = true -> 0 <= programmed_point p < chunk * sets) ->
  0 <= i < sets -> 0 <= member p i < chunk * sets.
Proof.
  intros Hp Hi. unfold member. destruct (is_programmed p) eqn:E; cbn [andb]; [|by apply elem_range].
  destruct (_ =? _); [by apply Hp|by apply elem_range].
Qed.

(** *** The invariant between queries *)
Definition primary_ok (p : LocalSet) : Prop :=
  (is_programmed p = true -> 0 <= programmed_point p < chunk * sets) /\
  parity p = xsum es (Z.to_nat sets) (fun i => entry (member p (Z.of_nat i))).
Definition backup_ok (g : nat) (b : LocalBackupSet) : Prop :=
  parity_after_puncture b = xsum es (Z.to_nat sets) (but es g (fun i => entry (elem (backup_tag b) (Z.of_nat i)))).
Definition group_ok (back : list LocalBackupSet) (g : nat) (bg : LocalBackupSetGroup) : Prop :=
  0 <= group_consumed bg <= per /\ first bg = Z.of_nat g * per /\
  forall k, group_consumed bg <= k < per -> backup_ok g (back !!! Z.to_nat (first bg + k)).
Definition repl_ok (g : nat) (r : LocalReplacementGroup) : Prop :=
  0 <= consumed r <= per /\ length (indices r) = Z.to_nat per /\ length (values r) = Z.to_nat per /\
  forall k, (k < Z.to_nat per)%nat -> 0 <= indices r !!! k < chunk * sets /\
    indices r !!! k / chunk = Z.of_nat g /\ values r !!! k = entry (indices r !!! k).
Definition store_ok (m : gmap Z DBEntry) : Prop := forall q e, m !! q = Some e -> e = entry q.

Record inv (st : State) : Prop := {
  inv_mask : is_mask_query (ctx_ st) = false;
  inv_np : length (primary_sets_ st) = Z.to_nat (primary_set_num_ c);
  inv_primary : forall j, (j < length (primary_sets_ st))%nat -> primary_ok (primary_sets_ st !!! j);
  inv_nb : length (local_backup_sets_ st) = Z.to_nat (total_backup_set_num_ c);
  inv_ng : length (local_backup_set_groups_ st) = Z.to_nat sets;
  inv_group : forall g, (g < Z.to_nat sets)%nat ->
    group_ok (local_backup_sets_ st) g (local_backup_set_groups_ st !!! g);
  inv_nr : length (local_replacement_groups_ st) = Z.to_nat sets;
  inv_repl : forall g, (g < Z.to_nat sets)%nat -> repl_ok g (local_replacement_groups_ st !!! g);
  inv_cache : store_ok (local_cache_ st);
  inv_miss : store_ok (local_miss_elements_ st)
}.

(** A primary set holds index [(chunk_id, o)] and may be spent on it. *)
Definition hits (p : LocalSet) (chunk_id o : Z) : bool :=
  negb (is_programmed p && (chunk_id =? programmed_point p / chunk)) && (o =? offset (tag p) chunk_id).

Lemma hits_member p chunk_id o : hits p chunk_id o = true -> member p chunk_id = chunk_id * chunk + o.
Proof.
  unfold hits, member. intros [H1 H2]%andb_true_iff. apply negb_true_iff in H1. rewrite H1.
  apply Z.eqb_eq in H2. unfold elem. lia.
Qed.

Lemma find_hit_spec prim n i chunk_id o : (i + n <= length prim)%nat ->
  exists r, find_hit aes_ecb c n i prim chunk_id o = Ok r /\
  match r with
  | Some j => (j < length prim)%nat /\ hits (prim !!! j) chunk_id o = true
  | None => forall j, (i <= j < i + n)%nat -> hits (prim !!! j) chunk_id o = false
  end.
Proof.
  revert i. induction n as [|n IH]; intros i Hn; cbn [find_hit].
  - exists None. split; [done|]. intros j Hj. lia.
  - rewrite (vget_total prim i) by lia. run. unfold MemberTestWithLongKey.
    rewrite mask_offset, (geo_chunk _ _ _ G). fold (offset (tag (prim !!! i)) chunk_id).
    fold (hits (prim !!! i) chunk_id o). destruct (hits (prim !!! i) chunk_id o) eqn:E.
    + exists (Some i). split; [done|]. split; [lia|done].
    + destruct (IH (S i) ltac:(lia)) as (r & -> & Hr). exists r. split; [done|].
      destruct r; [done|]. intros j Hj. destruct (decide (j = i)) as [->|]; [done|]. apply Hr. lia.
Qed.

(** *** Recovery *)

(** The hidden set's parity, the reply and the replacement leave the entry. *)
Lemma unhide (f : nat -> DBEntry) k r e :
  (k < Z.to_nat sets)%nat -> (forall i, (i < Z.to_nat sets)%nat -> length (f i) = es) -> length r = es -> f k = e ->
  exor (exor (xsum es (Z.to_nat sets) f) (xsum es (Z.to_nat sets) (fun i => if decide (i = k) then r else f i))) r = e.
Proof.
  intros Hk Hf Hr <-. rewrite (xsum_pick _ _ f k) by done.
  rewrite (xsum_pick _ _ (fun i => if decide (i = k) then r else f i) k) by (try done; intros; case_decide; auto).
  rewrite decide_True by done.
  rewrite (xsum_ext _ _ (but es k (fun i => if decide (i = k) then r else f i)) (but es k f))
    by (intros; unfold but; by case_decide).
  set (A := xsum _ _ _).
  assert (length A = es) as HA by (apply length_xsum; intros; apply length_but; auto).
  rewrite <- (exor_assoc _ (exor A r) r), (exor_cancel A r) by lia.
  rewrite (exor_comm A (f k)). apply exor_cancel. rewrite Hf; lia.
Qed.

(** The refreshed primary set: a backup set programmed at the queried index. *)
Lemma refreshed_ok b q g : 0 <= q < chunk * sets -> g = Z.to_nat (q / chunk) -> backup_ok g b ->
  primary_ok (mkSet (backup_tag b) (exor (entry q) (parity_after_puncture b)) q true).
Proof.
  intros Hq -> Hb. destruct (split_index q Hq) as (Hc & _ & _). split; [done|]. cbn [parity].
  rewrite Hb. unfold member. cbn [is_programmed programmed_point tag andb].
  assert (forall i, (i < Z.to_nat sets)%nat -> length (entry (elem (backup_tag b) (Z.of_nat i))) = es) as Hlen
    by (intros i Hi; apply length_entry, elem_range; lia).
  match goal with |- _ = xsum _ _ ?f => rewrite (xsum_pick es (Z.to_nat sets) f (Z.to_nat (q / chunk))) end.
  - rewrite Z2Nat.id, Z.eqb_refl, exor_comm by lia. f_equal. apply xsum_ext. intros i Hi. unfold but.
    case_decide; [done|]. by rewrite (proj2 (Z.eqb_neq _ _)) by lia.
  - intros i Hi. destruct (_ =? _); [by apply length_entry|by apply Hlen].
  - lia.
Qed.

Lemma inv_with_ctx st q j : inv st -> inv (with_ctx (mkCtx false q j) st).
Proof. intros []. by split. Qed.

Lemma store_insert m q : store_ok m -> store_ok (<[q := entry q]> m).
Proof.
  intros Hm q' e. destruct (decide (q' = q)) as [->|].
  - rewrite lookup_insert_eq. naive_solver.
  - rewrite lookup_insert_ne by done. apply Hm.
Qed.

Lemma inv_with_cache st q : inv st -> inv (with_cache (<[q := entry q]> (local_cache_ st)) st).
Proof. intros []. split; try done. by apply store_insert. Qed.

(** One query and its reply. *)
Definition exchange (s : QueryServiceServer) (q : Z) (prg : nat -> Z) (st : State) : res (State * DBEntry) :=
  '(st, b) ← GenerateIndexQuery aes_ecb c q prg st;
  reply ← GenerateIndexReply s b;
  RecoverIndexReply c reply st.

(** A mask query changes nothing and returns what the cache holds. *)
Lemma mask_exchange st q prg : 0 <= q ->
  ('(st, b) ← mask_query c prg q st; reply ← GenerateIndexReply sv b; RecoverIndexReply c reply st)
  = Ok (with_ctx (mkCtx false q (hit_set_id (ctx_ st))) st,
        match local_cache_ st !! q with Some e => e | None => ZeroEntry (entry_size_ c) end).
Proof.
  intros Hq. pose proof chunk_pos. pose proof chunk_sets_fit. unfold mask_query, GenerateMaskQuery, defined.
  rewrite (geo_chunk _ _ _ G). rewrite (proj2 (Z.eqb_neq _ _)) by lia. run.
  rewrite GenerateIndexReply_eq; [done|]. intros i Hi'.
  pose proof (Z.mod_pos_bound (prg i) chunk chunk_pos).
  pose proof (index_range (Z.of_nat i) (prg i mod chunk) ltac:(lia) ltac:(lia)).
  rewrite (u64_small (_ * chunk)), u64_small by nia. lia.
Qed.

(** The same over indices: the edited set, its reply and the replacement. *)
Lemma unhide_entry (m : nat -> Z) k r :
  (k < Z.to_nat sets)%nat -> (forall i, (i < Z.to_nat sets)%nat -> 0 <= m i < chunk * sets) -> 0 <= r < chunk * sets ->
  (x ← XorFromRaw (xsum es (Z.to_nat sets) (fun i => entry (m i)))
     (xsum es (Z.to_nat sets) (fun i => entry (if decide (i = k) then r else m i)));
   XorFromRaw x (entry r)) = Ok (entry (m k)).
Proof.
  intros Hk Hm Hr.
  assert (length (xsum es (Z.to_nat sets) (fun i => entry (m i))) = es) as L1
    by (apply length_xsum; intros; apply length_entry; auto).
  assert (length (xsum es (Z.to_nat sets) (fun i => entry (if decide (i = k) then r else m i))) = es) as L2
    by (apply length_xsum; intros; apply length_entry; case_decide; auto).
  rewrite XorFromRaw_eq by congruence. run.
  rewrite XorFromRaw_eq by (rewrite (length_exor es), length_entry; done). f_equal.
  rewrite (xsum_ext _ _ (fun i => entry (if decide (i = k) then r else m i))
    (fun i => if decide (i = k) then entry r else entry (m i))) by (intros; by case_decide).
  apply (unhide (fun i => entry (m i)) k); [done| |by apply length_entry|done].
  intros; apply length_entry; auto.
Qed.

(** The state after the replacement is consumed, and after the refresh. *)
Lemma inv_spent st q g r :
  inv st -> g = Z.to_nat (q / chunk) -> r = local_replacement_groups_ st !!! g -> (g < Z.to_nat sets)%nat ->
  consumed r <> per ->
  inv (mkState (ctx_ st) (primary_sets_ st) (local_backup_sets_ st) (<[q := entry q]> (local_cache_ st))
         (local_miss_elements_ st) (local_backup_set_groups_ st)
         (<[g := mkRepl (u64 (consumed r + 1)) (indices r) (values r)]> (local_replacement_groups_ st))).
Proof.
  intros Hi -> -> Hg Hr. pose proof (geo_per _ _ _ G). destruct Hi. split; try done.
  - cbn [local_replacement_groups_]. by rewrite length_insert.
  - cbn [local_replacement_groups_]. intros g' Hg'. destruct (decide (g' = Z.to_nat (q / chunk))) as [->|Hne].
    + rewrite list_lookup_total_insert_eq by lia. destruct (inv_repl0 _ Hg) as (Hc & Hx2 & Hx3 & Hx4).
      split; [|done]. cbn [consumed]. rewrite u64_small by lia. lia.
    + rewrite list_lookup_total_insert_ne by done. auto.
  - by apply store_insert.
Qed.

Lemma inv_refresh st q j g bg b :
  inv st -> 0 <= q < chunk * sets -> g = Z.to_nat (q / chunk) -> bg = local_backup_set_groups_ st !!! g ->
  group_consumed bg <> per -> b = local_backup_sets_ st !!! Z.to_nat (first bg + group_consumed bg) ->
  (j < length (primary_sets_ st))%nat ->
  inv (mkState (ctx_ st)
         (<[j := mkSet (backup_tag b) (exor (entry q) (parity_after_puncture b)) q true]> (primary_sets_ st))
         (local_backup_sets_ st) (local_cache_ st) (local_miss_elements_ st)
         (<[g := mkGroup (u64 (group_consumed bg + 1)) (first bg)]> (local_backup_set_groups_ st))
         (local_replacement_groups_ st)).
Proof.
  intros Hi Hq -> -> Hc -> Hj. destruct (split_index q Hq) as (Hg & _ & _). pose proof (geo_per _ _ _ G). destruct Hi.
  destruct (inv_group0 (Z.to_nat (q / chunk)) ltac:(lia)) as (Hbc & Hbf & Hbk). split; try done.
  - cbn [primary_sets_]. by rewrite length_insert.
  - cbn [primary_sets_]. intros j' Hj'. rewrite length_insert in Hj'. destruct (decide (j' = j)) as [->|].
    + rewrite list_lookup_total_insert_eq by done. apply (refreshed_ok _ _ _ Hq eq_refl). apply Hbk. lia.
    + rewrite list_lookup_total_insert_ne by done. auto.
  - cbn [local_backup_set_groups_]. by rewrite length_insert.
  - cbn [local_backup_set_groups_ local_backup_sets_]. intros g Hg'. destruct (decide (g = Z.to_nat (q / chunk))) as [->|].
    + rewrite list_lookup_total_insert_eq by lia. unfold group_ok. cbn [group_consumed first].
      rewrite u64_small by lia. split; [lia|]. split; [done|]. intros k Hk. apply Hbk. lia.
    + rewrite list_lookup_total_insert_ne by done. auto.
Qed.

(** What recovery does with the reply to a query that spent set [j]. *)
Lemma spend_ok st q j :
  inv st -> 0 <= q < chunk * sets -> (j < length (primary_sets_ st))%nat ->
  hits (primary_sets_ st !!! j) (q / chunk) (q mod chunk) = true ->
  let r := local_replacement_groups_ st !!! Z.to_nat (q / chunk) in
  consumed r <> per ->
  wp (RecoverIndexReply c (SerializeSetParityResponse (xsum es (Z.to_nat sets) (fun i => entry
        (if decide (i = Z.to_nat (q / chunk)) then indices r !!! Z.to_nat (consumed r)
         else member (primary_sets_ st !!! j) (Z.of_nat i))))) (with_ctx (mkCtx false q (Z.of_nat j)) st))
     (fun '(st', e) => inv st' /\ e = entry q /\ local_cache_ st' = <[q := entry q]> (local_cache_ st)).
Proof.
  intros Hi Hq Hj Hhit r Hr. pose proof (split_index q Hq) as (Hc & Ho & Hsplit).
  pose proof Hi as []. destruct (inv_primary0 j Hj) as [Hpp Hpar].
  destruct (inv_repl0 (Z.to_nat (q / chunk)) ltac:(lia)) as (Hrc & Hri & Hrv & Hrk). fold r in Hrc, Hri, Hrv, Hrk.
  destruct (Hrk (Z.to_nat (consumed r)) ltac:(lia)) as (Hix & _ & Hval).
  destruct (inv_group0 (Z.to_nat (q / chunk)) ltac:(lia)) as (Hgc & Hgf & _).
  pose proof chunk_pos. pose proof (geo_per _ _ _ G). pose proof (geo_total _ _ _ G).
  pose proof (inv_spent _ q _ r (inv_with_ctx st q (Z.of_nat j) Hi) eq_refl eq_refl ltac:(lia) Hr) as Hspent.
  unfold RecoverIndexReply, DeserializeSetParityResponse, SerializeSetParityResponse.
  rewrite response_roundtrip. cbn [with_ctx ctx_ is_mask_query current_query_index hit_set_id
    local_replacement_groups_ primary_sets_ local_backup_sets_ local_backup_set_groups_ local_cache_
    local_miss_elements_ response_parity] in Hspent |- *.
  rewrite (geo_chunk _ _ _ G). unfold defined. rewrite (proj2 (Z.eqb_neq _ _)) by lia. run.
  rewrite (vgetz_total (local_replacement_groups_ st) (q / chunk)) by lia. run. fold r.
  rewrite (vgetz_total (values r) (consumed r)) by lia. run.
  rewrite (vsetz_total (local_replacement_groups_ st) (q / chunk)) by lia. run.
  rewrite (vgetz_total (primary_sets_ st) (Z.of_nat j)), Nat2Z.id by lia. run. rewrite Hval, Hpar.
  set (p := primary_sets_ st !!! j) in *.
  pose proof (unhide_entry (fun i => member p (Z.of_nat i)) (Z.to_nat (q / chunk)) _ ltac:(lia)
    ltac:(intros; apply member_range; [done|lia]) Hix) as Hun.
  cbn beta in Hun. rewrite Z2Nat.id, (hits_member _ _ _ Hhit), <- Hsplit in Hun by lia.
  apply bind_ok in Hun as (x & -> & Hx). run. unfold Xor. rewrite Hx. run.
  rewrite (vgetz_total (local_backup_set_groups_ st) (q / chunk)) by lia. run.
  set (bg := local_backup_set_groups_ st !!! Z.to_nat (q / chunk)) in *.
  destruct (Z.eqb_spec (group_consumed bg) per) as [_|Hb]; [split_and!; [exact Hspent|done|done]|].
  rewrite (vgetz_total (local_backup_sets_ st)) by nia. run.
  rewrite XorFromRaw_eq.
  2:{ rewrite length_entry by done. destruct (inv_group0 (Z.to_nat (q / chunk)) ltac:(lia)) as (_ & _ & Hbk).
      fold bg in Hbk. rewrite (Hbk (group_consumed bg)) by lia. symmetry. apply length_xsum. intros i Hi'.
      apply length_but. intros _. apply length_entry, elem_range. lia. }
  run. rewrite (vsetz_total (primary_sets_ st)), (vsetz_total (local_backup_set_groups_ st)), Nat2Z.id by lia. run.
  split_and!; [|done|done].
  by apply (inv_refresh _ q j (Z.to_nat (q / chunk)) bg _ Hspent).
Qed.

(** Whether the client can answer a query at all. *)
Definition answered (st : State) (q : Z) : bool :=
  match local_cache_ st !! q with
  | Some _ => true
  | None =>
      match find_hit aes_ecb c (Z.to_nat (primary_set_num_ c)) 0 (primary_sets_ st) (q / chunk) (q mod chunk) with
      | Ok (Some _) => negb (consumed (local_replacement_groups_ st !!! Z.to_nat (q / chunk)) =? per)
      | Ok None => match local_miss_elements_ st !! q with Some _ => true | None => false end
      | _ => false
      end
  end.

Lemma exchange_ok st q prg :
  inv st -> 0 <= q < chunk * sets ->
  wp (exchange sv q prg st) (fun '(st', e) => inv st' /\ e = if answered st q then entry q else ZeroEntry (entry_size_ c)).
Proof.
  intros Hi Hq. pose proof (split_index q Hq) as (Hc & Ho & Hsplit). pose proof chunk_pos.
  unfold exchange, GenerateIndexQuery, answered.
  destruct (local_cache_ st !! q) as [e|] eqn:Hcache.
  { rewrite mask_exchange, Hcache by lia. split; [by apply inv_with_ctx|]. by apply (inv_cache _ Hi). }
  pose proof (inv_np _ Hi) as Hnp. pose proof (inv_nr _ Hi) as Hnr.
  rewrite (geo_chunk _ _ _ G). unfold defined. rewrite (proj2 (Z.eqb_neq _ _)) by lia. run.
  destruct (find_hit_spec (primary_sets_ st) (Z.to_nat (primary_set_num_ c)) 0 (q / chunk) (q mod chunk) ltac:(lia))
    as (hit & -> & Hhit). run. destruct hit as [j|].
  - destruct Hhit as [Hj Hhit]. destruct (inv_primary _ Hi j Hj) as [Hpp _].
    rewrite (vget_total (primary_sets_ st) j) by done. run.
    rewrite <- (geo_chunk _ _ _ G), Expand_eq, programmed_eq by done. rewrite (geo_chunk _ _ _ G). run.
    rewrite (vgetz_total (local_replacement_groups_ st) (q / chunk)) by lia. run.
    destruct (inv_repl _ Hi (Z.to_nat (q / chunk)) ltac:(lia)) as (Hrc & Hri & Hrv & Hrk).
    set (r := local_replacement_groups_ st !!! Z.to_nat (q / chunk)) in *.
    destruct (Z.eqb_spec (consumed r) per) as [Heq|Hne]; cbn [negb].
    { rewrite mask_exchange, Hcache by lia. split; [by apply inv_with_ctx|done]. }
    rewrite (vgetz_total (indices r) (consumed r)) by lia. run.
    rewrite vsetz_total by (rewrite length_tabulate; lia). run. rewrite insert_tabulate.
    destruct (Hrk (Z.to_nat (consumed r)) ltac:(lia)) as (Hix & _ & _).
    rewrite GenerateIndexReply_eq by (intros i Hi'; case_decide; [done|apply member_range; [done|lia]]). run.
    rewrite (inv_mask _ Hi). eapply wp_mono; [by apply spend_ok|].
    intros [st' e] (Hi' & -> & _). by split.
  - destruct (local_miss_elements_ st !! q) as [e|] eqn:Hmiss.
    + rewrite (inv_miss _ Hi _ _ Hmiss), mask_exchange by lia. cbn [with_cache local_cache_].
      rewrite lookup_insert_eq. split; [|done]. by apply inv_with_ctx, inv_with_cache.
    + rewrite mask_exchange, Hcache by lia. split; [by apply inv_with_ctx|done].
Qed.

(** C7.  A Piano exchange returns the queried entry and keeps the hint tables
    right: in every state whose hint tables hold the parities of their sets, for
    every index of the padded database and every random words, the query, the
    server's reply and the recovery return, the hint tables of the new state
    again hold the parities of their sets, and the entry returned is the one of
    the database, unless the client could not answer (no set holds the index and
    it is no local miss, or the chunk's replacements are spent), when the zero
    entry is returned. *)
Theorem exchange_correct st q prg :
  inv st -> 0 <= q < chunk * sets ->
  wp (exchange sv q prg st) (fun '(st', e) => inv st' /\ e = if answered st q then entry q else ZeroEntry (entry_size_ c)).
Proof. apply exchange_ok. Qed.

(** *** Preprocessing *)

(** The hint tables after the chunks below [m] were streamed. *)
Record progress (m : nat) (st : State) : Prop := {
  pr_mask : is_mask_query (ctx_ st) = false;
  pr_cache : local_cache_ st = ∅;
  pr_np : length (primary_sets_ st) = Z.to_nat (primary_set_num_ c);
  pr_primary : forall j, (j < length (primary_sets_ st))%nat -> let p := primary_sets_ st !!! j in
    is_programmed p = false /\ parity p = xsum es m (fun i => entry (elem (tag p) (Z.of_nat i)));
  pr_nb : length (local_backup_sets_ st) = Z.to_nat (total_backup_set_num_ c);
  pr_backup : forall j, (j < length (local_backup_sets_ st))%nat -> let b := local_backup_sets_ st !!! j in
    parity_after_puncture b = xsum es m (but es (j / Z.to_nat per) (fun i => entry (elem (backup_tag b) (Z.of_nat i))));
  pr_group : local_backup_set_groups_ st = tabulate (Z.to_nat sets) (fun g => mkGroup 0 (Z.of_nat g * per));
  pr_nr : length (local_replacement_groups_ st) = Z.to_nat sets;
  pr_repl : forall g, (g < Z.to_nat sets)%nat -> let r := local_replacement_groups_ st !!! g in
    consumed r = 0 /\ length (indices r) = Z.to_nat per /\ length (values r) = Z.to_nat per /\
    ((g < m)%nat -> repl_ok g r);
  pr_miss : store_ok (local_miss_elements_ st);
  pr_covered : forall q, 0 <= q < Z.of_nat m * chunk ->
    (exists j, (j < length (primary_sets_ st))%nat /\ offset (tag (primary_sets_ st !!! j)) (q / chunk) = q mod chunk)
    \/ is_Some (local_miss_elements_ st !! q)
}.

(** Chunk [m] of the database, and its entries. *)
Definition chunk_bytes (m : Z) : list Z :=
  take (Z.to_nat (chunk * entry_size_ c)) (drop (Z.to_nat (m * chunk * entry_size_ c)) db).

Lemma GetDBChunk_eq m : 0 <= m < sets -> GetDBChunk sv m = Ok (SerializeDBChunk m (chunk_bytes m)).
Proof.
  intros Hm. pose proof (geo_fit _ _ _ G). pose proof (geo_es _ _ _ G). pose proof (geo_db _ _ _ G).
  pose proof chunk_pos as Hcp. pose proof chunk_sets_fit as (Hcs & _ & Hsf & _).
  assert (0 <= m * chunk * entry_size_ c /\ (m + 1) * chunk * entry_size_ c <= chunk * sets * entry_size_ c) as [Hlo Hhi] by nia.
  assert (0 <= m * chunk /\ (m + 1) * chunk <= chunk * sets) as [Hlo' Hhi'] by nia.
  assert (m * chunk < 2 ^ 64 /\ (m + 1) * chunk < 2 ^ 64) as [] by (clear - Hcp Hcs Hlo' Hhi'; lia).
  unfold GetDBChunk. cbn [s_chunk_size_ s_entry_size_ db_].
  rewrite (u64_small (m + 1)), (u64_small (m * chunk)), (u64_small ((m + 1) * chunk)) by lia.
  rewrite (u64_small (m * chunk * _)), (u64_small ((m + 1) * chunk * _)) by lia.
  unfold defined, slice. rewrite (proj2 (Z.leb_le (m * chunk * _) _)) by nia. run.
  rewrite (proj2 (Z.leb_le _ (Z.of_nat _))) by lia. run. unfold chunk_bytes. do 4 f_equal. lia.
Qed.

Lemma length_chunk_bytes m : 0 <= m < sets -> Z.of_nat (length (chunk_bytes m)) = chunk * entry_size_ c.
Proof.
  intros Hm. pose proof (geo_es _ _ _ G). pose proof (geo_db _ _ _ G). pose proof chunk_pos.
  unfold chunk_bytes. rewrite length_take_le; [nia|]. rewrite length_drop. nia.
Qed.

Lemma chunk_entry m o : 0 <= m < sets -> 0 <= o < chunk ->
  slice (chunk_bytes m) (u64 (o * entry_size_ c)) (entry_size_ c) = Ok (entry (m * chunk + o)) /\
  element (chunk_bytes m) (u64 (o * entry_size_ c)) (entry_size_ c) = Ok (entry (m * chunk + o)).
Proof.
  intros Hm Ho. pose proof (geo_fit _ _ _ G). pose proof (geo_es _ _ _ G). pose proof chunk_pos.
  pose proof (length_chunk_bytes m Hm). rewrite u64_small by nia.
  assert (slice (chunk_bytes m) (o * entry_size_ c) (entry_size_ c) = Ok (entry (m * chunk + o))) as Hsl.
  { unfold slice. rewrite (proj2 (Z.leb_le _ _)) by nia. unfold entry, chunk_bytes.
    rewrite skipn_firstn_comm, take_take, drop_drop. do 3 f_equal; nia. }
  split; [done|]. unfold element, defined. rewrite (proj2 (Z.ltb_lt _ _)) by nia. by run.
Qed.

(** **** The jobs *)
Lemma ranges_concat p n t :
  concat (map (fun i => seq (i * p) (Nat.min ((i + 1) * p) n - i * p)) (seq 0 t)) = seq 0 (Nat.min (t * p) n).
Proof.
  induction t as [|t IH]; [done|]. rewrite seq_S, map_app, concat_app, IH. cbn [map concat Nat.add].
  rewrite app_nil_r. destruct (decide (t * p <= n)%nat) as [Hle|Hgt].
  - rewrite (Nat.min_l (t * p)) by done.
    replace (Nat.min (S t * p) n) with (t * p + (Nat.min ((t + 1) * p) n - t * p))%nat by nia.
    by rewrite seq_app.
  - replace (Nat.min ((t + 1) * p) n - t * p)%nat with 0%nat by nia.
    rewrite app_nil_r. f_equal. nia.
Qed.

Lemma concat_map_app_perm {A B} (f g : A -> list B) l :
  Permutation (concat (map (fun x => f x ++ g x) l)) (concat (map f l) ++ concat (map g l)).
Proof.
  induction l as [|x l IH]; [done|]. cbn [map concat]. rewrite IH. solve_Permutation.
Qed.

Lemma concat_map_map {A B} (f : A -> B) (l : list (list A)) : concat (map (map f) l) = map f (concat l).
Proof. induction l as [|x l IH]; [done|]. cbn. by rewrite IH, map_app. Qed.

(** The range of thread [tid] among [num] slots. *)
Lemma thread_range num t tid :
  0 <= num -> 0 < t -> num + t < 2 ^ 64 -> (tid < Z.to_nat t)%nat ->
  let per_t := u64 (u64 (num + t) - 1) / t in
  let start := u64 (Z.of_nat tid * per_t) in
  let e := Z.min (u64 (start + per_t)) num in
  let p := Z.to_nat per_t in
  seq (Z.to_nat start) (Z.to_nat (e - start)) = seq (tid * p) (Nat.min ((tid + 1) * p) (Z.to_nat num) - tid * p).
Proof.
  intros Hn Ht Hfit Htid per_t start e p.
  assert (per_t = (num + t - 1) / t) as Hp by (unfold per_t; by rewrite (u64_small (num + t)), u64_small by lia).
  pose proof (div_mul_bounds (num + t - 1) t ltac:(lia) Ht) as [Hb _]. rewrite <- Hp in Hb.
  assert (0 <= per_t) by (rewrite Hp; apply Z.div_pos; lia).
  assert ((Z.of_nat tid + 1) * per_t <= num + t - 1) as Hle.
  { transitivity (t * per_t); [apply Z.mul_le_mono_nonneg_r; lia|lia]. }
  assert (start = Z.of_nat tid * per_t) as Hst by (unfold start; rewrite u64_small by nia; done).
  unfold e, p. rewrite Hst, u64_small by nia. f_equal; nia.
Qed.

Lemma threads_cover num t : 0 <= num -> 0 < t -> num + t < 2 ^ 64 ->
  Nat.min (Z.to_nat t * Z.to_nat (u64 (u64 (num + t) - 1) / t)) (Z.to_nat num) = Z.to_nat num.
Proof.
  intros Hn Ht Hfit. rewrite (u64_small (num + t)), u64_small by lia. apply Nat.min_r.
  pose proof (div_mul_bounds (num + t - 1) t ltac:(lia) Ht) as [_ Hb].
  assert (0 <= (num + t - 1) / t) by (apply Z.div_pos; lia). nia.
Qed.

Lemma all_jobs_perm : 0 < thread_num_ c ->
  primary_set_num_ c + thread_num_ c < 2 ^ 64 -> total_backup_set_num_ c + thread_num_ c < 2 ^ 64 ->
  Permutation (all_jobs c) (map PrimaryJob (seq 0 (Z.to_nat (primary_set_num_ c)))
    ++ map BackupJob (seq 0 (Z.to_nat (total_backup_set_num_ c)))).
Proof.
  intros Ht Hp Hb. unfold all_jobs, thread_jobs. rewrite concat_map_app_perm.
  pose proof (geo_primary _ _ _ G). pose proof (geo_per _ _ _ G). pose proof (geo_total _ _ _ G). pose proof (geo_set _ _ _ G).
  apply Permutation_app.
  - rewrite <- (map_map (fun tid => _) (map PrimaryJob)), concat_map_map. apply Permutation_map.
    erewrite map_ext_in; [|intros tid Htid%in_seq; apply (thread_range (primary_set_num_ c)); lia].
    by rewrite ranges_concat, threads_cover by lia.
  - rewrite <- (map_map (fun tid => _) (map BackupJob)), concat_map_map. apply Permutation_map.
    erewrite map_ext_in; [|intros tid Htid%in_seq; apply (thread_range (total_backup_set_num_ c)); nia].
    by rewrite ranges_concat, threads_cover by nia.
Qed.

(** What one job does to its slot, for chunk [m]. *)
Definition primary_step (m : nat) (p : LocalSet) : LocalSet :=
  mkSet (tag p) (exor (parity p) (entry (elem (tag p) (Z.of_nat m)))) (programmed_point p) (is_programmed p).
Definition backup_step (m j : nat) (b : LocalBackupSet) : LocalBackupSet :=
  if decide (j / Z.to_nat per = m)%nat then b
  else mkBackup (backup_tag b) (exor (parity_after_puncture b) (entry (elem (backup_tag b) (Z.of_nat m)))).

#[local] Instance job_eq_dec : EqDecision job.
Proof. solve_decision. Defined.

Lemma group_test m j : 0 < per -> (Z.of_nat m < sets) -> Z.of_nat j < total_backup_set_num_ c ->
  (Z.of_nat j <? u64 (Z.of_nat m * per)) || (u64 (u64 (Z.of_nat m + 1) * per) <=? Z.of_nat j)
  = negb (bool_decide (j / Z.to_nat per = m)%nat).
Proof.
  intros Hp Hm Hj. pose proof (geo_total _ _ _ G). pose proof (geo_total_fit _ _ _ G). pose proof chunk_sets_fit.
  assert ((Z.of_nat m + 1) * per <= per * sets) by nia.
  rewrite (u64_small (Z.of_nat m + 1)) by lia. rewrite !u64_small by nia.
  assert (j / Z.to_nat per = m <-> (m * Z.to_nat per <= j < (m + 1) * Z.to_nat per))%nat as Hdiv.
  { pose proof (Nat.div_mod j (Z.to_nat per) ltac:(lia)).
    pose proof (Nat.mod_upper_bound j (Z.to_nat per) ltac:(lia)). split; [intros <-; nia|].
    intros Hb. symmetry. apply (Nat.div_unique j (Z.to_nat per) m (j - m * Z.to_nat per)); nia. }
  case_bool_decide as Hd; cbn [negb]; [apply Hdiv in Hd; apply orb_false_iff; split; [apply Z.ltb_ge|apply Z.leb_gt]; nia|].
  apply orb_true_iff. rewrite Z.ltb_lt, Z.leb_le.
  destruct (decide (j < m * Z.to_nat per)%nat) as [|Hge]; [left; nia|right].
  assert (~ (j < (m + 1) * Z.to_nat per)%nat) by (intros Hlt; apply Hd, Hdiv; lia). nia.
Qed.

Lemma step_other {A} (x y : job) l (a b : A) : y <> x ->
  (if decide (y ∈ l ++ [x]) then a else b) = (if decide (y ∈ l) then a else b).
Proof.
  intros Hne. destruct (decide (y ∈ l)) as [Hy|Hy].
  - rewrite decide_True; [done|]. apply elem_of_app. by left.
  - rewrite decide_False; [done|]. rewrite elem_of_app, list_elem_of_singleton. naive_solver.
Qed.

Lemma step_this {A} (x : job) l (a b : A) : (if decide (x ∈ l ++ [x]) then a else b) = a.
Proof. rewrite decide_True; [done|]. apply elem_of_app. right. by left. Qed.

(** Jobs in any order, each once: every slot is stepped exactly once. *)
Lemma run_jobs_spec m order prim back :
  0 < per -> Z.of_nat m < sets -> NoDup order ->
  (forall j, PrimaryJob j ∈ order -> (j < length prim)%nat) ->
  (forall j, BackupJob j ∈ order -> (j < length back)%nat) ->
  Z.of_nat (length back) = total_backup_set_num_ c ->
  (forall j, (j < length prim)%nat -> length (parity (prim !!! j)) = es) ->
  (forall j, (j < length back)%nat -> length (parity_after_puncture (back !!! j)) = es) ->
  wp (for_each order (run_job aes_ecb c (Z.of_nat m) (chunk_bytes (Z.of_nat m)))
        (replicate (Z.to_nat (chunk_size_ c)) false, prim, back))
     (fun '(hit, prim', back') =>
        length hit = Z.to_nat chunk /\ length prim' = length prim /\ length back' = length back /\
        (forall o, (o < Z.to_nat chunk)%nat -> hit !!! o = true ->
           exists j, (j < length prim)%nat /\ offset (tag (prim !!! j)) (Z.of_nat m) = Z.of_nat o) /\
        (forall j, (j < length prim)%nat ->
           prim' !!! j = if decide (PrimaryJob j ∈ order) then primary_step m (prim !!! j) else prim !!! j) /\
        (forall j, (j < length back)%nat ->
           back' !!! j = if decide (BackupJob j ∈ order) then backup_step m j (back !!! j) else back !!! j)).
Proof.
  intros Hper Hm Hnd Hpb Hbb Htot Hlp Hlb. pose proof chunk_pos as Hcp.
  eapply wp_mono; [apply (wp_for_each _ _ (fun l1 '(hit, prim', back') =>
        length hit = Z.to_nat chunk /\ length prim' = length prim /\ length back' = length back /\
        (forall o, (o < Z.to_nat chunk)%nat -> hit !!! o = true ->
           exists j, (j < length prim)%nat /\ offset (tag (prim !!! j)) (Z.of_nat m) = Z.of_nat o) /\
        (forall j, (j < length prim)%nat ->
           prim' !!! j = if decide (PrimaryJob j ∈ l1) then primary_step m (prim !!! j) else prim !!! j) /\
        (forall j, (j < length back)%nat ->
           back' !!! j = if decide (BackupJob j ∈ l1) then backup_step m j (back !!! j) else back !!! j)))|by intros [[??]?]].
  - rewrite length_replicate, (geo_chunk _ _ _ G). split_and!; try done.
    intros o Ho. by rewrite lookup_total_replicate_lt.
  - intros l1 x l2 [[hit prim'] back'] Hord (Hh & Hp & Hb & Hhit & Hprim & Hback).
    assert (x ∉ l1) as Hx.
    { rewrite Hord in Hnd. apply NoDup_app in Hnd as (_ & Hdis & _). intros Hin. by apply (Hdis x Hin); left. }
    assert (x ∈ order) as Hxo by (rewrite Hord; apply elem_of_app; right; left).
    destruct x as [j|j]; cbn [run_job].
    + specialize (Hpb j Hxo). rewrite (vget_total prim' j) by lia. run.
      rewrite (Hprim j Hpb), decide_False by done. rewrite mask_offset. fold (offset (tag (prim !!! j)) (Z.of_nat m)).
      pose proof (offset_range (tag (prim !!! j)) (Z.of_nat m)) as Ho.
      rewrite vsetz_total by lia. run. destruct (chunk_entry (Z.of_nat m) _ ltac:(lia) Ho) as [-> _]. run.
      fold (elem (tag (prim !!! j)) (Z.of_nat m)).
      rewrite XorFromRaw_eq by (rewrite Hlp, length_entry; [done|apply elem_range; lia|done]). run.
      rewrite (vset_total prim' j) by lia. run. rewrite !length_insert. split_and!; try done.
      * intros o Ho' Hto. destruct (decide (o = Z.to_nat (offset (tag (prim !!! j)) (Z.of_nat m)))) as [->|Hne].
        -- exists j. split; [done|]. lia.
        -- rewrite list_lookup_total_insert_ne in Hto by done. by apply Hhit.
      * intros j' Hj'. destruct (decide (j' = j)) as [->|Hne].
        -- rewrite list_lookup_total_insert_eq by lia. by rewrite step_this.
        -- rewrite list_lookup_total_insert_ne, Hprim, step_other by congruence. done.
      * intros j' Hj'. by rewrite Hback, step_other.
    + specialize (Hbb j Hxo). rewrite group_test by lia.
      assert (forall b', b' = backup_step m j (back !!! j) -> forall j', (j' < length back)%nat ->
        <[j := b']> back' !!! j' = if decide (BackupJob j' ∈ l1 ++ [BackupJob j]) then backup_step m j' (back !!! j') else back !!! j')
        as Hupd.
      { intros b' -> j' Hj'. destruct (decide (j' = j)) as [->|Hne].
        - rewrite list_lookup_total_insert_eq by lia. by rewrite step_this.
        - rewrite list_lookup_total_insert_ne, Hback, step_other by congruence. done. }
      assert (forall j', (j' < length prim)%nat -> prim' !!! j' =
        if decide (PrimaryJob j' ∈ l1 ++ [BackupJob j]) then primary_step m (prim !!! j') else prim !!! j') as Hprim'.
      { intros j' Hj'. by rewrite Hprim, step_other. }
      specialize (Hback j Hbb) as Hbj. rewrite decide_False in Hbj by done.
      case_bool_decide as Hdiv; cbn [negb].
      * split_and!; try done. intros j' Hj'. rewrite <- (Hupd (back' !!! j)) by (try done; rewrite Hbj; unfold backup_step; by rewrite decide_True).
        rewrite list_insert_id; [done|]. apply list_lookup_lookup_total_lt. lia.
      * rewrite (vget_total back' j) by lia. run. rewrite Hbj, mask_offset. fold (offset (backup_tag (back !!! j)) (Z.of_nat m)).
        pose proof (offset_range (backup_tag (back !!! j)) (Z.of_nat m)) as Ho.
        destruct (chunk_entry (Z.of_nat m) _ ltac:(lia) Ho) as [-> _]. run.
        fold (elem (backup_tag (back !!! j)) (Z.of_nat m)).
        rewrite XorFromRaw_eq by (rewrite Hlb, length_entry; [done|apply elem_range; lia|done]). run.
        rewrite (vset_total back' j) by lia. run. rewrite length_insert. split_and!; try done.
        apply Hupd. unfold backup_step. by rewrite decide_False.
Qed.

(** The elements no primary set hit are kept as local misses. *)
Lemma miss_loop m hit miss :
  Z.of_nat m < sets -> length hit = Z.to_nat chunk -> store_ok miss ->
  wp (for_ (Z.to_nat (chunk_size_ c)) (fun j miss =>
        hit ← vget hit j;
        if (hit : bool) then Ok miss
        else entry ← element (chunk_bytes (Z.of_nat m)) (u64 (Z.of_nat j * entry_size_ c)) (entry_size_ c);
          Ok (<[u64 (Z.of_nat j + u64 (Z.of_nat m * chunk_size_ c)) := entry]> miss)) miss)
     (fun miss' => store_ok miss' /\ (forall q, is_Some (miss !! q) -> is_Some (miss' !! q)) /\
        forall j, (j < Z.to_nat chunk)%nat -> hit !!! j = false -> is_Some (miss' !! (Z.of_nat m * chunk + Z.of_nat j))).
Proof.
  intros Hm Hh Hs. rewrite (geo_chunk _ _ _ G). pose proof chunk_pos as Hcp. pose proof chunk_sets_fit as (Hcs & _).
  apply (wp_for _ _ (fun i miss' => store_ok miss' /\ (forall q, is_Some (miss !! q) -> is_Some (miss' !! q)) /\
    forall j, (j < i)%nat -> hit !!! j = false -> is_Some (miss' !! (Z.of_nat m * chunk + Z.of_nat j)))).
  - split_and!; [done|done|lia].
  - intros i miss' Hi (Hso & Hk & Hj). rewrite (vget_total hit i) by lia. run.
    destruct (hit !!! i) eqn:E.
    + cbn [wp]. split_and!; [done|done|]. intros j Hj' Hf. destruct (decide (j = i)) as [->|]; [congruence|]. apply Hj; [lia|done].
    + destruct (chunk_entry (Z.of_nat m) (Z.of_nat i) ltac:(lia) ltac:(lia)) as [_ ->]. run.
      pose proof (index_range (Z.of_nat m) (Z.of_nat i) ltac:(lia) ltac:(lia)).
      rewrite (u64_small (Z.of_nat m * chunk)), u64_small, Z.add_comm by nia.
      split_and!; [by apply store_insert| |].
      * intros q Hq. destruct (decide (q = Z.of_nat m * chunk + Z.of_nat i)) as [->|];
          [by rewrite lookup_insert_eq|rewrite lookup_insert_ne by done; by apply Hk].
      * intros j Hj' Hf. destruct (decide (j = i)) as [->|]; [by rewrite lookup_insert_eq|].
        rewrite lookup_insert_ne by lia. apply Hj; [lia|done].
  - intros miss' (? & ? & ?). done.
Qed.

(** The replacements of the chunk are drawn from it. *)
Lemma repl_loop m prg groups :
  Z.of_nat m < sets -> length groups = Z.to_nat sets ->
  (let r := groups !!! m in consumed r = 0 /\ length (indices r) = Z.to_nat per /\ length (values r) = Z.to_nat per) ->
  wp (for_ (Z.to_nat (backup_set_num_per_chunk_ c)) (fun k groups =>
    let offset := Z.land (prg k) (u64 (chunk_size_ c - 1)) in
    g ← vgetz groups (Z.of_nat m);
    idx ← vset (indices g) k (u64 (offset + u64 (Z.of_nat m * chunk_size_ c)));
    entry ← element (chunk_bytes (Z.of_nat m)) (u64 (offset * entry_size_ c)) (entry_size_ c);
    vals ← vset (values g) k entry;
    vsetz groups (Z.of_nat m) (mkRepl (consumed g) idx vals)) groups)
   (fun groups' => exists r, groups' = <[m := r]> groups /\ consumed r = 0 /\ repl_ok m r).
Proof.
  intros Hm Hg (H1' & H2' & H3'). pose proof chunk_pos as Hcp. pose proof chunk_sets_fit as (Hcs & _).
  pose proof (geo_per _ _ _ G).
  apply (wp_for _ _ (fun i groups' => exists r, groups' = <[m := r]> groups /\ consumed r = 0 /\
    length (indices r) = Z.to_nat per /\ length (values r) = Z.to_nat per /\
    forall k, (k < i)%nat -> 0 <= indices r !!! k < chunk * sets /\
      indices r !!! k / chunk = Z.of_nat m /\ values r !!! k = entry (indices r !!! k))).
  - exists (groups !!! m). rewrite list_insert_id by (apply list_lookup_lookup_total_lt; lia).
    split_and!; try done. lia.
  - intros i groups' Hi (r & -> & Hc & Hri & Hrv & Hk). cbv zeta. rewrite mask_offset.
    pose proof (Z.mod_pos_bound (prg i) chunk Hcp) as Ho. set (o := prg i mod chunk) in *.
    rewrite vgetz_total, Nat2Z.id, list_lookup_total_insert_eq by (rewrite ?length_insert; lia). run.
    rewrite (vset_total (indices r)) by lia. run.
    destruct (chunk_entry (Z.of_nat m) o ltac:(lia) Ho) as [_ ->]. run.
    rewrite (vset_total (values r)) by lia. run.
    rewrite vsetz_total, Nat2Z.id, list_insert_insert_eq by (rewrite ?length_insert; lia). cbn [wp].
    eexists. split; [done|]. cbn [consumed indices values]. rewrite !length_insert. split_and!; try done.
    pose proof (index_range (Z.of_nat m) o ltac:(lia) Ho) as Hr.
    rewrite (geo_chunk _ _ _ G), (u64_small (Z.of_nat m * chunk)), u64_small by nia.
    intros k Hki. destruct (decide (k = i)) as [->|].
    + rewrite !list_lookup_total_insert_eq by lia. rewrite Z.add_comm. split; [done|]. split; [|done].
      rewrite Z.add_comm, Z.div_add, Z.div_small by lia. lia.
    + rewrite !list_lookup_total_insert_ne by done. apply Hk. lia.
  - intros groups' (r & -> & Hc & Hri & Hrv & Hk). exists r. split; [done|]. split; [done|].
    split; [lia|]. split_and!; try done; lia.
Qed.

(** One chunk streamed. *)
Lemma preprocess_step m st order prg :
  0 < per -> Z.of_nat m < sets -> 0 < thread_num_ c ->
  primary_set_num_ c + thread_num_ c < 2 ^ 64 -> total_backup_set_num_ c + thread_num_ c < 2 ^ 64 ->
  Permutation order (all_jobs c) -> progress m st ->
  wp (b ← GetDBChunk sv (Z.of_nat m); PreprocessDBChunk aes_ecb c order prg b st) (progress (S m)).
Proof.
  intros Hper Hm Ht Hf1 Hf2 Hord P. pose proof chunk_pos as Hcp.
  rewrite all_jobs_perm in Hord by done. destruct P.
  rewrite GetDBChunk_eq by lia. run. unfold PreprocessDBChunk, DeserializeDBChunk, SerializeDBChunk.
  rewrite chunk_roundtrip. cbn [chunk_index chunks].
  assert (forall j, PrimaryJob j ∈ order <-> (j < length (primary_sets_ st))%nat) as Hpj.
  { intros j. rewrite Hord, pr_np0, elem_of_app, !list_elem_of_fmap. setoid_rewrite elem_of_seq. split;
      [intros [(? & [= ->] & ?)|(? & [=] & ?)]; lia|intros ?; left; exists j; split; [done|lia]]. }
  assert (forall j, BackupJob j ∈ order <-> (j < length (local_backup_sets_ st))%nat) as Hbj.
  { intros j. rewrite Hord, pr_nb0, elem_of_app, !list_elem_of_fmap. setoid_rewrite elem_of_seq. split;
      [intros [(? & [=] & ?)|(? & [= ->] & ?)]; lia|intros ?; right; exists j; split; [done|lia]]. }
  apply wp_bind. eapply wp_mono.
  { apply run_jobs_spec; [done|done| |by intros ? ?%Hpj|by intros ? ?%Hbj| | |].
    - rewrite Hord. apply NoDup_app. split_and!.
      + apply NoDup_fmap_2; [intros ?? [=]; done|apply NoDup_seq].
      + intros x (j & -> & _)%list_elem_of_fmap (j' & [=] & _)%list_elem_of_fmap.
      + apply NoDup_fmap_2; [intros ?? [=]; done|apply NoDup_seq].
    - rewrite pr_nb0. pose proof (geo_total _ _ _ G). pose proof (geo_set _ _ _ G). nia.
    - intros j Hj. destruct (pr_primary0 j Hj) as [_ ->]. apply length_xsum. intros i Hi. apply length_entry, elem_range. lia.
    - intros j Hj. rewrite (pr_backup0 j Hj). apply length_xsum. intros i Hi. apply length_but. intros _.
      apply length_entry, elem_range. lia. }
  intros [[hit prim] back] (Hh & Hpl & Hbl & Hhit & Hprim & Hback). run.
  apply wp_bind. eapply wp_mono; [by apply miss_loop|]. intros miss (Hms & Hmk & Hmc). run.
  apply wp_bind. destruct (pr_repl0 m ltac:(lia)) as (Hr1 & Hr2 & Hr3 & _).
  eapply wp_mono; [by apply (repl_loop m prg (local_replacement_groups_ st))|]. intros groups (r & -> & Hrc & Hrok). cbn [wp].
  split; cbn [ctx_ local_cache_ primary_sets_ local_backup_sets_ local_backup_set_groups_ local_replacement_groups_ local_miss_elements_];
    try done.
  - congruence.
  - rewrite Hpl. intros j Hj. cbv zeta. rewrite Hprim by done; rewrite decide_True by (by apply Hpj).
    cbn [primary_step is_programmed parity tag xsum]. destruct (pr_primary0 j Hj) as [Hip Hpar].
    split; [done|]. by rewrite Hpar.
  - congruence.
  - rewrite Hbl. intros j Hj. cbv zeta. rewrite Hback by done; rewrite decide_True by (by apply Hbj).
    specialize (pr_backup0 j Hj). cbv zeta in pr_backup0. unfold backup_step. cbn [xsum]. unfold but at 2.
    destruct (decide (j / Z.to_nat per = m)%nat) as [Hjm|Hne].
    + rewrite pr_backup0, decide_True by done. symmetry. apply exor_zero_r, length_xsum.
      intros i Hi. apply length_but. intros _. apply length_entry, elem_range. lia.
    + rewrite decide_False by done. cbn [parity_after_puncture backup_tag]. by rewrite pr_backup0.
  - by rewrite length_insert.
  - intros g Hg. cbv zeta. destruct (decide (g = m)) as [->|Hne].
    + rewrite list_lookup_total_insert_eq by lia. destruct Hrok as (? & ? & ? & ?). by split_and!.
    + rewrite list_lookup_total_insert_ne by done. destruct (pr_repl0 g Hg) as (? & ? & ? & Hrr).
      split_and!; try done. intros Hgm. apply Hrr. lia.
  - intros q Hq. rewrite Hpl. destruct (decide (q < Z.of_nat m * chunk)) as [Hlt|Hge].
    + destruct (pr_covered0 q ltac:(lia)) as [(j & Hj & Ho)|Hs]; [left|right; by apply Hmk].
      exists j. split; [done|]. rewrite Hprim by done; rewrite decide_True by (by apply Hpj). done.
    + assert (q / chunk = Z.of_nat m) as Hdiv by (symmetry; apply (Z.div_unique _ _ _ (q - Z.of_nat m * chunk)); nia).
      pose proof (Z.mod_pos_bound q chunk Hcp). pose proof (Z.div_mod q chunk ltac:(lia)) as Hdm. rewrite Hdiv in Hdm.
      destruct (hit !!! Z.to_nat (q mod chunk)) eqn:E.
      * left. destruct (Hhit (Z.to_nat (q mod chunk)) ltac:(lia) E) as (j & Hj & Ho). exists j. split; [done|].
        rewrite Hprim by done; rewrite decide_True by (by apply Hpj). cbn [primary_step tag]. rewrite Hdiv, Ho. lia.
      * right. replace q with (Z.of_nat m * chunk + Z.of_nat (Z.to_nat (q mod chunk))) by lia. apply Hmc; [lia|done].
Qed.

(** All chunks streamed: the hint tables are right, and every index can be
    answered. *)
Lemma progress_inv st : 0 < per -> progress (Z.to_nat sets) st -> inv st.
Proof.
  intros Hper P. destruct P. pose proof (geo_total _ _ _ G) as Htot. pose proof (geo_set _ _ _ G).
  split; try done.
  - intros j Hj. destruct (pr_primary0 j Hj) as [Hip Hpar]. split; [by rewrite Hip|].
    rewrite Hpar. apply xsum_ext. intros i Hi. unfold member. by rewrite Hip.
  - by rewrite pr_group0, length_tabulate.
  - intros g Hg. rewrite pr_group0, tabulate_lookup by done. unfold group_ok. cbn [group_consumed first].
    split; [lia|]. split; [done|]. intros k Hk.
    assert (Z.to_nat (Z.of_nat g * per + k) < length (local_backup_sets_ st))%nat as Hlt by nia.
    specialize (pr_backup0 _ Hlt). cbv zeta in pr_backup0. unfold backup_ok. rewrite pr_backup0. do 2 f_equal.
    symmetry. apply (Nat.div_unique _ _ g (Z.to_nat k)); nia.
  - intros g Hg. by apply pr_repl0.
  - rewrite pr_cache0. intros q e. by rewrite lookup_empty.
Qed.

Lemma progress_answered st q : 0 < per -> progress (Z.to_nat sets) st -> 0 <= q < chunk * sets -> answered st q = true.
Proof.
  intros Hper P Hq. destruct P. destruct (split_index q Hq) as (Hc & Ho & _). unfold answered.
  rewrite pr_cache0, lookup_empty.
  destruct (find_hit_spec (primary_sets_ st) (Z.to_nat (primary_set_num_ c)) 0 (q / chunk) (q mod chunk) ltac:(lia))
    as (hit & -> & Hhit). destruct hit as [j|].
  - destruct (pr_repl0 (Z.to_nat (q / chunk)) ltac:(lia)) as (-> & _). by rewrite (proj2 (Z.eqb_neq _ _)) by lia.
  - destruct (pr_covered0 q ltac:(nia)) as [(j & Hj & Hoff)|[e ->]]; [|done]. exfalso.
    specialize (Hhit j ltac:(lia)). unfold hits in Hhit. destruct (pr_primary0 j Hj) as [Hip _].
    rewrite Hip, Hoff, Z.eqb_refl in Hhit. done.
Qed.

(** The tables [InitializeLocalSets] builds, before the first chunk. *)
Lemma initial_progress : progress 0 (InitializeLocalSets c).
Proof.
  pose proof (geo_total _ _ _ G) as Htot. pose proof (geo_per _ _ _ G). pose proof (geo_total_fit _ _ _ G).
  unfold InitializeLocalSets. split; cbn [ctx_ is_mask_query local_cache_ primary_sets_ local_backup_sets_
    local_backup_set_groups_ local_replacement_groups_ local_miss_elements_]; rewrite ?length_tabulate; try done.
  - intros j Hj. cbv zeta. rewrite tabulate_lookup by done. done.
  - intros j Hj. cbv zeta. rewrite tabulate_lookup by done. done.
  - apply map_ext_in. intros g Hg%in_seq. rewrite u64_small by nia. done.
  - intros g Hg. cbv zeta. rewrite tabulate_lookup by done. cbn [consumed indices values].
    rewrite !length_replicate. split_and!; try done. lia.
  - lia.
Qed.

(** The whole preprocessing, the threads of every chunk in any order. *)
Lemma preprocess_all order prg :
  0 < per -> 0 < thread_num_ c ->
  primary_set_num_ c + thread_num_ c < 2 ^ 64 -> total_backup_set_num_ c + thread_num_ c < 2 ^ 64 ->
  (forall m, Permutation (order m) (all_jobs c)) ->
  wp (for_ (Z.to_nat sets) (fun m st => b ← GetDBChunk sv (Z.of_nat m); PreprocessDBChunk aes_ecb c (order m) (prg m) b st)
        (InitializeLocalSets c)) (progress (Z.to_nat sets)).
Proof.
  intros Hper Ht H1' H2' Hord. pose proof (geo_set _ _ _ G).
  apply (wp_for _ _ progress); [apply initial_progress| |done].
  intros m st Hm Hp. apply preprocess_step; [done|lia|done|done|done|done|done].
Qed.
End online.

(** ** The constructors *)
Lemma double_until_pow fuel i target chunk :
  (i + fuel <= 64)%nat -> double_until fuel (2 ^ Z.of_nat i) target = Ok chunk ->
  exists k, (i <= k < 64)%nat /\ chunk = 2 ^ Z.of_nat k.
Proof.
  revert i. induction fuel as [|fuel IH]; intros i Hi; cbn [double_until]; [done|].
  destruct (f64_ltb _ _); [|intros [= <-]; exists i; split; [lia|done]].
  destruct (decide (i = 63)%nat) as [->|].
  - assert (fuel = 0)%nat as -> by lia. done.
  - assert (2 ^ Z.of_nat (S i) = 2 ^ Z.of_nat i * 2) as He by (rewrite Nat2Z.inj_succ, Z.pow_succ_r; lia).
    assert (2 ^ Z.of_nat (S i) < 2 ^ 64) by (apply Z.pow_lt_mono_r; lia).
    rewrite u64_small, <- He by lia. intros Hd. destruct (IH (S i) ltac:(lia) Hd) as (k & Hk & ->). exists k. split; [lia|done].
Qed.

(** The chunk size is a power of two and the chunks cover the database. *)
Lemma GenChunkParams_spec n chunk set :
  0 < n -> n + chunk < 2 ^ 64 -> GenChunkParams n = Ok (chunk, set) ->
  exists lc, 0 <= lc < 64 /\ chunk = 2 ^ lc /\ 0 < set /\ n <= chunk * set.
Proof.
  intros Hn Hfit H. unfold GenChunkParams in H. cbv zeta in H. inv_ok.
  match goal with H : double_until _ _ _ = Ok ?x |- _ =>
    apply (double_until_pow 64 0) in H as (k & Hk & ->); [|lia] end.
  assert (0 < 2 ^ Z.of_nat k) as Hp by (apply Z.pow_pos_nonneg; lia).
  exists (Z.of_nat k). split; [lia|]. split; [done|].
  rewrite (u64_small (n + _)), u64_small by lia. set (ch := 2 ^ Z.of_nat k) in *.
  pose proof (Z.div_mod (n + ch - 1) ch ltac:(lia)). pose proof (Z.mod_pos_bound (n + ch - 1) ch Hp).
  split; [apply Z.div_str_pos; lia|nia].
Qed.

Lemma length_GenDBEntry es key id h : length (GenDBEntry es key id h) = Z.to_nat es.
Proof. unfold GenDBEntry. apply length_tabulate. Qed.

(** Padding completes the last chunk and keeps the database as a prefix. *)
Lemma QueryServiceServer_new_spec db n es seed s :
  0 < n -> 0 < es -> Z.of_nat (length db) = n * es ->
  QueryServiceServer_new db n es seed = Ok s ->
  n + s_chunk_size_ s < 2 ^ 64 -> s_chunk_size_ s * s_set_size_ s * es < 2 ^ 64 ->
  GenChunkParams n = Ok (s_chunk_size_ s, s_set_size_ s) /\
  (exists pad, db_ s = db ++ pad) /\
  Z.of_nat (length (db_ s)) = s_chunk_size_ s * s_set_size_ s * es /\
  s = mkServer (db_ s) (s_set_size_ s) (s_chunk_size_ s) (s_chunk_size_ s * s_set_size_ s) es.
Proof.
  intros Hn Hes Hl H Hf1 Hf2. unfold QueryServiceServer_new in H.
  destruct (GenChunkParams n) as [[chunk set]| |] eqn:E; [|done..]. cbn [mbind res_bind] in H. injection H as <-.
  unfold AlignDBToChunkBoundary in *. cbn [s_chunk_size_ s_set_size_ s_entry_num_ s_entry_size_ db_] in *.
  assert (n + chunk < 2 ^ 64) as Hf1' by (clear - Hf1; destruct (_ <? _); exact Hf1).
  assert (chunk * set * es < 2 ^ 64) as Hf2' by (clear - Hf2; destruct (_ <? _); exact Hf2).
  destruct (GenChunkParams_spec n chunk set Hn Hf1' E) as (lc & Hlc & -> & Hset & Hcov).
  assert (0 < 2 ^ lc) by (apply Z.pow_pos_nonneg; lia). assert (2 ^ lc * set < 2 ^ 64) by nia.
  rewrite (u64_small (2 ^ lc * set)) by nia. destruct (Z.ltb_spec n (2 ^ lc * set)) as [Hlt|Hge].
  - split; [done|]. cbn [db_ s_chunk_size_ s_set_size_]. rewrite u64_small by lia.
    assert (forall k, exists pad, loop k (fun i db => db ++ GenDBEntry es seed (Z.of_nat i) FNVHash) db = db ++ pad /\
      length pad = (k * Z.to_nat es)%nat) as Hloop.
    { induction k as [|k (pad & IH1 & IH2)]; [exists []; split; [by rewrite app_nil_r|done]|].
      rewrite loop_S, IH1. eexists. rewrite <- app_assoc. split; [done|]. rewrite length_app, length_GenDBEntry. lia. }
    destruct (Hloop (Z.to_nat (2 ^ lc * set - n))) as (pad & -> & Hpad).
    split; [by exists pad|]. split; [rewrite length_app, Hpad; nia|].
    f_equal. rewrite u64_small by lia. lia.
  - split; [done|]. cbn [db_ s_chunk_size_ s_set_size_]. assert (n = 2 ^ lc * set) as -> by lia.
    split; [exists []; by rewrite app_nil_r|]. split; [lia|done].
Qed.

Lemma round_up_ge x t : 0 < x -> 0 < t -> x + t < 2 ^ 64 -> x <= round_up x t < 2 ^ 64.
Proof.
  intros Hx Ht Hfit. unfold round_up. rewrite (u64_small (x + t)), (u64_small (x + t - 1)) by lia.
  pose proof (div_mul_bounds (x + t - 1) t ltac:(lia) Ht). rewrite u64_small; lia.
Qed.

(** The sizes the machine words of a client and its server must hold. *)
Definition fits (c : Config) : Prop :=
  entry_num_ c + chunk_size_ c < 2 ^ 64 /\ chunk_size_ c * set_size_ c * entry_size_ c < 2 ^ 64 /\
  thread_num_ c < 2 ^ 63 /\ primary_set_num_ c + thread_num_ c < 2 ^ 64 /\
  backup_set_num_per_chunk_ c * set_size_ c + thread_num_ c < 2 ^ 64.

(** Both ends built for one database agree on its geometry. *)
Lemma new_geometry db n threads es seed s c st :
  0 < n -> 0 < es -> 0 <= threads -> Z.of_nat (length db) = n * es ->
  QueryServiceServer_new db n es seed = Ok s -> QueryServiceClient_new n threads es = Ok (c, st) -> fits c ->
  (exists lc, geometry c lc (db_ s) /\ s = mkServer (db_ s) (set_size_ c) (2 ^ lc) (2 ^ lc * set_size_ c) (entry_size_ c)) /\
  (exists pad, db_ s = db ++ pad) /\ entry_size_ c = es /\ n <= chunk_size_ c * set_size_ c /\
  st = InitializeLocalSets c /\ 0 < thread_num_ c /\ 0 < backup_set_num_per_chunk_ c.
Proof.
  intros Hn Hes Hth Hl Hs Hc Hfit. unfold QueryServiceClient_new, Initialize in Hc. cbv zeta in Hc.
  apply bind_ok in Hc as (c' & Hc' & [= -> <-]). apply bind_ok in Hc' as (tq & Htq & Hc').
  apply bind_ok in Hc' as ([chunk set] & Hgen & Hc'). apply bind_ok in Hc' as (bk & Hbk & [= <-]).
  vm_compute in Hbk. injection Hbk as <-.
  unfold fits in Hfit. cbn [entry_num_ chunk_size_ set_size_ entry_size_ thread_num_ primary_set_num_
    backup_set_num_per_chunk_ total_backup_set_num_] in *. destruct Hfit as (F1 & F2 & F3 & F4 & F5).
  assert (s_chunk_size_ s = chunk /\ s_set_size_ s = set) as [Hsc Hss].
  { unfold QueryServiceServer_new in Hs. rewrite Hgen in Hs. cbn [mbind res_bind] in Hs.
    injection Hs as Hs'. rewrite <- Hs'. unfold AlignDBToChunkBoundary. cbn [s_entry_num_]. by destruct (n <? _). }
  destruct (QueryServiceServer_new_spec db n es seed s Hn Hes Hl Hs) as (_ & Hpad & Hlen & Heq); [congruence..|].
  rewrite Hsc, Hss in Hlen, Heq.
  destruct (GenChunkParams_spec n chunk set Hn F1 Hgen) as (lc & Hlc & -> & Hset & Hcov).
  set (t := if 0 <? threads then threads else 1) in *.
  assert (0 < t) by (unfold t; destruct (Z.ltb_spec 0 threads); lia).
  match goal with |- context [round_up ?x t] => pose proof (round_up_ge x t ltac:(lia) ltac:(lia) ltac:(lia)) as Hru end.
  assert (0 <= round_up tq t < 2 ^ 64) as Hpr by apply u64_range.
  generalize dependent (round_up tq t). generalize dependent (round_up 3684 t). intros per Hru F5 np F4 Hnp.
  assert (0 <= per * set) by (apply Z.mul_nonneg_nonneg; lia).
  rewrite (u64_small (per * set)) by lia.
  split; [exists lc; split; [|exact Heq]; split; cbn [entry_num_ chunk_size_ set_size_ entry_size_ thread_num_
    primary_set_num_ backup_set_num_per_chunk_ total_backup_set_num_]; (exact Hlc || exact Hlen || exact F2 || lia)|].
  split; [exact Hpad|]. split; [done|]. split; [exact Hcov|]. split; [done|]. split; lia.
Qed.

(** C8.  The preprocessing makes every index answerable: for a server and a client
    built for one database whose sizes fit the machine words, streaming every
    chunk of the server to the client, the worker threads of each chunk running
    their jobs in any order, returns; the hint tables then hold the parities of
    their sets over the padded database, and the next exchange on any index of
    the original database returns its entry. *)
Theorem preprocess_correct (aes_ecb : Z -> Z) `{ProtobufLaws} db n threads es seed s c st order prg :
  0 < n -> 0 < es -> 0 <= threads -> Z.of_nat (length db) = n * es ->
  QueryServiceServer_new db n es seed = Ok s -> QueryServiceClient_new n threads es = Ok (c, st) -> fits c ->
  (forall m, Permutation (order m) (all_jobs c)) ->
  exists lc, geometry c lc (db_ s) /\
  wp (for_ (Z.to_nat (set_size_ c)) (fun m st =>
        b ← GetDBChunk s (Z.of_nat m); PreprocessDBChunk aes_ecb c (order m) (prg m) b st) st)
     (fun st' => inv aes_ecb c lc (db_ s) st' /\
        forall q prg', 0 <= q < n ->
          wp (exchange aes_ecb c s q prg' st') (fun '(_, e) => e = take (Z.to_nat es) (drop (Z.to_nat (q * es)) db))).
Proof.
  intros Hn Hes Hth Hl Hs Hc Hfit Hord.
  destruct (new_geometry db n threads es seed s c st Hn Hes Hth Hl Hs Hc Hfit)
    as ((lc & G & Heq) & (pad & Hpad) & Hese & Hcov & -> & Ht & Hper).
  destruct Hfit as (F1 & F2 & F3 & F4 & F5). exists lc. split; [done|].
  remember (db_ s) as D eqn:HD. clear HD Hs. subst s.
  pose proof (geo_total _ _ _ G) as Htot. pose proof (geo_chunk _ _ _ G) as Hch.
  eapply wp_mono.
  { apply (preprocess_all aes_ecb c lc D G order prg Hper Ht F4 ltac:(lia) Hord). }
  intros st' Hpr. pose proof (progress_inv aes_ecb c lc D G st' Hper Hpr) as Hinv. split; [done|].
  intros q prg' Hq. eapply wp_mono; [apply (exchange_ok aes_ecb c lc D G st' q prg' Hinv); lia|].
  intros [st'' e] [_ ->]. rewrite (progress_answered aes_ecb c lc D G st' q Hper Hpr) by lia.
  unfold entry. rewrite Hese, Hpad.
  assert (q * es + es <= Z.of_nat (length db)) by nia.
  rewrite drop_app_le, take_app_le by (rewrite ?length_drop; lia). done.
Qed.

(** ** Runs *)
Inductive toy_message := ToyChunk (m : DbChunkProto) | ToyQuery (m : SetParityQueryProto) | ToyResponse (m : SetParityResponseProto).
Definition toy_protobuf : Protobuf := {|
  Buffer := toy_message;
  ser_chunk := ToyChunk; par_chunk b := match b with ToyChunk m => m | _ => mkDbChunk 0 [] end;
  ser_query := ToyQuery; par_query b := match b with ToyQuery m => m | _ => mkQuery [] end;
  ser_response := ToyResponse; par_response b := match b with ToyResponse m => m | _ => mkResponse [] end
|}.
Lemma toy_protobuf_laws : @ProtobufLaws toy_protobuf.
Proof. by split. Qed.

Definition toy_aes (x : Z) : Z := Z.shiftr ((x + 1) * 0x9E3779B97F4A7C15F39CC0605CEDC835) 64.
Definition toy_db : list Z := [7; 1; 8; 2; 8; 1; 8; 2; 8].
Definition toy_config : Config := mkConfig 276 9 2 8 2 1 276 3684 7368.

Lemma preprocess_correct_witness :
  exists s, QueryServiceServer_new toy_db 9 1 99 = Ok s /\
  QueryServiceClient_new 9 2 1 = Ok (toy_config, InitializeLocalSets toy_config) /\
  exists lc, geometry toy_config lc (db_ s) /\
  wp (for_ (Z.to_nat (set_size_ toy_config)) (fun m st =>
        b ← GetDBChunk (H := toy_protobuf) s (Z.of_nat m);
        PreprocessDBChunk toy_aes (H := toy_protobuf) toy_config (rev (all_jobs toy_config)) (fun k => Z.of_nat k * 5) b st)
      (InitializeLocalSets toy_config))
     (fun st' => inv toy_aes toy_config lc (db_ s) st' /\
        forall q prg', 0 <= q < 9 ->
          wp (exchange toy_aes (H := toy_protobuf) toy_config s q prg' st')
             (fun '(_, e) => e = take (Z.to_nat 1) (drop (Z.to_nat (q * 1)) toy_db))).
Proof.
  eexists. split; [vm_compute; reflexivity|].
  assert (QueryServiceClient_new 9 2 1 = Ok (toy_config, InitializeLocalSets toy_config)) as Hc.
  { unfold QueryServiceClient_new. assert (Initialize 9 (if 0 <? 2 then 2 else 1) 1 = Ok toy_config) as -> by (vm_compute; reflexivity). done. }
  split; [exact Hc|].
  apply (@preprocess_correct toy_aes toy_protobuf toy_protobuf_laws toy_db 9 2 1 99 _ toy_config _ (fun _ => rev (all_jobs toy_config)) (fun _ k => Z.of_nat k * 5));
    [lia|lia|lia|done|vm_compute; reflexivity|exact Hc| |].
  - unfold fits. cbn. lia.
  - intros _. symmetry. apply Permutation_rev.
Defined.

Definition small_config : Config := mkConfig 3 4 1 2 2 1 3 2 4.
Definition small_db : list Z := [7; 1; 8; 2].
Lemma small_geometry : geometry small_config 1 small_db.
Proof. by split; cbn; try lia. Qed.

Lemma exchange_correct_witness :
  exists st, inv toy_aes small_config 1 small_db st /\
  wp (exchange toy_aes (H := toy_protobuf) small_config (mkServer small_db 2 2 4 1) 3 (fun k => Z.of_nat k) st)
     (fun '(st', e) => inv toy_aes small_config 1 small_db st' /\ e = [2]).
Proof.
  pose proof (@preprocess_all toy_aes toy_protobuf toy_protobuf_laws small_config 1 small_db small_geometry
    (fun _ => all_jobs small_config) (fun _ k => Z.of_nat k) ltac:(cbn; lia) ltac:(cbn; lia) ltac:(cbn; lia) ltac:(cbn; lia)
    ltac:(done)) as Hp.
  destruct (proj1 (wp_iff _ _) Hp) as (st & Hrun & Hpr). clear Hp Hrun.
  pose proof (progress_inv _ _ _ _ small_geometry st ltac:(cbn; lia) Hpr) as Hi.
  pose proof (progress_answered _ _ _ _ small_geometry st 3 ltac:(cbn; lia) Hpr ltac:(cbn; lia)) as Ha.
  exists st. split; [exact Hi|].
  eapply wp_mono.
  - apply (@exchange_correct toy_aes toy_protobuf toy_protobuf_laws small_config 1 small_db small_geometry st 3
      (fun k => Z.of_nat k) Hi). cbn. lia.
  - intros [st' e] [Hi' ->]. rewrite Ha. split; [exact Hi'|done].
Defined.
