(* ===== verification/EcStore.v ===== *)
(** * Batches and ciphertext stores (psi/utils)

    batch_provider_impl: a vector of items read in batches, with its cursor.
    ec_point_store, hash_bucket_cache: the ciphertexts each party collects, in
    memory or spread over bucket files of text lines; the intersection computed
    from two bucketed stores ([FinalizeAndComputeIndices]), and from a memory
    cache and a stream of batches ([ComputeIndicesWithDupCnt]).  index_store: the
    reader of the resulting indices.

    Parameters: the text functions of fmt and abseil ([Text]), the streams of
    yacl ([Streams]), [std::hash] on strings, the order [std::sort] gives to
    equal keys and [std::shuffle] to indices.  A [std::string] is its bytes. *)
From S2P Require Import Prelude.

Abbreviation bytes := (list Z).
Abbreviation DupCnt := (gmap Z Z).

(** [v[k]] on an [std::unordered_map]: a missing key reads as zero. *)
Definition count (m : DupCnt) (k : Z) : Z := default 0 (m !! k).

(** [dst.insert(dst.end(), v.begin() + a, v.begin() + a + n)]. *)
Definition copy_range {A} (v : list A) (a n : nat) : res (list A) :=
  if bool_decide (a + n <= length v)%nat then Ok (take n (drop a v)) else UB.

(** ** batch_provider.h: the interface *)
Class IBasicBatchProvider (P : Type) := {
  ReadNextBatchWithDupCnt : P -> res (list bytes * DupCnt * P)
}.

(** The stream of batches a provider has left: an empty batch ends it. *)
Inductive delivers {P} `{IBasicBatchProvider P} : P -> list (list bytes * DupCnt) -> P -> Prop :=
| delivers_end p d p' : ReadNextBatchWithDupCnt p = Ok ([], d, p') -> delivers p [] p'
| delivers_more p b d p' bs q :
    ReadNextBatchWithDupCnt p = Ok (b, d, p') -> b <> [] -> delivers p' bs q ->
    delivers p ((b, d) :: bs) q.

(** The items a stream of batches carries, each with its extra count. *)
Definition with_counts (b : list bytes * DupCnt) : list (bytes * Z) :=
  imap (fun i x => (x, count b.2 (Z.of_nat i))) b.1.
Definition stream_items (bs : list (list bytes * DupCnt)) : list (bytes * Z) :=
  concat (map with_counts bs).

(** ** batch_provider_impl.h, batch_provider_impl.cc *)
Record MemoryBatchProvider := mkMemory {
  batch_size_ : Z;
  items_ : list bytes;
  labels_ : list bytes;
  buffer_shuffled_indices_ : list Z;
  cursor_index_ : Z
}.
Definition with_cursor (p : MemoryBatchProvider) (c : Z) : MemoryBatchProvider :=
  mkMemory (batch_size_ p) (items_ p) (labels_ p) (buffer_shuffled_indices_ p) c.

Definition zlen {A} (l : list A) : Z := Z.of_nat (length l).

Definition MemoryBatchProvider_new (shuffle : list Z -> list Z) (items : list bytes) (batch_size : Z)
    (labels : list bytes) (enable_shuffle : bool) : MemoryBatchProvider :=
  mkMemory batch_size items labels
    (if enable_shuffle then shuffle (tabulate (length items) Z.of_nat) else []) 0.

Definition ReadNextImpl (p : MemoryBatchProvider) (batch_size : Z) : res (list bytes * MemoryBatchProvider) :=
  _ ← enforce (cursor_index_ p <=? zlen (items_ p));
  let n_items := Z.min batch_size (zlen (items_ p) - cursor_index_ p) in
  batch ← copy_range (items_ p) (Z.to_nat (cursor_index_ p)) (Z.to_nat n_items);
  Ok (batch, with_cursor p (cursor_index_ p + n_items)).

Definition ReadNextBatch (p : MemoryBatchProvider) : res (list bytes * MemoryBatchProvider) :=
  ReadNextImpl p (batch_size_ p).

#[export] Instance MemoryBatchProvider_basic : IBasicBatchProvider MemoryBatchProvider := {
  ReadNextBatchWithDupCnt p := '(b, p') ← ReadNextBatch p; Ok (b, ∅, p')
}.

Definition ReadNextLabeledBatch (p : MemoryBatchProvider)
    : res (list bytes * list bytes * MemoryBatchProvider) :=
  _ ← enforce (negb (bool_decide (labels_ p = [])));
  _ ← enforce (cursor_index_ p <=? zlen (items_ p));
  let n_items := Z.min (batch_size_ p) (zlen (items_ p) - cursor_index_ p) in
  batch_items ← copy_range (items_ p) (Z.to_nat (cursor_index_ p)) (Z.to_nat n_items);
  batch_labels ← copy_range (labels_ p) (Z.to_nat (cursor_index_ p)) (Z.to_nat n_items);
  Ok (batch_items, batch_labels, with_cursor p (cursor_index_ p + n_items)).

Record ShuffledBatch := mkShuffled {
  batch_items : list bytes;
  batch_indices : list Z;
  shuffled_indices : list Z;
  dup_cnts : list Z
}.

Definition ReadNextShuffledBatch (p : MemoryBatchProvider) : res (ShuffledBatch * MemoryBatchProvider) :=
  _ ← enforce (negb (bool_decide (buffer_shuffled_indices_ p = [])));
  _ ← enforce (cursor_index_ p <=? zlen (items_ p));
  let n_items := Z.min (batch_size_ p) (zlen (items_ p) - cursor_index_ p) in
  sb ← for_ (Z.to_nat n_items) (fun i sb =>
    shuffled_index ← vgetz (buffer_shuffled_indices_ p) (cursor_index_ p + Z.of_nat i);
    item ← vgetz (items_ p) shuffled_index;
    Ok (mkShuffled (batch_items sb ++ [item]) (batch_indices sb ++ [cursor_index_ p + Z.of_nat i])
      (shuffled_indices sb ++ [shuffled_index]) (dup_cnts sb))) (mkShuffled [] [] [] []);
  Ok (sb, with_cursor p (cursor_index_ p + n_items)).

(** [PsiItemData::buf] is the item. *)
Definition ReadNext (p : MemoryBatchProvider) (size : Z) : res (list bytes * MemoryBatchProvider) :=
  ReadNextImpl p size.
Definition ReadAll (p : MemoryBatchProvider) : list bytes := items_ p.

(** ** ec_point_store.h: what a store does *)
Class IEcPointStore (S : Type) := {
  Save : S -> bytes -> Z -> res S;
  Flush : S -> S;
  ItemCount : S -> Z
}.
Section ec_store.
Context {S : Type} `{IEcPointStore S}.

Definition Save_one (s : S) (ciphertext : bytes) : res S := Save s ciphertext 0.
Definition Save_all (s : S) (ciphertext : list bytes) : res S :=
  for_each ciphertext (fun ct s => Save_one s ct) s.
Definition Save_dup (s : S) (ciphertext : list bytes) (duplicate_cnt : DupCnt) : res S :=
  for_ (length ciphertext) (fun i s =>
    ct ← vget ciphertext i;
    match duplicate_cnt !! Z.of_nat i with Some c => Save s ct c | None => Save_one s ct end) s.
End ec_store.

(** A store is faithful when it holds what was saved, in order: [holds s l] says
    [s] holds the ciphertexts [l] with their extra counts. *)
Class StoreLaws (S : Type) `{IEcPointStore S} (holds : S -> list (bytes * Z) -> Prop) : Prop := {
  Save_holds s l ct d : holds s l -> 0 <= d < 2 ^ 32 -> wp (Save s ct d) (fun s' => holds s' (l ++ [(ct, d)]));
  Flush_holds s l : holds s l -> holds (Flush s) l;
  ItemCount_holds s l : holds s l -> ItemCount s = u64 (zlen l)
}.

(** *** The store in memory *)
Record MemoryEcPointStore := mkMemStore {
  store_ : list bytes;
  item_extra_dup_cnt_map_ : DupCnt;
  item_cnt_ : Z
}.
Definition MemoryEcPointStore_new : MemoryEcPointStore := mkMemStore [] ∅ 0.
Definition MemoryEcPointStore_Save (s : MemoryEcPointStore) (ciphertext : bytes) (duplicate_cnt : Z)
    : MemoryEcPointStore :=
  mkMemStore (store_ s ++ [ciphertext])
    (if 0 <? duplicate_cnt then <[u32 (zlen (store_ s)) := duplicate_cnt]> (item_extra_dup_cnt_map_ s)
     else item_extra_dup_cnt_map_ s)
    (u64 (item_cnt_ s + 1)).
#[export] Instance MemoryEcPointStore_store : IEcPointStore MemoryEcPointStore := {
  Save s ct d := Ok (MemoryEcPointStore_Save s ct d);
  Flush s := s;
  ItemCount := item_cnt_
}.

(** The contents, and the counts as long as indices fit their 32-bit keys. *)
Definition mem_holds (s : MemoryEcPointStore) (l : list (bytes * Z)) : Prop :=
  store_ s = map fst l /\ item_cnt_ s = u64 (zlen l) /\
  (zlen l < 2 ^ 32 -> forall i, count (item_extra_dup_cnt_map_ s) (Z.of_nat i) = default 0 (snd <$> l !! i)).

(** ** hash_bucket_cache.h, hash_bucket_cache.cc, multiplex_disk_cache.cc *)

(** What is used of fmt, abseil and the standard library on text: the decimal
    form of an unsigned integer, [absl::SimpleAtoi] at a width, [absl::StrSplit],
    [absl::Base64Escape] and [std::hash<std::string>]. *)
Class Text := {
  fmt_u : Z -> bytes;
  SimpleAtoi : Z -> bytes -> option Z;
  StrSplit : bytes -> Z -> list bytes;
  Base64Escape : bytes -> bytes;
  std_hash : bytes -> Z
}.

(** [','] and ['\n']. *)
Definition comma : Z := 44.
Definition newline : Z := 10.

(** The tokens of a line. *)
Fixpoint join (sep : Z) (ts : list bytes) : bytes :=
  match ts with [] => [] | [t] => t | t :: ts' => t ++ sep :: join sep ts' end.

Class TextLaws `{Text} : Prop := {
  SimpleAtoi_fmt w n : 0 <= n < 2 ^ w -> SimpleAtoi w (fmt_u n) = Some n;
  fmt_plain n : (comma ∉ fmt_u n) /\ (newline ∉ fmt_u n);
  StrSplit_join sep ts : ts <> [] -> Forall (fun t => sep ∉ t) ts -> StrSplit (join sep ts) sep = ts;
  Base64Escape_inj : Inj (=) (=) Base64Escape;
  Base64Escape_plain s : (comma ∉ Base64Escape s) /\ (newline ∉ Base64Escape s);
  std_hash_range s : 0 <= std_hash s < 2 ^ 64
}.

(** yacl's streams on one file: what was written is on disk after [Flush], and
    [GetLine] reads what is left of a file up to the next line feed. *)
Class Streams := {
  OutputStream : Type;
  OutputStream_inhabited :: Inhabited OutputStream;
  Write : OutputStream -> bytes -> OutputStream;
  FlushStream : OutputStream -> OutputStream;
  on_disk : OutputStream -> bytes;
  GetLine : bytes -> option (bytes * bytes)
}.
Class StreamLaws `{Streams} (written : OutputStream -> bytes) : Prop := {
  written_Write s b : written (Write s b) = written s ++ b;
  written_Flush s : written (FlushStream s) = written s;
  on_disk_Flush s : on_disk (FlushStream s) = written s;
  GetLine_line l rest : newline ∉ l -> GetLine (l ++ newline :: rest) = Some (l, rest);
  GetLine_end : GetLine [] = None
}.

Record BucketItem := mkBucketItem {
  sec_hash : Z;
  index : Z;
  extra_dup_cnt : Z;
  pad : Z;
  base64_data : bytes
}.

Section hash_bucket_cache.
Context `{Text}.

Definition Serialize (b : BucketItem) : bytes :=
  fmt_u (index b) ++ [comma] ++ fmt_u (extra_dup_cnt b) ++ [comma] ++ base64_data b.

Definition BucketItem_eqb (a b : BucketItem) : bool := bool_decide (base64_data a = base64_data b).

(** The numbers of a line; [SimpleAtoi] fails by returning false. *)
Definition enforce_some (o : option Z) : res Z := match o with Some z => Ok z | None => Throw end.
Definition Deserialize (data_str : bytes) : res BucketItem :=
  let tokens := StrSplit data_str comma in
  _ ← enforce (bool_decide (length tokens = 3%nat));
  t0 ← vget tokens 0; index ← enforce_some (SimpleAtoi 64 t0);
  t1 ← vget tokens 1; extra_dup_cnt ← enforce_some (SimpleAtoi 32 t1);
  t2 ← vget tokens 2;
  Ok (mkBucketItem 0 index extra_dup_cnt 0 t2).

Context `{Streams}.

(** [MultiplexDiskCache] gives bucket [i] the file [GetPath(i)], which outlives
    the stream that writes it: the bucket's stream stands for the file too. *)
Record HashBucketCache := mkCache {
  bucket_os_vec_ : list OutputStream;
  bucket_num_ : Z;
  item_index_ : Z
}.

Definition CreateOutputStreams (BuildOutputStream : nat -> OutputStream) (num_bins : Z)
    : res (list OutputStream) :=
  _ ← enforce (negb (num_bins =? 0));
  for_ (Z.to_nat num_bins) (fun i bin_outs => Ok (bin_outs ++ [BuildOutputStream i])) [].

Definition HashBucketCache_new (BuildOutputStream : nat -> OutputStream) (bucket_num : Z)
    : res HashBucketCache :=
  _ ← enforce (0 <? bucket_num);
  os ← CreateOutputStreams BuildOutputStream bucket_num;
  Ok (mkCache os bucket_num 0).

Definition WriteItem (c : HashBucketCache) (data : bytes) (duplicate_cnt : Z) : res HashBucketCache :=
  let bucket_item := mkBucketItem 0 (item_index_ c) duplicate_cnt 0 (Base64Escape data) in
  _ ← defined (negb (zlen (bucket_os_vec_ c) =? 0));
  let k := std_hash (base64_data bucket_item) mod zlen (bucket_os_vec_ c) in
  out ← vgetz (bucket_os_vec_ c) k;
  os ← vsetz (bucket_os_vec_ c) k (Write (Write out (Serialize bucket_item)) [newline]);
  Ok (mkCache os (bucket_num_ c) (u64 (item_index_ c + 1))).

Definition FlushCache (c : HashBucketCache) : HashBucketCache :=
  mkCache (map FlushStream (bucket_os_vec_ c)) (bucket_num_ c) (item_index_ c).

(** [while (in->GetLine(&line))]: a line takes at least one byte of the file. *)
Fixpoint read_lines (fuel : nat) (file : bytes) (ret : list BucketItem) : res (list BucketItem) :=
  match fuel with
  | O => UB
  | S fuel' =>
      match GetLine file with
      | Some (line, rest) => item ← Deserialize line; read_lines fuel' rest (ret ++ [item])
      | None => Ok ret
      end
  end.
Definition LoadBucketItems (c : HashBucketCache) (index : Z) : res (list BucketItem) :=
  out ← vgetz (bucket_os_vec_ c) index;
  read_lines (S (length (on_disk out))) (on_disk out) [].

(** [CreateCacheFromProvider]: at most [fuel] batches are read. *)
Fixpoint cache_batches {P} `{IBasicBatchProvider P} (fuel : nat) (provider : P) (c : HashBucketCache)
    : res (HashBucketCache * P) :=
  match fuel with
  | O => UB
  | S fuel' =>
      '(items, duplicate_cnt, provider') ← ReadNextBatchWithDupCnt provider;
      if bool_decide (items = []) then Ok (c, provider')
      else
        c' ← for_ (length items) (fun i c =>
          x ← vget items i; WriteItem c x (count duplicate_cnt (Z.of_nat i))) c;
        cache_batches fuel' provider' (FlushCache c')
  end.
Definition CreateCacheFromProvider {P} `{IBasicBatchProvider P} (fuel : nat)
    (BuildOutputStream : nat -> OutputStream) (provider : P) (bucket_num : Z) : res (HashBucketCache * P) :=
  bucket_cache ← HashBucketCache_new BuildOutputStream bucket_num;
  cache_batches fuel provider bucket_cache.

(** *** The store over buckets *)
Record HashBucketEcPointStore := mkBucketStore { cache_ : HashBucketCache; num_bins_ : Z }.
Definition HashBucketEcPointStore_new (BuildOutputStream : nat -> OutputStream) (num_bins : Z)
    : res HashBucketEcPointStore :=
  c ← HashBucketCache_new BuildOutputStream (u32 num_bins); Ok (mkBucketStore c num_bins).
Definition HashBucketEcPointStore_Save (s : HashBucketEcPointStore) (ciphertext : bytes) (duplicate_cnt : Z)
    : res HashBucketEcPointStore :=
  c ← WriteItem (cache_ s) ciphertext duplicate_cnt; Ok (mkBucketStore c (num_bins_ s)).
#[export] Instance HashBucketEcPointStore_store : IEcPointStore HashBucketEcPointStore := {
  Save := HashBucketEcPointStore_Save;
  Flush s := mkBucketStore (FlushCache (cache_ s)) (num_bins_ s);
  ItemCount s := item_index_ (cache_ s)
}.

(** *** The intersection of two bucketed stores *)
Definition bin_indices (self peer : HashBucketEcPointStore) (bin_idx : nat) (indices : list Z)
    : res (list Z) :=
  self_results ← LoadBucketItems (cache_ self) (u32 (Z.of_nat bin_idx));
  peer_results ← LoadBucketItems (cache_ peer) (u32 (Z.of_nat bin_idx));
  let peer_set := foldl (fun s item => {[base64_data item]} ∪ s) (∅ : gset bytes) peer_results in
  for_each self_results (fun item indices =>
    Ok (if bool_decide (base64_data item ∈ peer_set) then indices ++ [index item] else indices)) indices.

Definition FinalizeAndComputeIndices (self peer : HashBucketEcPointStore) : res (list Z) :=
  _ ← enforce (num_bins_ self =? num_bins_ peer);
  let self := Flush self in
  let peer := Flush peer in
  indices ← for_ (Z.to_nat (num_bins_ self)) (bin_indices self peer) [];
  Ok (merge_sort Z.le indices).
End hash_bucket_cache.

(** ** Batches *)

(** A vector of items cut in batches: what is left from position [c] on. *)
Fixpoint batches (fuel : nat) (size : nat) (l : list bytes) : list (list bytes) :=
  match fuel with
  | O => []
  | S fuel' => match l with [] => [] | _ => take size l :: batches fuel' size (drop size l) end
  end.

Lemma concat_batches fuel size l : (0 < size)%nat -> (length l <= fuel)%nat -> concat (batches fuel size l) = l.
Proof.
  intros Hs. revert l. induction fuel as [|fuel IH]; intros l Hl; [by destruct l; cbn in *; [|lia]|].
  destruct l as [|x l]; [done|]. cbn [batches concat]. rewrite IH.
  - by rewrite take_drop.
  - rewrite length_drop. cbn [length] in *. lia.
Qed.

Lemma ReadNextImpl_eq p n :
  0 <= n -> 0 <= cursor_index_ p <= zlen (items_ p) ->
  ReadNextImpl p n = Ok (take (Z.to_nat n) (drop (Z.to_nat (cursor_index_ p)) (items_ p)),
    with_cursor p (cursor_index_ p + Z.min n (zlen (items_ p) - cursor_index_ p))).
Proof.
  intros Hn Hc. unfold ReadNextImpl. rewrite (proj2 (Z.leb_le _ _)) by lia. run.
  unfold copy_range, zlen in *. rewrite bool_decide_true by lia. run. do 2 f_equal.
  destruct (decide (n <= Z.of_nat (length (items_ p)) - cursor_index_ p)).
  - by rewrite Z.min_l by lia.
  - rewrite Z.min_r by lia. rewrite !take_ge by (rewrite length_drop; lia). done.
Qed.

Lemma delivers_batches fuel p :
  0 < batch_size_ p -> 0 <= cursor_index_ p <= zlen (items_ p) ->
  zlen (items_ p) - cursor_index_ p <= Z.of_nat fuel ->
  delivers p (map (fun b => (b, ∅)) (batches fuel (Z.to_nat (batch_size_ p)) (drop (Z.to_nat (cursor_index_ p)) (items_ p))))
    (with_cursor p (zlen (items_ p))).
Proof.
  revert p. induction fuel as [|fuel IH]; intros p Hb Hc Hf.
  - assert (cursor_index_ p = zlen (items_ p)) as E by lia.
    eapply delivers_end. cbn [ReadNextBatchWithDupCnt MemoryBatchProvider_basic]. unfold ReadNextBatch.
    rewrite ReadNextImpl_eq by lia. run. rewrite E. unfold zlen. rewrite Nat2Z.id, drop_all, take_nil.
    by rewrite Z.min_r, Z.sub_diag, Z.add_0_r by lia.
  - destruct (drop (Z.to_nat (cursor_index_ p)) (items_ p)) as [|x l] eqn:E.
    + assert (length (items_ p) <= Z.to_nat (cursor_index_ p))%nat.
      { apply (f_equal length) in E. rewrite length_drop in E. cbn in E. lia. }
      eapply delivers_end. cbn [ReadNextBatchWithDupCnt MemoryBatchProvider_basic]. unfold ReadNextBatch.
      rewrite ReadNextImpl_eq by lia. run. rewrite E, take_nil. unfold zlen in *.
      rewrite Z.min_r by lia. do 3 f_equal. lia.
    + cbn [batches map]. rewrite <- E. eapply delivers_more.
      * cbn [ReadNextBatchWithDupCnt MemoryBatchProvider_basic]. unfold ReadNextBatch.
        rewrite ReadNextImpl_eq by lia. run. rewrite E. reflexivity.
      * rewrite E. destruct (Z.to_nat (batch_size_ p)) eqn:?; [lia|done].
      * rewrite drop_drop. set (m := Z.min _ _). unfold zlen in *.
        assert (length (items_ p) - Z.to_nat (cursor_index_ p) = S (length l))%nat as Hl.
        { apply (f_equal length) in E. rewrite length_drop in E. cbn in E. lia. }
        specialize (IH (with_cursor p (cursor_index_ p + m)) ltac:(done)
          ltac:(cbn; unfold zlen; lia) ltac:(cbn; unfold zlen; lia)).
        cbn [with_cursor batch_size_ items_ cursor_index_] in IH.
        replace (drop (Z.to_nat (cursor_index_ p) + Z.to_nat (batch_size_ p)) (items_ p))
          with (drop (Z.to_nat (cursor_index_ p + m)) (items_ p)); [exact IH|].
        destruct (decide (batch_size_ p <= Z.of_nat (length (items_ p)) - cursor_index_ p)).
        -- f_equal. lia.
        -- rewrite !drop_ge by lia. done.
Qed.

Lemma with_counts_empty b : with_counts (b, ∅) = map (fun x => (x, 0)) b.
Proof.
  unfold with_counts, count. cbn [fst snd]. rewrite (imap_ext _ (const (fun x => (x, 0)))) by (intros; by rewrite lookup_empty).
  apply imap_const.
Qed.

Lemma stream_items_plain bs : stream_items (map (fun b => (b, ∅)) bs) = map (fun x => (x, 0)) (concat bs).
Proof.
  unfold stream_items. rewrite map_map, concat_map. f_equal. apply map_ext, with_counts_empty.
Qed.

(** Reading a vector of items batch by batch until an empty batch comes
    back visits every item exactly once, in order, without extra counts, and no
    batch is longer than the batch size; it ends because each batch but the
    last is not empty. *)
Theorem MemoryBatchProvider_delivers shuffle items batch_size labels enable :
  0 < batch_size ->
  exists bs, delivers (MemoryBatchProvider_new shuffle items batch_size labels enable) bs
      (with_cursor (MemoryBatchProvider_new shuffle items batch_size labels enable) (zlen items)) /\
    stream_items bs = map (fun x => (x, 0)) items /\
    Forall (fun b => 0 < zlen b.1 <= batch_size) bs.
Proof.
  intros Hb. set (p := MemoryBatchProvider_new _ _ _ _ _). unfold zlen in *.
  exists (map (fun b => (b, ∅)) (batches (length items) (Z.to_nat batch_size) items)).
  split; [|split].
  - apply (delivers_batches (length items) p); cbn; unfold zlen; lia.
  - rewrite stream_items_plain, concat_batches; [done|lia|lia].
  - apply List.Forall_map. generalize (length items) at 1. intros fuel. generalize items.
    induction fuel as [|fuel IH]; intros l; cbn [batches]; [constructor|].
    destruct l as [|x l]; constructor; [|apply IH].
    cbn [fst]. rewrite length_take. cbn [length]. lia.
Qed.

Lemma MemoryBatchProvider_delivers_witness :
  0 < 2 /\ exists bs, delivers (MemoryBatchProvider_new id [[1]; [2]; [3]] 2 [] false) bs
      (with_cursor (MemoryBatchProvider_new id [[1]; [2]; [3]] 2 [] false) 3) /\
    stream_items bs = map (fun x => (x, 0)) [[1]; [2]; [3]] /\ Forall (fun b => 0 < zlen b.1 <= 2) bs.
Proof. split; [lia|]. apply (MemoryBatchProvider_delivers id [[1]; [2]; [3]] 2 [] false). lia. Defined.

(** ** The memory store *)
#[export] Instance MemoryEcPointStore_laws : StoreLaws MemoryEcPointStore mem_holds.
Proof.
  split.
  - intros s l ct d (Hs & Hc & Hm) Hd. cbn [wp Save MemoryEcPointStore_store].
    unfold MemoryEcPointStore_Save, mem_holds, zlen in *. cbn [store_ item_cnt_ item_extra_dup_cnt_map_].
    rewrite Hs, Hc, length_map, map_app, length_app. cbn [map length fst].
    split_and!; [done|unfold u64; rewrite wrap_add_l; f_equal; lia|].
    intros Hl i. specialize (Hm ltac:(lia) i). rewrite (u32_small (Z.of_nat _)) by lia.
    destruct (decide (i = length l)) as [->|Hne].
    + rewrite lookup_app_r, Nat.sub_diag by done. cbn.
      destruct (Z.ltb_spec 0 d); unfold count in *; [by rewrite lookup_insert_eq|].
      rewrite Hm, lookup_ge_None_2 by done. cbn. lia.
    + assert (count (if 0 <? d then <[Z.of_nat (length l):=d]> (item_extra_dup_cnt_map_ s) else item_extra_dup_cnt_map_ s)
        (Z.of_nat i) = count (item_extra_dup_cnt_map_ s) (Z.of_nat i)) as ->.
      { destruct (0 <? d); [|done]. unfold count. by rewrite lookup_insert_ne by lia. }
      rewrite Hm. destruct (decide (i < length l)%nat).
      * by rewrite lookup_app_l.
      * rewrite !lookup_ge_None_2; [done|rewrite length_app; cbn; lia|lia].
  - done.
  - intros s l (_ & Hc & _). exact Hc.
Qed.

Section saving.
Context {S : Type} `{IEcPointStore S} (holds : S -> list (bytes * Z) -> Prop) `{!StoreLaws S holds}.

Lemma Save_all_holds s l cts : holds s l -> wp (Save_all s cts) (fun s' => holds s' (l ++ map (fun x => (x, 0)) cts)).
Proof.
  intros Hs. unfold Save_all. apply (wp_for_each cts _ (fun done s' => holds s' (l ++ map (fun x => (x, 0)) done))).
  - by rewrite app_nil_r.
  - intros l1 x l2 s' _ H'. rewrite map_app, app_assoc. cbn [map]. unfold Save_one.
    apply Save_holds; [done|lia].
Qed.

(** [with_counts] one position at a time. *)
Lemma with_counts_take (b : list bytes) d i :
  (i < length b)%nat ->
  with_counts (take (Datatypes.S i) b, d) = with_counts (take i b, d) ++ [(b !!! i, count d (Z.of_nat i))].
Proof.
  intros Hi. unfold with_counts. cbn [fst snd].
  rewrite (take_S_r b i (b !!! i)) by (by apply list_lookup_lookup_total_lt).
  rewrite imap_app. cbn [imap]. by rewrite Nat.add_0_r, length_take_le by lia.
Qed.
End saving.

(** ** Bucket files *)

(** The elements of a list by the value of a key below [n]. *)
Lemma filter_key_perm {A} (key : A -> nat) (l : list A) n :
  Permutation (concat (tabulate n (fun b => filter (fun x => key x = b) l))) (filter (fun x => (key x < n)%nat) l).
Proof.
  induction n as [|n IH].
  - cbn. induction l as [|x l IHl]; [done|]. rewrite filter_cons_False by lia. done.
  - rewrite tabulate_S, concat_app, IH. cbn [concat]. rewrite app_nil_r. clear IH.
    induction l as [|x l IHl]; [done|]. destruct (decide (key x = n)) as [E|E].
    + rewrite (filter_cons_False (fun x => (key x < n)%nat)) by lia. rewrite !filter_cons_True by lia.
      rewrite <- Permutation_middle. by apply Permutation_skip.
    + rewrite (filter_cons_False (fun x => key x = n)) by lia. destruct (decide (key x < n)%nat).
      * rewrite !filter_cons_True by lia. by apply Permutation_skip.
      * rewrite !filter_cons_False by lia. done.
Qed.

Section buckets.
Context `{TextLaws} `{Streams} (written : OutputStream -> bytes) `{!StreamLaws written}.

Definition plain (t : bytes) : Prop := (comma ∉ t) /\ (newline ∉ t).

Lemma Serialize_join b : Serialize b = join comma [fmt_u (index b); fmt_u (extra_dup_cnt b); base64_data b].
Proof. unfold Serialize. cbn. done. Qed.

(** A bucket line parses back to its item: the index, the extra count and
    the encoded ciphertext, whatever the numbers are at their widths. *)
Lemma Deserialize_Serialize b :
  in_u 64 (index b) -> in_u 32 (extra_dup_cnt b) -> (comma ∉ base64_data b) ->
  Deserialize (Serialize b) = Ok (mkBucketItem 0 (index b) (extra_dup_cnt b) 0 (base64_data b)).
Proof.
  intros Hi Hd Hb. rewrite Serialize_join. unfold Deserialize.
  rewrite StrSplit_join.
  - cbn [length]. rewrite bool_decide_true by done. run. cbn [vget lookup list_lookup]. run.
    rewrite (SimpleAtoi_fmt 64 _ Hi). cbn [enforce_some]. run.
    rewrite (SimpleAtoi_fmt 32 _ Hd). run. done.
  - done.
  - repeat constructor; try apply fmt_plain. exact Hb.
Qed.

(** The entries of what was saved, and those of a bucket. *)
Definition entry_at (i : nat) (x : bytes * Z) : BucketItem :=
  mkBucketItem 0 (Z.of_nat i) x.2 0 (Base64Escape x.1).
Definition entries (l : list (bytes * Z)) : list BucketItem := imap entry_at l.
Definition bucket_of (n : nat) (e : BucketItem) : nat := Z.to_nat (std_hash (base64_data e) mod Z.of_nat n).
Definition bucket (n b : nat) (l : list (bytes * Z)) : list BucketItem :=
  filter (fun e => bucket_of n e = b) (entries l).
Definition line (e : BucketItem) : bytes := Serialize e ++ [newline].

(** What a cache holds: every bucket file is the lines of its entries, as long
    as the item count fits its word. *)
Definition cache_holds (c : HashBucketCache) (l : list (bytes * Z)) : Prop :=
  (0 < length (bucket_os_vec_ c))%nat /\ item_index_ c = u64 (zlen l) /\ Forall (fun x => 0 <= x.2 < 2 ^ 32) l /\
  (zlen l < 2 ^ 64 -> forall b, (b < length (bucket_os_vec_ c))%nat ->
     written (bucket_os_vec_ c !!! b) = concat (map line (bucket (length (bucket_os_vec_ c)) b l))).

Lemma entries_app l x : entries (l ++ [x]) = entries l ++ [entry_at (length l) x].
Proof. unfold entries. rewrite imap_app. cbn [imap]. by rewrite Nat.add_0_r. Qed.

Lemma bucket_of_lt n e : (0 < n)%nat -> (bucket_of n e < n)%nat.
Proof. intros. unfold bucket_of. pose proof (Z.mod_pos_bound (std_hash (base64_data e)) (Z.of_nat n) ltac:(lia)). lia. Qed.

Lemma WriteItem_holds c l ct d :
  cache_holds c l -> 0 <= d < 2 ^ 32 -> wp (WriteItem c ct d) (fun c' => cache_holds c' (l ++ [(ct, d)]) /\
    length (bucket_os_vec_ c') = length (bucket_os_vec_ c)).
Proof.
  intros (Hn & Hi & Hr & Hw) Hd. unfold WriteItem. set (n := length (bucket_os_vec_ c)) in *.
  set (e := mkBucketItem 0 (item_index_ c) d 0 (Base64Escape ct)).
  change (zlen (bucket_os_vec_ c)) with (Z.of_nat n).
  rewrite (proj2 (Z.eqb_neq _ _)) by lia. run.
  pose proof (Z.mod_pos_bound (std_hash (base64_data e)) (Z.of_nat n) ltac:(lia)) as Hk.
  set (k := _ mod _) in *.
  rewrite vgetz_total by (fold n; lia). run. rewrite vsetz_total by (fold n; lia). run.
  cbn [bucket_os_vec_ item_index_]. unfold cache_holds. cbn [bucket_os_vec_ item_index_]. rewrite length_insert. fold n.
  split; [|done]. split; [done|]. unfold zlen in *. rewrite length_app. cbn [length].
  split; [rewrite Hi; unfold u64; rewrite wrap_add_l; f_equal; lia|].
  split; [apply Forall_app; split; [done|constructor; [exact Hd|constructor]]|].
  intros Hl b Hb. specialize (Hw ltac:(lia)).
  assert (e = entry_at (length l) (ct, d)) as He.
  { unfold e, entry_at. rewrite Hi, u64_small by lia. done. }
  unfold bucket. rewrite entries_app, filter_app, <- He.
  destruct (decide (b = Z.to_nat k)) as [->|Hne].
  - rewrite list_lookup_total_insert_eq by done. rewrite !written_Write, Hw by done.
    rewrite (filter_cons_True _ e) by done. rewrite filter_nil, map_app, concat_app. cbn [map concat].
    rewrite app_nil_r. unfold line. by rewrite !app_assoc.
  - rewrite list_lookup_total_insert_ne by done. rewrite Hw by done.
    rewrite (filter_cons_False _ e) by (intros E; apply Hne; rewrite <- E; done).
    by rewrite filter_nil, app_nil_r.
Qed.
End buckets.

(** ** Reading the buckets back *)

Lemma filter_ext_in {A} (P Q : A -> Prop) `{!forall x, Decision (P x), !forall x, Decision (Q x)} (l : list A) :
  (forall x, x ∈ l -> P x <-> Q x) -> filter P l = filter Q l.
Proof.
  induction l as [|x l IH]; intros HPQ; [done|].
  specialize (IH ltac:(intros; apply HPQ; by right)). pose proof (HPQ x ltac:(left)) as Hx.
  destruct (decide (P x)).
  - rewrite !filter_cons_True by tauto. by rewrite IH.
  - rewrite !filter_cons_False by tauto. done.
Qed.

(** The positions of [self] whose ciphertext the peer has too. *)
Definition is_common (self peer : list bytes) (i : nat) : bool :=
  match self !! i with Some x => bool_decide (x ∈ peer) | None => false end.
Definition common_indices (self peer : list bytes) : list Z :=
  map Z.of_nat (filter (is_common self peer) (seq 0 (length self))).

Lemma common_indices_snoc self peer x :
  common_indices (self ++ [x]) peer
    = common_indices self peer ++ (if bool_decide (x ∈ peer) then [Z.of_nat (length self)] else []).
Proof.
  unfold common_indices. rewrite length_app, Nat.add_1_r, seq_S, filter_app, map_app. f_equal.
  - f_equal. apply filter_ext_in. intros i Hi%elem_of_seq. unfold is_common. by rewrite lookup_app_l by lia.
  - cbn [plus]. unfold filter at 1. cbn [list_filter]. unfold is_common.
    rewrite lookup_app_r, Nat.sub_diag by lia. cbn. by case_bool_decide.
Qed.

Lemma common_indices_lt self peer : Forall (fun i => 0 <= i < zlen self) (common_indices self peer).
Proof.
  unfold common_indices. apply List.Forall_map, List.Forall_forall.
  intros i Hi%list_elem_of_In%list_elem_of_filter. destruct Hi as [_ Hi%elem_of_seq]. unfold zlen. lia.
Qed.

Lemma common_indices_sorted self peer : Sorted Z.le (common_indices self peer).
Proof.
  apply StronglySorted_Sorted. induction self as [|x self IH] using rev_ind; [constructor|].
  rewrite common_indices_snoc. apply StronglySorted_app_2; [|done|case_bool_decide; repeat constructor].
  intros i j Hi Hj. pose proof (common_indices_lt self peer) as Hl. rewrite Forall_forall in Hl.
  specialize (Hl i Hi). unfold zlen in *.
  case_bool_decide; [apply list_elem_of_singleton in Hj|by apply not_elem_of_nil in Hj]. lia.
Qed.

Section load.
Context `{TextLaws} `{Streams} (written : OutputStream -> bytes) `{!StreamLaws written}.

Definition entry_ok (e : BucketItem) : Prop :=
  in_u 64 (index e) /\ in_u 32 (extra_dup_cnt e) /\ plain (base64_data e) /\ sec_hash e = 0 /\ pad e = 0.

Lemma line_plain e : entry_ok e -> newline ∉ Serialize e.
Proof.
  intros (_ & _ & [_ Hp] & _). unfold Serialize. rewrite !elem_of_app, !list_elem_of_singleton.
  pose proof (fmt_plain (index e)). pose proof (fmt_plain (extra_dup_cnt e)).
  unfold comma, newline in *. intuition lia.
Qed.

Lemma read_lines_entries es acc fuel :
  Forall entry_ok es -> (length es < fuel)%nat -> read_lines fuel (concat (map line es)) acc = Ok (acc ++ es).
Proof.
  revert acc fuel. induction es as [|e es IH]; intros acc fuel Hes Hf; (destruct fuel as [|fuel]; [cbn in *; lia|]).
  - cbn. rewrite (GetLine_end (written := written)). by rewrite app_nil_r.
  - apply Forall_cons in Hes as [He Hes]. cbn [read_lines map concat]. unfold line at 1.
    rewrite <- !app_assoc. cbn [app]. rewrite (GetLine_line (written := written)) by by apply line_plain.
    destruct He as (E1 & E2 & [E3 _] & E4 & E5).
    rewrite Deserialize_Serialize by done. run. rewrite IH by (cbn in *; (done || lia)).
    rewrite <- app_assoc. destruct e; cbn in *; subst; done.
Qed.

Lemma entries_ok l : zlen l < 2 ^ 64 -> Forall (fun x => 0 <= x.2 < 2 ^ 32) l -> Forall entry_ok (entries l).
Proof.
  intros Hl Hr. apply Forall_lookup. intros i e (x & Hx & ->)%list_lookup_imap_Some.
  pose proof (Forall_lookup_1 _ _ _ _ Hr Hx). apply lookup_lt_Some in Hx. unfold zlen in *.
  split_and!; cbn; try done; unfold in_u; try lia. split; apply Base64Escape_plain.
Qed.

Lemma Flush_cache_holds c l : cache_holds written c l -> cache_holds written (FlushCache c) l.
Proof.
  intros (Hn & Hi & Hr & Hw). unfold cache_holds, FlushCache. cbn [bucket_os_vec_ item_index_].
  rewrite length_map. split_and!; try done. intros Hl b Hb. rewrite <- Hw by done.
  rewrite (list_lookup_total_fmap FlushStream) by done. apply written_Flush.
Qed.

(** After a flush a bucket loads as its entries. *)
Lemma LoadBucketItems_holds c l b :
  cache_holds written c l -> zlen l < 2 ^ 64 -> (b < length (bucket_os_vec_ c))%nat ->
  LoadBucketItems (FlushCache c) (Z.of_nat b) = Ok (bucket (length (bucket_os_vec_ c)) b l).
Proof.
  intros (Hn & Hi & Hr & Hw) Hl Hb. unfold LoadBucketItems, FlushCache. cbn [bucket_os_vec_].
  rewrite vgetz_total by (rewrite length_map; lia). run. rewrite Nat2Z.id.
  rewrite (list_lookup_total_fmap FlushStream) by done. rewrite on_disk_Flush, Hw by done.
  rewrite read_lines_entries; [done| |].
  - apply Forall_forall. intros e [_ He]%list_elem_of_filter. pose proof (entries_ok l Hl Hr) as Hes.
    rewrite Forall_forall in Hes. auto.
  - generalize (bucket (length (bucket_os_vec_ c)) b l) as es. intros es.
    assert (length es <= length (concat (map line es)))%nat; [|lia].
    induction es as [|e es IH]; [done|]. cbn [map concat length]. rewrite length_app. unfold line at 1.
    rewrite length_app. cbn. lia.
Qed.
End load.

(** ** The bucketed store and the intersection *)
Section finalize.
Context `{TextLaws} `{Streams} (written : OutputStream -> bytes) `{!StreamLaws written}.

Definition bucket_holds (s : HashBucketEcPointStore) (l : list (bytes * Z)) : Prop :=
  cache_holds written (cache_ s) l /\ zlen (bucket_os_vec_ (cache_ s)) = num_bins_ s /\ num_bins_ s < 2 ^ 32.

Lemma HashBucketCache_new_holds (Build : nat -> OutputStream) n :
  0 < n -> (forall i, written (Build i) = []) ->
  wp (HashBucketCache_new Build n) (fun c => cache_holds written c [] /\ zlen (bucket_os_vec_ c) = n).
Proof.
  intros Hn HB. unfold HashBucketCache_new, CreateOutputStreams.
  rewrite (proj2 (Z.ltb_lt _ _)) by done. rewrite (proj2 (Z.eqb_neq _ _)) by lia. run.
  rewrite (for_ext _ _ (fun i v => x ← (fun i => Ok (Build i)) i; Ok (v ++ [x]))) by done.
  rewrite (for_push _ _ Build) by done. run. unfold cache_holds, zlen. cbn [bucket_os_vec_ item_index_ app length].
  rewrite length_tabulate. split_and!; try done; [lia| |lia].
  intros _ b Hb. rewrite tabulate_lookup by done. apply HB.
Qed.

Lemma HashBucketEcPointStore_new_holds (Build : nat -> OutputStream) n :
  0 < n < 2 ^ 32 -> (forall i, written (Build i) = []) ->
  wp (HashBucketEcPointStore_new Build n) (fun s => bucket_holds s [] /\ num_bins_ s = n).
Proof.
  intros Hn HB. unfold HashBucketEcPointStore_new. rewrite u32_small by lia. apply wp_bind.
  eapply wp_mono; [apply HashBucketCache_new_holds; [lia|done]|].
  intros c [Hc Hl]. run. unfold bucket_holds. cbn. split_and!; (done || lia).
Qed.

#[export] Instance HashBucketEcPointStore_laws : StoreLaws HashBucketEcPointStore bucket_holds.
Proof.
  split.
  - intros s l ct d (Hc & Hn & Hb) Hd. cbn [Save HashBucketEcPointStore_store]. unfold HashBucketEcPointStore_Save. apply wp_bind.
    eapply wp_mono; [by apply (WriteItem_holds written)|]. intros c' [Hc' Hl]. run.
    unfold bucket_holds, zlen in *. cbn. rewrite Hl. done.
  - intros s l (Hc & Hn & Hb). unfold bucket_holds, zlen in *. cbn. rewrite length_map.
    split; [by apply Flush_cache_holds|done].
  - intros s l ((_ & Hi & _) & _). exact Hi.
Qed.

Lemma elem_of_peer_set (es : list BucketItem) (s0 : gset bytes) x :
  x ∈ foldl (fun s item => {[base64_data item]} ∪ s) s0 es <-> x ∈ s0 \/ x ∈ map base64_data es.
Proof.
  revert s0. induction es as [|e es IH]; intros s0; cbn [foldl map].
  - rewrite elem_of_nil. tauto.
  - rewrite IH, elem_of_union, elem_of_singleton, elem_of_cons. tauto.
Qed.

Lemma for_each_filter (P : BucketItem -> bool) es acc :
  for_each es (fun item indices => Ok (if P item then indices ++ [index item] else indices)) acc
    = Ok (acc ++ map index (filter P es)).
Proof.
  revert acc. induction es as [|e es IH]; intros acc; cbn [for_each].
  - by rewrite app_nil_r.
  - run. rewrite IH. unfold filter at 2. cbn [list_filter]. destruct (P e); [|done].
    cbn. by rewrite <- app_assoc.
Qed.

Lemma elem_of_entries l x : Base64Escape x ∈ map base64_data (entries l) <-> x ∈ map fst l.
Proof.
  induction l as [|y l IH] using rev_ind; [cbn; by rewrite !elem_of_nil|].
  rewrite entries_app, !map_app, !elem_of_app, IH. cbn [map entry_at base64_data].
  rewrite !list_elem_of_singleton. split; intros [?|E]; auto; right.
  - by apply Base64Escape_inj in E.
  - by rewrite E.
Qed.

(** The entries of [self] the peer has, bucket by bucket. *)
Definition wanted (lp : list (bytes * Z)) (e : BucketItem) : bool :=
  bool_decide (base64_data e ∈ map base64_data (entries lp)).

Lemma bin_indices_holds self peer ls lp b indices :
  bucket_holds self ls -> bucket_holds peer lp -> zlen ls < 2 ^ 64 -> zlen lp < 2 ^ 64 ->
  num_bins_ self = num_bins_ peer -> Z.of_nat b < num_bins_ self ->
  bin_indices (Flush self) (Flush peer) b indices
    = Ok (indices ++ map index (filter (fun e => bucket_of (Z.to_nat (num_bins_ self)) e = b) (filter (wanted lp) (entries ls)))).
Proof.
  intros (Hs & Hns & Hbs) (Hp & Hnp & Hbp) Hls Hlp Hn Hb. unfold bin_indices, zlen in *.
  rewrite u32_small by lia. cbn [Flush HashBucketEcPointStore_store cache_].
  rewrite (LoadBucketItems_holds written _ ls b Hs Hls) by lia. run.
  rewrite (LoadBucketItems_holds written _ lp b Hp Hlp) by lia. run.
  set (n := length (bucket_os_vec_ (cache_ self))) in *.
  replace (length (bucket_os_vec_ (cache_ peer))) with n by lia.
  replace (Z.to_nat (num_bins_ self)) with n by lia.
  rewrite (for_each_filter (fun item => bool_decide (base64_data item ∈ _))). do 2 f_equal. f_equal.
  unfold bucket. rewrite !list_filter_filter. apply filter_ext_in. intros e He.
  unfold wanted. rewrite !bool_decide_spec, elem_of_peer_set. set_unfold.
  split.
  - intros [[[]|(e' & He' & [_ Hin]%list_elem_of_filter)] Hk]. split; [done|]. eauto.
  - intros [Hk (e' & Hee & He')]. split; [|done]. right. exists e'. split; [done|].
    apply list_elem_of_filter. split; [|done]. unfold bucket_of in *. by rewrite <- Hee.
Qed.

Lemma wanted_indices ls lp :
  map index (filter (wanted lp) (entries ls)) = common_indices (map fst ls) (map fst lp).
Proof.
  induction ls as [|x ls IH] using rev_ind; [done|].
  rewrite entries_app, filter_app, map_app, IH, map_app. cbn [map]. rewrite common_indices_snoc.
  f_equal. unfold filter. cbn [list_filter]. unfold wanted. cbn [entry_at base64_data].
  rewrite length_map. destruct (decide _) as [Hw|Hw].
  - rewrite bool_decide_true; [done|]. rewrite bool_decide_spec, elem_of_entries in Hw. done.
  - rewrite bool_decide_false; [done|]. rewrite bool_decide_spec, elem_of_entries in Hw. done.
Qed.

(** C20.  From two bucketed stores with as many bins, the intersection comes out
    as the ascending positions of exactly the own ciphertexts the peer saved
    too: spreading the ciphertexts over bins by hash, writing them as text lines
    and reading them back loses and invents nothing, whatever the bins, the
    order of saving or the duplicates. *)
Theorem FinalizeAndComputeIndices_correct self peer ls lp :
  bucket_holds self ls -> bucket_holds peer lp -> zlen ls < 2 ^ 64 -> zlen lp < 2 ^ 64 ->
  num_bins_ self = num_bins_ peer ->
  FinalizeAndComputeIndices self peer = Ok (common_indices (map fst ls) (map fst lp)).
Proof.
  intros Hs Hp Hls Hlp Hn. unfold FinalizeAndComputeIndices. rewrite (proj2 (Z.eqb_eq _ _)) by done. run.
  change (num_bins_ (Flush self)) with (num_bins_ self).
  set (n := Z.to_nat (num_bins_ self)).
  set (part b := map index (filter (fun e => bucket_of n e = b) (filter (wanted lp) (entries ls)))).
  assert (for_ n (bin_indices (Flush self) (Flush peer)) [] = Ok (concat (tabulate n part))) as ->.
  { assert (forall k, (k <= n)%nat -> for_ k (bin_indices (Flush self) (Flush peer)) [] = Ok (concat (tabulate k part)))
      as Hk; [|by apply Hk].
    induction k as [|k IH]; intros Hk; [done|]. rewrite for_S, IH by lia. run.
    rewrite (bin_indices_holds self peer ls lp) by (try done; lia).
    rewrite tabulate_S, concat_app. cbn [concat]. by rewrite app_nil_r. }
  run. f_equal. apply (Sorted_unique Z.le); [apply Sorted_merge_sort; apply _|apply common_indices_sorted|].
  rewrite merge_sort_Permutation, <- wanted_indices.
  unfold part, tabulate. rewrite <- (map_map (fun b => filter (fun e => bucket_of n e = b) _) (map index)), <- concat_map.
  apply Permutation_map. fold (tabulate n (fun b => filter (fun e => bucket_of n e = b) (filter (wanted lp) (entries ls)))).
  rewrite filter_key_perm. destruct Hs as ((Hpos & _) & Hl & _). unfold zlen in Hl.
  apply reflexive_eq. generalize (filter (wanted lp) (entries ls)) as es.
  induction es as [|e es IH]; [done|]. rewrite filter_cons_True by (apply bucket_of_lt; lia). by rewrite IH.
Qed.
End finalize.

(** ** Filling a cache from a stream of batches *)
Section fill.
Context `{TextLaws} `{Streams} (written : OutputStream -> bytes) `{!StreamLaws written}.
Context {P : Type} `{IBasicBatchProvider P}.

Definition counts_ok (bs : list (list bytes * DupCnt)) : Prop :=
  Forall (fun x => 0 <= x.2 < 2 ^ 32) (stream_items bs).

Lemma write_batch c l b d :
  cache_holds written c l -> Forall (fun x => 0 <= x.2 < 2 ^ 32) (with_counts (b, d)) ->
  wp (for_ (length b) (fun i c => x ← vget b i; WriteItem c x (count d (Z.of_nat i))) c)
     (fun c' => cache_holds written c' (l ++ with_counts (b, d)) /\
                length (bucket_os_vec_ c') = length (bucket_os_vec_ c)).
Proof.
  intros Hc Hd.
  apply (wp_for _ _ (fun i c' => cache_holds written c' (l ++ with_counts (take i b, d)) /\
    length (bucket_os_vec_ c') = length (bucket_os_vec_ c))).
  - cbn. by rewrite app_nil_r.
  - intros i c' Hi [Hc' Hlen]. rewrite vget_total by done. run.
    eapply wp_mono; [apply (WriteItem_holds written _ _ (b !!! i) _ Hc')|].
    + apply (Forall_lookup_1 _ _ i (b !!! i, count d (Z.of_nat i)) Hd). unfold with_counts. cbn [fst snd].
      rewrite list_lookup_imap, (list_lookup_lookup_total_lt b i) by done. done.
    + intros c2 [G2 L2]. rewrite with_counts_take, app_assoc by done. split; [exact G2|lia].
  - intros c'. by rewrite firstn_all.
Qed.

Lemma cache_batches_holds (provider q : P) bs c l fuel :
  delivers provider bs q -> cache_holds written c l -> counts_ok bs -> (length bs < fuel)%nat ->
  wp (cache_batches fuel provider c) (fun '(c', q') => q' = q /\ cache_holds written c' (l ++ stream_items bs) /\
    length (bucket_os_vec_ c') = length (bucket_os_vec_ c)).
Proof.
  intros Hd. revert c l fuel. induction Hd as [p d p' Hr|p b d p' bs q Hr Hne Hd IH]; intros c l fuel Hc Hok Hf;
    (destruct fuel as [|fuel]; [lia|]); cbn [cache_batches]; rewrite Hr; run.
  - cbn. by rewrite app_nil_r.
  - rewrite bool_decide_false by done. apply wp_bind. apply Forall_app in Hok as [Hb Hbs].
    eapply wp_mono; [by apply write_batch|]. intros c1 [Hc1 Hl1].
    eapply wp_mono; [apply (IH (FlushCache c1) (l ++ with_counts (b, d))); [by apply Flush_cache_holds|done|cbn in Hf; lia]|].
    intros [c2 q2] (-> & G2 & L2). unfold stream_items. cbn [map concat].
    rewrite app_assoc. split_and!; [done|exact G2|]. rewrite L2. unfold FlushCache. cbn. by rewrite length_map.
Qed.

(** Building a cache from a provider reads its stream to the end and returns
    a cache of [bucket_num] buckets whose files hold every item once, with its
    extra count, when the files were empty before; it terminates within one
    read more than the batches the provider delivers. *)
Theorem CreateCacheFromProvider_correct (Build : nat -> OutputStream) (provider q : P) bs bucket_num fuel :
  delivers provider bs q -> counts_ok bs -> 0 < bucket_num -> (forall i, written (Build i) = []) ->
  (length bs < fuel)%nat ->
  wp (CreateCacheFromProvider fuel Build provider bucket_num) (fun '(c, q') =>
    q' = q /\ cache_holds written c (stream_items bs) /\ zlen (bucket_os_vec_ c) = bucket_num).
Proof.
  intros Hd Hok Hn HB Hf. unfold CreateCacheFromProvider. apply wp_bind.
  eapply wp_mono; [by apply HashBucketCache_new_holds|]. intros c [Hc Hl].
  eapply wp_mono; [by apply (cache_batches_holds provider q bs c [])|].
  intros [c' q'] (-> & Hc' & Hl'). unfold zlen in *. rewrite Hl'. done.
Qed.
End fill.

(** ** Runs: text and streams with the laws above *)
Fixpoint toy_bits (p : positive) : bytes :=
  match p with xH => [49] | xO p => 48 :: toy_bits p | xI p => 49 :: toy_bits p end.
Fixpoint toy_value (s : bytes) : Z :=
  match s with [] => 0 | c :: s' => (c - 48) + 2 * toy_value s' end.
Fixpoint toy_split (s : bytes) (sep : Z) : list bytes :=
  match s with
  | [] => [[]]
  | c :: s' => if c =? sep then [] :: toy_split s' sep
               else match toy_split s' sep with t :: ts => (c :: t) :: ts | [] => [[c]] end
  end.
#[local] Instance toy_text : Text := {|
  fmt_u n := match n with Zpos p => toy_bits p | _ => [48] end;
  SimpleAtoi w s := if toy_value s <? 2 ^ w then Some (toy_value s) else None;
  StrSplit := toy_split;
  Base64Escape := map (fun c => 2 * c + 1);
  std_hash s := u64 (foldl (fun h c => h * 31 + c) 7 s)
|}.

Lemma toy_bits_chars p : Forall (fun c => c = 48 \/ c = 49) (toy_bits p).
Proof. induction p; cbn; auto. Qed.
Lemma toy_value_bits p : toy_value (toy_bits p) = Zpos p.
Proof. induction p; cbn [toy_bits toy_value]; lia. Qed.
Lemma toy_split_plain t sep rest : sep ∉ t -> toy_split (t ++ sep :: rest) sep = t :: toy_split rest sep.
Proof.
  induction t as [|c t IH]; intros Ht; cbn [app toy_split].
  - by rewrite Z.eqb_refl.
  - apply not_elem_of_cons in Ht as [Hc Ht]. rewrite (proj2 (Z.eqb_neq _ _)) by auto. by rewrite IH.
Qed.
Lemma toy_split_last t sep : sep ∉ t -> toy_split t sep = [t].
Proof.
  induction t as [|c t IH]; intros Ht; cbn [toy_split]; [done|].
  apply not_elem_of_cons in Ht as [Hc Ht]. rewrite (proj2 (Z.eqb_neq _ _)) by auto. by rewrite IH.
Qed.

#[local] Instance toy_text_laws : TextLaws.
Proof.
  split.
  - intros w n Hn. cbn. destruct n as [|p|p]; [| |lia].
    + cbn. by rewrite (proj2 (Z.ltb_lt _ _)) by lia.
    + by rewrite toy_value_bits, (proj2 (Z.ltb_lt _ _)) by lia.
  - intros n. assert (Forall (fun c => c = 48 \/ c = 49) (fmt_u n)) as Hf.
    { destruct n; cbn; auto using toy_bits_chars. }
    rewrite Forall_forall in Hf. unfold comma, newline. split; intros Hc%Hf; lia.
  - intros sep ts Hne Hts. cbn. induction ts as [|t ts IH]; [done|]. apply Forall_cons in Hts as [Ht Hts].
    destruct ts as [|t' ts]; [by apply toy_split_last|]. cbn [join]. rewrite toy_split_plain by done.
    f_equal. by apply IH.
  - intros x y. cbn. apply list_fmap_eq_inj. intros a b. lia.
  - intros s. cbn. unfold comma, newline. split; intros (c & ? & _)%list_elem_of_fmap; lia.
  - intros s. apply u64_range.
Qed.

Record toy_stream := mkToyStream { disk : bytes; pending : bytes }.
#[local] Instance toy_stream_inhabited : Inhabited toy_stream := populate (mkToyStream [] []).
Fixpoint toy_getline (l : bytes) : option (bytes * bytes) :=
  match l with
  | [] => None
  | c :: l' => if c =? newline then Some ([], l')
               else match toy_getline l' with Some (a, r) => Some (c :: a, r) | None => Some ([c], []) end
  end.
#[local] Instance toy_streams : Streams := {|
  OutputStream := toy_stream;
  Write s b := mkToyStream (disk s) (pending s ++ b);
  FlushStream s := mkToyStream (disk s ++ pending s) [];
  on_disk := disk;
  GetLine := toy_getline
|}.
Definition toy_written (s : @OutputStream toy_streams) : bytes := disk s ++ pending s.
#[local] Instance toy_stream_laws : StreamLaws toy_written.
Proof.
  split; try done.
  - intros s b. unfold toy_written. cbn. by rewrite app_assoc.
  - intros s. unfold toy_written. cbn. by rewrite app_nil_r.
  - intros l rest Hl. cbn. induction l as [|c l IH]; cbn [app toy_getline]; [done|].
    apply not_elem_of_cons in Hl as [Hc Hl]. rewrite (proj2 (Z.eqb_neq _ _)) by auto. by rewrite IH.
Qed.

(** Two stores of three bins after some saves. *)
Definition toy_store (l : list (bytes * Z)) : res HashBucketEcPointStore :=
  s ← HashBucketEcPointStore_new (fun _ => mkToyStream [] []) 3;
  for_each l (fun x (s : HashBucketEcPointStore) => Save s x.1 x.2) s.
Lemma toy_store_holds l :
  Forall (fun x => 0 <= x.2 < 2 ^ 32) l -> wp (toy_store l) (fun s => bucket_holds toy_written s l /\ num_bins_ s = 3).
Proof.
  intros Hl. unfold toy_store. apply wp_bind.
  eapply wp_mono; [apply (HashBucketEcPointStore_new_holds toy_written); [lia|done]|]. intros s [Hs Hn].
  apply (wp_for_each l _ (fun done s => bucket_holds toy_written s done /\ num_bins_ s = 3)); [done|].
  intros l1 x l2 s' -> [Hs' Hn']. apply Forall_app in Hl as [_ [Hx _]%Forall_cons].
  destruct (proj1 (wp_iff _ _) (Save_holds s' l1 x.1 x.2 Hs' Hx)) as (s2 & E & H2).
  eapply wp_ok; [exact E|]. destruct x. split; [exact H2|].
  cbn [Save HashBucketEcPointStore_store] in E. unfold HashBucketEcPointStore_Save in E. apply bind_ok in E as (c' & _ & E). by injection E as <-.
Qed.

Lemma FinalizeAndComputeIndices_correct_witness :
  exists self peer, toy_store [([5], 0); ([9; 1], 2); ([7], 0); ([5], 1)] = Ok self /\
    toy_store [([5], 4); ([7], 0); ([1], 0)] = Ok peer /\ FinalizeAndComputeIndices self peer = Ok [0; 2; 3].
Proof.
  destruct (proj1 (wp_iff _ _) (toy_store_holds [([5], 0); ([9; 1], 2); ([7], 0); ([5], 1)]
    ltac:(repeat constructor; cbn; lia))) as (self & Es & Hs & Ns).
  destruct (proj1 (wp_iff _ _) (toy_store_holds [([5], 4); ([7], 0); ([1], 0)]
    ltac:(repeat constructor; cbn; lia))) as (peer & Ep & Hp & Np).
  exists self, peer. split; [exact Es|]. split; [exact Ep|].
  rewrite (FinalizeAndComputeIndices_correct toy_written self peer _ _ Hs Hp).
  - vm_compute. reflexivity.
  - vm_compute. reflexivity.
  - vm_compute. reflexivity.
  - congruence.
Defined.

Lemma CreateCacheFromProvider_correct_witness :
  wp (CreateCacheFromProvider 3 (fun _ => mkToyStream [] []) (MemoryBatchProvider_new id [[1]; [2]; [3]] 2 [] false) 4)
    (fun '(c, q) => q = with_cursor (MemoryBatchProvider_new id [[1]; [2]; [3]] 2 [] false) 3 /\
       cache_holds toy_written c [([1], 0); ([2], 0); ([3], 0)] /\ zlen (bucket_os_vec_ c) = 4).
Proof.
  eapply wp_mono; [apply (CreateCacheFromProvider_correct toy_written (fun _ => mkToyStream [] [])
    (MemoryBatchProvider_new id [[1]; [2]; [3]] 2 [] false)
    (with_cursor (MemoryBatchProvider_new id [[1]; [2]; [3]] 2 [] false) 3) [([[1]; [2]], ∅); ([[3]], ∅)] 4 3)|].
  - eapply delivers_more; [reflexivity|done|]. eapply delivers_more; [reflexivity|done|]. by eapply delivers_end.
  - unfold counts_ok. change [([[1]; [2]], ∅); ([[3]], ∅)] with (map (fun b : list bytes => (b, ∅ : DupCnt)) [[[1]; [2]]; [[3]]]). rewrite stream_items_plain. cbn. rewrite !Forall_cons, Forall_nil. cbn. lia.
  - lia.
  - done.
  - cbn. lia.
  - intros [c q] (-> & Hc & Hn). done.
Defined.
