(* ===== verification/UbPsiStore.v ===== *)
(** * Ciphertext caches of the unbalanced PSI (psi/utils/ec_point_store, index_store)

    The client keeps its own masked items in a map ([UbPsiClientCacheMemoryStore])
    and the server's in a file of fixed-size records
    ([UbPsiClientCacheFileStore]) read back in prefetched batches; the
    intersection of the two is computed by worker threads
    ([ComputeIndicesWithDupCnt]) and handed on in index order by
    [MemoryIndexReader].

    A record is [char ciphertext[32]; uint32_t duplicate_cnt] as laid out on a
    little-endian machine.  Parameters: the bytes an uninitialised [CacheItem]
    holds, the number of hardware threads, and the order [std::sort] leaves
    equal keys in. *)
From S2P Require Import Prelude EcStore.

(** ** UbPsiClientCacheMemoryStore *)
Record CacheIndex := mkCacheIndex { ci_index : Z; ci_duplicate_cnt : Z }.
Record UbPsiClientCacheMemoryStore := mkUbMemory { ub_cache_ : gmap bytes CacheIndex; ub_item_cnt_ : Z }.
Definition UbPsiClientCacheMemoryStore_new : UbPsiClientCacheMemoryStore := mkUbMemory ∅ 0.
Definition UbPsiClientCacheMemoryStore_Save (s : UbPsiClientCacheMemoryStore) (ciphertext : bytes)
    (duplicate_cnt : Z) : UbPsiClientCacheMemoryStore :=
  mkUbMemory (<[ciphertext := mkCacheIndex (ub_item_cnt_ s) duplicate_cnt]> (ub_cache_ s)) (u32 (ub_item_cnt_ s + 1)).
#[export] Instance UbPsiClientCacheMemoryStore_store : IEcPointStore UbPsiClientCacheMemoryStore := {
  Save s ciphertext duplicate_cnt := Ok (UbPsiClientCacheMemoryStore_Save s ciphertext duplicate_cnt);
  Flush s := s;
  ItemCount := ub_item_cnt_
}.
Definition Find (s : UbPsiClientCacheMemoryStore) (ciphertext : bytes) : option CacheIndex :=
  ub_cache_ s !! ciphertext.

(** ** UbPsiClientCacheFileStore *)
Definition kMaxCipherSize : nat := 32.
Definition sizeof_CacheItem : nat := 36.
Record CacheMeta := mkCacheMeta { m_item_cnt : Z; m_peer_cnt : Z; m_cipher_len : Z }.

(** The file at [path_] is what is on disk followed by what the stream buffers;
    the file at [meta_path_] holds [meta_]. *)
Record UbPsiClientCacheFileStore := mkUbFile {
  file_ : bytes;
  buffered_ : bytes;
  cipher_len_ : Z;
  f_item_cnt_ : Z;
  peer_cnt_ : Z;
  meta_ : CacheMeta
}.

Definition DumpMeta (s : UbPsiClientCacheFileStore) : UbPsiClientCacheFileStore :=
  mkUbFile (file_ s) (buffered_ s) (cipher_len_ s) (f_item_cnt_ s) (peer_cnt_ s)
    (mkCacheMeta (f_item_cnt_ s) (peer_cnt_ s) (cipher_len_ s)).

(** The constructor, on what the two files hold. *)
Definition UbPsiClientCacheFileStore_new (file : bytes) (meta : option CacheMeta) (cipher_len : Z)
    : res UbPsiClientCacheFileStore :=
  let cipher_len_ := u32 cipher_len in
  _ ← enforce (cipher_len_ <=? Z.of_nat kMaxCipherSize);
  let item_cnt_ := u32 (zlen file / Z.of_nat sizeof_CacheItem) in
  match meta with
  | Some m =>
      _ ← enforce (cipher_len_ =? m_cipher_len m);
      _ ← enforce (item_cnt_ =? m_item_cnt m);
      Ok (mkUbFile file [] cipher_len_ item_cnt_ (m_peer_cnt m) m)
  | None => Ok (DumpMeta (mkUbFile file [] cipher_len_ item_cnt_ 0 (mkCacheMeta 0 0 0)))
  end.

Definition FileFlush (s : UbPsiClientCacheFileStore) : UbPsiClientCacheFileStore :=
  DumpMeta (mkUbFile (file_ s ++ buffered_ s) [] (cipher_len_ s) (f_item_cnt_ s) (peer_cnt_ s) (meta_ s)).

(** A record: the ciphertext over the uninitialised array, then the count. *)
Definition CacheItem_bytes (uninit ciphertext : bytes) (duplicate_cnt : Z) : bytes :=
  ciphertext ++ drop (length ciphertext) uninit ++ le_bytes 4 duplicate_cnt.

Definition FileSave (uninit : bytes) (s : UbPsiClientCacheFileStore) (ciphertext : bytes) (duplicate_cnt : Z)
    : res UbPsiClientCacheFileStore :=
  _ ← enforce (zlen ciphertext =? cipher_len_ s);
  Ok (mkUbFile (file_ s) (buffered_ s ++ CacheItem_bytes uninit ciphertext duplicate_cnt) (cipher_len_ s)
        (u32 (f_item_cnt_ s + 1)) (u32 (peer_cnt_ s + u32 (duplicate_cnt + 1))) (meta_ s)).

(** ** UbPsiClientCacheFileStoreProvider *)
(** [buffer_] is the batch the running [std::async] reads: nothing else touches
    the stream, so it may be read ahead at once.  [None]: the future has been
    consumed, and a further [get] is undefined. *)
Record FileStoreProvider := mkProvider {
  input_ : bytes;
  p_batch_size_ : Z;
  p_cipher_len_ : Z;
  p_item_cnt_ : Z;
  read_cnt_ : Z;
  buffer_ : option (list (bytes * Z))
}.

Definition read_record (input : bytes) (k : nat) : res (bytes * Z) :=
  ct ← copy_range input (k * sizeof_CacheItem) kMaxCipherSize;
  d ← memcpy_from input (k * sizeof_CacheItem + kMaxCipherSize) 4;
  Ok (ct, d).

Definition ReadFutureBatch (p : FileStoreProvider) : res FileStoreProvider :=
  if p_item_cnt_ p <=? read_cnt_ p
  then Ok (mkProvider (input_ p) (p_batch_size_ p) (p_cipher_len_ p) (p_item_cnt_ p) (read_cnt_ p) (Some []))
  else
    let count := Z.min (p_batch_size_ p) (p_item_cnt_ p - read_cnt_ p) in
    cache_item ← for_ (Z.to_nat count) (fun i acc =>
      x ← read_record (input_ p) (Z.to_nat (read_cnt_ p) + i); Ok (acc ++ [x])) [];
    Ok (mkProvider (input_ p) (p_batch_size_ p) (p_cipher_len_ p) (p_item_cnt_ p) (read_cnt_ p + count)
          (Some cache_item)).

Definition Provider_new (path : bytes) (batch_size cipher_len : Z) : res FileStoreProvider :=
  ReadFutureBatch (mkProvider path batch_size cipher_len (zlen path / Z.of_nat sizeof_CacheItem) 0 None).

Definition ReadCacheBatch (p : FileStoreProvider) : res (list bytes * DupCnt * FileStoreProvider) :=
  cache_item ← (match buffer_ p with Some c => Ok c | None => UB end);
  let taken := mkProvider (input_ p) (p_batch_size_ p) (p_cipher_len_ p) (p_item_cnt_ p) (read_cnt_ p) None in
  if bool_decide (cache_item = []) then Ok ([], ∅, taken)
  else
    p' ← ReadFutureBatch taken;
    '(items, dup_cnt) ← for_ (length cache_item) (fun i '(items, dup_cnt) =>
      item ← vget cache_item i;
      ct ← copy_range item.1 0 (Z.to_nat (p_cipher_len_ p));
      Ok (items ++ [ct], if 0 <? item.2 then <[u32 (Z.of_nat i) := item.2]> dup_cnt else dup_cnt)) ([], ∅);
    Ok (items, dup_cnt, p').
#[export] Instance FileStoreProvider_basic : IBasicBatchProvider FileStoreProvider := {
  ReadNextBatchWithDupCnt := ReadCacheBatch
}.
Definition GetBatchProvider (s : UbPsiClientCacheFileStore) (batch_size : Z) : res FileStoreProvider :=
  Provider_new (file_ s) batch_size (cipher_len_ s).

(** ** ComputeIndicesWithDupCnt *)
Record Found := mkFound { f_self_index : Z; f_peer_index : Z; f_self_dup : Z; f_peer_dup : Z }.
Record IntersectionIndexInfo := mkInfo {
  self_indices : list Z; peer_indices : list Z; self_dup_cnt : list Z; peer_dup_cnt : list Z
}.

(** [compare_proc]: the four vectors of thread [idx] grow together. *)
Definition compare_proc (self : UbPsiClientCacheMemoryStore) (peer_items : list bytes) (peer_cnt : DupCnt)
    (processed_cnt compare_size : Z) (idx : nat) (acc : list Found) : res (list Found) :=
  let begin := u64 (Z.of_nat idx * compare_size) in
  let end_ := Z.min (zlen peer_items) (u64 (begin + compare_size)) in
  for_ (Z.to_nat (end_ - begin)) (fun k acc =>
    let i := begin + Z.of_nat k in
    item ← vgetz peer_items i;
    Ok (match Find self item with
        | Some r => acc ++ [mkFound (ci_index r) (u64 (processed_cnt + i)) (ci_duplicate_cnt r) (count peer_cnt (u32 i))]
        | None => acc
        end)) acc.

(** The threads of a batch write to vectors of their own. *)
Fixpoint compare_batches {P} `{IBasicBatchProvider P} (fuel : nat) (self : UbPsiClientCacheMemoryStore)
    (compare_thread_num : nat) (provider : P) (processed_cnt : Z) (found : list (list Found))
    : res (list (list Found)) :=
  match fuel with
  | O => UB
  | S fuel' =>
      '(peer_items, peer_cnt, provider') ← ReadNextBatchWithDupCnt provider;
      if bool_decide (peer_items = []) then Ok found
      else
        _ ← defined (negb (bool_decide (compare_thread_num = 0%nat)));
        let compare_size := (u64 (zlen peer_items + Z.of_nat compare_thread_num - 1)) / Z.of_nat compare_thread_num in
        found' ← for_ compare_thread_num (fun idx found =>
          mine ← vget found idx;
          mine' ← compare_proc self peer_items peer_cnt processed_cnt compare_size idx mine;
          vset found idx mine') found;
        compare_batches fuel' self compare_thread_num provider' (u64 (processed_cnt + zlen peer_items)) found'
  end.

Definition ComputeIndicesWithDupCnt (fuel compare_thread_num : nat) (self : UbPsiClientCacheMemoryStore)
    (peer : UbPsiClientCacheFileStore) (batch_size : Z) : res IntersectionIndexInfo :=
  let self := Flush self in
  let peer := FileFlush peer in
  peer_provider ← GetBatchProvider peer batch_size;
  found ← compare_batches fuel self compare_thread_num peer_provider 0 (replicate compare_thread_num []);
  let all := concat found in
  Ok (mkInfo (map (fun f => u32 (f_self_index f)) all) (map (fun f => u32 (f_peer_index f)) all)
        (map (fun f => u32 (f_self_dup f)) all) (map (fun f => u32 (f_peer_dup f)) all)).

(** ** index_store.cc: MemoryIndexReader *)
Record MemoryIndexReader := mkReader { reader_items_ : list (Z * Z); reader_cnt_ : Z }.
Definition MemoryIndexReader_new (std_sort : list (Z * Z) -> list (Z * Z)) (index peer_dup_cnt : list Z)
    : res MemoryIndexReader :=
  _ ← enforce (zlen index =? zlen peer_dup_cnt);
  items ← for_ (length index) (fun i items =>
    x ← vget index i; d ← vget peer_dup_cnt i; vset items i (x, d)) (replicate (length index) (0, 0));
  Ok (mkReader (std_sort items) 0).
Definition HasNext (r : MemoryIndexReader) : bool := reader_cnt_ r <? zlen (reader_items_ r).
Definition GetNextWithPeerCnt (r : MemoryIndexReader) : res (option (Z * Z) * MemoryIndexReader) :=
  if negb (HasNext r) then Ok (None, r)
  else
    ret ← vgetz (reader_items_ r) (reader_cnt_ r);
    Ok (Some ret, mkReader (reader_items_ r) (reader_cnt_ r + 1)).
Definition GetNext (r : MemoryIndexReader) : res (option Z * MemoryIndexReader) :=
  if negb (HasNext r) then Ok (None, r)
  else
    item ← vgetz (reader_items_ r) (reader_cnt_ r);
    Ok (Some item.1, mkReader (reader_items_ r) (reader_cnt_ r + 1)).

(** ** The file of records *)
Lemma copy_range_ok {A} (v : list A) a n : (a + n <= length v)%nat -> copy_range v a n = Ok (take n (drop a v)).
Proof. intros. unfold copy_range. by rewrite bool_decide_true. Qed.

(** A record of an item: its size, and the two fields. *)
Definition record_of (clen : nat) (x : bytes * Z) (r : bytes) : Prop :=
  length r = sizeof_CacheItem /\ take clen r = x.1 /\ drop kMaxCipherSize r = le_bytes 4 x.2.
Definition records_of (clen : nat) (l : list (bytes * Z)) (file : bytes) : Prop :=
  exists rs, file = concat rs /\ Forall2 (record_of clen) l rs.

Lemma records_length clen l rs : Forall2 (record_of clen) l rs -> length (concat rs) = (length l * sizeof_CacheItem)%nat.
Proof. induction 1 as [|x r l rs (Hr & _) _ IH]; [done|]. cbn [concat length]. rewrite length_app, Hr, IH. lia. Qed.

Lemma CacheItem_record uninit ct d :
  length uninit = kMaxCipherSize -> (length ct <= kMaxCipherSize)%nat ->
  record_of (length ct) (ct, d) (CacheItem_bytes uninit ct d).
Proof.
  unfold record_of, CacheItem_bytes, kMaxCipherSize, sizeof_CacheItem. intros Hu Hc. cbn [fst snd]. split_and!.
  - rewrite !length_app, length_drop, length_le_bytes. lia.
  - by rewrite take_app_length.
  - rewrite app_assoc. by rewrite drop_app_length' by (rewrite length_app, length_drop; lia).
Qed.

(** What a file store holds. *)
Definition file_holds (s : UbPsiClientCacheFileStore) (l : list (bytes * Z)) : Prop :=
  records_of (Z.to_nat (cipher_len_ s)) l (file_ s ++ buffered_ s) /\ f_item_cnt_ s = u32 (zlen l) /\
  0 <= cipher_len_ s <= Z.of_nat kMaxCipherSize.

Lemma FileStore_new_holds clen :
  0 <= clen <= Z.of_nat kMaxCipherSize ->
  wp (UbPsiClientCacheFileStore_new [] None clen) (fun s => file_holds s [] /\ cipher_len_ s = clen).
Proof.
  unfold kMaxCipherSize. intros Hc. unfold UbPsiClientCacheFileStore_new. rewrite (u32_small clen) by lia.
  rewrite (proj2 (Z.leb_le _ _)) by (unfold kMaxCipherSize; lia). run. unfold DumpMeta, file_holds, kMaxCipherSize. cbn.
  split_and!; try done; try lia. exists []. done.
Qed.

Lemma FileSave_holds uninit s l ct d :
  length uninit = kMaxCipherSize -> file_holds s l -> zlen ct = cipher_len_ s ->
  wp (FileSave uninit s ct d) (fun s' => file_holds s' (l ++ [(ct, d)]) /\ cipher_len_ s' = cipher_len_ s).
Proof.
  intros Hu ((rs & Hf & Hrs) & Hi & Hc) Hct. unfold FileSave. rewrite (proj2 (Z.eqb_eq _ _)) by done. run.
  split; [|done]. unfold file_holds, zlen in *. cbn [file_ buffered_ cipher_len_ f_item_cnt_]. split_and!; try lia.
  - exists (rs ++ [CacheItem_bytes uninit ct d]). rewrite app_assoc, Hf, concat_app. cbn [concat].
    rewrite app_nil_r. split; [done|]. apply Forall2_app; [done|]. constructor; [|done].
    replace (Z.to_nat (cipher_len_ s)) with (length ct) by lia. apply CacheItem_record; [done|lia].
  - rewrite Hi, length_app. unfold u32. rewrite wrap_add_l. f_equal. cbn. lia.
Qed.

Section provider.
Context (clen n : nat) (l : list (bytes * Z)) (rs : list bytes) (bs : Z).
Context (Hrs : Forall2 (record_of clen) l rs) (Hclen : (clen <= kMaxCipherSize)%nat) (Hbs : 0 < bs).
Context (Hn : zlen l < 2 ^ 32) (Hd : Forall (fun x => 0 <= x.2 < 2 ^ 32) l).

Definition raw_item (k : nat) : bytes * Z := (take kMaxCipherSize (rs !!! k), (l !!! k).2).

Lemma rs_length : length rs = length l.
Proof. symmetry. by eapply Forall2_length. Qed.

Lemma record_at k : (k < length l)%nat -> record_of clen (l !!! k) (rs !!! k).
Proof.
  intros Hk. pose proof (proj1 (Forall2_lookup _ _ _) Hrs k) as Hr.
  rewrite !list_lookup_lookup_total_lt in Hr by (rewrite ?rs_length; done). by inversion Hr.
Qed.

Lemma read_record_eq k : (k < length l)%nat -> read_record (concat rs) k = Ok (raw_item k).
Proof.
  intros Hk. destruct (record_at k Hk) as (Hl & _ & Hdr). unfold sizeof_CacheItem, kMaxCipherSize in *.
  assert (concat rs = concat (take k rs) ++ rs !!! k ++ concat (drop (S k) rs)) as E.
  { rewrite <- (take_drop_middle rs k (rs !!! k)) at 1 by (apply list_lookup_lookup_total_lt; rewrite rs_length; done).
    by rewrite concat_app. }
  assert (length (concat (take k rs)) = (k * 36)%nat) as El.
  { erewrite (records_length clen (take k l)) by by apply Forall2_take. rewrite length_take_le by lia. done. }
  assert (memcpy_from (concat rs) (k * 36 + 32) 4 = Ok (l !!! k).2) as Hm.
  { rewrite E, <- (take_drop 32 (rs !!! k)), Hdr, <- (app_assoc (take 32 _)), (app_assoc (concat _)).
    apply memcpy_field; [rewrite length_app, length_take; lia|].
    apply (Forall_lookup_1 _ _ k (l !!! k) Hd). by apply list_lookup_lookup_total_lt. }
  unfold read_record, raw_item, sizeof_CacheItem, kMaxCipherSize. rewrite Hm.
  rewrite E, copy_range_ok by (rewrite !length_app; lia).
  run. by rewrite <- El, drop_app_length, take_app_le by lia.
Qed.

(** The provider when the batch read ahead starts at item [a]. *)
Definition at_item (p : FileStoreProvider) (a : nat) : Prop :=
  exists r, p = mkProvider (concat rs) bs (Z.of_nat clen) (zlen l) (Z.of_nat r)
    (Some (tabulate (r - a) (fun i => raw_item (a + i)))) /\
  r = Nat.min (a + Z.to_nat bs) (length l) /\ (a <= r)%nat.

Lemma ReadFutureBatch_eq a b :
  (a <= length l)%nat ->
  wp (ReadFutureBatch (mkProvider (concat rs) bs (Z.of_nat clen) (zlen l) (Z.of_nat a) b)) (fun p => at_item p a).
Proof.
  intros Ha. unfold ReadFutureBatch. cbn [p_item_cnt_ read_cnt_ input_ p_batch_size_ p_cipher_len_]. unfold zlen in *.
  destruct (Z.leb_spec (Z.of_nat (length l)) (Z.of_nat a)).
  - run. exists a. split; [by rewrite Nat.sub_diag|lia].
  - set (c := Z.to_nat _). rewrite Nat2Z.id.
    rewrite (for_push c (fun i => read_record (concat rs) (a + i)) (fun i => raw_item (a + i))).
    + run. exists (a + c)%nat. split; [|lia]. replace (a + c - a)%nat with c by lia. do 2 f_equal. lia.
    + intros j Hj. apply read_record_eq. lia.
Qed.

Lemma read_items (slice : list (bytes * Z)) (raw : list (bytes * Z)) :
  zlen slice < 2 ^ 32 -> Forall (fun x => 0 <= x.2) slice ->
  length raw = length slice ->
  (forall i, (i < length slice)%nat -> copy_range (raw !!! i).1 0 clen = Ok (slice !!! i).1 /\ (raw !!! i).2 = (slice !!! i).2) ->
  wp (for_ (length raw) (fun i '(items, dup_cnt) =>
      item ← vget raw i; ct ← copy_range item.1 0 clen;
      Ok (items ++ [ct], if 0 <? item.2 then <[u32 (Z.of_nat i) := item.2]> dup_cnt else dup_cnt)) ([], ∅))
     (fun '(items, dup_cnt) => length items = length slice /\ with_counts (items, dup_cnt) = slice).
Proof.
  intros Hl Hpos Hlen Hs. unfold zlen in *.
  apply (wp_for _ _ (fun i '(items, dup) => items = map fst (take i slice) /\
    forall j, count dup (Z.of_nat j) = default 0 (snd <$> (take i slice) !! j))).
  - split; [done|]. intros j. done.
  - intros i [items dup] Hi [-> Hdup]. rewrite vget_total by done. run.
    destruct (Hs i ltac:(lia)) as [-> ->]. run.
    pose proof (list_lookup_lookup_total_lt slice i ltac:(lia)) as Hx.
    rewrite (take_S_r slice i _ Hx), map_app. split; [done|]. intros j.
    rewrite u32_small by lia. pose proof (Forall_lookup_1 _ _ _ _ Hpos Hx) as Hp. cbn beta in Hp.
    assert (length (take i slice) = i) as Ht by (rewrite length_take; lia).
    destruct (decide (j = i)) as [->|Hne].
    + rewrite lookup_app_r by lia. rewrite Ht, Nat.sub_diag. cbn [lookup list_lookup fmap option_fmap option_map default].
      destruct (Z.ltb_spec 0 (slice !!! i).2); unfold count in *.
      * by rewrite lookup_insert_eq.
      * rewrite Hdup, lookup_ge_None_2 by lia. cbn. apply Z.le_antisymm; assumption.
    + assert (count (if 0 <? (slice !!! i).2 then <[Z.of_nat i:=(slice !!! i).2]> dup else dup) (Z.of_nat j)
        = count dup (Z.of_nat j)) as ->.
      { destruct (0 <? _); [|done]. unfold count. by rewrite lookup_insert_ne by lia. }
      rewrite Hdup. destruct (decide (j < i)%nat).
      * by rewrite lookup_app_l by lia.
      * rewrite !lookup_ge_None_2; [done|rewrite length_app; cbn; lia|lia].
  - intros [items dup] [-> Hdup]. rewrite Hlen, take_ge in * by lia. split; [by rewrite length_map|].
    apply list_eq. intros j. unfold with_counts. cbn [fst snd]. rewrite list_lookup_imap, lookup_map.
    specialize (Hdup j). destruct (slice !! j) as [[x y]|]; [|done]. cbn in *. by rewrite Hdup.
Qed.

Lemma provider_delivers fuel a p :
  at_item p a -> (length l - a <= fuel)%nat ->
  exists bss q, delivers p bss q /\ stream_items bss = drop a l /\ (length bss <= fuel)%nat.
Proof.
  revert a p. induction fuel as [|fuel IH]; intros a p (r & -> & Hr & Har) Hf.
  - exists [], (mkProvider (concat rs) bs (Z.of_nat clen) (zlen l) (Z.of_nat r) None). split; [|split].
    + eapply delivers_end. cbn [ReadNextBatchWithDupCnt FileStoreProvider_basic]. unfold ReadCacheBatch. cbn [buffer_]. run.
      replace (r - a)%nat with 0%nat by lia. done.
    + rewrite drop_ge by lia. done.
    + done.
  - destruct (decide (r = a)) as [->|Hra].
    { exists [], (mkProvider (concat rs) bs (Z.of_nat clen) (zlen l) (Z.of_nat a) None). split; [|split].
      - eapply delivers_end. cbn [ReadNextBatchWithDupCnt FileStoreProvider_basic]. unfold ReadCacheBatch. cbn [buffer_]. run.
        rewrite Nat.sub_diag. done.
      - rewrite drop_ge by lia. done.
      - cbn. lia. }
    set (slice := take (r - a) (drop a l)). unfold zlen in *.
    assert (length slice = r - a)%nat as Hsl by (unfold slice; rewrite length_take, length_drop; lia).
    destruct (proj1 (wp_iff _ _) (ReadFutureBatch_eq r None ltac:(lia))) as (p' & Hp' & Hat).
    set (raw := tabulate (r - a) (fun i => raw_item (a + i))).
    assert (length raw = r - a)%nat as Hrl by apply length_tabulate.
    assert (Forall (fun x => 0 <= x.2) slice) as Hpos.
    { unfold slice. apply Forall_take, Forall_drop. eapply Forall_impl; [exact Hd|]. cbn. lia. }
    pose proof (read_items slice raw ltac:(unfold zlen; lia) Hpos ltac:(lia)) as Hrd.
    destruct (proj1 (wp_iff _ _) (Hrd ltac:(
      intros i Hi; unfold raw; rewrite tabulate_lookup by lia;
      unfold slice; rewrite lookup_total_take_lt, lookup_total_drop by lia;
      destruct (record_at (a + i) ltac:(lia)) as (L1 & L2 & _); unfold raw_item; cbn [fst snd];
      split; [|done]; rewrite copy_range_ok by (rewrite length_take; unfold sizeof_CacheItem, kMaxCipherSize in *; lia);
      rewrite drop_0, take_take, Nat.min_l by lia; by rewrite L2))) as ([items dup] & Hrun & Hil & Hwc).
    destruct (IH r p' Hat ltac:(lia)) as (bss & q & Hdel & Hst & Hlb).
    exists ((items, dup) :: bss), q. split; [|split].
    + eapply delivers_more; [|destruct items; [cbn in Hil; lia|done]|exact Hdel].
      cbn [ReadNextBatchWithDupCnt FileStoreProvider_basic]. unfold ReadCacheBatch. cbn [buffer_]. run. fold raw.
      rewrite bool_decide_false by (intros E; rewrite E in Hrl; cbn in Hrl; lia).
      cbn [input_ p_batch_size_ p_cipher_len_ p_item_cnt_ read_cnt_]. unfold zlen in Hp'. unfold zlen. rewrite Hp'. run.
      rewrite Nat2Z.id. rewrite Hrun. run. done.
    + unfold stream_items in *. cbn [map concat]. rewrite Hwc, Hst. unfold slice.
      rewrite <- (take_drop (r - a) (drop a l)) at 2. rewrite drop_drop. do 2 f_equal. lia.
    + cbn. lia.
Qed.
End provider.

(** A flushed store is read back by its provider. *)
Lemma GetBatchProvider_delivers s l bs :
  file_holds s l -> 0 < bs -> zlen l < 2 ^ 32 -> Forall (fun x => 0 <= x.2 < 2 ^ 32) l ->
  exists p bss q, GetBatchProvider (FileFlush s) bs = Ok p /\ delivers p bss q /\ stream_items bss = l /\
    (length bss <= length l)%nat.
Proof.
  intros ((rs & Hf & Hrs) & Hi & Hc) Hbs Hn Hd. unfold GetBatchProvider, Provider_new, FileFlush, DumpMeta.
  cbn [file_ cipher_len_]. rewrite Hf. pose proof (records_length _ _ _ Hrs) as Hl.
  assert (zlen (concat rs) / Z.of_nat sizeof_CacheItem = zlen l) as ->.
  { unfold zlen. rewrite Hl, Nat2Z.inj_mul. apply Z.div_mul. done. }
  destruct (proj1 (wp_iff _ _) (ReadFutureBatch_eq _ l rs bs Hrs ltac:(lia) Hbs Hd 0 None ltac:(lia))) as (p & Hp & Hat).
  rewrite Z2Nat.id in Hp by lia. change (Z.of_nat 0) with 0 in Hp. rewrite Hp.
  destruct (provider_delivers _ l rs bs Hrs ltac:(unfold kMaxCipherSize in *; lia) Hbs Hn Hd (length l) 0 p Hat ltac:(lia))
    as (bss & q & H1 & H2 & H3).
  exists p, bss, q. rewrite drop_0 in H2. done.
Qed.

(** Saving a list of ciphertexts of the right size. *)
Definition save_file (uninit : nat -> bytes) (l : list (bytes * Z)) (s : UbPsiClientCacheFileStore)
    : res UbPsiClientCacheFileStore :=
  for_ (length l) (fun i s => x ← vget l i; FileSave (uninit i) s x.1 x.2) s.

Lemma save_file_holds uninit l s :
  (forall i, length (uninit i) = kMaxCipherSize) -> file_holds s [] -> Forall (fun x => zlen x.1 = cipher_len_ s) l ->
  wp (save_file uninit l s) (fun s' => file_holds s' l).
Proof.
  intros Hu Hs Hl. unfold save_file.
  apply (wp_for _ _ (fun i s' => file_holds s' (take i l) /\ cipher_len_ s' = cipher_len_ s)); [done| |].
  - intros i s' Hi [Hs' Hc]. rewrite vget_total by done. run.
    pose proof (list_lookup_lookup_total_lt l i Hi) as Hx. rewrite (take_S_r l i _ Hx).
    eapply wp_mono; [apply (FileSave_holds (uninit i) s' (take i l)); [done|done|]|].
    + rewrite Hc. apply (Forall_lookup_1 _ _ _ _ Hl Hx).
    + intros s2 [H2 C2]. destruct (l !!! i). split; [done|congruence].
  - intros s' [Hs' _]. by rewrite firstn_all in Hs'.
Qed.

(** C38.  The cache file keeps what is saved: for ciphertexts of the store's
    length, saving them to a new file, flushing, and reading the file through
    the prefetching provider of any batch size delivers the same ciphertexts
    with the same extra counts, in order, whatever the unused bytes of the
    records are; the stream ends after at most as many batches as items. *)
Theorem cache_file_roundtrip uninit clen l bs :
  (forall i, length (uninit i) = kMaxCipherSize) -> 0 <= clen <= Z.of_nat kMaxCipherSize ->
  Forall (fun x => zlen x.1 = clen /\ 0 <= x.2 < 2 ^ 32) l -> zlen l < 2 ^ 32 -> 0 < bs ->
  wp (s ← UbPsiClientCacheFileStore_new [] None clen; s' ← save_file uninit l s; GetBatchProvider (FileFlush s') bs)
     (fun p => exists bss q, delivers p bss q /\ stream_items bss = l /\ (length bss <= length l)%nat).
Proof.
  intros Hu Hc Hl Hn Hbs. apply wp_bind. eapply wp_mono; [by apply FileStore_new_holds|]. intros s [Hs Es].
  apply wp_bind. eapply wp_mono; [apply (save_file_holds uninit l s Hu Hs)|].
  - eapply Forall_impl; [exact Hl|]. cbn. intros x [Hx _]. by rewrite Es.
  - intros s' Hs'. destruct (GetBatchProvider_delivers s' l bs Hs' Hbs Hn) as (p & bss & q & Hp & ?).
    + eapply Forall_impl; [exact Hl|]. cbn. tauto.
    + rewrite Hp. run. eauto.
Qed.

(** ** Matching *)
Section matching.
Context (self : UbPsiClientCacheMemoryStore).

Definition match_one (k : Z) (x : bytes * Z) : list Found :=
  match Find self x.1 with Some r => [mkFound (ci_index r) k (ci_duplicate_cnt r) x.2] | None => [] end.
(** The matches of a list of peer items that starts at position [k]. *)
Fixpoint matches (k : Z) (l : list (bytes * Z)) : list Found :=
  match l with [] => [] | x :: l' => match_one k x ++ matches (k + 1) l' end.

Lemma matches_app k a b : matches k (a ++ b) = matches k a ++ matches (k + zlen a) b.
Proof.
  revert k. induction a as [|x a IH]; intros k; cbn [app matches].
  - by rewrite Z.add_0_r.
  - rewrite IH, <- app_assoc. do 3 f_equal. unfold zlen. cbn [length]. lia.
Qed.

Lemma matches_tabulate k (l : list (bytes * Z)) :
  matches k l = concat (tabulate (length l) (fun i => match_one (k + Z.of_nat i) (l !!! i))).
Proof.
  induction l as [|x l IH] using rev_ind; [done|].
  rewrite length_app, Nat.add_1_r, tabulate_S, concat_app, matches_app, IH. cbn [matches concat].
  rewrite !app_nil_r. f_equal.
  - f_equal. apply eq_tabulate; [by rewrite length_tabulate|]. intros i Hi. rewrite tabulate_lookup by done.
    by rewrite lookup_total_app_l.
  - unfold zlen. by rewrite list_lookup_total_middle by done.
Qed.

Lemma for_app {A} n (g : nat -> list A) (f : nat -> list A -> res (list A)) acc :
  (forall i acc, (i < n)%nat -> f i acc = Ok (acc ++ g i)) ->
  for_ n f acc = Ok (acc ++ concat (tabulate n g)).
Proof.
  intros Hf. induction n as [|n IH]; [by rewrite app_nil_r|].
  rewrite for_S, IH by auto with lia. run. rewrite Hf, tabulate_S, concat_app by lia. cbn [concat].
  by rewrite app_nil_r, app_assoc.
Qed.

(** The matches a thread finds in its share of a batch. *)
Definition share (items : list (bytes * Z)) (cs idx : nat) : list (bytes * Z) := take cs (drop (idx * cs) items).

Lemma compare_proc_eq peer_items peer_cnt off cs idx acc :
  0 <= off -> off + zlen peer_items < 2 ^ 32 -> Z.of_nat (idx * cs + cs) < 2 ^ 64 ->
  compare_proc self peer_items peer_cnt off (Z.of_nat cs) idx acc
    = Ok (acc ++ matches (off + Z.of_nat (idx * cs)) (share (with_counts (peer_items, peer_cnt)) cs idx)).
Proof.
  intros Hoff Hl Hw. unfold compare_proc, share. unfold zlen in *.
  set (items := with_counts (peer_items, peer_cnt)).
  assert (length items = length peer_items) as Hi by apply length_imap.
  rewrite (u64_small (Z.of_nat idx * Z.of_nat cs)) by lia.
  rewrite (u64_small (_ + Z.of_nat cs)) by lia.
  set (n := Z.to_nat _).
  assert (length (take cs (drop (idx * cs) items)) = n) as Hn by (rewrite length_take, length_drop; lia).
  rewrite matches_tabulate, Hn. apply (for_app n). intros i acc' Hin.
  rewrite vgetz_total by lia. run. f_equal.
  replace (Z.to_nat (Z.of_nat idx * Z.of_nat cs + Z.of_nat i)) with (idx * cs + i)%nat by lia.
  rewrite lookup_total_take_lt, lookup_total_drop by lia.
  assert (items !!! (idx * cs + i)%nat = (peer_items !!! (idx * cs + i)%nat, count peer_cnt (Z.of_nat (idx * cs + i)))) as ->.
  { apply list_lookup_total_correct. unfold items, with_counts. cbn [fst snd].
    rewrite list_lookup_imap, list_lookup_lookup_total_lt by lia. done. }
  unfold match_one. cbn [fst snd]. destruct (Find self _) as [r|]; [|by rewrite app_nil_r].
  rewrite u64_small, u32_small by lia. do 3 f_equal; [lia|]. f_equal. lia.
Qed.

Lemma concat_app_perm {A} n (f g : nat -> list A) :
  Permutation (concat (tabulate n (fun j => f j ++ g j))) (concat (tabulate n f) ++ concat (tabulate n g)).
Proof.
  induction n as [|n IH]; [done|]. rewrite !tabulate_S, !concat_app, IH. cbn [concat]. rewrite !app_nil_r.
  solve_Permutation.
Qed.

(** The shares of the threads are the batch. *)
Lemma shares_concat k items cs T :
  concat (tabulate T (fun j => matches (k + Z.of_nat (j * cs)) (share items cs j))) = matches k (take (T * cs) items).
Proof.
  induction T as [|T IH]; [done|]. rewrite tabulate_S, concat_app, IH. cbn [concat]. rewrite app_nil_r.
  unfold share. replace (S T * cs)%nat with (T * cs + cs)%nat by lia. rewrite <- take_take_drop, matches_app.
  destruct (decide (T * cs <= length items)%nat).
  - unfold zlen. by rewrite length_take_le.
  - rewrite (drop_ge items (T * cs)) by lia. by rewrite !take_nil, !app_nil_r.
Qed.

Lemma compare_batch T items cnt off found :
  (0 < T)%nat -> Z.of_nat T < 2 ^ 31 -> length found = T -> 0 <= off -> off + zlen items < 2 ^ 32 ->
  wp (for_ T (fun idx found =>
        mine ← vget found idx;
        mine' ← compare_proc self items cnt off (u64 (zlen items + Z.of_nat T - 1) / Z.of_nat T) idx mine;
        vset found idx mine') found)
     (fun found' => length found' = T /\
        Permutation (concat found') (concat found ++ matches off (with_counts (items, cnt)))).
Proof.
  intros HT HT2 Hlen Hoff Hl. unfold zlen in *. rewrite u64_small by lia.
  set (cs := Z.to_nat ((Z.of_nat (length items) + Z.of_nat T - 1) / Z.of_nat T)).
  assert ((Z.of_nat (length items) + Z.of_nat T - 1) / Z.of_nat T = Z.of_nat cs) as ->.
  { unfold cs. rewrite Z2Nat.id; [done|]. apply Z.div_pos; lia. }
  assert (length items <= T * cs /\ T * cs < length items + T)%nat as [Hcs Hcs2].
  { pose proof (Z.div_mod (Z.of_nat (length items) + Z.of_nat T - 1) (Z.of_nat T) ltac:(lia)).
    pose proof (Z.mod_pos_bound (Z.of_nat (length items) + Z.of_nat T - 1) (Z.of_nat T) ltac:(lia)). nia. }
  set (part j := matches (off + Z.of_nat (j * cs)) (share (with_counts (items, cnt)) cs j)).
  apply (wp_for_fill T _ (fun j => found !!! j ++ part j)); [lia| |].
  - intros i s Hi Hs Hsi. rewrite vget_total by lia. run.
    rewrite compare_proc_eq; [run|done|unfold zlen; lia|].
    + rewrite Hsi. apply vset_total. lia.
    + assert (i * cs + cs <= T * cs)%nat by nia. lia.
  - intros s Hs H1 _. split; [lia|].
    rewrite (eq_tabulate T (fun j => found !!! j ++ part j) s) by (lia || done).
    rewrite concat_app_perm. unfold part. rewrite shares_concat, take_ge.
    + apply Permutation_app_tail, reflexive_eq. f_equal. symmetry. apply eq_tabulate; done.
    + unfold with_counts. rewrite length_imap. cbn [fst]. lia.
Qed.

Lemma compare_batches_spec {P} `{IBasicBatchProvider P} (p q : P) bss T fuel off found :
  delivers p bss q -> (0 < T)%nat -> Z.of_nat T < 2 ^ 31 -> length found = T -> 0 <= off ->
  off + zlen (stream_items bss) < 2 ^ 32 -> (length bss < fuel)%nat ->
  wp (compare_batches fuel self T p off found)
     (fun found' => Permutation (concat found') (concat found ++ matches off (stream_items bss))).
Proof.
  intros Hd HT HT2. revert fuel off found. induction Hd as [p d p' Hr|p b d p' bs q Hr Hne Hd IH];
    intros fuel off found Hlen Hoff Hl Hf; (destruct fuel as [|fuel]; [lia|]); cbn [compare_batches]; rewrite Hr; run.
  - cbn. by rewrite app_nil_r.
  - rewrite !bool_decide_false by (done || lia). run.
    assert (stream_items ((b, d) :: bs) = with_counts (b, d) ++ stream_items bs) as E by done.
    rewrite E in *. assert (zlen (with_counts (b, d)) = zlen b) as Hwc by (unfold zlen, with_counts; by rewrite length_imap).
    assert (off + zlen b + zlen (stream_items bs) < 2 ^ 32).
    { unfold zlen in *. rewrite length_app in Hl. lia. }
    assert (0 <= zlen (stream_items bs) /\ 0 <= zlen b) by (unfold zlen; lia).
    apply wp_bind. eapply wp_mono; [apply compare_batch; (done || lia)|]. intros found1 [L1 P1].
    rewrite u64_small by lia. eapply wp_mono; [apply IH; (done || lia || (cbn in Hf; lia))|].
    intros found2 P2. by rewrite P2, P1, matches_app, Hwc, <- app_assoc.
Qed.
End matching.

Lemma ComputeIndicesWithDupCnt_ok self peer l bs T fuel :
  file_holds peer l -> 0 < bs -> (0 < T)%nat -> Z.of_nat T < 2 ^ 31 -> zlen l < 2 ^ 32 ->
  Forall (fun x => 0 <= x.2 < 2 ^ 32) l -> (length l < fuel)%nat ->
  wp (ComputeIndicesWithDupCnt fuel T self peer bs) (fun info => exists all,
    Permutation all (matches self 0 l) /\
    self_indices info = map (fun f => u32 (f_self_index f)) all /\ peer_indices info = map (fun f => u32 (f_peer_index f)) all /\
    self_dup_cnt info = map (fun f => u32 (f_self_dup f)) all /\ peer_dup_cnt info = map (fun f => u32 (f_peer_dup f)) all).
Proof.
  intros Hp Hbs HT HT2 Hl Hd Hf. unfold ComputeIndicesWithDupCnt.
  destruct (GetBatchProvider_delivers peer l bs Hp Hbs Hl Hd) as (p & bss & q & -> & Hdel & Hst & Hlb). run.
  apply wp_bind. eapply wp_mono.
  { apply (compare_batches_spec (Flush self) p q bss T fuel 0 (replicate T [])); rewrite ?Hst; try done; try lia.
    by rewrite length_replicate. }
  intros found Hperm. run. exists (concat found). split; [|done].
  rewrite Hperm, Hst. replace (concat (replicate T [])) with (@nil Found); [done|].
  clear. induction T; cbn; done.
Qed.

(** C22.  The indices of the intersection are complete and exact: the four
    vectors list, for every position of the peer's cache file whose ciphertext
    the own cache has, its own index, the peer's position and the two extra
    counts, once each, and nothing else; only the order depends on the number of
    threads and the batch size. *)
Theorem ComputeIndicesWithDupCnt_correct self peer l bs T fuel :
  file_holds peer l -> 0 < bs -> (0 < T)%nat -> Z.of_nat T < 2 ^ 31 -> zlen l < 2 ^ 32 ->
  Forall (fun x => 0 <= x.2 < 2 ^ 32) l -> (length l < fuel)%nat ->
  wp (ComputeIndicesWithDupCnt fuel T self peer bs) (fun info => exists all,
    Permutation all (matches self 0 l) /\
    self_indices info = map (fun f => u32 (f_self_index f)) all /\ peer_indices info = map (fun f => u32 (f_peer_index f)) all /\
    self_dup_cnt info = map (fun f => u32 (f_self_dup f)) all /\ peer_dup_cnt info = map (fun f => u32 (f_peer_dup f)) all).
Proof. apply ComputeIndicesWithDupCnt_ok. Qed.

(** The reader goes through the pairs in index order and then reports the end. *)
Lemma MemoryIndexReader_reads std_sort index dup :
  length index = length dup -> (forall l, Permutation (std_sort l) l) ->
  exists sorted, Permutation sorted (zip index dup) /\ sorted = std_sort (zip index dup) /\
  wp (r ← MemoryIndexReader_new std_sort index dup;
      for_ (length index) (fun _ '(acc, r) => '(x, r') ← GetNextWithPeerCnt r; Ok (acc ++ [x], r')) ([], r))
     (fun '(acc, r) => acc = map Some sorted /\ GetNextWithPeerCnt r = Ok (None, r)).
Proof.
  intros Hl Hsort. exists (std_sort (zip index dup)). split; [apply Hsort|]. split; [done|].
  unfold MemoryIndexReader_new, zlen. rewrite (proj2 (Z.eqb_eq _ _)) by lia. run.
  assert (length (zip index dup) = length index) as Hz by (rewrite length_zip_with; lia).
  apply wp_bind. apply wp_bind.
  apply (wp_for_fill (length index) _ (fun i => (index !!! i, dup !!! i))); [by rewrite length_replicate| |].
  { intros i s Hi Hs _. rewrite !vget_total by lia. run. rewrite length_replicate in Hs. apply vset_total. lia. }
  intros s Hs H1 _. rewrite length_replicate in Hs. run.
  assert (s = zip index dup) as ->.
  { apply list_eq_total; [lia|]. intros i Hi. rewrite H1 by lia. symmetry. apply list_lookup_total_correct.
    apply lookup_zip_with_Some. exists (index !!! i), (dup !!! i). rewrite !list_lookup_lookup_total_lt by lia. done. }
  set (sorted := std_sort _). assert (length sorted = length index) as Hls by (unfold sorted; by rewrite Hsort).
  apply (wp_for _ _ (fun i '(acc, r) => acc = map Some (take i sorted) /\ r = mkReader sorted (Z.of_nat i))); [done| |].
  - intros i [acc r] Hi [-> ->]. unfold GetNextWithPeerCnt, HasNext, zlen. cbn [reader_items_ reader_cnt_].
    rewrite (proj2 (Z.ltb_lt _ _)) by lia. cbn [negb]. rewrite vgetz_total by lia. run. rewrite Nat2Z.id.
    rewrite (take_S_r sorted i _ (list_lookup_lookup_total_lt sorted i ltac:(lia))), map_app. split; [done|]. f_equal. lia.
  - intros [acc r] [-> ->]. rewrite take_ge by lia. split; [done|]. unfold GetNextWithPeerCnt, HasNext, zlen.
    cbn [reader_items_ reader_cnt_]. by rewrite (proj2 (Z.ltb_ge _ _)) by lia.
Qed.

(** ** Runs *)
Definition toy_saved : list (bytes * Z) := [([5; 6], 0); ([7; 8], 2); ([9; 9], 0)].

Lemma cache_file_roundtrip_witness :
  wp (s ← UbPsiClientCacheFileStore_new [] None 2; s' ← save_file (fun i => replicate 32 (Z.of_nat i)) toy_saved s;
      GetBatchProvider (FileFlush s') 2)
     (fun p => exists bss q, delivers p bss q /\ stream_items bss = toy_saved /\ (length bss <= length toy_saved)%nat).
Proof.
  apply (cache_file_roundtrip (fun i => replicate 32 (Z.of_nat i)) 2 toy_saved 2).
  - intros i. by rewrite length_replicate.
  - unfold kMaxCipherSize. lia.
  - unfold toy_saved, zlen. rewrite !Forall_cons, Forall_nil. cbn. lia.
  - vm_compute. reflexivity.
  - lia.
Defined.

Lemma ComputeIndicesWithDupCnt_correct_witness :
  let self := mkUbMemory (<[[9; 9] := mkCacheIndex 0 1]> (<[[5; 6] := mkCacheIndex 1 0]> ∅)) 2 in
  exists peer, save_file (fun i => replicate 32 0) toy_saved (DumpMeta (mkUbFile [] [] 2 0 0 (mkCacheMeta 0 0 0))) = Ok peer /\
  wp (ComputeIndicesWithDupCnt 4 3 self peer 2) (fun info => exists all,
    Permutation all (matches self 0 toy_saved) /\
    self_indices info = map (fun f => u32 (f_self_index f)) all /\ peer_indices info = map (fun f => u32 (f_peer_index f)) all /\
    self_dup_cnt info = map (fun f => u32 (f_self_dup f)) all /\ peer_dup_cnt info = map (fun f => u32 (f_peer_dup f)) all).
Proof.
  cbv zeta.
  assert (file_holds (DumpMeta (mkUbFile [] [] 2 0 0 (mkCacheMeta 0 0 0))) []) as H0.
  { split; [by exists []|]. split; [done|]. unfold kMaxCipherSize. cbn. lia. }
  assert (Forall (fun x => zlen x.1 = 2) toy_saved) as Hl.
  { unfold toy_saved, zlen. rewrite !Forall_cons, Forall_nil. cbn. done. }
  destruct (proj1 (wp_iff _ _) (save_file_holds (fun i => replicate 32 0) toy_saved _ ltac:(done) H0 Hl))
    as (peer & Hsave & Hp).
  exists peer. split; [exact Hsave|].
  apply (ComputeIndicesWithDupCnt_correct _ peer toy_saved 2 3 4 Hp).
  - lia.
  - lia.
  - lia.
  - vm_compute. reflexivity.
  - unfold toy_saved, zlen. rewrite !Forall_cons, Forall_nil. cbn. lia.
  - vm_compute. reflexivity.
Defined.
