(* ===== verification/EcdhPsi.v ===== *)
(** * ECDH-PSI (psi/algorithm/ecdh/ecdh_psi, psi/cryptor/ecc_cryptor, psi/utils/communication)

    Each party runs three loops in threads of their own: [MaskSelf] sends its
    masked items, [MaskPeer] masks the peer's once more, keeps and returns the
    ciphers, [RecvDualMaskedSelf] collects its own doubly masked items.  One
    definition per loop body; the threads and the links between them are the
    step relation [step] of a direction, and a session is two directions whose
    steps interleave freely.

    Parameters: the elliptic curve group ([EcGroup]), the protobuf runtime on
    [PsiDataBatch] ([BatchProto]), the batch provider and the two stores (the
    interfaces of EcStore).  A link delivers messages in order; its tags only
    label them.  Logging is left out. *)
From S2P Require Import Prelude EcStore.

(** ** communication.h: PsiDataBatch *)
Record PsiDataBatch := mkBatch {
  item_num : Z;
  flatten_bytes : bytes;
  batch_index : Z;
  is_last_batch : bool;
  type_ : string;
  duplicate_item_cnt : DupCnt
}.
Class BatchProto := {
  Buffer : Type;
  proto_serialize : PsiDataBatch -> Buffer;
  proto_parse : Buffer -> PsiDataBatch
}.
Class BatchProtoLaws `{BatchProto} : Prop := {
  batch_roundtrip b : proto_parse (proto_serialize b) = b
}.

(** ** ecc_cryptor.h, ecc_cryptor.cc *)
Class EcGroup := {
  EcPoint : Type;
  HashToCurve : bytes -> EcPoint;
  Mul : EcPoint -> Z -> EcPoint;
  SerializePoint : EcPoint -> bytes;
  DeserializePoint : bytes -> EcPoint;
  GetSerializeLength : nat
}.
Class EcGroupLaws `{EcGroup} : Prop := {
  Mul_comm p a b : Mul (Mul p a) b = Mul (Mul p b) a;
  point_roundtrip p : DeserializePoint (SerializePoint p) = p;
  point_length p : length (SerializePoint p) = GetSerializeLength
}.

Section cryptor.
Context `{EcGroup}.

(** [sk.FromMagBytes(private_key_, little)]. *)
Definition EccMask_point (private_key : bytes) (point : EcPoint) : EcPoint := Mul point (le_value private_key).
Definition EccMask (private_key : bytes) (points : list EcPoint) : list EcPoint :=
  map (EccMask_point private_key) points.
Definition HashInputs (items : list bytes) : list EcPoint := map HashToCurve items.
Definition SerializeEcPoints (points : list EcPoint) : list bytes := map SerializePoint points.
Definition DeserializeEcPoints (items : list bytes) : list EcPoint := map DeserializePoint items.
End cryptor.

(** ** ecdh_psi.h, ecdh_psi.cc *)
Definition kAllRank : Z := 2 ^ 64 - 1.

Record EcdhPsiOptions := mkOptions {
  rank : Z;
  private_key : bytes;
  curve_type : Z;
  dual_mask_size : nat;
  target_rank : Z;
  recovery_manager : bool
}.
Definition NextRank (o : EcdhPsiOptions) : Z := 1 - rank o.
Definition SelfCanTouchResults (o : EcdhPsiOptions) : bool :=
  (target_rank o =? kAllRank) || (target_rank o =? rank o).
Definition PeerCanTouchResults (o : EcdhPsiOptions) : bool :=
  (target_rank o =? kAllRank) || (target_rank o =? NextRank o).

(** The exchanged configurations must agree. *)
Definition CheckConfig (mine peer : EcdhPsiOptions) : res unit :=
  enforce ((target_rank mine =? target_rank peer) && (curve_type mine =? curve_type peer)).

Section batches.
Context `{BatchProto}.

Definition BatchData (batch_items : list bytes) (dup : DupCnt) (type : string) (batch_idx : Z) : PsiDataBatch :=
  mkBatch (u32 (zlen batch_items)) (if bool_decide (batch_items = []) then [] else concat batch_items) (i32 batch_idx)
    (bool_decide (batch_items = [])) type (if bool_decide (batch_items = []) then ∅ else dup).
Definition SendBatchImpl (batch_items : list bytes) (dup : DupCnt) (type : string) (batch_idx : Z) : Buffer :=
  proto_serialize (BatchData batch_items dup type batch_idx).

(** [std::string::substr] throws when it starts past the end. *)
Definition substr (s : bytes) (pos n : nat) : res bytes :=
  if bool_decide (pos <= length s)%nat then Ok (take n (drop pos s)) else Throw.
Definition RecvBatchImpl (buf : Buffer) (batch_idx : Z) : res (list bytes * DupCnt) :=
  let batch := proto_parse buf in
  _ ← enforce (batch_index batch =? i32 batch_idx);
  if 0 <? item_num batch then
    let item_size := zlen (flatten_bytes batch) / item_num batch in
    items ← for_ (Z.to_nat (item_num batch)) (fun i items =>
      x ← substr (flatten_bytes batch) (i * Z.to_nat item_size) (Z.to_nat item_size); Ok (items ++ [x])) [];
    Ok (items, duplicate_item_cnt batch)
  else Ok ([], ∅).
End batches.

Section threads.
Context `{BatchProto} `{EcGroup}.
Context {P : Type} `{IBasicBatchProvider P}.
Context {S : Type} `{IEcPointStore S}.

(** *** MaskSelf *)
Record MaskSelfState := mkMaskSelf {
  provider : P;
  read_next_batch : bool;
  batch_items : list bytes;
  self_dup_cnt : DupCnt;
  batch_count : Z;
  item_count : Z;
  self_done : bool
}.

(** The loop that skips the items of a previous run.  The assignment to
    [processed_item_cnt] comes before the loop that shifts the extra counts. *)
Fixpoint skip_processed (fuel : nat) (p : P) (processed_item_cnt : Z) (read_next : bool) (items : list bytes)
    (dup : DupCnt) : res (P * bool * list bytes * DupCnt) :=
  if 0 <? processed_item_cnt then
    match fuel with
    | O => UB
    | Datatypes.S fuel' =>
        '(read_batch_items, item_cnt, p') ← ReadNextBatchWithDupCnt p;
        _ ← (if bool_decide (read_batch_items = []) then enforce (processed_item_cnt =? 0) else Ok tt);
        if zlen read_batch_items <=? processed_item_cnt
        then skip_processed fuel' p' (processed_item_cnt - zlen read_batch_items) read_next items dup
        else
          let batch_items := drop (Z.to_nat processed_item_cnt) read_batch_items in
          let processed_item_cnt := 0 in
          let shifted := map_fold (fun index cnt d =>
            if processed_item_cnt <=? index then <[index - processed_item_cnt := cnt]> d else d) dup item_cnt in
          skip_processed fuel' p' processed_item_cnt false batch_items shifted
    end
  else Ok (p, read_next, items, dup).

Definition MaskSelf_start (fuel : nat) (batch_provider : P) (processed_item_cnt : Z) : res MaskSelfState :=
  '(p, read_next, items, dup) ← skip_processed fuel batch_provider processed_item_cnt true [] ∅;
  Ok (mkMaskSelf p read_next items dup 0 processed_item_cnt false).

(** The body of [while (true)]: the next state and the message sent. *)
Definition MaskSelf_iter (o : EcdhPsiOptions) (s : MaskSelfState) : res (MaskSelfState * Buffer) :=
  '(items, dup, p) ←
    (if read_next_batch s then ReadNextBatchWithDupCnt (provider s)
     else Ok (batch_items s, self_dup_cnt s, provider s));
  let hashed_points := HashInputs items in
  let masked_points := EccMask (private_key o) hashed_points in
  let masked_items := SerializeEcPoints masked_points in
  let msg := if PeerCanTouchResults o then SendBatchImpl masked_items dup "enc" (batch_count s)
             else SendBatchImpl masked_items ∅ "enc" (batch_count s) in
  if bool_decide (items = [])
  then Ok (mkMaskSelf p true items dup (batch_count s) (item_count s) true, msg)
  else Ok (mkMaskSelf p true items dup (u64 (batch_count s + 1)) (u64 (item_count s + zlen items)) false, msg).

(** *** MaskPeer *)
Record MaskPeerState := mkMaskPeer {
  peer_store : S;
  peer_batch_count : Z;
  peer_item_count : Z;
  saved_peer_count : option Z;
  peer_done : bool
}.
Definition MaskPeer_start (store : S) : MaskPeerState := mkMaskPeer store 0 0 None false.

(** The last [dual_mask_size] bytes of a serialized point. *)
Definition final_bytes (masked : bytes) (n : nat) : res bytes :=
  if bool_decide (n <= length masked)%nat then Ok (drop (length masked - n) masked) else UB.

Definition MaskPeer_iter (o : EcdhPsiOptions) (s : MaskPeerState) (recv : Buffer) : res (MaskPeerState * list Buffer) :=
  '(peer_items, dup) ← RecvBatchImpl recv (peer_batch_count s);
  let peer_points := DeserializeEcPoints peer_items in
  let masked_points := EccMask (private_key o) peer_points in
  '(store, dual_masked_peers) ← for_ (length peer_points) (fun i '(store, dual) =>
    pt ← vget masked_points i;
    cipher ← final_bytes (SerializePoint pt) (dual_mask_size o);
    store' ← (if SelfCanTouchResults o then Save store cipher (count dup (Z.of_nat i)) else Ok store);
    Ok (store', dual ++ [cipher])) (peer_store s, []);
  let checkpoint := negb (bool_decide (peer_items = [])) && SelfCanTouchResults o && recovery_manager o in
  let store := if checkpoint then Flush store else store in
  let saved := if checkpoint then Some (ItemCount store) else saved_peer_count s in
  let sent := if PeerCanTouchResults o
              then [SendBatchImpl dual_masked_peers ∅ "dual.enc" (peer_batch_count s)] else [] in
  if bool_decide (peer_items = [])
  then Ok (mkMaskPeer store (peer_batch_count s) (peer_item_count s) saved true, sent)
  else Ok (mkMaskPeer store (u64 (peer_batch_count s + 1)) (u64 (peer_item_count s + zlen peer_items)) saved false, sent).

(** *** RecvDualMaskedSelf *)
Record RecvState := mkRecv {
  self_store : S;
  recv_batch_count : Z;
  saved_self_count : option Z;
  recv_done : bool
}.
Definition RecvDualMaskedSelf_start (o : EcdhPsiOptions) (store : S) : RecvState :=
  mkRecv store 0 None (negb (SelfCanTouchResults o)).
Definition RecvDualMaskedSelf_iter (o : EcdhPsiOptions) (s : RecvState) (recv : Buffer) : res RecvState :=
  '(masked_items, _) ← RecvBatchImpl recv (recv_batch_count s);
  store ← Save_all (self_store s) masked_items;
  if bool_decide (masked_items = [])
  then Ok (mkRecv store (recv_batch_count s) (saved_self_count s) true)
  else
    let store := if recovery_manager o then Flush store else store in
    let saved := if recovery_manager o then Some (ItemCount store) else saved_self_count s in
    Ok (mkRecv store (u64 (recv_batch_count s + 1)) saved false).

(** *** The threads of one direction: the owner's items go to the peer over the
    main link and come back doubly masked over the spawned one. *)
Record direction := mkDirection {
  mask_self : MaskSelfState;
  main_link : list Buffer;
  mask_peer : MaskPeerState;
  dual_link : list Buffer;
  recv_dual : RecvState
}.

Inductive step (owner peer : EcdhPsiOptions) : direction -> direction -> Prop :=
| step_mask_self ms main mp dual rd ms' msg :
    self_done ms = false -> MaskSelf_iter owner ms = Ok (ms', msg) ->
    step owner peer (mkDirection ms main mp dual rd) (mkDirection ms' (main ++ [msg]) mp dual rd)
| step_mask_peer ms msg main mp dual rd mp' sent :
    peer_done mp = false -> MaskPeer_iter peer mp msg = Ok (mp', sent) ->
    step owner peer (mkDirection ms (msg :: main) mp dual rd) (mkDirection ms main mp' (dual ++ sent) rd)
| step_recv_dual ms main mp msg dual rd rd' :
    recv_done rd = false -> RecvDualMaskedSelf_iter owner rd msg = Ok rd' ->
    step owner peer (mkDirection ms main mp (msg :: dual) rd) (mkDirection ms main mp dual rd').

(** All three threads have returned. *)
Definition finished (d : direction) : Prop :=
  self_done (mask_self d) = true /\ peer_done (mask_peer d) = true /\ recv_done (recv_dual d) = true.

(** A session: both directions at once. *)
Record session := mkSession { a_to_b : direction; b_to_a : direction }.
Inductive session_step (a b : EcdhPsiOptions) : session -> session -> Prop :=
| step_a d1 d1' d2 : step a b d1 d1' -> session_step a b (mkSession d1 d2) (mkSession d1' d2)
| step_b d1 d2 d2' : step b a d2 d2' -> session_step a b (mkSession d1 d2) (mkSession d1 d2').

(** [RunEcdhPsi] at one party: what its handler starts from. *)
Definition resume_count (o : EcdhPsiOptions) (dual_masked_cnt_from_peer self_count : Z) : Z :=
  if recovery_manager o then
    if SelfCanTouchResults o && PeerCanTouchResults o then Z.min dual_masked_cnt_from_peer self_count
    else if SelfCanTouchResults o && negb (PeerCanTouchResults o) then self_count
    else dual_masked_cnt_from_peer
  else 0.
End threads.
Arguments MaskSelfState : clear implicits.
Arguments MaskPeerState : clear implicits.
Arguments RecvState : clear implicits.
Arguments direction {_} P S : assert.
Arguments session {_} P S : assert.

(** The intersection of the simple wrapper over memory stores: [std::sort] and
    [std::binary_search] on the peer's ciphers amount to membership. *)
Definition result_items (items : list bytes) (self_results peer_results : list bytes) : res (list bytes) :=
  for_ (length self_results) (fun index ret =>
    x ← vget self_results index;
    if bool_decide (x ∈ peer_results)
    then _ ← enforce (bool_decide (index < length items)%nat); item ← vget items index; Ok (ret ++ [item])
    else Ok ret) [].

(** ** Messages *)
Section messages.
Context `{BatchProtoLaws}.

Lemma concat_uniform (items : list bytes) L : Forall (fun x => length x = L) items -> length (concat items) = (length items * L)%nat.
Proof. induction 1 as [|x l Hx _ IH]; [done|]. cbn [concat length]. rewrite length_app, Hx, IH. lia. Qed.

(** A batch of items of one length is split back where it was joined. *)
Lemma RecvBatch_SendBatch items dup ty k L :
  Forall (fun x => length x = L) items -> zlen items < 2 ^ 32 ->
  RecvBatchImpl (SendBatchImpl items dup ty k) k = Ok (items, if bool_decide (items = []) then ∅ else dup).
Proof.
  intros HL Hn. unfold RecvBatchImpl, SendBatchImpl. rewrite batch_roundtrip. unfold BatchData.
  cbn [batch_index item_num flatten_bytes duplicate_item_cnt]. rewrite Z.eqb_refl. run.
  rewrite u32_small by (unfold zlen in *; lia). case_bool_decide as He; [by subst|].
  assert (0 < zlen items) as Hpos by (destruct items; [done|unfold zlen; cbn; lia]).
  rewrite (proj2 (Z.ltb_lt _ _)) by done.
  pose proof (concat_uniform items L HL) as Hc. unfold zlen in *.
  assert (Z.of_nat (length (concat items)) / Z.of_nat (length items) = Z.of_nat L) as ->.
  { rewrite Hc, Nat2Z.inj_mul, Z.mul_comm. apply Z.div_mul. lia. }
  rewrite !Nat2Z.id.
  rewrite (for_push (length items) (fun i => substr (concat items) (i * L) L) (fun i => items !!! i)).
  - run. rewrite app_nil_l. do 2 f_equal. symmetry. by apply eq_tabulate.
  - intros j Hj. unfold substr. rewrite Hc, bool_decide_true by nia. f_equal.
    pose proof (list_lookup_lookup_total_lt items j Hj) as Hx.
    assert (concat items = concat (take j items) ++ items !!! j ++ concat (drop (Datatypes.S j) items)) as ->.
    { rewrite <- (take_drop_middle items j _ Hx) at 1. by rewrite concat_app. }
    assert (length (concat (take j items)) = (j * L)%nat) as Hl.
    { rewrite (concat_uniform _ L) by by apply Forall_take. rewrite length_take_le by lia. done. }
    rewrite <- Hl, drop_app_length. apply take_app_length'. symmetry. apply (Forall_lookup_1 _ _ _ _ HL Hx).
Qed.
End messages.

(** ** One direction *)
Section direction.
Context `{BatchProtoLaws} `{EcGroupLaws}.
Context {P : Type} `{IBasicBatchProvider P}.
Context {S : Type} `{IEcPointStore S} (holds : S -> list (bytes * Z) -> Prop) `{!StoreLaws S holds}.
Context (owner peer : EcdhPsiOptions).

(** The two ends of a link agree on who learns the result. *)
Definition paired : Prop :=
  SelfCanTouchResults peer = PeerCanTouchResults owner /\ PeerCanTouchResults peer = SelfCanTouchResults owner /\
  (dual_mask_size peer <= GetSerializeLength)%nat.
Context (Hpair : paired).

Definition mask_of (x : bytes) : bytes := SerializePoint (EccMask_point (private_key owner) (HashToCurve x)).
(** What both ends end up with for an item: the last bytes of its doubly masked point. *)
Definition cipher_of (x : bytes) : bytes :=
  let masked := SerializePoint (EccMask_point (private_key peer) (EccMask_point (private_key owner) (HashToCurve x))) in
  drop (length masked - dual_mask_size peer) masked.

Lemma cipher_length x : length (cipher_of x) = dual_mask_size peer.
Proof. unfold cipher_of. destruct Hpair as (_ & _ & Hd). rewrite length_drop, point_length. lia. Qed.

Definition masks (b : list bytes) : list bytes := SerializeEcPoints (EccMask (private_key owner) (HashInputs b)).
Lemma masks_eq b : masks b = map mask_of b.
Proof. unfold masks, SerializeEcPoints, EccMask, HashInputs. by rewrite !map_map. Qed.

(** The [k]-th message of each link. *)
Definition idx (k : nat) : Z := u64 (Z.of_nat k).
Definition sent_dup (d : DupCnt) : DupCnt := if PeerCanTouchResults owner then d else ∅.
Definition main_msg (k : nat) (b : list bytes * DupCnt) : Buffer :=
  SendBatchImpl (masks b.1) (sent_dup b.2) "enc" (idx k).
Definition dual_msg (k : nat) (b : list bytes * DupCnt) : Buffer :=
  SendBatchImpl (map cipher_of b.1) ∅ "dual.enc" (idx k).

(** What the peer keeps of a batch. *)
Definition kept (b : list bytes * DupCnt) : list (bytes * Z) :=
  if PeerCanTouchResults owner then map (fun x => (cipher_of x.1, x.2)) (with_counts b) else [].
Definition returned (b : list bytes * DupCnt) : list (bytes * Z) := map (fun x => (cipher_of x, 0)) b.1.

Definition batch_ok (b : list bytes * DupCnt) : Prop :=
  b.1 <> [] /\ zlen b.1 < 2 ^ 32 /\ Forall (fun x => 0 <= x.2 < 2 ^ 32) (with_counts b).

(** The batches [MaskSelf] has still to send. *)
Definition ready (ms : MaskSelfState P) (rest : list (list bytes * DupCnt)) : Prop :=
  if read_next_batch ms then exists q, delivers (provider ms) rest q
  else exists rest' q, rest = (batch_items ms, self_dup_cnt ms) :: rest' /\ batch_items ms <> [] /\ delivers (provider ms) rest' q.

Lemma idx_S k : u64 (idx k + 1) = idx (Datatypes.S k).
Proof. unfold idx, u64. rewrite wrap_add_l. f_equal. lia. Qed.

Lemma MaskSelf_iter_batch ms b rest k :
  ready ms (b :: rest) -> b.1 <> [] -> batch_count ms = idx k ->
  exists ms', MaskSelf_iter owner ms = Ok (ms', main_msg k b) /\ ready ms' rest /\
    batch_count ms' = idx (Datatypes.S k) /\ self_done ms' = false /\ item_count ms' = u64 (item_count ms + zlen b.1).
Proof.
  intros Hr Hb Hk. destruct b as [b d]. cbn [fst] in Hb.
  assert (exists p' q, (if read_next_batch ms then ReadNextBatchWithDupCnt (provider ms)
    else Ok (batch_items ms, self_dup_cnt ms, provider ms)) = Ok (b, d, p') /\ delivers p' rest q) as (p' & q & E & Hd).
  { unfold ready in Hr. destruct (read_next_batch ms).
    - destruct Hr as [q Hr]. inversion Hr; subst. eauto.
    - destruct Hr as (rest' & q & [= -> -> ->] & _ & Hd). eauto. }
  unfold MaskSelf_iter. rewrite E. run. rewrite bool_decide_false by done.
  eexists. split; [do 2 f_equal; unfold main_msg, sent_dup; cbn [fst snd]; rewrite Hk; by destruct (PeerCanTouchResults owner)|].
  cbn [ready read_next_batch provider batch_count self_done item_count]. rewrite Hk, idx_S. split_and!; try done.
  by exists q.
Qed.

Lemma MaskSelf_iter_end ms k :
  ready ms [] -> batch_count ms = idx k ->
  exists ms', MaskSelf_iter owner ms = Ok (ms', main_msg k ([], ∅)) /\ self_done ms' = true /\ item_count ms' = item_count ms.
Proof.
  intros Hr Hk. unfold ready in Hr. unfold MaskSelf_iter. destruct (read_next_batch ms).
  - destruct Hr as [q Hr]. inversion Hr as [p d p' E|]; subst. rewrite E. run. rewrite bool_decide_true by done.
    eexists. split; [do 2 f_equal; unfold main_msg, sent_dup; cbn [fst snd]; rewrite Hk; by destruct (PeerCanTouchResults owner)|].
    done.
  - destruct Hr as (rest' & q & ? & _). done.
Qed.

Lemma recv_main k b :
  zlen b.1 < 2 ^ 32 -> RecvBatchImpl (main_msg k b) (idx k) = Ok (masks b.1, if bool_decide (masks b.1 = []) then ∅ else sent_dup b.2).
Proof.
  intros Hb. apply (RecvBatch_SendBatch _ _ _ _ GetSerializeLength).
  - rewrite masks_eq. apply List.Forall_map, Forall_true. intros x. apply point_length.
  - rewrite masks_eq. unfold zlen in *. by rewrite length_map.
Qed.

(** The inner loop of [MaskPeer]. *)
Lemma mask_peer_loop s l0 (b : list bytes) d :
  holds s l0 -> (PeerCanTouchResults owner = true -> Forall (fun x => 0 <= x.2 < 2 ^ 32) (with_counts (b, d))) ->
  wp (for_ (length b) (fun i '(store, dual) =>
        pt ← vget (EccMask (private_key peer) (DeserializeEcPoints (masks b))) i;
        cipher ← final_bytes (SerializePoint pt) (dual_mask_size peer);
        store' ← (if SelfCanTouchResults peer then Save store cipher (count d (Z.of_nat i)) else Ok store);
        Ok (store', dual ++ [cipher])) (s, []))
     (fun '(store, dual) => holds store (l0 ++ kept (b, d)) /\ dual = map cipher_of b).
Proof.
  intros Hs Hd. destruct Hpair as (Hc & _ & Hm).
  assert (forall i, (i < length b)%nat -> EccMask (private_key peer) (DeserializeEcPoints (masks b)) !! i
    = Some (EccMask_point (private_key peer) (EccMask_point (private_key owner) (HashToCurve (b !!! i))))) as Hpt.
  { intros i Hi. unfold EccMask, DeserializeEcPoints. rewrite masks_eq, !map_map, lookup_map.
    rewrite (list_lookup_lookup_total_lt b i Hi). cbn. unfold mask_of. by rewrite point_roundtrip. }
  apply (wp_for _ _ (fun i '(store, dual) => holds store (l0 ++ kept (take i b, d)) /\ dual = map cipher_of (take i b))).
  - split; [|done]. unfold kept. destruct (PeerCanTouchResults owner); cbn; by rewrite app_nil_r.
  - intros i [store dual] Hi [Hst ->]. unfold vget. rewrite Hpt by done. run.
    unfold final_bytes. rewrite point_length, bool_decide_true by done. run.
    pose proof (list_lookup_lookup_total_lt b i Hi) as Hx. rewrite (take_S_r b i _ Hx), map_app. cbn [map].
    assert (forall pt, pt = SerializePoint (EccMask_point (private_key peer) (EccMask_point (private_key owner) (HashToCurve (b !!! i)))) ->
      drop (GetSerializeLength - dual_mask_size peer) pt = cipher_of (b !!! i)) as Hci.
    { intros pt ->. unfold cipher_of. by rewrite point_length. }
    rewrite (Hci _ eq_refl). unfold kept in *. rewrite Hc in *.
    destruct (PeerCanTouchResults owner) eqn:Ep; [|run; done].
    rewrite <- (take_S_r b i _ Hx), with_counts_take, map_app, app_assoc by done. cbn [map fst snd]. apply wp_bind.
    eapply wp_mono; [apply (Save_holds store); [exact Hst|]|].
    + apply (Forall_lookup_1 _ _ i (b !!! i, count d (Z.of_nat i)) (Hd eq_refl)).
      unfold with_counts. cbn [fst snd]. rewrite list_lookup_imap, Hx. done.
    + intros store' Hst'. run. done.
  - intros [store dual]. by rewrite firstn_all.
Qed.

Lemma MaskPeer_iter_spec mp l0 b k :
  holds (peer_store mp) l0 -> peer_batch_count mp = idx k ->
  (b.1 = [] \/ batch_ok b) ->
  wp (MaskPeer_iter peer mp (main_msg k b)) (fun '(mp', sent) =>
    holds (peer_store mp') (l0 ++ kept b) /\ peer_done mp' = bool_decide (b.1 = []) /\
    peer_batch_count mp' = (if bool_decide (b.1 = []) then idx k else idx (Datatypes.S k)) /\
    peer_item_count mp' = (if bool_decide (b.1 = []) then peer_item_count mp else u64 (peer_item_count mp + zlen b.1)) /\
    sent = (if SelfCanTouchResults owner then [dual_msg k b] else [])).
Proof.
  intros Hs Hk Hb. unfold MaskPeer_iter. destruct b as [b d]. cbn [fst snd] in *.
  rewrite Hk, recv_main by (cbn [fst]; destruct Hb as [->|(_ & ? & _)]; [done|done]). run. cbn [fst snd].
  assert (masks b = [] <-> b = []) as Hnil by (rewrite masks_eq; destruct b; done).
  rewrite (bool_decide_ext _ _ Hnil). destruct Hpair as (Hc & Hc' & Hm).
  assert (length (DeserializeEcPoints (masks b)) = length b) as ->.
  { unfold DeserializeEcPoints. by rewrite masks_eq, !length_map. }
  apply wp_bind. eapply wp_mono.
  { apply (mask_peer_loop _ l0 b (if bool_decide (b = []) then ∅ else sent_dup d)); [exact Hs|].
    unfold sent_dup. intros ->. case_bool_decide as E; [by subst|]. destruct Hb as [?|(_ & _ & ?)]; done. }
  intros [store dual] [Hst ->]. rewrite Hc'.
  assert (kept (b, if bool_decide (b = []) then ∅ else sent_dup d) = kept (b, d)) as E.
  { unfold kept, sent_dup. destruct (PeerCanTouchResults owner); [|done]. case_bool_decide; [by subst|done]. }
  rewrite E in Hst. clear E.
  assert (forall c : bool, holds (if c then Flush store else store) (l0 ++ kept (b, d))) as Hst'.
  { intros []; [by apply Flush_holds|done]. }
  set (c := _ && _ && _). specialize (Hst' c). unfold zlen. rewrite masks_eq, length_map.
  case_bool_decide as Eb; cbn [wp peer_store peer_done peer_batch_count peer_item_count]; rewrite ?idx_S; split_and!; done.
Qed.

Lemma RecvDual_iter_spec rd l0 b k :
  holds (self_store rd) l0 -> recv_batch_count rd = idx k -> zlen b.1 < 2 ^ 32 ->
  wp (RecvDualMaskedSelf_iter owner rd (dual_msg k b)) (fun rd' =>
    holds (self_store rd') (l0 ++ returned b) /\ recv_done rd' = bool_decide (b.1 = []) /\
    recv_batch_count rd' = (if bool_decide (b.1 = []) then idx k else idx (Datatypes.S k))).
Proof.
  intros Hs Hk Hb. unfold RecvDualMaskedSelf_iter. rewrite Hk. unfold dual_msg.
  rewrite (RecvBatch_SendBatch _ _ _ _ (dual_mask_size peer)).
  2:{ apply List.Forall_map, Forall_true. apply cipher_length. }
  2:{ unfold zlen in *. by rewrite length_map. }
  run. apply wp_bind. eapply wp_mono; [by apply (Save_all_holds holds)|].
  intros store Hst. rewrite map_map in Hst.
  assert (map cipher_of b.1 = [] <-> b.1 = []) as Hnil by (destruct (b.1); done).
  rewrite (bool_decide_ext _ _ Hnil).
  case_bool_decide as Eb; cbn [wp self_store recv_done recv_batch_count]; rewrite ?idx_S; [done|].
  split_and!; try done. destruct (recovery_manager owner); [by apply Flush_holds|done].
Qed.
End direction.

(** ** Runs of one direction *)
Section run.
Context `{BatchProtoLaws} `{EcGroupLaws}.
Context {P : Type} `{IBasicBatchProvider P}.
Context {S : Type} `{IEcPointStore S} (holds : S -> list (bytes * Z) -> Prop) `{!StoreLaws S holds}.
Context (owner peer : EcdhPsiOptions) (Hpair : paired owner peer).
Context (bs : list (list bytes * DupCnt)) (Hbs : Forall batch_ok bs).
Context (self0 peer0 : list (bytes * Z)) (start : Z).

Abbreviation n := (length bs).
(** The batches as sent: an empty one ends the stream. *)
Definition all_batches : list (list bytes * DupCnt) := bs ++ [([], ∅)].
Definition main_msgs : list Buffer := imap (main_msg owner) all_batches.
Definition dual_msgs : list Buffer := imap (dual_msg owner peer) all_batches.
Definition kept_of (l : list (list bytes * DupCnt)) : list (bytes * Z) := concat (map (kept owner peer) l).
Definition returned_of (l : list (list bytes * DupCnt)) : list (bytes * Z) := concat (map (returned owner peer) l).
Definition sizes (l : list (list bytes * DupCnt)) : Z := zlen (concat (map fst l)).

(** [MaskSelf] has sent [i] messages, [MaskPeer] has handled [j] of them, and
    [RecvDualMaskedSelf] [k] of the replies. *)
Record at_point (i j k : nat) (d : direction P S) : Prop := {
  ap_order : (k <= j <= i /\ i <= n + 1)%nat;
  ap_self : if decide (i <= n)%nat
            then ready (mask_self d) (drop i bs) /\ batch_count (mask_self d) = idx i /\
                 self_done (mask_self d) = false /\ item_count (mask_self d) = u64 (start + sizes (take i bs))
            else self_done (mask_self d) = true /\ item_count (mask_self d) = u64 (start + sizes bs);
  ap_main : main_link d = take (i - j) (drop j main_msgs);
  ap_peer : holds (peer_store (mask_peer d)) (peer0 ++ kept_of (take j all_batches)) /\
            peer_done (mask_peer d) = bool_decide (j = n + 1)%nat /\
            ((j <= n)%nat -> peer_batch_count (mask_peer d) = idx j) /\
            peer_item_count (mask_peer d) = u64 (sizes (take j all_batches));
  ap_dual : dual_link d = if SelfCanTouchResults owner then take (j - k) (drop k dual_msgs) else [];
  ap_recv : if SelfCanTouchResults owner
            then holds (self_store (recv_dual d)) (self0 ++ returned_of (take k all_batches)) /\
                 recv_done (recv_dual d) = bool_decide (k = n + 1)%nat /\
                 ((k <= n)%nat -> recv_batch_count (recv_dual d) = idx k)
            else holds (self_store (recv_dual d)) self0 /\ recv_done (recv_dual d) = true /\ k = 0%nat
}.

Lemma all_batches_length : length all_batches = (n + 1)%nat.
Proof. unfold all_batches. rewrite length_app. done. Qed.

Lemma all_batches_last : all_batches !! n = Some ([], ∅).
Proof. unfold all_batches. by rewrite lookup_app_r, Nat.sub_diag. Qed.

Lemma all_batches_lt i : (i < n)%nat -> all_batches !! i = Some (bs !!! i).
Proof. intros Hi. unfold all_batches. rewrite lookup_app_l by done. by apply list_lookup_lookup_total_lt. Qed.

Lemma all_batches_at i : (i <= n)%nat ->
  exists b, all_batches !! i = Some b /\ (b.1 = [] \/ batch_ok b) /\ zlen b.1 < 2 ^ 32 /\ (b.1 = [] <-> i = n).
Proof.
  intros Hi. destruct (decide (i = n)) as [->|].
  - exists ([], ∅). rewrite all_batches_last. split_and!; try done. by left.
  - pose proof (all_batches_lt i ltac:(lia)) as Hx. exists (bs !!! i). split; [done|].
    pose proof (Forall_lookup_1 _ _ _ _ Hbs (list_lookup_lookup_total_lt bs i ltac:(lia))) as Hok.
    split; [by right|]. destruct Hok as (Hne & Hl & _). split; [done|]. split; [done|lia].
Qed.

Lemma msgs_next {A} (f : nat -> list bytes * DupCnt -> A) k m b :
  all_batches !! k = Some b -> (k < m)%nat ->
  take (m - k) (drop k (imap f all_batches)) = f k b :: take (m - Datatypes.S k) (drop (Datatypes.S k) (imap f all_batches)).
Proof.
  intros Hb Hm. replace (m - k)%nat with (Datatypes.S (m - Datatypes.S k)) by lia.
  rewrite (drop_S _ (f k b)); [done|]. by rewrite list_lookup_imap, Hb.
Qed.

Lemma msgs_snoc {A} (f : nat -> list bytes * DupCnt -> A) j i b :
  all_batches !! i = Some b -> (j <= i)%nat ->
  take (i - j) (drop j (imap f all_batches)) ++ [f i b] = take (Datatypes.S i - j) (drop j (imap f all_batches)).
Proof.
  intros Hb Hj. replace (Datatypes.S i - j)%nat with (Datatypes.S (i - j)) by lia.
  symmetry. apply take_S_r. rewrite lookup_drop, list_lookup_imap.
  replace (j + (i - j))%nat with i by lia. by rewrite Hb.
Qed.

Lemma sizes_snoc l b : sizes (l ++ [b]) = sizes l + zlen b.1.
Proof. unfold sizes, zlen. rewrite map_app, concat_app, length_app. cbn. rewrite app_nil_r. lia. Qed.
Lemma kept_snoc l b : kept_of (l ++ [b]) = kept_of l ++ kept owner peer b.
Proof. unfold kept_of. rewrite map_app, concat_app. cbn. by rewrite app_nil_r. Qed.
Lemma returned_snoc l b : returned_of (l ++ [b]) = returned_of l ++ returned owner peer b.
Proof. unfold returned_of. rewrite map_app, concat_app. cbn. by rewrite app_nil_r. Qed.
Lemma u64_add_r a b c : c = u64 a -> u64 (c + b) = u64 (a + b).
Proof. intros ->. unfold u64. apply wrap_add_l. Qed.

(** What each thread does next. *)
Lemma mask_self_next ms main mp dual rd i j k :
  at_point i j k (mkDirection ms main mp dual rd) -> (i <= n)%nat ->
  exists ms' msg, self_done ms = false /\ MaskSelf_iter owner ms = Ok (ms', msg) /\
    at_point (Datatypes.S i) j k (mkDirection ms' (main ++ [msg]) mp dual rd).
Proof.
  intros [Ho Hs Hm Hp Hd Hr] Hi. cbn [mask_self main_link mask_peer dual_link recv_dual] in *.
  rewrite decide_True in Hs by done. destruct Hs as (Hready & Hc & Hdone & Hit).
  destruct (decide (i = n)) as [->|Hne].
  - rewrite drop_all in Hready. destruct (MaskSelf_iter_end owner ms n Hready Hc) as (ms' & E & Hd' & Hi').
    exists ms', (main_msg owner n ([], ∅)). split; [done|]. split; [exact E|].
    split; cbn [mask_self main_link mask_peer dual_link recv_dual]; try done; [lia| |].
    + rewrite decide_False by lia. rewrite Hi', Hit, firstn_all. done.
    + rewrite Hm. apply (msgs_snoc (main_msg owner)); [apply all_batches_last|lia].
  - pose proof (list_lookup_lookup_total_lt bs i ltac:(lia)) as Hx.
    rewrite (drop_S _ _ _ Hx) in Hready.
    pose proof (Forall_lookup_1 _ _ _ _ Hbs Hx) as (Hb & _).
    destruct (MaskSelf_iter_batch owner ms _ _ i Hready Hb Hc) as (ms' & E & Hr' & Hc' & Hd' & Hi').
    exists ms', (main_msg owner i (bs !!! i)). split; [done|]. split; [exact E|].
    split; cbn [mask_self main_link mask_peer dual_link recv_dual]; try done; [lia| |].
    + rewrite decide_True by lia. split_and!; try done.
      rewrite (take_S_r bs i _ Hx), sizes_snoc, Hi', Z.add_assoc. by apply u64_add_r.
    + rewrite Hm. apply (msgs_snoc (main_msg owner)); [apply all_batches_lt; lia|lia].
Qed.

Lemma mask_peer_next ms main mp dual rd i j k :
  at_point i j k (mkDirection ms main mp dual rd) -> (j < i)%nat ->
  exists msg main' mp' sent, main = msg :: main' /\ peer_done mp = false /\ MaskPeer_iter peer mp msg = Ok (mp', sent) /\
    at_point i (Datatypes.S j) k (mkDirection ms main' mp' (dual ++ sent) rd).
Proof.
  intros [Ho Hs Hm Hp Hd Hr] Hji. cbn [mask_self main_link mask_peer dual_link recv_dual] in *.
  destruct (all_batches_at j ltac:(lia)) as (b & Hb & Hok & _ & Hend).
  unfold main_msgs in Hm. rewrite (msgs_next (main_msg owner) j i b Hb Hji) in Hm.
  destruct Hp as (Hst & Hdone & Hc & Hit). specialize (Hc ltac:(lia)).
  destruct (proj1 (wp_iff _ _) (MaskPeer_iter_spec holds owner peer Hpair mp _ b j Hst Hc Hok))
    as ([mp' sent] & E & Hst' & Hd' & Hc' & Hi' & ->).
  exists (main_msg owner j b), (take (i - Datatypes.S j) (drop (Datatypes.S j) (imap (main_msg owner) all_batches))),
    mp', (if SelfCanTouchResults owner then [dual_msg owner peer j b] else []).
  split; [exact Hm|]. split; [rewrite Hdone; apply bool_decide_false; lia|]. split; [exact E|].
  rewrite (bool_decide_ext _ _ Hend) in Hd', Hc', Hi'.
  split; cbn [mask_self main_link mask_peer dual_link recv_dual]; try done; [lia| |].
  - rewrite (take_S_r _ _ _ Hb), kept_snoc, sizes_snoc, app_assoc. split; [exact Hst'|].
    split; [rewrite Hd'; apply bool_decide_ext; lia|]. split.
    + intros Hj. rewrite Hc', bool_decide_false by lia. done.
    + rewrite Hi'. case_bool_decide as Ee.
      * rewrite (proj2 Hend Ee). unfold zlen. cbn. by rewrite Z.add_0_r.
      * by apply u64_add_r.
  - rewrite Hd. destruct (SelfCanTouchResults owner); [|done].
    apply (msgs_snoc (dual_msg owner peer)); [done|lia].
Qed.

Lemma recv_dual_next ms main mp dual rd i j k :
  at_point i j k (mkDirection ms main mp dual rd) -> SelfCanTouchResults owner = true -> (k < j)%nat ->
  exists msg dual' rd', dual = msg :: dual' /\ recv_done rd = false /\ RecvDualMaskedSelf_iter owner rd msg = Ok rd' /\
    at_point i j (Datatypes.S k) (mkDirection ms main mp dual' rd').
Proof.
  intros [Ho Hs Hm Hp Hd Hr] Hcan Hkj. cbn [mask_self main_link mask_peer dual_link recv_dual] in *.
  rewrite Hcan in Hd, Hr. destruct Hr as (Hst & Hdone & Hc). specialize (Hc ltac:(lia)).
  destruct (all_batches_at k ltac:(lia)) as (b & Hb & _ & Hlen & Hend).
  unfold dual_msgs in Hd. rewrite (msgs_next (dual_msg owner peer) k j b Hb Hkj) in Hd.
  destruct (proj1 (wp_iff _ _) (RecvDual_iter_spec holds owner peer Hpair rd _ b k Hst Hc Hlen))
    as (rd' & E & Hst' & Hd' & Hc').
  exists (dual_msg owner peer k b), (take (j - Datatypes.S k) (drop (Datatypes.S k) (imap (dual_msg owner peer) all_batches))), rd'.
  split; [exact Hd|]. split; [rewrite Hdone; apply bool_decide_false; lia|]. split; [exact E|].
  rewrite (bool_decide_ext _ _ Hend) in Hd', Hc'.
  split; cbn [mask_self main_link mask_peer dual_link recv_dual]; try done; [lia|by rewrite Hcan|].
  rewrite Hcan, (take_S_r _ _ _ Hb), returned_snoc, app_assoc. split; [exact Hst'|].
  split; [rewrite Hd'; apply bool_decide_ext; lia|].
  intros Hj. rewrite Hc', bool_decide_false by lia. done.
Qed.

(** Every step is one of these, and some step is possible until all is done. *)
Lemma step_advances d d' i j k :
  at_point i j k d -> step owner peer d d' -> exists i' j' k', at_point i' j' k' d' /\ (i' + j' + k' = i + j + k + 1)%nat.
Proof.
  intros Hp Hstep. inversion Hstep as [ms main mp dual rd ms' msg Hd E|ms msg main mp dual rd mp' sent Hd E|
    ms main mp msg dual rd rd' Hd E]; subst.
  - destruct (decide (i <= n)%nat) as [Hi|Hi].
    + destruct (mask_self_next _ _ _ _ _ i j k Hp Hi) as (ms2 & msg2 & _ & E2 & Hp').
      rewrite E2 in E. injection E as <- <-. exists (Datatypes.S i), j, k. split; [done|lia].
    + pose proof (ap_self _ _ _ _ Hp) as Hs. rewrite decide_False in Hs by done. cbn in Hs. destruct Hs; congruence.
  - pose proof (ap_main _ _ _ _ Hp) as Hm. cbn in Hm. destruct (decide (j < i)%nat) as [Hj|Hj].
    + destruct (mask_peer_next _ _ _ _ _ i j k Hp Hj) as (msg2 & main2 & mp2 & sent2 & [= <- <-] & _ & E2 & Hp').
      rewrite E2 in E. injection E as <- <-. exists i, (Datatypes.S j), k. split; [done|lia].
    + replace (i - j)%nat with 0%nat in Hm by lia. done.
  - pose proof (ap_dual _ _ _ _ Hp) as Hm. cbn in Hm. destruct (SelfCanTouchResults owner) eqn:Hcan; [|done].
    destruct (decide (k < j)%nat) as [Hk|Hk].
    + destruct (recv_dual_next _ _ _ _ _ i j k Hp Hcan Hk) as (msg2 & dual2 & rd2 & [= <- <-] & _ & E2 & Hp').
      rewrite E2 in E. injection E as <-. exists i, j, (Datatypes.S k). split; [done|lia].
    + replace (j - k)%nat with 0%nat in Hm by lia. done.
Qed.

Lemma can_step d i j k : at_point i j k d -> finished d \/ exists d', step owner peer d d'.
Proof.
  intros Hp. destruct d as [ms main mp dual rd]. pose proof (ap_order _ _ _ _ Hp) as Ho.
  destruct (decide (i <= n)%nat) as [Hi|Hi].
  { right. destruct (mask_self_next _ _ _ _ _ i j k Hp Hi) as (ms' & msg & Hd & E & _). eexists. by econstructor. }
  destruct (decide (j < i)%nat) as [Hj|Hj].
  { right. destruct (mask_peer_next _ _ _ _ _ i j k Hp Hj) as (msg & main' & mp' & sent & -> & Hd & E & _).
    eexists. by econstructor. }
  pose proof (ap_self _ _ _ _ Hp) as Hs. rewrite decide_False in Hs by done. destruct Hs as [Hs _].
  pose proof (ap_peer _ _ _ _ Hp) as (_ & Hpd & _). rewrite bool_decide_true in Hpd by lia.
  pose proof (ap_recv _ _ _ _ Hp) as Hr. destruct (SelfCanTouchResults owner) eqn:Hcan; [|by left; destruct Hr as (_ & ? & _)].
  destruct (decide (k < j)%nat) as [Hk|Hk].
  { right. destruct (recv_dual_next _ _ _ _ _ i j k Hp Hcan Hk) as (msg & dual' & rd' & -> & Hd & E & _).
    eexists. by econstructor. }
  left. destruct Hr as (_ & Hrd & _). rewrite bool_decide_true in Hrd by lia. done.
Qed.

(** The end: what the stores hold. *)
Definition completed (d : direction P S) : Prop :=
  finished d /\
  holds (peer_store (mask_peer d))
    (peer0 ++ if PeerCanTouchResults owner then map (fun x => (cipher_of owner peer x.1, x.2)) (stream_items bs) else []) /\
  holds (self_store (recv_dual d))
    (self0 ++ if SelfCanTouchResults owner then map (fun x => (cipher_of owner peer x.1, 0)) (stream_items bs) else []) /\
  item_count (mask_self d) = u64 (start + zlen (stream_items bs)) /\
  peer_item_count (mask_peer d) = u64 (zlen (stream_items bs)).

Lemma sizes_stream l : sizes l = zlen (stream_items l).
Proof.
  unfold sizes, stream_items, zlen. f_equal. induction l as [|b l IH]; [done|]. cbn. rewrite !length_app, IH.
  f_equal. unfold with_counts. by rewrite length_imap.
Qed.

Lemma kept_stream l : kept_of l = if PeerCanTouchResults owner then map (fun x => (cipher_of owner peer x.1, x.2)) (stream_items l) else [].
Proof.
  unfold kept_of, stream_items, kept. destruct (PeerCanTouchResults owner).
  - by rewrite concat_map, map_map.
  - induction l; [done|]. cbn. done.
Qed.

Lemma returned_stream l : returned_of l = map (fun x => (cipher_of owner peer x.1, 0)) (stream_items l).
Proof.
  unfold returned_of, stream_items, returned. rewrite concat_map, map_map. f_equal. apply map_ext. intros b.
  unfold with_counts. apply list_eq. intros i. rewrite !lookup_map, list_lookup_imap. destruct (b.1 !! i); done.
Qed.

Lemma finished_point d i j k : at_point i j k d -> finished d -> completed d.
Proof.
  intros Hp (F1 & F2 & F3). pose proof (ap_order _ _ _ _ Hp) as Ho.
  pose proof (ap_peer _ _ _ _ Hp) as (Hst & Hpd & _ & Hpi). rewrite F2 in Hpd. symmetry in Hpd.
  apply bool_decide_eq_true_1 in Hpd as ->.
  assert (i = n + 1)%nat as -> by lia.
  pose proof (ap_self _ _ _ _ Hp) as Hs. rewrite decide_False in Hs by lia. destruct Hs as [_ Hsi].
  assert (take (n + 1) all_batches = all_batches) as Ha by (apply take_ge; rewrite all_batches_length; lia).
  assert (sizes all_batches = sizes bs) as Hsz by (unfold all_batches; rewrite sizes_snoc; unfold zlen; cbn; lia).
  rewrite Ha in Hst, Hpi. rewrite Hsz, sizes_stream in Hpi. rewrite sizes_stream in Hsi.
  assert (stream_items all_batches = stream_items bs) as Hsa.
  { unfold all_batches, stream_items. rewrite map_app, concat_app. cbn. by rewrite app_nil_r. }
  rewrite kept_stream, Hsa in Hst.
  split_and!; try done.
  pose proof (ap_recv _ _ _ _ Hp) as Hr. destruct (SelfCanTouchResults owner).
  - destruct Hr as (Hrs & Hrd & _). rewrite F3 in Hrd. symmetry in Hrd. apply bool_decide_eq_true_1 in Hrd as ->.
    by rewrite Ha, returned_stream, Hsa in Hrs.
  - destruct Hr as (Hrs & _). by rewrite app_nil_r.
Qed.

(** Any run from a point ends, and ends completed. *)
Lemma point_terminates d i j k : at_point i j k d -> sn (step owner peer) d.
Proof.
  remember (3 * (n + 1) - (i + j + k))%nat as m eqn:Hm. revert d i j k Hm.
  induction (lt_wf m) as [m _ IH]. intros d i j k -> Hp. constructor. intros d' Hstep.
  destruct (step_advances d d' i j k Hp Hstep) as (i' & j' & k' & Hp' & Heq).
  pose proof (ap_order _ _ _ _ Hp'). eapply (IH (3 * (n + 1) - (i' + j' + k'))%nat); [|done|exact Hp']. lia.
Qed.

Lemma point_runs d d' i j k : at_point i j k d -> rtc (step owner peer) d d' -> exists i' j' k', at_point i' j' k' d'.
Proof.
  intros Hp Hr. revert i j k Hp. induction Hr as [d|d d1 d' Hs Hr IH]; intros i j k Hp; [eauto|].
  destruct (step_advances d d1 i j k Hp Hs) as (i' & j' & k' & Hp' & _). eauto.
Qed.

Lemma start_point ms sp ss :
  ready ms bs -> batch_count ms = 0 -> self_done ms = false -> item_count ms = u64 start ->
  holds sp peer0 -> holds ss self0 ->
  at_point 0 0 0 (mkDirection ms [] (MaskPeer_start sp) [] (RecvDualMaskedSelf_start owner ss)).
Proof.
  intros Hr Hc Hd Hi Hp Hs. split; cbn [mask_self main_link mask_peer dual_link recv_dual]; [lia| |done| | |].
  - rewrite decide_True by lia. split_and!; try done. rewrite Hi. cbn. by rewrite Z.add_0_r.
  - cbn. rewrite app_nil_r. split; [done|]. split; [symmetry; apply bool_decide_false; lia|done].
  - destruct (SelfCanTouchResults owner); done.
  - cbn. destruct (SelfCanTouchResults owner); cbn; [rewrite app_nil_r|]; split_and!; try done.
    symmetry. apply bool_decide_false. lia.
Qed.
End run.

(** C14.  One direction of the protocol always comes to its end with the right
    contents, however its three threads interleave: every run of steps is
    finite, no reachable state is stuck before the three threads have returned,
    and then the peer's store holds, after what it held before, the cipher of
    every item of the owner with its extra count, and the owner's store the same
    ciphers, each only if that party is to learn the result; the statistics are
    the numbers of items. *)
Theorem direction_terminates `{BatchProtoLaws} `{EcGroupLaws} {P} `{IBasicBatchProvider P} {S} `{IEcPointStore S}
    (holds : S -> list (bytes * Z) -> Prop) `{!StoreLaws S holds} owner peer bs self0 peer0 start ms sp ss d :
  paired owner peer -> Forall batch_ok bs ->
  ready ms bs -> batch_count ms = 0 -> self_done ms = false -> item_count ms = u64 start ->
  holds sp peer0 -> holds ss self0 ->
  let d0 := mkDirection ms [] (MaskPeer_start sp) [] (RecvDualMaskedSelf_start owner ss) in
  sn (step owner peer) d0 /\
  (rtc (step owner peer) d0 d ->
     (finished d /\ completed holds owner peer bs self0 peer0 start d) \/ exists d', step owner peer d d').
Proof.
  intros Hpair Hbs Hr Hc Hd Hi Hp Hs d0.
  pose proof (start_point holds owner peer bs self0 peer0 start ms sp ss Hr Hc Hd Hi Hp Hs) as H0p.
  split; [by eapply point_terminates|]. intros Hrun.
  destruct (point_runs holds owner peer Hpair bs Hbs self0 peer0 start d0 d _ _ _ H0p Hrun) as (i & j & k & Hpt).
  destruct (can_step holds owner peer Hpair bs Hbs self0 peer0 start d i j k Hpt) as [Hf|Hst]; [left|by right].
  split; [done|]. by eapply finished_point.
Qed.

(** ** Resuming *)
Section resume.
Context {P : Type} `{IBasicBatchProvider P}.

Definition keys_ok (bs : list (list bytes * DupCnt)) : Prop :=
  Forall (fun b => forall i c, b.2 !! i = Some c -> 0 <= i) bs.

Lemma unshifted (d : DupCnt) :
  (forall i c, d !! i = Some c -> 0 <= i) ->
  map_fold (fun index cnt (m : DupCnt) => if 0 <=? index then <[index - 0 := cnt]> m else m) ∅ d = d.
Proof.
  revert d. apply (map_fold_weak_ind (fun m d => (forall i c, d !! i = Some c -> 0 <= i) -> m = d)); [done|].
  intros i c d m Hi IH Hk. rewrite (proj2 (Z.leb_le _ _)) by (apply (Hk i c); by rewrite lookup_insert_eq).
  rewrite Z.sub_0_r, IH; [done|]. intros i' c' Hi'. apply (Hk i' c').
  rewrite lookup_insert_ne; [done|]. intros ->. congruence.
Qed.

(** C29.  A resumed [MaskSelf] skips exactly the items already processed: it is
    ready to send, in this order, what is left of the batch the count ends in
    and all later batches.  The extra counts of that first batch are those of
    the whole batch, under their old positions: the loop meant to drop the
    skipped ones and shift the others runs after the count was reset. *)
Theorem resume_correct (p q : P) bs k fuel :
  delivers p bs q -> keys_ok bs -> 0 <= k <= zlen (concat (map fst bs)) -> (length bs < fuel)%nat ->
  wp (MaskSelf_start fuel p k) (fun ms =>
    item_count ms = k /\ batch_count ms = 0 /\ self_done ms = false /\
    ((k = zlen (concat (map fst bs)) /\ ready ms []) \/
     exists skipped b d rest m, bs = skipped ++ (b, d) :: rest /\ k = zlen (concat (map fst skipped)) + Z.of_nat m /\
       (m < length b)%nat /\ ready ms ((drop m b, d) :: rest))).
Proof.
  intros Hd Hkeys Hk Hf. unfold MaskSelf_start.
  set (Q := fun '(p', rn, items, dup) =>
    (k = zlen (concat (map fst bs)) /\ ready (mkMaskSelf p' rn items dup 0 k false) []) \/
     exists skipped b d rest m, bs = skipped ++ (b, d) :: rest /\ k = zlen (concat (map fst skipped)) + Z.of_nat m /\
       (m < length b)%nat /\ ready (mkMaskSelf p' rn items dup 0 k false) ((drop m b, d) :: rest)).
  apply wp_bind. eapply wp_mono with (Q := Q); [|intros [[[p' rn] items] dup] HQ; run; auto].
  enough (forall p2 bs2 done k2 fuel, delivers p2 bs2 q -> bs = done ++ bs2 -> k = zlen (concat (map fst done)) + k2 ->
    0 <= k2 -> (length bs2 < fuel)%nat -> wp (skip_processed fuel p2 k2 true [] ∅) Q) as Hgen.
  { apply (Hgen p bs [] k); try done; lia. }
  clear p fuel Hd Hf. intros p bs2 done k2 fuel Hd. revert done k2 fuel.
  assert (forall l : list (list bytes * DupCnt), 0 <= zlen (concat (map fst l))) as Hpos by (intros; unfold zlen; lia).
  induction Hd as [p d p' E|p b d p' bs2 q E Hne Hd IH]; intros done k2 fuel Hbs Hk2 H0 Hf;
    (destruct fuel as [|fuel]; [lia|]); cbn [skip_processed].
  - rewrite app_nil_r in Hbs. subst done. rewrite (proj2 (Z.ltb_ge _ _)) by lia. cbn [wp]. left. split; [lia|].
    cbn. exists p'. by eapply delivers_end.
  - destruct (Z.ltb_spec 0 k2) as [Hp|Hp].
    + rewrite E. run. rewrite bool_decide_false by done. run.
      destruct (Z.leb_spec (zlen b) k2) as [Hle|Hgt].
      * apply (IH (done ++ [(b, d)])); [by rewrite <- app_assoc| |lia|cbn in Hf; lia].
        rewrite map_app, concat_app. cbn. rewrite app_nil_r. unfold zlen in *. rewrite length_app. lia.
      * assert (forall i c, d !! i = Some c -> 0 <= i) as Hkd.
        { subst bs. apply Forall_app in Hkeys as [_ [Hkd _]%Forall_cons]. exact Hkd. }
        rewrite unshifted by done. destruct fuel; cbn [skip_processed]; cbn [wp Z.ltb Z.compare]; right;
          exists done, b, d, bs2, (Z.to_nat k2); (split; [done|]); (split; [lia|]); unfold zlen in *; (split; [lia|]);
          cbn; exists bs2, q; split_and!; try done; intros Hz%(f_equal length); rewrite length_drop in Hz; cbn in Hz; lia.
    + assert (k2 = 0) as -> by lia. cbn [wp]. right. exists done, b, d, bs2, 0%nat. split; [done|]. split; [lia|].
      split; [destruct b; [done|cbn; lia]|]. rewrite drop_0. cbn. exists q. by eapply delivers_more.
Qed.
End resume.

(** ** A session of the simple wrapper *)
Lemma sn_session `{BatchProto} `{EcGroup} {P} `{IBasicBatchProvider P} {S} `{IEcPointStore S} a b
    (d1 d2 : direction P S) : sn (step a b) d1 -> sn (step b a) d2 -> sn (session_step a b) (mkSession d1 d2).
Proof.
  intros H1'. revert d2. induction H1' as [d1 H1' IH1]. intros d2 H2'. induction H2' as [d2 H2' IH2].
  constructor. intros s Hs. inversion Hs; subst; [apply IH1; [done|by constructor]|by apply IH2].
Qed.

Lemma session_runs `{BatchProto} `{EcGroup} {P} `{IBasicBatchProvider P} {S} `{IEcPointStore S} a b
    (s s' : session P S) : rtc (session_step a b) s s' ->
  rtc (step a b) (a_to_b s) (a_to_b s') /\ rtc (step b a) (b_to_a s) (b_to_a s').
Proof.
  induction 1 as [|s s1 s' Hs _ [IH1 IH2]]; [done|]. inversion Hs; subst; cbn in *.
  - split; [by eapply rtc_l|done].
  - split; [done|by eapply rtc_l].
Qed.

Section wrapper.
Context `{BatchProtoLaws} `{EcGroupLaws}.

(** [RunEcdhPsi(link_ctx, items, ...)]: a memory provider, empty memory stores,
    nothing processed before. *)
Definition wrapper_direction (owner : EcdhPsiOptions) (items : list bytes) (batch_size : Z)
    : direction MemoryBatchProvider MemoryEcPointStore :=
  mkDirection (mkMaskSelf (MemoryBatchProvider_new id items batch_size [] false) true [] ∅ 0 0 false) []
    (MaskPeer_start MemoryEcPointStore_new) [] (RecvDualMaskedSelf_start owner MemoryEcPointStore_new).
Definition wrapper_session (a b : EcdhPsiOptions) (items_a items_b : list bytes) (bs_a bs_b : Z) :=
  mkSession (wrapper_direction a items_a bs_a) (wrapper_direction b items_b bs_b).

Lemma wrapper_starts o items bs fuel :
  recovery_manager o = false ->
  MaskSelf_start fuel (MemoryBatchProvider_new id items bs [] false) (resume_count o 0 0)
    = Ok (mask_self (wrapper_direction o items bs)).
Proof. intros Hr. unfold resume_count. rewrite Hr. by destruct fuel. Qed.

Lemma plain_batches items bs :
  0 < bs < 2 ^ 32 ->
  exists bss q, delivers (MemoryBatchProvider_new id items bs [] false) bss q /\
    stream_items bss = map (fun x => (x, 0)) items /\ Forall batch_ok bss.
Proof.
  intros Hbs. set (p := MemoryBatchProvider_new _ _ _ _ _). set (bl := batches (length items) (Z.to_nat bs) items).
  exists (map (fun b => (b, ∅)) bl), (with_cursor p (zlen items)). split; [|split].
  - apply (delivers_batches (length items) p); cbn; unfold zlen; lia.
  - unfold bl. rewrite stream_items_plain, concat_batches by lia. done.
  - apply List.Forall_map. unfold bl. generalize (length items) at 1. intros fuel. clear p bl. generalize items.
    induction fuel as [|fuel IH]; intros l; cbn [batches]; [constructor|].
    destruct l as [|x l]; constructor; [|apply IH]. unfold batch_ok. cbn [fst]. split_and!.
    + destruct (Z.to_nat bs) eqn:E; [lia|done].
    + unfold zlen. rewrite length_take. lia.
    + rewrite with_counts_empty. apply List.Forall_map, Forall_true. intros y. cbn. lia.
Qed.

Lemma result_items_filter (items : list bytes) (f : bytes -> bytes) peer :
  result_items items (map f items) peer = Ok (filter (fun x => f x ∈ peer) items).
Proof.
  unfold result_items. rewrite length_map.
  destruct (proj1 (wp_iff _ _) (wp_for (length items) (fun index ret =>
    x ← vget (map f items) index;
    if bool_decide (x ∈ peer)
    then _ ← enforce (bool_decide (index < length items)%nat); item ← vget items index; Ok (ret ++ [item])
    else Ok ret) (fun i ret => ret = filter (fun x => f x ∈ peer) (take i items)) []
    (fun ret => ret = filter (fun x => f x ∈ peer) items) ltac:(done)
    ltac:(intros i ret Hi ->; unfold vget; rewrite lookup_map, (list_lookup_lookup_total_lt items i Hi); run; cbn [fmap option_fmap option_map];
      rewrite (take_S_r items i _ (list_lookup_lookup_total_lt items i Hi)), filter_app; run;
      destruct (decide (f (items !!! i) ∈ peer));
      [rewrite (bool_decide_true (f _ ∈ _)), (bool_decide_true (i < _)%nat), filter_cons_True by done; done
      |rewrite (bool_decide_false (f _ ∈ _)), filter_cons_False by done; cbn [wp]; by rewrite app_nil_r])
    ltac:(intros ret ->; by rewrite firstn_all))) as (ret & -> & ->). done.
Qed.

Lemma cipher_of_comm a b x : dual_mask_size a = dual_mask_size b -> cipher_of a b x = cipher_of b a x.
Proof. intros Hd. unfold cipher_of, EccMask_point. by rewrite Mul_comm, Hd. Qed.

Lemma paired_ranks a b :
  rank b = NextRank a -> rank a = NextRank b -> is_ok (CheckConfig a b) = true ->
  dual_mask_size a = dual_mask_size b -> (dual_mask_size a <= GetSerializeLength)%nat -> paired a b.
Proof.
  unfold CheckConfig, paired, SelfCanTouchResults, PeerCanTouchResults. intros Hb Ha Hc Hd Hl.
  destruct (_ && _) eqn:E; [|done]. apply andb_prop in E as [Et _]. apply Z.eqb_eq in Et.
  rewrite <- Et, Hb, <- Ha. split_and!; [done|done|lia].
Qed.

(** The result at [a] once both directions have completed. *)
Lemma completed_result a b items_a items_b (dab dba : direction MemoryBatchProvider MemoryEcPointStore) bsa bsb :
  dual_mask_size a = dual_mask_size b -> SelfCanTouchResults a = true -> PeerCanTouchResults b = true ->
  stream_items bsa = map (fun x => (x, 0)) items_a -> stream_items bsb = map (fun x => (x, 0)) items_b ->
  (forall x y, x ∈ items_a -> y ∈ items_b -> cipher_of a b x = cipher_of a b y -> x = y) ->
  completed mem_holds a b bsa [] [] 0 dab -> completed mem_holds b a bsb [] [] 0 dba ->
  result_items items_a (store_ (self_store (recv_dual dab))) (store_ (peer_store (mask_peer dba)))
    = Ok (filter (fun x => x ∈ items_b) items_a).
Proof.
  intros Hd Ha Hb Sa Sb Hinj (_ & _ & Hs & _) (_ & Hp & _).
  rewrite Ha, app_nil_l, Sa in Hs. rewrite Hb, app_nil_l, Sb in Hp.
  destruct Hs as (-> & _). destruct Hp as (-> & _). rewrite !map_map. cbn [fst].
  rewrite result_items_filter. f_equal. apply filter_ext_in. intros x Hx.
  rewrite list_elem_of_fmap. split.
  - intros (y & E & Hy). rewrite <- (cipher_of_comm a b) in E by done. by rewrite (Hinj x y Hx Hy E).
  - intros Hy. exists x. split; [|done]. by apply cipher_of_comm.
Qed.

(** How a session ends: every run is finite, and one that cannot go on has
    completed both directions. *)
Lemma session_ends a b items_a items_b bs_a bs_b :
  rank b = NextRank a -> rank a = NextRank b -> is_ok (CheckConfig a b) = true ->
  dual_mask_size a = dual_mask_size b -> (dual_mask_size a <= GetSerializeLength)%nat ->
  0 < bs_a < 2 ^ 32 -> 0 < bs_b < 2 ^ 32 ->
  paired a b /\ sn (session_step a b) (wrapper_session a b items_a items_b bs_a bs_b) /\
  exists bsa bsb, stream_items bsa = map (fun x => (x, 0)) items_a /\ stream_items bsb = map (fun x => (x, 0)) items_b /\
  forall s, rtc (session_step a b) (wrapper_session a b items_a items_b bs_a bs_b) s ->
    (exists s', session_step a b s s') \/
    (completed mem_holds a b bsa [] [] 0 (a_to_b s) /\ completed mem_holds b a bsb [] [] 0 (b_to_a s)).
Proof.
  intros Hrb Hra Hcfg Hdm Hlen Ha Hb.
  pose proof (paired_ranks a b Hrb Hra Hcfg Hdm Hlen) as Hpab.
  assert (paired b a) as Hpba by (destruct Hpab as (? & ? & ?); split_and!; (done || lia)).
  destruct (plain_batches items_a bs_a Ha) as (bsa & qa & Da & Sa & Oa).
  destruct (plain_batches items_b bs_b Hb) as (bsb & qb & Db & Sb & Ob).
  assert (forall o items bs bss q, delivers (MemoryBatchProvider_new id items bs [] false) bss q ->
    forall p, at_point mem_holds o p bss [] [] 0 0 0 0 (wrapper_direction o items bs)) as Hstart.
  { intros o items bs bss q Hdel p. apply start_point; try done. cbn. by exists q. }
  pose proof (Hstart a items_a bs_a bsa qa Da b) as P1. pose proof (Hstart b items_b bs_b bsb qb Db a) as P2.
  split; [done|]. split.
  { apply sn_session; [exact (point_terminates mem_holds a b Hpab bsa Oa [] [] 0 _ _ _ _ P1)|
      exact (point_terminates mem_holds b a Hpba bsb Ob [] [] 0 _ _ _ _ P2)]. }
  exists bsa, bsb. split; [done|]. split; [done|].
  intros s [R1 R2]%session_runs. cbn [a_to_b b_to_a wrapper_session] in R1, R2.
  destruct (point_runs mem_holds a b Hpab bsa Oa [] [] 0 _ _ _ _ _ P1 R1) as (i1 & j1 & k1 & Q1).
  destruct (point_runs mem_holds b a Hpba bsb Ob [] [] 0 _ _ _ _ _ P2 R2) as (i2 & j2 & k2 & Q2).
  destruct s as [d1 d2]. cbn [a_to_b b_to_a] in *.
  destruct (can_step mem_holds a b Hpab bsa Oa [] [] 0 d1 i1 j1 k1 Q1) as [F1|[d1' S1]]; [|left; eexists; by apply step_a].
  destruct (can_step mem_holds b a Hpba bsb Ob [] [] 0 d2 i2 j2 k2 Q2) as [F2|[d2' S2]]; [|left; eexists; by apply step_b].
  right. split; [exact (finished_point mem_holds a b bsa [] [] 0 d1 i1 j1 k1 Q1 F1)|exact (finished_point mem_holds b a bsb [] [] 0 d2 i2 j2 k2 Q2 F2)].
Qed.

(** C1.  The protocol computes the intersection: two parties with agreeing
    configurations run [RunEcdhPsi] on their items; whatever the batch sizes and
    the interleaving of the six threads, every run is finite, none is stuck,
    and at its end each party that may learn the result returns exactly its
    items that the other party has too, in its own order, provided the
    truncated ciphers of different items differ. *)
Theorem RunEcdhPsi_correct a b items_a items_b bs_a bs_b s :
  rank b = NextRank a -> rank a = NextRank b -> is_ok (CheckConfig a b) = true ->
  dual_mask_size a = dual_mask_size b -> (dual_mask_size a <= GetSerializeLength)%nat ->
  0 < bs_a < 2 ^ 32 -> 0 < bs_b < 2 ^ 32 ->
  (forall x y, x ∈ items_a -> y ∈ items_b -> cipher_of a b x = cipher_of a b y -> x = y) ->
  sn (session_step a b) (wrapper_session a b items_a items_b bs_a bs_b) /\
  (rtc (session_step a b) (wrapper_session a b items_a items_b bs_a bs_b) s ->
   (exists s', session_step a b s s') \/
   ((SelfCanTouchResults a = true ->
     result_items items_a (store_ (self_store (recv_dual (a_to_b s)))) (store_ (peer_store (mask_peer (b_to_a s))))
       = Ok (filter (fun x => x ∈ items_b) items_a)) /\
    (SelfCanTouchResults b = true ->
     result_items items_b (store_ (self_store (recv_dual (b_to_a s)))) (store_ (peer_store (mask_peer (a_to_b s))))
       = Ok (filter (fun x => x ∈ items_a) items_b)))).
Proof.
  intros Hrb Hra Hcfg Hdm Hlen Ha Hb Hinj.
  destruct (session_ends a b items_a items_b bs_a bs_b Hrb Hra Hcfg Hdm Hlen Ha Hb) as (Hpab & Hsn & bsa & bsb & Sa & Sb & Hend).
  split; [exact Hsn|]. intros Hs. destruct (Hend s Hs) as [|[C1 C2]]; [by left|right].
  destruct Hpab as (E1 & E2 & _). split; intros Hcan.
  - by eapply (completed_result a b items_a items_b); try done; congruence.
  - eapply (completed_result b a items_b items_a); try done; try congruence.
    intros x y Hx Hy E. symmetry. apply Hinj; [done|done|]. rewrite !(cipher_of_comm a b) by done. by symmetry.
Qed.
End wrapper.

(** ** Runs *)
#[local] Instance toy_proto : BatchProto := {| Buffer := PsiDataBatch; proto_serialize b := b; proto_parse b := b |}.
#[local] Instance toy_proto_laws : BatchProtoLaws.
Proof. by split. Qed.

(** Triples under multiplication by a scalar. *)
#[local] Instance toy_group : EcGroup := {|
  EcPoint := Z * Z * Z;
  HashToCurve s := (foldl (fun h c => h * 31 + c) 7 s, zlen s + 1, default 0 (s !! 0%nat));
  Mul p k := (p.1.1 * k, p.1.2 * k, p.2 * k);
  SerializePoint p := [p.1.1; p.1.2; p.2];
  DeserializePoint b := match b with [x; y; z] => (x, y, z) | _ => (0, 0, 0) end;
  GetSerializeLength := 3
|}.
#[local] Instance toy_group_laws : EcGroupLaws.
Proof.
  split; [|by intros [[x y] z]|done]. intros [[x y] z] a b. cbn. by rewrite !(Z.mul_shuffle0 _ a b).
Qed.

Definition toy_a : EcdhPsiOptions := mkOptions 0 [5; 1] 1 2 kAllRank false.
Definition toy_b : EcdhPsiOptions := mkOptions 1 [9; 2] 1 2 kAllRank false.
Definition toy_items_a : list bytes := [[3]; [1]; [8; 8]].
Definition toy_items_b : list bytes := [[8; 8]; [2]; [3]; [4]].

Lemma toy_no_collision x y :
  x ∈ toy_items_a -> y ∈ toy_items_b -> cipher_of toy_a toy_b x = cipher_of toy_a toy_b y -> x = y.
Proof.
  unfold toy_items_a, toy_items_b. rewrite !elem_of_cons, !elem_of_nil.
  intros Hx Hy. naive_solver (vm_compute in *; congruence).
Qed.

Lemma toy_length : (dual_mask_size toy_a <= GetSerializeLength)%nat.
Proof. vm_compute. lia. Qed.

Lemma RunEcdhPsi_correct_witness :
  sn (session_step toy_a toy_b) (wrapper_session toy_a toy_b toy_items_a toy_items_b 2 3) /\
  (forall s, rtc (session_step toy_a toy_b) (wrapper_session toy_a toy_b toy_items_a toy_items_b 2 3) s ->
   (exists s', session_step toy_a toy_b s s') \/
   (result_items toy_items_a (store_ (self_store (recv_dual (a_to_b s)))) (store_ (peer_store (mask_peer (b_to_a s))))
      = Ok [[3]; [8; 8]] /\
    result_items toy_items_b (store_ (self_store (recv_dual (b_to_a s)))) (store_ (peer_store (mask_peer (a_to_b s))))
      = Ok [[8; 8]; [3]])).
Proof.
  pose proof (fun s => RunEcdhPsi_correct toy_a toy_b toy_items_a toy_items_b 2 3 s eq_refl eq_refl eq_refl eq_refl
    toy_length ltac:(lia) ltac:(lia) toy_no_collision) as Hrun.
  split; [exact (proj1 (Hrun (wrapper_session toy_a toy_b toy_items_a toy_items_b 2 3)))|].
  intros s Hs. destruct (proj2 (Hrun s) Hs) as [Hst|[Ra Rb]]; [by left|right].
  split; [rewrite (Ra eq_refl)|rewrite (Rb eq_refl)]; vm_compute; reflexivity.
Defined.

(** A bucketed run: the owner resumes nothing and both ends learn the result. *)
Lemma direction_terminates_witness :
  let p := MemoryBatchProvider_new id toy_items_a 2 [] false in
  let d0 := mkDirection (mkMaskSelf p true [] ∅ 0 0 false) [] (MaskPeer_start MemoryEcPointStore_new) []
              (RecvDualMaskedSelf_start toy_a MemoryEcPointStore_new) in
  exists bs, stream_items bs = map (fun x => (x, 0)) toy_items_a /\ sn (step toy_a toy_b) d0 /\
  forall d, rtc (step toy_a toy_b) d0 d ->
    (finished d /\ completed mem_holds toy_a toy_b bs [] [] 0 d) \/ exists d', step toy_a toy_b d d'.
Proof.
  intros p d0. destruct (plain_batches toy_items_a 2 ltac:(lia)) as (bs & q & Hd & Hs & Hok).
  exists bs. split; [exact Hs|].
  assert (paired toy_a toy_b) as Hpair by (split_and!; [done|done|vm_compute; lia]).
  assert (forall d, sn (step toy_a toy_b) d0 /\ (rtc (step toy_a toy_b) d0 d ->
    (finished d /\ completed mem_holds toy_a toy_b bs [] [] 0 d) \/ exists d', step toy_a toy_b d d')) as Hall.
  { intros d. apply (direction_terminates mem_holds toy_a toy_b bs [] [] 0 (mkMaskSelf p true [] ∅ 0 0 false)
      MemoryEcPointStore_new MemoryEcPointStore_new d Hpair Hok); try done. cbn. by exists q. }
  split; [exact (proj1 (Hall d0))|]. intros d. exact (proj2 (Hall d)).
Defined.

(** Resuming at the third of four items in batches of three: the counts of the
    first batch stay where they were. *)
Definition toy_batches : list (list bytes * DupCnt) := [([[1]; [2]; [3]], <[0 := 7]> (<[2 := 4]> ∅)); ([[4]], ∅)].
Definition toy_list_provider : IBasicBatchProvider (list (list bytes * DupCnt)) := {|
  ReadNextBatchWithDupCnt l := match l with [] => Ok ([], ∅, []) | (b, d) :: l' => Ok (b, d, l') end
|}.
Lemma resume_correct_witness :
  is_ok (@MaskSelf_start _ toy_list_provider 3 toy_batches 2) = true /\
  wp (@MaskSelf_start _ toy_list_provider 3 toy_batches 2) (fun ms =>
    item_count ms = 2 /\ batch_count ms = 0 /\ self_done ms = false /\
    ((2 = zlen (concat (map fst toy_batches)) /\ @ready _ toy_list_provider ms []) \/
     exists skipped b d rest m, toy_batches = skipped ++ (b, d) :: rest /\
       2 = zlen (concat (map fst skipped)) + Z.of_nat m /\ (m < length b)%nat /\
       @ready _ toy_list_provider ms ((drop m b, d) :: rest))).
Proof.
  split; [vm_compute; reflexivity|].
  apply (@resume_correct _ toy_list_provider toy_batches [] toy_batches 2 3).
  - eapply delivers_more; [reflexivity|done|]. eapply delivers_more; [reflexivity|done|]. by eapply delivers_end.
  - unfold toy_batches. repeat constructor; cbn [snd]; intros i c.
    + rewrite !lookup_insert_Some, lookup_empty. intros [[<- _]|[_ [[<- _]|[_ ?]]]]; done.
    + by rewrite lookup_empty.
  - vm_compute. split; congruence.
  - cbn. lia.
Defined.

(** The first item sent after the resumption, the third of the input, has four
    extra copies but is sent with the seven of the first item. *)
Example resumed_count :
  (ms ← @MaskSelf_start _ toy_list_provider 3 toy_batches 2; Ok (batch_items ms, count (self_dup_cnt ms) 0)) = Ok ([[3]], 7).
Proof. vm_compute. reflexivity. Qed.
