(* ===== verification/UbPsiCache.v ===== *)
(** * The server's cache of the unbalanced PSI (SimpleShuffledBatchProvider of
    psi/utils/batch_provider_impl, psi/algorithm/ecdh/ub_psi/ub_psi_cache)

    The server reads its items in batches, shuffles each of them and writes an
    evaluated item for each to a file of fixed-size records with the position in
    the file, the row of the item and its extra count.

    Parameters: [shuffle k], the [k]-th call of [std::shuffle]; the batches come
    from any provider of EcStore.  A read ahead ([std::async]) is the provider it
    starts from, as nothing else reads it; [get] runs it. *)
From S2P Require Import Prelude EcStore UbPsiStore.

Class IShuffledBatchProvider (P : Type) := { ReadNextShuffled : P -> res (ShuffledBatch * P) }.
#[export] Instance MemoryBatchProvider_shuffled : IShuffledBatchProvider MemoryBatchProvider := {
  ReadNextShuffled := ReadNextShuffledBatch
}.

(** ** batch_provider_impl.h, batch_provider_impl.cc: SimpleShuffledBatchProvider *)
Section simple.
Context {P : Type} `{IBasicBatchProvider P} (shuffle : nat -> list Z -> list Z).

Record RawBatch := mkRawBatch { rb_items : list bytes; rb_shuffled_indices : list Z; rb_dup_cnt : list Z }.
Record SimpleShuffledBatchProvider := mkSimple {
  s_batch_size_ : Z;
  s_provider_ : P;
  read_future_ : bool;
  shuffle_base_index_ : Z;
  base_index_ : Z;
  s_buffer_ : RawBatch;
  read_end_ : bool;
  shuffles_ : nat
}.
Definition read_proc (provider : P) (k : nat) : res (RawBatch * P) :=
  '(items, dup_cnt, provider) ← ReadNextBatchWithDupCnt provider;
  ret_dup_cnt ← for_each (map_to_list dup_cnt) (fun '(k, v) l => vsetz l k v) (replicate (length items) 0);
  Ok (mkRawBatch items (shuffle k (tabulate (length items) Z.of_nat)) ret_dup_cnt, provider).
(** The result, the provider after it and whether a future is running. *)
Definition ReadAndShuffle (s : SimpleShuffledBatchProvider) : res (RawBatch * SimpleShuffledBatchProvider) :=
  '(result, provider) ← read_proc (s_provider_ s) (shuffles_ s);
  let running := if read_future_ s then negb (bool_decide (rb_items result = [])) else true in
  Ok (result, mkSimple (s_batch_size_ s) provider running (shuffle_base_index_ s) (base_index_ s) (s_buffer_ s) (read_end_ s) (S (shuffles_ s))).
Definition with_buffer (b : RawBatch) (s : SimpleShuffledBatchProvider) : SimpleShuffledBatchProvider :=
  mkSimple (s_batch_size_ s) (s_provider_ s) (read_future_ s) (shuffle_base_index_ s) (base_index_ s) b (read_end_ s) (shuffles_ s).
Definition SimpleShuffledBatchProvider_new (provider : P) (batch_size : Z) : res SimpleShuffledBatchProvider :=
  '(b, s) ← ReadAndShuffle (mkSimple batch_size provider false 0 0 (mkRawBatch [] [] []) false 0);
  Ok (with_buffer b s).

(** The indices are distinct, so an item that was moved from is not read again. *)
Definition push_front (s : SimpleShuffledBatchProvider) (sb : ShuffledBatch) (i : nat) : res (ShuffledBatch * RawBatch) :=
  let b := s_buffer_ s in
  front ← vget (rb_shuffled_indices b) 0;
  d ← vgetz (rb_dup_cnt b) front;
  item ← vgetz (rb_items b) front;
  Ok (mkShuffled (batch_items sb ++ [item]) (batch_indices sb ++ [u64 (base_index_ s + Z.of_nat i)])
        (shuffled_indices sb ++ [u64 (shuffle_base_index_ s + front)]) (dup_cnts sb ++ [d]),
      mkRawBatch (rb_items b) (drop 1 (rb_shuffled_indices b)) (rb_dup_cnt b)).
Definition push_items (s : SimpleShuffledBatchProvider) (sb : ShuffledBatch) (n : nat) : res (ShuffledBatch * SimpleShuffledBatchProvider) :=
  '(sb, s) ← for_ n (fun i '(sb, s) => '(sb, b) ← push_front s sb i; Ok (sb, with_buffer b s)) (sb, s);
  Ok (sb, mkSimple (s_batch_size_ s) (s_provider_ s) (read_future_ s) (shuffle_base_index_ s) (u64 (base_index_ s + Z.of_nat n)) (s_buffer_ s) (read_end_ s) (shuffles_ s)).
Fixpoint fill_batch (fuel : nat) (s : SimpleShuffledBatchProvider) (sb : ShuffledBatch) (n_items : Z) : res (ShuffledBatch * SimpleShuffledBatchProvider) :=
  if n_items <? s_batch_size_ s then
    match fuel with
    | O => UB
    | S fuel' =>
        if bool_decide (rb_shuffled_indices (s_buffer_ s) = []) then
          let s := mkSimple (s_batch_size_ s) (s_provider_ s) (read_future_ s) (u64 (shuffle_base_index_ s + zlen (rb_items (s_buffer_ s)))) (base_index_ s) (s_buffer_ s) (read_end_ s) (shuffles_ s) in
          '(b, s) ← ReadAndShuffle s;
          let s := with_buffer b s in
          if bool_decide (rb_items b = [])
          then Ok (sb, mkSimple (s_batch_size_ s) (s_provider_ s) (read_future_ s) (shuffle_base_index_ s) (base_index_ s) b true (shuffles_ s))
          else fill_batch fuel' s sb n_items
        else
          let n := Z.min (s_batch_size_ s - n_items) (zlen (rb_shuffled_indices (s_buffer_ s))) in
          '(sb, s) ← push_items s sb (Z.to_nat n);
          fill_batch fuel' s sb (n_items + n)
    end
  else Ok (sb, s).
Definition SimpleReadNext (fuel : nat) (s : SimpleShuffledBatchProvider) : res (ShuffledBatch * SimpleShuffledBatchProvider) :=
  if read_end_ s then Ok (mkShuffled [] [] [] [], s) else fill_batch fuel s (mkShuffled [] [] [] []) 0.
End simple.
Arguments SimpleShuffledBatchProvider : clear implicits.

(** ** ub_psi_cache.h, ub_psi_cache.cc *)
Definition sizeof_UbPsiCacheItem : nat := 44.
Record UBPsiCacheMeta := mkMeta { version : string; item_len : Z; priv_key : bytes; key_cols : list string; item_count : Z }.
(** The data file is what is on disk followed by what the stream buffers; the
    meta file holds a message once it is written. *)
Record UbPsiCache := mkUbCache {
  c_file : bytes;
  c_buffered : bytes;
  c_meta_file : option UBPsiCacheMeta;
  c_meta_ : UBPsiCacheMeta;
  data_len_ : Z;
  cache_cnt_ : Z
}.
Definition UbPsiCache_new (data_len : Z) (selected_fields : list string) (private_key : bytes) : res UbPsiCache :=
  _ ← enforce (data_len <? Z.of_nat kMaxCipherSize);
  Ok (mkUbCache [] [] None (mkMeta "0.0.1" (u32 data_len) private_key selected_fields 0) data_len 0).
Definition CacheFlush (c : UbPsiCache) : UbPsiCache :=
  let m := c_meta_ c in
  let m := mkMeta (version m) (item_len m) (priv_key m) (key_cols m) (u32 (cache_cnt_ c)) in
  mkUbCache (c_file c ++ c_buffered c) [] (Some m) m (data_len_ c) (cache_cnt_ c).
Definition UbPsiCacheItem_bytes (origin_index shuffle_index dup_cnt : Z) (item : bytes) : bytes :=
  le_bytes 4 origin_index ++ le_bytes 4 shuffle_index ++ le_bytes 4 dup_cnt ++ item ++ replicate (kMaxCipherSize - length item) 0.
Definition SaveData (c : UbPsiCache) (item : bytes) (index shuffle_index dup_cnt : Z) : res UbPsiCache :=
  _ ← enforce (zlen item =? data_len_ c);
  Ok (mkUbCache (c_file c) (c_buffered c ++ UbPsiCacheItem_bytes (u32 index) (u32 shuffle_index) dup_cnt item)
        (c_meta_file c) (c_meta_ c) (data_len_ c) (u64 (cache_cnt_ c + 1))).

Record UbPsiCacheProvider := mkCacheProvider { p_batch : Z; p_in : bytes; p_meta_ : UBPsiCacheMeta; p_read_count_ : Z }.
Definition UbPsiCacheProvider_new (data_file : option bytes) (meta_file : option UBPsiCacheMeta) (batch_size : Z) : res UbPsiCacheProvider :=
  match data_file with
  | None => Throw
  | Some f =>
      match meta_file with
      | None => Throw
      | Some m =>
          _ ← enforce (zlen f / Z.of_nat sizeof_UbPsiCacheItem =? item_count m);
          Ok (mkCacheProvider (u32 batch_size) f m 0)
      end
  end.
Record UbPsiCacheItem := mkCacheItem { ui_origin_index : Z; ui_shuffle_index : Z; ui_dup_cnt : Z; ui_data : bytes }.
#[export] Instance UbPsiCacheItem_inhabited : Inhabited UbPsiCacheItem := populate (mkCacheItem 0 0 0 []).
(** The [k]-th record; the stream goes on where the last read ended. *)
Definition read_item (f : bytes) (k : nat) : res UbPsiCacheItem :=
  o ← memcpy_from f (k * sizeof_UbPsiCacheItem) 4;
  s ← memcpy_from f (k * sizeof_UbPsiCacheItem + 4) 4;
  d ← memcpy_from f (k * sizeof_UbPsiCacheItem + 8) 4;
  data ← copy_range f (k * sizeof_UbPsiCacheItem + 12) kMaxCipherSize;
  Ok (mkCacheItem o s d data).
Definition ReadData (p : UbPsiCacheProvider) (read_count : nat) : res (list UbPsiCacheItem) :=
  for_ read_count (fun i ret => x ← read_item (p_in p) (Z.to_nat (p_read_count_ p) + i); Ok (ret ++ [x])) [].
Definition CacheReadNextShuffled (p : UbPsiCacheProvider) : res (ShuffledBatch * UbPsiCacheProvider) :=
  if item_count (p_meta_ p) <=? p_read_count_ p then Ok (mkShuffled [] [] [] [], p)
  else
    let count := Z.min (p_batch p) (item_count (p_meta_ p) - p_read_count_ p) in
    if 0 <? count then
      items ← ReadData p (Z.to_nat count);
      sb ← for_each items (fun item sb =>
        data ← copy_range (ui_data item) 0 (Z.to_nat (item_len (p_meta_ p)));
        Ok (mkShuffled (batch_items sb ++ [data]) (batch_indices sb ++ [ui_origin_index item])
              (shuffled_indices sb ++ [ui_shuffle_index item]) (dup_cnts sb ++ [ui_dup_cnt item]))) (mkShuffled [] [] [] []);
      Ok (sb, mkCacheProvider (p_batch p) (p_in p) (p_meta_ p) (p_read_count_ p + count))
    else Ok (mkShuffled [] [] [] [], p).
#[export] Instance UbPsiCacheProvider_shuffled : IShuffledBatchProvider UbPsiCacheProvider := { ReadNextShuffled := CacheReadNextShuffled }.
Definition CacheReadNextBatch (p : UbPsiCacheProvider) : res (list bytes * UbPsiCacheProvider) :=
  '(sb, p) ← CacheReadNextShuffled p; Ok (batch_items sb, p).
Definition CacheReadNextWithDupCnt (p : UbPsiCacheProvider) : res (list bytes * DupCnt * UbPsiCacheProvider) :=
  '(sb, p) ← CacheReadNextShuffled p;
  let dup_cnt := loop (length (dup_cnts sb)) (fun i m => if dup_cnts sb !!! i =? 0 then m else <[Z.of_nat i := dup_cnts sb !!! i]> m) ∅ in
  Ok (batch_items sb, dup_cnt, p).
#[export] Instance UbPsiCacheProvider_basic : IBasicBatchProvider UbPsiCacheProvider := { ReadNextBatchWithDupCnt := CacheReadNextWithDupCnt }.
Definition GetSelectedFields (p : UbPsiCacheProvider) : list string := key_cols (p_meta_ p).
Definition GetCachePrivateKey (p : UbPsiCacheProvider) : bytes := priv_key (p_meta_ p).

(** ** What a provider of shuffled batches delivers *)
Record entry := mkEntry { e_item : bytes; e_dup : Z; e_row : Z }.
#[export] Instance entry_inhabited : Inhabited entry := populate (mkEntry [] 0 0).
(** The batch of the entries at the positions from [k] on. *)
Definition sb_of (k : nat) (l : list entry) : ShuffledBatch :=
  mkShuffled (map e_item l) (tabulate (length l) (fun i => Z.of_nat (k + i))) (map e_row l) (map e_dup l).
Inductive delivers_shuffled {P} `{IShuffledBatchProvider P} : P -> nat -> list (list entry) -> Prop :=
| shuffled_end p k p' : ReadNextShuffled p = Ok (sb_of k [], p') -> delivers_shuffled p k []
| shuffled_more p k b p' bs : ReadNextShuffled p = Ok (sb_of k b, p') -> b <> [] -> delivers_shuffled p' (k + length b) bs -> delivers_shuffled p k (b :: bs).

(** ** The provider that shuffles *)
Section shuffling.
Context {P : Type} `{IBasicBatchProvider P} (shuffle : nat -> list Z -> list Z) (Hsh : forall k l, Permutation (shuffle k l) l).

Definition entry_at (items : list bytes) (dup : list Z) (base j : Z) : entry := mkEntry (items !!! Z.to_nat j) (dup !!! Z.to_nat j) (base + j).
Definition pending (base : Z) (b : RawBatch) : list entry := map (entry_at (rb_items b) (rb_dup_cnt b) base) (rb_shuffled_indices b).
Definition counts_of (b : list bytes * DupCnt) : list Z := tabulate (length b.1) (fun i => count b.2 (Z.of_nat i)).
Definition order (k n : nat) : list Z := shuffle k (tabulate n Z.of_nat).
Definition raw_of (k : nat) (b : list bytes * DupCnt) : RawBatch := mkRawBatch b.1 (order k (length b.1)) (counts_of b).
(** What the batches still to come give. *)
Fixpoint later (k : nat) (base : Z) (bss : list (list bytes * DupCnt)) : list entry :=
  match bss with [] => [] | b :: bss => pending base (raw_of k b) ++ later (S k) (base + zlen b.1) bss end.
Definition counts_fit (b : list bytes * DupCnt) : Prop := forall k, is_Some (b.2 !! k) -> 0 <= k < zlen b.1.

Lemma order_range k n j : j ∈ order k n -> 0 <= j < Z.of_nat n.
Proof. unfold order. rewrite Hsh. unfold tabulate. rewrite list_elem_of_fmap. intros (i & -> & Hi). apply elem_of_seq in Hi. lia. Qed.
Lemma order_length k n : length (order k n) = n.
Proof. unfold order. by rewrite Hsh, length_tabulate. Qed.

(** The counts of a batch as a vector. *)
Lemma put_counts (kvs : list (Z * Z)) n l : length l = n -> Forall (fun x => 0 <= x.1 < Z.of_nat n) kvs -> NoDup kvs.*1 ->
  wp (for_each kvs (fun '(k, v) l => vsetz l k v) l) (fun l' => length l' = n /\ forall i, (i < n)%nat -> l' !!! i = default (l !!! i) ((list_to_map kvs : DupCnt) !! Z.of_nat i)).
Proof.
  revert l. induction kvs as [|[k v] kvs IH]; intros l Hl Hk Hnd; cbn [for_each]; [split; [done|]; intros; by rewrite list_to_map_nil, lookup_empty|].
  apply Forall_cons in Hk as [Hk Hks]. cbn in Hk, Hnd. apply NoDup_cons in Hnd as [Hn Hnd]. rewrite vsetz_total by lia. run.
  eapply wp_mono; [apply IH; [by rewrite length_insert|done|done]|]. intros l' [Hl' Hi]. split; [done|]. intros i Hin. rewrite Hi by done. cbn [list_to_map foldr].
  destruct (decide (k = Z.of_nat i)) as [->|Hne].
  - cbn. rewrite lookup_insert_eq. rewrite (not_elem_of_list_to_map_1 _ _ Hn). cbn. rewrite Nat2Z.id, list_lookup_total_insert_eq by lia. done.
  - cbn. rewrite lookup_insert_ne by done. destruct ((list_to_map kvs : DupCnt) !! Z.of_nat i); [done|]. cbn. rewrite list_lookup_total_insert_ne by lia. done.
Qed.
Lemma read_proc_ok p b p' k : ReadNextBatchWithDupCnt p = Ok (b, p') -> counts_fit b -> read_proc shuffle p k = Ok (raw_of k b, p').
Proof.
  intros Hr Hf. unfold read_proc. destruct b as [items dup]. rewrite Hr. run. apply wp_eq, wp_bind.
  eapply wp_mono; [apply (put_counts (map_to_list dup) (length items)); [apply length_replicate| |apply NoDup_fst_map_to_list]|].
  - apply Forall_forall. intros [i v] Hi. apply elem_of_map_to_list in Hi. apply Hf. cbn. by eexists.
  - intros l [Hl Hi]. run. unfold raw_of, counts_of. cbn [fst snd]. do 3 f_equal. apply eq_tabulate; [done|]. intros i Hin. rewrite Hi by done.
    rewrite list_to_map_to_list, lookup_total_replicate_2 by done. done.
Qed.

Lemma pending_length base k b : length (pending base (raw_of k b)) = length b.1.
Proof. unfold pending. cbn. by rewrite length_map, order_length. Qed.

Lemma counts_fit_nil : counts_fit ([], ∅).
Proof. intros k [x Hx]. cbn in Hx. by rewrite lookup_empty in Hx. Qed.
(** The batches of a provider, their counts in range, up to an empty one. *)
Inductive gives : P -> list (list bytes * DupCnt) -> Prop :=
| gives_end p p' : ReadNextBatchWithDupCnt p = Ok ([], ∅, p') -> gives p []
| gives_more p b p' bss : ReadNextBatchWithDupCnt p = Ok (b, p') -> b.1 <> [] -> counts_fit b -> gives p' bss -> gives p (b :: bss).
(** The provider reads ahead, also after an end. *)
Definition gives_again (p : P) (bss : list (list bytes * DupCnt)) : Prop :=
  gives p bss /\ (bss = [] -> exists p', ReadNextBatchWithDupCnt p = Ok ([], ∅, p') /\ gives p' []).

(** A provider at position [k], the entries [E] still to come. *)
Abbreviation state := (SimpleShuffledBatchProvider P).
Record at_point (s : state) (k : nat) (E : list entry) : Prop := {
  ap_rest : exists bss, gives (s_provider_ s) bss /\ 0 <= shuffle_base_index_ s /\ shuffle_base_index_ s + zlen (rb_items (s_buffer_ s)) + zlen (concat bss.*1) < 2 ^ 64 /\
    E = pending (shuffle_base_index_ s) (s_buffer_ s) ++ later (shuffles_ s) (shuffle_base_index_ s + zlen (rb_items (s_buffer_ s))) bss;
  ap_buffer : length (rb_dup_cnt (s_buffer_ s)) = length (rb_items (s_buffer_ s)) /\ Forall (fun j => 0 <= j < zlen (rb_items (s_buffer_ s))) (rb_shuffled_indices (s_buffer_ s));
  ap_base : base_index_ s = Z.of_nat k;
  ap_going : read_end_ s = false
}.
Lemma ReadAndShuffle_end s : gives (s_provider_ s) [] -> exists p' running, ReadAndShuffle shuffle s =
  Ok (mkRawBatch [] [] [], mkSimple (s_batch_size_ s) p' running (shuffle_base_index_ s) (base_index_ s) (s_buffer_ s) (read_end_ s) (S (shuffles_ s))).
Proof.
  intros Hg. inversion Hg as [p p' Hr|]; subst. unfold ReadAndShuffle. rewrite (read_proc_ok _ ([], ∅) p') by (done || apply counts_fit_nil). run.
  unfold raw_of, order, counts_of. cbn. pose proof (Hsh (shuffles_ s) []) as Hnil. symmetry in Hnil. apply Permutation_nil in Hnil. rewrite Hnil. by eexists _, _.
Qed.
Lemma ReadAndShuffle_more s b bss : gives (s_provider_ s) (b :: bss) -> exists p' running, b.1 <> [] /\ gives p' bss /\ counts_fit b /\ ReadAndShuffle shuffle s =
  Ok (raw_of (shuffles_ s) b, mkSimple (s_batch_size_ s) p' running (shuffle_base_index_ s) (base_index_ s) (s_buffer_ s) (read_end_ s) (S (shuffles_ s))).
Proof.
  intros Hg. inversion Hg as [|p b' p' bss' Hr Hne Hf Hg']; subst. unfold ReadAndShuffle. rewrite (read_proc_ok _ b p') by done. run. by eexists _, _.
Qed.
Lemma raw_of_ok k b : length (rb_dup_cnt (raw_of k b)) = length (rb_items (raw_of k b)) /\ Forall (fun j => 0 <= j < zlen (rb_items (raw_of k b))) (rb_shuffled_indices (raw_of k b)).
Proof. cbn. split; [apply length_tabulate|]. apply Forall_forall. intros j Hj. apply order_range in Hj. unfold zlen. lia. Qed.

Lemma SimpleShuffledBatchProvider_new_ok p bss bs : gives_again p bss -> zlen (concat bss.*1) < 2 ^ 64 ->
  wp (SimpleShuffledBatchProvider_new shuffle p bs) (fun s => s_batch_size_ s = bs /\ at_point s 0 (later 0 0 bss)).
Proof.
  intros [Hg Hagain] Hn. unfold SimpleShuffledBatchProvider_new. destruct bss as [|b bss].
  - destruct (Hagain eq_refl) as (p1 & Hr & Hg1). unfold ReadAndShuffle. cbn [s_provider_ shuffles_].
    rewrite (read_proc_ok _ ([], ∅) p1) by (done || apply counts_fit_nil). run. split; [done|].
    unfold raw_of, order, counts_of. cbn. pose proof (Hsh 0 []) as Hnil. symmetry in Hnil. apply Permutation_nil in Hnil. rewrite Hnil.
    split; [exists []; done|by split|done|done].
  - destruct (ReadAndShuffle_more (mkSimple bs p false 0 0 (mkRawBatch [] [] []) false 0) b bss Hg) as (p' & running & Hne & Hg' & Hf & ->). run. split; [done|].
    split; [exists bss|apply raw_of_ok|done|done]. split; [done|]. unfold zlen in *. cbn in *. rewrite length_app in Hn. split; [lia|]. split; [lia|done].
Qed.

Lemma push_front_ok s k E sb i e E' : at_point s k E -> rb_shuffled_indices (s_buffer_ s) <> [] -> E = e :: E' -> base_index_ s + Z.of_nat i < 2 ^ 64 ->
  exists b, push_front s sb i = Ok (mkShuffled (batch_items sb ++ [e_item e]) (batch_indices sb ++ [base_index_ s + Z.of_nat i]) (shuffled_indices sb ++ [e_row e]) (dup_cnts sb ++ [e_dup e]), b) /\
    length (rb_shuffled_indices (s_buffer_ s)) = S (length (rb_shuffled_indices b)) /\ rb_items b = rb_items (s_buffer_ s) /\ at_point (with_buffer b s) k E'.
Proof.
  intros [(bss & Hg & H0 & Hroom & HE) [Hdl Hr] Hb Hgo] Hne -> Hi. unfold push_front. destruct (rb_shuffled_indices (s_buffer_ s)) as [|j js] eqn:Ej; [done|].
  apply Forall_cons in Hr as [Hj Hr]. unfold zlen in *.
  change (vget (j :: js) 0) with (Ok j). run. rewrite !vgetz_total by lia. run. eexists. split; [|split; [|split]].
  - unfold pending in HE. rewrite Ej in HE. injection HE as He _. rewrite He. cbn. rewrite !u64_small by lia. done.
  - done.
  - done.
  - split; [|by split|done|done]. exists bss. cbn. split; [done|]. split; [done|]. split; [done|]. unfold pending in *. rewrite Ej in HE. cbn in HE. injection HE as _ HE. exact HE.
Qed.
Lemma sb_of_snoc k L e : mkShuffled (batch_items (sb_of k L) ++ [e_item e]) (batch_indices (sb_of k L) ++ [Z.of_nat (k + length L)]) (shuffled_indices (sb_of k L) ++ [e_row e]) (dup_cnts (sb_of k L) ++ [e_dup e]) = sb_of k (L ++ [e]).
Proof. unfold sb_of. cbn. rewrite !map_app, length_app, Nat.add_1_r, tabulate_S. done. Qed.
Lemma push_items_ok s k0 L E n : at_point s (k0 + length L) E -> (n <= length (rb_shuffled_indices (s_buffer_ s)))%nat -> Z.of_nat (k0 + length L + n) < 2 ^ 64 ->
  wp (push_items s (sb_of k0 L) n) (fun '(sb, s') => sb = sb_of k0 (L ++ take n E) /\ at_point s' (k0 + length L + n) (drop n E) /\ s_batch_size_ s' = s_batch_size_ s /\
     length (rb_shuffled_indices (s_buffer_ s)) = (n + length (rb_shuffled_indices (s_buffer_ s')))%nat).
Proof.
  intros Ha Hn Hk. unfold push_items. apply wp_bind.
  apply (wp_for _ _ (fun i '(sb, s') => sb = sb_of k0 (L ++ take i E) /\ at_point s' (k0 + length L) (drop i E) /\ s_batch_size_ s' = s_batch_size_ s /\
    length (rb_shuffled_indices (s_buffer_ s)) = (i + length (rb_shuffled_indices (s_buffer_ s')))%nat)).
  - by rewrite take_0, app_nil_r.
  - intros i [sb s'] Hi (-> & Ha' & Hbs & Hl). assert (rb_shuffled_indices (s_buffer_ s') <> []) as Hne by (intros E0; rewrite E0 in Hl; cbn in Hl; lia).
    destruct (drop i E) as [|e E'] eqn:HE.
    { destruct Ha' as [(bss & _ & _ & _ & HE') _ _ _]. unfold pending in HE'. destruct (rb_shuffled_indices (s_buffer_ s')); [done|]. done. }
    destruct (push_front_ok s' _ _ (sb_of k0 (L ++ take i E)) i e E' Ha' Hne eq_refl) as (b & -> & Hlb & _ & Hab); [rewrite (ap_base _ _ _ Ha'); lia|]. run.
    assert (length (take i E) = i) as Hti by (rewrite length_take; pose proof (f_equal length HE) as Hd; rewrite length_drop in Hd; cbn in Hd; lia).
    split; [|split; [|split; [done|cbn; lia]]].
    + rewrite (ap_base _ _ _ Ha'). replace (Z.of_nat (k0 + length L) + Z.of_nat i) with (Z.of_nat (k0 + length (L ++ take i E))) by (rewrite length_app; lia).
      rewrite sb_of_snoc, <- app_assoc. do 2 f_equal. symmetry. apply take_S_r. replace i with (i + 0)%nat by lia. rewrite <- lookup_drop, HE. done.
    + replace (drop (S i) E) with E'; [done|]. rewrite <- Nat.add_1_r, <- drop_drop, HE. done.
  - intros [sb s'] (-> & Ha' & Hbs & Hl). run. split; [done|]. split; [|done]. destruct Ha' as [(bss & Hrest) Hbuf Hb Hgo].
    split; [by exists bss|done| |done]. cbn [base_index_]. rewrite Hb, u64_small by lia. lia.
Qed.

Definition ready (s : state) (k : nat) (E : list entry) : Prop := at_point s k E \/ (read_end_ s = true /\ E = []).
Definition empty_buffer (s : state) : nat := if bool_decide (rb_shuffled_indices (s_buffer_ s) = []) then 1 else 0.
Lemma pending_nil base b : rb_shuffled_indices b = [] -> pending base b = [].
Proof. unfold pending. by intros ->. Qed.
Lemma pending_prefix s k E : at_point s k E -> (length (rb_shuffled_indices (s_buffer_ s)) <= length E)%nat.
Proof. intros [(bss & _ & _ & _ & ->) _ _ _]. unfold pending. rewrite length_app, length_map. lia. Qed.

Lemma fill_batch_ok fuel s k0 L E (bs : nat) : at_point s (k0 + length L) E -> s_batch_size_ s = Z.of_nat bs -> (length L <= bs)%nat -> Z.of_nat (k0 + length L + length E) < 2 ^ 64 ->
  (2 * length E + empty_buffer s <= fuel)%nat ->
  wp (fill_batch shuffle fuel s (sb_of k0 L) (zlen L)) (fun '(sb, s') => let m := (bs - length L)%nat in
    sb = sb_of k0 (L ++ take m E) /\ s_batch_size_ s' = Z.of_nat bs /\ ready s' (k0 + length L + length (take m E)) (drop m E)).
Proof.
  revert s L E. induction fuel as [|fuel IH]; intros s L E Ha Hbs HL Hk Hf.
  { assert (E = []) as -> by (destruct E; [done|cbn in Hf; lia]). destruct Ha as [(bss & _ & _ & _ & HE) _ _ _].
    unfold empty_buffer in Hf. case_bool_decide as Hne; [cbn in Hf; lia|]. unfold pending in HE. destruct (rb_shuffled_indices (s_buffer_ s)); done. }
  cbn [fill_batch]. rewrite Hbs. unfold zlen. destruct (Z.ltb_spec (Z.of_nat (length L)) (Z.of_nat bs)) as [Hlt|Hge].
  2: { cbn [wp]. replace (bs - length L)%nat with 0%nat by lia. rewrite take_0, app_nil_r, Nat.add_0_r. split; [done|]. split; [done|]. by left. }
  case_bool_decide as Hnil.
  - pose proof Ha as [(bss & Hg & H0 & Hroom & HE) _ Hb Hgo]. rewrite pending_nil in HE by done. cbn [app] in HE. unfold zlen in *.
    rewrite u64_small by lia. set (s1 := mkSimple _ _ _ _ _ _ _ _). destruct bss as [|b bss].
    + destruct (ReadAndShuffle_end s1 Hg) as (p' & running & ->). run. rewrite bool_decide_true by done. cbn [wp with_buffer]. cbn [later] in HE. rewrite HE, take_nil, drop_nil, app_nil_r. cbn.
      split; [done|]. split; [done|]. by right.
    + destruct (ReadAndShuffle_more s1 b bss Hg) as (p' & running & Hne & Hg' & Hcf & ->). run. cbn [with_buffer]. rewrite bool_decide_false by done.
      apply (IH _ L E); [|done|done|done|].
      * split; [exists bss|apply raw_of_ok|done|done]. cbn in Hroom. rewrite length_app in Hroom. cbn. split; [done|]. split; [lia|]. unfold zlen. split; [lia|]. done.
      * unfold empty_buffer in *. rewrite bool_decide_true in Hf by done. cbn. rewrite bool_decide_false; [lia|]. intros E0. apply (f_equal length) in E0. rewrite order_length in E0. destruct b.1; done.
  - pose proof (pending_prefix _ _ _ Ha) as Hpl. assert (0 < length (rb_shuffled_indices (s_buffer_ s)))%nat as Hpos by (destruct (rb_shuffled_indices (s_buffer_ s)); [done|cbn; lia]).
    set (n := Z.to_nat (Z.min (Z.of_nat bs - Z.of_nat (length L)) (Z.of_nat (length (rb_shuffled_indices (s_buffer_ s)))))).
    apply wp_bind. eapply wp_mono; [apply (push_items_ok s k0 L E n Ha); lia|]. intros [sb s'] (-> & Ha' & Hbs' & Hl').
    assert (length (take n E) = n) as Htn by (rewrite length_take; lia).
    replace (Z.of_nat (length L) + _) with (zlen (L ++ take n E)) by (unfold zlen; rewrite length_app; lia).
    eapply wp_mono; [apply (IH s' (L ++ take n E) (drop n E))|].
    + by rewrite length_app, Htn, Nat.add_assoc.
    + congruence.
    + rewrite length_app. lia.
    + rewrite length_app, length_drop. lia.
    + unfold empty_buffer in *. rewrite (bool_decide_false (rb_shuffled_indices (s_buffer_ s) = [])) in Hf by done. rewrite length_drop. case_bool_decide; lia.
    + intros [sb s2] (-> & Hbs2 & Hr2). rewrite length_app, Htn in *. replace (bs - length L)%nat with (n + (bs - (length L + n)))%nat by lia. split; [|split; [done|]].
      * rewrite <- app_assoc. do 2 f_equal. by rewrite take_take_drop.
      * rewrite <- drop_drop. rewrite <- (take_take_drop E n), length_app, Htn. by replace (k0 + length L + (n + _))%nat with (k0 + (length L + n) + length (take (bs - (length L + n)) (drop n E)))%nat by lia.
Qed.

Definition SimpleShuffledBatchProvider_shuffled (fuel : nat) : IShuffledBatchProvider state := {| ReadNextShuffled := SimpleReadNext shuffle fuel |}.
Lemma Simple_delivers fuel s k E (bs : nat) : ready s k E -> s_batch_size_ s = Z.of_nat bs -> (0 < bs)%nat -> Z.of_nat (k + length E) < 2 ^ 64 -> (2 * length E + 1 <= fuel)%nat ->
  exists bss, delivers_shuffled (H := SimpleShuffledBatchProvider_shuffled fuel) s k bss /\ concat bss = E /\ (length bss <= length E)%nat.
Proof.
  intros Hr Hbs Hpos Hk Hf. remember (length E) as n eqn:Hn. assert (length E <= n)%nat as Hle by lia. clear Hn. revert s k E Hr Hbs Hk Hle.
  induction n as [n IH] using (well_founded_induction lt_wf). intros s k E Hr Hbs Hk Hle.
  assert (exists s', SimpleReadNext shuffle fuel s = Ok (sb_of k (take bs E), s') /\ s_batch_size_ s' = Z.of_nat bs /\ ready s' (k + length (take bs E)) (drop bs E)) as (s' & E1 & Hbs' & Hr').
  { unfold SimpleReadNext. destruct Hr as [Ha|[He ->]].
    - rewrite (ap_going _ _ _ Ha). pose proof (fill_batch_ok fuel s k [] E bs) as Hfb. cbn [length] in Hfb. rewrite !Nat.add_0_r, Nat.sub_0_r in Hfb.
      assert (empty_buffer s <= 1)%nat by (unfold empty_buffer; case_bool_decide; lia).
      specialize (Hfb Ha Hbs ltac:(lia) ltac:(lia) ltac:(lia)). change (mkShuffled [] [] [] []) with (sb_of k []). change 0 with (zlen (@nil entry)).
      apply wp_iff in Hfb as ([sb s'] & -> & -> & H2 & H3). by exists s'.
    - rewrite He. exists s. rewrite take_nil, drop_nil. split; [done|]. split; [done|]. by right. }
  destruct E as [|e E].
  - exists []. split; [|done]. rewrite take_nil in E1. by eapply (shuffled_end (H := SimpleShuffledBatchProvider_shuffled fuel)).
  - destruct bs as [|bs]; [lia|]. destruct (IH (length (drop (S bs) (e :: E)))) with (s := s') (k := (k + length (take (S bs) (e :: E)))%nat) (E := drop (S bs) (e :: E)) as (bss & Hd & Hc & Hl).
    + rewrite length_drop. cbn in *. lia.
    + rewrite length_drop. cbn in *. lia.
    + done.
    + done.
    + rewrite length_take, length_drop. cbn in *. lia.
    + done.
    + exists (take (S bs) (e :: E) :: bss). split; [eapply (shuffled_more (H := SimpleShuffledBatchProvider_shuffled fuel)); [exact E1|done|exact Hd]|].
      split; [cbn [concat]; by rewrite Hc, take_drop|]. rewrite length_drop in Hl. cbn in *. lia.
Qed.
End shuffling.

(** ** The file *)
Lemma concat_record (rs : list bytes) len k : Forall (fun r => length r = len) rs -> (k < length rs)%nat ->
  exists pre post, concat rs = pre ++ rs !!! k ++ post /\ length pre = (k * len)%nat.
Proof.
  intros Hrs Hk. exists (concat (take k rs)), (concat (drop (S k) rs)). pose proof (list_lookup_lookup_total_lt rs k Hk) as Hx. split.
  - rewrite <- (take_drop_middle rs k _ Hx) at 1. by rewrite concat_app.
  - assert (Forall (fun r => length r = len) (take k rs)) as Ht by by apply Forall_take. replace k with (length (take k rs)) at 2 by (rewrite length_take; lia).
    clear -Ht. induction Ht as [|r l Hr _ IH]; [done|]. cbn [concat length]. rewrite length_app, Hr, IH. lia.
Qed.
Definition cache_record (k : nat) (e : entry) : bytes := UbPsiCacheItem_bytes (Z.of_nat k) (e_row e) (e_dup e) (e_item e).
Definition cache_file (E : list entry) : bytes := concat (imap cache_record E).
Definition entry_ok (len : Z) (e : entry) : Prop := zlen (e_item e) = len /\ 0 <= e_dup e < 2 ^ 32 /\ 0 <= e_row e < 2 ^ 32.
Record cache_holds (c : UbPsiCache) (E : list entry) : Prop := {
  ch_file : c_file c ++ c_buffered c = cache_file E;
  ch_count : cache_cnt_ c = zlen E;
  ch_len : item_len (c_meta_ c) = data_len_ c /\ data_len_ c < Z.of_nat kMaxCipherSize
}.
Lemma UbPsiCache_new_holds data_len fields key : 0 <= data_len < Z.of_nat kMaxCipherSize -> wp (UbPsiCache_new data_len fields key) (fun c => cache_holds c [] /\ data_len_ c = data_len /\ priv_key (c_meta_ c) = key).
Proof.
  intros Hd. unfold UbPsiCache_new. rewrite (proj2 (Z.ltb_lt _ _)) by lia. run. split; [|done]. split; [done|done|]. cbn. rewrite u32_small; [lia|]. unfold kMaxCipherSize in *. lia.
Qed.
Lemma SaveData_holds c E e : cache_holds c E -> entry_ok (data_len_ c) e -> zlen E < 2 ^ 32 -> wp (SaveData c (e_item e) (zlen E) (e_row e) (e_dup e)) (fun c' => cache_holds c' (E ++ [e]) /\ data_len_ c' = data_len_ c /\ c_meta_ c' = c_meta_ c).
Proof.
  intros [Hf Hn Hl] (Hlen & Hd & Hr) HE. unfold SaveData. rewrite (proj2 (Z.eqb_eq _ _)) by done. run. split; [|done].
  rewrite (u32_small (zlen E)), (u32_small (e_row e)) by (unfold zlen in *; lia). split; cbn [c_file c_buffered cache_cnt_ c_meta_ data_len_].
  - rewrite app_assoc, Hf. unfold cache_file. rewrite imap_app, concat_app. change (imap _ [e]) with [cache_record (length E + 0) e]. cbn [concat]. by rewrite app_nil_r, Nat.add_0_r.
  - rewrite Hn, u64_small; unfold zlen in *; rewrite ?length_app; cbn; lia.
  - done.
Qed.

(** ** Reading the file *)
Section reading.
Context (len : Z) (E : list entry) (bs : nat) (Hok : Forall (entry_ok len) E) (Hlen : 0 <= len < Z.of_nat kMaxCipherSize) (Hn : zlen E < 2 ^ 32) (Hbs : (0 < bs)%nat).

Lemma records_uniform : Forall (fun r => length r = sizeof_UbPsiCacheItem) (imap cache_record E).
Proof.
  clear -Hok Hlen. apply Forall_lookup. intros i r Hi. apply list_lookup_imap_Some in Hi as (e & He & ->). apply (Forall_lookup_1 _ _ _ _ Hok) in He as (Hl & _).
  unfold cache_record, UbPsiCacheItem_bytes, sizeof_UbPsiCacheItem, kMaxCipherSize in *. rewrite !length_app, !length_le_bytes, length_replicate. unfold zlen in *. lia.
Qed.
Lemma read_item_ok k e : E !! k = Some e -> read_item (cache_file E) k = Ok (mkCacheItem (Z.of_nat k) (e_row e) (e_dup e) (e_item e ++ replicate (kMaxCipherSize - length (e_item e)) 0)).
Proof.
  intros He. pose proof (lookup_lt_Some _ _ _ He) as Hk. destruct (Forall_lookup_1 _ _ _ _ Hok He) as (Hl & Hd & Hr).
  destruct (concat_record (imap cache_record E) sizeof_UbPsiCacheItem k records_uniform) as (pre & post & Ec & Hp); [by rewrite length_imap|].
  assert (imap cache_record E !!! k = cache_record k e) as Er by (apply list_lookup_total_correct; by rewrite list_lookup_imap, He).
  rewrite Er in Ec. unfold read_item, cache_file. rewrite Ec. unfold cache_record, UbPsiCacheItem_bytes, zlen, sizeof_UbPsiCacheItem, kMaxCipherSize in *. rewrite <- !app_assoc.
  rewrite (memcpy_field pre _ (k * 44) 4 (Z.of_nat k)) by (done || lia). run.
  rewrite (app_assoc pre (le_bytes 4 (Z.of_nat k))), (memcpy_field (pre ++ _) _ (k * 44 + 4) 4 (e_row e)) by (rewrite ?length_app, ?length_le_bytes; lia). run.
  rewrite (app_assoc (pre ++ _) (le_bytes 4 (e_row e))), (memcpy_field ((pre ++ _) ++ _) _ (k * 44 + 8) 4 (e_dup e)) by (rewrite ?length_app, ?length_le_bytes; lia). run.
  rewrite (app_assoc ((pre ++ _) ++ _)). set (q := ((pre ++ _) ++ _) ++ _). assert (length q = k * 44 + 12)%nat as Hq by (unfold q; rewrite !length_app, !length_le_bytes; lia).
  rewrite copy_range_ok by (rewrite !length_app, length_replicate; lia). run. rewrite drop_app_length' by done. rewrite app_assoc.
  rewrite take_app_length' by (rewrite length_app, length_replicate; lia). done.
Qed.

Definition cache_provider (m : UBPsiCacheMeta) (r : nat) : UbPsiCacheProvider := mkCacheProvider (Z.of_nat bs) (cache_file E) m (Z.of_nat r).
Context (m : UBPsiCacheMeta) (Hm : item_len m = len /\ item_count m = zlen E).

Lemma item_data e : e ∈ E -> copy_range (e_item e ++ replicate (kMaxCipherSize - length (e_item e)) 0) 0 (Z.to_nat (item_len m)) = Ok (e_item e).
Proof.
  intros He. destruct (proj1 (Forall_forall _ _) Hok e He) as (Hl & _). destruct Hm as [-> _]. unfold zlen in *. rewrite copy_range_ok by (rewrite length_app; lia).
  rewrite drop_0. replace (Z.to_nat len) with (length (e_item e)) by lia. by rewrite take_app_length.
Qed.
Lemma CacheReadNextShuffled_ok r : (r <= length E)%nat ->
  CacheReadNextShuffled (cache_provider m r) = Ok (sb_of r (take bs (drop r E)), cache_provider m (r + length (take bs (drop r E)))).
Proof.
  intros Hr. unfold CacheReadNextShuffled, cache_provider. cbn [p_meta_ p_read_count_ p_batch p_in]. rewrite (proj2 Hm). unfold zlen in *. destruct (Z.leb_spec (Z.of_nat (length E)) (Z.of_nat r)).
  { rewrite drop_ge by lia. rewrite take_nil. cbn. by rewrite Nat.add_0_r. }
  rewrite (proj2 (Z.ltb_lt _ _)) by lia. set (c := Z.to_nat (Z.min (Z.of_nat bs) (Z.of_nat (length E) - Z.of_nat r))). set (b := take bs (drop r E)). assert (length b = c) as Hb by (unfold b; rewrite length_take, length_drop; lia).
  assert (forall i, (i < c)%nat -> E !! (r + i)%nat = Some (b !!! i)) as Hbi.
  { intros i Hi. unfold b. rewrite lookup_total_take_lt, lookup_total_drop by lia. apply list_lookup_lookup_total_lt. lia. }
  set (g := fun i => let e := b !!! i in mkCacheItem (Z.of_nat (r + i)) (e_row e) (e_dup e) (e_item e ++ replicate (kMaxCipherSize - length (e_item e)) 0)).
  apply wp_eq, wp_bind. unfold ReadData. cbn [p_read_count_ p_in]. rewrite (for_push c _ g); [cbn [wp app]|].
  2: { intros i Hi. rewrite Nat2Z.id. by apply read_item_ok, Hbi. }
  apply wp_bind. unfold tabulate.
  eapply wp_mono; [apply (wp_for_each _ _ (fun done_ sb => sb = sb_of r (take (length done_) b)))|].
  - done.
  - intros l x rest sb El ->. assert (length l < c)%nat as Hlt. { apply (f_equal length) in El. rewrite length_map, length_seq, length_app in El. cbn in El. lia. }
    assert (x = g (length l)) as ->.
    { assert (map g (seq 0 c) !! length l = Some x) as Hx by (rewrite El; by rewrite lookup_app_r, Nat.sub_diag by lia). rewrite lookup_map, lookup_seq_lt in Hx by done. by injection Hx as <-. }
    unfold g. cbv zeta. cbn [ui_data ui_origin_index ui_shuffle_index ui_dup_cnt]. rewrite item_data by (eapply list_elem_of_lookup_2; by apply Hbi). run.
    rewrite length_app, Nat.add_1_r. rewrite (take_S_r b (length l) (b !!! length l)) by (apply list_lookup_lookup_total_lt; lia). rewrite <- sb_of_snoc.
    rewrite length_take, Nat.min_l by lia. done.
  - intros sb ->. cbn [wp]. rewrite length_map, length_seq, take_ge by lia. do 3 f_equal. lia.
Qed.
Lemma cache_delivers r : (r <= length E)%nat -> exists bss, delivers_shuffled (cache_provider m r) r bss /\ concat bss = drop r E /\ (length bss <= length E - r)%nat.
Proof.
  remember (length E - r)%nat as d eqn:Ed. revert r Ed. induction d as [d IH] using (well_founded_induction lt_wf). intros r Ed Hr. pose proof (CacheReadNextShuffled_ok r Hr) as E1.
  destruct (decide (r = length E)) as [->|Hne].
  - exists []. rewrite drop_all in *. rewrite take_nil in E1. split; [|split; [done|cbn; lia]]. by eapply shuffled_end.
  - assert (length (take bs (drop r E)) = Nat.min bs (length E - r)) as Hlb by (rewrite length_take, length_drop; lia).
    destruct (IH (length E - (r + length (take bs (drop r E))))%nat) with (r := (r + length (take bs (drop r E)))%nat) as (bss & Hd & Hc & Hl); [lia|done|lia|].
    exists (take bs (drop r E) :: bss). split; [eapply shuffled_more; [exact E1| |exact Hd]; intros E0; rewrite E0 in Hlb; cbn in Hlb; lia|].
    split; [|cbn; lia]. cbn [concat]. rewrite Hc, <- drop_drop. destruct (decide (bs <= length E - r)%nat) as [|].
    + rewrite Hlb, Nat.min_l by lia. by rewrite take_drop.
    + rewrite (take_ge (drop r E)) by (rewrite length_drop; lia). rewrite drop_all, app_nil_r. done.
Qed.

(** With the counts in a map. *)
Lemma nonzero_counts (l : list Z) i : count (loop (length l) (fun i m => if l !!! i =? 0 then m else <[Z.of_nat i := l !!! i]> m) ∅) (Z.of_nat i) = default 0 (l !! i).
Proof.
  clear. set (f := fun i m => if l !!! i =? 0 then m else <[Z.of_nat i := l !!! i]> m).
  assert (forall n, (n <= length l)%nat -> count (loop n f ∅) (Z.of_nat i) = if bool_decide (i < n)%nat then l !!! i else 0) as Hl.
  { induction n as [|n IH]; intros Hn'; [done|]. rewrite loop_S. unfold f at 1. unfold count in *. destruct (Z.eqb_spec (l !!! n) 0) as [E0|E0].
    - rewrite IH by lia. destruct (decide (i = n)) as [->|]; [rewrite bool_decide_false, bool_decide_true by lia; done|]. repeat case_bool_decide; lia.
    - destruct (decide (i = n)) as [->|]; [rewrite lookup_insert_eq, bool_decide_true by lia; done|]. rewrite lookup_insert_ne, IH by lia. repeat case_bool_decide; lia. }
  rewrite Hl by done. case_bool_decide as Hi; [by rewrite (list_lookup_lookup_total_lt l i Hi)|]. by rewrite lookup_ge_None_2 by lia.
Qed.
Lemma cache_delivers_counts r : (r <= length E)%nat -> exists bss q, delivers (cache_provider m r) bss q /\ stream_items bss = map (fun e => (e_item e, e_dup e)) (drop r E) /\ (length bss <= length E - r)%nat.
Proof.
  intros Hr. destruct (cache_delivers r Hr) as (bss & Hd & Hc & Hl). rewrite <- Hc. clear Hc Hr. revert Hl. generalize (length E - r)%nat. intros d.
  assert (forall (p : UbPsiCacheProvider) k bss, delivers_shuffled p k bss -> exists bss' q, delivers p bss' q /\ stream_items bss' = map (fun e => (e_item e, e_dup e)) (concat bss) /\ length bss' = length bss) as Hgen.
  { clear. induction 1 as [p k p' Hr|p k b p' bss Hr Hne Hd (bss' & q & Hd' & Hs & Hl)].
    - exists [], p'. split; [|done]. eapply delivers_end. cbn. unfold CacheReadNextWithDupCnt. change (CacheReadNextShuffled p) with (ReadNextShuffled p). rewrite Hr. run. done.
    - eexists ((map e_item b, _) :: bss'), q. split; [eapply delivers_more; [cbn; unfold CacheReadNextWithDupCnt; change (CacheReadNextShuffled p) with (ReadNextShuffled p); rewrite Hr; run; done| |exact Hd']|].
      + by destruct b.
      + split; [|cbn; by rewrite Hl]. unfold stream_items in *. cbn [map concat]. rewrite Hs, map_app. f_equal. apply list_eq. intros i. unfold with_counts. cbn [fst snd].
        rewrite list_lookup_imap, !lookup_map, nonzero_counts. cbn [dup_cnts sb_of]. rewrite lookup_map. by destruct (b !! i). }
  intros Hl. destruct (Hgen _ _ _ Hd) as (bss' & q & H1 & H2 & H3). exists bss', q. rewrite H3. done.
Qed.
End reading.
