(* ===== verification/EcdhOprf.v ===== *)
(** * The oblivious PRF of the unbalanced PSI (psi/cryptor/ecc_utils.h,
    psi/algorithm/ecdh/ub_psi/basic_ecdh_oprf)

    The client masks the point of an item with its key, the server masks it once
    more, the client takes its own mask away and hashes: it has what the server
    computes from the item alone.  Over the curves of OpenSSL and over FourQ.

    Parameters: OpenSSL and the FourQ library on points and numbers, SHA-256 and
    BLAKE3.  A private key is the 32 bytes an object holds. *)
From S2P Require Import Prelude EcStore.
From Stdlib Require Import Znumtheory.

Definition kEccKeySize : nat := 32.
Definition kEcPointCompressLength : nat := 33.
Definition kEc256KeyLength : nat := 32.
Definition kEc256CompareLength : nat := 12.
Definition kHashToCurveCounterGuard : nat := 100.

(** ** What an OPRF promises the protocol *)
Class IEcdhOprf := {
  GetCompareLength : nat;
  GetEcPointLength : nat;
  SimpleEvaluate : bytes -> bytes -> res bytes;
  Evaluate : bytes -> bytes -> res bytes;
  Blind : bytes -> bytes -> res bytes;
  Finalize : bytes -> bytes -> res bytes
}.
(** Keys that can be taken away again, items that have a point. *)
Class IEcdhOprfLaws `{IEcdhOprf} (key_ok : bytes -> Prop) (item_ok : bytes -> Prop) (prf : bytes -> bytes -> bytes) : Prop := {
  prf_length s x : length (prf s x) = GetCompareLength;
  point_length_pos : (0 < GetEcPointLength)%nat;
  SimpleEvaluate_prf s x : key_ok s -> item_ok x -> SimpleEvaluate s x = Ok (prf s x);
  oblivious r s x : key_ok r -> key_ok s -> item_ok x -> exists b e, Blind r x = Ok b /\ length b = GetEcPointLength /\
    Evaluate s b = Ok e /\ length e = GetEcPointLength /\ Finalize r e = Ok (prf s x)
}.

Class Blake3Hash := { Blake3 : bytes -> bytes }.
Class Blake3Laws `{Blake3Hash} : Prop := { blake3_length b : length (Blake3 b) = 32%nat }.
Definition HashItem `{Blake3Hash} (item masked_item : bytes) (hash_len : nat) : res bytes :=
  let hash := Blake3 (item ++ masked_item) in
  _ ← enforce (bool_decide (hash_len <= length hash)%nat);
  Ok (take hash_len hash).

(** ** ecc_utils.h, over OpenSSL *)
Class OpenSsl := {
  EC_POINT : Type;
  bn_p : Z;
  bn_n : Z;
  EC_POINT_set_compressed_coordinates : Z -> option EC_POINT;
  EC_POINT_mul : EC_POINT -> Z -> EC_POINT;
  EC_POINT_point2oct : EC_POINT -> bytes;
  EC_POINT_oct2point : bytes -> EC_POINT;
  BN_mod_inverse : Z -> Z -> Z;
  Sha256 : bytes -> bytes
}.
(** A group of prime order; only the point at infinity has another encoding. *)
Class OpenSslLaws `{OpenSsl} (finite : EC_POINT -> Prop) : Prop := {
  order_prime : Z.prime bn_n;
  coordinates_finite x p : EC_POINT_set_compressed_coordinates x = Some p -> finite p;
  mul_mul p a b : EC_POINT_mul (EC_POINT_mul p a) b = EC_POINT_mul p ((a * b) mod bn_n);
  mul_finite p a : finite p -> a mod bn_n <> 0 -> finite (EC_POINT_mul p a);
  oct_length p : finite p -> length (EC_POINT_point2oct p) = kEcPointCompressLength;
  oct_roundtrip p : finite p -> EC_POINT_oct2point (EC_POINT_point2oct p) = p;
  mod_inverse a : a mod bn_n <> 0 -> 0 <= BN_mod_inverse a bn_n < 2 ^ 256 /\ (a * BN_mod_inverse a bn_n) mod bn_n = 1 mod bn_n
}.

Section openssl.
Context `{OpenSsl} `{Blake3Hash}.

(** Big-endian numbers. *)
Definition BN_bin2bn (b : bytes) : Z := le_value (rev b).
Definition ToBytes_bn (x : Z) : bytes := rev (le_bytes kEc256KeyLength x).
Definition FromBytes (b : bytes) (p : Z) : Z := BN_bin2bn b mod p.
Definition Inverse (x p : Z) : Z := BN_mod_inverse x p.

(** [CreateEcPointByHashToCurve]: try and increment, 100 times at most. *)
Fixpoint hash_to_curve (guard : nat) (bn_x : Z) : res EC_POINT :=
  match EC_POINT_set_compressed_coordinates bn_x with
  | Some p => Ok p
  | None =>
      match guard with
      | O => Throw
      | S guard' => hash_to_curve guard' (FromBytes (Sha256 (ToBytes_bn bn_x)) bn_p)
      end
  end.
Definition CreateEcPointByHashToCurve (m : bytes) : res EC_POINT :=
  hash_to_curve (kHashToCurveCounterGuard - 1) (FromBytes (Sha256 m) bn_p).
Definition ToBytes (p : EC_POINT) : res bytes :=
  _ ← enforce (bool_decide (length (EC_POINT_point2oct p) = kEcPointCompressLength));
  Ok (EC_POINT_point2oct p).
Definition PointMul (p : EC_POINT) (bn_sk : Z) : EC_POINT := EC_POINT_mul p bn_sk.

(** ** basic_ecdh_oprf.cc *)
Definition EcPointMul (sk_bytes point_bytes : bytes) : res bytes :=
  _ ← enforce (bool_decide (length sk_bytes = kEccKeySize));
  let bn_sk := FromBytes sk_bytes bn_n in
  let ec_point := EC_POINT_oct2point point_bytes in
  ToBytes (PointMul ec_point bn_sk).
Definition ItemMul (sk_bytes item_bytes : bytes) : res bytes :=
  _ ← enforce (bool_decide (length sk_bytes = kEccKeySize));
  let bn_sk := FromBytes sk_bytes bn_n in
  ec_point ← CreateEcPointByHashToCurve item_bytes;
  ToBytes (PointMul ec_point bn_sk).
Definition EccPrivateKeyInv (private_key : bytes) : res bytes :=
  let bn_sk := FromBytes private_key bn_n in
  let sk_inv := ToBytes_bn (Inverse bn_sk bn_n) in
  _ ← enforce (bool_decide (length sk_inv = kEccKeySize));
  Ok sk_inv.

(** [compare_length_] is zero unless it was set. *)
Definition CompareLength (compare_length_ : nat) : nat := if bool_decide (compare_length_ = 0)%nat then kEc256CompareLength else compare_length_.
Definition SetCompareLength (compare_length : nat) : res nat :=
  _ ← enforce (bool_decide (compare_length <= kEccKeySize)%nat); Ok compare_length.

Section basic.
Context (compare_length_ : nat).
Definition Basic_Evaluate (private_key blinded_element : bytes) : res bytes := EcPointMul private_key blinded_element.
Definition Basic_FullEvaluate (private_key input : bytes) : res bytes :=
  point_bytes ← ItemMul private_key input; HashItem input point_bytes (CompareLength compare_length_).
Definition Basic_SimpleEvaluate (private_key input : bytes) : res bytes :=
  point_bytes ← ItemMul private_key input; HashItem [] point_bytes (CompareLength compare_length_).
Definition Basic_Blind (private_key input : bytes) : res bytes := ItemMul private_key input.
(** The constructor computes [sk_inv_]. *)
Definition Basic_Unblind (private_key input : bytes) : res bytes := sk_inv_ ← EccPrivateKeyInv private_key; EcPointMul sk_inv_ input.
Definition Basic_Finalize_item (private_key item evaluated_element : bytes) : res bytes :=
  unblinded_element ← Basic_Unblind private_key evaluated_element; HashItem item unblinded_element (CompareLength compare_length_).
Definition Basic_Finalize (private_key evaluated_element : bytes) : res bytes := Basic_Finalize_item private_key [] evaluated_element.
End basic.
End openssl.

(** ** FourQ *)
Class FourQ := {
  point_t : Type;
  fq_order : Z;
  ecc_mul : point_t -> Z -> option point_t;
  encode : point_t -> bytes;
  decode : bytes -> option point_t;
  HashToCurve_f2 : Z * Z -> point_t;
  mod1271 : Z -> Z;
  Montgomery_inverse : Z -> Z
}.
(** The points of the subgroup of prime order. *)
Class FourQLaws `{FourQ} (subgroup : point_t -> Prop) : Prop := {
  fq_order_prime : Z.prime fq_order;
  hash_subgroup r : subgroup (HashToCurve_f2 r);
  fq_mul p a : subgroup p -> a mod fq_order <> 0 -> exists q, ecc_mul p a = Some q /\ subgroup q;
  fq_mul_mul p q a b : subgroup p -> ecc_mul p a = Some q -> a mod fq_order <> 0 -> ecc_mul q b = ecc_mul p ((a * b) mod fq_order);
  fq_mul_mod p a : subgroup p -> ecc_mul p (a mod fq_order) = ecc_mul p a;
  encode_length p : length (encode p) = kEccKeySize;
  encode_bit p : subgroup p -> Z.land (encode p !!! 15%nat) 128 = 0;
  encode_roundtrip p : subgroup p -> decode (encode p) = Some p;
  Montgomery_inverse_ok a : a mod fq_order <> 0 -> 0 <= Montgomery_inverse a < 2 ^ 256 /\ (a * Montgomery_inverse a) mod fq_order = 1 mod fq_order
}.
Section fourq.
Context `{FourQ} `{Blake3Hash} (compare_length_ : nat).

Definition FourQPointMul_point (sk_bytes : bytes) (point : point_t) : res bytes :=
  match ecc_mul point (le_value sk_bytes) with Some A => Ok (encode A) | None => Throw end.
Definition FourQPointMul (sk_bytes point_bytes : bytes) : res bytes :=
  b15 ← vget point_bytes 15;
  _ ← enforce (Z.land b15 128 =? 0);
  match decode point_bytes with Some A => FourQPointMul_point sk_bytes A | None => Throw end.
Definition FourQHashToCurvePoint (input : bytes) : point_t :=
  let hash := Blake3 input in
  HashToCurve_f2 (mod1271 (le_value (take 16 hash)), mod1271 (le_value (drop 16 hash))).
Definition FourQ_Evaluate (private_key blinded_element : bytes) : res bytes := FourQPointMul private_key blinded_element.
Definition FourQ_FullEvaluate (private_key input : bytes) : res bytes :=
  pt_mul_bytes ← FourQPointMul_point private_key (FourQHashToCurvePoint input); HashItem input pt_mul_bytes (CompareLength compare_length_).
Definition FourQ_SimpleEvaluate (private_key input : bytes) : res bytes :=
  pt_mul_bytes ← FourQPointMul_point private_key (FourQHashToCurvePoint input); HashItem [] pt_mul_bytes (CompareLength compare_length_).
Definition FourQ_Blind (private_key input : bytes) : res bytes := FourQPointMul_point private_key (FourQHashToCurvePoint input).
Definition FourQ_sk_inv (private_key : bytes) : bytes := le_bytes kEccKeySize (Montgomery_inverse (le_value private_key)).
Definition FourQ_Unblind (private_key input : bytes) : res bytes := FourQPointMul (FourQ_sk_inv private_key) input.
Definition FourQ_Finalize_item (private_key item evaluated_element : bytes) : res bytes :=
  unblinded_element ← FourQ_Unblind private_key evaluated_element; HashItem item unblinded_element (CompareLength compare_length_).
Definition FourQ_Finalize (private_key evaluated_element : bytes) : res bytes := FourQ_Finalize_item private_key [] evaluated_element.
End fourq.

(** ** Both keep the promise *)
Definition value_or (n : nat) (m : res bytes) : bytes := match m with Ok b => b | _ => replicate n 0 end.
Lemma CompareLength_range c : (c <= kEccKeySize)%nat -> (CompareLength c <= 32)%nat.
Proof. unfold CompareLength, kEccKeySize, kEc256CompareLength. case_bool_decide; lia. Qed.
Lemma HashItem_ok `{Blake3Laws} item masked n : (n <= 32)%nat -> exists h, HashItem item masked n = Ok h /\ length h = n.
Proof.
  intros Hn. unfold HashItem. rewrite blake3_length, bool_decide_true by done. run. eexists. split; [done|]. rewrite length_take, blake3_length. lia.
Qed.
Lemma value_or_length n (m : res bytes) : (forall h, m = Ok h -> length h = n) -> length (value_or n m) = n.
Proof. destruct m; cbn; [auto|by rewrite length_replicate..]. Qed.
Lemma nonzero_mul q a b : Z.prime q -> a mod q <> 0 -> b mod q <> 0 -> (a * b) mod q <> 0.
Proof.
  intros Hq Ha Hb Hab. pose proof (Z.prime_ge_2 _ Hq). apply Z.mod_divide in Hab; [|lia]. apply Z.divide_prime_mul in Hab; [|done]. rewrite <- !Z.mod_divide in Hab by lia. tauto.
Qed.

Section basic_laws.
Context `{OpenSsl} (finite : EC_POINT -> Prop) `{!OpenSslLaws finite} `{Blake3Laws} (compare_length_ : nat) (Hc : (compare_length_ <= kEccKeySize)%nat).

Lemma hash_to_curve_finite guard x : safe (hash_to_curve guard x) finite.
Proof.
  revert x. induction guard as [|guard IH]; intros x; cbn [hash_to_curve]; (destruct (EC_POINT_set_compressed_coordinates x) as [p|] eqn:E; [cbn; by eapply coordinates_finite|]); [done|apply IH].
Qed.
Lemma ToBytes_ok p : finite p -> ToBytes p = Ok (EC_POINT_point2oct p).
Proof. intros Hp. unfold ToBytes. by rewrite bool_decide_true by by eapply oct_length. Qed.

Definition basic_key_ok (key : bytes) : Prop := length key = kEccKeySize /\ FromBytes key bn_n <> 0.
Definition basic_item_ok (x : bytes) : Prop := is_ok (CreateEcPointByHashToCurve x) = true.
Definition basic_prf (s x : bytes) : bytes := value_or (CompareLength compare_length_) (Basic_SimpleEvaluate compare_length_ s x).
Definition basic_oprf : IEcdhOprf := {|
  GetCompareLength := CompareLength compare_length_; GetEcPointLength := kEcPointCompressLength;
  SimpleEvaluate := Basic_SimpleEvaluate compare_length_; Evaluate := Basic_Evaluate; Blind := Basic_Blind; Finalize := Basic_Finalize compare_length_ |}.
#[local] Existing Instance basic_oprf.

Lemma key_nonzero key : basic_key_ok key -> FromBytes key bn_n mod bn_n <> 0.
Proof. intros [_ Hk]. unfold FromBytes in *. pose proof (Z.prime_ge_2 _ (order_prime (finite := finite))). by rewrite Z.mod_mod by lia. Qed.
Lemma ItemMul_ok key x : basic_key_ok key -> basic_item_ok x -> exists p, finite p /\ CreateEcPointByHashToCurve x = Ok p /\
  finite (EC_POINT_mul p (FromBytes key bn_n)) /\ ItemMul key x = Ok (EC_POINT_point2oct (EC_POINT_mul p (FromBytes key bn_n))).
Proof.
  intros Hk Hx. pose proof (hash_to_curve_finite (kHashToCurveCounterGuard - 1) (FromBytes (Sha256 x) bn_p)) as Hf. fold (CreateEcPointByHashToCurve x) in Hf.
  unfold basic_item_ok in Hx. unfold ItemMul. rewrite (bool_decide_true (length key = _)) by apply Hk. run. destruct (CreateEcPointByHashToCurve x) as [p| |]; [|done..]. exists p.
  assert (finite (EC_POINT_mul p (FromBytes key bn_n))) as Hm by (apply mul_finite; [done|by apply key_nonzero]). split; [done|]. split; [done|]. split; [done|]. run. by apply ToBytes_ok.
Qed.
Lemma EcPointMul_ok key p : length key = kEccKeySize -> finite p -> finite (EC_POINT_mul p (FromBytes key bn_n)) -> EcPointMul key (EC_POINT_point2oct p) = Ok (EC_POINT_point2oct (EC_POINT_mul p (FromBytes key bn_n))).
Proof. intros Hk Hp Hm. unfold EcPointMul. rewrite bool_decide_true by done. run. rewrite (oct_roundtrip (finite := finite)) by done. by apply ToBytes_ok. Qed.

Lemma EccPrivateKeyInv_ok key : basic_key_ok key -> exists inv, EccPrivateKeyInv key = Ok inv /\ length inv = kEccKeySize /\ (FromBytes key bn_n * FromBytes inv bn_n) mod bn_n = 1 mod bn_n.
Proof.
  intros Hk. pose proof (Z.prime_ge_2 _ (order_prime (finite := finite))). destruct (mod_inverse (finite := finite) (FromBytes key bn_n) (key_nonzero key Hk)) as [Hr Hi].
  unfold EccPrivateKeyInv, ToBytes_bn, Inverse, kEc256KeyLength. rewrite bool_decide_true by (by rewrite length_rev, length_le_bytes). run. eexists. split; [done|]. split; [by rewrite length_rev, length_le_bytes|].
  unfold FromBytes at 2, BN_bin2bn. rewrite rev_involutive, le_value_bytes. rewrite (Z.mod_small (BN_mod_inverse _ _)) by (change (256 ^ Z.of_nat 32) with (2 ^ 256); lia).
  by rewrite Z.mul_mod_idemp_r by lia.
Qed.

(** The OPRF over OpenSSL's curves. *)
Lemma basic_oprf_laws : IEcdhOprfLaws basic_key_ok basic_item_ok basic_prf.
Proof.
  pose proof (CompareLength_range _ Hc) as Hcl. pose proof (Z.prime_ge_2 _ (order_prime (finite := finite))) as Hn.
  assert (forall s x, basic_key_ok s -> basic_item_ok x -> Basic_SimpleEvaluate compare_length_ s x = Ok (basic_prf s x)) as Hs.
  { intros s x Hk Hx. unfold basic_prf, Basic_SimpleEvaluate. destruct (ItemMul_ok s x Hk Hx) as (p & _ & _ & _ & ->). run.
    destruct (HashItem_ok [] (EC_POINT_point2oct (EC_POINT_mul p (FromBytes s bn_n))) _ Hcl) as (h & -> & _). done. }
  split.
  - intros s x. apply value_or_length. unfold Basic_SimpleEvaluate. intros h (b & _ & Hb)%bind_ok. destruct (HashItem_ok [] b _ Hcl) as (h' & E & Hh). rewrite E in Hb. by injection Hb as <-.
  - cbn. unfold kEcPointCompressLength. lia.
  - exact Hs.
  - intros r s x Hkr Hks Hx. destruct (ItemMul_ok r x Hkr Hx) as (p & Hp & Ep & Hm & Eb). cbn.
    assert (finite (EC_POINT_mul (EC_POINT_mul p (FromBytes r bn_n)) (FromBytes s bn_n))) as Hm2 by (apply mul_finite; [done|by apply key_nonzero]).
    eexists _, _. split; [exact Eb|]. split; [by apply (oct_length (finite := finite))|]. split; [apply EcPointMul_ok; [apply Hks|done|done]|]. split; [by apply (oct_length (finite := finite))|].
    destruct (EccPrivateKeyInv_ok r Hkr) as (inv & Ei & Hil & Hinv). unfold Basic_Finalize, Basic_Finalize_item, Basic_Unblind. rewrite Ei. run.
    assert (EC_POINT_mul (EC_POINT_mul (EC_POINT_mul p (FromBytes r bn_n)) (FromBytes s bn_n)) (FromBytes inv bn_n) = EC_POINT_mul p (FromBytes s bn_n)) as Eu.
    { rewrite !(mul_mul (finite := finite)). f_equal. rewrite Z.mul_mod_idemp_r by lia. replace (FromBytes r bn_n * (FromBytes s bn_n * FromBytes inv bn_n)) with (FromBytes r bn_n * FromBytes inv bn_n * FromBytes s bn_n) by ring.
      rewrite <- Z.mul_mod_idemp_l, Hinv, Z.mul_mod_idemp_l, Z.mul_1_l by lia. unfold FromBytes. by rewrite Z.mod_mod by lia. }
    rewrite EcPointMul_ok; [|done|done|rewrite Eu; apply mul_finite; [done|by apply key_nonzero]]. run. rewrite Eu. rewrite <- Hs by done.
    unfold Basic_SimpleEvaluate. destruct (ItemMul_ok s x Hks Hx) as (p' & _ & Ep' & _ & ->). rewrite Ep in Ep'. by injection Ep' as <-.
Qed.
End basic_laws.

Section fourq_laws.
Context `{FourQ} (subgroup : point_t -> Prop) `{!FourQLaws subgroup} `{Blake3Laws} (compare_length_ : nat) (Hc : (compare_length_ <= kEccKeySize)%nat).

Definition fourq_key_ok (key : bytes) : Prop := length key = kEccKeySize /\ le_value key mod fq_order <> 0.
Definition fourq_prf (s x : bytes) : bytes := value_or (CompareLength compare_length_) (FourQ_SimpleEvaluate compare_length_ s x).
Definition fourq_oprf : IEcdhOprf := {|
  GetCompareLength := CompareLength compare_length_; GetEcPointLength := kEccKeySize;
  SimpleEvaluate := FourQ_SimpleEvaluate compare_length_; Evaluate := FourQ_Evaluate; Blind := FourQ_Blind; Finalize := FourQ_Finalize compare_length_ |}.
#[local] Existing Instance fourq_oprf.

Lemma FourQPointMul_encode key p : subgroup p -> FourQPointMul key (encode p) = FourQPointMul_point key p.
Proof.
  intros Hp. unfold FourQPointMul. rewrite vget_total by (rewrite (encode_length (subgroup := subgroup)); unfold kEccKeySize; lia). run.
  rewrite (proj2 (Z.eqb_eq _ _)) by by eapply encode_bit. run. by rewrite (encode_roundtrip (subgroup := subgroup)).
Qed.
Lemma FourQPointMul_point_ok key p : subgroup p -> fourq_key_ok key -> exists q, ecc_mul p (le_value key) = Some q /\ subgroup q /\ FourQPointMul_point key p = Ok (encode q).
Proof. intros Hp [_ Hk]. destruct (fq_mul (subgroup := subgroup) p _ Hp Hk) as (q & E & Hq). exists q. unfold FourQPointMul_point. by rewrite E. Qed.

(** The OPRF over FourQ: every item has a point. *)
Lemma fourq_oprf_laws : IEcdhOprfLaws fourq_key_ok (fun _ => True) fourq_prf.
Proof.
  pose proof (CompareLength_range _ Hc) as Hcl. pose proof (Z.prime_ge_2 _ (fq_order_prime (subgroup := subgroup))) as Hn.
  assert (forall x, subgroup (FourQHashToCurvePoint x)) as Hx by (intros x; apply hash_subgroup).
  assert (forall s x, fourq_key_ok s -> FourQ_SimpleEvaluate compare_length_ s x = Ok (fourq_prf s x)) as Hs.
  { intros s x Hk. unfold fourq_prf, FourQ_SimpleEvaluate. destruct (FourQPointMul_point_ok s _ (Hx x) Hk) as (q & _ & _ & ->). run.
    destruct (HashItem_ok [] (encode q) _ Hcl) as (h & -> & _). done. }
  split.
  - intros s x. apply value_or_length. unfold FourQ_SimpleEvaluate. intros h (b & _ & Hb)%bind_ok. destruct (HashItem_ok [] b _ Hcl) as (h' & E & Hh). rewrite E in Hb. by injection Hb as <-.
  - cbn. unfold kEccKeySize. lia.
  - intros s x Hk _. by apply Hs.
  - intros r s x Hkr Hks _. destruct (FourQPointMul_point_ok r _ (Hx x) Hkr) as (a & Ea & Ha & Eb). destruct (FourQPointMul_point_ok s a Ha Hks) as (b & Eb' & Hb & Ee). cbn.
    eexists _, _. split; [exact Eb|]. split; [by eapply encode_length|]. split; [unfold FourQ_Evaluate; rewrite FourQPointMul_encode by done; exact Ee|]. split; [by eapply encode_length|].
    unfold FourQ_Finalize, FourQ_Finalize_item, FourQ_Unblind. rewrite FourQPointMul_encode by done. rewrite <- Hs by done. unfold FourQ_SimpleEvaluate, FourQPointMul_point, FourQ_sk_inv.
    destruct Hkr as [_ Hkr], Hks as [_ Hks]. destruct (Montgomery_inverse_ok (subgroup := subgroup) _ Hkr) as [Hr Hi]. rewrite le_value_bytes.
    rewrite (Z.mod_small (Montgomery_inverse _)) by (change (256 ^ Z.of_nat kEccKeySize) with (2 ^ 256); lia). set (i := Montgomery_inverse (le_value r)) in *.
    rewrite (fq_mul_mul (subgroup := subgroup) (FourQHashToCurvePoint x) a (le_value r) (le_value s) (Hx x) Ea Hkr) in Eb'.
    rewrite (fq_mul_mul (subgroup := subgroup) (FourQHashToCurvePoint x) b _ i (Hx x) Eb') by (rewrite Z.mod_mod by lia; apply (nonzero_mul _ _ _ (fq_order_prime (subgroup := subgroup))); done).
    rewrite Z.mul_mod_idemp_l by lia. replace (le_value r * le_value s * i) with (le_value r * i * le_value s) by ring. rewrite <- Z.mul_mod_idemp_l, Hi, Z.mul_mod_idemp_l, Z.mul_1_l by lia.
    by rewrite (fq_mul_mod (subgroup := subgroup)).
Qed.
End fourq_laws.
