(* ===== verification/UbPsi.v ===== *)
(** * The unbalanced PSI (psi/algorithm/ecdh/ub_psi: ecdh_oprf_psi, client, server)

    Offline the server evaluates its items into its cache and sends the cache to
    the client; online the client blinds its items, the server evaluates them, the
    client compares, and tells the server which positions match if the server is
    to learn the result.

    A party is a function of the messages that reach it: the loops of the client
    that send and receive run in two threads but share no more than the queue of
    OPRF clients, into which a batch is pushed before it is sent.  [Recv] of a
    message that never comes throws (the link times out).  Waiting for room in the
    queue and logging are left out; tags only label messages.

    Parameters: the OPRF ([IEcdhOprf]), the protobuf runtime, providers and stores,
    what [std::shuffle] and [std::sort] do, the fresh keys of OPRF clients. *)
From S2P Require Import Prelude EcdhPsi EcdhOprf EcStore UbPsiStore UbPsiCache.

(** Index lists as messages (serialize.h). *)
Class IndexesProto := { IndexBuffer : Type; SerializeIndexes : list Z -> IndexBuffer; DeserializeIndexes : IndexBuffer -> list Z }.
Class IndexesProtoLaws `{IndexesProto} : Prop := { indexes_roundtrip l : DeserializeIndexes (SerializeIndexes l) = l }.

(** The fields these messages set. *)
Definition psi_batch (is_last_batch : bool) (flatten_bytes : bytes) (duplicate_item_cnt : DupCnt) : PsiDataBatch :=
  mkBatch 0 flatten_bytes 0 is_last_batch "" duplicate_item_cnt.

(** The file store as a store; [uninit] is what an uninitialised record holds. *)
Definition UbPsiClientCacheFileStore_store (uninit : UbPsiClientCacheFileStore -> bytes) : IEcPointStore UbPsiClientCacheFileStore := {|
  Save s ciphertext duplicate_cnt := FileSave (uninit s) s ciphertext duplicate_cnt; Flush := FileFlush; ItemCount := f_item_cnt_ |}.

Section protocol.
Context `{BatchProto} `{IEcdhOprf}.

(** [flatten_bytes] cut into pieces of [len]. *)
Definition split_items (flatten_bytes : bytes) (len : nat) : res (list bytes) :=
  _ ← defined (negb (bool_decide (len = 0)%nat));
  _ ← enforce (bool_decide (length flatten_bytes mod len = 0)%nat);
  for_ (length flatten_bytes / len) (fun idx items => x ← substr flatten_bytes (idx * len) len; Ok (items ++ [x])) [].

(** ** The server *)
Fixpoint SendFinalEvaluatedItems {P} `{IBasicBatchProvider P} (fuel : nat) (batch_provider : P) (items_count : Z) (sent : list Buffer) : res (Z * list Buffer) :=
  match fuel with
  | O => UB
  | S fuel' =>
      '(items, dup_cnt, batch_provider) ← ReadNextBatchWithDupCnt batch_provider;
      if bool_decide (items = []) then Ok (items_count, sent ++ [proto_serialize (psi_batch true [] ∅)])
      else SendFinalEvaluatedItems fuel' batch_provider (u64 (items_count + zlen items)) (sent ++ [proto_serialize (psi_batch false (concat items) dup_cnt)])
  end.

(** A batch into the cache. *)
Definition save_batch (flatten_bytes : bytes) (sb : ShuffledBatch) (c : UbPsiCache) : res UbPsiCache :=
  for_ (length (batch_items sb)) (fun i c =>
    cache_data ← substr flatten_bytes (i * GetCompareLength) GetCompareLength;
    idx ← vget (batch_indices sb) i; row ← vget (shuffled_indices sb) i; d ← vget (dup_cnts sb) i;
    SaveData c cache_data idx row d) c.
Fixpoint full_evaluate {P} `{IShuffledBatchProvider P} (fuel : nat) (private_key : bytes) (batch_provider : P) (send_flag : bool)
    (items_count : Z) (cache : option UbPsiCache) (sent : list Buffer) : res (Z * option UbPsiCache * list Buffer) :=
  match fuel with
  | O => UB
  | S fuel' =>
      '(sb, batch_provider) ← ReadNextShuffled batch_provider;
      if bool_decide (batch_items sb = []) then Ok (items_count, cache, sent)
      else
        let dup_cnt := loop (length (dup_cnts sb)) (fun i m => if 0 <? dup_cnts sb !!! i then <[Z.of_nat i := dup_cnts sb !!! i]> m else m) ∅ in
        masked ← for_ (length (batch_items sb)) (fun j masked => x ← vget (batch_items sb) j; m ← SimpleEvaluate private_key x; Ok (masked ++ [m])) [];
        let flatten_bytes := concat masked in
        let sent := if send_flag then sent ++ [proto_serialize (psi_batch false flatten_bytes dup_cnt)] else sent in
        cache ← (match cache with Some c => c ← save_batch flatten_bytes sb c; Ok (Some c) | None => Ok None end);
        full_evaluate fuel' private_key batch_provider send_flag (u64 (items_count + zlen (batch_items sb))) cache sent
  end.
Definition FullEvaluate {P} `{IShuffledBatchProvider P} (fuel : nat) (private_key : bytes) (batch_provider : P) (cache : option UbPsiCache) (send_flag : bool)
    : res (Z * option UbPsiCache * list Buffer) :=
  '(items_count, cache, sent) ← full_evaluate fuel private_key batch_provider send_flag 0 cache [];
  let sent := if send_flag then sent ++ [proto_serialize (psi_batch true [] ∅)] else sent in
  Ok (items_count, option_map CacheFlush cache, sent).
Definition FullEvaluateAndSend {P} `{IShuffledBatchProvider P} (fuel : nat) (private_key : bytes) (batch_provider : P) (cache : option UbPsiCache) :=
  FullEvaluate fuel private_key batch_provider cache true.

Record PeerCntInfo := mkPeerCnt { peer_total_cnt : Z; peer_unique_cnt : Z; peer_dups : DupCnt }.
(** The extra counts of a batch that starts at item [unique]. *)
Definition add_dups (dups : DupCnt) (unique : Z) (total : Z) (m : DupCnt) : DupCnt * Z :=
  foldr (fun '(index, dup_cnt) '(m, total) => (<[u32 (index + unique) := dup_cnt]> m, u32 (total + dup_cnt))) (m, total) (map_to_list dups).
Definition evaluate_batch (private_key : bytes) (b : PsiDataBatch) : res (list bytes) :=
  blinded_items ← split_items (flatten_bytes b) GetEcPointLength;
  for_ (length blinded_items) (fun i items => x ← vget blinded_items i; e ← Evaluate private_key x; Ok (items ++ [e])) [].
Fixpoint recv_blind_send (private_key : bytes) (recv : list Buffer) (info : PeerCntInfo) (sent : list Buffer) : res (PeerCntInfo * list Buffer) :=
  match recv with
  | [] => Throw
  | buf :: recv =>
      let blinded_batch := proto_parse buf in
      if is_last_batch blinded_batch then Ok (info, sent ++ [proto_serialize (psi_batch true [] ∅)])
      else
        evaluated_items ← evaluate_batch private_key blinded_batch;
        let '(dups, total) := add_dups (duplicate_item_cnt blinded_batch) (peer_unique_cnt info) (peer_total_cnt info) (peer_dups info) in
        recv_blind_send private_key recv (mkPeerCnt total (u32 (peer_unique_cnt info + zlen evaluated_items)) dups)
          (sent ++ [proto_serialize (psi_batch false (concat evaluated_items) ∅)])
  end.
Definition RecvBlindAndSendEvaluate (private_key : bytes) (recv : list Buffer) : res (PeerCntInfo * list Buffer) :=
  '(info, sent) ← recv_blind_send private_key recv (mkPeerCnt 0 0 ∅) [];
  Ok (mkPeerCnt (u32 (peer_total_cnt info + peer_unique_cnt info)) (peer_unique_cnt info) (peer_dups info), sent).

Fixpoint recv_blind (private_key : bytes) (recv : list Buffer) (info : PeerCntInfo) (evaluated : list bytes) : res (PeerCntInfo * list bytes) :=
  match recv with
  | [] => Throw
  | buf :: recv =>
      let blinded_batch := proto_parse buf in
      if is_last_batch blinded_batch then Ok (info, evaluated)
      else
        batch_evaluated_items ← evaluate_batch private_key blinded_batch;
        let '(dups, total) := add_dups (duplicate_item_cnt blinded_batch) (peer_unique_cnt info) (peer_total_cnt info) (peer_dups info) in
        recv_blind private_key recv (mkPeerCnt total (u32 (peer_unique_cnt info + zlen batch_evaluated_items)) dups) (evaluated ++ batch_evaluated_items)
  end.
Fixpoint send_shuffled (fuel : nat) (batch_size : nat) (evaluated_items : list bytes) (shuffle_index : list Z) (index : nat) (sent : list Buffer) : res (list Buffer) :=
  if bool_decide (index < length evaluated_items)%nat then
    match fuel with
    | O => UB
    | S fuel' =>
        let limit := Nat.min (index + batch_size) (length evaluated_items) in
        batch ← for_ (limit - index) (fun i batch => k ← vget shuffle_index (index + i); x ← vgetz evaluated_items k; Ok (batch ++ [x])) [];
        send_shuffled fuel' batch_size evaluated_items shuffle_index (index + batch_size) (sent ++ [proto_serialize (psi_batch false (concat batch) ∅)])
    end
  else Ok sent.
Definition RecvBlindAndShuffleSendEvaluate (shuffle : list Z -> list Z) (batch_size : nat) (private_key : bytes) (recv : list Buffer) : res (PeerCntInfo * list Buffer) :=
  '(info, evaluated_items) ← recv_blind private_key recv (mkPeerCnt 0 0 ∅) [];
  let total := u32 (peer_total_cnt info + peer_unique_cnt info) in
  let shuffle_index := shuffle (tabulate (length evaluated_items) Z.of_nat) in
  let dups := loop (length shuffle_index) (fun i m => <[u32 (Z.of_nat i) := count (peer_dups info) (u32 (shuffle_index !!! i))]> m) ∅ in
  sent ← send_shuffled (length evaluated_items) batch_size evaluated_items shuffle_index 0 [];
  Ok (mkPeerCnt total (peer_unique_cnt info) dups, sent ++ [proto_serialize (psi_batch true [] ∅)]).

(** ** The client *)
Section recv_final.
Context {S : Type} `{IEcPointStore S}.
Fixpoint RecvFinalEvaluatedItems (recv : list Buffer) (peer_ec_point_store : S) : res S :=
  match recv with
  | [] => Throw
  | buf :: recv =>
      let masked_batch := proto_parse buf in
      if is_last_batch masked_batch then Ok peer_ec_point_store
      else
        evaluated_items ← split_items (flatten_bytes masked_batch) GetCompareLength;
        peer_ec_point_store ← Save_dup peer_ec_point_store evaluated_items (duplicate_item_cnt masked_batch);
        RecvFinalEvaluatedItems recv peer_ec_point_store
  end.

(** With [oprf_client_] null every item has an OPRF client of its own. *)
Context (oprf_client_ : option bytes) (new_client : nat -> nat -> bytes).
Definition clients_for (batch n : nat) : list bytes := tabulate n (fun idx => match oprf_client_ with Some c => c | None => new_client batch idx end).
Fixpoint SendBlindedItems {P} `{IBasicBatchProvider P} (fuel : nat) (batch_provider : P) (server_get_result : bool) (batch_count : nat)
    (items_count : Z) (queue : list (list bytes)) (sent : list Buffer) : res (Z * list (list bytes) * list Buffer) :=
  match fuel with
  | O => UB
  | Datatypes.S fuel' =>
      '(items, dup_cnt, batch_provider) ← ReadNextBatchWithDupCnt batch_provider;
      if bool_decide (items = []) then Ok (items_count, queue, sent ++ [proto_serialize (psi_batch true [] ∅)])
      else
        let oprf_clients := clients_for batch_count (length items) in
        blinded_items ← for_ (length items) (fun idx blinded => c ← vget oprf_clients idx; x ← vget items idx; b ← Blind c x; Ok (blinded ++ [b])) [];
        let queue := match oprf_client_ with None => queue ++ [oprf_clients] | Some _ => queue end in
        SendBlindedItems fuel' batch_provider server_get_result (Datatypes.S batch_count) (u64 (items_count + zlen items)) queue
          (sent ++ [proto_serialize (psi_batch false (concat blinded_items) (if server_get_result then dup_cnt else ∅))])
  end.
Fixpoint RecvEvaluatedItems (recv : list Buffer) (queue : list (list bytes)) (self_ec_point_store : S) : res S :=
  match recv with
  | [] => Throw
  | buf :: recv =>
      let masked_batch := proto_parse buf in
      if is_last_batch masked_batch then Ok self_ec_point_store
      else
        evaluate_items ← split_items (flatten_bytes masked_batch) GetEcPointLength;
        '(oprf_clients, queue) ← (match oprf_client_ with
          | None => match queue with [] => Throw | c :: queue => Ok (c, queue) end
          | Some c => Ok (replicate (length evaluate_items) c, queue) end);
        _ ← enforce (bool_decide (length oprf_clients = length evaluate_items));
        oprf_items ← for_ (length evaluate_items) (fun idx items => c ← vget oprf_clients idx; e ← vget evaluate_items idx; x ← Finalize c e; Ok (items ++ [x])) [];
        self_ec_point_store ← Save_dup self_ec_point_store oprf_items (duplicate_item_cnt masked_batch);
        RecvEvaluatedItems recv queue self_ec_point_store
  end.
End recv_final.

(** *** The other direction: the server compares *)
Section intersection_masked.
Context (Base64Unescape : bytes -> bytes).
Fixpoint SendIntersectionMaskedItems {P} (ReadNextBatch : P -> res (list bytes * P)) (fuel : nat) (batch_provider : P) (sent : list Buffer) : res (list Buffer) :=
  match fuel with
  | O => UB
  | S fuel' =>
      '(items, batch_provider) ← ReadNextBatch batch_provider;
      if bool_decide (items = []) then Ok (sent ++ [proto_serialize (psi_batch true [] ∅)])
      else SendIntersectionMaskedItems ReadNextBatch fuel' batch_provider (sent ++ [proto_serialize (psi_batch false (concat (map Base64Unescape items)) ∅)])
  end.
End intersection_masked.
Fixpoint recv_masked (recv : list Buffer) (client_masked_items : gset bytes) : res (gset bytes) :=
  match recv with
  | [] => Throw
  | buf :: recv =>
      let masked_batch := proto_parse buf in
      if is_last_batch masked_batch then Ok client_masked_items
      else
        items ← split_items (flatten_bytes masked_batch) GetCompareLength;
        recv_masked recv (client_masked_items ∪ list_to_set items)
  end.
(** The share of thread [idx]. *)
Definition compare_masked (client_masked_items : gset bytes) (sb : ShuffledBatch) (compare_size : Z) (idx : nat) : res (list Z) :=
  let begin := u64 (Z.of_nat idx * compare_size) in
  let end_ := Z.min (zlen (batch_items sb)) (u64 (begin + compare_size)) in
  for_ (Z.to_nat (end_ - begin)) (fun k found =>
    x ← vgetz (batch_items sb) (begin + Z.of_nat k);
    if decide (x ∈ client_masked_items) then row ← vgetz (shuffled_indices sb) (begin + Z.of_nat k); Ok (found ++ [row]) else Ok found) [].
Fixpoint find_masked {P} `{IShuffledBatchProvider P} (fuel compare_thread_num : nat) (client_masked_items : gset bytes) (cache_provider : P) (indices : list Z) (item_index : Z)
    : res (list Z * Z) :=
  match fuel with
  | O => UB
  | S fuel' =>
      '(sb, cache_provider) ← ReadNextShuffled cache_provider;
      if bool_decide (batch_items sb = []) then Ok (indices, item_index)
      else
        _ ← enforce (bool_decide (length (batch_items sb) = length (shuffled_indices sb)));
        _ ← defined (negb (bool_decide (compare_thread_num = 0)%nat));
        let compare_size := u64 (zlen (batch_items sb) + Z.of_nat compare_thread_num - 1) / Z.of_nat compare_thread_num in
        indices ← for_ compare_thread_num (fun idx indices => r ← compare_masked client_masked_items sb compare_size idx; Ok (indices ++ r)) indices;
        find_masked fuel' compare_thread_num client_masked_items cache_provider indices (u64 (item_index + zlen (batch_items sb)))
  end.
Definition RecvIntersectionMaskedItems {P} `{IShuffledBatchProvider P} (fuel compare_thread_num : nat) (recv : list Buffer) (cache_provider : P) : res (list Z * Z) :=
  client_masked_items ← recv_masked recv ∅;
  find_masked fuel compare_thread_num client_masked_items cache_provider [] 0.
End protocol.

(** ** server.cc, client.cc *)
Section parties.
Context `{BatchProto} `{IndexesProto} `{IEcdhOprf}.

(** What the index reader takes: rows with the extra counts of the peer. *)
Fixpoint TransCacheIndexesToRowIndexs (fuel : nat) (cache_provider : UbPsiCacheProvider) (shuffle_index_cnt_map : DupCnt) (row_indexes : list Z * list Z) : res (list Z * list Z) :=
  match fuel with
  | O => UB
  | S fuel' =>
      '(sb, cache_provider) ← CacheReadNextShuffled cache_provider;
      if bool_decide (batch_items sb = []) then Ok row_indexes
      else
        row_indexes ← for_ (length (batch_indices sb)) (fun i row_indexes =>
          k ← vget (batch_indices sb) i;
          match shuffle_index_cnt_map !! u32 k with
          | None => Ok row_indexes
          | Some cnt => row ← vget (shuffled_indices sb) i; Ok (row_indexes.1 ++ [u32 row], row_indexes.2 ++ [cnt])
          end) row_indexes;
        TransCacheIndexesToRowIndexs fuel' cache_provider shuffle_index_cnt_map row_indexes
  end.

Definition RecvCacheIndexes (recv : list IndexBuffer) : res (list Z * list Z) :=
  match recv with
  | cache_index :: client_index :: _ =>
      let cache_index := DeserializeIndexes cache_index in
      let client_index := DeserializeIndexes client_index in
      _ ← enforce (bool_decide (length client_index = length cache_index));
      Ok (cache_index, client_index)
  | _ => Throw
  end.
Definition SendServerCacheIndexes (peer_indexes self_indexes : list Z) : list IndexBuffer := [SerializeIndexes peer_indexes; SerializeIndexes self_indexes].

(** The server's cache file and the client's copy of it.  The server's provider
    reads at most [batch_size] items at a time. *)
Definition OfflineGenCache {P} `{IBasicBatchProvider P} (shuffle : nat -> list Z -> list Z) (fuel : nat) (batch_size : Z) (keys : list string) (private_key : bytes)
    (input : P) : res (option UbPsiCache) :=
  ub_cache ← UbPsiCache_new (Z.of_nat GetCompareLength) keys private_key;
  shuffle_batch_provider ← SimpleShuffledBatchProvider_new shuffle input batch_size;
  '(_, cache, _) ← FullEvaluate (H1 := SimpleShuffledBatchProvider_shuffled shuffle fuel) fuel private_key shuffle_batch_provider (Some ub_cache) false;
  Ok cache.
Definition GetCacheProvider (cache : UbPsiCache) (batch_size : Z) : res UbPsiCacheProvider :=
  UbPsiCacheProvider_new (Some (c_file cache)) (c_meta_file cache) batch_size.
Definition Server_OfflineTransferCache (fuel : nat) (cache : UbPsiCache) (batch_size : Z) : res (list Buffer) :=
  batch_provider ← GetCacheProvider cache batch_size;
  '(_, sent) ← SendFinalEvaluatedItems fuel batch_provider 0 [];
  Ok sent.
(** An old file is removed before. *)
Definition Client_OfflineTransferCache (uninit : UbPsiClientCacheFileStore -> bytes) (recv : list Buffer) : res UbPsiClientCacheFileStore :=
  store ← UbPsiClientCacheFileStore_new [] None (Z.of_nat GetCompareLength);
  store ← RecvFinalEvaluatedItems (H1 := UbPsiClientCacheFileStore_store uninit) recv store;
  Ok (FileFlush store).

(** Online: who learns the result. *)
Record UbPsiConfig := mkConfig { server_get_result : bool; client_get_result : bool }.
Definition Client_Online_send {P} `{IBasicBatchProvider P} (fuel : nat) (config : UbPsiConfig) (private_key : bytes) (batch_provider : P) : res (list Buffer) :=
  '(_, _, sent) ← SendBlindedItems (Some private_key) (fun _ _ => []) fuel batch_provider (server_get_result config) 0 0 [] [];
  Ok sent.
(** After the last message: the indices for the server, the reader's pairs. *)
Definition Client_Online_recv (std_sort : list (Z * Z) -> list (Z * Z)) (fuel compare_thread_num : nat) (batch_size : Z) (config : UbPsiConfig) (private_key : bytes)
    (peer_ec_point_store : UbPsiClientCacheFileStore) (recv : list Buffer) : res (list IndexBuffer * option MemoryIndexReader) :=
  self_ec_point_store ← RecvEvaluatedItems (Some private_key) recv [] UbPsiClientCacheMemoryStore_new;
  intersection_info ← ComputeIndicesWithDupCnt fuel compare_thread_num (Flush self_ec_point_store) peer_ec_point_store batch_size;
  let sent := if server_get_result config then SendServerCacheIndexes (peer_indices intersection_info) (self_indices intersection_info) else [] in
  reader ← (if client_get_result config
            then r ← MemoryIndexReader_new std_sort (self_indices intersection_info) (peer_dup_cnt intersection_info); Ok (Some r) else Ok None);
  Ok (sent, reader).
Definition Server_Online_evaluate (shuffle : list Z -> list Z) (batch_size : nat) (config : UbPsiConfig) (private_key : bytes) (recv : list Buffer) : res (PeerCntInfo * list Buffer) :=
  if client_get_result config then RecvBlindAndSendEvaluate private_key recv else RecvBlindAndShuffleSendEvaluate shuffle batch_size private_key recv.
Definition index_cnt_map (info : PeerCntInfo) (cache_index client_index : list Z) : res DupCnt :=
  for_ (length cache_index) (fun i m => k ← vget cache_index i; c ← vget client_index i; Ok (<[k := count (peer_dups info) c]> m)) ∅.
Definition Server_Online_result (std_sort : list (Z * Z) -> list (Z * Z)) (fuel : nat) (batch_size : Z) (config : UbPsiConfig) (cache : UbPsiCache) (info : PeerCntInfo)
    (recv : list IndexBuffer) : res (option MemoryIndexReader) :=
  if negb (server_get_result config) then Ok None
  else
    '(cache_index, client_index) ← RecvCacheIndexes recv;
    m ← index_cnt_map info cache_index client_index;
    provider ← GetCacheProvider cache batch_size;
    '(index, dups) ← TransCacheIndexesToRowIndexs fuel provider m ([], []);
    r ← MemoryIndexReader_new std_sort index dups;
    Ok (Some r).
End parties.
