(* ===== verification/UbPsiProofs.v ===== *)
(** * The unbalanced PSI: offline phase and messages

    What the cache holds, that the client's copy holds the same, and what the
    messages of the online phase carry. *)
From S2P Require Import Prelude EcdhPsi EcdhOprf EcStore UbPsiStore UbPsiCache UbPsi.

Definition val (m : res bytes) : bytes := match m with Ok b => b | _ => [] end.

(** ** The entries of the shuffling provider are the rows of the input, permuted *)
Definition rows_from (base : Z) (l : list (bytes * Z)) : list entry := imap (fun i x => mkEntry x.1 x.2 (base + Z.of_nat i)) l.
Lemma rows_from_app base a b : rows_from base (a ++ b) = rows_from base a ++ rows_from (base + zlen a) b.
Proof. unfold rows_from. rewrite imap_app. f_equal. apply imap_ext. intros i x _. unfold compose, zlen. f_equal. lia. Qed.
Section later.
Context (shuffle : nat -> list Z -> list Z) (Hsh : forall k l, Permutation (shuffle k l) l).
Lemma pending_perm base k b : Permutation (pending base (raw_of shuffle k b)) (rows_from base (with_counts b)).
Proof.
  unfold pending. cbn. unfold order. rewrite (Hsh k). apply reflexive_eq, list_eq. intros i. unfold rows_from, with_counts. rewrite list_lookup_imap, list_lookup_imap. unfold tabulate. rewrite map_map, lookup_map.
  destruct (b.1 !! i) as [x|] eqn:E; cbn.
  - pose proof (lookup_lt_Some _ _ _ E). rewrite lookup_seq_lt by done. cbn. unfold entry_at. rewrite Nat2Z.id. rewrite (list_lookup_total_correct _ _ _ E). unfold counts_of. by rewrite tabulate_lookup.
  - apply lookup_ge_None_1 in E. by rewrite lookup_seq_ge.
Qed.
Lemma later_perm k base bss : Permutation (later shuffle k base bss) (rows_from base (stream_items bss)).
Proof.
  revert k base. induction bss as [|b bss IH]; intros k base; [done|]. cbn [later]. unfold stream_items in *. cbn [map concat]. rewrite rows_from_app, pending_perm, IH.
  unfold zlen, with_counts. by rewrite length_imap.
Qed.
End later.
Lemma rows_from_elem base l e : e ∈ rows_from base l <-> exists i, l !! i = Some (e_item e, e_dup e) /\ e_row e = base + Z.of_nat i.
Proof.
  unfold rows_from. rewrite elem_of_lookup_imap. split.
  - intros (i & [x d] & -> & Hi). by exists i.
  - intros (i & Hi & Hr). exists i, (e_item e, e_dup e). split; [|done]. destruct e. cbn in *. by rewrite Hr.
Qed.

(** ** Pieces of a message *)
Lemma split_items_ok (items : list bytes) len : Forall (fun x => length x = len) items -> (0 < len)%nat -> split_items (concat items) len = Ok items.
Proof.
  intros HL Hlen. unfold split_items. rewrite (bool_decide_false (len = 0)%nat) by lia. cbn [negb]. run. rewrite (concat_uniform _ _ HL), Nat.Div0.mod_mul, bool_decide_true by done. run.
  rewrite Nat.div_mul by lia. rewrite (for_push (length items) _ (fun i => items !!! i)); [cbn; f_equal; symmetry; by apply eq_tabulate|].
  intros i Hi. destruct (concat_record items len i HL Hi) as (pre & post & E & Hp). unfold substr. rewrite E, <- Hp, bool_decide_true by (rewrite length_app; lia). rewrite drop_app_length.
  f_equal. apply take_app_length'. symmetry. apply (Forall_lookup_1 _ _ _ _ HL (list_lookup_lookup_total_lt items i Hi)).
Qed.
Lemma for_push_map (f : bytes -> res bytes) (g : bytes -> bytes) (l : list bytes) : (forall x, x ∈ l -> f x = Ok (g x)) ->
  for_ (length l) (fun i acc => x ← vget l i; y ← f x; Ok (acc ++ [y])) [] = Ok (map g l).
Proof.
  intros Hf. rewrite (for_ext _ _ (fun i acc => y ← (x ← vget l i; f x); Ok (acc ++ [y]))).
  - rewrite (for_push _ _ (fun i => g (l !!! i))); [cbn; f_equal; symmetry; apply eq_tabulate; [by rewrite length_map|]|].
    + intros i Hi. apply list_lookup_total_correct. rewrite lookup_map, list_lookup_lookup_total_lt by done. done.
    + intros i Hi. rewrite vget_total by done. run. apply Hf. eapply list_elem_of_lookup_2. by apply list_lookup_lookup_total_lt.
  - intros i acc Hi. rewrite !vget_total by done. done.
Qed.

(** ** Saving batches *)
Section file_store.
Context (uninit : UbPsiClientCacheFileStore -> bytes) (Hu : forall s, length (uninit s) = kMaxCipherSize).
#[local] Instance file_store : IEcPointStore UbPsiClientCacheFileStore := UbPsiClientCacheFileStore_store uninit.
Lemma file_Save_dup s l b : file_holds s l -> Forall (fun x => zlen x = cipher_len_ s) b.1 ->
  wp (Save_dup s b.1 b.2) (fun s' => file_holds s' (l ++ with_counts b) /\ cipher_len_ s' = cipher_len_ s).
Proof.
  intros Hs Hb. unfold Save_dup. eapply wp_mono; [apply (wp_for _ _ (fun i s' => file_holds s' (l ++ take i (with_counts b)) /\ cipher_len_ s' = cipher_len_ s) s (fun s' => file_holds s' (l ++ take (length b.1) (with_counts b)) /\ cipher_len_ s' = cipher_len_ s))|].
  - by rewrite take_0, app_nil_r.
  - intros i s' Hi [Hs' Hc]. rewrite vget_total by done. run. pose proof (list_lookup_lookup_total_lt _ _ Hi) as Hx.
    assert (with_counts b !! i = Some (b.1 !!! i, count b.2 (Z.of_nat i))) as Hw by (unfold with_counts; by rewrite list_lookup_imap, Hx). rewrite (take_S_r _ _ _ Hw), app_assoc.
    assert (zlen (b.1 !!! i) = cipher_len_ s') as Hl by (rewrite Hc; exact (Forall_lookup_1 _ _ _ _ Hb Hx)).
    assert (forall d, wp (FileSave (uninit s') s' (b.1 !!! i) d) (fun s2 => file_holds s2 ((l ++ take i (with_counts b)) ++ [(b.1 !!! i, d)]) /\ cipher_len_ s2 = cipher_len_ s)) as Hsave.
    { intros d. eapply wp_mono; [by apply FileSave_holds|]. intros s2 [? ?]. split; [done|congruence]. }
    unfold count. destruct (b.2 !! Z.of_nat i) as [d|]; cbn; apply Hsave.
  - done.
  - intros s' [Hs' Hc]. split; [|done]. rewrite take_ge in Hs' by (unfold with_counts; by rewrite length_imap). done.
Qed.
End file_store.

(** The store in memory after a list of distinct ciphertexts. *)
Definition mem_of (cts : list bytes) (s : UbPsiClientCacheMemoryStore) : Prop :=
  ub_item_cnt_ s = u32 (zlen cts) /\ forall ct ci, Find s ct = Some ci <-> exists i, cts !! i = Some ct /\ ci = mkCacheIndex (Z.of_nat i) 0.
Lemma mem_Save s cts ct : mem_of cts s -> ct ∉ cts -> zlen cts < 2 ^ 32 -> mem_of (cts ++ [ct]) (UbPsiClientCacheMemoryStore_Save s ct 0).
Proof.
  intros [Hn Hf] Hct Hl. unfold zlen in *. split.
  - cbn [ub_item_cnt_ UbPsiClientCacheMemoryStore_Save]. unfold zlen in *. rewrite Hn, length_app. unfold u32. rewrite wrap_add_l. f_equal. cbn. lia.
  - intros x ci. unfold Find in *. cbn. rewrite Hn, u32_small by lia. destruct (decide (x = ct)) as [->|Hne].
    + rewrite lookup_insert_eq. split.
      * intros [= <-]. exists (length cts). split; [by rewrite lookup_app_r, Nat.sub_diag by lia|done].
      * intros (i & Hi & ->). apply lookup_app_Some in Hi as [Hi|[Hi1 Hi2]]; [exfalso; apply Hct; by eapply list_elem_of_lookup_2|].
        destruct (i - length cts)%nat eqn:E; [|done]. do 2 f_equal. lia.
    + rewrite lookup_insert_ne by done. rewrite Hf. split.
      * intros (i & Hi & ->). exists i. split; [by apply lookup_app_l_Some|done].
      * intros (i & Hi & ->). exists i. split; [|done]. apply lookup_app_Some in Hi as [Hi|[Hi1 Hi2]]; [done|]. apply list_lookup_singleton_Some in Hi2 as [_ E2]. congruence.
Qed.
Lemma mem_Save_dup s cts b : mem_of cts s -> NoDup (cts ++ b) -> zlen (cts ++ b) < 2 ^ 32 -> wp (Save_dup s b ∅) (mem_of (cts ++ b)).
Proof.
  intros Hs Hnd Hl. unfold Save_dup. eapply wp_mono; [apply (wp_for _ _ (fun i s' => mem_of (cts ++ take i b) s') s (fun s' => mem_of (cts ++ take (length b) b) s'))|].
  - by rewrite take_0, app_nil_r.
  - intros i s' Hi Hs'. rewrite vget_total by done. run. rewrite lookup_empty. unfold Save_one. cbn. pose proof (list_lookup_lookup_total_lt _ _ Hi) as Hx. rewrite (take_S_r _ _ _ Hx), app_assoc.
    apply mem_Save; [done| |unfold zlen in *; rewrite length_app, length_take in *; lia].
    rewrite <- (take_drop_middle b i _ Hx), app_assoc in Hnd. apply NoDup_app in Hnd as (_ & Hd & _). intros Hin. apply (Hd _ Hin). by left.
  - done.
  - intros s' Hs'. by rewrite take_ge in Hs'.
Qed.

(** ** Offline *)
Section offline.
Context `{BatchProtoLaws} `{IEcdhOprf} (key_ok : bytes -> Prop) (item_ok : bytes -> Prop) (prf : bytes -> bytes -> bytes) `{!IEcdhOprfLaws key_ok item_ok prf}.
Context (s : bytes) (Hs : key_ok s).
Abbreviation clen := (Z.of_nat GetCompareLength).

Definition enc (e : entry) : entry := mkEntry (prf s (e_item e)) (e_dup e) (e_row e).
(** What an input entry has to be. *)
Definition input_ok (e : entry) : Prop := item_ok (e_item e) /\ 0 <= e_dup e < 2 ^ 32 /\ 0 <= e_row e < 2 ^ 32.
Lemma enc_ok e : input_ok e -> entry_ok clen (enc e).
Proof. intros (_ & Hd & Hr). split; [|done]. cbn. unfold zlen. by rewrite (prf_length (prf := prf)). Qed.

Lemma save_batch_ok c E0 b : cache_holds c E0 -> data_len_ c = clen -> Forall input_ok b -> zlen E0 + zlen b < 2 ^ 32 ->
  wp (save_batch (concat (map e_item (map enc b))) (sb_of (length E0) b) c) (fun c' => cache_holds c' (E0 ++ map enc b) /\ data_len_ c' = clen /\ c_meta_ c' = c_meta_ c).
Proof.
  intros Hc Hd Hb Hn. unfold save_batch. unfold zlen in Hn. assert (length (batch_items (sb_of (length E0) b)) = length b) as -> by (cbn; by rewrite length_map).
  eapply wp_mono; [apply (wp_for _ _ (fun i c' => cache_holds c' (E0 ++ take i (map enc b)) /\ data_len_ c' = clen /\ c_meta_ c' = c_meta_ c) c (fun c' => cache_holds c' (E0 ++ take (length b) (map enc b)) /\ data_len_ c' = clen /\ c_meta_ c' = c_meta_ c))|].
  - by rewrite take_0, app_nil_r.
  - intros i c' Hi (Hc' & Hd' & Hm'). pose proof (list_lookup_lookup_total_lt _ _ Hi) as Hx. pose proof (Forall_lookup_1 _ _ _ _ Hb Hx) as Hbx. cbn beta in Hbx.
    assert (map enc b !! i = Some (enc (b !!! i))) as He by (by rewrite lookup_map, Hx).
    assert (Forall (fun x => length x = GetCompareLength) (map e_item (map enc b))) as Hu.
    { apply Forall_lookup. intros j x Hj. rewrite !lookup_map in Hj. destruct (b !! j) as [e|]; [|done]. injection Hj as <-. cbn. apply (prf_length (prf := prf)). }
    destruct (concat_record _ _ i Hu) as (pre & post & Ec & Hp); [by rewrite !length_map|].
    assert (map e_item (map enc b) !!! i = e_item (enc (b !!! i))) as Ei by (apply list_lookup_total_correct; by rewrite lookup_map, He).
    rewrite Ei in Ec. unfold substr. rewrite Ec, <- Hp, bool_decide_true by (rewrite length_app; lia). run. rewrite drop_app_length, take_app_length' by (cbn; symmetry; apply (prf_length (prf := prf))).
    rewrite !vget_total by (cbn; rewrite ?length_tabulate, ?length_map; done). run. cbn [batch_indices shuffled_indices dup_cnts sb_of].
    rewrite tabulate_lookup by done. rewrite (list_lookup_total_correct (map e_row b) i (e_row (enc (b !!! i)))) by (by rewrite lookup_map, Hx).
    rewrite (list_lookup_total_correct (map e_dup b) i (e_dup (enc (b !!! i)))) by (by rewrite lookup_map, Hx).
    rewrite (take_S_r _ _ _ He), app_assoc. assert (length (E0 ++ take i (map enc b)) = length E0 + i)%nat as Hl by (rewrite length_app, length_take, length_map; lia).
    replace (Z.of_nat (length E0 + i)) with (zlen (E0 ++ take i (map enc b))) by (unfold zlen; by rewrite Hl).
    eapply wp_mono; [apply SaveData_holds; [done|rewrite Hd'; by apply enc_ok|unfold zlen; rewrite Hl; lia]|]. intros c2 (H2 & H3 & H4). split; [done|]. split; congruence.
  - done.
  - intros c' (Hc' & ? & ?). split; [|done]. by rewrite take_ge in Hc' by (by rewrite length_map).
Qed.

Lemma full_evaluate_ok {P} `{IShuffledBatchProvider P} (p : P) k bss fuel n c E0 : delivers_shuffled p k bss -> k = length E0 -> cache_holds c E0 -> data_len_ c = clen ->
  Forall input_ok (concat bss) -> zlen E0 + zlen (concat bss) < 2 ^ 32 -> (length bss < fuel)%nat ->
  wp (full_evaluate fuel s p false n (Some c) []) (fun '(_, c', sent) => sent = [] /\ exists c2, c' = Some c2 /\ cache_holds c2 (E0 ++ map enc (concat bss)) /\ data_len_ c2 = clen /\ c_meta_ c2 = c_meta_ c).
Proof.
  intros Hd. revert fuel n c E0. induction Hd as [p k p' Hr|p k b p' bss Hr Hne Hd IH]; intros fuel n c E0 -> Hc Hl Hok Hn Hf; (destruct fuel as [|fuel]; [lia|]); cbn [full_evaluate]; rewrite Hr; run.
  - split; [done|]. exists c. cbn. by rewrite app_nil_r.
  - rewrite bool_decide_false by (by destruct b). cbn [concat] in Hok, Hn. apply Forall_app in Hok as [Hb Hok]. unfold zlen in *. rewrite length_app in Hn.
    rewrite (for_push_map (SimpleEvaluate s) (prf s)).
    2: { intros x Hx. cbn in Hx. apply list_elem_of_fmap in Hx as (e & -> & He). apply (SimpleEvaluate_prf (key_ok := key_ok) (item_ok := item_ok)); [done|]. by apply (proj1 (Forall_forall _ _) Hb). }
    run. assert (map (prf s) (batch_items (sb_of (length E0) b)) = map e_item (map enc b)) as -> by (cbn; rewrite !map_map; done).
    apply wp_bind, wp_bind. eapply wp_mono; [apply save_batch_ok; [done|done|done|unfold zlen; lia]|]. intros c' (Hc' & Hl' & Hm'). run.
    eapply wp_mono; [apply (IH fuel _ c' (E0 ++ map enc b))|].
    + by rewrite length_app, length_map.
    + done.
    + done.
    + done.
    + rewrite length_app, length_map. lia.
    + cbn in Hf. lia.
    + intros [[? c2] sent] (-> & c3 & -> & Hc3 & Hl3 & Hm3). split; [done|]. exists c3. split; [done|]. cbn [concat]. rewrite map_app, app_assoc. split; [done|]. split; congruence.
Qed.

(** The messages of the transfer. *)
Definition batch_msg (b : list bytes * DupCnt) : Buffer := proto_serialize (psi_batch false (concat b.1) b.2).
Lemma parse_batch_msg b : proto_parse (batch_msg b) = psi_batch false (concat b.1) b.2.
Proof. apply batch_roundtrip. Qed.
Definition last_msg : Buffer := proto_serialize (psi_batch true [] ∅).
Lemma SendFinal_ok {P} `{IBasicBatchProvider P} (p q : P) bss fuel n sent : delivers p bss q -> (length bss < fuel)%nat ->
  wp (SendFinalEvaluatedItems fuel p n sent) (fun '(_, sent') => sent' = sent ++ map batch_msg bss ++ [last_msg]).
Proof.
  intros Hd. revert fuel n sent. induction Hd as [p d p' Hr|p b d p' bs q Hr Hne Hd IH]; intros fuel n sent Hf; (destruct fuel as [|fuel]; [lia|]); cbn [SendFinalEvaluatedItems]; rewrite Hr; run; [done|].
  rewrite bool_decide_false by done. eapply wp_mono; [apply IH; cbn in Hf; lia|]. intros [? sent'] ->. cbn [map app]. by rewrite <- app_assoc.
Qed.
Lemma RecvFinal_ok uninit bss st l : (forall s, length (uninit s) = kMaxCipherSize) -> file_holds st l -> cipher_len_ st = clen -> (0 < GetCompareLength)%nat ->
  Forall (fun b => Forall (fun x => length x = GetCompareLength) b.1) bss ->
  wp (RecvFinalEvaluatedItems (H1 := UbPsiClientCacheFileStore_store uninit) (map batch_msg bss ++ [last_msg]) st) (fun st' => file_holds st' (l ++ stream_items bss)).
Proof.
  intros Hu Hst Hc Hpos Hb. revert st l Hst Hc. induction Hb as [|b bss Hb Hbs IH]; intros st l Hst Hc; cbn [map app RecvFinalEvaluatedItems].
  - unfold last_msg. rewrite batch_roundtrip. cbn. unfold stream_items. cbn. by rewrite app_nil_r.
  - rewrite !parse_batch_msg. cbn [is_last_batch psi_batch flatten_bytes duplicate_item_cnt]. rewrite split_items_ok by done. run.
    apply wp_bind. eapply wp_mono; [apply (file_Save_dup uninit Hu st l b Hst)|].
    + eapply Forall_impl; [exact Hb|]. intros x Hx. cbn in *. unfold zlen. rewrite Hx. done.
    + intros st' [Hst' Hc']. eapply wp_mono; [apply (IH st' _ Hst'); congruence|]. intros st2 Hst2. unfold stream_items in *. cbn [map concat]. by rewrite app_assoc.
Qed.

(** A cache on disk. *)
Definition flushed (c : UbPsiCache) (E : list entry) : Prop := exists c0, c = CacheFlush c0 /\ cache_holds c0 E /\ data_len_ c0 = clen.
Lemma GetCacheProvider_ok c E (bs : nat) : flushed c E -> Forall (entry_ok clen) E -> clen < Z.of_nat kMaxCipherSize -> zlen E < 2 ^ 32 -> Z.of_nat bs < 2 ^ 32 ->
  exists m, GetCacheProvider c (Z.of_nat bs) = Ok (cache_provider E bs m 0) /\ (item_len m = clen /\ item_count m = zlen E) /\ priv_key m = priv_key (c_meta_ c).
Proof.
  intros (c0 & -> & [Hf Hn [Hl _]] & Hd) Hok Hcl HE Hbs. unfold GetCacheProvider, UbPsiCacheProvider_new, CacheFlush. cbn [c_file c_meta_file].
  rewrite Hf, Hn. pose proof (records_uniform clen E Hok ltac:(lia)) as Hu. assert (zlen (cache_file E) / Z.of_nat sizeof_UbPsiCacheItem = zlen E) as -> by (unfold cache_file, zlen; rewrite (concat_uniform _ _ Hu), length_imap, Nat2Z.inj_mul; by apply Z.div_mul).
  cbn [item_count]. rewrite (u32_small (zlen E)) by (unfold zlen in *; lia). rewrite (proj2 (Z.eqb_eq _ _)) by done. run. eexists. unfold cache_provider. rewrite (u32_small (Z.of_nat bs)) by lia. split; [done|]. cbn. split; [split; [congruence|done]|done].
Qed.

Lemma input_rows (l : list (bytes * Z)) : Forall (fun x => item_ok x.1 /\ 0 <= x.2 < 2 ^ 32) l -> zlen l < 2 ^ 32 -> Forall input_ok (rows_from 0 l).
Proof.
  intros Hl Hn. apply Forall_forall. intros e He. apply rows_from_elem in He as (i & Hi & Hr). pose proof (Forall_lookup_1 _ _ _ _ Hl Hi) as [? ?]. pose proof (lookup_lt_Some _ _ _ Hi). unfold zlen in *.
  split; [done|]. split; [done|]. rewrite Hr. lia.
Qed.
Lemma rows_length base l : length (rows_from base l) = length l.
Proof. apply length_imap. Qed.

Lemma OfflineGenCache_ok {P} `{IBasicBatchProvider P} (shuffle : nat -> list Z -> list Z) fuel (bs : nat) keys (p : P) bss :
  (forall k l, Permutation (shuffle k l) l) -> gives_again p bss -> (0 < bs)%nat -> clen < Z.of_nat kMaxCipherSize ->
  Forall (fun x => item_ok x.1 /\ 0 <= x.2 < 2 ^ 32) (stream_items bss) -> zlen (stream_items bss) < 2 ^ 32 -> (2 * length (stream_items bss) + 1 <= fuel)%nat ->
  wp (OfflineGenCache shuffle fuel (Z.of_nat bs) keys s p) (fun c => exists c2 E, c = Some c2 /\ Permutation E (rows_from 0 (stream_items bss)) /\ flushed c2 (map enc E) /\ priv_key (c_meta_ c2) = s).
Proof.
  intros Hsh Hg Hbs Hcl Hl Hn Hf. unfold OfflineGenCache. apply wp_bind. eapply wp_mono; [apply UbPsiCache_new_holds; lia|]. intros c (Hc & Hd & Hk).
  assert (length (concat bss.*1) = length (stream_items bss)) as Hlen.
  { clear. unfold stream_items. induction bss as [|b bss IH]; [done|]. cbn. rewrite !length_app, IH. unfold with_counts. by rewrite length_imap. }
  apply wp_bind. eapply wp_mono; [apply (SimpleShuffledBatchProvider_new_ok shuffle Hsh p bss (Z.of_nat bs) Hg); unfold zlen in *; lia|]. intros sp (Hsbs & Hap).
  set (E := later shuffle 0 0 bss) in *. assert (Permutation E (rows_from 0 (stream_items bss))) as HE by apply (later_perm shuffle Hsh). assert (length E = length (stream_items bss)) as HlE by (by rewrite HE, rows_length).
  destruct (Simple_delivers shuffle Hsh fuel sp 0 E bs) as (cs & Hdel & Hcc & Hcl2); [by left|done|done|unfold zlen in *; lia|lia|].
  apply wp_bind. unfold FullEvaluate. apply wp_bind. eapply wp_mono; [apply (full_evaluate_ok (H2 := SimpleShuffledBatchProvider_shuffled shuffle fuel) sp 0 cs fuel 0 c []); try done|].
  - rewrite Hcc, HE. by apply input_rows.
  - rewrite Hcc. unfold zlen in *. cbn. lia.
  - lia.
  - intros [[? ?] sent] (-> & c2 & -> & Hc2 & Hd2 & Hm2). run. exists (CacheFlush c2), E. rewrite Hcc in Hc2. split; [done|]. split; [done|]. split; [by exists c2|]. cbn. by rewrite Hm2.
Qed.

(** The client's copy. *)
Lemma OfflineTransfer_ok uninit fuel c E (bs : nat) : (forall s, length (uninit s) = kMaxCipherSize) -> flushed c E -> Forall (entry_ok clen) E -> 0 < clen < Z.of_nat kMaxCipherSize -> zlen E < 2 ^ 32 ->
  Z.of_nat bs < 2 ^ 32 -> (0 < bs)%nat -> (length E < fuel)%nat ->
  wp (sent ← Server_OfflineTransferCache fuel c (Z.of_nat bs); Client_OfflineTransferCache uninit sent) (fun st => file_holds st (map (fun e => (e_item e, e_dup e)) E)).
Proof.
  intros Hu Hc Hok Hcl HE Hbs Hbs2 Hf. destruct (GetCacheProvider_ok c E bs Hc Hok ltac:(lia) HE Hbs) as (m & Ep & Hm & _). unfold Server_OfflineTransferCache. rewrite Ep. run.
  destruct (cache_delivers_counts clen E bs Hok ltac:(lia) HE Hbs2 m Hm 0) as (bss & q & Hdel & Hst & Hl); [lia|]. rewrite drop_0 in Hst.
  apply wp_bind, wp_bind. eapply wp_mono; [apply (SendFinal_ok (cache_provider E bs m 0) q bss); [done|lia]|]. intros [? sent] ->. run. cbn [app].
  unfold Client_OfflineTransferCache. apply wp_bind. eapply wp_mono; [apply FileStore_new_holds; lia|]. intros st [Hst0 Hcs]. apply wp_bind.
  eapply wp_mono; [apply (RecvFinal_ok uninit bss st [] Hu Hst0 Hcs); [lia|]|].
  - assert (Forall (fun x => zlen x.1 = clen) (stream_items bss)) as Hu2.
    { rewrite Hst. apply Forall_lookup. intros i x Hi. rewrite lookup_map in Hi. destruct (E !! i) as [e|] eqn:He; [|done]. injection Hi as <-. apply (Forall_lookup_1 _ _ _ _ Hok He). }
    clear -Hu2. unfold stream_items in Hu2. induction bss as [|b bss IH]; [done|]. cbn in Hu2. apply Forall_app in Hu2 as [Hb Hbs]. constructor; [|by apply IH].
    apply Forall_lookup. intros i x Hi. assert (with_counts b !! i = Some (x, count b.2 (Z.of_nat i))) as Hw by (unfold with_counts; by rewrite list_lookup_imap, Hi).
    apply (Forall_lookup_1 _ _ _ _ Hb) in Hw. cbn in Hw. unfold zlen in Hw. lia.
  - intros st' Hst'. run. rewrite Hst in Hst'. destruct Hst' as ((rs & Hfr & Hrs) & Hi & Hc'). split; [|done]. exists rs. cbn. by rewrite app_nil_r.
Qed.
End offline.
