(* ===== verification/UbPsiOnline.v ===== *)
(** * The unbalanced PSI: online phase and the result

    Both modes of the online phase bring the client a ciphertext for each of its
    items, in an order the server knows; comparing them with the copy of the cache
    gives both parties what they are to learn. *)
From S2P Require Import Prelude EcdhPsi EcdhOprf EcStore UbPsiStore UbPsiCache UbPsi UbPsiProofs.

(** ** Extra counts *)
Definition counts_are (l : list (bytes * Z)) (m : DupCnt) : Prop := forall i, count m (Z.of_nat i) = default 0 (snd <$> l !! i).
Lemma add_dups_count dups unique total m k : NoDup (map_to_list dups).*1 -> (forall i, is_Some (dups !! i) -> 0 <= i /\ i + unique < 2 ^ 32) -> 0 <= unique ->
  count (add_dups dups unique total m).1 k = match dups !! (k - unique) with Some c => c | None => count m k end.
Proof.
  intros Hnd Hr Hu. unfold add_dups. rewrite <- (list_to_map_to_list dups) at 2. assert (Forall (fun x => 0 <= x.1 /\ x.1 + unique < 2 ^ 32) (map_to_list dups)) as Hk.
  { apply Forall_forall. intros [i c] Hi. apply elem_of_map_to_list in Hi. apply Hr. by eexists. }
  clear Hr. induction (map_to_list dups) as [|[i c] kvs IH]; [by rewrite list_to_map_nil, lookup_empty|]. apply Forall_cons in Hk as [Hi Hk]. cbn in Hnd, Hi. apply NoDup_cons in Hnd as [Hn Hnd]. specialize (IH Hnd Hk).
  cbn [foldr list_to_map fst snd]. destruct (foldr _ _ kvs) as [m' t']. cbn [fst] in *. rewrite u32_small by lia. unfold count. destruct (decide (k = i + unique)) as [->|Hne].
  - rewrite lookup_insert_eq. replace (i + unique - unique) with i by lia. cbn. by rewrite lookup_insert_eq.
  - rewrite lookup_insert_ne by done. fold (count m' k). rewrite IH. cbn. by rewrite lookup_insert_ne by lia.
Qed.
Lemma add_dups_counts l b total m : counts_are l m -> counts_fit b -> zlen l + zlen b.1 < 2 ^ 32 -> counts_are (l ++ with_counts b) (add_dups b.2 (zlen l) total m).1.
Proof.
  intros Hm Hf Hl i. unfold zlen in *. rewrite add_dups_count; [|apply NoDup_fst_map_to_list|intros k Hk; specialize (Hf k Hk); unfold zlen in *; lia|lia].
  destruct (decide (i < length l)%nat).
  - rewrite lookup_app_l by done. rewrite <- Hm. destruct (b.2 !! (Z.of_nat i - Z.of_nat (length l))) eqn:E; [|done]. specialize (Hf _ (mk_is_Some _ _ E)). lia.
  - rewrite lookup_app_r by lia. replace (Z.of_nat i - Z.of_nat (length l)) with (Z.of_nat (i - length l)) by lia. unfold with_counts. rewrite list_lookup_imap. specialize (Hm i). rewrite (lookup_ge_None_2 l) in Hm by lia.
    destruct (b.1 !! (i - length l)%nat) as [x|] eqn:E; cbn.
    + unfold count at 2. destruct (b.2 !! _); [done|]. rewrite Hm. done.
    + destruct (b.2 !! Z.of_nat (i - length l)) eqn:E2; [|done]. specialize (Hf _ (mk_is_Some _ _ E2)). apply lookup_ge_None_1 in E. unfold zlen in Hf. lia.
Qed.

Section online.
Context `{BatchProtoLaws} `{IEcdhOprf} (key_ok : bytes -> Prop) (item_ok : bytes -> Prop) (prf : bytes -> bytes -> bytes) `{!IEcdhOprfLaws key_ok item_ok prf}.
Context (r s : bytes) (Hr : key_ok r) (Hs : key_ok s).

(** What an item becomes on its way. *)
Definition bl (x : bytes) : bytes := val (Blind r x).
Definition ev (x : bytes) : bytes := val (Evaluate s (bl x)).
Lemma oprf_item x : item_ok x -> Blind r x = Ok (bl x) /\ length (bl x) = GetEcPointLength /\ Evaluate s (bl x) = Ok (ev x) /\ length (ev x) = GetEcPointLength /\ Finalize r (ev x) = Ok (prf s x).
Proof. intros Hx. destruct (oblivious (prf := prf) r s x Hr Hs Hx) as (b & e & E1 & L1 & E2 & L2 & E3). unfold ev, bl. rewrite E1. cbn. rewrite E2. done. Qed.
Lemma point_pos : (0 < GetEcPointLength)%nat.
Proof. apply (point_length_pos (prf := prf) (key_ok := key_ok) (item_ok := item_ok)). Qed.
Lemma map_length_all (f : bytes -> bytes) (l : list bytes) n : (forall x, x ∈ l -> length (f x) = n) -> Forall (fun x => length x = n) (map f l).
Proof. intros Hf. apply Forall_forall. intros y Hy. apply list_elem_of_fmap in Hy as (x & -> & Hx). by apply Hf. Qed.

Definition blind_msg (sg : bool) (b : list bytes * DupCnt) : Buffer := proto_serialize (psi_batch false (concat (map bl b.1)) (if sg then b.2 else ∅)).
Definition ev_msg (items : list bytes) : Buffer := proto_serialize (psi_batch false (concat (map ev items)) ∅).
Lemma parse_blind_msg sg b : proto_parse (blind_msg sg b) = psi_batch false (concat (map bl b.1)) (if sg then b.2 else ∅).
Proof. apply batch_roundtrip. Qed.
Lemma parse_ev_msg items : proto_parse (ev_msg items) = psi_batch false (concat (map ev items)) ∅.
Proof. apply batch_roundtrip. Qed.
Lemma parse_last_msg : proto_parse last_msg = psi_batch true [] ∅.
Proof. apply batch_roundtrip. Qed.
Definition items_ok (bss : list (list bytes * DupCnt)) : Prop := Forall (fun b => Forall item_ok b.1) bss.

Lemma SendBlindedItems_ok {P} `{IBasicBatchProvider P} (p q : P) bss fuel sg k n sent : delivers p bss q -> items_ok bss -> (length bss < fuel)%nat ->
  wp (SendBlindedItems (Some r) (fun _ _ => []) fuel p sg k n [] sent) (fun '(_, _, sent') => sent' = sent ++ map (blind_msg sg) bss ++ [last_msg]).
Proof.
  intros Hd. revert fuel k n sent. induction Hd as [p d p' E|p b d p' bs q E Hne Hd IH]; intros fuel k n sent Hok Hf; (destruct fuel as [|fuel]; [lia|]); cbn [SendBlindedItems]; rewrite E; run; [done|].
  rewrite bool_decide_false by done. apply Forall_cons in Hok as [Hb Hok]. cbn in Hb.
  rewrite (for_ext _ _ (fun i acc => x ← vget b i; y ← Blind r x; Ok (acc ++ [y]))).
  - rewrite (for_push_map (Blind r) bl) by (intros x Hx; by apply oprf_item, (proj1 (Forall_forall _ _) Hb)). run. eapply wp_mono; [apply IH; [done|cbn in Hf; lia]|]. intros [[? ?] sent'] ->. cbn [map app]. by rewrite <- app_assoc.
  - intros i acc Hi. unfold clients_for. rewrite (vget_total (tabulate _ _)) by (by rewrite length_tabulate). run. by rewrite tabulate_lookup.
Qed.

Lemma evaluate_batch_ok (sg : DupCnt) (b : list bytes * DupCnt) : Forall item_ok b.1 -> evaluate_batch s (psi_batch false (concat (map bl b.1)) sg) = Ok (map ev b.1).
Proof.
  intros Hb. unfold evaluate_batch. cbn [flatten_bytes psi_batch]. pose proof (proj1 (Forall_forall _ _) Hb) as Hb'.
  rewrite split_items_ok; [run|apply map_length_all; intros x Hx; by apply oprf_item, Hb'|apply point_pos]. rewrite (for_push_map (Evaluate s) (fun y => val (Evaluate s y))).
  - by rewrite map_map.
  - intros y Hy. apply list_elem_of_fmap in Hy as (x & -> & Hx). apply oprf_item. by apply Hb'.
Qed.

(** The server's account of the client's items. *)
Definition info_of (sg : bool) (l : list (bytes * Z)) (info : PeerCntInfo) : Prop := peer_unique_cnt info = zlen l /\ (sg = true -> counts_are l (peer_dups info)).
Lemma info_step sg l info b : info_of sg l info -> counts_fit b -> zlen l + zlen b.1 < 2 ^ 32 ->
  info_of sg (l ++ with_counts b) (let '(dups, total) := add_dups (if sg then b.2 else ∅) (peer_unique_cnt info) (peer_total_cnt info) (peer_dups info) in mkPeerCnt total (u32 (peer_unique_cnt info + zlen (map ev b.1))) dups).
Proof.
  intros [Hu Hc] Hf Hl. destruct (add_dups _ _ _ _) as [dups total] eqn:E. split; cbn [peer_unique_cnt peer_dups].
  - rewrite Hu. unfold zlen in *. rewrite length_map, length_app. unfold with_counts. rewrite length_imap, u32_small by lia. lia.
  - intros ->. specialize (Hc eq_refl). apply (f_equal fst) in E. cbn in E. rewrite <- E, Hu. by apply add_dups_counts.
Qed.
Lemma zlen_stream_cons b bss : zlen (stream_items (b :: bss)) = zlen b.1 + zlen (stream_items bss).
Proof. unfold stream_items, zlen. cbn [map concat]. rewrite length_app. unfold with_counts. rewrite length_imap. lia. Qed.
Lemma recv_blind_send_ok sg bss l info sent : info_of sg l info -> items_ok bss -> Forall counts_fit bss -> zlen l + zlen (stream_items bss) < 2 ^ 32 ->
  wp (recv_blind_send s (map (blind_msg sg) bss ++ [last_msg]) info sent) (fun '(info', sent') => sent' = sent ++ map ev_msg bss.*1 ++ [last_msg] /\ info_of sg (l ++ stream_items bss) info').
Proof.
  revert l info sent. induction bss as [|b bss IH]; intros l info sent Hi Hok Hf Hl; cbn [map app recv_blind_send].
  - rewrite parse_last_msg. cbn [is_last_batch psi_batch wp]. split; [done|]. unfold stream_items. cbn. by rewrite app_nil_r.
  - rewrite !parse_blind_msg. cbn [is_last_batch psi_batch duplicate_item_cnt]. apply Forall_cons in Hok as [Hb Hok], Hf as [Hfb Hf]. rewrite zlen_stream_cons in Hl. assert (0 <= zlen (stream_items bss)) by (unfold zlen; lia).
    rewrite evaluate_batch_ok by done. run. pose proof (info_step sg l info b Hi Hfb ltac:(lia)) as Hst. destruct (add_dups _ _ _ _) as [dups total]. eapply wp_mono; [apply (IH (l ++ with_counts b) _ _ Hst Hok Hf)|].
    + unfold zlen in *. rewrite length_app. unfold with_counts. rewrite length_imap. lia.
    + intros [info' sent'] (-> & Hi'). cbn [fmap list_fmap map app]. rewrite <- app_assoc. split; [done|]. unfold stream_items in *. cbn [map concat]. by rewrite app_assoc.
Qed.
Lemma recv_blind_ok sg bss l info acc : info_of sg l info -> items_ok bss -> Forall counts_fit bss -> zlen l + zlen (stream_items bss) < 2 ^ 32 ->
  wp (recv_blind s (map (blind_msg sg) bss ++ [last_msg]) info acc) (fun '(info', acc') => acc' = acc ++ map ev (concat bss.*1) /\ info_of sg (l ++ stream_items bss) info').
Proof.
  revert l info acc. induction bss as [|b bss IH]; intros l info acc Hi Hok Hf Hl; cbn [map app recv_blind].
  - rewrite parse_last_msg. cbn [is_last_batch psi_batch wp]. split; [by rewrite app_nil_r|]. unfold stream_items. cbn. by rewrite app_nil_r.
  - rewrite !parse_blind_msg. cbn [is_last_batch psi_batch duplicate_item_cnt]. apply Forall_cons in Hok as [Hb Hok], Hf as [Hfb Hf]. rewrite zlen_stream_cons in Hl. assert (0 <= zlen (stream_items bss)) by (unfold zlen; lia).
    rewrite evaluate_batch_ok by done. run. pose proof (info_step sg l info b Hi Hfb ltac:(lia)) as Hst. destruct (add_dups _ _ _ _) as [dups total]. eapply wp_mono; [apply (IH (l ++ with_counts b) _ _ Hst Hok Hf)|].
    + unfold zlen in *. rewrite length_app. unfold with_counts. rewrite length_imap. lia.
    + intros [info' acc'] (-> & Hi'). cbn [fmap list_fmap concat]. rewrite map_app, app_assoc. split; [done|]. unfold stream_items in *. cbn [map concat]. by rewrite app_assoc.
Qed.

(** The replies in another order, in batches. *)
Lemma send_shuffled_ok (items : list bytes) (order : list Z) bs fuel index sent : length order = length items -> Forall (fun j => 0 <= j < zlen items) order -> (0 < bs)%nat -> (length items - index <= fuel)%nat ->
  wp (send_shuffled fuel bs (map ev items) order index sent) (fun sent' => exists chunks, sent' = sent ++ map ev_msg chunks /\ concat chunks = map (fun j => items !!! Z.to_nat j) (drop index order)).
Proof.
  intros Hl Ho Hbs. revert index sent. induction fuel as [|fuel IH]; intros index sent Hf; cbn [send_shuffled]; rewrite length_map.
  { rewrite bool_decide_false by lia. exists []. rewrite app_nil_r, drop_ge by lia. done. }
  case_bool_decide as Hi; [|exists []; rewrite app_nil_r, drop_ge by lia; done].
  set (n := (Nat.min (index + bs) (length items) - index)%nat). set (chunk := map (fun j => items !!! Z.to_nat j) (take n (drop index order))).
  assert (length (take n (drop index order)) = n) as Hn by (rewrite length_take, length_drop; lia).
  rewrite (for_ext n _ (fun i batch => x ← (k ← vget order (index + i); vgetz (map ev items) k); Ok (batch ++ [x]))) by (intros i acc _; by destruct (vget order (index + i))).
  rewrite (for_push n _ (fun i => ev (chunk !!! i))).
  - run. rewrite app_nil_l. assert (tabulate n (fun i => ev (chunk !!! i)) = map ev chunk) as ->.
    { symmetry. apply eq_tabulate; [unfold chunk; by rewrite !length_map|]. intros i Hin. apply list_lookup_total_correct. rewrite lookup_map, list_lookup_lookup_total_lt; [done|]. unfold chunk. by rewrite length_map, Hn. }
    eapply wp_mono; [apply IH; lia|]. intros sent' (chunks & -> & Hc). exists (chunk :: chunks). split; [cbn [map]; by rewrite <- app_assoc|]. cbn [concat]. rewrite Hc. unfold chunk. rewrite <- map_app. f_equal.
    destruct (decide (index + bs <= length items)%nat).
    + replace (index + bs)%nat with (index + n)%nat by lia. by rewrite <- drop_drop, take_drop.
    + rewrite (drop_ge order (index + bs)), app_nil_r by lia. rewrite take_ge; [done|]. rewrite length_drop. lia.
  - intros i Hin. rewrite vget_total by lia. run. assert (order !! (index + i)%nat = Some (order !!! (index + i)%nat)) as Hlk by (apply list_lookup_lookup_total_lt; lia).
    pose proof (Forall_lookup_1 _ _ _ _ Ho Hlk) as Hrg. cbn in Hrg. unfold zlen in Hrg. rewrite vgetz_total by (rewrite length_map; lia). f_equal.
    apply list_lookup_total_correct. rewrite lookup_map. rewrite (list_lookup_lookup_total_lt items) by lia. cbn. do 2 f_equal. symmetry. apply list_lookup_total_correct. unfold chunk. rewrite lookup_map, lookup_take_lt, lookup_drop, Hlk by done. done.
Qed.

(** The client's ciphertexts. *)
Lemma RecvEvaluatedItems_ok chunks cts st : mem_of cts st -> Forall item_ok (concat chunks) -> NoDup (cts ++ map (prf s) (concat chunks)) -> zlen cts + zlen (concat chunks) < 2 ^ 32 ->
  wp (RecvEvaluatedItems (Some r) (map ev_msg chunks ++ [last_msg]) [] st) (mem_of (cts ++ map (prf s) (concat chunks))).
Proof.
  revert cts st. induction chunks as [|b chunks IH]; intros cts st Hm Hok Hnd Hl; cbn [map app RecvEvaluatedItems].
  - rewrite parse_last_msg. cbn. by rewrite app_nil_r.
  - rewrite !parse_ev_msg. cbn [is_last_batch psi_batch flatten_bytes duplicate_item_cnt]. cbn [concat] in *. apply Forall_app in Hok as [Hb Hok]. pose proof (proj1 (Forall_forall _ _) Hb) as Hb'. rewrite map_app, app_assoc in Hnd. unfold zlen in *. rewrite length_app in Hl.
    rewrite split_items_ok; [run|apply map_length_all; intros x Hx; by apply oprf_item, Hb'|apply point_pos]. rewrite length_replicate, bool_decide_true by done. run.
    rewrite (for_ext _ _ (fun i acc => x ← vget (map ev b) i; y ← Finalize r x; Ok (acc ++ [y]))) by (intros i acc Hi; rewrite (vget_total (replicate _ _)) by (by rewrite length_replicate); run; rewrite lookup_total_replicate_2 by done; done).
    rewrite (for_push_map (Finalize r) (fun y => val (Finalize r y))).
    2: { intros y Hy. apply list_elem_of_fmap in Hy as (x & -> & Hx). destruct (oprf_item x (Hb' x Hx)) as (_ & _ & _ & _ & ->). done. }
    run. assert (map (fun y => val (Finalize r y)) (map ev b) = map (prf s) b) as ->.
    { rewrite map_map. apply map_ext_in. intros x Hx. apply list_elem_of_In in Hx. destruct (oprf_item x (Hb' x Hx)) as (_ & _ & _ & _ & ->). done. }
    apply wp_bind. eapply wp_mono; [apply (mem_Save_dup st cts (map (prf s) b) Hm); [by apply NoDup_app in Hnd as (? & _)|unfold zlen; rewrite length_app, length_map; lia]|]. intros st' Hm'.
    eapply wp_mono; [apply (IH _ _ Hm' Hok Hnd); unfold zlen; rewrite length_app, length_map; lia|]. intros st2 Hm2. by rewrite map_app, app_assoc.
Qed.

(** Both modes. *)
Lemma Server_Online_evaluate_ok shuffle bs config bss : (forall l, Permutation (shuffle l) l) -> (0 < bs)%nat -> items_ok bss -> Forall counts_fit bss -> zlen (stream_items bss) < 2 ^ 32 ->
  wp (Server_Online_evaluate shuffle bs config s (map (blind_msg (server_get_result config)) bss ++ [last_msg])) (fun '(info, sent) => exists chunks D, sent = map ev_msg chunks ++ [last_msg] /\ concat chunks = map fst D /\
    Permutation D (stream_items bss) /\ (client_get_result config = true -> D = stream_items bss) /\ (server_get_result config = true -> counts_are D (peer_dups info))).
Proof.
  intros Hsh Hbs Hok Hf Hl. assert (info_of (server_get_result config) [] (mkPeerCnt 0 0 ∅)) as Hi0 by (split; [done|]; intros _ i; done).
  assert (concat bss.*1 = map fst (stream_items bss)) as Hfst.
  { clear. unfold stream_items. induction bss as [|b bss IH]; [done|]. cbn. rewrite map_app, <- IH. f_equal. apply list_eq. intros i. unfold with_counts. rewrite lookup_map, list_lookup_imap. by destruct (b.1 !! i). }
  unfold Server_Online_evaluate. destruct (client_get_result config).
  - unfold RecvBlindAndSendEvaluate. apply wp_bind. eapply wp_mono; [apply (recv_blind_send_ok (server_get_result config) bss []); done|]. intros [info sent] (-> & _ & Hc). run. exists bss.*1, (stream_items bss). split; [done|]. split; [done|]. done.
  - unfold RecvBlindAndShuffleSendEvaluate. apply wp_bind. eapply wp_mono; [apply (recv_blind_ok (server_get_result config) bss []); done|]. intros [info acc] (-> & _ & Hc). cbn [app] in *.
    set (items := concat bss.*1) in *. rewrite length_map. set (order := shuffle (tabulate (length items) Z.of_nat)). assert (Permutation order (tabulate (length items) Z.of_nat)) as Ho by apply Hsh.
    assert (length order = length items) as Hol by (rewrite Ho; apply length_tabulate). assert (Forall (fun j => 0 <= j < zlen items) order) as Hor.
    { rewrite Ho. apply Forall_tabulate. intros i Hi. unfold zlen. lia. }
    assert (length items = length (stream_items bss)) as Hil by (rewrite Hfst; apply length_map).
    apply wp_bind. eapply wp_mono; [apply (send_shuffled_ok items order bs); done || lia|]. intros sent (chunks & -> & Hch). run. rewrite drop_0 in Hch. set (D := map (fun j => stream_items bss !!! Z.to_nat j) order). exists chunks, D. split; [done|]. split; [|split; [|split; [done|]]].
    + rewrite Hch, Hfst. unfold D. rewrite map_map. apply map_ext_in. intros j Hj. apply list_elem_of_In in Hj. apply (proj1 (Forall_forall _ _) Hor) in Hj. unfold zlen in Hj.
      apply list_lookup_total_correct. rewrite lookup_map, list_lookup_lookup_total_lt by lia. done.
    + unfold D. rewrite Ho. unfold tabulate. rewrite map_map. apply reflexive_eq, list_eq. intros i. rewrite lookup_map, Hil. destruct (decide (i < length (stream_items bss))%nat) as [Hi|Hi].
      * rewrite lookup_seq_lt by done. cbn. rewrite Nat2Z.id. symmetry. by apply list_lookup_lookup_total_lt.
      * rewrite lookup_seq_ge, lookup_ge_None_2 by lia. done.
    + intros Hsg. specialize (Hc Hsg). cbn [peer_dups]. intros i. set (f := fun (i : nat) m => <[_ := _]> m).
      assert (forall n, (n <= length order)%nat -> count (loop n f ∅) (Z.of_nat i) = if bool_decide (i < n)%nat then count (peer_dups info) (order !!! i) else 0) as Hlp.
      { unfold zlen in *. induction n as [|n IH]; intros Hn; [done|]. rewrite loop_S. unfold f at 1. pose proof (Forall_lookup_1 _ _ _ _ Hor (list_lookup_lookup_total_lt order n ltac:(lia))) as Hj. cbn in Hj. rewrite (u32_small (Z.of_nat n)), (u32_small (order !!! n)) by lia.
        unfold count at 1. destruct (decide (i = n)) as [->|Hne]; [rewrite lookup_insert_eq, bool_decide_true by lia; done|]. rewrite lookup_insert_ne by lia. fold (count (loop n f ∅) (Z.of_nat i)). rewrite IH by lia. repeat case_bool_decide; lia. }
      rewrite Hlp by done. unfold D. rewrite lookup_map. case_bool_decide as Hi.
      * rewrite (list_lookup_lookup_total_lt order i Hi). cbn. pose proof (Forall_lookup_1 _ _ _ _ Hor (list_lookup_lookup_total_lt order i Hi)) as Hj. cbn in Hj. unfold zlen in Hj. rewrite <- (Z2Nat.id (order !!! i)) at 1 by lia. rewrite Hc.
        rewrite (list_lookup_lookup_total_lt (stream_items bss)) by lia. done.
      * by rewrite lookup_ge_None_2 by lia.
Qed.
End online.
