(* ===== verification/UbPsiRun.v ===== *)
(** * The unbalanced PSI: a whole run

    Offline and online together: each party that is to learn the result reads the
    rows of its common items with the extra counts of the peer. *)
From S2P Require Import Prelude EcdhPsi EcdhOprf EcStore UbPsiStore UbPsiCache UbPsi UbPsiProofs UbPsiOnline.

(** ** Matching *)
Lemma matches_elem self k l f : f ∈ matches self k l <-> exists j x ci, l !! j = Some x /\ Find self x.1 = Some ci /\ f = mkFound (ci_index ci) (k + Z.of_nat j) (ci_duplicate_cnt ci) x.2.
Proof.
  revert k. induction l as [|x l IH]; intros k; cbn [matches].
  - split; [by intros Hf; inversion Hf|]. by intros (j & y & ci & Hj & _).
  - rewrite elem_of_app, IH. unfold match_one. split.
    + intros [Hf|(j & y & ci & Hj & Hci & ->)].
      * destruct (Find self x.1) as [ci|] eqn:E; [|by inversion Hf]. apply list_elem_of_singleton in Hf as ->. exists 0%nat, x, ci. rewrite Z.add_0_r. done.
      * exists (S j), y, ci. split; [done|]. split; [done|]. f_equal. lia.
    + intros ([|j] & y & ci & Hj & Hci & ->); cbn in Hj.
      * injection Hj as ->. left. rewrite Hci, Z.add_0_r. by left.
      * right. exists j, y, ci. split; [done|]. split; [done|]. f_equal. lia.
Qed.
Lemma matches_NoDup self k l : NoDup (map f_peer_index (matches self k l)).
Proof.
  revert k. induction l as [|x l IH]; intros k; [constructor|]. cbn [matches]. rewrite map_app. apply NoDup_app. unfold match_one. split; [|split; [|apply IH]].
  - destruct (Find self x.1); cbn; [apply NoDup_singleton|constructor].
  - intros y Hy Hy'. apply list_elem_of_fmap in Hy' as (f & -> & Hf). apply matches_elem in Hf as (j & z & ci & _ & _ & ->). destruct (Find self x.1); cbn in Hy; [|by inversion Hy]. apply list_elem_of_singleton in Hy. lia.
Qed.

(** *** The server's rows *)
Fixpoint selected (M : DupCnt) (k : nat) (l : list entry) : list (Z * Z) :=
  match l with [] => [] | e :: l => match M !! Z.of_nat k with Some c => [(e_row e, c)] | None => [] end ++ selected M (S k) l end.
Lemma selected_app M k a b : selected M k (a ++ b) = selected M k a ++ selected M (k + length a) b.
Proof. revert k. induction a as [|e a IH]; intros k; cbn [app selected length]; [by rewrite Nat.add_0_r|]. rewrite IH, <- app_assoc. do 3 f_equal. lia. Qed.
Lemma selected_elem M k l i c : (i, c) ∈ selected M k l <-> exists j e, l !! j = Some e /\ M !! Z.of_nat (k + j) = Some c /\ i = e_row e.
Proof.
  revert k. induction l as [|e l IH]; intros k; cbn [selected].
  - split; [by intros Hf; inversion Hf|]. by intros (j & y & Hj & _).
  - rewrite elem_of_app, IH. split.
    + intros [Hf|(j & y & Hj & HM & ->)].
      * destruct (M !! Z.of_nat k) as [c'|] eqn:E; [|by inversion Hf]. apply list_elem_of_singleton in Hf as [= -> ->]. exists 0%nat, e. rewrite Nat.add_0_r. done.
      * exists (S j), y. split; [done|]. split; [|done]. by replace (k + S j)%nat with (S k + j)%nat by lia.
    + intros ([|j] & y & Hj & HM & ->); cbn in Hj.
      * injection Hj as ->. rewrite Nat.add_0_r in HM. left. rewrite HM. by left.
      * right. exists j, y. split; [done|]. split; [|done]. by replace (S k + j)%nat with (k + S j)%nat by lia.
Qed.
Lemma selected_NoDup M k l : NoDup (map e_row l) -> NoDup (selected M k l).
Proof.
  revert k. induction l as [|e l IH]; intros k Hnd; [constructor|]. cbn in Hnd. apply NoDup_cons in Hnd as [Hn Hnd]. cbn [selected]. apply NoDup_app. split; [|split; [|by apply IH]].
  - destruct (M !! Z.of_nat k); [apply NoDup_singleton|constructor].
  - intros [i c] Hy Hy'. apply selected_elem in Hy' as (j & e' & Hj & _ & ->). destruct (M !! Z.of_nat k); [|by inversion Hy]. apply list_elem_of_singleton in Hy as [= Hrow _]. apply Hn. rewrite <- Hrow. apply list_elem_of_fmap. exists e'. split; [done|]. by eapply list_elem_of_lookup_2.
Qed.

Lemma take_drop_take {A} n (l : list A) : take n l ++ drop (length (take n l)) l = l.
Proof. rewrite length_take. destruct (decide (n <= length l)%nat); [by rewrite Nat.min_l, take_drop by lia|]. rewrite Nat.min_r, drop_all, app_nil_r by lia. apply take_ge. lia. Qed.

Section trans.
Context (len : Z) (E : list entry) (bs : nat) (Hok : Forall (entry_ok len) E) (Hlen : 0 <= len < Z.of_nat kMaxCipherSize) (Hn : zlen E < 2 ^ 32) (Hbs : (0 < bs)%nat) (m : UBPsiCacheMeta) (Hm : item_len m = len /\ item_count m = zlen E).

Lemma TransCache_ok M fuel a (l : list (Z * Z)) : (a <= length E)%nat -> (length E - a < fuel)%nat ->
  TransCacheIndexesToRowIndexs fuel (cache_provider E bs m a) M (map fst l, map snd l) = Ok (map fst (l ++ selected M a (drop a E)), map snd (l ++ selected M a (drop a E))).
Proof.
  revert a l. induction fuel as [|fuel IH]; intros a l Ha Hf; [lia|]. cbn [TransCacheIndexesToRowIndexs]. rewrite (CacheReadNextShuffled_ok len E bs Hok Hlen Hn Hbs m Hm a Ha). run.
  destruct (decide (a = length E)) as [->|Hne]; [rewrite drop_all, take_nil; cbn; by rewrite app_nil_r|].
  set (b := take bs (drop a E)). assert (length b = Nat.min bs (length E - a)) as Hlb by (unfold b; rewrite length_take, length_drop; lia).
  rewrite bool_decide_false. 2: { intros E0. apply (f_equal length) in E0. cbn in E0. rewrite length_map in E0. cbn in E0. lia. }
  assert (length (batch_indices (sb_of a b)) = length b) as -> by (cbn; apply length_tabulate).
  apply wp_eq, wp_bind. eapply wp_mono; [apply (wp_for _ _ (fun i acc => acc = (map fst (l ++ selected M a (take i b)), map snd (l ++ selected M a (take i b)))) _ (fun acc => acc = (map fst (l ++ selected M a b), map snd (l ++ selected M a b))))|].
  - rewrite take_0. cbn. by rewrite app_nil_r.
  - intros i acc Hi ->. pose proof (list_lookup_lookup_total_lt _ _ Hi) as Hx. rewrite !vget_total by (cbn; rewrite ?length_tabulate, ?length_map; done). run. cbn [batch_indices shuffled_indices sb_of]. rewrite tabulate_lookup by done.
    rewrite (take_S_r _ _ _ Hx), selected_app, length_take, Nat.min_l by lia. cbn [selected]. unfold zlen in Hn. rewrite (u32_small (Z.of_nat (a + i))) by lia.
    destruct (M !! Z.of_nat (a + i)) as [c|]; [|cbn; by rewrite !app_nil_r].
    rewrite (list_lookup_total_correct (map e_row b) i (e_row (b !!! i))) by (by rewrite lookup_map, Hx). run. cbn [fst snd].
    assert (E !! (a + i)%nat = Some (b !!! i)) as HE. { rewrite <- Hx. unfold b. rewrite lookup_take_lt, lookup_drop by lia. done. }
    destruct (Forall_lookup_1 _ _ _ _ Hok HE) as (_ & _ & Hr). rewrite u32_small by lia. rewrite app_nil_r, app_assoc, !map_app. done.
  - intros acc ->. by rewrite firstn_all.
  - intros acc ->. rewrite IH by lia. cbn [wp]. rewrite <- !app_assoc. rewrite <- selected_app. unfold b. rewrite <- drop_drop.
    by rewrite take_drop_take.
Qed.
End trans.

Lemma MemoryIndexReader_new_ok std_sort (l : list (Z * Z)) : MemoryIndexReader_new std_sort (map fst l) (map snd l) = Ok (mkReader (std_sort l) 0).
Proof.
  unfold MemoryIndexReader_new, zlen. rewrite !length_map, Z.eqb_refl. run. apply wp_eq, wp_bind. apply (wp_for_fill (length l) _ (fun i => l !!! i)); [by rewrite length_replicate| |].
  - intros i st Hi Hst _. pose proof (list_lookup_lookup_total_lt _ _ Hi) as Hx. rewrite !vget_total by (by rewrite length_map). run.
    rewrite (list_lookup_total_correct (map fst l) i (l !!! i).1), (list_lookup_total_correct (map snd l) i (l !!! i).2) by (by rewrite lookup_map, Hx). rewrite length_replicate in Hst. rewrite vset_total by lia. by destruct (l !!! i).
  - intros st Hst H1 _. rewrite length_replicate in Hst. cbn [wp]. do 2 f_equal. apply list_eq_total; [lia|]. intros i Hi. apply H1. lia.
Qed.
Lemma index_cnt_map_ok info (l : list (Z * Z)) : NoDup l.*1 -> wp (index_cnt_map info (map fst l) (map snd l)) (fun m => forall k c, m !! k = Some c <-> exists i, (k, i) ∈ l /\ c = count (peer_dups info) i).
Proof.
  intros Hnd. unfold index_cnt_map. rewrite length_map.
  eapply wp_mono; [apply (wp_for _ _ (fun n m => forall k c, m !! k = Some c <-> exists i, (k, i) ∈ take n l /\ c = count (peer_dups info) i) _ (fun m => forall k c, m !! k = Some c <-> exists i, (k, i) ∈ take (length l) l /\ c = count (peer_dups info) i))|].
  - intros k c. rewrite lookup_empty, take_0. split; [done|]. intros (i & Hi & _). by inversion Hi.
  - intros n m Hi Hm. pose proof (list_lookup_lookup_total_lt _ _ Hi) as Hx. rewrite !vget_total by (by rewrite length_map). run.
    rewrite (list_lookup_total_correct (map fst l) n (l !!! n).1), (list_lookup_total_correct (map snd l) n (l !!! n).2) by (by rewrite lookup_map, Hx). rewrite (take_S_r _ _ _ Hx). destruct (l !!! n) as [k0 i0] eqn:E0. cbn [fst snd].
    assert (forall i, (k0, i) ∉ take n l) as Hnew.
    { intros i Hin. rewrite <- (take_drop_middle l n _ Hx), fmap_app in Hnd. apply NoDup_app in Hnd as (_ & Hd & _). apply (Hd k0); [apply list_elem_of_fmap; by exists (k0, i)|]. cbn. by left. }
    intros k c. setoid_rewrite elem_of_app. setoid_rewrite list_elem_of_singleton. destruct (decide (k = k0)) as [->|Hne].
    + rewrite lookup_insert_eq. split; [intros [= <-]; exists i0; split; [by right|done]|]. intros (i & [Hin|[= ->]] & ->); [by destruct (Hnew i)|done].
    + rewrite lookup_insert_ne, Hm by done. split; [intros (i & Hin & ->); exists i; split; [by left|done]|]. intros (i & [Hin|[= -> _]] & ->); [by exists i|done].
  - done.
  - intros m Hm. by rewrite firstn_all in Hm.
Qed.

(** ** A whole run *)
Section run.
Context `{BatchProto} `{IndexesProto} `{IEcdhOprf}.
(** Offline, then online; the server takes its key from the cache. *)
Definition ub_psi_run {P Q} `{IBasicBatchProvider P} `{IBasicBatchProvider Q} (shuffles : nat -> list Z -> list Z) (shuffle : list Z -> list Z) (std_sort : list (Z * Z) -> list (Z * Z))
    (uninit : UbPsiClientCacheFileStore -> bytes) (fuel compare_thread_num batch_size : nat) (config : UbPsiConfig) (keys : list string) (server_key client_key : bytes)
    (server_input : P) (client_input : Q) : res (option MemoryIndexReader * option MemoryIndexReader) :=
  cache ← OfflineGenCache shuffles fuel (Z.of_nat batch_size) keys server_key server_input;
  match cache with
  | None => Throw
  | Some cache =>
      peer_ec_point_store ← (transferred ← Server_OfflineTransferCache fuel cache (Z.of_nat batch_size); Client_OfflineTransferCache uninit transferred);
      provider ← GetCacheProvider cache (Z.of_nat batch_size);
      blinded ← Client_Online_send fuel config client_key client_input;
      '(info, evaluated) ← Server_Online_evaluate shuffle batch_size config (GetCachePrivateKey provider) blinded;
      '(indexes, client_reader) ← Client_Online_recv std_sort fuel compare_thread_num (Z.of_nat batch_size) config client_key peer_ec_point_store evaluated;
      server_reader ← Server_Online_result std_sort fuel (Z.of_nat batch_size) config cache info indexes;
      Ok (server_reader, client_reader)
  end.
End run.

(** What a reader holds when its party learns: its own rows that the peer has, once
    each, with the peer's extra counts. *)
Definition learns (learn : bool) (reader : option MemoryIndexReader) (mine peer : list (bytes * Z)) : Prop :=
  if learn then exists rd, reader = Some rd /\ reader_cnt_ rd = 0 /\ NoDup (reader_items_ rd) /\
    forall i d, (i, d) ∈ reader_items_ rd <-> exists k x own, mine !! k = Some (x, own) /\ i = Z.of_nat k /\ (x, d) ∈ peer
  else reader = None.

(** *** What matches *)
Section found.
Context (f : bytes -> bytes) (S C D : list (bytes * Z)) (E : list entry) (self : UbPsiClientCacheMemoryStore).
Context (HSd : Forall (fun x => 0 <= x.2 < 2 ^ 32) S) (HSn : zlen S < 2 ^ 32) (HCn : zlen C < 2 ^ 32) (HSk : NoDup S.*1) (HCk : NoDup C.*1).
Context (Hinj : forall x y, x ∈ S.*1 -> y ∈ C.*1 -> f x = f y -> x = y).
Context (HE : Permutation E (rows_from 0 S)) (HD : Permutation D C) (Hself : mem_of (map f D.*1) self).
Context (all : list Found) (Hall : Permutation all (matches self 0 (map (fun e => (f (e_item e), e_dup e)) E))).

Lemma entry_of e : e ∈ E <-> exists k, S !! k = Some (e_item e, e_dup e) /\ e_row e = Z.of_nat k.
Proof. clear -HE. rewrite HE, rows_from_elem. by setoid_rewrite Z.add_0_l. Qed.
Lemma entry_in e : e ∈ E -> (e_item e, e_dup e) ∈ S.
Proof. clear -HE. intros (k & Hk & _)%entry_of. by eapply list_elem_of_lookup_2. Qed.
Lemma ub_found_iff g : g ∈ all <-> exists i j x c e, D !! i = Some (x, c) /\ E !! j = Some e /\ e_item e = x /\ g = mkFound (Z.of_nat i) (Z.of_nat j) 0 (e_dup e).
Proof.
  clear -Hinj HE HD Hself Hall. rewrite Hall, matches_elem. destruct Hself as [_ Hfind]. split.
  - intros (j & y & ci & Hj & Hci & ->). rewrite lookup_map in Hj. destruct (E !! j) as [e|] eqn:He; [|done]. injection Hj as <-. cbn [fst snd] in *.
    apply Hfind in Hci as (i & Hi & ->). rewrite lookup_map, list_lookup_fmap in Hi. destruct (D !! i) as [[x c]|] eqn:Hd; [|done]. injection Hi as Hi. exists i, j, x, c, e. split; [done|]. split; [done|]. split; [|done].
    apply Hinj; [|rewrite <- HD; apply list_elem_of_fmap; exists (x, c); split; [done|by eapply list_elem_of_lookup_2]|done].
    apply list_elem_of_fmap. exists (e_item e, e_dup e). split; [done|]. apply entry_in. by eapply list_elem_of_lookup_2.
  - intros (i & j & x & c & e & Hi & Hj & <- & ->). exists j, (f (e_item e), e_dup e), (mkCacheIndex (Z.of_nat i) 0). rewrite lookup_map, Hj. split; [done|]. split; [|done].
    apply Hfind. exists i. split; [|done]. by rewrite lookup_map, list_lookup_fmap, Hi.
Qed.
Lemma found_small g : g ∈ all -> u32 (f_self_index g) = f_self_index g /\ u32 (f_peer_index g) = f_peer_index g /\ u32 (f_peer_dup g) = f_peer_dup g.
Proof.
  clear -HSd HSn HCn Hinj HE HD Hself Hall. intros (i & j & x & c & e & Hi & Hj & _ & ->)%ub_found_iff. apply lookup_lt_Some in Hi. pose proof (lookup_lt_Some _ _ _ Hj) as Hjl. rewrite HD in Hi. rewrite HE, rows_length in Hjl. cbn. unfold zlen in *.
  assert ((e_item e, e_dup e) ∈ S) as He by (apply entry_in; by eapply list_elem_of_lookup_2). apply (proj1 (Forall_forall _ _) HSd) in He. cbn in He. rewrite !u32_small by lia. done.
Qed.
Lemma found_NoDup : NoDup (map f_peer_index all).
Proof. clear -Hall. rewrite Hall. apply matches_NoDup. Qed.
Lemma entry_pos j j' e e' : E !! j = Some e -> E !! j' = Some e' -> e_item e = e_item e' -> j = j'.
Proof.
  clear -HSk HE. intros Hj Hj' Hx. assert (NoDup (map e_item E)) as Hnd.
  { rewrite HE. assert (map e_item (rows_from 0 S) = S.*1) as ->; [|done]. apply list_eq. intros i. unfold rows_from. rewrite lookup_map, list_lookup_imap, list_lookup_fmap. by destruct (S !! i). }
  apply (NoDup_lookup (map e_item E) j j' (e_item e)); [done| |]; rewrite lookup_map; [by rewrite Hj|by rewrite Hj', Hx].
Qed.

(** The client's pairs, when the order is its own. *)
Lemma client_pairs : D = C -> let l := map (fun g => (u32 (f_self_index g), u32 (f_peer_dup g))) all in
  NoDup l /\ forall i d, (i, d) ∈ l <-> exists k x own, C !! k = Some (x, own) /\ i = Z.of_nat k /\ (x, d) ∈ S.
Proof.
  intros HDC. split.
  - apply NoDup_fmap_2_strong; [|by apply (NoDup_fmap_1 f_peer_index), found_NoDup]. intros g g' Hg Hg' Heq. destruct (found_small g Hg) as (E1 & _ & E2), (found_small g' Hg') as (E1' & _ & E2'). rewrite E1, E2, E1', E2' in Heq.
    apply ub_found_iff in Hg as (i & j & x & c & e & Hi & Hj & Hx & ->), Hg' as (i' & j' & x' & c' & e' & Hi' & Hj' & Hx' & ->). cbn in Heq. injection Heq as Hii Hd. assert (i = i') as -> by lia.
    assert (x = x') as <- by congruence. rewrite (entry_pos j j' e e') by congruence. congruence.
  - intros i d. rewrite list_elem_of_fmap. split.
    + intros (g & [= -> ->] & Hg). destruct (found_small g Hg) as (-> & _ & ->). apply ub_found_iff in Hg as (i & j & x & c & e & Hi & Hj & <- & ->). exists i, (e_item e), c. subst C. split; [done|]. split; [done|]. apply entry_in. by eapply list_elem_of_lookup_2.
    + intros (k & x & own & Hk & -> & HxS). apply list_elem_of_lookup_1 in HxS as (n & Hn). assert (mkEntry x d (Z.of_nat n) ∈ E) as He by (apply entry_of; by exists n). apply list_elem_of_lookup_1 in He as (j & Hj).
      assert (mkFound (Z.of_nat k) (Z.of_nat j) 0 d ∈ all) as Hg by (apply ub_found_iff; exists k, j, x, own, (mkEntry x d (Z.of_nat n)); subst D; done).
      eexists. split; [|exact Hg]. by destruct (found_small _ Hg) as (-> & _ & ->).
Qed.
(** The server's pairs, from the indices the client sends. *)
Lemma server_pairs M : (forall k c, M !! k = Some c <-> exists i, (k, i) ∈ map (fun g => (u32 (f_peer_index g), u32 (f_self_index g))) all /\ exists n, i = Z.of_nat n /\ c = default 0 (snd <$> D !! n)) ->
  let l := selected M 0 (map (fun e => mkEntry (f (e_item e)) (e_dup e) (e_row e)) E) in
  NoDup l /\ forall i d, (i, d) ∈ l <-> exists k x own, S !! k = Some (x, own) /\ i = Z.of_nat k /\ (x, d) ∈ C.
Proof.
  intros HM. split.
  - apply selected_NoDup. rewrite map_map. cbn. assert (NoDup (map e_row (rows_from 0 S))) as Hnd; [|by rewrite <- HE in Hnd].
    assert (map e_row (rows_from 0 S) = tabulate (length S) Z.of_nat) as ->; [|unfold tabulate; apply (NoDup_fmap_2_strong Z.of_nat); [intros; lia|apply NoDup_seq]].
    apply eq_tabulate; [by rewrite length_map, rows_length|]. intros i Hi. apply list_lookup_total_correct. unfold rows_from. rewrite lookup_map, list_lookup_imap, list_lookup_lookup_total_lt by done. done.
  - intros i d. rewrite selected_elem. split.
    + intros (j & e' & Hj & Hm & ->). rewrite lookup_map in Hj. destruct (E !! j) as [e|] eqn:He; [|done]. injection Hj as <-. cbn [e_row]. apply HM in Hm as (i & Hi & n & -> & ->).
      apply list_elem_of_fmap in Hi as (g & [= E1 E2] & Hg). destruct (found_small g Hg) as (E3 & E4 & _). rewrite E4 in E1. rewrite E3 in E2. apply ub_found_iff in Hg as (i & j' & x & c & e' & Hi & Hj' & Hx & ->). cbn in E1, E2.
      assert (i = n) as -> by lia. assert (j' = j) as -> by lia. assert (e' = e) as -> by congruence. rewrite Hi. cbn. assert (e ∈ E) as Hin by (by eapply list_elem_of_lookup_2). apply entry_of in Hin as (k & Hk & ->).
      exists k, (e_item e), (e_dup e). split; [done|]. split; [done|]. rewrite <- HD, Hx. by eapply list_elem_of_lookup_2.
    + intros (k & x & own & Hk & -> & HxC). rewrite <- HD in HxC. apply list_elem_of_lookup_1 in HxC as (n & Hn). assert (mkEntry x own (Z.of_nat k) ∈ E) as He by (apply entry_of; by exists k). apply list_elem_of_lookup_1 in He as (j & Hj).
      exists j. eexists. rewrite lookup_map, Hj. split; [done|]. split; [|done]. apply HM. exists (Z.of_nat n). split; [|exists n; rewrite Hn; done].
      assert (mkFound (Z.of_nat n) (Z.of_nat j) 0 own ∈ all) as Hg by (apply ub_found_iff; by exists n, j, x, d, (mkEntry x own (Z.of_nat k))).
      apply list_elem_of_fmap. eexists. split; [|exact Hg]. by destruct (found_small _ Hg) as (-> & -> & _).
Qed.
End found.

(** ** The run *)
Section correct.
Context `{BatchProtoLaws} `{IndexesProtoLaws} `{IEcdhOprf} (key_ok : bytes -> Prop) (item_ok : bytes -> Prop) (prf : bytes -> bytes -> bytes) `{!IEcdhOprfLaws key_ok item_ok prf}.
Context (r s : bytes) (Hr : key_ok r) (Hs : key_ok s) (Hclen : (0 < GetCompareLength < kMaxCipherSize)%nat).
Context (std_sort : list (Z * Z) -> list (Z * Z)) (Hsort : forall l, Permutation (std_sort l) l).
Context (S C : list (bytes * Z)) (HSok : Forall (fun x => item_ok x.1 /\ 0 <= x.2 < 2 ^ 32) S) (HSn : zlen S < 2 ^ 32) (HCn : zlen C < 2 ^ 32) (HCok : Forall (fun x => item_ok x.1) C).
Context (HSk : NoDup S.*1) (HCk : NoDup C.*1) (Hinj : forall x y, x ∈ S.*1 ++ C.*1 -> y ∈ C.*1 -> prf s x = prf s y -> x = y).
Context (fuel T bs : nat) (config : UbPsiConfig) (HT : (0 < T)%nat) (HT31 : Z.of_nat T < 2 ^ 31) (Hbs : (0 < bs)%nat) (Hbs32 : Z.of_nat bs < 2 ^ 32) (Hfuel : (2 * length S + 1 <= fuel)%nat).
Abbreviation clen := (Z.of_nat GetCompareLength).

Lemma learns_of reader l mine peer : NoDup l -> (forall i d, (i, d) ∈ l <-> exists k x own, mine !! k = Some (x, own) /\ i = Z.of_nat k /\ (x, d) ∈ peer) ->
  reader = Some (mkReader (std_sort l) 0) -> learns true reader mine peer.
Proof.
  clear -Hsort. intros Hnd Hl ->. eexists. split; [done|]. split; [done|]. cbn. split; [by rewrite Hsort|]. intros i d. by rewrite Hsort.
Qed.

Context (E : list entry) (HE : Permutation E (rows_from 0 S)) (D : list (bytes * Z)) (HD : Permutation D C).
Definition server_items : list entry := map (fun e => mkEntry (prf s (e_item e)) (e_dup e) (e_row e)) E.
Lemma server_items_ok : Forall (entry_ok clen) server_items /\ zlen server_items < 2 ^ 32 /\ length server_items = length S.
Proof.
  assert (length server_items = length S) as Hl by (unfold server_items; by rewrite length_map, HE, rows_length). split; [|unfold zlen in *; rewrite Hl; done].
  assert (Forall (input_ok item_ok) E) as HEok by (rewrite HE; by apply input_rows). apply Forall_lookup. intros i x Hi. unfold server_items in Hi. rewrite lookup_map in Hi. destruct (E !! i) as [e|] eqn:He; [|done]. injection Hi as <-.
  apply (enc_ok key_ok item_ok prf s). by apply (Forall_lookup_1 _ _ _ _ HEok He).
Qed.

(** The indices the client sends. *)
Definition sent_indexes (all : list Found) : list IndexBuffer :=
  if server_get_result config then SendServerCacheIndexes (map (fun f => u32 (f_peer_index f)) all) (map (fun f => u32 (f_self_index f)) all) else [].
Lemma Client_Online_recv_ok store chunks : file_holds store (map (fun e => (e_item e, e_dup e)) server_items) -> concat chunks = map fst D -> (client_get_result config = true -> D = C) ->
  wp (Client_Online_recv std_sort fuel T (Z.of_nat bs) config r store (map (ev_msg r s) chunks ++ [last_msg])) (fun '(sent, reader) => exists self all,
    mem_of (map (prf s) D.*1) self /\ Permutation all (matches self 0 (map (fun e => (prf s (e_item e), e_dup e)) E)) /\ sent = sent_indexes all /\ learns (client_get_result config) reader C S).
Proof.
  intros Hst Hch HDC. destruct server_items_ok as (Hok & Hn & Hl). unfold Client_Online_recv. assert (concat chunks = D.*1) as Hch' by exact Hch.
  apply wp_bind. eapply wp_mono; [apply (RecvEvaluatedItems_ok key_ok item_ok prf r s Hr Hs chunks [])|].
  - split; [done|]. intros ct ci. unfold Find. cbn. rewrite lookup_empty. split; [done|]. by intros (i & Hi & _).
  - rewrite Hch', HD. apply Forall_fmap. exact HCok.
  - cbn [app]. rewrite Hch'. (* ciphertexts of distinct items *)
    apply NoDup_fmap_2_strong; [|by rewrite HD]. intros x y Hx Hy. rewrite HD in Hx, Hy. apply Hinj; [apply elem_of_app; by right|done].
  - unfold zlen in *. cbn. rewrite Hch', length_fmap, HD. lia.
  - cbn [app]. rewrite Hch'. intros self Hself.
    assert (Forall (fun x => 0 <= x.2 < 2 ^ 32) (map (fun e => (e_item e, e_dup e)) server_items)) as Hd2.
    { apply Forall_lookup. intros i x Hi. rewrite lookup_map in Hi. destruct (server_items !! i) as [e|] eqn:He; [|done]. injection Hi as <-. apply (Forall_lookup_1 _ _ _ _ Hok He). }
    apply wp_bind. eapply wp_mono; [apply (ComputeIndicesWithDupCnt_ok (Flush self) store _ (Z.of_nat bs) T fuel Hst ltac:(lia) HT HT31)|].
    + unfold zlen in *. rewrite length_map. done.
    + done.
    + rewrite length_map. lia.
    + intros info (all & Hall & Ei & Ep & _ & Ed). rewrite Ei, Ep, Ed. unfold server_items in Hall. rewrite map_map in Hall. cbn [e_item e_dup] in Hall.
      destruct (client_get_result config) eqn:Hcg.
      * set (l := map (fun g => (u32 (f_self_index g), u32 (f_peer_dup g))) all). assert (map (fun f => u32 (f_self_index f)) all = map fst l) as El by (unfold l; by rewrite map_map). assert (map (fun f => u32 (f_peer_dup f)) all = map snd l) as Er by (unfold l; by rewrite map_map).
        rewrite El at 1. rewrite Er, (MemoryIndexReader_new_ok std_sort l). cbn [wp]. exists self, all. split; [done|]. split; [done|]. split; [done|].
        destruct (client_pairs (prf s) S C D E self) with (all := all) as [Hnd Hl2]; try done; [by eapply Forall_impl; [exact HSok|]; intros ? [??]|intros; apply Hinj; [apply elem_of_app; by left|done|done]|by apply HDC|].
        by apply (learns_of _ l).
      * cbn [wp]. by exists self, all.
Qed.

(** What the server makes of them. *)
Lemma Server_Online_result_ok cache info self all : flushed cache server_items -> (server_get_result config = true -> counts_are D (peer_dups info)) ->
  mem_of (map (prf s) D.*1) self -> Permutation all (matches self 0 (map (fun e => (prf s (e_item e), e_dup e)) E)) ->
  wp (Server_Online_result std_sort fuel (Z.of_nat bs) config cache info (sent_indexes all)) (fun reader => learns (server_get_result config) reader S C).
Proof.
  intros Hc Hcnt Hself Hall. destruct server_items_ok as (Hok & Hn & Hl). unfold Server_Online_result, sent_indexes. destruct (server_get_result config); [|done]. specialize (Hcnt eq_refl). cbn [negb].
  unfold RecvCacheIndexes, SendServerCacheIndexes. rewrite !indexes_roundtrip, !length_map, bool_decide_true by done. run.
  set (l := map (fun g => (u32 (f_peer_index g), u32 (f_self_index g))) all). assert (map (fun f => u32 (f_peer_index f)) all = map fst l) as -> by (unfold l; by rewrite map_map). assert (map (fun f => u32 (f_self_index f)) all = map snd l) as -> by (unfold l; by rewrite map_map).
  assert (Forall (fun x => 0 <= x.2 < 2 ^ 32) S) as HSd by (eapply Forall_impl; [exact HSok|]; by intros ? [??]).
  assert (forall x y, x ∈ S.*1 -> y ∈ C.*1 -> prf s x = prf s y -> x = y) as Hinj' by (intros; apply Hinj; [apply elem_of_app; by left|done|done]).
  assert (forall g, g ∈ all -> u32 (f_peer_index g) = f_peer_index g) as Hsm by (intros g Hg; by apply (found_small (prf s) S C D E self HSd HSn HCn Hinj' HE HD Hself all Hall)).
  assert (NoDup l.*1) as Hnd.
  { assert (l.*1 = map f_peer_index all) as ->; [|by eapply found_NoDup]. unfold l. rewrite <- list_fmap_compose. apply list_fmap_ext. intros i g Hg. apply Hsm. by eapply list_elem_of_lookup_2. }
  apply wp_bind. eapply wp_mono; [by apply index_cnt_map_ok|]. intros M HM.
  destruct (GetCacheProvider_ok cache server_items bs Hc Hok) as (m & -> & Hm & _); [lia|done|done|]. run.
  pose proof (TransCache_ok clen server_items bs Hok ltac:(lia) Hn Hbs m Hm M fuel 0 [] ltac:(lia) ltac:(lia)) as Htr. cbn [map app] in Htr. rewrite Htr. run. rewrite drop_0, MemoryIndexReader_new_ok. cbn [wp].
  destruct (server_pairs (prf s) S C D E self) with (all := all) (M := M) as [Hnd2 Hl2]; try done.
  - intros k c. specialize (HM k c). cbn in HM. rewrite HM. fold l. split.
    + intros (i & Hi & ->). exists i. split; [done|]. apply list_elem_of_fmap in Hi as (g & [= _ Ei] & Hg). destruct (proj1 (ub_found_iff (prf s) S C D E self Hinj' HE HD Hself all Hall g) Hg) as (n & j & x & c & e & _ & _ & _ & Eg).
      exists n. destruct (found_small (prf s) S C D E self HSd HSn HCn Hinj' HE HD Hself all Hall g Hg) as (E1 & _). rewrite Ei, E1, Eg. cbn. split; [done|]. apply Hcnt.
    + intros (i & Hi & n & -> & ->). exists (Z.of_nat n). split; [done|]. symmetry. apply Hcnt.
  - by apply (learns_of _ (selected M 0 server_items)).
Qed.
End correct.

(** C9.  A whole run of the unbalanced PSI: for every way of shuffling and sorting,
    every batch size and number of threads, keys of the OPRF that can be taken away
    again, and distinct items that the PRF does not make collide, the run neither throws nor goes wrong, and whoever is to learn the
    result gets exactly the rows of its items that the other party has, each once,
    with the extra count the other party has for it; the other one gets nothing. *)
Theorem ub_psi_correct `{BatchProtoLaws} `{IndexesProtoLaws} `{IEcdhOprf} key_ok item_ok prf `{!IEcdhOprfLaws key_ok item_ok prf}
    {P Q} `{IBasicBatchProvider P} `{IBasicBatchProvider Q} shuffles shuffle std_sort uninit fuel T bs config keys s r (server_input : P) (client_input q : Q) sbss cbss :
  (forall k l, Permutation (shuffles k l) l) -> (forall l, Permutation (shuffle l) l) -> (forall l, Permutation (std_sort l) l) -> (forall st, length (uninit st) = kMaxCipherSize) ->
  key_ok s -> key_ok r -> (0 < GetCompareLength < kMaxCipherSize)%nat ->
  gives_again server_input sbss -> delivers client_input cbss q -> Forall counts_fit cbss ->
  Forall (fun x => item_ok x.1 /\ 0 <= x.2 < 2 ^ 32) (stream_items sbss) -> Forall (fun x => item_ok x.1) (stream_items cbss) ->
  zlen (stream_items sbss) < 2 ^ 32 -> zlen (stream_items cbss) < 2 ^ 32 -> NoDup (stream_items sbss).*1 -> NoDup (stream_items cbss).*1 ->
  (forall x y, x ∈ (stream_items sbss).*1 ++ (stream_items cbss).*1 -> y ∈ (stream_items cbss).*1 -> prf s x = prf s y -> x = y) ->
  (0 < T)%nat -> Z.of_nat T < 2 ^ 31 -> (0 < bs)%nat -> Z.of_nat bs < 2 ^ 32 -> (2 * length (stream_items sbss) + 1 <= fuel)%nat -> (length cbss < fuel)%nat ->
  wp (ub_psi_run shuffles shuffle std_sort uninit fuel T bs config keys s r server_input client_input) (fun '(server_reader, client_reader) =>
    learns (server_get_result config) server_reader (stream_items sbss) (stream_items cbss) /\ learns (client_get_result config) client_reader (stream_items cbss) (stream_items sbss)).
Proof.
  intros Hshs Hsh Hsort Hu Hs Hr Hclen Hgive Hdel Hfit HSok HCok HSn HCn HSk HCk Hinj HT HT31 Hbs Hbs32 Hf Hcf. set (S := stream_items sbss) in *. set (C := stream_items cbss) in *.
  assert (items_ok item_ok cbss) as Hio.
  { clear -HCok. unfold C, stream_items in HCok. induction cbss as [|b bss IH]; [constructor|]. cbn in HCok. apply Forall_app in HCok as [Hb Hbs]. constructor; [|by apply IH].
    apply Forall_lookup. intros i x Hi. assert (with_counts b !! i = Some (x, count b.2 (Z.of_nat i))) as Hw by (unfold with_counts; by rewrite list_lookup_imap, Hi). exact (Forall_lookup_1 _ _ _ _ Hb Hw). }
  assert (Z.of_nat GetCompareLength < Z.of_nat kMaxCipherSize) as Hcl by lia. unfold ub_psi_run. apply wp_bind. eapply wp_mono; [apply (OfflineGenCache_ok key_ok item_ok prf s Hs shuffles fuel bs keys server_input sbss Hshs Hgive Hbs Hcl HSok HSn Hf)|].
  intros ? (cache & E & -> & HE & Hc & Hkey). fold S in HE. destruct (server_items_ok key_ok item_ok prf s S HSok HSn E HE) as (Hok & Hn & Hl). change (map (enc prf s) E) with (server_items prf s E) in Hc.
  apply wp_bind. eapply wp_mono; [apply (OfflineTransfer_ok uninit fuel cache (server_items prf s E) bs Hu Hc Hok); lia|]. intros store Hst.
  destruct (GetCacheProvider_ok cache (server_items prf s E) bs Hc Hok) as (m & Ep & _ & Hpk); [lia|done|done|]. rewrite Ep. run. unfold GetCachePrivateKey, cache_provider. cbn [p_meta_]. rewrite Hpk, Hkey.
  apply wp_bind. unfold Client_Online_send. apply wp_bind. eapply wp_mono; [apply (SendBlindedItems_ok key_ok item_ok prf r s Hr Hs client_input q cbss fuel (server_get_result config) 0 0 [] Hdel Hio Hcf)|].
  intros [[? ?] sent] ->. run. cbn [app]. apply wp_bind.
  eapply wp_mono; [apply (Server_Online_evaluate_ok key_ok item_ok prf r s Hr Hs shuffle bs config cbss Hsh Hbs Hio Hfit HCn)|]. intros [info evaluated] (chunks & D & -> & Hch & HD & HDC & Hcnt).
  apply wp_bind. eapply wp_mono; [eapply (Client_Online_recv_ok key_ok item_ok prf r s Hr Hs Hclen std_sort Hsort S C HSok HSn HCn HCok HSk HCk Hinj fuel T bs config HT HT31 Hbs Hf E HE D HD store chunks Hst Hch HDC)|].
  intros [indexes client_reader] (self & all & Hself & Hall & -> & Hcr). apply wp_bind.
  eapply wp_mono; [eapply (Server_Online_result_ok key_ok item_ok prf s Hclen std_sort Hsort S C HSok HSn HCn Hinj fuel T bs config HT Hbs Hbs32 Hf E HE D HD cache info self all Hc Hcnt Hself Hall)|].
  intros server_reader Hsr. run. done.
Qed.

(** *** A toy curve: the additive group of the integers modulo 7 *)
Section toy.
#[local] Instance toy_openssl : OpenSsl := {|
  EC_POINT := Z; bn_p := 251; bn_n := 7;
  EC_POINT_set_compressed_coordinates x := if x mod 7 =? 0 then None else Some (x mod 7);
  EC_POINT_mul p a := (p * a) mod 7;
  EC_POINT_point2oct p := p :: replicate 32 0;
  EC_POINT_oct2point b := default 0 (b !! 0%nat);
  BN_mod_inverse a n := (a mod n) ^ 5 mod n;
  Sha256 b := take 1 b |}.
#[local] Instance toy_blake3 : Blake3Hash := {| Blake3 b := take 32 (b ++ replicate 32 0) |}.
#[local] Instance toy_blake3_laws : Blake3Laws.
Proof. split. intros b. change (length (take 32 (b ++ replicate 32 0)) = 32%nat). rewrite length_take, length_app, length_replicate. lia. Qed.
#[local] Instance toy_openssl_laws : OpenSslLaws (fun p : @EC_POINT toy_openssl => 0 < (p : Z) < 7).
Proof.
  assert (Z.prime 7) as Hp.
  { split; [lia|]. intros n Hn Hd. assert (n = 2 \/ n = 3 \/ n = 4 \/ n = 5 \/ n = 6) as [->|[->|[->|[->| ->]]]] by lia; destruct Hd; lia. }
  split; cbn.
  - done.
  - intros x p Hx. destruct (Z.eqb_spec (x mod 7) 0); [done|]. injection Hx as <-. pose proof (Z.mod_pos_bound x 7). lia.
  - intros p a b. rewrite Z.mul_mod_idemp_l, Z.mul_mod_idemp_r, Z.mul_assoc by lia. done.
  - intros p a Hpr Ha. pose proof (Z.mod_pos_bound (p * a) 7). assert ((p * a) mod 7 <> 0); [|lia]. apply nonzero_mul; [done| |done]. rewrite Z.mod_small by lia. lia.
  - done.
  - done.
  - intros a Ha. split; [pose proof (Z.mod_pos_bound ((a mod 7) ^ 5) 7); lia|]. rewrite <- Z.mul_mod_idemp_l by lia. pose proof (Z.mod_pos_bound a 7).
    assert (a mod 7 = 1 \/ a mod 7 = 2 \/ a mod 7 = 3 \/ a mod 7 = 4 \/ a mod 7 = 5 \/ a mod 7 = 6) as [->|[->|[->|[->|[->| ->]]]]] by lia; done.
Qed.
#[local] Instance toy_batches : BatchProto := {| Buffer := PsiDataBatch; proto_serialize b := b; proto_parse b := b |}.
#[local] Instance toy_batches_laws : BatchProtoLaws := {| batch_roundtrip b := eq_refl |}.
#[local] Instance toy_indexes : IndexesProto := {| IndexBuffer := list Z; SerializeIndexes l := l; DeserializeIndexes l := l |}.
#[local] Instance toy_indexes_laws : IndexesProtoLaws := {| indexes_roundtrip l := eq_refl |}.
#[local] Instance toy_provider : IBasicBatchProvider (list (list bytes * DupCnt)) := {| ReadNextBatchWithDupCnt p := match p with [] => Ok ([], ∅, []) | b :: p => Ok (b.1, b.2, p) end |}.
#[local] Instance toy_oprf : IEcdhOprf := basic_oprf 0.
#[local] Instance toy_oprf_laws : IEcdhOprfLaws basic_key_ok basic_item_ok (basic_prf 0).
Proof. apply (basic_oprf_laws (H := toy_openssl) (fun p : @EC_POINT toy_openssl => (0 < (p : Z) < 7))). unfold kEccKeySize. lia. Qed.

Definition toy_server : list (list bytes * DupCnt) := [([[1]; [2]], {[0 := 5]}); ([[4]], ∅)].
Definition toy_client : list (list bytes * DupCnt) := [([[3]; [4]], {[1 := 2]}); ([[1]], ∅)].
Definition toy_key (k : Z) : bytes := replicate 31 0 ++ [k].
Definition toy_run (config : UbPsiConfig) :=
  ub_psi_run (fun _ l => rev l) (@rev Z) (fun l => l) (fun _ => replicate 32 0) 8 2 2 config ["id"%string] (toy_key 3) (toy_key 5) toy_server toy_client.
(** Both learn; the server alone, whose rows come in the order of its cache. *)
Example toy_run_both : toy_run (mkConfig true true) = Ok (Some (mkReader [(0, 0); (2, 2)] 0), Some (mkReader [(1, 0); (2, 5)] 0)).
Proof. vm_compute. reflexivity. Qed.
Example toy_run_server : toy_run (mkConfig true false) = Ok (Some (mkReader [(0, 0); (2, 2)] 0), None).
Proof. vm_compute. reflexivity. Qed.

Lemma toy_server_gives : gives_again toy_server toy_server.
Proof.
  split; [|done]. eapply gives_more; [done|done| |eapply gives_more; [done|done| |by eapply gives_end]]; intros k; cbn [snd]; [rewrite lookup_singleton_is_Some|rewrite lookup_empty]; [intros <-; done|by intros [? ?]].
Qed.
Lemma toy_client_delivers : delivers toy_client toy_client [] /\ Forall counts_fit toy_client.
Proof.
  split; [eapply delivers_more; [done|done|]; eapply delivers_more; [done|done|]; by eapply delivers_end|].
  apply Forall_cons; split; [|apply Forall_cons; split; [|by apply Forall_nil]]; intros k; cbn [snd]; [rewrite lookup_singleton_is_Some|rewrite lookup_empty]; [intros <-; done|by intros [? ?]].
Qed.
Lemma toy_stream_lists : stream_items toy_server = [([1], 5); ([2], 0); ([4], 0)] /\ stream_items toy_client = [([3], 0); ([4], 2); ([1], 0)].
Proof. split; vm_compute; reflexivity. Qed.
Lemma toy_items_ok : Forall (fun x : bytes * Z => basic_item_ok x.1 /\ 0 <= x.2 < 2 ^ 32) (stream_items toy_server) /\ Forall (fun x : bytes * Z => basic_item_ok x.1) (stream_items toy_client).
Proof. destruct toy_stream_lists as [-> ->]. split; repeat (apply Forall_cons; split); try apply Forall_nil; try (split; [vm_compute; reflexivity|cbn; lia]); vm_compute; reflexivity. Qed.
Lemma toy_injective x y : x ∈ (stream_items toy_server).*1 ++ (stream_items toy_client).*1 -> y ∈ (stream_items toy_client).*1 -> basic_prf 0 (toy_key 3) x = basic_prf 0 (toy_key 3) y -> x = y.
Proof.
  destruct toy_stream_lists as [-> ->]. cbn [fmap list_fmap fst app]. rewrite !elem_of_cons. intros Hx Hy Heq. apply (f_equal (fun b => b !!! 0%nat)) in Heq. revert Heq.
  destruct Hx as [->|[->|[->|[->|[->|[->|Hx]]]]]]; [..|by inversion Hx]; (destruct Hy as [->|[->|[->|Hy]]]; [..|by inversion Hy]); try (intros _; reflexivity); vm_compute; discriminate.
Qed.
Lemma ub_psi_correct_witness : wp (toy_run (mkConfig true true)) (fun '(server_reader, client_reader) =>
  learns true server_reader (stream_items toy_server) (stream_items toy_client) /\ learns true client_reader (stream_items toy_client) (stream_items toy_server)).
Proof.
  apply (ub_psi_correct basic_key_ok basic_item_ok (basic_prf 0) (fun _ l => rev l) (@rev Z) (fun l => l) (fun _ => replicate 32 0) 8 2 2 (mkConfig true true) ["id"%string] (toy_key 3) (toy_key 5) toy_server toy_client [] toy_server toy_client).
  - intros _ l. symmetry. apply Permutation_rev.
  - intros l. symmetry. apply Permutation_rev.
  - done.
  - done.
  - split; [reflexivity|vm_compute; discriminate].
  - split; [reflexivity|vm_compute; discriminate].
  - change (0 < 12 < 32)%nat. lia.
  - exact toy_server_gives.
  - apply toy_client_delivers.
  - apply toy_client_delivers.
  - apply toy_items_ok.
  - apply toy_items_ok.
  - destruct toy_stream_lists as [-> _]. done.
  - destruct toy_stream_lists as [_ ->]. done.
  - destruct toy_stream_lists as [-> _]. by apply (bool_decide_unpack _).
  - destruct toy_stream_lists as [_ ->]. by apply (bool_decide_unpack _).
  - exact toy_injective.
  - lia.
  - lia.
  - lia.
  - lia.
  - destruct toy_stream_lists as [-> _]. change (2 * 3 + 1 <= 8)%nat. lia.
  - change (2 < 8)%nat. lia.
Defined.
End toy.
