(* ===== verification/Galois.v ===== *)
(** * The field GF(2^128) (psi/algorithm/rr22/okvs/galois128)

    A [Galois128] is a 128-bit word, the polynomial of its bits modulo
    [x^128 + x^7 + x^2 + x + 1]; the two members of its variant hold the same
    word.  [Mul] has two bodies, chosen by the CPU: shift-and-add
    ([cc_gf128Mul]) and carry-less multiplication ([mm_gf128Mul],
    [mm_gf128Reduce]), proved equal through the product of polynomials [clmul]
    and its residue [pmod].  [Inv] never fails on a non-zero element: the ring is
    a field because its Frobenius map has order 128 and fixes only 0 and 1. *)
From S2P Require Import Prelude.

(** ** Carry-less product *)
Fixpoint clmul_pos (a : Z) (b : positive) : Z :=
  match b with
  | xH => a
  | xO b' => 2 * clmul_pos a b'
  | xI b' => Z.lxor a (2 * clmul_pos a b')
  end.
Definition clmul (a b : Z) : Z := match b with Zpos p => clmul_pos a p | _ => 0 end.

(** ** galois128.cc *)
(** The element of a high and a low word: both members of the variant hold the
    128-bit integer [yacl::MakeUint128] builds from them. *)
Definition Galois128_words (high low : Z) : Z := Z.lor (Z.shiftl high 64) low.

Definition cc_gf128Mul (a b : Z) : Z :=
  let mask1 := Galois128_words 0 1 in
  let mask127 := Galois128_words 0x8000000000000000 0 in
  let r := Galois128_words 0 0x87 in
  (loop 128 (fun i '(z, v) =>
    (if negb (Z.land (Z.shiftr b (Z.of_nat i)) mask1 =? 0) then Z.lxor z v else z,
     if negb (Z.land v mask127 =? 0) then Z.lxor (u128 (Z.shiftl v 1)) r else u128 (Z.shiftl v 1)))
    (Galois128_words 0 0, a)).1.

(** The SSE intrinsics: [_mm_clmulepi64_si128] multiplies the words its
    immediate selects, the byte shifts move a whole register by words. *)
Definition mm_clmulepi64 (x y : Z) (xhigh yhigh : bool) : Z :=
  clmul (if xhigh then Z.shiftr x 64 else u64 x) (if yhigh then Z.shiftr y 64 else u64 y).
Definition mm_slli8 (x : Z) : Z := u128 (Z.shiftl x 64).
Definition mm_srli8 (x : Z) : Z := Z.shiftr x 64.

Definition mm_gf128Mul (x y : Z) : Z * Z :=
  let t1 := mm_clmulepi64 x y false false in
  let t2 := mm_clmulepi64 x y false true in
  let t3 := mm_clmulepi64 x y true false in
  let t4 := mm_clmulepi64 x y true true in
  let t2 := Z.lxor t2 t3 in
  let t3 := mm_slli8 t2 in
  let t2 := mm_srli8 t2 in
  let t1 := Z.lxor t1 t3 in
  let t4 := Z.lxor t4 t2 in
  (t1, t4).

Definition mm_gf128Reduce (x x1 : Z) : Z :=
  let modulus := 135 in
  let tmp := mm_clmulepi64 x1 modulus true false in
  let mul256_low := Z.lxor x (mm_slli8 tmp) in
  let mul256_high := Z.lxor x1 (mm_srli8 tmp) in
  let tmp := mm_clmulepi64 mul256_high modulus false false in
  Z.lxor mul256_low tmp.

Definition Mul (hasAVX2 : bool) (a b : Z) : Z :=
  if hasAVX2 then let '(xy1, xy2) := mm_gf128Mul a b in mm_gf128Reduce xy1 xy2
  else cc_gf128Mul a b.

(** [while (i)]: a 64-bit exponent is zero after 64 shifts. *)
Fixpoint pow_loop (avx : bool) (fuel : nat) (i pow2 s : Z) : Z :=
  if i =? 0 then s
  else match fuel with
       | O => s
       | S fuel' =>
           let s := if negb (Z.land i 1 =? 0) then Mul avx s pow2 else s in
           pow_loop avx fuel' (Z.shiftr i 1) (Mul avx pow2 pow2) s
       end.
Definition Pow (avx : bool) (x i : Z) : Z :=
  if x =? 0 then Galois128_words 0 0 else pow_loop avx 64 i x (Galois128_words 0 1).

(** A round of the addition chain, the body of its outer loop. *)
Definition inv_round (avx : bool) (i : nat) (s : Z * Z) : Z * Z :=
  let '(a, result) := s in
  let b := loop (2 ^ i) (fun _ b => Mul avx b b) a in
  let a := Mul avx a b in
  (a, if bool_decide (i = 0%nat) then b else Mul avx result b).
Definition Inv (avx : bool) (x : Z) : res Z :=
  let '(_, result) := loop 7 (inv_round avx) (x, Galois128_words 0 0) in
  _ ← enforce (Mul avx x result =? Galois128_words 0 1);
  Ok result.

(** ** The ring of polynomials over two elements *)
Lemma zbin_ind (P : Z -> Prop) :
  P 0 -> (forall n, 0 <= n -> P n -> P (2 * n)) -> (forall n, 0 <= n -> P n -> P (2 * n + 1)) ->
  forall n, 0 <= n -> P n.
Proof.
  intros H0 He Ho n Hn. destruct n as [|p|p]; [done| |lia]. clear Hn. induction p as [p IH|p IH|].
  - change (Zpos p~1) with (2 * Zpos p + 1). apply Ho; [lia|done].
  - change (Zpos p~0) with (2 * Zpos p). apply He; [lia|done].
  - apply (Ho 0); [lia|done].
Qed.

Lemma double_lxor a b : 2 * Z.lxor a b = Z.lxor (2 * a) (2 * b).
Proof. rewrite !(Z.mul_comm 2), <- !(Z.shiftl_mul_pow2 _ 1) by lia. apply Z.shiftl_lxor. Qed.

Lemma odd_lxor n : 0 <= n -> 2 * n + 1 = Z.lxor 1 (2 * n).
Proof. intros. destruct n; try lia; done. Qed.

Lemma lxor_range a b n : 0 <= n -> 0 <= a < 2 ^ n -> 0 <= b < 2 ^ n -> 0 <= Z.lxor a b < 2 ^ n.
Proof.
  intros Hn Ha Hb. assert (0 <= Z.lxor a b) by (apply Z.lxor_nonneg; lia). split; [done|].
  replace (Z.lxor a b) with (Z.lxor a b mod 2 ^ n); [apply Z.mod_pos_bound; lia|].
  rewrite <- Z.land_ones by done. apply Z.bits_inj'. intros i Hi. rewrite Z.land_spec.
  destruct (decide (i < n)).
  - rewrite Z.ones_spec_low by lia. by rewrite andb_true_r.
  - by rewrite Z.lxor_spec, !(testbit_high _ n) by lia.
Qed.

Lemma lxor_cancel a b : Z.lxor a (Z.lxor a b) = b.
Proof. by rewrite <- Z.lxor_assoc, Z.lxor_nilpotent, Z.lxor_0_l. Qed.

Lemma clmul_0_r a : clmul a 0 = 0.
Proof. done. Qed.
Lemma clmul_1_r a : clmul a 1 = a.
Proof. done. Qed.
Lemma clmul_even a b : 0 <= b -> clmul a (2 * b) = 2 * clmul a b.
Proof. intros. destruct b; [done|done|lia]. Qed.
Lemma clmul_odd a b : 0 <= b -> clmul a (2 * b + 1) = Z.lxor a (2 * clmul a b).
Proof. intros. destruct b as [|p|p]; [cbn; by rewrite Z.lxor_0_r|done|lia]. Qed.

Lemma clmul_lxor_l a a' b : 0 <= b -> clmul (Z.lxor a a') b = Z.lxor (clmul a b) (clmul a' b).
Proof.
  revert b. apply zbin_ind; [done| |]; intros b Hb IH.
  - by rewrite !clmul_even, IH, double_lxor by done.
  - rewrite !clmul_odd, IH, double_lxor by done. rewrite !Z.lxor_assoc. f_equal.
    rewrite <- !Z.lxor_assoc. f_equal. apply Z.lxor_comm.
Qed.

Lemma clmul_double_l a b : 0 <= b -> clmul (2 * a) b = 2 * clmul a b.
Proof.
  revert b. apply zbin_ind; [done| |]; intros b Hb IH.
  - by rewrite !clmul_even, IH by done.
  - by rewrite !clmul_odd, IH, double_lxor by done.
Qed.

Lemma clmul_0_l b : 0 <= b -> clmul 0 b = 0.
Proof. revert b. apply zbin_ind; [done| |]; intros b Hb IH; [by rewrite clmul_even, IH|by rewrite clmul_odd, IH]. Qed.
Lemma clmul_1_l b : 0 <= b -> clmul 1 b = b.
Proof.
  revert b. apply zbin_ind; [done| |]; intros b Hb IH.
  - by rewrite clmul_even, IH.
  - rewrite clmul_odd, IH by done. by rewrite odd_lxor.
Qed.

Lemma clmul_nonneg a b : 0 <= a -> 0 <= b -> 0 <= clmul a b.
Proof.
  intros Ha. revert b. apply zbin_ind; [done| |]; intros b Hb IH.
  - rewrite clmul_even by done. lia.
  - rewrite clmul_odd by done. apply Z.lxor_nonneg. lia.
Qed.

Lemma clmul_comm a b : 0 <= a -> 0 <= b -> clmul a b = clmul b a.
Proof.
  intros Ha Hb. revert a Ha. apply zbin_ind; [by rewrite clmul_0_l|intros a Ha IH..].
  - by rewrite clmul_double_l, clmul_even, IH.
  - by rewrite odd_lxor, clmul_lxor_l, clmul_1_l, clmul_double_l, <- odd_lxor, clmul_odd, IH.
Qed.

Lemma clmul_lxor_r a b b' : 0 <= a -> 0 <= b -> 0 <= b' -> clmul a (Z.lxor b b') = Z.lxor (clmul a b) (clmul a b').
Proof.
  intros. rewrite clmul_comm, clmul_lxor_l, !(clmul_comm a) by (try apply Z.lxor_nonneg; lia). done.
Qed.

Lemma clmul_assoc a b c : 0 <= a -> 0 <= b -> 0 <= c -> clmul (clmul a b) c = clmul a (clmul b c).
Proof.
  intros Ha Hb. revert c. apply zbin_ind; [done| |]; intros c Hc IH; pose proof (clmul_nonneg b c Hb Hc).
  - by rewrite !clmul_even, IH by done.
  - rewrite !clmul_odd, clmul_lxor_r, clmul_even, IH by lia. done.
Qed.

Lemma clmul_range a b m n : 0 <= m -> 0 <= n -> 0 <= a < 2 ^ m -> 0 <= b < 2 ^ n -> 0 <= clmul a b < 2 ^ (m + n).
Proof.
  intros Hm Hn Ha Hb. pose proof (proj1 Hb) as Hb0. revert b Hb0 n Hn Hb.
  apply (zbin_ind (fun b => forall n, 0 <= n -> 0 <= b < 2 ^ n -> 0 <= clmul a b < 2 ^ (m + n))).
  - intros n Hn _. rewrite clmul_0_r. pose proof (Z.pow_pos_nonneg 2 (m + n)). lia.
  - intros b Hb IH n Hn Hbn. rewrite clmul_even by done. destruct (decide (b = 0)) as [->|].
    { cbn. pose proof (Z.pow_pos_nonneg 2 (m + n)). lia. }
    assert (0 < n) by (destruct (decide (n = 0)) as [->|]; cbn in *; lia).
    specialize (IH (n - 1) ltac:(lia)). replace n with (1 + (n - 1)) in Hbn by lia.
    rewrite Z.pow_add_r in Hbn by lia. specialize (IH ltac:(lia)).
    replace (m + n) with (1 + (m + (n - 1))) by lia. rewrite Z.pow_add_r by lia. lia.
  - intros b Hb IH n Hn Hbn. rewrite clmul_odd by done.
    assert (0 < n) by (destruct (decide (n = 0)) as [->|]; cbn in *; lia).
    specialize (IH (n - 1) ltac:(lia)). replace n with (1 + (n - 1)) in Hbn by lia.
    rewrite Z.pow_add_r in Hbn by lia. specialize (IH ltac:(lia)).
    apply lxor_range; [lia| |].
    + split; [lia|]. apply Z.lt_le_trans with (2 ^ m); [lia|]. apply Z.pow_le_mono_r; lia.
    + replace (m + n) with (1 + (m + (n - 1))) by lia. rewrite Z.pow_add_r by lia. lia.
Qed.

Lemma clmul_shiftl_l a b k : 0 <= b -> 0 <= k -> clmul (Z.shiftl a k) b = Z.shiftl (clmul a b) k.
Proof.
  intros Hb. revert k. apply natlike_ind; [by rewrite !Z.shiftl_0_r|]. intros k Hk IH.
  rewrite <- Z.add_1_l, !(Z.add_comm 1), <- !Z.shiftl_shiftl by lia.
  rewrite !(Z.shiftl_mul_pow2 _ 1), !(Z.mul_comm _ (2 ^ 1)) by lia. change (2 ^ 1) with 2.
  by rewrite clmul_double_l, IH.
Qed.
Lemma clmul_shiftl_r a b k : 0 <= a -> 0 <= b -> 0 <= k -> clmul a (Z.shiftl b k) = Z.shiftl (clmul a b) k.
Proof.
  intros. assert (0 <= Z.shiftl b k) by (apply Z.shiftl_nonneg; lia).
  rewrite clmul_comm, clmul_shiftl_l by lia. by rewrite (clmul_comm b).
Qed.

(** ** The residue modulo the field polynomial *)
Definition step (v : Z) : Z := if Z.testbit v 127 then Z.lxor (u128 (2 * v)) 135 else u128 (2 * v).
Fixpoint pmod_pos (p : positive) : Z :=
  match p with xH => 1 | xO p' => step (pmod_pos p') | xI p' => Z.lxor 1 (step (pmod_pos p')) end.
Definition pmod (z : Z) : Z := match z with Zpos p => pmod_pos p | _ => 0 end.

Lemma step_range v : 0 <= step v < 2 ^ 128.
Proof.
  unfold step. assert (0 <= u128 (2 * v) < 2 ^ 128) by (apply wrap_range; lia).
  destruct (Z.testbit v 127); [|done]. apply lxor_range; lia.
Qed.

Lemma u128_lxor a b : u128 (Z.lxor a b) = Z.lxor (u128 a) (u128 b).
Proof.
  unfold u128. apply Z.bits_inj'. intros i Hi. rewrite Z.lxor_spec, !wrap_testbit, Z.lxor_spec by lia.
  by destruct (i <? 128).
Qed.

Lemma step_lxor a b : step (Z.lxor a b) = Z.lxor (step a) (step b).
Proof.
  unfold step. rewrite Z.lxor_spec, double_lxor, u128_lxor.
  destruct (Z.testbit a 127), (Z.testbit b 127); cbn [xorb]; rewrite ?Z.lxor_assoc; f_equal.
  - rewrite (Z.lxor_comm 135), Z.lxor_assoc, Z.lxor_nilpotent. by rewrite Z.lxor_0_r.
  - apply Z.lxor_comm.
Qed.

Lemma pmod_even z : 0 <= z -> pmod (2 * z) = step (pmod z).
Proof. intros. destruct z; [done|done|lia]. Qed.
Lemma pmod_odd z : 0 <= z -> pmod (2 * z + 1) = Z.lxor 1 (step (pmod z)).
Proof. intros. destruct z; [done|done|lia]. Qed.

Lemma pmod_range z : 0 <= z -> 0 <= pmod z < 2 ^ 128.
Proof.
  revert z. apply zbin_ind; [cbn; lia| |]; intros z Hz IH.
  - rewrite pmod_even by done. apply step_range.
  - rewrite pmod_odd by done. apply lxor_range; [lia|lia|apply step_range].
Qed.

Lemma pmod_small z : 0 <= z < 2 ^ 128 -> pmod z = z.
Proof.
  intros [Hz Hlt]. revert z Hz Hlt. apply (zbin_ind (fun z => z < 2 ^ 128 -> pmod z = z)); [done| |]; intros z Hz IH Hlt.
  - rewrite pmod_even, IH by lia. unfold step. rewrite (testbit_high z 127) by lia. apply wrap_small. unfold in_u. lia.
  - rewrite pmod_odd, IH by lia. unfold step. rewrite (testbit_high z 127) by lia.
    unfold u128. rewrite wrap_small by (unfold in_u; lia). by rewrite odd_lxor.
Qed.

Lemma lxor_parts a b : Z.lxor (2 * a) (2 * b + 1) = 2 * Z.lxor a b + 1.
Proof.
  apply Z.bits_inj'. intros i Hi. rewrite Z.lxor_spec. destruct (decide (i = 0)) as [->|].
  - by rewrite Z.testbit_even_0, !Z.testbit_odd_0.
  - replace i with (Z.succ (i - 1)) by lia. rewrite Z.testbit_even_succ, !Z.testbit_odd_succ by lia. by rewrite Z.lxor_spec.
Qed.
Lemma lxor_odds a b : Z.lxor (2 * a + 1) (2 * b + 1) = 2 * Z.lxor a b.
Proof.
  apply Z.bits_inj'. intros i Hi. rewrite Z.lxor_spec. destruct (decide (i = 0)) as [->|].
  - by rewrite Z.testbit_even_0, !Z.testbit_odd_0.
  - replace i with (Z.succ (i - 1)) by lia. rewrite Z.testbit_even_succ, !Z.testbit_odd_succ by lia. by rewrite Z.lxor_spec.
Qed.

Lemma pmod_lxor a b : 0 <= a -> 0 <= b -> pmod (Z.lxor a b) = Z.lxor (pmod a) (pmod b).
Proof.
  intros Ha. revert b. revert a Ha.
  apply (zbin_ind (fun a => forall b, 0 <= b -> pmod (Z.lxor a b) = Z.lxor (pmod a) (pmod b))); [intros b Hb; by rewrite !Z.lxor_0_l|intros a Ha IH b Hb..].
  - pose proof (Z.div_mod b 2 ltac:(lia)) as Eb. pose proof (Z.mod_pos_bound b 2 ltac:(lia)).
    assert (0 <= b / 2) by (apply Z.div_pos; lia). assert (0 <= Z.lxor a (b / 2)) by (apply Z.lxor_nonneg; lia).
    destruct (decide (b mod 2 = 0)) as [E|E].
    + replace b with (2 * (b / 2)) by lia. rewrite <- double_lxor, !pmod_even, IH, step_lxor by done. done.
    + replace b with (2 * (b / 2) + 1) by lia. rewrite lxor_parts, !pmod_odd, pmod_even, IH, step_lxor by done.
      rewrite <- !Z.lxor_assoc. f_equal. apply Z.lxor_comm.
  - pose proof (Z.div_mod b 2 ltac:(lia)) as Eb. pose proof (Z.mod_pos_bound b 2 ltac:(lia)).
    assert (0 <= b / 2) by (apply Z.div_pos; lia). assert (0 <= Z.lxor a (b / 2)) by (apply Z.lxor_nonneg; lia).
    destruct (decide (b mod 2 = 0)) as [E|E].
    + replace b with (2 * (b / 2)) by lia. rewrite Z.lxor_comm, lxor_parts, pmod_odd, pmod_odd, pmod_even, Z.lxor_comm by (done || (rewrite Z.lxor_comm; done)).
      rewrite (Z.lxor_comm (b / 2)), IH, step_lxor by done. rewrite (Z.lxor_comm _ 1), !Z.lxor_assoc. done.
    + replace b with (2 * (b / 2) + 1) by lia. rewrite lxor_odds, !pmod_odd, pmod_even, IH, step_lxor by done.
      rewrite !Z.lxor_assoc, (Z.lxor_comm (step (pmod a)) (Z.lxor 1 _)), Z.lxor_assoc.
      rewrite lxor_cancel. apply Z.lxor_comm.
Qed.

Lemma pmod_idem z : 0 <= z -> pmod (pmod z) = pmod z.
Proof. intros. by apply pmod_small, pmod_range. Qed.

Lemma step_pmod v : 0 <= v < 2 ^ 128 -> step v = pmod (2 * v).
Proof. intros. rewrite pmod_even by lia. by rewrite pmod_small. Qed.

(** Products may be reduced on either side first. *)
Lemma pmod_clmul_l a b : 0 <= a -> 0 <= b -> pmod (clmul (pmod a) b) = pmod (clmul a b).
Proof.
  intros Ha. pose proof (pmod_range a Ha). revert b. apply zbin_ind; [done| |]; intros b Hb IH;
    pose proof (clmul_nonneg a b Ha Hb); pose proof (clmul_nonneg (pmod a) b ltac:(lia) Hb).
  - by rewrite !clmul_even, !pmod_even, IH by done.
  - rewrite !clmul_odd, !pmod_lxor, !pmod_even, IH, pmod_idem by lia. done.
Qed.
Lemma pmod_clmul_r a b : 0 <= a -> 0 <= b -> pmod (clmul a (pmod b)) = pmod (clmul a b).
Proof. intros. pose proof (pmod_range b). rewrite clmul_comm, pmod_clmul_l, clmul_comm by lia. done. Qed.

(** The multiplication of the field. *)
Definition gmul (a b : Z) : Z := pmod (clmul a b).
Definition elem (a : Z) : Prop := 0 <= a < 2 ^ 128.

Lemma gmul_elem a b : elem a -> elem b -> elem (gmul a b).
Proof. unfold elem. intros. apply pmod_range, clmul_nonneg; lia. Qed.
Lemma gmul_comm a b : elem a -> elem b -> gmul a b = gmul b a.
Proof. unfold elem, gmul. intros. by rewrite clmul_comm by lia. Qed.
Lemma gmul_assoc a b c : elem a -> elem b -> elem c -> gmul (gmul a b) c = gmul a (gmul b c).
Proof.
  unfold elem, gmul. intros. pose proof (clmul_nonneg a b). pose proof (clmul_nonneg b c).
  rewrite pmod_clmul_l, pmod_clmul_r, clmul_assoc by lia. done.
Qed.
Lemma gmul_1_l a : elem a -> gmul 1 a = a.
Proof. unfold elem, gmul. intros. rewrite clmul_1_l by lia. by apply pmod_small. Qed.
Lemma gmul_1_r a : elem a -> gmul a 1 = a.
Proof. unfold elem, gmul. intros. rewrite clmul_1_r by lia. by apply pmod_small. Qed.
Lemma gmul_0_l a : elem a -> gmul 0 a = 0.
Proof. unfold elem, gmul. intros. by rewrite clmul_0_l by lia. Qed.
Lemma gmul_0_r a : gmul a 0 = 0.
Proof. done. Qed.
Lemma lxor_elem a b : elem a -> elem b -> elem (Z.lxor a b).
Proof. apply lxor_range. lia. Qed.
Lemma gmul_lxor_l a b c : elem a -> elem b -> elem c -> gmul (Z.lxor a b) c = Z.lxor (gmul a c) (gmul b c).
Proof.
  unfold elem, gmul. intros. rewrite clmul_lxor_l, pmod_lxor by (try apply clmul_nonneg; lia). done.
Qed.
Lemma gmul_lxor_r a b c : elem a -> elem b -> elem c -> gmul a (Z.lxor b c) = Z.lxor (gmul a b) (gmul a c).
Proof.
  intros Ha Hb Hc. pose proof (lxor_elem b c Hb Hc). rewrite !(gmul_comm a) by done. by apply gmul_lxor_l.
Qed.

(** ** Both bodies of [Mul] *)
Lemma test_mask v i : 0 <= i -> negb (Z.land (Z.shiftr v i) 1 =? 0) = Z.testbit v i.
Proof.
  intros Hi. rewrite (Z.land_ones _ 1) by lia. change (2 ^ 1) with 2.
  rewrite <- (Z.bit0_mod (Z.shiftr v i)), Z.shiftr_spec, Z.add_0_l by lia. by destruct (Z.testbit v i).
Qed.

Lemma test_top v : negb (Z.land v (2 ^ 127) =? 0) = Z.testbit v 127.
Proof.
  assert (Z.land v (2 ^ 127) = Z.shiftl (Z.b2z (Z.testbit v 127)) 127) as ->; [|by destruct (Z.testbit v 127)].
  apply Z.bits_inj'. intros i Hi. rewrite Z.land_spec, Z.shiftl_spec, Z.pow2_bits_eqb by lia.
  destruct (Z.eqb_spec 127 i) as [<-|Hne].
  - rewrite Z.sub_diag, andb_true_r. by destruct (Z.testbit v 127).
  - rewrite andb_false_r. destruct (Z.testbit v 127); cbn [Z.b2z]; [|by rewrite Z.bits_0].
    destruct (decide (i < 127)); [by rewrite Z.testbit_neg_r by lia|].
    symmetry. apply (Z.bits_above_log2 1); cbn; lia.
Qed.

Lemma mod_pow2_S b i : 0 <= i -> 0 <= b ->
  b mod 2 ^ (i + 1) = Z.lxor (b mod 2 ^ i) (if Z.testbit b i then Z.shiftl 1 i else 0).
Proof.
  intros Hi Hb. apply Z.bits_inj'. intros j Hj. rewrite Z.lxor_spec.
  assert (Z.testbit (if Z.testbit b i then Z.shiftl 1 i else 0) j = (j =? i) && Z.testbit b i) as ->.
  { destruct (Z.testbit b i); [|by rewrite Z.bits_0, andb_false_r]. rewrite Z.shiftl_spec by done.
    destruct (Z.eqb_spec j i) as [->|]; [by rewrite Z.sub_diag|].
    destruct (decide (j < i)); [by rewrite Z.testbit_neg_r by lia|].
    rewrite (Z.bits_above_log2 1); [done|lia|cbn; lia]. }
  destruct (decide (j < i)).
  - rewrite !Z.mod_pow2_bits_low by lia. rewrite (proj2 (Z.eqb_neq j i)) by lia. by rewrite xorb_false_r.
  - rewrite (Z.mod_pow2_bits_high b i) by lia. cbn [xorb]. destruct (Z.eqb_spec j i) as [->|].
    + by rewrite Z.mod_pow2_bits_low by lia.
    + by rewrite Z.mod_pow2_bits_high by lia.
Qed.

Lemma shiftl_S a i : 0 <= i -> 2 * Z.shiftl a i = Z.shiftl a (i + 1).
Proof. intros. rewrite !Z.shiftl_mul_pow2, Z.pow_add_r by lia. change (2 ^ 1) with 2. ring. Qed.

(** Shift-and-add keeps [a * x^i] and the product by the low bits of [b]. *)
Lemma cc_gf128Mul_eq a b : elem a -> elem b -> cc_gf128Mul a b = gmul a b.
Proof.
  unfold elem. intros Ha Hb. unfold cc_gf128Mul.
  change (Galois128_words 0 1) with 1. change (Galois128_words 9223372036854775808 0) with (2 ^ 127).
  change (Galois128_words 0 135) with 135. change (Galois128_words 0 0) with 0.
  match goal with |- (loop 128 ?f ?s).1 = _ =>
    pose proof (loop_inv 128 f (fun i st => st = (pmod (clmul a (b mod 2 ^ Z.of_nat i)), pmod (Z.shiftl a (Z.of_nat i)))) s) as Hinv
  end.
  cbn beta in Hinv. rewrite Hinv.
  - cbn [fst]. rewrite (Z.mod_small b) by (change (Z.of_nat 128) with 128; lia). done.
  - rewrite Z.mod_1_r, Z.shiftl_0_r, (pmod_small a) by lia. done.
  - intros i s Hi ->. rewrite test_mask, test_top by lia. f_equal.
    + replace (Z.of_nat (S i)) with (Z.of_nat i + 1) by lia. rewrite mod_pow2_S by lia.
      pose proof (Z.mod_pos_bound b (2 ^ Z.of_nat i) ltac:(apply Z.pow_pos_nonneg; lia)).
      assert (0 <= Z.shiftl 1 (Z.of_nat i)) by (apply Z.shiftl_nonneg; lia).
      destruct (Z.testbit b (Z.of_nat i)); [|by rewrite Z.lxor_0_r].
      rewrite clmul_lxor_r, pmod_lxor by (try apply clmul_nonneg; lia). f_equal.
      by rewrite clmul_shiftl_r, clmul_1_r by lia.
    + rewrite (Z.shiftl_mul_pow2 (pmod _) 1), (Z.mul_comm _ (2 ^ 1)) by lia. change (2 ^ 1) with 2.
      replace (Z.of_nat (S i)) with (Z.of_nat i + 1) by lia.
      assert (0 <= Z.shiftl a (Z.of_nat i)) by (apply Z.shiftl_nonneg; lia).
      rewrite <- shiftl_S, pmod_even by lia. unfold step. done.
Qed.

(** A register is its two words. *)
Lemma split_at x n : 0 <= x -> 0 <= n -> Z.lxor (Z.shiftl (Z.shiftr x n) n) (wrap n x) = x.
Proof.
  intros Hx Hn. apply Z.bits_inj'. intros i Hi. rewrite Z.lxor_spec, Z.shiftl_spec, wrap_testbit by done.
  destruct (Z.ltb_spec i n).
  - rewrite (Z.testbit_neg_r (Z.shiftr x n)) by lia. done.
  - rewrite Z.shiftr_spec by lia. cbn [andb]. by rewrite Z.sub_add, xorb_false_r.
Qed.
Lemma split_words x : 0 <= x -> x = Z.lxor (Z.shiftl (Z.shiftr x 64) 64) (u64 x).
Proof. intros. symmetry. apply (split_at x 64); lia. Qed.

Lemma slli8_eq x : 0 <= x -> Z.lxor (mm_slli8 x) (Z.shiftl (mm_srli8 x) 128) = Z.shiftl x 64.
Proof.
  intros Hx. unfold mm_slli8, mm_srli8. rewrite Z.lxor_comm.
  assert (0 <= Z.shiftl x 64) by (apply Z.shiftl_nonneg; lia).
  rewrite <- (split_at (Z.shiftl x 64) 128) at 2 by lia. do 2 f_equal.
  rewrite Z.shiftr_shiftl_r by lia. done.
Qed.

Lemma u64_nonneg x : 0 <= u64 x < 2 ^ 64.
Proof. apply u64_range. Qed.
Lemma shiftr_words x : elem x -> 0 <= Z.shiftr x 64 < 2 ^ 64.
Proof.
  unfold elem. intros. split; [apply Z.shiftr_nonneg; lia|]. rewrite Z.shiftr_div_pow2 by lia.
  apply Z.div_lt_upper_bound; lia.
Qed.

Lemma lxor_swap a b c d : Z.lxor (Z.lxor a b) (Z.lxor c d) = Z.lxor (Z.lxor a c) (Z.lxor b d).
Proof. rewrite !Z.lxor_assoc. f_equal. rewrite <- !Z.lxor_assoc. f_equal. apply Z.lxor_comm. Qed.

(** The four word products make the whole product. *)
Lemma mm_gf128Mul_eq x y :
  elem x -> elem y ->
  let '(lo, hi) := mm_gf128Mul x y in
  Z.lxor lo (Z.shiftl hi 128) = clmul x y /\ 0 <= lo < 2 ^ 128 /\ 0 <= hi < 2 ^ 128.
Proof.
  intros Hx Hy. unfold mm_gf128Mul, mm_clmulepi64. pose proof (shiftr_words x Hx). pose proof (shiftr_words y Hy).
  unfold elem in *. set (xh := Z.shiftr x 64) in *. set (yh := Z.shiftr y 64) in *.
  pose proof (u64_nonneg x). pose proof (u64_nonneg y). set (xl := u64 x) in *. set (yl := u64 y) in *.
  pose proof (clmul_range xl yl 64 64). pose proof (clmul_range xl yh 64 64).
  pose proof (clmul_range xh yl 64 64). pose proof (clmul_range xh yh 64 64).
  set (mid := Z.lxor (clmul xl yh) (clmul xh yl)).
  assert (0 <= mid < 2 ^ 128) as Hmid by (apply lxor_range; lia).
  split; [|split].
  - rewrite Z.shiftl_lxor, lxor_swap, slli8_eq by lia.
    transitivity (clmul (Z.lxor (Z.shiftl xh 64) xl) (Z.lxor (Z.shiftl yh 64) yl));
      [|f_equal; symmetry; apply split_words; lia].
    assert (0 <= Z.shiftl xh 64 /\ 0 <= Z.shiftl yh 64) as [? ?] by (split; apply Z.shiftl_nonneg; lia).
    rewrite clmul_lxor_l, !clmul_lxor_r, !clmul_shiftl_l, !clmul_shiftl_r by (try apply Z.lxor_nonneg; lia).
    rewrite Z.shiftl_shiftl by lia. change (64 + 64) with 128. unfold mid. rewrite Z.shiftl_lxor.
    rewrite (Z.lxor_comm (clmul xl yl)), !Z.lxor_assoc. f_equal.
    rewrite (Z.lxor_comm (clmul xl yl)). rewrite <- !Z.lxor_assoc. f_equal. apply Z.lxor_comm.
  - apply lxor_range; [lia|lia|]. apply wrap_range. lia.
  - apply lxor_range; [lia|lia|]. unfold mm_srli8. split; [apply Z.shiftr_nonneg; lia|].
    rewrite Z.shiftr_div_pow2 by lia. apply Z.div_lt_upper_bound; lia.
Qed.

(** The word above the field is folded back by the low terms of the polynomial. *)
Lemma pmod_shiftl_128 h : 0 <= h -> pmod (Z.shiftl h 128) = pmod (clmul h 135).
Proof.
  revert h. apply zbin_ind; [done| |]; intros h Hh IH;
    assert (0 <= Z.shiftl h 128) by (apply Z.shiftl_nonneg; lia); pose proof (clmul_nonneg h 135 Hh ltac:(lia)).
  - rewrite Z.shiftl_mul_pow2, <- Z.mul_assoc, <- Z.shiftl_mul_pow2, clmul_double_l, !pmod_even, IH by lia. done.
  - rewrite odd_lxor by lia. rewrite Z.shiftl_lxor, clmul_lxor_l, clmul_double_l by lia.
    assert (Z.shiftl (2 * h) 128 = 2 * Z.shiftl h 128) as -> by (rewrite !Z.shiftl_mul_pow2 by lia; ring).
    rewrite !pmod_lxor, !pmod_even, IH by (try (apply Z.shiftl_nonneg); try (apply clmul_nonneg); lia). f_equal.
Qed.

Lemma mm_gf128Reduce_eq lo hi :
  0 <= lo < 2 ^ 128 -> 0 <= hi < 2 ^ 128 -> mm_gf128Reduce lo hi = pmod (Z.lxor lo (Z.shiftl hi 128)).
Proof.
  intros Hlo Hhi. unfold mm_gf128Reduce, mm_clmulepi64. change (u64 135) with 135.
  pose proof (shiftr_words hi Hhi) as Hhh. set (hh := Z.shiftr hi 64) in *.
  pose proof (u64_nonneg hi) as Hhl. set (hl := u64 hi) in *.
  pose proof (clmul_range hh 135 64 8 ltac:(lia) ltac:(lia) Hhh ltac:(lia)) as Ht. set (tmp := clmul hh 135) in *.
  assert (0 <= mm_srli8 tmp < 2 ^ 8) as Hs.
  { unfold mm_srli8. split; [apply Z.shiftr_nonneg; lia|]. rewrite Z.shiftr_div_pow2 by lia. apply Z.div_lt_upper_bound; lia. }
  assert (0 <= mm_slli8 tmp < 2 ^ 128) as Hl by (apply wrap_range; lia).
  assert (u64 (Z.lxor hi (mm_srli8 tmp)) = Z.lxor hl (mm_srli8 tmp)) as ->.
  { unfold hl, u64. apply Z.bits_inj'. intros i Hi. rewrite Z.lxor_spec, !wrap_testbit, Z.lxor_spec by lia.
    destruct (Z.ltb_spec i 64); [done|]. cbn [andb xorb]. by rewrite (testbit_high (mm_srli8 tmp) 8) by lia. }
  rewrite clmul_lxor_l by lia.
  pose proof (clmul_range hl 135 64 8 ltac:(lia) ltac:(lia) Hhl ltac:(lia)) as Hc1.
  pose proof (clmul_range (mm_srli8 tmp) 135 8 8 ltac:(lia) ltac:(lia) Hs ltac:(lia)) as Hc2.
  assert (elem (clmul hl 135)) as E1 by (unfold elem; lia). assert (elem (clmul (mm_srli8 tmp) 135)) as E2 by (unfold elem; lia).
  assert (forall z, elem z -> pmod z = z) as Hp by (intros; by apply pmod_small).
  rewrite <- (Hp (clmul hl 135)), <- (Hp (clmul (mm_srli8 tmp) 135)) by done.
  rewrite <- !pmod_shiftl_128 by lia.
  replace (Z.shiftl hi 128) with (Z.shiftl (Z.lxor (Z.shiftl hh 64) hl) 128) by (f_equal; symmetry; apply split_words; lia).
  assert (forall z k, 0 <= z -> 0 <= k -> 0 <= Z.shiftl z k) as Hnn by (intros; by apply Z.shiftl_nonneg).
  rewrite Z.shiftl_lxor, Z.shiftl_shiftl by lia.
  assert (pmod (Z.shiftl hh (64 + 128)) = Z.lxor (mm_slli8 tmp) (pmod (Z.shiftl (mm_srli8 tmp) 128))) as Hfold.
  { replace (64 + 128) with (128 + 64) by done. rewrite <- Z.shiftl_shiftl by lia.
    rewrite (Z.shiftl_mul_pow2 _ 64), <- (Z.shiftl_mul_pow2 _ 64) by lia.
    transitivity (pmod (Z.shiftl tmp 64)).
    - rewrite <- (clmul_1_r (Z.shiftl hh 128)), <- clmul_shiftl_r by (try apply Hnn; lia).
      pose proof (Hnn hh 128 ltac:(lia) ltac:(lia)). pose proof (Hnn 1 64 ltac:(lia) ltac:(lia)).
      rewrite <- (pmod_clmul_l (Z.shiftl hh 128)) by lia. rewrite pmod_shiftl_128 by lia. fold tmp.
      rewrite pmod_clmul_l by lia. by rewrite clmul_shiftl_r, clmul_1_r by lia.
    - rewrite <- slli8_eq by lia. rewrite pmod_lxor by (try apply Hnn; lia). by rewrite (Hp (mm_slli8 tmp)). }
  pose proof (Hnn hh (64 + 128) ltac:(lia) ltac:(lia)). pose proof (Hnn hl 128 ltac:(lia) ltac:(lia)).
  rewrite !pmod_lxor, Hfold, (Hp lo) by (done || (try apply Z.lxor_nonneg; lia)).
  rewrite !Z.lxor_assoc. do 2 f_equal. apply Z.lxor_comm.
Qed.

Lemma Mul_gmul avx a b : elem a -> elem b -> Mul avx a b = gmul a b.
Proof.
  intros Ha Hb. destruct avx; cbn [Mul]; [|by apply cc_gf128Mul_eq].
  pose proof (mm_gf128Mul_eq a b Ha Hb) as H. destruct (mm_gf128Mul a b) as [lo hi].
  destruct H as (E & Hlo & Hhi). rewrite mm_gf128Reduce_eq by done. by rewrite E.
Qed.

(** C30.  The two bodies of [Galois128::Mul] agree: on every pair of 128-bit
    words the carry-less multiplication with its two-step reduction returns what
    shift-and-add returns, so the product does not depend on the CPU. *)
Theorem Mul_equivalence a b : in_u 128 a -> in_u 128 b -> Mul true a b = Mul false a b.
Proof. intros Ha Hb. by rewrite !Mul_gmul. Qed.

Lemma Mul_equivalence_witness :
  in_u 128 0x123456789ABCDEF0FEDCBA9876543210 /\ in_u 128 0x80000000000000000000000000000001 /\
  Mul true 0x123456789ABCDEF0FEDCBA9876543210 0x80000000000000000000000000000001
    = Mul false 0x123456789ABCDEF0FEDCBA9876543210 0x80000000000000000000000000000001.
Proof. split; [unfold in_u; lia|]. split; [unfold in_u; lia|]. apply Mul_equivalence; unfold in_u; lia. Defined.

(** ** Powers *)
Definition gpow (a : Z) (n : positive) : Z := Pos.iter (gmul a) 1 n.

Lemma gpow_elem a n : elem a -> elem (gpow a n).
Proof. intros Ha. unfold gpow. apply Pos.iter_invariant; [intros; by apply gmul_elem|unfold elem; lia]. Qed.
Lemma gpow_1 a : elem a -> gpow a 1 = a.
Proof. intros. unfold gpow. cbn. by apply gmul_1_r. Qed.
Lemma gpow_succ a n : gpow a (Pos.succ n) = gmul a (gpow a n).
Proof. unfold gpow. by rewrite Pos.iter_succ. Qed.
Lemma gpow_add a m n : elem a -> gpow a (m + n) = gmul (gpow a m) (gpow a n).
Proof.
  intros Ha. pose proof (gpow_elem a n Ha). induction m as [|m IH] using Pos.peano_ind.
  - rewrite Pos.add_1_l, gpow_succ, gpow_1 by done. done.
  - pose proof (gpow_elem a m Ha). rewrite Pos.add_succ_l, !gpow_succ, IH by done. by rewrite gmul_assoc.
Qed.
Lemma gpow_double a n : elem a -> gpow a n~0 = gmul (gpow a n) (gpow a n).
Proof. intros. rewrite <- gpow_add by done. f_equal. lia. Qed.
Lemma gpow_gmul a b n : elem a -> elem b -> gpow (gmul a b) n = gmul (gpow a n) (gpow b n).
Proof.
  intros Ha Hb. induction n as [|n IH] using Pos.peano_ind.
  - rewrite !gpow_1 by (try apply gmul_elem; done). done.
  - rewrite !gpow_succ, IH. pose proof (gpow_elem a n Ha). pose proof (gpow_elem b n Hb).
    rewrite !gmul_assoc by (try apply gmul_elem; done). f_equal. rewrite <- !gmul_assoc by (try apply gmul_elem; done).
    f_equal. by apply gmul_comm.
Qed.
Lemma gpow_mul a m n : elem a -> gpow (gpow a m) n = gpow a (m * n).
Proof.
  intros Ha. induction n as [|n IH] using Pos.peano_ind.
  - rewrite gpow_1 by by apply gpow_elem. by rewrite Pos.mul_1_r.
  - rewrite gpow_succ, IH, Pos.mul_succ_r. by rewrite gpow_add.
Qed.

(** Square-and-multiply. *)
Lemma pow_loop_spec avx fuel x s i :
  elem x -> elem s -> 0 <= i < 2 ^ Z.of_nat fuel ->
  pow_loop avx fuel i x s = match i with Zpos n => gmul s (gpow x n) | _ => s end.
Proof.
  intros Hx Hs Hi. revert x s i Hx Hs Hi. induction fuel as [|fuel IH]; intros x s i Hx Hs Hi.
  - cbn in Hi. assert (i = 0) as -> by lia. done.
  - cbn [pow_loop]. destruct (Z.eqb_spec i 0) as [->|Hne]; [done|].
    rewrite !Mul_gmul by done. pose proof (gmul_elem x x Hx Hx). pose proof (gmul_elem s x Hs Hx).
    pose proof (test_mask i 0 ltac:(lia)) as Hbit. rewrite Z.shiftr_0_r in Hbit. rewrite Hbit. clear Hbit.
    assert (Z.shiftr i 1 = i / 2) as -> by (rewrite Z.shiftr_div_pow2 by lia; done).
    rewrite Nat2Z.inj_succ, Z.pow_succ_r in Hi by lia.
    destruct i as [|[n|n|]|]; try lia.
    + change (Z.testbit (Zpos n~1) 0) with true. cbn [negb].
      assert (Zpos n~1 / 2 = Zpos n) as -> by (rewrite (Pos2Z.inj_xI n); symmetry; apply (Z.div_unique _ 2 _ 1); lia).
      rewrite IH by (done || lia). pose proof (gpow_elem x n Hx).
      rewrite gpow_gmul by done. rewrite <- gpow_double by done.
      assert (gpow x n~1 = gmul x (gpow x n~0)) as ->.
      { replace (n~1)%positive with (Pos.succ n~0) by lia. by rewrite gpow_succ. }
      rewrite gmul_assoc by (try apply gpow_elem; done). done.
    + change (Z.testbit (Zpos n~0) 0) with false. cbn [negb].
      assert (Zpos n~0 / 2 = Zpos n) as -> by (rewrite (Pos2Z.inj_xO n); symmetry; apply (Z.div_unique _ 2 _ 0); lia).
      rewrite IH by (done || lia). by rewrite gpow_gmul, gpow_double by done.
    + change (Z.testbit 1 0) with true. change (1 / 2) with 0. destruct fuel; cbn; by rewrite gmul_1_r.
Qed.

Lemma Pow_spec avx x i : elem x -> 0 < i < 2 ^ 64 -> Pow avx x i = gpow x (Z.to_pos i).
Proof.
  intros Hx Hi. unfold Pow. destruct (Z.eqb_spec x 0) as [->|Hne].
  - change (Galois128_words 0 0) with 0. destruct i as [|n|n]; try lia. cbn [Z.to_pos]. clear Hi.
    induction n as [|n IH] using Pos.peano_ind; [done|]. rewrite gpow_succ, <- IH. done.
  - change (Galois128_words 0 1) with 1. rewrite pow_loop_spec by (unfold elem in *; cbn in *; lia).
    destruct i as [|n|n]; try lia. cbn [Z.to_pos]. by rewrite gmul_1_l by by apply gpow_elem.
Qed.

(** ** The Frobenius map *)
Definition frob (a : Z) : Z := gmul a a.

Lemma frob_elem a : elem a -> elem (frob a).
Proof. intros. by apply gmul_elem. Qed.
Lemma frob_lxor a b : elem a -> elem b -> frob (Z.lxor a b) = Z.lxor (frob a) (frob b).
Proof.
  intros Ha Hb. unfold frob. pose proof (lxor_elem a b Ha Hb).
  rewrite gmul_lxor_l, !gmul_lxor_r by done. rewrite (gmul_comm b a) by done.
  rewrite !Z.lxor_assoc. f_equal. apply lxor_cancel.
Qed.
Lemma frob_gmul a b : elem a -> elem b -> frob (gmul a b) = gmul (frob a) (frob b).
Proof.
  intros Ha Hb. pose proof (gpow_gmul a b 2 Ha Hb) as H. pose proof (gmul_elem a b Ha Hb).
  unfold frob. rewrite !(gpow_double _ 1), !gpow_1 in H by done. done.
Qed.

Definition frobs (n : nat) (a : Z) : Z := Nat.iter n frob a.
Lemma frobs_elem n a : elem a -> elem (frobs n a).
Proof. intros Ha. induction n as [|n IH]; [done|]. by apply frob_elem. Qed.
Lemma frobs_lxor n a b : elem a -> elem b -> frobs n (Z.lxor a b) = Z.lxor (frobs n a) (frobs n b).
Proof.
  intros Ha Hb. induction n as [|n IH]; [done|]. change (frobs (S n) ?x) with (frob (frobs n x)).
  rewrite IH. apply frob_lxor; by apply frobs_elem.
Qed.
Lemma frobs_gmul n a b : elem a -> elem b -> frobs n (gmul a b) = gmul (frobs n a) (frobs n b).
Proof.
  intros Ha Hb. induction n as [|n IH]; [done|]. change (frobs (S n) ?x) with (frob (frobs n x)).
  rewrite IH. apply frob_gmul; by apply frobs_elem.
Qed.
Lemma frobs_gpow n a : elem a -> frobs (S n) a = gpow a (2 ^ Pos.of_succ_nat n)%positive.
Proof.
  intros Ha. induction n as [|n IH].
  - cbn [frobs Nat.iter]. unfold frob. change (2 ^ Pos.of_succ_nat 0)%positive with 2%positive.
    by rewrite (gpow_double a 1), gpow_1.
  - change (frobs (S (S n)) a) with (frob (frobs (S n) a)). rewrite IH. unfold frob.
    rewrite <- gpow_double by done. f_equal. cbn [Pos.of_succ_nat]. rewrite Pos.pow_succ_r. lia.
Qed.

Lemma elem_half n : 0 <= n -> elem (2 * n) \/ elem (2 * n + 1) -> elem n /\ gmul 2 n = 2 * n.
Proof.
  unfold elem. intros Hn H. split; [lia|]. unfold gmul. rewrite clmul_comm by lia.
  change 2 with (2 * 1) at 1. rewrite clmul_even, clmul_1_r by lia. apply pmod_small. lia.
Qed.

(** Its order is 128: it fixes the generator [x], hence every polynomial in it. *)
Lemma frobs_128_x : frobs 128 2 = 2.
Proof. vm_compute. reflexivity. Qed.

Lemma frobs_128 a : elem a -> frobs 128 a = a.
Proof.
  intros Ha. assert (0 <= a) as H0 by (unfold elem in Ha; lia). revert a H0 Ha.
  assert (elem 2) as E2 by (unfold elem; lia). assert (elem 1) as E1 by (unfold elem; lia).
  apply (zbin_ind (fun a => elem a -> frobs 128 a = a)); [intros _; vm_compute; reflexivity| |]; intros n Hn IH Ha.
  - destruct (elem_half n Hn ltac:(by left)) as [En E]. by rewrite <- E, frobs_gmul, IH, frobs_128_x by done.
  - destruct (elem_half n Hn ltac:(by right)) as [En E]. rewrite odd_lxor by done. rewrite <- E.
    rewrite frobs_lxor, frobs_gmul, IH, frobs_128_x by (try apply gmul_elem; done). f_equal.
Qed.

(** A linear map that undoes [frob a xor a] but for the constant term. *)
Definition undo_rows : list Z :=
  [0x295ac0b1f4731af9676aac9fa4b20b08;
   0xe5da5595ee970b89929959af766af404;
   0xe5da5595ee970b89929959af766af406;
   0x4e9826c74350bfe67783f7333404a20c;
   0xe5da5595ee970b89929959af766af402;
   0x2aaea79ad7da34b07dc714cb83074e6a;
   0x4e9826c74350bfe67783f7333404a204;
   0xcc8095241ae41171f5f3f531d2d9fe18;
   0xe5da5595ee970b89929959af766af412;
   0x4e983687d159ce9677cb862e8ac85b44;
   0x2aaea79ad7da34b07dc714cb83074e4a;
   0xaae2ab6aaf144aaff73fcb3c06aaff56;
   0x4e9826c74350bfe67783f7333404a244;
   0xe62f327ccd5792dd893fe9ca40603f62;
   0xcc8095241ae41171f5f3f531d2d9fe98;
   0xab52f0323f47c90be1336bc7d453b626;
   0xe5da5595ee970b89929959af766af512;
   0x2abe34bad75338b479a6a089abf4573a;
   0x4e983687d159ce9677cb862e8ac85944;
   0x1e8ccb9dcc72f2e1a9cbef8232562fc;
   0x2aaea79ad7da34b07dc714cb83074a4a;
   0x2442c3221f3dc1a0ce869b24a80e48c;
   0xaae2ab6aaf144aaff73fcb3c06aaf756;
   0xcf64612f39c4323deb3ff936dd9aa228;
   0x4e9826c74350bfe67783f7333404b244;
   0xcc911696880d4909f0d5382a57572458;
   0xe62f327ccd5792dd893fe9ca40601f62;
   0x4d7cd7cc29d28cf2697f6478e5db2834;
   0xcc8095241ae41171f5f3f531d2d9be98;
   0xccc99127569146a7fc0956ca1a5b86a4;
   0xab52f0323f47c90be1336bc7d4533626;
   0x65cece94dacd5b1c14f5986b001eeb82;
   0xe5da5595ee970b89929959af766bf512;
   0x2b0e7fa2d509ca746fe27169c7c3e73a;
   0x2abe34bad75338b479a6a089abf6573a;
   0x65df4d264824132411d3553885980142;
   0x4e983687d159ce9677cb862e8acc5944;
   0xcf74f70e70ef2af7ef6fd21d2af671a4;
   0x1e8ccb9dcc72f2e1a9cbef8232d62fc;
   0xcec4b9173b16cdf9f91a9d8499490f58;
   0x2aaea79ad7da34b07dc714cb83174a4a;
   0x83f16f99175f624799a6cf206b513bdc;
   0x2442c3221f3dc1a0ce869b24aa0e48c;
   0x3f562a96a2aa9081b9e27ebe84671c0;
   0xaae2ab6aaf144aaff73fcb3c06eaf756;
   0xccc9c07ae11bcce3fcd6d526cddeebd4;
   0xcf64612f39c4323deb3ff936dd1aa228;
   0xa95fc803c09556f7e461dfebe8467196;
   0x4e9826c74350bfe67783f7333504b244;
   0x4cdc1ab0f0ab5b2e7b20ee03c15c7384;
   0xcc911696880d4909f0d5382a55572458;
   0xaaba68961da11d79fb48c8c7fe68cf6a;
   0xe62f327ccd5792dd893fe9ca44601f62;
   0xe5db5416ee209847938b5c70638d3bee;
   0x4d7cd7cc29d28cf2697f6478eddb2834;
   0x6437818b95e2e76e0b49fa26a7e512ce;
   0xcc8095241ae41171f5f3f531c2d9be98;
   0x4cd9020746184ba27868a299022ddf34;
   0xccc99127569146a7fc0956ca3a5b86a4;
   0x824171dcefbe4a8b8f1d24e407e8e76c;
   0xab52f0323f47c90be1336bc794533626;
   0xe62e22af1f6bf32b88711e202cdc3b5e;
   0x65cece94dacd5b1c14f5986b801eeb82;
   0x83f4672b23a92e499aadb85427b54520;
   0xe5da5595ee970b89929959ae766bf512;
   0x1040920971720048711dbeccf94c;
   0x2b0e7fa2d509ca746fe2716bc7c3e73a;
   0x81edd40a7a7437cb99d6b267d0d7976c;
   0x2abe34bad75338b479a6a08dabf6573a;
   0xe46a1e8deccdf96d84dd884d1a5d4462;
   0x65df4d264824132411d3553085980142;
   0x804c1cb1eac70f698ab1aeeb3a605920;
   0x4e983687d159ce9677cb863e8acc5944;
   0xa94f4b3252499e01e04514377dbd55aa;
   0xcf74f70e70ef2af7ef6fd23d2af671a4;
   0xe7d77da5831189d3978a93f3f56f619e;
   0x1e8ccb9dcc72f2e1a9cbeb8232d62fc;
   0x4cdd0f362b68e52a7a5109eab0a16ef4;
   0xcec4b9173b16cdf9f91a9d0499490f58;
   0xe4329c3d7bf233698830781e88d05912;
   0x2aaea79ad7da34b07dc715cb83174a4a;
   0x82082082597387418618bcbfcff334e0;
   0x83f16f99175f624799a6cd206b513bdc;
   0x294b124ed1181a846297e291f4adcc3a;
   0x2442c3221f3dc1a0ce86db24aa0e48c;
   0xe78fff41144664939b696b666550119e;
   0x3f562a96a2aa9081b9e2febe84671c0;
   0xcd78dbfd54a1436beb568d9e63d55a14;
   0xaae2ab6aaf144aaff73fdb3c06eaf756;
   0xccdd4e7b1ce38d0ffacabbbeed722b64;
   0xccc9c07ae11bcce3fcd6f526cddeebd4;
   0x3e5e1ccb1bf89c61fb4754fa43bbf3c;
   0xcf64612f39c4323deb3fb936dd1aa228;
   0xe5da00893461b455926f68f4172caea2;
   0xa95fc803c09556f7e4615febe8467196;
   0xe78ae2a77b3e87b1981cf1dccb9d1fd2;
   0x4e9826c74350bfe67782f7333504b244;
   0x2912d4222a675b0a6fd777b6c15f72c6;
   0x4cdc1ab0f0ab5b2e7b22ee03c15c7384;
   0xe7d6682e58d237f196f8740f85956fd2;
   0xcc911696880d4909f0d1382a55572458;
   0xab4366b0764a0b4be46143c933474626;
   0xaaba68961da11d79fb40c8c7fe68cf6a;
   0xe7d77d718378aeb397849bb7f7de0d9e;
   0xe62f327ccd5792dd892fe9ca44601f62;
   0x64231d9efb5729d60d13f9bd382e380e;
   0xe5db5416ee20984793ab5c70638d3bee;
   0x81b51ab7a5fe1499959811bd9a557220;
   0x4d7cd7cc29d28cf2693f6478eddb2834;
   0x295ab4bb43072c12678a4ee975a08406;
   0x6437818b95e2e76e0bc9fa26a7e512ce;
   0xab0eead38eb165ebef9e1acd25989a26;
   0xcc8095241ae41171f4f3f531c2d9be98;
   0x3ba7996db230c0010185b9b29b00000;
   0x4cd9020746184ba27a68a299022ddf34;
   0x8210932010890d058261f45338765990;
   0xccc99127569146a7f80956ca3a5b86a4;
   0x2a88e0fbb92f0c2c7f14722e3db361fa;
   0x824171dcefbe4a8b871d24e407e8e76c;
   0x29b11e87b8989fd86fb067f47d17578a;
   0xab52f0323f47c90bf1336bc794533626;
   0x0;
   0xe62e22af1f6bf32ba8711e202cdc3b5e;
   0x862e22af1f6bf32ba8711e202cdc3b6c;
   0x65cece94dacd5b1c54f5986b801eeb82;
   0x8e8cbdc6770aef73b1ef36f7c270bdac;
   0x83f4672b23a92e491aadb85427b54520;
   0x38b21c09fae1613c0db7ed8c3891e6fa].
Fixpoint apply_rows (rows : list Z) (z : Z) : Z :=
  match rows with
  | [] => 0
  | r :: rows' => Z.lxor (if Z.odd z then r else 0) (apply_rows rows' (Z.div2 z))
  end.
Definition undo (z : Z) : Z := apply_rows undo_rows z.

Lemma apply_rows_lxor rows a b : apply_rows rows (Z.lxor a b) = Z.lxor (apply_rows rows a) (apply_rows rows b).
Proof.
  revert a b. induction rows as [|r rows IH]; intros a b; [done|]. cbn [apply_rows].
  assert (Z.div2 (Z.lxor a b) = Z.lxor (Z.div2 a) (Z.div2 b)) as ->.
  { rewrite !Z.div2_spec. apply Z.shiftr_lxor. }
  rewrite IH, <- lxor_swap. f_equal. rewrite <- !Z.bit0_odd, Z.lxor_spec.
  destruct (Z.testbit a 0), (Z.testbit b 0); cbn [xorb]; by rewrite ?Z.lxor_nilpotent, ?Z.lxor_0_r, ?Z.lxor_0_l.
Qed.

(** An additive map is determined by the powers of two. *)
Lemma additive_zero (f : Z -> Z) n :
  f 0 = 0 -> (forall a b, 0 <= a < 2 ^ Z.of_nat n -> 0 <= b < 2 ^ Z.of_nat n -> f (Z.lxor a b) = Z.lxor (f a) (f b)) ->
  (forall i, (i < n)%nat -> f (2 ^ Z.of_nat i) = 0) -> forall a, 0 <= a < 2 ^ Z.of_nat n -> f a = 0.
Proof.
  intros H0 Hadd Hb. enough (forall k a, (k <= n)%nat -> 0 <= a < 2 ^ Z.of_nat k -> f a = 0) as H by (intros a Ha; by apply (H n)).
  induction k as [|k IH]; intros a Hk Ha; [cbn in Ha; by replace a with 0 by lia|].
  pose proof (Z.pow_le_mono_r 2 (Z.of_nat (S k)) (Z.of_nat n) ltac:(lia) ltac:(lia)).
  pose proof (Z.pow_pos_nonneg 2 (Z.of_nat k) ltac:(lia) ltac:(lia)).
  replace (Z.of_nat (S k)) with (Z.of_nat k + 1) in * by lia.
  assert (a = Z.lxor (a mod 2 ^ Z.of_nat k) (if Z.testbit a (Z.of_nat k) then Z.shiftl 1 (Z.of_nat k) else 0)) as ->.
  { rewrite <- mod_pow2_S by lia. by rewrite Z.mod_small. }
  pose proof (Z.mod_pos_bound a (2 ^ Z.of_nat k) ltac:(lia)). rewrite Z.pow_add_r in * by lia.
  destruct (Z.testbit a (Z.of_nat k)).
  - rewrite Z.shiftl_1_l. rewrite Hadd by lia. rewrite IH, Hb by lia. done.
  - rewrite Z.lxor_0_r. apply IH; lia.
Qed.

Definition undo_error (a : Z) : Z := Z.lxor (undo (Z.lxor (frob a) a)) (2 * Z.div2 a).

Lemma undo_error_basis : forallb (fun i => undo_error (2 ^ Z.of_nat i) =? 0) (seq 0 128) = true.
Proof. vm_compute. reflexivity. Qed.

Lemma undo_frob a : elem a -> undo (Z.lxor (frob a) a) = 2 * Z.div2 a.
Proof.
  intros Ha. apply Z.lxor_eq. change (undo_error a = 0). apply (additive_zero undo_error 128); [vm_compute; reflexivity| | |exact Ha].
  - intros x y Hx Hy. change (Z.of_nat 128) with 128 in *. unfold undo_error, undo.
    rewrite frob_lxor by done. rewrite (lxor_swap (frob x)), apply_rows_lxor.
    assert (2 * Z.div2 (Z.lxor x y) = Z.lxor (2 * Z.div2 x) (2 * Z.div2 y)) as ->.
    { rewrite <- double_lxor. f_equal. rewrite !Z.div2_spec. apply Z.shiftr_lxor. }
    apply lxor_swap.
  - intros i Hi. pose proof undo_error_basis as H. rewrite forallb_forall in H.
    apply Z.eqb_eq, H, in_seq. lia.
Qed.

(** Only 0 and 1 are their own squares. *)
Lemma frob_fixed a : elem a -> frob a = a -> a = 0 \/ a = 1.
Proof.
  intros Ha Hf. pose proof (undo_frob a Ha) as H. rewrite Hf, Z.lxor_nilpotent in H.
  change (undo 0) with (apply_rows undo_rows 0) in H. replace (apply_rows undo_rows 0) with 0 in H by (vm_compute; reflexivity).
  pose proof (Z.div2_odd a) as E. unfold elem in Ha. destruct (Z.odd a); cbn [Z.b2z] in E; lia.
Qed.

(** ** Inversion *)
Definition full : positive := (2 ^ 128)%positive.

Lemma gpow_full a : elem a -> gpow a full = a.
Proof.
  intros Ha. pose proof (frobs_gpow 127 a Ha) as E. change (S 127) with 128%nat in E. rewrite frobs_128 in E by done.
  symmetry. exact E.
Qed.

(** Every non-zero element has order dividing [2^128 - 1]. *)
Lemma gpow_order a : elem a -> a <> 0 -> gpow a (full - 1) = 1.
Proof.
  intros Ha Hne. set (e := gpow a (full - 1)). assert (elem e) as He by by apply gpow_elem.
  assert (gmul a e = a) as Hae.
  { unfold e. rewrite <- gpow_succ. replace (Pos.succ (full - 1)) with full by (unfold full; lia). exact (gpow_full a Ha). }
  destruct (frob_fixed e He) as [E|E]; [|exfalso; rewrite E, gmul_0_r in Hae; apply Hne; symmetry; exact Hae|exact E].
  assert (e = gmul a (gpow a (full - 2))) as Ee.
  { unfold e. rewrite <- gpow_succ. replace (Pos.succ (full - 2)) with (full - 1)%positive by (unfold full; lia). reflexivity. }
  pose proof (gpow_elem a (full - 2) Ha) as Hp. set (p := gpow a (full - 2)) in *.
  unfold frob. rewrite Ee at 1. rewrite (gmul_comm a p), gmul_assoc, Hae, gmul_comm by assumption. symmetry. exact Ee.
Qed.

(** The addition chain of [Inv]: after round [i], [a] is the power
    [2^(2^(i+1)) - 1] and the result the power two less than [2^(2^(i+1))]. *)
Definition tower (i : nat) : positive := (2 ^ (2 ^ Pos.of_nat i))%positive.

Lemma squarings avx n a : elem a -> loop n (fun _ b => Mul avx b b) a = frobs n a.
Proof.
  intros Ha. induction n as [|n IH]; [done|]. rewrite loop_S, IH, Mul_gmul by by apply frobs_elem. done.
Qed.


(** One round of the addition chain of [Inv] on exponents. *)
Definition shifted (m : positive) (n : nat) : positive := (m * 2 ^ Pos.of_succ_nat n)%positive.

Lemma inv_squarings avx x m n :
  elem x -> loop (S n) (fun _ b => Mul avx b b) (gpow x m) = gpow x (shifted m n).
Proof.
  intros Hx. pose proof (gpow_elem x m Hx). rewrite squarings, frobs_gpow by done. by apply gpow_mul.
Qed.

Lemma Mul_gpow avx x m n : elem x -> Mul avx (gpow x m) (gpow x n) = gpow x (m + n).
Proof. intros Hx. rewrite Mul_gmul, gpow_add by (try apply gpow_elem; done). done. Qed.

(** The chain ends at the exponent [2^128 - 2]. *)
Fixpoint chain (rounds : list nat) (m r : positive) : positive :=
  match rounds with
  | [] => r
  | n :: rounds' => chain rounds' (m + shifted m n) (r + shifted m n)
  end.
Definition chain_tail : list nat := [1; 3; 7; 15; 31; 63]%nat.
Lemma chain_exponent : chain chain_tail 3 2 = (full - 2)%positive.
Proof. vm_compute. reflexivity. Qed.

Lemma inv_round_gpow avx x k n m r :
  elem x -> (2 ^ S k = S n)%nat ->
  inv_round avx (S k) (gpow x m, gpow x r) = (gpow x (m + shifted m n), gpow x (r + shifted m n)).
Proof.
  intros Hx Hn. unfold inv_round. rewrite bool_decide_false by lia. rewrite Hn, inv_squarings, !Mul_gpow by done. done.
Qed.

Lemma inv_round_0 avx x : elem x -> inv_round avx 0 (x, 0) = (gpow x 3, gpow x 2).
Proof.
  intros Hx. unfold inv_round. rewrite bool_decide_true by done. change (2 ^ 0)%nat with 1%nat.
  cbn [loop loop_from]. rewrite !Mul_gmul by (try rewrite Mul_gmul by done; try apply gmul_elem; done).
  replace 3%positive with (Pos.succ 2) by done. rewrite gpow_succ, !(gpow_double x 1), !gpow_1 by done. done.
Qed.

Lemma inv_loop avx x (rounds : list nat) (k : nat) m r :
  elem x -> (forall j n, rounds !! j = Some n -> (2 ^ (S k + j) = S n)%nat) ->
  (loop_from (length rounds) (S k) (inv_round avx) (gpow x m, gpow x r)).2 = gpow x (chain rounds m r).
Proof.
  intros Hx. revert k m r. induction rounds as [|n rounds IH]; intros k m r Hr; [done|].
  cbn [length loop_from chain]. pose proof (Hr 0%nat n eq_refl) as H0. rewrite Nat.add_0_r in H0.
  rewrite (inv_round_gpow avx x k n) by done. apply IH. intros j n' Hj.
  rewrite <- (Hr (S j) n' Hj). f_equal. lia.
Qed.

Lemma full_succ : Pos.succ (full - 2) = (full - 1)%positive.
Proof. unfold full. lia. Qed.

Lemma gmul_inverse x : elem x -> x <> 0 -> gmul x (gpow x (full - 2)) = 1.
Proof. intros Hx Hne. rewrite <- gpow_succ, full_succ. exact (gpow_order x Hx Hne). Qed.

Lemma Inv_nonzero avx x : elem x -> x <> 0 -> Inv avx x = Ok (gpow x (full - 2)).
Proof.
  intros Hx Hne. unfold Inv. change (Galois128_words 0 0) with 0. change (Galois128_words 0 1) with 1.
  change (loop 7 (inv_round avx) (x, 0)) with
    (loop_from (length chain_tail) 1 (inv_round avx) (inv_round avx 0 (x, 0))).
  rewrite inv_round_0 by done.
  pose proof (inv_loop avx x chain_tail 0 3 2 Hx) as Hl. rewrite chain_exponent in Hl.
  assert (forall j n, chain_tail !! j = Some n -> (2 ^ (1 + j) = S n)%nat) as Hch.
  { intros j n Hj. do 6 (destruct j as [|j]; [by injection Hj as <-|]). done. }
  specialize (Hl Hch). destruct (loop_from _ _ _ _) as [a result]. cbn [snd] in Hl. rewrite Hl.
  pose proof (gpow_elem x (full - 2) Hx). rewrite Mul_gmul, gmul_inverse by assumption. rewrite Z.eqb_refl. run. reflexivity.
Qed.

(** C23.  Inversion is total on the non-zero elements and correct: whichever
    multiplication the CPU has, [Inv] of a non-zero word returns a word whose
    product with it is one, so its check never fails; on zero it throws. *)
Theorem Inv_correct avx a :
  in_u 128 a ->
  if a =? 0 then Inv avx a = Throw
  else wp (Inv avx a) (fun r => in_u 128 r /\ Mul avx a r = 1 /\ Mul avx r a = 1).
Proof.
  intros Ha. change (elem a) in Ha. destruct (Z.eqb_spec a 0) as [->|Hne]; [destruct avx; vm_compute; reflexivity|].
  rewrite Inv_nonzero by done. cbn [wp]. pose proof (gpow_elem a (full - 2) Ha) as Hr.
  rewrite !Mul_gmul by assumption. rewrite (gmul_comm (gpow a _)) by assumption.
  rewrite gmul_inverse by assumption. split; [exact Hr|]. split; reflexivity.
Qed.

Definition sample_elem : Z := 0x123456789ABCDEF0FEDCBA9876543210.
Lemma Inv_correct_witness :
  in_u 128 sample_elem /\
  (if sample_elem =? 0 then Inv true sample_elem = Throw
   else wp (Inv true sample_elem) (fun r => in_u 128 r /\ Mul true sample_elem r = 1 /\ Mul true r sample_elem = 1)).
Proof.
  assert (in_u 128 sample_elem) as Ha by (unfold in_u, sample_elem; lia).
  split; [exact Ha|]. exact (Inv_correct true sample_elem Ha).
Defined.
