(* ===== verification/PaxosHash.v ===== *)
(** * The rows of the PaXoS matrix (psi/algorithm/rr22/okvs/aes_crhash, paxos_hash)

    [AesCrHash] hashes a key to 128 bits; [PaxosHash] reads from the hash the
    [weight] distinct sparse columns of the key's row, one key at a time
    ([BuildRow]) or 32 at a time with SSE registers ([BuildRow32]).  The file
    shows that a row holds distinct columns below the sparse size and that the
    vectorized builder writes the rows of the scalar one. *)
From S2P Require Import Prelude Galois.

(** ** AesCrHash: [H(x) = AES(x) xor x], eight blocks at a time *)
Definition kBatchSize : nat := 8.

(** The cipher [yacl::crypto::SymmetricCrypto] in ECB mode under its key. *)
Class SymmetricCrypto := { Encrypt : Z -> Z }.

Definition Encrypt_all `{SymmetricCrypto} (plaintext : list Z) : list Z := map Encrypt plaintext.

Definition AesCrHash_Hash1 `{SymmetricCrypto} (input : Z) : Z := Z.lxor (Encrypt input) input.

(** [ciphertext[off + j] = enc_outputs[j] ^ plaintext[off + j]] for [n] words. *)
Definition xor_out (n off : nat) (enc_outputs plaintext ciphertext : list Z) : res (list Z) :=
  for_ n (fun j ciphertext =>
    e ← vget enc_outputs j; p ← vget plaintext (off + j);
    vset ciphertext (off + j) (Z.lxor e p)) ciphertext.

Definition AesCrHash_Hash `{SymmetricCrypto} (plaintext ciphertext : list Z) : res (list Z) :=
  let batches := (length plaintext / kBatchSize)%nat in
  let batch_max_index := (batches * kBatchSize)%nat in
  ciphertext ← for_ batches (fun b ciphertext =>
    let i := (b * kBatchSize)%nat in
    xor_out kBatchSize i (Encrypt_all (take kBatchSize (drop i plaintext))) plaintext ciphertext) ciphertext;
  if bool_decide (batch_max_index < length plaintext)%nat
  then xor_out (length plaintext - batch_max_index) batch_max_index
         (Encrypt_all (drop batch_max_index plaintext)) plaintext ciphertext
  else Ok ciphertext.

(** ** PaxosHash *)

(** libdivide: a divisor prepared once, and the division by it. *)
Class Libdivide := {
  libdivide_u64_t : Type;
  libdivide_u64_gen : Z -> libdivide_u64_t;
  libdivide_u64_do : Z -> libdivide_u64_t -> Z
}.
Class LibdivideLaws `{Libdivide} := {
  libdivide_exact n d : 0 <= n < 2 ^ 64 -> 0 < d < 2 ^ 64 -> libdivide_u64_do n (libdivide_u64_gen d) = n / d
}.

Record PaxosHash `{Libdivide} := mkPaxosHash {
  weight : nat;
  sparse_size : Z;
  mods : list libdivide_u64_t;
  mod_vals : list Z
}.

(** Lanes of SSE registers. *)
Abbreviation lanes := (list Z).

Section paxos_hash.
Context `{SymmetricCrypto} `{Libdivide}.
(** Whether the CPU has AVX2, and the width of [IdxType]. *)
Context (hasAVX2 : bool) (idx : Z).

Definition init (weight : nat) (paxos_size : Z) : PaxosHash :=
  let mod_vals := map (fun i => u64 (paxos_size - Z.of_nat i)) (seq 0 weight) in
  mkPaxosHash _ weight paxos_size (map libdivide_u64_gen mod_vals) mod_vals.

Definition DoMod32 (vals : list Z) (divider : libdivide_u64_t) (mod_val : Z) : list Z :=
  map (fun v => u64 (v - u64 (libdivide_u64_do v divider * mod_val))) vals.

Definition mod32 (h : PaxosHash) (vals : list Z) (mod_idx : nat) : res (list Z) :=
  divider ← vget (mods h) mod_idx;
  mod_val ← vget (mod_vals h) mod_idx;
  Ok (DoMod32 vals divider mod_val).

(** The 64-bit word at 32-bit word [i] of a hash. *)
Definition word_at (hash : Z) (i : nat) : Z := u64 (Z.shiftr hash (32 * Z.of_nat i)).

(** The weight-3 row: three words reduced, then spread to distinct columns. *)
Definition BuildRow3 (h : PaxosHash) (hash : Z) (rows : list Z) : res (list Z) :=
  _ ← defined (negb (sparse_size h =? 0));
  _ ← defined (negb (u64 (sparse_size h - 1) =? 0));
  _ ← defined (negb (u64 (sparse_size h - 2) =? 0));
  let r0 := wrap idx (word_at hash 0 mod sparse_size h) in
  let r1 := wrap idx (word_at hash 1 mod u64 (sparse_size h - 1)) in
  let r2 := wrap idx (word_at hash 2 mod u64 (sparse_size h - 2)) in
  _ ← enforce (r0 <? sparse_size h);
  _ ← enforce (r1 <? sparse_size h);
  _ ← enforce (r2 <? sparse_size h);
  let min := Z.min r0 r1 in
  let max := u64 (r0 + r1 - min) in
  let '(r1, max) := if max =? r1 then (wrap idx (r1 + 1), u64 (max + 1)) else (r1, max) in
  let r2 := if min <=? r2 then wrap idx (r2 + 1) else r2 in
  let r2 := if max <=? r2 then wrap idx (r2 + 1) else r2 in
  rows ← vset rows 0 r0; rows ← vset rows 1 r1; vset rows 2 r2.

(** The first loop over the sorted columns: step over those not above. *)
Fixpoint scan (fuel iter end_ : nat) (rows : list Z) (col_idx : Z) : res (nat * Z) :=
  match fuel with
  | O => Ok (iter, col_idx)
  | S fuel' =>
      if bool_decide (iter = end_) then Ok (iter, col_idx)
      else x ← vget rows iter;
           if x <=? col_idx then scan fuel' (S iter) end_ rows (u64 (col_idx + 1)) else Ok (iter, col_idx)
  end.

(** The second: [end[0] = end[-1]] down to [iter]. *)
Fixpoint shift_up (fuel iter end_ : nat) (rows : list Z) : res (list Z) :=
  match fuel with
  | O => Ok rows
  | S fuel' =>
      if bool_decide (iter = end_) then Ok rows
      else x ← vget rows (end_ - 1); rows ← vset rows end_ x; shift_up fuel' iter (end_ - 1) rows
  end.

(** One more column of a row of any other weight. *)
Definition build_col (h : PaxosHash) (j : nat) (s : Z * list Z) : res (Z * list Z) :=
  let '(hh, rows) := s in
  let modulus := u64 (sparse_size h - Z.of_nat j) in
  let hh := Mul hasAVX2 hh hh in
  _ ← defined (negb (modulus =? 0));
  let col_idx := u64 hh mod modulus in
  '(iter, col_idx) ← scan j 0 j rows col_idx;
  rows ← shift_up j iter j rows;
  rows ← vset rows iter (wrap idx col_idx);
  Ok (hh, rows).

Definition BuildRow (h : PaxosHash) (hash : Z) (rows : list Z) : res (list Z) :=
  if bool_decide (weight h = 3%nat) then BuildRow3 h hash rows
  else '(_, rows) ← for_ (weight h) (build_col h) (hash, rows); Ok rows.

(** *** SSE registers: lanes of 64 bits.  The code repeats each instruction for
    the eight registers of a half; the model applies it to their sixteen lanes. *)
Definition mm_cmpgt_epi64 (a b : lanes) : lanes := zip_with (fun x y => if i64 y <? i64 x then 2 ^ 64 - 1 else 0) a b.
Definition mm_cmpeq_epi64 (a b : lanes) : lanes := zip_with (fun x y => if x =? y then 2 ^ 64 - 1 else 0) a b.
Definition mm_sub_epi64 (a b : lanes) : lanes := zip_with (fun x y => u64 (x - y)) a b.
Definition mm_xor (a b : lanes) : lanes := zip_with Z.lxor a b.
Definition mm_and (a b : lanes) : lanes := zip_with Z.land a b.
Definition mm_not (a : lanes) : lanes := map (fun x => Z.lxor x (2 ^ 64 - 1)) a.

Definition spread (row0 row1 row2 : lanes) : lanes * lanes * lanes :=
  let mask := mm_cmpgt_epi64 row0 row1 in
  let min := mm_xor row0 row1 in
  let max := mm_and min mask in
  let max := mm_xor max row1 in
  let min := mm_xor min max in
  let mask := mm_cmpeq_epi64 max row1 in
  let row1 := mm_sub_epi64 row1 mask in
  let max := mm_sub_epi64 max mask in
  let mask := mm_cmpgt_epi64 min row2 in
  let mask := mm_not mask in
  let row2 := mm_sub_epi64 row2 mask in
  let mask := mm_cmpgt_epi64 max row2 in
  let mask := mm_not mask in
  let row2 := mm_sub_epi64 row2 mask in
  (row0, row1, row2).

(** [rowi[weight * k + j] = row64[k]] for the sixteen rows of a half. *)
Definition store_half (i : nat) (row128 : list lanes) (rows : list Z) : res (list Z) :=
  for_ 3 (fun j rows =>
    row64 ← vget row128 j;
    for_ 16 (fun k rows => x ← vget row64 k; vset rows (3 * 16 * i + (3 * k + j)) (wrap idx x)) rows) rows.

Definition BuildRow32_avx (h : PaxosHash) (hash rows : list Z) : res (list Z) :=
  hash32 ← for_ 32 (fun k l => x ← vget hash k; Ok (l ++ [x])) [];
  ll0 ← mod32 h (map (fun x => word_at x 0) hash32) 0;
  ll1 ← mod32 h (map (fun x => word_at x 1) hash32) 1;
  ll2 ← mod32 h (map (fun x => word_at x 2) hash32) 2;
  for_ 2 (fun i rows =>
    let half ll := take 16 (drop (16 * i) ll) in
    let '(row0, row1, row2) := spread (half ll0) (half ll1) (half ll2) in
    store_half i [row0; row1; row2] rows) rows.

(** The scalar loop, over a span of the rows at a time. *)
Definition BuildRow32_scalar (h : PaxosHash) (hash rows : list Z) : res (list Z) :=
  for_ 32 (fun k rows =>
    x ← vget hash k;
    let off := (k * weight h)%nat in
    row ← BuildRow h x (take (weight h) (drop off rows));
    Ok (take off rows ++ row ++ drop (off + weight h) rows)) rows.

Definition BuildRow32 (h : PaxosHash) (hash rows : list Z) : res (list Z) :=
  if bool_decide (weight h = 3%nat) && hasAVX2 then BuildRow32_avx h hash rows else BuildRow32_scalar h hash rows.

Definition HashBuildRow32 (h : PaxosHash) (in_iter rows hash : list Z) : res (list Z * list Z) :=
  _ ← enforce (bool_decide (length in_iter = 32%nat));
  _ ← enforce (bool_decide (length rows = (32 * weight h)%nat));
  hash ← AesCrHash_Hash in_iter hash;
  rows ← BuildRow32 h hash rows;
  Ok (rows, hash).

Definition HashBuildRow1 (h : PaxosHash) (input : Z) (rows : list Z) : res (list Z * Z) :=
  _ ← enforce (bool_decide (length rows = weight h));
  hash ← AesCrHash_Hash [input] [0];
  hash ← vget hash 0;
  rows ← BuildRow h hash rows;
  Ok (rows, hash).
End paxos_hash.

(** ** AesCrHash is the map of its one-block form *)
Lemma xor_out_spec n off enc plaintext ciphertext :
  (n <= length enc)%nat -> (off + n <= length plaintext)%nat -> (off + n <= length ciphertext)%nat ->
  wp (xor_out n off enc plaintext ciphertext) (fun c => length c = length ciphertext /\
    forall i, c !!! i = if bool_decide (off <= i < off + n)%nat then Z.lxor (enc !!! (i - off)%nat) (plaintext !!! i) else ciphertext !!! i).
Proof.
  intros He Hp Hc. unfold xor_out.
  apply (wp_for _ _ (fun k c => length c = length ciphertext /\ forall i, c !!! i =
    if bool_decide (off <= i < off + k)%nat then Z.lxor (enc !!! (i - off)%nat) (plaintext !!! i) else ciphertext !!! i)); [| |done].
  - split; [done|]. intros i. by rewrite bool_decide_false by lia.
  - intros k c Hk [Hl H]. rewrite !vget_total by lia. run. rewrite vset_total by lia. run.
    rewrite length_insert. split; [done|]. intros i. destruct (decide (i = off + k)%nat) as [->|Hne].
    + rewrite list_lookup_total_insert_eq by lia. rewrite bool_decide_true by lia.
      by replace (off + k - off)%nat with k by lia.
    + rewrite list_lookup_total_insert_ne by lia. rewrite H. repeat case_bool_decide; done || lia.
Qed.

Section aes_crhash.
Context `{SymmetricCrypto}.

Lemma AesCrHash_Hash_map plaintext ciphertext :
  length ciphertext = length plaintext -> AesCrHash_Hash plaintext ciphertext = Ok (map AesCrHash_Hash1 plaintext).
Proof.
  intros Hl. set (n := length plaintext). set (b := (n / kBatchSize)%nat).
  assert (b * kBatchSize <= n < b * kBatchSize + kBatchSize)%nat as Hb.
  { subst b. unfold kBatchSize. pose proof (Nat.div_mod_eq n 8). pose proof (Nat.mod_upper_bound n 8). lia. }
  set (J k c := length c = n /\ forall i, (i < k)%nat -> (i < n)%nat -> c !!! i = AesCrHash_Hash1 (plaintext !!! i)).
  assert (forall k c, (n <= k)%nat -> J k c -> c = map AesCrHash_Hash1 plaintext) as Hdone.
  { intros k c Hk [Hlc Hc]. apply list_eq_total; [rewrite length_map; done|]. intros i Hi.
    rewrite Hc by lia. by rewrite (list_lookup_total_fmap _ plaintext) by lia. }
  assert (forall m off enc c, (off + m <= n)%nat -> enc = Encrypt_all (take m (drop off plaintext)) ->
    J off c -> wp (xor_out m off enc plaintext c) (J (off + m)%nat)) as Hx.
  { intros m off enc c Hm -> [Hlc Hc]. assert (length (take m (drop off plaintext)) = m) as Ht by (rewrite length_take, length_drop; fold n; lia).
    eapply wp_mono; [apply xor_out_spec; unfold Encrypt_all; rewrite ?length_map; fold n; lia|].
    intros c' [Hlc' H']. split; [lia|]. intros i Hi Hin. rewrite H'. case_bool_decide as Hd; [|apply Hc; lia].
    unfold Encrypt_all. rewrite (list_lookup_total_fmap Encrypt) by lia.
    rewrite lookup_total_take_lt, lookup_total_drop by lia. by replace (off + (i - off))%nat with i by lia. }
  enough (wp (AesCrHash_Hash plaintext ciphertext) (fun c => c = map AesCrHash_Hash1 plaintext)) as Hw.
  { apply wp_iff in Hw. by destruct Hw as (c & -> & ->). }
  unfold AesCrHash_Hash. fold n b. apply wp_bind.
  apply (wp_for _ _ (fun k c => J (k * kBatchSize)%nat c)).
  - split; [done|]. intros i Hi. lia.
  - intros k c Hk HJ. replace (S k * kBatchSize)%nat with (k * kBatchSize + kBatchSize)%nat by lia.
    assert (S k * kBatchSize <= b * kBatchSize)%nat by (apply Nat.mul_le_mono_r; lia). apply Hx; [lia|done|done].
  - intros c HJ. case_bool_decide.
    + eapply wp_mono; [apply (Hx (n - b * kBatchSize)%nat); [lia| |exact HJ]|].
      * rewrite take_ge; [done|]. rewrite length_drop. done.
      * intros c'. apply Hdone. lia.
    + run. apply (Hdone (b * kBatchSize)%nat); [lia|done].
Qed.
End aes_crhash.

(** ** Rows of the scalar builder *)

(** A well-formed row: [weight] distinct columns below the sparse size. *)
Definition valid_row (weight : nat) (sparse_size : Z) (row : list Z) : Prop :=
  length row = weight /\ NoDup row /\ Forall (fun c => 0 <= c < sparse_size) row.

(** Columns for three words reduced modulo the size less 0, 1, 2. *)
Definition spread1 (r0 r1 r2 : Z) : list Z :=
  let r1' := if r0 <=? r1 then r1 + 1 else r1 in
  let lo := Z.min r0 r1 in
  let hi := if r0 <=? r1 then r1 + 1 else r0 in
  let r2 := if lo <=? r2 then r2 + 1 else r2 in
  let r2 := if hi <=? r2 then r2 + 1 else r2 in
  [r0; r1'; r2].

Lemma spread1_valid sp r0 r1 r2 :
  0 <= r0 < sp -> 0 <= r1 < sp - 1 -> 0 <= r2 < sp - 2 -> valid_row 3 sp (spread1 r0 r1 r2).
Proof.
  intros H0 H1 H2. unfold valid_row, spread1. split; [done|].
  rewrite !Forall_cons, !NoDup_cons, !not_elem_of_cons, Forall_nil.
  destruct (Z.leb_spec r0 r1), (Z.leb_spec (Z.min r0 r1) r2); repeat case_match; repeat split;
    try apply not_elem_of_nil; try apply NoDup_nil_2; lia.
Qed.

Definition mod_word (sp : Z) (hash : Z) (i : nat) : Z := word_at hash i mod (sp - Z.of_nat i).
Definition row3 (sp hash : Z) : list Z := spread1 (mod_word sp hash 0) (mod_word sp hash 1) (mod_word sp hash 2).

Lemma word_at_range hash i : 0 <= word_at hash i < 2 ^ 64.
Proof. apply u64_range. Qed.

Lemma mod_word_range sp hash i : Z.of_nat i < sp -> 0 <= mod_word sp hash i < sp - Z.of_nat i.
Proof. intros. unfold mod_word. apply Z.mod_pos_bound. lia. Qed.

Lemma row3_valid sp hash : 3 <= sp -> valid_row 3 sp (row3 sp hash).
Proof. intros. apply spread1_valid; [pose proof (mod_word_range sp hash 0)|pose proof (mod_word_range sp hash 1)|pose proof (mod_word_range sp hash 2)]; lia. Qed.

Section rows.
Context `{Libdivide}.
Context (idx : Z) (Hidx : 0 <= idx <= 64).

Lemma idx_le_64 z : 0 <= z < 2 ^ idx -> 0 <= z < 2 ^ 64.
Proof. intros. pose proof (Z.pow_le_mono_r 2 idx 64 ltac:(lia) ltac:(lia)). lia. Qed.

Lemma BuildRow3_row3 (h : PaxosHash) hash rows :
  3 <= sparse_size h < 2 ^ idx -> length rows = 3%nat -> BuildRow3 idx h hash rows = Ok (row3 (sparse_size h) hash).
Proof.
  intros Hs Hl. unfold BuildRow3. set (sp := sparse_size h) in *.
  assert (forall k, 0 <= k <= 2 -> 0 <= sp - k < 2 ^ 64) as H64 by (intros; pose proof (idx_le_64 (sp - k)); lia).
  rewrite (u64_small (sp - 1)), (u64_small (sp - 2)) by (apply H64; lia).
  rewrite !(proj2 (Z.eqb_neq _ 0)) by lia. run.
  pose proof (mod_word_range sp hash 0 ltac:(lia)) as H0. pose proof (mod_word_range sp hash 1 ltac:(lia)) as H1.
  pose proof (mod_word_range sp hash 2 ltac:(lia)) as H2. unfold row3.
  replace (word_at hash 0 mod sp) with (mod_word sp hash 0) by (unfold mod_word; f_equal; lia).
  change (word_at hash 1 mod (sp - 1)) with (mod_word sp hash 1). change (word_at hash 2 mod (sp - 2)) with (mod_word sp hash 2).
  generalize dependent (mod_word sp hash 0). generalize dependent (mod_word sp hash 1). generalize dependent (mod_word sp hash 2).
  intros r2 H2 r1 H1 r0 H0. rewrite !(wrap_small idx) by (unfold in_u; lia).
  rewrite !(proj2 (Z.ltb_lt _ _)) by lia. run.
  assert (u64 (r0 + r1 - Z.min r0 r1) = Z.max r0 r1) as ->.
  { rewrite u64_small; [lia|]. pose proof (H64 0). lia. }
  destruct rows as [|x [|y [|z [|]]]]; try done.
  assert ((Z.max r0 r1 =? r1) = (r0 <=? r1)) as -> by lia. unfold spread1.
  rewrite ?(wrap_small idx (r1 + 1)) by (unfold in_u; lia).
  rewrite (u64_small (Z.max r0 r1 + 1)) by (pose proof (H64 0); lia).
  rewrite ?(wrap_small idx (r2 + 1)) by (unfold in_u; lia).
  destruct (Z.leb_spec r0 r1).
  - rewrite Z.max_r by lia. destruct (Z.leb_spec (Z.min r0 r1) r2);
    rewrite ?(wrap_small idx (r2 + 1)), ?(wrap_small idx (r2 + 1 + 1)) by (unfold in_u; lia); reflexivity.
  - rewrite Z.max_l by lia. destruct (Z.leb_spec (Z.min r0 r1) r2);
    rewrite ?(wrap_small idx (r2 + 1)), ?(wrap_small idx (r2 + 1 + 1)) by (unfold in_u; lia); reflexivity.
Qed.

(** *** Rows of any other weight: the columns built so far are ascending. *)
Definition ascending (j : nat) (rows : list Z) : Prop :=
  forall a b, (a < b < j)%nat -> rows !!! a < rows !!! b.

Lemma scan_spec sp j rows : forall fuel iter c,
  (iter + fuel = j)%nat -> (j <= length rows)%nat -> 0 <= c -> c + Z.of_nat fuel < 2 ^ 64 -> ascending j rows ->
  (forall a, (a < iter)%nat -> rows !!! a < c) -> c + Z.of_nat fuel < sp ->
  wp (scan fuel iter j rows c) (fun '(p, c') => (p <= j)%nat /\ 0 <= c' < sp /\
    (forall a, (a < p)%nat -> rows !!! a < c') /\ (forall a, (p <= a < j)%nat -> c' < rows !!! a)).
Proof.
  intros fuel. induction fuel as [|fuel IH]; intros iter c Hi Hj Hc H64 Hasc Hlt Hsp; cbn [scan].
  - run. split; [lia|]. split; [lia|]. split; [done|]. intros a Ha. lia.
  - rewrite bool_decide_false by lia. rewrite vget_total by lia. run.
    destruct (Z.leb_spec (rows !!! iter) c).
    + rewrite u64_small by lia. apply IH; try lia; [done|]. intros a Ha.
      destruct (decide (a = iter)) as [->|]; [lia|]. specialize (Hlt a ltac:(lia)). lia.
    + split; [lia|]. split; [lia|]. split; [done|]. intros a Ha.
      destruct (decide (a = iter)) as [->|]; [lia|]. pose proof (Hasc iter a ltac:(lia)). lia.
Qed.

Lemma shift_up_spec p : forall fuel e rows,
  (p <= e <= p + fuel)%nat -> (e < length rows)%nat ->
  wp (shift_up fuel p e rows) (fun r => length r = length rows /\
    forall a, r !!! a = if bool_decide (p < a <= e)%nat then rows !!! (a - 1)%nat else rows !!! a).
Proof.
  intros fuel. induction fuel as [|fuel IH]; intros e rows He Hl; cbn [shift_up].
  - run. split; [done|]. intros a. by rewrite bool_decide_false by lia.
  - case_bool_decide as Hpe; [subst; split; [done|]; intros a; by rewrite bool_decide_false by lia|].
    rewrite vget_total by lia. run. rewrite vset_total by lia. run.
    eapply wp_mono; [apply IH; rewrite ?length_insert; lia|]. intros r [Hlr Hr]. rewrite length_insert in Hlr.
    split; [done|]. intros a. rewrite Hr. destruct (decide (a = e)) as [->|].
    + rewrite bool_decide_false by lia. rewrite list_lookup_total_insert_eq by lia. by rewrite bool_decide_true by lia.
    + repeat case_bool_decide; try lia; rewrite ?list_lookup_total_insert_ne by lia; done.
Qed.

Definition row_inv (sp : Z) (weight j : nat) (rows : list Z) : Prop :=
  length rows = weight /\ ascending j rows /\ forall a, (a < j)%nat -> 0 <= rows !!! a < sp.

(** Inserting [c] at [p] keeps the columns ascending. *)
Lemma ascending_insert sp w j p c rows r :
  (j < w)%nat -> (p <= j)%nat -> row_inv sp w j rows -> 0 <= c < sp -> length r = w ->
  (forall a, (a < p)%nat -> rows !!! a < c) -> (forall a, (p <= a < j)%nat -> c < rows !!! a) ->
  (forall a, r !!! a = if bool_decide (p < a <= j)%nat then rows !!! (a - 1)%nat else rows !!! a) ->
  row_inv sp w (S j) (<[p := c]> r).
Proof.
  intros Hj Hp (Hl & Hasc & Hr) Hc Hlr Hlo Hhi Hsh. split; [by rewrite length_insert|].
  assert (forall a, (a < S j)%nat -> <[p:=c]> r !!! a =
    if bool_decide (a = p) then c else if bool_decide (p < a)%nat then rows !!! (a - 1)%nat else rows !!! a) as E.
  { intros a Ha. case_bool_decide as Hap; [subst; by rewrite list_lookup_total_insert_eq by lia|].
    rewrite list_lookup_total_insert_ne by done. rewrite Hsh. repeat case_bool_decide; done || lia. }
  split.
  - intros a b Hab. rewrite !E by lia. pose proof (Hlo a) as La. pose proof (Hhi (b - 1)%nat) as Hb.
    repeat case_bool_decide; try lia; apply Hasc; lia.
  - intros a Ha. rewrite E by lia. repeat case_bool_decide; try lia; apply Hr; lia.
Qed.

Lemma build_col_spec avx (h : PaxosHash) j hh rows :
  0 <= sparse_size h < 2 ^ idx -> Z.of_nat (weight h) <= sparse_size h -> (j < weight h)%nat ->
  row_inv (sparse_size h) (weight h) j rows ->
  wp (build_col avx idx h j (hh, rows)) (fun s => row_inv (sparse_size h) (weight h) (S j) s.2).
Proof.
  intros Hs Hw Hj Hinv. pose proof Hinv as (Hl & Hasc & Hr). unfold build_col. set (sp := sparse_size h) in *.
  pose proof (idx_le_64 sp Hs). rewrite (u64_small (sp - Z.of_nat j)) by lia.
  rewrite (proj2 (Z.eqb_neq _ 0)) by lia. run.
  pose proof (Z.mod_pos_bound (u64 (Mul avx hh hh)) (sp - Z.of_nat j) ltac:(lia)) as Hc.
  apply wp_bind. eapply wp_mono; [apply (scan_spec sp j); [lia|lia|lia|lia|done|intros a Ha; lia|lia]|].
  intros [p c] (Hp & Hc' & Hlo & Hhi).
  apply wp_bind. eapply wp_mono; [apply (shift_up_spec p j j rows); lia|]. intros r (Hlr & Hsh).
  rewrite vset_total by lia. run. rewrite wrap_small by (unfold in_u; lia). cbn [snd].
  apply (ascending_insert sp (weight h) j p c rows); done || lia.
Qed.

Lemma ascending_NoDup rows : ascending (length rows) rows -> NoDup rows.
Proof.
  intros Ha. apply NoDup_alt. intros a b x Hx Hy.
  pose proof (lookup_lt_Some _ _ _ Hx). pose proof (lookup_lt_Some _ _ _ Hy).
  apply list_lookup_total_correct in Hx, Hy. destruct (lt_eq_lt_dec a b) as [[Hlt|]|Hlt]; [|done|].
  - pose proof (Ha a b ltac:(lia)). lia.
  - pose proof (Ha b a ltac:(lia)). lia.
Qed.

Lemma row_inv_valid sp w rows : row_inv sp w w rows -> valid_row w sp rows.
Proof.
  intros (Hl & Ha & Hr). split; [done|]. split; [apply ascending_NoDup; by rewrite Hl|].
  apply Forall_lookup_2. intros i x Hx. pose proof (lookup_lt_Some _ _ _ Hx).
  apply list_lookup_total_correct in Hx as <-. apply Hr. lia.
Qed.

Lemma BuildRow_spec avx (h : PaxosHash) hash rows :
  0 <= sparse_size h < 2 ^ idx -> Z.of_nat (weight h) <= sparse_size h -> length rows = weight h ->
  wp (BuildRow avx idx h hash rows) (valid_row (weight h) (sparse_size h)).
Proof.
  intros Hs Hw Hl. unfold BuildRow. case_bool_decide as H3.
  - rewrite BuildRow3_row3 by lia. run. rewrite H3. apply row3_valid. lia.
  - apply wp_bind. apply (wp_for _ _ (fun j s => row_inv (sparse_size h) (weight h) j s.2)).
    + split; [done|]. split; [intros a b Hab; lia|intros a Ha; lia].
    + intros j [hh r] Hj HJ. by apply build_col_spec.
    + intros [hh r] HJ. run. by apply row_inv_valid.
Qed.

(** The squarings of the hash do not depend on the multiplier. *)
Lemma build_cols_avx (h : PaxosHash) n : forall j hh rows,
  elem hh -> for_from n j (build_col true idx h) (hh, rows) = for_from n j (build_col false idx h) (hh, rows).
Proof.
  induction n as [|n IH]; intros j hh rows Hh; [done|]. cbn [for_from].
  assert (build_col true idx h j (hh, rows) = build_col false idx h j (hh, rows)) as ->
    by (unfold build_col; by rewrite !Mul_gmul by done).
  destruct (build_col false idx h j (hh, rows)) as [[hh' r]| |] eqn:E; [|done..]. run. apply IH.
  revert E. unfold build_col. rewrite Mul_gmul by done. pose proof (gmul_elem hh hh Hh Hh) as Hg.
  generalize dependent (gmul hh hh). intros g Hg.
  destruct (negb _); run; [|discriminate]. destruct (scan _ _ _ _ _) as [[p c]| |]; run; [|discriminate..].
  destruct (shift_up _ _ _ _) as [r1| |]; run; [|discriminate..].
  destruct (vset _ _ _) as [r2| |]; run; [|discriminate..]. intros [= <- _]. exact Hg.
Qed.

Lemma BuildRow_avx (h : PaxosHash) hash rows :
  elem hash -> BuildRow true idx h hash rows = BuildRow false idx h hash rows.
Proof. intros Hh. unfold BuildRow, for_. by rewrite build_cols_avx. Qed.
End rows.

(** ** The vectorized builder *)
Lemma lane_i64 x : 0 <= x < 2 ^ 63 -> i64 x = x.
Proof.
  intros. unfold i64, to_signed. change (wrap 64 x) with (u64 x). rewrite u64_small by lia.
  change (64 - 1) with 63. by rewrite (proj2 (Z.ltb_lt _ _)) by lia.
Qed.

(** Subtracting an all-ones mask adds one, an empty mask nothing. *)
Lemma sub_mask x (b : bool) : 0 <= x < 2 ^ 63 -> u64 (x - (if b then 2 ^ 64 - 1 else 0)) = if b then x + 1 else x.
Proof.
  intros. destruct b; [|rewrite Z.sub_0_r; apply u64_small; lia].
  rewrite <- (u64_small (x + 1)) by lia. apply (wrap_congr 64 _ _ (-1)); lia.
Qed.

Lemma not_mask (b : bool) : Z.lxor (if b then 2 ^ 64 - 1 else 0) (2 ^ 64 - 1) = if b then 0 else 2 ^ 64 - 1.
Proof. by destruct b. Qed.

(** The bit tricks select the larger and the smaller lane. *)
Lemma lane_max a b : 0 <= a < 2 ^ 63 -> 0 <= b < 2 ^ 63 ->
  Z.lxor (Z.land (Z.lxor a b) (if b <? a then 2 ^ 64 - 1 else 0)) b = Z.max a b.
Proof.
  intros. destruct (Z.ltb_spec b a).
  - change (2 ^ 64 - 1) with (Z.ones 64). rewrite Z.land_ones, Z.mod_small by (try apply lxor_range; lia).
    rewrite Z.lxor_assoc, Z.lxor_nilpotent, Z.lxor_0_r. lia.
  - rewrite Z.land_0_r, Z.lxor_0_l. lia.
Qed.
Lemma lane_min a b : Z.lxor (Z.lxor a b) (Z.max a b) = Z.min a b.
Proof.
  destruct (Z.max_spec a b) as [[? ->]|[? ->]].
  - rewrite Z.lxor_assoc, Z.lxor_nilpotent, Z.lxor_0_r. lia.
  - rewrite (Z.lxor_comm a b), Z.lxor_assoc, Z.lxor_nilpotent, Z.lxor_0_r. lia.
Qed.

Definition lane_row (row : list Z) (l : lanes * lanes * lanes) (k : nat) : Prop :=
  let '(a, b, c) := l in [a !!! k; b !!! k; c !!! k] = row.

Lemma spread_lane sp a b c :
  sp < 2 ^ 63 -> 0 <= a < sp -> 0 <= b < sp - 1 -> 0 <= c < sp - 2 ->
  spread [a] [b] [c] = ([a], [spread1 a b c !!! 1%nat], [spread1 a b c !!! 2%nat]).
Proof.
  intros Hsp Ha Hb Hc. unfold spread, mm_cmpgt_epi64, mm_xor, mm_and, mm_cmpeq_epi64, mm_sub_epi64, mm_not.
  cbn [zip_with map]. rewrite !(lane_i64 a), !(lane_i64 b), !(lane_i64 c) by lia.
  rewrite lane_max, lane_min by lia. rewrite !(lane_i64 (Z.min a b)) by lia. unfold spread1.
  rewrite (sub_mask b), (sub_mask (Z.max a b)) by lia. rewrite !not_mask.
  assert ((Z.max a b =? b) = (a <=? b)) as -> by lia.
  assert (forall b : bool, (if b then 0 else 2 ^ 64 - 1) = if negb b then 2 ^ 64 - 1 else 0) as Hn by (intros []; done).
  rewrite !Hn. rewrite !(sub_mask c) by lia. rewrite <- !Z.leb_antisym.
  assert ((if a <=? b then Z.max a b + 1 else Z.max a b) = (if a <=? b then b + 1 else a)) as ->
    by (destruct (Z.leb_spec a b); lia).
  rewrite !(lane_i64 (if a <=? b then b + 1 else a)) by (destruct (Z.leb_spec a b); lia).
  rewrite !(lane_i64 (if Z.min a b <=? c then c + 1 else c)) by (destruct (Z.leb_spec (Z.min a b) c); lia).
  rewrite sub_mask by (destruct (Z.leb_spec (Z.min a b) c); lia).
  reflexivity.
Qed.

(** Lanes are independent. *)
Lemma spread_cons a b c la lb lc :
  spread (a :: la) (b :: lb) (c :: lc) =
  let '(x, y, z) := spread [a] [b] [c] in let '(lx, ly, lz) := spread la lb lc in (x ++ lx, y ++ ly, z ++ lz).
Proof. done. Qed.

Lemma spread_map sp hs :
  3 <= sp < 2 ^ 63 ->
  spread (map (fun x => mod_word sp x 0) hs) (map (fun x => mod_word sp x 1) hs) (map (fun x => mod_word sp x 2) hs)
  = (map (fun x => row3 sp x !!! 0%nat) hs, map (fun x => row3 sp x !!! 1%nat) hs, map (fun x => row3 sp x !!! 2%nat) hs).
Proof.
  intros Hsp. induction hs as [|x hs IH]; [done|]. cbn [map]. rewrite spread_cons, IH.
  pose proof (mod_word_range sp x 0 ltac:(lia)). pose proof (mod_word_range sp x 1 ltac:(lia)).
  pose proof (mod_word_range sp x 2 ltac:(lia)).
  rewrite (spread_lane sp) by lia. done.
Qed.

(** A loop that writes value [g i] at position [p i]. *)
Lemma wp_for_scatter {A} `{!Inhabited A} n (p : nat -> nat) (g : nat -> A) (f : nat -> list A -> res (list A)) s :
  (forall i, (i < n)%nat -> (p i < length s)%nat) -> (forall i k, (i < n)%nat -> (k < n)%nat -> p i = p k -> i = k) ->
  (forall i v, (i < n)%nat -> f i v = vset v (p i) (g i)) ->
  wp (for_ n f s) (fun r => length r = length s /\ (forall i, (i < n)%nat -> r !!! p i = g i) /\
    forall t, (forall i, (i < n)%nat -> t <> p i) -> r !!! t = s !!! t).
Proof.
  intros Hp Hinj Hf.
  apply (wp_for _ _ (fun k r => length r = length s /\ (forall i, (i < k)%nat -> (i < n)%nat -> r !!! p i = g i) /\
    forall t, (forall i, (i < k)%nat -> t <> p i) -> r !!! t = s !!! t)).
  - split; [done|]. split; [intros; lia|done].
  - intros k r Hk (Hl & H1 & H2). rewrite Hf by done. pose proof (Hp k Hk). rewrite vset_total by lia. run.
    rewrite length_insert. split; [done|]. split.
    + intros i Hi Hin. destruct (decide (i = k)) as [->|].
      * apply list_lookup_total_insert_eq. lia.
      * rewrite list_lookup_total_insert_ne; [apply H1; lia|]. intros E. apply Hinj in E; lia.
    + intros t Ht. rewrite list_lookup_total_insert_ne by (intros <-; apply (Ht k); [lia|done]). apply H2. intros i Hi. apply Ht. lia.
  - intros r (Hl & H1 & H2). split; [done|]. split; [intros i Hi; by apply H1|done].
Qed.

Section builder32.
Context `{SymmetricCrypto} `{LibdivideLaws}.
Context (idx : Z) (Hidx : 0 <= idx <= 64).

Lemma mod32_init w sp vals i :
  (i < w)%nat -> Z.of_nat w <= sp < 2 ^ 64 -> Forall (in_u 64) vals ->
  mod32 (init w sp) vals i = Ok (map (fun v => v mod (sp - Z.of_nat i)) vals).
Proof.
  intros Hi Hsp Hv. unfold mod32, init. cbn [mods mod_vals]. unfold vget. rewrite !lookup_map, lookup_seq_lt by done.
  cbn [fmap option_fmap option_map]. run. f_equal. unfold DoMod32. apply map_ext_in. intros v Hin.
  rewrite Forall_forall in Hv. specialize (Hv v (proj2 (list_elem_of_In _ _) Hin)). unfold in_u in Hv.
  rewrite Nat.add_0_l, (u64_small (sp - Z.of_nat i)) by lia. rewrite libdivide_exact by lia.
  set (d := sp - Z.of_nat i). assert (0 < d) by (subst d; lia).
  pose proof (div_mul_bounds v d ltac:(lia) ltac:(lia)). pose proof (Z.mod_pos_bound v d ltac:(lia)).
  pose proof (Z.div_mod v d ltac:(lia)). rewrite (u64_small (v / d * d)) by lia. rewrite u64_small by lia. lia.
Qed.

Lemma store_half_spec i (ls : list lanes) rows (g : nat -> nat -> Z) :
  (i < 2)%nat -> length rows = 96%nat ->
  (forall j, (j < 3)%nat -> exists l : lanes, ls !! j = Some l /\ length l = 16%nat /\
     forall k, (k < 16)%nat -> wrap idx (l !!! k) = g k j) ->
  wp (store_half idx i ls rows) (fun r => length r = 96%nat /\
    (forall k j, (k < 16)%nat -> (j < 3)%nat -> r !!! (48 * i + (3 * k + j))%nat = g k j) /\
    forall t, (t < 48 * i \/ 48 * i + 48 <= t)%nat -> r !!! t = rows !!! t).
Proof.
  intros Hi Hl Hls. unfold store_half.
  apply (wp_for _ _ (fun n r => length r = 96%nat /\
    (forall k j, (k < 16)%nat -> (j < n)%nat -> (j < 3)%nat -> r !!! (48 * i + (3 * k + j))%nat = g k j) /\
    forall t, (t < 48 * i \/ 48 * i + 48 <= t)%nat -> r !!! t = rows !!! t)).
  - split; [done|]. split; [intros; lia|done].
  - intros j r Hj (Hlr & Hr1 & Hr2). destruct (Hls j Hj) as (l & El & Hll & Hg). rewrite (proj2 (vget_ok _ _ _) El). run.
    eapply wp_mono; [apply (wp_for_scatter 16 (fun k => 3 * 16 * i + (3 * k + j))%nat (fun k => g k j)); [intros; lia|intros; lia|]|].
    + intros k v Hk. rewrite vget_total by lia. run. by rewrite Hg.
    + intros r' (Hl' & HA & HB). split; [lia|]. split.
      * intros k j' Hk Hj' Hj3. destruct (decide (j' = j)) as [->|]; [exact (HA k Hk)|].
        rewrite HB by (intros; lia). apply Hr1; lia.
      * intros t Ht. rewrite HB by (intros; lia). by apply Hr2.
  - intros r (Hlr & Hr1 & Hr2). split; [done|]. split; [intros; apply Hr1; lia|done].
Qed.

Definition rows3 (sp : Z) (hash r : list Z) : Prop :=
  length r = 96%nat /\ forall k j, (k < 32)%nat -> (j < 3)%nat -> r !!! (3 * k + j)%nat = row3 sp (hash !!! k) !!! j.

Lemma rows3_unique sp hash r r' : rows3 sp hash r -> rows3 sp hash r' -> r = r'.
Proof.
  intros [Hl HA] [Hl' HA']. apply list_eq_total; [lia|]. intros t Ht.
  pose proof (Nat.div_mod_eq t 3). pose proof (Nat.mod_upper_bound t 3 ltac:(lia)).
  assert (t / 3 < 32)%nat by (apply Nat.Div0.div_lt_upper_bound; lia).
  replace t with (3 * (t / 3) + t mod 3)%nat by lia. by rewrite HA, HA' by lia.
Qed.

Lemma row3_in sp x j : 3 <= sp < 2 ^ idx -> (j < 3)%nat -> wrap idx (row3 sp x !!! j) = row3 sp x !!! j.
Proof.
  intros Hsp Hj. pose proof (row3_valid sp x ltac:(lia)) as (Hl & _ & HF).
  pose proof (Forall_lookup_total_1 _ _ j HF ltac:(lia)) as Hr. cbn beta in Hr. apply wrap_small. unfold in_u. lia.
Qed.

Lemma lookup_total_map_lt {A B} `{!Inhabited A, !Inhabited B} (f : A -> B) l k : (k < length l)%nat -> map f l !!! k = f (l !!! k).
Proof. apply (list_lookup_total_fmap f l). Qed.

Lemma BuildRow32_avx_rows3 sp hash rows :
  3 <= sp < 2 ^ 63 -> sp < 2 ^ idx -> (32 <= length hash)%nat -> length rows = 96%nat ->
  wp (BuildRow32_avx idx (init 3 sp) hash rows) (rows3 sp hash).
Proof.
  intros Hsp Hi Hh Hl. unfold BuildRow32_avx.
  rewrite (for_push 32 _ (fun k => hash !!! k)) by (intros; apply vget_total; lia). rewrite app_nil_l. run.
  set (hs := tabulate 32 (fun k => hash !!! k)). assert (length hs = 32%nat) as Hhs by apply length_tabulate.
  assert (forall i, Forall (in_u 64) (map (fun x => word_at x i) hs)) as Hw.
  { intros i. apply Forall_lookup_2. intros k y. rewrite lookup_map. intros (x & _ & ->)%fmap_Some. apply word_at_range. }
  rewrite !mod32_init by (done || lia). run. rewrite !map_map.
  change (fun x => word_at x 0 mod (sp - Z.of_nat 0)) with (fun x => mod_word sp x 0).
  change (fun x => word_at x 1 mod (sp - Z.of_nat 1)) with (fun x => mod_word sp x 1).
  change (fun x => word_at x 2 mod (sp - Z.of_nat 2)) with (fun x => mod_word sp x 2).
  apply (wp_for _ _ (fun n r => length r = 96%nat /\
    forall k j, (k < 16 * n)%nat -> (k < 32)%nat -> (j < 3)%nat -> r !!! (3 * k + j)%nat = row3 sp (hash !!! k) !!! j)).
  - split; [done|]. intros; lia.
  - intros i r Hi2 (Hlr & Hr). cbv zeta. rewrite !skipn_map, !firstn_map. rewrite spread_map by lia.
    set (half := take 16 (drop (16 * i) hs)). assert (length half = 16%nat) as Hhalf by (subst half; rewrite length_take, length_drop; lia).
    eapply wp_mono; [apply (store_half_spec i _ r (fun k j => row3 sp (hash !!! (16 * i + k)%nat) !!! j)); [done|done|]|].
    + intros j Hj. exists (map (fun x => row3 sp x !!! j) half).
      split; [destruct j as [|[|[|]]]; (done || lia)|]. split; [by rewrite length_map|]. intros k Hk.
      rewrite lookup_total_map_lt, row3_in by (done || lia). do 2 f_equal. subst half.
      rewrite lookup_total_take_lt, lookup_total_drop by lia. subst hs. by rewrite tabulate_lookup by lia.
    + intros r' (Hl' & HA & HB). split; [done|]. intros k j Hk Hk32 Hj. destruct (decide (k < 16 * i)%nat).
      * rewrite HB by lia. by apply Hr.
      * pose proof (HA (k - 16 * i)%nat j ltac:(lia) Hj) as E.
        replace (48 * i + (3 * (k - 16 * i) + j))%nat with (3 * k + j)%nat in E by lia.
        by replace (16 * i + (k - 16 * i))%nat with k in E by lia.
  - intros r (Hlr & Hr). split; [done|]. intros; apply Hr; lia.
Qed.

Lemma BuildRow32_scalar_rows3 avx sp hash rows :
  3 <= sp < 2 ^ idx -> (32 <= length hash)%nat -> length rows = 96%nat ->
  wp (BuildRow32_scalar avx idx (init 3 sp) hash rows) (rows3 sp hash).
Proof.
  intros Hsp Hh Hl. unfold BuildRow32_scalar. cbn [weight init].
  apply (wp_for _ _ (fun n r => length r = 96%nat /\
    forall k j, (k < n)%nat -> (j < 3)%nat -> r !!! (3 * k + j)%nat = row3 sp (hash !!! k) !!! j)); [| |done].
  - split; [done|]. intros; lia.
  - intros i r Hi (Hlr & Hr). rewrite vget_total by lia. run. unfold BuildRow. cbn [weight init].
    rewrite bool_decide_true by done. assert (length (take 3 (drop (i * 3) r)) = 3%nat) by (rewrite length_take, length_drop; lia).
    rewrite BuildRow3_row3 by done. run. cbn [sparse_size init]. pose proof (row3_valid sp (hash !!! i) ltac:(lia)) as (H3 & _).
    split; [rewrite !length_app, length_take, length_drop; lia|]. intros k j Hk Hj.
    assert (length (take (i * 3) r) = (i * 3)%nat) by (rewrite length_take; lia). destruct (decide (k = i)) as [->|].
    + rewrite lookup_total_app_r by lia. rewrite lookup_total_app_l by lia. f_equal. lia.
    + rewrite lookup_total_app_l by lia. rewrite lookup_total_take_lt by lia. apply Hr; lia.
Qed.
End builder32.

(** C32.  The vectorized row builder is the scalar one: for any 32 hashes, on a
    CPU with AVX2 and on one without, [BuildRow32] fills the same rows, at every
    weight and index width. *)
Theorem BuildRow32_equivalence `{LibdivideLaws} idx (w : nat) sp hash rows :
  0 <= idx <= 64 -> Z.of_nat w <= sp < 2 ^ 63 -> sp < 2 ^ idx ->
  (32 <= length hash)%nat -> Forall (in_u 128) hash -> length rows = (32 * w)%nat ->
  BuildRow32 true idx (init w sp) hash rows = BuildRow32 false idx (init w sp) hash rows.
Proof.
  intros Hidx Hsp Hi Hh HF Hl. unfold BuildRow32. cbn [weight init]. case_bool_decide as H3; cbn [andb].
  - subst w. pose proof (BuildRow32_avx_rows3 idx Hidx sp hash rows ltac:(lia) Hi Hh Hl) as Ha.
    pose proof (BuildRow32_scalar_rows3 idx Hidx false sp hash rows ltac:(lia) Hh Hl) as Hb.
    apply wp_iff in Ha as (r & -> & Hr). apply wp_iff in Hb as (r' & -> & Hr'). f_equal. by eapply rows3_unique.
  - unfold BuildRow32_scalar. apply for_ext. intros k r Hk. rewrite vget_total by lia. run.
    rewrite BuildRow_avx; [done|]. apply (Forall_lookup_total_1 _ _ k HF). lia.
Qed.

(** C35.  Every row is well formed: [BuildRow] writes [weight] distinct columns,
    each below the sparse size, whatever the hash, so a key never cancels its
    own column. *)
Theorem BuildRow_valid `{Libdivide} avx idx (w : nat) sp hash rows :
  0 <= idx <= 64 -> Z.of_nat w <= sp < 2 ^ idx -> length rows = w ->
  wp (BuildRow avx idx (init w sp) hash rows) (fun r =>
    length r = w /\ NoDup r /\ Forall (fun c => 0 <= c < sp) r).
Proof. intros Hidx Hsp Hl. apply (BuildRow_spec idx Hidx avx (init w sp)); cbn [sparse_size weight init]; lia. Qed.

(** ** Witnesses: plain division *)
Definition plain_libdivide : Libdivide := Build_Libdivide Z (fun d => d) Z.div.
Lemma plain_libdivide_laws : @LibdivideLaws plain_libdivide.
Proof. constructor. done. Qed.

Definition sample_hashes : list Z := map (fun i => u128 (Z.of_nat i * 0x9E3779B97F4A7C15F39CC0605CEDC835)) (seq 1 32).
Lemma sample_hashes_ok : (32 <= length sample_hashes)%nat /\ Forall (in_u 128) sample_hashes.
Proof.
  split; [vm_compute; lia|]. apply Forall_lookup_2. intros i x. unfold sample_hashes. rewrite lookup_map.
  intros (k & _ & ->)%fmap_Some. apply (wrap_range 128). lia.
Qed.

Lemma BuildRow32_equivalence_witness :
  is_ok (@BuildRow32 plain_libdivide true 16 (@init plain_libdivide 3 40) sample_hashes (replicate 96 0)) = true /\
  @BuildRow32 plain_libdivide true 16 (@init plain_libdivide 3 40) sample_hashes (replicate 96 0) =
  @BuildRow32 plain_libdivide false 16 (@init plain_libdivide 3 40) sample_hashes (replicate 96 0).
Proof.
  split; [vm_compute; reflexivity|]. destruct sample_hashes_ok as [Hl HF].
  exact (@BuildRow32_equivalence plain_libdivide plain_libdivide_laws 16 3 40 sample_hashes (replicate 96 0)
    ltac:(lia) ltac:(lia) ltac:(lia) Hl HF eq_refl).
Defined.

Lemma BuildRow_valid_witness :
  wp (@BuildRow plain_libdivide true 8 (@init plain_libdivide 5 9) 0xF39CC0605CEDC8359E3779B97F4A7C15 (replicate 5 0)) (fun r =>
    length r = 5%nat /\ NoDup r /\ Forall (fun c => 0 <= c < 9) r).
Proof.
  exact (@BuildRow_valid plain_libdivide true 8 5 9 _ (replicate 5 0) ltac:(lia) ltac:(lia) eq_refl).
Defined.
