(* ===== verification/WeightData.v ===== *)
(** * Columns sorted by weight (psi/algorithm/rr22/okvs/paxos_utils.h)

    [WeightData] keeps the columns of the PaXoS matrix that are not fixed yet in
    doubly linked lists threaded through one array of nodes, a list for each
    weight.  A pointer to a node is its index, a link an [IdxType] with
    [NullNode] as its null.  The file shows that the structure implements a
    finite map from columns to weights. *)
From S2P Require Import Prelude.

Record WeightNode := mkNode { weight : Z; prev_weight_node : Z; next_weight_node : Z }.
#[export] Instance WeightNode_eq_dec : EqDecision WeightNode.
Proof. solve_decision. Defined.

Record WeightData := mkWeightData {
  weight_sets : list (option nat);
  nodes : list WeightNode;
  node_alloc_size : Z
}.

Section weight_data.
(** The width of [IdxType]. *)
Context (idx : Z).

Definition NullNode : Z := 2 ^ idx - 1.
Definition IdxOf (node : nat) : Z := wrap idx (Z.of_nat node).

Definition set_weight (w : Z) (n : WeightNode) := mkNode w (prev_weight_node n) (next_weight_node n).
Definition set_prev (p : Z) (n : WeightNode) := mkNode (weight n) p (next_weight_node n).
Definition set_next (x : Z) (n : WeightNode) := mkNode (weight n) (prev_weight_node n) x.

(** An assignment to a field of the node at an index. *)
Definition update (i : nat) (f : WeightNode -> WeightNode) (ns : list WeightNode) : res (list WeightNode) :=
  n ← vget ns i; vset ns i (f n).
Definition with_nodes (s : WeightData) (ns : list WeightNode) := mkWeightData (weight_sets s) ns (node_alloc_size s).

(** [cur = cur->next ...], counting. *)
Fixpoint chain_length (fuel : nat) (s : WeightData) (cur : option nat) : res Z :=
  match cur with
  | None => Ok 0
  | Some i =>
      match fuel with
      | O => UB
      | S fuel' =>
          n ← vget (nodes s) i;
          r ← chain_length fuel' s (if next_weight_node n =? NullNode then None else Some (Z.to_nat (next_weight_node n)));
          Ok (r + 1)
      end
  end.
Definition SetSize (s : WeightData) (w : nat) : res Z :=
  cur ← vget (weight_sets s) w; chain_length (length (nodes s)) s cur.

(** [weight_sets.resize(n, nullptr)]. *)
Definition resize_sets (n : Z) (ws : list (option nat)) : list (option nat) := resize (Z.to_nat n) None ws.

Definition PushNode (node : nat) (s : WeightData) : res WeightData :=
  n ← vget (nodes s) node;
  _ ← enforce (next_weight_node n =? NullNode);
  _ ← enforce (prev_weight_node n =? NullNode);
  let ws := if Z.of_nat (length (weight_sets s)) <=? weight n then resize_sets (weight n + 1) (weight_sets s) else weight_sets s in
  slot ← vgetz ws (weight n);
  match slot with
  | None =>
      ws ← vsetz ws (weight n) (Some node);
      Ok (mkWeightData ws (nodes s) (node_alloc_size s))
  | Some first =>
      f ← vget (nodes s) first;
      _ ← enforce (prev_weight_node f =? NullNode);
      ns ← update first (set_prev (IdxOf node)) (nodes s);
      ns ← update node (set_next (IdxOf first)) ns;
      ws ← vsetz ws (weight n) (Some node);
      Ok (mkWeightData ws ns (node_alloc_size s))
  end.

(** [while (weight_sets.back() == nullptr) weight_sets.pop_back();], on the
    vector from its back; [back] of an empty vector is undefined. *)
Fixpoint pop_nulls (rev_ws : list (option nat)) : res (list (option nat)) :=
  match rev_ws with
  | [] => UB
  | None :: rest => pop_nulls rest
  | Some _ :: _ => Ok rev_ws
  end.

Definition PopNode (node : nat) (s : WeightData) : res WeightData :=
  n ← vget (nodes s) node;
  '(ws, ns) ←
    (if prev_weight_node n =? NullNode then
       slot ← vgetz (weight_sets s) (weight n);
       _ ← enforce (bool_decide (slot = Some node));
       if next_weight_node n =? NullNode then
         ws ← vsetz (weight_sets s) (weight n) None;
         ws ← pop_nulls (reverse ws);
         Ok (reverse ws, nodes s)
       else
         ws ← vsetz (weight_sets s) (weight n) (Some (Z.to_nat (next_weight_node n)));
         ns ← update (Z.to_nat (next_weight_node n)) (set_prev NullNode) (nodes s);
         Ok (ws, ns)
     else
       let prev := Z.to_nat (prev_weight_node n) in
       if next_weight_node n =? NullNode then
         ns ← update prev (set_next NullNode) (nodes s); Ok (weight_sets s, ns)
       else
         let next := Z.to_nat (next_weight_node n) in
         ns ← update prev (set_next (IdxOf next)) (nodes s);
         ns ← update next (set_prev (IdxOf prev)) ns;
         Ok (weight_sets s, ns));
  ns ← update node (set_prev NullNode) ns;
  ns ← update node (set_next NullNode) ns;
  Ok (mkWeightData ws ns (node_alloc_size s)).

(** [node.weight = w]. *)
Definition assign_weight (node : nat) (w : Z) (s : WeightData) : res WeightData :=
  ns ← update node (set_weight w) (nodes s); Ok (with_nodes s ns).

(** [PopNode(node); --node.weight; PushNode(node)]. *)
Definition reinsert (node : nat) (s : WeightData) : res WeightData :=
  s ← PopNode node s;
  n ← vget (nodes s) node;
  s ← assign_weight node (wrap idx (weight n - 1)) s;
  PushNode node s.

Definition DecementWeight (node : nat) (s : WeightData) : res WeightData :=
  n ← vget (nodes s) node;
  _ ← enforce (negb (weight n =? 0));
  reinsert node s.

Fixpoint first_node (ws : list (option nat)) : res nat :=
  match ws with
  | [] => Throw
  | Some n :: _ => Ok n
  | None :: ws' => first_node ws'
  end.
Definition GetMinWeightNode (s : WeightData) : res nat := first_node (drop 1 (weight_sets s)).

(** The loop of [init]: node [i] becomes the first of its weight. *)
Definition init_node (weights : list Z) (i : nat) (st : list (option nat) * list WeightNode)
    : res (list (option nat) * list WeightNode) :=
  let '(ws, ns) := st in
  w ← vget weights i;
  ns ← vset ns i (mkNode w NullNode NullNode);
  _ ← enforce (w <? Z.of_nat (length ws));
  slot ← vgetz ws w;
  ns ← match slot with
       | None => Ok ns
       | Some first =>
           f ← vget ns first;
           _ ← enforce (prev_weight_node f =? NullNode);
           ns ← update first (set_prev (IdxOf i)) ns;
           update i (set_next (IdxOf first)) ns
       end;
  ws ← vsetz ws w (Some i);
  Ok (ws, ns).

(** The last loop of [init]: cut after the last list that is not empty. *)
Fixpoint cut_nulls (rev_ws : list (option nat)) : list (option nat) :=
  match rev_ws with
  | [] => []
  | None :: rest => cut_nulls rest
  | Some _ :: _ => rev_ws
  end.

Definition init (weights : list Z) (s : WeightData) : res WeightData :=
  let len := Z.of_nat (length weights) in
  let '(alloc, ns) := if node_alloc_size s <? len
    then (len, resize (length weights) (mkNode 0 NullNode NullNode) (nodes s))
    else (node_alloc_size s, nodes s) in
  '(ws, ns) ← for_ (length weights) (init_node weights) (replicate 200 None, ns);
  let cut := cut_nulls (reverse ws) in
  Ok (mkWeightData (if bool_decide (cut = []) then ws else reverse cut) ns alloc).
End weight_data.

(** ** Doubly linked lists *)
Section proofs.
Context (idx : Z) (Hidx : 0 <= idx).
Abbreviation Null := (NullNode idx).

Definition hd_or (e : Z) (l : list nat) : Z := match l with [] => e | m :: _ => Z.of_nat m end.
Definition last_or (p : Z) (l : list nat) : Z := match last l with None => p | Some m => Z.of_nat m end.

(** The nodes [l] of weight [w] linked in order, entered from [p], left to [e]. *)
Fixpoint dllseg (ns : list WeightNode) (w : nat) (p : Z) (l : list nat) (e : Z) : Prop :=
  match l with
  | [] => True
  | n :: l' => ns !! n = Some (mkNode (Z.of_nat w) p (hd_or e l')) /\ dllseg ns w (Z.of_nat n) l' e
  end.

Lemma last_or_cons p n l : last_or (Z.of_nat n) l = last_or p (n :: l).
Proof. unfold last_or. rewrite last_cons. by destruct (last l). Qed.

Lemma dllseg_app ns w p l1 l2 e :
  dllseg ns w p (l1 ++ l2) e <-> dllseg ns w p l1 (hd_or e l2) /\ dllseg ns w (last_or p l1) l2 e.
Proof.
  revert p. induction l1 as [|n l1 IH]; intros p; [cbn; naive_solver|].
  cbn [app dllseg]. rewrite IH, (last_or_cons p). assert (hd_or e (l1 ++ l2) = hd_or (hd_or e l2) l1) as -> by (by destruct l1).
  tauto.
Qed.

Lemma dllseg_frame ns ns' w p l e :
  dllseg ns w p l e -> (forall n, n ∈ l -> ns' !! n = ns !! n) -> dllseg ns' w p l e.
Proof.
  revert p. induction l as [|n l IH]; intros p; [done|]. cbn [dllseg]. intros [H1 H2] Hf. split.
  - rewrite Hf by left. done.
  - apply IH; [done|]. intros m Hm. apply Hf. by right.
Qed.

Lemma dllseg_lookup ns w p l e n :
  dllseg ns w p l e -> n ∈ l -> exists nd, ns !! n = Some nd /\ weight nd = Z.of_nat w.
Proof.
  revert p. induction l as [|m l IH]; intros p; [by intros _ ?%not_elem_of_nil|]. cbn [dllseg].
  intros [H1 H2] [->|Hn]%elem_of_cons; [eauto|by eapply IH].
Qed.

(** ** Lists by weight *)

(** Drops the empty lists at the end. *)
Fixpoint cut_nils (rev_sets : list (list nat)) : list (list nat) :=
  match rev_sets with
  | [] :: rest => cut_nils rest
  | _ => rev_sets
  end.
Definition trim (sets : list (list nat)) : list (list nat) := reverse (cut_nils (reverse sets)).

Lemma cut_nils_suffix r : exists k, r = replicate k [] ++ cut_nils r.
Proof. induction r as [|[|x l] r [k E]]; [by exists 0%nat| |by exists 0%nat]. exists (S k). cbn. by rewrite E at 1. Qed.

Lemma trim_prefix sets : exists k, sets = trim sets ++ replicate k [].
Proof.
  destruct (cut_nils_suffix (reverse sets)) as [k E]. exists k. unfold trim.
  rewrite <- (reverse_involutive sets) at 1. rewrite E at 1. rewrite reverse_app, reverse_replicate. done.
Qed.

Lemma trim_lookup sets w l : trim sets !! w = Some l -> sets !! w = Some l.
Proof. intros H. destruct (trim_prefix sets) as [k ->]. by apply lookup_app_l_Some. Qed.

Lemma trim_lookup_nonempty sets w l : sets !! w = Some l -> l <> [] -> trim sets !! w = Some l.
Proof.
  destruct (trim_prefix sets) as [k E]. intros H Hl. rewrite E in H. apply lookup_app_Some in H as [H|[_ H]]; [done|].
  apply lookup_replicate in H as [-> _]. done.
Qed.

Definition trimmed (sets : list (list nat)) : Prop := last sets <> Some [].

Lemma trim_trimmed sets : trimmed (trim sets).
Proof.
  unfold trimmed, trim. rewrite last_reverse. destruct (reverse sets) as [|l r] eqn:E; [done|]. clear E.
  revert l. induction r as [|l' r IH]; intros [|x l]; done || (cbn; apply IH).
Qed.

Lemma trimmed_trim sets : trimmed sets -> trim sets = sets.
Proof.
  unfold trimmed, trim. rewrite <- head_reverse. intros H. rewrite <- (reverse_involutive sets) at 2. f_equal.
  destruct (reverse sets) as [|[|x l] r]; done.
Qed.

Lemma pop_nulls_heads r :
  (exists l, l ∈ r /\ l <> []) -> pop_nulls (map head r) = Ok (map head (cut_nils r)).
Proof.
  intros (l & Hl & Hne). induction r as [|l' r IH]; [by apply not_elem_of_nil in Hl|].
  destruct l' as [|x l']; [|done]. cbn. apply IH. by apply elem_of_cons in Hl as [->|].
Qed.

Lemma cut_nulls_heads r : cut_nulls (map head r) = map head (cut_nils r).
Proof. induction r as [|[|x l] r IH]; done. Qed.

Lemma map_reverse {A B} (f : A -> B) l : map f (reverse l) = reverse (map f l).
Proof. induction l as [|x l IH]; [done|]. cbn [map]. by rewrite !reverse_cons, map_app, IH. Qed.

(** *** The structure represents lists of columns by weight. *)
Definition repr (s : WeightData) (sets : list (list nat)) : Prop :=
  Z.of_nat (length (nodes s)) <= Null /\ weight_sets s = map head sets /\
  forall w l, sets !! w = Some l -> dllseg (nodes s) w Null l Null /\ NoDup l.

Lemma repr_lookup s sets w l n :
  repr s sets -> sets !! w = Some l -> n ∈ l ->
  (n < length (nodes s))%nat /\ exists nd, nodes s !! n = Some nd /\ weight nd = Z.of_nat w.
Proof.
  intros (_ & _ & H) Hl Hn. destruct (dllseg_lookup _ _ _ _ _ n (proj1 (H w l Hl)) Hn) as (nd & E & Ew).
  split; [by apply lookup_lt_Some in E|eauto].
Qed.

(** A node is in one list only. *)
Lemma repr_unique s sets w w' l l' n :
  repr s sets -> sets !! w = Some l -> sets !! w' = Some l' -> n ∈ l -> n ∈ l' -> w = w'.
Proof.
  intros Hr Hl Hl' Hn Hn'. destruct (repr_lookup s sets w l n Hr Hl Hn) as (_ & nd & E & Ew).
  destruct (repr_lookup s sets w' l' n Hr Hl' Hn') as (_ & nd' & E' & Ew'). rewrite E in E'. injection E' as <-. lia.
Qed.

Lemma IdxOf_small n (s : WeightData) : (n < length (nodes s))%nat -> Z.of_nat (length (nodes s)) <= Null ->
  IdxOf idx n = Z.of_nat n /\ Z.of_nat n <> Null /\ (Z.of_nat n =? Null) = false.
Proof. unfold NullNode, IdxOf. intros. rewrite wrap_small by (unfold in_u; lia). lia. Qed.

Lemma update_ok i f ns : (i < length ns)%nat -> update i f ns = Ok (alter f i ns).
Proof.
  intros H. unfold update. destruct (lookup_lt_is_Some_2 ns i H) as [nd E]. rewrite (proj2 (vget_ok _ _ _) E). run.
  rewrite vset_total by done. f_equal. apply list_eq. intros k. destruct (decide (k = i)) as [->|].
  - by rewrite list_lookup_insert_eq, list_lookup_alter_eq, E.
  - by rewrite list_lookup_insert_ne, list_lookup_alter_ne.
Qed.

Lemma lookup_alter_cases {A} (f : A -> A) i k (l : list A) :
  alter f i l !! k = if bool_decide (i = k) then f <$> l !! k else l !! k.
Proof. case_bool_decide; [subst; apply list_lookup_alter_eq|by apply list_lookup_alter_ne]. Qed.

(** ** Insertion and removal on the lists *)
Definition others (sets : list (list nat)) (n : nat) : Prop := forall w l, sets !! w = Some l -> n ∉ l.

Lemma repr_frame s s' sets :
  repr s sets -> weight_sets s' = weight_sets s -> length (nodes s') = length (nodes s) ->
  (forall n, nodes s' !! n <> nodes s !! n -> others sets n) -> repr s' sets.
Proof.
  intros (Hb & Hw & H) Hws Hln Hn. split; [by rewrite Hln|]. split; [congruence|]. intros w l Hl.
  destruct (H w l Hl) as [Hd Hnd]. split; [|done]. eapply dllseg_frame; [exact Hd|]. intros n Hin.
  destruct (decide (nodes s' !! n = nodes s !! n)) as [|Hne]; [done|]. by destruct (Hn n Hne w l Hl).
Qed.

Definition push_sets (w n : nat) (sets : list (list nat)) : list (list nat) :=
  let sets' := resize (Nat.max (length sets) (S w)) [] sets in <[w := n :: sets' !!! w]> sets'.

Lemma lookup_grow (sets : list (list nat)) k v :
  (length sets <= k)%nat -> resize k [] sets !! v = if bool_decide (v < k)%nat then Some (sets !!! v) else None.
Proof.
  intros Hk. rewrite resize_ge by done. case_bool_decide.
  - destruct (decide (v < length sets)%nat).
    + rewrite lookup_app_l by done. destruct (lookup_lt_is_Some_2 sets v) as [x Hx]; [done|].
      by rewrite Hx, (list_lookup_total_correct _ _ _ Hx).
    + rewrite lookup_app_r by lia. rewrite lookup_replicate_2 by lia. symmetry. f_equal.
      rewrite list_lookup_total_alt, lookup_ge_None_2 by lia. done.
  - apply lookup_ge_None_2. rewrite length_app, length_replicate. lia.
Qed.

Lemma push_sets_lookup w n sets v :
  push_sets w n sets !! v = if bool_decide (v = w) then Some (n :: sets !!! w)
    else if bool_decide (v < Nat.max (length sets) (S w))%nat then Some (sets !!! v) else None.
Proof.
  unfold push_sets. case_bool_decide as E.
  - subst. rewrite list_lookup_insert_eq by (rewrite length_resize; lia). do 2 f_equal.
    apply list_lookup_total_correct. rewrite lookup_grow by lia. by rewrite bool_decide_true by lia.
  - rewrite list_lookup_insert_ne by done. apply lookup_grow. lia.
Qed.

Lemma lookup_total_or_nil (sets : list (list nat)) v : sets !!! v = [] \/ sets !! v = Some (sets !!! v).
Proof.
  destruct (sets !! v) as [l|] eqn:E; [right; f_equal; by symmetry; apply list_lookup_total_correct|left].
  rewrite list_lookup_total_alt, E. done.
Qed.

(** Writing the weight list of [w] into a vector that may have to grow. *)
Lemma heads_push w n sets :
  <[w := Some n]> (resize (Nat.max (length sets) (S w)) None (map head sets)) = map head (push_sets w n sets).
Proof.
  apply list_eq. intros v. rewrite lookup_map, push_sets_lookup. case_bool_decide as E; [subst|].
  - rewrite list_lookup_insert_eq by (rewrite length_resize; lia). done.
  - rewrite list_lookup_insert_ne by done. rewrite resize_ge by (rewrite length_map; lia). rewrite length_map.
    case_bool_decide.
    + destruct (decide (v < length sets)%nat).
      * rewrite lookup_app_l by (rewrite length_map; lia). rewrite lookup_map.
        destruct (lookup_lt_is_Some_2 sets v) as [x Hx]; [done|]. by rewrite Hx, (list_lookup_total_correct _ _ _ Hx).
      * rewrite lookup_app_r by (rewrite length_map; lia). rewrite lookup_replicate_2 by (rewrite length_map; lia).
        cbn. by rewrite list_lookup_total_alt, lookup_ge_None_2 by lia.
    + apply lookup_ge_None_2. rewrite length_app, length_map, length_replicate. lia.
Qed.

(** The nodes after a push: the new first node, linked to the old one. *)
Lemma dllseg_push ns w n l :
  ns !! n = Some (mkNode (Z.of_nat w) Null Null) -> n ∉ l -> NoDup l -> dllseg ns w Null l Null ->
  dllseg (match l with [] => ns | m :: _ => alter (set_next (Z.of_nat m)) n (alter (set_prev (Z.of_nat n)) m ns) end)
    w Null (n :: l) Null.
Proof.
  intros Hn Hnl Hnd Hd. destruct l as [|m l]; [cbn; done|]. cbn [dllseg hd_or] in *. destruct Hd as [Hm Hd].
  assert (n <> m) by (intros ->; apply Hnl; by left). pose proof (lookup_lt_Some _ _ _ Hn).
  split; [by rewrite list_lookup_alter_eq, list_lookup_alter_ne, Hn by done|].
  split; [rewrite list_lookup_alter_ne by done; by rewrite list_lookup_alter_eq, Hm|].
  eapply dllseg_frame; [exact Hd|]. intros k Hk. apply NoDup_cons in Hnd as [Hml _].
  rewrite list_lookup_alter_ne by (intros <-; apply Hnl; by right).
  apply list_lookup_alter_ne. intros <-. done.
Qed.

(** What an operation leaves alone: lengths, weights, and the nodes outside the
    lists but one. *)
Definition same_weights (s s' : WeightData) : Prop :=
  length (nodes s') = length (nodes s) /\ forall k, weight <$> nodes s' !! k = weight <$> nodes s !! k.

Lemma alter_weights f i ns : (forall nd, weight (f nd) = weight nd) ->
  length (alter f i ns) = length ns /\ forall k, weight <$> alter f i ns !! k = weight <$> ns !! k.
Proof.
  intros Hf. split; [apply length_alter|]. intros k. rewrite lookup_alter_cases. case_bool_decide; [|done].
  destruct (ns !! k); cbn; by rewrite ?Hf.
Qed.

Lemma weights_trans (a b c : list WeightNode) :
  (length b = length a /\ forall k, weight <$> b !! k = weight <$> a !! k) ->
  (length c = length b /\ forall k, weight <$> c !! k = weight <$> b !! k) ->
  length c = length a /\ forall k, weight <$> c !! k = weight <$> a !! k.
Proof. intros [H1 H2] [H3 H4]. split; [congruence|]. intros k. by rewrite H4, H2. Qed.

Lemma PushNode_spec s sets w n :
  repr s sets -> nodes s !! n = Some (mkNode (Z.of_nat w) Null Null) -> others sets n ->
  wp (PushNode idx n s) (fun s' => repr s' (push_sets w n sets) /\ same_weights s s' /\
    forall k, others sets k -> k <> n -> nodes s' !! k = nodes s !! k).
Proof.
  intros (Hb & Hw & H) Hn Ho. unfold PushNode. rewrite (proj2 (vget_ok _ _ _) Hn). run. cbn [next_weight_node prev_weight_node weight].
  rewrite Z.eqb_refl. run. pose proof (lookup_lt_Some _ _ _ Hn) as Hlt.
  set (ws := if _ <=? _ then _ else _).
  assert (ws = resize (Nat.max (length sets) (S w)) None (map head sets)) as ->.
  { subst ws. rewrite Hw, length_map. unfold resize_sets. destruct (Z.leb_spec (Z.of_nat (length sets)) (Z.of_nat w)).
    - f_equal. lia.
    - rewrite resize_all_alt; [done|]. rewrite length_map. lia. }
  rewrite vgetz_vget by lia. rewrite Nat2Z.id.
  assert (vget (resize (Nat.max (length sets) (S w)) None (map head sets)) w = Ok (head (sets !!! w))) as ->.
  { apply vget_ok. rewrite resize_ge by (rewrite length_map; lia). rewrite length_map.
    destruct (decide (w < length sets)%nat).
    - rewrite lookup_app_l by (rewrite length_map; lia). rewrite lookup_map.
      destruct (lookup_lt_is_Some_2 sets w) as [x Hx]; [done|]. by rewrite Hx, (list_lookup_total_correct _ _ _ Hx).
    - rewrite lookup_app_r by (rewrite length_map; lia). rewrite lookup_replicate_2 by (rewrite length_map; lia).
      by rewrite list_lookup_total_alt, lookup_ge_None_2 by lia. }
  run. assert (forall x : option nat, vsetz (resize (Nat.max (length sets) (S w)) None (map head sets)) (Z.of_nat w) x
    = Ok (<[w := x]> (resize (Nat.max (length sets) (S w)) None (map head sets)))) as Hset.
  { intros x. rewrite vsetz_vset, Nat2Z.id by lia. apply vset_total. rewrite length_resize. lia. }
  assert (forall l, sets !!! w = l -> dllseg (nodes s) w Null l Null /\ NoDup l /\ n ∉ l) as Hl.
  { intros l <-. destruct (lookup_total_or_nil sets w) as [->|E].
    - split; [done|]. split; [apply NoDup_nil_2|apply not_elem_of_nil].
    - destruct (H w _ E). split; [done|]. split; [done|]. by apply (Ho w). }
  destruct (sets !!! w) as [|m l] eqn:El; cbn [head hd_error].
  - rewrite Hset. run. split; [|split; [done|done]]. split; [done|]. cbn [weight_sets nodes].
    split; [apply heads_push|]. intros v x. rewrite push_sets_lookup. case_bool_decide as Ev.
    + subst v. intros [= <-]. rewrite El. split; [|apply NoDup_singleton]. cbn. done.
    + case_bool_decide; [|done]. intros [= <-]. destruct (lookup_total_or_nil sets v) as [->|E]; [|by apply H].
      split; [done|apply NoDup_nil_2].
  - destruct (Hl _ eq_refl) as (Hd & Hnd & Hnl). pose proof Hd as [Hm _].
    rewrite (proj2 (vget_ok _ _ _) Hm). run. cbn [prev_weight_node]. rewrite Z.eqb_refl. run.
    pose proof (lookup_lt_Some _ _ _ Hm) as Hmlt.
    destruct (IdxOf_small n s Hlt Hb) as [-> _]. destruct (IdxOf_small m s Hmlt Hb) as [-> _].
    rewrite update_ok by done. run. rewrite update_ok by (rewrite length_alter; done). run. rewrite Hset. run.
    set (ns' := alter _ n _).
    assert (length ns' = length (nodes s) /\ forall k, weight <$> ns' !! k = weight <$> nodes s !! k) as Hsw.
    { eapply weights_trans; apply alter_weights; done. }
    assert (forall k, k <> n -> k <> m -> ns' !! k = nodes s !! k) as Hfr.
    { intros k Hk1 Hk2. subst ns'. by rewrite !list_lookup_alter_ne. }
    split; [|split; [exact Hsw|]].
    + split; [cbn [nodes]; lia|]. cbn [weight_sets nodes]. split; [apply heads_push|].
      intros v x. rewrite push_sets_lookup. case_bool_decide as Ev.
      * subst v. intros [= <-]. rewrite El. split; [|by apply NoDup_cons].
        exact (dllseg_push (nodes s) w n (m :: l) Hn Hnl Hnd Hd).
      * case_bool_decide; [|done]. intros [= <-]. destruct (lookup_total_or_nil sets v) as [->|E]; [split; [done|apply NoDup_nil_2]|].
        destruct (H v _ E) as [Hd' Hnd']. split; [|done]. eapply dllseg_frame; [exact Hd'|]. intros k Hk. apply Hfr.
        -- intros ->. by apply (Ho v _ E).
        -- intros ->. apply Ev. apply (repr_unique s sets v w (sets !!! v) (m :: l) m); [by split|done| |done|by left].
           destruct (lookup_total_or_nil sets w) as [E'|E']; congruence.
    + intros k Hk Hkn. apply Hfr; [done|]. intros ->. destruct (lookup_total_or_nil sets w) as [E'|E']; [congruence|].
      apply (Hk w _ E'). rewrite El. by left.
Qed.

(** *** Unlinking a node *)
Definition link_prev (l : list nat) (x : Z) (ns : list WeightNode) : list WeightNode :=
  match last l with None => ns | Some p => alter (set_next x) p ns end.
Definition link_next (l : list nat) (x : Z) (ns : list WeightNode) : list WeightNode :=
  match l with [] => ns | q :: _ => alter (set_prev x) q ns end.

Lemma link_prev_frame l x ns k : k ∉ l -> link_prev l x ns !! k = ns !! k.
Proof.
  unfold link_prev. destruct (last l) as [p|] eqn:E; [|done]. intros Hk. apply list_lookup_alter_ne. intros ->.
  apply Hk. apply last_Some in E as [l' ->]. apply elem_of_app. right. by left.
Qed.
Lemma link_next_frame l x ns k : k ∉ l -> link_next l x ns !! k = ns !! k.
Proof. destruct l as [|q l]; [done|]. intros Hk. apply list_lookup_alter_ne. intros ->. apply Hk. by left. Qed.

Lemma link_prev_weights l x ns : length (link_prev l x ns) = length ns /\ forall k, weight <$> link_prev l x ns !! k = weight <$> ns !! k.
Proof. unfold link_prev. destruct (last l); [by apply alter_weights|done]. Qed.
Lemma link_next_weights l x ns : length (link_next l x ns) = length ns /\ forall k, weight <$> link_next l x ns !! k = weight <$> ns !! k.
Proof. destruct l; [done|by apply alter_weights]. Qed.

Lemma dllseg_exit ns w p l e e' : NoDup l -> dllseg ns w p l e -> dllseg (link_prev l e' ns) w p l e'.
Proof.
  destruct l as [|x l _] using rev_ind; [done|]. rewrite !dllseg_app. intros (_ & Hx & _)%NoDup_app [H1 [H2 _]].
  unfold link_prev. rewrite last_snoc. split.
  - eapply dllseg_frame; [exact H1|]. intros k Hk. apply list_lookup_alter_ne. intros ->. apply (Hx k Hk). by left.
  - cbn [dllseg]. split; [|done]. by rewrite list_lookup_alter_eq, H2.
Qed.

Lemma dllseg_entry ns w p p' l e : NoDup l -> dllseg ns w p l e -> dllseg (link_next l p' ns) w p' l e.
Proof.
  destruct l as [|x l]; [done|]. intros [Hx _]%NoDup_cons [H1 H2]. cbn [dllseg link_next]. split.
  - by rewrite list_lookup_alter_eq, H1.
  - eapply dllseg_frame; [exact H2|]. intros k Hk. apply list_lookup_alter_ne. intros ->. done.
Qed.

Definition unlinked (l1 l2 : list nat) (n : nat) (ns : list WeightNode) : list WeightNode :=
  alter (set_next Null) n (alter (set_prev Null) n
    (link_next l2 (last_or Null l1) (link_prev l1 (hd_or Null l2) ns))).

Lemma dllseg_unlinked ns w l1 n l2 :
  NoDup (l1 ++ n :: l2) -> dllseg ns w Null (l1 ++ n :: l2) Null ->
  dllseg (unlinked l1 l2 n ns) w Null (l1 ++ l2) Null /\ unlinked l1 l2 n ns !! n = Some (mkNode (Z.of_nat w) Null Null).
Proof.
  intros (Hd1 & Hx & [Hn2 Hd2]%NoDup_cons)%NoDup_app. rewrite dllseg_app. cbn [dllseg hd_or]. intros (H1 & Hn & H2).
  assert (n ∉ l1) as Hn1 by (intros Hi; apply (Hx n Hi); by left).
  assert (forall k, k ∈ l1 -> k ∉ l2) as H12 by (intros k Hk Hk2; apply (Hx k Hk); by right). unfold unlinked. split.
  - apply dllseg_app. split.
    + eapply dllseg_frame; [exact (dllseg_exit ns w _ l1 _ (hd_or Null l2) Hd1 H1)|]. intros k Hk.
      rewrite !list_lookup_alter_ne by (intros ->; done). apply link_next_frame. by apply H12.
    + eapply dllseg_frame; [exact (dllseg_entry ns w _ (last_or Null l1) l2 _ Hd2 H2)|]. intros k Hk.
      rewrite !list_lookup_alter_ne by (intros ->; done). destruct l2 as [|q l2]; [by apply not_elem_of_nil in Hk|].
      cbn [link_next]. rewrite !lookup_alter_cases.
      rewrite !link_prev_frame by (intros Hk1; by apply (H12 k)). done.
  - rewrite !list_lookup_alter_eq, link_next_frame, link_prev_frame, Hn by done. done.
Qed.

Lemma unlinked_weights l1 l2 n ns :
  length (unlinked l1 l2 n ns) = length ns /\ forall k, weight <$> unlinked l1 l2 n ns !! k = weight <$> ns !! k.
Proof.
  eapply weights_trans; [|by apply alter_weights]. eapply weights_trans; [|by apply alter_weights].
  eapply weights_trans; [|apply link_next_weights]. apply link_prev_weights.
Qed.

Lemma unlinked_frame l1 l2 n ns k : k ∉ l1 ++ n :: l2 -> unlinked l1 l2 n ns !! k = ns !! k.
Proof.
  rewrite not_elem_of_app, not_elem_of_cons. intros (H1 & H2 & H3). unfold unlinked.
  by rewrite !list_lookup_alter_ne, link_next_frame, link_prev_frame.
Qed.

(** Removing a node from list [w]; [sets'] is what remains. *)
Lemma trimmed_insert sets w l : trimmed sets -> l <> [] -> trimmed (<[w := l]> sets).
Proof.
  unfold trimmed. rewrite !last_lookup, length_insert. intros H Hl E. apply list_lookup_insert_Some in E as [(_ & -> & _)|[_ E]]; done.
Qed.

Lemma heads_insert sets w (l : list nat) : map head (<[w := l]> sets) = <[w := head l]> (map (@hd_error nat) sets).
Proof. apply (list_fmap_insert (@hd_error nat)). Qed.

(** The weight lists after the node is taken out of them. *)
Lemma PopNode_heads sets w l1 n l2 :
  sets !! w = Some (l1 ++ n :: l2) -> trimmed sets ->
  (exists l, l ∈ <[w := l1 ++ l2]> sets /\ l <> []) ->
  map head (trim (<[w := l1 ++ l2]> sets)) =
  match l1, l2 with
  | [], [] => reverse (cut_nulls (reverse (<[w := None]> (map (@hd_error nat) sets))))
  | [], q :: _ => <[w := Some q]> (map (@hd_error nat) sets)
  | _, _ => map head sets
  end.
Proof.
  intros Hw Ht Hne. destruct l1 as [|x l1]; [destruct l2 as [|q l2]|]; cbn [app] in *.
  - unfold trim. rewrite map_reverse, <- cut_nulls_heads, map_reverse, heads_insert. done.
  - rewrite trimmed_trim by by apply trimmed_insert. apply heads_insert.
  - rewrite trimmed_trim by by apply trimmed_insert. rewrite heads_insert. apply list_insert_id.
    rewrite lookup_map, Hw. done.
Qed.

Lemma repr_trim s sets : repr s sets -> repr (mkWeightData (map head (trim sets)) (nodes s) (node_alloc_size s)) (trim sets).
Proof.
  intros (Hb & _ & H). split; [done|]. split; [done|]. intros w l Hl. apply H. by apply trim_lookup.
Qed.

(** The lists after the removal are represented by the unlinked nodes. *)
Lemma repr_unlinked s sets w l1 n l2 ws :
  repr s sets -> sets !! w = Some (l1 ++ n :: l2) ->
  ws = map head (trim (<[w := l1 ++ l2]> sets)) ->
  repr (mkWeightData ws (unlinked l1 l2 n (nodes s)) (node_alloc_size s)) (trim (<[w := l1 ++ l2]> sets)) /\
  others (trim (<[w := l1 ++ l2]> sets)) n.
Proof.
  intros Hr Hl ->. pose proof Hr as (Hb & Hw & H). destruct (H w _ Hl) as [Hd Hnd].
  destruct (dllseg_unlinked (nodes s) w l1 n l2 Hnd Hd) as [Hd' _]. split.
  - split; [cbn [nodes]; rewrite (proj1 (unlinked_weights l1 l2 n (nodes s))); done|]. split; [done|].
    intros v l Hv%trim_lookup. cbn [nodes]. apply list_lookup_insert_Some in Hv as [(<- & <- & _)|[Hne Hv]].
    + split; [done|]. apply NoDup_app in Hnd as (N1 & N2 & [_ N3]%NoDup_cons). apply NoDup_app. split; [done|].
      split; [|done]. intros k Hk Hk2. apply (N2 k Hk). by right.
    + destruct (H v l Hv) as [Hdv Hndv]. split; [|done]. eapply dllseg_frame; [exact Hdv|]. intros k Hk.
      apply unlinked_frame. intros Hk'. apply Hne. by apply (repr_unique s sets w v (l1 ++ n :: l2) l k).
  - intros v l Hv%trim_lookup Hn. apply list_lookup_insert_Some in Hv as [(<- & <- & _)|[Hne Hv]].
    + apply NoDup_app in Hnd as (_ & N2 & [N3 _]%NoDup_cons). apply elem_of_app in Hn as [Hn|Hn]; [|done].
      apply (N2 n Hn). by left.
    + apply Hne. apply (repr_unique s sets w v (l1 ++ n :: l2) l n); try done. apply elem_of_app. right. by left.
Qed.

Lemma last_or_snoc p l x : last_or p (l ++ [x]) = Z.of_nat x.
Proof. unfold last_or. by rewrite last_snoc. Qed.

(** The body of [PopNode] runs the unlinking. *)
Lemma PopNode_run s sets w l1 n l2 :
  repr s sets -> sets !! w = Some (l1 ++ n :: l2) -> trimmed sets ->
  (exists l, l ∈ <[w := l1 ++ l2]> sets /\ l <> []) ->
  PopNode idx n s = Ok (mkWeightData (map head (trim (<[w := l1 ++ l2]> sets))) (unlinked l1 l2 n (nodes s)) (node_alloc_size s)).
Proof.
  intros Hr Hl Ht Hne. rewrite (PopNode_heads sets w l1 n l2 Hl Ht Hne).
  pose proof Hr as (Hb & Hw & H). destruct (H w _ Hl) as [Hd Hnd].
  pose proof Hd as Hd0. apply dllseg_app in Hd0 as [_ [Hn _]]. unfold PopNode. rewrite (proj2 (vget_ok _ _ _) Hn). run.
  cbn [prev_weight_node next_weight_node weight].
  assert (forall k, k ∈ l1 ++ n :: l2 -> (k < length (nodes s))%nat /\ IdxOf idx k = Z.of_nat k /\ (Z.of_nat k =? Null) = false) as Hk.
  { intros k Hk. destruct (repr_lookup s sets w _ k Hr Hl Hk) as [Hlt _]. destruct (IdxOf_small k s Hlt Hb) as (? & ? & ?). done. }
  assert (forall ns, length ns = length (nodes s) -> (ns0 ← update n (set_prev Null) ns; ns0 ← update n (set_next Null) ns0;
    Ok ns0) = Ok (alter (set_next Null) n (alter (set_prev Null) n ns))) as Hfin.
  { intros ns Hln. destruct (Hk n) as [Hlt _]; [apply elem_of_app; right; by left|].
    rewrite update_ok by lia. run. by rewrite update_ok by (rewrite length_alter; lia). }
  assert (w < length sets)%nat as Hwlt by by apply lookup_lt_Some in Hl.
  destruct l1 as [|p l1 _] using rev_ind; [|rewrite last_or_snoc].
  - change (last_or Null []) with Null. rewrite Z.eqb_refl. cbn [app] in *.
    rewrite vgetz_vget, Nat2Z.id by lia. rewrite Hw.
    assert (vget (map (@hd_error nat) sets) w = Ok (Some n)) as -> by (apply vget_ok; by rewrite lookup_map, Hl). run.
    rewrite bool_decide_true by done. run. destruct l2 as [|q l2]; cbn [hd_or].
    + rewrite Z.eqb_refl. rewrite vsetz_vset, Nat2Z.id by lia. rewrite vset_total by (rewrite length_map; lia). run.
      pose proof (heads_insert sets w []) as Eh. cbn [hd_error] in Eh.
      rewrite <- Eh, <- map_reverse, pop_nulls_heads, <- cut_nulls_heads
        by (destruct Hne as (l & Hi & ?); exists l; split; [by apply elem_of_reverse|done]). run.
      change (unlinked [] [] n (nodes s)) with (alter (set_next Null) n (alter (set_prev Null) n (nodes s))).
      specialize (Hfin (nodes s) eq_refl). destruct (update n (set_prev Null) (nodes s)) as [ns1| |]; cbn [mbind res_bind] in *; try done.
      destruct (update n (set_next Null) ns1) as [ns2| |]; cbn [mbind res_bind] in *; try done. by injection Hfin as ->.
    + destruct (Hk q) as (Hq & Eq & Eqn); [right; by left|]. rewrite Eqn, Nat2Z.id.
      rewrite vsetz_vset, Nat2Z.id by lia. rewrite vset_total by (rewrite length_map; lia). run.
      rewrite update_ok by done. run. specialize (Hfin (alter (set_prev Null) q (nodes s)) ltac:(by rewrite length_alter)).
      change (unlinked [] (q :: l2) n (nodes s)) with (alter (set_next Null) n (alter (set_prev Null) n (alter (set_prev Null) q (nodes s)))).
      destruct (update n (set_prev Null) _) as [ns1| |]; cbn [mbind res_bind] in *; try done.
      destruct (update n (set_next Null) ns1) as [ns2| |]; cbn [mbind res_bind] in *; try done. by injection Hfin as ->.
  - destruct (Hk p) as (Hp & Ep & Epn); [apply elem_of_app; left; apply elem_of_app; right; by left|].
    rewrite Epn, Nat2Z.id. assert (forall A (x y : A) (z : nat -> list nat -> A), match l1 ++ [p] with [] => match l2 with [] => x | q :: r => z q r end | _ :: _ => y end = y) as Em
      by (intros; by destruct l1).
    destruct l2 as [|q l2]; cbn [hd_or].
    + rewrite Z.eqb_refl. rewrite update_ok by done. run.
      specialize (Hfin (alter (set_next Null) p (nodes s)) ltac:(by rewrite length_alter)).
      unfold unlinked, link_prev. rewrite last_snoc. cbn [link_next hd_or].
      destruct (update n (set_prev Null) _) as [ns1| |]; cbn [mbind res_bind] in *; try done.
      destruct (update n (set_next Null) ns1) as [ns2| |]; cbn [mbind res_bind] in *; try done. injection Hfin as ->.
      rewrite Hw. by destruct l1.
    + destruct (Hk q) as (Hq & Eq & Eqn); [apply elem_of_app; right; right; by left|]. rewrite Eqn, Nat2Z.id.
      rewrite Ep, Eq. rewrite update_ok by done. run. rewrite update_ok by (rewrite length_alter; done). run.
      specialize (Hfin (alter (set_prev (Z.of_nat p)) q (alter (set_next (Z.of_nat q)) p (nodes s))) ltac:(by rewrite !length_alter)).
      unfold unlinked, link_prev. rewrite last_snoc, last_or_snoc. cbn [link_next hd_or].
      destruct (update n (set_prev Null) _) as [ns1| |]; cbn [mbind res_bind] in *; try done.
      destruct (update n (set_next Null) ns1) as [ns2| |]; cbn [mbind res_bind] in *; try done. injection Hfin as ->.
      rewrite Hw. by destruct l1.
Qed.

Lemma PopNode_spec s sets w n l :
  repr s sets -> sets !! w = Some l -> n ∈ l -> trimmed sets ->
  (exists v l' k, sets !! v = Some l' /\ k ∈ l' /\ k <> n) ->
  exists l1 l2, l = l1 ++ n :: l2 /\
  wp (PopNode idx n s) (fun s' => repr s' (trim (<[w := l1 ++ l2]> sets)) /\ others (trim (<[w := l1 ++ l2]> sets)) n /\
    same_weights s s' /\ nodes s' !! n = Some (mkNode (Z.of_nat w) Null Null) /\
    forall k, others sets k -> nodes s' !! k = nodes s !! k).
Proof.
  intros Hr Hl Hn Ht (v & l' & k & Hv & Hk & Hkn). apply list_elem_of_split in Hn as (l1 & l2 & ->). exists l1, l2. split; [done|].
  rewrite (PopNode_run s sets w l1 n l2 Hr Hl Ht).
  - run. destruct (repr_unlinked s sets w l1 n l2 _ Hr Hl eq_refl) as [H1 H2]. split; [exact H1|]. split; [exact H2|].
    pose proof Hr as (_ & _ & H). destruct (H w _ Hl) as [Hd Hnd]. cbn [nodes].
    split; [apply unlinked_weights|]. split; [by apply dllseg_unlinked|]. intros j Hj. apply unlinked_frame. by apply (Hj w).
  - destruct (decide (v = w)) as [->|].
    + rewrite Hl in Hv. injection Hv as <-. exists (l1 ++ l2). split.
      * apply (list_elem_of_lookup_2 _ w). apply list_lookup_insert_eq. by apply lookup_lt_Some in Hl.
      * intros E. apply elem_of_app in Hk. rewrite elem_of_cons in Hk. apply app_eq_nil in E as [-> ->].
        destruct Hk as [Hk|[->|Hk]]; try done; by apply not_elem_of_nil in Hk.
    + exists l'. split; [apply (list_elem_of_lookup_2 _ v); by rewrite list_lookup_insert_ne|]. intros ->. by apply not_elem_of_nil in Hk.
Qed.

(** ** The structure as a map from the columns it holds to their weights *)
Definition columns (s : WeightData) (m : gmap nat nat) : Prop :=
  exists sets, repr s sets /\ trimmed sets /\
    (forall n w, m !! n = Some w <-> exists l, sets !! w = Some l /\ n ∈ l) /\
    (forall n nd, nodes s !! n = Some nd -> m !! n = None -> nd = mkNode 0 Null Null).

Lemma columns_lookup s m n w :
  columns s m -> m !! n = Some w -> (n < length (nodes s))%nat /\ exists nd, nodes s !! n = Some nd /\ weight nd = Z.of_nat w.
Proof. intros (sets & Hr & _ & Hm & _) Hn. apply Hm in Hn as (l & Hl & Hin). by apply (repr_lookup s sets w l). Qed.

(** Every node shows the weight of its column, zero once it is taken out. *)
Lemma columns_weight s m n nd : columns s m -> nodes s !! n = Some nd -> weight nd = Z.of_nat (default 0%nat (m !! n)).
Proof.
  intros Hc Hnd. destruct (m !! n) as [w|] eqn:E.
  - destruct (columns_lookup s m n w Hc E) as (_ & nd' & E' & Ew). rewrite Hnd in E'. by injection E' as ->.
  - destruct Hc as (sets & _ & _ & _ & Hd). by rewrite (Hd n nd Hnd E).
Qed.

Lemma columns_bound s m : columns s m -> Z.of_nat (length (nodes s)) <= Null.
Proof. by intros (sets & (Hb & _) & _). Qed.

(** Members after the removal of [n] from list [w]. *)
Lemma members_removed sets w l1 n l2 k v :
  sets !! w = Some (l1 ++ n :: l2) -> NoDup (l1 ++ n :: l2) -> (forall v l, sets !! v = Some l -> n ∈ l -> v = w) ->
  (exists l, trim (<[w := l1 ++ l2]> sets) !! v = Some l /\ k ∈ l) <-> k <> n /\ exists l, sets !! v = Some l /\ k ∈ l.
Proof.
  intros Hw Hnd Hu. split.
  - intros (l & Hl%trim_lookup & Hk). apply list_lookup_insert_Some in Hl as [(<- & <- & _)|[Hne Hl]].
    + apply NoDup_app in Hnd as (_ & N2 & [N3 _]%NoDup_cons). apply elem_of_app in Hk. split.
      * intros ->. destruct Hk as [Hk|Hk]; [|done]. apply (N2 n Hk). by left.
      * exists (l1 ++ n :: l2). split; [done|]. rewrite elem_of_app, elem_of_cons. tauto.
    + split; [|eauto]. intros ->. apply Hne. symmetry. by apply (Hu v l).
  - intros (Hkn & l & Hl & Hk). destruct (decide (v = w)) as [->|Hv].
    + rewrite Hw in Hl. injection Hl as <-. assert (k ∈ l1 ++ l2) as Hk'.
      { rewrite elem_of_app in *. rewrite elem_of_cons in Hk. tauto. }
      exists (l1 ++ l2). split; [|done]. apply trim_lookup_nonempty; [|by intros E; rewrite E in Hk'; apply not_elem_of_nil in Hk'].
      apply list_lookup_insert_eq. by apply lookup_lt_Some in Hw.
    + exists l. split; [|done]. apply trim_lookup_nonempty; [by rewrite list_lookup_insert_ne by done|].
      intros ->. by apply not_elem_of_nil in Hk.
Qed.

(** The state between a removal and what follows it. *)
Lemma PopNode_columns s m n w :
  columns s m -> m !! n = Some w -> (exists k, k <> n /\ is_Some (m !! k)) ->
  wp (PopNode idx n s) (fun s' => exists sets, repr s' sets /\ trimmed sets /\ others sets n /\
    nodes s' !! n = Some (mkNode (Z.of_nat w) Null Null) /\ same_weights s s' /\
    (forall k v, (k <> n /\ m !! k = Some v) <-> exists l, sets !! v = Some l /\ k ∈ l) /\
    forall k nd, k <> n -> nodes s' !! k = Some nd -> m !! k = None -> nd = mkNode 0 Null Null).
Proof.
  intros (sets & Hr & Ht & Hm & Hd) Hn (k & Hkn & [v Hk]). pose proof Hn as Hn'. apply Hm in Hn' as (l & Hl & Hin).
  apply Hm in Hk as (l' & Hl' & Hin'). pose proof Hr as (_ & _ & HH). destruct (HH w l Hl) as [_ Hnd].
  destruct (PopNode_spec s sets w n l Hr Hl Hin Ht) as (l1 & l2 & -> & Hwp); [by exists v, l', k|].
  eapply wp_mono; [exact Hwp|]. intros s' (Hr' & Ho & Hsw & Hnn & Hfr). eexists. split; [exact Hr'|].
  split; [apply trim_trimmed|]. split; [done|]. split; [done|]. split; [done|]. split.
  - intros j u. rewrite members_removed; [by rewrite Hm|done|done|]. intros u' l'' Hl'' Hin''.
    by apply (repr_unique s sets u' w l'' (l1 ++ n :: l2) n).
  - intros j nd Hj Hnd' Hnone. apply (Hd j nd); [|done]. rewrite <- Hfr; [done|].
    intros u lu Hlu Hju. assert (m !! j = Some u) by (apply Hm; eauto). congruence.
Qed.

Definition lengths (s s' : WeightData) : Prop := length (nodes s') = length (nodes s).

Lemma fix_columns s m n w :
  columns s m -> m !! n = Some w -> (exists k, k <> n /\ is_Some (m !! k)) ->
  wp (s' ← PopNode idx n s; assign_weight n 0 s') (fun s' => columns s' (delete n m) /\ lengths s s').
Proof.
  intros Hc Hn Hk. apply wp_bind. eapply wp_mono; [by apply (PopNode_columns s m n w)|].
  intros s' (sets & Hr & Ht & Ho & Hnn & Hsw & Hm & Hd). unfold assign_weight.
  pose proof (lookup_lt_Some _ _ _ Hnn). rewrite update_ok by done. run.
  split; [|unfold lengths; cbn [with_nodes nodes]; rewrite length_alter; apply Hsw]. exists sets. split.
  { eapply repr_frame; [exact Hr|done|by cbn [with_nodes nodes]; rewrite length_alter|]. cbn [with_nodes nodes]. intros k Hne.
    rewrite lookup_alter_cases in Hne. case_bool_decide; [by subst|done]. }
  split; [done|]. split.
  - intros k v. rewrite <- Hm, lookup_delete_Some. naive_solver.
  - intros k nd. cbn [with_nodes nodes]. rewrite lookup_alter_cases, lookup_delete_None. case_bool_decide as E.
    + subst k. rewrite Hnn. cbn. by intros [= <-].
    + intros Hnd [?|?]; [done|]. by apply (Hd k).
Qed.

Lemma push_members sets w n k v :
  (exists l, push_sets w n sets !! v = Some l /\ k ∈ l) <-> (k = n /\ v = w) \/ exists l, sets !! v = Some l /\ k ∈ l.
Proof.
  split.
  - intros (l & Hl & Hk). rewrite push_sets_lookup in Hl. case_bool_decide as E.
    + injection Hl as <-. apply elem_of_cons in Hk as [->|Hk]; [by left|]. right. subst v.
      destruct (lookup_total_or_nil sets w) as [E'|E']; [rewrite E' in Hk; by apply not_elem_of_nil in Hk|eauto].
    + case_bool_decide; [|done]. injection Hl as <-. right.
      destruct (lookup_total_or_nil sets v) as [E'|E']; [rewrite E' in Hk; by apply not_elem_of_nil in Hk|eauto].
  - intros [[-> ->]|(l & Hl & Hk)].
    + eexists. rewrite push_sets_lookup, bool_decide_true by done. split; [done|]. by left.
    + rewrite push_sets_lookup. pose proof (list_lookup_total_correct _ _ _ Hl) as E. pose proof (lookup_lt_Some _ _ _ Hl).
      case_bool_decide; [subst v|rewrite bool_decide_true by lia]; eexists; (split; [done|]); rewrite E; [by right|done].
Qed.

Lemma push_trimmed sets w n : trimmed sets -> trimmed (push_sets w n sets).
Proof.
  assert (length (push_sets w n sets) = Nat.max (length sets) (S w)) as Hlen by (unfold push_sets; by rewrite length_insert, length_resize).
  unfold trimmed. rewrite !last_lookup, Hlen. intros Ht. rewrite push_sets_lookup.
  case_bool_decide as E; [done|]. case_bool_decide as E2; [|done]. intros [= E3]. apply Ht.
  assert (S w < length sets)%nat by lia.
  replace (pred (Nat.max (length sets) (S w))) with (pred (length sets)) in * by lia.
  destruct (lookup_lt_is_Some_2 sets (pred (length sets))) as [x Hx]; [lia|].
  rewrite (list_lookup_total_correct _ _ _ Hx) in E3. congruence.
Qed.

Lemma reinsert_columns s m n w :
  columns s m -> m !! n = Some (S w) -> Z.of_nat (S w) < 2 ^ idx -> (exists k, k <> n /\ is_Some (m !! k)) ->
  wp (reinsert idx n s) (fun s' => columns s' (<[n := w]> m) /\ lengths s s').
Proof.
  intros Hc Hn Hw Hk. unfold reinsert. apply wp_bind. eapply wp_mono; [by apply (PopNode_columns s m n (S w))|].
  intros s' (sets & Hr & Ht & Ho & Hnn & Hsw & Hm & Hd). rewrite (proj2 (vget_ok _ _ _) Hnn). run. cbn [weight].
  rewrite wrap_small by (unfold in_u; lia). replace (Z.of_nat (S w) - 1) with (Z.of_nat w) by lia.
  pose proof (lookup_lt_Some _ _ _ Hnn). unfold assign_weight. rewrite update_ok by done. run.
  set (s1 := with_nodes s' _). assert (repr s1 sets) as Hr1.
  { eapply repr_frame; [exact Hr|done|by cbn [s1 with_nodes nodes]; rewrite length_alter|]. cbn [s1 with_nodes nodes]. intros k Hne.
    rewrite lookup_alter_cases in Hne. case_bool_decide; [by subst|done]. }
  assert (nodes s1 !! n = Some (mkNode (Z.of_nat w) Null Null)) as Hn1.
  { cbn [s1 with_nodes nodes]. by rewrite list_lookup_alter_eq, Hnn. }
  eapply wp_mono; [exact (PushNode_spec s1 sets w n Hr1 Hn1 Ho)|]. intros s2 (Hr2 & Hsw2 & Hfr2). split.
  - exists (push_sets w n sets). split; [done|]. split; [by apply push_trimmed|]. split.
    + intros k v. rewrite push_members, <- Hm, lookup_insert_Some. naive_solver.
    + intros k nd Hnd Hnone. apply lookup_insert_None in Hnone as [Hnone Hkn].
      rewrite Hfr2 in Hnd by (try done; intros v l Hl Hin; assert (k <> n /\ m !! k = Some v) as [_ ?] by (apply Hm; eauto); congruence).
      cbn [s1 with_nodes nodes] in Hnd. rewrite list_lookup_alter_ne in Hnd by done. by apply (Hd k).
  - unfold lengths. rewrite (proj1 Hsw2). cbn [s1 with_nodes nodes]. rewrite length_alter. apply Hsw.
Qed.

(** *** The least weight *)
Lemma first_node_spec (lists : list (list nat)) :
  (exists l, l ∈ lists /\ l <> []) ->
  wp (first_node (map head lists)) (fun n => exists w l, lists !! w = Some l /\ n ∈ l /\ forall v l', (v < w)%nat -> lists !! v = Some l' -> l' = []).
Proof.
  induction lists as [|l lists IH]; intros (l0 & Hin & Hne); [by apply not_elem_of_nil in Hin|].
  destruct l as [|x l]; cbn [map head hd_error first_node].
  - eapply wp_mono; [apply IH; apply elem_of_cons in Hin as [->|Hin]; [done|eauto]|].
    intros n (w & l' & Hl' & Hn & Hmin). exists (S w), l'. split; [done|]. split; [done|].
    intros [|v] l'' Hv Hl''; [by injection Hl''|]. apply (Hmin v); [lia|done].
  - exists 0%nat, (x :: l). split; [done|]. split; [by left|]. intros; lia.
Qed.

Lemma GetMinWeightNode_columns s m :
  columns s m -> (1 < length (weight_sets s))%nat ->
  wp (GetMinWeightNode s) (fun n => exists w, m !! n = Some (S w) /\ forall k v, m !! k = Some v -> v = 0%nat \/ (S w <= v)%nat).
Proof.
  intros (sets & Hr & Ht & Hm & Hd) Hlen. pose proof Hr as (_ & Hw & _). unfold GetMinWeightNode. rewrite Hw.
  rewrite Hw, length_map in Hlen. destruct sets as [|l0 sets]; [cbn in Hlen; lia|]. cbn [map skipn].
  eapply wp_mono; [apply first_node_spec|].
  - destruct sets as [|l sets _] using rev_ind; [cbn in Hlen; lia|]. exists l. split; [apply elem_of_app; right; by left|].
    intros ->. apply Ht. rewrite app_comm_cons. apply last_snoc.
  - intros n (w & l & Hl & Hn & Hmin). exists w. split; [apply Hm; by exists l|]. intros k v Hk. apply Hm in Hk as (l' & Hl' & Hin').
    destruct v as [|v]; [by left|right]. cbn in Hl'. destruct (decide (v < w)%nat) as [Hlt|]; [|lia].
    rewrite (Hmin v l' Hlt Hl') in Hin'. by apply not_elem_of_nil in Hin'.
Qed.

Lemma no_weights s m n w : columns s m -> (length (weight_sets s) <= 1)%nat -> m !! n = Some w -> w = 0%nat.
Proof.
  intros (sets & (_ & Hw & _) & _ & Hm & _) Hl Hn. apply Hm in Hn as (l & Hl' & _). rewrite Hw, length_map in Hl.
  apply lookup_lt_Some in Hl'. lia.
Qed.

(** ** Initialisation *)
Definition weight_map (weights : list Z) : gmap nat nat := map_seq 0 (map Z.to_nat weights).

Lemma weight_map_lookup weights n v :
  Forall (fun w => 0 <= w) weights -> weight_map weights !! n = Some v <-> weights !! n = Some (Z.of_nat v).
Proof.
  intros HF. unfold weight_map. rewrite lookup_map_seq_0, lookup_map. destruct (weights !! n) as [w|] eqn:E; cbn; [|naive_solver].
  pose proof (Forall_lookup_1 _ _ _ _ HF E). cbn beta in *. split; intros [= H0]; f_equal; lia.
Qed.

(** A turn of the loop is a push of a fresh node. *)
Lemma init_node_push weights i ws ns w :
  weights !! i = Some w -> 0 <= w < Z.of_nat (length ws) -> (i < length ns)%nat ->
  init_node idx weights i (ws, ns) =
  (s ← PushNode idx i (mkWeightData ws (<[i := mkNode w Null Null]> ns) 0); Ok (weight_sets s, nodes s)).
Proof.
  intros Hw Hr Hi. unfold init_node, PushNode. rewrite (proj2 (vget_ok _ _ _) Hw). run. rewrite vset_total by done. run.
  rewrite (proj2 (Z.ltb_lt _ _)) by lia. run. cbn [nodes].
  assert (<[i:=mkNode w Null Null]> ns !! i = Some (mkNode w Null Null)) as Hn by by apply list_lookup_insert_eq.
  rewrite (proj2 (vget_ok _ _ _) Hn). run. cbn [next_weight_node prev_weight_node weight]. rewrite Z.eqb_refl. run.
  cbn [weight_sets]. rewrite (proj2 (Z.leb_gt _ _)) by lia. destruct (vgetz ws w) as [[first|]| |]; run; try done.
  - destruct (vget _ first) as [f| |]; run; try done. destruct (prev_weight_node f =? Null); run; try done.
    destruct (update first _ _) as [ns1| |]; run; try done. destruct (update i _ ns1) as [ns2| |]; run; try done.
    destruct (vsetz ws w _); run; done.
  - destruct (vsetz ws w _); run; done.
Qed.

Definition init_inv (weights : list Z) (i : nat) (st : list (option nat) * list WeightNode) : Prop :=
  exists sets, repr (mkWeightData st.1 st.2 0) sets /\ length sets = 200%nat /\ length st.2 = length weights /\
    forall k v, (exists l, sets !! v = Some l /\ k ∈ l) <-> (k < i)%nat /\ weights !! k = Some (Z.of_nat v).

Lemma init_node_inv weights i st :
  Forall (fun w => 0 <= w < 200) weights -> (i < length weights)%nat -> init_inv weights i st ->
  wp (init_node idx weights i st) (init_inv weights (S i)).
Proof.
  destruct st as [ws ns]. intros HF Hi (sets & Hr & Hl & Hln & Hm). cbn [fst snd] in *.
  destruct (lookup_lt_is_Some_2 weights i Hi) as [w Hw]. pose proof (Forall_lookup_1 _ _ _ _ HF Hw) as Hwr. cbn beta in Hwr.
  pose proof Hr as (Hb & Hws & _). cbn [nodes weight_sets] in Hb, Hws.
  rewrite (init_node_push weights i ws ns w) by (rewrite ?Hws, ?length_map; done || lia).
  assert (others sets i) as Ho.
  { intros v l Hv Hin. assert (i < i)%nat by (apply (Hm i v); eauto). lia. }
  assert (repr (mkWeightData ws (<[i:=mkNode w Null Null]> ns) 0) sets) as Hr1.
  { eapply repr_frame; [exact Hr|done|by cbn [nodes]; rewrite length_insert|]. cbn [nodes]. intros k Hne.
    destruct (decide (k = i)) as [->|]; [done|]. by rewrite list_lookup_insert_ne in Hne by done. }
  apply wp_bind. eapply wp_mono; [apply (PushNode_spec _ sets (Z.to_nat w) i Hr1); [|done]|].
  { cbn [nodes]. rewrite list_lookup_insert_eq by lia. do 2 f_equal. lia. }
  intros s' (Hr2 & Hsw & _). exists (push_sets (Z.to_nat w) i sets). cbn [fst snd]. split.
  { destruct Hr2 as (Hb2 & Hw2 & H2). split; [done|]. split; [done|]. exact H2. }
  split; [unfold push_sets; rewrite length_insert, length_resize; lia|]. split.
  { rewrite (proj1 Hsw). cbn [nodes]. by rewrite length_insert. }
  intros k v. rewrite push_members, Hm. split.
  - intros [[-> ->]|[? ?]]; [split; [lia|]; rewrite Hw; f_equal; lia|split; [lia|done]].
  - intros [Hk Hkv]. destruct (decide (k = i)) as [->|]; [left|right; split; [lia|done]].
    rewrite Hw in Hkv. injection Hkv as ->. split; [done|lia].
Qed.

Lemma init_columns s0 weights :
  node_alloc_size s0 = Z.of_nat (length (nodes s0)) -> (length (nodes s0) <= length weights)%nat ->
  weights <> [] -> Forall (fun w => 0 <= w < 200) weights -> Z.of_nat (length weights) <= Null ->
  wp (init idx weights s0) (fun s => columns s (weight_map weights) /\ length (nodes s) = length weights /\
    node_alloc_size s = Z.of_nat (length (nodes s))).
Proof.
  intros Ha Hle Hne HF Hb. unfold init.
  set (p := if _ <? _ then _ else _). assert (length p.2 = length weights /\ p.1 = Z.of_nat (length weights)) as [Hp2 Hp1].
  { subst p. destruct (Z.ltb_spec (node_alloc_size s0) (Z.of_nat (length weights))); cbn [fst snd]; [by rewrite length_resize|lia]. }
  destruct p as [alloc ns]. cbn [fst snd] in *. apply wp_bind.
  apply (wp_for _ _ (init_inv weights)).
  - exists (replicate 200 []). cbn [fst snd]. split.
    { split; [cbn [nodes]; lia|]. split; [done|]. intros w l Hl. apply lookup_replicate in Hl as [-> _]. split; [done|apply NoDup_nil_2]. }
    split; [done|]. split; [done|]. intros k v. split; [|lia]. intros (l & Hl & Hk). apply lookup_replicate in Hl as [-> _].
    by apply not_elem_of_nil in Hk.
  - intros i st Hi. by apply init_node_inv.
  - intros [ws ns'] (sets & Hr & Hl & Hln & Hm). cbn [fst snd] in *. run. pose proof Hr as (Hb' & Hws & H). cbn [weight_sets nodes] in *.
    assert (Forall (fun w => 0 <= w) weights) as HF0 by (eapply Forall_impl; [exact HF|cbn; lia]).
    assert (reverse (cut_nulls (reverse ws)) = map head (trim sets)) as Ecut.
    { unfold trim. rewrite map_reverse, <- cut_nulls_heads, map_reverse, <- Hws. done. }
    assert (exists w, weights !! 0%nat = Some w) as [w0 Hw0] by (destruct weights; [done|by eexists]).
    pose proof (Forall_lookup_1 _ _ _ _ HF Hw0) as Hw0r. cbn beta in Hw0r.
    assert (exists l, sets !! Z.to_nat w0 = Some l /\ 0%nat ∈ l) as (l & Hl0 & Hin0).
    { apply Hm. split; [destruct weights; [done|cbn; lia]|]. rewrite Hw0. f_equal. lia. }
    assert (trim sets !! Z.to_nat w0 = Some l) as Ht0.
    { apply trim_lookup_nonempty; [done|]. intros ->. by apply not_elem_of_nil in Hin0. }
    rewrite bool_decide_false.
    2:{ intros E. rewrite E in Ecut. cbn in Ecut. symmetry in Ecut. apply map_eq_nil in Ecut. by rewrite Ecut in Ht0. }
    rewrite Ecut. split; [|by split; [|rewrite Hp1, Hln]]. exists (trim sets). split.
    { apply (repr_trim (mkWeightData ws ns' 0)) in Hr. destruct Hr as (R1 & R2 & R3). split; [done|]. split; [done|exact R3]. }
    split; [apply trim_trimmed|]. split.
    + intros k v. rewrite weight_map_lookup by done. split.
      * intros Hk. destruct (proj2 (Hm k v)) as (l' & Hl' & Hin'); [split; [by apply lookup_lt_Some in Hk|done]|].
        exists l'. split; [|done]. apply trim_lookup_nonempty; [done|]. intros ->. by apply not_elem_of_nil in Hin'.
      * intros (l' & Hl'%trim_lookup & Hin'). apply (Hm k v). eauto.
    + intros k nd Hnd Hnone. cbn [nodes] in Hnd. apply lookup_lt_Some in Hnd. exfalso.
      destruct (lookup_lt_is_Some_2 weights k ltac:(lia)) as [wk Hwk]. pose proof (Forall_lookup_1 _ _ _ _ HF0 Hwk). cbn beta in *.
      assert (weight_map weights !! k = Some (Z.to_nat wk)) as Ek by (apply weight_map_lookup; [done|]; rewrite Hwk; f_equal; lia).
      congruence.
Qed.

(** ** Counting a list *)
Lemma chain_length_dll s w p l fuel :
  dllseg (nodes s) w p l Null -> Z.of_nat (length (nodes s)) <= Null -> (length l <= fuel)%nat ->
  chain_length idx fuel s (head l) = Ok (Z.of_nat (length l)).
Proof.
  revert p fuel. induction l as [|n l IH]; intros p fuel Hd Hb Hf; [by destruct fuel|].
  destruct fuel as [|fuel]; [cbn in Hf; lia|]. destruct Hd as [Hn Hd]. cbn [head hd_error chain_length].
  rewrite (proj2 (vget_ok _ _ _) Hn). run. cbn [next_weight_node].
  assert ((if hd_or Null l =? Null then None else Some (Z.to_nat (hd_or Null l))) = head l) as ->.
  { destruct l as [|m l]; cbn [hd_or head hd_error]; [by rewrite Z.eqb_refl|]. destruct Hd as [Hm _].
    destruct (IdxOf_small m s (lookup_lt_Some _ _ _ Hm) Hb) as (_ & _ & ->). by rewrite Nat2Z.id. }
  rewrite (IH (Z.of_nat n)) by (done || cbn in Hf; lia). run. f_equal. cbn [length]. lia.
Qed.

Definition at_weight (w : nat) (m : gmap nat nat) : gmap nat nat := filter (fun kv => kv.2 = w) m.

Lemma SetSize_columns s m w :
  columns s m -> (w < length (weight_sets s))%nat -> SetSize idx s w = Ok (Z.of_nat (size (at_weight w m))).
Proof.
  intros (sets & Hr & _ & Hm & _) Hw. pose proof Hr as (Hb & Hws & H). rewrite Hws, length_map in Hw.
  destruct (lookup_lt_is_Some_2 sets w Hw) as [l Hl]. destruct (H w l Hl) as [Hd Hnd]. unfold SetSize.
  assert (vget (weight_sets s) w = Ok (head l)) as -> by (apply vget_ok; by rewrite Hws, lookup_map, Hl). run.
  assert (l ⊆+ seq 0 (length (nodes s))) as Hsub.
  { apply NoDup_submseteq; [done|]. intros n Hn. destruct (repr_lookup s sets w l n Hr Hl Hn) as [Hlt _]. apply elem_of_seq. lia. }
  apply submseteq_length in Hsub. rewrite length_seq in Hsub. rewrite (chain_length_dll s w Null) by done.
  do 2 f_equal. rewrite <- (size_dom (at_weight w m)). rewrite <- (size_list_to_set (C := gset nat) l Hnd). f_equal.
  apply set_eq. intros n. rewrite elem_of_list_to_set, elem_of_dom. unfold at_weight. split.
  - intros Hn. exists w. apply map_lookup_filter_Some. split; [apply Hm; eauto|done].
  - intros [v Hv]. apply map_lookup_filter_Some in Hv as [Hv E]. cbn in E. subst v. apply Hm in Hv as (l' & Hl' & Hin). congruence.
Qed.

(** ** The refinement: calls on the structure against calls on the map *)
Inductive Op := Fix (n : nat) | Decrement (n : nat).

Definition run_op (s : WeightData) (o : Op) : res WeightData :=
  match o with
  | Fix n => s ← PopNode idx n s; assign_weight n 0 s
  | Decrement n => DecementWeight idx n s
  end.
Definition run_ops (ops : list Op) (s : WeightData) : res WeightData := for_each ops (fun o s => run_op s o) s.

(** The last column is never removed, the client's duty. *)
Definition abs_op (m : gmap nat nat) (o : Op) : option (gmap nat nat) :=
  match o with
  | Fix n => if bool_decide (is_Some (m !! n) /\ delete n m <> ∅) then Some (delete n m) else None
  | Decrement n => match m !! n with
                   | Some (S w) => if bool_decide (delete n m <> ∅) then Some (<[n := w]> m) else None
                   | _ => None
                   end
  end.
Fixpoint abs_ops (m : gmap nat nat) (ops : list Op) : option (gmap nat nat) :=
  match ops with
  | [] => Some m
  | o :: ops' => match abs_op m o with Some m' => abs_ops m' ops' | None => None end
  end.

Lemma delete_nonempty (m : gmap nat nat) n : delete n m <> ∅ -> exists k, k <> n /\ is_Some (m !! k).
Proof.
  intros H. apply map_choose in H as (k & v & Hk). apply lookup_delete_Some in Hk as [? ?]. exists k. split; [done|eauto].
Qed.

Lemma run_op_columns s m m' o (cap : nat) :
  columns s m -> (forall n w, m !! n = Some w -> Z.of_nat w < 2 ^ idx) -> abs_op m o = Some m' ->
  wp (run_op s o) (fun s' => columns s' m' /\ lengths s s') /\ (forall n w, m' !! n = Some w -> Z.of_nat w < 2 ^ idx).
Proof.
  intros Hc Hcap. destruct o as [n|n]; cbn [abs_op run_op].
  - case_bool_decide as Hb; [|done]. destruct Hb as [[w Hn] Hd]. intros [= <-]. split.
    + apply (fix_columns s m n w); [done|done|by apply delete_nonempty].
    + intros k v Hk. apply lookup_delete_Some in Hk as [_ Hk]. eauto.
  - destruct (m !! n) as [[|w]|] eqn:Hn; [done| |done]. case_bool_decide as Hd; [|done]. intros [= <-]. split.
    + unfold DecementWeight. destruct (columns_lookup s m n (S w) Hc Hn) as (_ & nd & End & Ew).
      rewrite (proj2 (vget_ok _ _ _) End). run. rewrite (proj2 (Z.eqb_neq _ 0)) by lia. run.
      apply reinsert_columns; [done|done|by eapply Hcap|by apply delete_nonempty].
    + intros k v Hk. apply lookup_insert_Some in Hk as [[<- <-]|[_ Hk]]; [|eauto]. pose proof (Hcap n (S w) Hn). lia.
Qed.

Lemma run_ops_columns ops : forall s m m',
  columns s m -> (forall n w, m !! n = Some w -> Z.of_nat w < 2 ^ idx) -> abs_ops m ops = Some m' ->
  wp (run_ops ops s) (fun s' => columns s' m' /\ lengths s s').
Proof.
  induction ops as [|o ops IH]; intros s m m' Hc Hcap Ha; cbn [abs_ops] in Ha; [injection Ha as <-; by split|].
  destruct (abs_op m o) as [m1|] eqn:E; [|done]. unfold run_ops. cbn [for_each]. apply wp_bind.
  destruct (run_op_columns s m m1 o 0 Hc Hcap E) as [Hwp Hcap1]. eapply wp_mono; [exact Hwp|].
  intros s1 [Hc1 Hl1]. eapply wp_mono; [by apply (IH s1 m1 m')|]. intros s2 [Hc2 Hl2]. split; [done|]. unfold lengths in *. congruence.
Qed.

(** What a caller can see of the structure. *)
Definition observes (cols : nat) (s : WeightData) (m : gmap nat nat) : Prop :=
  (forall n, (n < cols)%nat -> exists nd, nodes s !! n = Some nd /\ weight nd = Z.of_nat (default 0%nat (m !! n))) /\
  ((exists n w, m !! n = Some (S w)) <-> (1 < length (weight_sets s))%nat) /\
  ((exists n w, m !! n = Some (S w)) -> wp (GetMinWeightNode s) (fun n => exists w, m !! n = Some (S w) /\
     forall k v, m !! k = Some v -> v = 0%nat \/ (S w <= v)%nat)) /\
  (forall w, (w < length (weight_sets s))%nat -> SetSize idx s w = Ok (Z.of_nat (size (at_weight w m)))).

Lemma columns_observes s m : columns s m -> observes (length (nodes s)) s m.
Proof.
  intros Hc. assert ((exists n w, m !! n = Some (S w)) <-> (1 < length (weight_sets s))%nat) as Hiff.
  { split.
    - intros (n & w & Hn). destruct (decide (1 < length (weight_sets s))%nat) as [|Hle]; [done|].
      pose proof (no_weights s m n (S w) Hc ltac:(lia) Hn). done.
    - intros Hlt. pose proof (GetMinWeightNode_columns s m Hc Hlt) as Hw. apply wp_iff in Hw as (n & _ & w & Hn & _). eauto. }
  split; [|split; [done|split]].
  - intros n Hn. destruct (lookup_lt_is_Some_2 _ _ Hn) as [nd E]. exists nd. split; [done|]. by eapply columns_weight.
  - intros Hex. apply GetMinWeightNode_columns; [done|by apply Hiff].
  - intros w Hw. by apply SetSize_columns.
Qed.
End proofs.

(** C25.  [WeightData] implements a finite map from columns to weights: after
    [init] with weights below 200 and any sequence of removals and decrements that
    never takes out the last column, each call returns, every node shows the weight of its column,
    the number of lists tells whether a positive weight is left, the sizes of
    the lists count the columns, and [GetMinWeightNode] returns a column of the
    least positive weight. *)
Theorem WeightData_refines idx weights s0 ops m :
  0 <= idx -> node_alloc_size s0 = Z.of_nat (length (nodes s0)) -> (length (nodes s0) <= length weights)%nat ->
  weights <> [] -> Forall (fun w => 0 <= w < 200 /\ w < 2 ^ idx) weights ->
  Z.of_nat (length weights) <= NullNode idx ->
  abs_ops (weight_map weights) ops = Some m ->
  wp (s ← init idx weights s0; run_ops idx ops s) (fun s => observes idx (length weights) s m).
Proof.
  intros Hidx Ha Hl Hne HF Hb Hops. apply wp_bind.
  eapply wp_mono; [apply (init_columns idx Hidx s0 weights); try done; by eapply Forall_impl; [exact HF|cbn; lia]|].
  cbn beta. intros s (Hc & Hln & _). eapply wp_mono; [apply (run_ops_columns idx Hidx ops s (weight_map weights) m Hc); [|done]|].
  - intros n w Hn. apply weight_map_lookup in Hn; [|by eapply Forall_impl; [exact HF|cbn; lia]].
    pose proof (Forall_lookup_1 _ _ _ _ HF Hn). cbn beta in *. lia.
  - intros s' [Hc' Hl']. rewrite <- Hln, <- Hl'. by apply columns_observes.
Qed.

Definition empty_weight_data : WeightData := mkWeightData [] [] 0.
Lemma WeightData_refines_witness :
  let ops := [Decrement 0; Fix 1; Decrement 3; Decrement 0; Fix 4] in
  abs_ops (weight_map [2; 1; 3; 2; 1; 3]) ops = Some {[0%nat := 0%nat; 2%nat := 3%nat; 3%nat := 1%nat; 5%nat := 3%nat]} /\
  wp (s ← init 8 [2; 1; 3; 2; 1; 3] empty_weight_data; run_ops 8 ops s) (fun s =>
    observes 8 6 s {[0%nat := 0%nat; 2%nat := 3%nat; 3%nat := 1%nat; 5%nat := 3%nat]}).
Proof.
  assert (abs_ops (weight_map [2; 1; 3; 2; 1; 3]) [Decrement 0; Fix 1; Decrement 3; Decrement 0; Fix 4]
    = Some {[0%nat := 0%nat; 2%nat := 3%nat; 3%nat := 1%nat; 5%nat := 3%nat]}) as Ho by (vm_compute; reflexivity).
  split; [exact Ho|].
  apply (WeightData_refines 8 [2; 1; 3; 2; 1; 3] empty_weight_data _ _); [lia|done|cbn; lia|done| |unfold NullNode; cbn; lia|exact Ho].
  rewrite !Forall_cons, Forall_nil. lia.
Defined.
