(* ===== verification/DenseMtx.v ===== *)
(** * Dense binary matrices (psi/algorithm/rr22/okvs/dense_mtx)

    A [DenseMtx] stores the bits of a matrix column by column in 128-bit words;
    [Invert] is Gauss-Jordan elimination over GF(2).  A copy of a matrix shares
    the words of the original, so the elimination also works on the matrix it is
    called on; the definitions return that matrix too.  The file shows that
    [Invert] returns the two-sided inverse exactly when there is one. *)
From S2P Require Import Prelude Galois.

(** ** Bits of memory *)

(** [BitReference]: a bit of a word, read, assigned and flipped. *)
Definition bit_get (w : Z) (shift : nat) : bool := negb (Z.land (Z.shiftr w (Z.of_nat shift)) 1 =? 0).
Definition bit_set (w : Z) (shift : nat) (b : bool) : Z :=
  Z.lxor w (Z.land (Z.lxor w (Z.shiftl (b2z b) (Z.of_nat shift))) (Z.shiftl 1 (Z.of_nat shift))).
Definition bit_flip (w : Z) (shift : nat) (b : bool) : Z := Z.lxor w (Z.shiftl (b2z b) (Z.of_nat shift)).

(** [*BitIterator((uint8_t* )&w, i)] on one 128-bit word. *)
Definition bit_at (w : Z) (i : nat) : res bool :=
  if bool_decide (i < 128)%nat then Ok (bit_get w i) else UB.

(** ** The matrix: [data_mtx_] views [data_] as [cols_] runs of [rows_] words *)
Record DenseMtx := mkDenseMtx {
  data_ : list Z;
  bit_rows_ : nat;
  rows_ : nat;
  cols_ : nat
}.

(** The default constructor. *)
Definition DenseMtx_new : DenseMtx := mkDenseMtx [] 0 0 0.

Definition resize_mtx (rows cols : nat) (m : DenseMtx) : DenseMtx :=
  let rows_ := ((rows + 127) / 128)%nat in
  mkDenseMtx (resize (cols * rows_) 0 (data_ m)) rows rows_ cols.

Definition rows (m : DenseMtx) : nat := bit_rows_ m.
Definition cols (m : DenseMtx) : nat := if bool_decide (rows_ m = 0%nat) then 0%nat else (length (data_ m) / rows_ m)%nat.

(** [operator()]: the word of a bit and its place there. *)
Definition word_of (m : DenseMtx) (row col : nat) : nat := (col * rows_ m + row / 128)%nat.

Definition get (m : DenseMtx) (row col : nat) : res bool :=
  _ ← enforce (bool_decide (row < rows m)%nat);
  _ ← enforce (bool_decide (col < cols m)%nat);
  w ← vget (data_ m) (word_of m row col);
  Ok (bit_get w (row mod 128)).

Definition with_data (m : DenseMtx) (d : list Z) : DenseMtx := mkDenseMtx d (bit_rows_ m) (rows_ m) (cols_ m).

Definition put (m : DenseMtx) (row col : nat) (b : bool) : res DenseMtx :=
  _ ← enforce (bool_decide (row < rows m)%nat);
  _ ← enforce (bool_decide (col < cols m)%nat);
  w ← vget (data_ m) (word_of m row col);
  d ← vset (data_ m) (word_of m row col) (bit_set w (row mod 128) b);
  Ok (with_data m d).

Definition flip (m : DenseMtx) (row col : nat) (b : bool) : res DenseMtx :=
  _ ← enforce (bool_decide (row < rows m)%nat);
  _ ← enforce (bool_decide (col < cols m)%nat);
  w ← vget (data_ m) (word_of m row col);
  d ← vset (data_ m) (word_of m row col) (bit_flip w (row mod 128) b);
  Ok (with_data m d).

(** [Row::swap] for two rows of one matrix. *)
Definition row_swap (m : DenseMtx) (i j : nat) : res DenseMtx :=
  for_ (cols m) (fun col_idx m =>
    bit ← get m j col_idx;
    b ← get m i col_idx;
    m ← put m j col_idx b;
    put m i col_idx bit) m.

(** [Row::IsZero]. *)
Fixpoint is_zero_from (n k idx : nat) (m : DenseMtx) : res bool :=
  match n with
  | O => Ok true
  | S n' => bit ← get m idx k; if (bit : bool) then Ok false else is_zero_from n' (S k) idx m
  end.
Definition IsZero (m : DenseMtx) (idx : nat) : res bool := is_zero_from (cols m) 0 idx m.

(** [Row::operator^=] for two rows of one matrix. *)
Definition row_xor (m : DenseMtx) (i j : nat) : res DenseMtx :=
  for_ (cols m) (fun col_idx m => b ← get m j col_idx; flip m i col_idx b) m.

Definition Identity (n : nat) : res DenseMtx :=
  for_ n (fun i m => put m i i true) (resize_mtx n n DenseMtx_new).

Definition Mult (a m : DenseMtx) : res DenseMtx :=
  _ ← enforce (bool_decide (cols a = rows m));
  let ret := resize_mtx (rows a) (cols m) DenseMtx_new in
  for_ (rows ret) (fun i ret => for_ (cols ret) (fun j ret =>
    v ← for_ (cols a) (fun k v => x ← get a i k; y ← get m k j; Ok (xorb v (x && y))) false;
    put ret i j v) ret) ret.

(** [Add]: the sum is written through the view of the copy, that is into the
    words of [a]; the words the copy owns stay as they were.  First those words,
    then the matrix both views show. *)
Definition Add (a m : DenseMtx) : res (list Z * DenseMtx) :=
  _ ← enforce (bool_decide (rows a = rows m) && bool_decide (cols a = cols m));
  shared ← for_ (length (data_ a)) (fun i d =>
    x ← vget d i; y ← vget (data_ m) i; vset d i (Z.lxor x y)) (data_ a);
  Ok (data_ a, with_data a shared).

(** The search for a row to swap with. *)
Fixpoint find_pivot (fuel j i : nat) (m : DenseMtx) : res (option nat) :=
  match fuel with
  | O => Ok None
  | S fuel' => b ← get m j i; if (b : bool) then Ok (Some j) else find_pivot fuel' (S j) i m
  end.

(** [for k: mtx(j, k) ^= mtx(i, k); Inv(j, k) ^= Inv(i, k)]. *)
Definition add_row (n i j : nat) (s : DenseMtx * DenseMtx) : res (DenseMtx * DenseMtx) :=
  for_ n (fun k '(mtx, inv) =>
    b ← get mtx i k; mtx ← flip mtx j k b;
    c ← get inv i k; inv ← flip inv j k c;
    Ok (mtx, inv)) s.

(** Column [i] cleared but for the diagonal. *)
Definition clear_column (n i : nat) (s : DenseMtx * DenseMtx) : res (DenseMtx * DenseMtx) :=
  for_ n (fun j s =>
    if bool_decide (j = i) then Ok s
    else b ← get s.1 j i; if (b : bool) then add_row n i j s else Ok s) s.

(** A turn of the elimination; [None] for the early return. *)
Definition invert_step (n i : nat) (s : DenseMtx * DenseMtx) : res (DenseMtx * option DenseMtx) :=
  let '(mtx, inv) := s in
  b ← get mtx i i;
  '(mtx, inv, ok) ←
    (if (b : bool) then Ok (mtx, inv, true)
     else
       p ← find_pivot (n - S i) (S i) i mtx;
       '(mtx, inv) ← match p with
                     | Some j => mtx ← row_swap mtx i j; inv ← row_swap inv i j; Ok (mtx, inv)
                     | None => Ok (mtx, inv)
                     end;
       b ← get mtx i i;
       Ok (mtx, inv, b));
  if (ok : bool) then '(mtx, inv) ← clear_column n i (mtx, inv); Ok (mtx, Some inv) else Ok (mtx, None).

(** [Invert]: what the matrix itself becomes, and the result. *)
Definition Invert (m : DenseMtx) : res (DenseMtx * DenseMtx) :=
  _ ← enforce (bool_decide (rows m = cols m));
  let n := rows m in
  inv ← Identity n;
  '(mtx, inv) ← for_ n (fun i s =>
    match s with
    | (mtx, Some inv) => invert_step n i (mtx, inv)
    | (mtx, None) => Ok (mtx, None)
    end) (m, Some inv);
  Ok (mtx, default DenseMtx_new inv).

(** ** Sums over GF(2) *)
Definition bsum (n : nat) (f : nat -> bool) : bool := foldr (fun i => xorb (f i)) false (seq 0 n).

Lemma bsum_S n f : bsum (S n) f = xorb (bsum n f) (f n).
Proof.
  unfold bsum. rewrite seq_S, foldr_app. cbn [foldr Nat.add]. generalize (seq 0 n). intros l.
  induction l as [|x l IH]; cbn; [by destruct (f n)|]. rewrite IH. by destruct (f x), (foldr (fun i => xorb (f i)) false l), (f n).
Qed.
Lemma bsum_ext n f g : (forall i, (i < n)%nat -> f i = g i) -> bsum n f = bsum n g.
Proof. intros H. induction n as [|n IH]; [done|]. rewrite !bsum_S, IH, H by auto. done. Qed.
Lemma bsum_xor n f g : bsum n (fun i => xorb (f i) (g i)) = xorb (bsum n f) (bsum n g).
Proof. induction n as [|n IH]; [done|]. rewrite !bsum_S, IH. by destruct (bsum n f), (bsum n g), (f n), (g n). Qed.
Lemma bsum_and_l n b f : bsum n (fun i => b && f i) = b && bsum n f.
Proof. induction n as [|n IH]; [by rewrite andb_false_r|]. rewrite !bsum_S, IH. by destruct b. Qed.
Lemma bsum_and_r n b f : bsum n (fun i => f i && b) = bsum n f && b.
Proof. rewrite andb_comm, <- bsum_and_l. apply bsum_ext. intros. apply andb_comm. Qed.
Lemma bsum_zero n f : (forall i, (i < n)%nat -> f i = false) -> bsum n f = false.
Proof. intros H. induction n as [|n IH]; [done|]. rewrite bsum_S, IH, H by auto. done. Qed.
Lemma bsum_swap n m f : bsum n (fun i => bsum m (f i)) = bsum m (fun j => bsum n (fun i => f i j)).
Proof.
  induction n as [|n IH]; [symmetry; by apply bsum_zero|]. rewrite bsum_S, IH, <- bsum_xor. apply bsum_ext. intros. by rewrite bsum_S.
Qed.
Lemma bsum_delta n k f : (k < n)%nat -> bsum n (fun i => bool_decide (i = k) && f i) = f k.
Proof.
  intros Hk. induction n as [|n IH]; [lia|]. rewrite bsum_S. destruct (decide (k = n)) as [->|].
  - rewrite bool_decide_true by done. rewrite bsum_zero; [done|]. intros i Hi. by rewrite bool_decide_false by lia.
  - rewrite (bool_decide_false (n = k)) by lia. rewrite IH by lia. by rewrite xorb_false_r.
Qed.

(** ** Square matrices as functions *)
Definition bmat := nat -> nat -> bool.
Definition id_mat : bmat := fun r c => bool_decide (r = c).
Definition mmul (n : nat) (A B : bmat) : bmat := fun r c => bsum n (fun k => A r k && B k c).
Definition meq (n : nat) (A B : bmat) : Prop := forall r c, (r < n)%nat -> (c < n)%nat -> A r c = B r c.

Section bmat.
Context (n : nat).
#[export] Instance meq_equiv : Equivalence (meq n).
Proof.
  split; [done| |].
  - intros A B H r c Hr Hc. symmetry. by apply H.
  - intros A B C H1 H2 r c Hr Hc. by rewrite H1, H2.
Qed.
#[export] Instance mmul_proper : Proper (meq n ==> meq n ==> meq n) (mmul n).
Proof.
  intros A A' HA B B' HB r c Hr Hc. apply bsum_ext. intros k Hk. by rewrite HA, HB.
Qed.
Lemma mmul_assoc A B C : meq n (mmul n (mmul n A B) C) (mmul n A (mmul n B C)).
Proof.
  intros r c Hr Hc. unfold mmul.
  transitivity (bsum n (fun k => bsum n (fun j => A r j && (B j k && C k c)))).
  - apply bsum_ext. intros k Hk. rewrite <- bsum_and_r. apply bsum_ext. intros j Hj. by rewrite andb_assoc.
  - rewrite bsum_swap. apply bsum_ext. intros j Hj. apply bsum_and_l.
Qed.
Lemma mmul_id_l A : meq n (mmul n id_mat A) A.
Proof.
  intros r c Hr Hc. unfold mmul, id_mat. etransitivity; [|apply (bsum_delta n r (fun k => A k c) Hr)].
  apply bsum_ext. intros k Hk. f_equal. apply bool_decide_ext. split; by intros ->.
Qed.
Lemma mmul_id_r A : meq n (mmul n A id_mat) A.
Proof.
  intros r c Hr Hc. unfold mmul, id_mat. etransitivity; [|apply (bsum_delta n c (fun k => A r k) Hc)].
  apply bsum_ext. intros k Hk. apply andb_comm.
Qed.
End bmat.

(** ** Reading and writing bits *)
Definition bits (m : DenseMtx) : bmat := fun r c =>
  Z.testbit (data_ m !!! word_of m r c) (Z.of_nat (r mod 128)).

Definition wf (m : DenseMtx) (r c : nat) : Prop :=
  (0 < r)%nat /\ bit_rows_ m = r /\ cols_ m = c /\ rows_ m = ((r + 127) / 128)%nat /\ length (data_ m) = (c * rows_ m)%nat.

Lemma bit_get_testbit w s : bit_get w s = Z.testbit w (Z.of_nat s).
Proof. unfold bit_get. apply test_mask. lia. Qed.

Lemma b2z_testbit b k : 0 <= k -> Z.testbit (b2z b) k = b && (k =? 0).
Proof.
  intros. destruct b; cbn [b2z andb]; [|apply Z.bits_0]. destruct (Z.eqb_spec k 0) as [->|]; [done|].
  apply Z.bits_above_log2; [lia|]. cbn. lia.
Qed.

Lemma shifted_bit b s k : 0 <= k -> Z.testbit (Z.shiftl (b2z b) (Z.of_nat s)) k = b && (k =? Z.of_nat s).
Proof.
  intros. rewrite Z.shiftl_spec by done. destruct (decide (k < Z.of_nat s)).
  - rewrite Z.testbit_neg_r by lia. rewrite (proj2 (Z.eqb_neq _ _)) by lia. by rewrite andb_false_r.
  - rewrite b2z_testbit by lia. f_equal. lia.
Qed.

Lemma bit_set_testbit w s b k : 0 <= k -> Z.testbit (bit_set w s b) k = if k =? Z.of_nat s then b else Z.testbit w k.
Proof.
  intros. unfold bit_set. rewrite Z.lxor_spec, Z.land_spec, Z.lxor_spec, shifted_bit by done.
  change 1 with (b2z true). rewrite shifted_bit by done. destruct (k =? Z.of_nat s), b, (Z.testbit w k); done.
Qed.

Lemma bit_flip_testbit w s b k :
  0 <= k -> Z.testbit (bit_flip w s b) k = xorb (Z.testbit w k) (b && (k =? Z.of_nat s)).
Proof. intros. unfold bit_flip. by rewrite Z.lxor_spec, shifted_bit by done. Qed.

Section bits.
Context (nr nc : nat).

Lemma wf_cols m : wf m nr nc -> rows m = nr /\ cols m = nc /\ (0 < rows_ m)%nat.
Proof.
  intros (Hr & Hb & Hc & Hw & Hl). assert (0 < rows_ m)%nat as Hp by (rewrite Hw; apply Nat.div_str_pos; lia).
  unfold rows, cols. rewrite bool_decide_false by lia. rewrite Hl, Nat.div_mul by lia. done.
Qed.

Lemma word_of_bound m r c : wf m nr nc -> (r < nr)%nat -> (c < nc)%nat -> (word_of m r c < length (data_ m))%nat.
Proof.
  intros (Hr & Hb & Hc & Hw & Hl) Hrr Hcc. unfold word_of. rewrite Hl.
  assert (r / 128 < rows_ m)%nat by (rewrite Hw; apply Nat.Div0.div_lt_upper_bound; pose proof (Nat.div_mod_eq (nr + 127) 128);
    pose proof (Nat.mod_upper_bound (nr + 127) 128); lia).
  apply Nat.lt_le_trans with (c * rows_ m + rows_ m)%nat; [lia|]. nia.
Qed.

(** Different bits live in different places. *)
Lemma word_of_inj m r c r' c' :
  wf m nr nc -> (r < nr)%nat -> (r' < nr)%nat -> word_of m r c = word_of m r' c' -> (r mod 128 = r' mod 128)%nat -> r = r' /\ c = c'.
Proof.
  intros (Hr & Hb & Hc & Hw & Hl) Hrr Hrr' E Em. unfold word_of in E.
  assert (forall x, (x < nr)%nat -> (x / 128 < rows_ m)%nat) as Hd.
  { intros x Hx. rewrite Hw. apply Nat.Div0.div_lt_upper_bound. pose proof (Nat.div_mod_eq (nr + 127) 128).
    pose proof (Nat.mod_upper_bound (nr + 127) 128). lia. }
  pose proof (Hd r Hrr). pose proof (Hd r' Hrr'). pose proof (Nat.div_mod_eq r 128). pose proof (Nat.div_mod_eq r' 128).
  assert (c = c') by nia. subst c'. split; [lia|done].
Qed.

Lemma get_ok m r c : wf m nr nc -> (r < nr)%nat -> (c < nc)%nat -> get m r c = Ok (bits m r c).
Proof.
  intros Hwf Hr Hc. destruct (wf_cols m Hwf) as (E1 & E2 & _). unfold get. rewrite E1, E2, !bool_decide_true by done. run.
  rewrite vget_total by by apply word_of_bound. run. by rewrite bit_get_testbit.
Qed.

(** A write to one bit leaves the rest of the matrix alone. *)
Lemma write_ok (f : Z -> Z) (b : bool) m r c :
  wf m nr nc -> (r < nr)%nat -> (c < nc)%nat ->
  (forall w k, 0 <= k -> Z.testbit (f w) k = if k =? Z.of_nat (r mod 128) then b else Z.testbit w k) \/
  (forall w k, 0 <= k -> Z.testbit (f w) k = if k =? Z.of_nat (r mod 128) then xorb (Z.testbit w k) b else Z.testbit w k) ->
  let m' := with_data m (<[word_of m r c := f (data_ m !!! word_of m r c)]> (data_ m)) in
  wf m' nr nc /\ forall r' c', (r' < nr)%nat -> (c' < nc)%nat -> (r', c') <> (r, c) -> bits m' r' c' = bits m r' c'.
Proof.
  intros Hwf Hr Hc Hf m'. pose proof Hwf as (H1 & H2 & H3 & H4 & H5). split.
  { split; [done|]. split; [done|]. split; [done|]. split; [done|]. cbn [m' with_data data_ rows_]. by rewrite length_insert. }
  intros r' c' Hr' Hc' Hne. unfold bits. change (word_of m' r' c') with (word_of m r' c'). cbn [m' with_data data_].
  pose proof (word_of_bound m r c Hwf Hr Hc). destruct (decide (word_of m r c = word_of m r' c')) as [E|E].
  - rewrite <- E, list_lookup_total_insert_eq by done.
    assert ((Z.of_nat (r' mod 128) =? Z.of_nat (r mod 128)) = false) as Em.
    { apply Z.eqb_neq. intros Em. apply Hne. destruct (word_of_inj m r c r' c' Hwf Hr Hr' E) as [-> ->]; [lia|done]. }
    destruct Hf as [Hf|Hf]; rewrite Hf, Em by lia; done.
  - by rewrite list_lookup_total_insert_ne.
Qed.

Lemma put_ok m r c b :
  wf m nr nc -> (r < nr)%nat -> (c < nc)%nat ->
  wp (put m r c b) (fun m' => wf m' nr nc /\ forall r' c', (r' < nr)%nat -> (c' < nc)%nat ->
    bits m' r' c' = if bool_decide (r' = r /\ c' = c) then b else bits m r' c').
Proof.
  intros Hwf Hr Hc. destruct (wf_cols m Hwf) as (E1 & E2 & _). unfold put. rewrite E1, E2, !bool_decide_true by done. run.
  pose proof (word_of_bound m r c Hwf Hr Hc). rewrite vget_total by done. run. rewrite vset_total by done. run.
  destruct (write_ok (fun w => bit_set w (r mod 128) b) b m r c Hwf Hr Hc) as [Hwf' Hfr].
  { left. intros. by apply bit_set_testbit. }
  split; [exact Hwf'|]. intros r' c' Hr' Hc'. case_bool_decide as Hd; [|apply Hfr; [done|done|naive_solver]].
  destruct Hd as [-> ->]. unfold bits. cbn [with_data data_]. change (word_of (with_data _ _) r c) with (word_of m r c).
  rewrite list_lookup_total_insert_eq by done. rewrite bit_set_testbit by lia. by rewrite Z.eqb_refl.
Qed.

Lemma flip_ok m r c b :
  wf m nr nc -> (r < nr)%nat -> (c < nc)%nat ->
  wp (flip m r c b) (fun m' => wf m' nr nc /\ forall r' c', (r' < nr)%nat -> (c' < nc)%nat ->
    bits m' r' c' = if bool_decide (r' = r /\ c' = c) then xorb (bits m r c) b else bits m r' c').
Proof.
  intros Hwf Hr Hc. destruct (wf_cols m Hwf) as (E1 & E2 & _). unfold flip. rewrite E1, E2, !bool_decide_true by done. run.
  pose proof (word_of_bound m r c Hwf Hr Hc). rewrite vget_total by done. run. rewrite vset_total by done. run.
  destruct (write_ok (fun w => bit_flip w (r mod 128) b) b m r c Hwf Hr Hc) as [Hwf' Hfr].
  { right. intros w k Hk. rewrite bit_flip_testbit by done. destruct (k =? _); by rewrite ?andb_true_r, ?andb_false_r, ?xorb_false_r. }
  split; [exact Hwf'|]. intros r' c' Hr' Hc'. case_bool_decide as Hd; [|apply Hfr; [done|done|naive_solver]].
  destruct Hd as [-> ->]. unfold bits. cbn [with_data data_]. change (word_of (with_data _ _) r c) with (word_of m r c).
  rewrite list_lookup_total_insert_eq by done. rewrite bit_flip_testbit by lia. by rewrite Z.eqb_refl, andb_true_r.
Qed.

Lemma resize_new : (0 < nr)%nat -> wf (resize_mtx nr nc DenseMtx_new) nr nc /\
  forall r c, (r < nr)%nat -> (c < nc)%nat -> bits (resize_mtx nr nc DenseMtx_new) r c = false.
Proof.
  intros Hr. assert (wf (resize_mtx nr nc DenseMtx_new) nr nc) as Hwf.
  { split; [done|]. repeat split. cbn [resize_mtx data_ rows_]. by rewrite length_resize. }
  split; [done|]. intros r c Hrr Hcc. pose proof (word_of_bound _ r c Hwf Hrr Hcc) as Hb. unfold bits.
  cbn [resize_mtx data_ DenseMtx_new] in *. rewrite resize_nil in *. rewrite length_replicate in Hb.
  rewrite lookup_total_replicate_lt by exact Hb. apply Z.bits_0.
Qed.
End bits.

(** ** Row operations *)
Definition swap_idx (i j r : nat) : nat := if bool_decide (r = i) then j else if bool_decide (r = j) then i else r.
Definition swap_mat (i j : nat) : bmat := fun r c => bool_decide (c = swap_idx i j r).
(** Adds [b] times row [i] to row [j]. *)
Definition add_mat (i j : nat) (b : bool) : bmat := fun r c => xorb (bool_decide (c = r)) (bool_decide (r = j) && bool_decide (c = i) && b).

Section row_ops.
Context (n : nat).

Lemma swap_idx_lt i j r : (i < n)%nat -> (j < n)%nat -> (r < n)%nat -> (swap_idx i j r < n)%nat.
Proof. unfold swap_idx. repeat case_bool_decide; lia. Qed.

Lemma mmul_swap i j A : (i < n)%nat -> (j < n)%nat -> meq n (mmul n (swap_mat i j) A) (fun r c => A (swap_idx i j r) c).
Proof. intros Hi Hj r c Hr Hc. unfold mmul, swap_mat. apply (bsum_delta n _ (fun k => A k c)). by apply swap_idx_lt. Qed.

Lemma mmul_add i j b A : (i < n)%nat -> meq n (mmul n (add_mat i j b) A) (fun r c => xorb (A r c) (bool_decide (r = j) && b && A i c)).
Proof.
  intros Hi r c Hr Hc. unfold mmul, add_mat.
  transitivity (xorb (bsum n (fun k => bool_decide (k = r) && A k c)) (bsum n (fun k => bool_decide (k = i) && ((bool_decide (r = j) && b) && A k c)))).
  - rewrite <- bsum_xor. apply bsum_ext. intros k Hk.
    destruct (bool_decide (k = r)), (bool_decide (r = j)), (bool_decide (k = i)), b, (A k c); done.
  - rewrite (bsum_delta n r (fun k => A k c)) by done. by rewrite (bsum_delta n i (fun k => (bool_decide (r = j) && b) && A k c)).
Qed.

(** Both are their own inverses. *)
Definition involution (E : bmat) : Prop := meq n (mmul n E E) id_mat.
Lemma swap_involution i j : (i < n)%nat -> (j < n)%nat -> involution (swap_mat i j).
Proof.
  intros Hi Hj. unfold involution. etransitivity; [by apply mmul_swap|]. intros r c Hr Hc. unfold swap_mat, id_mat, swap_idx.
  repeat (case_bool_decide; try lia; try done).
Qed.
Lemma add_involution i j b : (i < n)%nat -> i <> j -> involution (add_mat i j b).
Proof.
  intros Hi Hij. unfold involution. etransitivity; [by apply mmul_add|]. intros r c Hr Hc. unfold add_mat, id_mat.
  repeat case_bool_decide; destruct b; cbn; try done; lia.
Qed.

(** *** [row_swap] *)
Lemma row_swap_ok m i j : wf m n n -> (i < n)%nat -> (j < n)%nat ->
  wp (row_swap m i j) (fun m' => wf m' n n /\ meq n (bits m') (mmul n (swap_mat i j) (bits m))).
Proof.
  intros Hwf Hi Hj. unfold row_swap. destruct (wf_cols n n m Hwf) as (_ & -> & _).
  apply (wp_for _ _ (fun k m' => wf m' n n /\ forall r c, (r < n)%nat -> (c < n)%nat ->
    bits m' r c = if bool_decide (c < k)%nat then bits m (swap_idx i j r) c else bits m r c)).
  - split; [done|]. intros r c Hr Hc. by rewrite bool_decide_false by lia.
  - intros k m1 Hk [Hwf1 H1]. rewrite !(get_ok n n) by done. run. apply wp_bind.
    eapply wp_mono; [by apply (put_ok n n)|]. intros m2 [Hwf2 H2]. eapply wp_mono; [by apply (put_ok n n)|].
    intros m3 [Hwf3 H3]. split; [done|]. intros r c Hr Hc. rewrite H3, H2 by done.
    rewrite !H1 by done. unfold swap_idx. repeat (case_bool_decide; try done; try lia; destruct_and?; subst; try done; try lia).
  - intros m' [Hwf' H']. split; [done|]. etransitivity; [|symmetry; by apply mmul_swap]. intros r c Hr Hc.
    rewrite H' by done. by rewrite bool_decide_true by lia.
Qed.

(** *** [add_row] *)
Lemma add_row_ok i j s : wf s.1 n n -> wf s.2 n n -> (i < n)%nat -> (j < n)%nat -> i <> j ->
  wp (add_row n i j s) (fun s' => wf s'.1 n n /\ wf s'.2 n n /\
    meq n (bits s'.1) (mmul n (add_mat i j true) (bits s.1)) /\ meq n (bits s'.2) (mmul n (add_mat i j true) (bits s.2))).
Proof.
  intros H1 H2 Hi Hj Hij. unfold add_row.
  set (after k (m m' : DenseMtx) := wf m' n n /\ forall r c, (r < n)%nat -> (c < n)%nat ->
    bits m' r c = if bool_decide (r = j /\ (c < k)%nat) then xorb (bits m r c) (bits m i c) else bits m r c).
  assert (forall k m m', (k < n)%nat -> after k m m' -> wp (b ← get m' i k; flip m' j k b) (after (S k) m)) as Hstep.
  { intros k m m' Hk [Hwf Ha]. rewrite (get_ok n n) by done. run. eapply wp_mono; [by apply (flip_ok n n)|].
    intros m2 [Hwf2 Hb]. split; [done|]. intros r c Hr Hc. rewrite Hb, !Ha by done.
    rewrite (bool_decide_false (i = j /\ (k < k)%nat)) by lia.
    repeat (case_bool_decide; try done; try lia; destruct_and?; subst; try done; try lia). }
  apply (wp_for _ _ (fun k s' => after k s.1 s'.1 /\ after k s.2 s'.2)).
  - split; (split; [done|]); intros r c Hr Hc; by rewrite bool_decide_false by lia.
  - intros k [mtx inv] Hk [Ha Hb]. cbn [fst snd] in *. pose proof (Hstep k s.1 mtx Hk Ha) as W1. pose proof (Hstep k s.2 inv Hk Hb) as W2.
    destruct (get mtx i k) as [b| |]; run; try done. cbn [mbind res_bind] in W1. apply wp_bind. eapply wp_mono; [exact W1|].
    intros mtx' Ha'. destruct (get inv i k) as [c| |]; run; try done. cbn [mbind res_bind] in W2. apply wp_bind.
    eapply wp_mono; [exact W2|]. intros inv' Hb'. run. by split.
  - intros s' [[W1 Ha] [W2 Hb]]. split; [done|]. split; [done|].
    split; (etransitivity; [|symmetry; by apply mmul_add]); intros r c Hr Hc; [rewrite Ha by done|rewrite Hb by done];
      repeat case_bool_decide; destruct_and?; try done; try lia; cbn; by rewrite ?xorb_false_r.
Qed.

(** ** Gauss-Jordan elimination: the pair is [A] and the identity, multiplied by
    the same invertible matrix. *)
Definition reduced (A : bmat) (s : DenseMtx * DenseMtx) : Prop :=
  wf s.1 n n /\ wf s.2 n n /\ meq n (bits s.1) (mmul n (bits s.2) A) /\ exists J, meq n (mmul n J (bits s.2)) id_mat.

Lemma reduced_step A s s' E :
  reduced A s -> involution E -> wf s'.1 n n -> wf s'.2 n n ->
  meq n (bits s'.1) (mmul n E (bits s.1)) -> meq n (bits s'.2) (mmul n E (bits s.2)) -> reduced A s'.
Proof.
  intros (W1 & W2 & HA & J & HJ) HE W1' W2' H1 H2. unfold involution in HE. split; [done|]. split; [done|]. split.
  - rewrite H1, HA, H2. symmetry. apply mmul_assoc.
  - exists (mmul n J E). rewrite H2, mmul_assoc, <- (mmul_assoc n E E), HE, mmul_id_l. done.
Qed.

(** The columns before [i] are those of the identity. *)
Definition unit_cols (i : nat) (M : bmat) : Prop := forall r c, (r < n)%nat -> (c < i)%nat -> M r c = bool_decide (r = c).

Lemma clear_column_ok A i s :
  reduced A s -> (i < n)%nat -> unit_cols i (bits s.1) -> bits s.1 i i = true ->
  wp (clear_column n i s) (fun s' => reduced A s' /\ unit_cols (S i) (bits s'.1)).
Proof.
  intros Hr Hi Hu Hp. unfold clear_column.
  apply (wp_for _ _ (fun j s' => reduced A s' /\ unit_cols i (bits s'.1) /\ bits s'.1 i i = true /\
    forall r, (r < j)%nat -> (r < n)%nat -> r <> i -> bits s'.1 r i = false)).
  - split; [done|]. split; [done|]. split; [done|]. intros; lia.
  - intros j s1 Hj (Hr1 & Hu1 & Hp1 & Hz). case_bool_decide as Hji.
    { subst j. run. split; [done|]. split; [done|]. split; [done|]. intros r Hrj Hrn Hri. apply Hz; lia. }
    pose proof Hr1 as (W1 & W2 & _). rewrite (get_ok n n) by done. run. destruct (bits s1.1 j i) eqn:Eb.
    + eapply wp_mono; [by apply add_row_ok|]. intros s2 (W1' & W2' & H1 & H2).
      assert (forall r c, (r < n)%nat -> (c < n)%nat -> bits s2.1 r c = xorb (bits s1.1 r c) (bool_decide (r = j) && bits s1.1 i c)) as HM.
      { intros r c Hrn Hcn. rewrite (H1 r c Hrn Hcn). rewrite mmul_add by done. by rewrite andb_true_r. }
      split; [|split; [|split]].
      * by apply (reduced_step A s1 s2 (add_mat i j true)); [|apply add_involution|..].
      * intros r c Hrn Hci. rewrite HM, !Hu1 by lia. rewrite (bool_decide_false (i = c)) by lia. by rewrite andb_false_r, xorb_false_r.
      * rewrite HM, Hp1 by done. by rewrite bool_decide_false by lia.
      * intros r Hrj Hrn Hri. rewrite HM, Hp1 by done. destruct (decide (r = j)) as [->|].
        -- by rewrite Eb, bool_decide_true.
        -- rewrite bool_decide_false by done. rewrite Hz by lia. done.
    + run. split; [done|]. split; [done|]. split; [done|]. intros r Hrj Hrn Hri.
      destruct (decide (r = j)) as [->|]; [done|]. apply Hz; lia.
  - intros s' (Hr' & Hu' & Hp' & Hz). split; [done|]. intros r c Hrn Hc. destruct (decide (c = i)) as [->|]; [|apply Hu'; lia].
    case_bool_decide; [by subst|]. by apply Hz.
Qed.

Lemma find_pivot_ok m i : wf m n n -> (i < n)%nat -> forall fuel j, (j + fuel = n)%nat ->
  wp (find_pivot fuel j i m) (fun o => match o with
    | Some p => (j <= p < n)%nat /\ bits m p i = true
    | None => forall r, (j <= r < n)%nat -> bits m r i = false
    end).
Proof.
  intros Hwf Hi fuel. induction fuel as [|fuel IH]; intros j Hj; cbn [find_pivot].
  - run. intros; lia.
  - rewrite (get_ok n n) by (done || lia). run. destruct (bits m j i) eqn:E; [run; split; [lia|done]|].
    eapply wp_mono; [apply (IH (S j)); lia|]. intros [p|]; [intros [? ?]; split; [lia|done]|]. intros H r Hr.
    destruct (decide (r = j)) as [->|]; [done|]. apply H. lia.
Qed.

Definition step_post (A : bmat) (i : nat) (r : DenseMtx * option DenseMtx) : Prop :=
  match r.2 with
  | Some inv => reduced A (r.1, inv) /\ unit_cols (S i) (bits r.1)
  | None => exists inv, reduced A (r.1, inv) /\ unit_cols i (bits r.1) /\ forall k, (i <= k < n)%nat -> bits r.1 k i = false
  end.

Lemma invert_step_ok A i s :
  reduced A s -> (i < n)%nat -> unit_cols i (bits s.1) -> wp (invert_step n i s) (step_post A i).
Proof.
  destruct s as [mtx inv]. intros Hr Hi Hu. pose proof Hr as (W1 & W2 & _). cbn [fst snd] in *. unfold invert_step.
  rewrite (get_ok n n) by done. run.
  assert (forall s', reduced A s' -> unit_cols i (bits s'.1) -> bits s'.1 i i = true ->
    wp ('(mtx, inv) ← clear_column n i s'; Ok (mtx, Some inv)) (step_post A i)) as Hclear.
  { intros s' Hr' Hu' Hp'. apply wp_bind. eapply wp_mono; [by apply (clear_column_ok A)|]. intros [m2 i2] H. exact H. }
  destruct (bits mtx i i) eqn:Ep; run; [exact (Hclear (mtx, inv) Hr Hu Ep)|].
  pose proof (find_pivot_ok mtx i W1 Hi (n - S i) (S i) ltac:(lia)) as Hf.
  destruct (find_pivot (n - S i) (S i) i mtx) as [[p|]| |]; cbn [wp] in Hf; try done; run.
  - destruct Hf as [Hpi Hpb]. pose proof (row_swap_ok mtx i p W1 Hi ltac:(lia)) as S1. pose proof (row_swap_ok inv i p W2 Hi ltac:(lia)) as S2.
    destruct (row_swap mtx i p) as [mtx'| |]; cbn [wp] in S1; try done. destruct S1 as [W1' M1].
    destruct (row_swap inv i p) as [inv'| |]; cbn [wp] in S2; try done. destruct S2 as [W2' M2]. run.
    rewrite (get_ok n n) by done. run.
    assert (forall r c, (r < n)%nat -> (c < n)%nat -> bits mtx' r c = bits mtx (swap_idx i p r) c) as HM.
    { intros r c Hrn Hcn. rewrite (M1 r c Hrn Hcn). rewrite mmul_swap by (done || lia). done. }
    assert (bits mtx' i i = true) as Hii by (rewrite HM by done; unfold swap_idx; by rewrite bool_decide_true).
    rewrite Hii. apply (Hclear (mtx', inv')); [|cbn [fst]|done].
    + apply (reduced_step A (mtx, inv) (mtx', inv') (swap_mat i p)); try done. apply swap_involution; [done|lia].
    + intros r c Hrn Hci. rewrite HM by lia. rewrite Hu by (try apply swap_idx_lt; lia). unfold swap_idx.
      repeat case_bool_decide; try done; lia.
  - rewrite (get_ok n n) by done. run. rewrite Ep. run. exists inv. split; [done|]. split; [done|]. intros k Hk.
    destruct (decide (k = i)) as [->|]; [done|]. apply Hf. lia.
Qed.

Lemma Identity_ok : (0 < n)%nat -> wp (Identity n) (fun m => wf m n n /\ meq n (bits m) id_mat).
Proof.
  intros Hn. unfold Identity. destruct (resize_new n n Hn) as [Hwf Hz].
  apply (wp_for _ _ (fun k m => wf m n n /\ forall r c, (r < n)%nat -> (c < n)%nat ->
    bits m r c = bool_decide (r = c) && bool_decide (r < k)%nat)).
  - split; [done|]. intros r c Hr Hc. rewrite Hz by done. rewrite (bool_decide_false (r < 0)%nat) by lia. by rewrite andb_false_r.
  - intros k m Hk [Hw H]. eapply wp_mono; [by apply (put_ok n n)|]. intros m' [Hw' H']. split; [done|]. intros r c Hr Hc.
    rewrite H', H by done. repeat case_bool_decide; destruct_and?; try done; lia.
  - intros m [Hw H]. split; [done|]. intros r c Hr Hc. rewrite H by done. rewrite (bool_decide_true (r < n)%nat) by done. apply andb_true_r.
Qed.

(** A square matrix is singular when it kills a non-zero vector. *)
Definition singular (A : bmat) : Prop :=
  exists v, (exists k, (k < n)%nat /\ v k = true) /\ forall r, (r < n)%nat -> bsum n (fun k => A r k && v k) = false.

Lemma singular_mul A B : singular B -> singular (mmul n A B).
Proof.
  intros (v & Hv & Hk). exists v. split; [done|]. intros r Hr. unfold mmul.
  transitivity (bsum n (fun k => bsum n (fun j => A r j && (B j k && v k)))).
  - apply bsum_ext. intros k Hkn. rewrite <- bsum_and_r. apply bsum_ext. intros. by rewrite andb_assoc.
  - rewrite bsum_swap. apply bsum_zero. intros j Hj. rewrite bsum_and_l, Hk by done. apply andb_false_r.
Qed.
Lemma singular_ext A B : meq n A B -> singular A -> singular B.
Proof.
  intros H (v & Hv & Hk). exists v. split; [done|]. intros r Hr. rewrite <- (Hk r Hr). apply bsum_ext. intros k Hkn. by rewrite H.
Qed.

Lemma bsum_tail i d f : (forall k, (i <= k < i + d)%nat -> f k = false) -> bsum (i + d) f = bsum i f.
Proof.
  intros H. induction d as [|d IH]; [by rewrite Nat.add_0_r|].
  rewrite Nat.add_succ_r, bsum_S, IH, H by (try (intros; apply H); lia). apply xorb_false_r.
Qed.

(** With no pivot left, column [i] is a combination of the columns before it. *)
Lemma no_pivot_singular i M :
  (i < n)%nat -> unit_cols i M -> (forall k, (i <= k < n)%nat -> M k i = false) -> singular M.
Proof.
  intros Hi Hu Hz. exists (fun k => if bool_decide (k = i) then true else bool_decide (k < i)%nat && M k i). split.
  { exists i. split; [done|]. by rewrite bool_decide_true. }
  intros r Hr. replace n with (S i + (n - S i))%nat by lia. rewrite bsum_tail.
  2:{ intros k Hk. rewrite !bool_decide_false by lia. apply andb_false_r. }
  rewrite bsum_S. rewrite bool_decide_true, andb_true_r by done.
  rewrite (bsum_ext i _ (fun k => bool_decide (k = r) && M k i)).
  2:{ intros k Hk. rewrite Hu by lia. rewrite (bool_decide_false (k = i)), (bool_decide_true (k < i)%nat) by lia.
      f_equal. apply bool_decide_ext. by split. }
  destruct (decide (r < i)%nat).
  - rewrite (bsum_delta i r (fun k => M k i)) by done. apply xorb_nilpotent.
  - rewrite bsum_zero; [apply Hz; lia|]. intros k Hk. by rewrite bool_decide_false by lia.
Qed.

Lemma reduced_recover A s : reduced A s -> exists J, meq n (mmul n J (bits s.1)) A /\ meq n (mmul n J (bits s.2)) id_mat.
Proof.
  intros (_ & _ & HA & J & HJ). exists J. split; [|done]. rewrite HA, <- mmul_assoc, HJ. apply mmul_id_l.
Qed.

Lemma reduced_singular A s : reduced A s -> singular (bits s.1) -> singular A.
Proof. intros (J & HA & _)%reduced_recover Hs. eapply singular_ext; [exact HA|]. by apply singular_mul. Qed.

(** When all columns are those of the identity the second matrix is the inverse,
    on both sides. *)
Lemma reduced_inverse A s :
  reduced A s -> unit_cols n (bits s.1) ->
  meq n (mmul n (bits s.2) A) id_mat /\ meq n (mmul n A (bits s.2)) id_mat /\ meq n (bits s.1) id_mat.
Proof.
  intros Hr Hu. assert (meq n (bits s.1) id_mat) as Hid by (intros r c H1 H2; by apply Hu).
  pose proof (reduced_recover A s Hr) as (J & HA & HJ). destruct Hr as (_ & _ & HM & _). split; [by rewrite <- HM|]. split; [|done].
  rewrite <- HA, Hid, mmul_id_r. exact HJ.
Qed.

(** What the loop of [Invert] keeps: not singular so far, or found singular. *)
Definition invert_inv (A : bmat) (i : nat) (s : DenseMtx * option DenseMtx) : Prop :=
  match s.2 with
  | Some inv => reduced A (s.1, inv) /\ unit_cols i (bits s.1)
  | None => singular A
  end.

Lemma invert_loop_ok m inv0 :
  wf m n n -> wf inv0 n n -> meq n (bits inv0) id_mat ->
  wp (for_ n (fun i s => match s with (mtx, Some inv) => invert_step n i (mtx, inv) | (mtx, None) => Ok (mtx, None) end) (m, Some inv0))
    (invert_inv (bits m) n).
Proof.
  intros W1 W2 Hid. apply (wp_for _ _ (invert_inv (bits m))); [| |done].
  - split; [|intros r c Hr Hc; lia]. split; [done|]. split; [done|]. cbn [fst snd]. rewrite Hid. split; [by rewrite mmul_id_l|].
    exists id_mat. by rewrite Hid, mmul_id_l.
  - intros i [mtx [inv|]] Hi Hs; cbn [invert_inv fst snd] in Hs; [|exact Hs]. destruct Hs as [Hr Hu].
    eapply wp_mono; [by apply (invert_step_ok (bits m) i (mtx, inv))|]. intros [mtx' [inv'|]]; [done|].
    intros (inv' & Hr' & Hu' & Hz). cbn [invert_inv snd]. apply (reduced_singular _ _ Hr'). by apply (no_pivot_singular i).
Qed.

Lemma Invert_spec m :
  wf m n n ->
  wp (Invert m) (fun '(self, inv) =>
    (rows inv = n /\ wf inv n n /\ meq n (mmul n (bits m) (bits inv)) id_mat /\ meq n (mmul n (bits inv) (bits m)) id_mat /\
       meq n (bits self) id_mat) \/
    (inv = DenseMtx_new /\ singular (bits m))).
Proof.
  intros Hwf. pose proof Hwf as (Hn & _). destruct (wf_cols n n m Hwf) as (E1 & E2 & _). unfold Invert. rewrite E1, E2.
  rewrite bool_decide_true by done. run. apply wp_bind. eapply wp_mono; [by apply Identity_ok|]. intros inv0 [W2 Hid].
  apply wp_bind. eapply wp_mono; [by apply invert_loop_ok|]. intros [self [inv|]] H; cbn [invert_inv fst snd] in H; run; [left|by right].
  change (default DenseMtx_new (Some inv)) with inv. destruct H as [Hr Hu]. pose proof Hr as (_ & Wi & _). cbn [snd] in Wi.
  rewrite (proj1 (wf_cols n n inv Wi)).
  destruct (reduced_inverse (bits m) (self, inv) Hr Hu) as (H1 & H2 & H3). done.
Qed.

(** A singular matrix has no inverse. *)
Lemma singular_no_inverse A B : meq n (mmul n B A) id_mat -> ~ singular A.
Proof.
  intros HB Hs. apply (singular_mul B) in Hs. apply (singular_ext _ _ HB) in Hs as (v & (k & Hk & Hv) & Hz).
  specialize (Hz k Hk). unfold id_mat in Hz. rewrite (bsum_ext n _ (fun i => bool_decide (i = k) && v i)) in Hz.
  - rewrite bsum_delta in Hz by done. congruence.
  - intros i Hi. f_equal. apply bool_decide_ext. by split.
Qed.
End row_ops.

(** C27.  [Invert] decides invertibility over GF(2): on a square matrix it
    returns, and either the result is a matrix of the same size that is its
    inverse on both sides, or the result is empty and the matrix kills a
    non-zero vector.  In the first case the words of the matrix itself, shared
    with the working copy, end as the identity. *)
Theorem Invert_correct n m :
  wf m n n ->
  wp (Invert m) (fun '(self, inv) =>
    (rows inv = n /\ (forall r c, (r < n)%nat -> (c < n)%nat ->
       bsum n (fun k => bits m r k && bits inv k c) = bool_decide (r = c) /\
       bsum n (fun k => bits inv r k && bits m k c) = bool_decide (r = c) /\
       bits self r c = bool_decide (r = c))) \/
    (rows inv = 0%nat /\ exists v, (exists k, (k < n)%nat /\ v k = true) /\
       forall r, (r < n)%nat -> bsum n (fun k => bits m r k && v k) = false)).
Proof.
  intros Hwf. eapply wp_mono; [by apply Invert_spec|]. intros [self inv] [(Hr & _ & H1 & H2 & H3)|[-> Hs]]; [left|right; by split].
  split; [done|]. intros r c Hrn Hcn. split; [by apply H1|]. split; [by apply H2|]. by apply H3.
Qed.

Definition sample_mtx : DenseMtx := mkDenseMtx [6; 11; 5; 8] 4 1 4.
Lemma Invert_correct_witness :
  wf sample_mtx 4 4 /\ is_ok (Invert sample_mtx) = true /\
  wp (Invert sample_mtx) (fun '(self, inv) =>
    (rows inv = 4%nat /\ (forall r c, (r < 4)%nat -> (c < 4)%nat ->
       bsum 4 (fun k => bits sample_mtx r k && bits inv k c) = bool_decide (r = c) /\
       bsum 4 (fun k => bits inv r k && bits sample_mtx k c) = bool_decide (r = c) /\
       bits self r c = bool_decide (r = c))) \/
    (rows inv = 0%nat /\ exists v, (exists k, (k < 4)%nat /\ v k = true) /\
       forall r, (r < 4)%nat -> bsum 4 (fun k => bits sample_mtx r k && v k) = false)).
Proof.
  assert (wf sample_mtx 4 4) as Hw by (split; [lia|done]).
  split; [exact Hw|]. split; [vm_compute; reflexivity|]. exact (Invert_correct 4 sample_mtx Hw).
Defined.
