(* ===== verification/Combination.v ===== *)
(** * Enumerating the choices of gap columns (psi/algorithm/rr22/okvs/paxos.cc)

    [GetGapCols] tries the sets of [k] out of [n] dense columns one after the
    other: [Choose] counts them and [ithCombination] computes the [index]-th.
    The file shows, for as long as the products fit in 64 bits, that the
    enumeration is the combinatorial number system, so that every set of
    columns is tried exactly once. *)
From S2P Require Import Prelude.

(** [Choose], a recursion on [k]; each product wraps at 64 bits. *)
Fixpoint Choose (k : nat) (n : Z) : res Z :=
  match k with
  | O => Ok 1
  | S k' => c ← Choose k' (u64 (n - 1)); Ok (u64 (n * c) / Z.of_nat k)
  end.

(** The first loop of [ithCombination], [for (; nMinusI != n - k; ...)]. *)
Definition initial_nCk (n : Z) (k : nat) : Z :=
  loop k (fun i nCk => u64 (nCk * u64 (n - Z.of_nat i)) / (Z.of_nat i + 1)) 1.

(** [while (cur_index - nCk > index)]: the largest element moves down. *)
Fixpoint lower_n (fuel : nat) (kk : nat) (index n nCk cur_index : Z) : res (Z * Z * Z) :=
  match fuel with
  | O => UB
  | S fuel' =>
      if index <? u64 (cur_index - nCk) then
        let cur_index := u64 (cur_index - nCk) in
        let nCk := u64 (nCk * u64 (n - Z.of_nat kk)) in
        let nCk := u64 (nCk - nCk mod Z.of_nat kk) in
        let n := u64 (n - 1) in
        _ ← defined (negb (n =? 0));
        lower_n fuel' kk index n (nCk / n) cur_index
      else Ok (n, nCk, cur_index)
  end.

(** [for (auto kk = k; kk != 0; --kk)], filling [set] from its end. *)
Fixpoint ith_loop (kk : nat) (index n nCk cur_index : Z) (set : list Z) : res (list Z) :=
  match kk with
  | O => Ok set
  | S kk' =>
      let nCk := u64 (nCk * Z.of_nat kk) in
      _ ← defined (negb (n =? 0));
      let nCk := nCk / n in
      '(n, nCk, cur_index) ← lower_n (S (Z.to_nat n)) kk index n nCk cur_index;
      let n := u64 (n - 1) in
      set ← vset set kk' n;
      ith_loop kk' index n nCk cur_index set
  end.

Definition ithCombination (index n : Z) (k : nat) : res (list Z) :=
  let set := replicate k 0 in
  let nCk := initial_nCk n k in
  ith_loop k index n nCk nCk set.

(** ** Binomial coefficients *)
Fixpoint binom (n k : nat) : Z :=
  match n, k with
  | _, O => 1
  | O, S _ => 0
  | S n', S k' => binom n' k' + binom n' k
  end.

Lemma binom_0_r n : binom n 0 = 1.
Proof. by destruct n. Qed.
Lemma binom_nonneg n k : 0 <= binom n k.
Proof. revert k. induction n as [|n IH]; intros [|k]; cbn; try lia. pose proof (IH k). pose proof (IH (S k)). lia. Qed.
Lemma binom_gt n k : (n < k)%nat -> binom n k = 0.
Proof. revert k. induction n as [|n IH]; intros [|k] H; cbn; try lia. rewrite !IH by lia. done. Qed.
Lemma binom_pos n k : (k <= n)%nat -> 0 < binom n k.
Proof.
  revert k. induction n as [|n IH]; intros [|k] H; cbn; try lia. pose proof (IH k ltac:(lia)). pose proof (binom_nonneg n (S k)). lia.
Qed.
Lemma binom_diag n : binom n n = 1.
Proof. induction n as [|n IH]; [done|]. cbn. rewrite IH, binom_gt by lia. done. Qed.

(** Neighbours in a row of Pascal's triangle, and in a diagonal. *)
Lemma binom_next n k : Z.of_nat (S k) * binom n (S k) = (Z.of_nat n - Z.of_nat k) * binom n k.
Proof.
  revert k. induction n as [|n IH]; intros k.
  - destruct k; cbn [binom]; lia.
  - destruct k as [|k]; [cbn [binom]; pose proof (IH 0%nat) as H; rewrite binom_0_r in *; lia|].
    cbn [binom]. pose proof (IH k) as H1. pose proof (IH (S k)) as H2. nia.
Qed.
Lemma binom_absorb n k : Z.of_nat (S k) * binom (S n) (S k) = Z.of_nat (S n) * binom n k.
Proof. cbn [binom]. pose proof (binom_next n k). nia. Qed.

(** Coefficients grow along a diagonal and with [n]. *)
Lemma binom_mono_n n k : binom n k <= binom (S n) k.
Proof. destruct k; [by rewrite !binom_0_r|]. cbn [binom]. pose proof (binom_nonneg n k). lia. Qed.
Lemma binom_le_diag n k : binom n k <= binom (S n) (S k).
Proof. cbn [binom]. pose proof (binom_nonneg n (S k)). lia. Qed.

Lemma binom_down m j : Z.of_nat (S m) * binom m j = (Z.of_nat (S m) - Z.of_nat j) * binom (S m) j.
Proof.
  destruct j as [|j]; [rewrite !binom_0_r; lia|]. pose proof (binom_absorb m j). pose proof (binom_next (S m) j) as H1.
  pose proof (binom_next m j). cbn [binom] in *. nia.
Qed.
Lemma binom_mono n m k : (n <= m)%nat -> binom n k <= binom m k.
Proof. induction 1 as [|m _ IH]; [lia|]. pose proof (binom_mono_n m k). lia. Qed.

(** [C(n, j)] and the products on the way to it fit in a word, for [j <= k]. *)
Definition fits (n k : nat) : Prop := (forall j, (j <= k)%nat -> Z.of_nat j * binom n j < 2 ^ 64) /\ Z.of_nat n < 2 ^ 64.

Lemma fits_S n k : fits (S n) (S k) -> fits n k.
Proof.
  unfold fits. intros [H1 H2]. split; [|lia]. intros j Hj. specialize (H1 (S j) ltac:(lia)).
  pose proof (binom_le_diag n j). pose proof (binom_nonneg n j). nia.
Qed.
Lemma fits_le n m k j : (n <= m)%nat -> (j <= k)%nat -> fits m k -> fits n j.
Proof.
  intros Hn Hj [H1 H2]. split; [|lia]. intros i Hi. specialize (H1 i ltac:(lia)). pose proof (binom_mono n m i Hn).
  pose proof (binom_nonneg n i). nia.
Qed.

(** ** [Choose] and the initial count *)
Lemma Choose_binom n k : (k <= n)%nat -> fits n k -> Choose k (Z.of_nat n) = Ok (binom n k).
Proof.
  revert n. induction k as [|k IH]; intros n Hk Hf; [by rewrite binom_0_r|]. destruct n as [|n]; [lia|].
  pose proof Hf as [H1 H2]. cbn [Choose]. rewrite u64_small by lia. replace (Z.of_nat (S n) - 1) with (Z.of_nat n) by lia.
  rewrite IH by (lia || by apply fits_S). run. rewrite <- binom_absorb. pose proof (binom_nonneg (S n) (S k)).
  specialize (H1 (S k) ltac:(lia)). rewrite u64_small by lia. rewrite Z.mul_comm, Z.div_mul by lia. done.
Qed.

Lemma initial_nCk_binom n k : (k <= n)%nat -> fits n k -> initial_nCk (Z.of_nat n) k = binom n k.
Proof.
  intros Hk [H1 H2]. unfold initial_nCk.
  apply (loop_inv k _ (fun i c => (i <= k)%nat -> c = binom n i)); [intros _; by rewrite binom_0_r| |lia].
  intros i c Hi Hc Hik. rewrite (Hc ltac:(lia)). rewrite (u64_small (Z.of_nat n - Z.of_nat i)) by lia.
  specialize (H1 (S i) ltac:(lia)). pose proof (binom_next n i) as E. pose proof (binom_nonneg n (S i)).
  replace (binom n i * (Z.of_nat n - Z.of_nat i)) with (Z.of_nat (S i) * binom n (S i)) by lia.
  rewrite u64_small by lia. replace (Z.of_nat i + 1) with (Z.of_nat (S i)) by lia.
  rewrite Z.mul_comm, Z.div_mul by lia. done.
Qed.

(** ** Ranks: a set in descending order, below a bound *)
Fixpoint desc (bound : nat) (d : list nat) : Prop :=
  match d with [] => True | x :: d' => (x < bound)%nat /\ desc x d' end.
Fixpoint rank (d : list nat) : Z :=
  match d with [] => 0 | x :: d' => binom x (S (length d')) + rank d' end.

Lemma desc_length n d : desc n d -> (length d <= n)%nat.
Proof. revert n. induction d as [|x d IH]; intros n H; cbn in *; [lia|]. destruct H as [? H]. apply IH in H. lia. Qed.

Lemma rank_bounds n d : desc n d -> 0 <= rank d < binom n (length d).
Proof.
  revert n. induction d as [|x d IH]; intros n H; [cbn; rewrite binom_0_r; lia|]. destruct H as [Hx H].
  specialize (IH x H). cbn [rank length]. pose proof (binom_nonneg x (S (length d))).
  pose proof (binom_mono (S x) n (S (length d)) ltac:(lia)) as Hm. cbn [binom] in Hm. lia.
Qed.

(** Every number below [C(n, k)] is the rank of a set. *)
Lemma unrank n k i : 0 <= i < binom n k -> exists d, desc n d /\ length d = k /\ rank d = i.
Proof.
  revert k i. induction n as [|n IH]; intros [|k] i Hi.
  - exists []. cbn in *. split; [done|]. split; [done|lia].
  - cbn in Hi. lia.
  - exists []. rewrite binom_0_r in Hi. split; [done|]. split; [done|cbn; lia].
  - cbn [binom] in Hi. destruct (decide (i < binom n (S k))) as [Hlt|Hge].
    + destruct (IH (S k) i ltac:(lia)) as (d & Hd & Hl & Hr). exists d. split; [|done].
      destruct d as [|x d]; [done|]. cbn in *. destruct Hd. split; [lia|done].
    + destruct (IH k (i - binom n (S k)) ltac:(lia)) as (d & Hd & Hl & Hr). exists (n :: d). split; [cbn; split; [lia|done]|].
      split; [cbn; by rewrite Hl|]. cbn [rank]. rewrite Hl. lia.
Qed.

(** ** The loops of [ithCombination] *)

(** One turn of the inner loop moves [C(n, kk)] to [C(n - 1, kk)]. *)
Lemma lower_turn n kk cur b fuel index :
  (kk <= n)%nat -> fits (S n) (S kk) -> 0 <= b -> b + binom (S (S n)) (S kk) < 2 ^ 64 -> Z.of_nat (S (S n)) < 2 ^ 64 ->
  0 <= index < b + binom (S n) (S kk) -> cur = b + binom (S (S n)) (S kk) ->
  lower_n (S fuel) (S kk) index (Z.of_nat (S (S n))) (binom (S n) kk) cur =
  lower_n fuel (S kk) index (Z.of_nat (S n)) (binom n kk) (b + binom (S n) (S kk)).
Proof.
  intros Hk Hf Hb Hbw Hnw Hi ->. cbn [lower_n]. pose proof (binom_nonneg (S n) kk). pose proof (binom_nonneg (S n) (S kk)).
  assert (binom (S (S n)) (S kk) = binom (S n) kk + binom (S n) (S kk)) as E by done.
  rewrite (u64_small (b + binom (S (S n)) (S kk) - binom (S n) kk)) by lia.
  rewrite (proj2 (Z.ltb_lt _ _)) by lia. rewrite (u64_small (Z.of_nat (S (S n)) - Z.of_nat (S kk))) by lia.
  pose proof (binom_next (S n) kk) as En. pose proof (binom_down n kk) as Ed.
  assert (binom (S n) kk * (Z.of_nat (S (S n)) - Z.of_nat (S kk)) = Z.of_nat (S kk) * binom (S n) (S kk)) as Ep by lia.
  destruct Hf as [Hf _]. specialize (Hf (S kk) ltac:(lia)).
  rewrite Ep, (u64_small (Z.of_nat (S kk) * _)) by lia. rewrite (Z.mul_comm (Z.of_nat (S kk))), Z.mod_mul by lia. rewrite Z.sub_0_r.
  rewrite (u64_small (binom (S n) (S kk) * _)) by lia. rewrite (u64_small (Z.of_nat (S (S n)) - 1)) by lia.
  rewrite (proj2 (Z.eqb_neq _ 0)) by lia. run.
  assert (binom (S n) (S kk) * Z.of_nat (S kk) / (Z.of_nat (S (S n)) - 1) = binom n kk) as ->.
  { replace (Z.of_nat (S (S n)) - 1) with (Z.of_nat (S n)) by lia.
    replace (binom (S n) (S kk) * Z.of_nat (S kk)) with (binom n kk * Z.of_nat (S n)) by lia. apply Z.div_mul. lia. }
  f_equal; lia.
Qed.

Lemma lower_n_spec kk index b x : forall fuel n,
  (kk <= x)%nat -> (x <= n)%nat -> (n - x < fuel)%nat -> fits (S n) (S kk) -> 0 <= b ->
  b + binom (S n) (S kk) < 2 ^ 64 -> Z.of_nat (S n) < 2 ^ 64 ->
  b + binom x (S kk) <= index < b + binom (S x) (S kk) ->
  lower_n fuel (S kk) index (Z.of_nat (S n)) (binom n kk) (b + binom (S n) (S kk)) =
  Ok (Z.of_nat (S x), binom x kk, b + binom (S x) (S kk)).
Proof.
  intros fuel. induction fuel as [|fuel IH]; intros n Hk Hx Hfu Hf Hb Hbw Hnw Hi; [lia|].
  pose proof (binom_nonneg x (S kk)). pose proof (binom_nonneg x kk). destruct (decide (x = n)) as [<-|Hne].
  - cbn [lower_n]. assert (binom (S x) (S kk) = binom x kk + binom x (S kk)) as E by done.
    rewrite (u64_small (b + binom (S x) (S kk) - binom x kk)) by lia. rewrite (proj2 (Z.ltb_ge _ _)) by lia. done.
  - destruct n as [|n]; [lia|]. pose proof (binom_mono (S x) (S n) (S kk) ltac:(lia)).
    assert (fits (S n) (S kk)) as Hf' by (apply (fits_le _ (S (S n)) (S kk)); [lia|lia|done]).
    pose proof (binom_mono_n (S n) (S kk)). pose proof (binom_nonneg (S x) (S kk)).
    rewrite (lower_turn n kk _ b fuel index) by (done || lia). apply IH; done || lia.
Qed.

Lemma ith_loop_spec d : forall n b set,
  desc n d -> fits n (length d) -> 0 <= b -> b + binom n (length d) < 2 ^ 64 -> (length d <= length set)%nat ->
  ith_loop (length d) (b + rank d) (Z.of_nat n) (binom n (length d)) (b + binom n (length d)) set =
  Ok (map Z.of_nat (reverse d) ++ drop (length d) set).
Proof.
  induction d as [|x d IH]; intros n b set Hd Hf Hb Hw Hl; [done|]. destruct Hd as [Hx Hd]. cbn [length ith_loop].
  destruct n as [|n]; [lia|]. set (kk := length d) in *. pose proof Hf as [Hf1 Hf2]. specialize (Hf1 (S kk) ltac:(cbn; lia)).
  pose proof (binom_nonneg (S n) (S kk)). pose proof (rank_bounds x d Hd) as Hr. fold kk in Hr.
  pose proof (desc_length x d Hd) as Hxl. fold kk in Hxl.
  rewrite (u64_small (binom (S n) (S kk) * _)) by lia. rewrite (proj2 (Z.eqb_neq _ 0)) by lia. run.
  assert (binom (S n) (S kk) * Z.of_nat (S kk) / Z.of_nat (S n) = binom n kk) as ->.
  { rewrite (Z.mul_comm (binom _ _)), binom_absorb, Z.mul_comm, Z.div_mul by lia. done. }
  cbn [length] in Hf, Hw. fold kk in Hf, Hw. cbn [rank]. fold kk. assert (binom (S x) (S kk) = binom x kk + binom x (S kk)) as E by done.
  rewrite (lower_n_spec kk _ b x) by (lia || done). run.
  rewrite (u64_small (Z.of_nat (S x) - 1)) by lia. replace (Z.of_nat (S x) - 1) with (Z.of_nat x) by lia.
  rewrite vset_total by (cbn [length] in Hl; lia). run. pose proof (binom_nonneg x (S kk)).
  pose proof (binom_mono (S x) (S n) (S kk) ltac:(lia)).
  replace (b + (binom x (S kk) + rank d)) with ((b + binom x (S kk)) + rank d) by lia.
  replace (b + binom (S x) (S kk)) with ((b + binom x (S kk)) + binom x kk) by lia.
  unfold kk at 2 3. rewrite IH; [|done| |lia|fold kk; lia|rewrite length_insert; cbn [length] in Hl; lia].
  2:{ eapply (fits_le x (S n) (S kk)); [lia|lia|done]. }
  fold kk. f_equal. rewrite reverse_cons, map_app, <- app_assoc. f_equal. cbn [map app].
  cbn [length] in Hl. fold kk in Hl. rewrite (drop_S _ (Z.of_nat x) kk) by (apply list_lookup_insert_eq; lia).
  by rewrite drop_insert_lt by lia.
Qed.

Lemma fits_binom n k : (k <= n)%nat -> fits n k -> binom n k < 2 ^ 64.
Proof.
  intros Hk [H1 _]. specialize (H1 k ltac:(lia)). destruct k as [|k]; [rewrite binom_0_r; lia|]. pose proof (binom_nonneg n (S k)). nia.
Qed.

Lemma ithCombination_rank n d :
  desc n d -> fits n (length d) -> ithCombination (rank d) (Z.of_nat n) (length d) = Ok (map Z.of_nat (reverse d)).
Proof.
  intros Hd Hf. pose proof (desc_length n d Hd) as Hl. unfold ithCombination. rewrite initial_nCk_binom by done.
  pose proof (fits_binom n _ Hl Hf). pose proof (ith_loop_spec d n 0 (replicate (length d) 0) Hd Hf) as HL.
  rewrite !Z.add_0_l in HL. rewrite HL by (rewrite ?length_replicate; lia).
  rewrite drop_ge by (rewrite length_replicate; lia). by rewrite app_nil_r.
Qed.

(** Past the last set the loops still return: the largest elements. *)
Lemma lower_n_past kk index n nCk cur : 0 <= nCk <= cur -> cur < 2 ^ 64 -> cur <= index ->
  lower_n (S (Z.to_nat n)) kk index n nCk cur = Ok (n, nCk, cur).
Proof. intros H1 H2 H3. cbn [lower_n]. rewrite u64_small by lia. by rewrite (proj2 (Z.ltb_ge _ _)) by lia. Qed.

Lemma ith_loop_past k : forall n index set b,
  (k <= n)%nat -> fits n k -> 0 <= b -> b + binom n k <= index -> b + binom n k < 2 ^ 64 -> (k <= length set)%nat ->
  wp (ith_loop k index (Z.of_nat n) (binom n k) (b + binom n k) set) (fun s => length s = length set /\
    drop k s = drop k set /\ forall j x, (j < k)%nat -> s !! j = Some x -> 0 <= x < Z.of_nat n).
Proof.
  induction k as [|k IH]; intros n index set b Hk Hf Hb Hi Hw Hl; cbn [ith_loop].
  { run. split; [done|]. split; [done|]. intros; lia. }
  destruct n as [|n]; [lia|]. pose proof Hf as [Hf1 Hf2]. specialize (Hf1 (S k) ltac:(lia)). pose proof (binom_nonneg (S n) (S k)).
  rewrite (u64_small (binom (S n) (S k) * _)) by lia. rewrite (proj2 (Z.eqb_neq _ 0)) by lia. run.
  assert (binom (S n) (S k) * Z.of_nat (S k) / Z.of_nat (S n) = binom n k) as ->.
  { rewrite (Z.mul_comm (binom _ _)), binom_absorb, Z.mul_comm, Z.div_mul by lia. done. }
  assert (binom (S n) (S k) = binom n k + binom n (S k)) as E by done. pose proof (binom_nonneg n k). pose proof (binom_nonneg n (S k)).
  rewrite lower_n_past by lia. run. rewrite (u64_small (Z.of_nat (S n) - 1)) by lia.
  replace (Z.of_nat (S n) - 1) with (Z.of_nat n) by lia. rewrite vset_total by lia. run.
  replace (b + binom (S n) (S k)) with ((b + binom n (S k)) + binom n k) by lia.
  eapply wp_mono; [apply (IH n index _ (b + binom n (S k))); [lia|by apply fits_S|lia|lia|lia|rewrite length_insert; lia]|].
  intros s (Hls & Hd & Hr). rewrite length_insert in Hls. split; [done|]. split.
  - replace (S k) with (k + 1)%nat by lia. rewrite <- !drop_drop, Hd, !drop_drop. apply drop_insert_lt. lia.
  - intros j x Hj Hx. destruct (decide (j < k)%nat) as [Hjk|]; [specialize (Hr j x Hjk Hx); lia|].
    assert (j = k) as -> by lia. assert (drop k s !! 0%nat = Some x) as HX by by rewrite lookup_drop, Nat.add_0_r.
    rewrite Hd, lookup_drop, Nat.add_0_r, list_lookup_insert_eq in HX by lia. injection HX as <-. lia.
Qed.

Lemma ithCombination_past n k index : (k <= n)%nat -> fits n k -> binom n k <= index ->
  wp (ithCombination index (Z.of_nat n) k) (fun s => length s = k /\ Forall (fun x => 0 <= x < Z.of_nat n) s).
Proof.
  intros Hk Hf Hi. unfold ithCombination. rewrite initial_nCk_binom by done. pose proof (fits_binom n k Hk Hf).
  eapply wp_mono; [exact (ith_loop_past k n index (replicate k 0) 0 Hk Hf ltac:(lia) Hi ltac:(lia) ltac:(by rewrite length_replicate))|].
  intros s (Hl & _ & Hr). rewrite length_replicate in Hl. split; [done|]. apply Forall_lookup_2. intros j x Hx.
  apply (Hr j x); [|done]. apply lookup_lt_Some in Hx. lia.
Qed.

(** Sets as the code lists them: ascending. *)
Definition ascending_set (n : nat) (s : list nat) : Prop := desc n (reverse s).

(** The enumeration of the gap columns is complete and without repetition:
    when the products fit in 64 bits, [Choose] counts the sets of [k] out of [n]
    columns, every index below the count yields an ascending set of [k] columns
    below [n] whose rank in the combinatorial number system is the index, and
    every such set is the one of an index below the count. *)
Theorem ithCombination_enumerates n k :
  (k <= n)%nat -> fits n k ->
  wp (Choose k (Z.of_nat n)) (fun e =>
    (forall index, 0 <= index < e -> wp (ithCombination index (Z.of_nat n) k) (fun s => exists l,
       s = map Z.of_nat l /\ ascending_set n l /\ length l = k /\ rank (reverse l) = index)) /\
    (forall l, ascending_set n l -> length l = k ->
       exists index, 0 <= index < e /\ ithCombination index (Z.of_nat n) k = Ok (map Z.of_nat l))).
Proof.
  intros Hk Hf. rewrite Choose_binom by done. cbn [wp]. split.
  - intros index Hi. destruct (unrank n k index Hi) as (d & Hd & <- & <-). rewrite ithCombination_rank by done. run.
    exists (reverse d). unfold ascending_set. rewrite reverse_involutive, length_reverse. done.
  - intros l Hl <-. exists (rank (reverse l)). pose proof (rank_bounds n (reverse l) Hl) as Hr. rewrite length_reverse in Hr.
    split; [done|]. pose proof (ithCombination_rank n (reverse l) Hl) as H. rewrite length_reverse, reverse_involutive in H. by apply H.
Qed.

Lemma ithCombination_enumerates_witness :
  fits 45 5 /\ ithCombination 1000000 45 5 = Ok [7; 15; 21; 32; 43] /\
  wp (Choose 5 (Z.of_nat 45)) (fun e =>
    (forall index, 0 <= index < e -> wp (ithCombination index (Z.of_nat 45) 5) (fun s => exists l,
       s = map Z.of_nat l /\ ascending_set 45 l /\ length l = 5%nat /\ rank (reverse l) = index)) /\
    (forall l, ascending_set 45 l -> length l = 5%nat ->
       exists index, 0 <= index < e /\ ithCombination index (Z.of_nat 45) 5 = Ok (map Z.of_nat l))).
Proof.
  assert (fits 45 5) as Hf.
  { split; [|lia]. intros j Hj. do 6 (destruct j as [|j]; [vm_compute; reflexivity|]). lia. }
  split; [exact Hf|]. split; [vm_compute; reflexivity|]. exact (ithCombination_enumerates 45 5 ltac:(lia) Hf).
Defined.
