(* ===== verification/Paxos.v ===== *)
(** * PaXoS: the matrix and its triangulation (psi/algorithm/rr22/okvs/paxos)

    A [Paxos] holds the rows of a random sparse matrix, one for each key, with
    its columns as lists of rows.  [SetInput] hashes the keys to rows;
    [Triangulate] repeatedly fixes a column of the least weight and orders rows
    and columns so that the part used for encoding is triangular, up to the gap
    rows.  The file shows that the columns list the rows of the matrix and that
    the triangulation never leaves defined behaviour and orders every row. *)
From S2P Require Import Prelude Galois PaxosHash WeightData.

Inductive DenseType := Binary | GF128.
#[export] Instance DenseType_eq_dec : EqDecision DenseType.
Proof. solve_decision. Defined.

Record PaxosParam := mkParam {
  sparse_size : nat;
  dense_size : nat;
  weight : nat;
  g : nat;
  ssp : nat;
  dt : DenseType
}.
Definition size (p : PaxosParam) : nat := (sparse_size p + dense_size p)%nat.

(** Column and row indices are [IdxType]s; a column is a span of the backing
    store, its offset and length. *)
Record Paxos := mkPaxos {
  param : PaxosParam;
  num_items_ : nat;
  dense_ : list Z;
  rows_ : list nat;
  cols_ : list (nat * nat);
  col_backing_ : list nat;
  weight_sets_ : WeightData;
  add_to_decode_ : bool
}.

Section paxos.
Context `{SymmetricCrypto} `{Libdivide} (hasAVX2 : bool) (idx : Z).

Definition Paxos_default (p : PaxosParam) (n : nat) : Paxos := mkPaxos p n [] [] [] [] empty_weight_data false.

(** [Init]; the row hash of a matrix follows from its parameters. *)
Definition Init (num_items : nat) (p : PaxosParam) (px : Paxos) : res Paxos :=
  _ ← enforce (Z.of_nat (sparse_size p) <? 2 ^ idx - 1);
  _ ← enforce (bool_decide (num_items <= sparse_size p + dense_size p)%nat);
  Ok (mkPaxos p (Z.to_nat (wrap idx (Z.of_nat num_items))) (dense_ px) (rows_ px) (cols_ px) (col_backing_ px)
        (weight_sets_ px) (add_to_decode_ px)).
Definition hasher_ (p : PaxosParam) : PaxosHash := PaxosHash.init (weight p) (Z.of_nat (sparse_size p)).

(** [++col_weights[c]] for each column of some rows. *)
Definition count_cols (cols : list nat) (col_weights : list Z) : res (list Z) :=
  for_each cols (fun c ws => w ← vget ws c; vset ws c (wrap idx (w + 1))) col_weights.

(** [RebuildColumns]: first the spans, empty, at the running sums of the weights. *)
Definition column_spans (sparse_size : nat) (col_weights : list Z) : res (list (nat * nat) * Z) :=
  for_ sparse_size (fun i '(cols, iter) =>
    w ← vget col_weights i; Ok (cols ++ [(Z.to_nat iter, 0%nat)], iter + w)) ([], 0).

(** One more row in the span of column [c]. *)
Definition grow (cols : list (nat * nat)) (c : nat) : res (list (nat * nat) * nat) :=
  '(off, len) ← vget cols c;
  cols ← vset cols c (off, S len);
  Ok (cols, (off + len)%nat).

(** The weight-3 body: the three columns, then the three writes. *)
Definition place3 (rows : list nat) (i : nat) (st : list (nat * nat) * list nat) : res (list (nat * nat) * list nat) :=
  let '(cols, backing) := st in
  c0 ← vget rows (i * 3 + 0); c1 ← vget rows (i * 3 + 1); c2 ← vget rows (i * 3 + 2);
  '(o0, s0) ← vget cols c0; '(o1, s1) ← vget cols c1; '(o2, s2) ← vget cols c2;
  cols ← vset cols c0 (o0, S s0); cols ← vset cols c1 (o1, S s1); cols ← vset cols c2 (o2, S s2);
  backing ← vset backing (o0 + s0) i; backing ← vset backing (o1 + s1) i; backing ← vset backing (o2 + s2) i;
  Ok (cols, backing).

Definition place (weight : nat) (rows : list nat) (i : nat) (st : list (nat * nat) * list nat)
    : res (list (nat * nat) * list nat) :=
  for_ weight (fun j '(cols, backing) =>
    c ← vget rows (i * weight + j);
    '(cols, p) ← grow cols c;
    backing ← vset backing p i;
    Ok (cols, backing)) st.

Definition RebuildColumns (col_weights : list Z) (total_weight : nat) (px : Paxos) : res Paxos :=
  _ ← enforce (bool_decide (length (col_backing_ px) = total_weight));
  '(cols, iter) ← column_spans (sparse_size (param px)) col_weights;
  _ ← enforce (iter =? Z.of_nat (length (col_backing_ px)));
  let w := weight (param px) in
  '(cols, backing) ← for_ (num_items_ px)
    (if bool_decide (w = 3%nat) then place3 (rows_ px) else place w (rows_ px)) (cols, col_backing_ px);
  Ok (mkPaxos (param px) (num_items_ px) (dense_ px) (rows_ px) cols backing (weight_sets_ px) (add_to_decode_ px)).

Definition with_sets (ws : WeightData) (px : Paxos) : Paxos :=
  mkPaxos (param px) (num_items_ px) (dense_ px) (rows_ px) (cols_ px) (col_backing_ px) ws (add_to_decode_ px).

(** The hashing loop of [SetInput]: 32 keys at a time, then one at a time. *)
Definition hash_rows (p : PaxosParam) (num_items : nat) (inputs : list Z) (st : list nat * list Z * list Z)
    : res (list nat * list Z * list Z) :=
  let w := weight p in
  let main := (length inputs / 32)%nat in
  st ← for_ main (fun b '(rows, dense, col_weights) =>
    let i := (b * 32)%nat in
    '(rr, hash) ← HashBuildRow32 hasAVX2 idx (hasher_ p) (take 32 (drop i inputs)) (replicate (32 * w) 0) (replicate 32 0);
    let rr := map Z.to_nat rr in
    col_weights ← count_cols rr col_weights;
    Ok (rows ++ rr, dense ++ hash, col_weights)) st;
  for_ (num_items - main * 32) (fun k '(rows, dense, col_weights) =>
    x ← vget inputs (main * 32 + k);
    '(rr, hash) ← HashBuildRow1 hasAVX2 idx (hasher_ p) x (replicate w 0);
    let rr := map Z.to_nat rr in
    col_weights ← count_cols rr col_weights;
    Ok (rows ++ rr, dense ++ [hash], col_weights)) st.

Definition SetInput (inputs : list Z) (px : Paxos) : res Paxos :=
  let p := param px in
  _ ← enforce (bool_decide (length inputs <= num_items_ px)%nat);
  let col_weights := replicate (sparse_size p) 0 in
  '(rows, dense, col_weights) ← hash_rows p (num_items_ px) inputs ([], [], col_weights);
  let px := mkPaxos p (num_items_ px) dense rows (resize (sparse_size p) (0, 0)%nat (cols_ px))
              (resize (num_items_ px * weight p) 0%nat (col_backing_ px)) (weight_sets_ px) (add_to_decode_ px) in
  px ← RebuildColumns col_weights (weight p * num_items_ px) px;
  ws ← WeightData.init idx col_weights (weight_sets_ px);
  Ok (with_sets ws px).

(** The overload for a matrix that was hashed by the caller. *)
Definition SetInput_rows (rows : list nat) (dense : list Z) (col_backing : list nat) (col_weights : list Z) (px : Paxos)
    : res Paxos :=
  let p := param px in
  _ ← enforce (bool_decide (length rows = num_items_ px * weight p)%nat && bool_decide (length dense = num_items_ px));
  _ ← enforce (bool_decide (length col_backing = num_items_ px * weight p)%nat);
  _ ← enforce (bool_decide (length col_weights = sparse_size p));
  let px := mkPaxos p (num_items_ px) dense rows (resize (sparse_size p) (0, 0)%nat (cols_ px)) col_backing
              (weight_sets_ px) (add_to_decode_ px) in
  px ← RebuildColumns col_weights (weight p * num_items_ px) px;
  ws ← WeightData.init idx col_weights (weight_sets_ px);
  Ok (with_sets ws px).

(** ** Triangulation *)
Record Tri := mkTri {
  tri_sets : WeightData;
  row_set : list bool;
  main_rows : list nat;
  main_cols : list nat;
  gap_rows : list (nat * nat)
}.

(** The rows of a column, [for (auto row_idx : cols_[col_idx])]. *)
Definition column_rows (px : Paxos) (col_idx : nat) : res (list nat) :=
  '(off, len) ← vget (cols_ px) col_idx;
  for_ len (fun k l => r ← vget (col_backing_ px) (off + k); Ok (l ++ [r])) [].

(** The other columns of a row that is now fixed lose it from their weight. *)
Definition lower_weights (px : Paxos) (row_idx : nat) (ws : WeightData) : res WeightData :=
  for_ (weight (param px)) (fun j ws =>
    col_idx2 ← vget (rows_ px) (row_idx * weight (param px) + j);
    node ← vget (nodes ws) col_idx2;
    if WeightData.weight node =? 0 then Ok ws else reinsert idx col_idx2 ws) ws.

Definition visit_row (px : Paxos) (col_idx row_idx : nat) (st : Tri * bool) : res (Tri * bool) :=
  let '(s, first) := st in
  set ← vget (row_set s) row_idx;
  if (set : bool) then Ok (s, first)
  else
    row_set ← vset (row_set s) row_idx true;
    ws ← lower_weights px row_idx (tri_sets s);
    if (first : bool)
    then Ok (mkTri ws row_set (main_rows s ++ [row_idx]) (main_cols s ++ [col_idx]) (gap_rows s), false)
    else
      match last (main_rows s) with
      | None => UB
      | Some back =>
          d ← vget (dense_ px) back;
          d' ← vget (dense_ px) row_idx;
          _ ← enforce (negb (d =? d'));
          Ok (mkTri ws row_set (main_rows s) (main_cols s) (gap_rows s ++ [(row_idx, back)]), false)
      end.

(** A turn of the outer loop: fix a column of the least weight. *)
Definition fix_column (px : Paxos) (s : Tri) : res Tri :=
  col ← GetMinWeightNode (tri_sets s);
  ws ← PopNode idx col (tri_sets s);
  ws ← assign_weight col 0 ws;
  rows ← column_rows px col;
  '(s, first) ← for_each rows (visit_row px col) (mkTri ws (row_set s) (main_rows s) (main_cols s) (gap_rows s), true);
  _ ← enforce (negb first);
  Ok s.

(** [while (weight_sets.size() > 1)]: each turn takes out a column. *)
Fixpoint fix_columns (fuel : nat) (px : Paxos) (s : Tri) : res Tri :=
  if bool_decide (length (weight_sets (tri_sets s)) <= 1)%nat then Ok s
  else match fuel with
       | O => UB
       | S fuel' => s ← fix_column px s; fix_columns fuel' px s
       end.

Definition Triangulate (px : Paxos) : res (Paxos * Tri) :=
  ws ← (if bool_decide (length (weight_sets (weight_sets_ px)) <= 1)%nat
        then WeightData.init idx (map (fun c => wrap idx (Z.of_nat c.2)) (cols_ px)) (weight_sets_ px)
        else Ok (weight_sets_ px));
  s ← fix_columns (sparse_size (param px)) px (mkTri ws (replicate (num_items_ px) false) [] [] []);
  Ok (with_sets (tri_sets s) px, s).
End paxos.

(** ** The matrix *)
Section matrix.
Context `{SymmetricCrypto} `{Libdivide} (idx : Z) (Hidx : 0 <= idx).
Context (px : Paxos).
Abbreviation N := (num_items_ px).
Abbreviation sp := (sparse_size (param px)).
Abbreviation w := (weight (param px)).

Definition row (i : nat) : list nat := take w (drop (i * w) (rows_ px)).
Definition rows_of (c : nat) : list nat := filter (fun i => c ∈ row i) (seq 0 N).

Record wf_rows : Prop := {
  wf_rows_length : length (rows_ px) = (N * w)%nat;
  wf_dense : length (dense_ px) = N;
  wf_row i : (i < N)%nat -> NoDup (row i) /\ Forall (fun c => (c < sp)%nat) (row i)
}.
Definition wf_cols : Prop :=
  length (cols_ px) = sp /\ forall c, (c < sp)%nat -> column_rows px c = Ok (rows_of c).

Lemma elem_of_rows_of c i : i ∈ rows_of c <-> (i < N)%nat /\ c ∈ row i.
Proof. unfold rows_of. rewrite list_elem_of_filter, elem_of_seq. split; intros [? ?]; split; try done; lia. Qed.
Lemma NoDup_rows_of c : NoDup (rows_of c).
Proof. apply NoDup_filter, NoDup_seq. Qed.

Lemma row_lookup i j : (j < w)%nat -> row i !! j = rows_ px !! (i * w + j)%nat.
Proof. intros Hj. unfold row. rewrite lookup_take_lt by done. by rewrite lookup_drop. Qed.
Lemma length_row i : wf_rows -> (i < N)%nat -> length (row i) = w.
Proof. intros Hw Hi. unfold row. rewrite length_take, length_drop, wf_rows_length by done. nia. Qed.

(** How many rows of a column are not ordered yet. *)
Definition unset (rs : list bool) (i : nat) : bool := negb (default true (rs !! i)).
Definition live (rs : list bool) (c : nat) : nat := length (filter (fun i => unset rs i = true) (rows_of c)).

Lemma live_le rs c : (live rs c <= N)%nat.
Proof.
  unfold live. etransitivity; [apply length_filter|]. unfold rows_of. etransitivity; [apply length_filter|]. by rewrite length_seq.
Qed.

Lemma unset_insert rs r i : (r < length rs)%nat -> unset (<[r := true]> rs) i = if bool_decide (i = r) then false else unset rs i.
Proof.
  intros Hr. unfold unset. case_bool_decide as E; [subst; by rewrite list_lookup_insert_eq|by rewrite list_lookup_insert_ne by done].
Qed.

Lemma length_filter_remove (l : list nat) (P P' : nat -> bool) r :
  NoDup l -> (forall i, P' i = if bool_decide (i = r) then false else P i) -> P r = true ->
  (length (filter (fun i => P i = true) l) = length (filter (fun i => P' i = true) l) + if bool_decide (r ∈ l) then 1 else 0)%nat.
Proof.
  intros Hnd HP Hr. induction Hnd as [|x l Hx Hnd IH]; [by rewrite bool_decide_false by apply not_elem_of_nil|].
  rewrite !filter_cons, (HP x). destruct (decide (x = r)) as [->|Hne].
  - rewrite (bool_decide_true (r = r)) by done. rewrite (bool_decide_true (r ∈ r :: l)) by by left.
    rewrite bool_decide_false in IH by done. rewrite decide_True by done. rewrite (decide_False (P := false = true)) by done. cbn [length]. lia.
  - rewrite (bool_decide_false (x = r)) by done.
    assert (bool_decide (r ∈ x :: l) = bool_decide (r ∈ l)) as ->.
    { apply bool_decide_ext. rewrite elem_of_cons. naive_solver. }
    destruct (decide (P x = true)); cbn [length]; lia.
Qed.

Lemma live_insert rs r c : (r < N)%nat -> length rs = N -> unset rs r = true ->
  live rs c = (live (<[r := true]> rs) c + if bool_decide (c ∈ row r) then 1 else 0)%nat.
Proof.
  intros Hr Hl Hu. unfold live. rewrite (length_filter_remove _ _ (unset (<[r := true]> rs)) r (NoDup_rows_of c)); [|intros i; apply unset_insert; lia|done].
  f_equal. assert (bool_decide (r ∈ rows_of c) = bool_decide (c ∈ row r)) as ->; [|done].
  apply bool_decide_ext. rewrite elem_of_rows_of. tauto.
Qed.

Lemma live_pos rs r c : (r < N)%nat -> length rs = N -> unset rs r = true -> c ∈ row r -> (0 < live rs c)%nat.
Proof. intros Hr Hl Hu Hc. rewrite (live_insert rs r c) by done. rewrite bool_decide_true by done. lia. Qed.

(** *** The weights: columns in [D] are taken out, the others weigh their rows *)
Definition weighed (D : list nat) (live : nat -> nat) (ws : WeightData) : Prop :=
  exists m, columns idx ws m /\ length (nodes ws) = sp /\
    forall c, m !! c = if bool_decide ((c < sp)%nat /\ c ∉ D) then Some (live c) else None.

Lemma weighed_ext D l1 l2 ws : (forall c, (c < sp)%nat -> c ∉ D -> l1 c = l2 c) -> weighed D l1 ws -> weighed D l2 ws.
Proof.
  intros Hl (m & Hc & Hn & Hm). exists m. split; [done|]. split; [done|]. intros c. rewrite Hm. case_bool_decide as E; [|done].
  destruct E. by rewrite Hl.
Qed.

(** A column outside a short list. *)
Lemma fresh_column (l : list nat) : (length l < sp)%nat -> exists k, (k < sp)%nat /\ k ∉ l.
Proof.
  intros Hl. destruct (decide (Forall (fun k => k ∈ l) (seq 0 sp))) as [Hall|Hn].
  - exfalso. assert (seq 0 sp ⊆+ l) as Hs.
    { apply NoDup_submseteq; [apply NoDup_seq|]. intros k Hk. by apply (proj1 (Forall_forall _ _) Hall). }
    apply submseteq_length in Hs. rewrite length_seq in Hs. lia.
  - apply not_Forall_Exists in Hn; [|apply _]. apply Exists_exists in Hn as (k & Hk & Hkl). exists k. split; [|done].
    apply elem_of_seq in Hk. lia.
Qed.

Definition lowered (rs : list bool) (r j c : nat) : nat := (live rs c - if bool_decide (c ∈ take j (row r)) then 1 else 0)%nat.

Lemma lower_weights_ok D rs r ws :
  wf_rows -> (r < N)%nat -> length rs = N -> unset rs r = true -> weighed D (live rs) ws ->
  (S (length D) < sp)%nat -> Z.of_nat N < 2 ^ idx ->
  wp (lower_weights idx px r ws) (weighed D (live (<[r := true]> rs))).
Proof.
  intros Hwf Hr Hl Hu Hw HD HN. destruct (wf_row Hwf r Hr) as [Hnd HF]. unfold lower_weights.
  apply (wp_for _ _ (fun j => weighed D (lowered rs r j))).
  - eapply weighed_ext; [|exact Hw]. intros c _ _. unfold lowered. cbn [take]. rewrite bool_decide_false by apply not_elem_of_nil. lia.
  - intros j ws1 Hj (m & Hc & Hln & Hm). pose proof (length_row r Hwf Hr) as Hlr.
    destruct (lookup_lt_is_Some_2 (row r) j ltac:(lia)) as [c Ec].
    assert (vget (rows_ px) (r * w + j) = Ok c) as -> by (apply vget_ok; by rewrite <- row_lookup). run.
    pose proof (Forall_lookup_1 _ _ _ _ HF Ec) as Hcs. cbn beta in Hcs.
    destruct (lookup_lt_is_Some_2 (nodes ws1) c ltac:(lia)) as [nd End]. rewrite (proj2 (vget_ok _ _ _) End). run.
    rewrite (columns_weight idx ws1 m c nd Hc End), Hm.
    assert (c ∉ take j (row r)) as Hct.
    { intros Hin. apply elem_of_take in Hin as (k & Hk & Hkj). pose proof (NoDup_lookup _ _ _ _ Hnd Hk Ec). lia. }
    assert (forall k, k ∈ take (S j) (row r) <-> k ∈ take j (row r) \/ k = c) as Htk.
    { intros k. rewrite (take_S_r _ _ _ Ec), elem_of_app, list_elem_of_singleton. done. }
    assert (c ∈ row r) as Hcr by by apply list_elem_of_lookup_2 in Ec.
    pose proof (live_pos rs r c Hr Hl Hu Hcr) as Hlp.
    assert (forall k, k <> c -> lowered rs r (S j) k = lowered rs r j k) as Hlow.
    { intros k Hk. unfold lowered. do 2 f_equal.
      rewrite (bool_decide_ext (k ∈ take (S j) (row r)) (k ∈ take j (row r))); [done|]. rewrite Htk. naive_solver. }
    assert (lowered rs r j c = live rs c) as Ej by (unfold lowered; rewrite bool_decide_false by done; lia).
    assert (S (lowered rs r (S j) c) = lowered rs r j c) as ES.
    { unfold lowered. rewrite bool_decide_true by (apply Htk; by right). rewrite bool_decide_false by done. lia. }
    case_bool_decide as Hd; cbn [default id].
    + rewrite (proj2 (Z.eqb_neq _ 0)) by lia. destruct Hd as [_ HcD].
      destruct (fresh_column (c :: D)) as (k & Hk & HkD); [cbn; lia|]. apply not_elem_of_cons in HkD as [Hkc HkD].
      eapply wp_mono; [apply (reinsert_columns idx Hidx ws1 m c (lowered rs r (S j) c))|].
      * done.
      * rewrite Hm, bool_decide_true by done. by rewrite ES.
      * rewrite ES, Ej. pose proof (live_le rs c). lia.
      * exists k. split; [done|]. rewrite Hm, bool_decide_true by done. eauto.
      * intros ws2 [Hc2 Hl2]. unfold lengths in Hl2. eexists. split; [exact Hc2|]. split; [lia|]. intros k'.
        rewrite lookup_insert, Hm. destruct (decide (c = k')) as [<-|Hne]; [by rewrite bool_decide_true|].
        case_bool_decide; [|done]. by rewrite Hlow by done.
    + rewrite (proj2 (Z.eqb_eq _ 0)) by lia. exists m. split; [done|]. split; [done|]. intros k. rewrite Hm.
      case_bool_decide as Hk; [|done]. rewrite Hlow; [done|]. intros ->. done.
  - intros ws2. apply weighed_ext. intros c Hc _. unfold lowered. rewrite (live_insert rs r c Hr Hl Hu).
    assert (take w (row r) = row r) as -> by (apply take_ge; rewrite length_row by done; lia). case_bool_decide; lia.
Qed.

(** *** The order built so far *)

(** Row [k] contains column [k] and none of the columns before it. *)
Definition ordered (mr mc : list nat) : Prop :=
  forall k r j c, mr !! k = Some r -> mc !! j = Some c -> (j = k -> c ∈ row r) /\ ((j < k)%nat -> c ∉ row r).

(** A gap row shares its column with the main row it is paired with, has a
    different dense part, and none of the columns before. *)
Definition gap_ok (mr mc : list nat) (p : nat * nat) : Prop :=
  dense_ px !! p.1 <> dense_ px !! p.2 /\
  exists k, mr !! k = Some p.2 /\ forall j c, mc !! j = Some c -> (j = k -> c ∈ row p.1) /\ ((j < k)%nat -> c ∉ row p.1).

(** The rows of fixed columns are all ordered. *)
Definition closed (mc : list nat) (rs : list bool) : Prop :=
  forall c i, c ∈ mc -> (i < N)%nat -> c ∈ row i -> unset rs i = false.

Definition taken (s : Tri) : list nat := main_rows s ++ (gap_rows s).*1.

Record tri_inv (D : list nat) (s : Tri) : Prop := {
  ti_length : length (row_set s) = N;
  ti_weighed : weighed D (live (row_set s)) (tri_sets s);
  ti_set i : (i < N)%nat -> unset (row_set s) i = false <-> i ∈ taken s;
  ti_taken : NoDup (taken s) /\ Forall (fun i => (i < N)%nat) (taken s);
  ti_square : length (main_rows s) = length (main_cols s);
  ti_cols : NoDup (main_cols s) /\ Forall (fun c => (c < sp)%nat) (main_cols s);
  ti_ordered : ordered (main_rows s) (main_cols s);
  ti_gap : Forall (gap_ok (main_rows s) (main_cols s)) (gap_rows s)
}.

Lemma taken_fresh s D r : tri_inv D s -> (r < N)%nat -> unset (row_set s) r = true -> (r ∉ taken s) /\ (S (length (taken s)) <= N)%nat.
Proof.
  intros Hs Hr Hu. assert (r ∉ taken s) as Hn by (intros Hin%(ti_set _ _ Hs) ; [congruence|done]). split; [done|].
  destruct (ti_taken _ _ Hs) as [Hnd HF]. assert (r :: taken s ⊆+ seq 0 N) as Hsub.
  { apply NoDup_submseteq; [by apply NoDup_cons_2|]. intros k Hk. apply elem_of_seq. split; [lia|].
    apply elem_of_cons in Hk as [->|Hk]; [lia|]. by apply (proj1 (Forall_forall _ _) HF) in Hk. }
  apply submseteq_length in Hsub. rewrite length_seq in Hsub. cbn in Hsub. lia.
Qed.

Lemma taken_le s D : tri_inv D s -> (length (main_cols s) <= N)%nat.
Proof.
  intros Hs. destruct (ti_taken _ _ Hs) as [Hnd HF]. assert (taken s ⊆+ seq 0 N) as Hsub.
  { apply NoDup_submseteq; [done|]. intros k Hk. apply elem_of_seq. split; [lia|]. by apply (proj1 (Forall_forall _ _) HF) in Hk. }
  apply submseteq_length in Hsub. rewrite length_seq in Hsub. unfold taken in Hsub. rewrite length_app in Hsub.
  pose proof (ti_square _ _ Hs). lia.
Qed.

Lemma ordered_push mr mc r c :
  length mr = length mc -> ordered mr mc -> c ∈ row r -> (forall c', c' ∈ mc -> c' ∉ row r) -> ordered (mr ++ [r]) (mc ++ [c]).
Proof.
  intros Hl Ho Hc Hn k r' j c' Hr' Hc'. apply lookup_snoc_Some in Hr' as [[Hk Hr']|[-> <-]].
  - apply lookup_snoc_Some in Hc' as [[Hj Hc']|[-> <-]]; [by apply (Ho k r' j)|lia].
  - apply lookup_snoc_Some in Hc' as [[Hj Hc']|[-> <-]]; [|split; [done|lia]].
    split; [lia|]. intros _. apply Hn. by apply list_elem_of_lookup_2 in Hc'.
Qed.
Lemma gap_ok_push mr mc r c p : length mr = length mc -> gap_ok mr mc p -> gap_ok (mr ++ [r]) (mc ++ [c]) p.
Proof.
  intros Hl [Hd (k & Hk & Hkc)]. split; [done|]. pose proof (lookup_lt_Some _ _ _ Hk). exists k. split; [by apply lookup_app_l_Some|].
  intros j c' Hc'. apply lookup_snoc_Some in Hc' as [[Hj Hc']|[-> <-]]; [by apply Hkc|lia].
Qed.

(** A row becomes ordered, as a main row ... *)
Lemma push_main D s x col ws :
  tri_inv D s -> (x < N)%nat -> unset (row_set s) x = true -> (col < sp)%nat -> col ∉ main_cols s -> col ∈ row x ->
  (forall c, c ∈ main_cols s -> c ∉ row x) -> weighed D (live (<[x := true]> (row_set s))) ws ->
  tri_inv D (mkTri ws (<[x := true]> (row_set s)) (main_rows s ++ [x]) (main_cols s ++ [col]) (gap_rows s)).
Proof.
  intros Hs Hx Hu Hcol Hnc Hcx Hdis Hws. destruct (taken_fresh s D x Hs Hx Hu) as [Hnt _]. destruct (ti_taken _ _ Hs) as [Hnd HF].
  pose proof (ti_length _ _ Hs) as Hl. pose proof (ti_square _ _ Hs) as Hsq. destruct (ti_cols _ _ Hs) as [Hcn HcF].
  assert ((main_rows s ++ [x]) ++ (gap_rows s).*1 ≡ₚ x :: taken s) as HP.
  { unfold taken. rewrite <- app_assoc. cbn. by rewrite <- Permutation_middle. }
  constructor; unfold taken; cbn [row_set tri_sets main_rows main_cols gap_rows].
  - by rewrite length_insert.
  - done.
  - intros i Hi. rewrite HP, elem_of_cons, <- (ti_set _ _ Hs i Hi), unset_insert by lia. case_bool_decide; naive_solver.
  - rewrite HP. split; [by apply NoDup_cons_2|by apply Forall_cons].
  - rewrite !length_app, Hsq. done.
  - split; [apply NoDup_app; split; [done|split; [|apply NoDup_singleton]]; set_solver|by apply Forall_app_2; [|apply Forall_singleton]].
  - apply ordered_push; try done. apply (ti_ordered _ _ Hs).
  - eapply Forall_impl; [apply (ti_gap _ _ Hs)|]. intros p. by apply gap_ok_push.
Qed.

(** ... or as a gap row of the last main row. *)
Lemma push_gap D s x col back ws :
  tri_inv D s -> (x < N)%nat -> unset (row_set s) x = true -> col ∈ row x ->
  last (main_cols s) = Some col -> last (main_rows s) = Some back -> dense_ px !! x <> dense_ px !! back ->
  (forall j c, main_cols s !! j = Some c -> (S j < length (main_cols s))%nat -> c ∉ row x) ->
  weighed D (live (<[x := true]> (row_set s))) ws ->
  tri_inv D (mkTri ws (<[x := true]> (row_set s)) (main_rows s) (main_cols s) (gap_rows s ++ [(x, back)])).
Proof.
  intros Hs Hx Hu Hcx Hlc Hlr Hd Hdis Hws. destruct (taken_fresh s D x Hs Hx Hu) as [Hnt _]. destruct (ti_taken _ _ Hs) as [Hnd HF].
  pose proof (ti_length _ _ Hs) as Hl. pose proof (ti_square _ _ Hs) as Hsq.
  assert (main_rows s ++ (gap_rows s ++ [(x, back)]).*1 ≡ₚ x :: taken s) as HP.
  { unfold taken. rewrite fmap_app. cbn. rewrite app_assoc, <- Permutation_cons_append. done. }
  constructor; unfold taken; cbn [row_set tri_sets main_rows main_cols gap_rows].
  - by rewrite length_insert.
  - done.
  - intros i Hi. rewrite HP, elem_of_cons, <- (ti_set _ _ Hs i Hi), unset_insert by lia. case_bool_decide; naive_solver.
  - rewrite HP. split; [by apply NoDup_cons_2|by apply Forall_cons].
  - done.
  - apply (ti_cols _ _ Hs).
  - apply (ti_ordered _ _ Hs).
  - apply Forall_app_2; [apply (ti_gap _ _ Hs)|]. apply Forall_singleton. split; [done|]. cbn [fst snd].
    rewrite last_lookup in Hlc, Hlr. exists (Nat.pred (length (main_rows s))). split; [done|]. intros j c Hj. rewrite Hsq. split.
    + intros ->. congruence.
    + intros Hlt. apply (Hdis j c Hj). lia.
Qed.

(** *** Visiting the rows of a column *)
Definition visiting (D : list nat) (rs0 : list bool) (col : nat) (seen : list nat) (st : Tri * bool) : Prop :=
  tri_inv (col :: D) st.1 /\ closed D (row_set st.1) /\ (forall i, i ∈ seen -> unset (row_set st.1) i = false) /\
  if st.2 then main_cols st.1 = D /\ row_set st.1 = rs0 else main_cols st.1 = D ++ [col].

Lemma closed_insert mc rs x : closed mc rs -> (x < length rs)%nat -> closed mc (<[x := true]> rs).
Proof. intros Hc Hx c i Hin Hi Hrow. rewrite unset_insert by done. case_bool_decide; [done|by eapply Hc]. Qed.
Lemma seen_insert (seen : list nat) rs x :
  (forall i, i ∈ seen -> unset rs i = false) -> (x < length rs)%nat ->
  forall i, i ∈ seen ++ [x] -> unset (<[x := true]> rs) i = false.
Proof.
  intros Hs Hx i Hin. rewrite unset_insert by done. case_bool_decide; [done|].
  apply elem_of_app in Hin as [Hin|Hin%list_elem_of_singleton]; [by apply Hs|done].
Qed.

Lemma visit_row_ok D rs0 col seen x st :
  wf_rows -> (S N < sp)%nat -> Z.of_nat N < 2 ^ idx -> (col < sp)%nat -> col ∉ D -> (x < N)%nat -> col ∈ row x ->
  visiting D rs0 col seen st ->
  outcome (~ NoDup (dense_ px)) (visit_row idx px col x st) (visiting D rs0 col (seen ++ [x])).
Proof.
  intros Hwf Hsp HN Hcol HcD Hx Hcx (Hs & Hcl & Hseen & Hf). destruct st as [s first]. cbn [fst snd] in *.
  pose proof (ti_length _ _ Hs) as Hl. unfold visit_row.
  destruct (lookup_lt_is_Some_2 (row_set s) x ltac:(lia)) as [b Eb]. rewrite (proj2 (vget_ok _ _ _) Eb). run.
  assert (unset (row_set s) x = negb b) as Eu by (unfold unset; by rewrite Eb). destruct b; cbn [negb] in Eu.
  { split; [done|]. split; [done|]. split; [|done]. intros i [Hi|Hi%list_elem_of_singleton]%elem_of_app; [by apply Hseen|]. by subst. }
  rewrite vset_total by lia. run. destruct (taken_fresh s _ x Hs Hx Eu) as [Hnt Hlt].
  assert (S (length (col :: D)) < sp)%nat as HlD.
  { pose proof (ti_square _ _ Hs). unfold taken in Hlt. rewrite length_app in Hlt. cbn [length].
    destruct first; [destruct Hf as [<- _]; lia|]. rewrite Hf, length_app in *. cbn in *. lia. }
  apply outcome_bind. apply wp_outcome.
  eapply wp_mono; [apply (lower_weights_ok (col :: D) (row_set s) x (tri_sets s)); try done; apply (ti_weighed _ _ Hs)|].
  intros ws Hws. assert (forall c, c ∈ D -> c ∉ row x) as Hdis by (intros c Hc Hin; specialize (Hcl c x Hc Hx Hin); congruence).
  destruct first.
  - destruct Hf as [Hmc Hrs]. cbn [outcome]. split.
    + apply push_main; try done; rewrite Hmc; done.
    + cbn [fst snd row_set main_cols]. split; [apply closed_insert; [done|lia]|]. split; [apply seen_insert; [done|lia]|]. by rewrite Hmc.
  - pose proof (ti_square _ _ Hs) as Hsq.
    destruct (last (main_rows s)) as [back|] eqn:Elast.
    2:{ apply last_None in Elast. rewrite Elast, Hf, length_app in Hsq. cbn in Hsq. lia. }
    assert (back ∈ taken s) as Hbt by (unfold taken; apply elem_of_app; left; by apply last_Some_elem_of).
    assert (back < N)%nat as Hb by (destruct (ti_taken _ _ Hs) as [_ HF]; by apply (proj1 (Forall_forall _ _) HF) in Hbt).
    pose proof (wf_dense Hwf) as Hdl.
    destruct (lookup_lt_is_Some_2 (dense_ px) back ltac:(lia)) as [d Ed]. destruct (lookup_lt_is_Some_2 (dense_ px) x ltac:(lia)) as [d' Ed'].
    rewrite (proj2 (vget_ok _ _ _) Ed), (proj2 (vget_ok _ _ _) Ed'). run. destruct (Z.eqb_spec d d') as [->|Hne]; cbn [negb].
    { cbn. intros Hnd. pose proof (NoDup_lookup _ _ _ _ Hnd Ed Ed') as E. subst back. by apply Hnt. }
    run. cbn [outcome]. split.
    + apply (push_gap (col :: D) s x col back ws); try done.
      * rewrite Hf. apply last_snoc.
      * congruence.
      * intros j c Hj Hjl. rewrite Hf, length_app in Hjl. cbn in Hjl. rewrite Hf, lookup_app_l in Hj by lia. apply Hdis.
        by apply list_elem_of_lookup_2 in Hj.
    + cbn [fst snd row_set main_cols]. split; [apply closed_insert; [done|lia]|]. split; [apply seen_insert; [done|lia]|]. done.
Qed.

(** *** The loop over the columns *)
Definition fixing (s : Tri) : Prop := tri_inv (main_cols s) s /\ closed (main_cols s) (row_set s).

Lemma weighed_perm D D' l ws : (forall c, c ∈ D <-> c ∈ D') -> weighed D l ws -> weighed D' l ws.
Proof.
  intros HD (m & Hc & Hn & Hm). exists m. split; [done|]. split; [done|]. intros c. rewrite Hm.
  erewrite bool_decide_ext; [reflexivity|]. by rewrite HD.
Qed.
Lemma tri_inv_perm D D' s : (forall c, c ∈ D <-> c ∈ D') -> tri_inv D s -> tri_inv D' s.
Proof. intros HD []. constructor; try done. by eapply weighed_perm. Qed.
Lemma tri_inv_weighed D D' s ws :
  tri_inv D s -> weighed D' (live (row_set s)) ws -> tri_inv D' (mkTri ws (row_set s) (main_rows s) (main_cols s) (gap_rows s)).
Proof. intros [] Hw. by constructor. Qed.

Lemma live_zero rs c : (forall i, i ∈ rows_of c -> unset rs i = false) -> live rs c = 0%nat.
Proof.
  intros Hall. unfold live. apply length_zero_iff_nil. apply elem_of_nil_inv. intros i [Hu Hin]%list_elem_of_filter. rewrite (Hall i Hin) in Hu. done.
Qed.

Lemma fix_column_ok s :
  wf_rows -> wf_cols -> (S N < sp)%nat -> Z.of_nat N < 2 ^ idx -> fixing s -> (1 < length (weight_sets (tri_sets s)))%nat ->
  outcome (~ NoDup (dense_ px)) (fix_column idx px s) (fun s' => fixing s' /\ length (main_cols s') = S (length (main_cols s))).
Proof.
  intros Hwf [_ Hcols] Hsp HN [Hs Hcl] Hlen. unfold fix_column. destruct (ti_weighed _ _ Hs) as (m & Hm & Hln & Hmc).
  apply outcome_bind, wp_outcome. eapply wp_mono; [by apply (GetMinWeightNode_columns idx (tri_sets s) m Hm)|].
  intros col (v & Hv & _). pose proof Hv as Hv'. rewrite Hmc in Hv'. case_bool_decide as Hd; [|done]. destruct Hd as [Hcol HcD].
  injection Hv' as Hlive. pose proof (taken_le s _ Hs) as HlN.
  destruct (fresh_column (col :: main_cols s)) as (k & Hk & HkD); [cbn; lia|]. apply not_elem_of_cons in HkD as [Hkc HkD].
  assert (exists k, k <> col /\ is_Some (m !! k)) as Hother.
  { exists k. split; [done|]. rewrite Hmc, bool_decide_true by done. eauto. }
  pose proof (WeightData.fix_columns idx Hidx (tri_sets s) m col (S v) Hm Hv Hother) as Hfix.
  destruct (PopNode idx col (tri_sets s)) as [ws0| |]; try done. change (wp (assign_weight col 0 ws0) (fun s' => columns idx s' (delete col m) /\ lengths (tri_sets s) s')) in Hfix.
  run. apply outcome_bind, wp_outcome. eapply wp_mono; [exact Hfix|]. intros ws [Hws Hlw]. unfold lengths in Hlw.
  rewrite (Hcols col Hcol). run. apply outcome_bind.
  assert (weighed (col :: main_cols s) (live (row_set s)) ws) as Hwe.
  { exists (delete col m). split; [done|]. split; [lia|]. intros c. rewrite lookup_delete, Hmc. destruct (decide (col = c)) as [->|Hne].
    - rewrite bool_decide_false; [done|]. rewrite elem_of_cons. tauto.
    - erewrite bool_decide_ext; [reflexivity|]. rewrite elem_of_cons. naive_solver. }
  eapply outcome_mono; [apply (outcome_for_each _ _ _ (visiting (main_cols s) (row_set s) col))|].
  - split; [by eapply tri_inv_weighed|]. split; [done|]. split; [|done]. intros i Hi. by apply not_elem_of_nil in Hi.
  - intros l1 x l2 st El Hst. assert (x ∈ rows_of col) as Hx by (rewrite El; apply elem_of_app; right; by left).
    apply elem_of_rows_of in Hx as [Hx Hcx]. by apply visit_row_ok.
  - intros [s' first] (Hs' & Hcl' & Hseen & Hf). cbn [fst snd] in *. destruct first.
    { exfalso. destruct Hf as [_ Hrs]. rewrite <- Hrs in Hlive. rewrite (live_zero _ _ Hseen) in Hlive. done. }
    run. cbn [outcome]. split; [|rewrite Hf, length_app; cbn; lia]. split.
    + eapply tri_inv_perm; [|exact Hs']. intros c. rewrite Hf. set_solver.
    + intros c i Hc Hi Hrow. rewrite Hf in Hc. apply elem_of_app in Hc as [Hc| ->%list_elem_of_singleton]; [by eapply Hcl'|].
      apply Hseen. by apply elem_of_rows_of.
Qed.

Lemma fix_columns_ok fuel : forall s,
  wf_rows -> wf_cols -> (S N < sp)%nat -> Z.of_nat N < 2 ^ idx -> fixing s -> (length (main_cols s) + fuel = sp)%nat ->
  outcome (~ NoDup (dense_ px)) (Paxos.fix_columns idx fuel px s)
    (fun s' => fixing s' /\ (length (weight_sets (tri_sets s')) <= 1)%nat).
Proof.
  induction fuel as [|fuel IH]; intros s Hwf Hc Hsp HN Hs Hf; cbn [Paxos.fix_columns]; case_bool_decide as Hl; try by split.
  - destruct Hs as [Hs _]. pose proof (taken_le s _ Hs). lia.
  - apply outcome_bind. eapply outcome_mono; [apply fix_column_ok; done || lia|]. intros s' [Hs' Hl']. apply IH; done || lia.
Qed.

(** *** What the triangulation promises *)
Record triangular (t : Tri) : Prop := {
  tr_rows : main_rows t ++ (gap_rows t).*1 ≡ₚ seq 0 N;
  tr_square : length (main_rows t) = length (main_cols t);
  tr_cols : NoDup (main_cols t) /\ Forall (fun c => (c < sp)%nat) (main_cols t);
  tr_ordered : ordered (main_rows t) (main_cols t);
  tr_gap : Forall (gap_ok (main_rows t) (main_cols t)) (gap_rows t)
}.

Lemma fixing_triangular s : wf_rows -> (0 < w)%nat -> fixing s -> (length (weight_sets (tri_sets s)) <= 1)%nat -> triangular s.
Proof.
  intros Hwf Hw [Hs Hcl] Hl. destruct (ti_taken _ _ Hs) as [Hnd HF].
  constructor; try apply Hs. apply NoDup_Permutation; [done|apply NoDup_seq|]. intros i. rewrite elem_of_seq. split.
  - intros Hi. apply (proj1 (Forall_forall _ _) HF) in Hi. lia.
  - intros [_ Hi]. rewrite Nat.add_0_l in Hi. apply (ti_set _ _ Hs i Hi). destruct (unset (row_set s) i) eqn:Hu; [|done]. exfalso.
    destruct (wf_row Hwf i Hi) as [_ HFr]. pose proof (length_row i Hwf Hi) as Hlr.
    destruct (lookup_lt_is_Some_2 (row i) 0 ltac:(lia)) as [c Ec]. pose proof (Forall_lookup_1 _ _ _ _ HFr Ec) as Hc. cbn beta in Hc.
    apply list_elem_of_lookup_2 in Ec. assert (c ∉ main_cols s) as Hn by (intros Hin; specialize (Hcl c i Hin Hi Ec); congruence).
    destruct (ti_weighed _ _ Hs) as (m & Hm & _ & Hmc). specialize (Hmc c). rewrite bool_decide_true in Hmc by done.
    apply (no_weights idx (tri_sets s) m c _ Hm Hl) in Hmc. pose proof (live_pos _ i c Hi (ti_length _ _ Hs) Hu Ec). lia.
Qed.

Lemma live_all c : live (replicate N false) c = length (rows_of c).
Proof.
  unfold live. f_equal. assert (Forall (fun i => unset (replicate N false) i = true) (rows_of c)) as HF.
  { apply Forall_forall. intros i [Hi _]%elem_of_rows_of. unfold unset. by rewrite lookup_replicate_2. }
  induction HF as [|i l Hi HF IH]; [done|]. rewrite filter_cons_True by done. by rewrite IH.
Qed.

(** Before: the columns are weighed, or the lists are cleared and can be rebuilt. *)
Definition ready : Prop :=
  (forall c, (length (rows_of c) < 200)%nat) /\
  node_alloc_size (weight_sets_ px) = Z.of_nat (length (nodes (weight_sets_ px))) /\
  (length (nodes (weight_sets_ px)) <= sp)%nat /\
  (weighed [] (fun c => length (rows_of c)) (weight_sets_ px) \/ (length (weight_sets (weight_sets_ px)) <= 1)%nat).

Lemma fixing_start ws : weighed [] (fun c => length (rows_of c)) ws -> fixing (mkTri ws (replicate N false) [] [] []).
Proof.
  intros Hw. split; [|intros c i Hc; by apply not_elem_of_nil in Hc]. constructor; cbn [row_set tri_sets main_rows main_cols gap_rows taken].
  - by rewrite length_replicate.
  - eapply weighed_ext; [|exact Hw]. intros c _ _. by rewrite live_all.
  - intros i Hi. unfold unset. rewrite lookup_replicate_2 by done. split; [done|]. intros Hin. by apply not_elem_of_nil in Hin.
  - split; [apply NoDup_nil_2|done].
  - done.
  - split; [apply NoDup_nil_2|done].
  - intros k r j c Hk. done.
  - done.
Qed.

Lemma weigh_columns ws :
  wf_cols -> (forall c, (length (rows_of c) < 200)%nat) -> (0 < sp)%nat -> Z.of_nat N < 2 ^ idx -> Z.of_nat sp < 2 ^ idx ->
  node_alloc_size ws = Z.of_nat (length (nodes ws)) -> (length (nodes ws) <= sp)%nat ->
  wp (init idx (map (fun c => wrap idx (Z.of_nat c.2)) (cols_ px)) ws)
    (fun ws => weighed [] (fun c => length (rows_of c)) ws /\ node_alloc_size ws = Z.of_nat (length (nodes ws))).
Proof.
  intros [Hl Hc] H200 Hsp HN Hs Ha Hn. set (f := fun c : nat * nat => wrap idx (Z.of_nat c.2)).
  assert (forall c p, cols_ px !! c = Some p -> p.2 = length (rows_of c)) as Hlen.
  { intros c [off len] Hp. pose proof (lookup_lt_Some _ _ _ Hp). specialize (Hc c ltac:(lia)). unfold column_rows in Hc.
    rewrite (proj2 (vget_ok _ _ _) Hp) in Hc. cbn [mbind res_bind] in Hc. cbn [snd].
    apply (for_ok _ _ (fun k l => length l = k)) in Hc; [done|done|]. intros i l l' Hi Hll Hok.
    apply bind_ok in Hok as (r & _ & [= <-]). rewrite length_app, Hll. cbn. lia. }
  assert (forall c p, cols_ px !! c = Some p -> f p = Z.of_nat (length (rows_of c)) /\ (length (rows_of c) < 200)%nat) as Hf.
  { intros c p Hp. unfold f. rewrite (Hlen c p Hp). split; [|apply H200]. apply wrap_small. split; [lia|].
    unfold rows_of. pose proof (length_filter (fun i => c ∈ row i) (seq 0 N)) as Hle. rewrite length_seq in Hle. lia. }
  eapply wp_mono; [apply (init_columns idx Hidx ws (map f (cols_ px))); try done|].
  - by rewrite length_map, Hl.
  - intros E. apply map_eq_nil in E. rewrite E in Hl. cbn in Hl. lia.
  - apply Forall_lookup_2. intros i x. rewrite lookup_map. intros (p & Hp & ->)%fmap_Some. destruct (Hf i p Hp) as [-> ?]. lia.
  - rewrite length_map, Hl. unfold NullNode. lia.
  - cbn beta. intros ws' (Hcol & Hln & Hal). rewrite length_map, Hl in Hln. split; [|done]. exists (weight_map (map f (cols_ px))). split; [done|]. split; [done|].
    intros c. unfold weight_map. rewrite lookup_map_seq_0, !lookup_map. case_bool_decide as Hd.
    + destruct Hd as [Hcs _]. destruct (lookup_lt_is_Some_2 (cols_ px) c ltac:(lia)) as [p Hp]. rewrite Hp. cbn.
      destruct (Hf c p Hp) as [-> _]. by rewrite Nat2Z.id.
    + rewrite (lookup_ge_None_2 (cols_ px)); [done|]. rewrite Hl. destruct (decide (c < sp)%nat); [|lia]. exfalso. apply Hd.
      split; [done|apply not_elem_of_nil].
Qed.

Lemma Triangulate_triangular :
  wf_rows -> wf_cols -> ready -> (0 < w)%nat -> (N + 2 <= sp)%nat -> Z.of_nat sp < 2 ^ idx ->
  outcome (~ NoDup (dense_ px)) (Triangulate idx px) (fun '(px', t) => px' = with_sets (tri_sets t) px /\ triangular t).
Proof.
  intros Hwf Hc Hr Hw Hsp Hs. unfold Triangulate. apply outcome_bind, wp_outcome.
  eapply (wp_mono _ (fun ws => weighed [] (fun c => length (rows_of c)) ws)).
  - destruct Hr as (H200 & Ha & Hn & Hor). case_bool_decide as Hl; [|by destruct Hor].
    eapply wp_mono; [apply weigh_columns; try done; lia|]. by intros ws [? _].
  - intros ws Hwe. apply outcome_bind. eapply outcome_mono; [apply fix_columns_ok; try done; try lia; by apply fixing_start|].
    intros t [Ht Hl]. cbn [outcome]. split; [done|]. by apply fixing_triangular.
Qed.
End matrix.
