(* ===== verification/PaxosInput.v ===== *)
(** * PaXoS: building the matrix from the keys (psi/algorithm/rr22/okvs/paxos)

    The rows [SetInput] hashes are well formed, the columns [RebuildColumns]
    lists are the columns of these rows, and the weights it hands to
    [WeightData] are their lengths; so the matrix can be triangulated. *)
From S2P Require Import Prelude Galois PaxosHash WeightData Paxos.

(** ** Occurrences *)
Definition occ (c : nat) (l : list nat) : nat := length (filter (fun x => x = c) l).

Lemma occ_list_app c l1 l2 : occ c (l1 ++ l2) = (occ c l1 + occ c l2)%nat.
Proof. unfold occ. by rewrite filter_app, length_app. Qed.
Lemma occ_list_cons c x l : occ c (x :: l) = ((if bool_decide (x = c) then 1 else 0) + occ c l)%nat.
Proof. unfold occ. rewrite filter_cons. case_decide; [rewrite bool_decide_true by done|rewrite bool_decide_false by done]; done. Qed.
Lemma occ_NoDup c l : NoDup l -> occ c l = if bool_decide (c ∈ l) then 1%nat else 0%nat.
Proof.
  induction 1 as [|x l Hx Hnd IH]; [by rewrite bool_decide_false by apply not_elem_of_nil|].
  rewrite occ_list_cons, IH. destruct (decide (x = c)) as [->|Hne].
  - rewrite (bool_decide_true (c = c)) by done. rewrite bool_decide_false by done. by rewrite bool_decide_true by by left.
  - rewrite (bool_decide_false (x = c)) by done. erewrite bool_decide_ext; [reflexivity|]. rewrite elem_of_cons. naive_solver.
Qed.

(** Running sums over the columns. *)
Fixpoint off (f : nat -> nat) (c : nat) : nat := match c with O => 0%nat | S c' => (off f c' + f c')%nat end.
Lemma off_mono f c c' : (c < c')%nat -> (off f c + f c <= off f c')%nat.
Proof. induction c' as [|c' IH]; [lia|]. intros Hc. cbn [off]. destruct (decide (c = c')) as [->|]; [lia|]. specialize (IH ltac:(lia)). lia. Qed.
Lemma off_ext f f' n : (forall c, (c < n)%nat -> f c = f' c) -> off f n = off f' n.
Proof. induction n as [|n IH]; [done|]. intros Hf. cbn [off]. rewrite Hf, IH; [done| |lia]. intros c Hc. apply Hf. lia. Qed.

Lemma off_occ sp l : Forall (fun c => (c < sp)%nat) l -> off (fun c => occ c l) sp = length l.
Proof.
  induction 1 as [|x l Hx HF IH]; [clear; induction sp as [|sp IH]; [done|]; cbn [off]; rewrite IH; done|].
  cbn [length]. rewrite <- IH. clear IH HF. revert Hx. induction sp as [|sp IH]; [lia|]. intros Hx. cbn [off]. rewrite (occ_list_cons sp).
  destruct (decide (x = sp)) as [->|Hne].
  - rewrite bool_decide_true by done. rewrite (off_ext _ (fun c => occ c l) sp); [lia|].
    intros c Hc. rewrite occ_list_cons, bool_decide_false by lia. done.
  - rewrite bool_decide_false by done. rewrite IH by lia. lia.
Qed.

(** The column weights after some rows. *)
Definition tallies (sp : nat) (l : list nat) : list Z := tabulate sp (fun c => Z.of_nat (occ c l)).

Lemma tallies_nil sp : tallies sp [] = replicate sp 0.
Proof.
  apply list_eq_total; [unfold tallies; by rewrite length_tabulate, length_replicate|]. intros i Hi. unfold tallies in *. rewrite length_tabulate in Hi.
  rewrite tabulate_lookup by done. by rewrite lookup_total_replicate_lt.
Qed.

Lemma count_cols_tallies idx sp l : forall before,
  Forall (fun c => (c < sp)%nat) l -> (forall c, Z.of_nat (occ c (before ++ l)) < 2 ^ idx) ->
  count_cols idx l (tallies sp before) = Ok (tallies sp (before ++ l)).
Proof.
  induction l as [|x l IH]; intros before HF Hb; [cbn; by rewrite app_nil_r|].
  apply Forall_cons in HF as [Hx HF]. unfold count_cols. cbn [for_each].
  assert (vget (tallies sp before) x = Ok (Z.of_nat (occ x before))) as ->.
  { unfold tallies. rewrite vget_total by (by rewrite length_tabulate). by rewrite tabulate_lookup. }
  run. assert (occ x (before ++ x :: l) = (occ x before + 1 + occ x l)%nat) as Ex.
  { rewrite occ_list_app, occ_list_cons, bool_decide_true by done. lia. }
  pose proof (Hb x). rewrite wrap_small by (unfold in_u; lia). unfold tallies at 1. rewrite vset_total by (by rewrite length_tabulate). run.
  assert (<[x := Z.of_nat (occ x before) + 1]> (tabulate sp (fun c => Z.of_nat (occ c before))) = tallies sp (before ++ [x])) as ->.
  { rewrite (insert_tabulate sp _ x) by done. unfold tallies. apply map_ext_in. intros c Hc. rewrite occ_list_app, occ_list_cons. cbn [occ].
    change (occ c []) with 0%nat. destruct (decide (c = x)) as [->|Hne].
    - rewrite !bool_decide_true by done. lia.
    - rewrite !bool_decide_false by done. lia. }
  fold (count_cols idx l (tallies sp (before ++ [x]))). rewrite IH; [by rewrite <- app_assoc|done|].
  intros c. rewrite <- app_assoc. apply Hb.
Qed.

(** ** The columns of the matrix *)
Section columns.
Context `{SymmetricCrypto} `{Libdivide} (idx : Z) (Hidx : 0 <= idx).
Context (px : Paxos) (Hwf : wf_rows px).
Abbreviation N := (num_items_ px).
Abbreviation sp := (Paxos.sparse_size (param px)).
Abbreviation w := (Paxos.weight (param px)).

Lemma rows_concat n : (n <= N)%nat -> take (n * w) (rows_ px) = concat (map (row px) (seq 0 n)).
Proof.
  pose proof (wf_rows_length px Hwf) as Hl. induction n as [|n IH]; intros Hn; [done|].
  rewrite seq_S, map_app, concat_app, <- IH by lia. cbn. rewrite app_nil_r. unfold row.
  rewrite take_take_drop. f_equal. lia.
Qed.

Lemma occ_rows c n : (n <= N)%nat ->
  occ c (concat (map (row px) (seq 0 n))) = length (filter (fun i => c ∈ row px i) (seq 0 n)).
Proof.
  induction n as [|n IH]; intros Hn; [done|]. rewrite seq_S, map_app, concat_app, occ_list_app, IH, filter_app, length_app by lia.
  cbn [map concat]. rewrite Nat.add_0_l, app_nil_r. f_equal. rewrite filter_cons, filter_nil. destruct (wf_row px Hwf n ltac:(lia)) as [Hnd _]. rewrite occ_NoDup by done.
  case_bool_decide; case_decide; done.
Qed.
Lemma occ_column c : occ c (rows_ px) = length (rows_of px c).
Proof.
  unfold rows_of. rewrite <- occ_rows, <- rows_concat by done. rewrite take_ge; [done|]. by rewrite (wf_rows_length px Hwf).
Qed.

Lemma rows_below : Forall (fun c => (c < sp)%nat) (rows_ px).
Proof.
  apply Forall_lookup_2. intros t c Ht. pose proof (lookup_lt_Some _ _ _ Ht) as Hlt. rewrite (wf_rows_length px Hwf) in Hlt.
  pose proof (Nat.div_mod_eq t w) as E. pose proof (Nat.mod_upper_bound t w ltac:(lia)) as Hm.
  assert (t / w < N)%nat as Hi by (apply Nat.Div0.div_lt_upper_bound; lia).
  destruct (wf_row px Hwf (t / w) Hi) as [_ HF]. apply (Forall_lookup_1 _ _ (t mod w) c HF).
  rewrite row_lookup by done. rewrite <- Ht. f_equal. lia.
Qed.

Definition start (c : nat) : nat := off (fun c => length (rows_of px c)) c.

Lemma start_bound c : (c < sp)%nat -> (start c + length (rows_of px c) <= N * w)%nat.
Proof.
  intros Hc. unfold start. rewrite <- (wf_rows_length px Hwf), <- (off_occ sp (rows_ px)) by apply rows_below.
  rewrite (off_ext (fun c => occ c (rows_ px)) (fun c => length (rows_of px c)) sp) by (intros; apply occ_column). by apply (off_mono (fun c => length (rows_of px c)) c sp).
Qed.

Lemma column_spans_ok :
  column_spans sp (tallies sp (rows_ px)) = Ok (tabulate sp (fun c => (start c, 0%nat)), Z.of_nat (N * w)).
Proof.
  unfold column_spans. enough (forall n, (n <= sp)%nat -> for_ n (fun i '(cols, iter) =>
    x ← vget (tallies sp (rows_ px)) i; Ok (cols ++ [(Z.to_nat iter, 0%nat)], iter + x)) ([], 0) =
    Ok (tabulate n (fun c => (start c, 0%nat)), Z.of_nat (start n))) as He.
  { rewrite He by done. unfold start. rewrite <- (wf_rows_length px Hwf), <- (off_occ sp (rows_ px)) by apply rows_below.
    do 2 f_equal. f_equal. apply off_ext. intros. by rewrite occ_column. }
  induction n as [|n IH]; intros Hn; [done|]. rewrite for_S, IH by lia. run.
  assert (vget (tallies sp (rows_ px)) n = Ok (Z.of_nat (length (rows_of px n)))) as ->.
  { unfold tallies. rewrite vget_total by (by rewrite length_tabulate). by rewrite tabulate_lookup, occ_column by done. }
  run. rewrite tabulate_S, Nat2Z.id. do 2 f_equal. unfold start. cbn [off]. lia.
Qed.

(** The rows placed in a column when row [i] is at its [j]-th entry. *)
Definition part (i j c : nat) : list nat :=
  filter (fun i => c ∈ row px i) (seq 0 i) ++ (if bool_decide (c ∈ take j (row px i)) then [i] else []).

Definition placed (i j : nat) (st : list (nat * nat) * list nat) : Prop :=
  length st.1 = sp /\ length st.2 = (N * w)%nat /\
  forall c, (c < sp)%nat -> st.1 !! c = Some (start c, length (part i j c)) /\
    forall k x, part i j c !! k = Some x -> st.2 !! (start c + k)%nat = Some x.

Lemma part_0 i c : part i 0 c = filter (fun i => c ∈ row px i) (seq 0 i).
Proof. unfold part. cbn [take]. rewrite bool_decide_false by apply not_elem_of_nil. by rewrite app_nil_r. Qed.
Lemma part_full i c : (i < N)%nat -> part i w c = part (S i) 0 c.
Proof.
  intros Hi. rewrite part_0, seq_S, filter_app. unfold part. rewrite take_ge by (by rewrite (length_row px i Hwf Hi)). f_equal.
  rewrite Nat.add_0_l, filter_cons, filter_nil. case_bool_decide; case_decide; done.
Qed.
Lemma part_next i j c c' : (i < N)%nat -> row px i !! j = Some c ->
  part i (S j) c' = if bool_decide (c' = c) then part i j c ++ [i] else part i j c'.
Proof.
  intros Hi Hc. unfold part. rewrite (take_S_r _ _ _ Hc). destruct (wf_row px Hwf i Hi) as [Hnd _].
  assert (c ∉ take j (row px i)) as Hn.
  { intros (k & Hk & Hkj)%elem_of_take. pose proof (NoDup_lookup _ _ _ _ Hnd Hk Hc). lia. }
  destruct (decide (c' = c)) as [->|E].
  - rewrite (bool_decide_true (c = c)) by done. rewrite bool_decide_true by (apply elem_of_app; right; by left).
    rewrite bool_decide_false by done. by rewrite app_nil_r.
  - rewrite (bool_decide_false (c' = c)) by done. f_equal. erewrite bool_decide_ext; [reflexivity|]. rewrite elem_of_app, list_elem_of_singleton. naive_solver.
Qed.
Lemma part_le i j c : (i < N)%nat -> (length (part i j c) <= length (rows_of px c))%nat.
Proof.
  intros Hi. unfold part, rows_of. replace N with (i + S (N - S i))%nat by lia. rewrite seq_app, filter_app, !length_app.
  cbn [seq]. rewrite Nat.add_0_l, filter_cons. case_bool_decide as Hin; cbn [length]; [|lia].
  rewrite decide_True by (apply elem_of_take in Hin as (k & Hk & _); by apply list_elem_of_lookup_2 in Hk). cbn [length]. lia.
Qed.
Lemma part_lt i j c : (i < N)%nat -> row px i !! j = Some c -> (length (part i j c) < length (rows_of px c))%nat.
Proof.
  intros Hi Hc. pose proof (part_le i (S j) c Hi) as Hle. rewrite (part_next i j c) in Hle by done.
  rewrite bool_decide_true, length_app in Hle by done. cbn in Hle. lia.
Qed.

(** One entry of a row. *)
Lemma place_entry i j c st :
  (i < N)%nat -> row px i !! j = Some c -> (c < sp)%nat -> placed i j st ->
  st.1 !! c = Some (start c, length (part i j c)) /\ (start c + length (part i j c) < N * w)%nat /\
  placed i (S j) (<[c := (start c, S (length (part i j c)))]> st.1, <[(start c + length (part i j c))%nat := i]> st.2).
Proof.
  intros Hi Hc Hcs (Hl1 & Hl2 & Hp). destruct (Hp c Hcs) as [Hcol Hbk]. pose proof (part_lt i j c Hi Hc) as Hlt.
  pose proof (start_bound c Hcs) as Hb. split; [done|]. split; [lia|]. unfold placed. cbn [fst snd].
  split; [by rewrite length_insert|]. split; [by rewrite length_insert|]. intros c' Hc'. rewrite (part_next i j c c' Hi Hc).
  destruct (decide (c' = c)) as [->|E]; [rewrite (bool_decide_true (c = c)) by done|rewrite (bool_decide_false (c' = c)) by done].
  - rewrite list_lookup_insert_eq by lia. split; [by rewrite length_app, Nat.add_1_r|]. intros k x Hk.
    apply lookup_snoc_Some in Hk as [[Hk Hx]|[-> ->]]; [|apply list_lookup_insert_eq; lia].
    rewrite list_lookup_insert_ne by lia. by apply Hbk.
  - rewrite list_lookup_insert_ne by done. destruct (Hp c' Hc') as [Hcol' Hbk']. split; [done|]. intros k x Hk.
    rewrite list_lookup_insert_ne; [by apply Hbk'|]. pose proof (lookup_lt_Some _ _ _ Hk). pose proof (part_le i j c' Hi).
    unfold start in *. destruct (decide (c < c')%nat).
    + pose proof (off_mono (fun c => length (rows_of px c)) c c' ltac:(lia)). cbn beta in *. lia.
    + pose proof (off_mono (fun c => length (rows_of px c)) c' c ltac:(lia)). cbn beta in *. lia.
Qed.

Lemma row_entry i j : (i < N)%nat -> (j < w)%nat -> exists c, row px i !! j = Some c /\ (c < sp)%nat /\ vget (rows_ px) (i * w + j) = Ok c.
Proof.
  intros Hi Hj. destruct (lookup_lt_is_Some_2 (row px i) j) as [c Hc]; [by rewrite (length_row px i Hwf Hi)|]. exists c. split; [done|].
  destruct (wf_row px Hwf i Hi) as [_ HF]. split; [exact (Forall_lookup_1 _ _ _ _ HF Hc)|]. apply vget_ok. by rewrite <- row_lookup.
Qed.

Lemma place_ok i st : (i < N)%nat -> placed i 0 st -> wp (place w (rows_ px) i st) (placed (S i) 0).
Proof.
  intros Hi Hp. unfold place. apply (wp_for _ _ (placed i)); [done| |].
  - intros j [cols backing] Hj Hpj. destruct (row_entry i j Hi Hj) as (c & Hc & Hcs & ->). run.
    destruct (place_entry i j c _ Hi Hc Hcs Hpj) as (Hcol & Hb & Hp'). destruct Hpj as (Hl1 & Hl2 & _). cbn [fst snd] in *.
    unfold grow. rewrite (proj2 (vget_ok _ _ _) Hcol). run. rewrite vset_total by lia. run. rewrite vset_total by lia. run. done.
  - intros st' (Hl1 & Hl2 & Hp'). split; [done|]. split; [done|]. intros c Hc. rewrite <- (part_full i c Hi). by apply Hp'.
Qed.

Lemma place3_ok i st : w = 3%nat -> (i < N)%nat -> placed i 0 st -> wp (place3 (rows_ px) i st) (placed (S i) 0).
Proof.
  intros Ew Hi Hp. destruct st as [cols backing]. destruct (wf_row px Hwf i Hi) as [Hnd _].
  destruct (row_entry i 0 Hi ltac:(lia)) as (c0 & Hc0 & Hs0 & E0). destruct (row_entry i 1 Hi ltac:(lia)) as (c1 & Hc1 & Hs1 & E1).
  destruct (row_entry i 2 Hi ltac:(lia)) as (c2 & Hc2 & Hs2 & E2). rewrite Ew in E0, E1, E2.
  assert (c0 <> c1 /\ c0 <> c2 /\ c1 <> c2) as (H01 & H02 & H12).
  { split; [|split]; intros ->; [pose proof (NoDup_lookup _ _ _ _ Hnd Hc0 Hc1)|pose proof (NoDup_lookup _ _ _ _ Hnd Hc0 Hc2)|pose proof (NoDup_lookup _ _ _ _ Hnd Hc1 Hc2)]; lia. }
  destruct (place_entry i 0 c0 _ Hi Hc0 Hs0 Hp) as (L0 & B0 & Hp1). destruct (place_entry i 1 c1 _ Hi Hc1 Hs1 Hp1) as (L1 & B1 & Hp2).
  destruct (place_entry i 2 c2 _ Hi Hc2 Hs2 Hp2) as (L2 & B2 & Hp3). destruct Hp as (Hl1 & Hl2 & _). cbn [fst snd] in *.
  rewrite list_lookup_insert_ne in L1 by done. rewrite !list_lookup_insert_ne in L2 by done.
  unfold place3. rewrite E0, E1, E2. run.
  rewrite (proj2 (vget_ok _ _ _) L0), (proj2 (vget_ok _ _ _) L1), (proj2 (vget_ok _ _ _) L2). run.
  repeat (rewrite vset_total by (rewrite ?length_insert; lia); run).
  destruct Hp3 as (G1 & G2 & G3). split; [done|]. split; [done|]. intros c Hc. rewrite <- (part_full i c Hi), Ew. by apply G3.
Qed.

Lemma RebuildColumns_ok :
  length (col_backing_ px) = (N * w)%nat ->
  wp (RebuildColumns (tallies sp (rows_ px)) (w * N) px) (fun px' =>
    exists cols backing, px' = mkPaxos (param px) N (dense_ px) (rows_ px) cols backing (weight_sets_ px) (add_to_decode_ px) /\ wf_cols px').
Proof.
  intros Hb. unfold RebuildColumns. rewrite (bool_decide_true (length (col_backing_ px) = _)) by lia. run. rewrite column_spans_ok. run. rewrite Hb, Z.eqb_refl. run.
  apply wp_bind. apply (wp_for _ _ (fun i => placed i 0)).
  - unfold placed. cbn [fst snd]. split; [by rewrite length_tabulate|]. split; [done|]. intros c Hc. rewrite part_0. cbn [seq]. split; [|done].
    unfold tabulate. by rewrite lookup_map, lookup_seq_lt.
  - intros i st Hi Hp. case_bool_decide; [by apply place3_ok|by apply place_ok].
  - intros [cols backing] (Hl1 & Hl2 & Hp). cbn [fst snd] in *. run. exists cols, backing. split; [done|]. split; [done|].
    cbn [param]. intros c Hc. destruct (Hp c Hc) as [Hcol Hbk]. rewrite part_0 in Hcol, Hbk. fold (rows_of px c) in Hcol, Hbk.
    change (rows_of (mkPaxos _ _ _ _ _ _ _ _) c) with (rows_of px c). unfold column_rows. cbn [cols_ col_backing_].
    rewrite (proj2 (vget_ok _ _ _) Hcol). run. rewrite (for_push _ _ (fun k => rows_of px c !!! k)).
    + rewrite app_nil_l. f_equal. apply list_eq_total; [by rewrite length_tabulate|]. intros k Hk. rewrite length_tabulate in Hk.
      by rewrite tabulate_lookup.
    + intros k Hk. apply vget_ok. apply Hbk. by apply list_lookup_lookup_total_lt.
Qed.
End columns.

(** ** The rows of the keys *)
Section keys.
Context `{SymmetricCrypto} `{LibdivideLaws} (avx : bool) (idx : Z) (Hidx : 0 <= idx <= 64).

(** What [BuildRow] writes for a hash. *)
Definition hash_row (h : PaxosHash) (x : Z) : list Z :=
  match BuildRow avx idx h x (replicate (PaxosHash.weight h) 0) with Ok r => r | _ => [] end.
Definition key_row (p : PaxosParam) (x : Z) : list nat := map Z.to_nat (hash_row (hasher_ p) (AesCrHash_Hash1 x)).

Section params.
Context (p : PaxosParam).
Abbreviation w := (Paxos.weight p).
Abbreviation sp := (Paxos.sparse_size p).
Abbreviation h := (hasher_ p).
Context (Hw : (w <= sp)%nat) (Hsp : Z.of_nat sp < 2 ^ idx) (Hsp63 : Z.of_nat sp < 2 ^ 63).

Lemma hash_row_ok x : BuildRow avx idx h x (replicate w 0) = Ok (hash_row h x) /\ valid_row w (Z.of_nat sp) (hash_row h x).
Proof.
  pose proof (BuildRow_spec idx Hidx avx h x (replicate w 0)) as Hb. cbn [hasher_ PaxosHash.init PaxosHash.sparse_size PaxosHash.weight] in Hb.
  specialize (Hb ltac:(lia) ltac:(lia) (length_replicate _ _)). apply wp_iff in Hb as (r & E & Hr). unfold hash_row.
  change (PaxosHash.weight h) with w. rewrite E. done.
Qed.

(** The buffer a row is written to does not matter. *)
Definition agree (j : nat) (r r' : list Z) : Prop := forall a, (a < j)%nat -> r !!! a = r' !!! a.

Lemma scan_agree j r r' : agree j r r' -> (j <= length r)%nat -> length r = length r' -> forall fuel iter c,
  (iter + fuel = j)%nat -> scan fuel iter j r c = scan fuel iter j r' c.
Proof.
  intros Ha Hj Hl. induction fuel as [|fuel IH]; intros iter c Hi; [done|]. cbn [scan]. case_bool_decide; [done|].
  rewrite !vget_total by lia. run. rewrite (Ha iter) by lia. destruct (_ <=? c); [|done]. apply IH. lia.
Qed.

Lemma build_cols_agree x buf buf' n : length buf = w -> length buf' = w -> (n <= w)%nat ->
  exists hh r r', for_ n (build_col avx idx h) (x, buf) = Ok (hh, r) /\ for_ n (build_col avx idx h) (x, buf') = Ok (hh, r') /\
    row_inv (Z.of_nat sp) w n r /\ row_inv (Z.of_nat sp) w n r' /\ agree n r r'.
Proof.
  intros Hl Hl'. induction n as [|n IH]; intros Hn.
  { exists x, buf, buf'. split; [done|]. split; [done|]. split; [|split; [|intros a Ha; lia]]; (split; [done|]; split; [intros a b ?; lia|intros a ?; lia]). }
  destruct (IH ltac:(lia)) as (hh & r & r' & E & E' & Hi & Hi' & Ha). rewrite !for_S, E, E'. run.
  pose proof Hi as (Hlr & Hasc & Hr). pose proof Hi' as (Hlr' & _ & _).
  pose proof (build_col_spec idx Hidx avx h n hh r) as Hb. pose proof (build_col_spec idx Hidx avx h n hh r') as Hb'.
  change (PaxosHash.sparse_size h) with (Z.of_nat sp) in Hb, Hb'. change (PaxosHash.weight h) with w in Hb, Hb'.
  specialize (Hb ltac:(lia) ltac:(lia) ltac:(lia) Hi). specialize (Hb' ltac:(lia) ltac:(lia) ltac:(lia) Hi').
  assert (exists hh2 r2 r2', build_col avx idx h n (hh, r) = Ok (hh2, r2) /\ build_col avx idx h n (hh, r') = Ok (hh2, r2') /\ agree (S n) r2 r2')
    as (hh2 & r2 & r2' & E2 & E2' & Ha2).
  2:{ rewrite E2 in Hb. rewrite E2' in Hb'. exists hh2, r2, r2'. done. }
  unfold build_col in *. change (PaxosHash.sparse_size h) with (Z.of_nat sp) in *. rewrite (u64_small (Z.of_nat sp - Z.of_nat n)) in * by lia.
  rewrite (proj2 (Z.eqb_neq _ 0)) in * by lia. cbn [negb] in *. run.
  set (hv := Mul avx hh hh) in *. pose proof (Z.mod_pos_bound (u64 hv) (Z.of_nat sp - Z.of_nat n) ltac:(lia)) as Hc.
  rewrite <- (scan_agree n r r' Ha ltac:(lia) ltac:(lia) n 0 _ ltac:(lia)).
  pose proof (scan_spec (Z.of_nat sp) n r n 0 (u64 hv mod (Z.of_nat sp - Z.of_nat n)) ltac:(lia) ltac:(lia) ltac:(lia)) as Hs.
  specialize (Hs ltac:(lia) Hasc ltac:(intros; lia) ltac:(lia)). apply wp_iff in Hs as ([p0 c0] & Es & Hp & _). rewrite Es. run.
  pose proof (shift_up_spec p0 n n r ltac:(lia) ltac:(lia)) as Hsu. apply wp_iff in Hsu as (s1 & -> & Hs1 & Hsh1).
  pose proof (shift_up_spec p0 n n r' ltac:(lia) ltac:(lia)) as Hsu'. apply wp_iff in Hsu' as (s2 & -> & Hs2 & Hsh2). run.
  rewrite !vset_total by lia. run. eexists _, _, _. split; [done|]. split; [done|]. intros a Han. destruct (decide (a = p0)) as [->|Hne].
  - by rewrite !list_lookup_total_insert_eq by lia.
  - rewrite !list_lookup_total_insert_ne by done. rewrite Hsh1, Hsh2. case_bool_decide; apply Ha; lia.
Qed.

Lemma hash_row_any x buf : length buf = w -> BuildRow avx idx h x buf = Ok (hash_row h x).
Proof.
  intros Hl. rewrite <- (proj1 (hash_row_ok x)). unfold BuildRow. change (PaxosHash.weight h) with w. case_bool_decide as H3.
  - rewrite !(BuildRow3_row3 idx Hidx h) by (cbn [hasher_ PaxosHash.init PaxosHash.sparse_size]; rewrite ?length_replicate; lia). done.
  - destruct (build_cols_agree x buf (replicate w 0) w Hl (length_replicate _ _) ltac:(lia)) as (hh & r & r' & -> & -> & (Hr & _) & (Hr' & _) & Ha).
    run. f_equal. apply list_eq_total; [lia|]. intros a Hlt. apply Ha. lia.
Qed.

Lemma BuildRow32_scalar_rows hash buf :
  length hash = 32%nat -> length buf = (32 * w)%nat -> BuildRow32_scalar avx idx h hash buf = Ok (concat (map (hash_row h) hash)).
Proof.
  intros Hl Hbl. unfold BuildRow32_scalar. change (PaxosHash.weight h) with w.
  enough (wp (for_ 32 (fun k rows => x ← vget hash k; row ← BuildRow avx idx h x (take w (drop (k * w) rows));
    Ok (take (k * w) rows ++ row ++ drop (k * w + w) rows)) buf) (fun r => r = concat (map (hash_row h) hash))) as Hwp.
  { apply wp_iff in Hwp as (r & E & ->). exact E. }
  assert (forall k, (k <= 32)%nat -> length (concat (map (hash_row h) (take k hash))) = (k * w)%nat) as Hlen.
  { intros k Hk. rewrite <- (length_take_le hash k) at 2 by lia. induction (take k hash) as [|x l IH]; [done|]. cbn [map concat length].
    rewrite length_app, IH. destruct (hash_row_ok x) as [_ [-> _]]. lia. }
  apply (wp_for _ _ (fun k r => r = concat (map (hash_row h) (take k hash)) ++ drop (k * w) buf)).
  - done.
  - intros k r Hk ->. destruct (lookup_lt_is_Some_2 hash k ltac:(lia)) as [x Hx]. rewrite (proj2 (vget_ok _ _ _) Hx). run.
    pose proof (Hlen k ltac:(lia)) as Hlk. rewrite (drop_app_length' _ _ (k * w)), (take_app_length' _ _ (k * w)) by lia.
    assert (S k * w <= 32 * w)%nat as HSk by (apply Nat.mul_le_mono_r; lia). rewrite Nat.mul_succ_l in HSk.
    rewrite hash_row_any by (rewrite length_take, length_drop; lia). run.
    rewrite (take_S_r _ _ _ Hx), map_app, concat_app, <- !app_assoc. cbn [map concat].
    rewrite app_nil_r. do 2 f_equal. rewrite drop_app_ge by lia. rewrite Hlk, drop_drop. f_equal. lia.
  - intros r ->. rewrite take_ge by lia. rewrite drop_ge by lia. by rewrite app_nil_r.
Qed.

Lemma BuildRow32_rows hash buf :
  length hash = 32%nat -> length buf = (32 * w)%nat -> BuildRow32 avx idx h hash buf = Ok (concat (map (hash_row h) hash)).
Proof.
  intros Hl Hbl. rewrite <- (BuildRow32_scalar_rows hash buf) by done. unfold BuildRow32. change (PaxosHash.weight h) with w.
  case_bool_decide as H3; [|done]. destruct avx eqn:Ea; [|done]. cbn [andb].
  unfold hasher_. rewrite H3 in *. change (Z.of_nat 3) with 3 in *.
  pose proof (BuildRow32_avx_rows3 idx Hidx (Z.of_nat sp) hash buf ltac:(lia) Hsp ltac:(lia) Hbl) as Ha.
  pose proof (BuildRow32_scalar_rows3 idx Hidx true (Z.of_nat sp) hash buf ltac:(lia) ltac:(lia) Hbl) as Hb.
  apply wp_iff in Ha as (r & -> & Hr). apply wp_iff in Hb as (r' & -> & Hr'). f_equal. by eapply rows3_unique.
Qed.

Lemma HashBuildRow32_ok xs buf hbuf : length xs = 32%nat -> length buf = (32 * w)%nat -> length hbuf = 32%nat ->
  HashBuildRow32 avx idx h xs buf hbuf
    = Ok (concat (map (fun x => hash_row h (AesCrHash_Hash1 x)) xs), map AesCrHash_Hash1 xs).
Proof.
  intros Hl Hbl Hhl. unfold HashBuildRow32. rewrite (bool_decide_true (length xs = 32%nat)) by done. run. change (PaxosHash.weight h) with w.
  rewrite bool_decide_true by done. run. rewrite AesCrHash_Hash_map by (by rewrite Hl). run.
  rewrite BuildRow32_rows by (by rewrite ?length_map). run. by rewrite map_map.
Qed.

Lemma HashBuildRow1_ok x buf : length buf = w ->
  HashBuildRow1 avx idx h x buf = Ok (hash_row h (AesCrHash_Hash1 x), AesCrHash_Hash1 x).
Proof.
  intros Hl. unfold HashBuildRow1. rewrite bool_decide_true by done. run. rewrite AesCrHash_Hash_map by done. run.
  change (vget (map AesCrHash_Hash1 [x]) 0) with (Ok (AesCrHash_Hash1 x)). run. by rewrite hash_row_any.
Qed.

Lemma key_row_ok x : length (key_row p x) = w /\ NoDup (key_row p x) /\ Forall (fun c => (c < sp)%nat) (key_row p x).
Proof.
  destruct (hash_row_ok (AesCrHash_Hash1 x)) as [_ (Hl & Hnd & HF)]. unfold key_row. split; [by rewrite length_map|]. split.
  - clear Hl. induction Hnd as [|y l Hy Hnd IH]; [constructor|]. apply Forall_cons in HF as [Hy0 HF]. cbn [map]. apply NoDup_cons_2.
    + intros (z & Ez & Hz)%list_elem_of_fmap. pose proof (proj1 (Forall_forall _ _) HF z Hz) as Hz0. cbn beta in *. assert (y = z) as -> by lia. done.
    + by apply IH.
  - apply Forall_fmap. eapply Forall_impl; [exact HF|]. cbn. lia.
Qed.

Definition key_rows (xs : list Z) : list nat := concat (map (key_row p) xs).
(** How many keys have a column. *)
Definition column_weight (xs : list Z) (c : nat) : nat := length (filter (fun x => c ∈ key_row p x) xs).

Lemma key_rows_app xs ys : key_rows (xs ++ ys) = key_rows xs ++ key_rows ys.
Proof. unfold key_rows. by rewrite map_app, concat_app. Qed.
Lemma length_key_rows xs : length (key_rows xs) = (length xs * w)%nat.
Proof.
  induction xs as [|x xs IH]; [done|]. unfold key_rows in *. cbn [map concat length]. rewrite length_app, IH.
  destruct (key_row_ok x) as [-> _]. lia.
Qed.
Lemma occ_key_rows c xs : occ c (key_rows xs) = column_weight xs c.
Proof.
  induction xs as [|x xs IH]; [done|]. unfold key_rows, column_weight in *. cbn [map concat]. rewrite occ_list_app, IH, filter_cons.
  destruct (key_row_ok x) as (_ & Hnd & _). rewrite occ_NoDup by done. case_bool_decide; case_decide; done.
Qed.
Lemma key_rows_below xs : Forall (fun c => (c < sp)%nat) (key_rows xs).
Proof.
  induction xs as [|x xs IH]; [constructor|]. unfold key_rows. cbn [map concat]. apply Forall_app_2; [apply key_row_ok|exact IH].
Qed.
Lemma key_rows_lookup xs i x : xs !! i = Some x -> take w (drop (i * w) (key_rows xs)) = key_row p x.
Proof.
  intros Hx. destruct (list_elem_of_split_length _ _ _ Hx) as (l1 & l2 & -> & ->). rewrite key_rows_app.
  rewrite drop_app_length' by (by rewrite length_key_rows). unfold key_rows. cbn [map concat]. apply take_app_length'.
  by destruct (key_row_ok x) as [-> _].
Qed.

(** The state of the hashing loops after some keys. *)
Definition hashed (xs : list Z) : list nat * list Z * list Z := (key_rows xs, map AesCrHash_Hash1 xs, tallies sp (key_rows xs)).

Lemma count_key_rows xs ys zs : Z.of_nat (length (xs ++ ys)) < 2 ^ idx -> zs = key_rows ys ->
  count_cols idx zs (tallies sp (key_rows xs)) = Ok (tallies sp (key_rows (xs ++ ys))).
Proof.
  intros Hb ->. rewrite (count_cols_tallies idx sp (key_rows ys) (key_rows xs)); [by rewrite key_rows_app|apply key_rows_below|].
  intros c. rewrite <- key_rows_app, occ_key_rows. unfold column_weight.
  pose proof (length_filter (fun x => c ∈ key_row p x) (xs ++ ys)). lia.
Qed.

Lemma hash_rows_ok xs : Z.of_nat (length xs) < 2 ^ idx ->
  hash_rows avx idx p (length xs) xs ([], [], replicate sp 0) = Ok (hashed xs).
Proof.
  intros Hb. set (b := (length xs / 32)%nat). pose proof (Nat.div_mod_eq (length xs) 32) as Hd. fold b in Hd.
  enough (wp (hash_rows avx idx p (length xs) xs ([], [], replicate sp 0)) (fun st => st = hashed xs)) as Hwp.
  { by apply wp_iff in Hwp as (st & -> & ->). }
  assert (([], [], replicate sp 0) = hashed []) as -> by (unfold hashed; by rewrite tallies_nil). unfold hash_rows. fold b.
  apply wp_bind. apply (wp_for _ _ (fun k st => st = hashed (take (k * 32) xs))); [done| |].
  - intros k st Hk ->. set (ys := take 32 (drop (k * 32) xs)).
    assert (length ys = 32%nat) as Hys by (subst ys; rewrite length_take, length_drop; lia).
    assert (take (S k * 32) xs = take (k * 32) xs ++ ys) as E by (subst ys; rewrite take_take_drop; f_equal; lia).
    unfold hashed at 1. rewrite HashBuildRow32_ok by (done || apply length_replicate). run.
    assert (map Z.to_nat (concat (map (fun x => hash_row h (AesCrHash_Hash1 x)) ys)) = key_rows ys) as ->.
    { unfold key_rows. rewrite concat_map, map_map. done. }
    rewrite (count_key_rows _ ys) by (rewrite <- ?E, ?length_take; done || lia). run. unfold hashed. by rewrite E, key_rows_app, map_app.
  - intros st ->. apply (wp_for (length xs - b * 32) _ (fun k st => st = hashed (take (b * 32 + k) xs))); [by rewrite Nat.add_0_r| |].
    + intros k st Hk ->. destruct (lookup_lt_is_Some_2 xs (b * 32 + k) ltac:(lia)) as [x Hx]. unfold hashed at 1.
      rewrite (proj2 (vget_ok _ _ _) Hx). run. rewrite HashBuildRow1_ok by apply length_replicate. run. replace (b * 32 + S k)%nat with (S (b * 32 + k)) by lia.
      pose proof (take_S_r _ _ _ Hx) as E.
      assert (key_rows [x] = map Z.to_nat (hash_row h (AesCrHash_Hash1 x))) as Ex by (unfold key_rows; cbn [map concat]; by rewrite app_nil_r).
      rewrite (count_key_rows _ [x]).
      * run. unfold hashed. by rewrite E, key_rows_app, map_app, Ex.
      * rewrite <- E, length_take. lia.
      * done.
    + intros st ->. rewrite take_ge by lia. done.
Qed.

(** *** The whole of [SetInput] *)

(** A matrix that holds the rows of some keys, ready to be triangulated. *)
Definition holds (xs : list Z) (px : Paxos) : Prop :=
  param px = p /\ num_items_ px = length xs /\ dense_ px = map AesCrHash_Hash1 xs /\
  (forall i x, xs !! i = Some x -> row px i = key_row p x) /\ wf_rows px /\ wf_cols px.

Lemma keys_wf_rows xs px :
  param px = p -> num_items_ px = length xs -> dense_ px = map AesCrHash_Hash1 xs -> rows_ px = key_rows xs ->
  wf_rows px /\ forall i x, xs !! i = Some x -> row px i = key_row p x.
Proof.
  intros Hp Hn Hd Hr. assert (forall i x, xs !! i = Some x -> row px i = key_row p x) as Hrow.
  { intros i x Hx. unfold row. rewrite Hr, Hp. by apply key_rows_lookup. }
  split; [|done]. constructor.
  - by rewrite Hr, Hp, Hn, length_key_rows.
  - by rewrite Hd, Hn, length_map.
  - intros i Hi. rewrite Hn in Hi. destruct (lookup_lt_is_Some_2 xs i Hi) as [x Hx]. rewrite (Hrow i x Hx), Hp. apply key_row_ok.
Qed.

(** The columns and the weights of rows that are set. *)
Lemma rebuild_ok xs px1 :
  param px1 = p -> num_items_ px1 = length xs -> dense_ px1 = map AesCrHash_Hash1 xs -> rows_ px1 = key_rows xs ->
  length (col_backing_ px1) = (length xs * w)%nat -> Z.of_nat (length xs) < 2 ^ idx -> (0 < sp)%nat ->
  (forall c, (column_weight xs c < 200)%nat) ->
  node_alloc_size (weight_sets_ px1) = Z.of_nat (length (nodes (weight_sets_ px1))) -> (length (nodes (weight_sets_ px1)) <= sp)%nat ->
  wp (px ← RebuildColumns (tallies sp (key_rows xs)) (w * length xs) px1;
      ws ← WeightData.init idx (tallies sp (key_rows xs)) (weight_sets_ px);
      Ok (with_sets ws px)) (fun px' => holds xs px' /\ ready idx px' /\ add_to_decode_ px' = add_to_decode_ px1).
Proof.
  intros Hp Hn Hd Hr Hcb Hb Hsp0 Hlight Ha Hln. destruct (keys_wf_rows xs px1 Hp Hn Hd Hr) as [Hwf1 Hrow1].
  pose proof (RebuildColumns_ok px1 Hwf1) as Hrb. rewrite Hp, Hn, Hr in Hrb. specialize (Hrb ltac:(by rewrite Hcb)).
  apply wp_bind. eapply wp_mono; [exact Hrb|]. cbn beta. intros px2 (cols & backing & E2 & Hc2).
  rewrite Hd in E2.
  assert (wf_rows px2 /\ forall i x, xs !! i = Some x -> row px2 i = key_row p x) as [Hwf2 Hrow2] by (subst px2; by apply keys_wf_rows).
  assert (forall c, length (rows_of px2 c) = column_weight xs c) as Hwt.
  { intros c. rewrite <- (occ_column px2 Hwf2). rewrite <- occ_key_rows. by subst px2. }
  assert (map (fun c : nat * nat => wrap idx (Z.of_nat c.2)) (cols_ px2) = tallies sp (key_rows xs)) as Etal.
  { destruct Hc2 as [Hcl Hcc]. assert (Paxos.sparse_size (param px2) = sp) as Esp by (by subst px2). rewrite Esp in Hcl, Hcc.
    apply list_eq_total; [unfold tallies; by rewrite length_map, length_tabulate|]. intros c Hc. rewrite length_map, Hcl in Hc.
    unfold tallies. rewrite tabulate_lookup, occ_key_rows, <- Hwt, (lookup_total_map_lt _ (cols_ px2)) by lia.
    specialize (Hcc c Hc). unfold column_rows in Hcc. rewrite vget_total in Hcc by lia. cbn [mbind res_bind] in Hcc.
    destruct (cols_ px2 !!! c) as [o l]. cbn [snd]. apply (for_ok _ _ (fun k r => length r = k)) in Hcc; [|done|].
    - rewrite <- Hcc, Hwt. apply wrap_small. split; [lia|]. pose proof (length_filter (fun x => c ∈ key_row p x) xs). unfold column_weight. lia.
    - intros i r r' Hi Hlr Hok. apply bind_ok in Hok as (y & _ & [= <-]). rewrite length_app, Hlr. cbn. lia. }
  rewrite <- Etal. apply wp_bind. assert (weight_sets_ px2 = weight_sets_ px1) as Ews by (by subst px2).
  eapply wp_mono; [apply (weigh_columns idx ltac:(lia) px2)|].
  - done.
  - intros c. by rewrite Hwt.
  - by subst px2.
  - by subst px2.
  - by subst px2.
  - by rewrite Ews.
  - by subst px2.
  - intros ws [Hwe Hal]. run. split; [|split; [|by subst px2]].
    + subst px2. do 3 (split; [done|]). split; [exact Hrow2|]. split; [|exact Hc2]. by apply (keys_wf_rows xs).
    + assert (param px2 = p) as Ep by (by subst px2). destruct Hwe as (m & Hm & Hnl & Hmc). rewrite Ep in Hnl, Hmc.
      split; [intros c; change (rows_of (with_sets ws px2) c) with (rows_of px2 c); by rewrite Hwt|]. split; [exact Hal|].
      split; [cbn [with_sets weight_sets_ param]; rewrite Ep; lia|]. left. exists m. split; [exact Hm|].
      split; [cbn [with_sets weight_sets_ param]; by rewrite Ep|]. intros c. cbn [with_sets param]. rewrite Ep. apply Hmc.
Qed.

Lemma SetInput_ok xs px :
  param px = p -> num_items_ px = length xs -> Z.of_nat (length xs) < 2 ^ idx -> (0 < sp)%nat ->
  (forall c, (column_weight xs c < 200)%nat) ->
  node_alloc_size (weight_sets_ px) = Z.of_nat (length (nodes (weight_sets_ px))) -> (length (nodes (weight_sets_ px)) <= sp)%nat ->
  wp (SetInput avx idx xs px) (fun px' => holds xs px' /\ ready idx px' /\ add_to_decode_ px' = add_to_decode_ px).
Proof.
  intros Hp Hn Hb Hsp0 Hlight Ha Hln. unfold SetInput. rewrite Hp, bool_decide_true by lia. run.
  rewrite Hn, hash_rows_ok by done. unfold hashed. run.
  set (px1 := mkPaxos p (length xs) _ _ _ _ _ _). apply (rebuild_ok xs px1); try done. apply length_resize.
Qed.

(** The overload for rows that are hashed already. *)
Lemma SetInput_rows_ok xs cb px :
  param px = p -> num_items_ px = length xs -> length cb = (length xs * w)%nat -> Z.of_nat (length xs) < 2 ^ idx -> (0 < sp)%nat ->
  (forall c, (column_weight xs c < 200)%nat) ->
  node_alloc_size (weight_sets_ px) = Z.of_nat (length (nodes (weight_sets_ px))) -> (length (nodes (weight_sets_ px)) <= sp)%nat ->
  wp (SetInput_rows idx (key_rows xs) (map AesCrHash_Hash1 xs) cb (tallies sp (key_rows xs)) px)
    (fun px' => holds xs px' /\ ready idx px' /\ add_to_decode_ px' = add_to_decode_ px).
Proof.
  intros Hp Hn Hcb Hb Hsp0 Hlight Ha Hln. unfold SetInput_rows. rewrite Hp, Hn, length_key_rows, length_map.
  rewrite !bool_decide_true by (done || unfold tallies; by rewrite length_tabulate). run.
  set (px1 := mkPaxos p (length xs) _ _ _ _ _ _). by apply (rebuild_ok xs px1).
Qed.
End params.
End keys.

(** C16.  The PaXoS matrix is built and triangulated: for distinct hashes of keys,
    parameters that leave room for them and column weights below 200,
    [SetInput] and then [Triangulate] return; the rows are those of the keys, the
    columns list the rows that contain them, every row is ordered exactly once,
    as a main row or as a gap row, main row [k] contains main column [k] and none
    of the columns before it, and a gap row is paired with a main row of the same
    column and a different dense part.  The only exception is for two keys with
    the same dense part. *)
Theorem SetInput_Triangulate_correct `{SymmetricCrypto} `{LibdivideLaws} avx idx p xs px :
  0 <= idx <= 64 -> (0 < Paxos.weight p <= Paxos.sparse_size p)%nat -> (length xs + 2 <= Paxos.sparse_size p)%nat ->
  Z.of_nat (Paxos.sparse_size p) < 2 ^ idx -> Z.of_nat (Paxos.sparse_size p) < 2 ^ 63 ->
  (forall c, (column_weight avx idx p xs c < 200)%nat) ->
  param px = p -> num_items_ px = length xs ->
  node_alloc_size (weight_sets_ px) = Z.of_nat (length (nodes (weight_sets_ px))) ->
  (length (nodes (weight_sets_ px)) <= Paxos.sparse_size p)%nat ->
  outcome (~ NoDup (map AesCrHash_Hash1 xs)) (px ← SetInput avx idx xs px; Triangulate idx px) (fun '(px', t) =>
    holds avx idx p xs px' /\ triangular px' t).
Proof.
  intros Hidx Hw Hn Hsp Hsp63 Hlight Hp Hnx Ha Hln. apply outcome_bind, wp_outcome.
  eapply wp_mono; [apply (SetInput_ok avx idx Hidx p); try done; lia|]. intros px1 (Hh & Hr & _).
  destruct Hh as (Hp1 & Hn1 & Hd1 & Hrow1 & Hwf1 & Hc1). rewrite <- Hd1. eapply outcome_mono.
  - apply Triangulate_triangular; rewrite ?Hp1, ?Hn1; try done; lia.
  - intros [px' t] [-> Ht]. split; [|by destruct Ht]. unfold holds. do 3 (split; [done|]). split; [exact Hrow1|].
    split; [by destruct Hwf1|exact Hc1].
Qed.

(** ** Witness: five keys, a toy permutation, plain division *)
Definition toy_crypto : SymmetricCrypto := Build_SymmetricCrypto (fun x => u128 (x * 0x9E3779B97F4A7C15F39CC0605CEDC835 + 0x1234567)).
Definition toy_param : PaxosParam := mkParam 12 3 3 3 40 GF128.
Definition toy_keys : list Z := [11; 22; 33; 44; 55].
Definition toy_run : res (Paxos * Tri) :=
  px ← @SetInput toy_crypto plain_libdivide true 16 toy_keys (Paxos_default toy_param 5); Triangulate 16 px.

Lemma SetInput_Triangulate_correct_witness :
  is_ok toy_run = true /\ bool_decide (NoDup (map (@AesCrHash_Hash1 toy_crypto) toy_keys)) = true /\
  outcome (~ NoDup (map (@AesCrHash_Hash1 toy_crypto) toy_keys)) toy_run (fun '(px', t) =>
    @holds toy_crypto plain_libdivide true 16 toy_param toy_keys px' /\ triangular px' t).
Proof.
  split; [vm_compute; reflexivity|]. split; [vm_compute; reflexivity|].
  apply (@SetInput_Triangulate_correct toy_crypto plain_libdivide plain_libdivide_laws true 16 toy_param toy_keys (Paxos_default toy_param 5));
    try (cbn; lia); try reflexivity.
  intros c. unfold column_weight. eapply Nat.le_lt_trans; [apply length_filter|]. cbn. lia.
Defined.
