(* ===== verification/PaxosEncode.v ===== *)
(** * PaXoS: encoding and decoding (psi/algorithm/rr22/okvs/paxos)

    [Encode] triangulates the matrix and solves it for the values; [Decode]
    multiplies the row of a key with the solution.  Elements of a value vector
    are words of [vw] bits: 128 for [PxVector] and 64 for [PxVectorU64]. *)
From S2P Require Import Prelude Galois PaxosHash WeightData DenseMtx Combination Paxos.

(** A [yacl::crypto::Prg]: a stream of blocks and how many are drawn. *)
Record Prng := mkPrng { stream : nat -> Z; drawn : nat }.
Definition Randomize (vw : Z) (prng : Prng) : Z * Prng :=
  (wrap vw (stream prng (drawn prng)), mkPrng (stream prng) (S (drawn prng))).

(** ** The elements of a vector *)
Definition Add (dst src : Z) : Z := Z.lxor dst src.
Definition MultAdd (avx : bool) (vw : Z) (dst src m : Z) : Z := Z.lxor dst (wrap vw (Mul avx src m)).
Definition zeroOneMask (vw : Z) (bit : nat) : Z := if bool_decide (bit = 0%nat) then 0 else 2 ^ vw - 1.
Definition MultAdd_bit (vw : Z) (dst src : Z) (bit : nat) : res Z :=
  _ ← enforce (bool_decide (bit < 2)%nat); Ok (Z.lxor dst (Z.land src (zeroOneMask vw bit))).

(** *** [std::set<IdxType, std::greater>]: its elements in order *)
Fixpoint set_insert (x : Z) (l : list Z) : list Z :=
  match l with
  | [] => [x]
  | y :: l' => if y <? x then x :: l else if y =? x then l else y :: set_insert x l'
  end.
Fixpoint set_erase (x : Z) (l : list Z) : list Z :=
  match l with
  | [] => []
  | y :: l' => if y =? x then l' else y :: set_erase x l'
  end.
Definition set_toggle (x : Z) (l : list Z) : list Z :=
  if bool_decide (x ∈ l) then set_erase x l else set_insert x l.

(** ** Matrices over GF(2^128) *)

(** [std::vector<uint128_t>(row_size, col_size)] has [row_size] elements. *)
Definition new_matrix (row_size col_size : nat) : list Z := replicate row_size (Z.of_nat col_size).

Definition swap_at (i j : nat) (v : list Z) : res (list Z) :=
  x ← vget v i; y ← vget v j; v ← vset v i y; vset v j x.

(** The rows below [i] are searched for a one in column [i]. *)
Fixpoint swap_pivot (fuel j n i : nat) (s : list Z * list Z) : res (list Z * list Z) :=
  match fuel with
  | O => Ok s
  | S fuel' =>
      x ← vget s.1 (j * n + i);
      if x =? 1 then
        for_ n (fun k '(mtx, inv) =>
          mtx ← swap_at (i * n + k) (j * n + k) mtx; inv ← swap_at (i * n + k) (j * n + k) inv; Ok (mtx, inv)) s
      else swap_pivot fuel' (S j) n i s
  end.

Definition scale_row (avx : bool) (n i : nat) (c : Z) (s : list Z * list Z) : res (list Z * list Z) :=
  for_ n (fun j '(mtx, inv) =>
    x ← vget mtx (i * n + j); mtx ← vset mtx (i * n + j) (Mul avx c x);
    y ← vget inv (i * n + j); inv ← vset inv (i * n + j) (Mul avx c y);
    Ok (mtx, inv)) s.

Definition cancel_rows (avx : bool) (n i : nat) (s : list Z * list Z) : res (list Z * list Z) :=
  for_ n (fun j '(mtx, inv) =>
    if bool_decide (j = i) then Ok (mtx, inv)
    else
      mtx_ji ← vget mtx (j * n + i);
      for_ n (fun k '(mtx, inv) =>
        x ← vget mtx (j * n + k); y ← vget mtx (i * n + k); mtx ← vset mtx (j * n + k) (Z.lxor x (Mul avx mtx_ji y));
        x ← vget inv (j * n + k); y ← vget inv (i * n + k); inv ← vset inv (j * n + k) (Z.lxor x (Mul avx mtx_ji y));
        Ok (mtx, inv)) (mtx, inv)) s.

(** A turn for row [i]; [None] when there is no pivot. *)
Definition inv_turn (avx : bool) (n i : nat) (s : list Z * list Z) : res (option (list Z * list Z)) :=
  x ← vget s.1 (i * n + i);
  s ← (if x =? 0 then swap_pivot (n - S i) (S i) n i s else Ok s);
  x ← vget s.1 (i * n + i);
  if x =? 0 then Ok None
  else c ← Inv avx x; s ← scale_row avx n i c s; s ← cancel_rows avx n i s; Ok (Some s).

Definition MatrixGf128Inv (avx : bool) (mtx : list Z) (row_size col_size : nat) : res (list Z) :=
  _ ← enforce (bool_decide (row_size = col_size));
  inv ← for_ row_size (fun i inv => vset inv (i * row_size + i) 1) (new_matrix row_size col_size);
  s ← for_ row_size (fun i s => match s with Some s => inv_turn avx row_size i s | None => Ok None end) (Some (mtx, inv));
  Ok (match s with Some s => s.2 | None => [] end).

Definition MatrixGf128Mul (avx : bool) (m0 m1 : list Z) (row_size col_size : nat) : res (list Z) :=
  _ ← enforce (bool_decide (row_size = col_size));
  for_ row_size (fun i ret => for_ col_size (fun j ret => for_ col_size (fun k ret =>
    v ← vget ret (i * row_size + j);
    a ← vget m0 (i * row_size + k); b ← vget m1 (k * row_size + j);
    vset ret (i * row_size + j) (Z.lxor v (Mul avx a b))) ret) ret) (new_matrix row_size col_size).

Section encode.
Context `{SymmetricCrypto} `{Libdivide} (avx : bool) (idx : Z).
(** The bits of an element of a value vector. *)
Context (vw : Z).

(** ** F C^-1, sparsely *)
Definition NullIdx : Z := 2 ^ idx - 1.
Definition row_at (px : Paxos) (i j : nat) : res nat := vget (Paxos.rows_ px) (i * weight (param px) + j).

Definition get_col_mapping (px : Paxos) (main_cols : list nat) : res (list Z) :=
  let m := length main_cols in
  for_ m (fun i col_mapping =>
    c ← vget main_cols (m - i - 1); vset col_mapping c (wrap idx (Z.of_nat i))) (replicate (size (param px)) NullIdx).

(** The current row of F. *)
Definition gap_set (px : Paxos) (col_mapping : list Z) (gap_row : nat) : res (list Z) :=
  for_ (weight (param px)) (fun j row =>
    c1 ← row_at px gap_row j; c ← vget col_mapping c1;
    Ok (if c =? NullIdx then row else set_insert c row)) [].

(** Row [HRow] of C is added to the row of F. *)
Definition add_main_row (px : Paxos) (col_mapping : list Z) (CCol : Z) (HRow : nat) (row : list Z) : res (list Z) :=
  row ← for_ (weight (param px)) (fun j row =>
    HCol ← row_at px HRow j; CCol2 ← vget col_mapping HCol;
    if CCol2 =? NullIdx then Ok row
    else _ ← enforce (CCol2 <=? CCol); Ok (set_toggle CCol2 row)) row;
  _ ← enforce (match row with [] => true | c :: _ => negb (c =? CCol) end);
  Ok row.

(** [while (row.size())]; each turn removes the largest column. *)
Fixpoint cancel_set (fuel : nat) (px : Paxos) (main_rows : list nat) (col_mapping : list Z) (row : list Z) (entry : list nat)
    : res (list nat) :=
  match row with
  | [] => Ok entry
  | CCol :: _ =>
      match fuel with
      | O => UB
      | S fuel' =>
          HRow ← vget main_rows (length main_rows - Z.to_nat CCol - 1);
          row ← add_main_row px col_mapping CCol HRow row;
          cancel_set fuel' px main_rows col_mapping row (entry ++ [HRow])
      end
  end.

Definition GetFCInv (px : Paxos) (main_rows main_cols : list nat) (gap_rows : list (nat * nat)) : res (list (list nat)) :=
  '(_, mtx) ← for_each gap_rows (fun '(r, b) '(col_mapping, mtx) =>
    if bool_decide (row px r = row px b) then Ok (col_mapping, mtx ++ [[b]])
    else
      col_mapping ← (if bool_decide (length col_mapping = 0%nat) then get_col_mapping px main_cols else Ok col_mapping);
      row ← gap_set px col_mapping r;
      entry ← cancel_set (length main_rows) px main_rows col_mapping row [];
      Ok (col_mapping, mtx ++ [entry])) ([], []);
  Ok mtx.

(** ** The binary dense part *)

(** The dense parts of some rows, added to [d]. *)
Definition add_dense (px : Paxos) (rows : list nat) (d : Z) : res Z :=
  for_each rows (fun j d => e ← vget (dense_ px) j; Ok (Z.lxor d e)) d.

(** The bits of the gap columns of row [i] of E'. *)
Definition put_bits (EERow : Z) (gap_cols : list Z) (i cur_g : nat) (EE : DenseMtx) : res DenseMtx :=
  for_ cur_g (fun j EE => c ← vgetz gap_cols (Z.of_nat j); b ← bit_at EERow (Z.to_nat c); put EE i j b) EE.

Fixpoint try_gap_cols (fuel : nat) (px : Paxos) (fcinv : list (list nat)) (gap_rows : list (nat * nat)) (ci e : Z) (EE : DenseMtx)
    : res (list Z) :=
  match fuel with
  | O => UB
  | S fuel' =>
      let cur_g := length gap_rows in
      gap_cols ← ithCombination ci (Z.of_nat (dense_size (param px))) cur_g;
      let ci := u64 (ci + 1) in
      _ ← enforce (ci <=? e);
      let EE := resize_mtx cur_g cur_g EE in
      EE ← for_ cur_g (fun i EE =>
        c ← vget fcinv i; FCB ← add_dense px c 0;
        r ← vget gap_rows i; d ← vget (dense_ px) r.1;
        put_bits (Z.lxor d FCB) gap_cols i cur_g EE) EE;
      '(EE, EEInv) ← Invert EE;
      if bool_decide (rows EEInv = 0%nat) then try_gap_cols fuel' px fcinv gap_rows ci e EE else Ok gap_cols
  end.
Definition GetGapCols (px : Paxos) (fcinv : list (list nat)) (gap_rows : list (nat * nat)) : res (list Z) :=
  if bool_decide (length gap_rows = 0%nat) then Ok []
  else
    e ← Choose (length gap_rows) (Z.of_nat (dense_size (param px)));
    try_gap_cols (S (Z.to_nat e)) px fcinv gap_rows 0 e DenseMtx_new.

Definition GetEPrime (px : Paxos) (fcinv : list (list nat)) (gap_rows : list (nat * nat)) (gap_cols : list Z) : res DenseMtx :=
  let g := length gap_rows in
  for_ g (fun i EE =>
    r ← vget gap_rows i; d ← vget (dense_ px) r.1; c ← vget fcinv i;
    EERow ← add_dense px c d;
    put_bits EERow gap_cols i g EE) (resize_mtx g g DenseMtx_new).

(** The values of some rows, added to [x]. *)
Definition add_values (X : list Z) (rows : list nat) (x : Z) : res Z :=
  for_each rows (fun j x => v ← vget X j; Ok (Add x v)) x.

(** The columns outside the gap are random: their part of D' r is added. *)
Definition add_random_cols (px : Paxos) (fcinv : list (list nat)) (gap_rows : list (nat * nat)) (gap_cols P xx2 : list Z) : res (list Z) :=
  _ ← enforce (bool_decide (length P = dense_size (param px) + sparse_size (param px))%nat);
  for_ (dense_size (param px)) (fun i xx2 =>
    if bool_decide (Z.of_nat i ∈ gap_cols) then Ok xx2
    else for_ (length gap_rows) (fun j xx2 =>
      r ← vget gap_rows j; d ← vget (dense_ px) r.1; c ← vget fcinv j;
      dense ← add_dense px c d;
      b ← bit_at dense i;
      if (b : bool) then x ← vget xx2 j; p ← vget P (sparse_size (param px) + i); vset xx2 j (Add x p) else Ok xx2) xx2) xx2.

Definition GetX2Prime (px : Paxos) (fcinv : list (list nat)) (gap_rows : list (nat * nat)) (gap_cols X P : list Z) : res (list Z) :=
  _ ← enforce (bool_decide (length X = num_items_ px));
  xx2 ← for_ (length gap_rows) (fun i xx2 =>
    r ← vget gap_rows i; x ← vget X r.1; c ← vget fcinv i;
    x ← add_values X c x; Ok (xx2 ++ [x])) [];
  if bool_decide (length P <> 0%nat) then add_random_cols px fcinv gap_rows gap_cols P xx2 else Ok xx2.

Definition RandomizeDenseCols (px : Paxos) (gap_cols : list Z) (st : list Z * Prng) : res (list Z * Prng) :=
  for_ (dense_size (param px)) (fun i '(P, prng) =>
    if bool_decide (Z.of_nat i ∈ gap_cols) then Ok (P, prng)
    else let '(x, prng) := Randomize vw prng in
         P ← vset P (sparse_size (param px) + i) x; Ok (P, prng)) st.

(** [for i < p2.size(): Randomize(p2[i])]. *)
Definition RandomizeAll (px : Paxos) (st : list Z * Prng) : res (list Z * Prng) :=
  for_ (length st.1 - sparse_size (param px)) (fun i '(P, prng) =>
    let '(x, prng) := Randomize vw prng in
    P ← vset P (sparse_size (param px) + i) x; Ok (P, prng)) st.

(** The row of [y] that does not depend on the dense part: [y += P[cc]]. *)
Definition add_row_values (px : Paxos) (P : list Z) (i : nat) (y : Z) : res Z :=
  for_ (weight (param px)) (fun j y => cc ← row_at px i j; p ← vget P cc; Ok (Add y p)) y.

(** [d & 1 ... d >>= 1] over all the dense columns. *)
Definition add_dense_all (px : Paxos) (P : list Z) (d y : Z) : res (Z * Z) :=
  for_ (dense_size (param px)) (fun j '(d, y) =>
    y ← (if Z.testbit d 0 then p ← vget P (sparse_size (param px) + j); Ok (Add y p) else Ok y);
    Ok (Z.shiftr d 1, y)) (d, y).

Definition add_dense_masked (px : Paxos) (P gap_cols dense_masks : list Z) (d y : Z) : res Z :=
  for_ (length dense_masks) (fun j y =>
    _ ← enforce (bool_decide (dense_size (param px) <= 64)%nat);
    m ← vget dense_masks j;
    if negb (Z.land (u64 d) m =? 0)
    then c ← vget gap_cols j; p ← vget P (sparse_size (param px) + Z.to_nat c); Ok (Add y p) else Ok y) y.

(** Back substitution: the main rows in reverse order. *)
Definition backfill_binary_rows (px : Paxos) (main_rows main_cols : list nat) (X gap_cols dense_masks : list Z) (prng : option Prng) (P : list Z)
    : res (list Z) :=
  for_ (length main_rows) (fun k P =>
    i ← vget main_rows (length main_rows - 1 - k);
    c ← vget main_cols (length main_cols - 1 - k);
    y ← vget X i;
    y ← add_row_values px P i y;
    _ ← enforce (bool_decide (dense_size (param px) <= 64)%nat);
    d ← vget (dense_ px) i;
    y ← match prng with
        | Some _ => '(_, y) ← add_dense_all px P (u64 d) y; Ok y
        | None => add_dense_masked px P gap_cols dense_masks d y
        end;
    vset P c y) P.

(** The gap is solved on some dense columns.  [owns] tells whether the output
    vector owns its elements: a copy of a vector over a span is empty. *)
Definition solve_gap_binary (px : Paxos) (main_rows main_cols : list nat) (gap_rows : list (nat * nat)) (X : list Z) (owns : bool)
    (P : list Z) (prng : option Prng) : res (list Z * list Z * list Z * option Prng) :=
  let gg := length gap_rows in
  let sp := sparse_size (param px) in
  fcinv ← GetFCInv px main_rows main_cols gap_rows;
  gap_cols ← GetGapCols px fcinv gap_rows;
  '(P, prng) ← match prng with
               | Some prng => '(P, prng) ← RandomizeDenseCols px gap_cols (P, prng); Ok (P, Some prng)
               | None => Ok (P, None)
               end;
  xx2 ← GetX2Prime px fcinv gap_rows gap_cols X (match prng with Some _ => if owns then P else [] | None => [] end);
  EE ← GetEPrime px fcinv gap_rows gap_cols;
  '(_, EEInv) ← Invert EE;
  P ← for_ gg (fun i P => for_ gg (fun j P =>
    b ← get EEInv i j;
    if (b : bool) then
      c ← vget gap_cols i; x ← vget xx2 j; p ← vget P (sp + Z.to_nat c); vset P (sp + Z.to_nat c) (Add p x)
    else Ok P) P) P;
  dense_masks ← for_ gg (fun i l => c ← vget gap_cols i; _ ← defined (c <? 64); Ok (l ++ [Z.shiftl 1 c])) [];
  Ok (P, gap_cols, dense_masks, prng).

Definition BackfillBinary (px : Paxos) (main_rows main_cols : list nat) (gap_rows : list (nat * nat)) (X : list Z) (owns : bool)
    (st : list Z * option Prng) : res (list Z * option Prng) :=
  let '(P, prng) := st in
  let gg := length gap_rows in
  _ ← enforce (bool_decide (sparse_size (param px) <= length P)%nat);
  _ ← enforce (bool_decide (gg <= g (param px))%nat);
  '(P, gap_cols, dense_masks, prng) ←
    (if bool_decide (gg = 0%nat) then
       match prng with
       | Some prng => '(P, prng) ← RandomizeAll px (P, prng); Ok (P, [], [], Some prng)
       | None => Ok (P, [], [], None)
       end
     else solve_gap_binary px main_rows main_cols gap_rows X owns P prng);
  P ← backfill_binary_rows px main_rows main_cols X gap_cols dense_masks prng P;
  Ok (P, prng).

(** ** The GF(2^128) dense part *)

(** [e, e^2, ...] from [EE[i * size]] on, stored or added. *)
Definition put_powers (i size : nat) (e : Z) (add : bool) (EE : list Z) : res (list Z) :=
  x ← vget EE (i * size);
  EE ← vset EE (i * size) (if add then Z.lxor x e else e);
  '(_, EE) ← for_ (size - 1) (fun j '(ej, EE) =>
    let ej := Mul avx ej e in
    x ← vget EE (i * size + S j);
    EE ← vset EE (i * size + S j) (if add then Z.lxor x ej else ej);
    Ok (ej, EE)) (e, EE);
  Ok EE.

Definition gf128_gap_row (px : Paxos) (values : list Z) (size i : nat) (r : nat * nat) (rows : list nat) (st : list Z * list Z)
    : res (list Z * list Z) :=
  let '(EE, xx) := st in
  e ← vget (dense_ px) r.1;
  EE ← put_powers i size e false EE;
  v ← vget values r.1;
  xx ← vset xx i v;
  for_each rows (fun j '(EE, xx) =>
    x ← vget xx i; v ← vget values j; xx ← vset xx i (Add x v);
    fcb ← vget (dense_ px) j;
    EE ← put_powers i size fcb true EE;
    Ok (EE, xx)) (EE, xx).

(** [prng->Fill(MakeSpan(&EE[i * size], size * sizeof(uint128_t)))]: a span of
    sixteen times [size] elements. *)
Definition fill_row (i size : nat) (st : list Z * Prng) : res (list Z * Prng) :=
  for_ (size * 16) (fun k '(EE, prng) =>
    let '(x, prng) := Randomize 128 prng in EE ← vset EE (i * size + k) x; Ok (EE, prng)) st.

(** [GF128_DENSE_BACKFILL]. *)
Definition add_dense_gf128 (px : Paxos) (P : list Z) (d y : Z) : res Z :=
  p ← vget P (sparse_size (param px));
  let y := MultAdd avx vw y p d in
  '(_, y) ← for_ (dense_size (param px) - 1) (fun i '(x, y) =>
    let x := Mul avx x d in
    p ← vget P (sparse_size (param px) + S i);
    Ok (x, MultAdd avx vw y p x)) (d, y);
  Ok y.

Definition add_row3 (px : Paxos) (P : list Z) (i : nat) (y : Z) : res Z :=
  cc0 ← row_at px i 0; cc1 ← row_at px i 1; cc2 ← row_at px i 2;
  p ← vget P cc0; let y := Add y p in
  p ← vget P cc1; let y := Add y p in
  p ← vget P cc2; Ok (Add y p).

Definition backfill_gf128_rows (px : Paxos) (main_rows main_cols : list nat) (values : list Z) (do_dense : bool) (P : list Z) : res (list Z) :=
  for_ (length main_rows) (fun k P =>
    i ← vget main_rows (length main_rows - 1 - k);
    c ← vget main_cols (length main_cols - 1 - k);
    y ← vget values i;
    y ← (if bool_decide (weight (param px) = 3%nat) then add_row3 px P i y else add_row_values px P i y);
    y ← (if do_dense then d ← vget (dense_ px) i; add_dense_gf128 px P d y else Ok y);
    vset P c y) P.

(** The gap is solved on the first [size] dense columns. *)
Definition solve_gap_gf128 (px : Paxos) (main_rows main_cols : list nat) (gap_rows : list (nat * nat)) (values P : list Z)
    (prng : option Prng) : res (list Z * option Prng) :=
  let g := length gap_rows in
  let sp := sparse_size (param px) in
  fcinv ← GetFCInv px main_rows main_cols gap_rows;
  let size := match prng with Some _ => dense_size (param px) | None => g end in
  '(EE, xx) ← for_ g (fun i st => r ← vget gap_rows i; c ← vget fcinv i; gf128_gap_row px values size i r c st)
                (replicate (size * size) 0, replicate size 0);
  '(EE, xx, prng) ←
    match prng with
    | Some prng =>
        '(EE, xx, prng) ← for_ (dense_size (param px) - g) (fun k '(EE, xx, prng) =>
          '(EE, prng) ← fill_row (g + k) size (EE, prng);
          let '(x, prng) := Randomize vw prng in
          xx ← vset xx (g + k) x; Ok (EE, xx, prng)) (EE, xx, prng);
        Ok (EE, xx, Some prng)
    | None => Ok (EE, xx, None)
    end;
  EE ← MatrixGf128Inv avx EE size size;
  _ ← enforce (bool_decide (0 < length EE)%nat);
  P ← for_ size (fun i P => for_ size (fun j P =>
    x ← vget xx j; e ← vget EE (i * size + j); p ← vget P (sp + i); vset P (sp + i) (MultAdd avx vw p x e)) P) P;
  Ok (P, prng).

Definition BackfillGf128 (px : Paxos) (main_rows main_cols : list nat) (gap_rows : list (nat * nat)) (values : list Z)
    (st : list Z * option Prng) : res (list Z * option Prng) :=
  let '(P, prng) := st in
  _ ← enforce (bool_decide (dt (param px) = GF128));
  let g := length gap_rows in
  _ ← enforce (bool_decide (sparse_size (param px) <= length P)%nat);
  _ ← enforce (bool_decide (g <= dense_size (param px))%nat);
  '(P, prng) ←
    (if bool_decide (g = 0%nat) then
       match prng with
       | Some prng => '(P, prng) ← RandomizeAll px (P, prng); Ok (P, Some prng)
       | None => Ok (P, None)
       end
     else solve_gap_gf128 px main_rows main_cols gap_rows values P prng);
  let do_dense := negb (bool_decide (g = 0%nat)) || match prng with Some _ => true | None => false end in
  P ← backfill_gf128_rows px main_rows main_cols values do_dense P;
  Ok (P, prng).

Definition Backfill (px : Paxos) (t : Tri) (values : list Z) (owns : bool) (st : list Z * option Prng) : res (list Z * option Prng) :=
  if bool_decide (dt (param px) = GF128)
  then BackfillGf128 px (main_rows t) (main_cols t) (gap_rows t) values st
  else BackfillBinary px (main_rows t) (main_cols t) (gap_rows t) values owns st.

(** ** Encoding *)

(** The columns of weight zero are free: [node = nodes + node->next]. *)
Fixpoint randomize_free (fuel : nat) (ws : WeightData) (node : option nat) (st : list Z * Prng) : res (list Z * Prng) :=
  match node with
  | None => Ok st
  | Some i =>
      match fuel with
      | O => UB
      | S fuel' =>
          let '(x, prng) := Randomize vw st.2 in
          P ← vset st.1 (Z.to_nat (IdxOf idx i)) x;
          n ← vget (nodes ws) i;
          randomize_free fuel' ws (if next_weight_node n =? NullNode idx then None else Some (Z.to_nat (next_weight_node n))) (P, prng)
      end
  end.

Definition Encode (values output : list Z) (owns : bool) (prng : option Prng) (px : Paxos) : res (Paxos * list Z * option Prng) :=
  _ ← enforce (bool_decide (length output = size (param px)));
  '(px, t) ← Triangulate idx px;
  '(P, prng) ← match prng with
               | Some prng =>
                   node ← vget (weight_sets (weight_sets_ px)) 0;
                   '(P, prng) ← randomize_free (length (nodes (weight_sets_ px))) (weight_sets_ px) node (output, prng);
                   Ok (P, Some prng)
               | None => Ok (output, None)
               end;
  '(P, prng) ← Backfill px t values owns (P, prng);
  Ok (px, P, prng).

(** ** Decoding *)
Definition Decode1 (p : PaxosParam) (rows : list nat) (dense : Z) (P : list Z) : res Z :=
  c ← vget rows 0;
  v ← vget P c;
  v ← for_ (weight p - 1) (fun j v => c ← vget rows (S j); x ← vget P c; Ok (Add v x)) v;
  if bool_decide (dt p = GF128) then
    x ← vget P (sparse_size p);
    '(_, v) ← for_ (dense_size p - 1) (fun i '(x, v) =>
      let x := Mul avx x dense in
      y ← vget P (S i + sparse_size p);
      Ok (x, MultAdd avx vw v y x)) (dense, MultAdd avx vw v x dense);
    Ok v
  else
    for_ (dense_size p) (fun i v =>
      b ← bit_at dense i;
      if (b : bool) then y ← vget P (i + sparse_size p); Ok (Add v y) else Ok v) v.

(** Four groups of eight lanes; a step for every lane. *)
Definition lanes32 {S} (f : nat -> S -> res S) (s : S) : res S :=
  for_ 4 (fun k s => for_ 8 (fun l s => f (k * 8 + l)%nat s) s) s.

Definition MultAdd_lane (values : list Z) (y x : Z) (t : nat) : res (list Z) :=
  v ← vget values t; vset values t (MultAdd avx vw v y x).

Definition decode32_gf128 (p : PaxosParam) (dense P values : list Z) : res (list Z) :=
  xx ← for_ 32 (fun k xx => x ← vget dense k; Ok (xx ++ [x])) [];
  values ← lanes32 (fun t values => y ← vget P (sparse_size p); x ← vget xx t; MultAdd_lane values y x t) values;
  '(_, values) ← for_ (dense_size p - 1) (fun i st =>
    for_ 4 (fun k st =>
      '(xx, values) ← for_ 8 (fun l '(xx, values) =>
        x ← vget xx (k * 8 + l); d ← vget dense (k * 8 + l);
        xx ← vset xx (k * 8 + l) (Mul avx x d); Ok (xx, values)) st;
      values ← for_ 8 (fun l values =>
        y ← vget P (sparse_size p + S i); x ← vget xx (k * 8 + l); MultAdd_lane values y x (k * 8 + l)) values;
      Ok (xx, values)) st) (xx, values);
  Ok values.

(** The words read are the high ones, [DecomposeUInt128(dense[i]).first]. *)
Definition decode32_binary (p : PaxosParam) (dense P values : list Z) : res (list Z) :=
  for_ 4 (fun k values =>
    _ ← enforce (bool_decide (dense_size p <= 64)%nat);
    d2 ← for_ 8 (fun i d2 => d ← vget dense (k * 8 + i); Ok (d2 ++ [Z.shiftr d 64])) [];
    '(_, values) ← for_ (dense_size p) (fun i '(d2, values) =>
      let b := map (fun d => if Z.testbit d 0 then 1%nat else 0%nat) d2 in
      let d2 := map (fun d => Z.shiftr d 1) d2 in
      values ← for_ 8 (fun l values =>
        y ← vget P (sparse_size p + i); v ← vget values (k * 8 + l); bit ← vget b l;
        v ← MultAdd_bit vw v y bit;
        vset values (k * 8 + l) v) values;
      Ok (d2, values)) (d2, values);
    Ok values) values.

Definition Decode32 (p : PaxosParam) (rows : list nat) (dense values P : list Z) : res (list Z) :=
  let w := weight p in
  values ← lanes32 (fun t values => c ← vget rows (t * w); x ← vget P c; vset values t x) values;
  values ← for_ (w - 1) (fun j values =>
    lanes32 (fun t values => c ← vget rows (t * w + S j); x ← vget P c; v ← vget values t; vset values t (Add v x)) values) values;
  if bool_decide (dt p = GF128) then decode32_gf128 p dense P values else decode32_binary p dense P values.

(** The buffers [rows] and [dense] are reused from batch to batch. *)
Definition build32 (p : PaxosParam) (inputs : list Z) (i : nat) (rows : list nat) (dense : list Z) : res (list nat * list Z) :=
  '(rr, dense) ← HashBuildRow32 avx idx (hasher_ p) (take 32 (drop i inputs)) (map Z.of_nat rows) dense;
  Ok (map Z.to_nat rr, dense).
Definition build1 (p : PaxosParam) (x : Z) (rows : list nat) (dense : list Z) : res (list nat * list Z) :=
  '(rr, d) ← HashBuildRow1 avx idx (hasher_ p) x (map Z.of_nat (take (weight p) rows));
  dense ← vset dense 0 d;
  Ok (map Z.to_nat rr ++ drop (weight p) rows, dense).

(** A span of 32 values of a vector, for a callee to write. *)
Definition with_span {A} (i n : nat) (values : list A) (f : list A -> res (list A)) : res (list A) :=
  _ ← defined (bool_decide (i + n <= length values)%nat);
  s ← f (take n (drop i values));
  Ok (take i values ++ s ++ drop (i + n) values).

Definition Decode (px : Paxos) (inputs values PP : list Z) : res (list Z) :=
  let p := param px in
  _ ← enforce (bool_decide (length PP = size p));
  let batches := (length inputs / 32)%nat in
  let rest := (length inputs - batches * 32)%nat in
  let rows := replicate (32 * weight p) 0%nat in
  let dense := replicate 32 0 in
  if add_to_decode_ px then
    '(rows, dense, v, values) ← for_ batches (fun b '(rows, dense, v, values) =>
      let i := (b * 32)%nat in
      '(rows, dense) ← build32 p inputs i rows dense;
      v ← Decode32 p rows dense v PP;
      values ← for_ 4 (fun j values => for_ 8 (fun l values =>
        a ← vget values (i + (j * 8 + l)); x ← vget v (j * 8 + l); vset values (i + (j * 8 + l)) (Add a x)) values) values;
      Ok (rows, dense, v, values)) (rows, dense, replicate 32 0, values);
    '(_, _, _, values) ← for_ rest (fun k '(rows, dense, v, values) =>
      let i := (batches * 32 + k)%nat in
      x ← vget inputs i;
      '(rows, dense) ← build1 p x rows dense;
      d ← vget dense 0;
      y ← Decode1 p (take (weight p) rows) d PP;
      v ← vset v 0 y;
      a ← vget values i;
      values ← vset values i (Add a y);
      Ok (rows, dense, v, values)) (rows, dense, v, values);
    Ok values
  else
    '(rows, dense, values) ← for_ batches (fun b '(rows, dense, values) =>
      let i := (b * 32)%nat in
      '(rows, dense) ← build32 p inputs i rows dense;
      values ← with_span i 32 values (fun s => Decode32 p rows dense s PP);
      Ok (rows, dense, values)) (rows, dense, values);
    '(_, _, values) ← for_ rest (fun k '(rows, dense, values) =>
      let i := (batches * 32 + k)%nat in
      x ← vget inputs i;
      '(rows, dense) ← build1 p x rows dense;
      d ← vget dense 0;
      y ← Decode1 p (take (weight p) rows) d PP;
      values ← vset values i y;
      Ok (rows, dense, values)) (rows, dense, values);
    Ok values.
End encode.

(** ** Vectors of 64-bit words: the same code for [PxVectorU64] *)
Section u64.
Context `{SymmetricCrypto} `{Libdivide} (avx : bool) (idx : Z).
Definition GetX2PrimeU64 := GetX2Prime.
Definition RandomizeDenseColsU64 := RandomizeDenseCols 64.
Definition BackfillBinaryU64 := BackfillBinary idx 64.
Definition BackfillGf128U64 := BackfillGf128 avx idx 64.
Definition BackfillU64 := Backfill avx idx 64.
(** [EncodeU64] also asks for a binary dense part. *)
Definition EncodeU64 (values output : list Z) (owns : bool) (prng : option Prng) (px : Paxos) : res (Paxos * list Z * option Prng) :=
  _ ← enforce (bool_decide (length output = size (param px)));
  _ ← enforce (bool_decide (dt (param px) = Binary));
  Encode avx idx 64 values output owns prng px.
Definition Decode1U64 := Decode1 avx 64.
Definition Decode32U64 := Decode32 avx 64.
Definition DecodeU64 := Decode avx idx 64.
End u64.
