(* ===== verification/PaxosSolve.v ===== *)
(** * PaXoS: the solution satisfies every row (psi/algorithm/rr22/okvs/paxos)

    The linear algebra of [Encode]: the sparse representation of F C^-1 cancels
    the main columns of a gap row, the gap equations are solved on the dense
    columns, and back substitution through the triangular part solves the main
    rows.  Sums are sums over GF(2), exclusive ors of words. *)
From stdpp Require Import sorting.
From S2P Require Import Prelude Galois PaxosHash WeightData DenseMtx Combination Paxos PaxosEncode.
#[local] Open Scope Z_scope.

(** ** Exclusive ors of words *)
Definition xors (l : list Z) : Z := foldr Z.lxor 0 l.

Lemma xors_swap a b c : Z.lxor a (Z.lxor b c) = Z.lxor b (Z.lxor a c).
Proof. by rewrite <- !Z.lxor_assoc, (Z.lxor_comm a b). Qed.
Lemma xors_app l1 l2 : xors (l1 ++ l2) = Z.lxor (xors l1) (xors l2).
Proof. induction l1 as [|x l1 IH]; cbn; [by rewrite Z.lxor_0_l|]. unfold xors in IH. by rewrite IH, Z.lxor_assoc. Qed.
#[export] Instance xors_perm : Proper ((≡ₚ) ==> eq) xors.
Proof.
  induction 1 as [|x l l' _ IH|x y l|l1 l2 l3 _ IH1 _ IH2]; [done| |cbn; apply xors_swap|by rewrite IH1].
  cbn. unfold xors in IH. by rewrite IH.
Qed.
Lemma xors_snoc l x : xors (l ++ [x]) = Z.lxor (xors l) x.
Proof. rewrite xors_app. cbn. by rewrite Z.lxor_0_r. Qed.
Lemma xors_lxor {A} (f g : A -> Z) l : xors (map (fun x => Z.lxor (f x) (g x)) l) = Z.lxor (xors (map f l)) (xors (map g l)).
Proof.
  induction l as [|x l IH]; [done|]. cbn. unfold xors in IH. rewrite IH, !Z.lxor_assoc. f_equal. apply xors_swap.
Qed.
Lemma xors_ext {A} (f g : A -> Z) l : (forall x, x ∈ l -> f x = g x) -> xors (map f l) = xors (map g l).
Proof.
  intros Hf. induction l as [|x l IH]; [done|]. cbn. unfold xors in IH. rewrite Hf by by left. rewrite IH; [done|].
  intros y Hy. apply Hf. by right.
Qed.
Lemma xors_zero {A} (f : A -> Z) l : (forall x, x ∈ l -> f x = 0) -> xors (map f l) = 0.
Proof.
  intros Hf. rewrite (xors_ext f (fun _ => 0)) by done. induction l as [|x l IH]; [done|]. cbn. rewrite Z.lxor_0_l. apply IH.
  intros y Hy. apply Hf. by right.
Qed.

(** A sum over columns that are zero outside [l]. *)
Lemma xors_supported (f : nat -> Z) (l l' : list nat) :
  NoDup l -> NoDup l' -> (forall x, x ∈ l' -> x ∈ l) -> (forall x, x ∈ l -> x ∉ l' -> f x = 0) ->
  xors (map f l) = xors (map f l').
Proof.
  intros Hl Hl' Hsub Hz. assert (l ≡ₚ l' ++ filter (fun x => x ∉ l') l) as E.
  { apply NoDup_Permutation; [done| |].
    - apply NoDup_app. split; [done|]. split; [|by apply NoDup_filter]. intros x Hx [Hn _]%list_elem_of_filter. done.
    - intros x. rewrite elem_of_app, list_elem_of_filter. destruct (decide (x ∈ l')); naive_solver. }
  assert (xors (map f l) = xors (map f (l' ++ filter (fun x => x ∉ l') l))) as ->.
  { apply xors_perm. change (f <$> l ≡ₚ f <$> (l' ++ filter (fun x => x ∉ l') l)). by rewrite <- E. }
  rewrite map_app, xors_app, (xors_zero f (filter _ l)), Z.lxor_0_r; [done|].
  intros x [Hn Hx]%list_elem_of_filter. by apply Hz.
Qed.

(** Against the sums of bits of [DenseMtx]. *)
Lemma xors_testbit n (f : nat -> Z) k : 0 <= k -> Z.testbit (xors (map f (seq 0 n))) k = bsum n (fun i => Z.testbit (f i) k).
Proof.
  intros Hk. unfold bsum. induction (seq 0 n) as [|x l IH]; [apply Z.testbit_0_l|]. cbn [map foldr xors]. rewrite Z.lxor_spec. f_equal. exact IH.
Qed.

(** ** Ordered sets *)
Definition descending (l : list Z) : Prop := StronglySorted Z.gt l.

Lemma set_insert_in x y l : y ∈ set_insert x l <-> y = x \/ y ∈ l.
Proof.
  induction l as [|z l IH]; cbn [set_insert]; [set_solver|]. destruct (Z.ltb_spec z x); [set_solver|].
  destruct (Z.eqb_spec z x) as [->|]; [set_solver|]. rewrite !elem_of_cons, IH. tauto.
Qed.
Lemma set_insert_perm x l : descending l -> x ∉ l -> set_insert x l ≡ₚ x :: l.
Proof.
  induction 1 as [|z l Hd IH HF]; intros Hn; [done|]. cbn [set_insert]. apply not_elem_of_cons in Hn as [Hz Hn].
  destruct (Z.ltb_spec z x); [done|]. rewrite (proj2 (Z.eqb_neq z x)) by done. rewrite IH by done. by constructor.
Qed.
Lemma set_insert_descending x l : descending l -> descending (set_insert x l).
Proof.
  induction 1 as [|z l Hd IH HF]; cbn [set_insert]; [repeat constructor|]. destruct (Z.ltb_spec z x) as [Hlt|Hle].
  - constructor; [by constructor|]. constructor; [lia|]. eapply Forall_impl; [exact HF|]. cbn. lia.
  - destruct (Z.eqb_spec z x) as [->|Hne]; [by constructor|]. constructor; [done|]. apply Forall_forall. intros y Hy.
    apply set_insert_in in Hy as [->|Hy]; [lia|]. by apply (proj1 (Forall_forall _ _) HF).
Qed.
Lemma set_erase_perm x l : x ∈ l -> l ≡ₚ x :: set_erase x l.
Proof.
  induction l as [|z l IH]; intros Hx; [by apply not_elem_of_nil in Hx|]. cbn [set_erase]. destruct (Z.eqb_spec z x) as [->|Hne]; [done|].
  apply elem_of_cons in Hx as [->|Hx]; [done|]. rewrite (IH Hx) at 1. constructor.
Qed.
Lemma set_erase_descending x l : descending l -> descending (set_erase x l).
Proof.
  induction 1 as [|z l Hd IH HF]; [constructor|]. cbn [set_erase]. destruct (z =? x); [done|]. constructor; [done|].
  clear -HF. induction HF as [|y l Hy HF IH]; [constructor|]. cbn [set_erase]. destruct (y =? x); [done|]. by constructor.
Qed.
Lemma descending_NoDup l : descending l -> NoDup l.
Proof.
  induction 1 as [|z l Hd IH HF]; [constructor|]. constructor; [|done]. intros Hin.
  pose proof (proj1 (Forall_forall _ _) HF z Hin) as Hz. cbn beta in Hz. lia.
Qed.

Lemma set_toggle_in x y l : descending l -> y ∈ set_toggle x l <-> if bool_decide (y = x) then x ∉ l else y ∈ l.
Proof.
  intros Hd. unfold set_toggle. destruct (decide (x ∈ l)) as [Hx|Hx].
  - rewrite bool_decide_true by done. pose proof (set_erase_perm x l Hx) as E. pose proof (descending_NoDup l Hd) as Hnd.
    rewrite E in Hnd. apply NoDup_cons in Hnd as [Hn _]. case_bool_decide as Ey; [subst; tauto|]. rewrite E at 2. rewrite elem_of_cons. naive_solver.
  - rewrite bool_decide_false by done. rewrite set_insert_in. case_bool_decide; naive_solver.
Qed.
Lemma set_toggle_descending x l : descending l -> descending (set_toggle x l).
Proof. intros. unfold set_toggle. case_bool_decide; [by apply set_erase_descending|by apply set_insert_descending]. Qed.
Lemma set_toggle_xors (f : Z -> Z) x l : descending l -> xors (map f (set_toggle x l)) = Z.lxor (f x) (xors (map f l)).
Proof.
  intros Hd. unfold set_toggle. case_bool_decide as Hx.
  - assert (xors (map f l) = xors (map f (x :: set_erase x l))) as ->.
    { apply xors_perm. change (f <$> l ≡ₚ f <$> (x :: set_erase x l)). by rewrite <- set_erase_perm. }
    cbn [map xors foldr]. by rewrite lxor_cancel.
  - change (Z.lxor (f x) (xors (map f l))) with (xors (f <$> (x :: l))). apply xors_perm. change (f <$> set_insert x l ≡ₚ f <$> (x :: l)). by rewrite set_insert_perm.
Qed.

(** ** F C^-1 *)
Section fcinv.
Context `{SymmetricCrypto} `{Libdivide} (avx : bool) (idx : Z).
Context (px : Paxos) (t : Tri) (Hwf : wf_rows px) (Ht : triangular px t).
Abbreviation N := (num_items_ px).
Abbreviation sp := (sparse_size (param px)).
Abbreviation w := (weight (param px)).
Abbreviation m := (length (main_rows t)).
(** The sum of some values over the columns of a row. *)
Definition rsum (P : nat -> Z) (i : nat) : Z := xors (map P (row px i)).
Definition supported (P : nat -> Z) : Prop := forall c, c ∉ main_cols t -> P c = 0.

Lemma m_cols : m = length (main_cols t).
Proof. apply (tr_square px t Ht). Qed.
Lemma rows_perm_lt i : i ∈ main_rows t ++ (gap_rows t).*1 -> (i < N)%nat.
Proof. intros Hi. rewrite (tr_rows px t Ht), elem_of_seq in Hi. lia. Qed.
Lemma main_row_lt k i : main_rows t !! k = Some i -> (i < N)%nat.
Proof. intros Hk. apply rows_perm_lt. apply elem_of_app. left. by apply list_elem_of_lookup_2 in Hk. Qed.
Lemma m_le_N : (m <= N)%nat.
Proof. pose proof (Permutation_length (tr_rows px t Ht)) as E. rewrite length_app, length_seq in E. lia. Qed.
Lemma main_col_unique j k c : main_cols t !! j = Some c -> main_cols t !! k = Some c -> j = k.
Proof. apply NoDup_lookup. apply (tr_cols px t Ht). Qed.
Lemma main_col_lt k c : main_cols t !! k = Some c -> (c < sp)%nat.
Proof. intros Hk. destruct (tr_cols px t Ht) as [_ HF]. exact (Forall_lookup_1 _ _ _ _ HF Hk). Qed.
Lemma row_at_ok i j : (i < N)%nat -> (j < w)%nat -> exists c, row_at px i j = Ok c /\ row px i !! j = Some c /\ (c < sp)%nat.
Proof.
  intros Hi Hj. destruct (lookup_lt_is_Some_2 (row px i) j) as [c Hc]; [by rewrite (length_row px i Hwf Hi)|]. exists c.
  split; [apply vget_ok; by rewrite <- row_lookup|]. split; [done|]. destruct (wf_row px Hwf i Hi) as [_ HF].
  exact (Forall_lookup_1 _ _ _ _ HF Hc).
Qed.

Context (HN : Z.of_nat N < 2 ^ idx - 1).
Definition maps (cm : list Z) : Prop :=
  length cm = size (param px) /\
  (forall k c, main_cols t !! k = Some c -> cm !! c = Some (Z.of_nat (m - k - 1))) /\
  forall c, (c < size (param px))%nat -> c ∉ main_cols t -> cm !! c = Some (NullIdx idx).

Lemma get_col_mapping_ok : wp (get_col_mapping idx px (main_cols t)) maps.
Proof.
  unfold get_col_mapping. rewrite <- m_cols. pose proof m_le_N as Hm.
  apply (wp_for _ _ (fun i cm => length cm = size (param px) /\
    (forall k c, main_cols t !! k = Some c -> (m - i <= k)%nat -> cm !! c = Some (Z.of_nat (m - k - 1))) /\
    forall c, (c < size (param px))%nat -> c ∉ drop (m - i) (main_cols t) -> cm !! c = Some (NullIdx idx))).
  - split; [by rewrite length_replicate|]. split.
    + intros k c Hk Hle. apply lookup_lt_Some in Hk. rewrite <- m_cols in Hk. lia.
    + intros c Hc _. by apply lookup_replicate_2.
  - intros i cm Hi (Hl & Hin & Hout). destruct (lookup_lt_is_Some_2 (main_cols t) (m - i - 1)) as [c Hc]; [rewrite <- m_cols; lia|].
    rewrite (proj2 (vget_ok _ _ _) Hc). run. pose proof (main_col_lt _ _ Hc). rewrite vset_total by (rewrite Hl; unfold size; lia). run.
    rewrite wrap_small by (unfold in_u; lia). split; [by rewrite length_insert|]. split.
    + intros k c' Hk Hle. destruct (decide (k = (m - i - 1)%nat)) as [->|Hne].
      * rewrite Hc in Hk. injection Hk as <-. rewrite list_lookup_insert_eq by (rewrite Hl; unfold size; lia). do 2 f_equal. lia.
      * rewrite list_lookup_insert_ne; [apply Hin; [done|lia]|]. intros ->. apply Hne. by eapply main_col_unique.
    + intros c' Hc' Hn. assert (drop (m - S i) (main_cols t) = c :: drop (m - i) (main_cols t)) as E.
      { rewrite (drop_S _ c (m - S i)) by (rewrite <- Hc; f_equal; lia). f_equal. f_equal. lia. }
      rewrite E in Hn. apply not_elem_of_cons in Hn as [Hne Hn]. rewrite list_lookup_insert_ne by done. by apply Hout.
  - intros cm (Hl & Hin & Hout). split; [done|]. split.
    + intros k c Hk. apply Hin; [done|lia].
    + intros c Hc Hn. apply Hout; [done|]. replace (m - m)%nat with 0%nat by lia. done.
Qed.

Context (cm : list Z) (Hcm : maps cm).

(** What the mapping gives for a column of a row. *)
Lemma mapped c : (c < sp)%nat ->
  ((c ∉ main_cols t) /\ vget cm c = Ok (NullIdx idx)) \/
  exists k, main_cols t !! k = Some c /\ (k < m)%nat /\ vget cm c = Ok (Z.of_nat (m - k - 1)) /\ Z.of_nat (m - k - 1) <> NullIdx idx.
Proof.
  intros Hc. destruct Hcm as (Hl & Hin & Hout). destruct (decide (c ∈ main_cols t)) as [Hm|Hm].
  - right. apply list_elem_of_lookup in Hm as [k Hk]. exists k. pose proof (lookup_lt_Some _ _ _ Hk) as Hkm. rewrite <- m_cols in Hkm.
    split; [done|]. split; [done|]. split; [by apply vget_ok, Hin|]. pose proof m_le_N. unfold NullIdx. lia.
  - left. split; [done|]. apply vget_ok. apply Hout; [unfold size; lia|done].
Qed.

(** The value of a set of mapped columns. *)
Definition col_of (a : Z) : nat := nth (m - Z.to_nat a - 1) (main_cols t) 0%nat.
Definition ssum (P : nat -> Z) (s : list Z) : Z := xors (map (fun a => P (col_of a)) s).

Lemma col_of_mapped k c : main_cols t !! k = Some c -> col_of (Z.of_nat (m - k - 1)) = c.
Proof.
  intros Hk. unfold col_of. rewrite Nat2Z.id. pose proof (lookup_lt_Some _ _ _ Hk) as Hl. rewrite <- m_cols in Hl.
  replace (m - (m - k - 1) - 1)%nat with k by lia. by apply nth_lookup_Some.
Qed.

Definition below (b : Z) (s : list Z) : Prop := descending s /\ Forall (fun a => 0 <= a < b) s.

Lemma rsum_take P i j c : row px i !! j = Some c -> xors (map P (take (S j) (row px i))) = Z.lxor (xors (map P (take j (row px i)))) (P c).
Proof. intros Hc. rewrite (take_S_r _ _ _ Hc), map_app. apply xors_snoc. Qed.

Lemma gap_set_ok r : (r < N)%nat -> (0 < w)%nat ->
  wp (gap_set idx px cm r) (fun s => below (Z.of_nat m) s /\ forall P, supported P -> ssum P s = rsum P r).
Proof.
  intros Hr Hw. destruct (wf_row px Hwf r Hr) as [Hnd _]. unfold gap_set.
  apply (wp_for _ _ (fun j s => below (Z.of_nat m) s /\
    (forall a, a ∈ s -> exists k c, a = Z.of_nat (m - k - 1) /\ main_cols t !! k = Some c /\ c ∈ take j (row px r)) /\
    forall P, supported P -> ssum P s = xors (map P (take j (row px r))))).
  - split; [split; constructor|]. split; [|done]. intros a Ha. by apply not_elem_of_nil in Ha.
  - intros j s Hj ((Hd & HF) & Hs & HP). destruct (row_at_ok r j Hr Hj) as (c & -> & Hc & Hcs). run.
    assert (forall x, x ∈ take j (row px r) -> x ∈ take (S j) (row px r)) as Hmono.
    { intros x Hx. rewrite (take_S_r _ _ _ Hc). apply elem_of_app. by left. }
    destruct (mapped c Hcs) as [[Hn ->]|(k & Hk & Hkm & -> & Hne)]; run.
    + rewrite Z.eqb_refl. split; [by split|]. split.
      * intros a Ha. destruct (Hs a Ha) as (k & c' & -> & Hk & Hin). exists k, c'. auto.
      * intros P HPs. rewrite (rsum_take P r j c Hc), (HPs c Hn), Z.lxor_0_r. by apply HP.
    + rewrite (proj2 (Z.eqb_neq _ _)) by done. set (a := Z.of_nat (m - k - 1)) in *.
      assert (a ∉ s) as Hfresh.
      { intros Ha. destruct (Hs a Ha) as (k' & c' & Ea & Hk' & Hin). pose proof (lookup_lt_Some _ _ _ Hk') as Hl. rewrite <- m_cols in Hl.
        assert (k' = k) as -> by (unfold a in Ea; lia). assert (c' = c) as -> by congruence.
        apply elem_of_take in Hin as (q & Hq & Hqj). pose proof (NoDup_lookup _ _ _ _ Hnd Hq Hc). lia. }
      split; [split; [by apply set_insert_descending|]|].
      { apply Forall_forall. intros b Hb. apply set_insert_in in Hb as [->|Hb]; [unfold a; lia|].
        by apply (proj1 (Forall_forall _ _) HF). }
      split.
      * intros b Hb. apply set_insert_in in Hb as [->|Hb].
        -- exists k, c. split; [done|]. split; [done|]. rewrite (take_S_r _ _ _ Hc). apply elem_of_app. right. by left.
        -- destruct (Hs b Hb) as (k' & c' & -> & Hk' & Hin). exists k', c'. auto.
      * intros P HPs. rewrite (rsum_take P r j c Hc), <- (HP P HPs). unfold ssum.
        pose proof (set_toggle_xors (fun a => P (col_of a)) a s Hd) as E. unfold set_toggle in E. rewrite bool_decide_false in E by done.
        rewrite E, Z.lxor_comm. unfold a. by rewrite (col_of_mapped k c Hk).
  - intros s (Hb & _ & HP). split; [done|]. intros P HPs. rewrite (HP P HPs). unfold rsum. rewrite take_ge; [done|].
    by rewrite (length_row px r Hwf Hr).
Qed.

Lemma add_main_row_ok k i ck s :
  main_rows t !! k = Some i -> main_cols t !! k = Some ck -> below (Z.of_nat (m - k - 1) + 1) s -> Z.of_nat (m - k - 1) ∈ s ->
  wp (add_main_row idx px cm (Z.of_nat (m - k - 1)) i s) (fun s' =>
    below (Z.of_nat (m - k - 1)) s' /\ forall P, supported P -> ssum P s' = Z.lxor (ssum P s) (rsum P i)).
Proof.
  intros Hk Hck [Hd HF] Hin. pose proof (main_row_lt k i Hk) as Hi. destruct (wf_row px Hwf i Hi) as [Hnd _].
  destruct (tr_ordered px t Ht k i k ck Hk Hck) as [Hcki _]. specialize (Hcki eq_refl).
  set (top := Z.of_nat (m - k - 1)) in *. unfold add_main_row. apply wp_bind.
  apply (wp_for _ _ (fun j s' => below (top + 1) s' /\ (top ∈ s' <-> ck ∉ take j (row px i)) /\
    forall P, supported P -> ssum P s' = Z.lxor (ssum P s) (xors (map P (take j (row px i)))))).
  - split; [by split|]. split; [split; [intros _; apply not_elem_of_nil|done]|]. intros P _. cbn. by rewrite Z.lxor_0_r.
  - intros j s' Hj ((Hd' & HF') & Htop & HP). destruct (row_at_ok i j Hi Hj) as (c & -> & Hc & Hcs). run.
    assert (c ∈ row px i) as Hcr by by apply list_elem_of_lookup_2 in Hc.
    assert (c ∉ take j (row px i)) as Hct.
    { intros (q & Hq & Hqj)%elem_of_take. pose proof (NoDup_lookup _ _ _ _ Hnd Hq Hc). lia. }
    destruct (mapped c Hcs) as [[Hn ->]|(q & Hq & Hqm & -> & Hne)]; run.
    + rewrite Z.eqb_refl. run. split; [by split|]. split.
      * rewrite Htop, (take_S_r _ _ _ Hc), elem_of_app, list_elem_of_singleton. apply list_elem_of_lookup_2 in Hck. naive_solver.
      * intros P HPs. rewrite (rsum_take P i j c Hc), (HPs c Hn), Z.lxor_0_r. by apply HP.
    + rewrite (proj2 (Z.eqb_neq _ _)) by done. pose proof (lookup_lt_Some _ _ _ Hk) as Hkm.
      assert (k <= q)%nat as Hkq.
      { destruct (decide (q < k)%nat) as [Hlt|]; [|lia]. destruct (tr_ordered px t Ht k i q c Hk Hq) as [_ Hno]. by destruct (Hno Hlt). }
      rewrite (proj2 (Z.leb_le _ _)) by (unfold top; lia). run. set (a := Z.of_nat (m - q - 1)) in *.
      assert (a = top <-> c = ck) as Ea.
      { split; [intros E; assert (q = k) as -> by (unfold a, top in E; lia); congruence|]. intros ->. unfold a, top. by rewrite (main_col_unique q k ck Hq Hck). }
      split; [split; [by apply set_toggle_descending|]|].
      { apply Forall_forall. intros b Hb. apply set_toggle_in in Hb; [|done]. destruct (decide (b = a)) as [->|Hba]; [unfold a, top; lia|].
        rewrite bool_decide_false in Hb by done. by apply (proj1 (Forall_forall _ _) HF'). }
      split.
      * rewrite set_toggle_in by done. rewrite (take_S_r _ _ _ Hc), elem_of_app, list_elem_of_singleton. case_bool_decide as Eb.
        -- assert (c = ck) as -> by (by apply Ea). assert (a = top) as -> by by apply Ea. rewrite Htop. naive_solver.
        -- rewrite Htop. assert (c <> ck) by (intros E; apply Eb; symmetry; by apply Ea). naive_solver.
      * intros P HPs. rewrite (rsum_take P i j c Hc). unfold ssum. rewrite (set_toggle_xors (fun a => P (col_of a)) a s' Hd').
        specialize (HP P HPs). unfold ssum in HP. rewrite HP. unfold a. rewrite (col_of_mapped q c Hq). rewrite xors_swap. f_equal. apply Z.lxor_comm.
  - intros s' ((Hd' & HF') & Htop & HP). rewrite take_ge in * by (rewrite (length_row px i Hwf Hi); done).
    assert (top ∉ s') as Hnt by (rewrite Htop; tauto).
    assert (below top s') as Hb.
    { split; [done|]. apply Forall_forall. intros b Hb. pose proof (proj1 (Forall_forall _ _) HF' b Hb) as Hbb. cbn beta in Hbb.
      assert (b <> top) by (intros ->; done). lia. }
    destruct s' as [|b s']; run; [by split|]. rewrite (proj2 (Z.eqb_neq b top)) by (intros ->; apply Hnt; by left). run. by split.
Qed.

Lemma cancel_set_ok fuel : forall s entry,
  below (Z.of_nat fuel) s -> (fuel <= m)%nat ->
  wp (cancel_set idx fuel px (main_rows t) cm s entry) (fun entry' => exists l, entry' = entry ++ l /\ Forall (fun i => i ∈ main_rows t) l /\
    forall P, supported P -> ssum P s = xors (map (rsum P) l)).
Proof.
  induction fuel as [|fuel IH]; intros s entry [Hd HF] Hf; (destruct s as [|a s]; [exists []; split; [by rewrite app_nil_r|split; [constructor|done]]|]).
  { apply Forall_cons in HF as [Ha _]. lia. }
  cbn [cancel_set]. apply Forall_cons in HF as [Ha HF]. set (k := (m - Z.to_nat a - 1)%nat).
  assert (a = Z.of_nat (m - k - 1)) as Ea by (unfold k; lia). assert (k < m)%nat as Hkm by (unfold k; lia).
  destruct (lookup_lt_is_Some_2 (main_rows t) k Hkm) as [i Hi]. pose proof Hkm as Hkc. rewrite m_cols in Hkc.
  destruct (lookup_lt_is_Some_2 (main_cols t) k Hkc) as [ck Hck]. rewrite (proj2 (vget_ok _ _ _) Hi). run.
  apply StronglySorted_inv in Hd as [Hd Hgt]. apply wp_bind. rewrite Ea.
  eapply wp_mono; [apply (add_main_row_ok k i ck)|]; [done|done| |by left|].
  { rewrite <- Ea. split; [by constructor|]. constructor; [lia|]. apply Forall_forall. intros b Hb.
    pose proof (proj1 (Forall_forall _ _) Hgt b Hb). pose proof (proj1 (Forall_forall _ _) HF b Hb). cbn beta in *. lia. }
  intros s' [[Hd' HF'] HP]. rewrite <- Ea in *. eapply wp_mono; [apply (IH s' (entry ++ [i]))|].
  - split; [done|]. eapply Forall_impl; [exact HF'|]. cbn. lia.
  - lia.
  - intros e (l & -> & Hl & HPl). exists (i :: l). split; [by rewrite <- app_assoc|]. split.
    { constructor; [by apply list_elem_of_lookup_2 in Hi|done]. }
    intros P HPs. cbn [map xors foldr]. fold (xors (map (rsum P) l)). rewrite <- (HPl P HPs), (HP P HPs).
    rewrite (Z.lxor_comm (ssum P (a :: s))). by rewrite lxor_cancel.
Qed.
End fcinv.

(** An entry of F C^-1 for a gap row: main rows that sum to it on the main columns. *)
Definition cancels (px : Paxos) (t : Tri) (r : nat) (l : list nat) : Prop :=
  Forall (fun i => i ∈ main_rows t) l /\ forall P, supported t P -> rsum px P r = xors (map (rsum px P) l).

Section fcinv_all.
Context `{SymmetricCrypto} `{Libdivide} (idx : Z).
Context (px : Paxos) (t : Tri) (Hwf : wf_rows px) (Ht : triangular px t).
Context (HN : Z.of_nat (num_items_ px) < 2 ^ idx - 1) (Hw : (0 < weight (param px))%nat) (Hsz : (0 < size (param px))%nat).

Lemma gap_row_lt r b : (r, b) ∈ gap_rows t -> (r < num_items_ px)%nat /\ b ∈ main_rows t.
Proof.
  intros Hin. split.
  - apply (rows_perm_lt px t Ht). apply elem_of_app. right. apply list_elem_of_fmap. by exists (r, b).
  - pose proof (proj1 (Forall_forall _ _) (tr_gap px t Ht) _ Hin) as [_ (k & Hk & _)]. by apply list_elem_of_lookup_2 in Hk.
Qed.

Definition fcinv_inv (l1 : list (nat * nat)) (st : list Z * list (list nat)) : Prop :=
  (st.1 = [] \/ maps idx px t st.1) /\ length st.2 = length l1 /\
  forall (q : nat) r l, l1 !! q = Some r -> st.2 !! q = Some l -> cancels px t r.1 l.

Lemma fcinv_step l1 r cm cm' mtx l :
  fcinv_inv l1 (cm, mtx) -> cm' = [] \/ maps idx px t cm' -> cancels px t r.1 l -> fcinv_inv (l1 ++ [r]) (cm', mtx ++ [l]).
Proof.
  intros (_ & Hl & Hq) Hc Hcan. cbn [fst snd] in *. split; [done|]. split; [cbn [snd]; rewrite !length_app, Hl; done|].
  intros q r' l' Hq' Hl'. cbn [snd] in Hl'. apply lookup_snoc_Some in Hq' as [[Hlt Hq']|[-> <-]].
  - rewrite lookup_app_l in Hl' by lia. by eapply Hq.
  - rewrite <- Hl, list_lookup_middle in Hl' by done. injection Hl' as <-. done.
Qed.

Lemma GetFCInv_ok :
  wp (GetFCInv idx px (main_rows t) (main_cols t) (gap_rows t)) (fun mtx =>
    length mtx = length (gap_rows t) /\
    forall q r l, gap_rows t !! q = Some r -> mtx !! q = Some l -> cancels px t r.1 l).
Proof.
  unfold GetFCInv. apply wp_bind. eapply wp_mono; [apply (wp_for_each _ _ fcinv_inv)|].
  - split; [by left|]. split; [done|]. intros q r l Hq. done.
  - intros l1 [r b] l2 [cm mtx] El Hinv. pose proof Hinv as (Hcm & _). cbn [fst] in Hcm.
    destruct (gap_row_lt r b) as [Hr Hb]; [rewrite El; apply elem_of_app; right; by left|].
    case_bool_decide as Erow.
    + apply (fcinv_step l1 (r, b) cm cm mtx [b] Hinv Hcm). split; [by repeat constructor|]. intros P _. cbn.
      rewrite Z.lxor_0_r. unfold rsum. by rewrite Erow.
    + apply wp_bind. eapply (wp_mono _ (maps idx px t)).
      { destruct Hcm as [->|Hcm]; [rewrite bool_decide_true by done; by apply get_col_mapping_ok|].
        rewrite bool_decide_false; [done|]. rewrite (proj1 Hcm). lia. }
      intros cm' Hcm'. apply wp_bind. eapply wp_mono; [by apply (gap_set_ok idx px t)|]. intros s [Hbel HP].
      apply wp_bind. eapply wp_mono; [by apply (cancel_set_ok idx px t Hwf Ht HN cm' Hcm')|]. intros e (l & -> & HF & HPl). run.
      apply (fcinv_step l1 (r, b) cm cm' mtx l Hinv); [by right|]. split; [done|]. intros P HPs. cbn [fst].
      rewrite <- (HP P HPs). by apply HPl.
  - intros [cm mtx] (_ & Hl & Hq). cbn [fst snd] in *. by split.
Qed.
End fcinv_all.

(** ** Back substitution *)
Section backsub.
Context (px : Paxos) (t : Tri) (Hwf : wf_rows px) (Ht : triangular px t).
Abbreviation N := (num_items_ px).
Abbreviation sp := (sparse_size (param px)).
Abbreviation m := (length (main_rows t)).

(** The product of a row with the sparse part of a vector. *)
Definition vsum (P : list Z) (i : nat) : Z := rsum px (fun c => P !!! c) i.

Lemma rsum_insert (f : nat -> Z) i c y : (i < N)%nat -> f c = 0 ->
  rsum px (fun x => if decide (x = c) then y else f x) i = Z.lxor (rsum px f i) (if bool_decide (c ∈ row px i) then y else 0).
Proof.
  intros Hi Hc. destruct (wf_row px Hwf i Hi) as [Hnd _]. unfold rsum.
  rewrite (xors_ext _ (fun x => Z.lxor (f x) (if decide (x = c) then y else 0))).
  - rewrite xors_lxor. f_equal. case_bool_decide as Hin.
    + rewrite (xors_supported _ (row px i) [c]); [cbn; rewrite decide_True by done; by rewrite Z.lxor_0_r|done|apply NoDup_singleton| |].
      * intros x ->%list_elem_of_singleton. done.
      * intros x _ Hx. rewrite decide_False; [done|]. intros ->. apply Hx. by left.
    + apply xors_zero. intros x Hx. rewrite decide_False; [done|]. by intros ->.
  - intros x _. destruct (decide (x = c)) as [->|]; [by rewrite Hc|by rewrite Z.lxor_0_r].
Qed.
Lemma vsum_insert P i c y : (i < N)%nat -> (c < length P)%nat -> P !!! c = 0 ->
  vsum (<[c := y]> P) i = Z.lxor (vsum P i) (if bool_decide (c ∈ row px i) then y else 0).
Proof.
  intros Hi Hc H0. unfold vsum. rewrite <- (rsum_insert (fun x => P !!! x)) by done. unfold rsum. apply xors_ext. intros x _.
  destruct (decide (x = c)) as [->|]; [by rewrite list_lookup_total_insert_eq|by rewrite list_lookup_total_insert_ne].
Qed.

Definition same_outside (P0 P : list Z) : Prop := length P = length P0 /\ forall c, c ∉ main_cols t -> P !! c = P0 !! c.

Lemma backsub_ok (X : list Z) (D : nat -> Z) (body : nat -> list Z -> res (list Z)) P0 :
  (forall k i c P, main_rows t !! (m - 1 - k)%nat = Some i -> main_cols t !! (m - 1 - k)%nat = Some c -> same_outside P0 P -> (k < m)%nat ->
     body k P = Ok (<[c := Z.lxor (Z.lxor (X !!! i) (vsum P i)) (D i)]> P)) ->
  (sp <= length P0)%nat -> (forall c, c ∈ main_cols t -> P0 !!! c = 0) ->
  wp (for_ m body P0) (fun P => same_outside P0 P /\ forall i, i ∈ main_rows t -> Z.lxor (vsum P i) (D i) = X !!! i).
Proof.
  intros Hbody Hl Hz. pose proof (tr_square px t Ht) as Hsq.
  apply (wp_for _ _ (fun k P => same_outside P0 P /\
    (forall a c, (a < m - k)%nat -> main_cols t !! a = Some c -> P !!! c = 0) /\
    forall a i, (m - k <= a)%nat -> main_rows t !! a = Some i -> Z.lxor (vsum P i) (D i) = X !!! i)).
  - split; [by split|]. split.
    + intros a c _ Hc. apply Hz. by apply list_elem_of_lookup_2 in Hc.
    + intros a i Ha Hi. apply lookup_lt_Some in Hi. lia.
  - intros k P Hk (Hout & Hzero & Heq). set (a := (m - 1 - k)%nat). destruct (lookup_lt_is_Some_2 (main_rows t) a ltac:(lia)) as [i Hi].
    destruct (lookup_lt_is_Some_2 (main_cols t) a ltac:(lia)) as [c Hc]. rewrite (Hbody k i c P Hi Hc Hout Hk). cbn [wp].
    pose proof (main_row_lt px t Ht a i Hi) as HiN. pose proof (main_col_lt px t Ht a c Hc) as Hcs. destruct Hout as [HlP Hout].
    assert (P !!! c = 0) as Hc0 by (apply (Hzero a c); [lia|done]). split; [split|split].
    + by rewrite length_insert.
    + intros c' Hc'. rewrite list_lookup_insert_ne; [by apply Hout|]. intros ->. apply Hc'. by apply list_elem_of_lookup_2 in Hc.
    + intros a' c' Ha' Hc'. rewrite list_lookup_total_insert_ne; [apply (Hzero a' c'); [lia|done]|].
      intros ->. pose proof (main_col_unique px t Ht a' a c' Hc' Hc). lia.
    + intros a' i' Ha' Hi'. pose proof (main_row_lt px t Ht a' i' Hi') as Hi'N. rewrite vsum_insert by (done || lia).
      destruct (decide (a' = a)) as [->|Hne].
      * assert (i' = i) as -> by congruence. destruct (tr_ordered px t Ht a i a c Hi Hc) as [Hin _].
        rewrite bool_decide_true by by apply Hin. set (v := vsum P i). rewrite (Z.lxor_comm (X !!! i) v), !Z.lxor_assoc, lxor_cancel.
        by rewrite Z.lxor_nilpotent, Z.lxor_0_r.
      * destruct (tr_ordered px t Ht a' i' a c Hi' Hc) as [_ Hno]. rewrite bool_decide_false by (apply Hno; lia). rewrite Z.lxor_0_r.
        apply (Heq a'); [lia|done].
  - intros P (Hout & _ & Heq). split; [done|]. intros i Hi. apply list_elem_of_lookup in Hi as [a Ha]. apply (Heq a i); [lia|done].
Qed.

Lemma add_row_values_ok P i y : (i < N)%nat -> (sp <= length P)%nat -> add_row_values px P i y = Ok (Z.lxor y (vsum P i)).
Proof.
  intros Hi Hl. enough (wp (add_row_values px P i y) (fun r => r = Z.lxor y (vsum P i))) as Hwp.
  { apply wp_iff in Hwp as (r & -> & ->). done. }
  unfold add_row_values. apply (wp_for _ _ (fun j r => r = Z.lxor y (xors (map (fun c => P !!! c) (take j (row px i)))))).
  - cbn. by rewrite Z.lxor_0_r.
  - intros j r Hj ->. destruct (row_at_ok px Hwf i j Hi Hj) as (c & -> & Hc & Hcs). run. rewrite vget_total by lia. run.
    rewrite (rsum_take px (fun c => P !!! c) i j c Hc). unfold Add. apply Z.lxor_assoc.
  - intros r ->. unfold vsum, rsum. rewrite take_ge; [done|]. by rewrite (length_row px i Hwf Hi).
Qed.
Lemma add_row3_eq P i y : weight (param px) = 3%nat -> (i < N)%nat -> (sp <= length P)%nat -> add_row3 px P i y = add_row_values px P i y.
Proof.
  intros Hw Hi Hl. unfold add_row3, add_row_values. rewrite Hw. unfold for_. cbn [for_from].
  destruct (row_at_ok px Hwf i 0 Hi ltac:(lia)) as (c0 & -> & _ & H0). destruct (row_at_ok px Hwf i 1 Hi ltac:(lia)) as (c1 & -> & _ & H1).
  destruct (row_at_ok px Hwf i 2 Hi ltac:(lia)) as (c2 & -> & _ & H2). run. rewrite !vget_total by lia. run. done.
Qed.

(** A gap row: its sparse product is the sum of those of its main rows. *)
Lemma gap_vsum P r l : (sp <= length P)%nat -> (forall c, (c < sp)%nat -> c ∉ main_cols t -> P !!! c = 0) -> (r < N)%nat ->
  cancels px t r l -> vsum P r = xors (map (vsum P) l).
Proof.
  intros Hl Hz Hr [HF Hc]. set (f := fun c => if bool_decide (c ∈ main_cols t) then P !!! c else 0).
  assert (forall i, (i < N)%nat -> vsum P i = rsum px f i) as Hf.
  { intros i Hi. destruct (wf_row px Hwf i Hi) as [_ HFr]. unfold vsum, rsum. apply xors_ext. intros c Hcr. unfold f.
    case_bool_decide; [done|]. apply Hz; [|done]. exact (proj1 (Forall_forall _ _) HFr c Hcr). }
  rewrite (Hf r Hr), (Hc f).
  - apply xors_ext. intros i Hi. symmetry. apply Hf. pose proof (proj1 (Forall_forall _ _) HF i Hi) as Him.
    apply list_elem_of_lookup in Him as [a Ha]. by eapply main_row_lt.
  - intros c Hn. unfold f. by rewrite bool_decide_false.
Qed.
End backsub.
