(* ===== verification/PaxosDense.v ===== *)
(** * PaXoS: the dense columns solve the gap (psi/algorithm/rr22/okvs/paxos)

    The gap rows are solved on the dense columns: in the binary variant
    [GetGapCols] finds a choice of columns whose matrix E' is invertible, if there
    is one, and the inverse gives the values; in the GF(2^128) variant a single
    gap row is solved by a division. *)
From S2P Require Import Prelude Galois PaxosHash WeightData DenseMtx Combination Paxos PaxosEncode PaxosSolve.

(** ** Sums over rows *)
Lemma for_each_total {A} (l : list nat) (f : nat -> A) (op : A -> A -> A) (g : nat -> A -> res A) x :
  (forall j a, j ∈ l -> g j a = Ok (op a (f j))) -> for_each l g x = Ok (fold_left op (map f l) x).
Proof.
  revert x. induction l as [|j l IH]; intros x Hg; [done|]. cbn [for_each map fold_left]. rewrite Hg by by left. run. apply IH.
  intros j' a Hj'. apply Hg. by right.
Qed.
Lemma fold_left_lxor l x : fold_left Z.lxor l x = Z.lxor x (xors l).
Proof. revert x. induction l as [|y l IH]; intros x; cbn [fold_left xors foldr]; [by rewrite Z.lxor_0_r|]. rewrite IH. apply Z.lxor_assoc. Qed.

Section sums.
Context (px : Paxos).
Abbreviation N := (num_items_ px).

(** A row of E' before the columns are chosen: the dense part of a gap row with
    those of its main rows. *)
Definition erow (r : nat) (l : list nat) : Z := Z.lxor (dense_ px !!! r) (xors (map (fun j => dense_ px !!! j) l)).

Lemma add_dense_ok l d n : length (dense_ px) = n -> Forall (fun j => (j < n)%nat) l ->
  add_dense px l d = Ok (Z.lxor d (xors (map (fun j => dense_ px !!! j) l))).
Proof.
  intros Hn HF. unfold add_dense. rewrite (for_each_total l (fun j => dense_ px !!! j) Z.lxor); [by rewrite fold_left_lxor|].
  intros j a Hj. rewrite vget_total; [done|]. rewrite Hn. exact (proj1 (Forall_forall _ _) HF j Hj).
Qed.
Lemma add_values_ok X l x n : length X = n -> Forall (fun j => (j < n)%nat) l ->
  add_values X l x = Ok (Z.lxor x (xors (map (fun j => X !!! j) l))).
Proof.
  intros Hn HF. unfold add_values. rewrite (for_each_total l (fun j => X !!! j) Z.lxor); [by rewrite fold_left_lxor|].
  intros j a Hj. rewrite vget_total; [done|]. rewrite Hn. exact (proj1 (Forall_forall _ _) HF j Hj).
Qed.
End sums.

(** ** Choosing the gap columns *)

(** The part of a word on some columns. *)
Definition on_cols (l : list nat) (e : nat -> Z) : bmat := fun q j => Z.testbit (e q) (Z.of_nat (l !!! j)).

Lemma singular_meq n A B : meq n A B -> singular n A -> singular n B.
Proof.
  intros HAB (v & Hv & Hz). exists v. split; [done|]. intros r Hr. rewrite <- (Hz r Hr). apply bsum_ext. intros k Hk. by rewrite HAB.
Qed.

Lemma ascending_NoDup_lt n l : ascending_set n l -> NoDup l /\ Forall (fun x => (x < n)%nat) l.
Proof.
  unfold ascending_set. intros Hd. enough (NoDup (reverse l) /\ Forall (fun x => (x < n)%nat) (reverse l)) as [Hn HF].
  { rewrite <- (reverse_involutive l). split; [by rewrite (reverse_Permutation (reverse l))|by apply Forall_reverse]. }
  revert n Hd. induction (reverse l) as [|x d IH]; intros n Hd; [split; constructor|]. destruct Hd as [Hx Hd].
  destruct (IH x Hd) as [Hn HF]. split; [|constructor; [done|eapply Forall_impl; [exact HF|cbn; lia]]].
  constructor; [|done]. intros Hin. pose proof (proj1 (Forall_forall _ _) HF x Hin). cbn beta in *. lia.
Qed.

Section put_bits.
Context (gg : nat) (Hgg : (0 < gg)%nat).

Lemma resize_wf EE : wf (resize_mtx gg gg EE) gg gg.
Proof. unfold wf. cbn [resize_mtx bit_rows_ rows_ cols_ data_]. rewrite length_resize. done. Qed.

Lemma put_bits_ok E l i EE :
  wf EE gg gg -> (i < gg)%nat -> length l = gg -> Forall (fun c => (c < 128)%nat) l ->
  wp (put_bits E (map Z.of_nat l) i gg EE) (fun EE' => wf EE' gg gg /\ forall q j, (q < gg)%nat -> (j < gg)%nat ->
    bits EE' q j = if bool_decide (q = i) then Z.testbit E (Z.of_nat (l !!! j)) else bits EE q j).
Proof.
  intros Hw Hi Hl HF. unfold put_bits.
  apply (wp_for _ _ (fun k EE' => wf EE' gg gg /\ forall q j, (q < gg)%nat -> (j < gg)%nat ->
    bits EE' q j = if bool_decide (q = i /\ (j < k)%nat) then Z.testbit E (Z.of_nat (l !!! j)) else bits EE q j)).
  - split; [done|]. intros q j _ _. rewrite bool_decide_false by lia. done.
  - intros k EE' Hk [Hw' Hb]. destruct (lookup_lt_is_Some_2 l k ltac:(lia)) as [c Hc].
    rewrite vgetz_vget by lia. rewrite Nat2Z.id. assert (vget (map Z.of_nat l) k = Ok (Z.of_nat c)) as -> by (apply vget_ok; by rewrite lookup_map, Hc).
    run. rewrite Nat2Z.id. pose proof (Forall_lookup_1 _ _ _ _ HF Hc) as Hc128. cbn beta in Hc128.
    unfold bit_at. rewrite bool_decide_true by done. run. rewrite bit_get_testbit.
    eapply wp_mono; [by apply (put_ok gg gg)|]. intros EE2 [Hw2 Hb2]. split; [done|]. intros q j Hq Hj. rewrite Hb2, Hb by done.
    destruct (decide (q = i /\ j = k)) as [[-> ->]|Hn].
    + rewrite !bool_decide_true by lia. by rewrite (list_lookup_total_correct _ _ _ Hc).
    + rewrite (bool_decide_false (q = i /\ j = k)) by done. destruct (decide (q = i /\ (j < k)%nat)).
      * rewrite !bool_decide_true by lia. done.
      * rewrite !bool_decide_false by lia. done.
  - intros EE' [Hw' Hb]. split; [done|]. intros q j Hq Hj. rewrite Hb by done. destruct (decide (q = i)) as [->|].
    + rewrite !bool_decide_true by lia. done.
    + rewrite !bool_decide_false by lia. done.
Qed.

(** A matrix filled row by row. *)
Lemma put_rows_ok (f : nat -> res Z) (e : nat -> Z) l EE0 :
  wf EE0 gg gg -> length l = gg -> Forall (fun c => (c < 128)%nat) l -> (forall i, (i < gg)%nat -> f i = Ok (e i)) ->
  wp (for_ gg (fun i EE => E ← f i; put_bits E (map Z.of_nat l) i gg EE) EE0) (fun EE => wf EE gg gg /\ meq gg (bits EE) (on_cols l e)).
Proof.
  intros Hw Hl HF Hf.
  apply (wp_for _ _ (fun i EE => wf EE gg gg /\ forall q j, (q < i)%nat -> (q < gg)%nat -> (j < gg)%nat -> bits EE q j = on_cols l e q j)).
  - split; [done|]. intros; lia.
  - intros i EE Hi [Hw' Hb]. rewrite Hf by done. run. eapply wp_mono; [by apply put_bits_ok|]. intros EE' [Hw2 Hb2]. split; [done|].
    intros q j Hq Hqg Hj. rewrite Hb2 by done. case_bool_decide as E; [by subst|]. apply Hb; lia.
  - intros EE [Hw' Hb]. split; [done|]. intros q j Hq Hj. by apply Hb.
Qed.
End put_bits.

Section gap.
Context `{SymmetricCrypto} `{Libdivide} (idx : Z).
Context (px : Paxos) (t : Tri) (Hwf : wf_rows px) (Ht : triangular px t).
Abbreviation N := (num_items_ px).
Abbreviation sp := (sparse_size (param px)).
Abbreviation ds := (dense_size (param px)).
Abbreviation gaps := (gap_rows t).
Abbreviation gg := (length (gap_rows t)).

Context (fcinv : list (list nat)) (Hfl : length fcinv = gg).
Context (Hfc : forall q r l, gaps !! q = Some r -> fcinv !! q = Some l -> cancels px t r.1 l).

(** The rows of E'. *)
Definition eprime (q : nat) : Z := erow px (gaps !!! q).1 (fcinv !!! q).

Lemma gap_facts q : (q < gg)%nat -> exists r l, gaps !! q = Some r /\ fcinv !! q = Some l /\ (r.1 < N)%nat /\ cancels px t r.1 l /\
  Forall (fun j => (j < N)%nat) l /\ eprime q = erow px r.1 l.
Proof.
  intros Hq. destruct (lookup_lt_is_Some_2 gaps q Hq) as [r Hr]. destruct (lookup_lt_is_Some_2 fcinv q ltac:(lia)) as [l Hl].
  exists r, l. split; [done|]. split; [done|]. destruct r as [r b]. pose proof Hr as Hin. apply list_elem_of_lookup_2 in Hin.
  destruct (gap_row_lt px t Ht r b Hin) as [Hrn _]. split; [done|]. pose proof (Hfc q _ l Hr Hl) as Hc. split; [done|]. split.
  - destruct Hc as [HF _]. eapply Forall_impl; [exact HF|]. cbn. intros i Hi. apply list_elem_of_lookup in Hi as [k Hk].
    by eapply (main_row_lt px t Ht).
  - unfold eprime. by rewrite (list_lookup_total_correct _ _ _ Hr), (list_lookup_total_correct _ _ _ Hl).
Qed.

Lemma dense_len : length (dense_ px) = N.
Proof. apply (wf_dense px Hwf). Qed.

(** One row of E', in the two orders the code adds it up. *)
Lemma gap_cols_row q : (q < gg)%nat ->
  (c ← vget fcinv q; FCB ← add_dense px c 0; r ← vget gaps q; d ← vget (dense_ px) r.1; Ok (Z.lxor d FCB)) = Ok (eprime q).
Proof.
  intros Hq. destruct (gap_facts q Hq) as (r & l & Hr & Hl & Hrn & _ & HF & ->). rewrite (proj2 (vget_ok _ _ _) Hl). run.
  rewrite (add_dense_ok px l _ N) by (done || apply dense_len). run. rewrite (proj2 (vget_ok _ _ _) Hr). run.
  rewrite (vget_total (dense_ px)) by (by rewrite dense_len). run. by rewrite Z.lxor_0_l.
Qed.
Lemma eprime_row q : (q < gg)%nat ->
  (r ← vget gaps q; d ← vget (dense_ px) r.1; c ← vget fcinv q; add_dense px c d) = Ok (eprime q).
Proof.
  intros Hq. destruct (gap_facts q Hq) as (r & l & Hr & Hl & Hrn & _ & HF & ->). rewrite (proj2 (vget_ok _ _ _) Hr). run.
  rewrite (vget_total (dense_ px)) by (by rewrite dense_len). run. rewrite (proj2 (vget_ok _ _ _) Hl). run. by rewrite (add_dense_ok px l _ N) by (done || apply dense_len).
Qed.

(** Every choice of gap columns gives a singular matrix. *)
Definition all_singular : Prop := forall l, ascending_set ds l -> length l = gg -> singular gg (on_cols l eprime).
Definition chosen (gap_cols : list Z) : Prop :=
  exists l, gap_cols = map Z.of_nat l /\ ascending_set ds l /\ length l = gg /\ ~ singular gg (on_cols l eprime).

Context (Hgg : (0 < gg <= ds)%nat) (Hds : (ds <= 128)%nat) (Hfits : fits ds gg).

Lemma binom_room : binom ds gg + 1 < 2 ^ 64.
Proof.
  destruct Hfits as [H1 _]. specialize (H1 gg ltac:(lia)). pose proof (binom_nonneg ds gg). destruct (decide (gg = 1%nat)) as [->|].
  - pose proof (binom_next ds 0) as E. rewrite binom_0_r in E. lia.
  - nia.
Qed.

Lemma cols_lt l : ascending_set ds l -> Forall (fun c => (c < 128)%nat) l.
Proof. intros Ha. destruct (ascending_NoDup_lt ds l Ha) as [_ HF]. eapply Forall_impl; [exact HF|]. cbn. lia. Qed.

Lemma map_of_nat_inj (l l' : list nat) : map Z.of_nat l = map Z.of_nat l' -> l = l'.
Proof.
  revert l'. induction l as [|x l IH]; intros [|y l']; [done..|]. cbn [map]. intros [= E E']. f_equal; [lia|by apply IH].
Qed.

Lemma try_gap_cols_ok fuel : forall ci EE,
  Z.of_nat fuel + ci = binom ds gg + 1 -> 0 <= ci <= binom ds gg ->
  (forall l, ascending_set ds l -> length l = gg -> rank (reverse l) < ci -> singular gg (on_cols l eprime)) ->
  outcome all_singular (try_gap_cols fuel px fcinv gaps ci (binom ds gg) EE) chosen.
Proof.
  pose proof binom_room as Hroom. induction fuel as [|fuel IH]; intros ci EE Hf Hci Hs; [lia|]. cbn [try_gap_cols].
  rewrite u64_small by lia. destruct (decide (ci = binom ds gg)) as [->|Hlt].
  - apply outcome_bind, wp_outcome. eapply wp_mono; [apply (ithCombination_past ds gg); (done || lia)|].
    intros s _. rewrite (proj2 (Z.leb_gt _ _)) by lia. intros l Ha Hl. apply Hs; [done|done|].
    pose proof (rank_bounds ds (reverse l) Ha) as Hr. rewrite length_reverse, Hl in Hr. lia.
  - destruct (unrank ds gg ci ltac:(lia)) as (d & Hd & Hdl & Hdr). pose proof (ithCombination_rank ds d Hd) as Hith. rewrite Hdl, Hdr in Hith.
    rewrite (Hith Hfits). run. rewrite (proj2 (Z.leb_le _ _)) by lia. run.
    assert (ascending_set ds (reverse d)) as Ha by (unfold ascending_set; by rewrite reverse_involutive).
    assert (length (reverse d) = gg) as Hrl by (by rewrite length_reverse).
    rewrite (for_ext gg _ (fun i EE => E ← Ok (eprime i); put_bits E (map Z.of_nat (reverse d)) i gg EE)).
    2:{ intros i EE' Hi. rewrite <- (gap_cols_row i Hi). destruct (vget fcinv i); run; try done. destruct (add_dense px _ 0); run; try done.
        destruct (vget gaps i); run; try done. by destruct (vget (dense_ px) _). }
    apply outcome_bind, wp_outcome. eapply wp_mono; [apply (put_rows_ok gg ltac:(lia) _ eprime (reverse d)); try done|].
    { apply resize_wf. lia. } { by apply cols_lt. }
    intros EE' [Hw Hm]. apply outcome_bind, wp_outcome. eapply wp_mono; [by apply Invert_spec|]. intros [self inv] [(Hr & _ & _ & Hi & _)|[-> Hsing]].
    + rewrite bool_decide_false by lia. exists (reverse d). split; [done|]. split; [done|]. split; [done|]. intros Hn.
      apply (singular_no_inverse gg (bits EE') (bits inv)); [done|]. eapply singular_meq; [|exact Hn]. symmetry. exact Hm.
    + rewrite bool_decide_true by done. apply IH; [lia|lia|]. intros l Hla Hll Hlr. destruct (decide (rank (reverse l) < ci)); [by apply Hs|].
      pose proof (ithCombination_rank ds (reverse l) Hla) as Hith'. rewrite length_reverse, Hll, reverse_involutive in Hith'.
      specialize (Hith' Hfits). replace (rank (reverse l)) with ci in Hith' by lia. rewrite (Hith Hfits) in Hith'. injection Hith' as E.
      apply map_of_nat_inj in E. subst l. by eapply singular_meq.
Qed.

Lemma GetGapCols_ok : outcome all_singular (GetGapCols px fcinv gaps) chosen.
Proof.
  unfold GetGapCols. rewrite bool_decide_false by lia. rewrite Choose_binom by (done || lia). run.
  pose proof (binom_nonneg ds gg). apply try_gap_cols_ok; [lia|lia|]. intros l Ha Hl Hr.
  pose proof (rank_bounds ds (reverse l) Ha). lia.
Qed.

Lemma GetEPrime_ok l : ascending_set ds l -> length l = gg ->
  wp (GetEPrime px fcinv gaps (map Z.of_nat l)) (fun EE => wf EE gg gg /\ meq gg (bits EE) (on_cols l eprime)).
Proof.
  intros Ha Hl. unfold GetEPrime. rewrite (for_ext gg _ (fun i EE => E ← Ok (eprime i); put_bits E (map Z.of_nat l) i gg EE)).
  2:{ intros i EE' Hi. rewrite <- (eprime_row i Hi). destruct (vget gaps i); run; try done. destruct (vget (dense_ px) _); run; try done.
      destruct (vget fcinv i); run; try done. }
  apply (put_rows_ok gg ltac:(lia)); try done; [apply resize_wf; lia|by apply cols_lt].
Qed.

(** x2' without random columns. *)
Definition x2prime (X : list Z) (q : nat) : Z := Z.lxor (X !!! (gaps !!! q).1) (xors (map (fun j => X !!! j) (fcinv !!! q))).
Lemma GetX2Prime_ok gap_cols X : length X = N -> GetX2Prime px fcinv gaps gap_cols X [] = Ok (tabulate gg (x2prime X)).
Proof.
  intros HX. unfold GetX2Prime. rewrite (bool_decide_true (length X = N)) by done. run. rewrite bool_decide_false by (cbn; lia).
  rewrite (for_ext gg _ (fun i xx2 => x ← Ok (x2prime X i); Ok (xx2 ++ [x]))).
  - rewrite (for_push gg (fun i => Ok (x2prime X i)) (x2prime X)) by done. done.
  - intros i xx Hi. destruct (gap_facts i Hi) as (r & l & Hr & Hl & Hrn & _ & HF & _). rewrite (proj2 (vget_ok _ _ _) Hr). run.
    rewrite (vget_total X) by lia. run. rewrite (proj2 (vget_ok _ _ _) Hl). run. rewrite (add_values_ok X l _ N) by done. run.
    unfold x2prime. by rewrite (list_lookup_total_correct _ _ _ Hr), (list_lookup_total_correct _ _ _ Hl).
Qed.
End gap.

(** ** The value of a dense part *)
Section dense_value.
Context (px : Paxos).
Abbreviation sp := (sparse_size (param px)).
Abbreviation ds := (dense_size (param px)).

(** A vector added up over the columns that a word selects. *)
Definition select (d : Z) (k : nat) (x : Z) : Z := if Z.testbit d (Z.of_nat k) then x else 0.
Definition dbin (P : list Z) (d : Z) : Z := xors (map (fun k => select d k (P !!! (sp + k)%nat)) (seq 0 ds)).

Lemma select_lxor a b k x : select (Z.lxor a b) k x = Z.lxor (select a k x) (select b k x).
Proof.
  unfold select. rewrite Z.lxor_spec. destruct (Z.testbit a (Z.of_nat k)), (Z.testbit b (Z.of_nat k)); cbn [xorb];
    rewrite ?Z.lxor_nilpotent, ?Z.lxor_0_l, ?Z.lxor_0_r; done.
Qed.
Lemma dbin_lxor P a b : dbin P (Z.lxor a b) = Z.lxor (dbin P a) (dbin P b).
Proof. unfold dbin. rewrite <- xors_lxor. apply xors_ext. intros k _. apply select_lxor. Qed.
Lemma dbin_0 P : dbin P 0 = 0.
Proof. apply xors_zero. intros k _. unfold select. by rewrite Z.testbit_0_l. Qed.

Lemma dbin_on P d l : ascending_set ds l -> (forall k, (k < ds)%nat -> k ∉ l -> P !!! (sp + k)%nat = 0) ->
  dbin P d = xors (map (fun k => select d k (P !!! (sp + k)%nat)) l).
Proof.
  intros Ha Hz. destruct (ascending_NoDup_lt ds l Ha) as [Hnd HF]. apply xors_supported; [apply NoDup_seq|done| |].
  - intros x Hx. apply elem_of_seq. pose proof (proj1 (Forall_forall _ _) HF x Hx). cbn beta in *. lia.
  - intros x Hx Hn. apply elem_of_seq in Hx. unfold select. rewrite Hz by (done || lia). by destruct (Z.testbit d (Z.of_nat x)).
Qed.

Lemma land_bit a c : 0 <= c -> negb (Z.land a (Z.shiftl 1 c) =? 0) = Z.testbit a c.
Proof.
  intros Hc. assert (Z.land a (Z.shiftl 1 c) = if Z.testbit a c then 2 ^ c else 0) as ->.
  { rewrite Z.shiftl_mul_pow2, Z.mul_1_l by done. apply Z.bits_inj'. intros i Hi. rewrite Z.land_spec, Z.pow2_bits_eqb by done.
    destruct (Z.eqb_spec c i) as [->|Hne].
    - rewrite andb_true_r. destruct (Z.testbit a i); [by rewrite Z.pow2_bits_true|by rewrite Z.testbit_0_l].
    - rewrite andb_false_r. destruct (Z.testbit a c); [by rewrite Z.pow2_bits_false|by rewrite Z.testbit_0_l]. }
  destruct (Z.testbit a c); [|done]. rewrite (proj2 (Z.eqb_neq _ _)); [done|]. pose proof (Z.pow_pos_nonneg 2 c). lia.
Qed.

Definition masks (l : list nat) : list Z := map (fun c => Z.shiftl 1 (Z.of_nat c)) l.

Lemma add_dense_masked_ok P l d y :
  ascending_set ds l -> (ds <= 64)%nat -> (sp + ds <= length P)%nat ->
  add_dense_masked px P (map Z.of_nat l) (masks l) d y = Ok (Z.lxor y (xors (map (fun k => select d k (P !!! (sp + k)%nat)) l))).
Proof.
  intros Ha H64 HP. destruct (ascending_NoDup_lt ds l Ha) as [_ HF].
  enough (wp (add_dense_masked px P (map Z.of_nat l) (masks l) d y) (fun r => r = Z.lxor y (xors (map (fun k => select d k (P !!! (sp + k)%nat)) l)))) as Hwp.
  { apply wp_iff in Hwp as (r & -> & ->). done. }
  unfold add_dense_masked. apply (wp_for _ _ (fun j r => r = Z.lxor y (xors (map (fun k => select d k (P !!! (sp + k)%nat)) (take j l))))).
  - cbn. by rewrite Z.lxor_0_r.
  - unfold masks. rewrite length_map. intros j r Hj ->. rewrite bool_decide_true by done. run.
    destruct (lookup_lt_is_Some_2 l j Hj) as [c Hc]. pose proof (Forall_lookup_1 _ _ _ _ HF Hc) as Hcs. cbn beta in Hcs.
    assert (vget (map (fun c => Z.shiftl 1 (Z.of_nat c)) l) j = Ok (Z.shiftl 1 (Z.of_nat c))) as -> by (apply vget_ok; by rewrite lookup_map, Hc).
    assert (vget (map Z.of_nat l) j = Ok (Z.of_nat c)) as Ec by (apply vget_ok; by rewrite lookup_map, Hc).
    run. rewrite land_bit by lia. unfold u64. rewrite wrap_testbit by lia. rewrite (proj2 (Z.ltb_lt (Z.of_nat c) 64)) by lia. cbn [andb].
    rewrite (take_S_r _ _ _ Hc), map_app. cbn [map]. rewrite xors_snoc, <- Z.lxor_assoc.
    change (select d c (P !!! (sp + c)%nat)) with (if Z.testbit d (Z.of_nat c) then P !!! (sp + c)%nat else 0).
    destruct (Z.testbit d (Z.of_nat c)); [|run; by rewrite Z.lxor_0_r]. rewrite Ec. run. rewrite Nat2Z.id, vget_total by lia. run. done.
  - intros r ->. unfold masks. rewrite length_map. by rewrite take_ge.
Qed.

(** The values of the gap columns, [p2 = E'^-1 x2']. *)
Definition solved (inv : bmat) (gg : nat) (xx2 : list Z) (i : nat) : Z :=
  xors (map (fun j => if inv i j then xx2 !!! j else 0) (seq 0 gg)).

Lemma solved_S inv j xx2 i : solved inv (S j) xx2 i = Z.lxor (solved inv j xx2 i) (if inv i j then xx2 !!! j else 0).
Proof. unfold solved. rewrite seq_S, map_app. apply xors_snoc. Qed.

Lemma solve_entry EEInv gg xx2 l i x P :
  wf EEInv gg gg -> length xx2 = gg -> l !! i = Some x -> (i < gg)%nat -> (sp + x < length P)%nat ->
  for_ gg (fun j P =>
    b ← get EEInv i j;
    if (b : bool) then c ← vget (map Z.of_nat l) i; y ← vget xx2 j; p ← vget P (sp + Z.to_nat c); vset P (sp + Z.to_nat c) (Add p y) else Ok P) P
  = Ok (<[(sp + x)%nat := Z.lxor (P !!! (sp + x)%nat) (solved (bits EEInv) gg xx2 i)]> P).
Proof.
  intros Hw Hx Hl Hi HP. set (pos := (sp + x)%nat) in *.
  match goal with |- ?lhs = Ok ?r => enough (wp lhs (fun P' => P' = r)) as Hwp by (apply wp_iff in Hwp as (? & -> & ->); done) end.
  apply (wp_for _ _ (fun j P' => P' = <[pos := Z.lxor (P !!! pos) (solved (bits EEInv) j xx2 i)]> P)).
  - cbn. rewrite Z.lxor_0_r. symmetry. apply list_insert_id. by apply list_lookup_lookup_total_lt.
  - intros j P' Hj ->. rewrite (get_ok gg gg) by done. run. rewrite solved_S, <- Z.lxor_assoc. destruct (bits EEInv i j); [|run; by rewrite Z.lxor_0_r].
    assert (vget (map Z.of_nat l) i = Ok (Z.of_nat x)) as -> by (apply vget_ok; by rewrite lookup_map, Hl). run.
    rewrite (vget_total xx2) by lia. run. rewrite Nat2Z.id. fold pos. rewrite vget_total by (by rewrite length_insert). run.
    rewrite list_lookup_total_insert_eq by done. rewrite vset_total by (by rewrite length_insert). run. by rewrite list_insert_insert_eq.
  - done.
Qed.

Lemma solve_gap EEInv gg xx2 l P0 :
  wf EEInv gg gg -> length xx2 = gg -> length l = gg -> ascending_set ds l -> length P0 = (sp + ds)%nat ->
  wp (for_ gg (fun i P => for_ gg (fun j P =>
        b ← get EEInv i j;
        if (b : bool) then c ← vget (map Z.of_nat l) i; y ← vget xx2 j; p ← vget P (sp + Z.to_nat c); vset P (sp + Z.to_nat c) (Add p y) else Ok P) P) P0)
    (fun P => length P = length P0 /\ (forall c, (forall x, x ∈ l -> c <> (sp + x)%nat) -> P !! c = P0 !! c) /\
      forall i x, l !! i = Some x -> P !!! (sp + x)%nat = Z.lxor (P0 !!! (sp + x)%nat) (solved (bits EEInv) gg xx2 i)).
Proof.
  intros Hw Hx Hl Ha HP. destruct (ascending_NoDup_lt ds l Ha) as [Hnd HF].
  apply (wp_for _ _ (fun i P => length P = length P0 /\ (forall c, (forall x, x ∈ l -> c <> (sp + x)%nat) -> P !! c = P0 !! c) /\
    forall i' x, l !! i' = Some x -> P !!! (sp + x)%nat =
      if bool_decide (i' < i)%nat then Z.lxor (P0 !!! (sp + x)%nat) (solved (bits EEInv) gg xx2 i') else P0 !!! (sp + x)%nat)).
  - done.
  - intros i P Hi (HlP & Hout & Hin). destruct (lookup_lt_is_Some_2 l i ltac:(lia)) as [x Hxi].
    pose proof (Forall_lookup_1 _ _ _ _ HF Hxi) as Hxs. cbn beta in Hxs. rewrite (solve_entry EEInv gg xx2 l i x P) by (done || lia). cbn [wp].
    split; [by rewrite length_insert|]. split.
    + intros c Hc. rewrite list_lookup_insert_ne; [by apply Hout|]. intros E. apply (Hc x); [by apply list_elem_of_lookup_2 in Hxi|done].
    + intros i' x' Hx'. destruct (decide (i' = i)) as [->|Hne].
      * rewrite Hxi in Hx'. injection Hx' as <-. rewrite list_lookup_total_insert_eq by lia. rewrite bool_decide_true by lia.
        by rewrite (Hin i x Hxi), bool_decide_false by lia.
      * rewrite list_lookup_total_insert_ne. 2:{ intros E. assert (x = x') as -> by lia. apply Hne. by eapply NoDup_lookup. }
        rewrite (Hin i' x' Hx'). destruct (decide (i' < i)%nat); [rewrite !bool_decide_true by lia|rewrite !bool_decide_false by lia]; done.
  - intros P (HlP & Hout & Hin). split; [done|]. split; [done|]. intros i x Hxi. rewrite (Hin i x Hxi).
    rewrite bool_decide_true; [done|]. rewrite <- Hl. by eapply lookup_lt_Some.
Qed.

(** The inverse solves the equations. *)
Lemma solved_equations EE inv gg xx2 l e P :
  length l = gg -> length xx2 = gg -> ascending_set ds l -> meq gg EE (on_cols l e) -> meq gg (mmul gg EE inv) id_mat ->
  (forall k, (k < ds)%nat -> k ∉ l -> P !!! (sp + k)%nat = 0) ->
  (forall i x, l !! i = Some x -> P !!! (sp + x)%nat = solved inv gg xx2 i) ->
  forall q, (q < gg)%nat -> dbin P (e q) = xx2 !!! q.
Proof.
  intros Hl Hx Ha HE Hinv Hz Hs q Hq. rewrite (dbin_on P (e q) l Ha Hz).
  assert (map (fun k => select (e q) k (P !!! (sp + k)%nat)) l = map (fun i => if EE q i then solved inv gg xx2 i else 0) (seq 0 gg)) as ->.
  { apply list_eq. intros i. rewrite !lookup_map. destruct (decide (i < gg)%nat).
    - rewrite lookup_seq_lt by done. destruct (lookup_lt_is_Some_2 l i ltac:(lia)) as [x Hxi]. rewrite Hxi. cbn [fmap option_fmap option_map Nat.add].
      rewrite (HE q i) by done. unfold on_cols. rewrite (list_lookup_total_correct _ _ _ Hxi). unfold select. by rewrite (Hs i x Hxi).
    - rewrite (lookup_ge_None_2 l), (lookup_ge_None_2 (seq 0 gg)) by (rewrite ?length_seq; lia). done. }
  apply Z.bits_inj'. intros k Hk. rewrite xors_testbit by done.
  rewrite (bsum_ext gg _ (fun i => bsum gg (fun j => EE q i && inv i j && Z.testbit (xx2 !!! j) k))).
  - rewrite bsum_swap. rewrite (bsum_ext gg _ (fun j => bool_decide (j = q) && Z.testbit (xx2 !!! j) k)); [by rewrite bsum_delta|].
    intros j Hj. rewrite bsum_and_r. f_equal. etransitivity; [exact (Hinv q j Hq Hj)|]. unfold id_mat. apply bool_decide_ext. by split.
  - intros i Hi. destruct (EE q i); cbn [andb]; [|by rewrite Z.testbit_0_l, bsum_zero].
    unfold solved. rewrite xors_testbit by done. apply bsum_ext. intros j Hj. destruct (inv i j); [done|]. by rewrite Z.testbit_0_l.
Qed.
End dense_value.
