(* ===== verification/PaxosBackfill.v ===== *)
(** * PaXoS: the vector that is encoded (psi/algorithm/rr22/okvs/paxos)

    Back substitution on top of the solved gap: after [BackfillBinary], and after
    [BackfillGf128] with at most one gap row, the product of every row of the
    matrix with the vector is the value of the row. *)
From S2P Require Import Prelude Galois PaxosHash WeightData DenseMtx Combination Paxos PaxosInput PaxosEncode PaxosSolve PaxosDense.

(** ** The solved equations *)
Section solution.
Context (px : Paxos) (t : Tri) (Hwf : wf_rows px) (Ht : triangular px t).
Abbreviation N := (num_items_ px).
Abbreviation sp := (sparse_size (param px)).
Abbreviation ds := (dense_size (param px)).

(** With the main rows solved and the gap rows solved on the dense part, every row is. *)
Lemma gap_row_solved (X : list Z) (dd : Z -> Z) P r l :
  (sp <= length P)%nat -> (forall c, (c < sp)%nat -> c ∉ main_cols t -> P !!! c = 0) -> (r < N)%nat -> cancels px t r l ->
  (forall i, i ∈ main_rows t -> Z.lxor (vsum px P i) (dd (dense_ px !!! i)) = X !!! i) ->
  dd (erow px r l) = Z.lxor (dd (dense_ px !!! r)) (xors (map (fun j => dd (dense_ px !!! j)) l)) ->
  dd (erow px r l) = Z.lxor (X !!! r) (xors (map (fun j => X !!! j) l)) ->
  Z.lxor (vsum px P r) (dd (dense_ px !!! r)) = X !!! r.
Proof.
  intros Hl Hz Hr Hc Hmain Hadd Heq. rewrite (gap_vsum px t Hwf Ht P r l Hl Hz Hr Hc). destruct Hc as [HF _].
  rewrite (xors_ext (vsum px P) (fun j => Z.lxor (X !!! j) (dd (dense_ px !!! j)))).
  2:{ intros j Hj. rewrite <- (Hmain j) by exact (proj1 (Forall_forall _ _) HF j Hj).
      by rewrite Z.lxor_assoc, Z.lxor_nilpotent, Z.lxor_0_r. }
  rewrite xors_lxor. set (SX := xors (map (fun j => X !!! j) l)) in *. set (SD := xors (map (fun j => dd (dense_ px !!! j)) l)) in *.
  assert (dd (dense_ px !!! r) = Z.lxor (Z.lxor (X !!! r) SX) SD) as -> by (rewrite <- Heq, Hadd, Z.lxor_assoc, Z.lxor_nilpotent, Z.lxor_0_r; done).
  rewrite (Z.lxor_comm SX SD), (Z.lxor_comm (Z.lxor (X !!! r) SX) SD), Z.lxor_assoc.
  rewrite (xors_swap SX SD), lxor_cancel. rewrite xors_swap, Z.lxor_nilpotent. apply Z.lxor_0_r.
Qed.

(** Every row is a main row or a gap row. *)
Lemma rows_cases i : (i < N)%nat -> i ∈ main_rows t \/ exists q r, gap_rows t !! q = Some r /\ r.1 = i.
Proof.
  intros Hi. assert (i ∈ main_rows t ++ (gap_rows t).*1) as Hin by (rewrite (tr_rows px t Ht), elem_of_seq; lia).
  apply elem_of_app in Hin as [|Hin]; [by left|right]. apply list_elem_of_lookup in Hin as [q Hq]. rewrite list_lookup_fmap in Hq.
  apply fmap_Some in Hq as (r & Hr & ->). eauto.
Qed.

Lemma main_cols_sparse c : c ∈ main_cols t -> (c < sp)%nat.
Proof. intros Hc. apply list_elem_of_lookup in Hc as [k Hk]. by apply (main_col_lt px t Ht k). Qed.
Lemma same_outside_total P0 P c : same_outside t P0 P -> c ∉ main_cols t -> P !!! c = P0 !!! c.
Proof. intros [_ Hout] Hc. by rewrite !list_lookup_total_alt, Hout. Qed.
Lemma same_outside_dense P0 P k : same_outside t P0 P -> P !!! (sp + k)%nat = P0 !!! (sp + k)%nat.
Proof. intros Hout. apply same_outside_total; [done|]. intros Hc. apply main_cols_sparse in Hc. lia. Qed.
End solution.

Section binary.
Context `{SymmetricCrypto} `{Libdivide} (avx : bool) (idx vw : Z).
Context (px : Paxos) (t : Tri) (Hwf : wf_rows px) (Ht : triangular px t).
Abbreviation N := (num_items_ px).
Abbreviation sp := (sparse_size (param px)).
Abbreviation ds := (dense_size (param px)).
Abbreviation gg := (length (gap_rows t)).
Context (HN : Z.of_nat N < 2 ^ idx - 1) (Hw : (0 < weight (param px))%nat) (Hsz : (0 < size (param px))%nat).
Context (Hds : (ds <= 64)%nat) (Hg : (g (param px) <= ds)%nat) (Hfits : fits ds (g (param px))).

(** Back substitution with the values of the gap columns. *)
Lemma backfill_binary_rows_ok X l P0 :
  length X = N -> ascending_set ds l -> length P0 = size (param px) ->
  (forall c, (c < sp)%nat -> P0 !!! c = 0) -> (forall k, (k < ds)%nat -> k ∉ l -> P0 !!! (sp + k)%nat = 0) ->
  wp (backfill_binary_rows px (main_rows t) (main_cols t) X (map Z.of_nat l) (masks l) None P0) (fun P =>
    same_outside t P0 P /\ forall i, i ∈ main_rows t -> Z.lxor (vsum px P i) (dbin px P (dense_ px !!! i)) = X !!! i).
Proof.
  intros HX Ha HP Hz1 Hz2. unfold size in HP.
  eapply wp_mono; [apply (backsub_ok px t Hwf Ht X (fun i => dbin px P0 (dense_ px !!! i)))|].
  - intros k i c P Hi Hc Hout Hk. pose proof (main_row_lt px t Ht _ _ Hi) as HiN. pose proof (main_col_lt px t Ht _ _ Hc) as Hcs.
    pose proof (tr_square px t Ht) as Hsq. rewrite (proj2 (vget_ok _ _ _) Hi). run. rewrite Hsq in Hc. rewrite (proj2 (vget_ok _ _ _) Hc). run.
    rewrite (vget_total X) by lia. run. pose proof (proj1 Hout) as HlP. rewrite (add_row_values_ok px Hwf) by (done || lia). run.
    rewrite bool_decide_true by done. run. rewrite (vget_total (dense_ px)) by (rewrite (wf_dense px Hwf); lia). run.
    rewrite add_dense_masked_ok by (done || lia). run. rewrite vset_total by lia. do 4 f_equal.
    rewrite (dbin_on px P0 _ l Ha Hz2). apply xors_ext. intros k' Hk'. f_equal. by apply (same_outside_dense px t Ht).
  - lia.
  - intros c Hc. apply Hz1. by apply (main_cols_sparse px t Ht).
  - intros P [Hout Heq]. split; [done|]. intros i Hi. rewrite <- (Heq i Hi). f_equal. apply xors_ext. intros k Hk. f_equal.
    by apply (same_outside_dense px t Ht).
Qed.

(** The gap has more rows than [g], or no choice of dense columns solves it. *)
Definition unsolvable_binary : Prop :=
  (g (param px) < gg)%nat \/
  exists fcinv, GetFCInv idx px (main_rows t) (main_cols t) (gap_rows t) = Ok fcinv /\ (0 < gg)%nat /\ all_singular px t fcinv.

(** A vector whose product with every row of the matrix is its value. *)
Definition solves_binary (X P : list Z) : Prop :=
  length P = size (param px) /\ forall i, (i < N)%nat -> Z.lxor (vsum px P i) (dbin px P (dense_ px !!! i)) = X !!! i.

Lemma zero_total c : (c < size (param px))%nat -> replicate (size (param px)) 0 !!! c = 0.
Proof. intros Hc. by rewrite lookup_total_replicate_lt. Qed.

(** What the gap phase leaves: the dense columns outside [l] and the sparse
    columns are zero, and the gap equations hold. *)
Definition gap_solution (X : list Z) (st : list Z * list Z * list Z * option Prng) : Prop :=
  let '(P, gap_cols, dense_masks, prng) := st in
  exists l, gap_cols = map Z.of_nat l /\ dense_masks = masks l /\ prng = None /\ ascending_set ds l /\ length P = size (param px) /\
    (forall c, (c < sp)%nat -> P !!! c = 0) /\ (forall k, (k < ds)%nat -> k ∉ l -> P !!! (sp + k)%nat = 0) /\
    forall q r, gap_rows t !! q = Some r -> exists lq, cancels px t r.1 lq /\
      dbin px P (erow px r.1 lq) = Z.lxor (X !!! r.1) (xors (map (fun j => X !!! j) lq)).

Lemma masks_ok l gg : length l = gg -> ascending_set ds l ->
  for_ gg (fun i m => c ← vget (map Z.of_nat l) i; _ ← defined (c <? 64); Ok (m ++ [Z.shiftl 1 c])) [] = Ok (masks l).
Proof.
  intros Hl Ha. destruct (ascending_NoDup_lt ds l Ha) as [_ HF].
  rewrite (for_ext gg _ (fun i m => c ← Ok (Z.shiftl 1 (Z.of_nat (l !!! i))); Ok (m ++ [c]))).
  - rewrite (for_push gg (fun i => Ok (Z.shiftl 1 (Z.of_nat (l !!! i)))) (fun i => Z.shiftl 1 (Z.of_nat (l !!! i)))) by done.
    rewrite app_nil_l. f_equal. unfold masks, tabulate. apply list_eq. intros i. rewrite !lookup_map. destruct (decide (i < gg)%nat).
    + rewrite lookup_seq_lt by done. cbn [fmap option_fmap option_map Nat.add]. rewrite (list_lookup_lookup_total_lt l i) by lia. done.
    + rewrite (lookup_ge_None_2 l), (lookup_ge_None_2 (seq 0 gg)) by (rewrite ?length_seq; lia). done.
  - intros i m Hi. assert (vget (map Z.of_nat l) i = Ok (Z.of_nat (l !!! i))) as ->.
    { apply vget_ok. rewrite lookup_map, (list_lookup_lookup_total_lt l i) by lia. done. }
    run. pose proof (Forall_lookup_total_1 _ _ i HF ltac:(lia)) as Hx. cbn beta in Hx. rewrite (proj2 (Z.ltb_lt _ _)) by lia. done.
Qed.

Lemma solve_gap_binary_ok X owns :
  length X = N -> (0 < gg <= g (param px))%nat ->
  outcome unsolvable_binary
    (solve_gap_binary idx vw px (main_rows t) (main_cols t) (gap_rows t) X owns (replicate (size (param px)) 0) None) (gap_solution X).
Proof.
  intros HX Hgg. set (P0 := replicate (size (param px)) 0). assert (length P0 = (sp + ds)%nat) as HP0 by apply length_replicate.
  unfold solve_gap_binary.
  pose proof (GetFCInv_ok idx px t Hwf Ht HN Hw Hsz) as Hfci. apply wp_iff in Hfci as (fcinv & Efc & Hfl & Hfc). rewrite Efc. run.
  assert (fits ds gg) as Hf by (apply (fits_le ds ds (g (param px)) gg); [lia|lia|done]).
  apply outcome_bind. pose proof (GetGapCols_ok px t Hwf Ht fcinv Hfl Hfc ltac:(lia) ltac:(lia) Hf) as Hgc.
  destruct (GetGapCols px fcinv (gap_rows t)) as [gap_cols| |] eqn:Egc; [|right; exists fcinv; split; [done|split; [lia|exact Hgc]]|done].
  cbn [outcome] in Hgc |- *. destruct Hgc as (l & -> & Ha & Hl & Hns). run.
  rewrite (GetX2Prime_ok px t Ht fcinv Hfl Hfc) by (done || lia). run. set (xx2 := tabulate gg _).
  assert (length xx2 = gg) as Hxx by apply length_tabulate. apply outcome_bind, wp_outcome.
  eapply wp_mono; [apply (GetEPrime_ok px t Hwf Ht fcinv Hfl Hfc); (done || lia)|]. intros EE [HwE HE].
  apply outcome_bind, wp_outcome. eapply wp_mono; [by apply Invert_spec|]. intros [self inv] [(_ & Hwi & Hinv & _ & _)|[_ Hs]].
  2:{ destruct Hns. by eapply singular_meq. }
  apply outcome_bind, wp_outcome. eapply wp_mono; [by apply (solve_gap px inv gg xx2 l P0)|]. intros P (HlP & Hout & Hin).
  rewrite (masks_ok l gg Hl Ha). run. cbn [outcome]. exists l. destruct (ascending_NoDup_lt ds l Ha) as [Hnd HF].
  assert (forall c, (c < size (param px))%nat -> (forall x, x ∈ l -> c <> (sp + x)%nat) -> P !!! c = 0) as Hz.
  { intros c Hc Hx. rewrite list_lookup_total_alt, Hout, <- list_lookup_total_alt by done. by apply zero_total. }
  assert (forall k, (k < ds)%nat -> k ∉ l -> P !!! (sp + k)%nat = 0) as Hz2.
  { intros k Hk Hn. apply Hz; [unfold size; lia|]. intros x Hx E. assert (x = k) as -> by lia. done. }
  split; [done|]. split; [done|]. split; [done|]. split; [done|]. split; [by rewrite HlP|]. split; [|split; [exact Hz2|]].
  { intros c Hc. apply Hz; [unfold size; lia|]. intros x _. lia. }
  intros q r Hr. pose proof (lookup_lt_Some _ _ _ Hr) as Hq. destruct (lookup_lt_is_Some_2 fcinv q ltac:(lia)) as [lq Hlq].
  exists lq. split; [by apply (Hfc q r lq)|].
  pose proof (solved_equations px (bits EE) (bits inv) gg xx2 l (eprime px t fcinv) P Hl Hxx Ha HE Hinv Hz2) as Heq.
  assert (forall i x, l !! i = Some x -> P !!! (sp + x)%nat = solved (bits inv) gg xx2 i) as Hsol.
  { intros i x Hx. rewrite (Hin i x Hx). unfold P0. rewrite zero_total; [apply Z.lxor_0_l|].
    pose proof (Forall_lookup_1 _ _ _ _ HF Hx). cbn beta in *. unfold size. lia. }
  specialize (Heq Hsol q Hq). unfold eprime in Heq. rewrite (list_lookup_total_correct _ _ _ Hr), (list_lookup_total_correct _ _ _ Hlq) in Heq.
  rewrite Heq. unfold xx2. rewrite tabulate_lookup by done. unfold x2prime.
  by rewrite (list_lookup_total_correct _ _ _ Hr), (list_lookup_total_correct _ _ _ Hlq).
Qed.

Lemma dbin_xors P l (f : nat -> Z) : dbin px P (xors (map f l)) = xors (map (fun j => dbin px P (f j)) l).
Proof. induction l as [|j l IH]; [apply dbin_0|]. cbn [map xors foldr]. fold (xors (map f l)). by rewrite dbin_lxor, IH. Qed.

Lemma BackfillBinary_ok X owns :
  length X = N ->
  outcome unsolvable_binary
    (BackfillBinary idx vw px (main_rows t) (main_cols t) (gap_rows t) X owns (replicate (size (param px)) 0, None))
    (fun '(P, prng) => solves_binary X P).
Proof.
  intros HX. set (P0 := replicate (size (param px)) 0). assert (length P0 = (sp + ds)%nat) as HP0 by apply length_replicate.
  unfold BackfillBinary. rewrite (bool_decide_true (sp <= length P0)%nat) by lia. run.
  destruct (decide (gg <= g (param px))%nat) as [Hgg|]; [|rewrite (bool_decide_false (gg <= g (param px))%nat) by done; left; lia].
  rewrite (bool_decide_true (gg <= g (param px))%nat) by done. run. apply outcome_bind. eapply (outcome_mono _ _ (gap_solution X)).
  - destruct (decide (gg = 0%nat)) as [E0|Hne].
    + rewrite bool_decide_true by done. exists []. do 4 (split; [done|]). split; [exact HP0|].
      split; [intros c Hc; apply zero_total; unfold size; lia|]. split; [intros k Hk _; apply zero_total; unfold size; lia|].
      intros q r Hr. apply lookup_lt_Some in Hr. lia.
    + rewrite bool_decide_false by done. apply solve_gap_binary_ok; [done|lia].
  - intros [[[P1 gap_cols] dense_masks] prng] (l & -> & -> & -> & Ha & HP1 & Hz1 & Hz2 & Hgap). apply outcome_bind, wp_outcome.
    eapply wp_mono; [by apply (backfill_binary_rows_ok X l P1)|]. intros P [Hout Heq]. cbn [outcome].
    split; [by rewrite (proj1 Hout)|]. intros i Hi. destruct (rows_cases px t Ht i Hi) as [Hm|(q & r & Hq & <-)]; [by apply Heq|].
    destruct (Hgap q r Hq) as (lq & Hcan & Hd).
    assert (forall d, dbin px P d = dbin px P1 d) as Hdd.
    { intros d. apply xors_ext. intros k _. f_equal. by apply (same_outside_dense px t Ht). }
    apply (gap_row_solved px t Hwf Ht X (dbin px P) P r.1 lq).
    + rewrite (proj1 Hout), HP1. unfold size. lia.
    + intros c Hc Hn. rewrite (same_outside_total t P1 P c Hout Hn). by apply Hz1.
    + done.
    + done.
    + exact Heq.
    + unfold erow. by rewrite dbin_lxor, dbin_xors.
    + by rewrite Hdd.
Qed.
End binary.

(** ** The GF(2^128) variant, for at most one gap row *)
Lemma xors_elem l : Forall elem l -> elem (xors l).
Proof. induction 1 as [|x l Hx HF IH]; [unfold elem; cbn; lia|]. cbn. by apply lxor_elem. Qed.
Lemma gmul_xors {A} p (f : A -> Z) l : elem p -> Forall (fun j => elem (f j)) l -> gmul p (xors (map f l)) = xors (map (fun j => gmul p (f j)) l).
Proof.
  intros Hp. induction 1 as [|j l Hj HF IH]; [apply gmul_0_r|]. cbn [map xors foldr]. fold (xors (map f l)).
  rewrite gmul_lxor_r; [by rewrite IH|done|done|]. apply xors_elem. by apply Forall_fmap.
Qed.

Section gf128.
Context `{SymmetricCrypto} `{Libdivide} (avx : bool) (idx : Z).
Context (px : Paxos) (t : Tri) (Hwf : wf_rows px) (Ht : triangular px t).
Abbreviation N := (num_items_ px).
Abbreviation sp := (sparse_size (param px)).
Abbreviation ds := (dense_size (param px)).
Abbreviation gg := (length (gap_rows t)).
Context (HN : Z.of_nat N < 2 ^ idx - 1) (Hw : (0 < weight (param px))%nat) (Hds : (0 < ds)%nat).
Context (Hdt : dt (param px) = GF128) (Hdense : Forall elem (dense_ px)).

Lemma Mul_0_l x : elem x -> Mul avx 0 x = 0.
Proof. intros Hx. rewrite Mul_gmul by (done || unfold elem; lia). by apply gmul_0_l. Qed.
Lemma MultAdd_elem v x y : elem x -> elem y -> MultAdd avx 128 v x y = Z.lxor v (gmul x y).
Proof. intros Hx Hy. unfold MultAdd. rewrite Mul_gmul by done. f_equal. apply wrap_small. by apply gmul_elem. Qed.
Lemma dense_elem i : (i < N)%nat -> elem (dense_ px !!! i).
Proof. intros Hi. apply (Forall_lookup_total_1 _ _ i Hdense). by rewrite (wf_dense px Hwf). Qed.

Definition tail_zero (P : list Z) : Prop := forall k, (0 < k)%nat -> (k < ds)%nat -> P !!! (sp + k)%nat = 0.

(** The running powers add nothing when the later columns are zero. *)
Lemma add_dense_gf128_ok P d y :
  length P = size (param px) -> tail_zero P -> elem (P !!! sp) -> elem d ->
  add_dense_gf128 avx 128 px P d y = Ok (Z.lxor y (gmul (P !!! sp) d)).
Proof.
  intros HP Hz Hp Hd. unfold size in HP.
  enough (wp (add_dense_gf128 avx 128 px P d y) (fun r => r = Z.lxor y (gmul (P !!! sp) d))) as Hwp.
  { apply wp_iff in Hwp as (r & -> & ->). done. }
  unfold add_dense_gf128. rewrite vget_total by lia. run. apply wp_bind.
  apply (wp_for _ _ (fun _ st => elem st.1 /\ st.2 = Z.lxor y (gmul (P !!! sp) d))).
  - split; [done|]. cbn [snd]. by apply MultAdd_elem.
  - intros i [x r] Hi [Hx E]. cbn [fst snd] in *. subst r. rewrite vget_total by lia. run.
    assert (elem (Mul avx x d)) as Hm by (rewrite Mul_gmul by done; by apply gmul_elem). split; [done|]. cbn [snd].
    rewrite Hz by lia. rewrite MultAdd_elem by (done || unfold elem; lia). by rewrite gmul_0_l, Z.lxor_0_r.
  - intros [x r] [_ E]. cbn [snd] in E. run. exact E.
Qed.

Definition solves_gf128 (X P : list Z) : Prop :=
  length P = size (param px) /\ tail_zero P /\ elem (P !!! sp) /\
  forall i, (i < N)%nat -> Z.lxor (vsum px P i) (gmul (P !!! sp) (dense_ px !!! i)) = X !!! i.

Lemma backfill_gf128_rows_ok X P0 (do_dense : bool) :
  length X = N -> length P0 = size (param px) -> (forall c, (c < sp)%nat -> P0 !!! c = 0) -> tail_zero P0 -> elem (P0 !!! sp) ->
  (do_dense = false -> P0 !!! sp = 0) ->
  wp (backfill_gf128_rows avx 128 px (main_rows t) (main_cols t) X do_dense P0) (fun P =>
    same_outside t P0 P /\ forall i, i ∈ main_rows t -> Z.lxor (vsum px P i) (gmul (P0 !!! sp) (dense_ px !!! i)) = X !!! i).
Proof.
  intros HX HP Hz Htl Hp Hdd. apply (backsub_ok px t Hwf Ht X (fun i => gmul (P0 !!! sp) (dense_ px !!! i))).
  - intros k i c P Hi Hc Hout Hk. pose proof (main_row_lt px t Ht _ _ Hi) as HiN. pose proof (main_col_lt px t Ht _ _ Hc) as Hcs.
    pose proof (tr_square px t Ht) as Hsq. rewrite (proj2 (vget_ok _ _ _) Hi). run. rewrite Hsq in Hc. rewrite (proj2 (vget_ok _ _ _) Hc). run.
    rewrite (vget_total X) by lia. run. pose proof (proj1 Hout) as HlP. rewrite HP in HlP.
    assert (sp <= length P)%nat as HspP by (rewrite HlP; unfold size; lia).
    assert (P !!! sp = P0 !!! sp) as Esp by (rewrite <- (Nat.add_0_r sp); by apply (same_outside_dense px t Ht)).
    assert ((if bool_decide (weight (param px) = 3%nat) then add_row3 px P i (X !!! i) else add_row_values px P i (X !!! i)) =
      Ok (Z.lxor (X !!! i) (vsum px P i))) as ->.
    { case_bool_decide; [rewrite (add_row3_eq px Hwf) by done|]; by apply (add_row_values_ok px Hwf). }
    run. destruct do_dense.
    + rewrite (vget_total (dense_ px)) by (rewrite (wf_dense px Hwf); lia). run. rewrite add_dense_gf128_ok.
      * run. rewrite vset_total by lia. by rewrite Esp.
      * done.
      * intros k' Hk' Hkd. rewrite (same_outside_dense px t Ht P0 P k' Hout). by apply Htl.
      * by rewrite Esp.
      * by apply dense_elem.
    + run. rewrite vset_total by lia. rewrite Hdd by done. rewrite gmul_0_l by by apply dense_elem. by rewrite Z.lxor_0_r.
  - rewrite HP. unfold size. lia.
  - intros c Hc. apply Hz. by apply (main_cols_sparse px t Ht).
Qed.

(** ** One gap row *)
Lemma for_1 {S} (f : nat -> S -> res S) s : for_ 1 f s = f 0%nat s.
Proof. unfold for_. cbn [for_from]. by destruct (f 0%nat s). Qed.
Lemma vget_0 (x : Z) : vget [x] 0 = Ok x.
Proof. done. Qed.
Lemma vset_0 (x y : Z) : vset [x] 0 y = Ok [y].
Proof. done. Qed.

Lemma MatrixGf128Inv_1 a : elem a ->
  MatrixGf128Inv avx [a] 1 1 = Ok (if a =? 0 then [] else [gmul (gpow a (full - 2)) 1]).
Proof.
  intros Ha. unfold MatrixGf128Inv. rewrite bool_decide_true by done. run. rewrite for_1. unfold new_matrix. cbn [Nat.mul Nat.add replicate].
  rewrite vset_0. run. rewrite for_1. unfold inv_turn. cbn [fst snd Nat.mul Nat.add Nat.sub swap_pivot]. rewrite vget_0. run.
  destruct (Z.eqb_spec a 0) as [->|Hne]; run; cbn [fst]; rewrite vget_0; run; [done|].
  rewrite (proj2 (Z.eqb_neq a 0)) by exact Hne. rewrite Inv_nonzero by assumption.
  pose proof (gpow_elem a (full - 2) Ha) as Hc. generalize dependent (gpow a (full - 2)). intros c Hc. run. unfold scale_row, cancel_rows. rewrite !for_1. cbn [Nat.mul Nat.add].
  rewrite !vget_0. run. rewrite !vset_0. run. rewrite for_1. rewrite bool_decide_true by done. run.
  rewrite (Mul_gmul avx c 1) by (assumption || unfold elem; lia). reflexivity.
Qed.

(** The gap equation of the one gap row: its coefficient is not zero. *)
Definition unsolvable_gf128 : Prop :=
  exists fcinv r l, GetFCInv idx px (main_rows t) (main_cols t) (gap_rows t) = Ok fcinv /\ gap_rows t !! 0%nat = Some r /\
    fcinv !! 0%nat = Some l /\ erow px r.1 l = 0.

Lemma put_powers_1 e (add : bool) x : put_powers avx 0 1 e add [x] = Ok [if add then Z.lxor x e else e].
Proof. unfold put_powers. cbn [Nat.mul Nat.add Nat.sub]. rewrite vget_0. run. rewrite vset_0. run. done. Qed.

Lemma gf128_gap_row_1 X r l x0 y0 : length X = N -> (r.1 < N)%nat -> Forall (fun j => (j < N)%nat) l ->
  gf128_gap_row avx px X 1 0 r l ([x0], [y0]) =
  Ok ([erow px r.1 l], [Z.lxor (X !!! r.1) (xors (map (fun j => X !!! j) l))]).
Proof.
  intros HX Hr HF. unfold gf128_gap_row. pose proof (wf_dense px Hwf) as Hdl. rewrite (vget_total (dense_ px)) by lia. run.
  rewrite put_powers_1. run. rewrite (vget_total X) by lia. run. rewrite vset_0. run. unfold erow.
  generalize (dense_ px !!! r.1) (X !!! r.1). induction HF as [|j l Hj HF IH]; intros d x; [cbn; by rewrite !Z.lxor_0_r|].
  cbn [for_each]. rewrite vget_0. run. rewrite (vget_total X) by lia. run. rewrite vset_0. run. rewrite (vget_total (dense_ px)) by lia. run.
  rewrite put_powers_1. run. rewrite IH. cbn [map xors foldr]. unfold Add. rewrite !Z.lxor_assoc. done.
Qed.

Definition gap_solution_gf128 (X : list Z) (st : list Z * option Prng) : Prop :=
  let '(P, prng) := st in
  prng = None /\ length P = size (param px) /\ (forall c, (c < sp)%nat -> P !!! c = 0) /\ tail_zero P /\ elem (P !!! sp) /\
  (gg = 0%nat -> P !!! sp = 0) /\
  forall q r, gap_rows t !! q = Some r -> exists lq, cancels px t r.1 lq /\ Forall (fun j => (j < N)%nat) lq /\ (r.1 < N)%nat /\
    gmul (P !!! sp) (erow px r.1 lq) = Z.lxor (X !!! r.1) (xors (map (fun j => X !!! j) lq)).

Lemma erow_elem r l : (r < N)%nat -> Forall (fun j => (j < N)%nat) l -> elem (erow px r l).
Proof.
  intros Hr HF. apply lxor_elem; [by apply dense_elem|]. apply xors_elem. apply Forall_fmap. eapply Forall_impl; [exact HF|].
  cbn. intros j Hj. by apply dense_elem.
Qed.

Lemma solve_gap_gf128_ok X : length X = N -> Forall elem X -> gg = 1%nat ->
  outcome unsolvable_gf128
    (solve_gap_gf128 avx idx 128 px (main_rows t) (main_cols t) (gap_rows t) X (replicate (size (param px)) 0) None) (gap_solution_gf128 X).
Proof.
  intros HX HXe Hgg. set (P0 := replicate (size (param px)) 0). assert (length P0 = (sp + ds)%nat) as HP0 by apply length_replicate.
  assert (forall c, (c < sp + ds)%nat -> P0 !!! c = 0) as Hz0 by (intros; by apply lookup_total_replicate_lt).
  unfold solve_gap_gf128. pose proof (GetFCInv_ok idx px t Hwf Ht HN Hw ltac:(unfold size; lia)) as Hfci.
  apply wp_iff in Hfci as (fcinv & Efc & Hfl & Hfc). rewrite Efc. run.
  destruct (gap_facts px t Ht fcinv Hfl Hfc 0 ltac:(lia)) as (r & l & Hr & Hl & Hrn & Hcan & HF & _).
  rewrite Hgg, for_1. rewrite (proj2 (vget_ok _ _ _) Hr). run. rewrite (proj2 (vget_ok _ _ _) Hl). run. cbn [Nat.mul Nat.add replicate].
  rewrite (gf128_gap_row_1 X r l) by done. run. set (a := erow px r.1 l). set (x := Z.lxor _ _).
  assert (elem a) as Ha by by apply erow_elem. assert (elem x) as Hx.
  { assert (forall j, (j < N)%nat -> elem (X !!! j)) as HXj by (intros; apply (Forall_lookup_total_1 _ _ _ HXe); lia).
    apply lxor_elem; [by apply HXj|]. apply xors_elem. apply Forall_fmap. eapply Forall_impl; [exact HF|]. cbn. exact HXj. }
  rewrite MatrixGf128Inv_1 by done. run. destruct (Z.eqb_spec a 0) as [Ea|Hne]; [run; exists fcinv, r, l; done|].
  pose proof (gpow_elem a (full - 2) Ha) as Hc. rewrite gmul_1_r by exact Hc. pose proof (gmul_inverse a Ha Hne) as Hinv.
  generalize dependent (gpow a (full - 2)). intros c Hc Hinv. run. rewrite for_1. rewrite for_1. cbn [Nat.mul Nat.add].
  rewrite !vget_0. run. rewrite Nat.add_0_r, vget_total by lia. run. rewrite (Hz0 sp) by lia. rewrite MultAdd_elem, Z.lxor_0_l by done.
  rewrite vset_total by lia. run. cbn [outcome]. split; [done|]. split; [by rewrite length_insert|].
  split; [intros c' Hc'; rewrite list_lookup_total_insert_ne by lia; apply Hz0; lia|].
  split; [intros k Hk Hkd; rewrite list_lookup_total_insert_ne by lia; apply Hz0; lia|].
  rewrite list_lookup_total_insert_eq by lia. split; [by apply gmul_elem|]. split; [lia|]. intros q r' Hq.
  pose proof (lookup_lt_Some _ _ _ Hq). assert (q = 0%nat) as -> by lia. assert (r' = r) as -> by congruence. exists l.
  split; [done|]. split; [done|]. split; [done|]. fold a. fold x. rewrite gmul_assoc, (gmul_comm c a), Hinv by done. by apply gmul_1_r.
Qed.

Lemma BackfillGf128_ok X : length X = N -> Forall elem X -> (gg <= 1)%nat ->
  outcome unsolvable_gf128
    (BackfillGf128 avx idx 128 px (main_rows t) (main_cols t) (gap_rows t) X (replicate (size (param px)) 0, None))
    (fun '(P, prng) => solves_gf128 X P).
Proof.
  intros HX HXe Hgg. set (P0 := replicate (size (param px)) 0). assert (length P0 = (sp + ds)%nat) as HP0 by apply length_replicate.
  assert (forall c, (c < sp + ds)%nat -> P0 !!! c = 0) as Hz0 by (intros; by apply lookup_total_replicate_lt).
  unfold BackfillGf128. rewrite (bool_decide_true (dt (param px) = GF128)) by done. run.
  rewrite (bool_decide_true (sp <= length P0)%nat) by lia. run. rewrite (bool_decide_true (gg <= ds)%nat) by lia. run.
  apply outcome_bind. eapply (outcome_mono _ _ (gap_solution_gf128 X)).
  - destruct (decide (gg = 0%nat)) as [E0|Hne].
    + rewrite bool_decide_true by done. cbn [outcome]. split; [done|]. split; [done|]. split; [intros c Hc; apply Hz0; lia|].
      split; [intros k Hk Hkd; apply Hz0; lia|]. rewrite Hz0 by lia. split; [unfold elem; lia|]. split; [done|].
      intros q r Hr. apply lookup_lt_Some in Hr. lia.
    + rewrite bool_decide_false by done. apply solve_gap_gf128_ok; [done|done|lia].
  - intros [P1 prng] (-> & HP1 & Hz & Htl & Hp & Hno & Hgap). apply outcome_bind, wp_outcome.
    eapply wp_mono; [apply (backfill_gf128_rows_ok X P1)|]; try done.
    { intros E. apply Hno. destruct (decide (gg = 0%nat)) as [|Hne]; [done|]. rewrite bool_decide_false in E by done. done. }
    intros P [Hout Heq]. cbn [outcome]. assert (P !!! sp = P1 !!! sp) as Esp by (rewrite <- (Nat.add_0_r sp); by apply (same_outside_dense px t Ht)).
    split; [by rewrite (proj1 Hout)|]. split; [intros k Hk Hkd; rewrite (same_outside_dense px t Ht P1 P k Hout); by apply Htl|].
    rewrite Esp. split; [done|]. intros i Hi. destruct (rows_cases px t Ht i Hi) as [Hm|(q & r & Hq & <-)]; [by apply Heq|].
    destruct (Hgap q r Hq) as (lq & Hcan & HF & Hrn & Hd).
    apply (gap_row_solved px t Hwf Ht X (gmul (P1 !!! sp)) P r.1 lq); try done.
    + rewrite (proj1 Hout), HP1. unfold size. lia.
    + intros c Hc Hn. rewrite (same_outside_total t P1 P c Hout Hn). by apply Hz.
    + unfold erow. assert (Forall (fun j => elem (dense_ px !!! j)) lq) as HFe by (eapply Forall_impl; [exact HF|]; cbn; intros; by apply dense_elem).
      rewrite gmul_lxor_r; [by rewrite gmul_xors|done|by apply dense_elem|]. apply xors_elem. by apply Forall_fmap.
Qed.
End gf128.
