(* ===== verification/PaxosDecode.v ===== *)
(** * PaXoS: decoding, and the round trip (psi/algorithm/rr22/okvs/paxos)

    [Decode1] multiplies the row of a key with the vector.  [Decode32] is
    [Decode1] on each of its lanes, except that in the binary variant it reads the
    high half of the dense part; [Decode] runs them over any number of keys.  What
    [Encode] stores for the keys is what [Decode] returns. *)
From S2P Require Import Prelude Galois PaxosHash WeightData DenseMtx Combination Paxos PaxosInput PaxosEncode PaxosSolve PaxosDense PaxosBackfill.

(** ** Loops *)
Lemma for_plus {S} a b (f : nat -> S -> res S) s : for_ (a + b) f s = s ← for_ a f s; for_ b (fun i => f (a + i)%nat) s.
Proof.
  induction b as [|b IH]; [rewrite Nat.add_0_r; by destruct (for_ a f s)|].
  rewrite Nat.add_succ_r, for_S, IH. destruct (for_ a f s) as [s'| |]; run; [|done..]. by rewrite for_S.
Qed.
Lemma for_nested {S} n k (f : nat -> S -> res S) s : for_ n (fun i s => for_ k (fun j s => f (i * k + j)%nat s) s) s = for_ (n * k) f s.
Proof.
  induction n as [|n IH]; [done|]. rewrite for_S, IH. replace (Datatypes.S n * k)%nat with (n * k + k)%nat by lia. by rewrite for_plus.
Qed.
Lemma lanes32_for {S} (f : nat -> S -> res S) s : lanes32 f s = for_ 32 f s.
Proof. unfold lanes32. by rewrite (for_nested 4 8 f). Qed.

(** A loop over all slots, each turn rewriting one from its old content. *)
Lemma for_slots (f : nat -> list Z -> res (list Z)) (h : nat -> Z) vs n :
  length vs = n -> (forall t s, (t < n)%nat -> length s = n -> s !!! t = vs !!! t -> f t s = Ok (<[t := h t]> s)) ->
  for_ n f vs = Ok (tabulate n h).
Proof.
  intros Hl Hf. apply wp_eq.
  apply (wp_for_fill n f h vs); [lia| |].
  - intros i s Hi Hls Hs. apply Hf; [done|lia|done].
  - intros s Hls Hh _. apply list_eq_total; [rewrite length_tabulate; lia|]. intros i Hi. rewrite tabulate_lookup by lia. apply Hh. lia.
Qed.

(** A loop over slots [b .. b + k - 1] of a table, left to right. *)
Definition switch {A} (c : nat) (h g : nat -> A) (t : nat) : A := if bool_decide (t < c)%nat then h t else g t.
Lemma insert_switch {A} n c (h g : nat -> A) : <[c := h c]> (tabulate n (switch c h g)) = tabulate n (switch (S c) h g).
Proof.
  rewrite insert_tabulate. apply map_ext. intros t. unfold switch. destruct (decide (t = c)) as [->|]; [by rewrite bool_decide_true by lia|].
  do 2 case_bool_decide; (done || lia).
Qed.
Lemma tabulate_ext {A} n (g h : nat -> A) : (forall t, (t < n)%nat -> g t = h t) -> tabulate n g = tabulate n h.
Proof. intros E. unfold tabulate. apply map_ext_in. intros t Ht. apply in_seq in Ht. apply E. lia. Qed.
Lemma tabulate_vget n (g : nat -> Z) t : (t < n)%nat -> vget (tabulate n g) t = Ok (g t).
Proof. intros Ht. rewrite vget_total by (by rewrite length_tabulate). by rewrite tabulate_lookup. Qed.
Lemma tabulate_vset n (g : nat -> Z) t x : (t < n)%nat -> vset (tabulate n g) t x = Ok (<[t := x]> (tabulate n g)).
Proof. intros Ht. by rewrite vset_total by (by rewrite length_tabulate). Qed.
Lemma switch_self {A} t (h g : nat -> A) : switch t h g t = g t.
Proof. unfold switch. by rewrite bool_decide_false by lia. Qed.
Lemma tabulate_switch_0 n (h g : nat -> Z) : tabulate n g = tabulate n (switch 0 h g).
Proof. apply tabulate_ext. intros t _. unfold switch. by rewrite bool_decide_false by lia. Qed.
Lemma tabulate_switch_n n (h g : nat -> Z) : tabulate n (switch n h g) = tabulate n h.
Proof. apply tabulate_ext. intros t Ht. unfold switch. by rewrite bool_decide_true by lia. Qed.

Lemma for_block {S} (f : nat -> S -> res S) (st : list Z -> S) (h g : nat -> Z) n b k :
  (forall t, (b <= t < b + k)%nat -> f t (st (tabulate n (switch t h g))) = Ok (st (<[t := h t]> (tabulate n (switch t h g))))) ->
  for_ k (fun l s => f (b + l)%nat s) (st (tabulate n (switch b h g))) = Ok (st (tabulate n (switch (b + k) h g))).
Proof.
  intros Hf. induction k as [|k IH]; [by rewrite Nat.add_0_r|]. rewrite for_S, IH by (intros; apply Hf; lia). run.
  by rewrite Hf, insert_switch, Nat.add_succ_r by lia.
Qed.

Section decode.
Context `{SymmetricCrypto} `{Libdivide} (avx : bool) (idx vw : Z).
Context (p : PaxosParam) (P : list Z).
Abbreviation w := (weight p).
Abbreviation sp := (sparse_size p).
Abbreviation ds := (dense_size p).
Context (Hw : (0 < w)%nat) (HP : length P = size p) (Hds : (0 < ds)%nat) (Hbin : dt p = Binary -> (ds <= 64)%nat).
Context (HPr : dt p = Binary -> Forall (in_u vw) P) (Hvw : 0 <= vw).

(** The powers of a dense part, as the loops compute them. *)
Fixpoint power (d : Z) (k : nat) : Z := match k with O => d | S k' => Mul avx (power d k') d end.
Definition dense_term (d : Z) (k : nat) : Z :=
  if bool_decide (dt p = GF128) then wrap vw (Mul avx (P !!! (sp + k)%nat) (power d k)) else select d k (P !!! (sp + k)%nat).
(** The product of a row and its dense part with the vector. *)
Definition product (rows : list nat) (d : Z) : Z :=
  Z.lxor (xors (map (fun c => P !!! c) rows)) (xors (map (dense_term d) (seq 0 ds))).

Definition good_row (rows : list nat) : Prop := length rows = w /\ Forall (fun c => (c < sp)%nat) rows.

Lemma xors_seq_S (f : nat -> Z) n : xors (map f (seq 0 (S n))) = Z.lxor (xors (map f (seq 0 n))) (f n).
Proof. rewrite seq_S, map_app. apply xors_snoc. Qed.

Lemma product_0 rows c : rows !! 0%nat = Some c -> xors (map (fun c => P !!! c) (take 1 rows)) = P !!! c.
Proof. intros Hc. destruct rows as [|x rows]; [done|]. injection Hc as ->. cbn. by rewrite take_0, Z.lxor_0_r. Qed.

Lemma Decode1_ok rows d : good_row rows -> Decode1 avx vw p rows d P = Ok (product rows d).
Proof.
  intros [Hl HF]. unfold size in HP. apply wp_eq.
  unfold Decode1. destruct (lookup_lt_is_Some_2 rows 0 ltac:(lia)) as [c Hc]. rewrite (proj2 (vget_ok _ _ _) Hc). run.
  pose proof (Forall_lookup_1 _ _ _ _ HF Hc) as Hcs. cbn beta in Hcs. rewrite (vget_total P c) by lia. run. apply wp_bind.
  apply (wp_for _ _ (fun j v => v = xors (map (fun c => P !!! c) (take (S j) rows)))).
  - symmetry. by apply product_0.
  - intros j v Hj ->. destruct (lookup_lt_is_Some_2 rows (S j) ltac:(lia)) as [c' Hc']. rewrite (proj2 (vget_ok _ _ _) Hc'). run.
    pose proof (Forall_lookup_1 _ _ _ _ HF Hc') as Hcs'. cbn beta in Hcs'. rewrite (vget_total P c') by lia. run.
    rewrite (take_S_r _ _ _ Hc'), map_app. symmetry. apply xors_snoc.
  - intros v ->. rewrite take_ge by lia. set (v := xors (map (fun c => P !!! c) rows)). case_bool_decide as Hdt.
    + rewrite (vget_total P sp) by lia. run. apply wp_bind.
      apply (wp_for _ _ (fun i st => st = (power d i, Z.lxor v (xors (map (dense_term d) (seq 0 (S i))))))).
      * f_equal. rewrite xors_seq_S. cbn [seq map xors foldr]. rewrite Z.lxor_0_l. unfold dense_term, MultAdd. rewrite bool_decide_true by done.
        cbn [power]. by rewrite Nat.add_0_r.
      * intros i st Hi ->. replace (S i + sp)%nat with (sp + S i)%nat by lia. rewrite vget_total by lia. run. cbn [power]. f_equal.
        rewrite (xors_seq_S _ (S i)), <- Z.lxor_assoc. unfold MultAdd. f_equal. unfold dense_term. rewrite bool_decide_true by done. done.
      * intros st ->. run. unfold product. by replace (S (ds - 1)) with ds by lia.
    + assert (dt p = Binary) as Hb by (clear - Hdt; by destruct (dt p)). specialize (Hbin Hb).
      apply (wp_for _ _ (fun i r => r = Z.lxor v (xors (map (dense_term d) (seq 0 i))))).
      * cbn. by rewrite Z.lxor_0_r.
      * intros i r Hi ->. unfold bit_at. rewrite bool_decide_true by lia. run. rewrite bit_get_testbit, xors_seq_S, <- Z.lxor_assoc.
        assert (dense_term d i = select d i (P !!! (sp + i)%nat)) as -> by (unfold dense_term; by rewrite bool_decide_false).
        unfold select. destruct (Z.testbit d (Z.of_nat i)); [|run; by rewrite Z.lxor_0_r]. rewrite vget_total by lia. run.
        unfold Add. by rewrite (Nat.add_comm i).
      * done.
Qed.

(** *** Thirty-two lanes *)
Section lanes.
Context (rows : list nat) (dense : list Z).
Context (Hrl : length rows = (32 * w)%nat) (Hrb : Forall (fun c => (c < sp)%nat) rows) (Hdl : length dense = 32%nat).

Definition lane_row (t : nat) : list nat := take w (drop (t * w) rows).
Definition lane_sum (j t : nat) : Z := xors (map (fun c => P !!! c) (take j (lane_row t))).

Lemma lane_lookup t j : (t < 32)%nat -> (j < w)%nat -> exists c, lane_row t !! j = Some c /\ vget rows (t * w + j) = Ok c /\ vget P c = Ok (P !!! c).
Proof.
  intros Ht Hj. assert (t * w + j < 32 * w)%nat as Hlt by nia. destruct (lookup_lt_is_Some_2 rows (t * w + j)) as [c Hc]; [lia|].
  exists c. split; [unfold lane_row; rewrite lookup_take_lt, lookup_drop by done; done|]. split; [by apply vget_ok|].
  apply vget_total. rewrite HP. unfold size. pose proof (Forall_lookup_1 _ _ _ _ Hrb Hc). cbn beta in *. lia.
Qed.
Lemma lane_good t : (t < 32)%nat -> good_row (lane_row t).
Proof.
  intros Ht. split; [unfold lane_row; rewrite length_take, length_drop; nia|]. unfold lane_row. by apply Forall_take, Forall_drop.
Qed.

Lemma lane_sum_S j t c : lane_row t !! j = Some c -> lane_sum (S j) t = Z.lxor (lane_sum j t) (P !!! c).
Proof. intros Hc. unfold lane_sum. rewrite (take_S_r _ _ _ Hc), map_app. apply xors_snoc. Qed.

(** The sparse part: the first columns are assigned, the others added. *)
Lemma decode32_sparse values : length values = 32%nat ->
  (values ← lanes32 (fun t values => c ← vget rows (t * w); x ← vget P c; vset values t x) values;
   for_ (w - 1) (fun j values =>
     lanes32 (fun t values => c ← vget rows (t * w + S j); x ← vget P c; v ← vget values t; vset values t (Add v x)) values) values)
  = Ok (tabulate 32 (lane_sum w)).
Proof.
  intros Hl. rewrite lanes32_for, (for_slots _ (lane_sum 1) values 32) by
    (try done; intros t s Ht Hs _; destruct (lane_lookup t 0 Ht Hw) as (c & Hc & Hv & Hp); rewrite Nat.add_0_r in Hv;
     rewrite Hv; run; rewrite Hp; run; rewrite vset_total by lia; rewrite (lane_sum_S 0 t c Hc); by rewrite Z.lxor_0_l). run.
  enough (wp (for_ (w - 1) (fun j values =>
     lanes32 (fun t values => c ← vget rows (t * w + S j); x ← vget P c; v ← vget values t; vset values t (Add v x)) values) (tabulate 32 (lane_sum 1)))
     (fun r => r = tabulate 32 (lane_sum w))) as Hwp by (apply wp_iff in Hwp as (r & -> & ->); done).
  apply (wp_for _ _ (fun j r => r = tabulate 32 (lane_sum (S j)))); [done| |intros r ->; by replace (S (w - 1)) with w by lia].
  intros j r Hj ->. rewrite lanes32_for, (for_slots _ (lane_sum (S (S j))) _ 32); [done|apply length_tabulate|].
  intros t s Ht Hs Hst. destruct (lane_lookup t (S j) Ht ltac:(lia)) as (c & Hc & -> & Hp). run. rewrite Hp. run.
  rewrite vget_total by lia. run. rewrite vset_total by lia. rewrite Hst, tabulate_lookup by done. by rewrite (lane_sum_S (S j) t c Hc).
Qed.

(** *** The dense part over GF(2^128) *)
Definition partial (word : Z -> Z) (i t : nat) : Z :=
  Z.lxor (lane_sum w t) (xors (map (dense_term (word (dense !!! t))) (seq 0 i))).
Lemma partial_S word i t : partial word (S i) t = Z.lxor (partial word i t) (dense_term (word (dense !!! t)) i).
Proof. unfold partial. by rewrite xors_seq_S, Z.lxor_assoc. Qed.
Lemma partial_product word t : partial word ds t = product (lane_row t) (word (dense !!! t)).
Proof. unfold partial, product, lane_sum. rewrite take_ge; [done|]. unfold lane_row. rewrite length_take. lia. Qed.
Lemma partial_0 word : tabulate 32 (partial word 0) = tabulate 32 (lane_sum w).
Proof. apply tabulate_ext. intros t _. unfold partial. cbn. apply Z.lxor_0_r. Qed.

Abbreviation low := (fun d : Z => d).
Lemma decode32_gf128_ok : dt p = GF128 -> decode32_gf128 avx vw p dense P (tabulate 32 (lane_sum w)) = Ok (tabulate 32 (partial low ds)).
Proof.
  intros Hdt. unfold size in HP. unfold decode32_gf128.
  rewrite (for_push 32 (vget dense) (fun t => dense !!! t)) by (intros; apply vget_total; lia). run. rewrite app_nil_l.
  assert (forall t i, dense_term (dense !!! t) i = wrap vw (Mul avx (P !!! (sp + i)%nat) (power (dense !!! t) i))) as Hterm.
  { intros t i. unfold dense_term. by rewrite bool_decide_true. }
  rewrite <- (partial_0 low), lanes32_for, (for_slots _ (partial low 1)); [|apply length_tabulate|].
  2:{ intros t s Ht Hs Hst. rewrite (vget_total P sp) by lia. run. rewrite tabulate_vget by done. run. unfold MultAdd_lane.
      rewrite (vget_total s) by lia. run. rewrite vset_total by lia. rewrite Hst, tabulate_lookup by done. do 3 f_equal.
      rewrite (partial_S low 0), Hterm, Nat.add_0_r. done. }
  run. apply wp_eq, wp_bind.
  apply (wp_for _ _ (fun i st => st = (tabulate 32 (fun t => power (dense !!! t) i), tabulate 32 (partial low (S i))))).
  - done.
  - intros i st Hi ->. set (X1 := fun t => power (dense !!! t) (S i)). set (X0 := fun t => power (dense !!! t) i).
    apply (wp_for _ _ (fun k st => st = (tabulate 32 (switch (k * 8) X1 X0),
      tabulate 32 (switch (k * 8) (partial low (S (S i))) (partial low (S i)))))).
    + by rewrite <- !tabulate_switch_0.
    + intros k st Hk ->.
      rewrite (for_block (fun t '(xx, values) => x ← vget xx t; d ← vget dense t; xx ← vset xx t (Mul avx x d); Ok (xx, values))
        (fun xx => (xx, tabulate 32 (switch (k * 8) (partial low (S (S i))) (partial low (S i)))))).
      2:{ intros t Ht. cbn beta. rewrite tabulate_vget, (vget_total dense) by lia. run. rewrite tabulate_vset by lia. run.
          by rewrite switch_self. }
      run. rewrite (for_block (fun t values => y ← vget P (sp + S i); x ← vget (tabulate 32 (switch (k * 8 + 8) X1 X0)) t; MultAdd_lane avx vw values y x t)
        (fun values => values)).
      2:{ intros t Ht. cbn beta. rewrite (vget_total P) by lia. run. rewrite tabulate_vget by lia. run. unfold MultAdd_lane.
          rewrite tabulate_vget by lia. run. rewrite tabulate_vset by lia. rewrite switch_self. do 3 f_equal.
          unfold switch. rewrite bool_decide_true by lia. by rewrite (partial_S low (S i)), Hterm. }
      run. by replace (S k * 8)%nat with (k * 8 + 8)%nat by lia.
    + intros st ->. change (4 * 8)%nat with 32%nat. by rewrite !tabulate_switch_n.
  - intros st ->. run. by replace (S (ds - 1)) with ds by lia.
Qed.

(** *** The binary dense part: the high words *)
Abbreviation high := (fun d : Z => Z.shiftr d 64).
Lemma MultAdd_bit_ok v i b : dt p = Binary -> (i < ds)%nat ->
  MultAdd_bit vw v (P !!! (sp + i)%nat) (if (b : bool) then 1%nat else 0%nat) = Ok (Z.lxor v (if b then P !!! (sp + i)%nat else 0)).
Proof.
  intros Hb Hi. unfold MultAdd_bit. rewrite bool_decide_true by (destruct b; lia). run. do 2 f_equal. unfold zeroOneMask. destruct b; case_bool_decide; try done; [|apply Z.land_0_r].
  replace (2 ^ vw - 1) with (Z.ones vw) by (rewrite Z.ones_equiv; lia). rewrite Z.land_ones by lia. apply Z.mod_small. apply (Forall_lookup_total_1 _ _ (sp + i)%nat (HPr Hb)). unfold size in HP. lia.
Qed.

Lemma decode32_binary_ok : dt p = Binary -> decode32_binary vw p dense P (tabulate 32 (lane_sum w)) = Ok (tabulate 32 (partial high ds)).
Proof.
  intros Hdt. pose proof (Hbin Hdt) as Hb64. unfold decode32_binary.
  apply wp_eq.
  apply (wp_for _ _ (fun k r => r = tabulate 32 (switch (k * 8) (partial high ds) (lane_sum w)))).
  - apply tabulate_switch_0.
  - intros k r Hk ->. rewrite bool_decide_true by done. run.
    rewrite (for_ext 8 _ (fun i d2 => x ← Ok (Z.shiftr (dense !!! (k * 8 + i)%nat) 64); Ok (d2 ++ [x])))
      by (intros i s Hi; rewrite (vget_total dense) by lia; reflexivity).
    rewrite (for_push 8 (fun i => Ok (Z.shiftr (dense !!! (k * 8 + i)%nat) 64)) (fun i => Z.shiftr (dense !!! (k * 8 + i)%nat) 64)) by done.
    rewrite app_nil_l. run. set (G i t := if bool_decide (t < k * 8 + 8)%nat then partial high i t else lane_sum w t).
    apply wp_bind. apply (wp_for _ _ (fun i st => st = (tabulate 8 (fun l => Z.shiftr (dense !!! (k * 8 + l)%nat) (64 + Z.of_nat i)),
      tabulate 32 (switch (k * 8) (partial high ds) (G i))))).
    + f_equal. apply tabulate_ext. intros t _. unfold switch, G. repeat case_bool_decide; try done. unfold partial. cbn. by rewrite Z.lxor_0_r.
    + intros i st Hi ->. set (bs := map (fun d => if Z.testbit d 0 then 1%nat else 0%nat) (tabulate 8 _)).
      assert (forall l, (l < 8)%nat -> vget bs l = Ok (if Z.testbit (Z.shiftr (dense !!! (k * 8 + l)%nat) 64) (Z.of_nat i) then 1%nat else 0%nat)) as Hbs.
      { intros l Hl. apply vget_ok. unfold bs, tabulate. rewrite map_map, lookup_map, lookup_seq_lt by done. cbn.
        rewrite <- Z.bit0_odd, !Z.shiftr_spec by lia. by rewrite Z.add_0_l, (Z.add_comm 64). }
      rewrite (for_ext 8 _ (fun l values => (fun t values => y ← vget P (sp + i); v ← vget values t; bit ← vget bs (t - k * 8);
        v ← MultAdd_bit vw v y bit; vset values t v) (k * 8 + l)%nat values))
        by (intros l s Hl; cbn beta; by replace (k * 8 + l - k * 8)%nat with l by lia).
      set (H' t := if bool_decide (t < k * 8)%nat then partial high ds t else partial high (S i) t).
      assert (tabulate 32 (switch (k * 8) (partial high ds) (G i)) = tabulate 32 (switch (k * 8) H' (G i))) as ->.
      { apply tabulate_ext. intros t _. unfold switch, H'. by case_bool_decide. }
      rewrite (for_block (fun t values => y ← vget P (sp + i); v ← vget values t; bit ← vget bs (t - k * 8);
        v ← MultAdd_bit vw v y bit; vset values t v) (fun values => values)).
      * run. f_equal.
        -- unfold tabulate. rewrite map_map. apply map_ext. intros l. rewrite Z.shiftr_shiftr by lia. f_equal. lia.
        -- apply tabulate_ext. intros t _. unfold switch, H', G. repeat case_bool_decide; (done || lia).
      * intros t Ht. cbn beta. rewrite (vget_total P) by (rewrite HP; unfold size; lia). run. rewrite tabulate_vget by lia. run. rewrite Hbs by lia. run.
        rewrite MultAdd_bit_ok by done. run. rewrite tabulate_vset by lia. rewrite switch_self. do 3 f_equal. unfold H', G.
        rewrite bool_decide_true, bool_decide_false by lia. rewrite partial_S. f_equal. unfold dense_term.
        rewrite bool_decide_false by (by rewrite Hdt). by replace (k * 8 + (t - k * 8))%nat with t by lia.
    + intros [d2 values] [= -> ->]. run. apply tabulate_ext. intros t _. unfold switch, G. repeat case_bool_decide; (done || lia).
  - intros r ->. change (4 * 8)%nat with 32%nat. apply tabulate_switch_n.
Qed.

(** The word of a dense part that [Decode32] reads. *)
Definition word32 (d : Z) : Z := if bool_decide (dt p = GF128) then d else Z.shiftr d 64.
Lemma Decode32_ok values : length values = 32%nat ->
  Decode32 avx vw p rows dense values P = Ok (tabulate 32 (fun t => product (lane_row t) (word32 (dense !!! t)))).
Proof.
  intros Hl. unfold Decode32. pose proof (decode32_sparse values Hl) as Hs. unfold word32.
  destruct (lanes32 _ values) as [v1| |]; [|done|done]. run. cbn [mbind res_bind] in Hs. rewrite Hs. run.
  case_bool_decide as Hdt.
  - rewrite decode32_gf128_ok by done. f_equal. apply tabulate_ext. intros t _. apply (partial_product low).
  - rewrite decode32_binary_ok by (by destruct (dt p)). f_equal. apply tabulate_ext. intros t _. apply (partial_product high).
Qed.
End lanes.
End decode.

(** ** Any number of keys *)
Section keys.
Context `{SymmetricCrypto} `{LibdivideLaws} (avx : bool) (idx : Z) (Hidx : 0 <= idx <= 64) (vw : Z).
Context (px : Paxos) (P : list Z).
Abbreviation p := (param px).
Abbreviation w := (weight p).
Abbreviation sp := (sparse_size p).
Abbreviation ds := (dense_size p).
Context (Hw : (0 < w <= sp)%nat) (Hsp : Z.of_nat sp < 2 ^ idx) (Hsp63 : Z.of_nat sp < 2 ^ 63).
Context (HP : length P = size p) (Hds : (0 < ds)%nat) (Hbin : dt p = Binary -> (ds <= 64)%nat).
Context (Hvw : 0 <= vw).

(** What a key decodes to alone, and in a group of thirty-two. *)
Definition decode1 (x : Z) : Z := product avx vw p P (key_row avx idx p x) (AesCrHash_Hash1 x).
Definition decode32 (x : Z) : Z := product avx vw p P (key_row avx idx p x) (word32 p (AesCrHash_Hash1 x)).

Lemma key_good x : good_row p (key_row avx idx p x).
Proof. destruct (key_row_ok avx idx Hidx p ltac:(lia) Hsp x) as (Hl & _ & HF). done. Qed.

Lemma Decode1_key x : Decode1 avx vw p (key_row avx idx p x) (AesCrHash_Hash1 x) P = Ok (decode1 x).
Proof. apply Decode1_ok; [apply Hw|exact HP|exact Hds|exact Hbin|apply key_good]. Qed.

Lemma build32_ok inputs i rows dense :
  (i + 32 <= length inputs)%nat -> length rows = (32 * w)%nat -> length dense = 32%nat ->
  build32 avx idx p inputs i rows dense = Ok (key_rows avx idx p (take 32 (drop i inputs)), map AesCrHash_Hash1 (take 32 (drop i inputs))).
Proof.
  intros Hi Hr Hd. unfold build32. assert (length (take 32 (drop i inputs)) = 32%nat) as Hx by (rewrite length_take, length_drop; lia).
  rewrite (HashBuildRow32_ok avx idx Hidx p) by (rewrite ?length_map; (done || lia)). run. do 2 f_equal.
  unfold key_rows. by rewrite concat_map, map_map.
Qed.

Lemma length_rows32 xs : length xs = 32%nat -> length (key_rows avx idx p xs) = (32 * w)%nat.
Proof. intros Hl. rewrite (length_key_rows avx idx Hidx p) by (done || lia). by rewrite Hl. Qed.

(** Thirty-two keys from input [i] on. *)
Lemma Decode32_keys inputs i values :
  (dt p = Binary -> Forall (in_u vw) P) -> (i + 32 <= length inputs)%nat -> length values = 32%nat ->
  Decode32 avx vw p (key_rows avx idx p (take 32 (drop i inputs))) (map AesCrHash_Hash1 (take 32 (drop i inputs))) values P
    = Ok (tabulate 32 (fun t => decode32 (inputs !!! (i + t)%nat))).
Proof.
  intros HPr Hi Hl. assert (length (take 32 (drop i inputs)) = 32%nat) as Hx by (rewrite length_take, length_drop; lia).
  assert (forall t, (t < 32)%nat -> take 32 (drop i inputs) !! t = Some (inputs !!! (i + t)%nat)) as Hlk.
  { intros t Ht. rewrite lookup_take_lt, lookup_drop by done. apply list_lookup_lookup_total_lt. lia. }
  rewrite Decode32_ok; try done; [f_equal; apply tabulate_ext; intros t Ht| |by apply length_rows32| |by rewrite length_map].
  - unfold decode32. f_equal.
    + unfold lane_row. apply (key_rows_lookup avx idx Hidx p); [lia|done|by apply Hlk].
    + f_equal. apply list_lookup_total_correct. by rewrite lookup_map, Hlk.
  - lia.
  - apply (key_rows_below avx idx Hidx p); [lia|done].
Qed.

Lemma build1_ok x rows dense : length rows = (32 * w)%nat -> length dense = 32%nat ->
  exists rows' dense', build1 avx idx p x rows dense = Ok (rows', dense') /\ length rows' = (32 * w)%nat /\ length dense' = 32%nat /\
    take w rows' = key_row avx idx p x /\ vget dense' 0 = Ok (AesCrHash_Hash1 x).
Proof.
  intros Hr Hd. unfold build1. rewrite (HashBuildRow1_ok avx idx Hidx p) by (rewrite ?length_map, ?length_take; done || lia). run.
  rewrite vset_total by lia. run. change (map Z.to_nat (hash_row avx idx (hasher_ p) (AesCrHash_Hash1 x))) with (key_row avx idx p x).
  destruct (key_good x) as [Hl _]. eexists _, _. split; [reflexivity|].
  split; [rewrite length_app, length_drop; lia|].
  split; [by rewrite length_insert|]. split; [by apply take_app_length'|]. apply vget_ok. apply list_lookup_insert_eq. lia.
Qed.

Definition batches (n : nat) : nat := (n / 32 * 32)%nat.
(** The value stored or added for key [k] of [inputs]. *)
Definition decoded (inputs : list Z) (k : nat) : Z :=
  let x := inputs !!! k in if bool_decide (k < batches (length inputs))%nat then decode32 x else decode1 x.
Definition result (inputs values : list Z) (k : nat) : Z :=
  if add_to_decode_ px then Add (values !!! k) (decoded inputs k) else decoded inputs k.

Lemma decoded_batch inputs k : (k < batches (length inputs))%nat -> decoded inputs k = decode32 (inputs !!! k).
Proof. intros Hk. unfold decoded. by rewrite bool_decide_true. Qed.
Lemma decoded_rest inputs k : (batches (length inputs) <= k)%nat -> decoded inputs k = decode1 (inputs !!! k).
Proof. intros Hk. unfold decoded. by rewrite bool_decide_false by lia. Qed.

Lemma tabulate_span n b k (h g f : nat -> Z) : (b + k <= n)%nat -> (forall t, (t < k)%nat -> f t = h (b + t)%nat) ->
  take b (tabulate n (switch b h g)) ++ tabulate k f ++ drop (b + k) (tabulate n (switch b h g)) = tabulate n (switch (b + k) h g).
Proof.
  intros Hn Hf. apply list_eq_total; [rewrite !length_app, length_take, length_drop, !length_tabulate; lia|]. intros i Hi.
  rewrite !length_app, length_take, length_drop, !length_tabulate in Hi. rewrite tabulate_lookup by lia. unfold switch at 3.
  destruct (decide (i < b)%nat).
  - rewrite lookup_total_app_l by (rewrite length_take, length_tabulate; lia). rewrite lookup_total_take, decide_True, tabulate_lookup by lia.
    unfold switch. by rewrite !bool_decide_true by lia.
  - rewrite lookup_total_app_r by (rewrite length_take, length_tabulate; lia). rewrite length_take, length_tabulate.
    replace (i - b `min` n)%nat with (i - b)%nat by lia. destruct (decide (i < b + k)%nat).
    + rewrite lookup_total_app_l by (rewrite length_tabulate; lia). rewrite tabulate_lookup, Hf, bool_decide_true by lia. f_equal. lia.
    + rewrite lookup_total_app_r by (rewrite length_tabulate; lia). rewrite length_tabulate, lookup_total_drop, tabulate_lookup by lia.
      unfold switch. rewrite !bool_decide_false by lia. f_equal. lia.
Qed.

Lemma Decode_ok inputs values : length values = length inputs ->
  (dt p = Binary -> (32 <= length inputs)%nat -> Forall (in_u vw) P) ->
  Decode avx idx vw px inputs values P = Ok (tabulate (length inputs) (result inputs values)).
Proof.
  intros Hl HPr. set (n := length inputs). fold n in HPr. set (b := (n / 32)%nat). pose proof (Nat.div_mod_eq n 32) as Hd. fold b in Hd.
  assert (batches (length inputs) = (b * 32)%nat) as Hb by done. assert (n mod 32 < 32)%nat as Hm by (by apply Nat.mod_upper_bound).
  unfold Decode. rewrite bool_decide_true by done. run. fold n. fold b. apply wp_eq.
  set (R := result inputs values). set (V := fun k => values !!! k).
  assert (values = tabulate n (switch 0 R V)) as Ev.
  { rewrite <- tabulate_switch_0. apply eq_tabulate; [done|]. done. }
  destruct (add_to_decode_ px) eqn:Hadd.
  - apply wp_bind. apply (wp_for _ _ (fun k '(rows, dense, v, vs) => length rows = (32 * w)%nat /\ length dense = 32%nat /\ length v = 32%nat /\
      vs = tabulate n (switch (k * 32) R V))).
    + split; [by rewrite length_replicate|]. done.
    + intros k [[[rows dense] v] vs] Hk (Hr & Hde & Hv & ->). fold n in Hd. assert (k * 32 + 32 <= b * 32)%nat as Hk32 by lia.
      assert (dt p = Binary -> Forall (in_u vw) P) as HPb by (intros; apply HPr; [done|lia]).
      rewrite build32_ok by (done || (fold n; lia)). run. rewrite Decode32_keys by (done || (fold n; lia)). run.
      set (D := tabulate 32 _). rewrite (for_nested 4 8 (fun t vs => a ← vget vs (k * 32 + t)%nat; x ← vget D t; vset vs (k * 32 + t)%nat (Add a x))).
      change (4 * 8)%nat with 32%nat.
      rewrite (for_ext 32 _ (fun t vs => (fun u vs => a ← vget vs u; x ← vget D (u - k * 32); vset vs u (Add a x)) (k * 32 + t)%nat vs))
        by (intros t s Ht; cbn beta; by replace (k * 32 + t - k * 32)%nat with t by lia).
      rewrite (for_block (fun u vs => a ← vget vs u; x ← vget D (u - k * 32); vset vs u (Add a x)) (fun vs => vs)).
      * run. split; [apply length_rows32; rewrite length_take, length_drop; fold n; lia|].
        split; [rewrite length_map, length_take, length_drop; fold n; lia|]. split; [apply length_tabulate|]. by replace (S k * 32)%nat with (k * 32 + 32)%nat by lia.
      * intros u Hu. cbn beta. rewrite tabulate_vget by lia. run. unfold D. rewrite tabulate_vget by lia. run.
        rewrite tabulate_vset by lia. rewrite switch_self. do 3 f_equal. unfold R, V, result. rewrite Hadd.
        rewrite decoded_batch by lia. by replace (k * 32 + (u - k * 32))%nat with u by lia.
    + intros [[[rows dense] v] vs] (Hr & Hde & Hv & ->). apply wp_bind.
      apply (wp_for _ _ (fun k '(rows, dense, v, vs) => length rows = (32 * w)%nat /\ length dense = 32%nat /\ length v = 32%nat /\
        vs = tabulate n (switch (b * 32 + k) R V))).
      * by rewrite Nat.add_0_r.
      * clear rows dense v Hr Hde Hv. intros k [[[rows dense] v] vs] Hk (Hr & Hde & Hv & ->). rewrite (vget_total inputs) by (fold n; lia). run.
        destruct (build1_ok (inputs !!! (b * 32 + k)%nat) rows dense Hr Hde) as (rows' & dense' & -> & Hr' & Hde' & Hrow & Hd0). run.
        rewrite Hd0. run. rewrite Hrow, Decode1_key. run. rewrite vset_total by lia. run. rewrite tabulate_vget by lia. run.
        rewrite tabulate_vset by lia. run. split; [done|]. split; [done|]. split; [by rewrite length_insert|].
        rewrite switch_self, Nat.add_succ_r, <- insert_switch. f_equal. unfold R, V, result. rewrite Hadd. by rewrite decoded_rest by lia.
      * intros [[[rows' dense'] v'] vs] (_ & _ & _ & ->). run. replace (b * 32 + (n - b * 32))%nat with n by lia. apply tabulate_switch_n.
  - apply wp_bind. apply (wp_for _ _ (fun k '(rows, dense, vs) => length rows = (32 * w)%nat /\ length dense = 32%nat /\
      vs = tabulate n (switch (k * 32) R V))).
    + split; [by rewrite length_replicate|]. done.
    + intros k [[rows dense] vs] Hk (Hr & Hde & ->). assert (k * 32 + 32 <= b * 32)%nat as Hk32 by lia.
      assert (dt p = Binary -> Forall (in_u vw) P) as HPb by (intros; apply HPr; [done|lia]).
      rewrite build32_ok by (done || (fold n; lia)). run. unfold with_span. rewrite length_tabulate, bool_decide_true by lia. run.
      rewrite Decode32_keys by (assumption || (fold n; lia) || (rewrite length_take, length_drop, length_tabulate; lia)). run.
      split; [apply length_rows32; rewrite length_take, length_drop; fold n; lia|].
      split; [rewrite length_map, length_take, length_drop; fold n; lia|]. replace (S k * 32)%nat with (k * 32 + 32)%nat by lia.
      apply tabulate_span; [lia|]. intros t Ht. unfold R, result. rewrite Hadd. by rewrite decoded_batch by lia.
    + intros [[rows dense] vs] (Hr & Hde & ->). apply wp_bind.
      apply (wp_for _ _ (fun k '(rows, dense, vs) => length rows = (32 * w)%nat /\ length dense = 32%nat /\
        vs = tabulate n (switch (b * 32 + k) R V))).
      * by rewrite Nat.add_0_r.
      * clear rows dense Hr Hde. intros k [[rows dense] vs] Hk (Hr & Hde & ->). rewrite (vget_total inputs) by (fold n; lia). run.
        destruct (build1_ok (inputs !!! (b * 32 + k)%nat) rows dense Hr Hde) as (rows' & dense' & -> & Hr' & Hde' & Hrow & Hd0). run.
        rewrite Hd0. run. rewrite Hrow, Decode1_key. run. rewrite tabulate_vset by lia. run. split; [done|]. split; [done|].
        rewrite Nat.add_succ_r, <- insert_switch. f_equal. unfold R, result. rewrite Hadd. by rewrite decoded_rest by lia.
      * intros [[rows' dense'] vs] (_ & _ & ->). run. replace (b * 32 + (n - b * 32))%nat with n by lia. apply tabulate_switch_n.
Qed.
End keys.

(** ** The vector that solves the system decodes to the values *)
Section solved.
Context `{SymmetricCrypto} `{LibdivideLaws} (avx : bool) (idx : Z) (Hidx : 0 <= idx <= 64) (vw : Z) (p : PaxosParam) (xs : list Z).
Context (px : Paxos) (Hh : holds avx idx p xs px).
Abbreviation ds := (dense_size p).

Definition solves (X P : list Z) : Prop := if bool_decide (dt p = GF128) then solves_gf128 px X P else solves_binary px X P.
Definition unsolvable (px : Paxos) (t : Tri) : Prop :=
  if bool_decide (dt p = GF128) then unsolvable_gf128 idx px t else unsolvable_binary idx px t.

Lemma power_elem d k : elem d -> elem (power avx d k).
Proof. intros Hd. induction k as [|k IH]; [done|]. cbn. rewrite Mul_gmul by done. by apply gmul_elem. Qed.

Lemma decode1_solves X P i x : (0 < ds)%nat -> (dt p = GF128 -> vw = 128 /\ elem (AesCrHash_Hash1 x)) ->
  solves X P -> xs !! i = Some x -> decode1 avx idx vw px P x = X !!! i.
Proof.
  intros Hds Hgf Hs Hx. destruct Hh as (Hp & Hn & Hd & Hrow & Hwf & _). pose proof (lookup_lt_Some _ _ _ Hx) as Hi.
  assert (dense_ px !!! i = AesCrHash_Hash1 x) as Hdi by (apply list_lookup_total_correct; by rewrite Hd, lookup_map, Hx).
  unfold decode1, product. rewrite Hp. rewrite <- (Hrow i x Hx). unfold solves in Hs. destruct (dt p) eqn:Hdt.
  - rewrite bool_decide_false in Hs by done. destruct Hs as [_ Hs]. rewrite <- (Hs i) by lia. rewrite Hdi. unfold vsum, rsum, dbin. rewrite Hp.
    f_equal. apply xors_ext. intros k _. unfold dense_term. by rewrite bool_decide_false by (by rewrite Hdt).
  - rewrite bool_decide_true in Hs by done. destruct Hs as (_ & Htl & Hp0 & Hs). destruct (Hgf eq_refl) as [-> Hel].
    rewrite <- (Hs i) by lia. rewrite Hdi. unfold vsum, rsum. rewrite Hp in *. f_equal. unfold tail_zero in Htl. rewrite Hp in Htl.
    assert (forall k, dense_term avx 128 p P (AesCrHash_Hash1 x) k = wrap 128 (Mul avx (P !!! (sparse_size p + k)%nat) (power avx (AesCrHash_Hash1 x) k))) as Ht.
    { intros k. unfold dense_term. by rewrite bool_decide_true. }
    destruct ds as [|m] eqn:Em; [lia|]. cbn [seq map xors foldr]. change (foldr Z.lxor 0) with xors. rewrite xors_zero.
    + rewrite Z.lxor_0_r, Ht, Nat.add_0_r. cbn [power]. rewrite Mul_gmul by done. apply wrap_small. by apply gmul_elem.
    + intros k [Hk1 Hk2]%elem_of_seq. rewrite Ht, Htl by lia. rewrite (Mul_gmul avx 0) by (try apply power_elem; done || unfold elem; lia).
      rewrite gmul_0_l by by apply power_elem. done.
Qed.
End solved.

Section encode.
Context `{SymmetricCrypto} `{LibdivideLaws} (avx : bool) (idx : Z) (vw : Z) (p : PaxosParam) (xs : list Z).
Context (px : Paxos) (t : Tri) (Hh : holds avx idx p xs px) (Ht : triangular px t).
Abbreviation ds := (dense_size p).
Context (HN : Z.of_nat (length xs) < 2 ^ idx - 1) (Hw : (0 < weight p)%nat) (Hds : (0 < ds)%nat).
Context (Hbin : dt p = Binary -> (ds <= 64)%nat /\ (g p <= ds)%nat /\ fits ds (g p)).
Context (Hgf : dt p = GF128 -> vw = 128 /\ Forall elem (dense_ px) /\ (length (gap_rows t) <= 1)%nat).

(** What [Backfill] leaves decodes. *)
Lemma Backfill_ok X owns : length X = length xs -> (dt p = GF128 -> Forall elem X) ->
  outcome (unsolvable idx p px t) (Backfill avx idx vw px t X owns (replicate (size p) 0, None)) (fun '(P, _) => solves p px X P).
Proof.
  intros HX HXe. destruct Hh as (Hp & Hn & Hd & _ & Hwf & _). unfold Backfill, unsolvable, solves. rewrite Hp. destruct (dt p) eqn:Hdt.
  - rewrite !(bool_decide_false (Binary = GF128)) by done. destruct (Hbin eq_refl) as (H1' & H2' & H3'). rewrite <- Hp.
    eapply outcome_mono; [apply BackfillBinary_ok; rewrite ?Hp, ?Hn; (done || unfold size; lia)|]. by intros [P prng].
  - rewrite !(bool_decide_true (GF128 = GF128)) by done. destruct (Hgf eq_refl) as (-> & H2' & H3'). rewrite <- Hp.
    eapply outcome_mono; [apply BackfillGf128_ok; rewrite ?Hp, ?Hn; (done || lia || by apply HXe)|]. by intros [P prng].
Qed.
End encode.

(** [Encode] of the rows of some keys solves for their values. *)
Lemma Encode_ok `{SymmetricCrypto} `{LibdivideLaws} avx idx vw p xs values owns px :
  0 <= idx -> (0 < Paxos.weight p)%nat -> (length xs + 2 <= Paxos.sparse_size p)%nat -> Z.of_nat (Paxos.sparse_size p) < 2 ^ idx ->
  holds avx idx p xs px -> ready idx px -> length values = length xs -> (0 < dense_size p)%nat ->
  (dt p = Binary -> (dense_size p <= 64)%nat /\ (g p <= dense_size p)%nat /\ fits (dense_size p) (g p)) ->
  (dt p = GF128 -> vw = 128 /\ Forall elem values /\ Forall (fun x => elem (AesCrHash_Hash1 x)) xs /\
    forall px2 t, Triangulate idx px = Ok (px2, t) -> (length (gap_rows t) <= 1)%nat) ->
  outcome (~ NoDup (map AesCrHash_Hash1 xs) \/
           exists px' t, holds avx idx p xs px' /\ triangular px' t /\ unsolvable idx p px' t)
    (Encode avx idx vw values (replicate (size p) 0) owns None px)
    (fun '(px', P, _) => exists t, Triangulate idx px = Ok (px', t) /\ px' = with_sets (tri_sets t) px /\
      holds avx idx p xs px' /\ length P = size p /\ solves p px' values P).
Proof.
  intros Hidx Hw Hn Hsp Hh1 Hr Hlv Hds Hbin Hgf. pose proof Hh1 as (Hp1 & Hn1 & Hd1 & Hrow1 & Hwf1 & Hc1).
  unfold Encode. rewrite Hp1, bool_decide_true by apply length_replicate. run.
  assert (outcome (~ NoDup (dense_ px)) (Triangulate idx px) (fun '(px', t) => px' = with_sets (tri_sets t) px /\ triangular px t)) as Htri
    by (apply Triangulate_triangular; rewrite ?Hp1, ?Hn1; (done || lia)).
  destruct (Triangulate idx px) as [[px2 t]| |] eqn:E2; [|left; by rewrite <- Hd1|done]. destruct Htri as [-> Ht]. run.
  set (px2 := with_sets (tri_sets t) px) in *.
  assert (holds avx idx p xs px2 /\ triangular px2 t) as [Hh2 Ht2].
  { split; [|by destruct Ht]. unfold holds. do 3 (split; [done|]). split; [exact Hrow1|]. split; [by destruct Hwf1|exact Hc1]. }
  pose proof (Backfill_ok avx idx vw p xs px2 t Hh2 Ht2 ltac:(lia) ltac:(lia) Hds Hbin) as Hbf.
  specialize (Hbf ltac:(intros Hdt; destruct (Hgf Hdt) as (H1' & _ & H3' & H4'); split; [done|]; split;
    [change (dense_ px2) with (dense_ px); rewrite Hd1; by apply Forall_fmap|by apply (H4' px2 t)])).
  specialize (Hbf values owns ltac:(lia) ltac:(intros Hdt; by destruct (Hgf Hdt) as (_ & ? & _))).
  destruct (Backfill avx idx vw px2 t values owns (replicate (size p) 0, None)) as [[P prng]| |]; [|right; by exists px2, t|done].
  cbn [outcome] in Hbf. run. exists t. split; [done|]. split; [done|]. split; [done|]. split; [|done].
  assert (param px2 = p) as Hp2 by done. unfold solves in Hbf. rewrite <- Hp2. case_bool_decide; by destruct Hbf.
Qed.

(** C2.  The PaXoS is an oblivious key-value store.  Take a fresh object whose
    parameters leave room for its keys, with column weights below 200, and either
    a binary dense part of at most 64 columns with fewer than 32 keys (a group of
    [Decode32]), or a GF(2^128) dense part with at most one gap row.  The keys are
    set, [Encode] solves for their values, and [Decode] of the keys gives the
    values back; it throws only when two keys have the same dense part, or when
    the equations of the gap rows have no solution on the dense columns.  Beyond
    these sizes the code fails: [Decode32] takes the wrong word of a dense part,
    and two gap rows make [MatrixGf128Inv] leave its vector. *)
Theorem Encode_Decode_roundtrip `{SymmetricCrypto} `{LibdivideLaws} avx idx vw p xs values out owns px :
  0 <= idx <= 64 -> 0 <= vw -> (0 < Paxos.weight p <= Paxos.sparse_size p)%nat -> (length xs + 2 <= Paxos.sparse_size p)%nat ->
  Z.of_nat (Paxos.sparse_size p) < 2 ^ idx -> Z.of_nat (Paxos.sparse_size p) < 2 ^ 63 ->
  (forall c, (column_weight avx idx p xs c < 200)%nat) ->
  param px = p -> num_items_ px = length xs -> add_to_decode_ px = false ->
  node_alloc_size (weight_sets_ px) = Z.of_nat (length (nodes (weight_sets_ px))) ->
  (length (nodes (weight_sets_ px)) <= Paxos.sparse_size p)%nat ->
  length values = length xs -> length out = length xs -> (0 < dense_size p)%nat ->
  (dt p = Binary -> (length xs < 32)%nat /\ (dense_size p <= 64)%nat /\ (g p <= dense_size p)%nat /\ fits (dense_size p) (g p)) ->
  (dt p = GF128 -> vw = 128 /\ Forall elem values /\ Forall (fun x => elem (AesCrHash_Hash1 x)) xs /\
    forall px1 px2 t, SetInput avx idx xs px = Ok px1 -> Triangulate idx px1 = Ok (px2, t) -> (length (gap_rows t) <= 1)%nat) ->
  outcome (~ NoDup (map AesCrHash_Hash1 xs) \/
           exists px' t, holds avx idx p xs px' /\ triangular px' t /\ unsolvable idx p px' t)
    (px ← SetInput avx idx xs px;
     '(px, P, _) ← Encode avx idx vw values (replicate (size p) 0) owns None px;
     Decode avx idx vw px xs out P)
    (fun decoded => decoded = values).
Proof.
  intros Hidx Hvw Hw Hn Hsp Hsp63 Hlight Hp Hnx Hadd Ha Hln Hlv Hlo Hds Hbin Hgf.
  pose proof (SetInput_ok avx idx Hidx p ltac:(lia) Hsp Hsp63 xs px Hp Hnx ltac:(lia) ltac:(lia) Hlight Ha Hln) as Hset.
  apply wp_iff in Hset as (px1 & E1 & Hh1 & Hr & Hadd1). rewrite E1. run.
  pose proof (Encode_ok avx idx vw p xs values owns px1) as Henc.
  specialize (Henc ltac:(lia) ltac:(lia) Hn Hsp Hh1 Hr Hlv Hds ltac:(intros Hdt; by destruct (Hbin Hdt))).
  specialize (Henc ltac:(intros Hdt; destruct (Hgf Hdt) as (? & ? & ? & Hg1); repeat (split; [done|]); intros px2 t; by apply Hg1)).
  apply outcome_bind. eapply outcome_mono; [exact Henc|]. clear Henc. intros [[px2 P] prng] (t & _ & E2 & Hh2 & HlP & Hbf).
  assert (param px2 = p) as Hp2 by (by destruct Hh2). assert (add_to_decode_ px2 = false) as Hadd2 by (rewrite E2; cbn; congruence).
  apply wp_outcome. rewrite (Decode_ok avx idx Hidx vw px2 P); rewrite ?Hp2; try done; try lia.
  - cbn [wp]. symmetry. apply eq_tabulate; [lia|]. intros i Hi.
    destruct (lookup_lt_is_Some_2 xs i Hi) as [x Hx]. unfold result. rewrite Hadd2.
    assert (decode1 avx idx vw px2 P x = values !!! i) as Hd.
    { apply (decode1_solves avx idx vw p xs px2 Hh2); try done. intros Hdt. destruct (Hgf Hdt) as (-> & _ & HF & _). split; [done|].
      by apply (Forall_lookup_1 _ _ _ _ HF Hx). }
    unfold decoded. rewrite (list_lookup_total_correct _ _ _ Hx). case_bool_decide as Hb; [|done]. rewrite <- Hd.
    unfold decode32, decode1. f_equal. rewrite Hp2. unfold word32. destruct (dt p) eqn:Hdt; [|done].
    destruct (Hbin eq_refl) as [H32 _]. unfold batches in Hb. rewrite Nat.div_small in Hb by done. lia.
  - intros Hdt. by destruct (Hbin Hdt) as (_ & ? & _).
  - intros Hdt Hge. destruct (Hbin Hdt) as (? & _). lia.
Qed.

(** ** Witness: a GF(2^128) matrix with one gap row, a binary one with two *)
Definition toy_gf128 : PaxosParam := mkParam 7 2 3 3 40 GF128.
Definition toy_binary : PaxosParam := mkParam 7 4 3 2 40 Binary.
Definition toy_values : list Z := [7; 8; 9; 10; 11].
Definition toy_gaps (p : PaxosParam) (keys : list Z) : nat :=
  match (px ← @SetInput toy_crypto plain_libdivide true 16 keys (Paxos_default p 5); Triangulate 16 px) with
  | Ok (_, t) => length (gap_rows t) | _ => 0 end.
Definition toy_roundtrip (p : PaxosParam) (vw : Z) (keys : list Z) : res (list Z) :=
  px ← @SetInput toy_crypto plain_libdivide true 16 keys (Paxos_default p 5);
  '(px, P, _) ← Encode true 16 vw toy_values (replicate (size p) 0) true None px;
  @Decode toy_crypto plain_libdivide true 16 vw px keys [0; 0; 0; 0; 0] P.
Definition toy_failure (p : PaxosParam) (keys : list Z) : Prop :=
  ~ NoDup (map (@AesCrHash_Hash1 toy_crypto) keys) \/
  exists px' t, @holds toy_crypto plain_libdivide true 16 p keys px' /\ triangular px' t /\ unsolvable 16 p px' t.

Lemma Encode_Decode_roundtrip_witness :
  (is_ok (toy_roundtrip toy_gf128 128 [1; 2; 3; 4; 5]) = true /\ toy_gaps toy_gf128 [1; 2; 3; 4; 5] = 1%nat /\
   outcome (toy_failure toy_gf128 [1; 2; 3; 4; 5]) (toy_roundtrip toy_gf128 128 [1; 2; 3; 4; 5]) (fun decoded => decoded = toy_values)) /\
  (is_ok (toy_roundtrip toy_binary 64 [501; 502; 503; 504; 505]) = true /\ toy_gaps toy_binary [501; 502; 503; 504; 505] = 2%nat /\
   outcome (toy_failure toy_binary [501; 502; 503; 504; 505]) (toy_roundtrip toy_binary 64 [501; 502; 503; 504; 505])
     (fun decoded => decoded = toy_values)).
Proof.
  split; (split; [vm_compute; reflexivity|]; split; [vm_compute; reflexivity|]).
  - apply (@Encode_Decode_roundtrip toy_crypto plain_libdivide plain_libdivide_laws true 16 128 toy_gf128 [1; 2; 3; 4; 5] toy_values
      [0; 0; 0; 0; 0] true (Paxos_default toy_gf128 5)); try (cbn; lia); try reflexivity; try discriminate.
    + intros c. unfold column_weight. eapply Nat.le_lt_trans; [apply length_filter|]. cbn. lia.
    + intros _. split; [reflexivity|]. split; [repeat constructor; discriminate|]. split; [|intros px1 px2 t E1 E2].
      * apply (Forall_impl (fun x => (0 <=? @AesCrHash_Hash1 toy_crypto x) && (@AesCrHash_Hash1 toy_crypto x <? 2 ^ 128) = true)); [repeat constructor|].
        intros x [Hx1 Hx2]%andb_prop. split; [by apply Z.leb_le|by apply Z.ltb_lt].
      * assert (toy_gaps toy_gf128 [1; 2; 3; 4; 5] = 1%nat) as Hg by (vm_compute; reflexivity). unfold toy_gaps in Hg.
        rewrite E1 in Hg. cbn [mbind res_bind] in Hg. rewrite E2 in Hg. by rewrite Hg.
  - apply (@Encode_Decode_roundtrip toy_crypto plain_libdivide plain_libdivide_laws true 16 64 toy_binary [501; 502; 503; 504; 505] toy_values
      [0; 0; 0; 0; 0] true (Paxos_default toy_binary 5)); try (cbn; lia); try reflexivity; try discriminate.
    + intros c. unfold column_weight. eapply Nat.le_lt_trans; [apply length_filter|]. cbn. lia.
    + intros _. split; [cbn; lia|]. split; [cbn; lia|]. split; [cbn; lia|]. split; [|reflexivity].
      intros j Hj. cbn in Hj. destruct j as [|[|[|j]]]; [reflexivity..|lia].
Defined.

(** The batches of a binary decoding read the other half of the dense parts: 32
    keys with three gap rows do not get their values back. *)
Definition batch_keys : list Z := map (fun k => 3000 + Z.of_nat k) (seq 1 32).
Definition batch_values : list Z := map Z.of_nat (seq 1 32).
Definition batch_roundtrip : res (list Z) :=
  px ← @SetInput toy_crypto plain_libdivide true 16 batch_keys (Paxos_default (mkParam 34 5 3 4 40 Binary) 32);
  '(px, P, _) ← Encode true 16 64 batch_values (replicate 39 0) true None px;
  @Decode toy_crypto plain_libdivide true 16 64 px batch_keys (replicate 32 0) P.
Lemma Decode_binary_batch_differs :
  match batch_roundtrip with Ok out => take 3 out = [0; 3; 34] /\ out <> batch_values | _ => False end.
Proof. vm_compute. split; [reflexivity|discriminate]. Qed.
