(* ===== verification/PaxosReuse.v ===== *)
(** * PaXoS: an object that is used again (psi/algorithm/rr22/okvs/paxos)

    [WeightData] keeps its allocation between uses.  A triangulation neither adds
    nor loses nodes, so the next [init] finds the number of nodes that
    [node_alloc_size] promises. *)
From S2P Require Import Prelude Galois PaxosHash WeightData DenseMtx Combination Paxos PaxosInput PaxosEncode.

(** The nodes there are, and the nodes the object believes to have. *)
Definition shape (s : WeightData) : nat * Z := (length (nodes s), node_alloc_size s).

Lemma update_length i f ns ns' : update i f ns = Ok ns' -> length ns' = length ns.
Proof. unfold update. intros (n & _ & E)%bind_ok. apply vset_ok in E as [_ ->]. apply length_insert. Qed.

Section shape.
Context (idx : Z).

Lemma assign_weight_shape n w s s' : assign_weight n w s = Ok s' -> shape s' = shape s.
Proof. unfold assign_weight. intros (ns & E & [= <-])%bind_ok. apply update_length in E. unfold shape. cbn. by rewrite E. Qed.

Lemma PopNode_shape n s s' : PopNode idx n s = Ok s' -> shape s' = shape s.
Proof.
  unfold PopNode. intros (nd & _ & E)%bind_ok. apply bind_ok in E as ([ws ns] & E1 & E).
  apply bind_ok in E as (ns1 & E2 & E). apply bind_ok in E as (ns2 & E3 & [= <-]).
  apply update_length in E2, E3. unfold shape. cbn. rewrite E3, E2. f_equal. clear ns1 ns2 E2 E3.
  destruct (_ =? _).
  - apply bind_ok in E1 as (slot & _ & E1). apply bind_ok in E1 as (_ & _ & E1). destruct (_ =? _).
    + apply bind_ok in E1 as (w1 & _ & E1). apply bind_ok in E1 as (w2 & _ & [= <- <-]). done.
    + apply bind_ok in E1 as (w1 & _ & E1). apply bind_ok in E1 as (n1 & E1 & [= <- <-]). by apply update_length in E1.
  - destruct (_ =? _).
    + apply bind_ok in E1 as (n1 & E1 & [= <- <-]). by apply update_length in E1.
    + apply bind_ok in E1 as (n1 & E1 & E). apply bind_ok in E as (n2 & E2 & [= <- <-]). apply update_length in E1, E2. congruence.
Qed.

Lemma PushNode_shape n s s' : PushNode idx n s = Ok s' -> shape s' = shape s.
Proof.
  unfold PushNode. intros (nd & _ & E)%bind_ok. apply bind_ok in E as (_ & _ & E). apply bind_ok in E as (_ & _ & E).
  apply bind_ok in E as ([first|] & _ & E).
  - apply bind_ok in E as (f & _ & E). apply bind_ok in E as (_ & _ & E). apply bind_ok in E as (n1 & E1 & E).
    apply bind_ok in E as (n2 & E2 & E). apply bind_ok in E as (ws & _ & [= <-]). apply update_length in E1, E2. unfold shape. cbn. by rewrite E2, E1.
  - by apply bind_ok in E as (ws & _ & [= <-]).
Qed.

Lemma reinsert_shape n s s' : reinsert idx n s = Ok s' -> shape s' = shape s.
Proof.
  unfold reinsert. intros (s1 & E1 & E)%bind_ok. apply bind_ok in E as (nd & _ & E). apply bind_ok in E as (s2 & E2 & E3).
  apply PopNode_shape in E1. apply assign_weight_shape in E2. apply PushNode_shape in E3. congruence.
Qed.

Lemma lower_weights_shape px r ws ws' : lower_weights idx px r ws = Ok ws' -> shape ws' = shape ws.
Proof.
  unfold lower_weights. intros E. apply (for_ok _ _ (fun _ s => shape s = shape ws)) in E; [done|done|].
  clear E. intros j s s' _ Hs E. apply bind_ok in E as (c & _ & E). apply bind_ok in E as (nd & _ & E).
  destruct (_ =? _); [by injection E as <-|]. apply reinsert_shape in E. congruence.
Qed.

Lemma visit_row_shape px c r st st' : visit_row idx px c r st = Ok st' -> shape (tri_sets st'.1) = shape (tri_sets st.1).
Proof.
  destruct st as [s first]. unfold visit_row. intros (set & _ & E)%bind_ok. destruct set; [by injection E as <-|].
  apply bind_ok in E as (rs & _ & E). apply bind_ok in E as (ws & E1 & E). apply lower_weights_shape in E1.
  destruct first; [by injection E as <-|]. destruct (last _); [|done]. apply bind_ok in E as (d & _ & E).
  apply bind_ok in E as (d' & _ & E). by apply bind_ok in E as (_ & _ & [= <-]).
Qed.

Lemma for_each_shape px c rows : forall st st', for_each rows (visit_row idx px c) st = Ok st' -> shape (tri_sets st'.1) = shape (tri_sets st.1).
Proof.
  induction rows as [|r rows IH]; intros st st' E; cbn [for_each] in E; [by injection E as <-|].
  apply bind_ok in E as (s1 & E1 & E). apply IH in E. apply visit_row_shape in E1. congruence.
Qed.

Lemma fix_column_shape px s s' : fix_column idx px s = Ok s' -> shape (tri_sets s') = shape (tri_sets s).
Proof.
  unfold fix_column. intros (col & _ & E)%bind_ok. apply bind_ok in E as (w1 & E1 & E). apply bind_ok in E as (w2 & E2 & E).
  apply bind_ok in E as (rows & _ & E). apply bind_ok in E as ([s1 first] & E3 & E). apply bind_ok in E as (_ & _ & [= <-]).
  apply PopNode_shape in E1. apply assign_weight_shape in E2. apply for_each_shape in E3. cbn in E3. congruence.
Qed.

Lemma fix_columns_shape px fuel : forall s s', Paxos.fix_columns idx fuel px s = Ok s' -> shape (tri_sets s') = shape (tri_sets s).
Proof.
  induction fuel as [|fuel IH]; intros s s' E; cbn [Paxos.fix_columns] in E; case_bool_decide; try by injection E as <-.
  { done. }
  apply bind_ok in E as (s1 & E1 & E). apply fix_column_shape in E1. apply IH in E. congruence.
Qed.
End shape.

(** The allocation agrees with the nodes, and leaves room for no more than the
    matrix has columns. *)
Definition reusable (p : PaxosParam) (ws : WeightData) : Prop :=
  node_alloc_size ws = Z.of_nat (length (nodes ws)) /\ (length (nodes ws) <= Paxos.sparse_size p)%nat.

Lemma reusable_shape p s s' : shape s' = shape s -> reusable p s -> reusable p s'.
Proof. unfold shape, reusable. intros [= -> ->]. done. Qed.
Lemma reusable_empty p : reusable p empty_weight_data.
Proof. split; [done|cbn; lia]. Qed.

Lemma init_node_length idx weights i st st' : init_node idx weights i st = Ok st' -> length st'.2 = length st.2.
Proof.
  destruct st as [ws ns]. unfold init_node. intros (w & _ & E)%bind_ok. apply bind_ok in E as (n1 & [_ ->]%vset_ok & E).
  apply bind_ok in E as (_ & _ & E). apply bind_ok in E as (slot & _ & E). apply bind_ok in E as (n2 & E2 & E).
  apply bind_ok in E as (ws' & _ & [= <-]). cbn [snd]. destruct slot as [first|]; [|injection E2 as <-; apply length_insert].
  apply bind_ok in E2 as (f & _ & E2). apply bind_ok in E2 as (_ & _ & E2). apply bind_ok in E2 as (n3 & E3 & E2).
  apply update_length in E2, E3. rewrite E2, E3. apply length_insert.
Qed.

Lemma init_reusable idx weights s s' p :
  init idx weights s = Ok s' -> reusable p s -> (length weights <= Paxos.sparse_size p)%nat -> reusable p s'.
Proof.
  intros E [Ha Hl] Hw. unfold init in E.
  destruct (Z.ltb_spec (node_alloc_size s) (Z.of_nat (length weights))); apply bind_ok in E as ([ws ns] & E & [= <-]).
  - apply (for_ok _ _ (fun _ st => length st.2 = length weights)) in E; [|apply length_resize|intros i st st' _ <- <-%init_node_length; done].
    split; cbn; cbn in E; lia.
  - apply (for_ok _ _ (fun _ st => length st.2 = length (nodes s))) in E; [|done|intros i st st' _ <- <-%init_node_length; done].
    split; cbn; cbn in E; lia.
Qed.

Lemma Triangulate_reusable idx px px' t :
  Triangulate idx px = Ok (px', t) -> reusable (param px) (weight_sets_ px) -> (length (cols_ px) <= Paxos.sparse_size (param px))%nat ->
  reusable (param px) (weight_sets_ px').
Proof.
  unfold Triangulate. intros (ws & E1 & E)%bind_ok Hr Hc. apply bind_ok in E as (s & E & [= <- <-]). apply fix_columns_shape in E. cbn in *.
  apply (reusable_shape _ ws); [done|]. case_bool_decide; [|by injection E1 as <-]. eapply init_reusable; [exact E1|done|by rewrite length_map].
Qed.

(** Without a generator there is none afterwards. *)
Lemma Backfill_no_prng avx idx vw px t values owns P P' prng :
  Backfill avx idx vw px t values owns (P, None) = Ok (P', prng) -> prng = None.
Proof.
  unfold Backfill. case_bool_decide; unfold BackfillGf128, BackfillBinary; cbv beta iota.
  - intros (_ & _ & E)%bind_ok. apply bind_ok in E as (_ & _ & E). apply bind_ok in E as (_ & _ & E).
    apply bind_ok in E as ([P1 prng1] & E1 & E). apply bind_ok in E as (P2 & _ & [= _ <-]).
    case_bool_decide; [by injection E1 as <- <-|]. unfold solve_gap_gf128 in E1. apply bind_ok in E1 as (fc & _ & E1).
    apply bind_ok in E1 as ([EE xx] & _ & E1). cbn [mbind res_bind] in E1. apply bind_ok in E1 as (EE1 & _ & E1).
    apply bind_ok in E1 as (_ & _ & E1). by apply bind_ok in E1 as (P3 & _ & [= _ <-]).
  - intros (_ & _ & E)%bind_ok. apply bind_ok in E as (_ & _ & E).
    apply bind_ok in E as ([[[P1 gc] dm] prng1] & E1 & E). apply bind_ok in E as (P2 & _ & [= _ <-]).
    case_bool_decide; [by injection E1 as <- <- <- <-|]. unfold solve_gap_binary in E1. apply bind_ok in E1 as (fc & _ & E1).
    apply bind_ok in E1 as (gc1 & _ & E1). cbn [mbind res_bind] in E1. apply bind_ok in E1 as (xx2 & _ & E1).
    apply bind_ok in E1 as (EE & _ & E1). apply bind_ok in E1 as ([x y] & _ & E1). apply bind_ok in E1 as (P3 & _ & E1).
    by apply bind_ok in E1 as (dm1 & _ & [= _ _ _ <-]).
Qed.
Lemma Encode_no_prng avx idx vw values out owns px px' P prng :
  Encode avx idx vw values out owns None px = Ok (px', P, prng) -> prng = None.
Proof.
  unfold Encode. intros (_ & _ & E)%bind_ok. apply bind_ok in E as ([px1 t] & _ & E). cbn [mbind res_bind] in E.
  apply bind_ok in E as ([P1 prng1] & E1 & [= _ _ <-]). by apply Backfill_no_prng in E1.
Qed.

(** *** Elements of GF(2^128) stay elements *)
Section elems.
Context (avx : bool) (idx : Z) (px : Paxos).

Lemma vget_elem P i x : Forall elem P -> vget P i = Ok x -> elem x.
Proof. intros HP Hx%vget_ok. by apply (Forall_lookup_1 _ _ _ _ HP Hx). Qed.
Lemma vset_elem P i x P' : Forall elem P -> elem x -> vset P i x = Ok P' -> Forall elem P'.
Proof. intros HP Hx [_ ->]%vset_ok. by apply Forall_insert. Qed.
Lemma MultAdd_elem_any v x y : elem v -> elem (MultAdd avx 128 v x y).
Proof. intros Hv. unfold MultAdd. apply lxor_elem; [done|]. apply wrap_range. lia. Qed.

Lemma add_row_values_elem P i y y' : Forall elem P -> elem y -> add_row_values px P i y = Ok y' -> elem y'.
Proof.
  intros HP Hy E. unfold add_row_values in E. apply (for_ok _ _ (fun _ y => elem y)) in E; [done|done|].
  clear y y' Hy E. intros j y y' _ Hy E. apply bind_ok in E as (c & _ & E). apply bind_ok in E as (x & Hx & [= <-]).
  apply lxor_elem; [done|]. by eapply vget_elem.
Qed.
Lemma add_row3_elem P i y y' : Forall elem P -> elem y -> add_row3 px P i y = Ok y' -> elem y'.
Proof.
  intros HP Hy E. unfold add_row3 in E. apply bind_ok in E as (c0 & _ & E). apply bind_ok in E as (c1 & _ & E). apply bind_ok in E as (c2 & _ & E).
  apply bind_ok in E as (p0 & H0 & E). apply bind_ok in E as (p1 & H1 & E). apply bind_ok in E as (p2 & H2 & [= <-]).
  unfold Add. repeat apply lxor_elem; try done; by eapply vget_elem.
Qed.
Lemma add_dense_elem P d y y' : elem y -> add_dense_gf128 avx 128 px P d y = Ok y' -> elem y'.
Proof.
  intros Hy E. unfold add_dense_gf128 in E. apply bind_ok in E as (p & _ & E). apply bind_ok in E as ([x r] & E & [= <-]).
  apply (for_ok _ _ (fun _ st => elem st.2)) in E; [done|by apply MultAdd_elem_any|].
  clear. intros i [x y] [x' y'] _ Hy E. apply bind_ok in E as (p & _ & [= _ <-]). by apply MultAdd_elem_any.
Qed.

Lemma backfill_gf128_rows_elem mr mc values dd P P' : Forall elem values -> Forall elem P ->
  backfill_gf128_rows avx 128 px mr mc values dd P = Ok P' -> Forall elem P'.
Proof.
  intros Hv HP E. unfold backfill_gf128_rows in E. apply (for_ok _ _ (fun _ P => Forall elem P)) in E; [done|done|].
  clear P P' HP E. intros k P P' _ HP E. apply bind_ok in E as (i & _ & E). apply bind_ok in E as (c & _ & E).
  apply bind_ok in E as (y & Hy & E). apply (vget_elem _ _ _ Hv) in Hy. apply bind_ok in E as (y1 & E1 & E).
  assert (elem y1) as Hy1 by (case_bool_decide; [by eapply add_row3_elem|by eapply add_row_values_elem]).
  apply bind_ok in E as (y2 & E2 & E). assert (elem y2) as Hy2.
  { destruct dd; [|by injection E2 as <-]. apply bind_ok in E2 as (d & _ & E2). by eapply add_dense_elem. }
  by eapply vset_elem.
Qed.

Lemma solve_gap_gf128_elem mr mc gr values P P' prng : Forall elem P ->
  solve_gap_gf128 avx idx 128 px mr mc gr values P None = Ok (P', prng) -> Forall elem P'.
Proof.
  intros HP E. unfold solve_gap_gf128 in E. apply bind_ok in E as (fc & _ & E). apply bind_ok in E as ([EE xx] & _ & E).
  cbn [mbind res_bind] in E. apply bind_ok in E as (EE1 & _ & E). apply bind_ok in E as (_ & _ & E). apply bind_ok in E as (P1 & E & [= <- _]).
  apply (for_ok _ _ (fun _ P => Forall elem P)) in E; [done|done|]. clear P P1 HP E. intros i P P' _ HP E.
  apply (for_ok _ _ (fun _ P => Forall elem P)) in E; [done|done|]. clear P P' HP E. intros j P P' _ HP E.
  apply bind_ok in E as (x & _ & E). apply bind_ok in E as (e & _ & E). apply bind_ok in E as (p & Hp & E).
  eapply vset_elem; [exact HP| |exact E]. apply MultAdd_elem_any. by eapply vget_elem.
Qed.
End elems.

Lemma Encode_elem avx idx values out owns px px' P prng : dt (param px) = GF128 -> Forall elem values -> Forall elem out ->
  Encode avx idx 128 values out owns None px = Ok (px', P, prng) -> Forall elem P.
Proof.
  intros Hdt Hv Ho E. unfold Encode in E. apply bind_ok in E as (_ & _ & E). apply bind_ok in E as ([px1 t] & Et & E).
  unfold Triangulate in Et. apply bind_ok in Et as (ws & _ & Et). apply bind_ok in Et as (s & _ & [= <- <-]).
  cbn [mbind res_bind] in E. apply bind_ok in E as ([P1 prng1] & E & [= _ <- _]). unfold Backfill in E.
  rewrite bool_decide_true in E by done. unfold BackfillGf128 in E. apply bind_ok in E as (_ & _ & E). apply bind_ok in E as (_ & _ & E).
  apply bind_ok in E as (_ & _ & E). apply bind_ok in E as ([P2 prng2] & E2 & E). apply bind_ok in E as (P3 & E3 & [= <- _]).
  eapply backfill_gf128_rows_elem; [exact Hv| |exact E3]. case_bool_decide; [by injection E2 as <- _|]. by eapply solve_gap_gf128_elem.
Qed.
