(* ===== verification/Baxos.v ===== *)
(** * Baxos: PaXoS in bins (psi/algorithm/rr22/okvs/baxos)

    A [Baxos] hashes the keys to bins and solves a PaXoS for each bin.  [Solve]
    runs in threads: each hashes its share of the keys into bins of its own; when
    all are done, each takes some of the bins, joins what the threads put there
    and encodes it into the part of the output that belongs to the bin.  [Decode]
    collects keys by bin and decodes a bin when its buffer is full.

    The threads of either phase write to disjoint parts of the shared vectors, so
    the model runs them one after the other, in orders that are arguments.
    [SimpleIndex::GetBinSize], evaluated in floating point, is an argument too:
    the theorems hold for any bin size that no bin exceeds. *)
From S2P Require Import Prelude Galois PaxosHash WeightData DenseMtx Combination Paxos PaxosInput PaxosEncode.

Record Baxos := mkBaxos {
  num_items_ : nat;
  num_bins_ : nat;
  items_per_bin_ : nat;
  weight_ : nat;
  ssp_ : nat;
  paxos_param_ : PaxosParam;
  add_to_decode_ : bool
}.
Definition size (b : Baxos) : nat := num_bins_ b * (sparse_size (paxos_param_ b) + dense_size (paxos_param_ b)).

Definition RoundUpTo (val step : Z) : Z := u64 ((u64 (val + step - 1) / step) * step).

(** The smallest index type: its width for the [Log2Ceil] of yacl. *)
Definition idx_bits (Log2Ceil : Z -> Z) (b : Baxos) : Z :=
  let bit_length := RoundUpTo (Log2Ceil (Z.of_nat (sparse_size (paxos_param_ b) + 1))) 8 in
  if bit_length <=? 8 then 8 else if bit_length <=? 16 then 16 else if bit_length <=? 32 then 32 else 64.

Definition BinIdxCompress (h : Z) : Z :=
  Z.lxor (Z.lxor (u64 h) (u64 (Z.shiftr h 64))) (u32 (Z.shiftr h 96)).
Definition ModNumBins (b : Baxos) (h : Z) : res nat :=
  _ ← defined (negb (bool_decide (num_bins_ b = 0%nat)));
  Ok (Z.to_nat (BinIdxCompress h mod Z.of_nat (num_bins_ b))).

(** What the threads of [Solve] share: the size of each bin of each thread, and
    for each bin the regions of the threads with the positions, values and
    hashes of their keys. *)
Record Scratch := mkScratch {
  thrd_bin_sizes : list nat;
  input_mapping : list nat;
  val_backing : list Z;
  hash_backing : list Z
}.

(** [memmove] of [n] elements within a vector. *)
Definition move (dst src n : nat) (l : list Z) : res (list Z) :=
  _ ← defined (bool_decide (dst + n <= length l)%nat && bool_decide (src + n <= length l)%nat);
  Ok (take dst l ++ take n (drop src l) ++ drop (dst + n) l).

Section baxos.
Context `{SymmetricCrypto} `{Libdivide} (avx : bool) (idx : Z).
Context (GetBinSize : nat -> nat -> nat -> nat).
(** What the memory of a buffer holds before it is written. *)
Context (junk : nat -> Z).

(** ** Solving: hashing to bins *)
Section solve.
Context (b : Baxos) (num_threads per : nat) (inputs vals : list Z).
Abbreviation nb := (num_bins_ b).

(** Where the region of a thread starts in a bin. *)
Definition region (thrd bin : nat) : nat := per * num_threads * bin + per * thrd.

(** A key goes to the next place of its bin; the batch loop does not check that
    there is one. *)
Definition put_item (checked : bool) (thrd bin in_idx : nat) (hash : Z) (s : Scratch) : res Scratch :=
  bs ← vget (thrd_bin_sizes s) (thrd * nb + bin);
  sizes ← vset (thrd_bin_sizes s) (thrd * nb + bin) (S bs);
  _ ← (if checked then enforce (bool_decide (bs < per)%nat) else Ok tt);
  _ ← enforce (bool_decide (region thrd bin + per <= nb * num_threads * per)%nat);
  _ ← defined (bool_decide (bs < per)%nat);
  mapping ← vset (input_mapping s) (region thrd bin + bs) in_idx;
  v ← vget vals in_idx;
  values ← vset (val_backing s) (region thrd bin + bs) v;
  hashes ← vset (hash_backing s) (region thrd bin + bs) hash;
  Ok (mkScratch sizes mapping values hashes).

(** Four calls of [Hash], each on the bytes of eight blocks. *)
Definition hash_batch (xs hashes : list Z) : res (list Z) :=
  for_ 4 (fun q hashes =>
    h ← AesCrHash_Hash (take 8 (drop (q * 8) xs)) (take 8 (drop (q * 8) hashes));
    Ok (take (q * 8) hashes ++ h ++ drop (q * 8 + 8) hashes)) hashes.

Definition hash_routine (thrd : nat) (s : Scratch) : res Scratch :=
  let begin := (length inputs * thrd / num_threads)%nat in
  let end_ := (length inputs * (thrd + 1) / num_threads)%nat in
  let inputs_span := take (end_ - begin) (drop begin inputs) in
  let main := (length inputs_span / 32)%nat in
  '(s, _) ← for_ main (fun g '(s, hashes) =>
    hashes ← hash_batch (take 32 (drop (g * 32) inputs_span)) hashes;
    let bin_idxs := DoMod32 (map BinIdxCompress hashes) (libdivide_u64_gen (Z.of_nat nb)) (Z.of_nat nb) in
    s ← for_ 32 (fun k s =>
      bin_idx ← vget bin_idxs k; h ← vget hashes k;
      put_item false thrd (Z.to_nat bin_idx) (begin + (g * 32 + k)) h s) s;
    Ok (s, hashes)) (s, tabulate 32 junk);
  for_ (length inputs_span - main * 32) (fun k s =>
    x ← vget inputs_span (main * 32 + k);
    let h := AesCrHash_Hash1 x in
    bin_idx ← ModNumBins b h;
    put_item true thrd bin_idx (begin + (main * 32 + k)) h s) s.

(** ** Solving: the bins *)

(** The keys of the other threads move up behind those of the first. *)
Definition merge_bin (bin : nat) (s : Scratch) : res Scratch :=
  let bin_begin := region 0 bin in
  bin_pos ← vget (thrd_bin_sizes s) bin;
  _ ← enforce (bool_decide (bin_pos <= per)%nat);
  '(values, hashes, _) ← for_ (num_threads - 1) (fun i0 '(values, hashes, bin_pos) =>
    let i := S i0 in
    size ← vget (thrd_bin_sizes s) (i * nb + bin);
    _ ← enforce (bool_decide (size <= per)%nat);
    hashes ← move (bin_begin + bin_pos) (region i bin) size hashes;
    values ← for_ size (fun j values =>
      x ← vget values (region i bin + j); vset values (bin_begin + bin_pos + j) x) values;
    Ok (values, hashes, bin_pos + size)%nat) (val_backing s, hash_backing s, bin_pos);
  Ok (mkScratch (thrd_bin_sizes s) (input_mapping s) values hashes).

(** The rows of a bin, written into a buffer that is reused, and the weights of
    the columns. *)
Definition put_row (at_ : nat) (rr rows : list Z) : list Z := take at_ rows ++ rr ++ drop (at_ + length rr) rows.
Definition build_bin (h : PaxosHash) (hashes : list Z) (rows : list Z) : res (list Z * list Z) :=
  let w := weight_ b in
  let n := length hashes in
  let one i '(rows, col_weights) :=
    x ← vget hashes i;
    rr ← BuildRow avx idx h x (take w (drop (i * w) rows));
    col_weights ← count_cols idx (map Z.to_nat rr) col_weights;
    Ok (put_row (i * w) rr rows, col_weights) in
  let st := (rows, replicate (sparse_size (paxos_param_ b)) 0) in
  if bool_decide (w = 3%nat) then
    let main := (n / 32)%nat in
    st ← for_ main (fun g '(rows, col_weights) =>
      let i := (g * 32)%nat in
      rr ← BuildRow32 avx idx h (take 32 (drop i hashes)) (take (32 * w) (drop (i * w) rows));
      col_weights ← count_cols idx (map Z.to_nat rr) col_weights;
      Ok (put_row (i * w) rr rows, col_weights)) st;
    for_ (n - main * 32) (fun k => one (main * 32 + k)%nat) st
  else for_ n one st.

(** One bin: its keys are joined and encoded into its part of the output. *)
Definition solve_bin (bin : nat) (st : Scratch * Paxos * list Z * list Z * option Prng)
    : res (Scratch * Paxos * list Z * list Z * option Prng) :=
  let '(s, paxos, rows_data, P, prng) := st in
  let p := paxos_param_ b in
  let w := weight_ b in
  let size_per := Paxos.size p in
  bin_size ← for_ num_threads (fun i n => x ← vget (thrd_bin_sizes s) (i * nb + bin); Ok (n + x)%nat) 0%nat;
  _ ← enforce (bool_decide (bin_size <= items_per_bin_ b)%nat);
  paxos ← Paxos.Init idx bin_size p paxos;
  s ← merge_bin bin s;
  let hashes := take bin_size (drop (region 0 bin) (hash_backing s)) in
  let values := take bin_size (drop (region 0 bin) (val_backing s)) in
  '(rows, col_weights) ← build_bin (hasher_ p) hashes rows_data;
  paxos ← SetInput_rows idx (map Z.to_nat (take (bin_size * w) rows)) hashes (replicate (bin_size * w) 0%nat) col_weights paxos;
  _ ← enforce (bool_decide (size_per * bin <= length P)%nat);
  '(paxos, output, prng) ← Encode avx idx 128 values (take size_per (drop (size_per * bin) P)) false prng paxos;
  Ok (s, paxos, rows, take (size_per * bin) P ++ output ++ drop (size_per * bin + size_per) P, prng).

(** The bins of a thread: [thrd], [thrd + num_threads], ... *)
Definition bin_routine (thrd : nat) (st : Scratch * list Z * option Prng) : res (Scratch * list Z * option Prng) :=
  let '(s, P, prng) := st in
  '(s, _, _, P, prng) ← for_ ((nb - thrd + num_threads - 1) / num_threads)
    (fun k => solve_bin (thrd + k * num_threads))
    (s, Paxos_default (mkParam 0 0 0 0 40 GF128) 0, replicate (items_per_bin_ b * weight_ b) 0, P, prng);
  Ok (s, P, prng).
End solve.

Definition ImplParSolve (b : Baxos) (hash_order bin_order : list nat) (inputs vals P : list Z) (owns : bool) (prng : option Prng)
    (num_threads : nat) : res (list Z * option Prng) :=
  let p := paxos_param_ b in
  _ ← enforce (bool_decide (length P = size b));
  _ ← enforce (bool_decide (length inputs <= num_items_ b)%nat);
  if bool_decide (num_bins_ b = 1%nat) then
    paxos ← Paxos.Init idx (num_items_ b) p (Paxos_default (mkParam 0 0 0 0 40 GF128) 0);
    paxos ← SetInput avx idx inputs paxos;
    '(_, P, prng) ← Encode avx idx 128 vals P owns prng paxos;
    Ok (P, prng)
  else
    let num_threads := Nat.max 1 num_threads in
    let total_num_bins := (num_bins_ b * num_threads)%nat in
    let items_per_thrd := ((num_items_ b + num_threads - 1) / num_threads)%nat in
    let per := GetBinSize (num_bins_ b) items_per_thrd (ssp_ b) in
    let s := mkScratch (replicate (num_threads * num_bins_ b) 0%nat) (replicate (total_num_bins * per) 0%nat)
               (replicate (total_num_bins * per) 0) (replicate (total_num_bins * per) 0) in
    s ← for_each hash_order (hash_routine b num_threads per inputs vals) s;
    '(_, P, prng) ← for_each bin_order (bin_routine b num_threads per) (s, P, prng);
    Ok (P, prng).

(** ** Decoding *)
Section decode.
Context (b : Baxos) (PP : list Z).
Abbreviation nb := (num_bins_ b).

(** Keys of one bin: 32 at a time, then one at a time. *)
Definition ImplDecodeBin (hashes : list Z) (in_idxs : list nat) (p : list Z) (st : list Z * list Z) : res (list Z * list Z) :=
  let w := weight_ b in
  let pp := paxos_param_ b in
  let n := length hashes in
  let batches := (n / 32)%nat in
  _ ← enforce (bool_decide (w <= 20)%nat);
  let row := take (32 * w) (tabulate (20 * 32) junk) in
  _ ← enforce (bool_decide (32 <= length st.2)%nat);
  '(row, values, buff) ← for_ batches (fun g '(row, values, buff) =>
    let i := (g * 32)%nat in
    row ← BuildRow32 avx idx (hasher_ pp) (take 32 (drop i hashes)) row;
    v ← Decode32 avx 128 pp (map Z.to_nat row) (take 32 (drop i hashes)) (take 32 buff) p;
    let buff := v ++ drop 32 buff in
    values ← for_ 32 (fun k values =>
      t ← vget in_idxs (i + k); x ← vget buff k; v ← vget values t;
      vset values t (if add_to_decode_ b then Add v x else x)) values;
    Ok (row, values, buff)) (row, st.1, st.2);
  '(_, values, buff) ← for_ (n - batches * 32) (fun k '(row, values, buff) =>
    let i := (batches * 32 + k)%nat in
    x ← vget hashes i;
    rr ← BuildRow avx idx (hasher_ pp) x (take w row);
    let row := put_row 0 rr row in
    t ← vget in_idxs i;
    v ← vget values t;
    y ← Decode1 avx 128 pp (map Z.to_nat rr) x p;
    if add_to_decode_ b then
      buff ← vset buff 0 y;
      values ← vset values t (Add v y); Ok (row, values, buff)
    else
      values ← vset values t y; Ok (row, values, buff)) (row, values, buff);
  Ok (values, buff).

(** The keys collected so far: hashes and positions by bin, and how many. *)
Record Pending := mkPending { batches_mtx : list Z; in_idxs_mtx : list nat; batch_sizes : list nat; values_ : list Z; buff_ : list Z }.

Definition decode_bin (decode_size bin n : nat) (s : Pending) : res Pending :=
  let size_per := (size b / nb)%nat in
  _ ← enforce (bool_decide (bin * size_per <= length PP)%nat);
  '(values, buff) ← ImplDecodeBin (take n (drop (bin * decode_size) (batches_mtx s)))
    (take decode_size (drop (bin * decode_size) (in_idxs_mtx s))) (take size_per (drop (bin * size_per) PP)) (values_ s, buff_ s);
  Ok (mkPending (batches_mtx s) (in_idxs_mtx s) (batch_sizes s) values buff).

Definition push_key (decode_size bin i : nat) (hash : Z) (s : Pending) : res Pending :=
  n ← vget (batch_sizes s) bin;
  mtx ← vset (batches_mtx s) (bin * decode_size + n) hash;
  idxs ← vset (in_idxs_mtx s) (bin * decode_size + n) i;
  sizes ← vset (batch_sizes s) bin (S n);
  let s := mkPending mtx idxs sizes (values_ s) (buff_ s) in
  if bool_decide (S n = decode_size) then
    s ← decode_bin decode_size bin decode_size s;
    sizes ← vset (batch_sizes s) bin 0%nat;
    Ok (mkPending (batches_mtx s) (in_idxs_mtx s) sizes (values_ s) (buff_ s))
  else Ok s.

Definition ImplDecodeBatch (inputs values : list Z) : res (list Z) :=
  let n := length inputs in
  let decode_size := Nat.min 512 n in
  _ ← defined (negb (bool_decide (nb = 0%nat)));
  _ ← Paxos.Init idx 1 (paxos_param_ b) (Paxos_default (mkParam 0 0 0 0 40 GF128) 0);
  let s := mkPending (tabulate (nb * decode_size) junk) (tabulate (nb * decode_size) (fun i => Z.to_nat (junk i)))
             (replicate nb 0%nat) values (replicate 32 0) in
  let main := (n / 32)%nat in
  '(s, buffer) ← for_ main (fun g '(s, buffer) =>
    let i := (g * 32)%nat in
    buffer ← AesCrHash_Hash (take 32 (drop i inputs)) buffer;
    let bin_idxs := DoMod32 (map BinIdxCompress buffer) (libdivide_u64_gen (Z.of_nat nb)) (Z.of_nat nb) in
    s ← for_ 32 (fun k s =>
      bin_idx ← vget bin_idxs k; h ← vget buffer k;
      push_key decode_size (Z.to_nat bin_idx) (i + k) h s) s;
    Ok (s, buffer)) (s, tabulate 32 junk);
  '(s, _) ← for_ (n - main * 32) (fun k '(s, buffer) =>
    x ← vget inputs (main * 32 + k);
    h ← AesCrHash_Hash [x] (take 1 buffer);
    let buffer := h ++ drop 1 buffer in
    h ← vget buffer 0;
    bin_idx ← ModNumBins b h;
    s ← push_key decode_size bin_idx (main * 32 + k) h s;
    Ok (s, buffer)) (s, buffer);
  s ← for_ nb (fun bin s =>
    n ← vget (batch_sizes s) bin;
    if bool_decide (n = 0%nat) then Ok s else decode_bin decode_size bin n s) s;
  Ok (values_ s).

(** Each thread decodes its share of the keys. *)
Definition decode_routine (num_threads : nat) (inputs : list Z) (i : nat) (values : list Z) : res (list Z) :=
  let begin := (length inputs * i / num_threads)%nat in
  let end_ := (length inputs * (i + 1) / num_threads)%nat in
  _ ← enforce (bool_decide (begin <= length values)%nat);
  va ← ImplDecodeBatch (take (end_ - begin) (drop begin inputs)) (take (end_ - begin) (drop begin values));
  Ok (take begin values ++ va ++ drop end_ values).

Definition ImplParDecode (px : Paxos) (order : list nat) (inputs values : list Z) (num_threads : nat) : res (list Z) :=
  if bool_decide (nb = 1%nat) then
    paxos ← Paxos.Init idx 1 (paxos_param_ b) px;
    PaxosEncode.Decode avx idx 128 paxos inputs values PP
  else
    for_each order (decode_routine (Nat.max num_threads 1) inputs) values.
End decode.
End baxos.

(** ** The entry points *)
Definition Solve `{SymmetricCrypto} `{Libdivide} (avx : bool) (Log2Ceil : Z -> Z) (GetBinSize : nat -> nat -> nat -> nat)
    (junk : nat -> Z) (b : Baxos) (hash_order bin_order : list nat) (inputs vals P : list Z) (owns : bool) (prng : option Prng)
    (num_threads : nat) : res (list Z * option Prng) :=
  ImplParSolve avx (idx_bits Log2Ceil b) GetBinSize junk b hash_order bin_order inputs vals P owns prng num_threads.

Definition Decode `{SymmetricCrypto} `{Libdivide} (avx : bool) (Log2Ceil : Z -> Z) (junk : nat -> Z) (b : Baxos) (PP : list Z)
    (order : list nat) (inputs values : list Z) (num_threads : nat) : res (list Z) :=
  ImplParDecode avx (idx_bits Log2Ceil b) junk b PP (Paxos_default (mkParam 0 0 0 0 40 GF128) 0) order inputs values num_threads.
