(* ===== verification/BaxosSolve.v ===== *)
(** * Baxos: what the bins hold, and what [Solve] leaves (psi/algorithm/rr22/okvs/baxos)

    Whatever the number of threads and their order, after hashing a region holds
    the keys of its thread and bin in the order of the inputs; joined, a bin holds
    all keys that hash to it; and the part of the output for a bin solves its
    PaXoS. *)
From S2P Require Import Prelude Galois PaxosHash WeightData DenseMtx Combination Paxos PaxosInput PaxosEncode PaxosSolve PaxosDense PaxosBackfill PaxosDecode Baxos.

Lemma BinIdxCompress_range h : 0 <= BinIdxCompress h < 2 ^ 64.
Proof.
  unfold BinIdxCompress. apply lxor_range; [lia|apply lxor_range; [lia|apply u64_range..]|]. pose proof (u32_range (Z.shiftr h 96)). lia.
Qed.

(** ** Moving elements down *)
Definition moved (dst src n : nat) (l l' : list Z) : Prop :=
  length l' = length l /\
  forall i, l' !!! i = if bool_decide (dst <= i < dst + n)%nat then l !!! (src + (i - dst))%nat else l !!! i.

Lemma move_ok dst src n l : (dst + n <= length l)%nat -> (src + n <= length l)%nat -> wp (move dst src n l) (moved dst src n l).
Proof.
  intros Hd Hs. unfold move. rewrite !bool_decide_true by done. run.
  assert (length (take n (drop src l)) = n) as Hn by (rewrite length_take, length_drop; lia).
  assert (length (take dst l) = dst) as Ht by (rewrite length_take; lia). split.
  - rewrite !length_app, Hn, Ht, length_drop. lia.
  - intros i. rewrite !list_lookup_total_alt. f_equal. destruct (decide (i < dst)%nat).
    + rewrite lookup_app_l by lia. rewrite lookup_take_lt by done. by rewrite bool_decide_false by lia.
    + rewrite lookup_app_r by lia. rewrite Ht. destruct (decide (i < dst + n)%nat).
      * rewrite lookup_app_l by lia. rewrite lookup_take_lt, lookup_drop by lia. by rewrite bool_decide_true by lia.
      * rewrite lookup_app_r by lia. rewrite Hn, lookup_drop. rewrite bool_decide_false by lia. do 2 f_equal. lia.
Qed.
Lemma copy_down_ok dst src n l : (dst <= src)%nat -> (src + n <= length l)%nat ->
  wp (for_ n (fun j l => x ← vget l (src + j); vset l (dst + j) x) l) (moved dst src n l).
Proof.
  intros Hd Hs. apply (wp_for _ _ (fun j l' => moved dst src j l l')).
  - split; [done|]. intros i. by rewrite bool_decide_false by lia.
  - intros j l' Hj [Hl Hm]. rewrite vget_total by lia. run. rewrite vset_total by lia. run. split; [by rewrite length_insert|].
    intros i. destruct (decide (i = dst + j)%nat) as [->|Hne].
    + rewrite list_lookup_total_insert_eq by lia. rewrite Hm, bool_decide_false, bool_decide_true by lia. f_equal. lia.
    + rewrite list_lookup_total_insert_ne by lia. rewrite Hm. rewrite (bool_decide_ext (dst <= i < dst + S j)%nat (dst <= i < dst + j)%nat); [done|lia].
  - done.
Qed.

(** ** The keys of a thread and a bin *)
Section bins.
Context `{SymmetricCrypto} `{LibdivideLaws} (junk : nat -> Z) (b : Baxos) (T per : nat) (inputs vals : list Z).
Abbreviation nb := (num_bins_ b).
Abbreviation n := (length inputs).
Context (HT : (0 < T)%nat) (Hnb : (0 < nb)%nat) (Hnb64 : Z.of_nat nb < 2 ^ 64) (Hlv : length vals = n).

Definition bin_of (x : Z) : nat := Z.to_nat (BinIdxCompress (AesCrHash_Hash1 x) mod Z.of_nat nb).
Definition begin (t : nat) : nat := n * t / T.
Definition keys_in (c : nat) (l : list nat) : list nat := filter (fun i => bin_of (inputs !!! i) = c) l.
Definition seg (t c m : nat) : list nat := keys_in c (seq (begin t) m).
Definition share (t : nat) : nat := begin (t + 1) - begin t.

Lemma bin_of_lt x : (bin_of x < nb)%nat.
Proof. clear - Hnb. unfold bin_of. pose proof (Z.mod_pos_bound (BinIdxCompress (AesCrHash_Hash1 x)) (Z.of_nat nb) ltac:(lia)). lia. Qed.

Lemma begin_0 : begin 0 = 0%nat.
Proof. unfold begin. rewrite Nat.mul_0_r. by apply Nat.div_small. Qed.
Lemma begin_T : begin T = n.
Proof. unfold begin. apply Nat.div_mul. lia. Qed.
Lemma begin_mono t u : (t <= u)%nat -> (begin t <= begin u)%nat.
Proof. intros Htu. unfold begin. apply Nat.Div0.div_le_mono. nia. Qed.
Lemma share_end t : (t < T)%nat -> (begin t + share t = begin (t + 1) /\ begin t + share t <= n)%nat.
Proof.
  intros Ht. pose proof (begin_mono t (t + 1) ltac:(lia)). pose proof (begin_mono (t + 1) T ltac:(lia)) as Hm. rewrite begin_T in Hm.
  unfold share. lia.
Qed.

Lemma keys_in_app c l1 l2 : keys_in c (l1 ++ l2) = keys_in c l1 ++ keys_in c l2.
Proof. apply filter_app. Qed.
Lemma seg_S t c m : seg t c (S m) = seg t c m ++ (if decide (bin_of (inputs !!! (begin t + m)%nat) = c) then [(begin t + m)%nat] else []).
Proof. unfold seg. rewrite seq_S, keys_in_app. f_equal. Qed.
Lemma seg_le t c m m' : (m <= m')%nat -> (length (seg t c m) <= length (seg t c m'))%nat.
Proof.
  intros Hm. unfold seg. replace m' with (m + (m' - m))%nat by lia. rewrite seq_app, keys_in_app, length_app. lia.
Qed.

(** ** Regions *)
Abbreviation region := (Baxos.region T per).
Lemma cell_inj t c k t' c' k' : (k < per)%nat -> (k' < per)%nat -> (t < T)%nat -> (t' < T)%nat ->
  (region t c + k = region t' c' + k')%nat -> t = t' /\ c = c' /\ k = k'.
Proof.
  intros Hk Hk' Ht Ht' E. unfold Baxos.region in E.
  destruct (Nat.div_mod_unique per (T * c + t) (T * c' + t') k k') as [E1 E2]; [lia|lia|by rewrite !Nat.mul_add_distr_l, !Nat.mul_assoc|].
  destruct (Nat.div_mod_unique T c c' t t') as [E3 E4]; [lia|lia|lia|]. done.
Qed.
Lemma region_bound t c : (t < T)%nat -> (c < nb)%nat -> (region t c + per <= nb * T * per)%nat.
Proof.
  intros Ht Hc. unfold Baxos.region. assert (T * c + t + 1 <= T * nb)%nat as Hle by nia.
  apply (Nat.mul_le_mono_l _ _ per) in Hle. rewrite !Nat.mul_add_distr_l, !Nat.mul_assoc in Hle. lia.
Qed.
Lemma size_cell t c t' c' : (c < nb)%nat -> (c' < nb)%nat -> (t * nb + c = t' * nb + c')%nat -> t = t' /\ c = c'.
Proof. intros Hc Hc' E. destruct (Nat.div_mod_unique nb t t' c c') as [-> ->]; [lia|lia|lia|done]. Qed.
Lemma size_bound t c : (t < T)%nat -> (c < nb)%nat -> (t * nb + c < T * nb)%nat.
Proof. nia. Qed.

(** Thread [t] has placed the first [cnt t] keys of its share. *)
Definition sized (s : Scratch) : Prop :=
  length (thrd_bin_sizes s) = (T * nb)%nat /\ length (input_mapping s) = (nb * T * per)%nat /\
  length (val_backing s) = (nb * T * per)%nat /\ length (hash_backing s) = (nb * T * per)%nat.
Definition region_ok (s : Scratch) (t c : nat) (l : list nat) : Prop :=
  thrd_bin_sizes s !!! (t * nb + c)%nat = length l /\
  forall k i, l !! k = Some i -> val_backing s !!! (region t c + k)%nat = vals !!! i /\
    hash_backing s !!! (region t c + k)%nat = AesCrHash_Hash1 (inputs !!! i) /\ input_mapping s !!! (region t c + k)%nat = i.
Definition filled (cnt : nat -> nat) (s : Scratch) : Prop :=
  sized s /\ forall t c, (t < T)%nat -> (c < nb)%nat -> region_ok s t c (seg t c (cnt t)).

Context (Hfit : forall t c, (t < T)%nat -> (c < nb)%nat -> (length (seg t c (share t)) <= per)%nat).

Definition tick (t : nat) (cnt : nat -> nat) (u : nat) : nat := if decide (u = t) then S (cnt u) else cnt u.

Lemma put_item_ok checked t cnt s :
  (t < T)%nat -> (cnt t < share t)%nat -> (forall u, (u < T)%nat -> (cnt u <= share u)%nat) -> filled cnt s ->
  wp (put_item b T per vals checked t (bin_of (inputs !!! (begin t + cnt t)%nat)) (begin t + cnt t)
        (AesCrHash_Hash1 (inputs !!! (begin t + cnt t)%nat)) s) (filled (tick t cnt)).
Proof.
  intros Ht Hm Hcnt [(Hz1 & Hz2 & Hz3 & Hz4) Hf]. set (i := (begin t + cnt t)%nat). set (c := bin_of (inputs !!! i)).
  assert (c < nb)%nat as Hc by apply bin_of_lt. destruct (Hf t c Ht Hc) as [Hs Hreg]. pose proof (share_end t Ht) as [_ Hse].
  pose proof (seg_S t c (cnt t)) as HS. fold i in HS. fold c in HS. rewrite decide_True in HS by done.
  assert (length (seg t c (cnt t)) < per)%nat as Hk.
  { pose proof (Hfit t c Ht Hc). pose proof (seg_le t c (S (cnt t)) (share t) ltac:(lia)) as Hle. rewrite HS, length_app in Hle. cbn in Hle. lia. }
  pose proof (region_bound t c Ht Hc) as Hrb. pose proof (size_bound t c Ht Hc) as Hsb.
  unfold put_item. rewrite (vget_total (thrd_bin_sizes s)) by lia. rewrite Hs. run. rewrite vset_total by lia. run.
  assert ((if checked then enforce (bool_decide (length (seg t c (cnt t)) < per)%nat) else Ok tt) = Ok tt) as -> by (destruct checked; [by rewrite bool_decide_true|done]).
  run. rewrite !bool_decide_true by lia. run. rewrite vset_total by lia. run. rewrite (vget_total vals) by lia. run. rewrite !vset_total by lia. run.
  split; [unfold sized; cbn [thrd_bin_sizes input_mapping val_backing hash_backing]; by rewrite !length_insert|].
  intros t' c' Ht' Hc'. destruct (Hf t' c' Ht' Hc') as [Hs' Hreg']. unfold tick.
  assert (length (seg t' c' (cnt t')) <= per)%nat as Hl'.
  { etransitivity; [apply (seg_le t' c' (cnt t') (share t')); by apply Hcnt|by apply Hfit]. }
  destruct (decide (t' = t /\ c' = c)) as [[-> ->]|Hne].
  - rewrite decide_True, HS by done. split; cbn [thrd_bin_sizes input_mapping val_backing hash_backing].
    + rewrite list_lookup_total_insert_eq by lia. rewrite length_app. cbn. lia.
    + intros k j Hkj. apply lookup_snoc_Some in Hkj as [[Hk' Hj]|[-> <-]].
      * rewrite !list_lookup_total_insert_ne by lia. by apply Hreg.
      * by rewrite !list_lookup_total_insert_eq by lia.
  - assert (seg t' c' (if decide (t' = t) then S (cnt t') else cnt t') = seg t' c' (cnt t')) as ->.
    { destruct (decide (t' = t)) as [->|]; [|done]. rewrite seg_S. fold i. fold c. rewrite decide_False by naive_solver. by rewrite app_nil_r. }
    split; cbn [thrd_bin_sizes input_mapping val_backing hash_backing].
    + rewrite list_lookup_total_insert_ne; [done|]. intros E. apply Hne. destruct (size_cell t c t' c' Hc Hc' E). done.
    + intros k j Hkj. pose proof (lookup_lt_Some _ _ _ Hkj). rewrite !list_lookup_total_insert_ne; [by apply Hreg'|..];
        intros E; apply Hne; destruct (cell_inj t c (length (seg t c (cnt t))) t' c' k) as (-> & -> & _); (done || lia).
Qed.

Definition at_count (t m : nat) (cnt : nat -> nat) (u : nat) : nat := if decide (u = t) then m else cnt u.
Lemma filled_ext cnt cnt' s : (forall u, (u < T)%nat -> cnt u = cnt' u) -> filled cnt s -> filled cnt' s.
Proof. intros E [Hz Hf]. split; [done|]. intros t c Ht Hc. rewrite <- E by done. by apply Hf. Qed.

Lemma put_next checked t m cnt s i x :
  (t < T)%nat -> (m < share t)%nat -> (forall u, (u < T)%nat -> (cnt u <= share u)%nat) -> i = (begin t + m)%nat -> inputs !!! i = x ->
  filled (at_count t m cnt) s ->
  wp (put_item b T per vals checked t (bin_of x) i (AesCrHash_Hash1 x) s) (filled (at_count t (S m) cnt)).
Proof.
  intros Ht Hm Hcnt -> <- Hf. assert (at_count t m cnt t = m) as Em by (unfold at_count; by rewrite decide_True).
  pose proof (put_item_ok checked t (at_count t m cnt) s Ht) as Hp. rewrite Em in Hp.
  eapply wp_mono; [apply Hp; [done| |done]|].
  - intros u Hu. unfold at_count. case_decide; [subst; lia|by apply Hcnt].
  - intros s'. apply filled_ext. intros u _. unfold tick, at_count. case_decide; done.
Qed.

Lemma hash_batch_ok xs hashes : length xs = 32%nat -> length hashes = 32%nat -> hash_batch xs hashes = Ok (map AesCrHash_Hash1 xs).
Proof.
  intros Hx Hh. apply wp_eq. unfold hash_batch. apply (wp_for _ _ (fun q r => r = map AesCrHash_Hash1 (take (q * 8) xs) ++ drop (q * 8) hashes)).
  - done.
  - intros q r Hq ->. assert (length (map AesCrHash_Hash1 (take (q * 8) xs)) = (q * 8)%nat) as Hl by (rewrite length_map, length_take; lia).
    rewrite (drop_app_length' _ _ (q * 8)), (take_app_length' _ _ (q * 8)) by (by rewrite Hl).
    rewrite AesCrHash_Hash_map by (rewrite !length_take, !length_drop; lia). run. rewrite (drop_app_ge _ _ (q * 8 + 8)) by lia. rewrite Hl, drop_drop.
    rewrite app_assoc, <- map_app, take_take_drop. replace (q * 8 + 8)%nat with (S q * 8)%nat by lia. do 3 f_equal. lia.
  - intros r ->. rewrite take_ge, drop_ge by lia. apply app_nil_r.
Qed.
Lemma DoMod32_bins hs : DoMod32 (map BinIdxCompress hs) (libdivide_u64_gen (Z.of_nat nb)) (Z.of_nat nb) =
  map (fun h => BinIdxCompress h mod Z.of_nat nb) hs.
Proof.
  clear - H1 Hnb Hnb64. unfold DoMod32. rewrite map_map. apply map_ext. intros h. pose proof (BinIdxCompress_range h) as Hr.
  rewrite libdivide_exact by lia. pose proof (Z.div_mod (BinIdxCompress h) (Z.of_nat nb) ltac:(lia)) as Hdm.
  pose proof (Z.mod_pos_bound (BinIdxCompress h) (Z.of_nat nb) ltac:(lia)). pose proof (Z.div_pos (BinIdxCompress h) (Z.of_nat nb) ltac:(lia) ltac:(lia)).
  rewrite (u64_small (_ * _)) by nia. rewrite u64_small by nia. nia.
Qed.
Lemma ModNumBins_ok x : ModNumBins b (AesCrHash_Hash1 x) = Ok (bin_of x).
Proof. clear - Hnb. unfold ModNumBins. by rewrite bool_decide_false by lia. Qed.

Lemma hash_routine_ok t cnt s :
  (t < T)%nat -> (forall u, (u < T)%nat -> (cnt u <= share u)%nat) -> cnt t = 0%nat -> filled cnt s ->
  wp (hash_routine junk b T per inputs vals t s) (filled (at_count t (share t) cnt)).
Proof.
  intros Ht Hcnt H0t Hf. unfold hash_routine. change (n * t / T)%nat with (begin t). change (n * (t + 1) / T)%nat with (begin (t + 1)).
  change (begin (t + 1) - begin t)%nat with (share t). pose proof (share_end t Ht) as [_ Hse].
  set (span := take (share t) (drop (begin t) inputs)). assert (length span = share t) as Hls by (unfold span; rewrite length_take, length_drop; lia).
  assert (forall m, (m < share t)%nat -> span !!! m = inputs !!! (begin t + m)%nat) as Hspan.
  { intros m Hm. unfold span. rewrite lookup_total_take, decide_True by done. apply lookup_total_drop. }
  rewrite Hls. set (g := (share t / 32)%nat). pose proof (Nat.div_mod_eq (share t) 32) as Hd. fold g in Hd.
  apply wp_bind. apply (wp_for _ _ (fun k '(s, hashes) => length hashes = 32%nat /\ filled (at_count t (k * 32) cnt) s)).
  - split; [by rewrite length_tabulate|]. eapply filled_ext; [|exact Hf]. intros u _. unfold at_count. case_decide; [by subst|done].
  - clear Hf s. intros k [s hashes] Hk [Hlh Hf]. assert (k * 32 + 32 <= share t)%nat as Hk32 by lia.
    assert (length (take 32 (drop (k * 32) span)) = 32%nat) as Hx by (rewrite length_take, length_drop; lia).
    rewrite hash_batch_ok by done. run. rewrite DoMod32_bins, map_map. apply wp_bind.
    apply (wp_for _ _ (fun j s => filled (at_count t (k * 32 + j) cnt) s)).
    + by rewrite Nat.add_0_r.
    + clear Hf s. intros j s Hj Hf. assert (take 32 (drop (k * 32) span) !! j = Some (inputs !!! (begin t + (k * 32 + j))%nat)) as Hjx.
      { rewrite lookup_take_lt, lookup_drop by done. rewrite <- Hspan by lia. apply list_lookup_lookup_total_lt. lia. }
      rewrite (proj2 (vget_ok _ _ _) (eq_trans (lookup_map _ _ _) (f_equal _ Hjx))). run.
      rewrite (proj2 (vget_ok _ _ _) (eq_trans (lookup_map _ _ _) (f_equal _ Hjx))). run.
      rewrite Nat.add_succ_r. by apply put_next; try done; lia.
    + clear Hf s. intros s Hf. run. split; [by rewrite length_map|]. by replace (S k * 32)%nat with (k * 32 + 32)%nat by lia.
  - clear Hf s. intros [s hashes] [_ Hf]. apply (wp_for _ _ (fun k s => filled (at_count t (g * 32 + k) cnt) s)).
    + by rewrite Nat.add_0_r.
    + clear Hf s. intros k s Hk Hf. rewrite (vget_total span) by lia. run. rewrite Hspan by lia. rewrite ModNumBins_ok. run.
      rewrite Nat.add_succ_r. by apply put_next; try done; lia.
    + intros s'. by replace (g * 32 + (share t - g * 32))%nat with (share t) by lia.
Qed.

(** All threads, in any order. *)
Lemma hash_routines_ok order s :
  order ≡ₚ seq 0 T -> filled (fun _ => 0%nat) s ->
  wp (for_each order (hash_routine junk b T per inputs vals) s) (filled share).
Proof.
  intros Ho Hf. assert (NoDup order) as Hnd by (rewrite Ho; apply NoDup_seq).
  assert (forall u, (u < T)%nat -> u ∈ order) as Hin by (intros u Hu; rewrite Ho, elem_of_seq; lia).
  eapply wp_mono; [apply (wp_for_each order _ (fun l s => filled (fun u => if decide (u ∈ l) then share u else 0%nat) s))|].
  - eapply filled_ext; [|exact Hf]. intros u _. by rewrite decide_False by apply not_elem_of_nil.
  - intros l1 t l2 s1 E Hs1. assert (t < T)%nat as Ht by (assert (t ∈ order) as Hto by (rewrite E; set_solver); rewrite Ho, elem_of_seq in Hto; lia).
    assert (t ∉ l1) as Htl by (rewrite E in Hnd; apply NoDup_app in Hnd as (_ & Hnd & _); intros Hl; apply (Hnd t Hl); by left).
    eapply wp_mono; [apply (hash_routine_ok t (fun u => if decide (u ∈ l1) then share u else 0%nat) s1 Ht); [|by rewrite decide_False|exact Hs1]|].
    + intros u Hu. case_decide; lia.
    + intros s2. apply filled_ext. intros u _. unfold at_count. destruct (decide (u = t)) as [->|Hne].
      * rewrite decide_True; [done|]. apply elem_of_app. right. by left.
      * destruct (decide (u ∈ l1)); [rewrite decide_True; [done|set_solver]|rewrite decide_False; [done|set_solver]].
  - intros s1. apply filled_ext. intros u Hu. by rewrite decide_True by by apply Hin.
Qed.

(** ** Joining a bin *)
Definition keys (c : nat) : list nat := keys_in c (seq 0 n).

Lemma keys_upto_S c u : (u < T)%nat -> keys_in c (seq 0 (begin (S u))) = keys_in c (seq 0 (begin u)) ++ seg u c (share u).
Proof.
  intros Hu. destruct (share_end u Hu) as [He _]. unfold seg. rewrite <- keys_in_app. f_equal.
  pose proof (seq_app (begin u) (share u) 0) as Hs. cbn [Nat.add] in Hs. rewrite <- Hs, He. do 2 f_equal. lia.
Qed.
Lemma keys_upto_T c : keys_in c (seq 0 (begin T)) = keys c.
Proof. by rewrite begin_T. Qed.
Lemma keys_upto_le c u : (u <= T)%nat -> (c < nb)%nat -> (length (keys_in c (seq 0 (begin u))) <= per * u)%nat.
Proof.
  intros Hu Hc. induction u as [|u IH]; [rewrite begin_0; cbn; lia|]. rewrite keys_upto_S, length_app by lia.
  pose proof (Hfit u c ltac:(lia) Hc). specialize (IH ltac:(lia)). lia.
Qed.
Lemma keys_first c : keys_in c (seq 0 (begin 1)) = seg 0 c (share 0).
Proof. rewrite (keys_upto_S c 0) by lia. by rewrite begin_0. Qed.

(** The first keys of a bin are in place. *)
Definition joined (c : nat) (l : list nat) (values hashes : list Z) : Prop :=
  forall k i, l !! k = Some i -> values !!! (region 0 c + k)%nat = vals !!! i /\ hashes !!! (region 0 c + k)%nat = AesCrHash_Hash1 (inputs !!! i).
(** Outside of the bin nothing changed. *)
Definition elsewhere (c : nat) (l l' : list Z) : Prop :=
  forall i, (i < region 0 c)%nat \/ (region 0 c + per * T <= i)%nat -> l' !!! i = l !!! i.

Lemma region_0 t c : region t c = (region 0 c + per * t)%nat.
Proof. unfold Baxos.region. lia. Qed.
Lemma bin_bound c : (c < nb)%nat -> (region 0 c + per * T <= nb * T * per)%nat.
Proof.
  intros Hc. pose proof (region_bound (T - 1) c ltac:(lia) Hc) as Hr. rewrite region_0 in Hr. assert (per * T = per * (T - 1) + per)%nat by nia. lia.
Qed.

(** A thread's keys move up behind those joined before. *)
Lemma join_step c u pos s V V' :
  (0 < u < T)%nat -> (c < nb)%nat -> (pos <= per * u)%nat -> length V = (nb * T * per)%nat ->
  moved (region 0 c + pos) (region u c) (length (seg u c (share u))) V V' ->
  (forall j, (region u c <= j < region 0 c + per * T)%nat -> V !!! j = s !!! j) -> elsewhere c s V ->
  length V' = (nb * T * per)%nat /\ (forall k, (k < pos)%nat -> V' !!! (region 0 c + k)%nat = V !!! (region 0 c + k)%nat) /\
  (forall k, (k < length (seg u c (share u)))%nat -> V' !!! (region 0 c + pos + k)%nat = s !!! (region u c + k)%nat) /\
  (forall j, (region (S u) c <= j < region 0 c + per * T)%nat -> V' !!! j = s !!! j) /\ elsewhere c s V'.
Proof.
  intros Hu Hc Hpos HlV [Hl Hm] Hlater Hout. pose proof (Hfit u c ltac:(lia) Hc) as Hfu. pose proof (region_0 u c) as Eu. pose proof (region_0 (S u) c) as ESu.
  assert (per * u + per <= per * T)%nat as HuT by nia.
  split; [lia|]. split; [|split; [|split]].
  - intros k Hk. rewrite Hm. by rewrite bool_decide_false by lia.
  - intros k Hk. rewrite Hm, bool_decide_true by lia. replace (region u c + (region 0 c + pos + k - (region 0 c + pos)))%nat with (region u c + k)%nat by lia.
    apply Hlater. lia.
  - intros j Hj. rewrite Hm, bool_decide_false by lia. apply Hlater. lia.
  - intros j Hj. rewrite Hm, bool_decide_false by lia. by apply Hout.
Qed.

Lemma merge_bin_ok c s :
  (c < nb)%nat -> sized s -> (forall t, (t < T)%nat -> region_ok s t c (seg t c (share t))) ->
  wp (merge_bin b T per c s) (fun s' => sized s' /\ thrd_bin_sizes s' = thrd_bin_sizes s /\ joined c (keys c) (val_backing s') (hash_backing s') /\
    elsewhere c (val_backing s) (val_backing s') /\ elsewhere c (hash_backing s) (hash_backing s')).
Proof.
  intros Hc (Hz1 & Hz2 & Hz3 & Hz4) Hreg. pose proof (bin_bound c Hc) as Hbb. pose proof (Hreg 0%nat HT) as [Hs0 Hr0]. cbn [Nat.mul Nat.add] in Hs0.
  pose proof (size_bound 0 c HT Hc) as Hsb0. cbn [Nat.mul Nat.add] in Hsb0. unfold merge_bin. rewrite vget_total by lia. run. rewrite Hs0.
  rewrite bool_decide_true by (by apply Hfit). run. apply wp_bind.
  apply (wp_for _ _ (fun u0 '(V, Hs, pos) => let u := S u0 in
    pos = length (keys_in c (seq 0 (begin u))) /\ length V = (nb * T * per)%nat /\ length Hs = (nb * T * per)%nat /\
    joined c (keys_in c (seq 0 (begin u))) V Hs /\
    (forall j, (region u c <= j < region 0 c + per * T)%nat -> V !!! j = val_backing s !!! j /\ Hs !!! j = hash_backing s !!! j) /\
    elsewhere c (val_backing s) V /\ elsewhere c (hash_backing s) Hs)).
  - cbv zeta. rewrite keys_first. split; [done|]. split; [done|]. split; [done|]. split; [|split; [|split]]; try done.
    intros k i Hk. destruct (Hr0 k i Hk) as (? & ? & _). done.
  - intros u0 [[V Hs] pos] Hu (-> & HlV & HlH & Hj & Hlater & HoV & HoH). set (u := S u0) in *.
    assert (u < T)%nat as HuT by lia. pose proof (Hfit u c HuT Hc) as Hfu. pose proof (size_bound u c HuT Hc) as Hsb.
    destruct (Hreg u HuT) as [Hsu Hru]. rewrite vget_total by lia. run. rewrite Hsu, bool_decide_true by done. run.
    pose proof (keys_upto_le c u ltac:(lia) Hc) as Hpos. set (pos := length (keys_in c (seq 0 (begin u)))) in *. pose proof (region_0 u c) as Eu.
    assert (per * u + per <= per * T)%nat as HuT' by nia.
    apply wp_bind. eapply wp_mono; [apply (move_ok (region 0 c + pos) (region u c) (length (seg u c (share u))) Hs); lia|]. intros Hs' HmH.
    apply wp_bind. eapply wp_mono; [apply (copy_down_ok (region 0 c + pos) (region u c) (length (seg u c (share u))) V); lia|]. intros V' HmV. run.
    destruct (join_step c u pos (val_backing s) V V') as (Hl1 & Hk1 & Hn1 & Ha1 & Ho1); try done; [lia|intros j Hjj; by apply Hlater|].
    destruct (join_step c u pos (hash_backing s) Hs Hs') as (Hl2 & Hk2 & Hn2 & Ha2 & Ho2); try done; [lia|intros j Hjj; by apply Hlater|].
    rewrite (keys_upto_S c u) by done. split; [by rewrite length_app|]. split; [done|]. split; [done|]. split; [|split; [|done]].
    + intros k i Hk. apply lookup_app_Some in Hk as [Hk|[Hge Hk]].
      * pose proof (lookup_lt_Some _ _ _ Hk). rewrite Hk1, Hk2 by done. by apply Hj.
      * fold pos in Hge, Hk. pose proof (lookup_lt_Some _ _ _ Hk). replace (region 0 c + k)%nat with (region 0 c + pos + (k - pos))%nat by lia.
        rewrite Hn1, Hn2 by done. destruct (Hru _ _ Hk) as (? & ? & _). done.
    + intros j Hjj. split; [by apply Ha1|by apply Ha2].
  - intros [[V Hs] pos] (-> & HlV & HlH & Hj & _ & HoV & HoH). run. replace (S (T - 1)) with T in Hj by lia. rewrite keys_upto_T in Hj.
    unfold sized. cbn [thrd_bin_sizes input_mapping val_backing hash_backing]. done.
Qed.
End bins.
