(* ===== verification/BaxosBins.v ===== *)
(** * Baxos: the bins are encoded (psi/algorithm/rr22/okvs/baxos)

    The keys of a bin, joined, are hashed to the rows of a PaXoS that solves for
    their values; the bins are solved one by one, in any order, each into its part
    of the output. *)
From S2P Require Import Prelude Galois PaxosHash WeightData DenseMtx Combination Paxos PaxosInput PaxosEncode PaxosSolve PaxosDense PaxosBackfill PaxosDecode PaxosReuse Baxos BaxosSolve.

(** ** The rows of a bin *)
Lemma length_put_row at_ (rr rows : list Z) : (at_ + length rr <= length rows)%nat -> length (put_row at_ rr rows) = length rows.
Proof. intros Hl. unfold put_row. rewrite !length_app, length_take, length_drop. lia. Qed.
Lemma take_put_row at_ (rr rows : list Z) m : (at_ + length rr <= length rows)%nat -> m = (at_ + length rr)%nat ->
  take m (put_row at_ rr rows) = take at_ rows ++ rr.
Proof.
  intros Hl ->. unfold put_row. rewrite app_assoc. apply take_app_length'. rewrite length_app, length_take. lia.
Qed.

Section rows.
Context `{SymmetricCrypto} `{LibdivideLaws} (avx : bool) (idx : Z) (Hidx : 0 <= idx <= 64) (b : Baxos).
Abbreviation p := (paxos_param_ b).
Abbreviation w := (Paxos.weight p).
Abbreviation sp := (Paxos.sparse_size p).
Context (Hwb : weight_ b = w) (Hw : (0 < w <= sp)%nat) (Hsp : Z.of_nat sp < 2 ^ idx) (Hsp63 : Z.of_nat sp < 2 ^ 63).

(** After [k] keys. *)
Definition built (L : nat) (xs : list Z) (k : nat) (st : list Z * list Z) : Prop :=
  length st.1 = L /\ map Z.to_nat (take (k * w) st.1) = key_rows avx idx p (take k xs) /\
  st.2 = tallies sp (key_rows avx idx p (take k xs)).

(** The next keys. *)
Lemma built_next L xs k m st rr :
  built L xs k st -> (k + m <= length xs)%nat -> (length xs * w <= L)%nat -> Z.of_nat (length xs) < 2 ^ idx ->
  map Z.to_nat rr = key_rows avx idx p (take m (drop k xs)) ->
  wp (col_weights ← count_cols idx (map Z.to_nat rr) st.2; Ok (put_row (k * w) rr st.1, col_weights)) (built L xs (k + m)).
Proof.
  intros (Hl & Ht & Hc) Hm HL Hb Hrr. assert (take (k + m) xs = take k xs ++ take m (drop k xs)) as E by by rewrite take_take_drop.
  assert (length rr = (m * w)%nat) as Hlr.
  { rewrite <- (length_map Z.to_nat rr), Hrr, (length_key_rows avx idx Hidx p) by (done || lia). rewrite length_take, length_drop. f_equal. lia. }
  assert ((k + m) * w <= L)%nat as HkL by (etransitivity; [apply (Nat.mul_le_mono_r _ (length xs)); lia|done]).
  rewrite Nat.mul_add_distr_r in HkL. rewrite Hc, (count_key_rows avx idx Hidx p ltac:(lia) Hsp _ (take m (drop k xs))).
  - run. split; cbn [fst snd]; [rewrite length_put_row; lia|]. split; [|by rewrite E].
    rewrite take_put_row by lia. by rewrite map_app, Ht, Hrr, E, (key_rows_app avx idx p).
  - rewrite <- E, length_take. lia.
  - done.
Qed.

Lemma keys_hashes xs i n : take n (drop i (map AesCrHash_Hash1 xs)) = map AesCrHash_Hash1 (take n (drop i xs)).
Proof. by rewrite skipn_map, firstn_map. Qed.

Lemma build_bin_ok xs rows :
  (length xs * w <= length rows)%nat -> Z.of_nat (length xs) < 2 ^ idx ->
  wp (build_bin avx idx b (hasher_ p) (map AesCrHash_Hash1 xs) rows) (built (length rows) xs (length xs)).
Proof.
  intros HL Hb. unfold build_bin. rewrite Hwb, length_map. set (L := length rows) in *.
  assert (forall k st, (k < length xs)%nat -> built L xs k st ->
    wp (let '(rows, col_weights) := st in
        x ← vget (map AesCrHash_Hash1 xs) k; rr ← BuildRow avx idx (hasher_ p) x (take w (drop (k * w) rows));
        col_weights ← count_cols idx (map Z.to_nat rr) col_weights; Ok (put_row (k * w) rr rows, col_weights)) (built L xs (S k))) as Hone.
  { intros k [rs cw] Hk Hbk. destruct (lookup_lt_is_Some_2 xs k Hk) as [x Hx]. pose proof Hbk as (Hl & _). cbn [fst] in Hl.
    assert (S k * w <= length xs * w)%nat as HkL by (apply Nat.mul_le_mono_r; lia). rewrite Nat.mul_succ_l in HkL.
    rewrite (proj2 (vget_ok _ _ _) (eq_trans (lookup_map _ _ _) (f_equal _ Hx))). run.
    rewrite (hash_row_any avx idx Hidx p) by (try done; rewrite ?length_take, ?length_drop; lia). run.
    rewrite <- (Nat.add_1_r k). apply (built_next L xs k 1 (rs, cw)); try done; try lia.
    rewrite (drop_S _ _ _ Hx). cbn [take]. unfold key_rows. cbn [map concat]. by rewrite app_nil_r. }
  assert (built L xs 0 (rows, replicate sp 0)) as H0b.
  { split; [done|]. split; [by rewrite take_0|]. by rewrite take_0, <- tallies_nil. }
  case_bool_decide as H3.
  - set (m := (length xs / 32)%nat). pose proof (Nat.div_mod_eq (length xs) 32) as Hd. fold m in Hd.
    apply wp_bind. apply (wp_for _ _ (fun g st => built L xs (g * 32) st)); [done| |].
    + intros g [rs cw] Hg Hbg. pose proof Hbg as (Hl & _). cbn [fst] in Hl.
      assert ((g * 32 + 32) * w <= length xs * w)%nat as HkL by (apply Nat.mul_le_mono_r; lia). rewrite Nat.mul_add_distr_r in HkL.
      rewrite keys_hashes. rewrite (BuildRow32_rows avx idx Hidx p) by (try done; rewrite ?length_map, ?length_take, ?length_drop; lia). run.
      replace (S g * 32)%nat with (g * 32 + 32)%nat by lia. apply (built_next L xs (g * 32) 32 (rs, cw)); try done; try lia.
      unfold key_rows. by rewrite concat_map, !map_map.
    + intros st Hbg. apply (wp_for _ _ (fun k st => built L xs (m * 32 + k) st)); [by rewrite Nat.add_0_r| |].
      * intros k st' Hk Hbk. rewrite Nat.add_succ_r. apply Hone; [lia|done].
      * intros st'. by replace (m * 32 + (length xs - m * 32))%nat with (length xs) by lia.
  - apply (wp_for _ _ (built L xs)); [done| |done]. intros k st Hk Hbk. by apply Hone.
Qed.
End rows.

(** ** Values *)
Lemma zeros_elem n : Forall elem (replicate n 0).
Proof. apply Forall_replicate. unfold elem. lia. Qed.

(** ** Parts of a vector *)
Definition slice (sz c : nat) (P : list Z) : list Z := take sz (drop (sz * c) P).

Lemma bin_slice_lookup sz c P k : (k < sz)%nat -> slice sz c P !! k = P !! (sz * c + k)%nat.
Proof. intros Hk. unfold slice. by rewrite lookup_take_lt, lookup_drop. Qed.
Lemma length_slice sz c n P : (c < n)%nat -> length P = (n * sz)%nat -> length (slice sz c P) = sz.
Proof. intros Hc Hl. unfold slice. rewrite length_take, length_drop. nia. Qed.
Lemma part_bound sz c n : (c < n)%nat -> (sz * c + sz <= n * sz)%nat.
Proof. nia. Qed.
Lemma put_slice_length sz c n (P out : list Z) : (c < n)%nat -> length P = (n * sz)%nat -> length out = sz ->
  length (take (sz * c) P ++ out ++ drop (sz * c + sz) P) = (n * sz)%nat.
Proof. intros Hc HP Ho. pose proof (part_bound sz c n Hc). rewrite !length_app, length_take, length_drop. lia. Qed.
Lemma put_slice_eq sz c n P out : (c < n)%nat -> length P = (n * sz)%nat -> length out = sz ->
  slice sz c (take (sz * c) P ++ out ++ drop (sz * c + sz) P) = out.
Proof.
  intros Hc HP Ho. pose proof (part_bound sz c n Hc). unfold slice. rewrite drop_app_length' by (rewrite length_take; lia).
  by apply take_app_length'.
Qed.
Lemma put_slice_ne sz c c' n P out : (c < n)%nat -> c' <> c -> length P = (n * sz)%nat -> length out = sz ->
  slice sz c' (take (sz * c) P ++ out ++ drop (sz * c + sz) P) = slice sz c' P.
Proof.
  intros Hc Hne HP Ho. pose proof (part_bound sz c n Hc). apply list_eq. intros k.
  destruct (decide (k < sz)%nat) as [Hk|Hk].
  - rewrite !bin_slice_lookup by done. assert (length (take (sz * c) P) = (sz * c)%nat) as Ht by (rewrite length_take; lia).
    destruct (decide (c' < c)%nat).
    + pose proof (part_bound sz c' c ltac:(lia)). rewrite lookup_app_l, lookup_take_lt by lia. done.
    + pose proof (part_bound sz c c' ltac:(lia)). rewrite !lookup_app_r by lia. rewrite lookup_drop. f_equal. lia.
  - rewrite !lookup_ge_None_2; [done|..]; unfold slice; rewrite length_take; lia.
Qed.

(** ** Solving the bins *)
Section bins.
Context `{SymmetricCrypto} `{LibdivideLaws} (avx : bool) (idx : Z) (Hidx : 0 <= idx <= 64) (b : Baxos) (T per : nat) (inputs vals : list Z).
Abbreviation nb := (num_bins_ b).
Abbreviation p := (paxos_param_ b).
Abbreviation w := (Paxos.weight p).
Abbreviation sp := (Paxos.sparse_size p).
Abbreviation sz := (Paxos.size p).
Context (HT : (0 < T)%nat) (Hnb : (0 < nb)%nat) (Hlv : length vals = length inputs).
Context (Hfit : forall t c, (t < T)%nat -> (c < nb)%nat -> (length (seg b T inputs t c (share T inputs t)) <= per)%nat).
Context (Hwb : weight_ b = w) (Hw : (0 < w <= sp)%nat) (Hsp : Z.of_nat sp < 2 ^ idx - 1) (Hsp63 : Z.of_nat sp < 2 ^ 63).
Context (Hds : (0 < dense_size p)%nat) (Hdt : dt p = GF128) (Hve : Forall elem vals) (Hke : Forall (fun x => elem (AesCrHash_Hash1 x)) inputs).

(** The keys and the values of a bin. *)
Definition bin_inputs (c : nat) : list Z := map (fun i => inputs !!! i) (keys b inputs c).
Definition bin_values (c : nat) : list Z := map (fun i => vals !!! i) (keys b inputs c).

Context (Hroom : forall c, (c < nb)%nat -> (length (keys b inputs c) <= items_per_bin_ b)%nat) (Hitems : (items_per_bin_ b + 2 <= sp)%nat).
Context (Hlight : forall c k, (c < nb)%nat -> (column_weight avx idx p (bin_inputs c) k < 200)%nat).
Context (Hgap : forall c px px2 t, (c < nb)%nat -> holds avx idx p (bin_inputs c) px -> ready idx px ->
  Triangulate idx px = Ok (px2, t) -> (length (gap_rows t) <= 1)%nat).

Lemma length_bin_inputs c : length (bin_inputs c) = length (keys b inputs c).
Proof. apply length_map. Qed.
Lemma keys_lt c i : i ∈ keys b inputs c -> (i < length inputs)%nat.
Proof. unfold keys, keys_in. intros [_ Hi%elem_of_seq]%list_elem_of_filter. lia. Qed.
Lemma bin_values_elem c : Forall elem (bin_values c).
Proof. apply Forall_fmap, Forall_forall. intros i Hi%keys_lt. apply (Forall_lookup_total_1 _ _ i Hve). lia. Qed.
Lemma bin_inputs_elem c : Forall (fun x => elem (AesCrHash_Hash1 x)) (bin_inputs c).
Proof. apply Forall_fmap, Forall_forall. intros i Hi%keys_lt. by apply (Forall_lookup_total_1 _ _ i Hke). Qed.

(** Why a bin may have no solution. *)
Definition bin_fails (c : nat) : Prop :=
  ~ NoDup (map AesCrHash_Hash1 (bin_inputs c)) \/
  exists px t, holds avx idx p (bin_inputs c) px /\ triangular px t /\ unsolvable idx p px t.
Definition some_bin_fails : Prop := exists c, (c < nb)%nat /\ bin_fails c.

Definition solved (c : nat) (P : list Z) : Prop :=
  exists px, holds avx idx p (bin_inputs c) px /\ solves p px (bin_values c) (slice sz c P).

Record bins_done (done : list nat) (s : Scratch) (P : list Z) : Prop := {
  bd_sized : sized b T per s;
  bd_sizes t c : (t < T)%nat -> (c < nb)%nat -> thrd_bin_sizes s !!! (t * nb + c)%nat = length (seg b T inputs t c (share T inputs t));
  bd_todo c : (c < nb)%nat -> c ∉ done ->
    (forall t, (t < T)%nat -> region_ok b T per inputs vals s t c (seg b T inputs t c (share T inputs t))) /\ slice sz c P = replicate sz 0;
  bd_done c : (c < nb)%nat -> c ∈ done -> solved c P;
  bd_length : length P = (nb * sz)%nat;
  bd_elem : Forall elem P
}.

Lemma bin_size_ok c s : (c < nb)%nat -> sized b T per s ->
  (forall t, (t < T)%nat -> thrd_bin_sizes s !!! (t * nb + c)%nat = length (seg b T inputs t c (share T inputs t))) ->
  for_ T (fun i n => x ← vget (thrd_bin_sizes s) (i * nb + c); Ok (n + x)%nat) 0%nat = Ok (length (keys b inputs c)).
Proof.
  intros Hc (Hz & _) Hs. apply wp_eq. apply (wp_for _ _ (fun i n => n = length (keys_in b inputs c (seq 0 (begin T inputs i))))).
  - by rewrite (begin_0 T inputs HT).
  - intros i n Hi ->. rewrite vget_total by (rewrite Hz; by apply (size_bound b T inputs vals HT Hnb Hlv)). run. rewrite Hs by done.
    rewrite (keys_upto_S b T inputs vals HT Hnb Hlv), length_app by done. done.
  - intros n ->. by rewrite (keys_upto_T b T inputs vals HT Hnb Hlv).
Qed.

(** The joined hashes and values of a bin. *)
Lemma joined_span (c : nat) (f : nat -> Z) V : 
  length V = (nb * T * per)%nat -> (c < nb)%nat -> (length (keys b inputs c) <= per * T)%nat ->
  (forall k i, keys b inputs c !! k = Some i -> V !!! (region T per 0 c + k)%nat = f i) ->
  take (length (keys b inputs c)) (drop (region T per 0 c) V) = map f (keys b inputs c).
Proof.
  intros HV Hc Hl Hf. pose proof (bin_bound b T per inputs vals HT Hnb Hlv c Hc) as Hbb. apply list_eq_total.
  - rewrite length_take, length_drop, length_map. lia.
  - intros k Hk. rewrite length_take, length_drop in Hk. rewrite lookup_total_take, decide_True, lookup_total_drop by lia.
    destruct (lookup_lt_is_Some_2 (keys b inputs c) k ltac:(lia)) as [i Hi]. rewrite (Hf k i Hi).
    symmetry. apply list_lookup_total_correct. by rewrite lookup_map, Hi.
Qed.

(** Merging a bin leaves the regions of the others. *)
Lemma elsewhere_region c c' t k V V' : c' <> c -> (t < T)%nat -> (k < per)%nat -> elsewhere T per c V V' ->
  V' !!! (region T per t c' + k)%nat = V !!! (region T per t c' + k)%nat.
Proof.
  intros Hne Ht Hk He. apply He. unfold region. assert (per * t + per <= per * T)%nat as Hb by nia. rewrite !Nat.mul_0_r, !Nat.add_0_r.
  destruct (decide (c' < c)%nat).
  - left. assert (per * T * c' + per * T <= per * T * c)%nat by nia. lia.
  - right. assert (per * T * c + per * T <= per * T * c')%nat by nia. lia.
Qed.
Lemma region_ok_elsewhere c c' t s s' : c' <> c -> (t < T)%nat -> (c' < nb)%nat ->
  thrd_bin_sizes s' = thrd_bin_sizes s -> input_mapping s' = input_mapping s ->
  elsewhere T per c (val_backing s) (val_backing s') -> elsewhere T per c (hash_backing s) (hash_backing s') ->
  region_ok b T per inputs vals s t c' (seg b T inputs t c' (share T inputs t)) ->
  region_ok b T per inputs vals s' t c' (seg b T inputs t c' (share T inputs t)).
Proof.
  intros Hne Ht Hc Es Em Hv Hh [Hs Hr]. split; [by rewrite Es|]. intros k i Hk. pose proof (lookup_lt_Some _ _ _ Hk).
  pose proof (Hfit t c' Ht Hc). assert (k < per)%nat as Hk' by lia.
  rewrite Em, (elsewhere_region c c' t k _ _ Hne Ht Hk' Hv), (elsewhere_region c c' t k _ _ Hne Ht Hk' Hh). by apply Hr.
Qed.

Lemma merge_bin_mapping c s s' : merge_bin b T per c s = Ok s' -> input_mapping s' = input_mapping s.
Proof.
  unfold merge_bin. intros (n & _ & E)%bind_ok. apply bind_ok in E as (_ & _ & E). by apply bind_ok in E as ([[V Hs] m] & _ & [= <-]).
Qed.

(** The solution of one bin is put in its place. *)
Lemma bins_done_put done c s s' P out : c ∉ done -> (c < nb)%nat -> bins_done done s P -> sized b T per s' ->
  thrd_bin_sizes s' = thrd_bin_sizes s -> input_mapping s' = input_mapping s ->
  elsewhere T per c (val_backing s) (val_backing s') -> elsewhere T per c (hash_backing s) (hash_backing s') -> length out = sz -> Forall elem out ->
  (exists px, holds avx idx p (bin_inputs c) px /\ solves p px (bin_values c) out) ->
  bins_done (done ++ [c]) s' (take (sz * c) P ++ out ++ drop (sz * c + sz) P).
Proof.
  intros Hcd Hc [Hz Hs Ht Hd HP He] Hz' Es Em Hv Hh Ho Hoe (px & Hpx & Hsol). constructor.
  - done.
  - rewrite Es. exact Hs.
  - intros c' Hc' Hn. assert (c' <> c) as Hne by set_solver. destruct (Ht c' Hc') as [Hr Hzero]; [set_solver|]. split.
    + intros t Htt. apply (region_ok_elsewhere c c' t s s'); try done. by apply Hr.
    + by rewrite (put_slice_ne sz c c' nb).
  - intros c' Hc' Hin. destruct (decide (c' = c)) as [->|Hne].
    + exists px. by rewrite (put_slice_eq sz c nb).
    + destruct (Hd c' Hc') as (px' & ? & ?); [set_solver|]. exists px'. by rewrite (put_slice_ne sz c c' nb).
  - by apply put_slice_length.
  - by apply Forall_app_2; [apply Forall_take|apply Forall_app_2; [|apply Forall_drop]].
Qed.

Lemma solve_bin_ok done c s px rows P :
  (c < nb)%nat -> c ∉ done -> bins_done done s P -> reusable p (weight_sets_ px) -> length rows = (items_per_bin_ b * w)%nat ->
  outcome some_bin_fails (solve_bin avx idx b T per c (s, px, rows, P, None)) (fun '(s, px, rows, P, prng) =>
    bins_done (done ++ [c]) s P /\ reusable p (weight_sets_ px) /\ length rows = (items_per_bin_ b * w)%nat /\ prng = None).
Proof.
  intros Hc Hcd Hd Hr Hrows. pose proof Hd as [Hz Hs Ht _ HP _]. destruct (Ht c Hc Hcd) as [Hreg Hzero]. pose proof (Hroom c Hc) as Hrc.
  unfold solve_bin. rewrite (bin_size_ok c s Hc Hz) by (intros; by apply Hs). run. rewrite (bool_decide_true (length (keys b inputs c) <= _)%nat) by done. run.
  assert (length (keys b inputs c) <= per * T)%nat as HlT.
  { rewrite <- (keys_upto_T b T inputs vals HT Hnb Hlv). apply (keys_upto_le b T per inputs vals HT Hnb Hlv Hfit); lia. }
  pose proof (length_bin_inputs c) as Hli. unfold Paxos.Init. rewrite (proj2 (Z.ltb_lt _ _)) by done. run.
  rewrite (bool_decide_true (_ <= sp + _)%nat) by lia. run. rewrite wrap_small by (unfold in_u; lia). rewrite Nat2Z.id. set (px1 := mkPaxos p _ _ _ _ _ _ _).
  apply outcome_bind. pose proof (merge_bin_mapping c s) as Hmap.
  pose proof (merge_bin_ok b T per inputs vals HT Hnb Hlv Hfit c s Hc Hz Hreg) as Hm. apply wp_iff in Hm as (s' & Em & Hz' & Es & Hj & Hv & Hh).
  specialize (Hmap s' Em). rewrite Em. cbn [outcome].
  rewrite (joined_span c (fun i => AesCrHash_Hash1 (inputs !!! i)) (hash_backing s')); [|apply Hz'|done|done|intros k i Hk; by apply Hj].
  rewrite (joined_span c (fun i => vals !!! i) (val_backing s')); [|apply Hz'|done|done|intros k i Hk; by apply Hj].
  fold (bin_values c). replace (map (fun i => AesCrHash_Hash1 (inputs !!! i)) (keys b inputs c)) with (map AesCrHash_Hash1 (bin_inputs c))
    by (unfold bin_inputs; by rewrite map_map).
  assert (length (keys b inputs c) * w <= items_per_bin_ b * w)%nat as Hkw by (apply Nat.mul_le_mono_r; lia).
  apply outcome_bind, wp_outcome. eapply wp_mono; [apply (build_bin_ok avx idx Hidx b Hwb Hw ltac:(lia) Hsp63 (bin_inputs c) rows); rewrite Hli; lia|].
  intros [rows' cw] (Hlr & Hrw & Hcw). cbn [fst snd] in *. rewrite Hwb. rewrite (take_ge (bin_inputs c)) in Hrw, Hcw by lia. rewrite Hli in Hrw.
  rewrite Hrw, Hcw. apply outcome_bind, wp_outcome.
  eapply wp_mono; [apply (SetInput_rows_ok avx idx Hidx p); try done; try lia|].
  { rewrite length_replicate, Hli. done. }
  { intros k. by apply Hlight. }
  { apply Hr. }
  { apply Hr. }
  intros px2 (Hh2 & Hrd & _). rewrite (bool_decide_true (sz * c <= length P)%nat) by (pose proof (part_bound sz c nb Hc); lia). run.
  change (take sz (drop (sz * c) P)) with (slice sz c P). rewrite Hzero. apply outcome_bind.
  pose proof (Encode_ok avx idx 128 p (bin_inputs c) (bin_values c) false px2) as Henc.
  assert (Z.of_nat sp < 2 ^ idx) as Hsp' by lia.
  specialize (Henc ltac:(lia) ltac:(lia) ltac:(lia) Hsp' Hh2 Hrd ltac:(unfold bin_values; by rewrite length_map, Hli) Hds ltac:(by rewrite Hdt)).
  specialize (Henc ltac:(intros _; split; [done|]; split; [apply bin_values_elem|]; split; [apply bin_inputs_elem|]; intros px3 t; by apply (Hgap c px2))).
  destruct (Encode avx idx 128 (bin_values c) (replicate sz 0) false None px2) as [[[px3 out] prng]| |] eqn:Eenc; [|by exists c|done].
  cbn [outcome] in *. destruct Henc as (t & Etri & Epx & Hh3 & Hlo & Hsol).
  assert (dt (param px2) = GF128) as Hdt2 by (destruct Hh2 as [-> _]; exact Hdt).
  pose proof (Encode_elem _ _ _ _ _ _ _ _ _ Hdt2 (bin_values_elem c) (zeros_elem sz) Eenc) as Hoe.
  apply Encode_no_prng in Eenc as ->.
  split; [|split; [|split; [lia|done]]].
  - eapply (bins_done_put done c s s'); try done. by exists px3.
  - assert (param px2 = p) as Ep2 by (by destruct Hh2). rewrite <- Ep2. apply (Triangulate_reusable idx px2 px3 t Etri); rewrite Ep2.
    + destruct Hrd as (_ & Ha & Hn & _). rewrite Ep2 in Hn. done.
    + destruct Hh2 as (_ & _ & _ & _ & _ & [Hcl _]). rewrite Hcl, Ep2. done.
Qed.

(** *** All bins: thread [t] takes [t], [t + T], ... *)
Definition turns (t : nat) : nat := (nb - t + T - 1) / T.
Definition mine (t m : nat) : list nat := map (fun k => (t + k * T)%nat) (seq 0 m).
Definition taken_by (l : list nat) : list nat := concat (map (fun t => mine t (turns t)) l).

Lemma turns_lt t k : (k < turns t)%nat -> (t + k * T < nb)%nat.
Proof.
  unfold turns. intros Hk. destruct (decide (t < nb)%nat) as [Hlt|Hge].
  - pose proof (Nat.Div0.mul_div_le (nb - t + T - 1) T). assert ((k + 1) * T <= nb - t + T - 1)%nat by nia. lia.
  - rewrite Nat.div_small in Hk by lia. lia.
Qed.
Lemma mine_S t m : mine t (S m) = mine t m ++ [(t + m * T)%nat].
Proof. unfold mine. by rewrite seq_S, map_app. Qed.
Lemma elem_of_mine c t m : c ∈ mine t m <-> exists k, (k < m)%nat /\ c = (t + k * T)%nat.
Proof.
  unfold mine. rewrite list_elem_of_fmap. split.
  - intros (k & -> & Hk%elem_of_seq). exists k. split; [lia|done].
  - intros (k & Hk & ->). exists k. split; [done|]. apply elem_of_seq. lia.
Qed.
Lemma elem_of_taken_by c l : c ∈ taken_by l -> exists t, t ∈ l /\ c ∈ mine t (turns t).
Proof.
  unfold taken_by. intros Hc. induction l as [|t l IH]; [by apply not_elem_of_nil in Hc|]. cbn [map concat] in Hc.
  apply elem_of_app in Hc as [Hc|Hc]; [exists t; split; [by left|done]|]. destruct (IH Hc) as (t' & ? & ?). exists t'. split; [by right|done].
Qed.
Lemma mine_mod c t m : (t < T)%nat -> c ∈ mine t m -> (c mod T)%nat = t.
Proof. intros Ht (k & _ & ->)%elem_of_mine. rewrite Nat.Div0.mod_add. by apply Nat.mod_small. Qed.
Lemma all_taken c order : order ≡ₚ seq 0 T -> (c < nb)%nat -> c ∈ taken_by order.
Proof.
  intros Ho Hc. pose proof (Nat.mod_upper_bound c T ltac:(lia)) as Hm. pose proof (Nat.div_mod_eq c T) as Hd.
  assert ((c mod T)%nat ∈ order) as Hin by (rewrite Ho, elem_of_seq; lia). unfold taken_by. apply list_elem_of_split in Hin as (l1 & l2 & ->).
  rewrite map_app, concat_app. cbn [map concat]. apply elem_of_app. right. apply elem_of_app. left. apply elem_of_mine. exists (c / T)%nat.
  split; [|lia]. unfold turns. apply Nat.div_le_lower_bound; [lia|]. nia.
Qed.

Lemma bin_routine_ok done t s P :
  (t < T)%nat -> (forall c, c ∈ done -> (c mod T)%nat <> t) -> bins_done done s P ->
  outcome some_bin_fails (bin_routine avx idx b T per t (s, P, None)) (fun '(s, P, prng) => bins_done (done ++ mine t (turns t)) s P /\ prng = None).
Proof.
  intros Ht Hn Hd. unfold bin_routine. apply outcome_bind. fold (turns t).
  eapply outcome_mono; [apply (outcome_for _ (turns t) _ (fun k '(s, px, rows, P, prng) => bins_done (done ++ mine t k) s P /\
    reusable p (weight_sets_ px) /\ length rows = (items_per_bin_ b * w)%nat /\ prng = None))|].
  - split; [by rewrite app_nil_r|]. split; [apply reusable_empty|]. split; [rewrite length_replicate; by rewrite Hwb|done].
  - intros k [[[[s1 px] rows] P1] prng] Hk (Hd1 & Hr & Hl & ->). rewrite mine_S, app_assoc. apply solve_bin_ok; try done; [by apply turns_lt|].
    intros [Hin|Hin]%elem_of_app.
    + apply (Hn _ Hin). rewrite Nat.Div0.mod_add. by apply Nat.mod_small.
    + apply elem_of_mine in Hin as (k' & Hk' & E). assert (k = k') by nia. lia.
  - intros [[[[s1 px] rows] P1] prng] (Hd1 & _ & _ & ->). run. done.
Qed.

Lemma bin_routines_ok order s P :
  order ≡ₚ seq 0 T -> bins_done [] s P ->
  outcome some_bin_fails (for_each order (bin_routine avx idx b T per) (s, P, None))
    (fun '(s, P, prng) => length P = (nb * sz)%nat /\ Forall elem P /\ forall c, (c < nb)%nat -> solved c P).
Proof.
  intros Ho Hd. assert (NoDup order) as Hnd by (rewrite Ho; apply NoDup_seq).
  assert (forall t, t ∈ order -> (t < T)%nat) as Hlt by (intros t Hin; rewrite Ho, elem_of_seq in Hin; lia).
  eapply outcome_mono; [apply (outcome_for_each _ order _ (fun l '(s, P, prng) => bins_done (taken_by l) s P /\ prng = None))|].
  - done.
  - intros l1 t l2 [[s1 P1] prng] E [Hd1 ->].
    assert (t ∈ order) as Hto by (rewrite E; apply elem_of_app; right; by left).
    eapply outcome_mono; [apply (bin_routine_ok (taken_by l1) t s1 P1)|].
    + by apply Hlt.
    + intros c (u & Hu & Hc)%elem_of_taken_by Em. assert (u ∈ order) as Huo by (rewrite E; apply elem_of_app; by left).
      rewrite (mine_mod c u (turns u)) in Em by (done || by apply Hlt). subst u. rewrite E in Hnd.
      apply NoDup_app in Hnd as (_ & Hnd & _). apply (Hnd t Hu). by left.
    + done.
    + intros [[s2 P2] prng] [Hd2 ->]. split; [|done]. unfold taken_by in *. rewrite map_app, concat_app. cbn [map concat]. by rewrite app_nil_r.
  - intros [[s1 P1] prng] [Hd1 ->]. split; [apply Hd1|]. split; [apply Hd1|]. intros c Hc. apply (bd_done _ _ _ Hd1 c Hc). by apply all_taken.
Qed.
End bins.

(** ** The whole of [Solve] *)
Lemma slice_replicate sz c n : (c < n)%nat -> slice sz c (replicate (n * sz) 0) = replicate sz 0.
Proof.
  intros Hc. pose proof (part_bound sz c n Hc). unfold slice. rewrite drop_replicate, take_replicate. f_equal. lia.
Qed.
Lemma slice_whole sz P : length P = sz -> slice sz 0 P = P.
Proof. intros HP. unfold slice. rewrite Nat.mul_0_r, drop_0. apply take_ge. lia. Qed.

Section solve.
Context `{SymmetricCrypto} `{LibdivideLaws} (avx : bool) (idx : Z) (Hidx : 0 <= idx <= 64) (GetBinSize : nat -> nat -> nat -> nat) (junk : nat -> Z).
Context (b : Baxos) (num_threads : nat) (inputs vals : list Z).
Abbreviation nb := (num_bins_ b).
Abbreviation p := (paxos_param_ b).
Abbreviation w := (Paxos.weight p).
Abbreviation sp := (Paxos.sparse_size p).
Abbreviation sz := (Paxos.size p).
Definition threads : nat := Nat.max 1 num_threads.
Definition bin_capacity : nat := GetBinSize nb ((num_items_ b + threads - 1) / threads)%nat (ssp_ b).
Context (Hnb : (0 < nb)%nat) (Hnb64 : Z.of_nat nb < 2 ^ 64) (Hn : length inputs = num_items_ b) (Hlv : length vals = length inputs).
Context (Hfit : forall t c, (t < threads)%nat -> (c < nb)%nat -> (length (seg b threads inputs t c (share threads inputs t)) <= bin_capacity)%nat).
Context (Hwb : weight_ b = w) (Hw : (0 < w <= sp)%nat) (Hsp : Z.of_nat sp < 2 ^ idx - 1) (Hsp63 : Z.of_nat sp < 2 ^ 63).
Context (Hds : (0 < dense_size p)%nat) (Hdt : dt p = GF128) (Hve : Forall elem vals) (Hke : Forall (fun x => elem (AesCrHash_Hash1 x)) inputs).
Context (Hroom : forall c, (c < nb)%nat -> (length (keys b inputs c) <= items_per_bin_ b)%nat) (Hitems : (items_per_bin_ b + 2 <= sp)%nat).
Context (Hlight : forall c k, (c < nb)%nat -> (column_weight avx idx p (bin_inputs b inputs c) k < 200)%nat).
Context (Hgap : forall c px px2 t, (c < nb)%nat -> holds avx idx p (bin_inputs b inputs c) px -> ready idx px ->
  Triangulate idx px = Ok (px2, t) -> (length (gap_rows t) <= 1)%nat).

Lemma one_bin_keys : nb = 1%nat -> keys b inputs 0 = seq 0 (length inputs).
Proof.
  intros E. unfold keys, keys_in. generalize (seq 0 (length inputs)). intros l. induction l as [|i l IH]; [done|].
  rewrite filter_cons_True by (pose proof (bin_of_lt b Hnb (inputs !!! i)); lia). by rewrite IH.
Qed.
Lemma map_total (l : list Z) : map (fun i => l !!! i) (seq 0 (length l)) = l.
Proof. symmetry. by apply eq_tabulate. Qed.

Lemma one_bin_ok owns P : nb = 1%nat -> length P = sz -> P = replicate sz 0 ->
  outcome (some_bin_fails avx idx b inputs)
    (paxos ← Paxos.Init idx (num_items_ b) p (Paxos_default (mkParam 0 0 0 0 40 GF128) 0);
     paxos ← SetInput avx idx inputs paxos;
     '(_, P, prng) ← Encode avx idx 128 vals P owns None paxos; Ok (P, prng))
    (fun '(P, _) => length P = (nb * sz)%nat /\ Forall elem P /\ forall c, (c < nb)%nat -> solved avx idx b inputs vals c P).
Proof.
  intros E1 HP ->. assert (bin_inputs b inputs 0 = inputs) as Ein by (unfold bin_inputs; by rewrite one_bin_keys, map_total).
  assert (bin_values b inputs vals 0 = vals) as Ev by (unfold bin_values; by rewrite one_bin_keys, <- Hlv, map_total).
  pose proof (Hroom 0%nat Hnb) as Hr. rewrite one_bin_keys, length_seq in Hr by done.
  unfold Paxos.Init. rewrite (proj2 (Z.ltb_lt _ _)) by done. run. rewrite bool_decide_true by lia. run.
  rewrite wrap_small by (unfold in_u; lia). rewrite Nat2Z.id. apply outcome_bind, wp_outcome.
  assert (Z.of_nat sp < 2 ^ idx) as Hsp' by lia.
  eapply wp_mono; [apply (SetInput_ok avx idx Hidx p); try done; try lia|].
  { intros k. rewrite <- Ein. by apply Hlight. }
  { cbn. lia. }
  intros px (Hh & Hrd & _). apply outcome_bind.
  pose proof (Encode_ok avx idx 128 p inputs vals owns px ltac:(lia) ltac:(lia) ltac:(lia) Hsp' Hh Hrd Hlv Hds ltac:(by rewrite Hdt)) as Henc.
  specialize (Henc ltac:(intros _; split; [done|]; split; [done|]; split; [done|]; intros px3 t; apply (Hgap 0%nat px); (done || by rewrite Ein))).
  destruct (Encode avx idx 128 vals (replicate sz 0) owns None px) as [[[px3 out] prng]| |] eqn:Eenc; [| |done].
  - cbn [outcome] in *. destruct Henc as (t & _ & _ & Hh3 & Hlo & Hsol). run. split; [rewrite E1; lia|].
    split; [eapply Encode_elem; [|exact Hve|apply zeros_elem|exact Eenc]; by destruct Hh as [-> _]|]. intros c Hc. assert (c = 0%nat) as -> by lia.
    exists px3. rewrite Ein, Ev, slice_whole by done. done.
  - exists 0%nat. split; [done|]. unfold bin_fails. rewrite Ein. exact Henc.
Qed.

Lemma ImplParSolve_ok hash_order bin_order owns :
  hash_order ≡ₚ seq 0 threads -> bin_order ≡ₚ seq 0 threads ->
  outcome (some_bin_fails avx idx b inputs)
    (ImplParSolve avx idx GetBinSize junk b hash_order bin_order inputs vals (replicate (Baxos.size b) 0) owns None num_threads)
    (fun '(P, _) => length P = (nb * sz)%nat /\ Forall elem P /\ forall c, (c < nb)%nat -> solved avx idx b inputs vals c P).
Proof.
  intros Hho Hbo. unfold ImplParSolve. rewrite length_replicate, (bool_decide_true (Baxos.size b = Baxos.size b)) by done. run.
  rewrite (bool_decide_true (length inputs <= num_items_ b)%nat) by lia. run. change (Baxos.size b) with (nb * sz)%nat. case_bool_decide as E1.
  - apply one_bin_ok; [done|rewrite length_replicate; lia|]. f_equal. lia.
  - fold threads. fold bin_capacity. apply outcome_bind, wp_outcome. assert (0 < threads)%nat as HT by (unfold threads; lia).
    eapply wp_mono; [apply (hash_routines_ok junk b threads bin_capacity inputs vals HT Hnb Hnb64 Hlv Hfit hash_order); [done|]|].
    + split; [split; [|split; [|split]]; apply length_replicate|]. intros t c Ht Hc. split; [|intros k i Hk; done].
      cbn [thrd_bin_sizes seg seq]. rewrite lookup_total_replicate_lt by nia. done.
    + intros s [Hz Hf]. apply outcome_bind.
      eapply outcome_mono; [apply (bin_routines_ok avx idx Hidx b threads bin_capacity inputs vals); try done|].
      * constructor; try done.
        -- intros t c Ht Hc. apply (Hf t c Ht Hc).
        -- intros c Hc _. split; [intros t Ht; by apply Hf|by apply slice_replicate].
        -- intros c _ Hin. by apply not_elem_of_nil in Hin.
        -- apply length_replicate.
        -- apply zeros_elem.
      * intros [[s2 P2] prng] HP. run. exact HP.
Qed.
End solve.
