(* ===== verification/BaxosDecode.v ===== *)
(** * Baxos: decoding, and the round trip (psi/algorithm/rr22/okvs/baxos)

    The keys are collected by bin and decoded in groups; whatever the groups, the
    threads and their order, every key gets the product of its row with the part
    of the vector for its bin.  A vector that solves the bins decodes to the
    values. *)
From S2P Require Import Prelude Galois PaxosHash WeightData DenseMtx Combination Paxos PaxosInput PaxosEncode PaxosSolve PaxosDense PaxosBackfill PaxosDecode PaxosReuse Baxos BaxosSolve BaxosBins.

(** ** Updating the slots of some keys *)
Section updates.
Context (upd : Z -> nat -> Z).
Definition after (l : list nat) (V : list Z) : list Z :=
  tabulate (length V) (fun t => if bool_decide (t ∈ l) then upd (V !!! t) t else V !!! t).

Lemma length_after l V : length (after l V) = length V.
Proof. unfold after. by rewrite length_tabulate. Qed.
Lemma after_lookup l V t : (t < length V)%nat -> after l V !!! t = if bool_decide (t ∈ l) then upd (V !!! t) t else V !!! t.
Proof. intros Ht. unfold after. by rewrite tabulate_lookup. Qed.
Lemma after_nil V : after [] V = V.
Proof.
  unfold after. symmetry. apply eq_tabulate; [done|]. intros t Ht. by rewrite bool_decide_false by apply not_elem_of_nil.
Qed.
Lemma after_ext l l' V : (forall t, (t < length V)%nat -> t ∈ l <-> t ∈ l') -> after l V = after l' V.
Proof. intros E. apply tabulate_ext. intros t Ht. by rewrite (bool_decide_ext _ _ (E t Ht)). Qed.
Lemma after_app l l' V : (forall t, t ∈ l -> t ∈ l' -> False) -> after l' (after l V) = after (l ++ l') V.
Proof.
  intros Hd. unfold after at 1. rewrite length_after. apply tabulate_ext. intros t Ht. rewrite after_lookup by done.
  destruct (decide (t ∈ l')) as [H'|H'].
  - rewrite (bool_decide_true (t ∈ l')) by done. rewrite (bool_decide_false (t ∈ l)) by (intros H; by apply (Hd t)).
    by rewrite bool_decide_true by set_solver.
  - rewrite (bool_decide_false (t ∈ l')) by done. rewrite (bool_decide_ext (t ∈ l ++ l') (t ∈ l)); [done|set_solver].
Qed.
Lemma after_snoc l i V : (i < length V)%nat -> i ∉ l -> <[i := upd (V !!! i) i]> (after l V) = after (l ++ [i]) V.
Proof.
  intros Hi Hl. unfold after. rewrite insert_tabulate. apply tabulate_ext. intros t Ht. destruct (decide (t = i)) as [->|Hne].
  - by rewrite bool_decide_true by set_solver.
  - rewrite (bool_decide_ext (t ∈ l ++ [i]) (t ∈ l)); [done|set_solver].
Qed.
Lemma after_fresh l i V : (i < length V)%nat -> i ∉ l -> after l V !!! i = V !!! i.
Proof. intros Hi Hl. rewrite after_lookup by done. by rewrite bool_decide_false. Qed.
End updates.

(** ** The keys of one bin *)
Section bin.
Context `{SymmetricCrypto} `{LibdivideLaws} (avx : bool) (idx : Z) (Hidx : 0 <= idx <= 64) (junk : nat -> Z) (b : Baxos) (PP inputs : list Z).
Abbreviation nb := (num_bins_ b).
Abbreviation p := (paxos_param_ b).
Abbreviation w := (Paxos.weight p).
Abbreviation sp := (Paxos.sparse_size p).
Abbreviation sz := (Paxos.size p).
Context (Hwb : weight_ b = w) (Hw : (0 < w <= sp)%nat) (Hw20 : (w <= 20)%nat) (Hsp : Z.of_nat sp < 2 ^ idx) (Hsp63 : Z.of_nat sp < 2 ^ 63).
Context (Hds : (0 < dense_size p)%nat) (Hdt : dt p = GF128).

(** What a key decodes to in a bin. *)
Definition in_bin (c : nat) (x : Z) : Z := product avx 128 p (slice sz c PP) (key_row avx idx p x) (AesCrHash_Hash1 x).
Definition upd (v : Z) (i : nat) : Z :=
  let x := inputs !!! i in if add_to_decode_ b then Add v (in_bin (bin_of b x) x) else in_bin (bin_of b x) x.
Abbreviation after := (after upd).

(** Keys of bin [c] at [l]. *)
Definition of_bin (c : nat) (l : list nat) : Prop := Forall (fun i => (i < length inputs)%nat /\ bin_of b (inputs !!! i) = c) l.
Definition xs_of (l : list nat) : list Z := map (fun i => inputs !!! i) l.

Lemma decode32_product px (P : list Z) x : param px = p -> decode32 avx idx 128 px P x = product avx 128 p P (key_row avx idx p x) (AesCrHash_Hash1 x).
Proof. intros Hp. unfold decode32, word32. rewrite Hp, bool_decide_true by done. done. Qed.

Lemma row_good x : good_row p (key_row avx idx p x).
Proof. destruct (key_row_ok avx idx Hidx p ltac:(lia) Hsp x) as (Hl & _ & HF). done. Qed.

Lemma ImplDecodeBin_ok c l in_idxs V buff :
  length (slice sz c PP) = sz -> of_bin c l -> NoDup l -> take (length l) in_idxs = l -> length V = length inputs -> length buff = 32%nat ->
  wp (ImplDecodeBin avx idx junk b (map AesCrHash_Hash1 (xs_of l)) in_idxs (slice sz c PP) (V, buff))
    (fun '(V', buff') => V' = after l V /\ length buff' = 32%nat).
Proof.
  intros HP Hl Hnd Hin HV Hbf. unfold ImplDecodeBin. rewrite Hwb. rewrite (bool_decide_true (w <= 20)%nat) by done. run. cbn [fst snd].
  rewrite (bool_decide_true (32 <= length buff)%nat) by lia. run. assert (length (xs_of l) = length l) as Hxl by apply length_map.
  rewrite length_map, Hxl. set (g := (length l / 32)%nat). pose proof (Nat.div_mod_eq (length l) 32) as Hd. fold g in Hd.
  assert (forall k, (k < length l)%nat -> exists i, l !! k = Some i /\ vget in_idxs k = Ok i /\ (i < length V)%nat /\ bin_of b (inputs !!! i) = c /\
    xs_of l !! k = Some (inputs !!! i) /\ i ∉ take k l) as Hk.
  { intros k Hk. destruct (lookup_lt_is_Some_2 l k Hk) as [i Hi]. exists i. split; [done|]. split.
    - apply vget_ok. rewrite <- Hin in Hi. by rewrite lookup_take_lt in Hi.
    - destruct (Forall_lookup_1 _ _ _ _ Hl Hi) as [Hil Hbi]. split; [lia|]. split; [done|]. split; [unfold xs_of; by rewrite lookup_map, Hi|].
      intros (k' & Hk' & Hlt)%elem_of_take. pose proof (NoDup_lookup _ _ _ _ Hnd Hk' Hi). lia. }
  apply wp_bind. apply (wp_for _ _ (fun k '(row, values, buff) => length row = (32 * w)%nat /\ values = after (take (k * 32) l) V /\ length buff = 32%nat)).
  - split; [rewrite length_take, length_tabulate; lia|]. split; [|done]. by rewrite after_nil.
  - clear Hbf buff. intros k [[row values] buff] Hkg (Hr & -> & Hbf). assert (k * 32 + 32 <= length l)%nat as Hk32 by lia.
    rewrite keys_hashes. rewrite (BuildRow32_rows avx idx Hidx p) by (try done; try lia; rewrite ?length_map, ?length_take, ?length_drop; lia). run.
    assert (map Z.to_nat (concat (map (hash_row avx idx (hasher_ p)) (map AesCrHash_Hash1 (take 32 (drop (k * 32) (xs_of l)))))) =
      key_rows avx idx p (take 32 (drop (k * 32) (xs_of l)))) as -> by (unfold key_rows; by rewrite concat_map, !map_map).
    rewrite (Decode32_keys avx idx Hidx 128 (Paxos_default p 0) (slice sz c PP)) by (try done; try (cbn; lia); try (cbn; congruence); rewrite ?length_take; lia).
    run. set (D := tabulate 32 _). assert (length D = 32%nat) as HD by apply length_tabulate.
    rewrite (drop_ge buff) by lia. rewrite app_nil_r. apply wp_bind.
    apply (wp_for _ _ (fun j values => values = after (take (k * 32 + j) l) V)).
    + by rewrite Nat.add_0_r.
    + intros j values Hj ->. destruct (Hk (k * 32 + j)%nat ltac:(lia)) as (i & Hi & -> & HiV & Hbi & Hx & Hni). run.
      rewrite (vget_total D) by lia. run. rewrite vget_total by (rewrite length_after; lia). run. rewrite vset_total by (rewrite length_after; lia).
      rewrite after_fresh by done. cbn [wp]. rewrite Nat.add_succ_r, (take_S_r _ _ _ Hi), <- after_snoc by done. f_equal.
      unfold D. rewrite tabulate_lookup by done. rewrite (list_lookup_total_correct _ _ _ Hx), decode32_product by done.
      unfold upd, in_bin. by rewrite Hbi.
    + intros values ->. run. split; [|split; [by replace (S k * 32)%nat with (k * 32 + 32)%nat by lia|done]].
      rewrite <- (length_map Z.to_nat), concat_map, !map_map. change (concat _) with (key_rows avx idx p (take 32 (drop (k * 32) (xs_of l)))).
      rewrite (length_key_rows avx idx Hidx p), length_take, length_drop by (done || lia). f_equal. lia.
  - clear Hbf buff. intros [[row values] buff] (Hr & -> & Hbf). apply wp_bind.
    apply (wp_for _ _ (fun k '(row, values, buff) => length row = (32 * w)%nat /\ values = after (take (g * 32 + k) l) V /\ length buff = 32%nat)).
    + by rewrite Nat.add_0_r.
    + clear Hr Hbf row buff. intros k [[row values] buff] Hkg (Hr & -> & Hbf).
      destruct (Hk (g * 32 + k)%nat ltac:(lia)) as (i & Hi & Ei & HiV & Hbi & Hx & Hni).
      rewrite (proj2 (vget_ok _ _ _) (eq_trans (lookup_map _ _ _) (f_equal _ Hx))). run.
      rewrite (hash_row_any avx idx Hidx p) by (try done; try lia; rewrite length_take; lia). run. rewrite Ei. run.
      rewrite vget_total by (rewrite length_after; lia). run.
      change (map Z.to_nat (hash_row avx idx (hasher_ p) (AesCrHash_Hash1 (inputs !!! i)))) with (key_row avx idx p (inputs !!! i)).
      rewrite (Decode1_ok avx 128 p (slice sz c PP)) by (try done; try lia; try congruence; apply row_good). run.
      rewrite after_fresh by done. assert (length (put_row 0 (hash_row avx idx (hasher_ p) (AesCrHash_Hash1 (inputs !!! i))) row) = (32 * w)%nat) as Hpr.
      { destruct (hash_row_ok avx idx Hidx p ltac:(lia) Hsp (AesCrHash_Hash1 (inputs !!! i))) as [_ [Hlr _]]. rewrite length_put_row; lia. }
      rewrite Nat.add_succ_r, (take_S_r _ _ _ Hi), <- after_snoc by done.
      assert (upd (V !!! i) i = if add_to_decode_ b then Add (V !!! i) (in_bin c (inputs !!! i)) else in_bin c (inputs !!! i)) as -> by (unfold upd; by rewrite Hbi).
      destruct (add_to_decode_ b).
      * rewrite (vset_total buff) by lia. run. rewrite vset_total by (rewrite length_after; lia). run. split; [done|]. split; [done|]. by rewrite length_insert.
      * rewrite vset_total by (rewrite length_after; lia). run. done.
    + intros [[row' values'] buff'] (_ & -> & Hb'). run. rewrite take_ge by lia. done.
Qed.

(** *** The keys that wait *)
Context (HPP : length PP = (nb * sz)%nat) (V0 : list Z) (HV0 : length V0 = length inputs) (ds : nat).

Definition cells (c : nat) (l : list nat) (mtx : list Z) (idxs : list nat) : Prop :=
  forall k i, l !! k = Some i -> mtx !!! (c * ds + k)%nat = AesCrHash_Hash1 (inputs !!! i) /\ idxs !!! (c * ds + k)%nat = i.

(** Keys [D] are decoded, keys [Q c] wait for bin [c]; none else below [m]. *)
Record waiting (m : nat) (D : list nat) (Q : nat -> list nat) (s : Pending) : Prop := {
  wt_lengths : length (batches_mtx s) = (nb * ds)%nat /\ length (in_idxs_mtx s) = (nb * ds)%nat /\ length (batch_sizes s) = nb /\ length (buff_ s) = 32%nat;
  wt_values : values_ s = after D V0;
  wt_size c : (c < nb)%nat -> batch_sizes s !!! c = length (Q c) /\ (length (Q c) <= ds)%nat;
  wt_bin c : (c < nb)%nat -> of_bin c (Q c) /\ NoDup (Q c) /\ cells c (Q c) (batches_mtx s) (in_idxs_mtx s);
  wt_all i : (i < length inputs)%nat -> (i < m)%nat <-> i ∈ D \/ i ∈ Q (bin_of b (inputs !!! i));
  wt_apart c i : (c < nb)%nat -> i ∈ D -> i ∈ Q c -> False
}.
Definition pending (m : nat) (D : list nat) (Q : nat -> list nat) (s : Pending) : Prop :=
  waiting m D Q s /\ forall c, (c < nb)%nat -> (length (Q c) < ds)%nat.

Lemma of_bin_lookup c l i : of_bin c l -> i ∈ l -> (i < length inputs)%nat /\ bin_of b (inputs !!! i) = c.
Proof. clear. intros Hl [k Hk]%list_elem_of_lookup. exact (Forall_lookup_1 _ _ _ _ Hl Hk). Qed.

Lemma cell_bound c k : (c < nb)%nat -> (k < ds)%nat -> (c * ds + k < nb * ds)%nat.
Proof. clear. nia. Qed.
Lemma cell_ne c k c' k' : c' <> c -> (k < ds)%nat -> (k' < ds)%nat -> (c' * ds + k' <> c * ds + k)%nat.
Proof. clear. intros Hne Hk Hk' E. apply Hne. destruct (Nat.div_mod_unique ds c' c k' k) as [-> _]; lia. Qed.

Lemma cells_spans c l mtx idxs :
  cells c l mtx idxs -> (c < nb)%nat -> (length l <= ds)%nat -> length mtx = (nb * ds)%nat -> length idxs = (nb * ds)%nat ->
  take (length l) (drop (c * ds) mtx) = map AesCrHash_Hash1 (xs_of l) /\ take (length l) (take ds (drop (c * ds) idxs)) = l.
Proof.
  intros Hcl Hc Hl Hm Hi. assert (c * ds + ds <= nb * ds)%nat as Hb by (clear - Hc; nia). rewrite take_take, Nat.min_l by done. split.
  - apply list_eq_total; [rewrite length_take, length_drop, length_map; unfold xs_of; rewrite length_map; lia|].
    intros k Hk. rewrite length_take, length_drop in Hk. destruct (lookup_lt_is_Some_2 l k ltac:(lia)) as [i Ei].
    rewrite lookup_total_take, decide_True, lookup_total_drop by lia. destruct (Hcl k i Ei) as [-> _].
    symmetry. apply list_lookup_total_correct. unfold xs_of. by rewrite !lookup_map, Ei.
  - apply list_eq_total; [rewrite length_take, length_drop; lia|]. intros k Hk. rewrite length_take, length_drop in Hk.
    destruct (lookup_lt_is_Some_2 l k ltac:(lia)) as [i Ei]. rewrite lookup_total_take, decide_True, lookup_total_drop by lia.
    destruct (Hcl k i Ei) as [_ ->]. symmetry. by apply list_lookup_total_correct.
Qed.

Lemma decode_bin_ok c l D s :
  (c < nb)%nat -> of_bin c l -> NoDup l -> (length l <= ds)%nat -> cells c l (batches_mtx s) (in_idxs_mtx s) ->
  length (batches_mtx s) = (nb * ds)%nat -> length (in_idxs_mtx s) = (nb * ds)%nat -> length (buff_ s) = 32%nat ->
  values_ s = after D V0 -> (forall i, i ∈ D -> i ∈ l -> False) ->
  wp (decode_bin avx idx junk b PP ds c (length l) s) (fun s' => exists buff,
    s' = mkPending (batches_mtx s) (in_idxs_mtx s) (batch_sizes s) (after (D ++ l) V0) buff /\ length buff = 32%nat).
Proof.
  intros Hc Hl Hnd Hls Hcl Hm Hi Hb Hv Hd. unfold decode_bin. change (Baxos.size b) with (nb * sz)%nat.
  rewrite (Nat.mul_comm nb sz), Nat.div_mul by lia. assert (c * sz + sz <= nb * sz)%nat as Hcs by (clear - Hc; nia).
  rewrite bool_decide_true by lia. run. destruct (cells_spans c l _ _ Hcl Hc Hls Hm Hi) as [-> Hin].
  rewrite (Nat.mul_comm c sz). change (take sz (drop (sz * c) PP)) with (slice sz c PP). apply wp_bind.
  eapply wp_mono; [apply (ImplDecodeBin_ok c l)|]; try done.
  - by apply (length_slice sz c nb).
  - by rewrite Hv, length_after.
  - intros [V' buff'] [-> Hb']. run. exists buff'. split; [|done]. by rewrite Hv, after_app.
Qed.

(** A key joins the queue of its bin. *)
Definition enqueue (Q : nat -> list nat) (c i : nat) (c' : nat) : list nat := if decide (c' = c) then Q c ++ [i] else Q c'.
Definition flush (Q : nat -> list nat) (c : nat) (c' : nat) : list nat := if decide (c' = c) then [] else Q c'.
Lemma enqueue_eq Q c i : enqueue Q c i c = Q c ++ [i].
Proof. clear. unfold enqueue. by rewrite decide_True. Qed.
Lemma enqueue_ne Q c i c' : c' <> c -> enqueue Q c i c' = Q c'.
Proof. clear. intros. unfold enqueue. by rewrite decide_False. Qed.
Lemma flush_eq Q c : flush Q c c = [].
Proof. clear. unfold flush. by rewrite decide_True. Qed.
Lemma flush_ne Q c c' : c' <> c -> flush Q c c' = Q c'.
Proof. clear. intros. unfold flush. by rewrite decide_False. Qed.

Lemma enqueue_ok m D Q s c : (m < length inputs)%nat -> c = bin_of b (inputs !!! m) -> (c < nb)%nat -> pending m D Q s ->
  waiting (S m) D (enqueue Q c m)
    (mkPending (<[(c * ds + length (Q c))%nat := AesCrHash_Hash1 (inputs !!! m)]> (batches_mtx s)) (<[(c * ds + length (Q c))%nat := m]> (in_idxs_mtx s))
       (<[c := S (length (Q c))]> (batch_sizes s)) (values_ s) (buff_ s)).
Proof.
  intros Hm -> Hc [[(Hx1 & Hx2 & Hx3 & Hx4) Hv Hsz Hbin Hall Hap] Hlt]. set (c := bin_of b (inputs !!! m)) in *.
  pose proof (Hlt c Hc) as Hltc. destruct (Hbin c Hc) as (Hob & Hnd & Hcl). pose proof (cell_bound c _ Hc Hltc) as Hcb.
  assert (~ (m < m)%nat) as Hirr by lia. specialize (Hall m Hm) as Hallm. fold c in Hallm.
  assert (m ∉ D) as HmD by tauto. assert (m ∉ Q c) as HmQ by tauto.
  constructor; cbn [batches_mtx in_idxs_mtx batch_sizes values_ buff_]; rewrite ?length_insert; try done.
  - intros c' Hc'. destruct (decide (c' = c)) as [->|Hne].
    + rewrite enqueue_eq, list_lookup_total_insert_eq, length_app by lia. cbn. lia.
    + rewrite enqueue_ne, list_lookup_total_insert_ne by done. by apply Hsz.
  - intros c' Hc'. destruct (decide (c' = c)) as [->|Hne].
    + rewrite enqueue_eq. split; [apply Forall_app_2; [done|by apply Forall_singleton]|].
      split; [apply NoDup_app; split; [done|]; split; [set_solver|apply NoDup_singleton]|].
      intros k i Hk. apply lookup_snoc_Some in Hk as [[Hk Hi]|[-> <-]].
      * rewrite !list_lookup_total_insert_ne by lia. by apply Hcl.
      * by rewrite !list_lookup_total_insert_eq by lia.
    + rewrite enqueue_ne by done. destruct (Hbin c' Hc') as (? & ? & Hcl'). split; [done|]. split; [done|]. intros k i Hk.
      pose proof (lookup_lt_Some _ _ _ Hk). pose proof (Hlt c' Hc').
      pose proof (cell_ne c (length (Q c)) c' k Hne Hltc ltac:(lia)). rewrite !list_lookup_total_insert_ne by lia. by apply Hcl'.
  - intros i Hi. specialize (Hall i Hi). destruct (decide (i = m)) as [->|Hne].
    + fold c. rewrite enqueue_eq. split; [intros _; right; set_solver|lia].
    + assert (i ∈ enqueue Q c m (bin_of b (inputs !!! i)) <-> i ∈ Q (bin_of b (inputs !!! i))) as ->.
      { destruct (decide (bin_of b (inputs !!! i) = c)) as [->|]; [rewrite enqueue_eq; set_solver|by rewrite enqueue_ne]. }
      rewrite <- Hall. lia.
  - intros c' i Hc' HD. destruct (decide (c' = c)) as [->|Hne]; [|rewrite enqueue_ne by done; by apply Hap].
    rewrite enqueue_eq. intros [HQ| ->%list_elem_of_singleton]%elem_of_app; [by apply (Hap c i)|done].
Qed.

(** The queue of a bin is decoded and emptied. *)
Lemma flush_ok m D Q s c : (c < nb)%nat -> waiting m D Q s ->
  wp (s ← decode_bin avx idx junk b PP ds c (length (Q c)) s;
      sizes ← vset (batch_sizes s) c 0%nat;
      Ok (mkPending (batches_mtx s) (in_idxs_mtx s) sizes (values_ s) (buff_ s))) (waiting m (D ++ Q c) (flush Q c)).
Proof.
  intros Hc [(Hx1 & Hx2 & Hx3 & Hx4) Hv Hsz Hbin Hall Hap]. destruct (Hbin c Hc) as (Hob & Hnd & Hcl). destruct (Hsz c Hc) as [_ Hle].
  apply wp_bind. eapply wp_mono; [apply (decode_bin_ok c (Q c) D s); try done; intros i; by apply Hap|].
  intros s2 (buff & -> & Hbuf). cbn [batches_mtx in_idxs_mtx batch_sizes values_ buff_]. rewrite vset_total by lia. run.
  constructor; cbn [batches_mtx in_idxs_mtx batch_sizes values_ buff_]; rewrite ?length_insert; try done.
  - intros c' Hc'. destruct (decide (c' = c)) as [->|Hne].
    + rewrite flush_eq, list_lookup_total_insert_eq by lia. cbn. split; [done|lia].
    + rewrite flush_ne, list_lookup_total_insert_ne by done. by apply Hsz.
  - intros c' Hc'. destruct (decide (c' = c)) as [->|Hne]; [|rewrite flush_ne by done; by apply Hbin].
    rewrite flush_eq. split; [constructor|]. split; [constructor|]. intros k i Hk. done.
  - intros i Hi. rewrite (Hall i Hi), elem_of_app. destruct (decide (bin_of b (inputs !!! i) = c)) as [->|Hne].
    + rewrite flush_eq. split; [tauto|]. intros [?|Hn]; [done|by apply not_elem_of_nil in Hn].
    + rewrite flush_ne by done. split; [tauto|]. intros [[?|HQ]|?]; [by left| |by right]. destruct Hne. by apply (of_bin_lookup c (Q c)).
  - intros c' i Hc' HD. destruct (decide (c' = c)) as [->|Hne]; [rewrite flush_eq; apply not_elem_of_nil|]. rewrite flush_ne by done. intros HQ'.
    apply elem_of_app in HD as [HD|HQ]; [by apply (Hap c' i)|]. apply Hne. destruct (Hbin c' Hc') as (Hob' & _).
    destruct (of_bin_lookup c (Q c) i Hob HQ) as [_ <-]. by destruct (of_bin_lookup c' (Q c') i Hob' HQ') as [_ <-].
Qed.

Lemma push_key_ok m D Q s : (m < length inputs)%nat -> (0 < nb)%nat -> pending m D Q s ->
  wp (push_key avx idx junk b PP ds (bin_of b (inputs !!! m)) m (AesCrHash_Hash1 (inputs !!! m)) s)
    (fun s' => exists D' Q', pending (S m) D' Q' s').
Proof.
  intros Hm Hnb Hp. set (c := bin_of b (inputs !!! m)). assert (c < nb)%nat as Hc by (by apply bin_of_lt).
  pose proof (enqueue_ok m D Q s c Hm eq_refl Hc Hp) as Hw1. destruct Hp as [[(Hx1 & Hx2 & Hx3 & Hx4) _ Hsz _ _ _] Hlt].
  destruct (Hsz c Hc) as [Es _]. pose proof (cell_bound c _ Hc (Hlt c Hc)) as Hcb. pose proof (Hlt c Hc) as Hltc.
  assert (length (enqueue Q c m c) = S (length (Q c))) as El by (rewrite enqueue_eq, length_app; cbn; lia).
  unfold push_key. rewrite (vget_total (batch_sizes s)) by lia. rewrite Es. run. rewrite !vset_total by lia. run. case_bool_decide as Hfull.
  - replace ds with (length (enqueue Q c m c)) at 2 by lia. eapply wp_mono; [by apply (flush_ok (S m) D (enqueue Q c m))|].
    intros s' Hw'. exists (D ++ enqueue Q c m c), (flush (enqueue Q c m) c). split; [exact Hw'|]. intros c' Hc'.
    destruct (decide (c' = c)) as [->|Hne]; [rewrite flush_eq; cbn; lia|]. rewrite flush_ne, enqueue_ne by done. by apply Hlt.
  - exists D, (enqueue Q c m). split; [exact Hw1|]. intros c' Hc'. destruct (decide (c' = c)) as [->|Hne]; [lia|]. rewrite enqueue_ne by done. by apply Hlt.
Qed.

(** *** What still waits at the end *)
Lemma drain_ok D Q s : (0 < nb)%nat -> waiting (length inputs) D Q s ->
  wp (for_ nb (fun bin s =>
        n ← vget (batch_sizes s) bin;
        if bool_decide (n = 0%nat) then Ok s else decode_bin avx idx junk b PP ds bin n s) s)
     (fun s' => values_ s' = after (seq 0 (length inputs)) V0).
Proof.
  intros Hnb [(Hx1 & Hx2 & Hx3 & Hx4) Hv Hsz Hbin Hall Hap].
  apply (wp_for _ _ (fun k s' => exists buff, s' = mkPending (batches_mtx s) (in_idxs_mtx s) (batch_sizes s)
    (after (D ++ concat (map Q (seq 0 k))) V0) buff /\ length buff = 32%nat)).
  - exists (buff_ s). split; [|done]. cbn [seq map concat]. rewrite app_nil_r, <- Hv. by destruct s.
  - intros k s' Hk (buff & -> & Hbuf). cbn [batch_sizes]. rewrite vget_total by lia. run. destruct (Hsz k Hk) as [-> Hle].
    destruct (Hbin k Hk) as (Hob & Hnd & Hcl). rewrite seq_S, map_app, concat_app, app_assoc. cbn [map concat]. rewrite Nat.add_0_l, app_nil_r.
    case_bool_decide as E0.
    + apply length_zero_iff_nil in E0. rewrite E0, app_nil_r. exists buff. done.
    + eapply wp_mono; [apply (decode_bin_ok k (Q k) (D ++ concat (map Q (seq 0 k)))); try done|].
      * intros i [HD|(c & Hc & HQ)%elem_of_concat_seq]%elem_of_app HQk; [by apply (Hap k i)|].
        destruct (Hbin c ltac:(lia)) as (Hobc & _). destruct (of_bin_lookup c (Q c) i Hobc HQ) as [_ E].
        destruct (of_bin_lookup k (Q k) i Hob HQk) as [_ E']. lia.
      * intros s' (buff' & -> & Hb'). by exists buff'.
  - intros s' (buff & -> & _). cbn [values_]. apply after_ext. rewrite HV0. intros t Ht. rewrite elem_of_app, elem_of_concat_seq, elem_of_seq.
    pose proof (Hall t Ht) as Hat. split; [lia|]. intros _. destruct (proj1 Hat Ht) as [?|HQ]; [by left|right].
    exists (bin_of b (inputs !!! t)). split; [by apply bin_of_lt|done].
Qed.
End bin.

(** ** All keys of a thread *)
Lemma for_0 {S} (f : nat -> S -> res S) s : for_ 0 f s = Ok s.
Proof. done. Qed.
Section batch.
Context `{SymmetricCrypto} `{LibdivideLaws} (avx : bool) (idx : Z) (Hidx : 0 <= idx <= 64) (junk : nat -> Z) (b : Baxos) (PP : list Z).
Abbreviation nb := (num_bins_ b).
Abbreviation p := (paxos_param_ b).
Abbreviation w := (Paxos.weight p).
Abbreviation sp := (Paxos.sparse_size p).
Abbreviation sz := (Paxos.size p).
Context (Hnb : (0 < nb)%nat) (Hnb64 : Z.of_nat nb < 2 ^ 64).
Context (Hwb : weight_ b = w) (Hw : (0 < w <= sp)%nat) (Hw20 : (w <= 20)%nat) (Hsp : Z.of_nat sp < 2 ^ idx - 1) (Hsp63 : Z.of_nat sp < 2 ^ 63).
Context (Hds : (0 < dense_size p)%nat) (Hdt : dt p = GF128) (HPP : length PP = (nb * sz)%nat).

Lemma ImplDecodeBatch_ok inputs V0 : length V0 = length inputs ->
  ImplDecodeBatch avx idx junk b PP inputs V0 = Ok (after (upd avx idx b PP inputs) (seq 0 (length inputs)) V0).
Proof.
  intros HV0. apply wp_eq. unfold ImplDecodeBatch. rewrite (bool_decide_false (nb = 0%nat)) by lia. run.
  unfold Paxos.Init. rewrite (proj2 (Z.ltb_lt _ _)) by done. run. rewrite (bool_decide_true (1 <= sp + _)%nat) by lia. run.
  set (n := length inputs) in *. set (ds := Nat.min 512 n). set (g := (n / 32)%nat). pose proof (Nat.div_mod_eq n 32) as Hd. fold g in Hd.
  set (s0 := mkPending _ _ _ _ _). assert (Z.of_nat sp < 2 ^ idx) as Hsp' by lia.
  assert (n <> 0%nat -> pending avx idx b PP inputs V0 ds 0 [] (fun _ => []) s0) as Hp0.
  { intros Hn. split; [|intros c Hc; change (0 < Nat.min 512 n)%nat; lia]. constructor; cbn [s0 batches_mtx in_idxs_mtx batch_sizes values_ buff_].
    - by rewrite !length_tabulate, !length_replicate.
    - by rewrite after_nil.
    - intros c Hc. rewrite lookup_total_replicate_lt by done. cbn. split; [done|lia].
    - intros c Hc. split; [constructor|]. split; [constructor|]. intros k i Hk. done.
    - intros i Hi. split; [lia|]. intros [Hin|Hin]; by apply not_elem_of_nil in Hin.
    - intros c i _ Hin. by apply not_elem_of_nil in Hin. }
  destruct (decide (n = 0%nat)) as [E0|Hn].
  { assert (g = 0%nat) as Eg by (unfold g; by rewrite E0). rewrite Eg, E0. cbn [Nat.sub Nat.mul]. rewrite for_0. run. rewrite for_0. run. apply wp_bind.
    apply (wp_for _ _ (fun _ s => s = s0)); [done| |].
    - intros k s Hk ->. cbn [s0 batch_sizes]. rewrite vget_total by (by rewrite length_replicate). rewrite lookup_total_replicate_lt by done. run. by rewrite bool_decide_true.
    - intros s ->. run. cbn [seq]. by rewrite after_nil. }
  specialize (Hp0 Hn). apply wp_bind.
  apply (wp_for _ _ (fun k '(s, buffer) => length buffer = 32%nat /\ exists D Q, pending avx idx b PP inputs V0 ds (k * 32) D Q s)).
  - split; [by rewrite length_tabulate|]. by exists [], (fun _ => []).
  - clearbody s0. clear Hp0 s0. intros k [s buffer] Hk [Hlb Hp]. assert (k * 32 + 32 <= n)%nat as Hk32 by lia.
    assert (length (take 32 (drop (k * 32) inputs)) = 32%nat) as Hx by (rewrite length_take, length_drop; unfold n in *; lia).
    rewrite AesCrHash_Hash_map by (by rewrite Hx). run. rewrite (DoMod32_bins b) by lia. rewrite map_map. apply wp_bind.
    apply (wp_for _ _ (fun j s => exists D Q, pending avx idx b PP inputs V0 ds (k * 32 + j) D Q s)).
    + by rewrite Nat.add_0_r.
    + clear Hp s. intros j s Hj (D & Q & Hp). assert (take 32 (drop (k * 32) inputs) !! j = Some (inputs !!! (k * 32 + j)%nat)) as Hjx.
      { rewrite lookup_take_lt, lookup_drop by done. apply list_lookup_lookup_total_lt. unfold n in *. lia. }
      rewrite (proj2 (vget_ok _ _ _) (eq_trans (lookup_map _ _ _) (f_equal _ Hjx))). run.
      rewrite (proj2 (vget_ok _ _ _) (eq_trans (lookup_map _ _ _) (f_equal _ Hjx))). run.
      rewrite Nat.add_succ_r. eapply (push_key_ok avx idx Hidx junk b PP inputs); try done. unfold n in *. lia.
    + clear Hp s. intros s Hp. run. split; [by rewrite length_map|]. by replace (S k * 32)%nat with (k * 32 + 32)%nat by lia.
  - clearbody s0. clear Hp0 s0. intros [s buffer] [Hlb Hp]. apply wp_bind.
    apply (wp_for _ _ (fun k '(s, buffer) => length buffer = 32%nat /\ exists D Q, pending avx idx b PP inputs V0 ds (g * 32 + k) D Q s)).
    + by rewrite Nat.add_0_r.
    + clear Hp Hlb s buffer. intros k [s buffer] Hk [Hlb (D & Q & Hp)]. rewrite (vget_total inputs) by (unfold n in *; lia). run.
      rewrite AesCrHash_Hash_map by (rewrite length_take, Hlb; done). run. cbn [map app]. change (vget (AesCrHash_Hash1 (inputs !!! (g * 32 + k)%nat) :: drop 1 buffer) 0) with (Ok (AesCrHash_Hash1 (inputs !!! (g * 32 + k)%nat))). run.
      rewrite (ModNumBins_ok b) by done. run. apply wp_bind. eapply wp_mono.
      * eapply (push_key_ok avx idx Hidx junk b PP inputs); try done. unfold n in *. lia.
      * intros s' Hp'. run. rewrite Nat.add_succ_r. split; [|done]. cbn. rewrite length_drop. lia.
    + clear Hp Hlb s buffer. intros [s buffer] [_ (D & Q & Hp)]. replace (g * 32 + (n - g * 32))%nat with n in Hp by lia. apply wp_bind.
      eapply wp_mono; [eapply (drain_ok avx idx Hidx junk b PP inputs); try done; by destruct Hp|]. intros s' Hs'. exact Hs'.
Qed.
End batch.

(** ** All threads *)
Section threads.
Context `{SymmetricCrypto} `{LibdivideLaws} (avx : bool) (idx : Z) (Hidx : 0 <= idx <= 64) (junk : nat -> Z) (b : Baxos) (PP : list Z).
Abbreviation nb := (num_bins_ b).
Abbreviation p := (paxos_param_ b).
Abbreviation w := (Paxos.weight p).
Abbreviation sp := (Paxos.sparse_size p).
Abbreviation sz := (Paxos.size p).
Context (Hnb : (0 < nb)%nat) (Hnb64 : Z.of_nat nb < 2 ^ 64).
Context (Hwb : weight_ b = w) (Hw : (0 < w <= sp)%nat) (Hw20 : (w <= 20)%nat) (Hsp : Z.of_nat sp < 2 ^ idx - 1) (Hsp63 : Z.of_nat sp < 2 ^ 63).
Context (Hds : (0 < dense_size p)%nat) (Hdt : dt p = GF128) (HPP : length PP = (nb * sz)%nat).
Context (T : nat) (inputs V0 : list Z) (HT : (0 < T)%nat) (HV0 : length V0 = length inputs).
Abbreviation n := (length inputs).
Abbreviation update := (upd avx idx b PP inputs).
Abbreviation begin := (begin T inputs).
Abbreviation share := (share T inputs).

(** The keys of a thread, and of some threads. *)
Definition part_of (t : nat) : list nat := seq (begin t) (share t).
Definition parts_of (l : list nat) : list nat := concat (map part_of l).

Lemma elem_of_parts i l : i ∈ parts_of l <-> exists t, t ∈ l /\ i ∈ part_of t.
Proof.
  clear. unfold parts_of. induction l as [|t l IH]; [split; [intros Hi; by apply not_elem_of_nil in Hi|intros (t & Ht & _); by apply not_elem_of_nil in Ht]|].
  cbn [map concat]. rewrite elem_of_app, IH. split.
  - intros [?|(u & ? & ?)]; [exists t; split; [by left|done]|exists u; split; [by right|done]].
  - intros (u & [->|Hu]%elem_of_cons & Hi); [by left|right; by exists u].
Qed.
Lemma begin_le t u : (t <= u)%nat -> (begin t <= begin u)%nat.
Proof. clear - HT. intros Htu. unfold BaxosSolve.begin. apply Nat.Div0.div_le_mono. nia. Qed.
Lemma begin_end : begin T = n.
Proof. clear - HT. unfold BaxosSolve.begin. apply Nat.div_mul. lia. Qed.
Lemma part_range i t : i ∈ part_of t <-> (begin t <= i < begin (S t))%nat.
Proof.
  unfold part_of. rewrite elem_of_seq. pose proof (begin_le t (S t) ltac:(lia)). unfold BaxosSolve.share. rewrite Nat.add_1_r. lia.
Qed.
Lemma part_unique i t u : i ∈ part_of t -> i ∈ part_of u -> t = u.
Proof.
  rewrite !part_range. intros Ht Hu. destruct (lt_eq_lt_dec t u) as [[Hlt|?]|Hlt]; [|done|].
  - pose proof (begin_le (S t) u Hlt). lia.
  - pose proof (begin_le (S u) t Hlt). lia.
Qed.
Lemma part_exists i : (i < n)%nat -> exists t, (t < T)%nat /\ i ∈ part_of t.
Proof.
  enough (forall u, (i < begin u)%nat -> exists t, (t < u)%nat /\ i ∈ part_of t) as He by (rewrite <- begin_end; apply He).
  induction u as [|u IH]; intros Hi.
  - unfold BaxosSolve.begin in Hi. rewrite Nat.mul_0_r, Nat.Div0.div_0_l in Hi. lia.
  - destruct (decide (i < begin u)%nat) as [Hlt|Hge].
    + destruct (IH Hlt) as (t & ? & ?). exists t. split; [lia|done].
    + exists u. split; [lia|]. apply part_range. lia.
Qed.

Lemma decode_routine_ok t D : (t < T)%nat -> (forall i, i ∈ D -> i ∈ part_of t -> False) ->
  decode_routine avx idx junk b PP T inputs t (after update D V0) = Ok (after update (D ++ part_of t) V0).
Proof.
  intros Ht HD. unfold decode_routine. change (n * t / T)%nat with (begin t). change (n * (t + 1) / T)%nat with (begin (t + 1)).
  change (begin (t + 1) - begin t)%nat with (share t). pose proof (begin_le t (t + 1) ltac:(lia)) as Hle. pose proof (begin_le (t + 1) T ltac:(lia)) as HlT.
  rewrite begin_end in HlT. assert (begin (t + 1) = begin t + share t)%nat as Ee by (unfold BaxosSolve.share; lia).
  rewrite length_after, bool_decide_true by lia. run. set (W := after update D V0). assert (length W = n) as HlW by (unfold W; by rewrite length_after).
  set (sub := take (share t) (drop (begin t) inputs)). assert (length sub = share t) as Hls by (unfold sub; rewrite length_take, length_drop; lia).
  rewrite (ImplDecodeBatch_ok avx idx Hidx junk b PP) by (try done; rewrite length_take, length_drop, Hls; lia). run. rewrite Hls.
  f_equal. apply list_eq_total.
  { rewrite !length_app, !length_after, !length_take, !length_drop. lia. }
  intros i Hi. rewrite !length_app, !length_after, !length_take, !length_drop in Hi. rewrite after_lookup by lia.
  assert (length (take (begin t) W) = begin t) as Hlt by (rewrite length_take; lia).
  destruct (decide (i < begin t)%nat) as [H1'|H1'].
  - rewrite lookup_total_app_l, lookup_total_take, decide_True by lia. unfold W. rewrite after_lookup by lia.
    rewrite (bool_decide_ext (i ∈ D ++ part_of t) (i ∈ D)); [done|]. rewrite elem_of_app, part_range. split; [intros [?|?]; [done|lia]|by left].
  - rewrite lookup_total_app_r by lia. rewrite Hlt. destruct (decide (i < begin (t + 1))%nat) as [H2'|H2'].
    + assert (i ∈ part_of t) as Hip by (apply part_range; rewrite Nat.add_1_r in H2'; lia).
      rewrite lookup_total_app_l by (rewrite length_after, length_take, length_drop; lia).
      rewrite after_lookup by (rewrite length_take, length_drop; lia). rewrite bool_decide_true by (apply elem_of_seq; lia).
      rewrite bool_decide_true by set_solver. rewrite lookup_total_take, decide_True, lookup_total_drop by lia.
      replace (begin t + (i - begin t))%nat with i by lia. unfold W. rewrite after_fresh by (try lia; intros HiD; by apply (HD i)).
      unfold upd, sub. rewrite lookup_total_take, decide_True, lookup_total_drop by lia. by replace (begin t + (i - begin t))%nat with i by lia.
    + rewrite lookup_total_app_r, length_after, length_take, length_drop by (rewrite length_after, length_take, length_drop; lia).
      rewrite Nat.min_l, lookup_total_drop by lia. replace (begin (t + 1) + (i - begin t - share t))%nat with i by lia. unfold W. rewrite after_lookup by lia.
      rewrite (bool_decide_ext (i ∈ D ++ part_of t) (i ∈ D)); [done|]. rewrite elem_of_app, part_range. rewrite Nat.add_1_r in H2'. split; [intros [?|?]; [done|lia]|by left].
Qed.

Lemma decode_routines_ok order : order ≡ₚ seq 0 T ->
  for_each order (decode_routine avx idx junk b PP T inputs) V0 = Ok (tabulate n (fun i => update (V0 !!! i) i)).
Proof.
  intros Ho. assert (NoDup order) as Hnd by (rewrite Ho; apply NoDup_seq). apply wp_eq.
  eapply wp_mono; [apply (wp_for_each order _ (fun l V => V = after update (parts_of l) V0))|].
  - by rewrite after_nil.
  - intros l1 t l2 V E ->. assert (t ∈ order) as Hto by (rewrite E; set_solver). rewrite Ho, elem_of_seq in Hto.
    rewrite decode_routine_ok; [|lia|].
    + cbn [wp]. unfold parts_of. rewrite map_app, concat_app. cbn [map concat]. by rewrite app_nil_r.
    + intros i (u & Hu & Hiu)%elem_of_parts Hit. pose proof (part_unique i u t Hiu Hit) as ->. rewrite E in Hnd.
      apply NoDup_app in Hnd as (_ & Hnd & _). apply (Hnd t Hu). by left.
  - intros V ->. unfold after. rewrite HV0. apply tabulate_ext. intros i Hi. rewrite bool_decide_true; [done|].
    apply elem_of_parts. destruct (part_exists i Hi) as (t & Ht & Hit). exists t. split; [|done]. rewrite Ho, elem_of_seq. lia.
Qed.

End threads.

(** What a key decodes to.  With one bin the PaXoS decodes, which does not know
    the flag of the Baxos. *)
Definition value_of `{SymmetricCrypto} `{Libdivide} (avx : bool) (idx : Z) (b : Baxos) (PP : list Z) (x : Z) : Z :=
  in_bin avx idx b PP (bin_of b x) x.
Definition decoded_to `{SymmetricCrypto} `{Libdivide} (avx : bool) (idx : Z) (b : Baxos) (PP : list Z) (v x : Z) : Z :=
  if add_to_decode_ b && negb (bool_decide (num_bins_ b = 1%nat)) then Add v (value_of avx idx b PP x) else value_of avx idx b PP x.

Section whole.
Context `{SymmetricCrypto} `{LibdivideLaws} (avx : bool) (idx : Z) (Hidx : 0 <= idx <= 64) (junk : nat -> Z) (b : Baxos) (PP : list Z).
Abbreviation nb := (num_bins_ b).
Abbreviation p := (paxos_param_ b).
Abbreviation w := (Paxos.weight p).
Abbreviation sp := (Paxos.sparse_size p).
Abbreviation sz := (Paxos.size p).
Context (Hnb : (0 < nb)%nat) (Hnb64 : Z.of_nat nb < 2 ^ 64).
Context (Hwb : weight_ b = w) (Hw : (0 < w <= sp)%nat) (Hw20 : (w <= 20)%nat) (Hsp : Z.of_nat sp < 2 ^ idx - 1) (Hsp63 : Z.of_nat sp < 2 ^ 63).
Context (Hds : (0 < dense_size p)%nat) (Hdt : dt p = GF128) (HPP : length PP = (nb * sz)%nat).

Lemma ImplParDecode_ok order inputs V0 num_threads :
  order ≡ₚ seq 0 (Nat.max num_threads 1) -> length V0 = length inputs ->
  ImplParDecode avx idx junk b PP (Paxos_default (mkParam 0 0 0 0 40 GF128) 0) order inputs V0 num_threads =
    Ok (tabulate (length inputs) (fun i => decoded_to avx idx b PP (V0 !!! i) (inputs !!! i))).
Proof.
  intros Ho HV. unfold ImplParDecode, decoded_to. case_bool_decide as E1.
  - rewrite andb_false_r. unfold Paxos.Init. rewrite (proj2 (Z.ltb_lt _ _)) by done. run. rewrite (bool_decide_true (1 <= sp + _)%nat) by lia. run.
    set (px := mkPaxos p _ _ _ _ _ _ _). assert (param px = p) as Hpx by done.
    rewrite (Decode_ok avx idx Hidx 128 px PP) by (rewrite ?Hpx; try done; try lia; try congruence; rewrite HPP, E1; lia).
    f_equal. apply tabulate_ext. intros i Hi. unfold result. cbn [px Paxos.add_to_decode_]. unfold value_of, in_bin, decoded.
    assert (bin_of b (inputs !!! i) = 0%nat) as -> by (pose proof (bin_of_lt b Hnb (inputs !!! i)); lia).
    rewrite slice_whole by (rewrite HPP, E1; lia). case_bool_decide; [by apply decode32_product|done].
  - rewrite andb_true_r. rewrite decode_routines_ok by (done || lia). done.
Qed.

(** A vector that solves the bins decodes to the values. *)
Lemma value_of_solved inputs vals i x :
  length vals = length inputs -> Forall (fun x => elem (AesCrHash_Hash1 x)) inputs ->
  (forall c, (c < nb)%nat -> solved avx idx b inputs vals c PP) -> inputs !! i = Some x -> value_of avx idx b PP x = vals !!! i.
Proof.
  intros Hlv Hke Hs Hx. pose proof (bin_of_lt b Hnb x) as Hc. destruct (Hs _ Hc) as (px & Hh & Hsol). set (c := bin_of b x) in *.
  assert (i ∈ keys b inputs c) as [k Hk]%list_elem_of_lookup.
  { apply list_elem_of_filter. rewrite (list_lookup_total_correct _ _ _ Hx). split; [done|]. apply elem_of_seq. apply lookup_lt_Some in Hx. lia. }
  assert (bin_inputs b inputs c !! k = Some x) as Hkx.
  { unfold bin_inputs. rewrite lookup_map, Hk. cbn. by rewrite (list_lookup_total_correct _ _ _ Hx). }
  assert (vals !!! i = bin_values b inputs vals c !!! k) as ->.
  { symmetry. apply list_lookup_total_correct. unfold bin_values. by rewrite lookup_map, Hk. }
  rewrite <- (decode1_solves avx idx 128 p (bin_inputs b inputs c) px Hh _ (slice sz c PP) k x Hds); try done.
  - unfold value_of, in_bin, decode1. destruct Hh as [-> _]. done.
  - intros _. split; [done|]. by apply (Forall_lookup_1 _ _ _ _ Hke Hx).
Qed.
End whole.

Lemma idx_bits_range Log2Ceil b : 0 <= idx_bits Log2Ceil b <= 64.
Proof. unfold idx_bits. repeat (destruct (_ <=? _); [lia|]). lia. Qed.

(** ** The round trip *)

(** The parameters of a Baxos over GF(2^128), as [Init] sets them. *)
Record well_formed (idx : Z) (b : Baxos) : Prop := {
  wf_bins : (0 < num_bins_ b)%nat /\ Z.of_nat (num_bins_ b) < 2 ^ 64;
  wf_weight : weight_ b = Paxos.weight (paxos_param_ b) /\ (0 < weight_ b <= 20)%nat /\ (weight_ b <= Paxos.sparse_size (paxos_param_ b))%nat;
  wf_sparse : Z.of_nat (Paxos.sparse_size (paxos_param_ b)) < 2 ^ idx - 1 /\ Z.of_nat (Paxos.sparse_size (paxos_param_ b)) < 2 ^ 63;
  wf_gf128 : (0 < dense_size (paxos_param_ b))%nat /\ dt (paxos_param_ b) = GF128;
  wf_items : (items_per_bin_ b + 2 <= Paxos.sparse_size (paxos_param_ b))%nat
}.

(** The keys spread: no thread and no bin gets more than its share, no column
    too many rows, and the matrix of a bin has at most one gap row. *)
Record spread `{SymmetricCrypto} `{Libdivide} (avx : bool) (idx : Z) (GetBinSize : nat -> nat -> nat -> nat) (b : Baxos) (num_threads : nat) (inputs : list Z) : Prop := {
  sp_items : length inputs = num_items_ b;
  sp_fit t c : (t < threads num_threads)%nat -> (c < num_bins_ b)%nat ->
    (length (seg b (threads num_threads) inputs t c (share (threads num_threads) inputs t)) <= bin_capacity GetBinSize b num_threads)%nat;
  sp_room c : (c < num_bins_ b)%nat -> (length (keys b inputs c) <= items_per_bin_ b)%nat;
  sp_light c k : (c < num_bins_ b)%nat -> (column_weight avx idx (paxos_param_ b) (bin_inputs b inputs c) k < 200)%nat;
  sp_gap c px px2 t : (c < num_bins_ b)%nat -> holds avx idx (paxos_param_ b) (bin_inputs b inputs c) px -> ready idx px ->
    Triangulate idx px = Ok (px2, t) -> (length (gap_rows t) <= 1)%nat;
  sp_elem : Forall (fun x => elem (AesCrHash_Hash1 x)) inputs
}.

Lemma Solve_ok `{SymmetricCrypto} `{LibdivideLaws} avx Log2Ceil GetBinSize junk b hash_order bin_order inputs vals owns num_threads :
  well_formed (idx_bits Log2Ceil b) b -> spread avx (idx_bits Log2Ceil b) GetBinSize b num_threads inputs ->
  length vals = length inputs -> Forall elem vals ->
  hash_order ≡ₚ seq 0 (threads num_threads) -> bin_order ≡ₚ seq 0 (threads num_threads) ->
  outcome (some_bin_fails avx (idx_bits Log2Ceil b) b inputs)
    (Solve avx Log2Ceil GetBinSize junk b hash_order bin_order inputs vals (replicate (Baxos.size b) 0) owns None num_threads)
    (fun '(P, _) => length P = (num_bins_ b * Paxos.size (paxos_param_ b))%nat /\ Forall elem P /\
       forall c, (c < num_bins_ b)%nat -> solved avx (idx_bits Log2Ceil b) b inputs vals c P).
Proof.
  intros [[? ?] (Ew & ? & ?) [? ?] [? ?] ?] [] Hlv Hve Hho Hbo. unfold Solve.
  apply ImplParSolve_ok; try done; try lia. apply idx_bits_range.
Qed.

Lemma Decode_values_ok `{SymmetricCrypto} `{LibdivideLaws} avx Log2Ceil junk b PP order inputs V0 num_threads :
  well_formed (idx_bits Log2Ceil b) b -> length PP = (num_bins_ b * Paxos.size (paxos_param_ b))%nat -> length V0 = length inputs ->
  order ≡ₚ seq 0 (Nat.max num_threads 1) ->
  Decode avx Log2Ceil junk b PP order inputs V0 num_threads =
    Ok (tabulate (length inputs) (fun i => decoded_to avx (idx_bits Log2Ceil b) b PP (V0 !!! i) (inputs !!! i))).
Proof.
  intros [[? ?] (Ew & ? & ?) [? ?] [? ?] ?] HPP HV Ho. unfold Decode. apply ImplParDecode_ok; try done; try lia. apply idx_bits_range.
Qed.

(** C5.  A Baxos is an oblivious key-value store, for a GF(2^128) dense part
    ([well_formed]) and keys that [spread]: no bin and no thread gets more than its
    share, no column too many rows, and each bin has at most one gap row.  Whatever
    the number of threads and the order they run in, [Solve] returns a vector, and
    [Decode], with any number of threads, gives every key its value; it throws only
    when a bin has two keys with the same dense part or no solution.  On keys that
    do not spread the code writes outside a full bin, or, with two gap rows,
    outside the matrix it inverts. *)
Theorem Baxos_Solve_Decode `{SymmetricCrypto} `{LibdivideLaws} avx Log2Ceil GetBinSize junk b hash_order bin_order order
    inputs vals out owns num_threads num_threads' :
  well_formed (idx_bits Log2Ceil b) b -> spread avx (idx_bits Log2Ceil b) GetBinSize b num_threads inputs ->
  length vals = length inputs -> Forall elem vals -> length out = length inputs -> add_to_decode_ b = false ->
  hash_order ≡ₚ seq 0 (threads num_threads) -> bin_order ≡ₚ seq 0 (threads num_threads) -> order ≡ₚ seq 0 (Nat.max num_threads' 1) ->
  outcome (some_bin_fails avx (idx_bits Log2Ceil b) b inputs)
    ('(P, _) ← Solve avx Log2Ceil GetBinSize junk b hash_order bin_order inputs vals (replicate (Baxos.size b) 0) owns None num_threads;
     Decode avx Log2Ceil junk b P order inputs out num_threads')
    (fun decoded => decoded = vals).
Proof.
  intros Hwf Hsp Hlv Hve Hlo Hadd Hho Hbo Ho. apply outcome_bind. eapply outcome_mono; [by apply Solve_ok|].
  intros [P prng] (HP & _ & Hs). rewrite Decode_values_ok by done. cbn [outcome]. symmetry. apply eq_tabulate; [done|]. intros i Hi.
  unfold decoded_to. rewrite Hadd. cbn [andb]. symmetry. pose proof Hwf as [[? ?] (? & ? & ?) [? ?] [? ?] _]. destruct Hsp.
  apply (value_of_solved avx (idx_bits Log2Ceil b)) with (inputs := inputs); try done; try lia. by apply list_lookup_lookup_total_lt.
Qed.

(** *** Witness: six keys in two bins, three threads and two *)
Lemma few_keys_gap `{SymmetricCrypto} `{Libdivide} avx idx p xs px px2 t :
  0 <= idx -> (0 < Paxos.weight p)%nat -> (length xs + 2 <= Paxos.sparse_size p)%nat -> Z.of_nat (Paxos.sparse_size p) < 2 ^ idx ->
  holds avx idx p xs px -> ready idx px -> Triangulate idx px = Ok (px2, t) -> (length xs <= 2)%nat -> (length (gap_rows t) <= 1)%nat.
Proof.
  intros Hidx Hw Hn Hsp (Hp & HN & _ & _ & Hwf & Hc) Hr Et Hl.
  assert (outcome (~ NoDup (dense_ px)) (Triangulate idx px) (fun '(px', t) => px' = with_sets (tri_sets t) px /\ triangular px t)) as Htri
    by (apply Triangulate_triangular; rewrite ?Hp, ?HN; (done || lia)).
  rewrite Et in Htri. destruct Htri as [_ Ht]. pose proof (tr_rows px t Ht) as HP%Permutation_length.
  rewrite length_app, length_seq, length_fmap, HN in HP. destruct (gap_rows t) as [|r l] eqn:E; [cbn; lia|].
  pose proof (tr_gap px t Ht) as HF. rewrite E in HF. apply Forall_cons in HF as [(_ & k & Hk & _) _]. apply lookup_lt_Some in Hk. cbn in *. lia.
Qed.

Definition toy_baxos : Baxos := mkBaxos 4 2 3 3 40 (mkParam 7 2 3 3 40 GF128) false.
Definition toy_inputs : list Z := [1; 2; 3; 4].
Definition toy_baxos_values : list Z := [7; 8; 9; 10].
Definition toy_bin_size (_ _ _ : nat) : nat := 2.
Definition toy_baxos_run : res (list Z) :=
  '(P, _) ← @Solve toy_crypto plain_libdivide true Z.log2_up toy_bin_size (fun _ => 7) toy_baxos [1; 0; 2]%nat [2; 0; 1]%nat
              toy_inputs toy_baxos_values (replicate (Baxos.size toy_baxos) 0) false None 3;
  @Decode toy_crypto plain_libdivide true Z.log2_up (fun _ => 7) toy_baxos P [1; 0]%nat toy_inputs [0; 0; 0; 0] 2.

Lemma toy_well_formed : well_formed (idx_bits Z.log2_up toy_baxos) toy_baxos.
Proof. change (idx_bits Z.log2_up toy_baxos) with 8. constructor; cbn; lia || (split; [lia|reflexivity]). Qed.

Lemma toy_elems xs : forallb (fun x => (0 <=? @AesCrHash_Hash1 toy_crypto x) && (@AesCrHash_Hash1 toy_crypto x <? 2 ^ 128)) xs = true ->
  Forall (fun x => elem (@AesCrHash_Hash1 toy_crypto x)) xs.
Proof.
  intros E. apply Forall_forall. intros x Hx. rewrite forallb_forall in E. specialize (E x ltac:(by apply list_elem_of_In)).
  apply andb_prop in E as [H1 H2]. split; [by apply Z.leb_le|by apply Z.ltb_lt].
Qed.

Lemma toy_spread : @spread toy_crypto plain_libdivide true (idx_bits Z.log2_up toy_baxos) toy_bin_size toy_baxos 3 toy_inputs.
Proof.
  change (idx_bits Z.log2_up toy_baxos) with 8.
  assert (forall c, (c < 2)%nat -> (length (@keys toy_crypto toy_baxos toy_inputs c) <= 2)%nat) as Hk.
  { intros c Hc. destruct c as [|[|c]]; [apply Nat.leb_le; vm_compute; reflexivity..|lia]. }
  assert (forall c, (c < 2)%nat -> (length (@bin_inputs toy_crypto toy_baxos toy_inputs c) <= 2)%nat) as Hb.
  { intros c Hc. rewrite length_bin_inputs. by apply Hk. }
  constructor.
  - reflexivity.
  - intros t c Ht Hc. cbn in Hc. destruct t as [|[|[|t]]]; [| | |cbn in Ht; lia]; (destruct c as [|[|c]]; [apply Nat.leb_le; vm_compute; reflexivity..|lia]).
  - intros c Hc. specialize (Hk c Hc). cbn [toy_baxos items_per_bin_]. lia.
  - intros c k Hc. specialize (Hb c Hc). unfold column_weight. eapply Nat.le_lt_trans; [apply length_filter|]. lia.
  - intros c px px2 t Hc Hh Hr Et. specialize (Hb c Hc). eapply (few_keys_gap true 8 (paxos_param_ toy_baxos)); try done;
      try change (Paxos.sparse_size (paxos_param_ toy_baxos)) with 7%nat; try change (Paxos.weight (paxos_param_ toy_baxos)) with 3%nat; lia.
  - apply toy_elems. vm_compute. reflexivity.
Qed.

Lemma Baxos_Solve_Decode_witness :
  is_ok toy_baxos_run = true /\
  outcome (@some_bin_fails toy_crypto plain_libdivide true (idx_bits Z.log2_up toy_baxos) toy_baxos toy_inputs) toy_baxos_run
    (fun decoded => decoded = toy_baxos_values).
Proof.
  split; [vm_compute; reflexivity|].
  apply (@Baxos_Solve_Decode toy_crypto plain_libdivide plain_libdivide_laws true Z.log2_up toy_bin_size (fun _ => 7) toy_baxos [1; 0; 2]%nat [2; 0; 1]%nat
    [1; 0]%nat toy_inputs toy_baxos_values [0; 0; 0; 0] false 3 2); try reflexivity.
  - exact toy_well_formed.
  - exact toy_spread.
  - repeat constructor; discriminate.
  - change (seq 0 (threads 3)) with [0; 1; 2]%nat. apply Permutation_swap.
  - change (seq 0 (threads 3)) with [0; 1; 2]%nat. etransitivity; [apply Permutation_swap|]. apply Permutation_skip, Permutation_swap.
  - apply Permutation_swap.
Defined.
