(* ===== verification/Rr22Oprf.v ===== *)
(** * The RR22 oblivious PRF (psi/algorithm/rr22/rr22_oprf, davis_meyer_hash, rr22_utils)

    From a vector OLE [b = c + delta * a] the sender, who has [delta] and [b],
    and the receiver, who has [a] and [c], get a common function on the keys.  The
    receiver solves a Baxos (in the low communication mode a PaXoS) for the hashes
    of its keys and sends the vector under the pad [a].  The sender adds [delta]
    times what it gets to [b] and can decode any key; the receiver decodes its own
    keys from [c].

    The vector OLE, the random oracle and the ciphers are yacl's: arguments. *)
From S2P Require Import Prelude Galois PaxosHash WeightData DenseMtx Combination Paxos PaxosInput PaxosEncode Baxos.

Inductive Rr22PsiMode := FastMode | LowCommMode.
#[export] Instance Rr22PsiMode_eq_dec : EqDecision Rr22PsiMode.
Proof. solve_decision. Defined.

(** ** The Davis-Meyer hash *)

(** AES with a key for each block, and [ParaEnc] on eight blocks. *)
Class BlockCipher := {
  Aes : Z -> Z -> Z;
  ParaEnc : list Z -> list Z -> list Z
}.
Class BlockCipherLaws `{BlockCipher} := {
  ParaEnc_lanes values keys : length values = 8%nat -> length keys = 8%nat -> ParaEnc values keys = zip_with Aes keys values
}.

(** A source span may be the span that is written. *)
Definition source (src : option (list Z)) (dst : list Z) : list Z := default dst src.

Section hashes.
Context `{BlockCipher} (avx : bool).

Definition DavisMeyerHash1 (key value : Z) : Z := Z.lxor (Aes key value) value.

Definition DavisMeyerHash (key : option (list Z)) (value outputs : list Z) : res (list Z) :=
  let n := length (source key outputs) in
  _ ← enforce (bool_decide (n = length value));
  let one i outputs :=
    k ← vget (source key outputs) i; v ← vget value i; vset outputs i (DavisMeyerHash1 k v) in
  if avx then
    let batches := (n / 8)%nat in
    outputs ← for_ batches (fun b outputs =>
      let i := (b * 8)%nat in
      let para_keys := take 8 (drop i (source key outputs)) in
      let para_values := ParaEnc (take 8 (drop i value)) para_keys in
      xor_out 8 i para_values value outputs) outputs;
    for_ (n - batches * 8) (fun k => one (batches * 8 + k)%nat) outputs
  else for_ n one outputs.

(** [AesCrHash::Hash] of a span into itself. *)
Definition xor_self (n off : nat) (enc_outputs text : list Z) : res (list Z) :=
  for_ n (fun j text => e ← vget enc_outputs j; p ← vget text (off + j)%nat; vset text (off + j)%nat (Z.lxor e p)) text.
Definition Hash_self `{SymmetricCrypto} (text : list Z) : res (list Z) :=
  let batches := (length text / kBatchSize)%nat in
  let batch_max_index := (batches * kBatchSize)%nat in
  text ← for_ batches (fun b text =>
    let i := (b * kBatchSize)%nat in
    xor_self kBatchSize i (Encrypt_all (take kBatchSize (drop i text))) text) text;
  if bool_decide (batch_max_index < length text)%nat
  then xor_self (length text - batch_max_index) batch_max_index (Encrypt_all (drop batch_max_index text)) text
  else Ok text.
End hashes.

(** ** Vectors in chunks *)
Definition kSendChunkSize : nat := Z.to_nat 100000.

Section chunks.
Context (chunk : nat).
Fixpoint send_chunks (fuel : nat) (l : list Z) : list (list Z) :=
  match fuel with
  | O => []
  | S fuel' => match l with [] => [] | _ => take chunk l :: send_chunks fuel' (drop chunk l) end
  end.
Definition SendChunked (l : list Z) : list (list Z) := send_chunks (length l) l.

(** [while (recv_item_count < paxos_size)], on the messages that arrive; to wait
    for one that never does is no outcome. *)
Fixpoint recv_chunks (msgs : list (list Z)) (size count : nat) (buf : list Z) : res (list Z * nat) :=
  if bool_decide (count < size)%nat then
    match msgs with
    | [] => UB
    | m :: msgs' =>
        _ ← defined (bool_decide (count + length m <= length buf)%nat);
        recv_chunks msgs' size (count + length m) (take count buf ++ m ++ drop (count + length m) buf)
    end
  else Ok (buf, count).
Definition RecvChunked (msgs : list (list Z)) (paxos_size : nat) : res (list Z) :=
  '(v, count) ← recv_chunks msgs paxos_size 0 (replicate paxos_size 0);
  _ ← enforce (bool_decide (count = paxos_size));
  Ok v.
End chunks.

(** ** The parties *)

(** What a vector OLE gives the two parties. *)
Record Vole := mkVole { vole_delta : Z; vole_b : list Z; vole_a : list Z; vole_c : list Z }.

Record Rr22OprfSender := mkSender {
  s_mode : Rr22PsiMode;
  s_malicious : bool;
  s_num_threads : nat;
  s_baxos : Baxos;
  s_paxos : Paxos;
  s_paxos_size : nat;
  s_delta : Z;
  s_b : list Z;
  s_w : Z
}.
Record Rr22OprfReceiver := mkReceiver {
  r_mode : Rr22PsiMode;
  r_malicious : bool;
  r_num_threads : nat;
  r_baxos : Baxos;
  r_paxos : Paxos;
  r_a : list Z;
  r_c : list Z
}.

(** The constructors. *)
Definition check_mode (mode : Rr22PsiMode) (malicious : bool) : res unit :=
  enforce (negb (malicious && bool_decide (mode = LowCommMode))).

(** [paxos_size_], and the length of the vectors. *)
Definition store_size (mode : Rr22PsiMode) (b : Baxos) (px : Paxos) : nat :=
  match mode with FastMode => Baxos.size b | LowCommMode => Paxos.size (param px) end.
Definition v_size (mode : Rr22PsiMode) (b : Baxos) (px : Paxos) : nat := Nat.max 256 (store_size mode b px).

(** [Init], for a Baxos and a PaXoS of the receiver's size and a vector OLE; the
    seed the receiver sends makes them the same for both. *)
Definition Sender_Init (mode : Rr22PsiMode) (malicious : bool) (num_threads : nat) (b : Baxos) (px : Paxos) (vole : nat -> Vole) : res Rr22OprfSender :=
  _ ← check_mode mode malicious;
  let v := vole (v_size mode b px) in
  Ok (mkSender mode malicious num_threads b px (store_size mode b px) (vole_delta v) (vole_b v) 0).
Definition Receiver_Init (mode : Rr22PsiMode) (malicious : bool) (num_threads : nat) (b : Baxos) (px : Paxos) (vole : nat -> Vole) : res Rr22OprfReceiver :=
  _ ← check_mode mode malicious;
  let v := vole (v_size mode b px) in
  Ok (mkReceiver mode malicious num_threads b px (vole_a v) (vole_c v)).

Section oprf.
Context `{SymmetricCrypto} `{Libdivide} `{BlockCipher} (avx : bool) (Log2Ceil : Z -> Z) (GetBinSize : nat -> nat -> nat -> nat) (junk : nat -> Z).
(** The cipher under [kAesHashSeed]; the store's is under its own seed. *)
Context (OprfEncrypt : Z -> Z).
(** SHA-256 of a seed. *)
Context (ro : Z -> list Z).

Definition oprf_crypto : SymmetricCrypto := Build_SymmetricCrypto OprfEncrypt.
(** [aes_crhash.Hash] of one key. *)
Definition key_hash (x : Z) : Z := @AesCrHash_Hash1 oprf_crypto x.
(** The value of a key in the store: in the low communication mode its low word. *)
Definition key_value (mode : Rr22PsiMode) (x : Z) : Z :=
  match mode with FastMode => key_hash x | LowCommMode => u64 (key_hash x) end.

(** Threads over disjoint parts of [outputs]. *)
Definition HashInputMulDelta (mode : Rr22PsiMode) (delta : Z) (inputs : list Z) : res (list Z) :=
  for_ (length inputs) (fun i hash_outputs =>
    x ← vget inputs i; vset hash_outputs i (Mul avx delta (key_value mode x))) (replicate (length inputs) 0).

(** The last step of both parties. *)
Definition finish (malicious : bool) (inputs outputs : list Z) : res (list Z) :=
  if malicious then DavisMeyerHash avx None inputs outputs else @Hash_self oprf_crypto outputs.

(** *** The sender *)

(** [b_[idx] ^ delta * solve[idx]]. *)
Definition add_delta (delta : Z) (solve b : list Z) : res (list Z) :=
  for_ (length solve) (fun i b => p ← vget solve i; y ← vget b i; vset b i (Z.lxor y (Mul avx delta p))) b.

(** [Send]: its messages are the hash of [ws] and [ws], it gets [wr] and the
    receiver's vector. *)
Definition Send (s : Rr22OprfSender) (inputs : list Z) (ws wr : Z) (msgs : list (list Z)) : res (list Z * Rr22OprfSender) :=
  outputs ← HashInputMulDelta (s_mode s) (s_delta s) inputs;
  let w := if s_malicious s then Z.lxor wr ws else s_w s in
  solve ← RecvChunked msgs (s_paxos_size s);
  b ← add_delta (s_delta s) solve (s_b s);
  Ok (outputs, mkSender (s_mode s) (s_malicious s) (s_num_threads s) (s_baxos s) (s_paxos s) (s_paxos_size s) (s_delta s) b w).

(** [Decode] of the store, whichever it is. *)
Definition store_decode (mode : Rr22PsiMode) (b : Baxos) (px : Paxos) (num_threads : nat) (order : list nat) (inputs outputs vec : list Z) : res (list Z) :=
  match mode with
  | FastMode => Baxos.Decode avx Log2Ceil junk b vec order inputs outputs num_threads
  | LowCommMode => PaxosEncode.Decode avx 32 128 px inputs outputs vec
  end.

(** [Eval], with the hashes of the inputs or without. *)
Definition clear_b (s : Rr22OprfSender) : Rr22OprfSender :=
  mkSender (s_mode s) (s_malicious s) (s_num_threads s) (s_baxos s) (s_paxos s) (s_paxos_size s) (s_delta s) [] (s_w s).
Definition Eval (s : Rr22OprfSender) (order : list nat) (inputs : list Z) : res (list Z * Rr22OprfSender) :=
  _ ← enforce (bool_decide (0 < length (s_b s))%nat);
  outputs ← store_decode (s_mode s) (s_baxos s) (s_paxos s) (s_num_threads s) order inputs (replicate (length inputs) 0)
              (take (s_paxos_size s) (s_b s));
  outputs ← for_ (length inputs) (fun i outputs =>
    x ← vget inputs i; y ← vget outputs i;
    let y := Z.lxor y (Mul avx (s_delta s) (key_value (s_mode s) x)) in
    vset outputs i (if s_malicious s && bool_decide (s_mode s = FastMode) then Z.lxor y (s_w s) else y)) outputs;
  outputs ← finish (s_malicious s) inputs outputs;
  Ok (outputs, clear_b s).
Definition Eval_hashed (s : Rr22OprfSender) (order : list nat) (inputs inputs_hash : list Z) : res (list Z * Rr22OprfSender) :=
  _ ← enforce (bool_decide (0 < length (s_b s))%nat);
  outputs ← store_decode (s_mode s) (s_baxos s) (s_paxos s) (s_num_threads s) order inputs (replicate (length inputs) 0)
              (take (s_paxos_size s) (s_b s));
  outputs ← for_ (length inputs) (fun i outputs =>
    h ← vget inputs_hash i; y ← vget outputs i;
    let y := Z.lxor y h in
    vset outputs i (if s_malicious s then Z.lxor y (s_w s) else y)) outputs;
  outputs ← finish (s_malicious s) inputs outputs;
  Ok (outputs, clear_b s).

(** *** The receiver *)
Definition clear_vole (px : Paxos) (r : Rr22OprfReceiver) : Rr22OprfReceiver :=
  mkReceiver (r_mode r) (r_malicious r) (r_num_threads r) (r_baxos r) px [] [].

(** The vector under the pad. *)
Definition add_pad (a p : list Z) : res (list Z) :=
  for_ (length p) (fun i p => x ← vget p i; y ← vget a i; vset p i (Z.lxor x y)) p.

(** [RecvFast]: it gets the hash of [ws] and [ws], and sends [wr] and the vector. *)
Definition RecvFast (r : Rr22OprfReceiver) (hash_order bin_order order : list nat) (inputs : list Z) (wr : Z) (ws_hash : list Z) (ws : Z)
    : res (list Z * list (list Z) * Rr22OprfReceiver) :=
  let b := r_baxos r in
  _ ← (if r_malicious r then enforce (bool_decide (length ws_hash = 32%nat)) else Ok tt);
  outputs ← @AesCrHash_Hash oprf_crypto inputs (replicate (length inputs) 0);
  '(p, _) ← Baxos.Solve avx Log2Ceil GetBinSize junk b hash_order bin_order inputs outputs (replicate (Baxos.size b) 0) false None (r_num_threads r);
  w ← (if r_malicious r then _ ← enforce (bool_decide (ro ws = ws_hash)); Ok (Z.lxor wr ws) else Ok 0);
  outputs ← Baxos.Decode avx Log2Ceil junk b (take (Baxos.size b) (r_c r)) order inputs outputs (r_num_threads r);
  outputs ← (if r_malicious r then
    for_ (length outputs) (fun i outputs => y ← vget outputs i; vset outputs i (Z.lxor y w)) outputs else Ok outputs);
  outputs ← finish (r_malicious r) inputs outputs;
  p ← add_pad (r_a r) p;
  Ok (outputs, SendChunked kSendChunkSize p, clear_vole (r_paxos r) r).

Definition RecvLowComm (r : Rr22OprfReceiver) (inputs : list Z) : res (list Z * list (list Z) * Rr22OprfReceiver) :=
  let px := r_paxos r in
  let outputs := map key_hash inputs in
  let outputs_u64 := map u64 outputs in
  px ← SetInput avx 32 inputs px;
  '(px, p, _) ← EncodeU64 avx 32 outputs_u64 (replicate (Paxos.size (param px)) 0) false None px;
  outputs ← PaxosEncode.Decode avx 32 128 px inputs outputs (take (Paxos.size (param px)) (r_c r));
  outputs ← @Hash_self oprf_crypto outputs;
  p ← add_pad (r_a r) p;
  Ok (outputs, SendChunked kSendChunkSize p, clear_vole px r).

Definition Recv (r : Rr22OprfReceiver) (hash_order bin_order order : list nat) (inputs : list Z) (wr : Z) (ws_hash : list Z) (ws : Z)
    : res (list Z * list (list Z) * Rr22OprfReceiver) :=
  match r_mode r with
  | FastMode => RecvFast r hash_order bin_order order inputs wr ws_hash ws
  | LowCommMode => RecvLowComm r inputs
  end.

(** *** A run: what the receiver outputs for its keys, the sender for its own *)
Record Orders := mkOrders { o_hash : list nat; o_bin : list nat; o_recv : list nat; o_send : list nat }.
Definition oprf_run (mode : Rr22PsiMode) (malicious : bool) (threads_s threads_r : nat) (b : Baxos) (px : Paxos) (vole : nat -> Vole)
    (o : Orders) (ws wr : Z) (xs ys : list Z) : res (list Z * list Z) :=
  s ← Sender_Init mode malicious threads_s b px vole;
  r ← Receiver_Init mode malicious threads_r b px vole;
  '(outs, msgs, _) ← Recv r (o_hash o) (o_bin o) (o_recv o) xs wr (ro ws) ws;
  '(hashes, s) ← Send s ys ws wr msgs;
  '(evals, _) ← Eval_hashed s (o_send o) ys hashes;
  Ok (outs, evals).
End oprf.
