(* ===== verification/Rr22OprfProofs.v ===== *)
(** * The RR22 oblivious PRF: the parties agree (psi/algorithm/rr22/rr22_oprf)

    In the fast mode the receiver's outputs for its keys and the sender's outputs
    for its own are values of one function of the key. *)
From S2P Require Import Prelude Galois PaxosHash WeightData DenseMtx Combination Paxos PaxosInput PaxosEncode PaxosSolve PaxosDense PaxosBackfill PaxosDecode PaxosReuse Baxos BaxosSolve BaxosBins BaxosDecode Rr22Oprf.

(** ** The last step: hashing the outputs in place *)
Section hashes.
Context `{BlockCipherLaws}.

Lemma DavisMeyerHash_self avx values outputs : length values = length outputs ->
  DavisMeyerHash avx None values outputs = Ok (zip_with DavisMeyerHash1 outputs values).
Proof.
  intros Hl. unfold DavisMeyerHash. cbn [source default]. rewrite bool_decide_true by done. run. set (n := length outputs).
  assert (zip_with DavisMeyerHash1 outputs values = tabulate n (fun i => DavisMeyerHash1 (outputs !!! i) (values !!! i))) as ->.
  { apply eq_tabulate; [rewrite length_zip_with; lia|]. intros i Hi. apply list_lookup_total_correct. rewrite lookup_zip_with.
    rewrite (list_lookup_lookup_total_lt outputs i), (list_lookup_lookup_total_lt values i) by lia. done. }
  set (F := fun i => DavisMeyerHash1 (outputs !!! i) (values !!! i)). apply wp_eq.
  assert (outputs = tabulate n (switch 0 F (fun i => outputs !!! i))) as Eo by (rewrite <- tabulate_switch_0; by apply eq_tabulate).
  assert (forall i o, (i < n)%nat -> o = tabulate n (switch i F (fun i => outputs !!! i)) ->
    wp (k ← vget o i; v ← vget values i; vset o i (DavisMeyerHash1 k v)) (fun o => o = tabulate n (switch (S i) F (fun i => outputs !!! i)))) as Hone.
  { intros i o Hi ->. rewrite tabulate_vget by done. run. rewrite (vget_total values) by lia. run. rewrite tabulate_vset by done. cbn [wp].
    rewrite switch_self. exact (insert_switch n i F (fun i => outputs !!! i)). }
  destruct avx.
  - set (b := (n / 8)%nat). pose proof (Nat.div_mod_eq n 8) as Hd. fold b in Hd. apply wp_bind.
    apply (wp_for _ _ (fun k o => o = tabulate n (switch (k * 8) F (fun i => outputs !!! i)))).
    + exact Eo.
    + intros k o Hk ->. assert (k * 8 + 8 <= n)%nat as Hk8 by lia. set (o := tabulate n _).
      assert (length o = n) as Hlo by apply length_tabulate.
      rewrite ParaEnc_lanes by (rewrite length_take, length_drop; lia). eapply wp_mono; [apply xor_out_spec|].
      * rewrite length_zip_with, !length_take, !length_drop. lia.
      * lia.
      * lia.
      * intros o' [Hlo' Ho']. apply eq_tabulate; [lia|]. intros i Hi. rewrite Ho'. replace (S k * 8)%nat with (k * 8 + 8)%nat by lia.
        case_bool_decide as Hb.
        -- unfold switch. rewrite bool_decide_true by lia. unfold F, DavisMeyerHash1. f_equal. apply list_lookup_total_correct.
           rewrite lookup_zip_with, !lookup_take_lt, !lookup_drop by lia. replace (k * 8 + (i - k * 8))%nat with i by lia.
           rewrite (list_lookup_lookup_total_lt o i), (list_lookup_lookup_total_lt values i) by lia. cbn. do 2 f_equal.
           unfold o. rewrite tabulate_lookup by lia. unfold switch. by rewrite bool_decide_false by lia.
        -- unfold o. rewrite tabulate_lookup by lia. unfold switch. rewrite (bool_decide_ext (i < k * 8)%nat (i < k * 8 + 8)%nat); [done|lia].
    + intros o ->. apply (wp_for _ _ (fun k o => o = tabulate n (switch (b * 8 + k) F (fun i => outputs !!! i)))).
      * by rewrite Nat.add_0_r.
      * intros k o Hk Ho. rewrite Nat.add_succ_r. apply Hone; [lia|done].
      * intros o ->. replace (b * 8 + (n - b * 8))%nat with n by lia. apply tabulate_switch_n.
  - apply (wp_for _ _ (fun k o => o = tabulate n (switch k F (fun i => outputs !!! i)))); [exact Eo|exact Hone|].
    intros o ->. apply tabulate_switch_n.
Qed.
End hashes.

Lemma Hash_self_map `{SymmetricCrypto} text : Hash_self text = Ok (map AesCrHash_Hash1 text).
Proof.
  set (n := length text). set (F := fun i => AesCrHash_Hash1 (text !!! i)). set (G := fun i => text !!! i).
  assert (map AesCrHash_Hash1 text = tabulate n F) as ->.
  { apply eq_tabulate; [apply length_map|]. intros i Hi. by rewrite (list_lookup_total_fmap _ text) by done. }
  assert (text = tabulate n (switch 0 F G)) as Et by (rewrite <- tabulate_switch_0; by apply eq_tabulate).
  assert (forall m off, (off + m <= n)%nat ->
    let t := tabulate n (switch off F G) in xor_self m off (Encrypt_all (take m (drop off t))) t = Ok (tabulate n (switch (off + m) F G))) as Hx.
  { intros m off Hm t. set (enc := Encrypt_all _). unfold xor_self.
    rewrite (for_ext m _ (fun j => (fun i text => e ← vget enc (i - off)%nat; p ← vget text i; vset text i (Z.lxor e p)) (off + j)%nat))
      by (intros j s Hj; cbn beta; by replace (off + j - off)%nat with j by lia).
    apply (for_block (fun i text => e ← vget enc (i - off)%nat; p ← vget text i; vset text i (Z.lxor e p)) (fun t => t)).
    intros i Hi. assert (vget enc (i - off) = Ok (Encrypt (G i))) as ->.
    { apply vget_ok. unfold enc, Encrypt_all. rewrite lookup_map, lookup_take_lt, lookup_drop by lia. replace (off + (i - off))%nat with i by lia.
      unfold t. rewrite list_lookup_lookup_total_lt by (rewrite length_tabulate; lia). rewrite tabulate_lookup by lia. cbn.
      unfold switch. by rewrite bool_decide_false by lia. }
    run. rewrite tabulate_vget by lia. run. rewrite tabulate_vset by lia. by rewrite switch_self. }
  unfold Hash_self. fold n. set (b := (n / kBatchSize)%nat). assert (kBatchSize = 8%nat) as E8 by done.
  pose proof (Nat.div_mod_eq n kBatchSize) as Hd. fold b in Hd. pose proof (Nat.mod_upper_bound n kBatchSize ltac:(lia)) as Hm.
  apply wp_eq, wp_bind. apply (wp_for _ _ (fun k t => t = tabulate n (switch (k * kBatchSize) F G))).
  - exact Et.
  - intros k t Hk ->. rewrite Hx by lia. cbn [wp]. do 2 f_equal. lia.
  - intros t ->. rewrite length_tabulate. case_bool_decide as Hlt.
    + rewrite <- (take_ge (drop (b * kBatchSize) (tabulate n _)) (n - b * kBatchSize)) by (rewrite length_drop, length_tabulate; lia).
      rewrite Hx by lia. cbn [wp]. replace (b * kBatchSize + (n - b * kBatchSize))%nat with n by lia. apply tabulate_switch_n.
    + cbn [wp]. replace (b * kBatchSize)%nat with n by lia. apply tabulate_switch_n.
Qed.

(** ** Chunks *)
Section chunks.
Context (chunk : nat) (Hchunk : (0 < chunk)%nat).

Lemma recv_sent : forall fuel l done size, (length l <= fuel)%nat -> size = (length done + length l)%nat ->
  recv_chunks (send_chunks chunk fuel l) size (length done) (done ++ replicate (length l) 0) = Ok (done ++ l, size).
Proof.
  induction fuel as [|fuel IH]; intros l done size Hl ->; cbn [send_chunks recv_chunks].
  - assert (l = []) as -> by (apply length_zero_iff_nil; lia). cbn. rewrite bool_decide_false by lia. by rewrite Nat.add_0_r.
  - destruct l as [|x l]; [cbn [recv_chunks length]; rewrite bool_decide_false by lia; by rewrite Nat.add_0_r|].
    set (l1 := x :: l) in *. assert (0 < length l1)%nat as H1 by (cbn; lia). cbn [recv_chunks]. rewrite bool_decide_true by lia.
    rewrite (bool_decide_true (_ <= _)%nat) by (rewrite length_app, length_take, length_replicate; lia). run.
    assert (length (take chunk l1) = Nat.min chunk (length l1)) as Ht by apply length_take.
    rewrite (take_app_length' _ _ (length done)) by done. rewrite (drop_app_ge _ _ (length done + _)) by lia. rewrite drop_replicate.
    replace (length l1 - (length done + length (take chunk l1) - length done))%nat with (length (drop chunk l1)) by (rewrite length_drop; lia).
    rewrite app_assoc, <- (length_app done (take chunk l1)).
    rewrite IH.
    + rewrite <- app_assoc, take_drop. done.
    + rewrite length_drop. cbn in *. lia.
    + rewrite length_app, length_drop. lia.
Qed.

Lemma RecvChunked_SendChunked l : RecvChunked (SendChunked chunk l) (length l) = Ok l.
Proof.
  unfold RecvChunked, SendChunked. pose proof (recv_sent (length l) l [] (length l) ltac:(lia) eq_refl) as Hr. cbn [app length] in Hr.
  rewrite Hr. run. by rewrite bool_decide_true.
Qed.
End chunks.

(** ** What a vector of field elements decodes to *)
Section values.
Context `{SymmetricCrypto} `{Libdivide} (avx : bool) (idx : Z) (b : Baxos) (P : list Z).
Abbreviation p := (paxos_param_ b).
Context (HP : Forall elem P) (Hdt : dt p = GF128) (HlP : length P = (num_bins_ b * Paxos.size p)%nat).

Lemma value_of_elem x : 0 <= idx <= 64 -> (0 < Paxos.weight p <= Paxos.sparse_size p)%nat -> Z.of_nat (Paxos.sparse_size p) < 2 ^ idx ->
  (0 < num_bins_ b)%nat -> elem (AesCrHash_Hash1 x) -> elem (value_of avx idx b P x).
Proof.
  intros Hidx Hw Hsp Hnb Hx. destruct (key_row_ok avx idx Hidx p ltac:(lia) Hsp x) as (_ & _ & HF).
  pose proof (bin_of_lt b Hnb x) as Hc. pose proof (part_bound (Paxos.size p) _ _ Hc) as Hb.
  assert (forall k, (k < Paxos.size p)%nat -> elem (slice (Paxos.size p) (bin_of b x) P !!! k)) as HPe.
  { intros k Hk. unfold slice. apply (Forall_lookup_total_1 (fun y => elem y)); [by apply Forall_take, Forall_drop|].
    rewrite length_take, length_drop. lia. }
  unfold value_of, product. cbn zeta. apply lxor_elem; apply xors_elem, Forall_fmap, Forall_forall; intros k Hk.
  - apply (proj1 (Forall_forall _ _) HF) in Hk. apply HPe. unfold Paxos.size. lia.
  - apply elem_of_seq in Hk. cbn. unfold dense_term. rewrite bool_decide_true by done.
    assert (elem (power avx (AesCrHash_Hash1 x) k)) as Hp by (by apply power_elem).
    specialize (HPe (Paxos.sparse_size p + k)%nat ltac:(unfold Paxos.size; lia)).
    rewrite Mul_gmul by done. rewrite wrap_small by (by apply gmul_elem). by apply gmul_elem.
Qed.
End values.

(** ** Decoding is linear over GF(2^128) *)
Section linear.
Context `{SymmetricCrypto} `{Libdivide} (avx : bool) (idx : Z) (b : Baxos) (delta : Z) (B C P : list Z).
Abbreviation p := (paxos_param_ b).
Abbreviation nb := (num_bins_ b).
Abbreviation sz := (Paxos.size p).
Context (Hdelta : elem delta) (HC : Forall elem C) (HP : Forall elem P) (Hdt : dt p = GF128).
Context (HlB : length B = (nb * sz)%nat) (HlC : length C = (nb * sz)%nat) (HlP : length P = (nb * sz)%nat).
Context (Hrel : forall i, (i < nb * sz)%nat -> B !!! i = Z.lxor (C !!! i) (gmul delta (P !!! i))).

Lemma slice_total c k V : (k < sz)%nat -> slice sz c V !!! k = V !!! (sz * c + k)%nat.
Proof. intros Hk. rewrite !list_lookup_total_alt. by rewrite bin_slice_lookup. Qed.
Lemma slice_elem c V : Forall elem V -> Forall elem (slice sz c V).
Proof. intros HV. by apply Forall_take, Forall_drop. Qed.
Lemma slice_rel c k : (c < nb)%nat -> (k < sz)%nat ->
  slice sz c B !!! k = Z.lxor (slice sz c C !!! k) (gmul delta (slice sz c P !!! k)) /\ elem (slice sz c C !!! k) /\ elem (slice sz c P !!! k).
Proof.
  intros Hc Hk. pose proof (part_bound sz c nb Hc) as Hb. rewrite !slice_total by done.
  split; [apply Hrel; lia|]. split; [apply (Forall_lookup_total_1 _ _ _ HC)|apply (Forall_lookup_total_1 _ _ _ HP)]; lia.
Qed.

Lemma xors_linear {A} (f g h : A -> Z) l :
  Forall (fun x => f x = Z.lxor (g x) (gmul delta (h x)) /\ elem (h x)) l ->
  xors (map f l) = Z.lxor (xors (map g l)) (gmul delta (xors (map h l))).
Proof.
  intros HF. rewrite gmul_xors; [|done|by eapply Forall_impl; [exact HF|]; intros x []].
  rewrite <- xors_lxor. apply xors_ext. intros x Hx. apply (proj1 (Forall_forall _ _) HF) in Hx. by destruct Hx.
Qed.

Lemma product_linear c rows d : (c < nb)%nat -> good_row p rows -> elem d -> 
  product avx 128 p (slice sz c B) rows d = Z.lxor (product avx 128 p (slice sz c C) rows d) (gmul delta (product avx 128 p (slice sz c P) rows d)).
Proof.
  intros Hc [_ Hr] Hd. assert (forall k, dt p = GF128 -> elem (power avx d k)) as Hpow by (intros; by apply power_elem).
  assert (forall V k, elem (V !!! (Paxos.sparse_size p + k)%nat) -> dense_term avx 128 p V d k = gmul (V !!! (Paxos.sparse_size p + k)%nat) (power avx d k)) as Hterm.
  { intros V k HV. unfold dense_term. rewrite bool_decide_true by done. rewrite Mul_gmul by (done || by apply Hpow). apply wrap_small. by apply gmul_elem; [|apply Hpow]. }
  set (h1 := fun x => slice sz c P !!! x). set (h2 := dense_term avx 128 p (slice sz c P) d).
  assert (Forall (fun x => slice sz c B !!! x = Z.lxor (slice sz c C !!! x) (gmul delta (h1 x)) /\ elem (h1 x)) rows) as H1'.
  { eapply Forall_impl; [exact Hr|]. cbn. intros x Hx. destruct (slice_rel c x Hc) as (? & ? & ?); [unfold Paxos.size; lia|]. done. }
  assert (Forall (fun k => dense_term avx 128 p (slice sz c B) d k = Z.lxor (dense_term avx 128 p (slice sz c C) d k) (gmul delta (h2 k)) /\ elem (h2 k))
    (seq 0 (dense_size p))) as H2'.
  { apply Forall_forall. intros k Hk%elem_of_seq. destruct (slice_rel c (Paxos.sparse_size p + k)%nat Hc) as (E & HCe & HPe); [unfold Paxos.size; lia|].
    unfold h2. rewrite !Hterm; try done; [|by rewrite E; apply lxor_elem; [|apply gmul_elem]]. split; [|by apply gmul_elem; [|apply Hpow]].
    rewrite E, gmul_lxor_l by (done || by apply gmul_elem || by apply Hpow). f_equal. apply gmul_assoc; try done. by apply Hpow. }
  unfold product. rewrite (xors_linear _ _ h1 rows H1'), (xors_linear _ _ h2 _ H2'), lxor_swap. f_equal.
  symmetry. apply gmul_lxor_r; [done|..]; apply xors_elem, Forall_fmap; (eapply Forall_impl; [first [exact H1'|exact H2']|]); by intros x [].
Qed.

Lemma value_of_linear x : 0 <= idx <= 64 -> (0 < Paxos.weight p <= Paxos.sparse_size p)%nat -> Z.of_nat (Paxos.sparse_size p) < 2 ^ idx -> (0 < nb)%nat ->
  elem (AesCrHash_Hash1 x) -> value_of avx idx b B x = Z.lxor (value_of avx idx b C x) (gmul delta (value_of avx idx b P x)).
Proof.
  intros Hidx Hw Hsp Hnb Hx. apply product_linear; [by apply bin_of_lt| |done].
  destruct (key_row_ok avx idx Hidx p ltac:(lia) Hsp x) as (Hl & _ & HF). done.
Qed.
End linear.

(** ** Loops over the first slots of a vector *)
Lemma for_prefix (f : nat -> list Z -> res (list Z)) (h : nat -> Z) vs n :
  (n <= length vs)%nat -> (forall t s, (t < n)%nat -> length s = length vs -> s !!! t = vs !!! t -> f t s = Ok (<[t := h t]> s)) ->
  wp (for_ n f vs) (fun r => length r = length vs /\ take n r = tabulate n h).
Proof.
  intros Hl Hf. eapply wp_mono; [apply (wp_for _ _ (fun k r => length r = length vs /\ forall i, r !!! i = if bool_decide (i < k)%nat then h i else vs !!! i))|].
  - split; [done|]. intros i. by rewrite bool_decide_false by lia.
  - intros k r Hk [Hlr Hr]. rewrite Hf; [|done|done|by rewrite Hr, bool_decide_false by lia]. cbn [wp]. split; [by rewrite length_insert|].
    intros i. destruct (decide (i = k)) as [->|Hne]; [rewrite list_lookup_total_insert_eq by lia; by rewrite bool_decide_true by lia|].
    rewrite list_lookup_total_insert_ne by done. rewrite Hr, (bool_decide_ext (i < S k)%nat (i < k)%nat); [done|lia].
  - exact (fun r H => H).
  - cbn beta. intros r [Hlr Hr]. split; [done|]. apply eq_tabulate; [rewrite length_take; lia|]. intros i Hi.
    by rewrite lookup_total_take, decide_True, Hr, bool_decide_true.
Qed.
Lemma map_tabulate {A} (f : Z -> A) l : map f l = tabulate (length l) (fun i => f (l !!! i)).
Proof.
  unfold tabulate. rewrite <- (map_map (fun i => l !!! i) f). f_equal. by apply (eq_tabulate (length l)).
Qed.

(** ** The fast mode *)

(** What the vector OLE promises. *)
Record vole_correct (n : nat) (v : Vole) : Prop := {
  vc_lengths : length (vole_b v) = n /\ length (vole_a v) = n /\ length (vole_c v) = n;
  vc_elems : elem (vole_delta v) /\ Forall elem (vole_a v) /\ Forall elem (vole_c v);
  vc_relation i : (i < n)%nat -> vole_b v !!! i = Z.lxor (vole_c v !!! i) (gmul (vole_delta v) (vole_a v !!! i))
}.

Section fast.
Context `{SymmetricCrypto} `{LibdivideLaws} `{BlockCipherLaws} (avx : bool) (Log2Ceil : Z -> Z) (GetBinSize : nat -> nat -> nat -> nat) (junk : nat -> Z).
Context (OprfEncrypt : Z -> Z) (ro : Z -> list Z) (Hro : forall ws, length (ro ws) = 32%nat).
Context (Henc : forall x, elem (Encrypt x)) (Hoprf : forall x, elem (OprfEncrypt x)).
Context (b : Baxos) (px : Paxos) (vole : nat -> Vole) (Hvole : forall n, vole_correct n (vole n)).
Abbreviation idx := (idx_bits Log2Ceil b).
Context (Hwf : well_formed idx b) (Hadd : add_to_decode_ b = false).
Abbreviation key_hash := (key_hash OprfEncrypt).
Abbreviation v := (vole (v_size FastMode b px)).
Abbreviation sz := (num_bins_ b * Paxos.size (paxos_param_ b))%nat.

(** The receiver's and the padded vector. *)
Definition share_c : list Z := take sz (vole_c v).
(** The last step, on one output. *)
Definition last_step (malicious : bool) (w y x : Z) : Z :=
  if malicious then DavisMeyerHash1 (Z.lxor y w) x else @AesCrHash_Hash1 (oprf_crypto OprfEncrypt) y.
(** The common function: on a key of the store the second term vanishes. *)
Definition oprf (malicious : bool) (w : Z) (P : list Z) (x : Z) : Z :=
  last_step malicious w (Z.lxor (value_of avx idx b share_c x) (gmul (vole_delta v) (Z.lxor (value_of avx idx b P x) (key_hash x)))) x.

Lemma share_c_ok : length share_c = sz /\ Forall elem share_c.
Proof.
  destruct (Hvole (v_size FastMode b px)) as [(_ & _ & Hc) (_ & _ & Hce) _]. split; [|by apply Forall_take].
  unfold share_c. rewrite length_take, Hc. unfold v_size, store_size, Baxos.size, Paxos.size. lia.
Qed.

Lemma key_hash_elem x : elem x -> elem (key_hash x).
Proof. intros Hx. by apply lxor_elem. Qed.
Lemma store_hash_elem x : elem x -> elem (AesCrHash_Hash1 x).
Proof. intros Hx. by apply lxor_elem. Qed.

Lemma Decode_map PP order xs V0 n : length PP = sz -> length V0 = length xs -> order ≡ₚ seq 0 (Nat.max n 1) ->
  Baxos.Decode avx Log2Ceil junk b PP order xs V0 n = Ok (map (value_of avx idx b PP) xs).
Proof.
  intros HPP HV Ho. rewrite Decode_values_ok by done. rewrite map_tabulate. f_equal. apply tabulate_ext. intros i Hi.
  unfold decoded_to. by rewrite Hadd.
Qed.

Lemma finish_map malicious xs (y : Z -> Z) w :
  finish avx OprfEncrypt malicious xs (map (fun x => if malicious then Z.lxor (y x) w else y x) xs) = Ok (map (fun x => last_step malicious w (y x) x) xs).
Proof.
  unfold finish, last_step. destruct malicious.
  - rewrite DavisMeyerHash_self by (by rewrite length_map). f_equal. clear. induction xs as [|x xs IH]; [done|]. cbn. by rewrite IH.
  - rewrite Hash_self_map. by rewrite map_map.
Qed.

Lemma HashInputMulDelta_map delta inputs :
  HashInputMulDelta avx OprfEncrypt FastMode delta inputs = Ok (map (fun x => Mul avx delta (key_hash x)) inputs).
Proof.
  unfold HashInputMulDelta. rewrite map_tabulate. apply for_slots; [apply length_replicate|].
  intros t s Ht Hs _. rewrite vget_total by done. run. by rewrite vset_total by lia.
Qed.

Lemma add_pad_ok P : length P = sz -> exists M, add_pad (vole_a v) P = Ok M /\ length M = sz /\
  forall i, (i < sz)%nat -> M !!! i = Z.lxor (P !!! i) (vole_a v !!! i).
Proof.
  intros HP. destruct (Hvole (v_size FastMode b px)) as [(_ & Ha & _) _ _].
  assert (sz <= v_size FastMode b px)%nat as Hszn by (unfold v_size, store_size, Baxos.size, Paxos.size; lia). unfold add_pad.
  rewrite (for_slots _ (fun i => Z.lxor (P !!! i) (vole_a v !!! i)) P (length P)); [|done|].
  - eexists. split; [done|]. rewrite length_tabulate. split; [done|]. intros i Hi. by rewrite tabulate_lookup by lia.
  - intros t s Ht Hs Hst. rewrite (vget_total s) by lia. run. rewrite (vget_total (vole_a v)) by lia. run.
    rewrite vset_total by lia. by rewrite Hst.
Qed.

Lemma add_delta_ok M P : length P = sz -> Forall elem P -> length M = sz -> (forall i, (i < sz)%nat -> M !!! i = Z.lxor (P !!! i) (vole_a v !!! i)) ->
  exists B, add_delta avx (vole_delta v) M (vole_b v) = Ok B /\ (0 < length B)%nat /\ length (take sz B) = sz /\
    forall i, (i < sz)%nat -> take sz B !!! i = Z.lxor (share_c !!! i) (gmul (vole_delta v) (P !!! i)).
Proof.
  intros HP HPe HM Hrel. destruct (Hvole (v_size FastMode b px)) as [(Hb & Ha & Hc) (Hd & Hae & Hce) Hv].
  assert (sz <= v_size FastMode b px)%nat as Hszn by (unfold v_size, store_size, Baxos.size, Paxos.size; lia).
  assert (256 <= v_size FastMode b px)%nat as Hn by (unfold v_size; lia).
  assert (forall i, (i < sz)%nat -> elem (P !!! i) /\ elem (vole_a v !!! i)) as He.
  { intros i Hi. split; [apply (Forall_lookup_total_1 _ _ _ HPe)|apply (Forall_lookup_total_1 _ _ _ Hae)]; lia. }
  pose proof (for_prefix (fun i b0 => p ← vget M i; y ← vget b0 i; vset b0 i (Z.lxor y (Mul avx (vole_delta v) p)))
    (fun i => Z.lxor (vole_b v !!! i) (Mul avx (vole_delta v) (M !!! i))) (vole_b v) (length M)) as Hf.
  apply wp_iff in Hf as (B & EB & HlB & HB).
  - exists B. split; [exact EB|]. rewrite HM in HB. split; [lia|]. split; [rewrite length_take; lia|]. intros i Hi. rewrite HB, tabulate_lookup by done.
    destruct (He i Hi) as [HPi Hai]. rewrite Hv by lia. rewrite Hrel by done. rewrite Mul_gmul by (done || by apply lxor_elem).
    rewrite gmul_lxor_r by done. unfold share_c. rewrite lookup_total_take, decide_True by done.
    rewrite (Z.lxor_comm (gmul _ (P !!! i))), Z.lxor_assoc, lxor_cancel. done.
  - lia.
  - intros t s Ht Hs Hst. rewrite (vget_total M) by done. run. rewrite vget_total by lia. run. rewrite vset_total by lia. by rewrite Hst.
Qed.

(** The vector of the receiver holds the hashes of its keys. *)
Definition holds_keys (xs P : list Z) : Prop := length P = sz /\ Forall elem P /\ Forall (fun x => value_of avx idx b P x = key_hash x) xs.

Definition solve_keys (hash_order bin_order : list nat) (n : nat) (xs : list Z) : res (list Z * option Prng) :=
  Baxos.Solve avx Log2Ceil GetBinSize junk b hash_order bin_order xs (map key_hash xs) (replicate (Baxos.size b) 0) false None n.

Lemma RecvFast_ok malicious n hash_order bin_order order xs wr ws r :
  Forall elem xs -> spread avx idx GetBinSize b n xs ->
  hash_order ≡ₚ seq 0 (threads n) -> bin_order ≡ₚ seq 0 (threads n) -> order ≡ₚ seq 0 (Nat.max n 1) ->
  r = mkReceiver FastMode malicious n b px (vole_a v) (vole_c v) ->
  outcome (some_bin_fails avx idx b xs)
    (RecvFast avx Log2Ceil GetBinSize junk OprfEncrypt ro r hash_order bin_order order xs wr (ro ws) ws)
    (fun '(outs, msgs, _) => exists P M prng, solve_keys hash_order bin_order n xs = Ok (P, prng) /\ holds_keys xs P /\ length M = sz /\ (forall i, (i < sz)%nat -> M !!! i = Z.lxor (P !!! i) (vole_a v !!! i)) /\
       msgs = SendChunked kSendChunkSize M /\ outs = map (oprf malicious (Z.lxor wr ws) P) xs).
Proof.
  intros Hxs Hsp Hho Hbo Ho ->. unfold RecvFast. cbn [r_baxos r_malicious r_num_threads r_a r_c r_paxos].
  assert ((if malicious then enforce (bool_decide (length (ro ws) = 32%nat)) else Ok tt) = Ok tt) as -> by (destruct malicious; [by rewrite Hro, bool_decide_true|done]).
  run. rewrite (@AesCrHash_Hash_map (oprf_crypto OprfEncrypt)) by apply length_replicate. run. fold key_hash.
  assert (Forall elem (map key_hash xs)) as Hhe by (apply Forall_fmap; eapply Forall_impl; [exact Hxs|]; apply key_hash_elem).
  fold (solve_keys hash_order bin_order n xs). apply outcome_bind, outcome_eq.
  eapply outcome_mono; [apply Solve_ok; try done; apply length_map|]. intros [P prng] (HP & HPe & Hs) HS. assert (holds_keys xs P) as Hk.
  { split; [exact HP|]. split; [exact HPe|]. apply Forall_lookup_2. intros i x Hx.
    destruct Hwf as [[? ?] (? & ? & ?) [? ?] [? ?] ?].
    rewrite (value_of_solved avx idx b P) with (inputs := xs) (vals := map key_hash xs) (i := i); try done; try lia; [|apply length_map|by destruct Hsp].
    apply list_lookup_total_correct. by rewrite lookup_map, Hx. }
  apply wp_outcome. assert ((if malicious then _ ← enforce (bool_decide (ro ws = ro ws)); Ok (Z.lxor wr ws) else Ok 0) = Ok (if malicious then Z.lxor wr ws else 0)) as ->
    by (destruct malicious; [by rewrite bool_decide_true|done]).
  run. destruct share_c_ok as [HlC _].
  change (take (Baxos.size b) (vole_c v)) with share_c. rewrite Decode_map by (done || apply length_map). run. set (w := Z.lxor wr ws).
  set (y := value_of avx idx b share_c).
  assert ((if malicious then for_ (length (map y xs)) (fun i outputs => y ← vget outputs i; vset outputs i (Z.lxor y (if malicious then w else 0))) (map y xs) else Ok (map y xs))
    = Ok (map (fun x => if malicious then Z.lxor (y x) w else y x) xs)) as ->.
  { destruct malicious; [|done]. rewrite (for_slots _ (fun i => Z.lxor (map y xs !!! i) w) (map y xs) (length (map y xs))); [|done|].
    - f_equal. rewrite length_map, (map_tabulate (fun x => Z.lxor (y x) w) xs). apply tabulate_ext. intros i Hi. f_equal. by rewrite (list_lookup_total_fmap _ xs) by done.
    - intros t s Ht Hs' Hst. rewrite vget_total by lia. run. rewrite vset_total by lia. by rewrite Hst. }
  run. rewrite finish_map. run. destruct (add_pad_ok P HP) as (M & -> & HM & Hrel). run. exists P, M, prng. do 5 (split; [done|]).
  apply map_ext_in. intros x Hx%list_elem_of_In. unfold oprf. destruct Hk as (_ & _ & HF). apply (proj1 (Forall_forall _ _) HF) in Hx.
  rewrite Hx, Z.lxor_nilpotent, gmul_0_r, Z.lxor_0_r. done.
Qed.

Lemma sender_ok malicious n order ys wr ws P M xs s :
  Forall elem ys -> order ≡ₚ seq 0 (Nat.max n 1) -> holds_keys xs P -> length M = sz ->
  (forall i, (i < sz)%nat -> M !!! i = Z.lxor (P !!! i) (vole_a v !!! i)) ->
  s = mkSender FastMode malicious n b px sz (vole_delta v) (vole_b v) 0 ->
  wp ('(hashes, s) ← Send avx OprfEncrypt s ys ws wr (SendChunked kSendChunkSize M);
      '(evals, _) ← Eval_hashed avx Log2Ceil junk OprfEncrypt s order ys hashes; Ok evals)
     (fun evals => evals = map (oprf malicious (Z.lxor wr ws) P) ys).
Proof.
  intros Hys Ho (HP & HPe & _) HM Hrel ->. destruct (Hvole (v_size FastMode b px)) as [(_ & _ & Hlc) (Hd & _ & Hce) _].
  pose proof Hwf as [[Hnb ?] (Ew & ? & ?) [? ?] [? Hdt] ?].
  unfold Send. cbn [s_mode s_delta s_malicious s_paxos_size s_b s_w s_num_threads s_baxos s_paxos]. rewrite HashInputMulDelta_map. run.
  rewrite <- HM at 1. rewrite RecvChunked_SendChunked by (unfold kSendChunkSize; lia). run.
  destruct (add_delta_ok M P HP HPe HM Hrel) as (B & -> & HB0 & HlB & HB). run.
  unfold Eval_hashed. cbn [s_mode s_delta s_malicious s_paxos_size s_b s_w s_num_threads s_baxos s_paxos]. rewrite bool_decide_true by done. run.
  unfold store_decode. rewrite Decode_map by (done || apply length_replicate). run. set (w := Z.lxor wr ws). set (B' := take sz B) in *.
  set (z := fun x => Z.lxor (value_of avx idx b share_c x) (gmul (vole_delta v) (Z.lxor (value_of avx idx b P x) (key_hash x)))).
  rewrite (for_slots _ (fun i => if malicious then Z.lxor (z (ys !!! i)) w else z (ys !!! i)) _ (length ys)); [|apply length_map|].
  - run. rewrite <- (map_tabulate (fun x => if malicious then Z.lxor (z x) w else z x) ys), finish_map. run. done.
  - intros t s Ht Hls Hst. set (hs := map (fun x => Mul avx (vole_delta v) (key_hash x)) ys).
    rewrite (vget_total hs) by (unfold hs; by rewrite length_map). run. unfold hs. rewrite (list_lookup_total_fmap _ ys) by done.
    rewrite (vget_total s) by lia. run. rewrite Hst, (list_lookup_total_fmap _ ys) by done. rewrite vset_total by lia. do 2 f_equal.
    assert (elem (ys !!! t)) as Hyt by (by apply (Forall_lookup_total_1 _ _ _ Hys)). pose proof (key_hash_elem _ Hyt) as Hke.
    assert (Z.lxor (value_of avx idx b B' (ys !!! t)) (Mul avx (vole_delta v) (key_hash (ys !!! t))) = z (ys !!! t)) as ->; [|by destruct malicious].
    destruct share_c_ok as [HlC HCe]. pose proof (idx_bits_range Log2Ceil b). pose proof (store_hash_elem _ Hyt).
    assert (elem (value_of avx idx b P (ys !!! t))) as Hpe by (apply value_of_elem; lia || done).
    rewrite (value_of_linear avx idx b (vole_delta v) B' share_c P); try done; try lia.
    rewrite Mul_gmul by done. unfold z. rewrite Z.lxor_assoc. f_equal. symmetry. by apply gmul_lxor_r.
Qed.

Lemma oprf_elem malicious w P xs x : (forall k y, elem (Aes k y)) -> holds_keys xs P -> elem x -> elem (oprf malicious w P x).
Proof.
  intros Haes (HP & HPe & _) Hx. pose proof Hwf as [[Hnb ?] (Ew & ? & ?) [? ?] [? Hdt] ?]. pose proof (idx_bits_range Log2Ceil b).
  destruct share_c_ok as [HlC HCe]. destruct (Hvole (v_size FastMode b px)) as [_ (Hd & _ & _) _]. pose proof (store_hash_elem x Hx).
  assert (forall V, length V = sz -> Forall elem V -> elem (value_of avx idx b V x)) as Hval by (intros; apply value_of_elem; lia || done).
  unfold oprf, last_step. destruct malicious; [by apply lxor_elem|]. apply lxor_elem; [apply Hoprf|].
  apply lxor_elem; [by apply Hval|]. apply gmul_elem; [done|]. apply lxor_elem; [by apply Hval|by apply key_hash_elem].
Qed.
End fast.

(** ** The parties agree *)

(** C3.  In the fast mode, semi-honest or malicious, for any numbers of threads and
    any order of them: when the receiver's keys [spread] over the bins and these can be solved, one
    function of the key gives both the outputs of the receiver on its keys and
    those of the sender on its own.  The function is that of a vector that holds
    the hashes of the receiver's keys: on these keys it is the last step on what
    the receiver decodes from its share of the vector OLE. *)
Theorem oprf_run_fast `{SymmetricCrypto} `{LibdivideLaws} `{BlockCipherLaws} avx Log2Ceil GetBinSize junk OprfEncrypt ro b px vole
    malicious threads_s threads_r o ws wr xs ys :
  (forall ws, length (ro ws) = 32%nat) -> (forall x, elem (Encrypt x)) -> (forall x, elem (OprfEncrypt x)) -> (forall n, vole_correct n (vole n)) ->
  well_formed (idx_bits Log2Ceil b) b -> add_to_decode_ b = false -> spread avx (idx_bits Log2Ceil b) GetBinSize b threads_r xs ->
  Forall elem xs -> Forall elem ys ->
  o_hash o ≡ₚ seq 0 (threads threads_r) -> o_bin o ≡ₚ seq 0 (threads threads_r) ->
  o_recv o ≡ₚ seq 0 (Nat.max threads_r 1) -> o_send o ≡ₚ seq 0 (Nat.max threads_s 1) ->
  outcome (some_bin_fails avx (idx_bits Log2Ceil b) b xs)
    (oprf_run avx Log2Ceil GetBinSize junk OprfEncrypt ro FastMode malicious threads_s threads_r b px vole o ws wr xs ys)
    (fun '(outs, evals) => exists P, holds_keys avx Log2Ceil OprfEncrypt b xs P /\
       let F := oprf avx Log2Ceil OprfEncrypt b px vole malicious (Z.lxor wr ws) P in outs = map F xs /\ evals = map F ys).
Proof.
  intros Hro He Hoe Hv Hwf Hadd Hsp Hxs Hys Hoh Hob Hor Hos. unfold oprf_run, Sender_Init, Receiver_Init, check_mode.
  rewrite andb_false_r. cbn [negb]. run. unfold Recv. cbn [r_mode]. apply outcome_bind. eapply outcome_mono; [by eapply RecvFast_ok|].
  intros [[outs msgs] r] (P & M & prng & HS & HP & HM & Hrel & -> & ->). apply wp_outcome.
  pose proof (sender_ok avx Log2Ceil junk OprfEncrypt He Hoe b px vole Hv Hwf Hadd malicious threads_s (o_send o) ys wr ws P M xs _ Hys Hos HP HM Hrel eq_refl) as Hs.
  assert (Baxos.size b = (num_bins_ b * Paxos.size (paxos_param_ b))%nat) as Esz by done. unfold store_size. rewrite Esz.
  set (m := Send _ _ _ _ _ _ _) in *. destruct m as [[hashes s]| |]; [|done..]. cbn [mbind res_bind] in Hs |- *.
  set (m := Eval_hashed _ _ _ _ _ _ _ _) in *. destruct m as [[evals s']| |]; [|done..]. cbn [wp mbind res_bind] in Hs |- *. subst evals.
  exists P. done.
Qed.

(** *** Witness: four keys of the receiver, three of the sender, two in common *)
Definition toy_cipher : BlockCipher := {| Aes k x := wrap 128 (3 * k + 7 * x); ParaEnc values keys := zip_with (fun k x => wrap 128 (3 * k + 7 * x)) keys values |}.
Definition toy_hash_cipher (x : Z) : Z := wrap 128 (x * x + 11).
Definition toy_ro (x : Z) : list Z := replicate 32 (wrap 8 x).
Definition toy_a (i : nat) : Z := Z.of_nat (i mod 256).
Definition toy_vole (n : nat) : Vole :=
  mkVole 19 (tabulate n (fun i => Z.lxor 3 (gmul 19 (toy_a i)))) (tabulate n toy_a) (replicate n 3).
Definition toy_orders : Orders := mkOrders [1; 0; 2]%nat [2; 0; 1]%nat [0; 2; 1]%nat [1; 0]%nat.
Definition toy_paxos : Paxos := Paxos_default (mkParam 7 2 3 3 40 GF128) 4.
Definition toy_oprf_run : res (list Z * list Z) :=
  @oprf_run toy_crypto plain_libdivide toy_cipher true Z.log2_up toy_bin_size (fun _ => 7) toy_hash_cipher toy_ro FastMode true 2 3
    toy_baxos toy_paxos toy_vole toy_orders 77 1234 toy_inputs [2; 9; 4].

Lemma toy_vole_correct n : vole_correct n (toy_vole n).
Proof.
  assert (forall i, elem (toy_a i)) as Ha.
  { intros i. unfold toy_a. pose proof (Nat.mod_upper_bound i 256 ltac:(lia)). split; lia. }
  constructor.
  - cbn. by rewrite !length_tabulate, length_replicate.
  - cbn. split; [split; lia|]. split; [apply Forall_fmap, Forall_forall; intros i _; apply Ha|]. apply Forall_replicate. split; lia.
  - intros i Hi. cbn. rewrite !tabulate_lookup by done. by rewrite lookup_total_replicate_2.
Qed.
Definition toy_cipher_laws : @BlockCipherLaws toy_cipher.
Proof. constructor. intros values keys _ _. reflexivity. Defined.

Lemma oprf_run_fast_witness :
  match toy_oprf_run with Ok (outs, evals) => evals !!! 0%nat = outs !!! 1%nat /\ evals !!! 2%nat = outs !!! 3%nat | _ => False end /\
  outcome (@some_bin_fails toy_crypto plain_libdivide true (idx_bits Z.log2_up toy_baxos) toy_baxos toy_inputs) toy_oprf_run
    (fun '(outs, evals) => exists P, @holds_keys toy_crypto plain_libdivide true Z.log2_up toy_hash_cipher toy_baxos toy_inputs P /\
       let F := @oprf toy_crypto plain_libdivide toy_cipher true Z.log2_up toy_hash_cipher toy_baxos toy_paxos toy_vole true (Z.lxor 1234 77) P in
       outs = map F toy_inputs /\ evals = map F [2; 9; 4]).
Proof.
  split; [vm_compute; split; reflexivity|].
  apply (@oprf_run_fast toy_crypto plain_libdivide plain_libdivide_laws toy_cipher toy_cipher_laws true Z.log2_up toy_bin_size (fun _ => 7)
    toy_hash_cipher toy_ro toy_baxos toy_paxos toy_vole true 2 3 toy_orders 77 1234 toy_inputs [2; 9; 4]).
  - intros ws. apply length_replicate.
  - intros x. apply wrap_range. lia.
  - intros x. apply wrap_range. lia.
  - exact toy_vole_correct.
  - exact toy_well_formed.
  - reflexivity.
  - exact toy_spread.
  - repeat constructor; discriminate.
  - repeat constructor; discriminate.
  - change (seq 0 (threads 3)) with [0; 1; 2]%nat. apply Permutation_swap.
  - change (seq 0 (threads 3)) with [0; 1; 2]%nat. etransitivity; [apply Permutation_swap|]. apply Permutation_skip, Permutation_swap.
  - change (seq 0 (Nat.max 3 1)) with [0; 1; 2]%nat. apply Permutation_skip, Permutation_swap.
  - apply Permutation_swap.
Defined.
