(* ===== verification/Rr22Psi.v ===== *)
(** * The RR22 PSI on a bucket (psi/algorithm/rr22/rr22_psi, rr22_utils, common)

    For a bucket the parties load their items, exchange how many they have, run
    the OPRF on the hashes of the items and compare the values: the sender sends
    its values, truncated to a size that makes a collision unlikely, with the
    extra counts of its items; the receiver looks them up and, when the result is
    broadcast, sends back the positions it found and the counts of its own items.

    Arguments: [Blake3], [log2] of the C library, the shuffle of the sender, the
    results of the [Init] of the stores (they evaluate libm), the vector OLE and
    the seeds.  Classes: the hash map of sparsehash, protobuf on a map of counts,
    the ranges of [yacl::parallel_for], [memcpy]. *)
From Stdlib Require Import SpecFloat.
From S2P Require Import Prelude Float64 EcStore Galois PaxosHash Paxos Baxos Rr22Oprf.

(** ** What the code calls *)

(** [google::dense_hash_map<uint128_t, size_t, NoHash>].  The empty key marks free
    buckets: to insert it or to look it up is not allowed. *)
Class DenseHashMap := {
  DMap : Type;
  dmap_new : (Z -> Z) -> Z -> DMap;
  dmap_empty_key : DMap -> Z;
  dmap_insert : DMap -> Z -> nat -> DMap;
  dmap_find : DMap -> Z -> option nat
}.
Class DenseHashMapLaws `{DenseHashMap} (view : DMap -> gmap Z nat) : Prop := {
  view_new h e : view (dmap_new h e) = ∅ /\ dmap_empty_key (dmap_new h e) = e;
  view_insert m k i : k <> dmap_empty_key m ->
    view (dmap_insert m k i) = (if decide (is_Some (view m !! k)) then view m else <[k := i]> (view m)) /\
    dmap_empty_key (dmap_insert m k i) = dmap_empty_key m;
  view_find m k : k <> dmap_empty_key m -> dmap_find m k = view m !! k
}.

(** [proto::ItemsCntProto], a map of counts. *)
Class CntProto := { cnt_serialize : gmap Z Z -> bytes; cnt_parse : bytes -> gmap Z Z }.
Class CntProtoLaws `{CntProto} : Prop := { cnt_roundtrip m : cnt_parse (cnt_serialize m) = m }.

(** The ranges [parallel_for] cuts [0 .. n) into, in the order in which their
    threads get the lock. *)
Class ParallelFor := { parallel_for : nat -> nat -> list (nat * nat) }.
Definition range_of (r : nat * nat) : list nat := seq r.1 (r.2 - r.1).
Class ParallelForLaws `{ParallelFor} : Prop := {
  parallel_for_cover n grain : (0 < grain)%nat -> concat (map range_of (parallel_for n grain)) ≡ₚ seq 0 n
}.

(** [memcpy] within an object, from and to an offset.  Of overlapping ranges the
    standard says nothing; the code relies on copies of at most one value towards
    lower addresses. *)
Class Memcpy := { memcpy : bytes -> nat -> nat -> nat -> bytes }.
Class MemcpyLaws `{Memcpy} : Prop := {
  memcpy_down l dst src n : (dst <= src)%nat -> (n <= 16)%nat -> (src + n <= length l)%nat ->
    memcpy l dst src n = take dst l ++ take n (drop src l) ++ drop (dst + n) l
}.

(** ** rr22_utils *)
Definition NoHash (v : Z) : Z := u32 v.

(** [mask_size] bytes of ones. *)
Definition truncate_mask (mask_size : nat) : Z := loop mask_size (fun _ m => Z.lor 0xff (u128 (Z.shiftl m 8))) 0.

Definition SerializeItemsCnt `{CntProto} (duplicate_item_cnt : DupCnt) : bytes :=
  cnt_serialize (foldl (fun m '(k, v) => if decide (is_Some (m !! k)) then m else <[k := v]> m) ∅ (map_to_list duplicate_item_cnt)).
Definition DeserializeItemsCnt `{CntProto} (buf : bytes) : DupCnt :=
  foldl (fun m '(k, v) => <[k := v]> m) ∅ (map_to_list (cnt_parse buf)).

(** [m[k]] of an [unordered_map]: it adds a zero where there is no entry. *)
Definition touch (m : DupCnt) (k : Z) : DupCnt := if decide (is_Some (m !! k)) then m else <[k := 0]> m.

(** The counts above zero of some vector. *)
Definition positive_counts (cnts : list Z) : res DupCnt :=
  for_ (length cnts) (fun i m => c ← vget cnts i; Ok (if 0 <? c then <[Z.of_nat i := c]> m else m)) ∅.

Section intersection.
Context `{DenseHashMap} `{CntProto} `{ParallelFor} `{Memcpy}.

(** *** The receiver *)
Definition build_map (self_oprfs : list Z) (mask_size : nat) : res DMap :=
  let compress := negb (bool_decide (mask_size = 16%nat)) in
  for_ (length self_oprfs) (fun i m =>
    y ← vget self_oprfs i;
    let k := if compress then Z.land y (truncate_mask mask_size) else y in
    _ ← defined (negb (k =? dmap_empty_key m));
    Ok (dmap_insert m k i)) (dmap_new NoHash 0).

(** What a range finds, and what is merged. *)
Record Found := mkFound { f_indices : list Z; f_peer_cnt : list Z; f_peer_indices : list Z; f_self_cnt : list Z }.
Definition no_match : Found := mkFound [] [] [] [].

(** The low bytes of the word become those of the buffer. *)
Definition copy_in (data : Z) (bs : bytes) : Z := le_value bs + Z.shiftl (Z.shiftr data (8 * Z.of_nat (length bs))) (8 * Z.of_nat (length bs)).

Definition find_range (m : DMap) (peer_buffer : bytes) (mask_size : nat) (cnt_map : DupCnt) (self_items : list BucketItem) (broadcast : bool)
    (r : nat * nat) : res Found :=
  '(found, _) ← for_ (r.2 - r.1) (fun k '(found, data) =>
    let j := (r.1 + k)%nat in
    _ ← defined (bool_decide (j * mask_size + mask_size <= length peer_buffer)%nat);
    let data := copy_in data (take mask_size (drop (j * mask_size) peer_buffer)) in
    _ ← defined (negb (data =? dmap_empty_key m));
    match dmap_find m data with
    | None => Ok (found, data)
    | Some i =>
        let found := mkFound (f_indices found ++ [u32 (Z.of_nat i)]) (f_peer_cnt found ++ [count cnt_map (Z.of_nat j)])
                       (f_peer_indices found) (f_self_cnt found) in
        if broadcast then
          _ ← enforce (bool_decide (i < length self_items)%nat);
          item ← vget self_items i;
          Ok (mkFound (f_indices found) (f_peer_cnt found) (f_peer_indices found ++ [u32 (Z.of_nat j)]) (f_self_cnt found ++ [extra_dup_cnt item]), data)
        else Ok (found, data)
    end) (no_match, 0);
  Ok found.

Definition merge_found (broadcast : bool) (tmp all : Found) : Found :=
  match f_indices tmp with
  | [] => all
  | _ => mkFound (f_indices all ++ f_indices tmp) (f_peer_cnt all ++ f_peer_cnt tmp)
           (if broadcast then f_peer_indices all ++ f_peer_indices tmp else f_peer_indices all)
           (if broadcast then f_self_cnt all ++ f_self_cnt tmp else f_self_cnt all)
  end.

(** The result, and what it broadcasts. *)
Definition GetIntersectionReceiver (self_oprfs : list Z) (self_items : list BucketItem) (peer_items_num : nat) (peer_buffer cnt_buffer : bytes)
    (num_threads mask_size : nat) (broadcast_result : bool) : res (list Z * list Z * option (bytes * bytes)) :=
  m ← build_map self_oprfs mask_size;
  _ ← defined (negb (bool_decide (mask_size = 0%nat)));
  _ ← enforce (bool_decide (peer_items_num = length peer_buffer / mask_size)%nat);
  let cnt_map := loop peer_items_num (fun i c => touch c (Z.of_nat i)) (DeserializeItemsCnt cnt_buffer) in
  _ ← defined (negb (bool_decide (num_threads = 0%nat)));
  let grain_size := ((peer_items_num + num_threads - 1) / num_threads)%nat in
  found ← for_each (parallel_for peer_items_num grain_size) (fun r all =>
    tmp ← find_range m peer_buffer mask_size cnt_map self_items broadcast_result r;
    Ok (merge_found broadcast_result tmp all)) no_match;
  if broadcast_result then
    cnts ← positive_counts (f_self_cnt found);
    Ok (f_indices found, f_peer_cnt found, Some (concat (map (le_bytes 4) (f_peer_indices found)), SerializeItemsCnt cnts))
  else Ok (f_indices found, f_peer_cnt found, None).

(** *** The sender *)
Definition compress_oprfs (self_oprfs : list Z) (mask_size : nat) : res bytes :=
  let data := concat (map (le_bytes 16) self_oprfs) in
  data ← (if bool_decide (mask_size = 16%nat) then Ok data else
    for_ (length self_oprfs) (fun i data =>
      _ ← defined (bool_decide (i * mask_size + mask_size <= length data)%nat && bool_decide (i * 16 + mask_size <= length data)%nat);
      Ok (memcpy data (i * mask_size) (i * 16) mask_size)) data);
  _ ← defined (bool_decide (length self_oprfs * mask_size <= length data)%nat);
  Ok (take (length self_oprfs * mask_size) data).

(** Its two messages. *)
Definition SenderMessages (self_oprfs : list Z) (items : list BucketItem) (mask_size : nat) : res (bytes * bytes) :=
  buffer ← compress_oprfs self_oprfs mask_size;
  cnts ← positive_counts (map extra_dup_cnt items);
  Ok (buffer, SerializeItemsCnt cnts).

(** The rest, with what the receiver broadcast; to wait for nothing is no outcome. *)
Definition SenderResult (broadcast_result : bool) (reply : option (bytes * bytes)) : res (list Z * list Z) :=
  '(result, items_cnt) ← (if broadcast_result then
    match reply with
    | None => UB
    | Some (buffer, cnts) =>
        _ ← defined (bool_decide (length buffer mod 4 = 0)%nat);
        result ← for_ (length buffer / 4) (fun i acc => w ← memcpy_from buffer (4 * i) 4; Ok (acc ++ [w])) [];
        Ok (result, DeserializeItemsCnt cnts)
    end else Ok ([], ∅));
  items_cnt_v ← for_each (map_to_list items_cnt) (fun '(k, v) acc => vsetz acc k v) (replicate (length result) 0);
  Ok (result, items_cnt_v).
End intersection.

(** ** Options *)
Record Rr22PsiOptions := mkOptions { ssp : Z; num_threads : nat; mode : Rr22PsiMode; compress : bool; malicious : bool }.
Definition Options_new (ssp : Z) (num_threads : nat) (compress malicious : bool) : res Rr22PsiOptions :=
  _ ← enforce (30 <=? ssp); Ok (mkOptions ssp (Nat.max 1 num_threads) FastMode compress malicious).
Definition kDefaultSSP : Z := 40.
Definition kDefaultCompress : bool := true.
Definition GenerateRr22PsiOptions (omp_get_num_procs : nat) (low_comm_mode : bool) : res Rr22PsiOptions :=
  o ← Options_new kDefaultSSP omp_get_num_procs kDefaultCompress false;
  Ok (mkOptions (ssp o) (num_threads o) (if low_comm_mode then LowCommMode else FastMode) (compress o) (malicious o)).

(** [std::ceil]. *)
Definition f64_ceil (x : double) : double :=
  match x with
  | S754_finite s m e =>
      if 0 <=? e then x else
      binary_normalize 53 1024 (if s then - Z.shiftr (Zpos m) (- e) else - Z.shiftr (Zneg m) (- e)) 0 s
  | _ => x
  end.
Definition ComputeTruncateSize (log2 : double -> double) (self_size peer_size ssp : Z) (malicious : bool) : res Z :=
  if malicious then Ok 16 else
  z ← u64_of_f64 (f64_ceil (f64_div (f64_add (f64_of_u64 ssp) (f64_ceil (log2 (f64_of_u64 (u64 (self_size * peer_size)))))) (f64_of_u64 8)));
  Ok (Z.min z 16).

(** With what the gathering of the sizes gives: the own size and that of the peer. *)
Definition ExchangeTruncateSize (log2 : double -> double) (self_size : nat) (items_size : nat * nat) (options : Rr22PsiOptions) : res (nat * nat) :=
  _ ← enforce (bool_decide (self_size = items_size.1));
  let peer_size := items_size.2 in
  mask_size ← (if compress options then ComputeTruncateSize log2 (Z.of_nat self_size) (Z.of_nat peer_size) (ssp options) (malicious options) else Ok 16);
  Ok (Z.to_nat mask_size, peer_size).

(** ** The parties on a bucket *)
Record BucketRr22Core := mkCore {
  bucket_idx_ : nat;
  peer_size_ : nat;
  mask_size_ : nat;
  inputs_hash_ : list Z;
  oprfs_ : list Z;
  bucket_items_ : list BucketItem;
  null_bucket_ : bool
}.
(** A call of [post_f_]. *)
Record Posted := mkPosted { p_bucket : nat; p_items : list BucketItem; p_indices : list Z; p_peer_cnt : list Z }.

Section bucket.
Context `{SymmetricCrypto} `{Libdivide} `{BlockCipher} (avx : bool) (Log2Ceil : Z -> Z) (GetBinSize : nat -> nat -> nat -> nat) (junk : nat -> Z).
Context (OprfEncrypt : Z -> Z) (ro : Z -> list Z).
Context `{DenseHashMap} `{CntProto} `{ParallelFor} `{Memcpy}.
Context (log2 : double -> double) (Blake3 : bytes -> Z) (shuffle : list BucketItem -> list BucketItem).
Context (Baxos_Init : nat -> Baxos) (Paxos_Init : nat -> Paxos) (vole : nat -> Vole).

Definition hash_items (items : list BucketItem) : res (list Z) :=
  for_ (length items) (fun i v => x ← vget items i; vset v i (Blake3 (base64_data x))) (replicate (length items) 0).

(** [Prepare]: the items of the bucket, the sizes; no hashes for an empty bucket. *)
Definition Prepare_core (options : Rr22PsiOptions) (bucket_idx : nat) (items : list BucketItem) (items_size : nat * nat) : res BucketRr22Core :=
  '(mask_size, peer_size) ← ExchangeTruncateSize log2 (length items) items_size options;
  if bool_decide (peer_size = 0%nat) || bool_decide (length items = 0%nat)
  then Ok (mkCore bucket_idx peer_size mask_size [] [] items true)
  else hs ← hash_items items; Ok (mkCore bucket_idx peer_size mask_size hs [] items false).
Definition Sender_Prepare (options : Rr22PsiOptions) (bucket_idx : nat) (items : list BucketItem) (peer : nat) : res (BucketRr22Core * option Rr22OprfSender) :=
  let items := shuffle items in
  c ← Prepare_core options bucket_idx items (length items, peer);
  if null_bucket_ c then Ok (c, None)
  else s ← Sender_Init (mode options) (malicious options) (num_threads options) (Baxos_Init (peer_size_ c)) (Paxos_Init (peer_size_ c)) vole; Ok (c, Some s).
Definition Receiver_Prepare (options : Rr22PsiOptions) (bucket_idx : nat) (items : list BucketItem) (peer : nat) : res (BucketRr22Core * option Rr22OprfReceiver) :=
  c ← Prepare_core options bucket_idx items (length items, peer);
  if null_bucket_ c then Ok (c, None)
  else r ← Receiver_Init (mode options) (malicious options) (num_threads options) (Baxos_Init (length items)) (Paxos_Init (length items)) vole; Ok (c, Some r).

Definition with_oprfs (c : BucketRr22Core) (oprfs : list Z) : BucketRr22Core :=
  mkCore (bucket_idx_ c) (peer_size_ c) (mask_size_ c) (inputs_hash_ c) oprfs (bucket_items_ c) (null_bucket_ c).

(** [RunOprf], with the messages of the peer. *)
Definition Receiver_RunOprf (o : Orders) (ws wr : Z) (c : BucketRr22Core) (r : option Rr22OprfReceiver) : res (BucketRr22Core * list (list Z)) :=
  if null_bucket_ c then Ok (c, []) else
  match r with
  | None => UB
  | Some r =>
      '(oprfs, msgs, _) ← Recv avx Log2Ceil GetBinSize junk OprfEncrypt ro r (o_hash o) (o_bin o) (o_recv o) (inputs_hash_ c) wr (ro ws) ws;
      Ok (with_oprfs c oprfs, msgs)
  end.
Definition Sender_RunOprf (o : Orders) (ws wr : Z) (c : BucketRr22Core) (s : option Rr22OprfSender) (msgs : list (list Z)) : res BucketRr22Core :=
  if null_bucket_ c then Ok c else
  match s with
  | None => UB
  | Some s =>
      '(hashes, s) ← Send avx OprfEncrypt s (inputs_hash_ c) ws wr msgs;
      '(oprfs, _) ← Eval_hashed avx Log2Ceil junk OprfEncrypt s (o_send o) (inputs_hash_ c) hashes;
      Ok (with_oprfs c oprfs)
  end.

(** [GetIntersection] of both parties, as their messages order it. *)
Definition GetIntersection (threads_r : nat) (broadcast_result : bool) (cs cr : BucketRr22Core) : res (Posted * Posted) :=
  let post c '(indices, cnts) := mkPosted (bucket_idx_ c) (bucket_items_ c) indices cnts in
  if null_bucket_ cs then
    (* one would wait for the other *)
    if null_bucket_ cr then Ok (post cs ([], []), post cr ([], [])) else UB
  else if null_bucket_ cr then UB else
  '(buffer, cnts) ← SenderMessages (oprfs_ cs) (bucket_items_ cs) (mask_size_ cs);
  '(indices, peer_cnt, reply) ← GetIntersectionReceiver (oprfs_ cr) (bucket_items_ cr) (peer_size_ cr) buffer cnts threads_r (mask_size_ cr) broadcast_result;
  result ← SenderResult broadcast_result reply;
  Ok (post cs result, post cr (indices, peer_cnt)).

(** *** A bucket, from the items to the calls of [post_f_] *)
Definition run_bucket (options_s options_r : Rr22PsiOptions) (broadcast_result : bool) (bucket_idx : nat) (o : Orders) (ws wr : Z)
    (sender_items receiver_items : list BucketItem) : res (Posted * Posted) :=
  '(cs, s) ← Sender_Prepare options_s bucket_idx sender_items (length receiver_items);
  '(cr, r) ← Receiver_Prepare options_r bucket_idx receiver_items (length (shuffle sender_items));
  '(cr, msgs) ← Receiver_RunOprf o ws wr cr r;
  cs ← Sender_RunOprf o ws wr cs s msgs;
  GetIntersection (num_threads options_r) broadcast_result cs cr.
End bucket.
