(* ===== verification/Rr22PsiProofs.v ===== *)
(** * The RR22 PSI on a bucket: both parties get the intersection

    The truncated values the sender sends are those of its items; what the
    receiver finds and the sender reads back are the common items, each once, with
    the extra count of the peer. *)
From S2P Require Import Prelude Float64 EcStore Galois PaxosHash WeightData DenseMtx Combination Paxos PaxosInput PaxosEncode PaxosSolve PaxosDense PaxosBackfill PaxosDecode Baxos BaxosSolve BaxosBins BaxosDecode Rr22Oprf Rr22OprfProofs Rr22Psi.

#[local] Instance BucketItem_inhabited : Inhabited BucketItem := populate (mkBucketItem 0 0 0 0 []).

(** A value cut to some bytes. *)
Definition cut (mask_size : nat) (y : Z) : Z := y mod 256 ^ Z.of_nat mask_size.

(** ** The bytes of values *)
Lemma take_le_bytes k n y : (k <= n)%nat -> take k (le_bytes n y) = le_bytes k y.
Proof. intros Hk. unfold le_bytes. rewrite firstn_map, take_seq. by replace (k `min` n)%nat with k by lia. Qed.

Lemma length_le_concat k (ys : list Z) : length (concat (map (le_bytes k) ys)) = (k * length ys)%nat.
Proof. apply length_records. intros. apply length_le_bytes. Qed.

Lemma drop_le_concat k (ys : list Z) i : drop (k * i) (concat (map (le_bytes k) ys)) = concat (map (le_bytes k) (drop i ys)).
Proof.
  revert ys. induction i as [|i IH]; intros ys; [by rewrite Nat.mul_0_r|]. destruct ys as [|y ys]; [cbn [map concat drop]; by rewrite drop_nil|].
  cbn [map concat drop]. rewrite drop_app_ge by (rewrite length_le_bytes; lia). rewrite length_le_bytes, <- IH. f_equal. lia.
Qed.

Lemma le_concat_at k (ys : list Z) i y : ys !! i = Some y -> take k (drop (k * i) (concat (map (le_bytes k) ys))) = le_bytes k y.
Proof.
  intros Hy. rewrite drop_le_concat, (drop_S ys y i Hy). cbn [map concat]. by rewrite take_app_length' by (by rewrite length_le_bytes).
Qed.

Lemma truncate_mask_ones m : (m <= 16)%nat -> truncate_mask m = Z.ones (8 * Z.of_nat m).
Proof. intros Hm. do 17 (destruct m as [|m]; [vm_compute; reflexivity|]). lia. Qed.

Section intersection.
Context `{DenseHashMapLaws} `{CntProtoLaws} `{ParallelForLaws} `{MemcpyLaws}.

Lemma compress_oprfs_ok (ys : list Z) m : (m <= 16)%nat -> compress_oprfs ys m = Ok (concat (map (le_bytes m) ys)).
Proof.
  intros Hm. unfold compress_oprfs. set (n := length ys). set (mem := concat (map (le_bytes 16) ys)).
  assert (length mem = 16 * n)%nat as Hl by apply length_le_concat. apply wp_eq, wp_bind.
  assert (wp (if bool_decide (m = 16%nat) then Ok mem else
    for_ n (fun i data => _ ← defined (bool_decide (i * m + m <= length data)%nat && bool_decide (i * 16 + m <= length data)%nat);
      Ok (memcpy data (i * m) (i * 16) m)) mem) (fun data => length data = (16 * n)%nat /\ take (m * n) data = concat (map (le_bytes m) ys))) as Hw.
  - case_bool_decide as Hc; [subst m; cbn [wp]; split; [done|]; by rewrite take_ge by lia|].
    apply (wp_for _ _ (fun i data => length data = (16 * n)%nat /\ take (m * i) data = concat (map (le_bytes m) (take i ys)) /\
      drop (16 * i) data = concat (map (le_bytes 16) (drop i ys)))).
    + split; [done|]. rewrite Nat.mul_0_r. split; [done|]. by rewrite Nat.mul_0_r.
    + intros i data Hi (Hld & Ht & Hd). assert (16 * (i + 1) <= 16 * n /\ m * (i + 1) <= 16 * (i + 1))%nat as [? ?] by nia.
      rewrite (bool_decide_true (_ <= _)%nat), (bool_decide_true (_ + m <= _)%nat) by lia. cbn [andb]. run. rewrite memcpy_down by nia.
      destruct (lookup_lt_is_Some_2 ys i Hi) as [y Hy].
      assert (take m (drop (i * 16) data) = le_bytes m y) as ->.
      { rewrite (Nat.mul_comm i 16), Hd, (drop_S ys y i Hy). cbn [map concat].
        rewrite take_app_le by (rewrite length_le_bytes; lia). by apply take_le_bytes. }
      rewrite !length_app, length_take, length_drop, length_le_bytes, Hld. split; [lia|]. split.
      * rewrite (app_assoc (take (i * m) data)), take_app_length' by (rewrite length_app, length_take, length_le_bytes; lia).
        rewrite (Nat.mul_comm i m), Ht, (take_S_r ys i y Hy), map_app, concat_app. cbn [map concat]. by rewrite app_nil_r.
      * rewrite (app_assoc (take (i * m) data)), drop_app_ge by (rewrite length_app, length_take, length_le_bytes; lia).
        rewrite length_app, length_take, length_le_bytes, drop_drop.
        replace (i * m + m + (16 * S i - ((i * m) `min` length data + m)))%nat with (16 * i + 16)%nat by nia.
        rewrite <- (drop_drop data 16 (16 * i)), Hd, (drop_S ys y i Hy). cbn [map concat]. by rewrite drop_app_length' by (by rewrite length_le_bytes).
    + intros data (Hld & Ht & _). split; [done|]. rewrite Ht, take_ge by lia. done.
  - eapply wp_mono; [exact Hw|]. intros data [Hld Ht]. cbn beta. rewrite bool_decide_true by nia. run. by rewrite (Nat.mul_comm n m).
Qed.

(** ** The map of the receiver *)
Lemma mask_key (ys : list Z) (i m : nat) : (m <= 16)%nat -> elem (ys !!! i) ->
  (if negb (bool_decide (m = 16%nat)) then Z.land (ys !!! i) (truncate_mask m) else ys !!! i) = cut m (ys !!! i).
Proof.
  intros Hm He. unfold cut. replace (256 ^ Z.of_nat m) with (2 ^ (8 * Z.of_nat m)) by (by rewrite Z.pow_mul_r by lia).
  case_bool_decide as Hc; cbn [negb].
  - subst m. symmetry. by apply Z.mod_small.
  - rewrite truncate_mask_ones by done. by rewrite Z.land_ones by lia.
Qed.

Lemma build_map_ok (ys : list Z) m : (m <= 16)%nat -> Forall elem ys -> NoDup (map (cut m) ys) -> Forall (fun y => cut m y <> 0) ys ->
  wp (build_map ys m) (fun d => dmap_empty_key d = 0 /\ forall k i, view d !! k = Some i <-> exists y, ys !! i = Some y /\ cut m y = k).
Proof.
  intros Hm He Hnd Hnz. unfold build_map. cbn zeta.
  apply (wp_for _ _ (fun t d => dmap_empty_key d = 0 /\ forall k i, view d !! k = Some i <-> (i < t)%nat /\ exists y, ys !! i = Some y /\ cut m y = k)).
  - destruct (view_new NoHash 0) as [Ev E0]. split; [done|]. intros k i. rewrite Ev, lookup_empty. split; [done|]. intros [? _]. lia.
  - intros t d Ht [E0 Hv]. rewrite (vget_total ys) by done. run. assert (elem (ys !!! t)) as Het by (by apply (Forall_lookup_total_1 _ _ _ He)).
    rewrite mask_key by done. assert (cut m (ys !!! t) <> 0) as Hn by (by apply (Forall_lookup_total_1 _ _ _ Hnz)).
    rewrite E0. rewrite (proj2 (Z.eqb_neq _ _)) by done. run. assert (cut m (ys !!! t) <> dmap_empty_key d) as Hne by (by rewrite E0).
    destruct (view_insert d _ t Hne) as [-> Ee]. split; [by rewrite Ee|]. intros k i.
    assert (ys !! t = Some (ys !!! t)) as Ht' by (by apply list_lookup_lookup_total_lt).
    assert (forall i y, ys !! i = Some y -> cut m y = cut m (ys !!! t) -> i = t) as Hinj.
    { intros i' y Hy Hc. apply (NoDup_lookup (map (cut m) ys) i' t (cut m (ys !!! t)) Hnd); [by rewrite lookup_map, Hy, <- Hc|by rewrite lookup_map, Ht']. }
    rewrite decide_False.
    + destruct (decide (k = cut m (ys !!! t))) as [->|Hk].
      * rewrite lookup_insert_eq. split; [intros [= <-]; split; [lia|by eauto]|]. intros (_ & y & Hy & Hc). by rewrite (Hinj i y).
      * rewrite lookup_insert_ne by done. rewrite Hv. split; intros [Hi (y & Hy & Hc)]; (split; [|by eauto]); [lia|].
        destruct (decide (i = t)) as [->|]; [|lia]. congruence.
    + intros [i' Hi']. apply Hv in Hi' as (Hlt & y & Hy & Hc). specialize (Hinj _ _ Hy Hc). lia.
  - intros d [E0 Hv]. split; [done|]. intros k i. rewrite Hv. split; [intros [_ Hy]; done|]. intros (y & Hy & Hc). split; [by apply lookup_lt_Some in Hy|eauto].
Qed.

(** ** What the receiver finds *)
Section found.
Context (d : DMap) (ys : list Z) (m : nat) (cnt_map : DupCnt) (self_items : list BucketItem) (broadcast : bool).
Context (Hm : (0 < m <= 16)%nat) (Hempty : dmap_empty_key d = 0) (Hnz : Forall (fun y => cut m y <> 0) ys).
Context (Hin : forall k i, view d !! k = Some i -> (i < length self_items)%nat).

(** The own position of an item of the peer, and the pairs of some positions. *)
Definition hit (j : nat) : option nat := view d !! cut m (ys !!! j).
Definition hits (js : list nat) : list (nat * nat) := omap (fun j => (fun i => (i, j)) <$> hit j) js.
Definition found_of (hs : list (nat * nat)) : Found :=
  mkFound (map (fun h => u32 (Z.of_nat h.1)) hs) (map (fun h => count cnt_map (Z.of_nat h.2)) hs)
    (if broadcast then map (fun h => u32 (Z.of_nat h.2)) hs else [])
    (if broadcast then map (fun h => extra_dup_cnt (self_items !!! h.1)) hs else []).

Lemma hits_app js js' : hits (js ++ js') = hits js ++ hits js'.
Proof. apply omap_app. Qed.

Lemma merge_found_of hs hs' : merge_found broadcast (found_of hs') (found_of hs) = found_of (hs ++ hs').
Proof.
  unfold merge_found. destruct hs' as [|h hs']; [by rewrite (app_nil_r hs)|]. set (l := h :: hs'). cbn [f_indices found_of map l]. fold l.
  unfold found_of. cbn [f_indices f_peer_cnt f_peer_indices f_self_cnt]. rewrite !map_app. by destruct broadcast.
Qed.

Lemma copy_in_ok data y : 0 <= data < 256 ^ Z.of_nat m -> copy_in data (le_bytes m y) = cut m y.
Proof.
  intros Hd. unfold copy_in. rewrite length_le_bytes, le_value_bytes. rewrite Z.shiftr_div_pow2 by lia.
  replace (2 ^ (8 * Z.of_nat m)) with (256 ^ Z.of_nat m) by (by rewrite Z.pow_mul_r by lia). rewrite Z.div_small by done.
  rewrite Z.shiftl_0_l. unfold cut. lia.
Qed.

Lemma find_range_ok r : Forall (fun j => (j < length ys)%nat) (range_of r) ->
  find_range d (concat (map (le_bytes m) ys)) m cnt_map self_items broadcast r = Ok (found_of (hits (range_of r))).
Proof.
  intros Hr. unfold find_range. apply wp_eq, wp_bind. destruct r as [a e]. unfold range_of in *. cbn [fst snd] in *.
  apply (wp_for _ _ (fun k '(found, data) => found = found_of (hits (seq a k)) /\ 0 <= data < 256 ^ Z.of_nat m)).
  - split; [by unfold found_of; destruct broadcast|]. split; [lia|]. by apply Z.pow_pos_nonneg; lia.
  - intros k [found data] Hk [-> Hd]. assert (a + k < length ys)%nat as Hj.
    { apply (proj1 (Forall_forall _ _) Hr). apply elem_of_seq. lia. }
    set (j := (a + k)%nat) in *. assert (ys !! j = Some (ys !!! j)) as Hy by (by apply list_lookup_lookup_total_lt).
    rewrite (bool_decide_true (_ <= _)%nat) by (rewrite length_le_concat; nia). run.
    rewrite (Nat.mul_comm j m), (le_concat_at m ys j (ys !!! j) Hy), copy_in_ok by done.
    assert (cut m (ys !!! j) <> 0) as Hn by (by apply (Forall_lookup_total_1 _ _ _ Hnz)).
    rewrite Hempty, (proj2 (Z.eqb_neq _ _)) by done. run. rewrite view_find by (by rewrite Hempty).
    assert (0 <= cut m (ys !!! j) < 256 ^ Z.of_nat m) as Hc by (apply Z.mod_pos_bound; by apply Z.pow_pos_nonneg; lia).
    assert (hits (seq a (S k)) = hits (seq a k) ++ match hit j with Some i => [(i, j)] | None => [] end) as ->.
    { rewrite seq_S, hits_app. f_equal. unfold hits. cbn. fold j. by destruct (hit j). }
    unfold hit. destruct (view d !! cut m (ys !!! j)) as [i|] eqn:Ev.
    + specialize (Hin _ _ Ev). assert (forall hs, found_of (hs ++ [(i, j)]) = mkFound (f_indices (found_of hs) ++ [u32 (Z.of_nat i)]) (f_peer_cnt (found_of hs) ++ [count cnt_map (Z.of_nat j)])
        (if broadcast then f_peer_indices (found_of hs) ++ [u32 (Z.of_nat j)] else f_peer_indices (found_of hs))
        (if broadcast then f_self_cnt (found_of hs) ++ [extra_dup_cnt (self_items !!! i)] else f_self_cnt (found_of hs))) as ->.
      { intros hs. unfold found_of. cbn [f_indices f_peer_cnt f_peer_indices f_self_cnt]. rewrite !map_app. by destruct broadcast. }
      destruct broadcast; cbn [f_indices f_peer_cnt f_peer_indices f_self_cnt]; [|run; done].
      rewrite bool_decide_true by done. run. rewrite (vget_total self_items) by done. run. done.
    + run. by rewrite app_nil_r.
  - intros [found data] [-> _]. done.
Qed.

Lemma find_all ranges : Forall (fun j => (j < length ys)%nat) (concat (map range_of ranges)) ->
  for_each ranges (fun r all =>
    tmp ← find_range d (concat (map (le_bytes m) ys)) m cnt_map self_items broadcast r; Ok (merge_found broadcast tmp all)) no_match =
  Ok (found_of (hits (concat (map range_of ranges)))).
Proof.
  intros HF. apply wp_eq. apply (wp_for_each _ _ (fun l all => all = found_of (hits (concat (map range_of l))))).
  - unfold found_of. by destruct broadcast.
  - intros l1 r l2 all -> ->. rewrite find_range_ok.
    + run. rewrite merge_found_of, <- hits_app, map_app, concat_app. cbn [map concat]. by rewrite app_nil_r.
    + rewrite map_app, concat_app in HF. cbn [map concat] in HF. apply Forall_app in HF as [_ HF]. by apply Forall_app in HF as [? _].
Qed.
End found.

(** ** The counts *)
Lemma fold_counts (f : DupCnt -> Z * Z -> DupCnt) : (forall m k v, m !! k = None -> f m (k, v) = <[k := v]> m) ->
  forall l m, NoDup (l.*1) -> (forall k, k ∈ l.*1 -> m !! k = None) -> foldl f m l = list_to_map l ∪ m.
Proof.
  intros Hf. induction l as [|[k v] l IH]; intros m Hnd Hm; [symmetry; apply (left_id_L ∅ (∪))|]. cbn [fmap list_fmap fst] in Hnd, Hm.
  apply NoDup_cons in Hnd as [Hk Hnd]. cbn [foldl list_to_map foldr]. rewrite Hf by (apply Hm; by left). rewrite IH.
  - rewrite <- insert_union_l, <- insert_union_r; [done|]. by apply not_elem_of_list_to_map_1.
  - done.
  - intros k' Hk'. rewrite lookup_insert_ne by (intros ->; done). apply Hm. by right.
Qed.

Lemma Deserialize_SerializeItemsCnt m : DeserializeItemsCnt (SerializeItemsCnt m) = m.
Proof.
  unfold DeserializeItemsCnt, SerializeItemsCnt. rewrite cnt_roundtrip. rewrite !fold_counts; try apply NoDup_fst_map_to_list.
  - rewrite !(right_id_L ∅ (∪)). by rewrite !list_to_map_to_list.
  - intros m' k v Hk. rewrite decide_False; [done|]. rewrite Hk. by intros [].
  - intros. apply lookup_empty.
  - done.
  - intros. apply lookup_empty.
Qed.

Lemma positive_counts_ok cnts : wp (positive_counts cnts) (fun M => forall k c, M !! k = Some c <-> exists i, k = Z.of_nat i /\ cnts !! i = Some c /\ 0 < c).
Proof.
  unfold positive_counts. apply (wp_for _ _ (fun t M => forall k c, M !! k = Some c <-> exists i, (i < t)%nat /\ k = Z.of_nat i /\ cnts !! i = Some c /\ 0 < c)).
  - intros k c. rewrite lookup_empty. split; [done|]. intros (i & ? & _). lia.
  - intros t M Ht HM. rewrite (vget_total cnts) by done. run. assert (cnts !! t = Some (cnts !!! t)) as Hc by (by apply list_lookup_lookup_total_lt).
    intros k c. destruct (Z.ltb_spec 0 (cnts !!! t)) as [Hp|Hp].
    + destruct (decide (k = Z.of_nat t)) as [->|Hk].
      * rewrite lookup_insert_eq. split; [intros [= <-]; exists t; by repeat split; [lia|..]|]. intros (i & _ & Hi%Nat2Z.inj & Hci & _). subst i. congruence.
      * rewrite lookup_insert_ne by done. rewrite HM. split; intros (i & Hi & -> & ?); exists i; (split; [|done]); [lia|].
        destruct (decide (i = t)) as [->|]; [done|lia].
    + rewrite HM. split; intros (i & Hi & -> & Hci & H0c); exists i; (split; [|done]); [lia|].
      destruct (decide (i = t)) as [->|]; [|lia]. rewrite Hc in Hci. injection Hci as <-. lia.
  - intros M HM k c. rewrite HM. split; intros (i & Hi); [|destruct Hi as (-> & Hi & ?)]; exists i; [by destruct Hi as (_ & ?)|].
    split; [by apply lookup_lt_Some in Hi|done].
Qed.

Lemma count_positive cnts M i : (forall k c, M !! k = Some c <-> exists i, k = Z.of_nat i /\ cnts !! i = Some c /\ 0 < c) ->
  (i < length cnts)%nat -> 0 <= cnts !!! i -> count M (Z.of_nat i) = cnts !!! i.
Proof.
  intros HM Hi H0'. unfold count. assert (cnts !! i = Some (cnts !!! i)) as Hc by (by apply list_lookup_lookup_total_lt).
  destruct (M !! Z.of_nat i) as [c|] eqn:E; cbn [default].
  - apply HM in E as (i' & Hi'%Nat2Z.inj & Hc' & _). subst i'. cbn. congruence.
  - cbn. destruct (decide (cnts !!! i = 0)); [done|]. assert (M !! Z.of_nat i = Some (cnts !!! i)) as E'; [|congruence].
    apply HM. exists i. by repeat split; [|lia].
Qed.

Lemma count_touched n m k : count (loop n (fun i c => touch c (Z.of_nat i)) m) k = count m k.
Proof.
  apply (loop_inv n _ (fun _ m' => count m' k = count m k)); [done|]. intros i m' Hi IH. rewrite <- IH. unfold touch, count.
  case_decide as Hd; [done|]. destruct (decide (k = Z.of_nat i)) as [->|Hk]; [|by rewrite lookup_insert_ne].
  rewrite lookup_insert_eq. destruct (m' !! Z.of_nat i); [|done]. by destruct Hd.
Qed.

(** ** What the sender reads back *)
Lemma SenderResult_ok idxs cnts M : Forall (in_u 32) idxs -> length cnts = length idxs -> Forall (fun c => 0 <= c) cnts -> 
  (forall k c, M !! k = Some c <-> exists i, k = Z.of_nat i /\ cnts !! i = Some c /\ 0 < c) ->
  SenderResult true (Some (concat (map (le_bytes 4) idxs), SerializeItemsCnt M)) = Ok (idxs, cnts).
Proof.
  intros Hi Hl Hc HM. unfold SenderResult. rewrite length_le_concat. rewrite (Nat.mul_comm 4). rewrite bool_decide_true by (by apply Nat.Div0.mod_mul).
  run. rewrite Nat.div_mul by done.
  assert (for_ (length idxs) (fun i acc => w ← memcpy_from (concat (map (le_bytes 4) idxs)) (4 * i) 4; Ok (acc ++ [w])) [] = Ok idxs) as ->.
  { apply wp_eq. apply (wp_for _ _ (fun t acc => acc = take t idxs)); [done| |intros acc ->; by rewrite take_ge].
    intros t acc Ht ->. destruct (lookup_lt_is_Some_2 idxs t Ht) as [x Hx]. unfold memcpy_from.
    rewrite bool_decide_true by (rewrite length_le_concat; lia). run. rewrite (le_concat_at 4 idxs t x Hx), le_value_bytes.
    rewrite Z.mod_small; [by rewrite (take_S_r idxs t x Hx)|]. apply (Forall_lookup_1 _ _ _ _ Hi Hx). }
  run. rewrite Deserialize_SerializeItemsCnt.
  assert (for_each (map_to_list M) (fun '(k, v) acc => vsetz acc k v) (replicate (length idxs) 0) = Ok cnts) as ->; [|done].
  apply wp_eq. eapply wp_mono.
  - apply (wp_for_each _ _ (fun l acc => length acc = length cnts /\ forall i, (i < length cnts)%nat -> acc !!! i = if bool_decide (Z.of_nat i ∈ l.*1) then cnts !!! i else 0)).
    + rewrite length_replicate. split; [done|]. intros i Hi'. rewrite lookup_total_replicate_2 by lia. by rewrite bool_decide_false by (intros Hn; by apply not_elem_of_nil in Hn).
    + intros l1 [k v] l2 acc El [Hla Hacc]. assert ((k, v) ∈ map_to_list M) as Hkv by (rewrite El; set_solver).
      apply elem_of_map_to_list, HM in Hkv as (i & -> & Hci & _). assert (i < length cnts)%nat as Hlt by (by apply lookup_lt_Some in Hci).
      rewrite vsetz_vset by lia. rewrite Nat2Z.id, vset_total by lia. cbn [wp]. rewrite length_insert. split; [done|]. intros i' Hi'.
      rewrite fmap_app. cbn [fmap list_fmap fst]. destruct (decide (i' = i)) as [->|Hne].
      * rewrite list_lookup_total_insert_eq by lia. rewrite bool_decide_true by set_solver. symmetry. by apply list_lookup_total_correct.
      * rewrite list_lookup_total_insert_ne by done. rewrite Hacc by done. rewrite (bool_decide_ext (Z.of_nat i' ∈ l1.*1) (Z.of_nat i' ∈ l1.*1 ++ [Z.of_nat i])); [done|].
        rewrite elem_of_app, list_elem_of_singleton, Nat2Z.inj_iff. naive_solver.
  - cbn beta. intros acc [Hla Hacc]. apply list_eq_total; [done|]. intros i Hi'. rewrite Hacc by lia. case_bool_decide as Hk; [done|].
    assert (cnts !! i = Some (cnts !!! i)) as Hci by (apply list_lookup_lookup_total_lt; lia). assert (0 <= cnts !!! i) as H0' by (apply (Forall_lookup_1 _ _ _ _ Hc Hci)).
    destruct (decide (cnts !!! i = 0)); [done|]. destruct Hk. apply list_elem_of_fmap. exists (Z.of_nat i, cnts !!! i). split; [done|].
    apply elem_of_map_to_list, HM. exists i. by repeat split; [|lia].
Qed.

(** ** The intersection *)

(** The positions of the items the peer has too, each once, with the extra counts
    of the peer. *)
Record matches (own peer : list BucketItem) (indices cnts : list Z) : Prop := {
  mt_once : NoDup indices;
  mt_items z : z ∈ indices <-> exists i x, z = Z.of_nat i /\ own !! i = Some x /\ base64_data x ∈ map base64_data peer;
  mt_length : length cnts = length indices;
  mt_counts k z c : indices !! k = Some z -> cnts !! k = Some c ->
    exists x y, own !! Z.to_nat z = Some x /\ y ∈ peer /\ base64_data y = base64_data x /\ c = extra_dup_cnt y
}.

(** The pairs of positions of equal items. *)
Definition pairs (own peer : list BucketItem) (hs : list (nat * nat)) : Prop :=
  NoDup hs /\ forall i j, (i, j) ∈ hs <-> exists x y, own !! i = Some x /\ peer !! j = Some y /\ base64_data x = base64_data y.

Lemma pairs_swap own peer hs : pairs own peer hs -> pairs peer own (map (fun h => (h.2, h.1)) hs).
Proof.
  intros [Hnd Hp]. split.
  - apply NoDup_fmap_2; [|done]. intros [? ?] [? ?]. cbn. congruence.
  - intros j i. rewrite list_elem_of_fmap. split.
    + intros ([i' j'] & [= -> ->] & (x & y & ? & ? & ?)%Hp). by exists y, x.
    + intros (y & x & ? & ? & ?). exists (i, j). split; [done|]. apply Hp. by exists x, y.
Qed.

Lemma matches_pairs own peer hs : NoDup (map base64_data peer) -> pairs own peer hs ->
  matches own peer (map (fun h => Z.of_nat h.1) hs) (map (fun h => extra_dup_cnt (peer !!! h.2)) hs).
Proof.
  intros Hpeer [Hnd Hp]. constructor.
  - apply NoDup_fmap_2_strong; [|done]. intros [i j] [i' j'] (x & y & Hx & Hy & E)%Hp (x' & y' & Hx' & Hy' & E')%Hp Hi%Nat2Z.inj. cbn in Hi. subst i'.
    f_equal. apply (NoDup_lookup _ _ _ (base64_data y) Hpeer); rewrite lookup_map; [by rewrite Hy|]. rewrite Hy'. cbn. congruence.
  - intros z. rewrite list_elem_of_fmap. split.
    + intros ([i j] & -> & (x & y & Hx & Hy & E)%Hp). exists i, x. do 2 (split; [done|]). apply list_elem_of_fmap. exists y. split; [done|]. by eapply list_elem_of_lookup_2.
    + intros (i & x & -> & Hx & (y & E & [j Hy]%list_elem_of_lookup)%list_elem_of_fmap). exists (i, j). split; [done|]. apply Hp. by exists x, y.
  - by rewrite !length_map.
  - intros k z c. rewrite !lookup_map. destruct (hs !! k) as [[i j]|] eqn:Ek; [|done]. cbn. intros [= <-] [= <-].
    apply list_elem_of_lookup_2, Hp in Ek as (x & y & Hx & Hy & E). exists x, y. rewrite Nat2Z.id. repeat split; [done| |done|].
    + by eapply list_elem_of_lookup_2.
    + f_equal. by apply list_lookup_total_correct.
Qed.

(** The values tell the items apart. *)
Record tells_apart (F : Z -> Z) (Blake3 : bytes -> Z) (m : nat) (data : list bytes) : Prop := {
  ta_nonzero x : x ∈ data -> cut m (F (Blake3 x)) <> 0;
  ta_injective x y : x ∈ data -> y ∈ data -> cut m (F (Blake3 x)) = cut m (F (Blake3 y)) -> x = y
}.

Section compare.
Context (F : Z -> Z) (Blake3 : bytes -> Z) (own peer : list BucketItem) (m threads : nat) (broadcast : bool).
Definition values (l : list BucketItem) : list Z := map (fun x => F (Blake3 (base64_data x))) l.
Context (Hm : (0 < m <= 16)%nat) (Hth : (0 < threads)%nat) (Hno : NoDup (map base64_data own)).
Context (Hlo : Z.of_nat (length own) < 2 ^ 32) (Hlp : Z.of_nat (length peer) < 2 ^ 32) (Hp0 : (0 < length peer)%nat).
Context (Hxo : Forall (fun x => 0 <= extra_dup_cnt x) own) (Hxp : Forall (fun x => 0 <= extra_dup_cnt x) peer).
Context (HF : forall x, elem (F (Blake3 x))) (Hta : tells_apart F Blake3 m (map base64_data own ++ map base64_data peer)).

Lemma data_of x : x ∈ own \/ x ∈ peer -> base64_data x ∈ map base64_data own ++ map base64_data peer.
Proof. intros [Hx|Hx]; apply elem_of_app; [left|right]; apply list_elem_of_fmap; by exists x. Qed.

Lemma values_Forall (Q : Z -> Prop) l : (forall x, x ∈ l -> Q (F (Blake3 (base64_data x)))) -> Forall Q (values l).
Proof. intros HQ. apply Forall_fmap, Forall_forall. intros x Hx. by apply HQ. Qed.

Lemma values_lookup l i y : values l !! i = Some y <-> exists x, l !! i = Some x /\ y = F (Blake3 (base64_data x)).
Proof. unfold values. rewrite lookup_map. destruct (l !! i); cbn; naive_solver. Qed.

Lemma values_NoDup : NoDup (map (cut m) (values own)).
Proof.
  unfold values. rewrite map_map, <- (map_map base64_data (fun x => cut m (F (Blake3 x)))). apply NoDup_fmap_2_strong; [|done].
  intros x y Hx Hy E. apply (ta_injective _ _ _ _ Hta); [by apply elem_of_app; left..|done].
Qed.

Lemma hits_NoDup d ys js : NoDup js -> NoDup (hits d ys m js).
Proof.
  clear. induction js as [|j js IH]; intros Hnd; [apply NoDup_nil_2|]. apply NoDup_cons in Hnd as [Hj Hnd]. cbn.
  destruct (hit d ys m j) as [i|]; cbn; [|by apply IH]. apply NoDup_cons. split; [|by apply IH].
  intros (j' & Hj' & E)%list_elem_of_omap. destruct (hit _ _ _ j'); [|done]. cbn in E. injection E as _ ->. done.
Qed.

(** What the map finds are the pairs of equal items. *)
Lemma hits_pairs d js : (forall k i, view d !! k = Some i <-> exists y, values own !! i = Some y /\ cut m y = k) ->
  js ≡ₚ seq 0 (length peer) -> pairs own peer (hits d (values peer) m js).
Proof.
  intros Hview Hjs. split; [apply hits_NoDup; rewrite Hjs; apply NoDup_seq|]. intros i j. unfold hits. rewrite list_elem_of_omap.
  transitivity (j ∈ js /\ hit d (values peer) m j = Some i).
  { split; [intros (j' & Hj' & E); destruct (hit _ _ _ j') eqn:Eh; [|done]; cbn in E; by injection E as -> ->|].
    intros [Hj Eh]. exists j. by rewrite Eh. }
  rewrite Hjs, elem_of_seq. unfold hit. rewrite Hview.
  assert (forall z, peer !! j = Some z -> values peer !!! j = F (Blake3 (base64_data z))) as Hat.
  { intros z Hz. apply list_lookup_total_correct, values_lookup. by exists z. }
  split.
  - intros [Hj (y & (x & Hx & ->)%values_lookup & Hc)]. destruct (lookup_lt_is_Some_2 peer j ltac:(lia)) as [z Hz]. exists x, z.
    do 2 (split; [done|]). rewrite (Hat z Hz) in Hc. apply (ta_injective _ _ _ _ Hta); [apply data_of..|done]; [left|right]; by eapply list_elem_of_lookup_2.
  - intros (x & z & Hx & Hz & E). split; [apply lookup_lt_Some in Hz; lia|]. exists (F (Blake3 (base64_data x))).
    split; [apply values_lookup; by exists x|]. by rewrite (Hat z Hz), E.
Qed.

Lemma pairs_bound hs : pairs own peer hs -> Forall (fun h => (h.1 < length own)%nat /\ (h.2 < length peer)%nat) hs.
Proof. clear. intros [_ Hp]. apply Forall_forall. intros [i j] (x & y & Hx%lookup_lt_Some & Hy%lookup_lt_Some & _)%Hp. by split. Qed.

Lemma pairs_u32 (f : nat * nat -> nat) hs : Forall (fun h => Z.of_nat (f h) < 2 ^ 32) hs -> map (fun h => u32 (Z.of_nat (f h))) hs = map (fun h => Z.of_nat (f h)) hs.
Proof. clear. intros HF. apply map_ext_in. intros h Hh%list_elem_of_In. apply (proj1 (Forall_forall _ _) HF) in Hh. apply u32_small. lia. Qed.

(** The counts the receiver looks up are those of the items. *)
Lemma peer_counts Mp hs : (forall k c, Mp !! k = Some c <-> exists i, k = Z.of_nat i /\ map extra_dup_cnt peer !! i = Some c /\ 0 < c) -> pairs own peer hs ->
  map (fun h => count (loop (length peer) (fun i c => touch c (Z.of_nat i)) Mp) (Z.of_nat h.2)) hs = map (fun h => extra_dup_cnt (peer !!! h.2)) hs.
Proof.
  intros HMp Hb%pairs_bound. apply map_ext_in. intros h Hh%list_elem_of_In. apply (proj1 (Forall_forall _ _) Hb) in Hh as [_ Hj]. rewrite count_touched.
  assert (map extra_dup_cnt peer !!! h.2 = extra_dup_cnt (peer !!! h.2)) as E by (apply list_lookup_total_correct; by rewrite lookup_map, list_lookup_lookup_total_lt).
  rewrite (count_positive (map extra_dup_cnt peer) Mp); [exact E|done|by rewrite length_map|]. rewrite E.
  by apply (Forall_lookup_total_1 (fun x => 0 <= extra_dup_cnt x)).
Qed.

Lemma tells_apart_perm data data' : data ≡ₚ data' -> tells_apart F Blake3 m data -> tells_apart F Blake3 m data'.
Proof. clear. intros E [Hz Hi]. constructor; [intros x|intros x y]; rewrite <- !E; auto. Qed.

Lemma Receiver_ok Mp : (forall k c, Mp !! k = Some c <-> exists i, k = Z.of_nat i /\ map extra_dup_cnt peer !! i = Some c /\ 0 < c) ->
  exists hs reply, pairs own peer hs /\
    GetIntersectionReceiver (values own) own (length peer) (concat (map (le_bytes m) (values peer))) (SerializeItemsCnt Mp) threads m broadcast =
      Ok (map (fun h => Z.of_nat h.1) hs, map (fun h => extra_dup_cnt (peer !!! h.2)) hs, reply) /\
    SenderResult broadcast reply = Ok (if broadcast then (map (fun h => Z.of_nat h.2) hs, map (fun h => extra_dup_cnt (own !!! h.1)) hs) else ([], [])).
Proof.
  intros HMp. destruct (proj1 (wp_iff _ _) (build_map_ok (values own) m ltac:(lia)
    ltac:(by apply values_Forall) values_NoDup
    ltac:(apply values_Forall; intros; apply (ta_nonzero _ _ _ _ Hta), data_of; by left))) as (d & Ed & Hempty & Hview).
  set (grain := ((length peer + threads - 1) / threads)%nat). assert (0 < grain)%nat as Hg by (apply Nat.div_str_pos; lia).
  set (js := concat (map range_of (parallel_for (length peer) grain))). assert (js ≡ₚ seq 0 (length peer)) as Hjs by (by apply parallel_for_cover).
  set (hs := hits d (values peer) m js). pose proof (hits_pairs d js Hview Hjs : pairs own peer hs) as Hpairs. pose proof (pairs_bound hs Hpairs) as Hb.
  destruct (proj1 (wp_iff _ _) (positive_counts_ok (map (fun h => extra_dup_cnt (own !!! h.1)) hs))) as (Mo & EMo & HMo).
  exists hs, (if broadcast then Some (concat (map (le_bytes 4) (map (fun h => Z.of_nat h.2) hs)), SerializeItemsCnt Mo) else None).
  split; [exact Hpairs|]. assert (length (values peer) = length peer) as Hlv by apply length_map. split.
  - unfold GetIntersectionReceiver. rewrite Ed. run. rewrite (bool_decide_false (m = 0%nat)) by lia. run.
    rewrite length_le_concat, Hlv, (Nat.mul_comm m), Nat.div_mul, (bool_decide_true (length peer = length peer)) by (lia || done). run.
    rewrite (bool_decide_false (threads = 0%nat)) by lia. run. fold grain. rewrite Deserialize_SerializeItemsCnt.
    rewrite (find_all d (values peer) m); try done.
    + fold js. fold hs. run. unfold found_of. cbn [f_indices f_peer_cnt f_peer_indices f_self_cnt]. rewrite (pairs_u32 fst), peer_counts by
        (done || (eapply Forall_impl; [exact Hb|]; cbn; lia)).
      destruct broadcast; [|done]. rewrite EMo. run. rewrite (pairs_u32 snd) by (eapply Forall_impl; [exact Hb|]; cbn; lia). done.
    + apply values_Forall. intros. apply (ta_nonzero _ _ _ _ Hta), data_of. by right.
    + intros k i Hk. by apply Hview in Hk as (y & (x & Hx%lookup_lt_Some & _)%values_lookup & _).
    + fold js. rewrite Hjs. apply Forall_forall. intros j Hj%elem_of_seq. lia.
  - destruct broadcast; [|done]. apply SenderResult_ok; [|by rewrite !length_map| |exact HMo]; apply Forall_fmap; (eapply Forall_impl; [exact Hb|]); intros h [Hi Hj]; cbn.
    + split; lia.
    + by apply (Forall_lookup_total_1 (fun x => 0 <= extra_dup_cnt x)).
Qed.
End compare.
End intersection.

(** ** The whole bucket *)
Lemma hash_items_ok Blake3 items : hash_items Blake3 items = Ok (map (fun x => Blake3 (base64_data x)) items).
Proof.
  unfold hash_items. rewrite (for_slots _ (fun i => Blake3 (base64_data (items !!! i)))); [|apply length_replicate|].
  - f_equal. symmetry. apply eq_tabulate; [apply length_map|]. intros i Hi. apply list_lookup_total_correct.
    by rewrite lookup_map, list_lookup_lookup_total_lt.
  - intros t s Ht Hs _. rewrite (vget_total items) by done. run. by rewrite vset_total by lia.
Qed.

Lemma Prepare_core_ok log2 Blake3 options idx items peer m : ExchangeTruncateSize log2 (length items) (length items, peer) options = Ok (m, peer) ->
  items <> [] -> (0 < peer)%nat ->
  Prepare_core log2 Blake3 options idx items (length items, peer) = Ok (mkCore idx peer m (map (fun x => Blake3 (base64_data x)) items) [] items false).
Proof.
  intros E Hi Hp. unfold Prepare_core. rewrite E. run. rewrite !bool_decide_false by (lia || (destruct items; [done|cbn; lia])). cbn [orb].
  rewrite hash_items_ok. done.
Qed.

(** The sizes are the same to both. *)
Lemma ExchangeTruncateSize_sym log2 a b options_a options_b m : compress options_a = compress options_b -> ssp options_a = ssp options_b ->
  malicious options_a = malicious options_b -> ExchangeTruncateSize log2 a (a, b) options_a = Ok (m, b) -> ExchangeTruncateSize log2 b (b, a) options_b = Ok (m, a) /\ (m <= 16)%nat.
Proof.
  intros Ec Es Em. unfold ExchangeTruncateSize. cbn [fst snd]. rewrite !bool_decide_true by done. run. rewrite <- Ec, <- Es, <- Em.
  unfold ComputeTruncateSize. rewrite (Z.mul_comm (Z.of_nat b)). destruct (compress options_a); [|run; intros [= <-]; split; [done|lia]].
  destruct (malicious options_a); [run; intros [= <-]; split; [done|lia]|]. destruct (u64_of_f64 _) as [z| |]; run; [|done..].
  intros [= <-]. split; [done|lia].
Qed.

Section bucket.
Context `{SymmetricCrypto} `{LibdivideLaws} `{BlockCipherLaws} (avx : bool) (Log2Ceil : Z -> Z) (GetBinSize : nat -> nat -> nat -> nat) (junk : nat -> Z).
Context (OprfEncrypt : Z -> Z) (ro : Z -> list Z).
Context `{DenseHashMapLaws} `{CntProtoLaws} `{ParallelForLaws} `{MemcpyLaws}.
Context (log2 : double -> double) (Blake3 : bytes -> Z) (shuffle : list BucketItem -> list BucketItem).
Context (Baxos_Init : nat -> Baxos) (Paxos_Init : nat -> Paxos) (vole : nat -> Vole).

(** What the code relies on: the ciphers and hashes give words, the vector OLE its
    relation, the shuffle a permutation. *)
Record calls_ok : Prop := {
  co_ro ws : length (ro ws) = 32%nat;
  co_enc x : elem (Encrypt x);
  co_oprf x : elem (OprfEncrypt x);
  co_aes k x : elem (Aes k x);
  co_blake3 x : elem (Blake3 x);
  co_vole n : vole_correct n (vole n);
  co_shuffle l : shuffle l ≡ₚ l
}.

(** The function of the OPRF on a bucket: it is that of the vector the receiver
    solves for. *)
Definition bucket_oprf (mal : bool) (n : nat) (w : Z) (P : list Z) : Z -> Z :=
  oprf avx Log2Ceil OprfEncrypt (Baxos_Init n) (Paxos_Init n) vole mal w P.
Definition item_hashes (items : list BucketItem) : list Z := map (fun x => Blake3 (base64_data x)) items.

(** What each party computes, from what the vector OLE and its options give it. *)
Lemma Receiver_RunOprf_ok mal nth o ws wr c n : let b := Baxos_Init n in let v := vole (v_size FastMode b (Paxos_Init n)) in
  calls_ok -> well_formed (idx_bits Log2Ceil b) b -> add_to_decode_ b = false -> null_bucket_ c = false -> Forall elem (inputs_hash_ c) ->
  spread avx (idx_bits Log2Ceil b) GetBinSize b nth (inputs_hash_ c) ->
  o_hash o ≡ₚ seq 0 (threads nth) -> o_bin o ≡ₚ seq 0 (threads nth) -> o_recv o ≡ₚ seq 0 (Nat.max nth 1) ->
  outcome (some_bin_fails avx (idx_bits Log2Ceil b) b (inputs_hash_ c))
    (Receiver_RunOprf avx Log2Ceil GetBinSize junk OprfEncrypt ro o ws wr c (Some (mkReceiver FastMode mal nth b (Paxos_Init n) (vole_a v) (vole_c v))))
    (fun '(c', msgs) => exists P M prng, solve_keys avx Log2Ceil GetBinSize junk OprfEncrypt b (o_hash o) (o_bin o) nth (inputs_hash_ c) = Ok (P, prng) /\
       holds_keys avx Log2Ceil OprfEncrypt b (inputs_hash_ c) P /\ length M = (num_bins_ b * Paxos.size (paxos_param_ b))%nat /\
       (forall i, (i < num_bins_ b * Paxos.size (paxos_param_ b))%nat -> M !!! i = Z.lxor (P !!! i) (vole_a v !!! i)) /\
       msgs = SendChunked kSendChunkSize M /\ c' = with_oprfs c (map (bucket_oprf mal n (Z.lxor wr ws) P) (inputs_hash_ c))).
Proof.
  intros b v [Hro Henc Hoprf _ _ Hvole _] Hwf Hadd Hnb He Hsp Hoh Hob Hor. unfold Receiver_RunOprf. rewrite Hnb. unfold Recv. cbn [r_mode].
  apply outcome_bind. eapply outcome_mono; [by eapply RecvFast_ok|]. intros [[outs msgs] r] (P & M & prng & HS & HP & HM & Hrel & -> & ->).
  run. by exists P, M, prng.
Qed.

Lemma Sender_RunOprf_ok mal nth o ws wr c n P M xs : let b := Baxos_Init n in let v := vole (v_size FastMode b (Paxos_Init n)) in
  calls_ok -> well_formed (idx_bits Log2Ceil b) b -> add_to_decode_ b = false -> null_bucket_ c = false -> Forall elem (inputs_hash_ c) ->
  o_send o ≡ₚ seq 0 (Nat.max nth 1) -> holds_keys avx Log2Ceil OprfEncrypt b xs P -> length M = (num_bins_ b * Paxos.size (paxos_param_ b))%nat ->
  (forall i, (i < num_bins_ b * Paxos.size (paxos_param_ b))%nat -> M !!! i = Z.lxor (P !!! i) (vole_a v !!! i)) ->
  Sender_RunOprf avx Log2Ceil junk OprfEncrypt o ws wr c
    (Some (mkSender FastMode mal nth b (Paxos_Init n) (store_size FastMode b (Paxos_Init n)) (vole_delta v) (vole_b v) 0)) (SendChunked kSendChunkSize M) =
  Ok (with_oprfs c (map (bucket_oprf mal n (Z.lxor wr ws) P) (inputs_hash_ c))).
Proof.
  intros b v [Hro Henc Hoprf _ _ Hvole _] Hwf Hadd Hnb He Hos HP HM Hrel. unfold Sender_RunOprf. rewrite Hnb.
  pose proof (sender_ok avx Log2Ceil junk OprfEncrypt Henc Hoprf b (Paxos_Init n) vole Hvole Hwf Hadd mal nth (o_send o) (inputs_hash_ c) wr ws P M xs _ He Hos HP HM Hrel eq_refl) as Hs.
  change (store_size FastMode b (Paxos_Init n)) with (num_bins_ b * Paxos.size (paxos_param_ b))%nat.
  set (mm := Send _ _ _ _ _ _ _) in *. destruct mm as [[hashes s]| |]; [|done..]. cbn [mbind res_bind] in Hs |- *.
  set (mm := Eval_hashed _ _ _ _ _ _ _ _) in *. destruct mm as [[evals s']| |]; [|done..]. cbn [wp mbind res_bind] in Hs |- *. by subst evals.
Qed.

End bucket.

(** *** Witness: four items of the receiver, three of the sender, two in common *)
Definition toy_dense_map : DenseHashMap := {|
  DMap := Z * gmap Z nat;
  dmap_new _ e := (e, ∅);
  dmap_empty_key := fst;
  dmap_insert m k i := (m.1, if decide (is_Some (m.2 !! k)) then m.2 else <[k := i]> m.2);
  dmap_find m k := m.2 !! k
|}.
Lemma toy_dense_map_laws : @DenseHashMapLaws toy_dense_map snd.
Proof. constructor; done. Qed.

Fixpoint toy_pairs (l : bytes) : list (Z * Z) := match l with k :: v :: l' => (k, v) :: toy_pairs l' | _ => [] end.
Definition toy_cnt_proto : CntProto := {|
  cnt_serialize m := concat (map (fun p => [p.1; p.2]) (map_to_list m));
  cnt_parse buf := list_to_map (toy_pairs buf)
|}.
Lemma toy_cnt_proto_laws : @CntProtoLaws toy_cnt_proto.
Proof.
  constructor. intros m. cbn. assert (forall l, toy_pairs (concat (map (fun p => [p.1; p.2]) l)) = l) as ->; [|apply list_to_map_to_list].
  induction l as [|[k v] l IH]; [done|]. cbn. by rewrite IH.
Qed.

Definition toy_parallel_for : ParallelFor := {| parallel_for n _ := [((n / 2)%nat, n); (0%nat, (n / 2)%nat)] |}.
Lemma toy_parallel_for_laws : @ParallelForLaws toy_parallel_for.
Proof.
  constructor. intros n grain _. change (seq (n / 2) (n - n / 2) ++ seq 0 (n / 2 - 0) ++ [] ≡ₚ seq 0 n). rewrite app_nil_r, Nat.sub_0_r, Permutation_app_comm.
  pose proof (Nat.div_lt n 2) as Hlt. pose proof (Nat.Div0.div_le_upper_bound n 2 n ltac:(lia)).
  rewrite <- seq_app. by replace (n / 2 + (n - n / 2))%nat with n by lia.
Qed.

Definition toy_memcpy : Memcpy := {| memcpy l dst src n := take dst l ++ take n (drop src l) ++ drop (dst + n) l |}.
Lemma toy_memcpy_laws : @MemcpyLaws toy_memcpy.
Proof. by constructor. Qed.

Definition toy_item (cnt x : Z) : BucketItem := mkBucketItem 0 x cnt 0 [x].
Definition toy_receiver_items : list BucketItem := [toy_item 0 1; toy_item 1 2; toy_item 0 3; toy_item 5 4].
Definition toy_sender_items : list BucketItem := [toy_item 7 2; toy_item 0 9; toy_item 2 4].
Definition toy_log2 (_ : double) : double := f64_of_u64 4.
Definition toy_blake3 (x : bytes) : Z := u128 (le_value x).
Definition toy_options (threads : nat) : Rr22PsiOptions := mkOptions 40 threads FastMode true false.
Definition toy_bucket : res (Posted * Posted) :=
  @run_bucket toy_crypto plain_libdivide toy_cipher true Z.log2_up toy_bin_size (fun _ => 7) toy_hash_cipher toy_ro
    toy_dense_map toy_cnt_proto toy_parallel_for toy_memcpy toy_log2 toy_blake3 (@rev BucketItem) (fun _ => toy_baxos) (fun _ => toy_paxos) toy_vole
    (toy_options 2) (toy_options 3) true 5 toy_orders 77 1234 toy_sender_items toy_receiver_items.

(** The values are told apart, by evaluation. *)
Definition tells_apartb (F : Z -> Z) (m : nat) (data : list bytes) : bool :=
  forallb (fun x => negb (cut m (F (toy_blake3 x)) =? 0)) data &&
  forallb (fun x => forallb (fun y => negb (cut m (F (toy_blake3 x)) =? cut m (F (toy_blake3 y))) || bool_decide (x = y)) data) data.
Lemma tells_apartb_ok F m data : tells_apartb F m data = true -> tells_apart F toy_blake3 m data.
Proof.
  intros [Hz Hi]%andb_prop. rewrite forallb_forall in Hz, Hi. constructor.
  - intros x Hx%list_elem_of_In. apply Hz in Hx. by apply negb_true_iff, Z.eqb_neq in Hx.
  - intros x y Hx%list_elem_of_In Hy%list_elem_of_In E. apply Hi in Hx. rewrite forallb_forall in Hx. apply Hx in Hy.
    rewrite E, Z.eqb_refl in Hy. cbn in Hy. by apply bool_decide_eq_true in Hy.
Qed.
Definition toy_solved : res (list Z * option Prng) :=
  @solve_keys toy_crypto plain_libdivide true Z.log2_up toy_bin_size (fun _ => 7) toy_hash_cipher toy_baxos [1; 0; 2]%nat [2; 0; 1]%nat 3 toy_inputs.
Definition toy_tells_apart (solved : res (list Z * option Prng)) : bool :=
  match solved with
  | Ok (P, _) => tells_apartb (@bucket_oprf toy_crypto plain_libdivide toy_cipher true Z.log2_up toy_hash_cipher (fun _ => toy_baxos) (fun _ => toy_paxos) toy_vole
                   false 4 (Z.lxor 1234 77) P) 6 (map base64_data toy_receiver_items ++ map base64_data toy_sender_items)
  | _ => true
  end.
Lemma toy_told_apart : toy_tells_apart toy_solved = true.
Proof. vm_compute. reflexivity. Qed.
Lemma toy_apart P prng : toy_solved = Ok (P, prng) ->
  tells_apart (@bucket_oprf toy_crypto plain_libdivide toy_cipher true Z.log2_up toy_hash_cipher (fun _ => toy_baxos) (fun _ => toy_paxos) toy_vole
    false 4 (Z.lxor 1234 77) P) toy_blake3 6 (map base64_data toy_receiver_items ++ map base64_data toy_sender_items).
Proof.
  intros HS. apply tells_apartb_ok. pose proof toy_told_apart as E. rewrite HS in E. exact E.
Qed.
Lemma toy_calls_ok : @calls_ok toy_crypto toy_cipher toy_hash_cipher toy_ro toy_blake3 (@rev BucketItem) toy_vole.
Proof.
  constructor; try (intros; apply wrap_range; lia).
  - intros ws. apply length_replicate.
  - exact toy_vole_correct.
  - intros l. symmetry. apply Permutation_rev.
Qed.

