(* ===== verification/Rr22Runner.v ===== *)
(** * The buckets of the RR22 PSI in a pipeline (psi/algorithm/rr22/rr22_psi.h, Rr22Runner)

    [Run] takes the buckets one after the other through [Prepare], [RunOprf] and
    [GetIntersection].  [AsyncRun] gives each of the three a thread and a link of
    its own; the threads hand the buckets on through two queues, the first of
    which holds one bucket.  Their interleavings are the step relation [step];
    a critical section is one step.  [ParallelRun] deals the buckets to threads
    that each work like [Run].

    The three calls are arguments: what a call does to the link it works on, and
    to the runner of its bucket; [None] is an exception. *)
From S2P Require Import Prelude.

Section runner.
Context {Read Link Sect Runner : Type} `{!Inhabited Runner}.
Context (Prepare : nat -> Read -> option (Runner * Read)).
Context (RunOprf : Runner -> Link -> option (Runner * Link)).
Context (GetIntersection : Runner -> Sect -> option Sect).
Context (bucket_num_ : nat).

Record Links := mkLinks { read_lctx_ : Read; run_lctx_ : Link; intersection_lctx_ : Sect }.

(** ** One bucket after the other *)
Definition run_one (idx : nat) (l : Links) : option Links :=
  '(r, read) ← Prepare idx (read_lctx_ l);
  '(r, link) ← RunOprf r (run_lctx_ l);
  sect ← GetIntersection r (intersection_lctx_ l);
  Some (mkLinks read link sect).
Fixpoint run_from (count idx : nat) (l : Links) : option Links :=
  match count with O => Some l | S count' => l ← run_one idx l; run_from count' (S idx) l end.
Definition Run (start_idx : nat) (l : Links) : option Links := run_from (bucket_num_ - start_idx) start_idx l.

(** ** The pipeline *)
Definition cache_size : nat := 1.

(** Where a thread is: at a bucket it is about to make or to wait for, with one it
    has to work on or to hand on, at its end, or ended by an exception. *)
Inductive PrepareThread := PCreate (i : nat) | PPush (i : nat) (r : Runner) | PDone | PThrew.
Inductive RunThread := RWait (i : nat) | RRun (i : nat) (r : Runner) | RPush (i : nat) (r : Runner) | RDone | RThrew.
Inductive IntersectionThread := IWait (i : nat) | IRun (i : nat) (r : Runner) | IDone | IThrew.

Record Pipe := mkPipe {
  links : Links;
  prepared_runner_queue : list Runner;
  oprf_runner_queue : list Runner;
  prepare_f : PrepareThread;
  run_f : RunThread;
  intersection_f : IntersectionThread
}.

(** The heads of the loops: the first compares sizes, the others ints. *)
Definition prepare_next (i : nat) : PrepareThread := if bool_decide (i < bucket_num_)%nat then PCreate i else PDone.
Definition int_less (i : nat) : bool := i32 (Z.of_nat i) <? i32 (Z.of_nat bucket_num_).
Definition run_next (i : nat) : RunThread := if int_less i then RWait i else RDone.
Definition intersection_next (i : nat) : IntersectionThread := if int_less i then IWait i else IDone.
Definition pipe_start (start_idx : nat) (l : Links) : Pipe :=
  mkPipe l [] [] (prepare_next start_idx) (run_next start_idx) (intersection_next start_idx).

Inductive step : Pipe -> Pipe -> Prop :=
  | prepare_step l pq oq i rt it r read : Prepare i (read_lctx_ l) = Some (r, read) ->
      step (mkPipe l pq oq (PCreate i) rt it) (mkPipe (mkLinks read (run_lctx_ l) (intersection_lctx_ l)) pq oq (PPush i r) rt it)
  | prepare_throws l pq oq i rt it : Prepare i (read_lctx_ l) = None ->
      step (mkPipe l pq oq (PCreate i) rt it) (mkPipe l pq oq PThrew rt it)
  | prepare_push l pq oq i r rt it : (length pq < cache_size)%nat ->
      step (mkPipe l pq oq (PPush i r) rt it) (mkPipe l (pq ++ [r]) oq (prepare_next (S i)) rt it)
  | run_take l r pq oq pt i it :
      step (mkPipe l (r :: pq) oq pt (RWait i) it) (mkPipe l pq oq pt (RRun i r) it)
  | run_step l pq oq pt i r it r' link : RunOprf r (run_lctx_ l) = Some (r', link) ->
      step (mkPipe l pq oq pt (RRun i r) it) (mkPipe (mkLinks (read_lctx_ l) link (intersection_lctx_ l)) pq oq pt (RPush i r') it)
  | run_throws l pq oq pt i r it : RunOprf r (run_lctx_ l) = None ->
      step (mkPipe l pq oq pt (RRun i r) it) (mkPipe l pq oq pt RThrew it)
  | run_push l pq oq pt i r it :
      step (mkPipe l pq oq pt (RPush i r) it) (mkPipe l pq (oq ++ [r]) pt (run_next (S i)) it)
  | intersection_take l pq r oq pt rt i :
      step (mkPipe l pq (r :: oq) pt rt (IWait i)) (mkPipe l pq oq pt rt (IRun i r))
  | intersection_step l pq oq pt rt i r sect : GetIntersection r (intersection_lctx_ l) = Some sect ->
      step (mkPipe l pq oq pt rt (IRun i r)) (mkPipe (mkLinks (read_lctx_ l) (run_lctx_ l) sect) pq oq pt rt (intersection_next (S i)))
  | intersection_throws l pq oq pt rt i r : GetIntersection r (intersection_lctx_ l) = None ->
      step (mkPipe l pq oq pt rt (IRun i r)) (mkPipe l pq oq pt rt IThrew).

(** [AsyncRun] waits for the three threads, for that of [RunOprf] first. *)
Definition joined (s : Pipe) : Prop := prepare_f s = PDone /\ run_f s = RDone /\ intersection_f s = IDone.
Definition AsyncRun (start_idx : nat) (l l' : Links) : Prop :=
  if bool_decide (bucket_num_ <= cache_size)%nat then Run start_idx l = Some l'
  else exists s, rtc step (pipe_start start_idx l) s /\ joined s /\ links s = l'.

(** ** The buckets of a thread of [ParallelRun]: its start index plays no part *)
Definition thread_buckets (parallel_num thread_idx : nat) : list nat :=
  filter (fun j => (j mod parallel_num)%nat = thread_idx) (seq 0 bucket_num_).
Definition ParallelRun_buckets (start_idx parallel_num : nat) : list (list nat) :=
  if i32 (Z.of_nat bucket_num_) <=? Z.of_nat parallel_num then [seq start_idx (bucket_num_ - start_idx)]
  else map (thread_buckets parallel_num) (seq 0 parallel_num).

(** ** What the buckets leave behind, by index *)
Record course (start : nat) (l : Links) (read : nat -> Read) (link : nat -> Link) (sect : nat -> Sect) (made ran : nat -> Runner) : Prop := {
  co_first : l = mkLinks (read start) (link start) (sect start);
  co_prepare i : (start <= i < bucket_num_)%nat -> Prepare i (read i) = Some (made i, read (S i));
  co_run i : (start <= i < bucket_num_)%nat -> RunOprf (made i) (link i) = Some (ran i, link (S i));
  co_intersect i : (start <= i < bucket_num_)%nat -> GetIntersection (ran i) (sect i) = Some (sect (S i))
}.

Definition from {A} (k : nat) (x : A) (f : nat -> A) (i : nat) : A := if decide (i = k) then x else f i.

Lemma Run_course : forall count start l l', run_from count start l = Some l' -> (start + count = bucket_num_)%nat ->
  exists read link sect made ran, course start l read link sect made ran /\ l' = mkLinks (read bucket_num_) (link bucket_num_) (sect bucket_num_).
Proof.
  induction count as [|count IH]; intros start l l' Hr Hn; cbn [run_from] in Hr.
  - injection Hr as <-. exists (fun _ => read_lctx_ l), (fun _ => run_lctx_ l), (fun _ => intersection_lctx_ l), (fun _ => inhabitant), (fun _ => inhabitant).
    split; [|by destruct l]. constructor; [by destruct l|lia..].
  - unfold run_one in Hr. destruct (Prepare start (read_lctx_ l)) as [[r rd]|] eqn:E1; [|done]. cbn in Hr.
    destruct (RunOprf r (run_lctx_ l)) as [[r' lk]|] eqn:E2; [|done]. cbn in Hr.
    destruct (GetIntersection r' (intersection_lctx_ l)) as [sc|] eqn:E3; [|done]. cbn in Hr.
    destruct (IH _ _ _ Hr ltac:(lia)) as (read & link & sect & made & ran & [Hf Hp Hru Hi] & ->). injection Hf as -> -> ->.
    exists (from start (read_lctx_ l) read), (from start (run_lctx_ l) link), (from start (intersection_lctx_ l) sect), (from start r made), (from start r' ran).
    unfold from. split; [|by rewrite !decide_False by lia]. constructor.
    + rewrite !decide_True by done. by destruct l.
    + intros i Hi'. destruct (decide (i = start)) as [->|Hne]; [rewrite decide_False by lia; done|]. rewrite decide_False by lia. apply Hp. lia.
    + intros i Hi'. destruct (decide (i = start)) as [->|Hne]; [rewrite decide_False by lia; done|]. rewrite decide_False by lia. apply Hru. lia.
    + intros i Hi'. destruct (decide (i = start)) as [->|Hne]; [rewrite decide_False by lia; done|]. rewrite decide_False by lia. apply Hi. lia.
Qed.

(** ** The invariant of the pipeline *)
Section pipeline.
Context (start : nat) (l0 : Links) (read : nat -> Read) (link : nat -> Link) (sect : nat -> Sect) (made ran : nat -> Runner).
Context (Hc : course start l0 read link sect made ran) (Hn : Z.of_nat bucket_num_ < 2 ^ 31) (Hs : (start <= bucket_num_)%nat).
Abbreviation n := bucket_num_.

(** The next bucket a thread pushes, or takes. *)
Definition p_pushes (t : PrepareThread) : nat := match t with PCreate i | PPush i _ => i | _ => n end.
Definition r_takes (t : RunThread) : nat := match t with RWait i => i | RRun i _ | RPush i _ => S i | _ => n end.
Definition r_pushes (t : RunThread) : nat := match t with RWait i | RRun i _ | RPush i _ => i | _ => n end.
Definition i_takes (t : IntersectionThread) : nat := match t with IWait i => i | IRun i _ => S i | _ => n end.

Definition p_ok (t : PrepareThread) (x : Read) : Prop :=
  match t with
  | PCreate i => (start <= i < n)%nat /\ x = read i
  | PPush i r => (start <= i < n)%nat /\ r = made i /\ x = read (S i)
  | PDone => x = read n
  | PThrew => False
  end.
Definition r_ok (t : RunThread) (x : Link) : Prop :=
  match t with
  | RWait i => (start <= i < n)%nat /\ x = link i
  | RRun i r => (start <= i < n)%nat /\ r = made i /\ x = link i
  | RPush i r => (start <= i < n)%nat /\ r = ran i /\ x = link (S i)
  | RDone => x = link n
  | RThrew => False
  end.
Definition i_ok (t : IntersectionThread) (x : Sect) : Prop :=
  match t with
  | IWait i => (start <= i < n)%nat /\ x = sect i
  | IRun i r => (start <= i < n)%nat /\ r = ran i /\ x = sect i
  | IDone => x = sect n
  | IThrew => False
  end.

Record pipe_inv (s : Pipe) : Prop := {
  pi_p : p_ok (prepare_f s) (read_lctx_ (links s));
  pi_r : r_ok (run_f s) (run_lctx_ (links s));
  pi_i : i_ok (intersection_f s) (intersection_lctx_ (links s));
  pi_order1 : (r_takes (run_f s) <= p_pushes (prepare_f s))%nat;
  pi_order2 : (i_takes (intersection_f s) <= r_pushes (run_f s))%nat;
  pi_prepared : prepared_runner_queue s = map made (seq (r_takes (run_f s)) (p_pushes (prepare_f s) - r_takes (run_f s)));
  pi_oprf : oprf_runner_queue s = map ran (seq (i_takes (intersection_f s)) (r_pushes (run_f s) - i_takes (intersection_f s)));
  pi_cache : (length (prepared_runner_queue s) <= cache_size)%nat
}.

(** The steps that are left. *)
Definition p_left (t : PrepareThread) : nat := match t with PCreate i => 2 * (n - i) | PPush i _ => 2 * (n - i) - 1 | _ => 0 end.
Definition r_left (t : RunThread) : nat := match t with RWait i => 3 * (n - i) | RRun i _ => 3 * (n - i) - 1 | RPush i _ => 3 * (n - i) - 2 | _ => 0 end.
Definition i_left (t : IntersectionThread) : nat := match t with IWait i => 2 * (n - i) | IRun i _ => 2 * (n - i) - 1 | _ => 0 end.
Definition steps_left (s : Pipe) : nat := p_left (prepare_f s) + r_left (run_f s) + i_left (intersection_f s).

Lemma int_less_ok i : (i <= n)%nat -> int_less i = bool_decide (i < n)%nat.
Proof.
  clear Hc Hs. intros Hi. unfold int_less, i32, to_signed. rewrite !wrap_small by (split; lia). cbn zeta. change (2 ^ (32 - 1)) with (2 ^ 31). rewrite !(proj2 (Z.ltb_lt _ (2 ^ 31))) by lia.
  apply eq_true_iff_eq. rewrite Z.ltb_lt, bool_decide_eq_true. lia.
Qed.

Lemma prepare_next_ok i x : (start <= i <= n)%nat -> x = read i -> p_ok (prepare_next i) x /\ p_pushes (prepare_next i) = i /\ p_left (prepare_next i) = (2 * (n - i))%nat.
Proof. intros Hi ->. unfold prepare_next. case_bool_decide; [cbn; repeat split; lia || done|]. assert (i = n) as -> by lia. rewrite Nat.sub_diag. done. Qed.
Lemma run_next_ok i x : (start <= i <= n)%nat -> x = link i ->
  r_ok (run_next i) x /\ r_takes (run_next i) = i /\ r_pushes (run_next i) = i /\ r_left (run_next i) = (3 * (n - i))%nat.
Proof. intros Hi ->. unfold run_next. rewrite int_less_ok by lia. case_bool_decide; [cbn; repeat split; lia || done|]. assert (i = n) as -> by lia. rewrite Nat.sub_diag. done. Qed.
Lemma intersection_next_ok i x : (start <= i <= n)%nat -> x = sect i ->
  i_ok (intersection_next i) x /\ i_takes (intersection_next i) = i /\ i_left (intersection_next i) = (2 * (n - i))%nat.
Proof. intros Hi ->. unfold intersection_next. rewrite int_less_ok by lia. case_bool_decide; [cbn; repeat split; lia || done|]. assert (i = n) as -> by lia. rewrite Nat.sub_diag. done. Qed.

Lemma pipe_start_inv : pipe_inv (pipe_start start l0) /\ steps_left (pipe_start start l0) = (7 * (n - start))%nat.
Proof.
  destruct Hc as [-> _ _ _]. destruct (prepare_next_ok start _ ltac:(lia) eq_refl) as (? & E1 & ?).
  destruct (run_next_ok start _ ltac:(lia) eq_refl) as (? & E2 & E2' & ?). destruct (intersection_next_ok start _ ltac:(lia) eq_refl) as (? & E3 & ?).
  split; [constructor; unfold pipe_start; cbn; rewrite ?E1, ?E2, ?E2', ?E3, ?Nat.sub_diag; done || lia|]. unfold steps_left, pipe_start. cbn. lia.
Qed.

Lemma queue_push (f : nat -> Runner) a k : (a <= k)%nat -> map f (seq a (S k - a)) = map f (seq a (k - a)) ++ [f k].
Proof. intros Hk. rewrite Nat.sub_succ_l by done. rewrite seq_S, map_app. cbn. by replace (a + (k - a))%nat with k by lia. Qed.
Lemma queue_take (f : nat -> Runner) a k r q : r :: q = map f (seq a (k - a)) -> (a < k)%nat /\ r = f a /\ q = map f (seq (S a) (k - S a)).
Proof.
  intros E. destruct (k - a)%nat as [|d] eqn:Ed; [done|]. cbn in E. injection E as -> ->. replace (k - S a)%nat with d by lia. by repeat split; [lia|..].
Qed.

Lemma step_inv s s' : step s s' -> pipe_inv s -> pipe_inv s' /\ S (steps_left s') = steps_left s.
Proof.
  intros Hst [Hp Hr Hi H1 H2 Hq Ho Hk]. destruct Hst; cbn in Hp, Hr, Hi, H1, H2, Hq, Ho, Hk.
  - destruct Hp as [Hb Hx]. rewrite Hx, (co_prepare _ _ _ _ _ _ _ Hc) in H by done. injection H as <- <-.
    split; [by constructor|]. unfold steps_left. cbn. lia.
  - destruct Hp as [Hb Hx]. by rewrite Hx, (co_prepare _ _ _ _ _ _ _ Hc) in H.
  - destruct Hp as (Hb & -> & Hx). destruct (prepare_next_ok (S i) _ ltac:(lia) Hx) as (? & E & El).
    split; [|unfold steps_left; cbn; lia]. constructor; cbn; rewrite ?E; try done; [lia|by rewrite queue_push, Hq by lia|rewrite length_app; cbn; lia].
  - destruct Hr as [Hb Hx]. apply queue_take in Hq as (Hlt & -> & ->). split; [|unfold steps_left; cbn; lia]. constructor; cbn in *; done || lia.
  - destruct Hr as (Hb & -> & Hx). rewrite Hx, (co_run _ _ _ _ _ _ _ Hc) in H by done. injection H as <- <-.
    split; [by constructor|]. unfold steps_left. cbn. lia.
  - destruct Hr as (Hb & -> & Hx). by rewrite Hx, (co_run _ _ _ _ _ _ _ Hc) in H.
  - destruct Hr as (Hb & -> & Hx). destruct (run_next_ok (S i) _ ltac:(lia) Hx) as (? & E & E' & El).
    split; [|unfold steps_left; cbn; lia]. constructor; cbn; rewrite ?E, ?E'; try done; [lia|by rewrite queue_push, Ho by lia].
  - destruct Hi as [Hb Hx]. apply queue_take in Ho as (Hlt & -> & ->). split; [|unfold steps_left; cbn; lia]. constructor; cbn in *; done || lia.
  - destruct Hi as (Hb & -> & Hx). rewrite Hx, (co_intersect _ _ _ _ _ _ _ Hc) in H by done. injection H as <-.
    destruct (intersection_next_ok (S i) _ ltac:(lia) eq_refl) as (? & E & El).
    split; [|unfold steps_left; cbn; lia]. constructor; cbn; rewrite ?E; done.
  - destruct Hi as (Hb & -> & Hx). by rewrite Hx, (co_intersect _ _ _ _ _ _ _ Hc) in H.
Qed.

Lemma progress s : pipe_inv s -> (exists s', step s s') \/ joined s.
Proof.
  intros [Hp Hr Hi H1 H2 Hq Ho Hk]. destruct s as [[rd lk sc] pq oq pt rt it]. cbn in *.
  assert (forall (f : nat -> Runner) a k, (a < k)%nat -> exists r q, map f (seq a (k - a)) = r :: q) as Hne.
  { intros f a k Hlt. destruct (k - a)%nat eqn:E; [lia|]. by eexists _, _. }
  destruct rt as [i|i r|i r| |]; cbn in *.
  - destruct pq as [|r pq]; [|left; eexists; apply run_take]. destruct pt as [j|j r| |]; cbn in *.
    + destruct Hp as [Hb ->]. left. eexists. apply prepare_step. by apply (co_prepare _ _ _ _ _ _ _ Hc).
    + left. eexists. apply prepare_push. cbn. unfold cache_size. lia.
    + destruct (Hne made i n ltac:(lia)) as (r & q & E). by rewrite E in Hq.
    + done.
  - destruct Hr as (Hb & -> & ->). left. eexists. apply run_step. by apply (co_run _ _ _ _ _ _ _ Hc).
  - left. eexists. apply run_push.
  - destruct it as [i|i r| |]; cbn in *; [|destruct Hi as (Hb & -> & ->); left; eexists; apply intersection_step; by apply (co_intersect _ _ _ _ _ _ _ Hc)| |done].
    + destruct (Hne ran i n ltac:(lia)) as (r & q & E). rewrite E in Ho. subst oq. left. eexists. apply intersection_take.
    + destruct pt as [j|j r| |]; cbn in *; [lia|lia|by right|done].
  - done.
Qed.

Lemma steps_inv s s' : rtc step s s' -> pipe_inv s -> pipe_inv s'.
Proof. induction 1 as [|s s1 s' H1 H2 IH]; [done|]. intros Hi. apply IH. by destruct (step_inv _ _ H1 Hi). Qed.
Lemma steps_count k s s' : nsteps step k s s' -> pipe_inv s -> (k + steps_left s')%nat = steps_left s.
Proof. induction 1 as [|k s s1 s' H1 H2 IH]; [done|]. intros Hi. destruct (step_inv _ _ H1 Hi) as [Hi1 <-]. rewrite <- (IH Hi1). lia. Qed.

Lemma joined_links s : pipe_inv s -> joined s -> links s = mkLinks (read n) (link n) (sect n).
Proof. intros [Hp Hr Hi _ _ _ _ _] (E1 & E2 & E3). rewrite E1 in Hp. rewrite E2 in Hr. rewrite E3 in Hi. destruct s as [[] ? ? ? ? ?]. cbn in *. congruence. Qed.
End pipeline.

(** C17.  When the buckets, taken one after the other, raise nothing, the pipeline
    does what [Run] does: every execution has seven steps for each bucket, none is
    stuck before the three threads have returned, and then the links are in the
    state in which [Run] leaves them; the queue of prepared buckets never holds
    more than one. *)
Theorem AsyncRun_refines_Run start l l' : Z.of_nat bucket_num_ < 2 ^ 31 -> (start <= bucket_num_)%nat -> Run start l = Some l' ->
  (forall k s, nsteps step k (pipe_start start l) s -> (k <= 7 * (bucket_num_ - start))%nat) /\
  (forall s, rtc step (pipe_start start l) s ->
     (length (prepared_runner_queue s) <= cache_size)%nat /\ ((exists s', step s s') \/ joined s) /\ (joined s -> links s = l')).
Proof.
  intros Hn Hs Hr. destruct (Run_course _ _ _ _ Hr ltac:(lia)) as (read & link & sect & made & ran & Hc & ->).
  destruct (pipe_start_inv _ _ _ _ _ _ _ Hc Hn Hs) as [Hi Hl]. split.
  - intros k s Hk. pose proof (steps_count _ _ _ _ _ _ _ Hc Hn Hs _ _ _ Hk Hi). lia.
  - intros s Hrt. pose proof (steps_inv _ _ _ _ _ _ _ Hc Hn Hs _ _ Hrt Hi) as His. split; [by destruct His|]. split; [by eapply progress|].
    by eapply joined_links.
Qed.

(** ** An exception in [Prepare] *)
Section throwing.
Context (k : nat) (Hk : (k < bucket_num_)%nat) (Hn : Z.of_nat bucket_num_ < 2 ^ 31).
Context (Hthrow : forall x, Prepare k x = None) (Hrun : forall r x, is_Some (RunOprf r x)).

(** Buckets from [k] on are never handed on. *)
Definition starved (s : Pipe) : Prop :=
  (exists t, t = run_f s /\ match t with RDone | RThrew => False | _ => True end) /\
  (r_takes (run_f s) + length (prepared_runner_queue s) <=
     match prepare_f s with PCreate i => i | PPush i _ => i | PDone => 0 | PThrew => k end)%nat /\
  match prepare_f s with PCreate i => (i <= k)%nat | PPush i _ => (i < k)%nat | PDone => False | PThrew => True end.

Lemma starved_step s s' : step s s' -> starved s -> starved s'.
Proof.
  intros Hst ((t & Et & Ht) & Hl & Hp). destruct Hst; cbn in *; subst t; unfold starved; cbn.
  - split; [by eexists|]. split; [done|]. destruct (decide (i = k)) as [->|]; [by rewrite Hthrow in H|lia].
  - split; [by eexists|]. split; [lia|done].
  - split; [by eexists|]. rewrite length_app. cbn. unfold prepare_next. rewrite bool_decide_true by lia. lia.
  - split; [by eexists|]. split; [lia|done].
  - split; [by eexists|]. split; [lia|done].
  - destruct (Hrun r (run_lctx_ l)) as [? E]. by rewrite E in H.
  - assert (S i <= k)%nat as Hi by (destruct pt; lia || done). unfold run_next. rewrite int_less_ok, bool_decide_true by lia.
    split; [by eexists|]. split; [cbn; lia|done].
  - split; [by eexists|]. split; [lia|done].
  - split; [by eexists|]. split; [lia|done].
  - split; [by eexists|]. split; [lia|done].
Qed.
End throwing.

(** C39.  When the preparation of a bucket throws, and [RunOprf] on none does,
    [AsyncRun] neither returns nor throws: the thread it waits for first goes on
    waiting for that bucket. *)
Theorem AsyncRun_hangs k start l s : Z.of_nat bucket_num_ < 2 ^ 31 -> (start <= k < bucket_num_)%nat ->
  (forall x, Prepare k x = None) -> (forall r x, is_Some (RunOprf r x)) ->
  rtc step (pipe_start start l) s -> run_f s <> RDone /\ run_f s <> RThrew.
Proof.
  intros Hn Hk Hthrow Hrun Hst. assert (starved k s) as ((t & <- & Ht) & _).
  - assert (starved k (pipe_start start l)) as Hs.
    { unfold starved, pipe_start. cbn. unfold run_next, prepare_next. rewrite int_less_ok, !bool_decide_true by lia. cbn. split; [by eexists|lia]. }
    revert Hs. induction Hst as [|s s1 s' H1 H2 IH]; [done|]. intros Hs. apply IH. eapply starved_step; eauto; lia.
  - by destruct t.
Qed.
End runner.

(** *** Witnesses: links that count, three buckets *)
Definition toy_prepare (i : nat) (x : list nat) : option (nat * list nat) := Some (i, x ++ [i]).
Definition toy_prepare_throws (i : nat) (x : list nat) : option (nat * list nat) := if bool_decide (i = 1%nat) then None else Some (i, x ++ [i]).
Definition toy_oprf (r : nat) (x : list nat) : option (nat * list nat) := Some ((r + 10)%nat, x ++ [r]).
Definition toy_intersect (r : nat) (x : list nat) : option (list nat) := Some (x ++ [r]).
Definition toy_links : Links := mkLinks (@nil nat) (@nil nat) (@nil nat).

Lemma AsyncRun_refines_Run_witness :
  (forall k s, nsteps (step toy_prepare toy_oprf toy_intersect 3) k (pipe_start 3 1 toy_links) s -> (k <= 14)%nat) /\
  (forall s, rtc (step toy_prepare toy_oprf toy_intersect 3) (pipe_start 3 1 toy_links) s ->
     (length (prepared_runner_queue s) <= 1)%nat /\ ((exists s', step toy_prepare toy_oprf toy_intersect 3 s s') \/ joined s) /\
     (joined s -> links s = mkLinks [1; 2]%nat [1; 2]%nat [11; 12]%nat)).
Proof. apply (AsyncRun_refines_Run toy_prepare toy_oprf toy_intersect 3 1 toy_links); [reflexivity|lia|reflexivity]. Defined.

(** No thread can go on after the first bucket. *)
Definition toy_stuck : @Pipe (list nat) (list nat) (list nat) nat :=
  mkPipe (mkLinks [0]%nat [0]%nat [10]%nat) [] [] PThrew (RWait 1) (IWait 1).
Lemma toy_stuck_reachable : rtc (step toy_prepare_throws toy_oprf toy_intersect 3) (pipe_start 3 0 toy_links) toy_stuck.
Proof.
  eapply rtc_l; [by apply prepare_step|]. eapply rtc_l; [apply prepare_push; cbn; unfold cache_size; lia|].
  eapply rtc_l; [by apply prepare_throws|]. eapply rtc_l; [apply run_take|]. eapply rtc_l; [by apply run_step|].
  eapply rtc_l; [apply run_push|]. eapply rtc_l; [apply intersection_take|]. eapply rtc_l; [by apply intersection_step|]. apply rtc_refl.
Qed.

Lemma AsyncRun_hangs_witness : run_f toy_stuck <> RDone /\ run_f toy_stuck <> RThrew.
Proof.
  apply (AsyncRun_hangs toy_prepare_throws toy_oprf toy_intersect 3 1 0 toy_links toy_stuck); [reflexivity|lia|reflexivity| |exact toy_stuck_reachable].
  intros r x. by eexists.
Defined.
