(* ===== verification/Kkrt.v ===== *)
(** * The KKRT PSI (psi/algorithm/kkrt/kkrt_psi)

    The receiver puts its items into a cuckoo table without a stash and runs an
    oblivious PRF for each bin on the item in it.  The sender encodes each of its
    items for the three bins it could be in; where two of them coincide it sends
    random bytes in place of the later one.  The receiver keeps the encoding of an
    item in the map of the first hash that gives its bin, and looks up what the
    sender sends in the map of its position.

    While the corrections of the PRF arrive in a thread, the sender goes round its
    items and encodes what it can; what the loop reads of the other thread's
    progress is an argument, [loads].

    The OT extension is yacl's: the class [KkrtOte], one correction for each bin.
    The generator and the shuffle are arguments, as is the size [log2l] gives.
    Left out: the messages in which the parties tell each other the sizes of their
    sets (each size is an argument of the other party's definitions) and the last
    message, which tells the receiver that the sender is done. *)
From S2P Require Import Prelude Float64 EcStore CuckooIndex.
From S2P Require EcdhPsi.

Class KkrtOte := {
  Correction : Type;
  r_correction : nat -> option Z -> Correction;
  r_encode : nat -> Z -> bytes;
  s_encode : nat -> Correction -> Z -> bytes
}.
(** What the extension promises: a value of sixteen bytes, the same for both
    parties when the item is the same. *)
Class KkrtOteLaws `{KkrtOte} : Prop := {
  ote_agree b x : s_encode b (r_correction b (Some x)) x = r_encode b x;
  ote_length b x : length (r_encode b x) = 16%nat;
  ote_length_s b c x : length (s_encode b c x) = 16%nat
}.

(** ** Options *)
Record KkrtPsiOptions := mkKkrtOptions {
  ot_batch_size : nat;
  psi_batch_size : nat;
  cuckoo_hash_num : nat;
  stash_size : nat;
  stat_sec_param : Z
}.
Definition kCuckooHashNum : nat := 3.
(** [65535 / 4 / 16 * 0.8] *)
Definition kKkrtOtBatchSize : nat := 818.
Definition GetDefaultKkrtPsiOptions : KkrtPsiOptions := mkKkrtOptions kKkrtOtBatchSize 1024 kCuckooHashNum 0 40.

(** [long_size p n] is [(p + log2l(n) + 7) / 8]. *)
Definition KkrtEncodeSize (long_size : Z -> Z -> Z) (stat_sec_param self_size peer_size : Z) : nat :=
  Z.to_nat (Z.min (u64 (long_size stat_sec_param (u128 (self_size * peer_size)))) 16).

Record PsiItemHash := mkItemHash { data : Z; cnt : Z }.
Record PsiResultIndex := mkResult { result_data : nat; peer_item_cnt : Z }.

(** [uint64_t(-1)], for a place that is done with. *)
Definition no_bin : Z := 2 ^ 64 - 1.

(** Bytes into a buffer. *)
Definition put_bytes (buf : bytes) (pos : nat) (bs : bytes) : res bytes :=
  _ ← defined (bool_decide (pos + length bs <= length buf)%nat);
  Ok (take pos buf ++ bs ++ drop (pos + length bs) buf).

Section kkrt.
Context `{KkrtOte} `{EcdhPsi.BatchProto} {Prg : Type} (fill : Prg -> nat -> bytes * Prg).
Context (std_log2 : double -> double) (long_size : Z -> Z -> Z).

(** ** The sender *)
Section sender.
Context (items : list PsiItemHash) (num_bins : Z) (encode_size : nat) (input_permute : list nat).
Abbreviation self_size := (length items).

Definition invert_permute : res (list nat) :=
  for_ self_size (fun i inv => p ← vget input_permute i; vset inv p i) (replicate self_size 0%nat).

(** The three bins of an item; a bin that repeats is marked. *)
Definition item_bin (x : Z) (h : Z) : res Z :=
  g ← HashRoom.GetHash x h;
  _ ← defined (negb (num_bins =? 0));
  Ok (g mod num_bins).
Definition randomize (input_permute_inv : list nat) (i : nat) (c : bool) (h : nat) (st : bytes * Prg) : res (bytes * Prg) :=
  let '(encode_buf, prg) := st in
  if c then
    p ← vget input_permute_inv i;
    let '(bs, prg) := fill prg encode_size in
    encode_buf ← put_bytes encode_buf ((p * kCuckooHashNum + h) * encode_size) bs;
    Ok (encode_buf, prg)
  else Ok (encode_buf, prg).
Definition hash_item (input_permute_inv : list nat) (i : nat) (st : list (list Z) * bytes * Prg) : res (list (list Z) * bytes * Prg) :=
  let '(bin_indices, encode_buf, prg) := st in
  item ← vget items i;
  bin_idx0 ← item_bin (data item) 0;
  bin_idx1 ← item_bin (data item) 1;
  bin_idx2 ← item_bin (data item) 2;
  let c01 := bin_idx0 =? bin_idx1 in
  let c02 := (bin_idx0 =? bin_idx2) || (bin_idx1 =? bin_idx2) in
  bin_indices ← vset bin_indices i [bin_idx0; Z.lor bin_idx1 (u64 (b2z c01 * no_bin)); Z.lor bin_idx2 (u64 (b2z c02 * no_bin))];
  st ← randomize input_permute_inv i c01 1 (encode_buf, prg);
  '(encode_buf, prg) ← randomize input_permute_inv i c02 2 st;
  Ok (bin_indices, encode_buf, prg).

(** [SetCorrection] on what arrives. *)
Fixpoint recv_corrections (batch_size : nat) (msgs : list (list Correction)) (acc : list Correction) : res (list Correction) :=
  if Z.of_nat (length acc) <? num_bins then
    match msgs with
    | [] => UB
    | m :: msgs' =>
        _ ← defined (bool_decide (length m = Nat.min batch_size (Z.to_nat num_bins - length acc)));
        recv_corrections batch_size msgs' (acc ++ m)
    end
  else Ok acc.

(** An item is encoded for one of its bins, at its place of the buffer. *)
Definition encode_at (corrections : list Correction) (input_idx : nat) (b_idx : Z) (pos : nat) (encode_buf : bytes) : res bytes :=
  item ← vget items input_idx;
  c ← vgetz corrections b_idx;
  put_bytes encode_buf pos (take encode_size (s_encode (Z.to_nat b_idx) c (data item))).

Definition try_encode (corrections : list Correction) (r : Z) (t h : nat) (st : list (list Z) * bytes) : res (list (list Z) * bytes) :=
  let '(bin_indices, encode_buf) := st in
  input_idx ← vget input_permute t;
  row ← vget bin_indices input_idx;
  b_idx ← vget row h;
  if b_idx <? r then
    encode_buf ← encode_at corrections input_idx b_idx ((t * kCuckooHashNum + h) * encode_size) encode_buf;
    row ← vset row h no_bin;
    bin_indices ← vset bin_indices input_idx row;
    Ok (bin_indices, encode_buf)
  else Ok (bin_indices, encode_buf).
Definition encode_round (corrections : list Correction) (batch_size : nat) (r : Z) (st : list (list Z) * bytes * nat) : res (list (list Z) * bytes * nat) :=
  for_ batch_size (fun _ '(bin_indices, encode_buf, t) =>
    '(bin_indices, encode_buf) ← for_ kCuckooHashNum (fun h => try_encode corrections r t h) (bin_indices, encode_buf);
    _ ← defined (negb (bool_decide (self_size = 0%nat)));
    Ok (bin_indices, encode_buf, ((t + 1) mod self_size)%nat)) st.
(** [while (r != num_bins)]; to wait for corrections that never come is no outcome. *)
Fixpoint encode_rounds (corrections : list Correction) (batch_size : nat) (loads : list Z) (r : Z) (st : list (list Z) * bytes * nat) : res (list (list Z) * bytes * nat) :=
  if r =? num_bins then Ok st else
  st ← encode_round corrections batch_size r st;
  match loads with
  | [] => UB
  | r' :: loads' => encode_rounds corrections batch_size loads' r' st
  end.

(** What is left of a batch, and the batch. *)
Definition encode_rest (corrections : list Correction) (bin_indices : list (list Z)) (i j : nat) (st : bytes * DupCnt) : res (bytes * DupCnt) :=
  let '(encode_buf, dup) := st in
  input_idx ← vget input_permute (i + j);
  encode_buf ← for_ kCuckooHashNum (fun k encode_buf =>
    row ← vget bin_indices input_idx;
    b_idx ← vget row k;
    if negb (b_idx =? no_bin)
    then encode_at corrections input_idx b_idx (((i + j) * kCuckooHashNum + k) * encode_size) encode_buf
    else Ok encode_buf) encode_buf;
  item ← vget items input_idx;
  Ok (encode_buf, if 1 <? cnt item then <[Z.of_nat j := cnt item]> dup else dup).
Fixpoint send_encodings (corrections : list Correction) (psi_batch_size : nat) (bin_indices : list (list Z)) (fuel i : nat) (encode_buf : bytes)
    (msgs : list EcdhPsi.Buffer) : res (list EcdhPsi.Buffer) :=
  if bool_decide (i < self_size)%nat then
    match fuel with
    | O => UB
    | S fuel' =>
        let step := Nat.min psi_batch_size (self_size - i) in
        '(encode_buf, dup) ← for_ step (fun j => encode_rest corrections bin_indices i j) (encode_buf, ∅);
        let n := (encode_size * (step * kCuckooHashNum))%nat in
        _ ← defined (bool_decide (i * kCuckooHashNum * encode_size + n <= length encode_buf)%nat);
        let batch := EcdhPsi.mkBatch (Z.of_nat step) (take n (drop (i * kCuckooHashNum * encode_size) encode_buf)) 0 (bool_decide (i + step = self_size)%nat) EmptyString dup in
        send_encodings corrections psi_batch_size bin_indices fuel' (i + step) encode_buf (msgs ++ [EcdhPsi.proto_serialize batch])
    end
  else Ok msgs.
End sender.

Definition check_options (o : KkrtPsiOptions) (ot_size : nat) : res unit :=
  _ ← enforce (bool_decide (cuckoo_hash_num o = 3%nat) && bool_decide (stash_size o = 0%nat));
  enforce (bool_decide (ot_size = 512%nat)).

(** The messages of the sender, from the corrections of the receiver. *)
Definition KkrtPsiSend (o : KkrtPsiOptions) (ot_size : nat) (items : list PsiItemHash) (peer_size : nat) (prg : Prg) (input_permute : list nat)
    (junk : nat -> Z) (loads : list Z) (corrections : list (list Correction)) : res (list EcdhPsi.Buffer) :=
  _ ← check_options o ot_size;
  let self_size := length items in
  _ ← enforce (bool_decide (0 < peer_size)%nat && bool_decide (0 < self_size)%nat);
  let encode_size := KkrtEncodeSize long_size (stat_sec_param o) (Z.of_nat self_size) (Z.of_nat peer_size) in
  option ← SelectParams std_log2 (Z.of_nat peer_size) (Z.of_nat (stash_size o)) (Z.of_nat (cuckoo_hash_num o)) 40;
  num_bins ← NumBins option;
  corrs ← recv_corrections num_bins kKkrtOtBatchSize corrections [];
  let '(_, prg) := fill prg 8 in
  input_permute_inv ← invert_permute items input_permute;
  '(bin_indices, encode_buf, _) ← for_ self_size (hash_item items num_bins encode_size input_permute_inv)
    (replicate self_size [0; 0; 0], tabulate (self_size * cuckoo_hash_num o * encode_size) junk, prg);
  '(bin_indices, encode_buf, _) ← encode_rounds items num_bins encode_size input_permute corrs kKkrtOtBatchSize loads 0 (bin_indices, encode_buf, 0%nat);
  send_encodings items encode_size input_permute corrs (psi_batch_size o) bin_indices self_size 0 encode_buf [].

(** ** The receiver *)
Section receiver.
Context (items_hash : list Z) (t : Index) (encode_size : nat).

(** A bin is encoded; the encoding of an item goes to the map of its least hash. *)
Definition encode_bin (current_idx : nat) (st : list (gmap bytes nat) * list Correction) : res (list (gmap bytes nat) * list Correction) :=
  let '(maps, corrs) := st in
  b ← vget (bins t) current_idx;
  if Bin.IsEmpty b then Ok (maps, corrs ++ [r_correction current_idx None])
  else
    input_item ← vgetz items_hash (Bin.InputIdx b);
    let encode_str := take encode_size (r_encode current_idx input_item) in
    min_hash_idx ← MinCollidingHashIdx t (Z.of_nat current_idx);
    m ← vgetz maps min_hash_idx;
    maps ← vsetz maps min_hash_idx (if decide (is_Some (m !! encode_str)) then m else <[encode_str := Z.to_nat (Bin.InputIdx b)]> m);
    Ok (maps, corrs ++ [r_correction current_idx (Some input_item)]).
(** [ShiftCorrection] after each batch. *)
Definition send_corrections (batch_size : nat) : res (list (gmap bytes nat) * list (list Correction)) :=
  let n := length (bins t) in
  _ ← defined (negb (bool_decide (batch_size = 0%nat)));
  for_ ((n + batch_size - 1) / batch_size) (fun batch_idx '(maps, msgs) =>
    let batch_start := (batch_idx * batch_size)%nat in
    '(maps, corrs) ← for_ (Nat.min (n - batch_start) batch_size) (fun i => encode_bin (batch_start + i)) (maps, []);
    Ok (maps, msgs ++ [corrs])) (replicate kCuckooHashNum ∅, []).

Definition look_up (maps : list (gmap bytes nat)) (batch : EcdhPsi.PsiDataBatch) (i j : nat) (ret : list PsiResultIndex) : res (list PsiResultIndex) :=
  let encode_sub_str := take encode_size (drop ((i * kCuckooHashNum + j) * encode_size) (EcdhPsi.flatten_bytes batch)) in
  m ← vget maps j;
  Ok (match m !! encode_sub_str with
      | Some d => ret ++ [mkResult d (count (EcdhPsi.duplicate_item_cnt batch) (Z.of_nat i))]
      | None => ret
      end).
(** [while (true)]; to wait for a message that never comes is no outcome. *)
Fixpoint recv_encodings (maps : list (gmap bytes nat)) (msgs : list EcdhPsi.Buffer) (ret : list PsiResultIndex) : res (list PsiResultIndex) :=
  match msgs with
  | [] => UB
  | m :: msgs' =>
      let batch := EcdhPsi.proto_parse m in
      let n := Z.to_nat (EcdhPsi.item_num batch) in
      _ ← enforce (bool_decide (length (EcdhPsi.flatten_bytes batch) = n * kCuckooHashNum * encode_size)%nat);
      ret ← for_ n (fun i => for_ kCuckooHashNum (fun j => look_up maps batch i j)) ret;
      if EcdhPsi.is_last_batch batch then Ok ret else recv_encodings maps msgs' ret
  end.
End receiver.

Definition cuckoo_table (o : KkrtPsiOptions) (items_hash : list Z) : res Index :=
  option ← SelectParams std_log2 (Z.of_nat (length items_hash)) (Z.of_nat (stash_size o)) (Z.of_nat (cuckoo_hash_num o)) 40;
  t ← CuckooIndex option;
  Insert items_hash t.

(** Up to the corrections, and from the encodings on. *)
Definition KkrtPsiRecv_corrections (o : KkrtPsiOptions) (ot_size : nat) (items_hash : list Z) (peer_size : nat)
    : res (list (gmap bytes nat) * list (list Correction) * nat) :=
  _ ← check_options o ot_size;
  let self_size := length items_hash in
  _ ← enforce (bool_decide (0 < peer_size)%nat && negb (bool_decide (items_hash = [])));
  t ← cuckoo_table o items_hash;
  _ ← enforce (bool_decide (stash t = []));
  let encode_size := KkrtEncodeSize long_size (stat_sec_param o) (Z.of_nat self_size) (Z.of_nat peer_size) in
  '(maps, msgs) ← send_corrections items_hash t encode_size (ot_batch_size o);
  Ok (maps, msgs, encode_size).
Definition KkrtPsiRecvIndices (o : KkrtPsiOptions) (ot_size : nat) (items_hash : list Z) (peer_size : nat) (msgs : list EcdhPsi.Buffer) : res (list PsiResultIndex) :=
  '(maps, _, encode_size) ← KkrtPsiRecv_corrections o ot_size items_hash peer_size;
  recv_encodings encode_size maps msgs [].

(** Positions and extra counts. *)
Definition KkrtPsiRecv (result_indices : list PsiResultIndex) : list nat * list Z :=
  (map result_data result_indices, map (fun r => if 1 <? peer_item_cnt r then peer_item_cnt r - 1 else 0) result_indices).

(** ** A run *)
Definition kkrt_run (o_s o_r : KkrtPsiOptions) (items_hash : list Z) (items : list PsiItemHash) (prg : Prg) (input_permute : list nat)
    (junk : nat -> Z) (loads : list Z) : res (list nat * list Z) :=
  '(_, corrections, _) ← KkrtPsiRecv_corrections o_r 512 items_hash (length items);
  msgs ← KkrtPsiSend o_s 512 items (length items_hash) prg input_permute junk loads corrections;
  ret ← KkrtPsiRecvIndices o_r 512 items_hash (length items) msgs;
  Ok (KkrtPsiRecv ret).
End kkrt.
