(* ===== verification/KkrtProofs.v ===== *)
(** * The KKRT PSI: the receiver gets the intersection *)
From S2P Require Import Prelude Float64 EcStore CuckooIndex Kkrt.
From S2P Require EcdhPsi.

(** ** Slots of a buffer *)
Section slots.
Context (sz : nat).
Definition slot (s : nat) (buf : bytes) : bytes := take sz (drop (s * sz) buf).

Lemma length_slot s n buf : length buf = (n * sz)%nat -> (s < n)%nat -> length (slot s buf) = sz.
Proof. intros Hl Hs. unfold slot. rewrite length_take, length_drop. nia. Qed.

Lemma put_slot buf n s bs : length buf = (n * sz)%nat -> (s < n)%nat -> length bs = sz ->
  exists buf', put_bytes buf (s * sz) bs = Ok buf' /\ length buf' = length buf /\
    forall s', (s' < n)%nat -> slot s' buf' = if decide (s' = s) then bs else slot s' buf.
Proof.
  intros Hl Hs Hb. assert (s * sz + sz <= n * sz)%nat as Hle by nia. unfold put_bytes. rewrite bool_decide_true by lia. run.
  eexists. split; [done|]. rewrite !length_app, length_take, length_drop. split; [lia|]. intros s' Hs'. unfold slot. rewrite Hb.
  assert (length (take (s * sz) buf) = (s * sz)%nat) as Ht by (rewrite length_take; lia).
  case_decide as Hc.
  - subst s'. rewrite drop_app_length' by done. by rewrite take_app_length'.
  - destruct (decide (s' < s)%nat).
    + assert (s' * sz + sz <= s * sz)%nat by nia. rewrite drop_app_le by lia. rewrite take_app_le by (rewrite length_drop; lia).
      rewrite !take_drop_commute, take_take. by rewrite Nat.min_l by lia.
    + assert (s * sz + sz <= s' * sz)%nat by nia. rewrite app_assoc, drop_app_ge by (rewrite length_app; lia).
      rewrite length_app, Ht, Hb, drop_drop. do 2 f_equal. lia.
Qed.

Lemma slot_of_concat ls : forall s, Forall (fun l => length l = sz) ls -> (s < length ls)%nat -> slot s (concat ls) = ls !!! s.
Proof.
  induction ls as [|l ls IH]; intros s HF Hs; [cbn in Hs; lia|]. apply Forall_cons in HF as [Hl HF]. unfold slot in *. cbn [concat].
  destruct s as [|s]; [cbn [Nat.mul]; rewrite drop_0, take_app_length' by done; done|].
  rewrite drop_app_ge by lia. replace (S s * sz - length l)%nat with (s * sz)%nat by lia. rewrite IH; [done|done|]. cbn in Hs. lia.
Qed.

(** The buffer is its slots. *)
Lemma slots_concat n : forall a buf, (a * sz + n * sz <= length buf)%nat -> take (n * sz) (drop (a * sz) buf) = concat (map (fun s => slot s buf) (seq a n)).
Proof.
  induction n as [|n IH]; intros a buf Hl; [done|]. cbn [seq map concat]. rewrite <- IH by lia. unfold slot.
  replace (S n * sz)%nat with (sz + n * sz)%nat by lia. replace (S a * sz)%nat with (a * sz + sz)%nat by lia.
  rewrite <- (drop_drop buf sz (a * sz)). symmetry. apply take_take_drop.
Qed.
End slots.

(** ** The sender *)
Section sender.
Context `{KkrtOteLaws} `{EcdhPsi.BatchProtoLaws} {Prg : Type} (fill : Prg -> nat -> bytes * Prg) (Hfill : forall g n, length (fill g n).1 = n).
Context (items : list PsiItemHash) (num_bins : Z) (sz : nat) (perm : list nat) (c : nat -> Correction).
Abbreviation n := (length items).
Context (Hnb : 0 < num_bins < 2 ^ 64) (Hsz : (sz <= 16)%nat) (Hn : (0 < n)%nat) (Hperm : perm ≡ₚ seq 0 n).
Definition corrections_list : list Correction := map c (seq 0 (Z.to_nat num_bins)).
#[local] Instance item_inhabited : Inhabited PsiItemHash := populate (mkItemHash 0 0).

(** The bins of an item, which of them repeat, and its encodings. *)
Definition bin_at (x : Z) (h : nat) : Z := u64 (Z.shiftr x (8 * (Z.of_nat h * 2))) mod num_bins.
Definition first_at (x : Z) (h : nat) : bool :=
  match h with
  | 1%nat => negb (bin_at x 0 =? bin_at x 1)
  | 2%nat => negb ((bin_at x 0 =? bin_at x 2) || (bin_at x 1 =? bin_at x 2))
  | _ => true
  end.
Definition enc (x : Z) (h : nat) : bytes := take sz (s_encode (Z.to_nat (bin_at x h)) (c (Z.to_nat (bin_at x h))) x).
Definition item (i : nat) : Z := data (items !!! i).

Lemma bin_at_range x h : 0 <= bin_at x h < num_bins.
Proof. clear -Hnb. apply Z.mod_pos_bound. lia. Qed.
Lemma item_bin_ok x h : (h < 3)%nat -> item_bin num_bins x (Z.of_nat h) = Ok (bin_at x h).
Proof.
  intros Hh. unfold item_bin, HashRoom.GetHash, HashRoom.kBlockSize. rewrite (proj2 (andb_true_iff _ _)) by (split; lia). run.
  rewrite (proj2 (Z.eqb_neq _ _)) by lia. done.
Qed.
Lemma mark_ok b (cond : bool) : 0 <= b < 2 ^ 64 -> Z.lor b (u64 (b2z cond * no_bin)) = if cond then no_bin else b.
Proof.
  intros Hb. destruct cond; cbn [b2z].
  - change (u64 (1 * no_bin)) with (Z.ones 64). apply Z.lor_ones_low; [lia|]. destruct (decide (b = 0)) as [->|]; [done|]. apply Z.log2_lt_pow2; lia.
  - change (u64 (0 * no_bin)) with 0. apply Z.lor_0_r.
Qed.
Lemma length_enc x h : length (enc x h) = sz.
Proof. unfold enc. rewrite length_take, ote_length_s. lia. Qed.

(** *** The permutation *)
Lemma length_perm : length perm = n.
Proof. by rewrite (Permutation_length Hperm), length_seq. Qed.
Definition pos_of (inv : list nat) : Prop := length inv = n /\ (forall i, (i < n)%nat -> (inv !!! i < n)%nat /\ perm !!! (inv !!! i) = i) /\
  forall p, (p < n)%nat -> (perm !!! p < n)%nat /\ inv !!! (perm !!! p) = p.

Lemma perm_lt p : (p < n)%nat -> (perm !!! p < n)%nat.
Proof.
  clear -Hperm. intros Hp. assert (perm !!! p ∈ seq 0 n) as Hs.
  { rewrite <- Hperm. apply list_elem_of_lookup_2 with p. apply list_lookup_lookup_total_lt. by rewrite length_perm. }
  apply elem_of_seq in Hs. lia.
Qed.
Lemma perm_inj p q : (p < n)%nat -> (q < n)%nat -> perm !!! p = perm !!! q -> p = q.
Proof.
  clear -Hperm. intros Hp Hq E. assert (NoDup perm) as Hnd by (rewrite Hperm; apply NoDup_seq).
  apply (NoDup_lookup perm p q (perm !!! p) Hnd); [|rewrite E]; apply list_lookup_lookup_total_lt; by rewrite length_perm.
Qed.

Lemma invert_permute_ok : wp (invert_permute items perm) pos_of.
Proof.
  clear -Hperm. unfold invert_permute. apply (wp_for _ _ (fun t inv => length inv = n /\ forall p, (p < t)%nat -> inv !!! (perm !!! p) = p)).
  - rewrite length_replicate. split; [done|]. intros. lia.
  - intros t inv Ht [Hl Hi]. rewrite (vget_total perm) by (by rewrite length_perm). run. pose proof (perm_lt t Ht). rewrite vset_total by lia. cbn [wp].
    rewrite length_insert. split; [done|]. intros p Hp. destruct (decide (p = t)) as [->|Hne]; [by rewrite list_lookup_total_insert_eq by lia|].
    rewrite list_lookup_total_insert_ne; [apply Hi; lia|]. intros E. apply Hne, perm_inj; [lia|lia|done].
  - intros inv [Hl Hi]. assert (forall p, (p < n)%nat -> (perm !!! p < n)%nat /\ inv !!! (perm !!! p) = p) as Hp by (intros p Hp; split; [by apply perm_lt|by apply Hi]).
    split; [done|]. split; [|done]. intros i Hi'. assert (i ∈ perm) as Hin by (rewrite Hperm; apply elem_of_seq; lia).
    apply list_elem_of_lookup in Hin as [p Ep]. assert (p < n)%nat as Hpn by (apply lookup_lt_Some in Ep; by rewrite length_perm in Ep).
    apply list_lookup_total_correct in Ep. rewrite <- Ep. destruct (Hp p Hpn) as [_ E]. rewrite E. by rewrite Ep.
Qed.

(** *** The state of the encoding *)
Section state.
Context (target : nat -> nat -> bytes).

(** A place holds its encoding and is marked, or waits with its bin. *)
Definition settled (bin_indices : list (list Z)) (buf : bytes) (p h : nat) : Prop :=
  (bin_indices !!! (perm !!! p)) !!! h = no_bin /\ slot sz (p * 3 + h) buf = target (perm !!! p) h.
Record encoding (bin_indices : list (list Z)) (buf : bytes) : Prop := {
  en_lengths : length bin_indices = n /\ length buf = (n * 3 * sz)%nat /\ forall i, (i < n)%nat -> length (bin_indices !!! i) = 3%nat;
  en_places p h : (p < n)%nat -> (h < 3)%nat ->
    settled bin_indices buf p h \/ ((bin_indices !!! (perm !!! p)) !!! h = bin_at (item (perm !!! p)) h /\ first_at (item (perm !!! p)) h = true)
}.
Context (Htarget : forall i h, (i < n)%nat -> (h < 3)%nat -> first_at (item i) h = true -> target i h = enc (item i) h).

Lemma place_inj p h p' h' : (h < 3)%nat -> (h' < 3)%nat -> (p * 3 + h = p' * 3 + h')%nat -> p = p' /\ h = h'.
Proof. lia. Qed.

Lemma encode_at_ok buf p h : length buf = (n * 3 * sz)%nat -> (p < n)%nat -> (h < 3)%nat ->
  let x := item (perm !!! p) in
  exists buf', encode_at items sz corrections_list (perm !!! p) (bin_at x h) ((p * kCuckooHashNum + h) * sz) buf = Ok buf' /\ length buf' = length buf /\
    forall s, (s < n * 3)%nat -> slot sz s buf' = if decide (s = p * 3 + h)%nat then enc x h else slot sz s buf.
Proof.
  intros Hl Hp Hh x. unfold encode_at. rewrite (vget_total items) by (by apply perm_lt). run. fold (item (perm !!! p)). fold x.
  pose proof (bin_at_range x h) as Hb. rewrite vgetz_vget by lia.
  assert (vget corrections_list (Z.to_nat (bin_at x h)) = Ok (c (Z.to_nat (bin_at x h)))) as ->.
  { apply vget_ok. unfold corrections_list. rewrite lookup_map, lookup_seq_lt by lia. done. }
  run. apply put_slot; [lia|unfold kCuckooHashNum; lia|apply length_enc].
Qed.

Lemma try_encode_ok r t h bi buf : 0 <= r <= num_bins -> (t < n)%nat -> (h < 3)%nat -> encoding bi buf ->
  wp (try_encode items sz perm corrections_list r t h (bi, buf)) (fun '(bi', buf') => encoding bi' buf').
Proof.
  intros Hr Ht Hh [(Hlb & Hlf & Hrow) Hpl]. unfold try_encode. rewrite (vget_total perm) by (by rewrite length_perm). run.
  pose proof (perm_lt t Ht) as Hi. rewrite (vget_total bi) by lia. run. rewrite vget_total by (by rewrite Hrow). run.
  destruct (Z.ltb_spec ((bi !!! (perm !!! t)) !!! h) r) as [Hlt|Hge]; [|run; done].
  destruct (Hpl t h Ht Hh) as [[Hno _]|[Hb Hf]]; [rewrite Hno in Hlt; unfold no_bin in Hlt; lia|]. rewrite Hb.
  destruct (encode_at_ok buf t h Hlf Ht Hh) as (buf' & -> & Hl' & Hs'). run. rewrite vset_total by (by rewrite Hrow). run. rewrite vset_total by lia. cbn [wp].
  constructor.
  - rewrite length_insert. split; [done|]. split; [lia|]. intros i Hi'. destruct (decide (i = perm !!! t)) as [->|].
    + rewrite list_lookup_total_insert_eq by lia. rewrite length_insert. by apply Hrow.
    + rewrite list_lookup_total_insert_ne by done. by apply Hrow.
  - intros p h' Hp Hh'. unfold settled. rewrite Hs' by lia. destruct (decide (p = t)) as [->|Hne].
    + rewrite list_lookup_total_insert_eq by lia. destruct (decide (h' = h)) as [->|Hneh].
      * rewrite list_lookup_total_insert_eq by (by rewrite Hrow). left. split; [done|]. rewrite decide_True by done. symmetry. by apply Htarget.
      * rewrite list_lookup_total_insert_ne by done. rewrite decide_False by lia. by apply Hpl.
    + rewrite list_lookup_total_insert_ne by (intros E; apply Hne; by apply perm_inj). rewrite decide_False by lia. by apply Hpl.
Qed.

Lemma encode_round_ok batch r bi buf t : 0 <= r <= num_bins -> (t < n)%nat -> encoding bi buf ->
  wp (encode_round items sz perm corrections_list batch r (bi, buf, t)) (fun '(bi', buf', t') => encoding bi' buf' /\ (t' < n)%nat).
Proof.
  intros Hr Ht He. unfold encode_round. apply (wp_for _ _ (fun _ '(bi, buf, t) => encoding bi buf /\ (t < n)%nat)); [done| |by intros [[? ?] ?]].
  clear bi buf t Ht He. intros k [[bi buf] t] _ [He Ht]. apply wp_bind. apply (wp_for _ _ (fun _ '(bi, buf) => encoding bi buf)); [done| |].
  - intros h [bi' buf'] Hh He'. by apply try_encode_ok.
  - intros [bi' buf'] He'. rewrite bool_decide_false by lia. run. split; [done|]. apply Nat.mod_upper_bound. lia.
Qed.

Lemma encode_rounds_ok batch : forall loads r bi buf t, 0 <= r <= num_bins -> Forall (fun l => 0 <= l <= num_bins) loads -> r = num_bins \/ num_bins ∈ loads ->
  (t < n)%nat -> encoding bi buf ->
  wp (encode_rounds items num_bins sz perm corrections_list batch loads r (bi, buf, t)) (fun '(bi', buf', _) => encoding bi' buf').
Proof.
  induction loads as [|l loads IH]; intros r bi buf t Hr Hl Hin Ht He; cbn [encode_rounds]; destruct (Z.eqb_spec r num_bins) as [->|Hne]; try done.
  - destruct Hin as [|Hin]; [done|by apply not_elem_of_nil in Hin].
  - apply wp_bind. eapply wp_mono; [by apply encode_round_ok|]. intros [[bi' buf'] t'] [He' Ht']. apply Forall_cons in Hl as [Hl Hls].
    apply IH; try done. destruct Hin as [|Hin]; [done|]. apply elem_of_cons in Hin. destruct Hin as [->|]; [by left|by right].
Qed.
End state.

(** *** The bins of the items *)
Section hashing.
Context (inv : list nat) (Hinv : pos_of inv) (prg0 : Prg).
(** The generator after some draws. *)
Definition prgs (k : nat) : Prg := Nat.iter k (fun g => (fill g sz).2) prg0.

Record hashed (i k : nat) (T : nat -> nat -> bytes) (bin_indices : list (list Z)) (buf : bytes) : Prop := {
  ha_lengths : length bin_indices = n /\ length buf = (n * 3 * sz)%nat /\ forall i', (i' < n)%nat -> length (bin_indices !!! i') = 3%nat;
  ha_rows i' h : (i' < i)%nat -> (h < 3)%nat -> (bin_indices !!! i') !!! h = if first_at (item i') h then bin_at (item i') h else no_bin;
  ha_slots i' h : (i' < i)%nat -> (h < 3)%nat -> first_at (item i') h = false -> slot sz (inv !!! i' * 3 + h) buf = T i' h;
  ha_target i' h : (i' < i)%nat -> (h < 3)%nat ->
    if first_at (item i') h then T i' h = enc (item i') h else exists k', (k' < k)%nat /\ T i' h = (fill (prgs k') sz).1
}.

Lemma randomize_ok i cond h buf k : (i < n)%nat -> (h < 3)%nat -> length buf = (n * 3 * sz)%nat ->
  exists buf', randomize fill sz inv i cond h (buf, prgs k) = Ok (buf', prgs (if cond then S k else k)) /\ length buf' = length buf /\
    forall s, (s < n * 3)%nat -> slot sz s buf' = if decide (s = inv !!! i * 3 + h)%nat then (if cond then (fill (prgs k) sz).1 else slot sz s buf) else slot sz s buf.
Proof.
  intros Hi Hh Hl. destruct Hinv as (Hli & Hp & _). unfold randomize. destruct cond.
  - rewrite (vget_total inv) by lia. run. destruct (put_slot sz buf (n * 3) (inv !!! i * 3 + h) (fill (prgs k) sz).1) as (buf' & E & Hl' & Hs'); try done.
    + destruct (Hp i Hi) as [? _]. lia.
    + exists buf'. change (prgs (S k)) with (fill (prgs k) sz).2. destruct (fill (prgs k) sz) as [bs g] eqn:Ef. unfold kCuckooHashNum. cbn [fst] in *. rewrite E. run.
      done.
  - exists buf. split; [done|]. split; [done|]. intros s _. by case_decide.
Qed.

Lemma hash_item_ok i k T bi buf : (i < n)%nat -> hashed i k T bi buf ->
  wp (hash_item fill items num_bins sz inv i (bi, buf, prgs k)) (fun '(bi', buf', g') => exists k' T', (k' <= k + 2)%nat /\ g' = prgs k' /\ hashed (S i) k' T' bi' buf').
Proof.
  intros Hi [(Hlb & Hlf & Hrow) Hro Hsl Hta]. unfold hash_item. rewrite (vget_total items) by done. run. fold (item i). set (x := item i).
  change 0 with (Z.of_nat 0) at 1. change 1 with (Z.of_nat 1) at 1. change 2 with (Z.of_nat 2) at 1. rewrite !item_bin_ok by lia. run.
  pose proof (bin_at_range x 1) as Hb1. pose proof (bin_at_range x 2) as Hb2. rewrite !mark_ok by lia. rewrite vset_total by lia. run.
  set (c1 := bin_at x 0 =? bin_at x 1). set (c2 := (bin_at x 0 =? bin_at x 2) || (bin_at x 1 =? bin_at x 2)).
  destruct (randomize_ok i c1 1 buf k Hi ltac:(lia) Hlf) as (buf1 & -> & Hl1 & Hs1). run. set (k1 := if c1 then S k else k).
  destruct (randomize_ok i c2 2 buf1 k1 Hi ltac:(lia) ltac:(lia)) as (buf2 & -> & Hl2 & Hs2). run. set (k2 := if c2 then S k1 else k1).
  assert (k <= k1 <= k2 /\ k2 <= k + 2)%nat as [[Hk1 Hk12] Hk2] by (unfold k1, k2; destruct c1, c2; lia).
  assert (first_at x 1 = negb c1 /\ first_at x 2 = negb c2) as [Hf1 Hf2] by done.
  assert (forall i', (i' < n)%nat -> (inv !!! i' < n)%nat /\ (inv !!! i' = inv !!! i -> i' = i)) as Hpi.
  { intros i' Hi'. destruct Hinv as (_ & Hp & _). destruct (Hp i' Hi') as [? E'], (Hp i Hi) as [_ E]. split; [done|]. intros Ei. by rewrite <- E', Ei, E. }
  exists k2, (fun i' h => if decide (i' = i) then (if first_at x h then enc x h else (fill (prgs (if decide (h = 1%nat) then k else k1)) sz).1) else T i' h).
  split; [done|]. split; [done|]. constructor.
  - rewrite length_insert. split; [done|]. split; [lia|]. intros i' Hi'. destruct (decide (i' = i)) as [->|]; [by rewrite list_lookup_total_insert_eq by lia|].
    rewrite list_lookup_total_insert_ne by done. by apply Hrow.
  - intros i' h Hi' Hh. destruct (decide (i' = i)) as [->|]; [|rewrite list_lookup_total_insert_ne by done; apply Hro; lia].
    rewrite list_lookup_total_insert_eq by lia. fold x. destruct h as [|[|[|h]]]; [done| | |lia]; rewrite ?Hf1, ?Hf2; cbn; [by destruct c1|by destruct c2].
  - intros i' h Hi' Hh Hf. destruct (Hpi i' ltac:(lia)) as [Hlt Hinj]. rewrite Hs2, Hs1 by lia. destruct (decide (i' = i)) as [->|Hne].
    + fold x in Hf |- *. rewrite Hf. destruct h as [|[|[|h]]]; [done| | |lia].
      * rewrite decide_False by lia. rewrite !decide_True by done. rewrite Hf1 in Hf. by destruct c1.
      * rewrite decide_True by done. rewrite Hf2 in Hf. by destruct c2.
    + rewrite !decide_False by (intros E; apply Hne, Hinj; lia). apply Hsl; [lia|done|done].
  - intros i' h Hi' Hh. case_decide as Hd.
    + subst i'. fold x. destruct (first_at x h) eqn:Hf; [done|]. destruct h as [|[|[|h]]]; [done| | |lia].
      * exists k. split; [|done]. rewrite Hf1 in Hf. unfold k2, k1. destruct c1; [|done]. destruct c2; lia.
      * exists k1. split; [|done]. rewrite Hf2 in Hf. unfold k2. destruct c2; [lia|done].
    + specialize (Hta i' h ltac:(lia) Hh). destruct (first_at (item i') h); [done|]. destruct Hta as (k' & ? & ?). exists k'. split; [lia|done].
Qed.

(** After all items, for some targets. *)
Lemma kkrt_hash_items_ok junk : length junk = (n * 3 * sz)%nat ->
  wp (for_ n (hash_item fill items num_bins sz inv) (replicate n [0; 0; 0], junk, prg0)) (fun '(bi, buf, _) => exists T, encoding T bi buf /\
    forall i h, (i < n)%nat -> (h < 3)%nat -> if first_at (item i) h then T i h = enc (item i) h else exists k, (k < 2 * n)%nat /\ T i h = (fill (prgs k) sz).1).
Proof.
  intros Hj. apply (wp_for _ _ (fun t '(bi, buf, g) => exists k T, (k <= 2 * t)%nat /\ g = prgs k /\ hashed t k T bi buf)).
  - exists 0%nat, (fun _ _ => []). split; [lia|]. split; [done|]. constructor; [|lia..]. rewrite length_replicate. split; [done|]. split; [done|].
    intros i Hi. by rewrite lookup_total_replicate_2.
  - intros t [[bi buf] g] Ht (k & T & Hk & -> & Hh). eapply wp_mono; [by eapply hash_item_ok|]. intros [[bi' buf'] g'] (k' & T' & Hk' & -> & Hh').
    exists k', T'. split; [lia|done].
  - intros [[bi buf] g] (k & T & Hk & _ & [(Hlb & Hlf & Hrow) Hro Hsl Hta]). exists T. split.
    + constructor; [done|]. intros p h Hp Hh. pose proof (perm_lt p Hp) as Hi. specialize (Hro _ h Hi Hh). destruct Hinv as (_ & _ & Hpos). destruct (Hpos p Hp) as [_ Ep].
      destruct (first_at (item (perm !!! p)) h) eqn:Hf; [by right|]. left. split; [done|]. rewrite <- (Hsl _ h Hi Hh Hf). by rewrite Ep.
    + intros i h Hi Hh. specialize (Hta i h Hi Hh). destruct (first_at (item i) h); [done|]. destruct Hta as (k' & ? & ?). exists k'. split; [lia|done].
Qed.
End hashing.

(** *** The messages *)
Section messages.
Context (target : nat -> nat -> bytes) (Htarget : forall i h, (i < n)%nat -> (h < 3)%nat -> first_at (item i) h = true -> target i h = enc (item i) h).
Context (Hlt : forall i h, (i < n)%nat -> (h < 3)%nat -> length (target i h) = sz).
Context (bi : list (list Z)).

(** What is at a place of the buffer in the end, and the count of the item. *)
Definition sent (s : nat) : bytes := target (perm !!! (s / 3)%nat) (s mod 3).
Definition dup_of (p : nat) : Z := let m := cnt (items !!! (perm !!! p)) in if 1 <? m then m else 0.

Lemma sent_at p h : (h < 3)%nat -> sent (p * 3 + h) = target (perm !!! p) h.
Proof.
  intros Hh. unfold sent. rewrite (Nat.add_comm (p * 3)), Nat.div_add, Nat.div_small, Nat.Div0.mod_add, Nat.mod_small by lia. done.
Qed.
Lemma length_sent s : (s < n * 3)%nat -> length (sent s) = sz.
Proof. intros Hs. apply Hlt; [apply perm_lt, Nat.Div0.div_lt_upper_bound; lia|]. apply Nat.mod_upper_bound. lia. Qed.

Lemma encode_rest_ok i j buf dup : (i + j < n)%nat -> encoding target bi buf ->
  wp (encode_rest items sz perm corrections_list bi i j (buf, dup)) (fun '(buf', dup') => encoding target bi buf' /\
    (forall s, (s < n * 3)%nat -> slot sz s buf' = if decide (s / 3 = i + j)%nat then sent s else slot sz s buf) /\
    dup' = if 1 <? cnt (items !!! (perm !!! (i + j)%nat)) then <[Z.of_nat j := cnt (items !!! (perm !!! (i + j)%nat))]> dup else dup).
Proof.
  intros Hp He. set (p := (i + j)%nat) in *. unfold encode_rest. fold p. rewrite (vget_total perm) by (by rewrite length_perm). run.
  pose proof (perm_lt p Hp) as Hi. pose proof (en_lengths _ _ _ He) as (Hlb & Hlf & Hrow). apply wp_bind.
  apply (wp_for _ _ (fun t buf' => encoding target bi buf' /\ forall s, (s < n * 3)%nat -> slot sz s buf' = if decide (p * 3 <= s < p * 3 + t)%nat then sent s else slot sz s buf)).
  - split; [done|]. intros s Hs. by rewrite decide_False by lia.
  - intros h buf' Hh [He' Hs']. unfold kCuckooHashNum in Hh. rewrite (vget_total bi) by lia. run. rewrite vget_total by (by rewrite Hrow). run.
    pose proof (en_lengths _ _ _ He') as (_ & Hlf' & _). destruct (en_places _ _ _ He' p h Hp Hh) as [[Hno Hsl]|[Hb Hf]].
    + rewrite Hno. cbn [Z.eqb no_bin]. rewrite Z.eqb_refl. run. split; [done|]. intros s Hs. rewrite Hs' by done.
      destruct (decide (s = p * 3 + h)%nat) as [->|Hne]; [|repeat case_decide; lia || done].
      rewrite decide_False, decide_True by lia. rewrite sent_at by done. rewrite <- Hsl, Hs' by lia. by rewrite decide_False by lia.
    + rewrite Hb. pose proof (bin_at_range (item (perm !!! p)) h). rewrite (proj2 (Z.eqb_neq _ _)) by (unfold no_bin; lia). run.
      destruct (encode_at_ok buf' p h Hlf' Hp Hh) as (buf2 & -> & Hl2 & Hs2). cbn [wp].
      assert (forall s, (s < n * 3)%nat -> slot sz s buf2 = if decide (s = p * 3 + h)%nat then sent s else slot sz s buf') as Hs3.
      { intros s Hs. rewrite Hs2 by done. case_decide as Hd; [|done]. subst s. rewrite sent_at by done. symmetry. by apply Htarget. }
      split.
      * constructor; [split; [done|]; split; [lia|done]|]. intros q h' Hq Hh'. destruct (en_places _ _ _ He' q h' Hq Hh') as [[? Hsl]|?]; [left|by right].
        split; [done|]. rewrite Hs3 by lia. case_decide as Hd; [|done]. assert (q = p /\ h' = h) as [-> ->] by lia. by apply sent_at.
      * intros s Hs. rewrite Hs3, Hs' by done. destruct (decide (s = p * 3 + h)%nat) as [->|Hne]; [by rewrite decide_True by lia|repeat case_decide; lia || done].
  - intros buf' [He' Hs']. rewrite (vget_total items) by done. run. split; [done|]. split; [|done]. intros s Hs. rewrite Hs' by done.
    unfold kCuckooHashNum. pose proof (Nat.div_mod_eq s 3). pose proof (Nat.mod_upper_bound s 3 ltac:(lia)). repeat case_decide; lia || done.
Qed.

(** A batch of the items from a position on. *)
Record batch_ok (i step : nat) (b : EcdhPsi.PsiDataBatch) : Prop := {
  ba_num : EcdhPsi.item_num b = Z.of_nat step;
  ba_bytes : EcdhPsi.flatten_bytes b = concat (map sent (seq (i * 3) (step * 3)));
  ba_last : EcdhPsi.is_last_batch b = bool_decide (i + step = n)%nat;
  ba_dup j : (j < step)%nat -> count (EcdhPsi.duplicate_item_cnt b) (Z.of_nat j) = dup_of (i + j)
}.
Fixpoint batches_ok (i : nat) (bs : list EcdhPsi.PsiDataBatch) : Prop :=
  match bs with
  | [] => i = n
  | b :: bs' => exists step, (0 < step)%nat /\ (i + step <= n)%nat /\ batch_ok i step b /\ batches_ok (i + step) bs'
  end.

Lemma send_encodings_ok psi_batch : (0 < psi_batch)%nat -> forall fuel i buf msgs, (i <= n)%nat -> (n - i <= fuel)%nat -> encoding target bi buf ->
  wp (send_encodings items sz perm corrections_list psi_batch bi fuel i buf msgs)
    (fun out => exists bs, out = msgs ++ map EcdhPsi.proto_serialize bs /\ batches_ok i bs).
Proof.
  intros Hb. induction fuel as [|fuel IH]; intros i buf msgs Hi Hf He; cbn [send_encodings].
  - rewrite bool_decide_false by lia. cbn [wp]. exists []. split; [by rewrite app_nil_r|]. cbn. lia.
  - case_bool_decide as Hin; [|exists []; split; [by rewrite app_nil_r|cbn; lia]]. set (step := Nat.min psi_batch (n - i)).
    assert (0 < step)%nat as Hs0 by lia. assert (i + step <= n)%nat as Hsn by lia. apply wp_bind.
    apply (wp_for _ _ (fun t '(buf', dup) => encoding target bi buf' /\ (forall s, (i * 3 <= s < (i + t) * 3)%nat -> slot sz s buf' = sent s) /\
      forall k, count dup k = if decide (0 <= k < Z.of_nat t) then dup_of (i + Z.to_nat k) else 0)).
    + split; [done|]. split; [lia|]. intros k. rewrite decide_False by lia. done.
    + intros t [buf' dup] Ht (He' & Hs' & Hd'). eapply wp_mono; [apply encode_rest_ok; [lia|done]|]. intros [buf2 dup2] (He2 & Hs2 & ->).
      split; [done|]. pose proof Hs2 as Hs2'. split.
      * intros s Hs. rewrite Hs2 by lia. case_decide as Hd; [done|]. apply Hs'. pose proof (Nat.div_mod_eq s 3). pose proof (Nat.mod_upper_bound s 3 ltac:(lia)). lia.
      * intros k. assert (forall m k, count (<[Z.of_nat t := m]> dup) k = if decide (k = Z.of_nat t) then m else count dup k) as Hins.
        { intros m k'. unfold count. case_decide as Hc; [subst; by rewrite lookup_insert_eq|by rewrite lookup_insert_ne by done]. }
        destruct (decide (k = Z.of_nat t)) as [->|Hk].
        -- rewrite decide_True by lia. rewrite Nat2Z.id. unfold dup_of. destruct (1 <? cnt _); [by rewrite Hins, decide_True|]. rewrite Hd', decide_False by lia. done.
        -- transitivity (count dup k); [destruct (1 <? cnt _); [by rewrite Hins, decide_False|done]|]. rewrite Hd'. repeat case_decide; lia || done.
    + intros [buf' dup] (He' & Hs' & Hd'). pose proof (en_lengths _ _ _ He') as (_ & Hlf & _). unfold kCuckooHashNum.
      assert ((i * 3 * sz + sz * (step * 3) <= length buf')%nat) as Hle.
      { rewrite Hlf. transitivity ((i + step) * 3 * sz)%nat; [clear; lia|by apply Nat.mul_le_mono_r, Nat.mul_le_mono_r]. }
      rewrite (bool_decide_true (i * 3 * sz + _ <= _)%nat) by done. run. eapply wp_mono; [apply IH; [lia|lia|done]|]. intros out (bs & -> & Hbs).
      set (b := EcdhPsi.mkBatch _ _ _ _ _ _). exists (b :: bs). cbn [map batches_ok]. split; [by rewrite <- app_assoc|]. exists step. do 2 (split; [done|]). split; [|done].
      constructor; [done| |done|].
      * cbn [b EcdhPsi.flatten_bytes]. replace (sz * (step * 3))%nat with (step * 3 * sz)%nat by lia. rewrite slots_concat by lia.
        f_equal. apply map_ext_in. intros s Hs%list_elem_of_In%elem_of_seq. apply Hs'. lia.
      * intros j Hj. cbn [b EcdhPsi.duplicate_item_cnt]. rewrite Hd', decide_True by lia. by rewrite Nat2Z.id.
Qed.

(** *** What the receiver makes of them *)
Context (maps : list (gmap bytes nat)) (Hmaps : length maps = 3%nat).
Definition found_at (p h : nat) : list PsiResultIndex :=
  match (maps !!! h) !! target (perm !!! p) h with Some d => [mkResult d (dup_of p)] | None => [] end.
Definition found_for (p : nat) : list PsiResultIndex := found_at p 0 ++ found_at p 1 ++ found_at p 2.

Lemma recv_batch_ok i step b ret : batch_ok i step b -> (i + step <= n)%nat ->
  for_ step (fun k => for_ kCuckooHashNum (fun j => look_up sz maps b k j)) ret = Ok (ret ++ concat (map found_for (seq i step))).
Proof.
  intros [_ Hb _ Hd] Hs. apply wp_eq. apply (wp_for _ _ (fun t r => r = ret ++ concat (map found_for (seq i t)))).
  - by rewrite app_nil_r.
  - intros t r Ht ->. set (r := ret ++ _).
    assert (forall j r, (j < 3)%nat -> look_up sz maps b t j r = Ok (r ++ found_at (i + t) j)) as Hl.
    { intros j r' Hj. unfold look_up. fold (slot sz (t * kCuckooHashNum + j) (EcdhPsi.flatten_bytes b)). rewrite Hb. unfold kCuckooHashNum.
      rewrite slot_of_concat; [|apply Forall_fmap, Forall_forall; intros s Hs'%elem_of_seq; apply length_sent; lia|rewrite length_map, length_seq; lia].
      rewrite (list_lookup_total_correct _ _ (sent (i * 3 + (t * 3 + j)))) by (rewrite lookup_map, lookup_seq_lt by lia; done).
      replace (i * 3 + (t * 3 + j))%nat with ((i + t) * 3 + j)%nat by lia. rewrite sent_at by done. rewrite (vget_total maps) by lia. run.
      unfold found_at. rewrite Hd by done. destruct (_ !! _); [done|by rewrite app_nil_r]. }
    cbn [kCuckooHashNum for_ for_from]. rewrite !Hl by lia. run. rewrite !Hl by lia. run. rewrite !Hl by lia. run.
    rewrite seq_S, map_app, concat_app. cbn [map concat]. rewrite app_nil_r. unfold r, found_for. by rewrite <- !app_assoc.
  - by intros r ->.
Qed.

Lemma recv_encodings_ok : forall bs i ret, batches_ok i bs -> (i < n)%nat ->
  recv_encodings sz maps (map EcdhPsi.proto_serialize bs) ret = Ok (ret ++ concat (map found_for (seq i (n - i)))).
Proof.
  induction bs as [|b bs IH]; intros i ret Hbs Hi; cbn [batches_ok] in Hbs; [lia|]. destruct Hbs as (step & Hs0 & Hsn & Hb & Hbs).
  cbn [map recv_encodings]. rewrite EcdhPsi.batch_roundtrip. pose proof Hb as [Hnum Hby Hla _]. rewrite Hnum, Nat2Z.id.
  assert (length (EcdhPsi.flatten_bytes b) = step * kCuckooHashNum * sz)%nat as Hl.
  { rewrite Hby. unfold kCuckooHashNum. assert (forall a k, (a + k <= n * 3)%nat -> length (concat (map sent (seq a k))) = (k * sz)%nat) as Hc; [|rewrite Hc by lia; lia].
    intros a k. revert a. induction k as [|k IHk]; intros a Ha; [done|]. cbn [seq map concat]. rewrite length_app, IHk, length_sent by lia. lia. }
  rewrite bool_decide_true by done. run. rewrite (recv_batch_ok i step) by done. run. rewrite Hla. case_bool_decide as He.
  - replace (n - i)%nat with step by lia. done.
  - rewrite (IH (i + step)%nat) by (done || lia). replace (n - i)%nat with (step + (n - (i + step)))%nat by lia.
    rewrite seq_app, map_app, concat_app. by rewrite <- app_assoc.
Qed.
End messages.
End sender.
