(* ===== verification/KkrtRun.v ===== *)
(** * The KKRT PSI: a run

    The maps of the receiver hold the encodings of its bins; what it finds in the
    messages of the sender are the items of both. *)
From S2P Require Import Prelude Float64 EcStore CuckooIndex Kkrt KkrtProofs.
From S2P Require EcdhPsi.

(** ** The receiver's maps *)
Section maps.
Context `{KkrtOteLaws} (codes : list Z) (t : Index) (sz : nat) (nb : Z).
Context (Ht : table_ok t nb) (Hcodes : hashes t = codes) (Hhash : num_hash (options t) = 3).
Abbreviation size := (length (bins t)).

(** Bin [k] holds input [d]; it holds item [x]. *)
Definition holds (k d : nat) : Prop := exists b, bins t !! k = Some b /\ Bin.IsEmpty b = false /\ Bin.InputIdx b = Z.of_nat d.
Definition content (k : nat) : option Z :=
  match bins t !! k with
  | Some b => if Bin.IsEmpty b then None else Some (codes !!! Z.to_nat (Bin.InputIdx b))
  | None => None
  end.
Definition kenc (k : nat) (x : Z) : bytes := take sz (r_encode k x).
Definition correction (k : nat) : Correction := r_correction k (content k).

Lemma content_holds k x : content k = Some x <-> exists d, holds k d /\ codes !!! d = x.
Proof.
  unfold content, holds. split.
  - destruct (bins t !! k) as [b|] eqn:E; [|done]. destruct (Bin.IsEmpty b) eqn:Eb; [done|]. intros [= <-]. exists (Z.to_nat (Bin.InputIdx b)).
    split; [|done]. exists b. pose proof (Bin.InputIdx_range b). split_and!; [done|done|lia].
  - intros (d & (b & -> & -> & ->) & <-). by rewrite Nat2Z.id.
Qed.
Lemma holds_fun k d d' : holds k d -> holds k d' -> d = d'.
Proof. intros (b & E & _ & Ed) (b' & E' & _ & Ed'). rewrite E in E'. injection E' as <-. lia. Qed.
Lemma holds_lt k d : holds k d -> (k < size)%nat /\ (d < length codes)%nat.
Proof.
  intros (b & E & Eb & Ed). split; [by eapply lookup_lt_Some|]. destruct Ht as [_ _ _ Hpl _]. destruct (Hpl k b E Eb) as [(_ & _ & Hi & _) _]. rewrite Hcodes in Hi. lia.
Qed.

(** Every input is in a bin, when nothing is in the stash, and in one only. *)
Lemma holds_every d : stash t = [] -> (d < length codes)%nat -> exists k, holds k d.
Proof.
  intros Hs Hd. destruct Ht as [_ _ _ _ Hp]. rewrite Hs, Hcodes in Hp. cbn [occ] in Hp. rewrite app_nil_r in Hp.
  assert (Z.of_nat d ∈ occ (bins t)) as Hin.
  { rewrite Hp. apply (list_elem_of_fmap_2 Z.of_nat), elem_of_seq. lia. }
  unfold occ in Hin. apply list_elem_of_fmap in Hin as (b & Eb & Hb). apply list_elem_of_filter in Hb as [Hb (k & Hk)%list_elem_of_lookup].
  exists k, b. done.
Qed.

Lemma occ_elem bs b : b ∈ bs -> Bin.IsEmpty b = false -> Bin.InputIdx b ∈ occ bs.
Proof. intros Hb Eb. unfold occ. apply list_elem_of_fmap_2. by apply list_elem_of_filter. Qed.
Lemma occ_once bs : NoDup (occ bs) -> forall k k' b b', bs !! k = Some b -> bs !! k' = Some b' -> Bin.IsEmpty b = false -> Bin.IsEmpty b' = false ->
  Bin.InputIdx b = Bin.InputIdx b' -> k = k'.
Proof.
  clear. induction bs as [|c bs IH]; intros Hnd k k' b b' Hk Hk' Eb Eb' E; [done|]. rewrite occ_cons in Hnd. apply NoDup_app in Hnd as (_ & Hd & Hnd).
  destruct k as [|k], k' as [|k']; cbn in Hk, Hk'; [done| | |f_equal; by eapply IH].
  - injection Hk as ->. rewrite Eb in Hd. destruct (Hd (Bin.InputIdx b)); [by left|]. rewrite E. apply occ_elem; [by eapply list_elem_of_lookup_2|done].
  - injection Hk' as ->. rewrite Eb' in Hd. destruct (Hd (Bin.InputIdx b')); [by left|]. rewrite <- E. apply occ_elem; [by eapply list_elem_of_lookup_2|done].
Qed.
Lemma holds_inj k k' d : holds k d -> holds k' d -> k = k'.
Proof.
  intros (b & E & Eb & Ed) (b' & E' & Eb' & Ed'). apply (occ_once (bins t)) with b b'; try done; [|congruence].
  destruct Ht as [_ _ _ _ Hp]. assert (NoDup (occ (bins t) ++ occ (stash t))) as Hnd; [|by apply NoDup_app in Hnd as [? _]].
  rewrite Hp. apply NoDup_fmap_2; [intros ? ? ?; lia|apply NoDup_seq].
Qed.

(** The hash that gives the bin, the least one. *)
Lemma hashes_to_bin d r k : (d < length codes)%nat -> (r < 3)%nat -> hashes_to nb (hashes t) (Z.of_nat d) (Z.of_nat r) k <-> bin_at nb (codes !!! d) r = Z.of_nat k.
Proof.
  intros Hd Hr. unfold hashes_to, bin_at. rewrite Hcodes, vgetz_vget, Nat2Z.id, (vget_total codes) by lia.
  unfold HashRoom.GetHash, HashRoom.kBlockSize. rewrite (proj2 (andb_true_iff _ _)) by (split; lia).
  split; [intros (c & h & [= <-] & [= <-] & Hk); done|]. intros Hk. eexists _, _. split; [done|]. split; [done|done].
Qed.
Lemma first_at_least x h : (h < 3)%nat -> first_at nb x h = true <-> forall j, (j < h)%nat -> bin_at nb x j <> bin_at nb x h.
Proof.
  intros Hh. destruct h as [|[|[|h]]]; cbn [first_at]; [| | |lia].
  - split; [lia|done].
  - split; [intros Hf [|j] Hj; [|lia]; intros E; rewrite E, Z.eqb_refl in Hf; done|]. intros Hj. specialize (Hj 0%nat ltac:(lia)). lia.
  - split.
    + intros Hf [|[|j]] Hj E; [| |lia]; rewrite E in Hf; lia.
    + intros Hj. pose proof (Hj 0%nat ltac:(lia)). pose proof (Hj 1%nat ltac:(lia)). lia.
Qed.

(** *** One bin *)
Definition maps_ok (m : nat) (maps : list (gmap bytes nat)) : Prop :=
  length maps = 3%nat /\ forall h e d, (h < 3)%nat -> (maps !!! h) !! e = Some d <->
    exists k, (k < m)%nat /\ holds k d /\ bin_at nb (codes !!! d) h = Z.of_nat k /\ first_at nb (codes !!! d) h = true /\ e = kenc k (codes !!! d).
(** Different bins have different encodings. *)
Context (Hsep : forall k k' x x', content k = Some x -> content k' = Some x' -> kenc k x = kenc k' x' -> k = k').

Lemma encode_bin_ok k maps corrs : (k < size)%nat -> maps_ok k maps ->
  wp (encode_bin codes t sz k (maps, corrs)) (fun '(maps', corrs') => maps_ok (S k) maps' /\ corrs' = corrs ++ [correction k]).
Proof.
  intros Hk [Hl Hm]. destruct (lookup_lt_is_Some_2 (bins t) k Hk) as [b Hb]. unfold encode_bin. rewrite (proj2 (vget_ok _ _ _) Hb). run.
  unfold correction, content. rewrite Hb. destruct (Bin.IsEmpty b) eqn:Eb.
  { run. split; [|done]. split; [done|]. intros h e d Hh. rewrite Hm by done. split; [intros (k' & ? & ?); exists k'; split; [lia|done]|].
    intros (k' & Hk' & Hd & Hr). exists k'. split; [|done]. destruct (decide (k' = k)) as [->|]; [|lia]. destruct Hd as (b' & E & Eb' & _). rewrite Hb in E. congruence. }
  pose proof (Bin.InputIdx_range b) as Hib. pose proof (Bin.HashIdx_range b) as Hhb. set (d := Z.to_nat (Bin.InputIdx b)).
  assert (holds k d) as Hd by (exists b; split_and!; [done|done|unfold d; lia]). destruct (holds_lt _ _ Hd) as [_ Hdl].
  rewrite vgetz_vget, (vget_total codes) by (lia || fold d; lia). run. fold d.
  pose proof (MinCollidingHashIdx_least t nb k b Ht Hb Eb) as (r & -> & [Hr0 Hr3] & Hrk & Hrl)%wp_iff. run.
  assert (r < 3) as Hr. { destruct Ht as [_ _ _ Hpl _]. destruct (Hpl k b Hb Eb) as [(_ & _ & _ & Hi) _]. lia. }
  replace (Bin.InputIdx b) with (Z.of_nat d) in * by (unfold d; lia). destruct (Z_of_nat_complete r Hr0) as [h ->].
  apply hashes_to_bin in Hrk; [|done|lia]. set (x := codes !!! d) in *.
  assert (first_at nb x h = true) as Hf.
  { apply first_at_least; [lia|]. intros j Hj E. apply (Hrl (Z.of_nat j)); [lia|]. apply hashes_to_bin; [done|lia|]. fold x. by rewrite E. }
  assert (content k = Some x) as Hck by (apply content_holds; by exists d).
  rewrite vgetz_vget, Nat2Z.id, (vget_total maps) by lia. run. rewrite vsetz_vset, Nat2Z.id, vset_total by lia. run. split; [|done].
  fold (kenc k x). rewrite decide_False.
  2: { intros [d' (k' & Hk' & Hd' & _ & _ & E)%Hm]; [|lia]. assert (k = k'); [|lia]. eapply Hsep; [done| |done]. apply content_holds. by exists d'. }
  split; [by rewrite length_insert|]. intros h' e d' Hh'. destruct (decide (h' = h)) as [->|Hne].
  - rewrite list_lookup_total_insert_eq by lia. destruct (decide (e = kenc k x)) as [->|Hne].
    + rewrite lookup_insert_eq. split; [intros [= <-]; exists k; split_and!; [lia|done..]|]. intros (k' & Hk' & Hd' & _ & _ & E). f_equal.
      assert (k = k') as <- by (eapply Hsep; [done|by apply content_holds; exists d'|done]). by eapply holds_fun.
    + rewrite lookup_insert_ne, Hm by done. split; intros (k' & Hk' & Hd' & Hrest); exists k'; (split; [|done]); [lia|].
      destruct (decide (k' = k)) as [->|]; [|lia]. assert (d' = d) as -> by by eapply holds_fun. destruct Hrest as (_ & _ & ->). done.
  - rewrite list_lookup_total_insert_ne, Hm by done. split; intros (k' & Hk' & Hd' & Hrest); exists k'; (split; [|done]); [lia|].
    destruct (decide (k' = k)) as [->|]; [|lia]. assert (d' = d) as -> by by eapply holds_fun. destruct Hrest as (Hb' & Hf' & _). fold x in Hb', Hf'. exfalso.
    destruct (decide (h' < h)%nat).
    + apply (proj1 (first_at_least x h ltac:(lia)) Hf h'); [done|]. by rewrite Hrk.
    + apply (proj1 (first_at_least x h' Hh') Hf' h); [lia|]. by rewrite Hrk.
Qed.

(** *** All of them, a batch at a time *)
Definition chunk (c : nat -> Correction) (n bs i : nat) : list Correction := map c (seq (i * bs) (Nat.min (n - i * bs) bs)).

Lemma send_corrections_ok bs : (0 < bs)%nat ->
  wp (send_corrections codes t sz bs) (fun '(maps, msgs) => maps_ok size maps /\ msgs = map (chunk correction size bs) (seq 0 ((size + bs - 1) / bs))).
Proof.
  intros Hbs. unfold send_corrections. rewrite bool_decide_false by lia. run. set (q := ((size + bs - 1) / bs)%nat).
  assert (forall i, (i < q)%nat -> (i * bs < size)%nat) as Hi.
  { intros i Hi. unfold q in Hi. clear -Hi Hbs. pose proof (Nat.div_mod_eq (size + bs - 1) bs). pose proof (Nat.mod_upper_bound (size + bs - 1) bs ltac:(lia)). nia. }
  assert (size <= q * bs)%nat as Hq.
  { unfold q. clear -Hbs. pose proof (Nat.div_mod_eq (size + bs - 1) bs). pose proof (Nat.mod_upper_bound (size + bs - 1) bs ltac:(lia)). nia. }
  apply (wp_for _ _ (fun i '(maps, msgs) => maps_ok (Nat.min (i * bs) size) maps /\ msgs = map (chunk correction size bs) (seq 0 i))).
  - split; [|done]. split; [done|]. intros h e d Hh. rewrite (lookup_total_replicate_2 kCuckooHashNum ∅ h) by (unfold kCuckooHashNum; lia). rewrite lookup_empty.
    split; [done|]. intros (k & ? & _). lia.
  - intros i [maps msgs] Hiq [Hm ->]. specialize (Hi i Hiq). rewrite Nat.min_l in Hm by lia. apply wp_bind. set (w := Nat.min (size - i * bs) bs).
    apply (wp_for _ _ (fun j '(maps, corrs) => maps_ok (i * bs + j) maps /\ corrs = map correction (seq (i * bs) j))).
    + by rewrite Nat.add_0_r.
    + intros j [maps' corrs] Hj [Hm' ->]. rewrite Nat.add_succ_r, seq_S, map_app. apply encode_bin_ok; [lia|done].
    + intros [maps' corrs] [Hm' ->]. run. replace (Nat.min (S i * bs) size) with (i * bs + w)%nat by lia. split; [done|].
      rewrite seq_S, map_app. done.
  - intros [maps msgs] [Hm ->]. by rewrite Nat.min_r in Hm by done.
Qed.
End maps.

(** The sender puts them together again. *)
Lemma recv_corrections_ok `{KkrtOte} c nb bs : (0 < bs)%nat -> 0 <= nb ->
  let n := Z.to_nat nb in forall r i, (i + r = (n + bs - 1) / bs)%nat ->
  recv_corrections nb bs (map (chunk c n bs) (seq i r)) (map c (seq 0 (Nat.min (i * bs) n))) = Ok (corrections_list nb c).
Proof.
  intros Hbs Hnb n. pose proof (Nat.div_mod_eq (n + bs - 1) bs) as Hdm. pose proof (Nat.mod_upper_bound (n + bs - 1) bs ltac:(lia)) as Hmod.
  induction r as [|r IH]; intros i Hi; cbn [seq map recv_corrections]; rewrite length_map, length_seq.
  - assert (n <= i * bs)%nat by nia. rewrite (proj2 (Z.ltb_ge _ _)) by lia. by rewrite Nat.min_r.
  - assert (i * bs < n)%nat by nia. rewrite Nat.min_l by lia. rewrite (proj2 (Z.ltb_lt _ _)) by lia. fold n.
    rewrite bool_decide_true by (unfold chunk; rewrite length_map, length_seq; lia). run. unfold chunk at 2. rewrite <- map_app.
    rewrite <- (Nat.add_0_l (i * bs)) at 3. rewrite <- seq_app. rewrite <- (IH (S i)) by lia. do 4 f_equal. lia.
Qed.

(** ** The table *)
Lemma for_each_stash cands : safe (for_each cands (fun c st => PutToStash (Bin.InputIdx c) st) []) (fun st => st = []).
Proof. apply (safe_for_each _ _ (fun _ st => st = [])); [done|]. by intros _ c _ st _ ->. Qed.

Lemma cuckoo_table_ok std_log2 o codes opt nb : cuckoo_hash_num o = 3%nat -> stash_size o = 0%nat -> Z.of_nat (length codes) < 2 ^ 56 ->
  SelectParams std_log2 (Z.of_nat (length codes)) 0 3 40 = Ok opt -> NumBins opt = Ok nb -> 0 < nb ->
  outcome (cuckoo_table std_log2 o codes = Throw) (cuckoo_table std_log2 o codes)
    (fun t => table_ok t nb /\ hashes t = codes /\ num_hash (options t) = 3 /\ stash t = []).
Proof.
  intros Hh Hs Hlen Hopt Hnb Hpos. unfold cuckoo_table. rewrite Hh, Hs. change (Z.of_nat 0) with 0. change (Z.of_nat 3) with 3. rewrite Hopt. run. cbn [SelectParams] in Hopt. injection Hopt as Eopt.
  destruct (CuckooIndex opt) as [t0| |] eqn:E0; unfold CuckooIndex in E0; rewrite Hnb in E0; subst opt; cbn in E0; try discriminate. run.
  assert (table_ok t0 nb) as Hok0.
  { eapply CuckooIndex_ok; [exact Hnb|done|cbn; lia|cbn; lia|cbn; lia|]. unfold CuckooIndex. rewrite Hnb. exact E0. }
  injection E0 as E0. pose proof (Insert_ok codes t0 nb Hok0) as Hi. destruct (Insert codes t0) as [t| |] eqn:Ei; cbn; [|done..].
  destruct Hi as (Hok & Hha & Ho). subst t0. cbn in Hha, Ho. split; [done|]. split; [done|]. split; [by rewrite Ho|].
  unfold Insert in Ei. cbn [stash] in Ei. inv_ok. destruct x1 as [bs cands]. inv_ok. cbn in *.
  pose proof (for_each_stash cands) as Hst. by rewrite H2 in Hst.
Qed.

(** ** The theorem *)
Section run.
Context `{KkrtOteLaws} `{EcdhPsi.BatchProtoLaws} {Prg : Type} (fill : Prg -> nat -> bytes * Prg).
Context (std_log2 : double -> double) (long_size : Z -> Z -> Z).
Context (o_s o_r : KkrtPsiOptions) (codes : list Z) (items : list PsiItemHash) (prg : Prg) (perm : list nat) (junk : nat -> Z) (loads : list Z).
Context (opt : Options) (nb : Z).
#[local] Existing Instance item_inhabited.
Definition encode_size : nat := KkrtEncodeSize long_size (stat_sec_param o_r) (Z.of_nat (length codes)) (Z.of_nat (length items)).

(** Options both accept, items, and what the environment gives. *)
Record setting : Prop := {
  se_hash : cuckoo_hash_num o_s = 3%nat /\ cuckoo_hash_num o_r = 3%nat;
  se_stash : stash_size o_s = 0%nat /\ stash_size o_r = 0%nat;
  se_stat : stat_sec_param o_s = stat_sec_param o_r;
  se_batch : (0 < psi_batch_size o_s)%nat /\ ot_batch_size o_r = kKkrtOtBatchSize;
  se_codes : codes <> [] /\ Z.of_nat (length codes) < 2 ^ 56;
  se_items : items <> [] /\ NoDup (map data items) /\ Forall (fun it => 1 <= cnt it) items;
  se_bins : SelectParams std_log2 (Z.of_nat (length codes)) 0 3 40 = Ok opt /\ NumBins opt = Ok nb /\ 0 < nb < 2 ^ 64;
  se_perm : perm ≡ₚ seq 0 (length items);
  se_loads : Forall (fun l => 0 <= l <= nb) loads /\ nb ∈ loads;
  se_fill g n : length (fill g n).1 = n
}.
(** The encodings of the bins differ from each other, from those of other items
    and from the random bytes of the sender. *)
Record separate (t : Index) : Prop := {
  sp_bins k k' x x' : content codes t k = Some x -> content codes t k' = Some x' -> kenc encode_size k x = kenc encode_size k' x' -> k = k';
  sp_others k y k' x' : (k < length (bins t))%nat -> y ∈ map data items -> content codes t k <> Some y -> content codes t k' = Some x' ->
    take encode_size (s_encode k (correction codes t k) y) <> kenc encode_size k' x';
  sp_random j k x : (j < 2 * length items)%nat -> content codes t k = Some x -> (fill (prgs fill encode_size (fill prg 8).2 j) encode_size).1 <> kenc encode_size k x
}.
Context (Hse : setting).
Abbreviation n := (length items).

(** *** What is found *)
Section found.
Context (t : Index) (Ht : table_ok t nb) (Hcodes : hashes t = codes) (Hhash : num_hash (options t) = 3) (Hstash : stash t = []) (Hsp : separate t).
Context (maps : list (gmap bytes nat)) (Hmaps : maps_ok codes t encode_size nb (length (bins t)) maps).
Context (T : nat -> nat -> bytes).
Context (HT : forall i h, (i < n)%nat -> (h < 3)%nat -> if first_at nb (item items i) h then T i h = enc nb encode_size (correction codes t) (item items i) h
  else exists k, (k < 2 * n)%nat /\ T i h = (fill (prgs fill encode_size (fill prg 8).2 k) encode_size).1).

Lemma found_iff i h d : (i < n)%nat -> (h < 3)%nat -> (maps !!! h) !! T i h = Some d <->
  first_at nb (item items i) h = true /\ holds t (Z.to_nat (bin_at nb (item items i) h)) d /\ codes !!! d = item items i.
Proof.
  intros Hi Hh. destruct Hmaps as [_ Hm]. rewrite Hm by done. specialize (HT i h Hi Hh). set (x := item items i) in *.
  pose proof (se_bins Hse) as (_ & _ & Hnb). pose proof (bin_at_range nb Hnb x h) as Hb. set (k0 := Z.to_nat (bin_at nb x h)).
  assert (k0 < length (bins t))%nat as Hk0. { pose proof (ok_bins_length _ _ Ht). unfold k0. lia. } split.
  - intros (k & Hk & Hd & Hbk & Hf & E). assert (content codes t k = Some (codes !!! d)) as Hck by (apply content_holds; by exists d).
    destruct (first_at nb x h) eqn:Hfx; [|destruct HT as (j & Hj & E'); rewrite E' in E; by destruct (sp_random _ Hsp j k _ Hj Hck)].
    rewrite HT in E. unfold enc in E. fold k0 in E.
    destruct (decide (content codes t k0 = Some x)) as [Hc|Hc].
    + unfold correction in E. rewrite Hc, ote_agree in E. pose proof (sp_bins _ Hsp _ _ _ _ Hc Hck E) as <-. rewrite Hc in Hck. by injection Hck as ->.
    + exfalso. eapply (sp_others _ Hsp k0 x k); [done| |done|done|done]. apply list_elem_of_fmap. exists (items !!! i). split; [done|by apply list_elem_of_lookup_total_2].
  - intros (Hf & Hd & Ex). exists k0. rewrite Ex. rewrite Hf in HT. split; [done|]. split; [done|]. split; [unfold k0; lia|]. split; [done|].
    rewrite HT. unfold enc, correction. fold k0. assert (content codes t k0 = Some x) as -> by (apply content_holds; by exists d). by rewrite ote_agree.
Qed.

(** An item of both is found at one place. *)
Lemma found_place d : (d < length codes)%nat -> codes !!! d ∈ map data items ->
  exists p h, (p < n)%nat /\ (h < 3)%nat /\ (maps !!! h) !! T (perm !!! p) h = Some d.
Proof.
  intros Hd (it & Ex & Hit)%list_elem_of_fmap. pose proof (se_bins Hse) as (_ & _ & Hnb).
  assert (exists i, (i < n)%nat /\ items !!! i = it) as (i & Hi & Ei).
  { apply list_elem_of_lookup in Hit as [i Hi]. exists i. split; [by eapply lookup_lt_Some|by apply list_lookup_total_correct]. }
  destruct (holds_every codes t nb Ht Hcodes d Hstash Hd) as [k Hk]. pose proof Hk as (b & Hb & Eb & Ed).
  pose proof (MinCollidingHashIdx_least t nb k b Ht Hb Eb) as (r & _ & [Hr0 Hr3] & Hrk & Hrl)%wp_iff.
  assert (r < 3) as Hr. { destruct Ht as [_ _ _ Hpl _]. destruct (Hpl k b Hb Eb) as [(_ & _ & _ & Hh) _]. lia. }
  rewrite Ed in *. destruct (Z_of_nat_complete r Hr0) as [h ->]. apply (hashes_to_bin codes t nb Hcodes) in Hrk; [|done|lia].
  assert (i ∈ perm) as Hin by (rewrite (se_perm Hse); apply elem_of_seq; lia). apply list_elem_of_lookup in Hin as [p Ep].
  assert (p < n)%nat as Hp by (apply lookup_lt_Some in Ep; by rewrite (length_perm items perm (se_perm Hse)) in Ep). apply list_lookup_total_correct in Ep.
  exists p, h. split; [done|]. split; [lia|]. rewrite Ep. assert (item items i = codes !!! d) as Exi by (unfold item; by rewrite Ei).
  apply found_iff; [done|lia|]. rewrite Exi, Hrk, Nat2Z.id. split; [|done].
  apply first_at_least; [lia|]. intros j Hj E. apply (Hrl (Z.of_nat j)); [lia|]. apply (hashes_to_bin codes t nb Hcodes); [done|lia|]. by rewrite E.
Qed.
Lemma found_once p h p' h' d : (p < n)%nat -> (h < 3)%nat -> (p' < n)%nat -> (h' < 3)%nat ->
  (maps !!! h) !! T (perm !!! p) h = Some d -> (maps !!! h') !! T (perm !!! p') h' = Some d -> p = p' /\ h = h'.
Proof.
  intros Hp Hh Hp' Hh' Hd Hd'. pose proof (se_perm Hse) as Hperm. pose proof (se_items Hse) as (_ & Hnd & _). pose proof (se_bins Hse) as (_ & _ & Hnb).
  apply found_iff in Hd as (Hf & Hk & E); [|by apply perm_lt|done]. apply found_iff in Hd' as (Hf' & Hk' & E'); [|by apply perm_lt|done].
  assert (perm !!! p = perm !!! p') as Ep.
  { apply (NoDup_lookup (map data items) _ _ (codes !!! d) Hnd); rewrite lookup_map, list_lookup_lookup_total_lt by (by apply perm_lt); cbn; [by rewrite E|by rewrite E']. }
  split; [by apply (perm_inj items perm Hperm)|]. rewrite Ep in *. set (x := item items (perm !!! p')) in *.
  assert (bin_at nb x h = bin_at nb x h') as Eb.
  { pose proof (bin_at_range nb Hnb x h). pose proof (bin_at_range nb Hnb x h'). pose proof (holds_inj t nb Ht _ _ _ Hk Hk'). lia. }
  destruct (decide (h < h')%nat); [exfalso; by apply (proj1 (first_at_least nb x h' Hh') Hf' h)|].
  destruct (decide (h' < h)%nat); [exfalso; by apply (proj1 (first_at_least nb x h Hh) Hf h')|lia].
Qed.

Abbreviation found_at_ := (found_at items perm T maps).
Definition results : list PsiResultIndex := concat (map (found_for items perm T maps) (seq 0 n)).
Lemma found_for_places p : found_for items perm T maps p = concat (map (found_at_ p) (seq 0 3)).
Proof. unfold found_for. cbn [seq map concat]. by rewrite app_nil_r. Qed.
Lemma elem_of_found_at p h r : r ∈ found_at_ p h <-> (maps !!! h) !! T (perm !!! p) h = Some (result_data r) /\ peer_item_cnt r = dup_of items perm p.
Proof.
  unfold found_at. destruct (_ !! _) as [d|]; [|split; [intros Hr; by apply not_elem_of_nil in Hr|by intros [? _]]].
  rewrite list_elem_of_singleton. destruct r as [d' m]. cbn. split; [by intros [= -> ->]|by intros [[= ->] ->]].
Qed.
Lemma elem_of_results r : r ∈ results <-> exists p h, (p < n)%nat /\ (h < 3)%nat /\ (maps !!! h) !! T (perm !!! p) h = Some (result_data r) /\ peer_item_cnt r = dup_of items perm p.
Proof.
  unfold results. rewrite elem_of_concat_seq. split.
  - intros (p & Hp & Hr). rewrite found_for_places in Hr. apply elem_of_concat_seq in Hr as (h & Hh & Hr%elem_of_found_at). by exists p, h.
  - intros (p & h & Hp & Hh & Hr). exists p. split; [done|]. rewrite found_for_places. apply elem_of_concat_seq. exists h. split; [done|]. by apply elem_of_found_at.
Qed.

Lemma results_NoDup : NoDup (map result_data results).
Proof.
  assert (forall p h d, d ∈ map result_data (found_at_ p h) -> (maps !!! h) !! T (perm !!! p) h = Some d) as Hat.
  { intros p h d Hd. apply list_elem_of_fmap in Hd as (r & -> & Hr). by apply elem_of_found_at in Hr as [? _]. }
  assert (forall p, map result_data (found_for items perm T maps p) = concat (map (fun h => map result_data (found_at_ p h)) (seq 0 3))) as Hf.
  { intros p. by rewrite found_for_places, concat_map, map_map. }
  unfold results. rewrite concat_map, map_map. apply NoDup_concat_seq.
  - intros p Hp. rewrite Hf. apply NoDup_concat_seq.
    + intros h Hh. unfold found_at. destruct (_ !! _); [apply NoDup_singleton|apply NoDup_nil_2].
    + intros h h' d Hh Hh' Hd%Hat Hd'%Hat. by eapply (found_once p h p h').
  - intros p p' d Hp Hp' Hd Hd'. rewrite Hf in Hd, Hd'. apply elem_of_concat_seq in Hd as (h & Hh & Hd%Hat), Hd' as (h' & Hh' & Hd'%Hat).
    by eapply (found_once p h p' h').
Qed.

Lemma results_item r : r ∈ results -> (result_data r < length codes)%nat /\
  exists it, it ∈ items /\ data it = codes !!! result_data r /\ (if 1 <? peer_item_cnt r then peer_item_cnt r - 1 else 0) = cnt it - 1.
Proof.
  intros (p & h & Hp & Hh & Hd & Hc)%elem_of_results. pose proof (perm_lt items perm (se_perm Hse) p Hp) as Hi.
  apply found_iff in Hd as (_ & Hk & E); [|done..]. split; [by eapply (holds_lt codes t nb)|]. exists (items !!! (perm !!! p)).
  assert (items !!! (perm !!! p) ∈ items) as Hin by by apply list_elem_of_lookup_total_2. split; [done|]. split; [done|].
  rewrite Hc. unfold dup_of. destruct (se_items Hse) as (_ & _ & Hcnt). rewrite Forall_forall in Hcnt. specialize (Hcnt _ Hin).
  destruct (Z.ltb_spec 1 (cnt (items !!! (perm !!! p)))); [|cbn; lia]. by rewrite (proj2 (Z.ltb_lt _ _)) by done.
Qed.

(** The intersection, once each, and how often the sender has it. *)
Definition intersection (out : list nat * list Z) : Prop :=
  NoDup out.1 /\ (forall i, i ∈ out.1 <-> (i < length codes)%nat /\ codes !!! i ∈ map data items) /\
  Forall2 (fun i e => exists it, it ∈ items /\ data it = codes !!! i /\ e = cnt it - 1) out.1 out.2.

Lemma results_intersection : intersection (KkrtPsiRecv results).
Proof.
  split; [apply results_NoDup|]. split.
  - intros d. unfold KkrtPsiRecv. cbn [fst]. split.
    + intros (r & -> & Hr)%list_elem_of_fmap. destruct (results_item r Hr) as (Hd & it & Hit & E & _). split; [done|]. rewrite <- E. by apply (list_elem_of_fmap_2 data).
    + intros [Hd Hin]. destruct (found_place d Hd Hin) as (p & h & Hp & Hh & Hm). apply list_elem_of_fmap. exists (mkResult d (dup_of items perm p)).
      split; [done|]. apply elem_of_results. by exists p, h.
  - unfold KkrtPsiRecv. cbn [fst snd]. apply Forall2_fmap, Forall_Forall2_diag, Forall_forall. intros r Hr.
    destruct (results_item r Hr) as (_ & it & Hit & E & Hc). by exists it.
Qed.
End found.

(** *** The parties *)
Lemma check_options_ok o : cuckoo_hash_num o = 3%nat -> stash_size o = 0%nat -> check_options o 512 = Ok tt.
Proof. intros Ea Eb. unfold check_options. by rewrite Ea, Eb. Qed.
Lemma sizes_ok : (0 < n)%nat /\ (0 < length codes)%nat.
Proof. destruct (se_codes Hse) as [? _], (se_items Hse) as [? _]. split; [destruct items|destruct codes]; done || (cbn; lia). Qed.
Lemma encode_size_le : (encode_size <= 16)%nat.
Proof. unfold encode_size, KkrtEncodeSize. clear. lia. Qed.
Lemma encode_size_sender : KkrtEncodeSize long_size (stat_sec_param o_s) (Z.of_nat n) (Z.of_nat (length codes)) = encode_size.
Proof. unfold encode_size, KkrtEncodeSize. by rewrite (se_stat Hse), (Z.mul_comm (Z.of_nat n)). Qed.

Lemma receiver_ok t : cuckoo_table std_log2 o_r codes = Ok t -> table_ok t nb -> hashes t = codes -> num_hash (options t) = 3 -> stash t = [] -> separate t ->
  wp (KkrtPsiRecv_corrections std_log2 long_size o_r 512 codes n) (fun '(maps, msgs, sz) => sz = encode_size /\ maps_ok codes t encode_size nb (length (bins t)) maps /\
    msgs = map (chunk (correction codes t) (length (bins t)) kKkrtOtBatchSize) (seq 0 ((length (bins t) + kKkrtOtBatchSize - 1) / kKkrtOtBatchSize))).
Proof.
  intros E Ht Hc Hh Hs Hsp. pose proof sizes_ok as [Hn _]. unfold KkrtPsiRecv_corrections. destruct Hse as [[_ Hhr] [_ Hsr] _ [_ Hb] [Hne _] _ _ _ _ _].
  rewrite check_options_ok by done. run. rewrite (bool_decide_true (0 < n)%nat), (bool_decide_false (codes = [])) by done. cbn [andb negb]. run.
  rewrite E. run. rewrite (bool_decide_true (stash t = [])) by done. run. rewrite Hb.
  apply wp_bind. eapply wp_mono; [apply (send_corrections_ok codes t encode_size nb Ht Hc Hh)|].
  - apply (sp_bins _ Hsp).
  - unfold kKkrtOtBatchSize. lia.
  - intros [maps msgs] [Hm ->]. done.
Qed.

Lemma kkrt_sender_ok t : table_ok t nb ->
  let c := correction codes t in
  wp (KkrtPsiSend fill std_log2 long_size o_s 512 items (length codes) prg perm junk loads
        (map (chunk c (length (bins t)) kKkrtOtBatchSize) (seq 0 ((length (bins t) + kKkrtOtBatchSize - 1) / kKkrtOtBatchSize))))
    (fun msgs => exists T bs, msgs = map EcdhPsi.proto_serialize bs /\ batches_ok items perm T 0 bs /\
       forall i h, (i < n)%nat -> (h < 3)%nat -> if first_at nb (item items i) h then T i h = enc nb encode_size c (item items i) h
         else exists k, (k < 2 * n)%nat /\ T i h = (fill (prgs fill encode_size (fill prg 8).2 k) encode_size).1).
Proof.
  intros Ht c. pose proof (ok_bins_length _ _ Ht) as Hlb. pose proof encode_size_sender as Hes. pose proof encode_size_le as Hle. pose proof sizes_ok as [Hn Hn'].
  destruct Hse as [[Hhs _] [Hss _] _ [Hpb _] _ _ (Hopt & HNb & Hnb) Hperm [Hl1 Hl2] Hfill].
  unfold KkrtPsiSend. rewrite check_options_ok by done. run. rewrite (bool_decide_true (0 < n)%nat), (bool_decide_true (0 < length codes)%nat) by done. cbn [andb]. run. rewrite Hhs, Hss.
  change (Z.of_nat 0) with 0. change (Z.of_nat 3) with 3. rewrite Hopt. run. rewrite HNb. run. rewrite Hes.
  pose proof (recv_corrections_ok c nb kKkrtOtBatchSize ltac:(unfold kKkrtOtBatchSize; lia) ltac:(lia) _ 0%nat (Nat.add_0_l _)) as Hrc.
  rewrite Nat.mul_0_l, Nat.min_0_l in Hrc. cbn [seq map] in Hrc. replace (length (bins t)) with (Z.to_nat nb) by lia. rewrite Hrc. run.
  destruct (fill prg 8) as [b8 prg0] eqn:E8. cbn [snd].
  pose proof (invert_permute_ok items perm Hperm) as (inv & -> & Hinv)%wp_iff. run.
  apply wp_bind. eapply wp_mono; [apply (kkrt_hash_items_ok fill Hfill items nb encode_size perm c Hnb Hle Hn Hperm inv Hinv prg0)|].
  { rewrite length_tabulate. lia. }
  intros [[bi buf] g] (T & He & HT).
  assert (forall i h, (i < n)%nat -> (h < 3)%nat -> first_at nb (item items i) h = true -> T i h = enc nb encode_size c (item items i) h) as Htarget.
  { intros i h Hi Hh Hf. specialize (HT i h Hi Hh). by rewrite Hf in HT. }
  apply wp_bind. eapply wp_mono; [apply (encode_rounds_ok items nb encode_size perm c Hnb Hle Hn Hperm T Htarget kKkrtOtBatchSize loads 0 bi buf 0%nat); [lia|done|by right|done|done]|].
  intros [[bi' buf'] t'] He'. eapply wp_mono; [apply (send_encodings_ok items nb encode_size perm c Hnb Hle Hn Hperm T Htarget bi' _ Hpb n 0%nat buf' []); [lia|lia|done]|].
  intros out (bs & -> & Hbs). exists T, bs. done.
Qed.

(** C15.  A run of the protocol between non-empty sets can only throw because the cuckoo table does not
    take the receiver's items.  When it returns, the positions are those of the
    receiver's items that the sender has, each once, in whatever order, and with
    each comes the number of further copies the sender has of it.  This holds for
    any batch size, for any shuffle, and however the corrections arrive while the
    sender encodes, as long as the encodings of different items differ. *)
Theorem kkrt_run_correct : (forall t, cuckoo_table std_log2 o_r codes = Ok t -> separate t) ->
  outcome (cuckoo_table std_log2 o_r codes = Throw) (kkrt_run fill std_log2 long_size o_s o_r codes items prg perm junk loads) intersection.
Proof.
  intros Hsep. destruct (se_hash Hse) as [_ Hhr], (se_stash Hse) as [_ Hsr], (se_codes Hse) as [Hne Hlen], (se_bins Hse) as (Hopt & HNb & Hnb).
  pose proof (cuckoo_table_ok std_log2 o_r codes opt nb Hhr Hsr Hlen Hopt HNb ltac:(lia)) as Htab.
  pose proof sizes_ok as [Hn _]. destruct (cuckoo_table std_log2 o_r codes) as [t| |] eqn:Et; cbn [outcome] in Htab; [|clear Htab|done].
  - destruct Htab as (Ht & Hc & Hh & Hs). specialize (Hsep t eq_refl). apply wp_outcome. unfold kkrt_run.
    pose proof (receiver_ok t Et Ht Hc Hh Hs Hsep) as ([[maps msgs] sz] & Ecs & -> & Hm & ->)%wp_iff. rewrite Ecs. run.
    apply wp_bind. eapply wp_mono; [by apply kkrt_sender_ok|]. intros msgs (T & bs & -> & Hbs & HT).
    assert (forall i h, (i < n)%nat -> (h < 3)%nat -> length (T i h) = encode_size) as Hlt.
    { intros i h Hi Hh'. specialize (HT i h Hi Hh'). destruct (first_at nb (item items i) h).
      - rewrite HT. by apply (length_enc items nb encode_size _ encode_size_le Hn).
      - destruct HT as (k & _ & ->). apply (se_fill Hse). }
    unfold KkrtPsiRecvIndices. rewrite Ecs. run.
    rewrite (recv_encodings_ok items encode_size perm encode_size_le Hn (se_perm Hse) T Hlt maps (proj1 Hm) bs 0%nat [] Hbs Hn). run.
    rewrite Nat.sub_0_r. by apply (results_intersection t Ht Hc Hh Hs Hsep maps Hm T HT).
  - unfold kkrt_run, KkrtPsiRecv_corrections. rewrite check_options_ok by done. run.
    rewrite (bool_decide_true (0 < n)%nat), (bool_decide_false (codes = [])) by done. cbn [andb negb]. run. by rewrite Et.
Qed.
End run.

(** ** A run on small sets *)
#[local] Instance toy_ote : KkrtOte := {|
  Correction := option Z;
  r_correction _ o := o;
  r_encode b x := le_bytes 8 (Z.of_nat b) ++ le_bytes 8 x;
  s_encode b c x := le_bytes 8 (if decide (c = Some x) then Z.of_nat b else Z.of_nat b + 2 ^ 32) ++ le_bytes 8 x
|}.
#[local] Instance toy_ote_laws : KkrtOteLaws.
Proof.
  split; intros; cbn [s_encode r_encode r_correction toy_ote]; [by rewrite decide_True|by rewrite length_app, !length_le_bytes..].
Qed.
#[local] Instance toy_proto : EcdhPsi.BatchProto := {| EcdhPsi.Buffer := EcdhPsi.PsiDataBatch; EcdhPsi.proto_serialize b := b; EcdhPsi.proto_parse b := b |}.
#[local] Instance toy_proto_laws : EcdhPsi.BatchProtoLaws.
Proof. by split. Qed.
Definition toy_fill (g : Z) (n : nat) : bytes * Z := (replicate n 255, g + 1).
Definition toy_log2 (_ : double) : double := f64_of_u64 1.

(** Three items of the receiver, two of them common; the third item of the sender
    has one bin for all its hashes. *)
Definition toy_codes : list Z := [3 * 2 ^ 32 + 5 * 2 ^ 16 + 1; 7 * 2 ^ 16 + 1; 2 ^ 40 + 1].
Definition toy_items : list PsiItemHash := [mkItemHash (2 ^ 40 + 1) 5; mkItemHash 99 1; mkItemHash 0 2; mkItemHash (7 * 2 ^ 16 + 1) 1].
Definition toy_perm : list nat := [2; 0; 3; 1]%nat.
Definition toy_options : KkrtPsiOptions := mkKkrtOptions kKkrtOtBatchSize 3 3 0 40.
Definition toy_table : res Index := cuckoo_table toy_log2 toy_options toy_codes.
Definition toy_run : res (list nat * list Z) :=
  kkrt_run toy_fill toy_log2 (fun _ _ => 16) toy_options GetDefaultKkrtPsiOptions toy_codes toy_items 0 toy_perm (fun _ => 0) [4; 11].

Definition toy_opt : Options := match SelectParams toy_log2 3 0 3 40 with Ok o => o | _ => sample_options end.
Definition toy_size : nat := encode_size (fun _ _ => 16) GetDefaultKkrtPsiOptions toy_codes toy_items.

Lemma toy_setting : setting toy_fill toy_log2 toy_options GetDefaultKkrtPsiOptions toy_codes toy_items toy_perm [4; 11] toy_opt 11.
Proof.
  constructor.
  - done.
  - done.
  - done.
  - split; [cbn; lia|done].
  - split; [done|cbn; lia].
  - split; [done|]. split; [apply (bool_decide_unpack _); vm_compute; exact I|]. repeat constructor; cbn; lia.
  - split; [reflexivity|]. split; [vm_compute; reflexivity|lia].
  - apply NoDup_Permutation; [apply (bool_decide_unpack _); vm_compute; exact I|apply NoDup_seq|]. intros x. rewrite elem_of_seq. change (length toy_items) with 4%nat. unfold toy_perm.
    rewrite !elem_of_cons, elem_of_nil. lia.
  - split; [repeat constructor; lia|]. by right; left.
  - intros g n. apply length_replicate.
Qed.

(** The first half of an encoding is the bin. *)
Lemma toy_first a x : 0 <= a < 2 ^ 64 -> le_value (take 8 (take 16 (le_bytes 8 a ++ le_bytes 8 x))) = a.
Proof. intros Ha. rewrite take_take. change (8 `min` 16)%nat with 8%nat. rewrite take_app_length' by (by rewrite length_le_bytes). rewrite le_value_bytes. by apply Z.mod_small. Qed.
Lemma toy_separate t : cuckoo_table toy_log2 GetDefaultKkrtPsiOptions toy_codes = Ok t ->
  separate toy_fill (fun _ _ => 16) GetDefaultKkrtPsiOptions toy_codes toy_items 0 t.
Proof.
  intros Et. assert (length (bins t) = 11%nat) as Hl.
  { pose proof (cuckoo_table_ok toy_log2 GetDefaultKkrtPsiOptions toy_codes toy_opt 11 eq_refl eq_refl ltac:(cbn; lia) eq_refl ltac:(by vm_compute) ltac:(lia)) as Ht.
    rewrite Et in Ht. destruct Ht as [[] _]. lia. }
  assert (forall k x, content toy_codes t k = Some x -> (k < 11)%nat) as Hlt.
  { intros k x. unfold content. destruct (bins t !! k) eqn:Hk; [|done]. apply lookup_lt_Some in Hk. lia. }
  change (encode_size _ _ _ _) with 16%nat. constructor; change (encode_size _ _ _ _) with 16%nat; unfold kenc; cbn [r_encode s_encode toy_ote].
  - intros k k' x x' Hk%Hlt Hk'%Hlt E%(f_equal (fun l => le_value (take 8 l))). rewrite !toy_first in E by (clear E; lia). lia.
  - intros k y k' x' Hk _ Hc Hk'%Hlt E%(f_equal (fun l => le_value (take 8 l))). unfold correction in E. cbn [r_correction toy_ote] in E.
    rewrite decide_False in E by exact Hc. rewrite !toy_first in E by (clear E; lia). lia.
  - intros j k x _ Hk%Hlt E%(f_equal (fun l => le_value (take 8 l))). rewrite toy_first in E by (clear E; lia).
    change (le_value _) with (2 ^ 64 - 1) in E. lia.
Qed.

Lemma kkrt_run_correct_witness :
  toy_run = Ok ([2; 1]%nat, [4; 0]) /\ outcome (toy_table = Throw) toy_run (intersection toy_codes toy_items).
Proof.
  split; [vm_compute; reflexivity|].
  apply (kkrt_run_correct toy_fill toy_log2 (fun _ _ => 16) toy_options GetDefaultKkrtPsiOptions toy_codes toy_items 0 toy_perm (fun _ => 0) [4; 11] toy_opt 11).
  - exact toy_setting.
  - exact toy_separate.
Defined.
