(* ===== verification/Nty.v ===== *)
(** * Multi-party PSI (psi/algorithm/nty: nty_mp_psi, server_aided_psi)

    Every party but three masks its items with a pseudorandom function whose key
    the aided server shares with it, and sends them in a key-value store to the
    helper; the aided server sends the receiver a store with the sum of all masks.
    What the helper decodes and what the receiver decodes agree on the common
    items, so a two-party intersection through the aided server gives the result.

    A party is a function of the messages that reach it; a message of 128-bit
    words is the list of the words.  Links keep the order of their messages, so
    the composition at the end hands each message to the function that reads it.

    Parameters: the key-value store ([IOkvs]: psi::rr22::okvs::Baxos keeps it, see
    NtyOkvs), AES, the random keys and shuffles, the key that dense_hash_map was
    told is never inserted. *)
From S2P Require Import Prelude Galois Rr22Oprf.

(** ** What a key-value store promises *)
Class IOkvs := {
  okvs_size : nat -> nat;
  Okvs_Solve : Z -> nat -> list Z -> list Z -> res (list Z);
  Okvs_Decode : Z -> nat -> list Z -> list Z -> list Z -> res (list Z)
}.
(** A solved vector decodes every key; its own keys to their values. *)
Class IOkvsLaws `{IOkvs} (good fails : Z -> nat -> list Z -> Prop) : Prop := {
  okvs_solves seed n xs vals : good seed n xs -> Forall elem xs -> length vals = length xs -> Forall elem vals ->
    outcome (fails seed n xs) (Okvs_Solve seed n xs vals) (fun P => length P = okvs_size n /\ exists g, (forall y, elem y -> elem (g y)) /\ (forall i x, xs !! i = Some x -> g x = vals !!! i) /\
      forall ys out, Forall elem ys -> length out = length ys -> Okvs_Decode seed n P ys out = Ok (map g ys))
}.

(** ** AES with a key, word by word *)
Class Aes128 := { AES_encrypt : Z -> Z -> Z; AES_decrypt : Z -> Z -> Z }.
Class Aes128Laws `{Aes128} : Prop := {
  aes_elem k x : elem x -> elem (AES_encrypt k x);
  aes_roundtrip k x : elem x -> AES_decrypt k (AES_encrypt k x) = x
}.
Definition AES_ecb_encrypt_blks `{Aes128} (key : Z) (plain : list Z) : list Z := map (AES_encrypt key) plain.
Definition AES_ecb_decrypt_blks `{Aes128} (key : Z) (cipher : list Z) : list Z := map (AES_decrypt key) cipher.

(** ** server_aided_psi.cc *)
Section server_aided.
Context `{Aes128}.
Definition SendEncItems (shuffle : list Z -> list Z) (items : list Z) (aes_seed : Z) : list Z := shuffle (AES_ecb_encrypt_blks aes_seed items).
(** The receiver's last message decrypted. *)
Definition ServerAidedPsi_outputs (aes_seed : Z) (recv_cipher : list Z) : list Z := AES_ecb_decrypt_blks aes_seed recv_cipher.
Definition ServerAssist (helper_prf receiver_prf : list Z) : list Z :=
  let helper_prf := merge_sort Z.le helper_prf in
  let receiver_prf := merge_sort Z.le receiver_prf in
  set_intersection Z.ltb (length helper_prf + length receiver_prf) helper_prf receiver_prf.
End server_aided.

(** ** nty_mp_psi.cc *)
Record NtyMPsiOptions := mkNty { aided_server_rank : nat; helper_rank : nat; receiver_rank : nat; broadcast_result : bool }.
Definition NtyMPsi_new (options : NtyMPsiOptions) (wsize : nat) : res unit :=
  _ ← enforce (bool_decide (aided_server_rank options <> helper_rank options) && bool_decide (aided_server_rank options <> receiver_rank options) && bool_decide (helper_rank options <> receiver_rank options));
  _ ← enforce (bool_decide (aided_server_rank options < wsize)%nat && bool_decide (helper_rank options < wsize)%nat && bool_decide (receiver_rank options < wsize)%nat);
  enforce (bool_decide (3 <= wsize)%nat).

Section nty.
Context `{IOkvs} `{Aes128}.

(** A store on its way: its seed and its vector in chunks. *)
Definition OkvsMessage : Type := Z * list (list Z).
Definition GenOkvs (baxos_seed : Z) (items hashed_items : list Z) (okvs_size : nat) : res OkvsMessage :=
  p128 ← Okvs_Solve baxos_seed okvs_size items hashed_items;
  Ok (baxos_seed, SendChunked kSendChunkSize p128).
Definition DecodeOkvs (items : list Z) (n : nat) (msg : OkvsMessage) (recv_hashed_items : list Z) : res (list Z) :=
  p_solve ← RecvChunked msg.2 (okvs_size n);
  Okvs_Decode msg.1 n p_solve items recv_hashed_items.

Definition xor_into (hashed_items tmp : list Z) : res (list Z) :=
  for_ (length hashed_items) (fun i hashed_items => h ← vget hashed_items i; t ← vget tmp i; vset hashed_items i (Z.lxor h t)) hashed_items.
(** [std::transform] with xor. *)
Definition transform_xor (inputs hashed_items : list Z) : res (list Z) :=
  for_ (length inputs) (fun i hashed_items => a ← vget inputs i; b ← vget hashed_items i; vset hashed_items i (Z.lxor a b)) hashed_items.

(** [insert] keeps the first index of a key. *)
Definition insert_first (m : gmap Z nat) (h : Z) (i : nat) : gmap Z nat := match m !! h with Some _ => m | None => <[h := i]> m end.
Definition found_at (m : gmap Z nat) (inter : Z) : list nat := match m !! inter with Some i => [i] | None => [] end.
Definition GetIntersection (empty_key : Z) (inputs hashed_items raw_result : list Z) : res (list Z) :=
  m ← for_ (length hashed_items) (fun i m => h ← vget hashed_items i; _ ← defined (negb (h =? empty_key)); Ok (insert_first m h i)) ∅;
  intersection_idx ← for_each raw_result (fun inter idx => _ ← defined (negb (inter =? empty_key)); Ok (idx ++ found_at m inter)) [];
  for_ (length intersection_idx) (fun i intersection => k ← vget intersection_idx i; x ← vget inputs k; Ok (intersection ++ [x])) [].

(** *** The parties of a multi-party run *)
Context (options : NtyMPsiOptions).
Definition is_other (i : nat) : bool :=
  negb (bool_decide (i = aided_server_rank options) || bool_decide (i = helper_rank options) || bool_decide (i = receiver_rank options)).
Definition others (wsize : nat) : list nat := filter (fun i => is_other i = true) (seq 0 wsize).

Definition aided_hashed_items (seeds inputs : list Z) : res (list Z) :=
  for_each seeds (fun seed hashed_items => xor_into hashed_items (AES_ecb_encrypt_blks seed inputs)) (replicate (length inputs) 0).
Definition aided_okvs (baxos_seed : Z) (seeds inputs : list Z) (count : nat) : res OkvsMessage :=
  hashed_items ← aided_hashed_items seeds inputs; GenOkvs baxos_seed inputs hashed_items count.
Definition other_okvs (baxos_seed prf_seed : Z) (inputs : list Z) (count : nat) : res OkvsMessage :=
  GenOkvs baxos_seed inputs (AES_ecb_encrypt_blks prf_seed inputs) count.
(** Each decoding has a vector of its own. *)
Definition helper_hashed_items (wsize : nat) (counts : nat -> nat) (inputs : list Z) (msgs : nat -> OkvsMessage) : res (list Z) :=
  recv_hashed_items ← for_each (others wsize) (fun id recv =>
    r ← DecodeOkvs inputs (counts id) (msgs id) (replicate (length inputs) 0); vset recv id r) (replicate wsize []);
  hashed_items ← for_each (others wsize) (fun i hashed_items => r ← vget recv_hashed_items i; xor_into hashed_items r) (replicate (length inputs) 0);
  transform_xor inputs hashed_items.
Definition receiver_hashed_items (count : nat) (inputs : list Z) (msg : OkvsMessage) : res (list Z) :=
  recv_hashed_items ← DecodeOkvs inputs count msg (replicate (length inputs) 0);
  transform_xor inputs recv_hashed_items.
(** With three parties the helper has the key itself. *)
Definition helper_hashed_items3 (prf_seed : Z) (inputs : list Z) : res (list Z) := transform_xor inputs (AES_ecb_encrypt_blks prf_seed inputs).

(** *** The run of all parties *)
Context (prf_seed baxos_seed : nat -> Z) (aes_seed empty_key : Z) (shuffle_helper shuffle_receiver : list Z -> list Z).
Definition counts_of (inputs : list (list Z)) (i : nat) : nat := length (inputs !!! i).

(** From the masked items of helper and receiver to what each party returns. *)
Definition finish (inputs : list (list Z)) (helper_items receiver_items : list Z) : res (list (list Z)) :=
  let raw := ServerAidedPsi_outputs aes_seed (ServerAssist (SendEncItems shuffle_helper helper_items aes_seed) (SendEncItems shuffle_receiver receiver_items aes_seed)) in
  intersection ← GetIntersection empty_key (inputs !!! receiver_rank options) receiver_items raw;
  Ok (tabulate (length inputs) (fun i => if bool_decide (i = receiver_rank options) || broadcast_result options then intersection else [])).
Definition MultiPartyPsi_items (inputs : list (list Z)) : res (list Z * list Z) :=
  let a := aided_server_rank options in
  to_receiver ← aided_okvs (baxos_seed a) (map prf_seed (others (length inputs))) (inputs !!! a) (counts_of inputs a);
  to_helper ← for_each (others (length inputs)) (fun i msgs =>
    m ← other_okvs (baxos_seed i) (prf_seed i) (inputs !!! i) (counts_of inputs i); Ok (<[i := m]> msgs)) (∅ : gmap nat OkvsMessage);
  helper_items ← helper_hashed_items (length inputs) (counts_of inputs) (inputs !!! helper_rank options) (fun i => default (0, []) (to_helper !! i));
  receiver_items ← receiver_hashed_items (counts_of inputs a) (inputs !!! receiver_rank options) to_receiver;
  Ok (helper_items, receiver_items).
Definition ThreePartyPsi_items (inputs : list (list Z)) : res (list Z * list Z) :=
  let a := aided_server_rank options in
  to_receiver ← GenOkvs (baxos_seed a) (inputs !!! a) (AES_ecb_encrypt_blks (prf_seed (helper_rank options)) (inputs !!! a)) (counts_of inputs a);
  helper_items ← helper_hashed_items3 (prf_seed (helper_rank options)) (inputs !!! helper_rank options);
  receiver_items ← receiver_hashed_items (counts_of inputs a) (inputs !!! receiver_rank options) to_receiver;
  Ok (helper_items, receiver_items).
Definition nty_items (inputs : list (list Z)) : res (list Z * list Z) :=
  if bool_decide (length inputs = 3)%nat then ThreePartyPsi_items inputs else MultiPartyPsi_items inputs.
Definition nty_run (inputs : list (list Z)) : res (list (list Z)) :=
  _ ← NtyMPsi_new options (length inputs);
  '(helper_items, receiver_items) ← nty_items inputs;
  finish inputs helper_items receiver_items.
End nty.
