(* ===== verification/NtyProofs.v ===== *)
(** * Multi-party PSI: the result

    Proved against the interface of key-value stores: the receiver finds exactly
    the items all parties have, unless masked items collide. *)
From S2P Require Import Prelude Galois Rr22Oprf Rr22OprfProofs Nty.

(** ** The server-aided intersection *)
Lemma Zltb_trichotomy x y : (x <? y) = false -> (y <? x) = false -> x = y.
Proof. rewrite !Z.ltb_ge. lia. Qed.
Lemma merge_sort_by (l : list Z) : sorted_by Z.ltb (merge_sort Z.le l).
Proof.
  unfold sorted_by. pose proof (StronglySorted_merge_sort Z.le l) as Hs. induction Hs as [|x l' Hs IH Hx]; constructor; [done|]. eapply Forall_impl; [exact Hx|]. intros y Hy. cbn in Hy. apply Z.ltb_ge. lia.
Qed.

Section server_aided.
Context `{Aes128Laws}.
Lemma ServerAided_ok sh sr k hh hr : (forall l, Permutation (sh l) l) -> (forall l, Permutation (sr l) l) -> Forall elem hh -> Forall elem hr ->
  let raw := ServerAidedPsi_outputs k (ServerAssist (SendEncItems sh hh k) (SendEncItems sr hr k)) in
  (forall x, x ∈ raw -> x ∈ hh /\ x ∈ hr) /\ (NoDup hh -> NoDup hr -> NoDup raw /\ forall x, x ∈ hh -> x ∈ hr -> x ∈ raw).
Proof.
  intros Hsh Hsr Hhh Hhr raw. rewrite Forall_forall in Hhh, Hhr.
  assert (forall s l y, (forall l, Permutation (s l) l) -> y ∈ merge_sort Z.le (SendEncItems s l k) <-> exists x, x ∈ l /\ y = AES_encrypt k x) as Hin.
  { intros s l y Hs. rewrite merge_sort_Permutation. unfold SendEncItems. rewrite Hs. unfold AES_ecb_encrypt_blks. rewrite list_elem_of_fmap. split; intros (x & H1 & H2); by exists x. }
  assert (forall x y, elem x -> elem y -> AES_encrypt k x = AES_encrypt k y -> x = y) as Hinj by (intros x y Hx Hy E; rewrite <- (aes_roundtrip k x Hx), <- (aes_roundtrip k y Hy); by rewrite E).
  split.
  - intros x Hx. unfold raw, ServerAidedPsi_outputs, AES_ecb_decrypt_blks in Hx. apply list_elem_of_fmap in Hx as (y & -> & Hy). apply (set_intersection_sound _ Zltb_trichotomy) in Hy as [H1 H2].
    apply Hin in H1 as (u & Hu & ->); [|done]. apply Hin in H2 as (v & Hv & E); [|done]. assert (u = v) as <- by (apply Hinj; [by apply Hhh|by apply Hhr|done]). rewrite aes_roundtrip by by apply Hhh. done.
  - intros Hnh Hnr. assert (forall s l, (forall l, Permutation (s l) l) -> (forall x, x ∈ l -> elem x) -> NoDup l -> NoDup (SendEncItems s l k)) as Hnd.
    { intros s l Hs Hl Hn. unfold SendEncItems. rewrite Hs. unfold AES_ecb_encrypt_blks. apply NoDup_fmap_2_strong; [|done]. intros x y Hx Hy. apply Hinj; by apply Hl. }
    split.
    + unfold raw, ServerAidedPsi_outputs, AES_ecb_decrypt_blks, ServerAssist. apply NoDup_fmap_2_strong; [|eapply sublist_NoDup; [|apply set_intersection_sublist]; rewrite merge_sort_Permutation; by apply Hnd]. intros x y Hx Hy E.
      apply (set_intersection_sound _ Zltb_trichotomy) in Hx as [Hx _], Hy as [Hy _]. apply Hin in Hx as (u & Hu & ->), Hy as (v & Hv & ->); [|done..]. rewrite !aes_roundtrip in E by by apply Hhh. by rewrite E.
    + intros x H1 H2. unfold raw, ServerAidedPsi_outputs, AES_ecb_decrypt_blks. apply list_elem_of_fmap. exists (AES_encrypt k x). split; [by rewrite aes_roundtrip by by apply Hhh|].
      apply (set_intersection_complete _ Z.ltb_irrefl Zltb_trichotomy); [apply merge_sort_by..|done| |]; apply Hin; try done; by exists x.
Qed.
End server_aided.

(** ** Back from masked items to items *)
Definition first_of (hashed : list Z) (m : gmap Z nat) : Prop := forall h, match m !! h with Some i => hashed !! i = Some h | None => h ∉ hashed end.
Lemma GetIntersection_ok empty_key X hashed raw : length hashed = length X -> empty_key ∉ hashed -> (forall h, h ∈ raw -> h ∈ hashed) ->
  wp (GetIntersection empty_key X hashed raw) (fun I => NoDup X -> NoDup hashed -> NoDup raw -> NoDup I /\ forall y, y ∈ I <-> exists i h, X !! i = Some y /\ hashed !! i = Some h /\ h ∈ raw).
Proof.
  intros Hl He Hraw. unfold GetIntersection. apply wp_bind.
  eapply wp_mono; [apply (wp_for _ _ (fun i m => first_of (take i hashed) m) _ (fun m => first_of (take (length hashed) hashed) m))|].
  - intros h. rewrite lookup_empty. by intros Hh; inversion Hh.
  - intros i m Hi Hm. pose proof (list_lookup_lookup_total_lt _ _ Hi) as Hx. rewrite vget_total by done. run. assert (hashed !!! i <> empty_key) as Hne by (intros E; apply He; rewrite <- E; by eapply list_elem_of_lookup_2).
    rewrite (proj2 (Z.eqb_neq _ _)) by done. run. intros h. rewrite (take_S_r _ _ _ Hx). unfold insert_first. specialize (Hm h) as Hmh. destruct (decide (h = hashed !!! i)) as [->|Hn].
    + destruct (m !! (hashed !!! i)) as [j|] eqn:E; [rewrite E; by apply lookup_app_l_Some|]. rewrite lookup_insert_eq. rewrite lookup_app_r by (rewrite length_take; lia). rewrite length_take, Nat.min_l, Nat.sub_diag by lia. done.
    + assert ((match m !! (hashed !!! i) with Some _ => m | None => <[hashed !!! i := i]> m end) !! h = m !! h) as -> by (destruct (m !! (hashed !!! i)); [done|by rewrite lookup_insert_ne by congruence]).
      destruct (m !! h); [by apply lookup_app_l_Some|]. rewrite elem_of_app, list_elem_of_singleton. tauto.
  - done.
  - intros m Hm. rewrite firstn_all in Hm. apply wp_bind.
    eapply wp_mono; [apply (wp_for_each raw _ (fun done_ idx => idx = concat (map (found_at m) done_)))|].
    + done.
    + intros l x rest idx -> ->. assert (x <> empty_key) by (intros ->; apply He, Hraw, elem_of_app; right; by left). rewrite (proj2 (Z.eqb_neq _ _)) by done. run. rewrite map_app, concat_app. cbn [map concat]. by rewrite app_nil_r.
    + intros idx ->. set (idx := concat (map (found_at m) raw)).
      assert (forall i, i ∈ idx <-> exists h, h ∈ raw /\ m !! h = Some i) as Hidx.
      { intros i. unfold idx. rewrite list_elem_of_In, in_concat. setoid_rewrite <- list_elem_of_In. split.
        - intros (l & Hl2 & Hi). apply list_elem_of_fmap in Hl2 as (h & -> & Hh). exists h. split; [done|]. unfold found_at in Hi. destruct (m !! h); [|by inversion Hi]. by apply list_elem_of_singleton in Hi as ->.
        - intros (h & Hh & E). exists [i]. split; [|by left]. apply list_elem_of_fmap. exists h. unfold found_at. by rewrite E. }
      assert (forall i, i ∈ idx -> (i < length X)%nat) as Hlt. { intros i (h & _ & E)%Hidx. specialize (Hm h). rewrite E in Hm. apply lookup_lt_Some in Hm. lia. }
      rewrite (for_ext (length idx) _ (fun i acc => x ← (k ← vget idx i; vget X k); Ok (acc ++ [x]))) by (intros i acc _; by destruct (vget idx i)).
      rewrite (for_push (length idx) _ (fun k => X !!! (idx !!! k))).
      2: { intros i Hi. pose proof (list_lookup_lookup_total_lt _ _ Hi) as Hx. rewrite vget_total by done. run. rewrite vget_total by (apply Hlt; by eapply list_elem_of_lookup_2). done. }
      cbn [wp app]. assert (tabulate (length idx) (fun k => X !!! (idx !!! k)) = map (fun i => X !!! i) idx) as ->.
      { symmetry. apply eq_tabulate; [by rewrite length_map|]. intros i Hi. apply list_lookup_total_correct. by rewrite lookup_map, list_lookup_lookup_total_lt by done. }
      intros HX Hh Hr. assert (forall h i, m !! h = Some i <-> hashed !! i = Some h) as Hmi.
      { intros h i. specialize (Hm h). split; [intros E; by rewrite E in Hm|]. intros Hi. destruct (m !! h) as [j|]; [|exfalso; apply Hm; by eapply list_elem_of_lookup_2]. f_equal. by apply (NoDup_lookup hashed j i h). }
      split.
      * apply NoDup_fmap_2_strong.
        -- intros i j Hi%Hlt Hj%Hlt E. apply (NoDup_lookup X i j (X !!! i) HX); [by apply list_lookup_lookup_total_lt|]. rewrite E. by apply list_lookup_lookup_total_lt.
        -- unfold idx. clear -Hr Hmi. induction Hr as [|h raw Hn Hr IH]; [constructor|]. cbn [map concat]. apply NoDup_app. split; [unfold found_at; destruct (m !! h); [apply NoDup_singleton|constructor]|]. split; [|done].
           intros i Hi Hi'. unfold found_at in Hi. destruct (m !! h) as [j|] eqn:E; [|by inversion Hi]. apply list_elem_of_singleton in Hi as ->. apply Hn.
           rewrite list_elem_of_In, in_concat in Hi'. destruct Hi' as (l & Hl & Hi'). apply list_elem_of_In, list_elem_of_fmap in Hl as (h' & -> & Hh'). apply list_elem_of_In in Hi'. unfold found_at in Hi'.
           destruct (m !! h') as [j'|] eqn:E'; [|by inversion Hi']. apply list_elem_of_singleton in Hi' as ->. apply Hmi in E, E'. assert (h = h') as -> by congruence. done.
      * intros y. rewrite list_elem_of_fmap. split.
        -- intros (i & -> & Hi). pose proof (Hlt i Hi). apply Hidx in Hi as (h & Hh' & E). exists i, h. split; [by apply list_lookup_lookup_total_lt|]. split; [by apply Hmi|done].
        -- intros (i & h & HXi & Hhi & Hhr). exists i. split; [symmetry; by apply list_lookup_total_correct|]. apply Hidx. exists h. split; [done|]. by apply Hmi.
Qed.

(** ** Masks *)
Lemma transform_xor_ok (X : list Z) (f : Z -> Z) : transform_xor X (map f X) = Ok (map (fun x => Z.lxor x (f x)) X).
Proof.
  apply wp_eq. unfold transform_xor. apply (wp_for_fill (length X) _ (fun i => Z.lxor (X !!! i) (f (X !!! i)))); [by rewrite length_map| |].
  - intros i st Hi Hst H1. pose proof (list_lookup_lookup_total_lt _ _ Hi) as Hx. rewrite length_map in Hst. rewrite (vget_total X) by lia. run. rewrite (vget_total st) by lia. run. rewrite vset_total by lia.
    assert (st !!! i = f (X !!! i)) as ->; [|done]. rewrite H1 by lia. apply list_lookup_total_correct. by rewrite lookup_map, Hx.
  - intros st Hst H1 _. rewrite length_map in Hst. apply list_eq_total; [by rewrite length_map|]. intros i Hi. rewrite H1 by lia. symmetry. apply list_lookup_total_correct. rewrite lookup_map, list_lookup_lookup_total_lt by lia. done.
Qed.
Lemma xor_into_ok (X : list Z) (f g : Z -> Z) : xor_into (map f X) (map g X) = Ok (map (fun x => Z.lxor (f x) (g x)) X).
Proof.
  apply wp_eq. unfold xor_into. rewrite length_map. apply (wp_for_fill (length X) _ (fun i => Z.lxor (f (X !!! i)) (g (X !!! i)))); [by rewrite length_map| |].
  - intros i st Hi Hst H1. pose proof (list_lookup_lookup_total_lt _ _ Hi) as Hx. rewrite length_map in Hst. rewrite (vget_total st) by lia. run. rewrite (vget_total (map g X)) by (rewrite length_map; lia). run. rewrite vset_total by lia.
    rewrite H1 by lia. rewrite (list_lookup_total_correct (map f X) i (f (X !!! i))), (list_lookup_total_correct (map g X) i (g (X !!! i))) by (by rewrite lookup_map, Hx). done.
  - intros st Hst H1 _. rewrite length_map in Hst. apply list_eq_total; [by rewrite length_map|]. intros i Hi. rewrite H1 by lia. symmetry. apply list_lookup_total_correct. rewrite lookup_map, list_lookup_lookup_total_lt by lia. done.
Qed.
Definition sum_masks {K} (g : K -> Z -> Z) (ks : list K) (x : Z) : Z := foldl (fun acc k => Z.lxor acc (g k x)) 0 ks.
Lemma xor_masks {K} (g : K -> Z -> Z) (ks : list K) (X : list Z) (body : K -> list Z -> res (list Z)) :
  (forall k h, k ∈ ks -> body k h = xor_into h (map (g k) X)) -> for_each ks body (replicate (length X) 0) = Ok (map (sum_masks g ks) X).
Proof.
  intros Hb. apply wp_eq. eapply wp_mono; [apply (wp_for_each ks _ (fun done_ h => h = map (sum_masks g done_) X))|].
  - clear. induction X as [|x X IH]; [done|]. cbn. by rewrite IH.
  - intros l k rest h -> ->. rewrite Hb by (apply elem_of_app; right; by left). rewrite xor_into_ok. cbn [wp]. apply map_ext. intros x. unfold sum_masks. by rewrite foldl_app.
  - done.
Qed.
Lemma sum_masks_elem {K} (g : K -> Z -> Z) ks x : (forall k, k ∈ ks -> elem (g k x)) -> elem (sum_masks g ks x).
Proof.
  unfold sum_masks. intros Hg. assert (elem 0) as H0 by (split; [lia|reflexivity]). revert H0. generalize 0. induction ks as [|k ks IH]; intros a Ha; [done|]. cbn. apply IH; [intros; apply Hg; by right|]. apply lxor_elem; [done|apply Hg; by left].
Qed.
Lemma sum_masks_ext {K} (g g' : K -> Z -> Z) ks x : (forall k, k ∈ ks -> g k x = g' k x) -> sum_masks g ks x = sum_masks g' ks x.
Proof.
  unfold sum_masks. generalize 0. induction ks as [|k ks IH]; intros a Hg; [done|]. cbn. rewrite Hg by by left. apply IH. intros; apply Hg; by right.
Qed.

(** ** Stores on their way *)
Section stores.
Context `{IOkvs} `{Aes128} (good fails : Z -> nat -> list Z -> Prop) `{!IOkvsLaws good fails} `{!Aes128Laws}.

(** A message that decodes with [g]. *)
Definition carries (n : nat) (msg : OkvsMessage) (g : Z -> Z) : Prop := (forall y, elem y -> elem (g y)) /\
  forall ys out, Forall elem ys -> length out = length ys -> DecodeOkvs ys n msg out = Ok (map g ys).
Lemma GenOkvs_ok seed X (f : Z -> Z) : good seed (length X) X -> Forall elem X -> (forall x, elem x -> elem (f x)) ->
  outcome (fails seed (length X) X) (GenOkvs seed X (map f X) (length X)) (fun msg => exists g, carries (length X) msg g /\ forall x, x ∈ X -> g x = f x).
Proof.
  intros Hg HX Hf. unfold GenOkvs. apply outcome_bind. eapply outcome_mono; [apply okvs_solves; [done|done|by rewrite length_map|]|].
  - apply Forall_fmap. eapply Forall_impl; [exact HX|]. done.
  - intros P (HP & g & Hge & Hgv & Hdec). apply wp_outcome. cbn [wp]. exists g. split; [split; [done|]|].
    + intros ys out Hys Hout. unfold DecodeOkvs. cbn [fst snd]. rewrite <- HP, RecvChunked_SendChunked by (unfold kSendChunkSize; lia). run. by apply Hdec.
    + intros x (i & Hi)%list_elem_of_lookup_1. rewrite (Hgv i x Hi). apply list_lookup_total_correct. by rewrite lookup_map, Hi.
Qed.
End stores.

(** ** The run *)
Section run.
Context `{IOkvs} `{Aes128} (good fails : Z -> nat -> list Z -> Prop) `{!IOkvsLaws good fails} `{!Aes128Laws}.
Context (options : NtyMPsiOptions) (prf_seed baxos_seed : nat -> Z) (aes_seed empty_key : Z) (sh sr : list Z -> list Z).
Context (inputs : list (list Z)).
Abbreviation a := (aided_server_rank options).
Abbreviation h := (helper_rank options).
Abbreviation r := (receiver_rank options).
Abbreviation X i := (inputs !!! i).

(** Ranks of three parties, distinct keys of 128 bits, stores that suit them. *)
Record setup_ok : Prop := {
  so_ranks : a <> h /\ a <> r /\ h <> r /\ (a < length inputs)%nat /\ (h < length inputs)%nat /\ (r < length inputs)%nat;
  so_elem i : (i < length inputs)%nat -> Forall elem (X i);
  so_distinct i : (i < length inputs)%nat -> NoDup (X i);
  so_good i : (i < length inputs)%nat -> i <> h -> i <> r -> good (baxos_seed i) (length (X i)) (X i)
}.
(** Some store cannot be solved. *)
Definition some_store_fails : Prop := exists i, (i < length inputs)%nat /\ fails (baxos_seed i) (length (X i)) (X i).
Definition common (x : Z) : Prop := forall i, (i < length inputs)%nat -> x ∈ X i.
#[local] Instance common_dec x : Decision (common x).
Proof.
  destruct (decide (Forall (fun i => x ∈ X i) (seq 0 (length inputs)))) as [Hf|Hf]; [left|right]; rewrite Forall_forall in Hf.
  - intros i Hi. apply Hf, elem_of_seq. lia.
  - intros Hc. apply Hf. intros i [_ Hi]%elem_of_seq. by apply Hc.
Defined.
(** Masked items collide: two of the helper, two of the receiver, or one of each
    that come from no common item. *)
Definition collides (hh hr : list Z) : Prop :=
  ~ NoDup hh \/ ~ NoDup hr \/ exists i j y, hr !! i = hh !! j /\ is_Some (hr !! i) /\ X r !! i = Some y /\ ~ common y.
(** What the masked items are worth: equal on common items. *)
Definition masked (hh hr : list Z) : Prop := exists f g, hh = map f (X h) /\ hr = map g (X r) /\ Forall elem hh /\ Forall elem hr /\ forall x, common x -> f x = g x.

Context (Hok : setup_ok).
Lemma enc_elem k x : elem x -> elem (AES_encrypt k x).
Proof. apply aes_elem. Qed.
Lemma masked_of f g : (forall x, elem x -> elem (f x)) -> (forall x, elem x -> elem (g x)) -> (forall x, common x -> f x = g x) ->
  masked (map (fun x => Z.lxor x (f x)) (X h)) (map (fun x => Z.lxor x (g x)) (X r)).
Proof.
  intros Hf Hg Hfg. destruct Hok as [(_ & _ & _ & _ & Hh & Hr) He _ _]. exists (fun x => Z.lxor x (f x)), (fun x => Z.lxor x (g x)). do 2 (split; [done|]).
  split; [|split; [|intros x Hx; by rewrite Hfg]]; apply Forall_fmap; (eapply Forall_impl; [by apply He|]); intros x Hx; apply lxor_elem; auto.
Qed.

Lemma ThreePartyPsi_items_ok : outcome some_store_fails (ThreePartyPsi_items options prf_seed baxos_seed inputs) (fun '(hh, hr) => masked hh hr).
Proof.
  destruct Hok as [(Hah & Har & _ & Ha & Hh & Hr) He Hd Hg]. unfold ThreePartyPsi_items, counts_of. apply outcome_bind.
  eapply outcome_mono; [eapply outcome_weaken; [|apply (GenOkvs_ok good fails)]|]; [by exists a|by apply Hg|by apply He|by apply enc_elem|].
  intros msg (g & [Hge Hdec] & Hgx). apply wp_outcome. unfold helper_hashed_items3, AES_ecb_encrypt_blks. rewrite transform_xor_ok. run.
  unfold receiver_hashed_items. rewrite Hdec by (by apply He || apply length_replicate). run. rewrite transform_xor_ok. cbn [wp].
  apply masked_of; [by apply enc_elem|done|]. intros x Hx. symmetry. apply Hgx. by apply Hx.
Qed.
Lemma others_spec i : i ∈ others options (length inputs) <-> (i < length inputs)%nat /\ i <> a /\ i <> h /\ i <> r.
Proof.
  unfold others. rewrite list_elem_of_filter, elem_of_seq. unfold is_other. repeat case_bool_decide; cbn; intuition (discriminate || lia).
Qed.
Lemma others_NoDup : NoDup (others options (length inputs)).
Proof. apply NoDup_filter, NoDup_seq. Qed.
Lemma MultiPartyPsi_items_ok : outcome some_store_fails (MultiPartyPsi_items options prf_seed baxos_seed inputs) (fun '(hh, hr) => masked hh hr).
Proof.
  destruct Hok as [(Hah & Har & _ & Ha & Hh & Hr) He Hd Hg]. unfold MultiPartyPsi_items, counts_of. apply outcome_bind.
  set (os := others options (length inputs)) in *. set (S := sum_masks (fun i => AES_encrypt (prf_seed i)) os).
  assert (forall x, elem x -> elem (S x)) as HS by (intros x Hx; apply sum_masks_elem; intros; by apply aes_elem).
  assert (aided_hashed_items (map prf_seed os) (X a) = Ok (map S (X a))) as Hsum.
  { unfold aided_hashed_items. rewrite (xor_masks (fun k => AES_encrypt k)) by done. f_equal. apply map_ext. intros x. unfold S, sum_masks. clear. generalize 0. induction os as [|o l IH]; intros z; [done|]. cbn. apply IH. }
  unfold aided_okvs. rewrite Hsum. run. eapply outcome_mono; [eapply outcome_weaken; [|apply (GenOkvs_ok good fails)]|]; [by exists a|by apply Hg|by apply He|done|].
  intros msg (g & [Hge Hdec] & Hgx). apply outcome_bind.
  eapply outcome_mono; [apply (outcome_for_each some_store_fails os _ (fun done_ msgs => forall i, i ∈ done_ -> exists m g, msgs !! i = Some m /\ carries (length (X i)) m g /\ forall x, x ∈ X i -> g x = AES_encrypt (prf_seed i) x))|].
  - intros i Hi. by inversion Hi.
  - intros l i rest msgs Hos Hmsgs. assert (i ∈ os) as Hi by (rewrite Hos; apply elem_of_app; right; by left). apply others_spec in Hi as (Hil & Hia & Hih & Hir).
    apply outcome_bind. unfold other_okvs, AES_ecb_encrypt_blks. eapply outcome_mono; [eapply outcome_weaken; [|apply (GenOkvs_ok good fails)]|]; [by exists i|by apply Hg|by apply He|by apply enc_elem|].
    intros m (gi & Hc & Hgi). apply wp_outcome. cbn [wp]. intros j Hj. destruct (decide (j = i)) as [->|Hne].
    + rewrite lookup_insert_eq. by exists m, gi.
    + rewrite lookup_insert_ne by done. apply Hmsgs. apply elem_of_app in Hj as [Hj|Hj%list_elem_of_singleton]; done.
  - intros msgs Hmsgs. assert (exists G : nat -> Z -> Z, forall i, i ∈ os -> carries (length (X i)) (default (0, []) (msgs !! i)) (G i) /\ forall x, x ∈ X i -> G i x = AES_encrypt (prf_seed i) x) as (G & HG).
    { assert (forall i, exists gi, i ∈ os -> carries (length (X i)) (default (0, []) (msgs !! i)) gi /\ forall x, x ∈ X i -> gi x = AES_encrypt (prf_seed i) x) as Hc.
      { intros i. destruct (decide (i ∈ os)) as [Hi|Hi]; [|by exists id]. destruct (Hmsgs i Hi) as (m & gi & E & Hc & Hgi). exists gi. unfold OkvsMessage in *. rewrite E. done. }
      assert (forall l : list nat, exists G : nat -> Z -> Z, forall i, i ∈ l -> i ∈ os -> carries (length (X i)) (default (0, []) (msgs !! i)) (G i) /\ forall x, x ∈ X i -> G i x = AES_encrypt (prf_seed i) x) as Hl.
      { induction l as [|i l (G & HG)]; [by exists (fun _ => id); intros ? Hi; inversion Hi|]. destruct (Hc i) as (gi & Hgi). exists (fun j => if decide (j = i) then gi else G j).
        intros j Hj. destruct (decide (j = i)) as [->|]; [done|]. apply HG. apply elem_of_cons in Hj as [|]; done. }
      destruct (Hl os) as (G & HG). exists G. auto. }
    apply wp_outcome. apply wp_bind. unfold helper_hashed_items. fold os. apply wp_bind.
    eapply wp_mono; [apply (wp_for_each os _ (fun done_ recv => length recv = length inputs /\ forall i, i ∈ done_ -> recv !!! i = map (G i) (X h)))|].
    + split; [apply length_replicate|]. intros i Hi. by inversion Hi.
    + intros l i rest recv Hos [Hlr Hrecv]. assert (i ∈ os) as Hi by (rewrite Hos; apply elem_of_app; right; by left). destruct (HG i Hi) as [[_ Hdi] _]. apply others_spec in Hi as (Hil & _).
      rewrite Hdi by (by apply He || apply length_replicate). run. rewrite vset_total by lia. cbn [wp]. split; [by rewrite length_insert|]. intros j Hj. destruct (decide (j = i)) as [->|Hne]; [by rewrite list_lookup_total_insert_eq by lia|].
      rewrite list_lookup_total_insert_ne by done. apply Hrecv. apply elem_of_app in Hj as [Hj|Hj%list_elem_of_singleton]; done.
    + intros recv [Hlr Hrecv]. rewrite (xor_masks (fun i => G i)). 2: { intros i st Hi. rewrite vget_total by (apply others_spec in Hi; lia). run. by rewrite Hrecv. }
      run. rewrite transform_xor_ok. run. unfold receiver_hashed_items. rewrite Hdec by (by apply He || apply length_replicate). run. rewrite transform_xor_ok. cbn [wp].
      apply masked_of; [|done|].
      * intros x Hx. apply sum_masks_elem. intros i Hi. by apply (HG i Hi).
      * intros x Hx. rewrite Hgx by by apply Hx. apply sum_masks_ext. intros i Hi. apply (HG i Hi). apply Hx. by apply others_spec in Hi as [? _].
Qed.

Lemma finish_ok hh hr : (forall l, Permutation (sh l) l) -> (forall l, Permutation (sr l) l) -> masked hh hr -> empty_key ∉ hr ->
  wp (finish options aes_seed empty_key sh sr inputs hh hr) (fun results => exists I,
    results = tabulate (length inputs) (fun i => if bool_decide (i = r) || broadcast_result options then I else []) /\
    (collides hh hr \/ NoDup I /\ forall x, x ∈ I <-> common x)).
Proof.
  intros Hsh Hsr (f & g & -> & -> & Hfe & Hge & Hfg) Hempty. destruct Hok as [(_ & _ & _ & _ & Hh & Hr) _ Hd _]. unfold finish.
  destruct (ServerAided_ok sh sr aes_seed (map f (X h)) (map g (X r)) Hsh Hsr Hfe Hge) as [Hsound Hcomp]. set (raw := ServerAidedPsi_outputs _ _) in *.
  apply wp_bind. eapply wp_mono; [apply GetIntersection_ok; [apply length_map|done|intros x Hx; by apply Hsound]|]. intros I HI. cbn [wp]. exists I. split; [done|].
  destruct (decide (NoDup (map f (X h)))) as [Hnh|]; [|by left; left]. destruct (decide (NoDup (map g (X r)))) as [Hnr|]; [|by left; right; left].
  destruct (Hcomp Hnh Hnr) as [Hraw Hin]. destruct (HI (Hd _ Hr) Hnr Hraw) as [HIn HIe].
  assert (forall y, common y -> y ∈ I) as Hcommon.
  { intros y Hy. apply HIe. destruct (list_elem_of_lookup_1 _ _ (Hy r Hr)) as (i & Hi). exists i, (g y). split; [done|]. split; [by rewrite lookup_map, Hi|].
    apply Hin; apply list_elem_of_fmap; exists y; [split; [symmetry; by apply Hfg|by apply Hy]|split; [done|by apply Hy]]. }
  destruct (decide (Forall common I)) as [Hall|Hnot].
  - right. split; [done|]. intros x. split; [by apply (proj1 (Forall_forall _ _) Hall)|apply Hcommon].
  - left. right. right. apply not_Forall_Exists in Hnot; [|apply _]. apply Exists_exists in Hnot as (y & Hy & Hny). apply HIe in Hy as (i & z & Hi & Hz & Hzr). apply Hsound in Hzr as [Hzh _].
    apply list_elem_of_lookup_1 in Hzh as (j & Hj). exists i, j, y. rewrite Hz, Hj. done.
Qed.
End run.
