(* ===== verification/NtyRun.v ===== *)
(** * Multi-party PSI: Baxos as its store, and a whole run

    [Baxos] keeps what the protocol asks of a key-value store; the theorem on a run
    of any number of parties. *)
From S2P Require Import Prelude Galois PaxosHash Paxos PaxosInput PaxosSolve PaxosDense PaxosBackfill PaxosDecode Baxos BaxosSolve BaxosBins BaxosDecode Rr22Oprf Rr22OprfProofs Nty NtyProofs.

(** ** Baxos is such a store *)
Section baxos_okvs.
Context (crypto : Z -> SymmetricCrypto) `{LibdivideLaws} (avx : bool) (Log2Ceil : Z -> Z) (GetBinSize : nat -> nat -> nat -> nat) (junk : nat -> Z).
(** What [Init] makes of a number of items, and the order of the threads. *)
Context (Baxos_Init : nat -> Baxos) (hash_order bin_order order : list nat) (num_threads : nat).

Definition baxos_okvs : IOkvs := {|
  okvs_size n := Baxos.size (Baxos_Init n);
  Okvs_Solve seed n items vals :=
    '(P, _) ← Baxos.Solve (H := crypto seed) avx Log2Ceil GetBinSize junk (Baxos_Init n) hash_order bin_order items vals (replicate (Baxos.size (Baxos_Init n)) 0) false None num_threads;
    Ok P;
  Okvs_Decode seed n P items out := Baxos.Decode (H := crypto seed) avx Log2Ceil junk (Baxos_Init n) P order items out num_threads |}.

Definition baxos_good (seed : Z) (n : nat) (items : list Z) : Prop :=
  well_formed (idx_bits Log2Ceil (Baxos_Init n)) (Baxos_Init n) /\ add_to_decode_ (Baxos_Init n) = false /\
  spread (H := crypto seed) avx (idx_bits Log2Ceil (Baxos_Init n)) GetBinSize (Baxos_Init n) num_threads items.
Definition baxos_fails (seed : Z) (n : nat) (items : list Z) : Prop :=
  some_bin_fails (H := crypto seed) avx (idx_bits Log2Ceil (Baxos_Init n)) (Baxos_Init n) items.

Lemma baxos_okvs_laws : (forall seed x, elem x -> elem (@AesCrHash_Hash1 (crypto seed) x)) ->
  hash_order ≡ₚ seq 0 (threads num_threads) -> bin_order ≡ₚ seq 0 (threads num_threads) -> order ≡ₚ seq 0 (Nat.max num_threads 1) ->
  @IOkvsLaws baxos_okvs baxos_good baxos_fails.
Proof.
  intros Hhash Hho Hbo Ho. split. intros seed n xs vals (Hwf & Hadd & Hsp) Hxs Hlv Hve. cbn [Okvs_Solve baxos_okvs]. apply outcome_bind.
  eapply outcome_mono; [by apply (Solve_ok (H := crypto seed))|]. intros [P prng] (HP & HPe & Hs). apply wp_outcome. cbn [wp]. split; [exact HP|].
  set (b := Baxos_Init n) in *. set (idx := idx_bits Log2Ceil b) in *. exists (@value_of (crypto seed) _ avx idx b P). pose proof (idx_bits_range Log2Ceil b) as Hidx. fold idx in Hidx.
  pose proof Hwf as [[? ?] (Ew & ? & ?) [? ?] [? ?] _]. destruct Hsp. split; [|split].
  - intros y Hy. apply (value_of_elem (H := crypto seed)); try done; try lia. by apply Hhash.
  - intros i x Hx. apply (value_of_solved (H := crypto seed) avx idx b P) with (inputs := xs); try done; lia.
  - intros ys out _ Hout. cbn [Okvs_Decode baxos_okvs]. fold b. rewrite (Decode_values_ok (H := crypto seed)) by done. f_equal. fold idx.
    symmetry. apply eq_tabulate; [by rewrite length_map|]. intros i Hi. apply list_lookup_total_correct. rewrite lookup_map, list_lookup_lookup_total_lt by lia. cbn.
    unfold decoded_to. by rewrite Hadd.
Qed.
End baxos_okvs.

(** ** A whole run *)


(** *** Witness: four parties over Baxos, the last neither server, helper nor receiver *)
Section toy.
#[local] Instance toy_aes : Aes128 := {| AES_encrypt k x := (3 * x + k) mod 2 ^ 128; AES_decrypt k y := ((y - k) * ((2 ^ 129 + 1) / 3)) mod 2 ^ 128 |}.
#[local] Instance toy_aes_laws : Aes128Laws.
Proof.
  split; cbn [AES_encrypt AES_decrypt toy_aes].
  - intros k x _. unfold elem. apply Z.mod_pos_bound. reflexivity.
  - intros k x Hx. unfold elem in Hx. rewrite <- Z.mul_mod_idemp_l by discriminate. rewrite Zminus_mod_idemp_l. replace (3 * x + k - k) with (3 * x) by ring. rewrite Z.mul_mod_idemp_l by discriminate.
    replace (3 * x * ((2 ^ 129 + 1) / 3)) with (x + (2 * x) * 2 ^ 128); [rewrite Z.mod_add by discriminate; by apply Z.mod_small|].
    replace (3 * x * ((2 ^ 129 + 1) / 3)) with (x * (3 * ((2 ^ 129 + 1) / 3))) by ring. change (3 * ((2 ^ 129 + 1) / 3)) with (2 * 2 ^ 128 + 1). ring.
Qed.
#[local] Existing Instance plain_libdivide.
#[local] Existing Instance plain_libdivide_laws.
#[local] Instance toy_okvs : IOkvs := baxos_okvs (fun _ => toy_crypto) true Z.log2_up toy_bin_size (fun _ => 7) (fun _ => toy_baxos) [1; 0; 2]%nat [2; 0; 1]%nat [1; 2; 0]%nat 3.
Abbreviation toy_good := (baxos_good (fun _ => toy_crypto) true Z.log2_up toy_bin_size (fun _ => toy_baxos) 3).
Abbreviation toy_fails := (baxos_fails (fun _ => toy_crypto) true Z.log2_up (fun _ => toy_baxos)).
#[local] Instance toy_okvs_laws : IOkvsLaws toy_good toy_fails.
Proof.
  apply (@baxos_okvs_laws _ plain_libdivide plain_libdivide_laws).
  - intros _ x Hx. unfold AesCrHash_Hash1. apply lxor_elem; [|done]. unfold elem, toy_crypto. cbn [Encrypt]. unfold u128, wrap. apply Z.mod_pos_bound. reflexivity.
  - change (seq 0 (threads 3)) with [0; 1; 2]%nat. apply Permutation_swap.
  - change (seq 0 (threads 3)) with [0; 1; 2]%nat. etransitivity; [apply Permutation_swap|]. apply Permutation_skip, Permutation_swap.
  - change (seq 0 (Nat.max 3 1)) with [0; 1; 2]%nat. etransitivity; [apply Permutation_skip, Permutation_swap|apply Permutation_swap].
Qed.
Definition toy_parties : list (list Z) := [[1; 2; 3; 4]; [2; 4; 9]; [8; 2; 5; 4]; [1; 2; 3; 4]].
Definition toy_nty (broadcast : bool) : res (list (list Z)) :=
  nty_run (mkNty 0 1 2 broadcast) (fun i => 2 ^ 64 + 2 ^ 65 * Z.of_nat i) (fun i => Z.of_nat i) 77 0 (@rev Z) (fun l => l) toy_parties.
Example toy_nty_receiver : toy_nty false = Ok [[]; []; [2; 4]; []].
Proof. vm_compute. reflexivity. Qed.

Lemma toy_setup : setup_ok toy_good (mkNty 0 1 2 true) (fun i => Z.of_nat i) toy_parties.
Proof.
  constructor.
  - cbn. lia.
  - intros i Hi. apply (Forall_lookup_total_1 (Forall elem)); [|done]. repeat (apply Forall_cons; split); try apply Forall_nil; unfold elem; lia.
  - intros i Hi. apply (Forall_lookup_total_1 NoDup); [|done]. repeat (apply Forall_cons; split); try apply Forall_nil; apply (bool_decide_unpack _); reflexivity.
  - intros i Hi H1 H2. cbn in Hi, H1, H2. assert (i = 0%nat \/ i = 3%nat) as [->| ->] by lia; (split; [exact toy_well_formed|split; [reflexivity|exact toy_spread]]).
Qed.
End toy.
