(* ===== verification/Ecdh3pc.v ===== *)
(** * Three-party ECDH-PSI (psi/algorithm/ecdh/ecdh_3pc_psi, psi/legacy/ecdh_3party_psi)

    The master (c) learns the items that the calculator (a), the next rank, and
    the partner (b), the previous one, have too.  A party is a function of what it
    receives: each link carries a stream of messages, each method returns what it
    sends, and a thread that receives from an exhausted stream times out.  A run
    is a history of the links that the three parties agree with ([ecdh_3pc_run]).

    On top of EcdhPsi: its threads over one link are the methods of
    [EcdhP2PExtendCtx].  Parameters: those of EcdhPsi, the names of the parties,
    and the order in which the partner's items are shuffled. *)
From S2P Require Import Prelude EcStore EcdhPsi.

(** ** EcdhP2PExtendCtx *)
Definition kEcdhPsiBatchSize : Z := 4096.

Section context.
Context `{BatchProto} `{EcGroup}.

(** [MaskSelf] over a memory provider: the messages it sends. *)
Fixpoint MaskSelf_loop (fuel : nat) (o : EcdhPsiOptions) (s : MaskSelfState MemoryBatchProvider) : res (list Buffer) :=
  if self_done s then Ok []
  else
    match fuel with
    | O => UB
    | S fuel' => '(s', msg) ← MaskSelf_iter o s; sent ← MaskSelf_loop fuel' o s'; Ok (msg :: sent)
    end.
Definition MaskSendSelf (o : EcdhPsiOptions) (self_items : list bytes) : res (list Buffer) :=
  let batch_provider := MemoryBatchProvider_new id self_items kEcdhPsiBatchSize [] false in
  s ← MaskSelf_start 1 batch_provider 0;
  MaskSelf_loop (length self_items + 1) o s.

(** [MaskPeer] into a memory store: its content and the messages sent back. *)
Fixpoint MaskPeer_loop (o : EcdhPsiOptions) (s : MaskPeerState MemoryEcPointStore) (link : list Buffer)
    : res (MemoryEcPointStore * list Buffer) :=
  if peer_done s then Ok (peer_store s, [])
  else
    match link with
    | [] => Throw
    | msg :: link' =>
        '(s', sent) ← MaskPeer_iter o s msg;
        '(store, sent') ← MaskPeer_loop o s' link';
        Ok (store, sent ++ sent')
    end.
Definition MaskRecvPeer (o : EcdhPsiOptions) (link : list Buffer) : res (list bytes * list Buffer) :=
  '(store, sent) ← MaskPeer_loop o (MaskPeer_start MemoryEcPointStore_new) link;
  Ok (store_ store, sent).

Fixpoint RecvDualMaskedSelf_loop (o : EcdhPsiOptions) (s : RecvState MemoryEcPointStore) (link : list Buffer)
    : res MemoryEcPointStore :=
  if recv_done s then Ok (self_store s)
  else
    match link with
    | [] => Throw
    | msg :: link' => s' ← RecvDualMaskedSelf_iter o s msg; RecvDualMaskedSelf_loop o s' link'
    end.
Definition RecvDupMasked (o : EcdhPsiOptions) (link : list Buffer) : res (list bytes) :=
  store ← RecvDualMaskedSelf_loop o (RecvDualMaskedSelf_start o MemoryEcPointStore_new) link;
  Ok (store_ store).

Fixpoint RecvItems_loop (batch_count : Z) (items : list bytes) (link : list Buffer) : res (list bytes) :=
  match link with
  | [] => Throw
  | msg :: link' =>
      '(recv_batch_items, _) ← RecvBatchImpl msg batch_count;
      let items := items ++ recv_batch_items in
      if bool_decide (recv_batch_items = []) then Ok items else RecvItems_loop (u64 (batch_count + 1)) items link'
  end.
Definition RecvItems (link : list Buffer) : res (list bytes) := RecvItems_loop 0 [] link.

Fixpoint SendImpl_loop (fuel : nat) (items : list bytes) (dup_masked : bool) (batch_count send_count : Z)
    : res (list Buffer) :=
  let curr_step_item_num := Z.min kEcdhPsiBatchSize (zlen items - send_count) in
  batch_items ← for_ (Z.to_nat curr_step_item_num) (fun j batch_items =>
    x ← vget items (Z.to_nat send_count + j); Ok (batch_items ++ [x])) [];
  let msg := if dup_masked then SendBatchImpl batch_items ∅ "dual.enc" batch_count
             else SendBatchImpl batch_items ∅ "enc" batch_count in
  if curr_step_item_num =? 0 then Ok [msg]
  else
    match fuel with
    | O => UB
    | S fuel' =>
        sent ← SendImpl_loop fuel' items dup_masked (u64 (batch_count + 1)) (send_count + curr_step_item_num);
        Ok (msg :: sent)
    end.
Definition SendImpl (items : list bytes) (dup_masked : bool) : res (list Buffer) :=
  SendImpl_loop (length items) items dup_masked 0 0.
Definition SendDupMasked (dual_masked_items : list bytes) : res (list Buffer) := SendImpl dual_masked_items true.
Definition SendItems (items : list bytes) : res (list Buffer) := SendImpl items false.
Definition ForwardBatch (batch_items : list bytes) (batch_idx : Z) : Buffer := SendBatchImpl batch_items ∅ "enc" (i32 batch_idx).

Definition MaskShufflePeer (o : EcdhPsiOptions) (link : list Buffer) : res (list Buffer) :=
  peer_items ← RecvItems link;
  dup_masked_items ←
    (if bool_decide (peer_items = []) then Ok []
     else
       let peer_points := DeserializeEcPoints peer_items in
       dup_masked_items ← for_each (EccMask (private_key o) peer_points) (fun masked_point dup_masked_items =>
         x ← final_bytes (SerializePoint masked_point) (dual_mask_size o); Ok (dup_masked_items ++ [x])) [];
       Ok (std_sort dup_masked_items));
  SendDupMasked dup_masked_items.

Fixpoint MaskPeerForward_loop (o : EcdhPsiOptions) (truncation_size : Z) (batch_count : Z) (link : list Buffer)
    : res (list Buffer) :=
  match link with
  | [] => Throw
  | msg :: link' =>
      '(peer_items, _) ← RecvBatchImpl msg batch_count;
      dup_masked_items ←
        (if bool_decide (peer_items = []) then Ok []
         else
           let peer_points := DeserializeEcPoints peer_items in
           for_each (EccMask (private_key o) peer_points) (fun masked_point dup_masked_items =>
             x ← (if 0 <? truncation_size then final_bytes (SerializePoint masked_point) (Z.to_nat truncation_size)
                  else Ok (SerializePoint masked_point));
             Ok (dup_masked_items ++ [x])) []);
      let forward := ForwardBatch dup_masked_items batch_count in
      if bool_decide (peer_items = []) then Ok [forward]
      else sent ← MaskPeerForward_loop o truncation_size (u64 (batch_count + 1)) link'; Ok (forward :: sent)
  end.
Definition MaskPeerForward (o : EcdhPsiOptions) (truncation_size : Z) (link : list Buffer) : res (list Buffer) :=
  MaskPeerForward_loop o truncation_size 0 link.
End context.

(** ** ShuffleEcdh3PcPsi *)
Record Options3pc := mkOptions3pc {
  Rank : Z;
  master_rank : Z;
  dual_mask_size3 : nat;
  curve_type3 : Z;
  private_key3 : bytes
}.
(** The constructor: a world of three, and the random bytes of the key. *)
Definition ShuffleEcdh3PcPsi_new (WorldSize rank master_rank : Z) (dual_mask_size : nat) (curve_type : Z)
    (RAND_bytes : option bytes) : res Options3pc :=
  _ ← enforce (WorldSize =? 3);
  match RAND_bytes with
  | Some key => Ok (mkOptions3pc rank master_rank dual_mask_size curve_type key)
  | None => Throw
  end.
Definition NextRank3 (p : Options3pc) : Z := (Rank p + 1) `mod` 3.
Definition PrevRank3 (p : Options3pc) : Z := (Rank p + 2) `mod` 3.
Definition IsCalculator (p : Options3pc) : bool := PrevRank3 p =? master_rank p.
Definition IsPartner (p : Options3pc) : bool := NextRank3 p =? master_rank p.
Definition IsMaster (p : Options3pc) : bool := Rank p =? master_rank p.

(** What one party sends another over a link of two: its configuration, the main
    link and the one spawned for the doubly masked items. *)
Record P2PStream `{BatchProto} := mkStream {
  config : list EcdhPsiOptions;
  main : list Buffer;
  dual : list Buffer
}.

Section psi3.
Context `{BatchProto} `{EcGroup}.
Context (PartyIdByRank : Z -> bytes) (shuffle : list bytes -> list bytes).

(** [CreateP2PLinkCtx]: the ranks in the world of two follow the sorted names. *)
Definition CreateP2PLinkCtx (self_rank peer_rank : Z) : Z :=
  if bytes_ltb (PartyIdByRank self_rank) (PartyIdByRank peer_rank) then 0 else 1.

Definition CreateP2PCtx (p : Options3pc) (dst_rank : Z) (dual_mask_size : nat) (target_rank : Z) : res EcdhPsiOptions :=
  let rank := CreateP2PLinkCtx (Rank p) dst_rank in
  target ←
    (if negb (target_rank =? kAllRank) then
       _ ← enforce ((target_rank =? Rank p) || (target_rank =? dst_rank));
       Ok (if target_rank =? dst_rank then 1 - rank else rank)
     else Ok target_rank);
  Ok (mkOptions rank (private_key3 p) (curve_type3 p) dual_mask_size target false).

(** Each party receives one stream and sends one; only the master gets items. *)
Definition MaskMaster (p : Options3pc) (self_items : list bytes) (from : list Buffer) : res (list Buffer * list bytes) :=
  if IsMaster p then
    c_a_ctx ← CreateP2PCtx p (NextRank3 p) (dual_mask_size3 p) (Rank p);
    c_b_ctx ← CreateP2PCtx p (PrevRank3 p) (dual_mask_size3 p) (Rank p);
    sent ← MaskSendSelf c_a_ctx self_items;
    masked_items ← RecvItems from;
    Ok (sent, masked_items)
  else if IsCalculator p then
    a_c_ctx ← CreateP2PCtx p (PrevRank3 p) (dual_mask_size3 p) (Rank p);
    a_b_ctx ← CreateP2PCtx p (NextRank3 p) (dual_mask_size3 p) (NextRank3 p);
    sent ← MaskPeerForward a_c_ctx (-1) from;
    Ok (sent, [])
  else
    b_a_ctx ← CreateP2PCtx p (PrevRank3 p) (dual_mask_size3 p) (Rank p);
    b_c_ctx ← CreateP2PCtx p (NextRank3 p) (dual_mask_size3 p) (NextRank3 p);
    sent ← MaskPeerForward b_a_ctx (i32 (Z.of_nat (dual_mask_size3 p))) from;
    Ok (sent, []).

Definition check_config (context : EcdhPsiOptions) (peer : list EcdhPsiOptions) : res unit :=
  match peer with [] => Throw | c :: _ => CheckConfig context c end.

(** What a party sends its peer in the pair and, at the calculator, the master. *)
Definition PartnersPsiImpl (p : Options3pc) (self_items : list bytes) (from : P2PStream)
    : res (P2PStream * list Buffer * list bytes) :=
  if IsCalculator p then
    context ← CreateP2PCtx p (NextRank3 p) GetSerializeLength (Rank p);
    _ ← check_config context (config from);
    enc ← MaskSendSelf context self_items;
    '(peer_result, dual_sent) ← MaskRecvPeer context (main from);
    self_result ← RecvDupMasked context (dual from);
    let self_result := std_sort self_result in
    let peer_result := std_sort peer_result in
    let intersection := set_intersection bytes_ltb (length self_result + length peer_result) self_result peer_result in
    a_c_ctx ← CreateP2PCtx p (master_rank p) (dual_mask_size3 p) (master_rank p);
    sent ← SendItems intersection;
    Ok (mkStream _ [context] enc dual_sent, sent, [])
  else if IsPartner p then
    context ← CreateP2PCtx p (PrevRank3 p) GetSerializeLength (PrevRank3 p);
    _ ← check_config context (config from);
    enc ← MaskSendSelf context self_items;
    dual_sent ← MaskShufflePeer context (main from);
    Ok (mkStream _ [context] enc dual_sent, [], [])
  else
    c_a_ctx ← CreateP2PCtx p (NextRank3 p) GetSerializeLength (Rank p);
    results ← RecvItems (main from);
    Ok (mkStream _ [] [] [], [], results).
Definition PartnersPsi (p : Options3pc) (self_items : list bytes) (from : P2PStream)
    : res (P2PStream * list Buffer * list bytes) :=
  if IsPartner p then PartnersPsiImpl p (shuffle self_items) from else PartnersPsiImpl p self_items from.

(** [std::binary_search] in the sorted vector amounts to membership.  A [uint32_t]
    index never reaches the end of 2^32 items. *)
Definition FinalPsi (p : Options3pc) (self_items master_items partners_result : list bytes) : res (list bytes) :=
  if IsMaster p then
    let partners_points := DeserializeEcPoints partners_result in
    masked_partners_items ← for_each (EccMask (private_key3 p) partners_points) (fun masked_point masked_partners_items =>
      x ← final_bytes (SerializePoint masked_point) (dual_mask_size3 p); Ok (masked_partners_items ++ [x])) [];
    let masked_partners_items := std_sort masked_partners_items in
    if zlen master_items <? 2 ^ 32 then
      for_ (length master_items) (fun index results =>
        x ← vget master_items index;
        if bool_decide (x ∈ masked_partners_items)
        then _ ← enforce (bool_decide (index < length self_items)%nat); y ← vget self_items index; Ok (results ++ [y])
        else Ok results) []
    else UB
  else Ok [].

(** ** ecdh_3party_psi.cc: [Ecdh3PartyPsiOperator::OnRun] *)
Record sent3 := mkSent {
  masked_sent : list Buffer;
  pair_sent : P2PStream;
  result_sent : list Buffer
}.
Definition OnRun (p : Options3pc) (inputs : list bytes) (mask_from : list Buffer) (psi_from : P2PStream)
    : res (sent3 * list bytes) :=
  '(masked_sent, masked_master_items) ← MaskMaster p inputs mask_from;
  '(pair_sent, result_sent, partner_psi_items) ← PartnersPsi p inputs psi_from;
  results ← FinalPsi p inputs masked_master_items partner_psi_items;
  Ok (mkSent masked_sent pair_sent result_sent, results).

(** The parties agree on what went over the links: c to a to b to c, a with b,
    and a's result to c. *)
Definition ecdh_3pc_run (a b c : Options3pc) (items_a items_b items_c : list bytes) (ha hb hc : sent3)
    (ra rb rc : list bytes) : Prop :=
  OnRun a items_a (masked_sent hc) (pair_sent hb) = Ok (ha, ra) /\
  OnRun b items_b (masked_sent ha) (pair_sent ha) = Ok (hb, rb) /\
  OnRun c items_c (masked_sent hb) (mkStream _ [] (result_sent ha) []) = Ok (hc, rc).
End psi3.
