(* ===== verification/Ecdh3pcProofs.v ===== *)
(** * Three-party ECDH-PSI: the messages of each loop

    The streams of batches that the loops write and read ([wire]); what
    each method of the link contexts computes. *)
From S2P Require Import Prelude EcStore EcdhPsi Ecdh3pc.

(** ** Streams of batches *)
Section wire.
Context `{BatchProtoLaws} `{EcGroupLaws}.

(** Batches of items of one length, ended by an empty one. *)
Fixpoint wire (ty : string) (k : nat) (bss : list (list bytes)) : list Buffer :=
  match bss with
  | [] => [SendBatchImpl [] ∅ ty (idx k)]
  | b :: bss' => SendBatchImpl b ∅ ty (idx k) :: wire ty (S k) bss'
  end.
Definition good (L : nat) (b : list bytes) : Prop := b <> [] /\ zlen b < 2 ^ 32 /\ Forall (fun x => length x = L) b.

Lemma i32_i32 z : i32 (i32 z) = i32 z.
Proof.
  clear. unfold i32, to_signed, wrap. change (2 ^ (32 - 1)) with 2147483648. change (2 ^ 32) with 4294967296. cbv zeta.
  repeat case_match; Z.div_mod_to_equations; lia.
Qed.
Lemma ForwardBatch_message b k : ForwardBatch b k = SendBatchImpl b ∅ "enc" k.
Proof. unfold ForwardBatch, SendBatchImpl, BatchData. by rewrite i32_i32. Qed.

Lemma recv_end ty k : RecvBatchImpl (SendBatchImpl [] ∅ ty (idx k)) (idx k) = Ok ([], ∅).
Proof using All. by apply (RecvBatch_SendBatch [] ∅ ty (idx k) 0). Qed.
Lemma recv_good L ty k b : good L b -> RecvBatchImpl (SendBatchImpl b ∅ ty (idx k)) (idx k) = Ok (b, ∅).
Proof using All. intros (Hn & Hz & HL). rewrite (RecvBatch_SendBatch b ∅ ty (idx k) L) by done. by rewrite bool_decide_false. Qed.

Lemma batches_good L n items : (0 < n)%nat -> Z.of_nat n < 2 ^ 32 -> Forall (fun x => length x = L) items ->
  forall fuel, Forall (good L) (batches fuel n items).
Proof.
  intros Hn Hz HL fuel. revert items HL. induction fuel as [|fuel IH]; intros items HL; cbn [batches]; [constructor|].
  destruct items as [|x items]; constructor; [|exact (IH _ (Forall_drop _ n _ HL))]. split_and!; [destruct n; [lia|done]|unfold zlen; rewrite length_take; lia|exact (Forall_take _ n _ HL)].
Qed.
Abbreviation batched items := (batches (length items) (Z.to_nat kEcdhPsiBatchSize) items).
Lemma batched_good L items : Forall (fun x => length x = L) items -> Forall (good L) (batched items).
Proof. intros HL. apply batches_good; [vm_compute; lia|vm_compute; done|done]. Qed.
Lemma concat_batched items : concat (batched items) = items.
Proof. apply concat_batches; [vm_compute; lia|done]. Qed.

Lemma RecvItems_loop_wire L ty bss : Forall (good L) bss -> forall k items,
  RecvItems_loop (idx k) items (wire ty k bss) = Ok (items ++ concat bss).
Proof using All.
  induction 1 as [|b bss Hb _ IH]; intros k items; cbn [wire RecvItems_loop concat].
  - rewrite recv_end. by run.
  - rewrite (recv_good L) by done. run. rewrite bool_decide_false by apply Hb. by rewrite idx_S, IH, app_assoc.
Qed.
Lemma RecvItems_wire L ty bss : Forall (good L) bss -> RecvItems (wire ty 0 bss) = Ok (concat bss).
Proof using All. intros Hb. exact (RecvItems_loop_wire L ty bss Hb 0 []). Qed.

Lemma SendImpl_loop_wire items dup : forall fuel k n, (n <= length items)%nat -> (length items - n <= fuel)%nat ->
  SendImpl_loop fuel items dup (idx k) (Z.of_nat n) =
    Ok (wire (if dup then "dual.enc" else "enc") k (batches fuel (Z.to_nat kEcdhPsiBatchSize) (drop n items))).
Proof using All.
  assert (forall n, (n <= length items)%nat -> let curr := Z.min kEcdhPsiBatchSize (zlen items - Z.of_nat n) in
    for_ (Z.to_nat curr) (fun j batch_items => x ← vget items (Z.to_nat (Z.of_nat n) + j); Ok (batch_items ++ [x])) []
      = Ok (take (Z.to_nat kEcdhPsiBatchSize) (drop n items))) as Hfill.
  { intros n Hn curr. set (m := Z.to_nat curr). assert (m = Nat.min (Z.to_nat kEcdhPsiBatchSize) (length items - n)) as Hm by (unfold m, curr, zlen; lia).
    rewrite (for_push m (fun j => vget items (Z.to_nat (Z.of_nat n) + j)) (fun j => items !!! (n + j)%nat)).
    - f_equal. rewrite app_nil_l. symmetry. apply eq_tabulate; [rewrite length_take, length_drop; lia|]. intros i Hi.
      rewrite lookup_total_take, decide_True by lia. apply lookup_total_drop.
    - intros j Hj. rewrite Nat2Z.id. apply vget_total. lia. }
  intros fuel. induction fuel as [|fuel IH]; intros k n Hn Hf; cbn [SendImpl_loop batches]; rewrite Hfill by done; run.
  - assert (n = length items) as -> by lia. rewrite drop_all, take_nil. rewrite (proj2 (Z.eqb_eq _ _)) by (unfold zlen, kEcdhPsiBatchSize; lia). by destruct dup.
  - destruct (drop n items) as [|x r] eqn:E.
    + assert (length items - n = 0)%nat by (rewrite <- length_drop, E; done). rewrite take_nil, (proj2 (Z.eqb_eq _ _)) by (unfold zlen, kEcdhPsiBatchSize; lia). by destruct dup.
    + assert (length items - n = S (length r))%nat as Hlen by (rewrite <- length_drop, E; done).
      rewrite (proj2 (Z.eqb_neq _ _)) by (unfold zlen, kEcdhPsiBatchSize; lia).
      set (curr := Z.min _ _). assert (Z.of_nat n + curr = Z.of_nat (n + Z.to_nat curr)) as -> by (unfold curr, zlen, kEcdhPsiBatchSize; lia).
      rewrite idx_S, IH; [|unfold curr, zlen, kEcdhPsiBatchSize; lia..]. run. rewrite <- E. cbn [wire].
      assert (drop (n + Z.to_nat curr) items = drop (Z.to_nat kEcdhPsiBatchSize) (drop n items)) as ->.
      { rewrite drop_drop. destruct (decide (n + Z.to_nat kEcdhPsiBatchSize <= length items)%nat); [do 2 f_equal; unfold curr, zlen; lia|].
        rewrite !drop_ge; [done|lia|unfold curr, zlen; lia]. }
      by destruct dup.
Qed.
Lemma SendImpl_wire items dup : SendImpl items dup = Ok (wire (if dup then "dual.enc" else "enc") 0 (batched items)).
Proof using All. unfold SendImpl. change 0 with (idx 0) at 1. change 0 with (Z.of_nat 0). by rewrite SendImpl_loop_wire, drop_0 by lia. Qed.
Lemma SendItems_RecvItems L items ty : Forall (fun x => length x = L) items -> RecvItems (wire ty 0 (batched items)) = Ok items.
Proof using All. intros HL. rewrite (RecvItems_wire L) by by apply batched_good. by rewrite concat_batched. Qed.
End wire.
Abbreviation batched items := (batches (length items) (Z.to_nat kEcdhPsiBatchSize) items).

(** ** The loops *)
Definition last_bytes (n : nat) (x : bytes) : bytes := drop (length x - n) x.
Definition remask `{EcGroup} (key x : bytes) : bytes := SerializePoint (EccMask_point key (DeserializePoint x)).

Section loops.
Context `{BatchProtoLaws} `{EcGroupLaws}.

Lemma for_each_pushes {A B} (f : A -> res B) (g : A -> B) l acc :
  (forall x, f x = Ok (g x)) -> for_each l (fun x acc => y ← f x; Ok (acc ++ [y])) acc = Ok (acc ++ map g l).
Proof.
  intros Hf. revert acc. induction l as [|x l IH]; intros acc; cbn [for_each map]; [by rewrite app_nil_r|].
  rewrite Hf. run. by rewrite IH, <- app_assoc.
Qed.
Lemma final_bytes_point n p : (n <= GetSerializeLength)%nat -> final_bytes (SerializePoint p) n = Ok (last_bytes n (SerializePoint p)).
Proof using All. intros Hn. unfold final_bytes, last_bytes. by rewrite point_length, bool_decide_true by done. Qed.
Lemma last_bytes_length n x : (n <= length x)%nat -> length (last_bytes n x) = n.
Proof. intros Hn. unfold last_bytes. rewrite length_drop. lia. Qed.
Lemma last_bytes_point n p : (n <= GetSerializeLength)%nat -> length (last_bytes n (SerializePoint p)) = n.
Proof using All. intros Hn. apply last_bytes_length. by rewrite point_length. Qed.
Lemma mask_points {B} key (g : EcPoint -> B) items :
  map g (EccMask key (DeserializeEcPoints items)) = map (fun x => g (EccMask_point key (DeserializePoint x))) items.
Proof. unfold EccMask, DeserializeEcPoints. by rewrite !map_map. Qed.

Lemma good_map L L' (f : bytes -> bytes) b : good L b -> (forall x, length (f x) = L') -> good L' (map f b).
Proof.
  intros (Hn & Hz & _) Hf. split_and!; [by destruct b|unfold zlen in *; by rewrite length_map|]. apply List.Forall_map, Forall_true, Hf.
Qed.
Lemma good_maps L L' (f : bytes -> bytes) bss : Forall (good L) bss -> (forall x, length (f x) = L') -> Forall (good L') (map (map f) bss).
Proof. intros Hb Hf. apply List.Forall_map. eapply Forall_impl; [exact Hb|]. intros b Hg. by eapply good_map. Qed.

(** *** [MaskSendSelf] *)
Lemma main_msg_plain o k b : main_msg o k (b, ∅) = SendBatchImpl (masks o b) ∅ "enc" (idx k).
Proof. unfold main_msg, sent_dup. cbn [fst snd]. by destruct (PeerCanTouchResults o). Qed.

Lemma MaskSelf_loop_wire o bss : Forall (fun b => b <> []) bss -> forall ms k fuel,
  ready ms (map (fun b => (b, ∅)) bss) -> batch_count ms = idx k -> self_done ms = false -> (length bss < fuel)%nat ->
  MaskSelf_loop fuel o ms = Ok (wire "enc" k (map (masks o) bss)).
Proof using All.
  induction 1 as [|b bss Hb _ IH]; intros ms k fuel Hr Hk Hd Hf; (destruct fuel as [|fuel]; [lia|]); cbn [MaskSelf_loop map wire]; rewrite Hd.
  - destruct (MaskSelf_iter_end o ms k Hr Hk) as (ms' & -> & Hd' & _). run. rewrite main_msg_plain.
    destruct fuel; cbn [MaskSelf_loop]; rewrite Hd'; by run.
  - destruct (MaskSelf_iter_batch o ms (b, ∅) _ k Hr Hb Hk) as (ms' & -> & Hr' & Hk' & Hd' & _). run.
    rewrite (IH ms' (S k)) by (done || cbn in Hf; lia). run. by rewrite main_msg_plain.
Qed.
Lemma batches_length fuel n l : (length (batches fuel n l) <= fuel)%nat.
Proof. revert l. induction fuel as [|fuel IH]; intros l; cbn [batches]; [done|]. destruct l as [|b l]; cbn [length]; [lia|]. specialize (IH (drop n (b :: l))). lia. Qed.
Lemma batches_nonempty fuel n l : (0 < n)%nat -> Forall (fun b => b <> []) (batches fuel n l).
Proof. intros Hn. revert l. induction fuel as [|fuel IH]; intros l; cbn [batches]; [constructor|]. destruct l; constructor; [destruct n; [lia|done]|apply IH]. Qed.
Lemma MaskSendSelf_wire o items : MaskSendSelf o items = Ok (wire "enc" 0 (map (map (mask_of o)) (batched items))).
Proof using All.
  unfold MaskSendSelf, MaskSelf_start, skip_processed. rewrite Z.ltb_irrefl. run.
  rewrite (MaskSelf_loop_wire o (batched items) (batches_nonempty (length items) (Z.to_nat kEcdhPsiBatchSize) items ltac:(unfold kEcdhPsiBatchSize; lia)) _ 0); try done.
  - do 2 f_equal. apply map_ext. intros b. apply masks_eq.
  - eexists. set (p := MemoryBatchProvider_new _ _ _ _ _). apply (delivers_batches (length items) p); cbn; unfold zlen, kEcdhPsiBatchSize; lia.
  - pose proof (batches_length (length items) (Z.to_nat kEcdhPsiBatchSize) items). lia.
Qed.

(** *** [MaskPeerForward], [MaskShufflePeer] *)
Lemma MaskPeerForward_loop_wire o tr L bss : (Z.to_nat tr <= GetSerializeLength)%nat -> Forall (good L) bss -> forall k,
  MaskPeerForward_loop o tr (idx k) (wire "enc" k bss) =
    Ok (wire "enc" k (map (map (fun x => if 0 <? tr then last_bytes (Z.to_nat tr) (remask (private_key o) x) else remask (private_key o) x)) bss)).
Proof using All.
  intros Ht. induction 1 as [|b bss Hb _ IH]; intros k; cbn [wire MaskPeerForward_loop map]; [rewrite recv_end; run; rewrite bool_decide_true by done;
    run; by rewrite ForwardBatch_message|].
  rewrite (recv_good L) by done. run. rewrite !bool_decide_false by apply Hb.
  rewrite (for_each_pushes _ (fun pt => if 0 <? tr then last_bytes (Z.to_nat tr) (SerializePoint pt) else SerializePoint pt)).
  - run. rewrite idx_S, IH. run. by rewrite ForwardBatch_message, mask_points.
  - intros pt. destruct (0 <? tr); [by apply final_bytes_point|done].
Qed.
Lemma MaskShufflePeer_wire o L bss : (dual_mask_size o <= GetSerializeLength)%nat -> Forall (good L) bss ->
  MaskShufflePeer o (wire "enc" 0 bss) =
    Ok (wire "dual.enc" 0 (batched (std_sort (map (fun x => last_bytes (dual_mask_size o) (remask (private_key o) x)) (concat bss))))).
Proof using All.
  intros Hd Hb. unfold MaskShufflePeer. rewrite (RecvItems_wire L) by done. run.
  assert ((if bool_decide (concat bss = []) then Ok [] else
     dup ← for_each (EccMask (private_key o) (DeserializeEcPoints (concat bss)))
       (fun masked_point dup => x ← final_bytes (SerializePoint masked_point) (dual_mask_size o); Ok (dup ++ [x])) [];
     Ok (std_sort dup)) = Ok (std_sort (map (fun x => last_bytes (dual_mask_size o) (remask (private_key o) x)) (concat bss)))) as ->.
  { case_bool_decide as E; [by rewrite E|].
    rewrite (for_each_pushes _ (fun pt => last_bytes (dual_mask_size o) (SerializePoint pt))) by (intros pt; by apply final_bytes_point).
    run. by rewrite mask_points. }
  run. apply SendImpl_wire.
Qed.

(** *** [MaskRecvPeer], [RecvDupMasked] at the party that learns the result *)
Lemma with_counts_plain (b : list bytes) : with_counts (b, ∅) = map (fun x => (x, 0)) b.
Proof. apply with_counts_empty. Qed.

Lemma MaskPeer_loop_wire owner peer bss : paired owner peer -> PeerCanTouchResults owner = true -> SelfCanTouchResults owner = false ->
  Forall (fun b => b <> [] /\ zlen b < 2 ^ 32) bss -> forall mp k l0,
  mem_holds (peer_store mp) l0 -> peer_batch_count mp = idx k -> peer_done mp = false ->
  exists store, MaskPeer_loop peer mp (wire "enc" k (map (masks owner) bss)) = Ok (store, []) /\
    store_ store = map fst l0 ++ map (cipher_of owner peer) (concat bss).
Proof using All.
  intros Hp Hc Hs. induction 1 as [|b bss Hb _ IH]; intros mp k l0 Hl Hk Hd; cbn [map wire MaskPeer_loop concat]; rewrite Hd.
  - pose proof (MaskPeer_iter_spec mem_holds owner peer Hp mp l0 ([], ∅) k Hl Hk (or_introl eq_refl)) as Hi.
    rewrite main_msg_plain in Hi. change (masks owner []) with (@nil bytes) in Hi. apply wp_iff in Hi as ([mp' sent] & -> & Hh & Hd' & _ & _ & Hsent). run.
    cbn [fst] in Hd'. rewrite Hs in Hsent. rewrite Hd', Hsent. cbn. exists (peer_store mp'). split; [done|].
    destruct Hh as (-> & _). unfold kept. rewrite Hc. cbn. by rewrite !app_nil_r.
  - assert (batch_ok (b, ∅)) as Hok.
    { destruct Hb. split_and!; [done|done|]. rewrite with_counts_plain. apply List.Forall_map, Forall_true. intros x. cbn. lia. }
    pose proof (MaskPeer_iter_spec mem_holds owner peer Hp mp l0 (b, ∅) k Hl Hk (or_intror Hok)) as Hi.
    rewrite main_msg_plain in Hi. apply wp_iff in Hi as ([mp' sent] & -> & Hh & Hd' & Hk' & _ & Hsent). run.
    cbn [fst] in Hd', Hk'. rewrite bool_decide_false in Hd', Hk' by apply Hb. rewrite Hs in Hsent. subst sent.
    destruct (IH mp' (S k) _ Hh Hk' Hd') as (store & -> & E). run. exists store. split; [done|].
    rewrite E. unfold kept. rewrite Hc, with_counts_plain, !map_app, !map_map, <- app_assoc. done.
Qed.
Lemma MaskRecvPeer_wire owner peer items : paired owner peer -> PeerCanTouchResults owner = true -> SelfCanTouchResults owner = false ->
  MaskRecvPeer peer (wire "enc" 0 (map (map (mask_of owner)) (batched items))) = Ok (map (cipher_of owner peer) items, []).
Proof using All.
  intros Hp Hc Hs. unfold MaskRecvPeer.
  assert (map (map (mask_of owner)) (batched items) = map (masks owner) (batched items)) as -> by (apply map_ext; intros b; symmetry; apply masks_eq).
  destruct (MaskPeer_loop_wire owner peer (batched items) Hp Hc Hs ltac:(apply (Forall_impl (fun b => b <> [] /\ zlen b < 2 ^ 32)); [|done];
    clear; generalize (length items) at 1; intros fuel; revert items; induction fuel as [|fuel IH]; intros l; cbn [batches]; [constructor|];
    destruct l as [|x l]; constructor; [split; [done|unfold zlen, kEcdhPsiBatchSize; rewrite length_take; lia]|apply IH])
    (MaskPeer_start MemoryEcPointStore_new) 0%nat [] ltac:(done) eq_refl eq_refl) as (store & -> & E).
  run. rewrite E. by rewrite concat_batched.
Qed.

Lemma RecvDual_loop_wire o L ty bss : Forall (good L) bss -> forall rd k l0,
  mem_holds (self_store rd) l0 -> recv_batch_count rd = idx k -> recv_done rd = false ->
  exists store, RecvDualMaskedSelf_loop o rd (wire ty k bss) = Ok store /\ store_ store = map fst l0 ++ concat bss.
Proof using All.
  induction 1 as [|b bss Hb _ IH]; intros rd k l0 Hl Hk Hd; cbn [wire RecvDualMaskedSelf_loop concat]; rewrite Hd; unfold RecvDualMaskedSelf_iter; rewrite Hk.
  - rewrite recv_end. run. destruct (proj1 (wp_iff _ _) (Save_all_holds mem_holds _ _ [] Hl)) as (st & -> & Hh). run. exists st. split; [done|].
    destruct Hh as (-> & _). cbn. by rewrite !app_nil_r.
  - rewrite (recv_good L) by done. run. destruct (proj1 (wp_iff _ _) (Save_all_holds mem_holds _ _ b Hl)) as (st & -> & Hh). run.
    rewrite bool_decide_false by apply Hb.
    edestruct (IH (mkRecv (if recovery_manager o then Flush st else st) (u64 (idx k + 1))
      (if recovery_manager o then Some (ItemCount (if recovery_manager o then Flush st else st)) else saved_self_count rd) false) (S k)) as (st' & E & Es).
    + cbn [self_store]. destruct (recovery_manager o); [by apply (Flush_holds (holds := mem_holds))|exact Hh].
    + cbn. apply idx_S.
    + done.
    + exists st'. split; [exact E|]. rewrite Es, map_app, map_map, <- app_assoc. cbn [fst]. by rewrite map_id.
Qed.
Lemma RecvDupMasked_wire o L ty items : SelfCanTouchResults o = true -> Forall (fun x => length x = L) items ->
  RecvDupMasked o (wire ty 0 (batched items)) = Ok items.
Proof using All.
  intros Hc HL. unfold RecvDupMasked.
  destruct (RecvDual_loop_wire o L ty (batched items) (batched_good L items HL) (RecvDualMaskedSelf_start o MemoryEcPointStore_new) 0 []) as (st & -> & E).
  - done.
  - done.
  - cbn. by rewrite Hc.
  - run. rewrite E. by rewrite concat_batched.
Qed.

(** ** Streams of whole vectors *)
Definition stream (ty : string) (items : list bytes) : list Buffer := wire ty 0 (batched items).

Lemma batches_map (f : bytes -> bytes) fuel n l : map (map f) (batches fuel n l) = batches fuel n (map f l).
Proof.
  revert l. induction fuel as [|fuel IH]; intros l; cbn [batches]; [done|]. destruct l as [|x l]; [done|].
  cbn [map]. rewrite <- (map_cons f x l), IH, (firstn_map f), (skipn_map f). done.
Qed.
Lemma batched_map (f : bytes -> bytes) items : map (map f) (batched items) = batched (map f items).
Proof. by rewrite batches_map, length_map. Qed.

Lemma RecvItems_stream L ty items : Forall (fun x => length x = L) items -> RecvItems (stream ty items) = Ok items.
Proof using All. apply SendItems_RecvItems. Qed.
Lemma SendItems_stream items : SendItems items = Ok (stream "enc" items).
Proof using All. apply SendImpl_wire. Qed.
Lemma MaskSendSelf_stream o items : MaskSendSelf o items = Ok (stream "enc" (map (mask_of o) items)).
Proof using All. by rewrite MaskSendSelf_wire, batched_map. Qed.
Lemma MaskPeerForward_stream o tr L items : (Z.to_nat tr <= GetSerializeLength)%nat -> Forall (fun x => length x = L) items ->
  MaskPeerForward o tr (stream "enc" items) =
    Ok (stream "enc" (map (fun x => if 0 <? tr then last_bytes (Z.to_nat tr) (remask (private_key o) x) else remask (private_key o) x) items)).
Proof using All.
  intros Ht HL. unfold MaskPeerForward, stream. change 0 with (idx 0) at 1.
  by rewrite (MaskPeerForward_loop_wire o tr L _ Ht (batched_good L items HL)), batched_map.
Qed.
Lemma MaskShufflePeer_stream o L items : (dual_mask_size o <= GetSerializeLength)%nat -> Forall (fun x => length x = L) items ->
  MaskShufflePeer o (stream "enc" items) =
    Ok (stream "dual.enc" (std_sort (map (fun x => last_bytes (dual_mask_size o) (remask (private_key o) x)) items))).
Proof using All. intros Hd HL. unfold stream. by rewrite (MaskShufflePeer_wire o L _ Hd (batched_good L items HL)), concat_batched. Qed.
Lemma MaskRecvPeer_stream owner peer items : paired owner peer -> PeerCanTouchResults owner = true -> SelfCanTouchResults owner = false ->
  MaskRecvPeer peer (stream "enc" (map (mask_of owner) items)) = Ok (map (cipher_of owner peer) items, []).
Proof using All. intros Hp Hc Hs. unfold stream. rewrite <- batched_map. by apply MaskRecvPeer_wire. Qed.
Lemma RecvDupMasked_stream o L ty items : SelfCanTouchResults o = true -> Forall (fun x => length x = L) items ->
  RecvDupMasked o (stream ty items) = Ok items.
Proof using All. apply RecvDupMasked_wire. Qed.
End loops.
