(* ===== verification/Ecdh3pcRun.v ===== *)
(** * Three-party ECDH-PSI: a whole run

    The links between the three parties have one history, and in it the master
    returns the items that all three have. *)
From S2P Require Import Prelude EcStore EcdhPsi Ecdh3pc Ecdh3pcProofs.

Section run.
Context `{BatchProtoLaws} `{EcGroupLaws}.
Context (PartyIdByRank : Z -> bytes) (shuffle : list bytes -> list bytes).
(** The master's rank, the size of the final ciphers, the curve and the keys. *)
Context (m : Z) (d : nat) (curve : Z) (ka kb kc : bytes).

Definition master_opts : Options3pc := mkOptions3pc m m d curve kc.
Definition calculator_opts : Options3pc := mkOptions3pc ((m + 1) `mod` 3) m d curve ka.
Definition partner_opts : Options3pc := mkOptions3pc ((m + 2) `mod` 3) m d curve kb.
Abbreviation c := master_opts.
Abbreviation a := calculator_opts.
Abbreviation b := partner_opts.

(** The ciphers of an item under two and three keys; only the last [d] bytes of
    the latter are compared. *)
Definition pair_cipher (x : bytes) : bytes := SerializePoint (EccMask_point kb (EccMask_point ka (HashToCurve x))).
Definition final_cipher (x : bytes) : bytes :=
  last_bytes d (SerializePoint (EccMask_point kc (EccMask_point kb (EccMask_point ka (HashToCurve x))))).

Record world_ok : Prop := {
  w_master : 0 <= m < 3;
  w_size : (0 < d <= GetSerializeLength)%nat;
  w_int32 : Z.of_nat d < 2 ^ 31;
  w_names : PartyIdByRank (Rank a) <> PartyIdByRank (Rank b)
}.
Context (Hw : world_ok).

Definition link_ctx (p : Options3pc) (dst : Z) (n : nat) (target : Z) : EcdhPsiOptions :=
  let rank := CreateP2PLinkCtx PartyIdByRank (Rank p) dst in
  mkOptions rank (private_key3 p) (curve_type3 p) n (if target =? dst then 1 - rank else rank) false.

Lemma ranks : m = 0 \/ m = 1 \/ m = 2.
Proof using Hw. destruct Hw as [? _ _ _]. lia. Qed.
Ltac by_rank := destruct ranks as [->|[->| ->]]; reflexivity.
Lemma roles : (IsMaster c, IsCalculator c, IsPartner c) = (true, false, false) /\
  (IsMaster a, IsCalculator a, IsPartner a) = (false, true, false) /\
  (IsMaster b, IsCalculator b, IsPartner b) = (false, false, true).
Proof using Hw. unfold IsMaster, IsCalculator, IsPartner, NextRank3, PrevRank3, c, a, b. cbn [Rank Ecdh3pc.master_rank]. split_and!; by_rank. Qed.

Lemma CreateP2PCtx_ok p dst n target : target <> kAllRank -> target = Rank p \/ target = dst ->
  CreateP2PCtx PartyIdByRank p dst n target = Ok (link_ctx p dst n target).
Proof.
  intros Ha Ht. unfold CreateP2PCtx. rewrite (proj2 (Z.eqb_neq _ _)) by done. cbn [negb].
  assert ((target =? Rank p) || (target =? dst) = true) as ->.
  { apply orb_true_iff. rewrite !Z.eqb_eq. done. }
  by run.
Qed.
Ltac ctx := unfold kAllRank, NextRank3, PrevRank3; cbn [Rank Ecdh3pc.master_rank master_opts calculator_opts partner_opts];
  destruct ranks as [->|[->| ->]]; (discriminate || (cbn; auto)).

(** ** [MaskMaster] *)
Definition mask_c (z : bytes) : bytes := SerializePoint (EccMask_point kc (HashToCurve z)).
Definition master_masked (items : list bytes) : list Buffer := stream "enc" (map mask_c items).
Definition calculator_masked (items : list bytes) : list Buffer := stream "enc" (map (remask ka) (map mask_c items)).
Definition partner_masked (items : list bytes) : list Buffer := stream "enc" (map final_cipher items).

Lemma d_le : (d <= GetSerializeLength)%nat.
Proof using Hw. apply Hw. Qed.
Lemma final_length x : length (final_cipher x) = d.
Proof using All. apply last_bytes_point, d_le. Qed.
Lemma map_lengths {A} (f : A -> bytes) L l : (forall x, length (f x) = L) -> Forall (fun x => length x = L) (map f l).
Proof. clear. intros Hf. apply List.Forall_map, Forall_true, Hf. Qed.

Lemma MaskMaster_master items from :
  MaskMaster PartyIdByRank c items from = (masked_items ← RecvItems from; Ok (master_masked items, masked_items)).
Proof using All.
  unfold MaskMaster. destruct roles as ([= -> _ _] & _ & _).
  rewrite !CreateP2PCtx_ok by ctx. run. rewrite MaskSendSelf_stream. by run.
Qed.
Lemma MaskMaster_calculator inputs items :
  MaskMaster PartyIdByRank a inputs (master_masked items) = Ok (calculator_masked items, []).
Proof using All.
  unfold MaskMaster. destruct roles as (_ & [= -> -> _] & _). rewrite !CreateP2PCtx_ok by ctx. run. unfold master_masked.
  rewrite (MaskPeerForward_stream _ _ GetSerializeLength); [by run|lia|]. apply map_lengths. intros x. apply point_length.
Qed.
Lemma remask_point key p : remask key (SerializePoint p) = SerializePoint (EccMask_point key p).
Proof using All. unfold remask. by rewrite point_roundtrip. Qed.
Lemma mask_chain z : last_bytes d (remask kb (remask ka (mask_c z))) = final_cipher z.
Proof using All.
  unfold mask_c. rewrite !remask_point. unfold final_cipher, EccMask_point. do 2 f_equal.
  rewrite (Mul_comm _ (le_value kc) (le_value ka)). apply Mul_comm.
Qed.
Lemma MaskMaster_partner inputs items :
  MaskMaster PartyIdByRank b inputs (calculator_masked items) = Ok (partner_masked items, []).
Proof using All.
  unfold MaskMaster. destruct roles as (_ & _ & [= -> -> _]). rewrite !CreateP2PCtx_ok by ctx. run. unfold calculator_masked.
  destruct Hw as [_ [Hd Hd'] H32 _].
  assert (i32 (Z.of_nat d) = Z.of_nat d) as Hi by (unfold i32, to_signed, wrap; rewrite Z.mod_small by lia; cbv zeta; by rewrite (proj2 (Z.ltb_lt _ _)) by lia).
  cbn [dual_mask_size3 b]. rewrite Hi.
  rewrite (MaskPeerForward_stream _ _ GetSerializeLength); [|lia|].
  - run. rewrite (proj2 (Z.ltb_lt _ _)) by lia. rewrite Nat2Z.id, !map_map. unfold partner_masked. do 3 f_equal. apply map_ext, mask_chain.
  - rewrite map_map. apply map_lengths. intros x. unfold remask. apply point_length.
Qed.

(** ** [PartnersPsi] *)
Definition ctx_a : EcdhPsiOptions := link_ctx a (NextRank3 a) GetSerializeLength (Rank a).
Definition ctx_b : EcdhPsiOptions := link_ctx b (PrevRank3 b) GetSerializeLength (PrevRank3 b).
Definition calculator_enc (items : list bytes) : list Buffer := stream "enc" (map (mask_of ctx_a) items).
Definition partner_enc (items : list bytes) : list Buffer := stream "enc" (map (mask_of ctx_b) (shuffle items)).
Definition partner_dual (items : list bytes) : list Buffer := stream "dual.enc" (std_sort (map pair_cipher items)).
Definition common (items_a items_b : list bytes) : list bytes :=
  let self_result := std_sort (std_sort (map pair_cipher items_a)) in
  let peer_result := std_sort (map pair_cipher (shuffle items_b)) in
  set_intersection bytes_ltb (length self_result + length peer_result) self_result peer_result.

Lemma bytes_ltb_antisym x y : x <> y -> bytes_ltb y x = negb (bytes_ltb x y).
Proof.
  clear. intros Hne. destruct (bytes_ltb x y) eqn:E1, (bytes_ltb y x) eqn:E2; try done; exfalso.
  - pose proof (bytes_ltb_trans _ _ _ E1 E2). by rewrite bytes_ltb_irrefl in *.
  - by apply Hne, bytes_ltb_trichotomy.
Qed.
Lemma link_ranks : rank ctx_b = 1 - rank ctx_a /\ (rank ctx_a = 0 \/ rank ctx_a = 1) /\
  target_rank ctx_a = rank ctx_a /\ target_rank ctx_b = 1 - rank ctx_b.
Proof using Hw.
  assert (NextRank3 a = Rank b /\ PrevRank3 b = Rank a /\ Rank a <> Rank b) as (Ea & Eb & Hab).
  { unfold NextRank3, PrevRank3. cbn [Rank calculator_opts partner_opts]. destruct ranks as [->|[->| ->]]; done. }
  unfold ctx_a, ctx_b, link_ctx. cbn [rank target_rank]. rewrite Ea, Eb, Z.eqb_refl, (proj2 (Z.eqb_neq _ _)) by done.
  unfold CreateP2PLinkCtx. rewrite (bytes_ltb_antisym (PartyIdByRank (Rank a)) (PartyIdByRank (Rank b))) by apply Hw.
  destruct (bytes_ltb _ _); cbn; auto.
Qed.
Lemma pair_roles : SelfCanTouchResults ctx_a = true /\ PeerCanTouchResults ctx_b = true /\ SelfCanTouchResults ctx_b = false /\
  paired ctx_b ctx_a /\ CheckConfig ctx_a ctx_b = Ok tt /\ CheckConfig ctx_b ctx_a = Ok tt.
Proof using Hw.
  pose proof link_ranks as (Hb & Ha & Ta & Tb). unfold paired, CheckConfig, SelfCanTouchResults, PeerCanTouchResults, NextRank, kAllRank.
  rewrite Ta, Tb, Hb. change (curve_type ctx_b) with (curve_type ctx_a). change (dual_mask_size ctx_a) with GetSerializeLength.
  rewrite Z.eqb_refl. destruct Ha as [-> | ->]; cbn; rewrite ?Z.eqb_refl; split_and!; done.
Qed.

Lemma last_bytes_all p : last_bytes GetSerializeLength (SerializePoint p) = SerializePoint p.
Proof using All. unfold last_bytes. by rewrite point_length, Nat.sub_diag, drop_0. Qed.
Lemma cipher_of_pair x : cipher_of ctx_b ctx_a x = pair_cipher x.
Proof using All.
  change (cipher_of ctx_b ctx_a x) with (last_bytes GetSerializeLength (SerializePoint (EccMask_point ka (EccMask_point kb (HashToCurve x))))).
  rewrite last_bytes_all. unfold pair_cipher, EccMask_point. by rewrite Mul_comm.
Qed.
Lemma pair_length x : length (pair_cipher x) = GetSerializeLength.
Proof using All. apply point_length. Qed.

Lemma PartnersPsi_partner items items_a (from : P2PStream) : config from = [ctx_a] -> main from = calculator_enc items_a ->
  PartnersPsi PartyIdByRank shuffle b items from = Ok (mkStream _ [ctx_b] (partner_enc items) (partner_dual items_a), [], []).
Proof using All.
  intros Hc Hm. unfold PartnersPsi, PartnersPsiImpl. destruct roles as (_ & _ & [= _ -> ->]). rewrite !CreateP2PCtx_ok by ctx. run.
  fold ctx_b. rewrite Hc. cbn [check_config]. rewrite (proj2 (proj2 (proj2 (proj2 (proj2 pair_roles))))). run. rewrite MaskSendSelf_stream. run.
  rewrite Hm. unfold calculator_enc. rewrite (MaskShufflePeer_stream _ GetSerializeLength); [|done|apply map_lengths; intros x; apply point_length].
  run. unfold partner_dual. rewrite map_map. do 6 f_equal. apply map_ext. intros x. change (dual_mask_size ctx_b) with GetSerializeLength.
  unfold mask_of. rewrite remask_point. apply last_bytes_all.
Qed.
Lemma PartnersPsi_calculator items_a items_b (from : P2PStream) :
  config from = [ctx_b] -> main from = partner_enc items_b -> dual from = partner_dual items_a ->
  PartnersPsi PartyIdByRank shuffle a items_a from =
    Ok (mkStream _ [ctx_a] (calculator_enc items_a) [], stream "enc" (common items_a items_b), []).
Proof using All.
  intros Hc Hm Hd. unfold PartnersPsi, PartnersPsiImpl. destruct roles as (_ & [= _ -> ->] & _). rewrite !CreateP2PCtx_ok by ctx. run.
  fold ctx_a. destruct pair_roles as (Sa & Pb & Sb & Hp & Hcfg & _). rewrite Hc. cbn [check_config]. rewrite Hcfg. run.
  rewrite MaskSendSelf_stream. run. rewrite Hm. unfold partner_enc. rewrite (MaskRecvPeer_stream ctx_b ctx_a) by done. run.
  rewrite Hd. unfold partner_dual. rewrite (RecvDupMasked_stream _ GetSerializeLength) by (done || (apply std_sort_length, map_lengths, pair_length)).
  run. rewrite SendItems_stream. run. unfold common. by rewrite (map_ext _ _ cipher_of_pair).
Qed.
Lemma PartnersPsi_master items items_a items_b (from : P2PStream) : main from = stream "enc" (common items_a items_b) ->
  PartnersPsi PartyIdByRank shuffle c items from = Ok (mkStream _ [] [] [], [], common items_a items_b).
Proof using All.
  intros Hm. unfold PartnersPsi, PartnersPsiImpl. destruct roles as ([= _ -> ->] & _ & _). rewrite !CreateP2PCtx_ok by ctx. run.
  rewrite Hm, (RecvItems_stream GetSerializeLength); [by run|]. apply Forall_forall. intros x [Hx _]%sorted_common.
  apply elem_of_std_sort, list_elem_of_fmap in Hx as (y & -> & _). apply pair_length.
Qed.

(** What a party sends does not depend on what it receives. *)
Lemma partner_sends items from s t r : PartnersPsi PartyIdByRank shuffle b items from = Ok (s, t, r) ->
  config s = [ctx_b] /\ main s = partner_enc items.
Proof using All.
  unfold PartnersPsi, PartnersPsiImpl. destruct roles as (_ & _ & [= _ -> ->]). rewrite !CreateP2PCtx_ok by ctx. run. intros E. inv_ok.
  rewrite MaskSendSelf_stream in *. inv_ok. done.
Qed.
Lemma calculator_sends items from s t r : PartnersPsi PartyIdByRank shuffle a items from = Ok (s, t, r) ->
  config s = [ctx_a] /\ main s = calculator_enc items.
Proof using All.
  unfold PartnersPsi, PartnersPsiImpl. destruct roles as (_ & [= _ -> ->] & _). rewrite !CreateP2PCtx_ok by ctx. run. intros E. inv_ok.
  destruct x1 as [peer_result dual_sent]. inv_ok. rewrite MaskSendSelf_stream in *. inv_ok. done.
Qed.

(** ** [FinalPsi] *)
Lemma FinalPsi_other p items masked partners : IsMaster p = false -> FinalPsi p items masked partners = Ok [].
Proof. clear. unfold FinalPsi. by intros ->. Qed.
Lemma FinalPsi_master items partners : zlen items < 2 ^ 32 ->
  FinalPsi c items (map final_cipher items) partners
    = Ok (filter (fun z => final_cipher z ∈ map (fun x => last_bytes d (remask kc x)) partners) items).
Proof using All.
  intros Hn. unfold FinalPsi. destruct roles as ([= -> _ _] & _ & _).
  rewrite (for_each_pushes _ (fun pt => last_bytes d (SerializePoint pt))) by (intros pt; apply final_bytes_point, d_le).
  run. unfold zlen in *. rewrite length_map, (proj2 (Z.ltb_lt _ _)) by done.
  change ([] ++ ?l) with l. rewrite mask_points.
  pose proof (result_items_filter items final_cipher (std_sort (map (fun x => last_bytes d (remask kc x)) partners))) as Hr.
  unfold result_items in Hr. rewrite length_map in Hr. etransitivity; [exact Hr|].
  f_equal. apply filter_ext_in. intros z _. apply elem_of_std_sort.
Qed.
Lemma final_of_pair x : last_bytes d (remask kc (pair_cipher x)) = final_cipher x.
Proof using All. unfold pair_cipher. by rewrite remask_point. Qed.

Context (items_a items_b items_c : list bytes).
Context (Hshuffle : forall l, shuffle l ≡ₚ l).
Context (Hpair : forall x y, x ∈ items_a -> y ∈ items_b -> pair_cipher x = pair_cipher y -> x = y).
Context (Hfinal : forall z x, z ∈ items_c -> x ∈ items_a -> final_cipher z = final_cipher x -> z = x).
Context (Hsize : zlen items_c < 2 ^ 32).

Lemma elem_of_common y : y ∈ common items_a items_b <-> exists x, y = pair_cipher x /\ x ∈ items_a /\ x ∈ items_b.
Proof using Hpair Hshuffle.
  unfold common. rewrite sorted_common, elem_of_std_sort, !list_elem_of_fmap. setoid_rewrite Hshuffle. split.
  - intros [(x & -> & Hx) (x' & E & Hx')]. pose proof (Hpair x x' Hx Hx' E) as <-. by exists x.
  - intros (x & -> & Hx & Hx'). split; by exists x.
Qed.
Definition result3 : list bytes := filter (fun z => z ∈ items_a /\ z ∈ items_b) items_c.
Lemma FinalPsi_result : FinalPsi c items_c (map final_cipher items_c) (common items_a items_b) = Ok result3.
Proof using All.
  rewrite FinalPsi_master by done. f_equal. unfold result3. apply filter_ext_in. intros z Hz. rewrite list_elem_of_fmap. split.
  - intros (y & E & (x & -> & Hx & Hx')%elem_of_common). rewrite final_of_pair in E. by rewrite (Hfinal z x Hz Hx E).
  - intros [Ha Hb]. exists (pair_cipher z). split; [by rewrite final_of_pair|]. apply elem_of_common. by exists z.
Qed.

(** ** [OnRun] *)
Definition sent_c : sent3 := mkSent (master_masked items_c) (mkStream _ [] [] []) [].
Definition sent_a : sent3 := mkSent (calculator_masked items_c) (mkStream _ [ctx_a] (calculator_enc items_a) []) (stream "enc" (common items_a items_b)).
Definition sent_b : sent3 := mkSent (partner_masked items_c) (mkStream _ [ctx_b] (partner_enc items_b) (partner_dual items_a)) [].

Lemma OnRun_calculator (from : P2PStream) : config from = [ctx_b] -> main from = partner_enc items_b -> dual from = partner_dual items_a ->
  OnRun PartyIdByRank shuffle a items_a (master_masked items_c) from = Ok (sent_a, []).
Proof using All.
  intros Hc Hm Hd. unfold OnRun. rewrite MaskMaster_calculator. run. rewrite (PartnersPsi_calculator _ items_b) by done. run.
  rewrite FinalPsi_other by (destruct roles as (_ & [= -> _ _] & _); done). by run.
Qed.
Lemma OnRun_partner (from : P2PStream) : config from = [ctx_a] -> main from = calculator_enc items_a ->
  OnRun PartyIdByRank shuffle b items_b (calculator_masked items_c) from = Ok (sent_b, []).
Proof using All.
  intros Hc Hm. unfold OnRun. rewrite MaskMaster_partner. run. rewrite (PartnersPsi_partner _ items_a) by done. run.
  rewrite FinalPsi_other by (destruct roles as (_ & _ & [= -> _ _]); done). by run.
Qed.
Lemma OnRun_master (from : P2PStream) : main from = stream "enc" (common items_a items_b) ->
  OnRun PartyIdByRank shuffle c items_c (partner_masked items_c) from = Ok (sent_c, result3).
Proof using All.
  intros Hm. unfold OnRun. rewrite MaskMaster_master. unfold partner_masked.
  rewrite (RecvItems_stream d) by apply map_lengths, final_length. run. rewrite (PartnersPsi_master _ items_a items_b) by done. run.
  rewrite FinalPsi_result. by run.
Qed.

Lemma OnRun_ok p items f1 f2 h r : OnRun PartyIdByRank shuffle p items f1 f2 = Ok (h, r) ->
  exists x y, MaskMaster PartyIdByRank p items f1 = Ok (masked_sent h, x) /\
    PartnersPsi PartyIdByRank shuffle p items f2 = Ok (pair_sent h, result_sent h, y).
Proof.
  clear. unfold OnRun. intros E. apply bind_ok in E as ([ms x] & E1 & E). apply bind_ok in E as ([[ps rs] y] & E2 & E).
  apply bind_ok in E as (res & _ & [= <- _]). by exists x, y.
Qed.

Lemma ecdh_3pc_run_exists : ecdh_3pc_run PartyIdByRank shuffle a b c items_a items_b items_c sent_a sent_b sent_c [] [] result3.
Proof using All. split_and!; [by apply OnRun_calculator|by apply OnRun_partner|by apply OnRun_master]. Qed.
Lemma ecdh_3pc_run_unique ha hb hc ra rb rc :
  ecdh_3pc_run PartyIdByRank shuffle a b c items_a items_b items_c ha hb hc ra rb rc -> ra = [] /\ rb = [] /\ rc = result3.
Proof using All.
  intros (Ea & Eb & Ec). pose proof (OnRun_ok _ _ _ _ _ _ Ec) as (x & _ & Mc & _).
  rewrite MaskMaster_master in Mc. apply bind_ok in Mc as (x' & _ & [= Mc _]).
  pose proof (OnRun_ok _ _ _ _ _ _ Ea) as (xa & ya & Ma & Pa). pose proof (OnRun_ok _ _ _ _ _ _ Eb) as (xb & yb & Mb & Pb).
  apply calculator_sends in Pa as [Ca Sa]. apply partner_sends in Pb as [Cb Sb].
  rewrite <- Mc, MaskMaster_calculator in Ma. injection Ma as Ma _. rewrite <- Ma in Eb. rewrite (OnRun_partner _ Ca Sa) in Eb. injection Eb as <- <-.
  rewrite <- Mc, (OnRun_calculator (pair_sent sent_b)) in Ea by done. injection Ea as <- <-.
  change (masked_sent sent_b) with (partner_masked items_c) in Ec. rewrite (OnRun_master (mkStream _ [] (result_sent sent_a) [])) in Ec by done. by injection Ec as _ <-.
Qed.

(** C11.  The three-party protocol: whatever the order in which the partner
    shuffles its items and whichever party is the master, there is a history of
    the links in which all three [OnRun] return; in every such history the
    calculator and the partner get nothing, and the master gets, in its own
    order, exactly its items that the two others have too, provided different
    items have different ciphers. *)
Theorem ecdh_3pc_correct :
  (exists ha hb hc, ecdh_3pc_run PartyIdByRank shuffle a b c items_a items_b items_c ha hb hc [] []
     (filter (fun z => z ∈ items_a /\ z ∈ items_b) items_c)) /\
  (forall ha hb hc ra rb rc, ecdh_3pc_run PartyIdByRank shuffle a b c items_a items_b items_c ha hb hc ra rb rc ->
     ra = [] /\ rb = [] /\ rc = filter (fun z => z ∈ items_a /\ z ∈ items_b) items_c).
Proof using All.
  split; [exists sent_a, sent_b, sent_c; apply ecdh_3pc_run_exists|]. intros ha hb hc ra rb rc. apply ecdh_3pc_run_unique.
Qed.
End run.

(** ** A run *)
#[local] Existing Instance toy_proto.
#[local] Existing Instance toy_proto_laws.
#[local] Existing Instance toy_group.
#[local] Existing Instance toy_group_laws.

Definition toy_names (r : Z) : bytes := [99 - r; r].
Definition toy3_a : list bytes := [[3]; [1]; [8; 8]; [6]].
Definition toy3_b : list bytes := [[8; 8]; [2]; [6]; [3]; [4]].
Definition toy3_c : list bytes := [[6]; [7; 7]; [1]; [8; 8]; [2]].

Lemma ecdh_3pc_correct_witness :
  (exists ha hb hc, ecdh_3pc_run toy_names (@rev bytes) (calculator_opts 1 2 1 [5; 1]) (partner_opts 1 2 1 [9; 2])
     (master_opts 1 2 1 [4; 3]) toy3_a toy3_b toy3_c ha hb hc [] [] [[6]; [8; 8]]) /\
  (forall ha hb hc ra rb rc, ecdh_3pc_run toy_names (@rev bytes) (calculator_opts 1 2 1 [5; 1]) (partner_opts 1 2 1 [9; 2])
     (master_opts 1 2 1 [4; 3]) toy3_a toy3_b toy3_c ha hb hc ra rb rc -> ra = [] /\ rb = [] /\ rc = [[6]; [8; 8]]).
Proof.
  apply (ecdh_3pc_correct toy_names (@rev bytes) 1 2 1 [5; 1] [9; 2] [4; 3]).
  - split; [lia|cbn; lia|lia|vm_compute; discriminate].
  - intros l. symmetry. apply Permutation_rev.
  - unfold toy3_a, toy3_b. intros x y. rewrite !elem_of_cons, !elem_of_nil. intros Hx Hy. naive_solver (vm_compute in *; congruence).
  - unfold toy3_a, toy3_c. intros x y. rewrite !elem_of_cons, !elem_of_nil. intros Hx Hy. naive_solver (vm_compute in *; congruence).
  - vm_compute. reflexivity.
Defined.
