(* ===== verification/Collective.v ===== *)
(** * Parties that meet in collective operations

    A party is a tree of the collective operations it calls, each with a
    continuation for what the operation returns: gathering a value from a group,
    a two-party protocol with a peer, a broadcast from a root to everyone.  The
    parties run at their own pace; an operation completes when its members have
    all called it ([meet]).  Two operations that can complete at the same time
    have different members, so the order does not matter ([meet_diamond]): one
    run to the end is enough to know every run ([random_descent]). *)
From S2P Require Import Prelude EcStore.

(** ** Reductions whose steps commute *)
Section descent.
Context {S : Type} (R : S -> S -> Prop).
Context (diamond : forall x y z, R x y -> R x z -> y = z \/ exists w, R y w /\ R z w).

Lemma descent_step n x y t : nsteps R n x t -> nf R t -> R x y -> exists m, n = Datatypes.S m /\ nsteps R m y t.
Proof using diamond.
  revert x y. induction n as [|n IH]; intros x y Hn Ht Hy.
  - inversion Hn; subst. destruct Ht. by exists y.
  - inversion Hn as [|? ? x1 ? H1 Hr]; subst. exists n. split; [done|].
    destruct (diamond x x1 y H1 Hy) as [->|(w & Hw1 & Hw2)]; [done|].
    destruct (IH x1 w Hr Ht Hw1) as (m & -> & Hm). by econstructor.
Qed.
(** From one run to the end: no run is longer, and every run can be continued to
    that end. *)
Lemma random_descent n x t : nsteps R n x t -> nf R t -> forall k y, nsteps R k x y -> (k <= n)%nat /\ nsteps R (n - k) y t.
Proof using diamond.
  intros Hn Ht k. revert n x Hn. induction k as [|k IH]; intros n x Hn y Hy.
  - inversion Hy; subst. rewrite Nat.sub_0_r. split; [lia|done].
  - inversion Hy as [|? ? x1 ? H1 Hr]; subst. destruct (descent_step n x x1 t Hn Ht H1) as (m & -> & Hm).
    destruct (IH m x1 Hm y Hr). split; [lia|done].
Qed.
Lemma descent_terminates n x t : nsteps R n x t -> nf R t -> sn R x.
Proof using diamond.
  revert x. induction n as [n IH] using lt_wf_ind. intros x Hn Ht. constructor. intros y Hy.
  destruct (descent_step n x y t Hn Ht Hy) as (m & -> & Hm). apply (IH m); [lia|done|done].
Qed.
End descent.

(** ** Parties *)
Inductive party :=
| Returned (r : res (list bytes))
| AllGather (members : list nat) (value : Z) (k : list Z -> party)
| TwoParty (peer target : nat) (items : list bytes) (k : list bytes -> party)
| Broadcast (root : nat) (data : list bytes) (k : list bytes -> party).

(** What a call does is followed by the caller's own operations; an exception
    ends both. *)
Fixpoint party_bind (p : party) (f : list bytes -> party) : party :=
  match p with
  | Returned (Ok r) => f r
  | Returned e => Returned e
  | AllGather ms v k => AllGather ms v (fun vs => party_bind (k vs) f)
  | TwoParty peer target items k => TwoParty peer target items (fun r => party_bind (k r) f)
  | Broadcast root data k => Broadcast root data (fun d => party_bind (k d) f)
  end.

Definition value_at (w : list party) (i : nat) : Z := match w !! i with Some (AllGather _ v _) => v | _ => 0 end.
Definition at_gather (ms : list nat) (w : list party) (i : nat) : Prop := exists v k, w !! i = Some (AllGather ms v k).
Definition after_gather (ms : list nat) (w : list party) : list party :=
  imap (fun i p => match p with
    | AllGather _ _ k => if bool_decide (i ∈ ms) then k (map (value_at w) ms) else p
    | _ => p end) w.
Definition data_at (w : list party) (root : nat) : list bytes := match w !! root with Some (Broadcast _ d _) => d | _ => [] end.
Definition after_broadcast (root : nat) (w : list party) : list party :=
  map (fun p => match p with Broadcast _ _ k => k (data_at w root) | _ => p end) w.

Section world.
(** What the target of a two-party protocol with a peer gets: the ranks, then the items. *)
Context (psi2 : nat -> nat -> list bytes -> list bytes -> list bytes).

Inductive meet : list party -> list party -> Prop :=
| meet_gather ms w : ms <> [] -> (forall i, i ∈ ms -> at_gather ms w i) -> meet w (after_gather ms w)
| meet_two p q a b k k' w : p <> q -> w !! p = Some (TwoParty q p a k) -> w !! q = Some (TwoParty p p b k') ->
    meet w (<[p := k (psi2 p q a b)]> (<[q := k' []]> w))
| meet_broadcast root w : w <> [] -> (forall i x, w !! i = Some x -> exists d k, x = Broadcast root d k) ->
    meet w (after_broadcast root w).

Lemma after_gather_lookup ms w i : after_gather ms w !! i =
  match w !! i with Some (AllGather ms' v k) => Some (if bool_decide (i ∈ ms) then k (map (value_at w) ms) else AllGather ms' v k) | x => x end.
Proof. unfold after_gather. rewrite list_lookup_imap. destruct (w !! i) as [[]|]; done. Qed.

Lemma after_gather_other ms w i : i ∉ ms -> after_gather ms w !! i = w !! i.
Proof. intros Hi. rewrite after_gather_lookup. rewrite bool_decide_false by done. by destruct (w !! i) as [[]|]. Qed.
Lemma after_gather_member ms w i v k : i ∈ ms -> w !! i = Some (AllGather ms v k) ->
  after_gather ms w !! i = Some (k (map (value_at w) ms)).
Proof. intros Hi Hw. by rewrite after_gather_lookup, Hw, bool_decide_true. Qed.

Lemma value_at_ext w w' ms : (forall i, i ∈ ms -> w' !! i = w !! i) -> map (value_at w') ms = map (value_at w) ms.
Proof. intros E. apply map_ext_in. intros i Hi%list_elem_of_In. unfold value_at. by rewrite E. Qed.
(** A gathering group is not touched by what happens elsewhere. *)
Lemma at_gather_ext w w' ms : (forall i, i ∈ ms -> w' !! i = w !! i) -> (forall i, i ∈ ms -> at_gather ms w i) -> forall i, i ∈ ms -> at_gather ms w' i.
Proof. intros E Hg i Hi. unfold at_gather. rewrite E by done. by apply Hg. Qed.
Lemma after_gather_insert w ms i x : i ∉ ms -> after_gather ms (<[i := x]> w) = <[i := x]> (after_gather ms w).
Proof.
  intros Hi. assert (map (value_at (<[i := x]> w)) ms = map (value_at w) ms) as E.
  { apply value_at_ext. intros j Hj. rewrite list_lookup_insert_ne; [done|congruence]. }
  apply list_eq. intros j. rewrite after_gather_lookup, E. destruct (decide (j = i)) as [->|Hne].
  - rewrite !list_lookup_insert, after_gather_lookup. unfold after_gather. rewrite length_imap.
    repeat case_decide; try done; destruct x; rewrite ?bool_decide_false by done; done.
  - rewrite !list_lookup_insert_ne by done. by rewrite after_gather_lookup.
Qed.

(** Two groups that gather at the same time are disjoint, or the same. *)
Lemma gather_gather ms ms' w : ms <> [] -> ms' <> [] -> (forall i, i ∈ ms -> at_gather ms w i) -> (forall i, i ∈ ms' -> at_gather ms' w i) ->
  ms = ms' \/ (meet (after_gather ms w) (after_gather ms' (after_gather ms w)) /\
    after_gather ms' (after_gather ms w) = after_gather ms (after_gather ms' w)).
Proof.
  intros Hn Hn' Hg Hg'.
  assert (forall i, i ∈ ms -> i ∈ ms' -> ms = ms') as Hsame.
  { intros i Hi Hi'. destruct (Hg i Hi) as (v & k & E), (Hg' i Hi') as (v' & k' & E'). congruence. }
  destruct (decide (ms = ms')) as [|Hne]; [by left|right].
  assert (forall i, i ∈ ms' -> i ∉ ms) as Hd by (intros i Hi' Hi; eauto). assert (forall i, i ∈ ms -> i ∉ ms') as Hd' by (intros i Hi' Hi; eauto).
  split; [apply meet_gather; [done|]; apply (at_gather_ext w); [|done]; intros i Hi; apply after_gather_other; auto|].
  apply list_eq. intros i. rewrite !after_gather_lookup, (value_at_ext w (after_gather ms w) ms'), (value_at_ext w (after_gather ms' w) ms) by (intros j Hj; apply after_gather_other; auto).
  destruct (w !! i) as [[]|] eqn:E; try done.
  destruct (decide (i ∈ ms)) as [Hi|Hi].
  - destruct (Hg i Hi) as (v & k' & E'). rewrite (bool_decide_true (i ∈ ms)), (bool_decide_false (i ∈ ms')) by auto. rewrite E in E'. injection E' as -> -> ->.
    by destruct (k' _).
  - rewrite (bool_decide_false (i ∈ ms)) by done. destruct (decide (i ∈ ms')) as [Hi'|Hi'].
    + rewrite bool_decide_true by done. destruct (k _); try done; by rewrite bool_decide_false by done.
    + by rewrite !bool_decide_false by done.
Qed.
Lemma gather_two ms p q a b k k' w : ms <> [] -> (forall i, i ∈ ms -> at_gather ms w i) ->
  p <> q -> w !! p = Some (TwoParty q p a k) -> w !! q = Some (TwoParty p p b k') ->
  exists w', meet (after_gather ms w) w' /\ meet (<[p := k (psi2 p q a b)]> (<[q := k' []]> w)) w'.
Proof.
  intros Hn Hg Hpq Hp Hq.
  assert ((p ∉ ms) /\ (q ∉ ms)) as [Hp' Hq'] by (split; intros Hi; destruct (Hg _ Hi) as (v & kk & E); congruence).
  exists (after_gather ms (<[p := k (psi2 p q a b)]> (<[q := k' []]> w))). split.
  - rewrite !after_gather_insert by done. apply (meet_two p q a b k k'); [done|by rewrite after_gather_other..].
  - apply meet_gather; [done|]. apply (at_gather_ext w); [|done]. intros i Hi. rewrite !list_lookup_insert_ne; [done|congruence..].
Qed.
Lemma two_two p q a b k k' p' q' a' b' l l' w :
  p <> q -> w !! p = Some (TwoParty q p a k) -> w !! q = Some (TwoParty p p b k') ->
  p' <> q' -> w !! p' = Some (TwoParty q' p' a' l) -> w !! q' = Some (TwoParty p' p' b' l') ->
  <[p := k (psi2 p q a b)]> (<[q := k' []]> w) = <[p' := l (psi2 p' q' a' b')]> (<[q' := l' []]> w) \/
  exists w', meet (<[p := k (psi2 p q a b)]> (<[q := k' []]> w)) w' /\ meet (<[p' := l (psi2 p' q' a' b')]> (<[q' := l' []]> w)) w'.
Proof.
  intros Hpq Hp Hq Hpq' Hp' Hq'. destruct (decide (p = p')) as [<-|H1]; [left; rewrite Hp in Hp'; injection Hp' as <- <- <-; congruence|right].
  assert (p <> q' /\ q <> p' /\ q <> q') as (H2 & H3 & H4) by (split_and!; intros ->; congruence).
  exists (<[p := k (psi2 p q a b)]> (<[q := k' []]> (<[p' := l (psi2 p' q' a' b')]> (<[q' := l' []]> w)))). split.
  - rewrite (list_insert_insert_ne _ q p'), (list_insert_insert_ne _ q q'), (list_insert_insert_ne _ p p'), (list_insert_insert_ne _ p q') by done.
    apply (meet_two p' q' a' b' l l'); [done|rewrite !list_lookup_insert_ne by done; done..].
  - apply (meet_two p q a b k k'); [done|rewrite !list_lookup_insert_ne by done; done..].
Qed.

Lemma meet_diamond x y z : meet x y -> meet x z -> y = z \/ exists w, meet y w /\ meet z w.
Proof.
  assert (forall root w i, w <> [] -> (forall i x, w !! i = Some x -> exists d k, x = Broadcast root d k) ->
    forall x, w !! i = Some x -> exists d k, x = Broadcast root d k) as Hall by eauto.
  intros Hy Hz. destruct Hy as [ms w Hn Hg|p q a b k k' w Hpq Hp Hq|root w Hn Hb]; inversion Hz as [ms' w' Hn' Hg'|p' q' a' b' l l' w' Hpq' Hp' Hq'|root' w' Hn' Hb']; subst w'.
  - destruct (decide (ms = ms')) as [->|Hne]; [by left|right].
    destruct (gather_gather ms ms' w Hn Hn' Hg Hg') as [|[H1 E]]; [done|].
    destruct (gather_gather ms' ms w Hn' Hn Hg' Hg) as [|[H2 _]]; [done|].
    eexists. split; [exact H1|]. by rewrite E.
  - right. destruct (gather_two ms p' q' a' b' l l' w) as (w1 & H1 & H2); eauto.
  - exfalso. destruct ms as [|i ms]; [done|]. destruct (Hg i ltac:(left)) as (v & k & E). destruct (Hb' _ _ E) as (d & k' & ?). done.
  - right. destruct (gather_two ms' p q a b k k' w) as (w1 & H1 & H2); eauto.
  - by apply two_two.
  - exfalso. destruct (Hb' _ _ Hp) as (d & k1 & ?). done.
  - exfalso. destruct ms' as [|i ms]; [done|]. destruct (Hg' i ltac:(left)) as (v & k & E). destruct (Hb _ _ E) as (d & k' & ?). done.
  - exfalso. destruct (Hb _ _ Hp') as (d & k1 & ?). done.
  - left. destruct w as [|x w]; [done|]. destruct (Hb 0%nat x eq_refl) as (d & k & ->). destruct (Hb' 0%nat _ eq_refl) as (d' & k' & [= -> _ _]). done.
Qed.

(** Nobody moves once everyone has returned. *)
Lemma returned_nf w : Forall (fun p => exists r, p = Returned r) w -> nf meet w.
Proof.
  intros Hr [w' Hm]. rewrite Forall_lookup in Hr. destruct Hm as [ms w Hn Hg|p q a b k k' w Hpq Hp Hq|root w Hn Hb].
  - destruct ms as [|i ms]; [done|]. destruct (Hg i ltac:(left)) as (v & k & E). by destruct (Hr _ _ E).
  - by destruct (Hr _ _ Hp).
  - destruct w as [|x w]; [done|]. destruct (Hb 0%nat x eq_refl) as (d & k & ->). by destruct (Hr 0%nat _ eq_refl).
Qed.

(** One run in which all return is enough: every run is finite and can be
    continued to the same end. *)
Lemma all_runs w t : rtc meet w t -> Forall (fun p => exists r, p = Returned r) t ->
  sn meet w /\ forall w', rtc meet w w' -> rtc meet w' t.
Proof.
  intros [n Hn]%rtc_nsteps Ht%returned_nf. split; [by eapply (descent_terminates meet meet_diamond)|].
  intros w' [k Hk]%rtc_nsteps. apply rtc_nsteps. eexists. exact (proj2 (random_descent meet meet_diamond n w t Hn Ht k w' Hk)).
Qed.
End world.
