(* ===== verification/Nparty.v ===== *)
(** * PSI of N parties (psi/legacy/nparty_psi, base_operator, memory_psi; psi/utils/sync)

    The parties are sorted by the size of their input, the master first; in each
    level the first half runs a two-party PSI with the second half, whose members
    then leave.  [MemoryPsi_Run] is what one party does, as the collective
    operations it calls (Collective).

    The two-party protocol and the gathering of sizes are collective operations;
    the link library, the names of sub-worlds and the tags are left out. *)
From S2P Require Import Prelude EcStore Collective.

Definition lift {A} (r : res A) (f : A -> party) : party :=
  match r with Ok x => f x | Throw => Returned Throw | UB => Returned UB end.

(** ** nparty_psi.h, nparty_psi.cc *)
Record NpartyOptions := mkNparty {
  WorldSize : nat;
  Rank : nat;
  master_rank : nat
}.

Definition NpartyPsiOperator_new (o : NpartyOptions) : res NpartyOptions := _ ← enforce (2 <=? WorldSize o)%nat; Ok o.

(** [operator<] of [std::pair<size_t, size_t>], as an order. *)
Definition pair_le (x y : Z * nat) : Prop := x.1 < y.1 \/ x.1 = y.1 /\ (x.2 <= y.2)%nat.
#[export] Instance pair_le_dec : RelDecision pair_le.
Proof. intros x y. unfold pair_le. apply _. Defined.

Definition AllRanks (o : NpartyOptions) : list nat := seq 0 (WorldSize o).

(** The part after the sizes are gathered. *)
Definition GetAllPartyItemSizeVec (o : NpartyOptions) (gather_size : list Z) : res (list (Z * nat)) :=
  _ ← enforce (length gather_size =? WorldSize o)%nat;
  party_size_rank_vec ← for_ (WorldSize o) (fun idx vec => s ← vget gather_size idx; Ok (vec ++ [(s, idx)])) [];
  vec ← (if negb (master_rank o =? 0)%nat then
           x ← vget party_size_rank_vec 0; y ← vget party_size_rank_vec (master_rank o);
           vec ← vset party_size_rank_vec 0 y; vset vec (master_rank o) x
         else Ok party_size_rank_vec);
  match vec with [] => UB | first :: others => Ok (first :: merge_sort pair_le others) end.

Section rank.
Context (o : NpartyOptions).

(** The peer and the target of this party in a level. *)
Fixpoint GetPsiRank_loop (n idx : nat) (vec : list (Z * nat)) : res (nat * nat) :=
  match n with
  | O => Throw
  | S n' =>
      x ← vget vec idx;
      y ← vget vec (length vec - 1 - idx);
      if (x.2 =? Rank o)%nat then Ok (y.2, x.2)
      else if (y.2 =? Rank o)%nat then Ok (x.2, x.2)
      else GetPsiRank_loop n' (S idx) vec
  end.
Definition GetPsiRank (vec : list (Z * nat)) : res (nat * nat) :=
  if Nat.odd (length vec) then
    x ← vget vec (length vec / 2);
    if (x.2 =? Rank o)%nat then Ok (Rank o, Rank o) else GetPsiRank_loop (length vec / 2) 0 vec
  else GetPsiRank_loop (length vec / 2) 0 vec.

Definition Run2PartyPsi (items : list bytes) (peer_rank target_rank : nat) (k : list bytes -> party) : party :=
  if (peer_rank =? Rank o)%nat then k items else TwoParty peer_rank target_rank items k.

Definition finish_message : list bytes := [[102; 105; 110; 105; 115; 104]].
(** The loop over the gathered sizes stops at the first zero. *)
Fixpoint min_intersection_size (m : Z) (sizes : list Z) : Z :=
  match sizes with
  | [] => m
  | s :: sizes' => let m := Z.min m s in if m =? 0 then m else min_intersection_size m sizes'
  end.

(** One turn of the loop over the levels: after the two-party PSI, then the turn
    with what follows it as [next]. *)
Definition level_end (next : list (Z * nat) -> list bytes -> party) (inputs_size : Z) (vec : list (Z * nat))
    (intersection : list bytes) : party :=
  let erase_pos := ((length vec + 1) / 2)%nat in
  if existsb (fun x => Rank o =? x.2)%nat (drop erase_pos vec) then
    Broadcast (master_rank o) [] (fun _ => Returned (Ok []))
  else
    let vec := take erase_pos vec in
    AllGather (map snd vec) (zlen intersection) (fun sizes =>
    if min_intersection_size inputs_size sizes =? 0 then
      Broadcast (master_rank o) (if (Rank o =? master_rank o)%nat then finish_message else []) (fun _ => Returned (Ok []))
    else if (length vec =? 1)%nat then
      Broadcast (master_rank o) finish_message (fun _ => Returned (Ok (std_sort intersection)))
    else next vec intersection).
Fixpoint levels (level_num : nat) (inputs_size : Z) (vec : list (Z * nat)) (intersection : list bytes) : party :=
  match level_num with
  | O => Returned (Ok [])
  | S level_num' =>
      lift (GetPsiRank vec) (fun '(peer_rank, target_rank) =>
      Run2PartyPsi intersection peer_rank target_rank (level_end (levels level_num' inputs_size) inputs_size vec))
  end.

(** [std::log2(absl::bit_ceil(n))] of an exact power of two. *)
Definition level_num (n : nat) : nat := Nat.log2_up n.

Definition NpartyPsiOperator_OnRun (inputs : list bytes) : party :=
  lift (NpartyPsiOperator_new o) (fun _ =>
  AllGather (AllRanks o) (zlen inputs) (fun gather_size =>
  lift (GetAllPartyItemSizeVec o gather_size) (fun vec =>
  lift (x ← vget vec 0; if x.1 =? 0 then Ok true else y ← vget vec 1; Ok (y.1 =? 0)) (fun zero : bool =>
  if zero then Returned (Ok []) else levels (level_num (length vec)) (zlen inputs) vec inputs)))).

(** ** sync.h, sync.cc *)
(** The rounds in which some party has not finished leave nothing behind; the
    last one gathers the finished flag of all. *)
Definition SyncWait (fut : party) (k : list bytes -> party) : party :=
  party_bind fut (fun res => AllGather (AllRanks o) 1 (fun _ => k res)).

Definition BroadcastResult (res : list bytes) : party :=
  AllGather (AllRanks o) (zlen res) (fun res_size_list =>
  lift (for_ (length res_size_list) (fun i '(max_size, broadcast_rank) =>
          s ← vget res_size_list i;
          if 0 <? s then _ ← enforce (broadcast_rank =? 0)%nat; Ok (Z.max max_size s, i)
          else Ok (Z.max max_size s, broadcast_rank)) (zlen res, 0%nat)) (fun '(max_size, broadcast_rank) =>
  if max_size =? 0 then Returned (Ok res)
  else Broadcast broadcast_rank res (fun recv => Returned (Ok (if bool_decide (res = []) then recv else res))))).

(** ** base_operator.cc, memory_psi.cc *)
Definition PsiBaseOperator_Run (OnRun : party) (broadcast_result : bool) : party :=
  SyncWait OnRun (fun res => if broadcast_result then BroadcastResult res else Returned (Ok res)).

Definition MemoryPsi_CheckOptions : res unit := enforce (master_rank o <? WorldSize o)%nat.
Definition MemoryPsi_Run (inputs : list bytes) (broadcast_result : bool) : party :=
  lift MemoryPsi_CheckOptions (fun _ =>
  AllGather (AllRanks o) (zlen inputs) (fun inputs_size_list =>
  if foldl Z.min (zlen inputs) inputs_size_list =? 0 then Returned (Ok [])
  else PsiBaseOperator_Run (NpartyPsiOperator_OnRun inputs) broadcast_result)).
End rank.

(** Everyone starts. *)
Definition parties (n master : nat) (items : nat -> list bytes) (broadcast_result : bool) : list party :=
  map (fun i => MemoryPsi_Run (mkNparty n i master) (items i) broadcast_result) (seq 0 n).
