(* ===== verification/NpartyProofs.v ===== *)
(** * PSI of N parties: every schedule ends with the intersection

    One run to the end, level by level; by Collective it stands for all runs. *)
From S2P Require Import Prelude EcStore Collective Nparty.

(** ** Positions *)
Fixpoint index_of (x : nat) (l : list nat) : nat :=
  match l with [] => O | y :: l' => if (y =? x)%nat then O else S (index_of x l') end.
Lemma index_of_lookup x l : x ∈ l -> l !! index_of x l = Some x.
Proof.
  induction l as [|y l IH]; [intros Hx; by apply not_elem_of_nil in Hx|]. cbn [index_of]. intros [->|Hx]%elem_of_cons.
  - by rewrite Nat.eqb_refl.
  - destruct (Nat.eqb_spec y x) as [->|]; [done|]. by apply IH.
Qed.
Lemma index_of_at l p x : NoDup l -> l !! p = Some x -> index_of x l = p.
Proof. intros Hl Hp. apply (NoDup_lookup l _ _ x Hl); [|done]. apply index_of_lookup. by eapply list_elem_of_lookup_2. Qed.

(** ** Collective operations of all parties *)
Section all.
Context (psi2 : nat -> nat -> list bytes -> list bytes -> list bytes) (n : nat) (Hn : (0 < n)%nat).
Abbreviation world f := (map f (seq 0 n)).

Lemma world_lookup {A} (f : nat -> A) i : (i < n)%nat -> world f !! i = Some (f i).
Proof. clear Hn. intros Hi. rewrite lookup_map, lookup_seq_lt by done. done. Qed.
Lemma world_lookup_Some {A} (f : nat -> A) i x : world f !! i = Some x -> (i < n)%nat /\ x = f i.
Proof. clear Hn. rewrite lookup_map. intros (j & Hj & ->)%fmap_Some. apply lookup_seq in Hj as [-> Hi]. done. Qed.
Lemma world_ext {A} (f : nat -> A) (w : list A) : length w = n -> (forall i, (i < n)%nat -> w !! i = Some (f i)) -> w = world f.
Proof.
  clear Hn. intros Hl Hw. apply list_eq. intros i. destruct (decide (i < n)%nat) as [Hi|Hi]; [by rewrite world_lookup, Hw|].
  rewrite !(lookup_ge_None_2 _ i); [done|rewrite length_map, length_seq; lia|lia].
Qed.

Lemma meet_group ms (v : nat -> Z) (k : nat -> list Z -> party) (w : nat -> party) : ms <> [] -> (forall i, i ∈ ms -> (i < n)%nat) ->
  (forall i, (i < n)%nat -> w i = if bool_decide (i ∈ ms) then AllGather ms (v i) (k i) else w i) ->
  meet psi2 (world w) (world (fun i => if bool_decide (i ∈ ms) then k i (map v ms) else w i)).
Proof.
  clear Hn. intros Hms Hlt Hw. assert (forall i, i ∈ ms -> world w !! i = Some (AllGather ms (v i) (k i))) as Hat.
  { intros i Hi. rewrite world_lookup, Hw, bool_decide_true by auto. done. }
  assert (world (fun i => if bool_decide (i ∈ ms) then k i (map v ms) else w i) = after_gather ms (world w)) as ->.
  { symmetry. apply world_ext; [unfold after_gather; by rewrite length_imap, length_map, length_seq|]. intros i Hi.
    assert (map (value_at (world w)) ms = map v ms) as E.
    { apply map_ext_in. intros j Hj%list_elem_of_In. unfold value_at. by rewrite Hat. }
    case_bool_decide as Hm; [rewrite (after_gather_member _ _ _ _ _ Hm (Hat i Hm)); by rewrite E|].
    rewrite after_gather_other by done. by apply world_lookup. }
  apply meet_gather; [done|]. intros i Hi. eexists _, _. by apply Hat.
Qed.
Lemma meet_all (v : nat -> Z) (k : nat -> list Z -> party) :
  meet psi2 (world (fun i => AllGather (seq 0 n) (v i) (k i))) (world (fun i => k i (map v (seq 0 n)))).
Proof using Hn.
  assert (world (fun i => k i (map v (seq 0 n))) = world (fun i => if bool_decide (i ∈ seq 0 n) then k i (map v (seq 0 n)) else AllGather (seq 0 n) (v i) (k i))) as ->.
  { apply map_ext_in. intros i Hi%list_elem_of_In. by rewrite bool_decide_true. }
  apply meet_group; [by destruct n; [lia|]|intros i [_ ?]%elem_of_seq; lia|intros i _; by case_bool_decide].
Qed.
Lemma meet_broadcast_all root (d : nat -> list bytes) (k : nat -> list bytes -> party) : (root < n)%nat ->
  meet psi2 (world (fun i => Broadcast root (d i) (k i))) (world (fun i => k i (d root))).
Proof using Hn.
  intros Hr. assert (world (fun i => k i (d root)) = after_broadcast root (world (fun i => Broadcast root (d i) (k i)))) as ->.
  { unfold after_broadcast, data_at. rewrite world_lookup by done. by rewrite map_map. }
  apply meet_broadcast; [by destruct n; [lia|]|]. intros i x [_ ->]%world_lookup_Some. by eexists _, _.
Qed.
Lemma meet_pair (w : nat -> party) p q a b k k' : (p < n)%nat -> (q < n)%nat -> p <> q ->
  w p = TwoParty q p a k -> w q = TwoParty p p b k' ->
  meet psi2 (world w) (world (fun i => if decide (i = p) then k (psi2 p q a b) else if decide (i = q) then k' [] else w i)).
Proof.
  clear Hn. intros Hp Hq Hpq Ep Eq.
  assert (world (fun i => if decide (i = p) then k (psi2 p q a b) else if decide (i = q) then k' [] else w i) =
    <[p := k (psi2 p q a b)]> (<[q := k' []]> (world w))) as ->.
  { symmetry. apply world_ext; [by rewrite !length_insert, length_map, length_seq|]. intros i Hi.
    destruct (decide (i = p)) as [->|Hip]; [apply list_lookup_insert_eq; rewrite length_insert, length_map, length_seq; done|].
    rewrite list_lookup_insert_ne by done. destruct (decide (i = q)) as [->|Hiq]; [apply list_lookup_insert_eq; by rewrite length_map, length_seq|].
    rewrite list_lookup_insert_ne by done. by apply world_lookup. }
  apply (meet_two psi2 p q a b k k'); [done|by rewrite world_lookup, ?Ep, ?Eq..].
Qed.
End all.

(** ** One level *)
Section level.
Context (psi2 : nat -> nat -> list bytes -> list bytes -> list bytes) (n master : nat) (items : nat -> list bytes).
Context (f : nat -> list bytes -> party).
Context (vec : list (Z * nat)) (cur : nat -> list bytes).
Abbreviation o i := (mkNparty n i master).
Abbreviation ranks := (map snd vec).
Abbreviation N := (length vec).
Abbreviation world w := (map w (seq 0 n)).
Context (Hnd : NoDup ranks) (Hlt : forall i, i ∈ ranks -> (i < n)%nat) (HN : (2 <= N)%nat).

Definition rank_at (p : nat) : nat := nth p ranks O.
Definition pos (i : nat) : nat := index_of i ranks.
Lemma rank_at_lookup p : (p < N)%nat -> ranks !! p = Some (rank_at p).
Proof. intros Hp. unfold rank_at. rewrite nth_lookup. destruct (lookup_lt_is_Some_2 ranks p) as [x ->]; [by rewrite length_map|done]. Qed.
Lemma vec_at p : (p < N)%nat -> exists s, vget vec p = Ok (s, rank_at p).
Proof.
  intros Hp. pose proof (rank_at_lookup p Hp) as E. rewrite lookup_map in E. apply fmap_Some in E as ([s r] & E & ->).
  exists s. unfold vget. by rewrite E.
Qed.
Lemma pos_rank p : (p < N)%nat -> pos (rank_at p) = p.
Proof using Hnd. intros Hp. apply index_of_at; [done|]. by apply rank_at_lookup. Qed.
Lemma rank_pos i : i ∈ ranks -> rank_at (pos i) = i /\ (pos i < N)%nat.
Proof.
  intros Hi. pose proof (index_of_lookup i ranks Hi) as E. assert (pos i < N)%nat as Hp by (apply lookup_lt_Some in E; by rewrite length_map in E).
  split; [|done]. pose proof (rank_at_lookup (pos i) Hp) as E'. unfold pos in *. congruence.
Qed.
Lemma rank_at_in p : (p < N)%nat -> rank_at p ∈ ranks.
Proof. intros Hp. eapply list_elem_of_lookup_2. by apply rank_at_lookup. Qed.
Lemma rank_at_inj p q : (p < N)%nat -> (q < N)%nat -> rank_at p = rank_at q -> p = q.
Proof using Hnd. intros Hp Hq E. rewrite <- (pos_rank p Hp), <- (pos_rank q Hq). by rewrite E. Qed.

(** The position it meets with. *)
Abbreviation mirror p := (N - 1 - p)%nat.

Lemma GetPsiRank_loop_ok p : (p < N / 2)%nat -> forall i, i = rank_at p \/ i = rank_at (mirror p) ->
  forall m idx, (idx + m = N / 2)%nat -> (idx <= p)%nat ->
  GetPsiRank_loop (o i) m idx vec = Ok (if (rank_at p =? i)%nat then (rank_at (mirror p), rank_at p) else (rank_at p, rank_at p)).
Proof using Hnd HN.
  intros Hp i Hi m. assert (2 * (N / 2) <= N)%nat as H2 by (pose proof (Nat.div_mod_eq N 2); lia).
  induction m as [|m IH]; intros idx Hm Hidx; [lia|]. cbn [GetPsiRank_loop].
  destruct (vec_at idx ltac:(lia)) as (s & ->), (vec_at (mirror idx) ltac:(lia)) as (s' & ->). run. cbn [snd Rank].
  destruct (decide (idx = p)) as [->|Hne].
  - destruct (Nat.eqb_spec (rank_at p) i) as [->|Hip]; [done|]. destruct Hi as [->| ->]; [done|]. by rewrite Nat.eqb_refl.
  - assert (forall q, (q = p \/ q = mirror p) -> rank_at idx <> rank_at q /\ rank_at (mirror idx) <> rank_at q) as Hd.
    { intros q Hq. split; intros E%rank_at_inj; destruct Hq; lia. }
    assert (rank_at idx <> i /\ rank_at (mirror idx) <> i) as [Hd1 Hd2] by (destruct Hi as [->| ->]; apply Hd; auto).
    rewrite !(proj2 (Nat.eqb_neq _ _)) by done. apply IH; lia.
Qed.
Lemma GetPsiRank_ok i : i ∈ ranks ->
  GetPsiRank (o i) vec = Ok (if (mirror (pos i) =? pos i)%nat then (i, i)
    else (rank_at (mirror (pos i)), rank_at (Nat.min (pos i) (mirror (pos i))))).
Proof using Hnd HN.
  intros Hi. destruct (rank_pos i Hi) as [Er Hp]. unfold GetPsiRank.
  pose proof (Nat.div_mod_eq N 2) as Hdm. pose proof (Nat.mod_upper_bound N 2 ltac:(lia)) as Hub.
  assert (mirror (pos i) <> pos i -> GetPsiRank_loop (o i) (N / 2) 0 vec = Ok (rank_at (mirror (pos i)), rank_at (Nat.min (pos i) (mirror (pos i))))) as Hloop.
  { intros Hne. destruct (decide (pos i < N / 2)%nat) as [Hlow|Hhigh].
    - rewrite (GetPsiRank_loop_ok (pos i) Hlow i (or_introl (eq_sym Er)) (N / 2) 0) by lia.
      rewrite (proj2 (Nat.eqb_eq _ _)) by done. do 2 f_equal. f_equal. lia.
    - rewrite (GetPsiRank_loop_ok (mirror (pos i)) ltac:(lia) i ltac:(right; rewrite <- Er at 1; f_equal; lia) (N / 2) 0) by lia.
      rewrite (proj2 (Nat.eqb_neq _ _)); [do 2 f_equal; f_equal; lia|]. intros E. assert (rank_at (mirror (pos i)) = rank_at (pos i)) as E'%rank_at_inj by congruence; lia. }
  destruct (Nat.odd N) eqn:Eo.
  - assert (N mod 2 = 1)%nat as Hm by (apply Nat.odd_spec in Eo as [h E]; lia).
    destruct (vec_at (N / 2) ltac:(lia)) as (s & ->). run. cbn [snd Rank].
    destruct (Nat.eqb_spec (rank_at (N / 2)) i) as [E|Hne].
    + assert (pos i = N / 2)%nat as -> by (rewrite <- E; apply pos_rank; lia). rewrite (proj2 (Nat.eqb_eq _ _)) by lia. done.
    + assert (mirror (pos i) <> pos i) as Hmp by (intros Hmp; apply Hne; transitivity (rank_at (pos i)); [f_equal; lia|done]).
      rewrite (proj2 (Nat.eqb_neq _ _)) by done. by apply Hloop.
  - assert (N mod 2 = 0)%nat as Hm by (destruct (Nat.Even_or_Odd N) as [[h E]|Ho]; [lia|apply Nat.odd_spec in Ho; congruence]).
    rewrite (proj2 (Nat.eqb_neq (mirror (pos i)) (pos i))) by lia. apply Hloop. lia.
Qed.

(** What a party holds after the two-party PSI of the level. *)
Definition next_items (i : nat) : list bytes :=
  let p := pos i in let q := mirror p in
  if (p <? q)%nat then psi2 i (rank_at q) (cur i) (cur (rank_at q)) else if (p =? q)%nat then cur i else [].

Context (L : nat).
Definition start_level (i : nat) : party := party_bind (levels (o i) (S L) (zlen (items i)) vec (cur i)) (f i).
Definition end_level (i : nat) : party :=
  party_bind (level_end (o i) (levels (o i) L (zlen (items i))) (zlen (items i)) vec (next_items i)) (f i).
Definition left_level (i : nat) : party := Broadcast master [] (fun _ => f i []).
(** The first [j] pairs have met. *)
Definition met (j i : nat) : party :=
  if bool_decide (i ∈ ranks) then
    if (pos i <? j)%nat || (mirror (pos i) <? j)%nat then end_level i else start_level i
  else left_level i.

Lemma start_level_middle i : i ∈ ranks -> mirror (pos i) = pos i -> start_level i = end_level i.
Proof using Hnd HN.
  intros Hi Hm. unfold start_level, end_level. cbn [levels]. rewrite GetPsiRank_ok by done. rewrite (proj2 (Nat.eqb_eq _ _)) by done.
  cbn [lift]. unfold Run2PartyPsi. cbn [Rank]. rewrite Nat.eqb_refl. unfold next_items.
  rewrite Hm, Nat.ltb_irrefl, Nat.eqb_refl. done.
Qed.
Lemma start_level_pair p : (p < mirror p)%nat ->
  (exists k, start_level (rank_at p) = TwoParty (rank_at (mirror p)) (rank_at p) (cur (rank_at p)) k /\
     k (psi2 (rank_at p) (rank_at (mirror p)) (cur (rank_at p)) (cur (rank_at (mirror p)))) = end_level (rank_at p)) /\
  (exists k, start_level (rank_at (mirror p)) = TwoParty (rank_at p) (rank_at p) (cur (rank_at (mirror p))) k /\
     k [] = end_level (rank_at (mirror p))).
Proof using Hnd HN.
  intros Hp. assert (mirror (mirror p) = p) as Hmm by lia. split.
  - eexists. unfold start_level, end_level. cbn [levels]. rewrite (GetPsiRank_ok (rank_at p)) by (apply rank_at_in; lia). rewrite pos_rank by lia.
    rewrite (proj2 (Nat.eqb_neq _ _)) by lia. cbn [lift]. unfold Run2PartyPsi. cbn [Rank].
    rewrite (proj2 (Nat.eqb_neq (rank_at (mirror p)) (rank_at p))) by (intros E%rank_at_inj; lia).
    rewrite Nat.min_l by lia. split; [reflexivity|]. cbn beta. unfold next_items. rewrite pos_rank by lia. by rewrite (proj2 (Nat.ltb_lt _ _)) by lia.
  - eexists. unfold start_level, end_level. cbn [levels]. rewrite (GetPsiRank_ok (rank_at (mirror p))) by (apply rank_at_in; lia). rewrite pos_rank by lia.
    rewrite Hmm. rewrite (proj2 (Nat.eqb_neq _ _)) by lia. cbn [lift]. unfold Run2PartyPsi. cbn [Rank].
    rewrite (proj2 (Nat.eqb_neq (rank_at p) (rank_at (mirror p)))) by (intros E%rank_at_inj; lia).
    rewrite Nat.min_r by lia. split; [reflexivity|]. cbn beta. unfold next_items. rewrite pos_rank, Hmm by lia.
    rewrite (proj2 (Nat.ltb_ge _ _)) by lia. by rewrite (proj2 (Nat.eqb_neq _ _)) by lia.
Qed.
Lemma meet_pairs j : (j <= N / 2)%nat -> rtc (meet psi2) (world (met 0)) (world (met j)).
Proof using Hnd HN Hlt.
  assert (2 * (N / 2) <= N)%nat as H2 by (pose proof (Nat.div_mod_eq N 2); lia).
  induction j as [|j IH]; intros Hj; [done|]. eapply rtc_r; [apply IH; lia|].
  destruct (start_level_pair j ltac:(lia)) as ((k & E & Ek) & (k' & E' & Ek')).
  assert (forall i, i = rank_at j \/ i = rank_at (mirror j) -> met j i = start_level i) as Hs.
  { intros i Hi. unfold met. rewrite bool_decide_true by (destruct Hi as [->| ->]; apply rank_at_in; lia).
    destruct Hi as [->| ->]; rewrite pos_rank by lia; rewrite !(proj2 (Nat.ltb_ge _ _)) by lia; done. }
  assert (world (met (S j)) = world (fun i => if decide (i = rank_at j) then k (psi2 (rank_at j) (rank_at (mirror j)) (cur (rank_at j)) (cur (rank_at (mirror j))))
    else if decide (i = rank_at (mirror j)) then k' [] else met j i)) as ->.
  { apply map_ext. intros i. rewrite Ek, Ek'. destruct (decide (i = rank_at j)) as [->|H1].
    - unfold met. rewrite bool_decide_true by (apply rank_at_in; lia). rewrite pos_rank by lia. by rewrite (proj2 (Nat.ltb_lt j (S j))) by lia.
    - destruct (decide (i = rank_at (mirror j))) as [->|H3].
      + unfold met. rewrite bool_decide_true by (apply rank_at_in; lia). rewrite pos_rank by lia.
        rewrite (proj2 (Nat.ltb_lt (mirror (mirror j)) (S j))) by lia. by rewrite orb_true_r.
      + unfold met. case_bool_decide as Hi; [|done]. destruct (rank_pos i Hi) as [Er Hp].
        assert (pos i <> j /\ mirror (pos i) <> j) as [Hn1 Hn2] by (split; intros Ej; [apply H1|apply H3]; rewrite <- Er; f_equal; lia).
        assert (((pos i <? S j) || (mirror (pos i) <? S j))%nat = ((pos i <? j) || (mirror (pos i) <? j))%nat) as ->; [|done].
        f_equal; apply eq_true_iff_eq; rewrite !Nat.ltb_lt; lia. }
  apply meet_pair with (a := cur (rank_at j)) (b := cur (rank_at (mirror j))).
  - apply Hlt, rank_at_in. lia.
  - apply Hlt, rank_at_in. lia.
  - intros Er%rank_at_inj; lia.
  - rewrite Hs by auto. exact E.
  - rewrite Hs by auto. exact E'.
Qed.
(** All pairs have met. *)
Lemma level_pairs : rtc (meet psi2) (world (fun i => if bool_decide (i ∈ ranks) then start_level i else left_level i))
  (world (fun i => if bool_decide (i ∈ ranks) then end_level i else left_level i)).
Proof using Hnd HN Hlt.
  assert (world (fun i => if bool_decide (i ∈ ranks) then start_level i else left_level i) = world (met 0)) as ->.
  { apply map_ext. intros i. unfold met. by case_bool_decide. }
  assert (world (fun i => if bool_decide (i ∈ ranks) then end_level i else left_level i) = world (met (N / 2))) as ->; [|by apply meet_pairs].
  apply map_ext. intros i. unfold met. case_bool_decide as Hi; [|done]. destruct (rank_pos i Hi) as [Er Hp].
  pose proof (Nat.div_mod_eq N 2). pose proof (Nat.mod_upper_bound N 2 ltac:(lia)).
  destruct ((pos i <? N / 2)%nat || (mirror (pos i) <? N / 2)%nat) eqn:E; [done|].
  apply orb_false_iff in E as [E1%Nat.ltb_ge E2%Nat.ltb_ge]. symmetry. apply start_level_middle; [done|lia].
Qed.

(** The parties that stay gather the sizes of what they have. *)
Abbreviation kept_num := ((N + 1) / 2)%nat.
Abbreviation kept_ranks := (map snd (take kept_num vec)).
Definition sizes : list Z := map (fun j => zlen (next_items j)) kept_ranks.
Definition gathered (i : nat) : party := party_bind
  (if min_intersection_size (zlen (items i)) sizes =? 0 then
     Broadcast master (if (i =? master)%nat then finish_message else []) (fun _ => Returned (Ok []))
   else if (length (take kept_num vec) =? 1)%nat then Broadcast master finish_message (fun _ => Returned (Ok (std_sort (next_items i))))
   else levels (o i) L (zlen (items i)) (take kept_num vec) (next_items i)) (f i).

Lemma kept_num_bounds : (1 <= kept_num < N)%nat /\ (kept_num + N / 2 = N)%nat.
Proof using HN.
  pose proof (Nat.div_mod_eq N 2). pose proof (Nat.mod_upper_bound N 2 ltac:(lia)).
  pose proof (Nat.div_mod_eq (N + 1) 2). pose proof (Nat.mod_upper_bound (N + 1) 2 ltac:(lia)). lia.
Qed.
Lemma kept_ranks_spec i : i ∈ kept_ranks <-> i ∈ ranks /\ (pos i < kept_num)%nat.
Proof using Hnd HN.
  pose proof kept_num_bounds as [Hk _]. rewrite <- firstn_map. split.
  - intros (p & Hp & Hpk)%elem_of_take. assert (p < N)%nat as HpN by (apply lookup_lt_Some in Hp; by rewrite length_map in Hp).
    assert (i = rank_at p) as -> by (rewrite (rank_at_lookup p HpN) in Hp; congruence). rewrite pos_rank by done. split; [by apply rank_at_in|done].
  - intros [Hi Hp]. apply elem_of_take. exists (pos i). split; [by apply index_of_lookup|done].
Qed.
Lemma leaves i : i ∈ ranks -> existsb (fun x => i =? x.2)%nat (drop kept_num vec) = negb (bool_decide (i ∈ kept_ranks)).
Proof using Hnd HN.
  intros Hi. destruct (rank_pos i Hi) as [Er Hp]. case_bool_decide as Hk.
  - apply kept_ranks_spec in Hk as [_ Hk]. apply not_true_iff_false. intros (x & Hx%list_elem_of_In & Ex%Nat.eqb_eq)%existsb_exists.
    apply list_elem_of_lookup in Hx as (p & Hx). rewrite lookup_drop in Hx.
    assert (ranks !! (kept_num + p)%nat = Some i) as Hl by (rewrite lookup_map, Hx; by subst).
    pose proof (index_of_at ranks _ i Hnd Hl) as Hp'. fold (pos i) in Hp'. lia.
  - apply existsb_exists. assert (kept_num <= pos i)%nat as Hge by (destruct (decide (pos i < kept_num)%nat); [|lia]; destruct Hk; by apply kept_ranks_spec).
    pose proof (index_of_lookup i ranks Hi) as E. rewrite lookup_map in E. apply fmap_Some in E as (x & E & Ex). exists x. rewrite Nat.eqb_eq. split; [|done].
    apply list_elem_of_In, list_elem_of_lookup. exists (pos i - kept_num)%nat. rewrite lookup_drop. replace (kept_num + (pos i - kept_num))%nat with (pos i) by lia. done.
Qed.
Lemma level_gather : meet psi2 (world (fun i => if bool_decide (i ∈ ranks) then end_level i else left_level i))
  (world (fun i => if bool_decide (i ∈ kept_ranks) then gathered i else left_level i)).
Proof using Hnd HN Hlt.
  pose proof kept_num_bounds as [Hk _].
  set (w := fun i => if bool_decide (i ∈ ranks) then end_level i else left_level i).
  assert (forall i, i ∉ kept_ranks -> w i = left_level i) as Hleft.
  { intros i Hi. unfold w. case_bool_decide as Hr; [|done]. unfold end_level, level_end. cbn [Rank].
    rewrite leaves, bool_decide_false by done. done. }
  set (k := fun i (szs : list Z) => party_bind
    (if min_intersection_size (zlen (items i)) szs =? 0 then
       Broadcast master (if (i =? master)%nat then finish_message else []) (fun _ => Returned (Ok []))
     else if (length (take kept_num vec) =? 1)%nat then Broadcast master finish_message (fun _ => Returned (Ok (std_sort (next_items i))))
     else levels (o i) L (zlen (items i)) (take kept_num vec) (next_items i)) (f i)).
  assert (world (fun i => if bool_decide (i ∈ kept_ranks) then gathered i else left_level i) =
    world (fun i => if bool_decide (i ∈ kept_ranks) then k i (map (fun j => zlen (next_items j)) kept_ranks) else w i)) as ->.
  { apply map_ext. intros i. case_bool_decide as Hi; [done|]. by rewrite Hleft. }
  apply (meet_group psi2 n kept_ranks (fun j => zlen (next_items j)) k w).
  - intros E%(f_equal length). rewrite length_map, length_take in E. cbn [length] in E. lia.
  - intros i [Hi _]%kept_ranks_spec. by apply Hlt.
  - intros i _. case_bool_decide as Hi; [|done]. unfold w. apply kept_ranks_spec in Hi as Hi'. destruct Hi' as [Hr _].
    rewrite bool_decide_true by done. unfold end_level, level_end. cbn [Rank]. rewrite leaves, bool_decide_true by done. done.
Qed.

(** An item is left over in all the parties that stay if all had it. *)
Context (Hpsi : forall p q a b, p <> q -> p ∈ ranks -> q ∈ ranks -> a = cur p -> b = cur q -> psi2 p q a b = filter (fun x => x ∈ b) a).
Lemma next_items_common x : (forall i, i ∈ kept_ranks -> x ∈ next_items i) <-> (forall i, i ∈ ranks -> x ∈ cur i).
Proof using Hnd HN Hpsi.
  pose proof kept_num_bounds as [Hk Hk2]. pose proof (Nat.div_mod_eq N 2). pose proof (Nat.mod_upper_bound N 2 ltac:(lia)).
  assert (forall p, (p < mirror p)%nat -> (p < N)%nat -> next_items (rank_at p) = filter (fun y => y ∈ cur (rank_at (mirror p))) (cur (rank_at p))) as Hnext.
  { intros p Hp HpN. unfold next_items. rewrite pos_rank, (proj2 (Nat.ltb_lt _ _)) by lia. apply Hpsi; try done; [intros E%rank_at_inj; lia|apply rank_at_in; lia..]. }
  assert (forall p, p = mirror p -> (p < N)%nat -> next_items (rank_at p) = cur (rank_at p)) as Hmid.
  { intros p Hp HpN. unfold next_items. rewrite pos_rank by done. rewrite (proj2 (Nat.ltb_ge _ _)), (proj2 (Nat.eqb_eq _ _)) by lia. done. }
  assert (forall p, (p < kept_num)%nat -> rank_at p ∈ kept_ranks) as Hin.
  { intros p Hp. apply kept_ranks_spec. rewrite pos_rank by lia. split; [apply rank_at_in; lia|done]. }
  split; intros Hx i Hi.
  - destruct (rank_pos i Hi) as [Er Hp]. rewrite <- Er. revert Hp. generalize (pos i). intros p Hp.
    destruct (lt_eq_lt_dec p (mirror p)) as [[Hlo|Heq]|Hhi].
    + specialize (Hx (rank_at p) ltac:(apply Hin; lia)). rewrite Hnext in Hx by lia. by apply list_elem_of_filter in Hx as [_ ?].
    + specialize (Hx (rank_at p) ltac:(apply Hin; lia)). by rewrite Hmid in Hx by lia.
    + specialize (Hx (rank_at (mirror p)) ltac:(apply Hin; lia)). rewrite Hnext in Hx by lia. apply list_elem_of_filter in Hx as [Hx _].
      by replace (mirror (mirror p)) with p in Hx by lia.
  - apply kept_ranks_spec in Hi as [Hi Hp]. destruct (rank_pos i Hi) as [Er HpN]. rewrite <- Er. revert Hp HpN. generalize (pos i). intros p Hp HpN.
    destruct (lt_eq_lt_dec p (mirror p)) as [[Hlo|Heq]|Hhi]; [|by rewrite Hmid by lia; apply Hx, rank_at_in|lia].
    rewrite Hnext by lia. apply list_elem_of_filter. split; apply Hx, rank_at_in; lia.
Qed.
Lemma next_items_filter i : i ∈ kept_ranks -> cur i = filter (fun x => x ∈ cur i) (items i) ->
  next_items i = filter (fun x => x ∈ next_items i) (items i).
Proof using Hnd HN Hpsi.
  intros Hi Hc. apply kept_ranks_spec in Hi as [Hi Hp]. destruct (rank_pos i Hi) as [Er HpN]. unfold next_items.
  pose proof kept_num_bounds as [Hk Hk2]. pose proof (Nat.div_mod_eq N 2). pose proof (Nat.mod_upper_bound N 2 ltac:(lia)).
  destruct (pos i <? mirror (pos i))%nat eqn:E.
  - rewrite Hpsi; [|intros Ei; assert (rank_at (pos i) = rank_at (mirror (pos i))) as E'%rank_at_inj by congruence; apply Nat.ltb_lt in E; lia|done|apply rank_at_in; lia|done|done]. rewrite Hc at 1. rewrite list_filter_filter. apply filter_ext_in. intros x Hx.
    rewrite list_elem_of_filter. done.
  - apply Nat.ltb_ge in E. rewrite (proj2 (Nat.eqb_eq _ _)) by lia. done.
Qed.
End level.

(** ** All levels *)
Lemma min_intersection_size_zero m sizes : 0 < m -> Forall (fun s => 0 <= s) sizes -> min_intersection_size m sizes = 0 <-> 0 ∈ sizes.
Proof.
  intros Hm Hs. revert m Hm. induction Hs as [|s sizes Hs _ IH]; intros m Hm; cbn [min_intersection_size].
  - rewrite elem_of_nil. split; [lia|done].
  - rewrite elem_of_cons. destruct (Z.eqb_spec (Z.min m s) 0) as [E|E]; [rewrite E; split; [left; lia|done]|].
    rewrite IH by lia. split; [by right|intros [?|?]; [lia|done]].
Qed.
Lemma filter_all {A} (P : A -> Prop) `{!forall x, Decision (P x)} (l : list A) : Forall P l -> filter P l = l.
Proof. induction 1 as [|x l Hx _ IH]; [done|]. by rewrite filter_cons_True, IH. Qed.
Lemma filter_none {A} (P : A -> Prop) `{!forall x, Decision (P x)} (l : list A) : (forall x, x ∈ l -> P x -> False) -> filter P l = [].
Proof.
  induction l as [|x l IH]; intros Hn; [done|]. rewrite filter_cons_False by (intros Hx; by apply (Hn x); [left|]). apply IH.
  intros y Hy. apply Hn. by right.
Qed.
Lemma foldl_min_zero m l : 0 <= m -> Forall (fun s => 0 <= s) l -> foldl Z.min m l = 0 <-> m = 0 \/ 0 ∈ l.
Proof.
  intros Hm Hl. revert m Hm. induction Hl as [|s l Hs _ IH]; intros m Hm; cbn [foldl].
  - rewrite elem_of_nil. naive_solver.
  - rewrite IH, elem_of_cons by lia. assert (Z.min m s = 0 <-> m = 0 \/ s = 0) as -> by lia. assert (s = 0 <-> 0 = s) as -> by lia. tauto.
Qed.
Lemma zlen_zero {A} (l : list A) : zlen l = 0 <-> l = [].
Proof. unfold zlen. destruct l; cbn [length]; split; (done || lia). Qed.

Section run.
Context (psi2 : nat -> nat -> list bytes -> list bytes -> list bytes) (n master : nat) (items : nat -> list bytes).
Context (f : nat -> list bytes -> party).
Context (Hmaster : (master < n)%nat) (Hitems : forall i, (i < n)%nat -> items i <> []).
Context (Hpsi : forall p q a b, p <> q -> (p < n)%nat -> (q < n)%nat -> a ⊆ items p -> b ⊆ items q -> psi2 p q a b = filter (fun x => x ∈ b) a).
Abbreviation world w := (map w (seq 0 n)).

Definition in_all (x : bytes) : Prop := Forall (fun q => x ∈ items q) (seq 0 n).
#[global] Instance in_all_dec x : Decision (in_all x).
Proof. unfold in_all. apply _. Defined.
Lemma in_all_spec x : in_all x <-> forall q, (q < n)%nat -> x ∈ items q.
Proof. clear. unfold in_all. rewrite Forall_seq. split; intros Hx q Hq; apply Hx; lia. Qed.
Definition result (i : nat) : list bytes := if (i =? master)%nat then std_sort (filter in_all (items master)) else [].

Definition good_level (vec : list (Z * nat)) (cur : nat -> list bytes) : Prop :=
  NoDup (map snd vec) /\ (forall i, i ∈ map snd vec -> (i < n)%nat) /\ map snd vec !! 0%nat = Some master /\
  (forall i, i ∈ map snd vec -> cur i = filter (fun x => x ∈ cur i) (items i)) /\
  (forall x, (forall i, i ∈ map snd vec -> x ∈ cur i) <-> in_all x).

Lemma good_level_law vec cur : good_level vec cur -> forall p q a b, p <> q -> p ∈ map snd vec -> q ∈ map snd vec -> a = cur p -> b = cur q ->
  psi2 p q a b = filter (fun x => x ∈ b) a.
Proof using Hpsi.
  intros (_ & Hlt & _ & Hc & _) p q a b Hpq Hp Hq -> ->.
  assert (forall i, i ∈ map snd vec -> cur i ⊆ items i) as Hsub by (intros i Hi; rewrite (Hc i Hi); intros x [_ ?]%list_elem_of_filter; done).
  apply Hpsi; auto.
Qed.
Lemma next_good vec cur : good_level vec cur -> (2 <= length vec)%nat ->
  good_level (take ((length vec + 1) / 2) vec) (next_items psi2 vec cur).
Proof using Hmaster Hpsi.
  intros Hg HN. pose proof (good_level_law _ _ Hg) as Hlaw. destruct Hg as (Hnd & Hlt & H0 & Hc & Hall).
  pose proof (kept_num_bounds vec HN) as [Hk _]. split_and!.
  - rewrite <- firstn_map. eapply sublist_NoDup; [exact Hnd|apply sublist_take].
  - intros i [Hi _]%(kept_ranks_spec vec Hnd HN). by apply Hlt.
  - rewrite <- firstn_map, lookup_take_lt by lia. done.
  - intros i Hi. apply (next_items_filter psi2 items vec cur Hnd HN Hlaw i Hi). apply kept_ranks_spec in Hi as [Hi _]; [by apply Hc|done|done].
  - intros x. rewrite <- Hall. apply (next_items_common psi2 vec cur Hnd HN Hlaw).
Qed.
(** Once somebody has nothing left, or only the master is left. *)
Lemma result_empty vec cur j : good_level vec cur -> j ∈ map snd vec -> cur j = [] -> result master = [].
Proof using All.
  intros (_ & _ & _ & _ & Hall) Hj Ej. unfold result. rewrite Nat.eqb_refl.
  assert (filter in_all (items master) = []) as ->; [|done].
  destruct (filter in_all (items master)) as [|x l] eqn:E; [done|exfalso].
  assert (x ∈ filter in_all (items master)) as [Hx _]%list_elem_of_filter by (rewrite E; left).
  apply Hall with (i := j) in Hx; [|done]. rewrite Ej in Hx. by apply not_elem_of_nil in Hx.
Qed.
Lemma result_single vec cur : good_level vec cur -> length vec = 1%nat -> result master = std_sort (cur master) /\ map snd vec = [master].
Proof using All.
  intros (_ & _ & H0 & Hc & Hall) Hl. destruct vec as [|[s r] [|]]; try done. cbn in H0, Hc, Hall. injection H0 as ->. split; [|done].
  unfold result. rewrite Nat.eqb_refl. f_equal. rewrite (Hc master) by by left. apply filter_ext_in. intros x _. rewrite <- Hall. split.
  - intros Hx. apply Hx. by left.
  - intros Hx i Hi%list_elem_of_singleton. by subst.
Qed.

Lemma levels_run L : forall vec cur, good_level vec cur -> (2 <= length vec <= 2 ^ L)%nat ->
  rtc (meet psi2)
    (world (fun i => if bool_decide (i ∈ map snd vec) then party_bind (levels (mkNparty n i master) L (zlen (items i)) vec (cur i)) (f i)
                     else left_level master f i))
    (world (fun i => f i (result i))).
Proof using All.
  induction L as [|L IH]; intros vec cur Hg [HN HL]; [cbn in HL; lia|].
  pose proof Hg as (Hnd & Hlt & _). pose proof (next_good vec cur Hg HN) as Hg'. pose proof (kept_num_bounds vec HN) as [Hk Hk2].
  etransitivity; [apply (level_pairs psi2 n master items f vec cur Hnd Hlt HN L)|].
  eapply rtc_l; [apply (level_gather psi2 n master items f vec cur Hnd Hlt HN L)|].
  set (vec' := take ((length vec + 1) / 2) vec) in *. assert (length vec' = (length vec + 1) / 2)%nat as Hl' by (unfold vec'; rewrite length_take; lia).
  assert (forall i, i ∈ map snd vec' -> 0 < zlen (items i)) as Hpos.
  { intros i Hi. destruct Hg' as (_ & Hlt' & _). specialize (Hitems i (Hlt' i Hi)). rewrite <- zlen_zero in Hitems. unfold zlen in *. lia. }
  assert (Forall (fun s => 0 <= s) (sizes psi2 vec cur)) as Hs by (unfold sizes; apply List.Forall_map, Forall_true; intros i; unfold zlen; lia).
  destruct (decide (0 ∈ sizes psi2 vec cur)) as [Hz|Hz].
  - (* somebody has nothing left *)
    assert (exists j, j ∈ map snd vec' /\ next_items psi2 vec cur j = []) as (j & Hj & Ej).
    { unfold sizes in Hz. apply list_elem_of_fmap in Hz as (j & Ej & Hj). exists j. split; [done|]. by apply zlen_zero. }
    pose proof (result_empty vec' _ j Hg' Hj Ej) as Hr.
    assert (forall i, result i = []) as Hres by (intros i; unfold result in *; rewrite Nat.eqb_refl in Hr; by destruct (i =? master)%nat).
    eapply rtc_l; [|by rewrite (map_ext _ _ (fun i => f_equal (f i) (Hres i)))].
    rewrite (map_ext_in _ (fun i => Broadcast master (if bool_decide (i ∈ map snd vec') then if (i =? master)%nat then finish_message else [] else []) (fun _ => f i []))).
    + apply (meet_broadcast_all psi2 n ltac:(lia) master _ (fun i _ => f i [])). done.
    + intros i _. case_bool_decide as Hi; [|done]. unfold gathered.
      rewrite (proj2 (Z.eqb_eq _ _)) by (apply min_intersection_size_zero; auto). done.
  - assert (forall i, i ∈ map snd vec' -> (min_intersection_size (zlen (items i)) (sizes psi2 vec cur) =? 0) = false) as Hnz.
    { intros i Hi. apply Z.eqb_neq. by rewrite min_intersection_size_zero by auto. }
    destruct (decide (length vec' = 1%nat)) as [H1|H1].
    + (* the master alone *)
      destruct (result_single vec' _ Hg' H1) as [Hr Hm].
      rewrite (map_ext_in _ (fun i => Broadcast master (if (i =? master)%nat then finish_message else [])
        (fun _ => f i (result i)))).
      * apply rtc_once. apply (meet_broadcast_all psi2 n ltac:(lia) master _ (fun i _ => f i (result i))). done.
      * intros i _. rewrite Hm. destruct (Nat.eqb_spec i master) as [->|Hne].
        -- rewrite bool_decide_true by by left. unfold gathered. rewrite Hnz by (rewrite Hm; by left). fold vec'. rewrite (proj2 (Nat.eqb_eq _ _)) by done.
           by rewrite Hr.
        -- rewrite bool_decide_false by (intros ?%list_elem_of_singleton; done). unfold result. by rewrite (proj2 (Nat.eqb_neq _ _)).
    + etransitivity; [|apply (IH vec' (next_items psi2 vec cur) Hg')].
      * match goal with |- rtc _ ?a ?b => assert (a = b) as ->; [|done] end. apply map_ext_in. intros i _. case_bool_decide as Hi; [|done]. unfold gathered. rewrite Hnz by done.
        fold vec'. by rewrite (proj2 (Nat.eqb_neq _ _)) by done.
      * pose proof (Nat.div_mod_eq (length vec + 1) 2). pose proof (Nat.mod_upper_bound (length vec + 1) 2 ltac:(lia)). cbn [Nat.pow] in HL. lia.
Qed.

(** ** The order of the parties *)
Context (Hn : (2 <= n)%nat).
Abbreviation o i := (mkNparty n i master).

Lemma swap_perm {A} (x y : A) r k : r !! k = Some y -> x :: r ≡ₚ y :: <[k := x]> r.
Proof.
  clear. intros Hk. assert (k < length r)%nat as Hlt by by eapply lookup_lt_Some.
  rewrite (delete_Permutation r k y) at 1 by done. rewrite (delete_Permutation (<[k := x]> r) k x) by by apply list_lookup_insert_eq.
  rewrite !delete_take_drop. rewrite (take_insert_ge _ _ k), (drop_insert_lt _ (S k)) by lia. apply Permutation_swap.
Qed.
Definition sized (i : nat) : Z * nat := (zlen (items i), i).
Lemma GetAllPartyItemSizeVec_ok i : exists vec, GetAllPartyItemSizeVec (o i) (map (fun j => zlen (items j)) (seq 0 n)) = Ok vec /\
  vec ≡ₚ map sized (seq 0 n) /\ map snd vec !! 0%nat = Some master /\ forall j, GetAllPartyItemSizeVec (o j) (map (fun j => zlen (items j)) (seq 0 n)) = Ok vec.
Proof using Hmaster Hn.
  enough (exists vec, GetAllPartyItemSizeVec (o i) (map (fun j => zlen (items j)) (seq 0 n)) = Ok vec /\
    vec ≡ₚ map sized (seq 0 n) /\ map snd vec !! 0%nat = Some master) as (vec & E & Hp & H0) by (exists vec; split_and!; done).
  unfold GetAllPartyItemSizeVec. cbn [WorldSize Nparty.master_rank]. rewrite length_map, length_seq, Nat.eqb_refl. run.
  rewrite (for_ext _ _ (fun idx vec => x ← (Ok (sized idx)); Ok (vec ++ [x]))); [|intros j v Hj; unfold vget; rewrite world_lookup by done; by run].
  rewrite (for_push n (fun idx => Ok (sized idx)) sized) by done. run. change ([] ++ ?l) with l. change (tabulate n sized) with (map sized (seq 0 n)).
  set (base := map sized (seq 0 n)). assert (base !! master = Some (sized master)) as Hm by by apply world_lookup.
  destruct (Nat.eqb_spec master 0) as [->|H0]; cbn [negb].
  - run. destruct base as [|x r] eqn:Eb; [done|]. eexists. split; [done|]. split; [by rewrite merge_sort_Permutation|].
    cbn in Hm |- *. by injection Hm as ->.
  - destruct base as [|x r] eqn:Eb; [done|]. destruct master as [|m']; [done|]. cbn [lookup list_lookup] in Hm.
    unfold vget, vset. cbn [lookup list_lookup]. rewrite Hm. run. cbn [length insert list_insert]. apply lookup_lt_Some in Hm as Hlt.
    rewrite (bool_decide_true (0 < _)%nat) by lia. run. cbn [length]. rewrite bool_decide_true by lia. run.
    eexists. split; [done|]. split; [|done]. rewrite merge_sort_Permutation. symmetry. by apply swap_perm.
Qed.

(** ** [OnRun] *)
Lemma first_good vec : vec ≡ₚ map sized (seq 0 n) -> map snd vec !! 0%nat = Some master -> good_level vec items.
Proof using Hmaster Hn.
  intros Hp H0. assert (map snd vec ≡ₚ seq 0 n) as Hr.
  { rewrite Hp, map_map. cbn [sized snd]. by rewrite map_id. }
  split_and!.
  - rewrite Hr. apply NoDup_seq.
  - intros i. rewrite Hr, elem_of_seq. lia.
  - done.
  - intros i _. symmetry. apply filter_all. by apply Forall_forall.
  - intros x. rewrite in_all_spec. setoid_rewrite Hr. setoid_rewrite elem_of_seq. split; intros Hx i Hi; apply Hx; lia.
Qed.
Lemma OnRun_runs : rtc (meet psi2) (world (fun i => party_bind (NpartyPsiOperator_OnRun (o i) (items i)) (f i))) (world (fun i => f i (result i))).
Proof using All.
  destruct (GetAllPartyItemSizeVec_ok master) as (vec & _ & Hp & H0 & Hvec). pose proof (first_good vec Hp H0) as Hg.
  assert (length vec = n) as Hl by (rewrite Hp, length_map; apply length_seq).
  assert (map snd vec ≡ₚ seq 0 n) as Hr by (rewrite Hp, map_map; cbn [sized snd]; by rewrite map_id).
  set (k := fun i (szs : list Z) => party_bind
    (lift (GetAllPartyItemSizeVec (o i) szs) (fun vec =>
     lift (x ← vget vec 0; if x.1 =? 0 then Ok true else y ← vget vec 1; Ok (y.1 =? 0)) (fun zero : bool =>
     if zero then Returned (Ok []) else levels (o i) (level_num (length vec)) (zlen (items i)) vec (items i)))) (f i)).
  rewrite (map_ext _ (fun i => AllGather (seq 0 n) (zlen (items i)) (k i))).
  2:{ intros i. unfold NpartyPsiOperator_OnRun, NpartyPsiOperator_new. cbn [WorldSize]. rewrite (proj2 (Nat.leb_le _ _)) by done. done. }
  eapply rtc_l; [apply (meet_all psi2 n ltac:(lia))|].
  assert (forall p x, vec !! p = Some x -> x.1 <> 0) as Hne.
  { intros p x Hx%list_elem_of_lookup_2. rewrite Hp in Hx. apply list_elem_of_fmap in Hx as (j & -> & [_ Hj]%elem_of_seq).
    cbn [sized fst]. rewrite zlen_zero. apply Hitems. lia. }
  etransitivity; [|apply (levels_run (level_num (length vec)) vec items Hg)].
  - match goal with |- rtc _ ?a ?b => assert (a = b) as ->; [|done] end. apply map_ext_in. intros i Hi%list_elem_of_In.
    rewrite bool_decide_true by by rewrite Hr. unfold k. rewrite Hvec. cbn [lift].
    destruct (lookup_lt_is_Some_2 vec 0 ltac:(lia)) as [x Hx], (lookup_lt_is_Some_2 vec 1 ltac:(lia)) as [y Hy].
    unfold vget. rewrite Hx. run. rewrite (proj2 (Z.eqb_neq _ _)) by by eapply Hne. rewrite Hy. run.
    by rewrite (proj2 (Z.eqb_neq _ _)) by by eapply Hne.
  - split; [lia|]. rewrite Hl. apply Nat.log2_up_spec. lia.
Qed.
End run.

(** ** [MemoryPsi] *)
Section memory.
Context (psi2 : nat -> nat -> list bytes -> list bytes -> list bytes) (n master : nat) (items : nat -> list bytes).
Context (Hmaster : (master < n)%nat) (Hn : (2 <= n)%nat).
Context (Hpsi : forall p q a b, p <> q -> (p < n)%nat -> (q < n)%nat -> a ⊆ items p -> b ⊆ items q -> psi2 p q a b = filter (fun x => x ∈ b) a).
Abbreviation world w := (map w (seq 0 n)).
Abbreviation o i := (mkNparty n i master).
Abbreviation result := (result n master items).

Lemma BroadcastResult_loop i : (i < n)%nat -> exists m, for_ (length (map (fun j => zlen (result j)) (seq 0 n))) (fun j '(max_size, broadcast_rank) =>
    s ← vget (map (fun j => zlen (result j)) (seq 0 n)) j;
    if 0 <? s then _ ← enforce (broadcast_rank =? 0)%nat; Ok (Z.max max_size s, j)
    else Ok (Z.max max_size s, broadcast_rank)) (zlen (result i), 0%nat)
  = Ok (m, if bool_decide (result master = []) then 0%nat else master) /\ (m =? 0) = bool_decide (result master = []).
Proof using Hmaster Hn.
  intros Hi. set (R := zlen (result master)).
  assert (forall j, zlen (result j) = if (j =? master)%nat then R else 0) as Hs.
  { intros j. unfold R, NpartyProofs.result. destruct (j =? master)%nat; [by rewrite Nat.eqb_refl|done]. }
  assert (0 <= R) as HR by (unfold R, zlen; lia).
  assert ((R =? 0) = bool_decide (result master = [])) as HR0.
  { unfold R. apply eq_true_iff_eq. rewrite Z.eqb_eq, bool_decide_eq_true. apply zlen_zero. }
  rewrite length_map, length_seq.
  destruct (proj1 (wp_iff _ _) (wp_for n (fun j '(max_size, broadcast_rank) =>
    s ← vget (map (fun j => zlen (result j)) (seq 0 n)) j;
    if 0 <? s then _ ← enforce (broadcast_rank =? 0)%nat; Ok (Z.max max_size s, j)
    else Ok (Z.max max_size s, broadcast_rank))
    (fun j '(m, root) => m = Z.max (zlen (result i)) (if (master <? j)%nat then R else 0) /\ root = if (master <? j)%nat && (0 <? R) then master else 0%nat)
    (zlen (result i), 0%nat)
    (fun '(m, root) => m = R /\ root = if 0 <? R then master else 0%nat)
    ltac:(cbn; unfold zlen; split; [lia|done])
    ltac:(intros j [m root] Hj [-> ->]; unfold vget; rewrite world_lookup by done; run; rewrite Hs;
      destruct (Nat.eqb_spec j master) as [->|Hne];
      [rewrite Nat.ltb_irrefl, (proj2 (Nat.ltb_lt _ _)) by lia; destruct (0 <? R) eqn:ER; run; cbn [andb wp];
        [split; [lia|done]|apply Z.ltb_ge in ER; split; [lia|done]]
      |change (0 <? 0) with false; cbn [wp];
       assert ((master <? S j)%nat = (master <? j)%nat) as -> by (apply eq_true_iff_eq; rewrite !Nat.ltb_lt; lia); split; [destruct (master <? j)%nat; lia|done]])
    ltac:(intros [m root] [-> ->]; rewrite (proj2 (Nat.ltb_lt _ _)) by done; rewrite Hs; split; [destruct (i =? master)%nat; lia|done]))) as ([m root] & E & -> & ->).
  exists R. split; [|done]. rewrite E, <- HR0. do 2 f_equal. destruct (Z.ltb_spec 0 R), (Z.eqb_spec R 0); (done || lia).
Qed.

Definition output (broadcast_result : bool) (i : nat) : list bytes := if broadcast_result then result master else result i.
Lemma BroadcastResult_runs : rtc (meet psi2) (world (fun i => BroadcastResult (o i) (result i))) (world (fun i => Returned (Ok (output true i)))).
Proof using Hmaster Hn.
  unfold BroadcastResult. unfold AllRanks. cbn [WorldSize].
  eapply rtc_l; [apply (meet_all psi2 n ltac:(lia))|]. cbn beta.
  set (R := if bool_decide (result master = []) then 0%nat else master).
  rewrite (map_ext_in _ (fun i => if bool_decide (result master = []) then Returned (Ok (result i))
    else Broadcast R (result i) (fun recv => Returned (Ok (if bool_decide (result i = []) then recv else result i))))).
  2:{ intros i [_ Hi]%list_elem_of_In%elem_of_seq. destruct (BroadcastResult_loop i ltac:(lia)) as (m & -> & E). cbn [lift].
      by rewrite E. }
  unfold R. unfold output. destruct (decide (result master = [])) as [E|E].
  - rewrite bool_decide_true by done. rewrite (map_ext _ (fun _ => Returned (Ok (result master)))); [done|]. intros i. rewrite E. unfold NpartyProofs.result in *.
    rewrite Nat.eqb_refl in E. by destruct (i =? master)%nat; rewrite ?E.
  - rewrite !bool_decide_false by done. apply rtc_once.
    pose proof (meet_broadcast_all psi2 n ltac:(lia) master result (fun i recv => Returned (Ok (if bool_decide (result i = []) then recv else result i))) Hmaster) as Hb.
    match type of Hb with meet _ _ ?b => match goal with |- meet _ _ ?c => assert (c = b) as -> end end; [|done].
    apply map_ext. intros i. do 2 f_equal. case_bool_decide as Ei; [done|]. unfold NpartyProofs.result in *. rewrite Nat.eqb_refl.
    by destruct (i =? master)%nat.
Qed.

Lemma MemoryPsi_runs broadcast_result : rtc (meet psi2) (parties n master items broadcast_result)
  (world (fun i => Returned (Ok (output broadcast_result i)))).
Proof using All.
  unfold parties. set (k := fun i (szs : list Z) => if foldl Z.min (zlen (items i)) szs =? 0 then Returned (Ok [])
    else PsiBaseOperator_Run (o i) (NpartyPsiOperator_OnRun (o i) (items i)) broadcast_result).
  rewrite (map_ext _ (fun i => AllGather (seq 0 n) (zlen (items i)) (k i))).
  2:{ intros i. unfold MemoryPsi_Run, MemoryPsi_CheckOptions. cbn [Nparty.master_rank WorldSize]. by rewrite (proj2 (Nat.ltb_lt _ _)). }
  eapply rtc_l; [apply (meet_all psi2 n ltac:(lia))|]. set (szs := map (fun j => zlen (items j)) (seq 0 n)).
  assert (forall i, (i < n)%nat -> foldl Z.min (zlen (items i)) szs = 0 <-> exists j, (j < n)%nat /\ items j = []) as Hmin.
  { intros i Hi. rewrite foldl_min_zero; [|unfold zlen; lia|unfold szs; apply List.Forall_map, Forall_true; intros j; unfold zlen; lia].
    unfold szs. rewrite list_elem_of_fmap, zlen_zero. split; [intros [E|(j & Ej & [_ Hj]%elem_of_seq)]|intros (j & Hj & Ej)]; [by exists i| |].
    - exists j. split; [lia|]. by apply zlen_zero.
    - right. exists j. rewrite elem_of_seq. split; [symmetry; by apply zlen_zero|lia]. }
  destruct (decide (Exists (fun j => items j = []) (seq 0 n))) as [Hex|Hex].
  - apply Exists_exists in Hex as (j & [_ Hj]%elem_of_seq & Ej). rewrite (map_ext_in _ (fun i => Returned (Ok (output broadcast_result i)))); [done|].
    intros i [_ Hi]%list_elem_of_In%elem_of_seq. unfold k. rewrite (proj2 (Z.eqb_eq _ _)) by (apply Hmin; [lia|exists j; split; [lia|done]]).
    assert (forall i, result i = []) as Hr; [|unfold output; rewrite !Hr; by destruct broadcast_result].
    intros i'. unfold NpartyProofs.result. destruct (i' =? master)%nat; [|done].
    assert (filter (in_all n items) (items master) = []) as ->; [|done]. apply filter_none. intros x _ Hx. rewrite in_all_spec in Hx.
    specialize (Hx j ltac:(lia)). rewrite Ej in Hx. by apply not_elem_of_nil in Hx.
  - assert (forall i, (i < n)%nat -> items i <> []) as Hitems.
    { intros i Hi Ei. apply Hex, Exists_exists. exists i. rewrite elem_of_seq. split; [lia|done]. }
    set (g := fun i res => AllGather (seq 0 n) 1 (fun _ => if broadcast_result then BroadcastResult (o i) res else Returned (Ok res))).
    etransitivity; [|etransitivity; [apply (OnRun_runs psi2 n master items g Hmaster Hitems Hpsi Hn)|]].
    + match goal with |- rtc _ ?a ?b => assert (a = b) as ->; [|done] end. apply map_ext_in. intros i [_ Hi]%list_elem_of_In%elem_of_seq. unfold k.
      rewrite (proj2 (Z.eqb_neq _ _)); [done|]. rewrite Hmin by lia. intros (j & Hj & Ej). by apply (Hitems j).
    + unfold g. eapply rtc_l; [apply (meet_all psi2 n ltac:(lia))|]. destruct broadcast_result; [apply BroadcastResult_runs|done].
Qed.

Lemma MemoryPsi_all_runs broadcast_result :
  sn (meet psi2) (parties n master items broadcast_result) /\
  forall w, rtc (meet psi2) (parties n master items broadcast_result) w -> rtc (meet psi2) w (world (fun i => Returned (Ok (output broadcast_result i)))).
Proof using All.
  apply all_runs; [apply MemoryPsi_runs|]. apply List.Forall_map, Forall_true. intros i. by eexists.
Qed.
End memory.
