(* ===== verification/NpartyRun.v ===== *)
(** * PSI of N parties over ECDH-PSI

    The two-party protocol of the levels is [RunEcdhPsi] of EcdhPsi, over the
    link of two parties: what its target and its peer return once the session
    has ended, whatever the schedule of its threads.  Then every schedule of the
    N parties ends with the intersection. *)
From S2P Require Import Prelude EcStore Ecdh3pc EcdhPsi Collective Nparty NpartyProofs.

Definition kFinalCompareBytes : nat := 12.

Section ecdh.
Context `{BatchProtoLaws} `{EcGroupLaws}.
(** The names of the parties, and the key that a party draws for its session with
    another. *)
Context (PartyIdByRank : Z -> bytes) (keys : nat -> nat -> bytes) (curve batch_size : Z).

(** The rank in the link of two: a world of two is its own link. *)
Definition link_rank (n p q : nat) : Z :=
  if (2 <? n)%nat then Ecdh3pc.CreateP2PLinkCtx PartyIdByRank (Z.of_nat p) (Z.of_nat q) else Z.of_nat p.
Definition pair_options (n p q target : nat) : EcdhPsiOptions :=
  let rank := link_rank n p q in
  mkOptions rank (keys p q) curve kFinalCompareBytes (if (target =? p)%nat then rank else 1 - rank) false.

(** What the target [p] gets from its peer [q]. *)
Definition ecdh_psi2 (n p q : nat) (a b : list bytes) : list bytes :=
  let mine := pair_options n p q p in let peer := pair_options n q p p in
  filter (fun x => cipher_of mine peer x ∈ map (cipher_of peer mine) b) a.

Context (n : nat).
Context (Hnames : forall p q, (p < n)%nat -> (q < n)%nat -> p <> q -> PartyIdByRank (Z.of_nat p) <> PartyIdByRank (Z.of_nat q)).
Context (Hbatch : 0 < batch_size < 2 ^ 32) (Hlen : (kFinalCompareBytes <= GetSerializeLength)%nat).

Lemma pair_link_ranks p q : (p < n)%nat -> (q < n)%nat -> p <> q ->
  link_rank n q p = 1 - link_rank n p q /\ (link_rank n p q = 0 \/ link_rank n p q = 1).
Proof using Hnames.
  clear Hlen. intros Hp Hq Hpq. unfold link_rank. destruct (Nat.ltb_spec 2 n); [|lia].
  unfold Ecdh3pc.CreateP2PLinkCtx. set (x := PartyIdByRank _). set (y := PartyIdByRank _).
  assert (x <> y) as Hxy by (by apply Hnames). destruct (bytes_ltb x y) eqn:E1, (bytes_ltb y x) eqn:E2; try (cbn; auto); exfalso.
  - pose proof (bytes_ltb_trans _ _ _ E1 E2). by rewrite bytes_ltb_irrefl in *.
  - by apply Hxy, bytes_ltb_trichotomy.
Qed.

(** A session of two parties of the world, with the first one as the target. *)
Lemma ecdh_session p q a b : (p < n)%nat -> (q < n)%nat -> p <> q ->
  let mine := pair_options n p q p in let peer := pair_options n q p p in
  let start := wrapper_session mine peer a b batch_size batch_size in
  sn (session_step mine peer) start /\
  forall s, rtc (session_step mine peer) start s -> (exists s', session_step mine peer s s') \/
    (result_items a (store_ (self_store (recv_dual (a_to_b s)))) (store_ (peer_store (mask_peer (b_to_a s)))) = Ok (ecdh_psi2 n p q a b) /\
     result_items b (store_ (self_store (recv_dual (b_to_a s)))) (store_ (peer_store (mask_peer (a_to_b s)))) = Ok []).
Proof using All.
  intros Hp Hq Hpq mine peer start. destruct (pair_link_ranks p q Hp Hq Hpq) as [Hr H01].
  assert (target_rank mine = link_rank n p q /\ target_rank peer = link_rank n p q) as [Tm Tp].
  { unfold mine, peer, pair_options. cbn [target_rank]. rewrite Nat.eqb_refl, (proj2 (Nat.eqb_neq _ _)), Hr by done. lia. }
  assert (SelfCanTouchResults mine = true /\ PeerCanTouchResults mine = false /\ SelfCanTouchResults peer = false /\ PeerCanTouchResults peer = true) as (Sm & Pm & Sp & Pp).
  { unfold SelfCanTouchResults, PeerCanTouchResults, NextRank, kAllRank. rewrite Tm, Tp. cbn [rank mine peer pair_options]. rewrite Hr.
    destruct H01 as [-> | ->]; done. }
  destruct (session_ends mine peer a b batch_size batch_size) as (Hpair & Hsn & bsa & bsb & Sa & Sb & Hend); try done.
  - unfold NextRank. cbn. lia.
  - unfold CheckConfig. rewrite Tm, Tp, Z.eqb_refl. cbn. by rewrite Z.eqb_refl.
  - split; [exact Hsn|]. intros s Hs. destruct (Hend s Hs) as [|[(_ & P1 & S1 & _) (_ & P2 & S2 & _)]]; [by left|right].
    rewrite Sm, Sa, app_nil_l in S1. rewrite Pm, app_nil_l in P1. rewrite Sp, app_nil_l in S2. rewrite Pp, Sb, app_nil_l in P2.
    destruct S1 as (-> & _), P1 as (-> & _), S2 as (-> & _), P2 as (-> & _). rewrite !map_map. cbn [fst map].
    split; [apply result_items_filter|done].
Qed.

Context (master : nat) (items : nat -> list bytes) (Hmaster : (master < n)%nat) (Hn : (2 <= n)%nat).
Context (Hcipher : forall p q x y, (p < n)%nat -> (q < n)%nat -> p <> q -> x ∈ items p -> y ∈ items q ->
  cipher_of (pair_options n p q p) (pair_options n q p p) x = cipher_of (pair_options n p q p) (pair_options n q p p) y -> x = y).

Lemma ecdh_psi2_intersection p q a b : p <> q -> (p < n)%nat -> (q < n)%nat -> a ⊆ items p -> b ⊆ items q ->
  ecdh_psi2 n p q a b = filter (fun x => x ∈ b) a.
Proof using All.
  intros Hpq Hp Hq Ha Hb. unfold ecdh_psi2. apply filter_ext_in. intros x Hx. rewrite list_elem_of_fmap. split.
  - intros (y & E & Hy). assert (x = y) as ->; [|done].
    apply (Hcipher p q x y); auto. rewrite E. by apply cipher_of_comm.
  - intros Hy. exists x. split; [|done]. by apply cipher_of_comm.
Qed.

(** C6.  The PSI of N parties over ECDH-PSI, as long as the truncated ciphers of
    different items do not collide: any two parties end their session,
    whatever its schedule, with the common items at the target and nothing at the
    peer; and every run of the N parties is finite, cannot get stuck before all
    have returned, and ends with the master, and with a broadcast everyone,
    holding the sorted items of the master that all parties have, and everybody
    else nothing. *)
Theorem MemoryPsi_correct broadcast_result :
  (forall p q a b, (p < n)%nat -> (q < n)%nat -> p <> q ->
     let mine := pair_options n p q p in let peer := pair_options n q p p in
     let start := wrapper_session mine peer a b batch_size batch_size in
     sn (session_step mine peer) start /\
     forall s, rtc (session_step mine peer) start s -> (exists s', session_step mine peer s s') \/
       (result_items a (store_ (self_store (recv_dual (a_to_b s)))) (store_ (peer_store (mask_peer (b_to_a s)))) = Ok (ecdh_psi2 n p q a b) /\
        result_items b (store_ (self_store (recv_dual (b_to_a s)))) (store_ (peer_store (mask_peer (a_to_b s)))) = Ok [])) /\
  let result := std_sort (filter (fun x => Forall (fun q => x ∈ items q) (seq 0 n)) (items master)) in
  let final := map (fun i => Returned (Ok (if broadcast_result || (i =? master)%nat then result else []))) (seq 0 n) in
  sn (meet (ecdh_psi2 n)) (parties n master items broadcast_result) /\
  forall w, rtc (meet (ecdh_psi2 n)) (parties n master items broadcast_result) w -> rtc (meet (ecdh_psi2 n)) w final.
Proof using All.
  split; [intros p q a b; apply ecdh_session|]. intros result final.
  assert (final = map (fun i => Returned (Ok (output n master items broadcast_result i))) (seq 0 n)) as ->.
  { apply map_ext. intros i. do 2 f_equal. unfold output, NpartyProofs.result. rewrite Nat.eqb_refl. by destruct broadcast_result, (i =? master)%nat. }
  apply (MemoryPsi_all_runs (ecdh_psi2 n) n master items Hmaster Hn ecdh_psi2_intersection).
Qed.
End ecdh.

(** ** A run of three parties *)
#[local] Existing Instance toy_proto.
#[local] Existing Instance toy_proto_laws.
(** The triples of EcdhPsi in twelve bytes. *)
#[local] Instance wide_group : EcGroup := {|
  EcPoint := Z * Z * Z;
  HashToCurve s := (foldl (fun h c => h * 31 + c) 7 s, zlen s + 1, default 0 (s !! 0%nat));
  Mul p k := (p.1.1 * k, p.1.2 * k, p.2 * k);
  SerializePoint p := [p.1.1; p.1.2; p.2; 0; 0; 0; 0; 0; 0; 0; 0; 0];
  DeserializePoint b := match b with x :: y :: z :: _ => (x, y, z) | _ => (0, 0, 0) end;
  GetSerializeLength := 12
|}.
#[local] Instance wide_group_laws : EcGroupLaws.
Proof. split; [|by intros [[x y] z]|done]. intros [[x y] z] a b. cbn. by rewrite !(Z.mul_shuffle0 _ a b). Qed.

Definition toy_names (r : Z) : bytes := [50 + r; 7].
Definition toy_keys (p q : nat) : bytes := [3 + Z.of_nat p; Z.of_nat q].
Definition toy_items (i : nat) : list bytes :=
  match i with 0%nat => [[3]; [1]; [8; 8]] | 1%nat => [[8; 8]; [2]; [1]; [4]] | _ => [[1]; [9]; [8; 8]; [3]; [2]] end.

Lemma MemoryPsi_correct_witness :
  sn (meet (ecdh_psi2 toy_names toy_keys 1 3)) (parties 3 1 toy_items true) /\
  (forall w, rtc (meet (ecdh_psi2 toy_names toy_keys 1 3)) (parties 3 1 toy_items true) w ->
     rtc (meet (ecdh_psi2 toy_names toy_keys 1 3)) w (replicate 3 (Returned (Ok [[1]; [8; 8]])))).
Proof.
  apply (MemoryPsi_correct toy_names toy_keys 1 2 3).
  - intros p q Hp Hq Hpq [= E]. lia.
  - lia.
  - cbn. unfold kFinalCompareBytes. lia.
  - lia.
  - lia.
  - intros p q x y Hp Hq Hpq.
    assert (p = 0 \/ p = 1 \/ p = 2)%nat as [-> | [-> | ->]] by lia; assert (q = 0 \/ q = 1 \/ q = 2)%nat as [-> | [-> | ->]] by lia; try done.
    all: unfold toy_items; rewrite !elem_of_cons, !elem_of_nil; intros Hx Hy; naive_solver (vm_compute in *; congruence).
Defined.
